(* ===== verification/_CoqProject ===== *)
-Q . S2P
Prelude.v
Text.v
FileSystem.v
Crash.v
BTree.v
External.v
Messages.v
Batch.v
Blob.v
L2Message.v
Multiplexer.v
L1Decode.v
L1Reader.v
DelayedReader.v
L1Range.v
Resume.v
L1Sync.v
L1Pipeline.v
TrustedL2.v
Driver.v
Feed.v
Ingress.v
Finite.v
Recover.v
RecoverSafety.v
RecoverLock.v
Rewind.v
SnapshotStream.v
StorageV2.v
Preimages.v
TxLog.v
StoredReceipt.v
SnapshotFull.v
SnapshotFullSafety.v
SnapshotFullTotal.v
HeadImport.v
HeadImportSafety.v
BlockExecutor.v
Production.v
ProductionSpec.v
Payload.v
Genesis.v
Launch.v
EndToEnd.v
Shutdown.v
Lanes.v
GenesisVerify.v
Simulate.v
Rpc.v
SnapshotRead.v
Timing.v
ChangesetFiles.v
LogService.v
NodeTasks.v
Canonical.v
PayloadTypes.v
EvmAdapter.v
Persist.v
NodeConfig.v
