(* ===== verification/Prelude.v ===== *)
(** * arbitrum-reth: a verification development

    arbitrum-reth runs an Arbitrum chain on Reth. The L2 chain is determined by two L1 contracts: the
    sequencer inbox, to which batches of messages are posted, and the bridge, which holds the delayed
    messages that users send directly. The node reads both, derives the messages of every L2 block in
    order, executes them, and also follows the sequencer's feed, which delivers the same messages
    earlier. What it derives must be exactly what the contracts say, whatever the order in which
    answers arrive, the window sizes, the restarts and the power losses; and a node whose chain
    leaves the trusted one must stop, and be recovered without losing what was right.

    ** Files

    Shared:
    - [Prelude] (this file): bytes, machine integers, [result] with [let?], list lemmas, tactics,
      the hint databases [layout] and [words].
    - [FileSystem]: the calls of [std::fs] that crash-safe files are written with, and what a power
      loss may leave; atomic replacement ([replace_survives]) is proved once.
    - [Crash]: a monad for commands whose durable writes may be cut short, with rules for partial
      ([wp]) and total ([twp]) correctness.
    - [BTree]: [BTreeMap] as a sorted association list.
    - [External]: classes for code that is not in the repository (keccak, RLP, brotli, JSON-RPC,
      KZG), with the documented laws the code relies on.
    - [Text]: the operations of [str] on ASCII text that the importers use.

    From L1 to messages ([crates/arb-reth-derive], [crates/arb-reth-l1]):
    - [Messages] (message.rs, delayed.rs): messages, hashes and the delayed accumulator.
    - [Batch] (batch.rs): batch headers, flags and the RLP segment stream.
    - [Blob] (blob.rs): the EIP-4844 field-element codec.
    - [L2Message] (l2message.rs): parsing of L2 messages and nested batches.
    - [Multiplexer] (multiplexer.rs): from segments and delayed messages to the messages of a batch.
    - [L1Decode] (lib.rs, batch_serialize.rs, feed.rs, assemble.rs): payloads, serialization for
      batch-posting reports, assembly into numbered feed messages.
    - [L1Reader] (reader.rs, contracts.rs, beacon.rs), [DelayedReader] (delayed.rs): the readers of
      the two contracts and of blobs.
    - [L1Range] (sync.rs): deriving a range of L1 blocks, with the forward-carried delayed cache.

    Catching up ([crates/arb-reth-sync]):
    - [Resume] (resume.rs): the log of derivation boundaries and its file.
    - [L1Sync], [L1Pipeline] (l1_sync.rs): configuration, delivery, checkpoints, supervision; the main
      loop as a step function with its windows in flight.

    The node ([crates/arb-reth-engine], [crates/arb-reth-node]):
    - [Driver] (engine.rs): reconciliation of both sources by sequence number, application, settling.
    - [Feed] (feed.rs): source lanes, the race between them, reconnect cursors.
    - [Ingress] (launcher.rs): admission, the arbitration of the two channels, the drive loop.
    - [Finite] (finite.rs, launcher.rs): a stopped run to an exact frontier and its completion.
    - [TrustedL2] (trusted_l2.rs, commands/node.rs): the monitor that compares the durable chain with
      a trusted one, and the publication of the incident marker ([Marker]).
    - [Recover], [RecoverSafety], [RecoverLock] (commands/recover.rs): recovery from an incident, as a
      program, over any history of runs, and with any number of commands at once.
    - [Rewind] (commands/rewind.rs): the rewind command and the layout migration ([Layout]).
    - [StorageV2] (storage_v2.rs): the persistence proxy, which checks each batch against the confirmed
      frontier and completes the reverts of accounts whose storage a legacy block wiped.
    - [Lanes] (feed.rs): the connections to the relays, the bounded channel and the coordinator as one
      step relation.
    - [Launch] (commands/node.rs): the checks of the command line, the bootstrap of the chain and the
      rollup, the gates of an incident and the resume point, as actions of a trace.
    - [NodeTasks] (commands/node.rs, launcher.rs): the replayed feed, the derivation task, and the
      select the command ends in.
    - [NodeConfig] (launcher.rs, commands/dump_blocks.rs): RPC servers and storage settings of a launch;
      what a dump prints.
    - [Shutdown] (engine.rs, storage_v2.rs, launcher.rs): the end of the engine and its threads.
    - [Persist] (persist.rs): one executed block written directly.

    Blocks ([crates/arb-reth-evm], [crates/arb-reth-engine], [crates/arb-reth-rpc]):
    - [BlockExecutor] (env.rs, config.rs, block.rs): environments, the executor and the assembler.
    - [EvmAdapter] (lib.rs, tx.rs, precompiles.rs, rpc.rs): the EVM made from an environment, lowered
      transactions, the precompile that answers a call.
    - [Production], [ProductionSpec] (engine.rs): a message becomes a block.
    - [Payload] (native_payload.rs): the build over a parent, one job per request; [Driver]'s engine.
    - [PayloadTypes] (engine lib.rs, engine_spike.rs): payloads, their identifiers and conversions.
    - [Canonical] (engine.rs): when a block counts as canonical.
    - [Timing] (engine.rs, metrics.rs): where the time of a block and of a feed message goes.
    - [TxLog], [LogService] (tx_log_stream.rs, mev_tx_logs.rs): execution frontiers, event frames, and
      the socket service with its clients.
    - [Simulate] (mev_frontier_rpc.rs): a call at a frontier.
    - [StoredReceipt] (stored_receipt.rs), [Rpc] (arb-reth-rpc lib.rs): receipts as Nitro stores them
      and as RPC serves them.

    Snapshots and genesis ([crates/arb-reth-genesis], [crates/arb-reth-node]):
    - [SnapshotStream] (snapshot_stream.rs): the import stream, reader and builder.
    - [SnapshotFull], [SnapshotFullSafety], [SnapshotFullTotal] (commands/snapshot_full.rs): the full
      importer, what a completed datadir holds, and that an exported stream is imported.
    - [ChangesetFiles] (commands/snapshot_full.rs): the names of the changeset files.
    - [Preimages] (readers.rs, preimages.rs, arbitrum_one.rs), [HeadImport], [HeadImportSafety]
      (commands/snapshot.rs): the slot-preimage sidecar, the head-state importer, the launch check.
    - [SnapshotRead] (hashed_db.rs, commands/snapshot.rs): lookups in a converted snapshot.
    - [Genesis] (genesis.rs, executor.rs), [GenesisVerify] (verify.rs, commands/genesis.rs): chain
      specifications and the check of a genesis.

    Composition: [EndToEnd] puts [Launch], [L1Pipeline], [Driver] and [Payload] together.

    ** How the code is modelled

    Pure functions are Rocq functions of the same name. Integers are [Z]; [u64] arithmetic wraps,
    saturates or is checked where the code does so. [Result] is [result]. Asynchronous code is
    modelled by what can be observed: the answers of remote calls are inputs, the timing of channels
    is an explicit list of arrivals and polls ([Ingress]), concurrent fetches complete in any order
    ([DelayedReader]), waiters and publishers are step relations over their interleavings
    ([Finite.Completion], [TrustedL2.Marker], [RecoverLock], [Lanes], [Shutdown], [LogService]), a
    timer is a reading of a monotone clock ([Timing]), and every call of a command may fail or be the
    last before a power loss ([Recover], [Rewind], [SnapshotFull], [HeadImport], [Preimages],
    [ChangesetFiles]). Code outside the repository enters through classes or records of inputs; each
    claim that uses a law of such code has a witness with a concrete instance.

    Durability is modelled where the code provides it. Files that are replaced through a synced
    temporary go through [FileSystem], where contents and names that were not synced may be lost; the
    full importer writes its resume log and renames its changeset files without a sync, so in
    [SnapshotFull] a power loss may undo the renames and lose or empty the log, while a kill may not.
    Two calls are taken as whole: the removal of blocks with its commit ([Rewind.unwinds],
    [Recover]), whose layers Reth's consistency check brings together when a kill leaves them apart,
    and the writes into a staged sidecar ([Preimages]), which count as durable when they return, so
    that [sync_directory] changes nothing there.

    Recursion that is not structural has fuel, and the fuel is shown to be enough where a result is
    claimed: segment and RLP walks use the input length, the drain of the driver the number of
    buffered messages, the drive loop [enough] (a bound computed from its channels), the catch-up
    loop is one step at a time. A selection of [IngressScheduler::next_batch] polls at most twice,
    which is why its fuel is 2. Six durable writes suffice for a recovery. The production loop needs
    one turn per transaction of the message and per retry it schedules; a retry runs on gas donated
    out of the gas limit of the transaction that scheduled it ([ProductionSpec.RedeemGas]), so the gas
    limits bound the turns. The supervisor of derivation may retry for ever: its fuel counts attempts,
    and without a result all of them were retried. An import of an exported stream needs a number of commits computed from it; a
    shutdown ends within thirteen steps, the drop of a driver within nine and the cleanup of a failed
    start within six; a changeset file is renamed by at most four calls.

    ** What the theorems show

    - Derivation: [extract_messages] refines a positional specification, errors included, and
      contains every delayed message once; parsing and printing of segments, L2 messages, blobs and
      payloads are inverse; the reports of a range are those of batches that hash to what they claim.
    - Range and catch-up: the delayed cache never changes a result; the windows partition the range
      and skipped ones are empty; what is delivered is what lies above the durable tip; checkpoints
      are written only behind it; replacing the resume file is crash safe; a provider failure is
      retried from the newest checkpoint, and the first attempt that is not retried is the result.
    - Node: whatever the order and timing of both sources, each sequence number is applied once and in
      order. The driver's reorder buffer holds 50,000 messages and drops one that meets it full
      ([Driver.never_full]); what is delivered is applied as long as that does not happen, and what L1
      delivers in order is applied in any case. Arbitration is fair; a finite run ends at or below its
      frontier, and exactly at it unless the close of its input rejected a message; no
      message is lost between the relays and the engine; a message becomes the block of its number,
      over its parent; and a node that restarts extends its durable tip by the blocks of L1.
    - Blocks: production follows Nitro's order of transactions and retries, ends, and does not depend
      on observers or on the state-root task; header, receipts and served receipts say what was
      executed; the frontier store keeps its last arrivals, and a simulation sees the state after the
      transaction it names; calls see the header's
      block; the timings of a block add up; the requests of a driver differ in what
      their job identifiers are made from.
    - Trust and recovery: from the first tip that the trusted endpoint serves, the monitor compares
      every height and reports the first divergence; markers
      are never replaced; an incident stops a start before anything is read or contacted; over any
      history of faulty recovery runs the invariant holds, also when commands run at the same time, and
      one undisturbed run with the same inputs completes what earlier runs left, unless a terminal
      failure was recorded or a block that is not canonical is durable at the frontier; a rewind leaves the old state or one a
      restart can resume from.
    - Persistence: every batch that reaches the delegate extends what it confirmed last, and unwinding
      a wiped account restores its storage exactly.
    - Shutdown: it always ends, with every sender released; a thread that still runs then was released
      and is reported, and success means that all ended cleanly.
    - Snapshots: accepted streams are linked, what the builder writes is read back, and it is imported;
      a datadir is marked complete only when its tables are those of the stream, bodies and receipts
      included; a preflight decides whether an import succeeds; an imported snapshot boots when its
      lines are as exported; stored receipts decode to the receipts of
      a forward run.

    ** Not modelled

    What is outside the repository is a class or a parameter: revm, arb_revm, Reth's tree, provider,
    builder and pipeline, MDBX, alloy, serde_json, clap, tokio and the network. Of the repository, left
    out are: the construction of the Reth node in launcher.rs and the wiring of [ArbEngineDriver::spawn]
    (values handed to Reth, nothing decided); the command line declarations and the dispatch of
    bin/arb-reth.rs; addons.rs, pooled.rs and the trait implementations that only delegate to an inner
    value; [Display] and [Debug] implementations, logging, printed reports, the metric handles
    themselves and throughput figures in floating point; tests. *)

From Stdlib Require Import ZArith Lia List.
From Stdlib Require Import Strings.Byte.
From stdpp Require Import base list numbers option.

#[global] Open Scope Z_scope.
#[global] Open Scope list_scope.

(** ** Bytes *)

Abbreviation u8 := Byte.byte (only parsing).
Abbreviation bytes := (list Byte.byte) (only parsing).

#[global] Instance byte_eq_dec : EqDecision Byte.byte := Byte.byte_eq_dec.

(** The numeric value of a [u8]. *)
Definition b2z (b : u8) : Z := Z.of_N (Byte.to_N b).

(** [x as u8]: keeps the low eight bits. *)
Definition z2b (z : Z) : u8 :=
  match Byte.of_N (Z.to_N (z mod 256)) with
  | Some b => b
  | None => x00
  end.

Lemma b2z_bound (b : u8) : 0 <= b2z b < 256.
Proof.
  unfold b2z. pose proof (Byte.to_N_bounded b). lia.
Qed.

Lemma b2z_z2b (z : Z) : b2z (z2b z) = z mod 256.
Proof.
  unfold b2z, z2b.
  pose proof (Z.mod_pos_bound z 256 ltac:(lia)).
  destruct (Byte.of_N (Z.to_N (z mod 256))) as [b|] eqn:E.
  - apply Byte.to_of_N in E. rewrite E. lia.
  - apply Byte.of_N_None_iff in E. lia.
Qed.

Lemma b2z_inj (a b : u8) : b2z a = b2z b -> a = b.
Proof.
  unfold b2z. intros H. apply N2Z.inj in H.
  pose proof (Byte.of_to_N a) as Ha. pose proof (Byte.of_to_N b) as Hb. congruence.
Qed.

Lemma z2b_b2z (b : u8) : z2b (b2z b) = b.
Proof.
  apply b2z_inj. rewrite b2z_z2b. apply Z.mod_small, b2z_bound.
Qed.

Definition byte_eqb (a b : u8) : bool := bool_decide (a = b).

Lemma byte_eqb_ne (a b : u8) : a <> b -> byte_eqb a b = false.
Proof. apply bool_decide_eq_false_2. Qed.

(** ** Machine integers

    A [u64], [u128], [U256], [B256] or [Address] is a [Z]; the type's width appears where the
    code wraps, saturates or checks. Plain [+] and [-] on [u64] follow the release profile of
    the workspace, which does not enable overflow checks: they wrap. *)

Definition U64_MAX : Z := 2 ^ 64 - 1.
Definition is_u64 (z : Z) : Prop := 0 <= z < 2 ^ 64.
Definition is_b256 (z : Z) : Prop := 0 <= z < 2 ^ 256.
Definition is_address (z : Z) : Prop := 0 <= z < 2 ^ 160.

Definition wrap64 (z : Z) : Z := z mod 2 ^ 64.
Definition wrapping_add (a b : Z) : Z := wrap64 (a + b).
Definition wrapping_sub (a b : Z) : Z := wrap64 (a - b).
Definition saturating_sub (a b : Z) : Z := Z.max 0 (a - b).
Definition saturating_add (a b : Z) : Z := Z.min U64_MAX (a + b).
Definition checked_add (a b : Z) : option Z :=
  if a + b <=? U64_MAX then Some (a + b) else None.

Lemma wrap64_small (z : Z) : is_u64 z -> wrap64 z = z.
Proof. intros. by apply Z.mod_small. Qed.

Lemma wrap64_bound (z : Z) : is_u64 (wrap64 z).
Proof. apply Z.mod_pos_bound. lia. Qed.

(** Or-ing in a value above the bits already there is an addition. *)
Lemma lor_shiftl_add (a b k : Z) :
  0 <= k -> 0 <= a < 2 ^ k -> Z.lor a (Z.shiftl b k) = a + b * 2 ^ k.
Proof.
  intros Hk Ha. rewrite <- (Z.shiftl_mul_pow2 b k) by done.
  rewrite <- Z.add_lor_land.
  replace (Z.land a (Z.shiftl b k)) with 0; [lia|].
  apply Z.bits_inj'. intros i Hi. rewrite Z.bits_0, Z.land_spec, Z.shiftl_spec by done.
  destruct (decide (i < k)).
  - rewrite (Z.testbit_neg_r b) by lia. by rewrite andb_false_r.
  - destruct (decide (a = 0)) as [->|]; [by rewrite Z.bits_0|].
    rewrite (Z.bits_above_log2 a); [done|lia|].
    enough (Z.log2 a < k) by lia. apply Z.log2_lt_pow2; lia.
Qed.

(** ** Big-endian encodings: [from_be_bytes] and [to_be_bytes] at every width *)

Definition be_decode (l : bytes) : Z := fold_left (fun acc b => acc * 256 + b2z b) l 0.

Fixpoint be_encode (n : nat) (z : Z) : bytes :=
  match n with
  | O => []
  | S n' => be_encode n' (z / 256) ++ [z2b z]
  end.

Lemma fold_be (l : bytes) (acc : Z) :
  fold_left (fun acc b => acc * 256 + b2z b) l acc = acc * 256 ^ Z.of_nat (length l) + be_decode l.
Proof.
  unfold be_decode. revert acc. induction l as [|b l IH]; intros acc; cbn [fold_left length].
  - rewrite Z.pow_0_r. lia.
  - rewrite IH, (IH (0 * 256 + b2z b)), Nat2Z.inj_succ, Z.pow_succ_r by lia. lia.
Qed.

Lemma be_decode_app (l k : bytes) :
  be_decode (l ++ k) = be_decode l * 256 ^ Z.of_nat (length k) + be_decode k.
Proof. unfold be_decode at 1. by rewrite fold_left_app, fold_be. Qed.

Lemma be_decode_cons (b : u8) (l : bytes) :
  be_decode (b :: l) = b2z b * 256 ^ Z.of_nat (length l) + be_decode l.
Proof. apply (be_decode_app [b] l). Qed.

Lemma be_decode_bound (l : bytes) : 0 <= be_decode l < 256 ^ Z.of_nat (length l).
Proof.
  induction l as [|b l IH]; [done|].
  rewrite be_decode_cons; cbn [length]. rewrite Nat2Z.inj_succ, Z.pow_succ_r by lia.
  pose proof (b2z_bound b). nia.
Qed.

Lemma be_encode_length (n : nat) (z : Z) : length (be_encode n z) = n.
Proof.
  revert z. induction n as [|n IH]; intros z; cbn [be_encode]; [done|].
  rewrite length_app, IH. cbn. lia.
Qed.

Lemma be_encode_1 (z : Z) : be_encode 1 z = [z2b z].
Proof. done. Qed.

Lemma be_decode_encode (n : nat) (z : Z) : be_decode (be_encode n z) = z mod 256 ^ Z.of_nat n.
Proof.
  revert z. induction n as [|n IH]; intros z; cbn [be_encode].
  - by rewrite Z.mod_1_r.
  - rewrite be_decode_app, IH. cbn [length]. unfold be_decode; cbn [fold_left].
    change (256 ^ Z.of_nat 1) with 256.
    rewrite b2z_z2b, Nat2Z.inj_succ, Z.pow_succ_r, (Z.rem_mul_r z 256) by lia. lia.
Qed.

Lemma be_decode_encode_small (n : nat) (z : Z) :
  0 <= z < 256 ^ Z.of_nat n -> be_decode (be_encode n z) = z.
Proof. intros. rewrite be_decode_encode. by apply Z.mod_small. Qed.

Lemma be_encode_decode (l : bytes) : be_encode (length l) (be_decode l) = l.
Proof.
  induction l as [|b l IH] using rev_ind; [done|].
  rewrite length_app, Nat.add_1_r. cbn [be_encode]. rewrite be_decode_app.
  unfold be_decode at 2 4; cbn [fold_left length].
  pose proof (b2z_bound b).
  replace ((be_decode l * 256 ^ Z.of_nat 1 + (0 * 256 + b2z b)) / 256) with (be_decode l)
    by (apply (Z.div_unique _ 256 _ (b2z b)); lia).
  rewrite IH. do 2 f_equal. apply b2z_inj. rewrite b2z_z2b.
  symmetry. apply (Z.mod_unique _ 256 (be_decode l)); lia.
Qed.

Lemma be_encode_decode_len (n : nat) (l : bytes) :
  length l = n -> be_encode n (be_decode l) = l.
Proof. intros <-. apply be_encode_decode. Qed.

Lemma be_encode_inj (n : nat) (a b : Z) :
  0 <= a < 256 ^ Z.of_nat n -> 0 <= b < 256 ^ Z.of_nat n ->
  be_encode n a = be_encode n b -> a = b.
Proof.
  intros Ha Hb H. rewrite <- (be_decode_encode_small n a), <- (be_decode_encode_small n b) by done.
  by rewrite H.
Qed.

Lemma be_decode_inj (l k : bytes) :
  length l = length k -> be_decode l = be_decode k -> l = k.
Proof.
  intros Hl H. rewrite <- (be_encode_decode l), <- (be_encode_decode k). congruence.
Qed.

(** ** Slices *)

(** [&l[o..o + n]], for the uses the code guards with a length check. *)
Definition slice (o n : nat) (l : bytes) : bytes := take n (drop o l).

(** [l.get(i..j)]: [None] when the range is decreasing or runs past the end. *)
Definition get_range (i j : nat) (l : bytes) : option bytes :=
  if (i <=? j)%nat && (j <=? length l)%nat then Some (slice i (j - i) l) else None.

Lemma slice_length (o n : nat) (l : bytes) :
  (o + n <= length l)%nat -> length (slice o n l) = n.
Proof. intros. unfold slice. rewrite length_take, length_drop. lia. Qed.

Lemma slice_app_skip (o n : nat) (l k : bytes) :
  (length l <= o)%nat -> slice o n (l ++ k) = slice (o - length l) n k.
Proof. intros. unfold slice. by rewrite drop_app_ge. Qed.

Lemma slice_app_head (n : nat) (l k : bytes) :
  length l = n -> slice 0 n (l ++ k) = l.
Proof. intros <-. unfold slice. rewrite drop_0. by rewrite take_app_length. Qed.

Lemma slice_all (n : nat) (l : bytes) : length l = n -> slice 0 n l = l.
Proof. intros <-. unfold slice. rewrite drop_0. by apply take_ge. Qed.

Lemma get_range_Some (i j : nat) (l r : bytes) :
  get_range i j l = Some r <-> (i <= j <= length l)%nat /\ r = slice i (j - i) l.
Proof.
  unfold get_range. destruct (andb _ _) eqn:E.
  - apply andb_prop in E as [E1%Nat.leb_le E2%Nat.leb_le]. split; [intros [= <-]; done|].
    by intros [_ ->].
  - split; [done|]. intros [[H1 H2] _].
    apply Nat.leb_le in H1. apply Nat.leb_le in H2. by rewrite H1, H2 in E.
Qed.

(** ** Results: Rust's [Result<A, E>] with [?] *)

Inductive result (E A : Type) : Type :=
| Ok (a : A)
| Err (e : E).

Arguments Ok {E A} a.
Arguments Err {E A} e.

Definition rbind {E A B : Type} (r : result E A) (k : A -> result E B) : result E B :=
  match r with
  | Ok a => k a
  | Err e => Err e
  end.

(** [r.map_err(f)] *)
Definition map_err {E F A : Type} (f : E -> F) (r : result E A) : result F A :=
  match r with
  | Ok a => Ok a
  | Err e => Err (f e)
  end.

(** [o.ok_or(e)] *)
Definition ok_or {E A : Type} (e : E) (o : option A) : result E A :=
  match o with
  | Some a => Ok a
  | None => Err e
  end.

Definition is_ok {E A : Type} (r : result E A) : bool :=
  match r with Ok _ => true | Err _ => false end.

Notation "'let?' x ':=' e 'in' k" := (rbind e (fun x => k))
  (at level 10, x name, e at level 100, k at level 200).
Notation "'let?' ' p ':=' e 'in' k" := (rbind e (fun p => k))
  (at level 10, p strict pattern, e at level 100, k at level 200).

(** [iter.map(f).collect::<Result<Vec<_>, _>>()]: stops at the first error, in order. *)
Fixpoint try_map {E A B : Type} (f : A -> result E B) (l : list A) : result E (list B) :=
  match l with
  | [] => Ok []
  | a :: l' => let? b := f a in let? bs := try_map f l' in Ok (b :: bs)
  end.

Lemma rbind_Ok {E A B : Type} (r : result E A) (k : A -> result E B) (b : B) :
  rbind r k = Ok b <-> exists a, r = Ok a /\ k a = Ok b.
Proof. destruct r; cbn; naive_solver. Qed.

Lemma map_err_Ok {E F A : Type} (f : E -> F) (r : result E A) (a : A) :
  map_err f r = Ok a <-> r = Ok a.
Proof. destruct r; cbn; naive_solver. Qed.

Lemma map_err_Err {E F A : Type} (f : E -> F) (r : result E A) (e : F) :
  map_err f r = Err e <-> exists e', r = Err e' /\ e = f e'.
Proof. destruct r; cbn; naive_solver. Qed.

Lemma ok_or_Ok {E A : Type} (e : E) (o : option A) (a : A) :
  ok_or e o = Ok a <-> o = Some a.
Proof. destruct o; cbn; naive_solver. Qed.

Lemma try_map_Ok {E A B : Type} (f : A -> result E B) (l : list A) (bs : list B) :
  try_map f l = Ok bs <-> Forall2 (fun a b => f a = Ok b) l bs.
Proof.
  revert bs. induction l as [|a l IH]; intros bs; cbn [try_map].
  - split; [intros [= <-]; constructor|]. by inversion 1.
  - rewrite rbind_Ok. split.
    + intros (b & Hb & (bs' & Hbs & [= <-])%rbind_Ok). constructor; [done|]. by apply IH.
    + inversion 1 as [|? b ? bs' Hb Hbs]; subst. exists b. split; [done|].
      rewrite rbind_Ok. exists bs'. split; [by apply IH|done].
Qed.

(** A [for] loop whose body uses [?]: the state after the last element, or the first error. *)
Fixpoint try_fold {E S A : Type} (f : S -> A -> result E S) (l : list A) (s : S) : result E S :=
  match l with
  | [] => Ok s
  | a :: l' => let? s' := f s a in try_fold f l' s'
  end.

Lemma try_fold_app {E S A : Type} (f : S -> A -> result E S) (l k : list A) (s : S) :
  try_fold f (l ++ k) s = rbind (try_fold f l s) (try_fold f k).
Proof.
  revert s. induction l as [|a l IH]; intros s; [done|]. cbn [app try_fold].
  destruct (f s a); [apply IH|done].
Qed.

Lemma try_fold_snoc {E S A : Type} (f : S -> A -> result E S) (l : list A) (a : A) (s : S) :
  try_fold f (l ++ [a]) s = rbind (try_fold f l s) (fun s' => f s' a).
Proof.
  rewrite try_fold_app. destruct (try_fold f l s) as [s'|]; [|done]. cbn.
  by destruct (f s' a).
Qed.

(** An invariant of the loop body is an invariant of the loop. *)
Lemma try_fold_inv {E S A : Type} (P : S -> Prop) (f : S -> A -> result E S) (l : list A) (s s' : S) :
  (forall s a s', In a l -> P s -> f s a = Ok s' -> P s') -> P s -> try_fold f l s = Ok s' -> P s'.
Proof.
  revert s. induction l as [|a l IH]; intros s Hstep Hs; cbn [try_fold].
  - by intros [= <-].
  - rewrite rbind_Ok. intros (s1 & H1 & H2). apply (IH s1); [|by eapply Hstep; [left| |]|done].
    intros s2 b s3 Hb. apply Hstep. by right.
Qed.

(** A property checked element by element, as the loop body returns. *)
Lemma Forall2_filter_bool {A B : Type} (R : A -> B -> Prop) (f : A -> bool) (g : B -> bool)
    (l : list A) (k : list B) :
  Forall2 R l k -> (forall a b, R a b -> f a = g b) ->
  Forall2 R (List.filter f l) (List.filter g k).
Proof.
  intros Hlk Hfg. induction Hlk as [|a b l k Hab Hlk IH]; [constructor|]. cbn [List.filter].
  rewrite (Hfg a b Hab). destruct (g b); [by constructor|done].
Qed.

(** ** Tactics and hint databases *)

(** Splits every hypothesis that says a chain of [?] returned [Ok]. *)
Ltac ok_inv :=
  repeat match goal with
  | H : rbind _ _ = Ok _ |- _ =>
      let a := fresh "v" in let Ha := fresh "E" in
      apply rbind_Ok in H; destruct H as (a & Ha & H)
  | H : map_err _ _ = Ok _ |- _ => apply map_err_Ok in H
  | H : ok_or _ _ = Ok _ |- _ => apply ok_or_Ok in H
  | H : Ok _ = Ok _ |- _ => injection H as H
  | H : Err _ = Ok _ |- _ => discriminate H
  | H : Ok _ = Err _ |- _ => discriminate H
  | x : (_ * _)%type |- _ => destruct x
  end.

(** Case analysis on the conditionals of a hypothesis, closing the contradictory ones. *)
Ltac if_inv H :=
  repeat match type of H with
  | context [if ?b then _ else _] => let E := fresh "C" in destruct b eqn:E; try discriminate H
  end.

(** Evaluates the comparisons between known bytes. *)
Ltac eval_kinds :=
  repeat match goal with
  | |- context [byte_eqb ?a ?b] =>
      let v := eval vm_compute in (byte_eqb a b) in
      lazymatch v with
      | true => change (byte_eqb a b) with true
      | false => change (byte_eqb a b) with false
      end
  end; cbn iota.

Create Rewrite HintDb layout.
#[export] Hint Rewrite be_encode_length : layout.
#[export] Hint Rewrite @length_app : layout.

(** Reads a field out of a concatenation of fixed-width fields. *)
Ltac layout_len := autorewrite with layout; cbn [length]; lia.
Ltac layout :=
  repeat first
    [ rewrite slice_app_head by layout_len
    | rewrite slice_all by layout_len
    | rewrite slice_app_skip by layout_len ];
  autorewrite with layout; cbn [length Nat.sub].

Create HintDb words discriminated.
#[export] Hint Resolve b2z_bound wrap64_bound be_decode_bound : words.

#[global] Opaque be_encode be_decode.
