(* ===== verification/Text.v ===== *)
(** * Text

    The operations of [str] that the importers use, on ASCII text: white space, trimming, splitting
    and the repeated removal of a prefix. *)

From Stdlib Require Import Strings.Ascii Strings.String.
From stdpp Require Import base list numbers option strings.
From S2P Require Import Prelude.

(** [char::is_whitespace] on ASCII: tab to carriage return, and the space. *)
Definition is_whitespace (c : ascii) : bool :=
  let n := N_of_ascii c in ((9 <=? n) && (n <=? 13) || (n =? 32))%N.

Fixpoint trim_start (s : string) : string :=
  match s with
  | EmptyString => EmptyString
  | String c s' => if is_whitespace c then trim_start s' else s
  end.

Fixpoint trim_end (s : string) : string :=
  match s with
  | EmptyString => EmptyString
  | String c s' =>
      match trim_end s' with
      | EmptyString => if is_whitespace c then EmptyString else String c EmptyString
      | t => String c t
      end
  end.

(** [str::trim] *)
Definition trim_text (s : string) : string := trim_end (trim_start s).

(** The text up to the next white space, and what follows. *)
Fixpoint next_word (s : string) : string * string :=
  match s with
  | EmptyString => (EmptyString, EmptyString)
  | String c s' =>
      if is_whitespace c then (EmptyString, s')
      else let '(w, rest) := next_word s' in (String c w, rest)
  end.

(** [str::split_whitespace]; every turn consumes a character. *)
Fixpoint split_loop (fuel : nat) (s : string) : list string :=
  match fuel with
  | O => []
  | S fuel =>
      match s with
      | EmptyString => []
      | _ =>
          let '(w, rest) := next_word s in
          match w with
          | EmptyString => split_loop fuel rest
          | _ => w :: split_loop fuel rest
          end
      end
  end.

Definition split_whitespace (s : string) : list string := split_loop (String.length s) s.

Fixpoint strip_prefix (prefix s : string) : option string :=
  match prefix, s with
  | EmptyString, _ => Some s
  | String a prefix, String b s => if Ascii.eqb a b then strip_prefix prefix s else None
  | _, _ => None
  end.

(** [trim_start_matches("0x")]: as often as it is there. *)
Fixpoint trim_hex_prefix (s : string) : string :=
  match s with
  | String a (String b s' as t) =>
      if (Ascii.eqb a "0"%char && Ascii.eqb b "x"%char)%bool then trim_hex_prefix s' else s
  | _ => s
  end.

Fixpoint contains (c : ascii) (s : string) : bool :=
  match s with
  | EmptyString => false
  | String a s => Ascii.eqb a c || contains c s
  end.

(** [split_once(c)], of which only the first part is used. *)
Fixpoint split_once (c : ascii) (s : string) : option string :=
  match s with
  | EmptyString => None
  | String a s => if Ascii.eqb a c then Some EmptyString else String a <$> split_once c s
  end.

Definition digit (c : ascii) : option Z :=
  let n := Z.of_N (N_of_ascii c) in
  if (48 <=? n) && (n <=? 57) then Some (n - 48) else None.

Fixpoint parse_digits (acc : Z) (s : string) : option Z :=
  match s with
  | EmptyString => Some acc
  | String c s =>
      d ← digit c;
      if acc * 10 + d <=? U64_MAX then parse_digits (acc * 10 + d) s else None
  end.

(** [str::parse::<u64>]: a leading [+] is allowed. *)
Definition parse_u64 (s : string) : option Z :=
  match s with
  | EmptyString => None
  | String "+"%char EmptyString => None
  | String "+"%char s => parse_digits 0 s
  | s => parse_digits 0 s
  end.
