(* ===== verification/FileSystem.v ===== *)
(** * The file system calls of crash-safe replacement

    The part of [std::fs] that the resume log ([crates/arb-reth-sync/src/resume.rs]) and the
    incident marker ([crates/arb-reth-node/src/trusted_l2.rs]) write their files with, and what a
    power loss may leave of them: contents survive once the file has been synced, a directory entry
    once the directory has been. *)

From Stdlib Require Import Strings.Byte.
From stdpp Require Import base list numbers option strings gmap.
From S2P Require Import Prelude.

Module FileSystem.

(** An open file's contents and whether they have reached the disk. *)
Record Inode := { data : bytes; synced : bool }.

(** The visible directory, the inodes, and every directory state since the directory was last
    synced, any of which a power loss may leave behind. *)
Record Fs := {
  dir : gmap string nat;
  inodes : gmap nat Inode;
  pending : list (gmap string nat);
  next_inode : nat
}.

Inductive FsOp :=
| CreateNew (name : string)
| WriteAll (name : string) (bs : bytes)
| SyncAll (name : string)
| Rename (from to : string)
| SyncDir
| RemoveFile (name : string)
| HardLink (from to : string).

Definition set_dir (s : Fs) (d : gmap string nat) : Fs :=
  {| dir := d; inodes := inodes s; pending := d :: pending s; next_inode := next_inode s |}.

Definition set_inode (s : Fs) (id : nat) (i : Inode) : Fs :=
  {| dir := dir s; inodes := <[id := i]> (inodes s); pending := pending s; next_inode := next_inode s |}.

(** One call; [None] when it fails. *)
Definition fs_step (s : Fs) (op : FsOp) : option Fs :=
  match op with
  | CreateNew name =>
      match dir s !! name with
      | Some _ => None
      | None =>
          let id := next_inode s in
          Some {| dir := <[name := id]> (dir s);
                  inodes := <[id := {| data := []; synced := false |}]> (inodes s);
                  pending := <[name := id]> (dir s) :: pending s;
                  next_inode := S id |}
      end
  | WriteAll name bs =>
      id ← dir s !! name; i ← inodes s !! id;
      Some (set_inode s id {| data := data i ++ bs; synced := false |})
  | SyncAll name =>
      id ← dir s !! name; i ← inodes s !! id;
      Some (set_inode s id {| data := data i; synced := true |})
  | Rename from to =>
      id ← dir s !! from; Some (set_dir s (<[to := id]> (base.delete from (dir s))))
  | SyncDir =>
      Some {| dir := dir s; inodes := inodes s; pending := [dir s]; next_inode := next_inode s |}
  | RemoveFile name =>
      _ ← dir s !! name; Some (set_dir s (base.delete name (dir s)))
  | HardLink from to =>
      id ← dir s !! from;
      match dir s !! to with
      | Some _ => None
      | None => Some (set_dir s (<[to := id]> (dir s)))
      end
  end.

Fixpoint fs_run (s : Fs) (ops : list FsOp) : option Fs :=
  match ops with
  | [] => Some s
  | op :: ops' => s' ← fs_step s op; fs_run s' ops'
  end.

(** What a file may hold after a power loss: an entry of some directory state since the last
    directory sync, with the file's synced contents, or anything if they were not synced. *)
Definition survives (s : Fs) (name : string) (c : option bytes) : Prop :=
  exists d, In d (pending s) /\
    match d !! name with
    | None => c = None
    | Some id => exists i bs, inodes s !! id = Some i /\ c = Some bs /\
                              (synced i = true -> bs = data i)
    end.

(** A file system in which [path] certainly survives with contents [old] (or is absent). *)
Record holds (s : Fs) (path : string) (old : option bytes) : Prop := {
  holds_old : forall c, survives s path c -> c = old;
  holds_fresh : forall d id, In d (pending s) -> d !! path = Some id -> (id < next_inode s)%nat;
  holds_dir : In (dir s) (pending s)
}.

(** The contents of [path] survive a change of inodes that no pending entry of [path] uses. *)
Lemma survives_other (s s' : Fs) (path : string) (c : option bytes) :
  (forall d, In d (pending s') -> exists d', In d' (pending s) /\ d !! path = d' !! path /\
     forall id, d !! path = Some id -> inodes s' !! id = inodes s !! id) ->
  survives s' path c -> survives s path c.
Proof.
  intros Hall (d & Hd & Hc). destruct (Hall d Hd) as (d' & Hd' & Heq & Hid). exists d'. split; [done|].
  rewrite <- Heq. destruct (d !! path) as [id|]; [|done]. by rewrite <- (Hid id).
Qed.

Section Staging.
Variables (s : Fs) (path tmp : string) (old : option bytes).
Hypothesis Hs : holds s path old.
Hypothesis Htmp : tmp <> path.
Hypothesis Hnew : dir s !! tmp = None.

Let n : nat := next_inode s.
Let with_tmp : gmap string nat := <[tmp := n]> (dir s).

(** The states before the rename: the temporary file holds [bs]. *)
Definition staged (bs : bytes) (sy : bool) (s' : Fs) : Prop :=
  dir s' = with_tmp /\ pending s' = with_tmp :: pending s /\
  (forall id, (id < n)%nat -> inodes s' !! id = inodes s !! id) /\
  inodes s' !! n = Some {| data := bs; synced := sy |}.

Lemma staged_old (bs : bytes) (sy : bool) (s' : Fs) (c : option bytes) :
  staged bs sy s' -> survives s' path c -> c = old.
Proof.
  intros (Hd & Hp & Hi & Hn) Hc. apply (holds_old s path old Hs).
  eapply survives_other; [|exact Hc]. rewrite Hp. intros d [<-|Hin].
  - exists (dir s). split; [apply Hs|]. unfold with_tmp. rewrite lookup_insert_ne by done.
    split; [done|]. intros id Hid. apply Hi. eapply (holds_fresh s path old Hs); [apply Hs|exact Hid].
  - exists d. split_and!; [done|done|]. intros id Hid. apply Hi. by eapply (holds_fresh s path old Hs).
Qed.

Lemma stage_create : exists s1, fs_step s (CreateNew tmp) = Some s1 /\ staged [] false s1.
Proof.
  cbn. rewrite Hnew. eexists. split; [done|]. unfold staged. cbn. split_and!; [done|done| |].
  - intros id Hid. apply lookup_insert_ne. unfold n in Hid. lia.
  - apply lookup_insert_eq.
Qed.

Lemma stage_inode (bs bs' : bytes) (sy sy' : bool) (s1 : Fs) :
  staged bs sy s1 -> staged bs' sy' (set_inode s1 n {| data := bs'; synced := sy' |}).
Proof.
  intros (Hd & Hp & Hi & Hn). unfold staged. cbn. split_and!; [done|done| |apply lookup_insert_eq].
  intros id Hid. rewrite lookup_insert_ne by lia. auto.
Qed.

Lemma stage_lookup (bs : bytes) (sy : bool) (s1 : Fs) :
  staged bs sy s1 -> dir s1 !! tmp = Some n /\ inodes s1 !! n = Some {| data := bs; synced := sy |}.
Proof. intros (-> & _ & _ & Hn). unfold with_tmp. by rewrite lookup_insert_eq. Qed.

Lemma stage_write (bs bs' : bytes) (sy : bool) (s1 : Fs) :
  staged bs sy s1 -> exists s2, fs_step s1 (WriteAll tmp bs') = Some s2 /\ staged (bs ++ bs') false s2.
Proof.
  intros H1. destruct (stage_lookup _ _ _ H1) as [Hd Hn]. cbn. rewrite Hd. cbn. rewrite Hn. cbn.
  eexists. split; [done|]. by eapply stage_inode.
Qed.

Lemma stage_sync (bs : bytes) (sy : bool) (s1 : Fs) :
  staged bs sy s1 -> exists s2, fs_step s1 (SyncAll tmp) = Some s2 /\ staged bs true s2.
Proof.
  intros H1. destruct (stage_lookup _ _ _ H1) as [Hd Hn]. cbn. rewrite Hd. cbn. rewrite Hn. cbn.
  eexists. split; [done|]. by eapply stage_inode.
Qed.

(** After the rename the file is the old one or the staged one; after the directory sync it is
    the staged one. *)
Lemma stage_rename (bs : bytes) (s1 : Fs) :
  staged bs true s1 ->
  exists s2 s3, fs_step s1 (Rename tmp path) = Some s2 /\ fs_step s2 SyncDir = Some s3 /\
    (forall c, survives s2 path c -> c = old \/ c = Some bs) /\
    (forall c, survives s3 path c -> c = Some bs) /\ (exists c, survives s3 path c).
Proof.
  intros H1. destruct (stage_lookup _ _ _ H1) as [Hd Hn]. cbn. rewrite Hd. cbn.
  set (d2 := <[path := n]> (base.delete tmp (dir s1))).
  assert (Hd2 : d2 !! path = Some n) by apply lookup_insert_eq.
  eexists _, _. split; [done|]. split; [done|]. split_and!.
  - intros c (d & [<-|Hin] & Hc).
    + right. rewrite Hd2 in Hc. destruct Hc as (i & b & Hi & -> & Hb).
      cbn in Hi. rewrite Hn in Hi. injection Hi as <-. f_equal. by apply Hb.
    + left. eapply (staged_old bs true s1); [done|]. by exists d.
  - intros c (d & [<-|[]] & Hc). cbn in Hc. rewrite Hd2 in Hc. destruct Hc as (i & b & Hi & -> & Hb).
    rewrite Hn in Hi. injection Hi as <-. f_equal. by apply Hb.
  - exists (Some bs), d2. split; [by left|]. cbn. rewrite Hd2. by eexists _, bs.
Qed.

(** Atomic replacement: the staged file is flushed and renamed over [path], and the directory is
    synced. *)
Variable json : bytes.

Definition replace_ops : list FsOp :=
  [CreateNew tmp; WriteAll tmp json; WriteAll tmp [x0a]; SyncAll tmp; Rename tmp path; SyncDir].

Lemma replace_survives (k : nat) (s' : Fs) (c : option bytes) :
  fs_run s (take k replace_ops) = Some s' -> survives s' path c -> c = old \/ c = Some (json ++ [x0a]).
Proof.
  destruct stage_create as (s1 & E1 & H1).
  destruct (stage_write _ json _ _ H1) as (s2 & E2 & H2).
  destruct (stage_write _ [x0a] _ _ H2) as (s3 & E3 & H3).
  destruct (stage_sync _ _ _ H3) as (s4 & E4 & H4).
  destruct (stage_rename _ _ H4) as (s5 & s6 & E5 & E6 & H5 & H6 & _).
  rewrite app_nil_l in *. unfold replace_ops.
  destruct k as [|[|[|[|[|[|k]]]]]]; cbn [take fs_run];
    rewrite ?E1; cbn [mbind option_bind]; rewrite ?E2; cbn [mbind option_bind];
    rewrite ?E3; cbn [mbind option_bind]; rewrite ?E4; cbn [mbind option_bind];
    rewrite ?E5; cbn [mbind option_bind]; rewrite ?E6; cbn [mbind option_bind].
  all: try rewrite take_nil; cbn [fs_run]; intros [= <-] Hc.
  - left. by apply (holds_old s path old Hs).
  - left. by eapply staged_old; [exact H1|].
  - left. by eapply staged_old; [exact H2|].
  - left. by eapply staged_old; [exact H3|].
  - left. by eapply staged_old; [exact H4|].
  - by apply H5.
  - right. by apply H6.
Qed.

Lemma replace_completes :
  exists s', fs_run s replace_ops = Some s' /\ forall c, survives s' path c -> c = Some (json ++ [x0a]).
Proof.
  destruct stage_create as (s1 & E1 & H1).
  destruct (stage_write _ json _ _ H1) as (s2 & E2 & H2).
  destruct (stage_write _ [x0a] _ _ H2) as (s3 & E3 & H3).
  destruct (stage_sync _ _ _ H3) as (s4 & E4 & H4).
  destruct (stage_rename _ _ H4) as (s5 & s6 & E5 & E6 & H5 & H6 & _).
  exists s6. unfold replace_ops. cbn [fs_run]. rewrite E1. cbn [mbind option_bind]. rewrite E2.
  cbn [mbind option_bind]. rewrite E3. cbn [mbind option_bind]. rewrite E4. cbn [mbind option_bind].
  rewrite E5. cbn [mbind option_bind]. rewrite E6. done.
Qed.

End Staging.
End FileSystem.
