(* ===== verification/Crash.v ===== *)
(** * Programs whose durable writes may be cut short

    A monad for the stopped commands ([crates/arb-reth-node/src/commands/]): state on disk, errors,
    and a power loss before any durable write. With it, partial and total correctness rules. *)

From stdpp Require Import base numbers option.
From S2P Require Import Prelude.

(** How a program ends. *)
Inductive Result (E A : Type) :=
| Ret (a : A)
| Raise (error : E)
| Crashed.
Arguments Ret {E A} a.
Arguments Raise {E A} error.
Arguments Crashed {E A}.

(** How a durable write goes: a failing one may already have taken effect. *)
Inductive Fault (E : Type) :=
| Succeeds
| FailsBefore (error : E)
| FailsAfter (error : E).
Arguments Succeeds {E}.
Arguments FailsBefore {E} error.
Arguments FailsAfter {E} error.

(** The state carries the number of durable writes left before the power fails. *)
Definition M (D E A : Type) : Type := D * nat -> Result E A * (D * nat).

Section Programs.
Context {D E : Type}.

Definition mret {A : Type} (a : A) : M D E A := fun s => (Ret a, s).
Definition raise {A : Type} (e : E) : M D E A := fun s => (Raise e, s).
Definition mthen {A B : Type} (m : M D E A) (k : A -> M D E B) : M D E B := fun s =>
  match m s with
  | (Ret a, s) => k a s
  | (Raise e, s) => (Raise e, s)
  | (Crashed, s) => (Crashed, s)
  end.
Definition get : M D E D := fun s => (Ret (fst s), s).
Definition lift {A : Type} (r : result E A) : M D E A :=
  match r with Ok a => mret a | Err e => raise e end.

Definition write (fault : Fault E) (f : D -> D) : M D E unit := fun '(d, n) =>
  match n with
  | O => (Crashed, (d, O))
  | S n' =>
      match fault with
      | Succeeds => (Ret tt, (f d, n'))
      | FailsBefore e => (Raise e, (d, n))
      | FailsAfter e => (Raise e, (f d, n'))
      end
  end.
End Programs.

Declare Scope crash_scope.
Delimit Scope crash_scope with crash.
Notation "'let!' x ':=' m 'in' k" := (mthen m (fun x => k))
  (at level 200, x binder, m at level 100, k at level 200, right associativity) : crash_scope.
#[global] Open Scope crash_scope.

(** ** Partial correctness *)

(** [m] from [d]: [Q] when it returns, [C] when it fails or the power fails. *)
Definition wp {D E A : Type} (m : M D E A) (Q : A -> D -> Prop) (C : D -> Prop) (d : D) : Prop :=
  forall n, match m (d, n) with
            | (Ret a, (d', _)) => Q a d'
            | (_, (d', _)) => C d'
            end.

(** Total correctness: [m] returns within [k] durable writes. *)
Definition twp {D E A : Type} (k : nat) (m : M D E A) (Q : A -> D -> Prop) (d : D) : Prop :=
  forall n, (k <= n)%nat -> exists a d' n', m (d, n) = (Ret a, (d', n')) /\ (n <= n' + k)%nat /\ Q a d'.

Section Rules.
Context {D E : Type}.
Implicit Types (C : D -> Prop) (d : D).

Lemma wp_ret {A : Type} (a : A) (Q : A -> D -> Prop) C d : Q a d -> wp (E := E) (mret a) Q C d.
Proof. by intros H n. Qed.

Lemma wp_raise {A : Type} (e : E) (Q : A -> D -> Prop) C d : C d -> wp (raise e) Q C d.
Proof. by intros H n. Qed.

Lemma wp_bind {A B : Type} (m : M D E B) (k : B -> M D E A) (Q : A -> D -> Prop) C d :
  wp m (fun b => wp (k b) Q C) C d -> wp (mthen m k) Q C d.
Proof.
  intros H n. unfold mthen. specialize (H n). destruct (m (d, n)) as [[b|e|] [d' n']]; [|done|done]. apply H.
Qed.

Lemma wp_mono {A : Type} (m : M D E A) (Q Q' : A -> D -> Prop) (C C' : D -> Prop) d :
  wp m Q C d -> (forall a d', Q a d' -> Q' a d') -> (forall d', C d' -> C' d') -> wp m Q' C' d.
Proof. intros H HQ HC n. specialize (H n). destruct (m (d, n)) as [[a|e|] [d' n']]; auto. Qed.

(** A value that the program reads: only success goes on. *)
Lemma wp_lift {A : Type} (r : result E A) (Q : A -> D -> Prop) C d :
  C d -> (forall a, r = Ok a -> Q a d) -> wp (lift r) Q C d.
Proof. intros HC HQ. destruct r; [by apply wp_ret, HQ|by apply wp_raise]. Qed.

Lemma wp_get (Q : D -> D -> Prop) C d : Q d d -> wp (E := E) get Q C d.
Proof. by intros H n. Qed.

Lemma wp_write (fault : Fault E) (f : D -> D) (Q : unit -> D -> Prop) C d :
  C d -> C (f d) -> Q tt (f d) -> wp (write fault f) Q C d.
Proof. intros H1 H2 H3 [|n]; cbn; [done|]. by destruct fault. Qed.

Lemma twp_ret {A : Type} (a : A) (Q : A -> D -> Prop) d : Q a d -> twp (E := E) 0 (mret a) Q d.
Proof. intros H n _. exists a, d, n. split; [done|]. split; [lia|done]. Qed.

Lemma twp_lift {A : Type} (r : result E A) (a : A) (Q : A -> D -> Prop) d : r = Ok a -> Q a d -> twp 0 (lift r) Q d.
Proof. intros ->. apply twp_ret. Qed.

Lemma twp_get (Q : D -> D -> Prop) d : Q d d -> twp (E := E) 0 get Q d.
Proof. intros H n _. exists d, d, n. split; [done|]. split; [lia|done]. Qed.

Lemma twp_bind {A B : Type} (k1 k2 : nat) (m : M D E B) (f : B -> M D E A) (Q : A -> D -> Prop) d :
  twp k1 m (fun b => twp k2 (f b) Q) d -> twp (k1 + k2) (mthen m f) Q d.
Proof.
  intros H n Hn. destruct (H n) as (b & d1 & n1 & E1 & Hn1 & H1); [lia|].
  destruct (H1 n1) as (a & d2 & n2 & E2 & Hn2 & H2); [lia|]. exists a, d2, n2. unfold mthen. rewrite E1.
  split; [done|]. split; [lia|done].
Qed.

Lemma twp_le {A : Type} (k k' : nat) (m : M D E A) (Q : A -> D -> Prop) d :
  twp k m Q d -> (k <= k')%nat -> twp k' m Q d.
Proof.
  intros H Hk n Hn. destruct (H n) as (a & d' & n' & E' & Hn' & HQ); [lia|]. exists a, d', n'. split; [done|].
  split; [lia|done].
Qed.

Lemma twp_write (f : D -> D) (Q : unit -> D -> Prop) d : Q tt (f d) -> twp (E := E) 1 (write Succeeds f) Q d.
Proof. intros H [|n] Hn; [lia|]. exists tt, (f d), n. split; [done|]. split; [lia|done]. Qed.

(** What always holds on return may be added. *)
Lemma twp_wp {A : Type} (k : nat) (m : M D E A) (Q Q' : A -> D -> Prop) C d :
  twp k m Q d -> wp m Q' C d -> twp k m (fun a d' => Q a d' /\ Q' a d') d.
Proof.
  intros H Hw n Hn. destruct (H n Hn) as (a & d' & n' & E' & Hn' & HQ). specialize (Hw n). rewrite E' in Hw.
  exists a, d', n'. done.
Qed.

Lemma twp_mono {A : Type} (k : nat) (m : M D E A) (Q Q' : A -> D -> Prop) d :
  twp k m Q d -> (forall a d', Q a d' -> Q' a d') -> twp k m Q' d.
Proof. intros H HQ n Hn. destruct (H n Hn) as (a & d' & n' & E' & Hn' & Ha). exists a, d', n'. auto. Qed.
End Rules.
