(* ===== verification/BTree.v ===== *)
(** * The standard library's [BTreeMap]

    Ordered maps are strictly sorted association lists, so that iteration order ([values],
    [into_values], [pop_first]) is the ascending key order the code relies on. Lookups are
    specified without a sortedness premise; the order-sensitive operations use [bt_sorted], which
    every operation preserves. Keys are ordered through the class [OrdKey] (the code's keys are
    [u64], [B256] and [(u64, Address)]). *)

From Stdlib Require Import Sorting.Sorted.
From stdpp Require Import base list.
From S2P Require Import Prelude.

(** The [Ord] instance of a key type. *)
Class OrdKey (K : Type) := {
  kcmp : K -> K -> comparison;
  kcmp_eq : forall a b, kcmp a b = Eq <-> a = b;
  kcmp_antisym : forall a b, kcmp b a = CompOpp (kcmp a b);
  kcmp_trans : forall a b c, kcmp a b = Lt -> kcmp b c = Lt -> kcmp a c = Lt
}.

#[export] Instance Z_OrdKey : OrdKey Z.
Proof.
  refine {| kcmp := Z.compare |}.
  - apply Z.compare_eq_iff.
  - intros a b. apply Z.compare_antisym.
  - intros a b c. rewrite !Z.compare_lt_iff. lia.
Defined.

#[export] Instance pair_OrdKey {A B} `{OrdKey A} `{OrdKey B} : OrdKey (A * B).
Proof.
  refine {|
    kcmp p q := match kcmp (fst p) (fst q) with
                | Eq => kcmp (snd p) (snd q)
                | c => c
                end
  |}.
  - intros [a b] [a' b']; cbn. pose proof (kcmp_eq a a'). pose proof (kcmp_eq b b').
    destruct (kcmp a a') eqn:E; naive_solver.
  - intros [a b] [a' b']; cbn. rewrite (kcmp_antisym a a'), (kcmp_antisym b b').
    by destruct (kcmp a a').
  - intros [a b] [a' b'] [a'' b'']; cbn.
    pose proof (kcmp_trans a a' a''). pose proof (kcmp_trans b b' b'').
    pose proof (kcmp_eq a a'). pose proof (kcmp_eq a' a'').
    destruct (kcmp a a') eqn:E1; [| |done]; destruct (kcmp a' a'') eqn:E2; try done; intros;
      repeat match goal with
      | H : Eq = Eq <-> _ |- _ => destruct H as [H _]; specialize (H eq_refl); subst
      end.
    + rewrite (proj2 (kcmp_eq a'' a'') eq_refl). auto.
    + by rewrite E2.
    + by rewrite E1.
    + by rewrite (H1 eq_refl eq_refl).
Defined.

Section BTree.
Context {K V : Type} `{OrdKey K}.

Definition klt (a b : K) : Prop := kcmp a b = Lt.

Definition bt_empty : list (K * V) := [].

Fixpoint bt_get (k : K) (m : list (K * V)) : option V :=
  match m with
  | [] => None
  | (k', v) :: m' => match kcmp k k' with Eq => Some v | _ => bt_get k m' end
  end.

Definition bt_contains_key (k : K) (m : list (K * V)) : bool :=
  match bt_get k m with Some _ => true | None => false end.

Fixpoint bt_insert (k : K) (v : V) (m : list (K * V)) : list (K * V) :=
  match m with
  | [] => [(k, v)]
  | (k', v') :: m' =>
      match kcmp k k' with
      | Lt => (k, v) :: (k', v') :: m'
      | Eq => (k, v) :: m'
      | Gt => (k', v') :: bt_insert k v m'
      end
  end.

(** [m.retain(|k, _| p(k))] *)
Definition bt_retain (p : K -> bool) (m : list (K * V)) : list (K * V) :=
  List.filter (fun kv => p (fst kv)) m.

Definition bt_remove (k : K) (m : list (K * V)) : list (K * V) :=
  bt_retain (fun k' => match kcmp k k' with Eq => false | _ => true end) m.

(** [m.entry(k).or_insert_with(|| v)] *)
Definition bt_or_insert (k : K) (v : V) (m : list (K * V)) : list (K * V) :=
  match bt_get k m with Some _ => m | None => bt_insert k v m end.

Definition bt_pop_first (m : list (K * V)) : option ((K * V) * list (K * V)) :=
  match m with [] => None | kv :: m' => Some (kv, m') end.

(** [into_values()] and [values()]: ascending key order. *)
Definition bt_values (m : list (K * V)) : list V := map snd m.

(** [extend(iter)]: later pairs overwrite earlier ones. *)
Definition bt_extend (l m : list (K * V)) : list (K * V) :=
  fold_left (fun m kv => bt_insert (fst kv) (snd kv) m) l m.

(** [iter.collect()] *)
Definition bt_from_list (l : list (K * V)) : list (K * V) := bt_extend l bt_empty.

Definition bt_sorted (m : list (K * V)) : Prop :=
  StronglySorted (fun a b => klt (fst a) (fst b)) m.

Lemma kcmp_refl (k : K) : kcmp k k = Eq.
Proof. by apply kcmp_eq. Qed.

Lemma klt_ne (a b : K) : klt a b -> a <> b.
Proof. unfold klt. intros Hl ->. by rewrite kcmp_refl in Hl. Qed.

Lemma kcmp_gt (a b : K) : kcmp a b = Gt -> klt b a.
Proof. unfold klt. intros Hg. by rewrite (kcmp_antisym a b), Hg. Qed.

Lemma bt_get_insert (k k' : K) (v : V) (m : list (K * V)) :
  bt_get k' (bt_insert k v m) = match kcmp k' k with Eq => Some v | _ => bt_get k' m end.
Proof.
  induction m as [|[k0 v0] m IH]; cbn [bt_insert bt_get]; [done|].
  destruct (kcmp k k0) eqn:E; cbn [bt_get]; [| done |].
  - apply kcmp_eq in E as ->. by destruct (kcmp k' k0).
  - rewrite IH. destruct (kcmp k' k0) eqn:E0; [|done..].
    apply kcmp_eq in E0 as ->. pose proof (klt_ne _ _ (kcmp_gt _ _ E)).
    destruct (kcmp k0 k) eqn:E1; try done. by apply kcmp_eq in E1.
Qed.

Lemma bt_get_insert_eq (k : K) (v : V) (m : list (K * V)) : bt_get k (bt_insert k v m) = Some v.
Proof. by rewrite bt_get_insert, kcmp_refl. Qed.

Lemma bt_get_insert_ne (k k' : K) (v : V) (m : list (K * V)) :
  k' <> k -> bt_get k' (bt_insert k v m) = bt_get k' m.
Proof.
  intros Hne. rewrite bt_get_insert. destruct (kcmp k' k) eqn:E; [|done..].
  by apply kcmp_eq in E.
Qed.

Lemma bt_get_retain (p : K -> bool) (k : K) (m : list (K * V)) :
  bt_get k (bt_retain p m) = if p k then bt_get k m else None.
Proof.
  induction m as [|[k0 v0] m IH]; cbn; [by destruct (p k)|].
  unfold bt_retain in IH.
  destruct (p k0) eqn:E; cbn; destruct (kcmp k k0) eqn:E0; rewrite ?IH; try done;
    apply kcmp_eq in E0 as ->; by rewrite E.
Qed.

Lemma bt_get_remove (k k' : K) (m : list (K * V)) :
  bt_get k' (bt_remove k m) = match kcmp k k' with Eq => None | _ => bt_get k' m end.
Proof.
  unfold bt_remove. rewrite bt_get_retain. by destruct (kcmp k k').
Qed.

Lemma bt_get_In (k : K) (v : V) (m : list (K * V)) : bt_get k m = Some v -> In (k, v) m.
Proof.
  induction m as [|[k0 v0] m IH]; cbn; [done|].
  destruct (kcmp k k0) eqn:E; [|by auto..]. apply kcmp_eq in E as ->. intros [= ->]. by left.
Qed.

(** Removing a present key shortens the map. *)
Lemma bt_remove_length (k : K) (v : V) (m : list (K * V)) :
  bt_get k m = Some v -> (length (bt_remove k m) < length m)%nat.
Proof.
  intros Hg%bt_get_In. unfold bt_remove, bt_retain.
  induction m as [|[k0 v0] m IH]; [done|]. cbn [List.filter fst length].
  pose proof (List.filter_length_le
    (fun kv : K * V => match kcmp k (fst kv) with Eq => false | _ => true end) m).
  destruct Hg as [[= <- <-]|Hg].
  - rewrite kcmp_refl. lia.
  - specialize (IH Hg). destruct (kcmp k k0); cbn [length]; lia.
Qed.

Lemma bt_contains_key_spec (k : K) (m : list (K * V)) :
  bt_contains_key k m = true <-> is_Some (bt_get k m).
Proof. unfold bt_contains_key. destruct (bt_get k m); naive_solver. Qed.

Lemma bt_insert_In (k : K) (v : V) (m : list (K * V)) (kv : K * V) :
  In kv (bt_insert k v m) -> kv = (k, v) \/ In kv m.
Proof.
  induction m as [|[k0 v0] m IH]; cbn; [naive_solver|].
  destruct (kcmp k k0); cbn; naive_solver.
Qed.

Lemma bt_insert_sorted (k : K) (v : V) (m : list (K * V)) :
  bt_sorted m -> bt_sorted (bt_insert k v m).
Proof.
  unfold bt_sorted. induction m as [|[k0 v0] m IH]; cbn; intros Hs.
  - repeat constructor.
  - inversion Hs as [|? ? Hm Hall]; subst. destruct (kcmp k k0) eqn:E.
    + apply kcmp_eq in E as ->. by constructor.
    + constructor; [done|]. constructor; [done|].
      eapply Forall_impl; [exact Hall|]. intros [k1 v1] Hlt. by eapply kcmp_trans.
    + constructor; [by apply IH|]. apply List.Forall_forall. intros [k1 v1] Hin.
      apply bt_insert_In in Hin as [[= -> ->]|Hin]; [by apply kcmp_gt|].
      eapply List.Forall_forall in Hall; done.
Qed.

Lemma bt_retain_sorted (p : K -> bool) (m : list (K * V)) :
  bt_sorted m -> bt_sorted (bt_retain p m).
Proof.
  unfold bt_sorted, bt_retain. induction 1 as [|[k v] m Hm IH Hall]; cbn; [constructor|].
  destruct (p k); [|done]. constructor; [done|].
  apply List.Forall_forall. intros kv [Hin _]%filter_In.
  eapply List.Forall_forall in Hall; done.
Qed.

Lemma bt_extend_sorted (l m : list (K * V)) : bt_sorted m -> bt_sorted (bt_extend l m).
Proof.
  revert m. induction l as [|kv l IH]; intros m Hm; cbn; [done|].
  apply IH, bt_insert_sorted, Hm.
Qed.

Lemma bt_from_list_sorted (l : list (K * V)) : bt_sorted (bt_from_list l).
Proof. apply bt_extend_sorted. constructor. Qed.

Lemma bt_sorted_In_get (k : K) (v : V) (m : list (K * V)) :
  bt_sorted m -> In (k, v) m -> bt_get k m = Some v.
Proof.
  unfold bt_sorted. induction 1 as [|[k0 v0] m Hm IH Hall]; cbn; [done|].
  intros [[= -> ->]|Hin]; [by rewrite kcmp_refl|].
  eapply List.Forall_forall in Hall; [|exact Hin]. cbn in Hall.
  destruct (kcmp k k0) eqn:E; [|by apply IH..].
  apply kcmp_eq in E as ->. by apply klt_ne in Hall.
Qed.

(** A sorted map is determined by its lookups. *)
Lemma bt_ext (m1 m2 : list (K * V)) :
  bt_sorted m1 -> bt_sorted m2 -> (forall k, bt_get k m1 = bt_get k m2) -> m1 = m2.
Proof.
  intros H1. revert m2. induction H1 as [|[k1 v1] m1 H1 IH Hall1]; intros m2 H2 Hget.
  - destruct H2 as [|[k v] m2]; [done|]. specialize (Hget k). cbn in Hget.
    by rewrite kcmp_refl in Hget.
  - assert (Hin : In (k1, v1) m2).
    { apply bt_get_In. rewrite <- Hget. cbn. by rewrite kcmp_refl. }
    destruct H2 as [|[k2 v2] m2 H2 Hall2]; [done|].
    assert (k1 = k2) as <-.
    { destruct Hin as [[= -> ->]|Hin]; [done|]. exfalso.
      eapply List.Forall_forall in Hall2; [|exact Hin]. cbn in Hall2.
      assert (Hk2 : bt_get k2 ((k1, v1) :: m1) = Some v2).
      { rewrite Hget. cbn. by rewrite kcmp_refl. }
      apply bt_get_In in Hk2 as [[= -> ->]|Hk2]; [by apply klt_ne in Hall2|].
      eapply List.Forall_forall in Hall1; [|exact Hk2]. cbn in Hall1.
      unfold klt in *. pose proof (kcmp_trans _ _ _ Hall1 Hall2). by rewrite kcmp_refl in *. }
    assert (v1 = v2) as <-.
    { specialize (Hget k1). cbn in Hget. rewrite kcmp_refl in Hget. congruence. }
    f_equal. apply IH; [done|]. intros k. specialize (Hget k). cbn in Hget.
    destruct (kcmp k k1) eqn:E; [|done..]. apply kcmp_eq in E as ->.
    assert (Hno : forall m : list (K * V), Forall (fun b => klt k1 (fst b)) m -> bt_get k1 m = None).
    { intros m Hf. destruct (bt_get k1 m) as [v|] eqn:Eg; [|done]. apply bt_get_In in Eg.
      eapply List.Forall_forall in Hf; [|exact Eg]. by apply klt_ne in Hf. }
    rewrite (Hno m1), (Hno m2); done.
Qed.

Lemma bt_get_extend_notin (k : K) (l m : list (K * V)) :
  ~ In k (map fst l) -> bt_get k (bt_extend l m) = bt_get k m.
Proof.
  revert m. induction l as [|[k0 v0] l IH]; intros m Hnot; cbn; [done|].
  cbn in Hnot. rewrite IH by tauto. apply bt_get_insert_ne. naive_solver.
Qed.

Lemma bt_get_extend_In (k : K) (l m : list (K * V)) :
  In k (map fst l) -> exists v, In (k, v) l /\ bt_get k (bt_extend l m) = Some v.
Proof.
  revert m. induction l as [|[k0 v0] l IH] using rev_ind; intros m Hin; [done|].
  unfold bt_extend. rewrite fold_left_app. cbn [fold_left fst snd].
  destruct (kcmp k k0) eqn:E.
  - apply kcmp_eq in E as ->. exists v0. rewrite bt_get_insert_eq, in_app_iff. cbn. auto.
  - destruct (IH m) as (v & Hv & Hg).
    { rewrite map_app, in_app_iff in Hin. destruct Hin as [?|[Heq|[]]]; [done|].
      cbn in Heq. subst. by rewrite kcmp_refl in E. }
    exists v. rewrite in_app_iff, bt_get_insert_ne; [auto|]. intros ->. by rewrite kcmp_refl in E.
  - destruct (IH m) as (v & Hv & Hg).
    { rewrite map_app, in_app_iff in Hin. destruct Hin as [?|[Heq|[]]]; [done|].
      cbn in Heq. subst. by rewrite kcmp_refl in E. }
    exists v. rewrite in_app_iff, bt_get_insert_ne; [auto|]. intros ->. by rewrite kcmp_refl in E.
Qed.

Lemma key_eq_dec (a b : K) : {a = b} + {a <> b}.
Proof.
  destruct (kcmp a b) eqn:E; [left; by apply kcmp_eq|right..]; intros ->;
    by rewrite kcmp_refl in E.
Qed.

(** With distinct keys the order of insertion does not matter. *)
Lemma bt_extend_perm (l l' m : list (K * V)) :
  Permutation l l' -> List.NoDup (map fst l) -> bt_sorted m -> bt_extend l m = bt_extend l' m.
Proof.
  intros Hp Hnd Hm. apply bt_ext; [by apply bt_extend_sorted..|]. intros k.
  assert (Hnd' : List.NoDup (map fst l')) by (by rewrite <- Hp).
  destruct (in_dec key_eq_dec k (map fst l)) as [Hin|Hnot].
  - destruct (bt_get_extend_In k l m Hin) as (v & Hv & ->).
    destruct (bt_get_extend_In k l' m) as (v' & Hv' & ->); [by rewrite <- Hp|].
    rewrite <- Hp in Hv'. f_equal. clear -Hnd Hv Hv'.
    induction l as [|[k0 v0] l IH]; [done|]. cbn in Hnd. inversion Hnd as [|? ? Hn Hnd1]; subst.
    assert (Hfst : forall w, In (k, w) l -> In k (map fst l))
      by (intros w Hw; by apply (in_map fst) in Hw).
    destruct Hv as [[= -> ->]|Hv], Hv' as [[= ->]|Hv']; subst; eauto; try done;
      exfalso; eauto.
  - rewrite !bt_get_extend_notin; [done| |done]. by rewrite <- Hp.
Qed.

End BTree.

Create HintDb btree discriminated.
#[export] Hint Resolve bt_insert_sorted bt_retain_sorted bt_extend_sorted bt_from_list_sorted : btree.
#[export] Hint Constructors StronglySorted : btree.
