(* ===== verification/External.v ===== *)
(** * Interfaces of the code outside the repository

    The derivation pipeline calls [alloy_primitives::keccak256], [alloy_rlp], the brotli decoder
    of [arb_revm], the ABI code the [sol!] macro generates and the [base64] crate. Each is a class: its operations are parameters of every definition
    that uses them, and its laws are the documented behaviour the code relies on. The module
    [Reference] gives one concrete instance of each interface (the RLP codec follows the format's
    definition), which the witnesses evaluate. *)

From Stdlib Require Import Strings.Byte Strings.String.
From stdpp Require Import base list numbers option.
From S2P Require Import Prelude.

(** [alloy_primitives::keccak256]: a 32-byte digest. *)
Class Keccak := {
  keccak256 : bytes -> Z;
  keccak256_range : forall bs, is_b256 (keccak256 bs)
}.

(** [arb_revm::brotli::decompress(_, Dictionary::Empty)]; [None] is a decompression error. *)
Class Brotli := {
  brotli_decompress : bytes -> option bytes
}.

(** [alloy_rlp::Header]. *)
Record RlpHeader := { rlp_list : bool; rlp_payload_length : Z }.

(** [alloy_rlp]: [Header::decode] and [u64::decode] return what they read with the rest of the
    buffer, [None] on malformed input; [rlp_header_encode] is [Header::encode] and
    [rlp_encode_bytes] the [Encodable] instance of byte strings. *)
Class Rlp := {
  rlp_header_decode : bytes -> option (RlpHeader * bytes);
  rlp_u64_decode : bytes -> option (Z * bytes);
  rlp_header_encode : RlpHeader -> bytes;
  rlp_encode_bytes : bytes -> bytes
}.

Definition string_header (n : Z) : RlpHeader := {| rlp_list := false; rlp_payload_length := n |}.

(** Canonical RLP writes a single byte below [0x80] as itself, without a header. *)
Definition single_low (data : bytes) : bool :=
  match data with
  | [b] => b2z b <? 128
  | _ => false
  end.

Class RlpLaws {RLP : Rlp} := {
  (** [Header::decode] advances past the header, or leaves a one-byte item in place. *)
  rlp_header_progress : forall buf h rest,
    rlp_header_decode buf = Some (h, rest) ->
    exists hdr, buf = hdr ++ rest /\ 0 <= rlp_payload_length h /\
                (hdr = [] -> 0 < rlp_payload_length h);
  rlp_u64_range : forall buf z rest, rlp_u64_decode buf = Some (z, rest) -> is_u64 z;
  (** Decoding an encoded byte string finds its header and leaves its payload. *)
  rlp_bytes_roundtrip : forall data tail,
    Z.of_nat (length data) < 2 ^ 64 ->
    rlp_header_decode (rlp_encode_bytes data ++ tail)
      = Some (string_header (Z.of_nat (length data)), data ++ tail);
  (** The same for an explicitly written header, away from the one-byte case. *)
  rlp_header_roundtrip : forall data tail,
    Z.of_nat (length data) < 2 ^ 64 -> single_low data = false ->
    rlp_header_decode (rlp_header_encode (string_header (Z.of_nat (length data))) ++ data ++ tail)
      = Some (string_header (Z.of_nat (length data)), data ++ tail)
}.

(** What [sol!] generates from [contracts.rs]: the selectors and topic hashes, and for each call
    the [bytes] argument its [abi_decode] recovers. *)
Class SolAbi := {
  origin_selector : bytes;
  origin_legacy_selector : bytes;
  origin_delay_proof_selector : bytes;
  origin_data : bytes -> option bytes;
  origin_legacy_data : bytes -> option bytes;
  origin_delay_proof_data : bytes -> option bytes;
  from_origin_data : bytes -> option bytes;
  sig_sequencer_batch_delivered : Z;
  sig_sequencer_batch_data : Z;
  sig_message_delivered : Z;
  sig_inbox_message_delivered : Z;
  sig_inbox_message_delivered_from_origin : Z
}.

(** [BASE64_STANDARD.encode]: an encoding that can be undone. *)
Class Base64 := {
  base64_encode : bytes -> string;
  base64_inj : forall a b, base64_encode a = base64_encode b -> a = b
}.

Module Reference.

(** A polynomial digest; the witnesses need its range and that it tells a few inputs apart. *)
Definition digest (bs : bytes) : Z :=
  fold_left (fun acc b => (acc * 1000003 + b2z b + 1) mod (2 ^ 89 - 1)) bs 7 mod 2 ^ 256.

#[export] Instance keccak : Keccak.
Proof.
  refine {| keccak256 := digest |}.
  intros bs. apply Z.mod_pos_bound. lia.
Defined.

(** A stored-block decompressor: everything decompresses to itself but the empty input. *)
#[export] Instance brotli : Brotli := {|
  brotli_decompress bs := match bs with [] => None | _ => Some bs end
|}.

Definition be_min (z : Z) : bytes := be_encode (Z.to_nat (Z.log2 z / 8 + 1)) z.

Definition header_encode (h : RlpHeader) : bytes :=
  let n := rlp_payload_length h in
  if n <? 56 then [z2b ((if rlp_list h then 192 else 128) + n)]
  else let l := be_min n in
       z2b ((if rlp_list h then 247 else 183) + Z.of_nat (length l)) :: l.

Definition encode_bytes (data : bytes) : bytes :=
  if single_low data then data
  else header_encode (string_header (Z.of_nat (length data))) ++ data.

Definition finish (is_list : bool) (n : Z) (rest : bytes) : option (RlpHeader * bytes) :=
  if Z.of_nat (length rest) <? n then None
  else Some ({| rlp_list := is_list; rlp_payload_length := n |}, rest).

Definition long (is_list : bool) (k : nat) (rest : bytes) : option (RlpHeader * bytes) :=
  let lb := take k rest in
  if (length rest <? k)%nat then None
  else if match lb with x00 :: _ => true | _ => false end then None
  else if be_decode lb <? 56 then None
  else finish is_list (be_decode lb) (drop k rest).

Definition header_decode (buf : bytes) : option (RlpHeader * bytes) :=
  match buf with
  | [] => None
  | b :: rest =>
      let p := b2z b in
      if p <? 128 then Some (string_header 1, buf)
      else if p <? 184 then
        if (p =? 129) && single_low (take 1 rest) then None else finish false (p - 128) rest
      else if p <? 192 then long false (Z.to_nat (p - 183)) rest
      else if p <? 248 then finish true (p - 192) rest
      else long true (Z.to_nat (p - 247)) rest
  end.

Definition u64_decode (buf : bytes) : option (Z * bytes) :=
  match header_decode buf with
  | Some (h, rest) =>
      let n := Z.to_nat (rlp_payload_length h) in
      if rlp_list h || (8 <? n)%nat || match take n rest with x00 :: _ => true | _ => false end
      then None else Some (be_decode (take n rest), drop n rest)
  | None => None
  end.

#[export] Instance rlp : Rlp := {|
  rlp_header_decode := header_decode;
  rlp_u64_decode := u64_decode;
  rlp_header_encode := header_encode;
  rlp_encode_bytes := encode_bytes
|}.

Lemma finish_inv (l : bool) (n : Z) (rest rest' : bytes) (h : RlpHeader) :
  finish l n rest = Some (h, rest') ->
  rest' = rest /\ rlp_payload_length h = n.
Proof. unfold finish. case_match; [done|]. by intros [= <- <-]. Qed.

Lemma be_min_length (n : Z) : 0 < n < 2 ^ 64 -> (1 <= length (be_min n) <= 8)%nat.
Proof.
  intros Hn. unfold be_min. rewrite be_encode_length.
  pose proof (Z.log2_nonneg n). assert (Z.log2 n < 64) by (apply Z.log2_lt_pow2; lia).
  pose proof (Z.div_pos (Z.log2 n) 8). assert (Z.log2 n / 8 < 8) by (apply Z.div_lt_upper_bound; lia).
  lia.
Qed.

Lemma be_min_decode (n : Z) : 0 < n -> be_decode (be_min n) = n.
Proof.
  intros Hn. unfold be_min. apply be_decode_encode_small.
  pose proof (Z.log2_nonneg n). pose proof (Z.div_pos (Z.log2 n) 8).
  rewrite Z2Nat.id by lia. split; [lia|].
  change 256 with (2 ^ 8). rewrite <- Z.pow_mul_r by lia.
  apply Z.log2_lt_pow2; [lia|].
  pose proof (Z.div_mod (Z.log2 n) 8). pose proof (Z.mod_pos_bound (Z.log2 n) 8). lia.
Qed.

Lemma be_min_no_leading_zero (n : Z) :
  0 < n -> match be_min n with x00 :: _ => false | _ => true end = true.
Proof.
  intros Hn. pose proof (be_min_decode n Hn) as Hd. destruct (be_min n) as [|b l] eqn:E; [done|].
  destruct (decide (b = x00)) as [->|Hb]; [|by destruct b].
  exfalso. rewrite be_decode_cons in Hd. change (b2z x00) with 0 in Hd.
  pose proof (be_decode_bound l) as Hl. rewrite Z.mul_0_l, Z.add_0_l in Hd.
  assert (Hlen : length (be_min n) = S (length l)) by (by rewrite E).
  unfold be_min in Hlen. rewrite be_encode_length in Hlen.
  pose proof (Z.log2_nonneg n). pose proof (Z.div_pos (Z.log2 n) 8).
  assert (Z.of_nat (length l) = Z.log2 n / 8) as Hll by lia.
  rewrite Hll, Hd in Hl. change 256 with (2 ^ 8) in Hl. rewrite <- Z.pow_mul_r in Hl by lia.
  destruct Hl as [_ Hl]. apply Z.log2_lt_pow2 in Hl; [|lia].
  pose proof (Z.div_mod (Z.log2 n) 8). pose proof (Z.mod_pos_bound (Z.log2 n) 8). lia.
Qed.

Lemma header_roundtrip (data tail : bytes) :
  Z.of_nat (length data) < 2 ^ 64 -> single_low data = false ->
  header_decode (header_encode (string_header (Z.of_nat (length data))) ++ data ++ tail)
    = Some (string_header (Z.of_nat (length data)), data ++ tail).
Proof.
  intros Hlen Hsingle. unfold header_encode; cbn [rlp_payload_length rlp_list string_header].
  assert (Hfin : finish false (Z.of_nat (length data)) (data ++ tail)
                 = Some (string_header (Z.of_nat (length data)), data ++ tail)).
  { unfold finish. rewrite length_app. by rewrite (proj2 (Z.ltb_ge _ _)) by lia. }
  destruct (Z.of_nat (length data) <? 56) eqn:E56.
  - apply Z.ltb_lt in E56. cbn [header_decode app]. rewrite b2z_z2b, Z.mod_small by lia.
    rewrite (proj2 (Z.ltb_ge _ 128)), (proj2 (Z.ltb_lt _ 184)) by lia.
    replace (128 + Z.of_nat (length data) - 128) with (Z.of_nat (length data)) by lia.
    rewrite Hfin. destruct (_ =? 129) eqn:E1; [|done].
    apply Z.eqb_eq in E1. destruct data as [|b [|? ?]]; cbn in E1; try lia.
    replace (take 1 ([b] ++ tail)) with [b] by done. by rewrite Hsingle.
  - apply Z.ltb_ge in E56. set (n := Z.of_nat (length data)) in *.
    pose proof (be_min_length n ltac:(lia)) as Hml.
    cbn [header_decode app]. rewrite b2z_z2b, Z.mod_small by lia.
    rewrite (proj2 (Z.ltb_ge _ 128)), (proj2 (Z.ltb_ge _ 184)), (proj2 (Z.ltb_lt _ 192)) by lia.
    replace (Z.to_nat (183 + Z.of_nat (length (be_min n)) - 183)) with (length (be_min n)) by lia.
    unfold long. rewrite take_app_length, drop_app_length.
    rewrite (proj2 (Nat.ltb_ge _ _)) by (rewrite length_app; lia).
    pose proof (be_min_no_leading_zero n ltac:(lia)) as Hz.
    rewrite be_min_decode by lia. rewrite (proj2 (Z.ltb_ge n 56)) by lia. rewrite Hfin.
    destruct (be_min n) as [|[] ?]; done.
Qed.

#[export] Instance rlp_laws : RlpLaws.
Proof.
  split.
  - intros [|b rest] h rest' Hd; cbn in Hd; [done|].
    pose proof (b2z_bound b).
    assert (Hlong : forall l k, long l k rest = Some (h, rest') ->
      exists hdr, b :: rest = hdr ++ rest' /\ 0 <= rlp_payload_length h
                  /\ (hdr = [] -> 0 < rlp_payload_length h)).
    { intros l k Hl. unfold long in Hl. if_inv Hl. apply finish_inv in Hl as [-> Hn].
      exists (b :: take k rest). rewrite <- app_comm_cons, take_drop, Hn.
      pose proof (be_decode_bound (take k rest)). repeat split; done || lia. }
    assert (Hshort : forall l n, 0 <= n -> finish l n rest = Some (h, rest') ->
      exists hdr, b :: rest = hdr ++ rest' /\ 0 <= rlp_payload_length h
                  /\ (hdr = [] -> 0 < rlp_payload_length h)).
    { intros l n Hn [-> ->]%finish_inv. by exists [b]. }
    destruct (b2z b <? 128) eqn:E1.
    { injection Hd as <- <-. by exists []. }
    apply Z.ltb_ge in E1.
    destruct (b2z b <? 184) eqn:E2.
    { destruct ((b2z b =? 129) && single_low (take 1 rest)); [done|]. eapply Hshort; [|done]. lia. }
    apply Z.ltb_ge in E2.
    destruct (b2z b <? 192) eqn:E3; [by eapply Hlong|]. apply Z.ltb_ge in E3.
    destruct (b2z b <? 248) eqn:E4; [eapply Hshort; [|done]; lia|by eapply Hlong].
  - intros buf z rest. cbn. unfold u64_decode.
    destruct (header_decode buf) as [[h r]|]; [|done].
    destruct (_ || _ || _) eqn:E; [done|]. intros [= <- <-].
    apply orb_false_elim in E as [[_ E]%orb_false_elim _]. apply Nat.ltb_ge in E.
    pose proof (be_decode_bound (take (Z.to_nat (rlp_payload_length h)) r)) as Hb.
    rewrite length_take in Hb. split; [lia|]. eapply Z.lt_le_trans; [apply Hb|].
    change (2 ^ 64) with (256 ^ 8). apply Z.pow_le_mono_r; lia.
  - intros data tail Hlen. cbn. unfold encode_bytes. destruct (single_low data) eqn:E.
    + destruct data as [|b [|? ?]]; try done. cbn in E |- *. by rewrite E.
    + rewrite <- app_assoc. by apply header_roundtrip.
  - apply header_roundtrip.
Defined.

(** The [bytes] argument at head word [k] of a call: offset, length, body. *)
Definition bytes_arg (k : nat) (input : bytes) : option bytes :=
  let args := drop 4 input in
  let off := Z.to_nat (be_decode (slice (k * 32) 32 args)) in
  let len := Z.to_nat (be_decode (slice off 32 args)) in
  get_range (off + 32) (off + 32 + len) args.

#[export] Instance sol_abi : SolAbi := {|
  origin_selector := [x8f; x11; x1f; x3c];
  origin_legacy_selector := [x6f; x12; xb0; xc9];
  origin_delay_proof_selector := [x69; xca; xcd; xed];
  origin_data := bytes_arg 1;
  origin_legacy_data := bytes_arg 1;
  origin_delay_proof_data := bytes_arg 1;
  from_origin_data := bytes_arg 0;
  sig_sequencer_batch_delivered := 1;
  sig_sequencer_batch_data := 2;
  sig_message_delivered := 3;
  sig_inbox_message_delivered := 4;
  sig_inbox_message_delivered_from_origin := 5
|}.

(** Latin-1 text stands in for base64: it is injective. *)
#[export] Instance base64 : Base64.
Proof.
  refine {| base64_encode := string_of_list_byte |}.
  intros a b H. rewrite <- (list_byte_of_string_of_list_byte a).
  rewrite <- (list_byte_of_string_of_list_byte b). by rewrite H.
Defined.

End Reference.
