(* ===== verification/Messages.v ===== *)
(** * Derived and delayed messages

    [crates/arb-reth-derive/src/message.rs] and [.../delayed.rs]: the L1 incoming message a batch
    decodes into, the delayed-inbox message reconstructed from L1 with its hash and accumulator,
    and the [DelayedSource] trait with its two implementations. *)

From Stdlib Require Import Strings.Byte.
From stdpp Require Import base list numbers option.
From S2P Require Import Prelude BTree External.

(** ** message.rs *)

Definition BATCH_POSTER_ADDRESS : Z := 0xA4B000000000000000000073657175656e636572.

Definition KIND_L2_MESSAGE : u8 := x03.

Record L1IncomingMessageHeader := {
  h_kind : u8;
  h_poster : Z;
  h_block_number : Z;
  h_timestamp : Z;
  h_request_id : option Z;
  h_l1_base_fee : Z
}.

Record DerivedMessage := {
  d_header : L1IncomingMessageHeader;
  d_l2_msg : bytes;
  d_delayed_messages_read : Z
}.

(** ** delayed.rs *)

Record DelayedMessage := {
  dm_kind : u8;
  dm_sender : Z;
  dm_block_number : Z;
  dm_timestamp : Z;
  dm_inbox_seq_num : Z;
  dm_base_fee_l1 : Z;
  dm_data : bytes;
  dm_before_inbox_acc : Z
}.

(** The fields of a [DelayedMessage] are in the range of their Rust types. *)
Definition delayed_ok (m : DelayedMessage) : Prop :=
  is_address (dm_sender m) /\ is_u64 (dm_block_number m) /\ is_u64 (dm_timestamp m) /\
  is_u64 (dm_inbox_seq_num m) /\ is_b256 (dm_base_fee_l1 m) /\ is_b256 (dm_before_inbox_acc m).

(** The buffer [delayed_message_hash] fills, field by field. *)
Definition delayed_message_buf (kind : u8) (sender block_number timestamp inbox_seq_num
    base_fee_l1 message_data_hash : Z) : bytes :=
  [kind] ++ be_encode 20 sender ++ be_encode 8 block_number ++ be_encode 8 timestamp
  ++ be_encode 32 inbox_seq_num ++ be_encode 32 base_fee_l1 ++ be_encode 32 message_data_hash.

Section Hashes.
Context {KC : Keccak}.

Definition delayed_message_hash (kind : u8) (sender block_number timestamp inbox_seq_num
    base_fee_l1 message_data_hash : Z) : Z :=
  keccak256 (delayed_message_buf kind sender block_number timestamp inbox_seq_num
               base_fee_l1 message_data_hash).

Definition accumulate (before_acc message_hash : Z) : Z :=
  keccak256 (be_encode 32 before_acc ++ be_encode 32 message_hash).

Definition message_data_hash (m : DelayedMessage) : Z := keccak256 (dm_data m).

Definition message_hash (m : DelayedMessage) : Z :=
  delayed_message_hash (dm_kind m) (dm_sender m) (dm_block_number m) (dm_timestamp m)
    (dm_inbox_seq_num m) (dm_base_fee_l1 m) (message_data_hash m).

Definition accumulator (m : DelayedMessage) : Z :=
  keccak256 (be_encode 32 (dm_before_inbox_acc m) ++ be_encode 32 (message_hash m)).

(** [B256::from(U256::from(inbox_seq_num).to_be_bytes())]: the same 256-bit number. *)
Definition request_id (m : DelayedMessage) : Z :=
  be_decode (be_encode 32 (dm_inbox_seq_num m)).

Definition to_derived (m : DelayedMessage) (delayed_messages_read : Z) : DerivedMessage := {|
  d_header := {|
    h_kind := dm_kind m;
    h_poster := dm_sender m;
    h_block_number := dm_block_number m;
    h_timestamp := dm_timestamp m;
    h_request_id := Some (request_id m);
    h_l1_base_fee := dm_base_fee_l1 m
  |};
  d_l2_msg := dm_data m;
  d_delayed_messages_read := delayed_messages_read
|}.

(** [keccak256] has no collision among the given inputs. *)
Definition collision_free (l : list bytes) : Prop :=
  forall x y, In x l -> In y l -> keccak256 x = keccak256 y -> x = y.

(** Everything hashed while computing a message's accumulator. *)
Definition acc_preimages (m : DelayedMessage) : list bytes :=
  [ dm_data m;
    delayed_message_buf (dm_kind m) (dm_sender m) (dm_block_number m) (dm_timestamp m)
      (dm_inbox_seq_num m) (dm_base_fee_l1 m) (message_data_hash m);
    be_encode 32 (dm_before_inbox_acc m) ++ be_encode 32 (message_hash m) ].

End Hashes.

(** ** The [DelayedSource] trait *)

Class DelayedSource (S : Type) := {
  ds_message : S -> Z -> option DelayedMessage
}.

Inductive NoDelayed : Type := mkNoDelayed.

#[export] Instance NoDelayed_source : DelayedSource NoDelayed := {|
  ds_message _ _ := None
|}.

Record DelayedMap := { delayed_map : list (Z * DelayedMessage) }.

Definition DelayedMap_default : DelayedMap := {| delayed_map := bt_empty |}.

Definition from_messages (msgs : list DelayedMessage) : DelayedMap := {|
  delayed_map := bt_from_list (map (fun m => (dm_inbox_seq_num m, m)) msgs)
|}.

#[export] Instance DelayedMap_source : DelayedSource DelayedMap := {|
  ds_message s index := bt_get index (delayed_map s)
|}.

(** ** Layout lemmas *)

Lemma fixed_fields_inj {n : nat} {a b : bytes} {x y : bytes} :
  length a = n -> length b = n -> a ++ x = b ++ y -> a = b /\ x = y.
Proof. intros <- Hb Heq. by apply app_inj_1. Qed.

Ltac split_fields H :=
  match type of H with
  | be_encode _ _ ++ _ = be_encode _ _ ++ _ =>
      let H1 := fresh "F" in
      apply (fixed_fields_inj (be_encode_length _ _) (be_encode_length _ _)) in H as [H1 H];
      split_fields H
  | _ => idtac
  end.

Lemma pow256_20 : 256 ^ Z.of_nat 20 = 2 ^ 160.
Proof. by vm_compute. Qed.
Lemma pow256_8 : 256 ^ Z.of_nat 8 = 2 ^ 64.
Proof. by vm_compute. Qed.
Lemma pow256_32 : 256 ^ Z.of_nat 32 = 2 ^ 256.
Proof. by vm_compute. Qed.

Lemma be20_inj (a b : Z) : is_address a -> is_address b -> be_encode 20 a = be_encode 20 b -> a = b.
Proof. intros Ha Hb. apply be_encode_inj; by rewrite pow256_20. Qed.
Lemma be8_inj (a b : Z) : is_u64 a -> is_u64 b -> be_encode 8 a = be_encode 8 b -> a = b.
Proof. intros Ha Hb. apply be_encode_inj; by rewrite pow256_8. Qed.
Lemma be32_inj (a b : Z) : is_b256 a -> is_b256 b -> be_encode 32 a = be_encode 32 b -> a = b.
Proof. intros Ha Hb. apply be_encode_inj; by rewrite pow256_32. Qed.

Lemma u64_b256 (z : Z) : is_u64 z -> is_b256 z.
Proof. unfold is_u64, is_b256. lia. Qed.

#[export] Hint Resolve be20_inj be8_inj be32_inj u64_b256 keccak256_range : words.

Lemma delayed_message_buf_inj k s b t i f h k' s' b' t' i' f' h' :
  is_address s -> is_address s' -> is_u64 b -> is_u64 b' -> is_u64 t -> is_u64 t' ->
  is_u64 i -> is_u64 i' -> is_b256 f -> is_b256 f' -> is_b256 h -> is_b256 h' ->
  delayed_message_buf k s b t i f h = delayed_message_buf k' s' b' t' i' f' h' ->
  k = k' /\ s = s' /\ b = b' /\ t = t' /\ i = i' /\ f = f' /\ h = h'.
Proof.
  unfold delayed_message_buf. intros Hs Hs' Hb Hb' Ht Ht' Hi Hi' Hf Hf' Hh Hh' Heq.
  apply (fixed_fields_inj (n := 1) (a := [k]) (b := [k']) eq_refl eq_refl) in Heq as [[= Hk] Heq].
  split_fields Heq. apply be20_inj in F; [|done..]. apply be8_inj in F0; [|done..].
  apply be8_inj in F1; [|done..]. apply be32_inj in F2; [|by apply u64_b256..].
  apply be32_inj in F3; [|done..]. apply be32_inj in Heq; [|done..]. done.
Qed.

Lemma request_id_small (m : DelayedMessage) :
  is_u64 (dm_inbox_seq_num m) -> request_id m = dm_inbox_seq_num m.
Proof.
  intros Hi. unfold request_id. rewrite be_decode_encode. rewrite pow256_32. by apply Z.mod_small, u64_b256.
Qed.

Section Binding.
Context {KC : Keccak}.

Lemma collision_free_sub (l k : list bytes) :
  (forall x, In x l -> In x k) -> collision_free k -> collision_free l.
Proof. unfold collision_free. eauto. Qed.

(** On concrete inputs the absence of collisions is a computation. *)
Definition collision_free_b (l : list bytes) : bool :=
  let hashed := map (fun x => (x, keccak256 x)) l in
  forallb (fun x => forallb (fun y => negb (snd x =? snd y) || bool_decide (fst x = fst y)) hashed)
    hashed.

Lemma collision_free_check (l : list bytes) : collision_free_b l = true -> collision_free l.
Proof.
  unfold collision_free_b. rewrite forallb_forall. intros H x y Hx Hy Hxy.
  set (h := fun x => (x, keccak256 x)) in *. specialize (H (h x) (in_map h l x Hx)).
  rewrite forallb_forall in H. specialize (H (h y) (in_map h l y Hy)). unfold h in H. cbn in H.
  rewrite (proj2 (Z.eqb_eq _ _) Hxy) in H. by apply bool_decide_eq_true in H.
Qed.

(** Equal accumulators come from equal messages when nothing hashed collides. *)
Lemma accumulator_inj (m m' : DelayedMessage) :
  delayed_ok m -> delayed_ok m' -> collision_free (acc_preimages m ++ acc_preimages m') ->
  accumulator m = accumulator m' -> m = m'.
Proof.
  intros Hm Hm' Hcf Hacc.
  assert (Hin : forall x y, In x (acc_preimages m) -> In y (acc_preimages m') ->
            keccak256 x = keccak256 y -> x = y).
  { intros x y Hx Hy. apply Hcf; apply in_app_iff; auto. }
  destruct Hm as (?&?&?&?&?&?), Hm' as (?&?&?&?&?&?).
  unfold accumulator in Hacc. apply Hin in Hacc; [|by cbn; auto..].
  apply (fixed_fields_inj (be_encode_length _ _) (be_encode_length _ _)) in Hacc as [Hb Hh].
  apply be32_inj in Hb; [|done..]. apply be32_inj in Hh; [|apply keccak256_range..].
  apply Hin in Hh; [|by cbn; auto..].
  apply delayed_message_buf_inj in Hh as (?&?&?&?&?&?&Hd); try done;
    [|apply keccak256_range..].
  apply Hin in Hd; [|by cbn; auto..].
  destruct m, m'. cbn in *. congruence.
Qed.

End Binding.

Lemma from_messages_sorted (msgs : list DelayedMessage) :
  bt_sorted (delayed_map (from_messages msgs)).
Proof. apply bt_from_list_sorted. Qed.

(** A lookup returns a message with that index, and finds one exactly when one was given. *)
Lemma from_messages_get (msgs : list DelayedMessage) (i : Z) :
  match ds_message (from_messages msgs) i with
  | Some m => In m msgs /\ dm_inbox_seq_num m = i
  | None => ~ In i (map dm_inbox_seq_num msgs)
  end.
Proof.
  cbn. unfold bt_from_list. set (l := map _ msgs).
  assert (Hk : map fst l = map dm_inbox_seq_num msgs) by (unfold l; by rewrite map_map).
  destruct (in_dec Z.eq_dec i (map fst l)) as [Hin|Hnot].
  - destruct (bt_get_extend_In i l bt_empty Hin) as (m & Hm & Hg).
    rewrite Hg. unfold l in Hm. apply in_map_iff in Hm as (m' & [= <- <-] & Hm'). done.
  - rewrite bt_get_extend_notin by done. cbn. by rewrite <- Hk.
Qed.

(** With distinct indices every given message is found. *)
Lemma from_messages_NoDup_get (msgs : list DelayedMessage) (m : DelayedMessage) :
  List.NoDup (map dm_inbox_seq_num msgs) -> In m msgs ->
  ds_message (from_messages msgs) (dm_inbox_seq_num m) = Some m.
Proof.
  intros Hnd Hin. pose proof (from_messages_get msgs (dm_inbox_seq_num m)) as Hg.
  destruct (ds_message _ _) as [m'|].
  - destruct Hg as [Hm' Heq]. f_equal.
    apply in_split in Hm' as (l1 & l2 & ->). rewrite map_app in Hnd. cbn in Hnd.
    apply List.NoDup_remove_2 in Hnd.
    apply in_app_iff in Hin as [Hin|[->|Hin]]; [|done|]; destruct Hnd; apply in_app_iff;
      [left|right]; rewrite Heq; by apply in_map.
  - destruct Hg. by apply in_map.
Qed.
