(* ===== verification/Batch.v ===== *)
(** * Sequencer batch framing

    [crates/arb-reth-derive/src/batch.rs]: the 40-byte timeBounds header, the non-indexed data of
    the [SequencerBatchDelivered] event, the header-flag dispatch and the RLP segment stream. The
    segment loop runs on fuel [S (length buf)]; [parse_segments_loop_enough] shows that this fuel
    is never exhausted, since each iteration consumes at least one byte. *)

From Stdlib Require Import Strings.Byte Strings.String.
From stdpp Require Import base list numbers option.
From S2P Require Import Prelude External.

Definition flag_BROTLI : u8 := x00.
Definition flag_DA_CERTIFICATE : u8 := x01.
Definition flag_ANYTRUST_TREE : u8 := x08.
Definition flag_ZEROHEAVY : u8 := x20.
Definition flag_L1_AUTHENTICATED : u8 := x40.
Definition flag_BLOB_HASHES : u8 := x50.
Definition flag_ANYTRUST : u8 := x80.

Definition L2_MESSAGE : u8 := x00.
Definition L2_MESSAGE_BROTLI : u8 := x01.
Definition DELAYED_MESSAGES : u8 := x02.
Definition ADVANCE_TIMESTAMP : u8 := x03.
Definition ADVANCE_L1_BLOCK : u8 := x04.

Definition BATCH_HEADER_LEN : nat := 40.

Record BatchHeader := {
  min_timestamp : Z;
  max_timestamp : Z;
  min_l1_block : Z;
  max_l1_block : Z;
  after_delayed_messages : Z
}.

Inductive BatchError :=
| Batch_Truncated
| Batch_UnsupportedFlag (flag : u8)
| Batch_Brotli
| Batch_Rlp (what : string)
| Batch_EventDataWrongLen (n : nat).

Definition header_parse (data : bytes) : result BatchError (BatchHeader * bytes) :=
  if (length data <? BATCH_HEADER_LEN)%nat then Err Batch_Truncated
  else
    let r o := be_decode (slice o 8 data) in
    Ok ({| min_timestamp := r 0%nat;
           max_timestamp := r 8%nat;
           min_l1_block := r 16%nat;
           max_l1_block := r 24%nat;
           after_delayed_messages := r 32%nat |}, drop BATCH_HEADER_LEN data).

Record SequencerBatchDeliveredData := {
  ev_delayed_acc : Z;
  ev_after_delayed_messages_read : Z;
  ev_min_timestamp : Z;
  ev_max_timestamp : Z;
  ev_min_l1_block : Z;
  ev_max_l1_block : Z;
  ev_data_location : u8
}.

Definition TX_INPUT : u8 := x00.
Definition SEPARATE_BATCH_EVENT : u8 := x01.
Definition NO_DATA : u8 := x02.
Definition BLOB_HASHES : u8 := x03.

Definition batch_header (e : SequencerBatchDeliveredData) : BatchHeader := {|
  min_timestamp := ev_min_timestamp e;
  max_timestamp := ev_max_timestamp e;
  min_l1_block := ev_min_l1_block e;
  max_l1_block := ev_max_l1_block e;
  after_delayed_messages := ev_after_delayed_messages_read e
|}.

(** The [i]th 32-byte ABI word, its low eight bytes and its last byte. *)
Definition word (data : bytes) (i : nat) : bytes := slice (i * 32) 32 data.
Definition u64_word (data : bytes) (i : nat) : Z := be_decode (slice 24 8 (word data i)).
Definition u8_word (data : bytes) (i : nat) : u8 := nth 31 (word data i) x00.

Definition parse_sequencer_batch_delivered (log_data : bytes)
    : result BatchError SequencerBatchDeliveredData :=
  if negb (length log_data =? 7 * 32)%nat then Err (Batch_EventDataWrongLen (length log_data))
  else Ok {|
    ev_delayed_acc := be_decode (word log_data 0);
    ev_after_delayed_messages_read := u64_word log_data 1;
    ev_min_timestamp := u64_word log_data 2;
    ev_max_timestamp := u64_word log_data 3;
    ev_min_l1_block := u64_word log_data 4;
    ev_max_l1_block := u64_word log_data 5;
    ev_data_location := u8_word log_data 6
  |}.

Definition decompress_payload {BR : Brotli} (payload : bytes) : result BatchError bytes :=
  match payload with
  | [] => Err Batch_Truncated
  | flag :: body =>
      if byte_eqb flag flag_BROTLI then ok_or Batch_Brotli (brotli_decompress body)
      else Err (Batch_UnsupportedFlag flag)
  end.

Record Segment := { seg_kind : u8; seg_data : bytes }.

Section Segments.
Context {RLP : Rlp}.

(** The loop over the remaining buffer; [None] only when the fuel runs out. *)
Fixpoint parse_segments_loop (fuel : nat) (buf : bytes) (segs : list Segment)
    : option (result BatchError (list Segment)) :=
  match fuel with
  | O => None
  | S fuel' =>
      match buf with
      | [] => Some (Ok segs)
      | _ =>
          match rlp_header_decode buf with
          | None => Some (Err (Batch_Rlp "segment header"))
          | Some (header, buf) =>
              if rlp_list header then Some (Err (Batch_Rlp "segment is a list, expected string"))
              else if Z.of_nat (length buf) <? rlp_payload_length header
              then Some (Err (Batch_Rlp "segment length exceeds data"))
              else
                let n := Z.to_nat (rlp_payload_length header) in
                parse_segments_loop fuel' (drop n buf)
                  (match take n buf with
                   | kind :: data => segs ++ [{| seg_kind := kind; seg_data := data |}]
                   | [] => segs
                   end)
          end
      end
  end.

Definition parse_segments (buf : bytes) : result BatchError (list Segment) :=
  match parse_segments_loop (S (length buf)) buf [] with
  | Some r => r
  | None => Err (Batch_Rlp "out of fuel")
  end.

End Segments.

(** ** Layouts *)

Definition header_ok (h : BatchHeader) : Prop :=
  is_u64 (min_timestamp h) /\ is_u64 (max_timestamp h) /\ is_u64 (min_l1_block h) /\
  is_u64 (max_l1_block h) /\ is_u64 (after_delayed_messages h).

(** The 40 bytes of a header. *)
Definition header_bytes (h : BatchHeader) : bytes :=
  be_encode 8 (min_timestamp h) ++ be_encode 8 (max_timestamp h) ++ be_encode 8 (min_l1_block h)
  ++ be_encode 8 (max_l1_block h) ++ be_encode 8 (after_delayed_messages h).

Lemma header_bytes_length (h : BatchHeader) : length (header_bytes h) = 40%nat.
Proof. unfold header_bytes. layout_len. Qed.

Lemma be8_roundtrip (z : Z) : is_u64 z -> be_decode (be_encode 8 z) = z.
Proof. intros Hz. apply be_decode_encode_small. exact Hz. Qed.

Lemma be32_roundtrip (z : Z) : is_b256 z -> be_decode (be_encode 32 z) = z.
Proof. intros Hz. apply be_decode_encode_small. exact Hz. Qed.

Lemma slice8_u64 (o : nat) (l : bytes) : is_u64 (be_decode (slice o 8 l)).
Proof.
  pose proof (be_decode_bound (slice o 8 l)) as Hb. split; [lia|].
  eapply Z.lt_le_trans; [apply Hb|]. change (2 ^ 64) with (256 ^ 8).
  apply Z.pow_le_mono_r; [lia|]. unfold slice. rewrite length_take. lia.
Qed.

Lemma slice_encode (o n : nat) (l : bytes) :
  (o + n <= length l)%nat -> be_encode n (be_decode (slice o n l)) = slice o n l.
Proof. intros. apply be_encode_decode_len, slice_length. done. Qed.

Lemma slice_cut (o n : nat) (l : bytes) : slice o n l ++ drop (o + n) l = drop o l.
Proof. unfold slice. rewrite <- drop_drop. apply take_drop. Qed.

Lemma header_parse_encode (h : BatchHeader) (rest : bytes) :
  header_ok h -> header_parse (header_bytes h ++ rest) = Ok (h, rest).
Proof.
  intros (?&?&?&?&?). unfold header_parse, BATCH_HEADER_LEN.
  rewrite (proj2 (Nat.ltb_ge _ _)) by (rewrite length_app, header_bytes_length; lia).
  rewrite <- (header_bytes_length h), drop_app_length.
  unfold header_bytes. rewrite <- !app_assoc. layout. rewrite !be8_roundtrip by done.
  by destruct h.
Qed.

Lemma header_parse_decode (data rest : bytes) (h : BatchHeader) :
  header_parse data = Ok (h, rest) -> header_ok h /\ data = header_bytes h ++ rest.
Proof.
  unfold header_parse, BATCH_HEADER_LEN. destruct (_ <? _)%nat eqn:E; [done|].
  apply Nat.ltb_ge in E. intros [= <- <-]. split.
  - repeat split; cbn; apply slice8_u64.
  - unfold header_bytes; cbn [min_timestamp max_timestamp min_l1_block max_l1_block
                               after_delayed_messages].
    rewrite !slice_encode by lia. rewrite <- !app_assoc.
    rewrite (slice_cut 32 8), (slice_cut 24 8), (slice_cut 16 8), (slice_cut 8 8), (slice_cut 0 8).
    by rewrite drop_0.
Qed.

(** The event data as the contract ABI-encodes it: seven 32-byte words. *)
Definition event_words (ws : list Z) : bytes := concat (map (be_encode 32) ws).

Lemma word_app (w : Z) (l : bytes) (i : nat) :
  word (be_encode 32 w ++ l) i = match i with O => be_encode 32 w | S i' => word l i' end.
Proof.
  unfold word. destruct i as [|i']; [apply slice_app_head; layout_len|].
  rewrite slice_app_skip by (autorewrite with layout; lia). autorewrite with layout.
  f_equal. lia.
Qed.

Lemma be_encode_split (n m : nat) (z : Z) :
  be_encode (n + m) z = be_encode n (z / 256 ^ Z.of_nat m) ++ be_encode m z.
Proof.
  apply be_decode_inj; [layout_len|]. rewrite be_decode_app, !be_decode_encode, be_encode_length.
  rewrite Nat2Z.inj_add, Z.pow_add_r by lia.
  rewrite (Z.mul_comm (256 ^ Z.of_nat n)), Z.rem_mul_r by (apply Z.pow_nonzero || apply Z.pow_pos_nonneg; lia).
  lia.
Qed.

Lemma low_u64_word (w : Z) : be_decode (slice 24 8 (be_encode 32 w)) = w mod 2 ^ 64.
Proof.
  rewrite (be_encode_split 24 8). layout. rewrite be_decode_encode. done.
Qed.

Lemma low_u8_word (w : Z) : nth 31 (be_encode 32 w) x00 = z2b w.
Proof.
  rewrite (be_encode_split 31 1), app_nth2 by layout_len. rewrite be_encode_length.
  by rewrite be_encode_1.
Qed.

(** ** The segment loop *)

Section SegmentLaws.
Context {RLP : Rlp} {RL : RlpLaws}.

Lemma decode_step_shorter (buf rest : bytes) (h : RlpHeader) :
  rlp_header_decode buf = Some (h, rest) -> rlp_payload_length h <= Z.of_nat (length rest) ->
  (length (drop (Z.to_nat (rlp_payload_length h)) rest) < length buf)%nat.
Proof.
  intros Hd Hle. apply rlp_header_progress in Hd as (hdr & -> & Hnn & Hemp).
  rewrite length_drop, length_app. destruct hdr; [|cbn; lia]. specialize (Hemp eq_refl). cbn. lia.
Qed.

(** The fuel [parse_segments] passes is never exhausted. *)
Lemma parse_segments_loop_enough (fuel : nat) (buf : bytes) (segs : list Segment) :
  (length buf < fuel)%nat -> is_Some (parse_segments_loop fuel buf segs).
Proof.
  revert buf segs. induction fuel as [|fuel IH]; intros buf segs Hf; [lia|].
  cbn [parse_segments_loop]. destruct buf as [|b buf']; [by eexists|].
  destruct (rlp_header_decode (b :: buf')) as [[h rest]|] eqn:E; [|by eexists].
  destruct (rlp_list h); [by eexists|].
  destruct (Z.of_nat (length rest) <? rlp_payload_length h) eqn:El; [by eexists|].
  apply Z.ltb_ge in El. apply IH.
  pose proof (decode_step_shorter _ _ _ E El). lia.
Qed.

Lemma parse_segments_loop_mono (f f' : nat) (buf : bytes) (segs : list Segment) r :
  (f <= f')%nat -> parse_segments_loop f buf segs = Some r -> parse_segments_loop f' buf segs = Some r.
Proof.
  revert f' buf segs. induction f as [|f IH]; intros f' buf segs Hle; [done|].
  destruct f' as [|f']; [lia|]. cbn [parse_segments_loop].
  destruct buf as [|b buf']; [done|].
  destruct (rlp_header_decode (b :: buf')) as [[h rest]|]; [|done].
  destruct (rlp_list h); [done|]. destruct (_ <? _); [done|]. apply IH. lia.
Qed.

Lemma parse_segments_Some (fuel : nat) (buf : bytes) r :
  parse_segments_loop fuel buf [] = Some r -> parse_segments buf = r.
Proof.
  unfold parse_segments. intros Hr.
  destruct (parse_segments_loop_enough (S (length buf)) buf []) as [r' Hr']; [lia|].
  rewrite Hr'.
  apply (parse_segments_loop_mono _ (Nat.max fuel (S (length buf)))) in Hr; [|lia].
  apply (parse_segments_loop_mono _ (Nat.max fuel (S (length buf)))) in Hr'; [|lia].
  congruence.
Qed.

(** The segments a stream of byte strings stands for: the empty ones are skipped. *)
Definition segment_of (item : bytes) : option Segment :=
  match item with
  | kind :: data => Some {| seg_kind := kind; seg_data := data |}
  | [] => None
  end.

Definition segment_stream (items : list bytes) : bytes := concat (map rlp_encode_bytes items).

Lemma parse_segments_loop_stream (items : list bytes) (segs : list Segment) :
  Forall (fun it => Z.of_nat (length it) < 2 ^ 64) items ->
  exists fuel, parse_segments_loop fuel (segment_stream items) segs
               = Some (Ok (segs ++ omap segment_of items)).
Proof.
  intros Hlen. revert segs. induction Hlen as [|it items Hit Hitems IH]; intros segs.
  - exists 1%nat. cbn. by rewrite app_nil_r.
  - destruct (IH (match it with [] => segs
                  | k :: d => segs ++ [{| seg_kind := k; seg_data := d |}] end)) as [fuel Hf].
    exists (S fuel). unfold segment_stream in *. cbn [map concat parse_segments_loop].
    pose proof (rlp_bytes_roundtrip it (concat (map rlp_encode_bytes items)) Hit) as Hr.
    destruct (rlp_encode_bytes it ++ _) as [|b buf] eqn:Eb.
    { apply rlp_header_progress in Hr as (hdr & Heq & _ & Hpos). cbn in Hpos.
      destruct hdr; [|done]. specialize (Hpos eq_refl). destruct it; cbn in *; [lia|done]. }
    rewrite Hr. cbn [rlp_list rlp_payload_length string_header]. rewrite Nat2Z.id.
    rewrite (proj2 (Z.ltb_ge _ _)) by (rewrite length_app; lia).
    rewrite take_app_length, drop_app_length.
    destruct it as [|k d]; rewrite Hf; cbn; [done|]. by rewrite <- app_assoc.
Qed.

(** Every parsed segment is a run of the input: its kind byte followed by its data. *)
Lemma parse_segments_loop_sound (fuel : nat) (buf : bytes) (segs out : list Segment) :
  parse_segments_loop fuel buf segs = Some (Ok out) ->
  exists new, out = segs ++ new /\
    Forall (fun s => exists l r, buf = l ++ (seg_kind s :: seg_data s) ++ r) new /\
    (sum_list (map (fun s => S (length (seg_data s))) new) <= length buf)%nat.
Proof.
  revert buf segs. induction fuel as [|fuel IH]; intros buf segs; cbn [parse_segments_loop]; [done|].
  destruct buf as [|b buf'].
  { intros [= <-]. exists []. rewrite app_nil_r. repeat constructor. }
  destruct (rlp_header_decode (b :: buf')) as [[h rest]|] eqn:E; [|done].
  destruct (rlp_list h); [done|].
  destruct (Z.of_nat (length rest) <? rlp_payload_length h) eqn:El; [done|].
  apply Z.ltb_ge in El.
  apply rlp_header_progress in E as (hdr & -> & Hnn & Hemp).
  set (n := Z.to_nat (rlp_payload_length h)). intros Hrec.
  assert (Hsuf : forall new, Forall (fun s => exists l r,
      drop n rest = l ++ (seg_kind s :: seg_data s) ++ r) new ->
      Forall (fun s => exists l r, hdr ++ rest = l ++ (seg_kind s :: seg_data s) ++ r) new).
  { intros new Hf. eapply List.Forall_impl; [|exact Hf]. intros s (l & r & Heq).
    exists (hdr ++ take n rest ++ l), r. rewrite <- !app_assoc, <- Heq, take_drop. done. }
  assert (Hlen : length rest = (length (take n rest) + length (drop n rest))%nat).
  { rewrite <- length_app, take_drop. done. }
  apply IH in Hrec as (new & -> & Hf & Hs). apply Hsuf in Hf.
  destruct (take n rest) as [|k d] eqn:Et; [exists new|exists ({| seg_kind := k; seg_data := d |} :: new)].
  - rewrite length_app. cbn [length] in Hlen. split_and!; [done|done|lia].
  - rewrite <- app_assoc. split_and!; [done| |].
    + constructor; [|done]. exists hdr, (drop n rest). cbn [seg_kind seg_data].
      by rewrite <- Et, take_drop.
    + rewrite length_app. cbn [map sum_list_with id length seg_data] in *. lia.
Qed.

End SegmentLaws.

(** ** Properties *)

(** [BatchHeader::parse] accepts exactly the byte strings that start with the 40-byte
    big-endian encoding of a header with [u64] fields, and returns that header with the bytes
    after it: parsing and encoding are inverse to each other. *)
Theorem header_parse_iff (data rest : bytes) (h : BatchHeader) :
  header_parse data = Ok (h, rest) <-> header_ok h /\ data = header_bytes h ++ rest.
Proof.
  split; [apply header_parse_decode|]. intros [Hok ->]. by apply header_parse_encode.
Qed.

(** [parse_sequencer_batch_delivered] on the seven ABI words of an event returns
    [delayedAcc] whole, each [u64] field as its word modulo 2^64 and [dataLocation] as the low
    byte of its word; on data of any other length it reports that length. *)
Theorem parse_delivered_words (data : bytes) (w0 w1 w2 w3 w4 w5 w6 : Z) :
  (parse_sequencer_batch_delivered (event_words [w0; w1; w2; w3; w4; w5; w6]) = Ok {|
     ev_delayed_acc := w0 mod 2 ^ 256;
     ev_after_delayed_messages_read := w1 mod 2 ^ 64;
     ev_min_timestamp := w2 mod 2 ^ 64;
     ev_max_timestamp := w3 mod 2 ^ 64;
     ev_min_l1_block := w4 mod 2 ^ 64;
     ev_max_l1_block := w5 mod 2 ^ 64;
     ev_data_location := z2b w6 |}) /\
  (length data <> 224%nat ->
   parse_sequencer_batch_delivered data = Err (Batch_EventDataWrongLen (length data))).
Proof.
  split.
  - unfold event_words; cbn [map concat]. unfold parse_sequencer_batch_delivered, u64_word, u8_word.
    rewrite !word_app. rewrite (proj2 (Nat.eqb_eq _ _)) by layout_len. cbn [negb].
    rewrite !low_u64_word, low_u8_word, be_decode_encode. done.
  - intros Hne. unfold parse_sequencer_batch_delivered.
    by rewrite (proj2 (Nat.eqb_neq _ _)) by done.
Qed.

Lemma parse_delivered_words_witness :
  length [x00; x01] <> 224%nat /\
  parse_sequencer_batch_delivered [x00; x01] = Err (Batch_EventDataWrongLen 2) /\
  parse_sequencer_batch_delivered (event_words [7; 2484028; 1; 2; 3; 4; 3])
    = Ok {| ev_delayed_acc := 7; ev_after_delayed_messages_read := 2484028; ev_min_timestamp := 1;
            ev_max_timestamp := 2; ev_min_l1_block := 3; ev_max_l1_block := 4;
            ev_data_location := BLOB_HASHES |}.
Proof.
  destruct (parse_delivered_words [x00; x01] 7 2484028 1 2 3 4 3) as [H1 H2].
  split; [done|]. split; [exact (H2 ltac:(done))|exact H1].
Defined.

(** Parsing the RLP stream of any list of byte strings returns, in order, the segment of
    each non-empty string (its first byte is the kind) and skips the empty ones. *)
Theorem parse_segments_roundtrip {RLP : Rlp} {RL : RlpLaws} (items : list bytes) :
  Forall (fun it => Z.of_nat (length it) < 2 ^ 64) items ->
  parse_segments (segment_stream items) = Ok (omap segment_of items).
Proof.
  intros Hlen. destruct (parse_segments_loop_stream items [] Hlen) as [fuel Hf].
  by apply parse_segments_Some in Hf.
Qed.

Lemma parse_segments_roundtrip_witness :
  parse_segments (RLP := Reference.rlp) (segment_stream (RLP := Reference.rlp) [[x03; x05]; []; [x00; xff]; [x02]])
  = Ok [{| seg_kind := ADVANCE_TIMESTAMP; seg_data := [x05] |};
        {| seg_kind := L2_MESSAGE; seg_data := [xff] |};
        {| seg_kind := DELAYED_MESSAGES; seg_data := [] |}].
Proof.
  apply (parse_segments_roundtrip (RL := Reference.rlp_laws) [[x03; x05]; []; [x00; xff]; [x02]]).
  repeat constructor.
Defined.

(** [parse_segments] always terminates within its fuel, and whatever it returns is read off
    the input: each segment's kind byte and data are a contiguous run of the buffer, and together
    they are no longer than it. *)
Theorem parse_segments_sound {RLP : Rlp} {RL : RlpLaws} (buf : bytes) (segs : list Segment) :
  is_Some (parse_segments_loop (S (length buf)) buf []) /\
  (parse_segments buf = Ok segs ->
   Forall (fun s => exists l r, buf = l ++ (seg_kind s :: seg_data s) ++ r) segs /\
   (sum_list (map (fun s => S (length (seg_data s))) segs) <= length buf)%nat).
Proof.
  pose proof (parse_segments_loop_enough (S (length buf)) buf [] ltac:(lia)) as [r Hr].
  split; [by eexists|]. intros Hp. unfold parse_segments in Hp. rewrite Hr in Hp. subst r.
  apply parse_segments_loop_sound in Hr as (new & -> & Hf & Hs). done.
Qed.

Lemma parse_segments_sound_witness :
  let buf := [x82; x00; xff; x02] in
  parse_segments (RLP := Reference.rlp) buf
    = Ok [{| seg_kind := x00; seg_data := [xff] |}; {| seg_kind := x02; seg_data := [] |}] /\
  (sum_list [2; 1] <= length buf)%nat.
Proof.
  intros buf. assert (Hp : parse_segments (RLP := Reference.rlp) buf
    = Ok [{| seg_kind := x00; seg_data := [xff] |}; {| seg_kind := x02; seg_data := [] |}])
    by (vm_compute; reflexivity).
  split; [exact Hp|].
  exact (proj2 (proj2 (parse_segments_sound (RL := Reference.rlp_laws) buf _) Hp)).
Defined.
