(* ===== verification/Blob.v ===== *)
(** * EIP-4844 blob decoding

    [crates/arb-reth-derive/src/blob.rs]: [decode_blobs] reassembles the payload from the 31 body
    bytes and the 6 spare bits of every 32-byte field element; [encode_blobs] is the inverse the
    file keeps beside it. A blob is a byte list of length [BYTES_PER_BLOB]; the accumulator of the
    spare-bit pass is kept at its [u16] width. *)

From Stdlib Require Import Strings.Byte Strings.String.
From stdpp Require Import base list numbers option.
From S2P Require Import Prelude External.

Definition FIELD_ELEMENTS_PER_BLOB : nat := 4096.
Definition BYTES_PER_FIELD_ELEMENT : nat := 32.
Definition BYTES_PER_BLOB : nat := FIELD_ELEMENTS_PER_BLOB * BYTES_PER_FIELD_ELEMENT.
Definition SPARE_BLOB_BITS : Z := 6.
Definition BLOB_ENCODABLE_DATA : nat := 254 * FIELD_ELEMENTS_PER_BLOB / 8.
Definition BODY_BYTES_PER_BLOB : nat := (BYTES_PER_FIELD_ELEMENT - 1) * FIELD_ELEMENTS_PER_BLOB.

Inductive BlobDecodeError :=
| Blob_SpareBits (bits : Z)
| Blob_Rlp (what : string).

(** Pass 1: the 31 body bytes of every field element. *)
Definition blob_bodies (blob : bytes) : bytes :=
  flat_map (fun fe => slice (fe * BYTES_PER_FIELD_ELEMENT + 1) (BYTES_PER_FIELD_ELEMENT - 1) blob)
    (seq 0 FIELD_ELEMENTS_PER_BLOB).

(** Pass 2, one field element: [acc |= (byte as u16) << acc_bits], then push a full byte. *)
Definition spare_step (st : Z * Z * bytes) (byte0 : u8) : Z * Z * bytes :=
  let '(acc, acc_bits, out) := st in
  let acc := Z.lor acc (Z.shiftl (b2z byte0) acc_bits mod 2 ^ 16) in
  let acc_bits := acc_bits + SPARE_BLOB_BITS in
  if 8 <=? acc_bits then (Z.shiftr acc 8, acc_bits - 8, out ++ [z2b acc])
  else (acc, acc_bits, out).

Definition first_bytes (blob : bytes) : bytes :=
  map (fun fe => nth (fe * BYTES_PER_FIELD_ELEMENT) blob x00) (seq 0 FIELD_ELEMENTS_PER_BLOB).

Definition blob_spares (blob : bytes) (out : bytes) : Z * Z * bytes :=
  fold_left spare_step (first_bytes blob) (0, 0, out).

Fixpoint decode_blobs_loop (blobs : list bytes) (rlp_data : bytes)
    : result BlobDecodeError bytes :=
  match blobs with
  | [] => Ok rlp_data
  | blob :: blobs' =>
      let '(_, acc_bits, rlp_data) := blob_spares blob (rlp_data ++ blob_bodies blob) in
      if negb (acc_bits =? 0) then Err (Blob_SpareBits acc_bits)
      else decode_blobs_loop blobs' rlp_data
  end.

Definition decode_blobs {RLP : Rlp} (blobs : list bytes) : result BlobDecodeError bytes :=
  let? rlp_data := decode_blobs_loop blobs [] in
  let? '(header, slice) := ok_or (Blob_Rlp "bad header") (rlp_header_decode rlp_data) in
  if rlp_list header then Err (Blob_Rlp "expected string, got list")
  else if Z.of_nat (length slice) <? rlp_payload_length header
  then Err (Blob_Rlp "payload length exceeds data")
  else Ok (take (Z.to_nat (rlp_payload_length header)) slice).

(** ** The encoder *)

(** One field element of [encode_blobs]: refill the accumulator, emit its low six bits. *)
Definition fill_step (st : Z * Z * bytes) : (Z * Z * bytes) * u8 :=
  let '(acc, acc_bits, spares) := st in
  let '(acc, acc_bits, spares) :=
    match spares with
    | s :: spares' =>
        if acc_bits <? SPARE_BLOB_BITS
        then (Z.lor acc (Z.shiftl (b2z s) acc_bits mod 2 ^ 16), acc_bits + 8, spares')
        else (acc, acc_bits, spares)
    | [] => (acc, acc_bits, spares)
    end in
  ((Z.shiftr acc SPARE_BLOB_BITS, saturating_sub acc_bits SPARE_BLOB_BITS, spares),
   z2b (Z.land acc 63)).

Fixpoint fill_spares (n : nat) (st : Z * Z * bytes) : bytes :=
  match n with
  | O => []
  | S n' => let '(st', b) := fill_step st in b :: fill_spares n' st'
  end.

(** A field element is its spare byte followed by its 31 body bytes. *)
Definition encode_blob (chunk : bytes) : bytes :=
  let bodies := take BODY_BYTES_PER_BLOB chunk in
  let spares := drop BODY_BYTES_PER_BLOB chunk in
  let firsts := fill_spares FIELD_ELEMENTS_PER_BLOB (0, 0, spares) in
  flat_map (fun fe => nth fe firsts x00 :: slice (fe * 31) 31 bodies)
    (seq 0 FIELD_ELEMENTS_PER_BLOB).

Definition div_ceil (a b : nat) : nat := (a + b - 1) / b.

Definition encode_blobs {RLP : Rlp} (data : bytes) : list bytes :=
  let rlp := rlp_header_encode (string_header (Z.of_nat (length data))) ++ data in
  let n_blobs := Nat.max (div_ceil (length rlp) BLOB_ENCODABLE_DATA) 1 in
  let rlp := rlp ++ repeat x00 (n_blobs * BLOB_ENCODABLE_DATA - length rlp) in
  map (fun i => encode_blob (slice (i * BLOB_ENCODABLE_DATA) BLOB_ENCODABLE_DATA rlp))
    (seq 0 n_blobs).

(** ** Field elements of a blob *)

Lemma map_seq_lookup {A B : Type} (f : nat -> B) (g : A -> B) (l : list A) :
  (forall i a, l !! i = Some a -> f i = g a) -> map f (seq 0 (length l)) = map g l.
Proof.
  intros Hfg. apply list_eq. intros i. rewrite !list_lookup_fmap.
  destruct (decide (i < length l)%nat) as [Hi|Hi].
  - destruct (lookup_lt_is_Some_2 l i Hi) as [a Ha]. rewrite Ha.
    rewrite lookup_seq_lt by lia. cbn. f_equal. by apply Hfg.
  - rewrite (lookup_ge_None_2 l i), lookup_seq_ge by lia. done.
Qed.

Lemma flat_map_concat_map' {A : Type} (f : A -> bytes) (l : list A) :
  flat_map f l = concat (map f l).
Proof. apply flat_map_concat_map. Qed.

Section Elements.
Variable w : nat.

Lemma concat_length (elems : list bytes) :
  Forall (fun e => length e = w) elems -> length (concat elems) = (length elems * w)%nat.
Proof.
  induction 1 as [|e elems He Helems IH]; [done|]. cbn [concat length].
  rewrite length_app, He, IH. lia.
Qed.

(** A window inside the [i]th of equally wide pieces. *)
Lemma slice_concat (elems : list bytes) (i a n : nat) (e : bytes) :
  Forall (fun e => length e = w) elems -> elems !! i = Some e -> (a + n <= w)%nat ->
  slice (i * w + a) n (concat elems) = slice a n e.
Proof.
  intros Hall. revert i. induction Hall as [|e0 elems He0 Helems IH]; intros i Hi Hn; [done|].
  cbn [concat]. destruct i as [|i].
  - injection Hi as ->. unfold slice.
    rewrite (drop_app_le e (concat elems)) by lia.
    rewrite take_app_le by (rewrite length_drop; lia). f_equal.
  - rewrite slice_app_skip by lia.
    replace (S i * w + a - length e0)%nat with (i * w + a)%nat by lia. by apply IH.
Qed.

Lemma nth_slice (i : nat) (l : bytes) (d : u8) :
  (i < length l)%nat -> nth i l d = nth 0 (slice i 1 l) d.
Proof.
  intros Hi. rewrite <- (take_drop i l) at 1. rewrite app_nth2 by (rewrite length_take; lia).
  rewrite length_take, Nat.min_l, Nat.sub_diag by lia.
  unfold slice. pose proof (length_drop l i) as Hl.
  destruct (drop i l); [cbn in Hl; lia|done].
Qed.

(** Cutting into [k] pieces of width [w] and gluing gives the list back. *)
Lemma concat_slices (k : nat) (l : bytes) :
  length l = (k * w)%nat -> concat (map (fun i => slice (i * w) w l) (seq 0 k)) = l.
Proof.
  revert l. induction k as [|k IH]; intros l Hl.
  - by destruct l.
  - cbn [seq map concat]. rewrite <- seq_shift, map_map.
    transitivity (take w l ++ drop w l); [|apply take_drop]. f_equal.
    rewrite <- (IH (drop w l)) by (rewrite length_drop; lia).
    f_equal. apply map_ext. intros i. unfold slice. rewrite drop_drop. done.
Qed.

Lemma slices_width (k : nat) (l : bytes) :
  length l = (k * w)%nat ->
  Forall (fun c => length c = w) (map (fun i => slice (i * w) w l) (seq 0 k)).
Proof.
  intros Hl. apply Forall_forall. intros c Hc%in_map_iff.
  destruct Hc as (i & <- & Hi%in_seq). apply slice_length. nia.
Qed.

End Elements.

(** ** The spare-bit pass *)

(** Accumulating a byte at an offset that keeps it inside the [u16]. *)
Lemma acc_or (a k : Z) (b : u8) :
  0 <= k <= 8 -> 0 <= a < 2 ^ k ->
  Z.lor a (Z.shiftl (b2z b) k mod 2 ^ 16) = a + b2z b * 2 ^ k.
Proof.
  intros Hk Ha. rewrite Z.mod_small; [by apply lor_shiftl_add; lia|].
  pose proof (b2z_bound b). rewrite Z.shiftl_mul_pow2 by lia.
  assert (2 ^ k <= 2 ^ 8) by (apply Z.pow_le_mono_r; lia). change (2 ^ 16) with (256 * 2 ^ 8). nia.
Qed.

Definition six (z : Z) : u8 := z2b (z mod 64).

Lemma b2z_six (z : Z) : b2z (six z) = z mod 64.
Proof. unfold six. rewrite b2z_z2b. pose proof (Z.mod_pos_bound z 64). apply Z.mod_small; lia. Qed.

Lemma land_63 (z : Z) : Z.land z 63 = z mod 64.
Proof. apply (Z.land_ones z 6). lia. Qed.

Lemma saturating_sub_lit (a b : Z) : b <= a -> saturating_sub a b = a - b.
Proof. unfold saturating_sub. lia. Qed.

Lemma fill_refill (acc bits : Z) (s : u8) (rest : bytes) :
  0 <= bits < 6 -> 0 <= acc < 2 ^ bits ->
  fill_step (acc, bits, s :: rest) =
  (((acc + b2z s * 2 ^ bits) / 64, bits + 2, rest), six (acc + b2z s * 2 ^ bits)).
Proof.
  intros Hb Ha. unfold fill_step, SPARE_BLOB_BITS. rewrite (proj2 (Z.ltb_lt bits 6)) by lia.
  rewrite acc_or, land_63, Z.shiftr_div_pow2, saturating_sub_lit by lia.
  by replace (bits + 8 - 6) with (bits + 2) by lia.
Qed.

Lemma fill_drain (acc : Z) (rest : bytes) :
  fill_step (acc, 6, rest) = ((acc / 64, 0, rest), six acc).
Proof.
  unfold fill_step. change (6 <? SPARE_BLOB_BITS) with false.
  destruct rest; cbn beta iota zeta; by rewrite land_63, Z.shiftr_div_pow2 by done.
Qed.

Lemma spare_keep (acc bits : Z) (b : u8) (out : bytes) :
  0 <= bits < 2 -> 0 <= acc < 2 ^ bits ->
  spare_step (acc, bits, out) b = (acc + b2z b * 2 ^ bits, bits + 6, out).
Proof.
  intros Hb Ha. unfold spare_step, SPARE_BLOB_BITS. rewrite acc_or by lia.
  by rewrite (proj2 (Z.leb_gt 8 (bits + 6))) by lia.
Qed.

Lemma spare_push (acc bits : Z) (b : u8) (out : bytes) :
  2 <= bits < 8 -> 0 <= acc < 2 ^ bits ->
  spare_step (acc, bits, out) b =
  ((acc + b2z b * 2 ^ bits) / 256, bits - 2, out ++ [z2b (acc + b2z b * 2 ^ bits)]).
Proof.
  intros Hb Ha. unfold spare_step, SPARE_BLOB_BITS. rewrite acc_or by lia.
  rewrite (proj2 (Z.leb_le 8 (bits + 6))), Z.shiftr_div_pow2 by lia.
  by replace (bits + 6 - 8) with (bits - 2) by lia.
Qed.

Ltac pow_lits :=
  change (2 ^ 0) with 1 in *; change (2 ^ 2) with 4 in *; change (2 ^ 4) with 16 in *;
  change (2 ^ 6) with 64 in *; change (2 ^ 24) with 16777216 in *.
Ltac divmod := pow_lits; Z.div_mod_to_equations; lia.

(** Three spare bytes fill four field elements. *)
Lemma fill_group (n : nat) (s0 s1 s2 : u8) (rest : bytes) :
  let v := b2z s0 + 256 * b2z s1 + 65536 * b2z s2 in
  fill_spares (4 + n) (0, 0, s0 :: s1 :: s2 :: rest) =
  six v :: six (v / 64) :: six (v / 4096) :: six (v / 262144) :: fill_spares n (0, 0, rest).
Proof.
  pose proof (b2z_bound s0). pose proof (b2z_bound s1). pose proof (b2z_bound s2).
  intros v. cbn [Nat.add fill_spares]. rewrite fill_refill by divmod. change (0 + 2) with 2.
  rewrite fill_refill by divmod. change (2 + 2) with 4. rewrite fill_refill by divmod.
  change (4 + 2) with 6. rewrite fill_drain. unfold six, v. pow_lits.
  f_equal; [f_equal; divmod|]. f_equal; [f_equal; divmod|]. f_equal; [f_equal; divmod|].
  f_equal; [f_equal; divmod|]. repeat f_equal. divmod.
Qed.

(** Four six-bit slots give the three bytes back and leave an empty accumulator. *)
Lemma spare_group (v : Z) (out : bytes) :
  0 <= v < 2 ^ 24 ->
  fold_left spare_step [six v; six (v / 64); six (v / 4096); six (v / 262144)] (0, 0, out) =
  (0, 0, out ++ [z2b v; z2b (v / 256); z2b (v / 65536)]).
Proof.
  intros Hv. cbn [fold_left]. rewrite spare_keep by divmod. rewrite b2z_six.
  change (0 + 6) with 6. rewrite spare_push by divmod. rewrite b2z_six. change (6 - 2) with 4.
  rewrite spare_push by divmod. rewrite b2z_six. change (4 - 2) with 2.
  rewrite spare_push by divmod. rewrite b2z_six. change (2 - 2) with 0.
  rewrite <- !app_assoc. cbn [app]. pow_lits.
  assert (Hm : forall x y, x mod 256 = y mod 256 -> z2b x = z2b y).
  { intros x y Hxy. apply b2z_inj. by rewrite !b2z_z2b. }
  f_equal; [f_equal; divmod|].
  f_equal. f_equal; [|f_equal; [|f_equal]]; apply Hm; divmod.
Qed.

Lemma spare_bytes (s0 s1 s2 : u8) :
  let v := b2z s0 + 256 * b2z s1 + 65536 * b2z s2 in
  [z2b v; z2b (v / 256); z2b (v / 65536)] = [s0; s1; s2].
Proof.
  pose proof (b2z_bound s0). pose proof (b2z_bound s1). pose proof (b2z_bound s2).
  intros v. unfold v.
  repeat f_equal; apply b2z_inj; rewrite b2z_z2b; Z.div_mod_to_equations; lia.
Qed.

Lemma spares_roundtrip (k : nat) (spares out : bytes) :
  length spares = (3 * k)%nat ->
  fold_left spare_step (fill_spares (4 * k) (0, 0, spares)) (0, 0, out) = (0, 0, out ++ spares).
Proof.
  revert spares out. induction k as [|k IH]; intros spares out Hl.
  - destruct spares; [|done]. by rewrite app_nil_r.
  - destruct spares as [|s0 [|s1 [|s2 rest]]]; cbn [length] in Hl; try lia.
    pose proof (b2z_bound s0). pose proof (b2z_bound s1). pose proof (b2z_bound s2).
    replace (4 * S k)%nat with (4 + 4 * k)%nat by lia. rewrite fill_group.
    set (v := b2z s0 + _ + _). change (?a :: ?b :: ?c :: ?d :: ?r) with ([a; b; c; d] ++ r).
    rewrite fold_left_app, spare_group by (unfold v; lia). unfold v. rewrite spare_bytes.
    rewrite IH by lia. by rewrite <- app_assoc.
Qed.

Lemma fill_spares_length (n : nat) (st : Z * Z * bytes) : length (fill_spares n st) = n.
Proof.
  revert st. induction n as [|n IH]; intros st; [done|]. cbn [fill_spares].
  destruct (fill_step st) as [st' b]. cbn [length]. by rewrite IH.
Qed.

(** The number of pending bits after [n] field elements does not depend on their bytes. *)
Lemma spare_bits (firsts : bytes) (acc bits : Z) (out : bytes) :
  0 <= bits < 8 ->
  (fold_left spare_step firsts (acc, bits, out)).1.2 = (bits + 6 * Z.of_nat (length firsts)) mod 8.
Proof.
  revert acc bits out. induction firsts as [|b firsts IH]; intros acc bits out Hb.
  - cbn. rewrite Z.mod_small; lia.
  - cbn [fold_left length]. unfold spare_step at 2, SPARE_BLOB_BITS.
    destruct (8 <=? bits + 6) eqn:E; rewrite IH by lia; Z.div_mod_to_equations; lia.
Qed.

(** ** Round trip *)

(** The sizes only matter through these relations: 254 usable bits per field element. *)
Lemma blob_sizes :
  exists k, FIELD_ELEMENTS_PER_BLOB = (4 * k)%nat /\ (0 < k)%nat /\
    BODY_BYTES_PER_BLOB = (FIELD_ELEMENTS_PER_BLOB * 31)%nat /\
    BLOB_ENCODABLE_DATA = (BODY_BYTES_PER_BLOB + 3 * k)%nat.
Proof.
  exists 1024%nat. repeat split; try apply Nat2Z.inj; try (vm_compute; reflexivity).
  apply Nat.ltb_lt. vm_compute. reflexivity.
Qed.

#[local] Opaque FIELD_ELEMENTS_PER_BLOB BODY_BYTES_PER_BLOB BLOB_ENCODABLE_DATA.

Section Elements_of_blob.
Variables (firsts bodies : bytes) (n : nat).
Hypothesis Hfirsts : length firsts = n.
Hypothesis Hbodies : length bodies = (n * 31)%nat.

Let elem (fe : nat) : bytes := nth fe firsts x00 :: slice (fe * 31) 31 bodies.
Let elems : list bytes := map elem (seq 0 n).

Lemma elems_width : Forall (fun e => length e = 32%nat) elems.
Proof.
  apply Forall_forall. intros e He%in_map_iff. destruct He as (fe & <- & Hfe%in_seq).
  unfold elem. cbn [length]. rewrite slice_length; nia.
Qed.

Lemma elems_length : length elems = n.
Proof. unfold elems. by rewrite length_map, length_seq. Qed.

Lemma elems_bodies :
  flat_map (fun fe => slice (fe * 32 + 1) 31 (concat elems)) (seq 0 n) = bodies.
Proof.
  rewrite flat_map_concat_map. rewrite <- elems_length at 1.
  rewrite (map_seq_lookup _ (slice 1 31) elems).
  2:{ intros i e He. apply slice_concat; [apply elems_width|done|lia]. }
  unfold elems. rewrite map_map. etransitivity; [|exact (concat_slices 31 n bodies Hbodies)].
  f_equal. apply map_ext_in. intros fe Hfe%in_seq. unfold elem.
  change (nth fe firsts x00 :: slice (fe * 31) 31 bodies)
    with ([nth fe firsts x00] ++ slice (fe * 31) 31 bodies).
  rewrite slice_app_skip by (cbn; lia). apply slice_all. rewrite slice_length; nia.
Qed.

Lemma elems_firsts :
  map (fun fe => nth (fe * 32) (concat elems) x00) (seq 0 n) = firsts.
Proof.
  rewrite <- elems_length at 1.
  rewrite (map_seq_lookup _ (fun e => nth 0 e x00) elems).
  - unfold elems. rewrite map_map. cbn [elem nth]. rewrite <- Hfirsts at 1.
    rewrite (map_seq_lookup _ id firsts); [apply map_id|].
    intros i a Ha. by apply nth_lookup_Some.
  - intros i e He. pose proof (elems_width) as Hw.
    assert (Hlt : (i < n)%nat) by (rewrite <- elems_length; by eapply lookup_lt_Some).
    rewrite nth_slice by (rewrite (concat_length 32) by done; rewrite elems_length; lia).
    replace (i * 32)%nat with (i * 32 + 0)%nat by lia.
    rewrite (slice_concat 32 elems i 0 1 e) by (done || lia).
    rewrite Forall_forall in Hw. specialize (Hw e (proj1 (list_elem_of_In _ _) (list_elem_of_lookup_2 _ _ _ He))).
    symmetry. apply nth_slice. lia.
Qed.

End Elements_of_blob.

(** Decoding the two passes of one encoded chunk. *)
Lemma encode_blob_passes (chunk out : bytes) :
  length chunk = BLOB_ENCODABLE_DATA ->
  blob_spares (encode_blob chunk) (out ++ blob_bodies (encode_blob chunk)) = (0, 0, out ++ chunk).
Proof.
  intros Hc. destruct blob_sizes as (k & HN & Hk & HB & HE).
  unfold encode_blob, blob_bodies, blob_spares, first_bytes, BYTES_PER_FIELD_ELEMENT.
  set (bodies := take _ chunk). set (spares := drop _ chunk). set (firsts := fill_spares _ _).
  assert (Hb : length bodies = (FIELD_ELEMENTS_PER_BLOB * 31)%nat)
    by (unfold bodies; rewrite length_take; lia).
  assert (Hf : length firsts = FIELD_ELEMENTS_PER_BLOB) by apply fill_spares_length.
  rewrite (flat_map_concat_map (fun fe => nth fe firsts x00 :: slice (fe * 31) 31 bodies)).
  rewrite elems_firsts by done. change (32 - 1)%nat with 31%nat.
  rewrite (elems_bodies firsts bodies) by done.
  unfold firsts. rewrite HN, spares_roundtrip.
  - rewrite <- app_assoc. unfold bodies, spares. by rewrite take_drop.
  - unfold spares. rewrite length_drop. lia.
Qed.

(** An encoded blob has the size of a blob. *)
Lemma encode_blob_length (chunk : bytes) :
  length chunk = BLOB_ENCODABLE_DATA -> length (encode_blob chunk) = BYTES_PER_BLOB.
Proof.
  intros Hc. destruct blob_sizes as (k & HN & Hk & HB & HE). unfold encode_blob.
  rewrite flat_map_concat_map, (concat_length 32).
  - rewrite length_map, length_seq. unfold BYTES_PER_BLOB, BYTES_PER_FIELD_ELEMENT. exact eq_refl.
  - apply (elems_width _ (take BODY_BYTES_PER_BLOB chunk)); [apply fill_spares_length|].
    rewrite length_take. lia.
Qed.

Lemma decode_loop_encoded (chunks : list bytes) (out : bytes) :
  Forall (fun c => length c = BLOB_ENCODABLE_DATA) chunks ->
  decode_blobs_loop (map encode_blob chunks) out = Ok (out ++ concat chunks).
Proof.
  intros Hall. revert out. induction Hall as [|c chunks Hc Hchunks IH]; intros out.
  - cbn. by rewrite app_nil_r.
  - cbn [map decode_blobs_loop concat]. rewrite encode_blob_passes by done.
    change (negb (0 =? 0)) with false. cbn iota. by rewrite IH, <- app_assoc.
Qed.

Lemma div_ceil_enough (a b : nat) : (0 < b)%nat -> (a <= Nat.max (div_ceil a b) 1 * b)%nat.
Proof.
  intros Hb. unfold div_ceil. pose proof (Nat.div_mod (a + b - 1) b ltac:(lia)) as Hd.
  pose proof (Nat.mod_upper_bound (a + b - 1) b ltac:(lia)). nia.
Qed.

Lemma div_ceil_small (a b : nat) : (0 < b)%nat -> (a <= b)%nat -> Nat.max (div_ceil a b) 1 = 1%nat.
Proof.
  intros Hb Ha. unfold div_ceil. assert ((a + b - 1) / b < 2)%nat; [|lia].
  apply Nat.Div0.div_lt_upper_bound. lia.
Qed.

(** A payload that fits one blob is encoded as one blob. *)
Lemma encode_blobs_single {RLP : Rlp} (data : bytes) (rlp : bytes) :
  rlp = rlp_header_encode (string_header (Z.of_nat (length data))) ++ data ->
  (length rlp <= BLOB_ENCODABLE_DATA)%nat ->
  exists blob, encode_blobs data = [blob] /\ length blob = BYTES_PER_BLOB.
Proof.
  intros Hrlp Hlen. destruct blob_sizes as (k & HN & Hk & HB & HE).
  unfold encode_blobs. rewrite <- Hrlp.
  rewrite (div_ceil_small (length rlp) BLOB_ENCODABLE_DATA) by lia. cbn [seq map]. eexists. split; [done|]. apply encode_blob_length.
  apply slice_length. rewrite length_app, repeat_length. lia.
Qed.

Lemma blobs_roundtrip {RLP : Rlp} {RL : RlpLaws} (data : bytes) :
  single_low data = false -> Z.of_nat (length data) <= U64_MAX ->
  decode_blobs (encode_blobs data) = Ok data.
Proof.
  intros Hlow Hlen. destruct blob_sizes as (k & HN & Hk & HB & HE).
  unfold decode_blobs, encode_blobs. set (rlp := _ ++ data).
  set (n := Nat.max _ 1). set (padded := rlp ++ _).
  pose proof (div_ceil_enough (length rlp) BLOB_ENCODABLE_DATA ltac:(lia)) as Hn. fold n in Hn.
  assert (Hp : length padded = (n * BLOB_ENCODABLE_DATA)%nat)
    by (unfold padded; rewrite length_app, repeat_length; lia).
  rewrite <- (map_map (fun i => slice (i * BLOB_ENCODABLE_DATA) BLOB_ENCODABLE_DATA padded)
    encode_blob).
  rewrite decode_loop_encoded.
  2: exact (slices_width _ n padded Hp).
  rewrite concat_slices by exact Hp. cbn [rbind app]. unfold padded, rlp.
  rewrite <- app_assoc, rlp_header_roundtrip; [|unfold U64_MAX in Hlen; lia|exact Hlow]. cbn [ok_or rbind string_header rlp_list
    rlp_payload_length]. rewrite length_app.
  rewrite (proj2 (Z.ltb_ge _ _)) by lia. by rewrite Nat2Z.id, take_app_length.
Qed.

(** Blobs built by [encode_blobs] decode to the payload they were built from, for every payload
    the RLP string header represents canonically (a single byte below 0x80 is its own encoding,
    without a header). *)
Theorem decode_encode_blobs {RLP : Rlp} {RL : RlpLaws} (data : bytes) :
  single_low data = false -> Z.of_nat (length data) <= U64_MAX ->
  decode_blobs (encode_blobs data) = Ok data.
Proof. apply blobs_roundtrip. Qed.

Lemma decode_encode_blobs_witness :
  single_low [x80; x01; xff] = false /\
  decode_blobs (RLP := Reference.rlp) (encode_blobs (RLP := Reference.rlp) [x80; x01; xff])
    = Ok [x80; x01; xff].
Proof.
  split; [reflexivity|].
  apply (decode_encode_blobs (RLP := Reference.rlp) (RL := Reference.rlp_laws)).
  - reflexivity.
  - unfold U64_MAX. cbn [length]. lia.
Defined.

Lemma blob_spares_drained (blob out : bytes) : (blob_spares blob out).1.2 = 0.
Proof.
  destruct blob_sizes as (k & HN & _). unfold blob_spares. rewrite spare_bits by lia.
  unfold first_bytes. rewrite length_map, length_seq, HN. rewrite Nat2Z.inj_mul.
  Z.div_mod_to_equations. lia.
Qed.

Lemma decode_loop_total (blobs : list bytes) (out : bytes) :
  exists data, decode_blobs_loop blobs out = Ok data.
Proof.
  revert out. induction blobs as [|b blobs IH]; intros out; [by eexists|].
  cbn [decode_blobs_loop]. pose proof (blob_spares_drained b (out ++ blob_bodies b)) as Hd.
  destruct (blob_spares _ _) as [[acc bits] out']. cbn in Hd. subst bits.
  change (negb (0 =? 0)) with false. apply IH.
Qed.

(** Whatever the blobs hold, the spare-bit pass drains: 4096 slots of six bits are whole bytes,
    so the error "accumulator did not drain" is never returned and the only failures of
    [decode_blobs] are those of the RLP wrapper. *)
Theorem decode_blobs_errors {RLP : Rlp} (blobs : list bytes) (e : BlobDecodeError) :
  decode_blobs blobs = Err e ->
  e ∈ [Blob_Rlp "bad header"; Blob_Rlp "expected string, got list";
       Blob_Rlp "payload length exceeds data"].
Proof.
  unfold decode_blobs. destruct (decode_loop_total blobs []) as [data ->]. cbn [rbind].
  destruct (rlp_header_decode data) as [[h s]|]; cbn [ok_or rbind]; intros H; if_inv H;
    injection H as <-; repeat first [apply list_elem_of_here | apply list_elem_of_further].
Qed.

Lemma decode_blobs_errors_witness :
  decode_blobs (RLP := Reference.rlp) [] = Err (Blob_Rlp "bad header") /\
  Blob_Rlp "bad header" ∈ [Blob_Rlp "bad header"; Blob_Rlp "expected string, got list";
       Blob_Rlp "payload length exceeds data"].
Proof.
  split; [reflexivity|].
  apply (decode_blobs_errors (RLP := Reference.rlp) []). reflexivity.
Defined.
