(* ===== verification/L2Message.v ===== *)
(** * L2 message parsing

    [crates/arb-reth-derive/src/l2message.rs]: an L2 message is a tree whose inner nodes are
    batches of length-prefixed sub-messages. [parse_into] recurses on the levels that remain
    below the depth limit ([levels = MAX_BATCH_DEPTH - depth], so [depth >= MAX_BATCH_DEPTH] is
    [levels = 0]); the batch loop runs on fuel, [batch_loop_fuel] shows that the length of the
    body is enough. *)

From Stdlib Require Import Strings.Byte.
From stdpp Require Import base list numbers option.
From S2P Require Import Prelude External Messages.

Module L2Message.

Definition UNSIGNED_USER_TX : u8 := x00.
Definition CONTRACT_TX : u8 := x01.
Definition NONMUTATING_CALL : u8 := x02.
Definition BATCH : u8 := x03.
Definition SIGNED_TX : u8 := x04.
Definition SIGNED_COMPRESSED_TX : u8 := x07.

Definition MAX_L2_MESSAGE_SIZE : Z := 262144.
Definition MAX_BATCH_DEPTH : nat := 16.

Inductive L2ParseError := BatchTooDeep | Brotli_failed.

Record ParsedL2 := {
  signed_txs : list bytes;
  unsigned_count : nat
}.

Definition ParsedL2_default : ParsedL2 := {| signed_txs := []; unsigned_count := 0 |}.

Definition tx_hashes {KC : Keccak} (p : ParsedL2) : list Z := map keccak256 (signed_txs p).

Definition push_signed (tx : bytes) (out : ParsedL2) : ParsedL2 :=
  {| signed_txs := signed_txs out ++ [tx]; unsigned_count := unsigned_count out |}.
Definition count_unsigned (out : ParsedL2) : ParsedL2 :=
  {| signed_txs := signed_txs out; unsigned_count := S (unsigned_count out) |}.

(** The loop over [[u64 BE length][message]] items, stopping at the first incomplete one. *)
Fixpoint batch_loop (parse : bytes -> ParsedL2 -> result L2ParseError ParsedL2)
    (fuel : nat) (rd : bytes) (out : ParsedL2) : result L2ParseError ParsedL2 :=
  match fuel with
  | O => Ok out
  | S fuel' =>
      if (length rd <? 8)%nat then Ok out
      else
        let len := be_decode (slice 0 8 rd) in
        let rd := drop 8 rd in
        if (MAX_L2_MESSAGE_SIZE <? len) || (Z.of_nat (length rd) <? len) then Ok out
        else
          let? out := parse (take (Z.to_nat len) rd) out in
          batch_loop parse fuel' (drop (Z.to_nat len) rd) out
  end.

(** Every iteration consumes at least eight bytes, so the length of the input is enough fuel. *)
Lemma batch_loop_fuel parse (f f' : nat) (rd : bytes) (out : ParsedL2) :
  (length rd <= f)%nat -> (length rd <= f')%nat ->
  batch_loop parse f rd out = batch_loop parse f' rd out.
Proof.
  revert f' rd out. induction f as [|f IH]; intros f' rd out Hf Hf'.
  - destruct rd; [|cbn in Hf; lia]. by destruct f'.
  - destruct f' as [|f']; [by destruct rd; [|cbn in Hf'; lia]|]. cbn [batch_loop].
    destruct (Nat.ltb_spec (length rd) 8); [done|].
    destruct (orb _ _); [done|]. destruct (parse _ out); [|done]. cbn [rbind].
    apply IH; rewrite !length_drop; lia.
Qed.

Section Parse.
Context {BR : Brotli}.

Fixpoint parse_into (levels : nat) (data : bytes) (out : ParsedL2)
    : result L2ParseError ParsedL2 :=
  match data with
  | [] => Ok out
  | kind :: body =>
      if byte_eqb kind SIGNED_TX then Ok (push_signed body out)
      else if byte_eqb kind SIGNED_COMPRESSED_TX then
        let? tx := ok_or Brotli_failed (brotli_decompress body) in
        Ok (push_signed tx out)
      else if byte_eqb kind BATCH then
        match levels with
        | O => Err BatchTooDeep
        | S levels' => batch_loop (parse_into levels') (length body) body out
        end
      else if byte_eqb kind UNSIGNED_USER_TX || byte_eqb kind CONTRACT_TX
      then Ok (count_unsigned out)
      else Ok out
  end.

Definition parse_l2_message (data : bytes) : result L2ParseError ParsedL2 :=
  parse_into MAX_BATCH_DEPTH data ParsedL2_default.

(** ** Message trees *)

(** A leaf is any message that is not a batch; a batch holds its sub-messages and the tail that
    stops the loop. *)
Inductive L2Tree :=
| Leaf (data : bytes)
| Batch (subs : list L2Tree) (tail : bytes).

Definition frame (data : bytes) : bytes := be_encode 8 (Z.of_nat (length data)) ++ data.

Fixpoint encode (t : L2Tree) : bytes :=
  match t with
  | Leaf data => data
  | Batch subs tail => BATCH :: flat_map (fun s => frame (encode s)) subs ++ tail
  end.

Definition is_batch (data : bytes) : bool :=
  match data with
  | kind :: _ => byte_eqb kind BATCH
  | [] => false
  end.

(** A compressed leaf decompresses. *)
Definition leaf_ok (data : bytes) : Prop :=
  is_batch data = false /\
  match data with
  | kind :: body => kind = SIGNED_COMPRESSED_TX -> brotli_decompress body <> None
  | [] => True
  end.

(** The bytes after the last complete item: too short for a length, an oversize length, or a
    length that runs past the end. *)
Definition stops (tail : bytes) : Prop :=
  (length tail < 8)%nat \/
  MAX_L2_MESSAGE_SIZE < be_decode (slice 0 8 tail) \/
  Z.of_nat (length tail) - 8 < be_decode (slice 0 8 tail).

Inductive tree_ok : L2Tree -> Prop :=
| leaf_tree_ok data : leaf_ok data -> tree_ok (Leaf data)
| batch_tree_ok subs tail :
    Forall (fun s => tree_ok s /\ Z.of_nat (length (encode s)) <= MAX_L2_MESSAGE_SIZE) subs ->
    stops tail -> tree_ok (Batch subs tail).

(** How many batches enclose the deepest leaf. *)
Fixpoint depth (t : L2Tree) : nat :=
  match t with
  | Leaf _ => 0
  | Batch subs _ => S (foldr (fun s d => Nat.max (depth s) d) 0%nat subs)
  end.

Definition leaf_signed (data : bytes) : list bytes :=
  match data with
  | kind :: body =>
      if byte_eqb kind SIGNED_TX then [body]
      else if byte_eqb kind SIGNED_COMPRESSED_TX
      then match brotli_decompress body with Some tx => [tx] | None => [] end
      else []
  | [] => []
  end.

Definition leaf_unsigned (data : bytes) : nat :=
  match data with
  | kind :: _ => if byte_eqb kind UNSIGNED_USER_TX || byte_eqb kind CONTRACT_TX then 1 else 0
  | [] => 0
  end.

(** The leaves from left to right. *)
Fixpoint leaves (t : L2Tree) : list bytes :=
  match t with
  | Leaf data => [data]
  | Batch subs _ => flat_map leaves subs
  end.

Definition parsed_of (ls : list bytes) : ParsedL2 := {|
  signed_txs := flat_map leaf_signed ls;
  unsigned_count := sum_list (map leaf_unsigned ls)
|}.

Definition add_parsed (a b : ParsedL2) : ParsedL2 := {|
  signed_txs := signed_txs a ++ signed_txs b;
  unsigned_count := unsigned_count a + unsigned_count b
|}.

Lemma add_parsed_assoc (a b c : ParsedL2) :
  add_parsed a (add_parsed b c) = add_parsed (add_parsed a b) c.
Proof. unfold add_parsed. cbn. by rewrite app_assoc, Nat.add_assoc. Qed.

Lemma parsed_of_app (l k : list bytes) :
  parsed_of (l ++ k) = add_parsed (parsed_of l) (parsed_of k).
Proof.
  unfold parsed_of, add_parsed. cbn [signed_txs unsigned_count].
  by rewrite flat_map_app, map_app, sum_list_with_app.
Qed.

Lemma add_parsed_nil (a : ParsedL2) : add_parsed a (parsed_of []) = a.
Proof. destruct a. unfold add_parsed. cbn. by rewrite app_nil_r, Nat.add_0_r. Qed.

Lemma parse_leaf (levels : nat) (data : bytes) (out : ParsedL2) :
  leaf_ok data -> parse_into levels data out = Ok (add_parsed out (parsed_of [data])).
Proof.
  intros [Hb Hc]. unfold parsed_of, add_parsed. cbn [flat_map map]. rewrite app_nil_r.
  destruct data as [|kind body]; [destruct levels, out; cbn; by rewrite app_nil_r, Nat.add_0_r|].
  cbn in Hb. cbn [leaf_signed leaf_unsigned]. unfold sum_list. cbn [sum_list_with id].
  rewrite Nat.add_0_r. destruct levels; cbn [parse_into]; rewrite Hb.
  all: destruct (byte_eqb kind SIGNED_TX) eqn:E1;
    [apply bool_decide_eq_true in E1 as ->; cbn; by rewrite Nat.add_0_r|].
  all: destruct (byte_eqb kind SIGNED_COMPRESSED_TX) eqn:E2;
    [apply bool_decide_eq_true in E2 as ->; specialize (Hc eq_refl);
     destruct (brotli_decompress body); [cbn; by rewrite Nat.add_0_r|done]|].
  all: rewrite app_nil_r; destruct (orb _ _); destruct out; unfold count_unsigned; cbn;
    rewrite ?Nat.add_0_r, ?Nat.add_1_r; done.
Qed.

(** The loop stops on its tail whatever fuel is left. *)
Lemma batch_loop_stops parse fuel tail out :
  stops tail -> batch_loop parse fuel tail out = Ok out.
Proof.
  intros Hs. destruct fuel as [|fuel]; [done|]. cbn [batch_loop].
  destruct (Nat.ltb_spec (length tail) 8); [done|].
  rewrite length_drop, orb_comm.
  destruct Hs as [Hs|[Hs|Hs]]; [lia| |].
  - rewrite (proj2 (Z.ltb_lt MAX_L2_MESSAGE_SIZE _) Hs). by rewrite orb_true_r.
  - rewrite (proj2 (Z.ltb_lt (Z.of_nat _) _)) by lia. done.
Qed.

Lemma frame_length (data : bytes) : length (frame data) = (8 + length data)%nat.
Proof. unfold frame. by rewrite length_app, be_encode_length. Qed.

(** One complete item is handed to the parser and the loop goes on behind it. *)
Lemma batch_loop_item parse fuel sub rest out :
  Z.of_nat (length sub) <= MAX_L2_MESSAGE_SIZE ->
  batch_loop parse (S fuel) (frame sub ++ rest) out =
  rbind (parse sub out) (batch_loop parse fuel rest).
Proof.
  intros Hs. cbn [batch_loop]. rewrite length_app, frame_length.
  rewrite (proj2 (Nat.ltb_ge _ 8)) by lia. unfold frame. rewrite <- app_assoc.
  rewrite slice_app_head by apply be_encode_length.
  rewrite be_decode_encode_small by (rewrite pow256_8; unfold MAX_L2_MESSAGE_SIZE in Hs; lia).
  rewrite drop_app_length' by (by rewrite be_encode_length). rewrite length_app.
  rewrite (proj2 (Z.ltb_ge MAX_L2_MESSAGE_SIZE _)), (proj2 (Z.ltb_ge _ _)) by lia.
  by rewrite Nat2Z.id, take_app_length, drop_app_length.
Qed.

Lemma encode_subs_length (subs : list L2Tree) :
  (length subs <= length (flat_map (fun s => frame (encode s)) subs))%nat.
Proof.
  induction subs as [|s subs IH]; [done|]. cbn [flat_map length].
  rewrite length_app, frame_length. lia.
Qed.

(** The outcome on a tree: all its leaves in order, unless it is nested too deeply. *)
Definition tree_result (levels : nat) (t : L2Tree) (out : ParsedL2)
    : result L2ParseError ParsedL2 :=
  if (depth t <=? levels)%nat then Ok (add_parsed out (parsed_of (leaves t)))
  else Err BatchTooDeep.

Definition subs_depth (subs : list L2Tree) : nat :=
  foldr (fun s d => Nat.max (depth s) d) 0%nat subs.

Lemma batch_loop_subs parse levels subs tail fuel out :
  Forall (fun s => Z.of_nat (length (encode s)) <= MAX_L2_MESSAGE_SIZE /\
                   forall out, parse (encode s) out = tree_result levels s out) subs ->
  stops tail -> (length subs <= fuel)%nat ->
  batch_loop parse fuel (flat_map (fun s => frame (encode s)) subs ++ tail) out =
  if (subs_depth subs <=? levels)%nat
  then Ok (add_parsed out (parsed_of (flat_map leaves subs))) else Err BatchTooDeep.
Proof.
  intros Hall Htail. revert fuel out. induction Hall as [|s subs [Hlen Hs] Hsubs IH];
    intros fuel out Hfuel.
  - cbn [flat_map app]. rewrite batch_loop_stops by done. cbn. by rewrite add_parsed_nil.
  - destruct fuel as [|fuel]; [cbn in Hfuel; lia|]. cbn [flat_map]. rewrite <- app_assoc.
    rewrite batch_loop_item, Hs by done. unfold tree_result.
    change (subs_depth (s :: subs)) with (Nat.max (depth s) (subs_depth subs)).
    destruct (Nat.leb_spec (depth s) levels) as [Hd|Hd]; cbn [rbind].
    + rewrite IH by (cbn in Hfuel; lia). rewrite <- add_parsed_assoc, <- parsed_of_app.
      destruct (Nat.leb_spec (subs_depth subs) levels);
        [rewrite (proj2 (Nat.leb_le _ _)) | rewrite (proj2 (Nat.leb_gt _ _))]; by (done || lia).
    + by rewrite (proj2 (Nat.leb_gt _ _)) by lia.
Qed.

(** Trees by induction on their nesting. *)
Lemma parse_tree (levels : nat) (t : L2Tree) (out : ParsedL2) :
  tree_ok t -> parse_into levels (encode t) out = tree_result levels t out.
Proof.
  revert t out. induction levels as [|levels IH]; intros t out [data Hd|subs tail Hsubs Htail].
  1,3: by apply parse_leaf.
  - done.
  - cbn [encode parse_into]. change (byte_eqb BATCH SIGNED_TX) with false.
    change (byte_eqb BATCH SIGNED_COMPRESSED_TX) with false.
    change (byte_eqb BATCH BATCH) with true. cbn iota.
    rewrite (batch_loop_subs _ levels); [done| |done|].
    + eapply List.Forall_impl; [|exact Hsubs]. intros s [Hs Hl]. split; [done|].
      intros o. by apply IH.
    + rewrite length_app. pose proof (encode_subs_length subs). lia.
Qed.

(** C38. Parsing the encoding of a message tree returns exactly the signed transactions of its
    leaves, left to right and decompressed, with the number of unsigned and contract leaves, and
    it fails with [BatchTooDeep] exactly when more than 16 batches are nested; the bytes that
    stop a batch early are ignored. *)
Theorem parse_l2_message_tree (t : L2Tree) :
  tree_ok t ->
  parse_l2_message (encode t) =
  if (depth t <=? MAX_BATCH_DEPTH)%nat then Ok (parsed_of (leaves t)) else Err BatchTooDeep.
Proof.
  intros Ht. unfold parse_l2_message. rewrite parse_tree by done. unfold tree_result.
  destruct (_ <=? _)%nat; [|done]. by destruct (parsed_of _).
Qed.

End Parse.

Definition sample_tree : L2Tree :=
  Batch [Leaf [x04; xaa; xbb]; Batch [Leaf [x00; x01]; Leaf []] [xff]; Leaf [x04; xcc]] [].

Lemma parse_l2_message_tree_witness :
  tree_ok (BR := Reference.brotli) sample_tree /\
  parse_l2_message (BR := Reference.brotli) (encode sample_tree) =
  Ok {| signed_txs := [[xaa; xbb]; [xcc]]; unsigned_count := 1 |}.
Proof.
  assert (Hok : tree_ok (BR := Reference.brotli) sample_tree).
  { repeat first
      [ apply leaf_tree_ok; split; [reflexivity|done]
      | apply batch_tree_ok
      | apply List.Forall_nil
      | apply List.Forall_cons; [split; [|vm_compute; discriminate]|]
      | left; cbn [length]; lia ]. }
  split; [exact Hok|].
  exact (parse_l2_message_tree (BR := Reference.brotli) sample_tree Hok).
Defined.

End L2Message.
