(* ===== verification/Multiplexer.v ===== *)
(** * The batch multiplexer

    [crates/arb-reth-derive/src/multiplexer.rs]: one pass over a batch's segments that keeps a
    running timestamp and L1 block, a delayed-message cursor and the messages emitted so far,
    followed by the force-inclusion of the delayed messages the segments left unread. The
    specification describes each message by its position: the sum of the deltas before it and the
    number of delayed segments before it. *)

From Stdlib Require Import Strings.Byte Strings.String.
From stdpp Require Import base list numbers option.
From S2P Require Import Prelude BTree External Messages Batch.

Module Multiplexer.

Definition MAX_L2_MESSAGE_SIZE : nat := Z.to_nat 262144.

Inductive MultiplexerError :=
| AdvanceDelta (what : string)
| Mux_Brotli
| OversizeL2Message
| DelayedMissing (index : Z)
| DelayedPastCount (read after : Z).

Definition clamp (v lo hi : Z) : Z := Z.min (Z.max v lo) hi.

Definition make_l2_message (header : BatchHeader) (l2_msg : bytes) (timestamp block delayed : Z)
    : DerivedMessage := {|
  d_header := {|
    h_kind := KIND_L2_MESSAGE;
    h_poster := BATCH_POSTER_ADDRESS;
    h_block_number := clamp block (min_l1_block header) (max_l1_block header);
    h_timestamp := clamp timestamp (min_timestamp header) (max_timestamp header);
    h_request_id := None;
    h_l1_base_fee := 0
  |};
  d_l2_msg := l2_msg;
  d_delayed_messages_read := delayed
|}.

(** The local variables of [extract_messages]. *)
Record MuxState := {
  timestamp : Z;
  block : Z;
  delayed_read : Z;
  out : list DerivedMessage
}.

Definition emit_l2 (header : BatchHeader) (l2 : bytes) (st : MuxState) : MuxState := {|
  timestamp := timestamp st;
  block := block st;
  delayed_read := delayed_read st;
  out := out st ++ [make_l2_message header l2 (timestamp st) (block st) (delayed_read st)]
|}.

Section Mux.
Context {RLP : Rlp} {BR : Brotli} {S : Type} {DS : DelayedSource S}.

Definition decode_u64 (data : bytes) : option Z := fst <$> rlp_u64_decode data.

(** Pull the message at the cursor and advance the cursor. *)
Definition pull_delayed (delayed : S) (st : MuxState) : result MultiplexerError MuxState :=
  let? dm := ok_or (DelayedMissing (delayed_read st)) (ds_message delayed (delayed_read st)) in
  let read := wrapping_add (delayed_read st) 1 in
  Ok {| timestamp := timestamp st; block := block st; delayed_read := read;
        out := out st ++ [to_derived dm read] |}.

(** One iteration of [for seg in segments]. *)
Definition segment_step (header : BatchHeader) (delayed : S) (st : MuxState) (seg : Segment)
    : result MultiplexerError MuxState :=
  if byte_eqb (seg_kind seg) ADVANCE_TIMESTAMP then
    let? d := ok_or (AdvanceDelta "timestamp") (decode_u64 (seg_data seg)) in
    Ok {| timestamp := wrapping_add (timestamp st) d; block := block st;
          delayed_read := delayed_read st; out := out st |}
  else if byte_eqb (seg_kind seg) ADVANCE_L1_BLOCK then
    let? d := ok_or (AdvanceDelta "l1block") (decode_u64 (seg_data seg)) in
    Ok {| timestamp := timestamp st; block := wrapping_add (block st) d;
          delayed_read := delayed_read st; out := out st |}
  else if byte_eqb (seg_kind seg) L2_MESSAGE then Ok (emit_l2 header (seg_data seg) st)
  else if byte_eqb (seg_kind seg) L2_MESSAGE_BROTLI then
    let? l2 := ok_or Mux_Brotli (brotli_decompress (seg_data seg)) in
    if (MAX_L2_MESSAGE_SIZE <? length l2)%nat then Err OversizeL2Message
    else Ok (emit_l2 header l2 st)
  else if byte_eqb (seg_kind seg) DELAYED_MESSAGES then
    if after_delayed_messages header <=? delayed_read st
    then Err (DelayedPastCount (delayed_read st) (after_delayed_messages header))
    else pull_delayed delayed st
  else Ok st.

(** [while delayed_read < header.after_delayed_messages]; the fuel is the number of iterations
    left, so it is exhausted exactly when the condition fails. *)
Fixpoint force_inclusion (fuel : nat) (header : BatchHeader) (delayed : S) (st : MuxState)
    : result MultiplexerError MuxState :=
  if delayed_read st <? after_delayed_messages header then
    match fuel with
    | O => Ok st
    | Datatypes.S fuel' => let? st' := pull_delayed delayed st in force_inclusion fuel' header delayed st'
    end
  else Ok st.

Definition mux_init (before_delayed_count : Z) : MuxState :=
  {| timestamp := 0; block := 0; delayed_read := before_delayed_count; out := [] |}.

Definition extract_messages (header : BatchHeader) (segments : list Segment)
    (before_delayed_count : Z) (delayed : S) : result MultiplexerError (list DerivedMessage) :=
  let? st := try_fold (segment_step header delayed) segments (mux_init before_delayed_count) in
  let? st := force_inclusion (Z.to_nat (after_delayed_messages header - delayed_read st))
               header delayed st in
  Ok (out st).

(** ** Positional specification *)

(** Every segment with the segments before it. *)
Definition positions (segs : list Segment) : list (list Segment * Segment) :=
  zip (map (fun i => take i segs) (seq 0 (length segs))) segs.

Definition delta (kind : u8) (seg : Segment) : Z :=
  if byte_eqb (seg_kind seg) kind then default 0 (decode_u64 (seg_data seg)) else 0.

(** The running value before a segment: the sum of the deltas of the prefix, modulo 2^64. *)
Definition running (kind : u8) (pre : list Segment) : Z :=
  wrap64 (foldr Z.add 0 (map (delta kind) pre)).

Definition delayed_segments (pre : list Segment) : Z :=
  Z.of_nat (length (List.filter (fun s => byte_eqb (seg_kind s) DELAYED_MESSAGES) pre)).

Section Spec.
Variables (header : BatchHeader) (before : Z) (delayed : S).

Definition l2_at (pre : list Segment) (l2 : bytes) : DerivedMessage :=
  make_l2_message header l2 (running ADVANCE_TIMESTAMP pre) (running ADVANCE_L1_BLOCK pre)
    (before + delayed_segments pre).

(** The delayed message with global index [c], numbered by the count read after it. *)
Definition delayed_at (c : Z) : list DerivedMessage :=
  match ds_message delayed c with
  | Some dm => [to_derived dm (c + 1)]
  | None => []
  end.

(** The messages of one segment. *)
Definition emitted (p : list Segment * Segment) : list DerivedMessage :=
  let '(pre, seg) := p in
  if byte_eqb (seg_kind seg) L2_MESSAGE then [l2_at pre (seg_data seg)]
  else if byte_eqb (seg_kind seg) L2_MESSAGE_BROTLI
  then match brotli_decompress (seg_data seg) with
       | Some l2 => [l2_at pre l2]
       | None => []
       end
  else if byte_eqb (seg_kind seg) DELAYED_MESSAGES
  then delayed_at (before + delayed_segments pre)
  else [].

Definition missing_at (c : Z) : option MultiplexerError :=
  match ds_message delayed c with
  | Some _ => None
  | None => Some (DelayedMissing c)
  end.

(** What is wrong with one segment, if anything. *)
Definition segment_error (p : list Segment * Segment) : option MultiplexerError :=
  let '(pre, seg) := p in
  let c := before + delayed_segments pre in
  if byte_eqb (seg_kind seg) ADVANCE_TIMESTAMP
  then match decode_u64 (seg_data seg) with
       | Some _ => None
       | None => Some (AdvanceDelta "timestamp")
       end
  else if byte_eqb (seg_kind seg) ADVANCE_L1_BLOCK
  then match decode_u64 (seg_data seg) with
       | Some _ => None
       | None => Some (AdvanceDelta "l1block")
       end
  else if byte_eqb (seg_kind seg) L2_MESSAGE_BROTLI
  then match brotli_decompress (seg_data seg) with
       | Some l2 => if (MAX_L2_MESSAGE_SIZE <? length l2)%nat then Some OversizeL2Message else None
       | None => Some Mux_Brotli
       end
  else if byte_eqb (seg_kind seg) DELAYED_MESSAGES
  then if after_delayed_messages header <=? c
       then Some (DelayedPastCount c (after_delayed_messages header))
       else missing_at c
  else None.

(** The indices force-inclusion has to read. *)
Definition forced (segs : list Segment) : list Z :=
  let c := before + delayed_segments segs in seqZ c (after_delayed_messages header - c).

(** The first fault in segment order, then in index order of the forced messages. *)
Definition spec_error (segs : list Segment) : option MultiplexerError :=
  head (omap segment_error (positions segs) ++ omap missing_at (forced segs)).

Definition spec_messages (segs : list Segment) : list DerivedMessage :=
  flat_map emitted (positions segs) ++ flat_map delayed_at (forced segs).


(** ** The loop computes the specification *)

Lemma positions_snoc (segs : list Segment) (seg : Segment) :
  positions (segs ++ [seg]) = positions segs ++ [(segs, seg)].
Proof.
  unfold positions. rewrite length_app, seq_app, map_app. cbn [length seq map].
  rewrite zip_with_app by (by rewrite length_map, length_seq). cbn [Nat.add zip_with].
  rewrite take_app_length. do 2 f_equal. apply map_ext_in. intros i [_ Hi]%in_seq.
  apply take_app_le. lia.
Qed.

Lemma running_snoc (kind : u8) (pre : list Segment) (seg : Segment) :
  running kind (pre ++ [seg]) = wrapping_add (running kind pre) (delta kind seg).
Proof.
  unfold running, wrapping_add, wrap64. rewrite map_app, foldr_app. cbn [map foldr].
  rewrite Z.add_0_r, Zplus_mod_idemp_l. f_equal. generalize (map (delta kind) pre).
  intros l. induction l as [|x l IH]; cbn [foldr]; lia.
Qed.

Lemma running_bound (kind : u8) (pre : list Segment) : is_u64 (running kind pre).
Proof. apply wrap64_bound. Qed.

Lemma delayed_segments_snoc (pre : list Segment) (seg : Segment) :
  delayed_segments (pre ++ [seg]) =
  delayed_segments pre + (if byte_eqb (seg_kind seg) DELAYED_MESSAGES then 1 else 0).
Proof.
  unfold delayed_segments. rewrite List.filter_app, length_app. cbn [List.filter].
  destruct (byte_eqb _ _); cbn [length]; lia.
Qed.

Lemma delayed_segments_nonneg (pre : list Segment) : 0 <= delayed_segments pre.
Proof. unfold delayed_segments. lia. Qed.

(** The state after a prefix without faults. *)
Definition spec_state (segs : list Segment) : MuxState := {|
  timestamp := running ADVANCE_TIMESTAMP segs;
  block := running ADVANCE_L1_BLOCK segs;
  delayed_read := before + delayed_segments segs;
  out := flat_map emitted (positions segs)
|}.

Hypothesis Hbefore : is_u64 before.
Hypothesis Hafter : is_u64 (after_delayed_messages header).

Lemma pull_delayed_at (st : MuxState) :
  is_u64 (delayed_read st) -> delayed_read st < after_delayed_messages header ->
  pull_delayed delayed st =
  match missing_at (delayed_read st) with
  | Some e => Err e
  | None => Ok {| timestamp := timestamp st; block := block st;
                  delayed_read := delayed_read st + 1;
                  out := out st ++ delayed_at (delayed_read st) |}
  end.
Proof.
  intros Hr Hlt. unfold pull_delayed, missing_at, delayed_at.
  destruct (ds_message _ _); [|done]. cbn [ok_or rbind].
  assert (Hw : wrapping_add (delayed_read st) 1 = delayed_read st + 1).
  { apply wrap64_small. unfold is_u64 in *. lia. }
  by rewrite Hw.
Qed.

Lemma running_still (kind : u8) (pre : list Segment) :
  wrapping_add (running kind pre) 0 = running kind pre.
Proof. unfold wrapping_add. rewrite Z.add_0_r. apply wrap64_small, running_bound. Qed.

(** A segment without a fault moves the state of its prefix to that of the longer prefix. *)
Lemma segment_step_spec (segs : list Segment) (seg : Segment) :
  segment_step header delayed (spec_state segs) seg =
  match segment_error (segs, seg) with
  | Some e => Err e
  | None => Ok (spec_state (segs ++ [seg]))
  end.
Proof.
  pose proof (delayed_segments_nonneg segs) as Hc0.
  unfold spec_state at 2.
  rewrite positions_snoc, flat_map_app, !running_snoc, delayed_segments_snoc.
  cbn [flat_map]. rewrite app_nil_r.
  unfold segment_step, segment_error, emitted, delta.
  destruct seg as [kind data]. cbn [seg_kind seg_data].
  destruct (decide (kind = ADVANCE_TIMESTAMP)) as [->|N1].
  { eval_kinds. destruct (decode_u64 data); [|done].
    cbn [ok_or rbind default]. by rewrite Z.add_0_r, app_nil_r, running_still. }
  destruct (decide (kind = ADVANCE_L1_BLOCK)) as [->|N2].
  { eval_kinds. destruct (decode_u64 data); [|done].
    cbn [ok_or rbind default]. by rewrite Z.add_0_r, app_nil_r, running_still. }
  destruct (decide (kind = L2_MESSAGE)) as [->|N3].
  { eval_kinds. unfold emit_l2. by rewrite Z.add_0_r, !running_still. }
  destruct (decide (kind = L2_MESSAGE_BROTLI)) as [->|N4].
  { eval_kinds. destruct (brotli_decompress data) as [l2|]; [|done]. cbn [ok_or rbind].
    destruct (_ <? _)%nat; [done|]. unfold emit_l2. by rewrite Z.add_0_r, !running_still. }
  destruct (decide (kind = DELAYED_MESSAGES)) as [->|N5].
  { eval_kinds. cbn [spec_state delayed_read].
    destruct (Z.leb_spec (after_delayed_messages header) (before + delayed_segments segs)); [done|].
    rewrite pull_delayed_at by (cbn [spec_state delayed_read]; unfold is_u64 in *; lia).
    cbn [spec_state delayed_read timestamp block out]. destruct (missing_at _); [done|].
    by rewrite !running_still, Z.add_assoc. }
  rewrite !byte_eqb_ne by done. by rewrite Z.add_0_r, app_nil_r, !running_still.
Qed.

Lemma segments_spec (segs : list Segment) :
  try_fold (segment_step header delayed) segs (mux_init before) =
  match head (omap segment_error (positions segs)) with
  | Some e => Err e
  | None => Ok (spec_state segs)
  end.
Proof.
  induction segs as [|seg segs IH] using rev_ind.
  - cbn [try_fold positions length seq map zip_with omap list_omap head].
    unfold mux_init, spec_state. rewrite Z.add_0_r by done. done.
  - rewrite try_fold_snoc, IH, positions_snoc, omap_app.
    destruct (omap segment_error (positions segs)) as [|e es]; cbn [head rbind app]; [|done].
    rewrite segment_step_spec. cbn [omap list_omap]. by destruct (segment_error (segs, seg)).
Qed.

(** Draining from any cursor reads every index below the count. *)
Lemma force_inclusion_spec (st : MuxState) :
  is_u64 (delayed_read st) ->
  let todo := seqZ (delayed_read st) (after_delayed_messages header - delayed_read st) in
  force_inclusion (Z.to_nat (after_delayed_messages header - delayed_read st)) header delayed st =
  match head (omap missing_at todo) with
  | Some e => Err e
  | None => Ok {| timestamp := timestamp st; block := block st;
                  delayed_read := Z.max (delayed_read st) (after_delayed_messages header);
                  out := out st ++ flat_map delayed_at todo |}
  end.
Proof.
  remember (Z.to_nat (after_delayed_messages header - delayed_read st)) as n eqn:Hn.
  revert st Hn. induction n as [|n IH]; intros st Hn Hr todo.
  - unfold todo. rewrite seqZ_nil by lia. cbn [force_inclusion omap list_omap head flat_map].
    rewrite (proj2 (Z.ltb_ge _ _)), Z.max_l, app_nil_r by lia. by destruct st.
  - unfold todo. rewrite seqZ_cons by lia. cbn [force_inclusion].
    rewrite (proj2 (Z.ltb_lt _ _)) by lia. rewrite pull_delayed_at by (done || lia).
    cbn [omap list_omap]. destruct (missing_at (delayed_read st)) as [e|] eqn:Hm; [done|].
    cbn [rbind]. rewrite IH; cbn [delayed_read timestamp block out];
      [|unfold is_u64 in *; lia..].
    replace (Z.pred (after_delayed_messages header - delayed_read st))
      with (after_delayed_messages header - (delayed_read st + 1)) by lia.
    replace (Z.succ (delayed_read st)) with (delayed_read st + 1) by lia.
    change (list_omap ?f ?l) with (omap f l).
    destruct (head (omap missing_at _)) as [e|]; [done|]. cbn [flat_map].
    rewrite <- app_assoc. do 2 f_equal. lia.
Qed.

Lemma spec_state_cursor (segs : list Segment) :
  head (omap segment_error (positions segs)) = None -> is_u64 (before + delayed_segments segs).
Proof.
  induction segs as [|seg segs IH] using rev_ind; [by rewrite Z.add_0_r|].
  rewrite positions_snoc, omap_app, delayed_segments_snoc.
  destruct (omap segment_error (positions segs)) as [|e es]; cbn [head app]; [|done].
  specialize (IH eq_refl). cbn [omap list_omap]. intros Hs.
  destruct (byte_eqb (seg_kind seg) DELAYED_MESSAGES) eqn:E; [|by rewrite Z.add_0_r].
  apply bool_decide_eq_true in E. unfold segment_error in Hs. rewrite E in Hs.
  revert Hs. eval_kinds. destruct (Z.leb_spec (after_delayed_messages header)
    (before + delayed_segments segs)); [done|]. unfold is_u64 in *. lia.
Qed.

End Spec.

(** C1. The multiplexer refines its positional specification, errors included: it returns the
    fault of the first faulty segment (or of the first forced message the source lacks), and
    otherwise one message per emitting segment in segment order. A sequencer message carries the sum
    modulo 2^64 of the deltas before it, clamped to the header's bounds, and the number of delayed
    messages read so far; after the segments come the forced delayed messages up to the header's
    count. *)
Theorem extract_messages_spec (header : BatchHeader) (segs : list Segment) (before : Z)
    (delayed : S) :
  is_u64 before -> is_u64 (after_delayed_messages header) ->
  extract_messages header segs before delayed =
  match spec_error header before delayed segs with
  | Some e => Err e
  | None => Ok (spec_messages header before delayed segs)
  end.
Proof.
  intros Hb Ha. unfold extract_messages, spec_error, spec_messages, forced.
  rewrite segments_spec by done. pose proof (spec_state_cursor header before delayed Hb Ha segs) as Hc.
  destruct (omap (segment_error _ _ _) (positions segs)) as [|e es]; cbn [head app rbind]; [|done].
  rewrite force_inclusion_spec by (first [exact Ha | exact (Hc eq_refl)]). cbn [spec_state delayed_read out].
  destruct (head (omap _ _)); done.
Qed.


(** ** The delayed messages of a batch *)

Definition is_delayed (m : DerivedMessage) : bool :=
  match h_request_id (d_header m) with Some _ => true | None => false end.

(** [m] is the delayed message of global index [c]. *)
Definition delayed_is (delayed : S) (c : Z) (m : DerivedMessage) : Prop :=
  exists dm, ds_message delayed c = Some dm /\ m = to_derived dm (c + 1).

Lemma delayed_at_is (delayed : S) (cs : list Z) :
  omap (missing_at delayed) cs = [] -> Forall2 (delayed_is delayed) cs (flat_map (delayed_at delayed) cs).
Proof.
  induction cs as [|c cs IH]; [constructor|]. cbn [omap list_omap flat_map].
  unfold missing_at at 1, delayed_at at 1.
  destruct (ds_message delayed c) as [dm|] eqn:E; [|done].
  intros H. cbn [app]. constructor; [by exists dm|by apply IH].
Qed.

Lemma filter_delayed_at (delayed : S) (cs : list Z) :
  List.filter is_delayed (flat_map (delayed_at delayed) cs) = flat_map (delayed_at delayed) cs.
Proof.
  induction cs as [|c cs IH]; [done|]. cbn [flat_map]. rewrite List.filter_app, IH.
  f_equal. unfold delayed_at. by destruct (ds_message delayed c).
Qed.

(** Without faults, the segments emit the delayed messages from the starting cursor on. *)
Lemma segments_delayed (header : BatchHeader) (before : Z) (delayed : S) (segs : list Segment) :
  omap (segment_error header before delayed) (positions segs) = [] ->
  let cs := seqZ before (delayed_segments segs) in
  omap (missing_at delayed) cs = [] /\
  List.filter is_delayed (flat_map (emitted header before delayed) (positions segs)) =
  flat_map (delayed_at delayed) cs.
Proof.
  induction segs as [|seg segs IH] using rev_ind; [done|].
  rewrite positions_snoc, omap_app, flat_map_app, List.filter_app, delayed_segments_snoc.
  intros [H1 H2]%app_eq_nil. destruct (IH H1) as [IHm IHf]. rewrite IHf. clear IH IHf.
  pose proof (delayed_segments_nonneg segs). revert H2. cbn [omap list_omap flat_map].
  rewrite app_nil_r. unfold segment_error, emitted. destruct seg as [kind data].
  cbn [seg_kind seg_data]. destruct (decide (kind = DELAYED_MESSAGES)) as [->|Hk].
  - eval_kinds. destruct (_ <=? _); [done|]. rewrite seqZ_app by lia.
    rewrite omap_app, flat_map_app, IHm. rewrite (seqZ_cons _ 1), (seqZ_nil _ (Z.pred 1)) by lia.
    intros Hm. split.
    + cbn [omap list_omap app]. by destruct (missing_at delayed _).
    + f_equal. cbn [flat_map]. rewrite app_nil_r. unfold delayed_at.
      by destruct (ds_message _ _).
  - intros _. rewrite (byte_eqb_ne kind DELAYED_MESSAGES Hk), Z.add_0_r. split; [done|].
    destruct (byte_eqb kind L2_MESSAGE); [cbn; apply app_nil_r|].
    destruct (byte_eqb kind L2_MESSAGE_BROTLI); [|cbn; apply app_nil_r].
    destruct (brotli_decompress data); cbn; apply app_nil_r.
Qed.

Lemma segments_past_count (header : BatchHeader) (before : Z) (delayed : S) (segs : list Segment) :
  omap (segment_error header before delayed) (positions segs) = [] ->
  before <= after_delayed_messages header ->
  before + delayed_segments segs <= after_delayed_messages header.
Proof.
  intros Hs Hle. induction segs as [|seg segs IH] using rev_ind; [by rewrite Z.add_0_r|].
  rewrite positions_snoc, omap_app in Hs. apply app_eq_nil in Hs as [H1 H2].
  specialize (IH H1). rewrite delayed_segments_snoc.
  destruct (byte_eqb (seg_kind seg) DELAYED_MESSAGES) eqn:E; [|lia].
  apply bool_decide_eq_true in E. revert H2. cbn [omap list_omap]. unfold segment_error.
  rewrite E. eval_kinds. destruct (Z.leb_spec (after_delayed_messages header)
    (before + delayed_segments segs)); [done|lia].
Qed.

Lemma delayed_exact (header : BatchHeader) (segs : list Segment) (before : Z)
    (delayed : S) (msgs : list DerivedMessage) :
  is_u64 before -> is_u64 (after_delayed_messages header) ->
  before <= after_delayed_messages header ->
  extract_messages header segs before delayed = Ok msgs ->
  Forall2 (delayed_is delayed)
    (seqZ before (after_delayed_messages header - before)) (List.filter is_delayed msgs).
Proof.
  intros Hb Ha Hle. unfold extract_messages. rewrite segments_spec by done.
  pose proof (spec_state_cursor header before delayed Hb Ha segs) as Hc.
  destruct (omap (segment_error _ _ _) (positions segs)) as [|e es] eqn:Hs; cbn [head rbind]; [|done].
  destruct (segments_delayed _ _ _ _ Hs) as [Hm Hf].
  pose proof (segments_past_count _ _ _ _ Hs Hle). pose proof (delayed_segments_nonneg segs).
  rewrite force_inclusion_spec by (first [exact Ha | exact (Hc eq_refl)]).
  cbn [spec_state delayed_read out]. set (c := before + delayed_segments segs) in *.
  destruct (omap (missing_at delayed) (seqZ c _)) as [|e es] eqn:Hm2; cbn [head rbind]; [|done].
  intros [= <-]. rewrite List.filter_app, Hf, filter_delayed_at, <- flat_map_app.
  replace (after_delayed_messages header - before)
    with (delayed_segments segs + (after_delayed_messages header - c)) by lia.
  rewrite seqZ_app by lia. apply delayed_at_is. fold c. by rewrite omap_app, Hm, Hm2.
Qed.

(** A decoded batch contains every delayed message from the batch's starting cursor up to the
    header's [after_delayed_messages], each exactly once and in index order, whether a segment
    asked for it or force-inclusion added it, and no other delayed message. *)
Theorem extract_messages_delayed_exact (header : BatchHeader) (segs : list Segment) (before : Z)
    (delayed : S) (msgs : list DerivedMessage) :
  is_u64 before -> is_u64 (after_delayed_messages header) ->
  before <= after_delayed_messages header ->
  extract_messages header segs before delayed = Ok msgs ->
  Forall2 (delayed_is delayed)
    (seqZ before (after_delayed_messages header - before)) (List.filter is_delayed msgs).
Proof.
  apply delayed_exact.
Qed.

(** ** Emitted fields *)

Definition delayed_count (l : list DerivedMessage) : Z :=
  Z.of_nat (length (List.filter is_delayed l)).

Lemma delayed_count_snoc (l : list DerivedMessage) (m : DerivedMessage) :
  delayed_count (l ++ [m]) = delayed_count l + (if is_delayed m then 1 else 0).
Proof.
  unfold delayed_count. rewrite List.filter_app, length_app. cbn [List.filter].
  destruct (is_delayed m); cbn [length]; lia.
Qed.

(** Every message records how many delayed messages have been read once it is emitted, and
    sequencer messages stay inside the header's bounds. *)
Definition message_ok (header : BatchHeader) (before : Z) (l : list DerivedMessage)
    (m : DerivedMessage) : Prop :=
  d_delayed_messages_read m = before + delayed_count (l ++ [m]) /\
  (is_delayed m = false ->
   min_timestamp header <= h_timestamp (d_header m) <= max_timestamp header /\
   min_l1_block header <= h_block_number (d_header m) <= max_l1_block header).

Definition messages_ok (header : BatchHeader) (before : Z) (msgs : list DerivedMessage) : Prop :=
  forall l m k, msgs = l ++ m :: k -> message_ok header before l m.

Lemma messages_ok_snoc header before msgs m :
  messages_ok header before msgs -> message_ok header before msgs m ->
  messages_ok header before (msgs ++ [m]).
Proof.
  intros Hall Hm l m' k Heq. destruct k as [|x k _] using rev_ind.
  - by apply app_inj_2 in Heq as [-> [= ->]].
  - rewrite app_comm_cons, app_assoc in Heq. apply app_inj_2 in Heq as [Heq _]; [|done].
    by apply (Hall _ _ k).
Qed.

Definition mux_inv (header : BatchHeader) (before : Z) (st : MuxState) : Prop :=
  messages_ok header before (out st) /\ delayed_read st = before + delayed_count (out st) /\
  is_u64 (delayed_read st).

Section Invariant.
Variables (header : BatchHeader) (before : Z) (delayed : S).
Hypothesis Hafter : is_u64 (after_delayed_messages header).
Hypothesis Hts : min_timestamp header <= max_timestamp header.
Hypothesis Hbl : min_l1_block header <= max_l1_block header.

Lemma emit_l2_inv (l2 : bytes) (st : MuxState) :
  mux_inv header before st -> mux_inv header before (emit_l2 header l2 st).
Proof.
  intros (Hm & Hr & Hu). unfold mux_inv, emit_l2. cbn [out delayed_read].
  rewrite delayed_count_snoc. cbn [is_delayed make_l2_message d_header h_request_id].
  rewrite Z.add_0_r. split; [|done]. apply messages_ok_snoc; [done|]. split.
  - rewrite delayed_count_snoc. cbn. lia.
  - intros _. cbn. unfold clamp. lia.
Qed.

Lemma pull_delayed_inv (st st' : MuxState) :
  delayed_read st < after_delayed_messages header ->
  mux_inv header before st -> pull_delayed delayed st = Ok st' -> mux_inv header before st'.
Proof.
  intros Hlt (Hm & Hr & Hu). rewrite (pull_delayed_at header) by done.
  unfold missing_at, delayed_at. destruct (ds_message _ _) as [dm|]; [|done].
  intros [= <-]. unfold mux_inv. cbn [out delayed_read]. rewrite delayed_count_snoc.
  cbn [is_delayed to_derived d_header h_request_id]. split; [|unfold is_u64 in *; lia].
  apply messages_ok_snoc; [done|]. split; [|done].
  rewrite delayed_count_snoc. cbn [is_delayed to_derived d_header h_request_id d_delayed_messages_read].
  lia.
Qed.

Lemma segment_step_inv (st : MuxState) (seg : Segment) (st' : MuxState) :
  mux_inv header before st -> segment_step header delayed st seg = Ok st' ->
  mux_inv header before st'.
Proof.
  intros Hi H. unfold segment_step in H. if_inv H; ok_inv; try if_inv H; ok_inv; subst;
    try (by apply emit_l2_inv); try done.
  eapply pull_delayed_inv; [|done..]. by apply Z.leb_gt.
Qed.

Lemma force_inclusion_inv (fuel : nat) (st st' : MuxState) :
  mux_inv header before st -> force_inclusion fuel header delayed st = Ok st' ->
  mux_inv header before st'.
Proof.
  revert st. induction fuel as [|fuel IH]; intros st Hi; cbn [force_inclusion];
    destruct (Z.ltb_spec (delayed_read st) (after_delayed_messages header)); try by intros [= <-].
  rewrite rbind_Ok. intros (st1 & H1 & H2). eauto using pull_delayed_inv.
Qed.

End Invariant.

(** Each message of a decoded batch carries as its delayed count the batch's starting cursor plus
    the number of delayed messages up to and including it, and each sequencer message has its
    timestamp and L1 block within the header's [min, max] bounds. *)
Theorem extract_messages_fields (header : BatchHeader) (segs : list Segment) (before : Z)
    (delayed : S) (msgs : list DerivedMessage) :
  is_u64 before -> is_u64 (after_delayed_messages header) ->
  min_timestamp header <= max_timestamp header -> min_l1_block header <= max_l1_block header ->
  extract_messages header segs before delayed = Ok msgs ->
  messages_ok header before msgs.
Proof.
  intros Hb Ha Ht Hl H. unfold extract_messages in H. ok_inv. subst msgs.
  enough (mux_inv header before v0) as Hi by apply Hi.
  eapply force_inclusion_inv; [done..| |exact E0].
  eapply try_fold_inv; [|split; [|split]|exact E].
  - intros s a s' _. by eapply segment_step_inv.
  - intros l m k Hn. by destruct l.
  - by rewrite Z.add_0_r.
  - done.
Qed.

End Mux.

(** ** A concrete batch: an advance, a sequencer message, one explicit and one forced delayed
    message *)

Definition sample_header : BatchHeader := {|
  min_timestamp := 10; max_timestamp := 20; min_l1_block := 5; max_l1_block := 9;
  after_delayed_messages := 2
|}.

Definition sample_delayed (i : Z) : DelayedMessage := {|
  dm_kind := x0c; dm_sender := 7; dm_block_number := 6; dm_timestamp := 12;
  dm_inbox_seq_num := i; dm_base_fee_l1 := 0; dm_data := [xab]; dm_before_inbox_acc := 0
|}.

Definition sample_source : DelayedMap := from_messages [sample_delayed 0; sample_delayed 1].

Definition sample_segments : list Segment :=
  [ {| seg_kind := ADVANCE_TIMESTAMP; seg_data := [x0f] |};
    {| seg_kind := L2_MESSAGE; seg_data := [x04; xff] |};
    {| seg_kind := DELAYED_MESSAGES; seg_data := [] |} ].

Definition sample_extract : result MultiplexerError (list DerivedMessage) :=
  extract_messages (RLP := Reference.rlp) (BR := Reference.brotli) sample_header sample_segments 0
    sample_source.

Definition sample_messages : list DerivedMessage :=
  match sample_extract with Ok msgs => msgs | Err _ => [] end.

Lemma sample_extract_ok : sample_extract = Ok sample_messages.
Proof. vm_compute. reflexivity. Qed.

Lemma small_u64 (z : Z) : (0 <=? z) && (z <=? U64_MAX) = true -> is_u64 z.
Proof. unfold is_u64, U64_MAX. lia. Qed.

Lemma extract_messages_spec_witness :
  extract_messages (RLP := Reference.rlp) (BR := Reference.brotli) sample_header sample_segments 0
    sample_source =
  Ok (spec_messages (RLP := Reference.rlp) (BR := Reference.brotli) sample_header 0 sample_source
        sample_segments) /\
  map d_delayed_messages_read sample_messages = [0; 1; 2].
Proof.
  split; [|vm_compute; reflexivity].
  transitivity (match spec_error (RLP := Reference.rlp) (BR := Reference.brotli) sample_header 0
                        sample_source sample_segments with
                | Some e => Err e
                | None => Ok (spec_messages (RLP := Reference.rlp) (BR := Reference.brotli)
                                sample_header 0 sample_source sample_segments)
                end); [|vm_compute; reflexivity].
  apply (extract_messages_spec (RLP := Reference.rlp) (BR := Reference.brotli) sample_header
           sample_segments 0 sample_source); by apply small_u64.
Defined.

Lemma extract_messages_delayed_exact_witness :
  Forall2 (delayed_is sample_source) [0; 1] (List.filter is_delayed sample_messages).
Proof.
  apply (extract_messages_delayed_exact (RLP := Reference.rlp) (BR := Reference.brotli)
           sample_header sample_segments 0 sample_source sample_messages).
  - by apply small_u64.
  - by apply small_u64.
  - cbn. lia.
  - exact sample_extract_ok.
Defined.

Lemma extract_messages_fields_witness :
  messages_ok sample_header 0 sample_messages /\ length sample_messages = 3%nat.
Proof.
  split; [|vm_compute; reflexivity].
  apply (extract_messages_fields (RLP := Reference.rlp) (BR := Reference.brotli)
           sample_header sample_segments 0 sample_source sample_messages).
  - by apply small_u64.
  - by apply small_u64.
  - cbn. lia.
  - cbn. lia.
  - exact sample_extract_ok.
Defined.

End Multiplexer.
