(* ===== verification/L1Decode.v ===== *)
(** * Decoding and assembling delivered batches

    [crates/arb-reth-l1/src]: the error type and pure decode glue of [lib.rs], the batch data types
    of [reader.rs], [batch_serialize.rs], [feed.rs] and [assemble.rs]. The feed types of
    [arbitrum_alloy_sequencer] are records with the fields the code fills; text is kept as text
    ([{:#x}] of an address or word, the JSON values, the base64 body). *)

From Stdlib Require Import Strings.Byte Strings.String.
From stdpp Require Import base list numbers option strings.
From S2P Require Import Prelude BTree External Messages Batch Multiplexer.
Import Multiplexer.

(** ** lib.rs *)

Inductive L1Error :=
| L1_CalldataTooShort (n : nat)
| L1_UnknownSelector (selector : bytes)
| L1_Abi
| L1_Batch (e : BatchError)
| L1_Mux (e : MultiplexerError)
| L1_Blob (e : string)
| L1_UnsupportedDataLocation (d : u8)
| L1_Missing (what : string)
| L1_Rpc (e : string).

(** ** The types of reader.rs *)

Inductive BatchPayload :=
| Calldata (data : bytes)
| BlobPayload (versioned_hashes : list Z) (block_number : Z)
| NoPayload.

Record DeliveredBatch := {
  db_sequence_number : Z;
  db_before_acc : Z;
  db_after_acc : Z;
  db_event : SequencerBatchDeliveredData;
  db_payload : BatchPayload
}.

Definition bytes_eqb (a b : bytes) : bool := bool_decide (a = b).

Section Decode.
Context {KC : Keccak} {RLP : Rlp} {BR : Brotli} {ABI : SolAbi} {B64 : Base64}.

Definition extract_calldata_payload (input : bytes) : result L1Error bytes :=
  if (length input <? 4)%nat then Err (L1_CalldataTooShort (length input))
  else
    let selector := slice 0 4 input in
    if bytes_eqb selector origin_selector then ok_or L1_Abi (origin_data input)
    else if bytes_eqb selector origin_legacy_selector then ok_or L1_Abi (origin_legacy_data input)
    else if bytes_eqb selector origin_delay_proof_selector
    then ok_or L1_Abi (origin_delay_proof_data input)
    else Err (L1_UnknownSelector selector).

(** The segments of a payload: none when it is empty. *)
Definition payload_segments (payload : bytes) : result L1Error (list Segment) :=
  match payload with
  | [] => Ok []
  | _ :: _ =>
      let? seg_bytes := map_err L1_Batch (decompress_payload payload) in
      map_err L1_Batch (parse_segments seg_bytes)
  end.

Definition decode_payload_messages {S : Type} {DS : DelayedSource S} (header : BatchHeader)
    (payload : bytes) (before_delayed_count : Z) (delayed : S)
    : result L1Error (list DerivedMessage) :=
  let? segments := payload_segments payload in
  map_err L1_Mux (extract_messages header segments before_delayed_count delayed).

Definition decode_batch_messages {S : Type} {DS : DelayedSource S} (batch : DeliveredBatch)
    (before_delayed_count : Z) (delayed : S) : result L1Error (list DerivedMessage) :=
  match db_payload batch with
  | Calldata p => decode_payload_messages (batch_header (db_event batch)) p before_delayed_count delayed
  | NoPayload => Ok []
  | BlobPayload _ _ => Err (L1_UnsupportedDataLocation BLOB_HASHES)
  end.

(** ** batch_serialize.rs *)

Definition payload_bytes (p : BatchPayload) : bytes :=
  match p with
  | Calldata d => d
  | BlobPayload versioned_hashes _ =>
      flag_BLOB_HASHES :: flat_map (be_encode 32) versioned_hashes
  | NoPayload => []
  end.

Definition serialize_batch (batch : DeliveredBatch) : bytes :=
  let h := batch_header (db_event batch) in
  flat_map (be_encode 8)
    [min_timestamp h; max_timestamp h; min_l1_block h; max_l1_block h; after_delayed_messages h]
  ++ payload_bytes (db_payload batch).

Definition batch_data_hash (batch : DeliveredBatch) : Z := keccak256 (serialize_batch batch).

Record BatchDataStats := { stats_length : Z; stats_non_zeros : Z }.

Definition batch_data_stats (serialized : bytes) : BatchDataStats := {|
  stats_length := wrap64 (Z.of_nat (length serialized));
  stats_non_zeros :=
    wrap64 (Z.of_nat (length (List.filter (fun b => negb (byte_eqb b x00)) serialized)))
|}.

Definition report_data_hash (body : bytes) : option Z := be_decode <$> get_range 52 84 body.

Definition report_batch_num (body : bytes) : option Z :=
  w ← get_range 84 116 body; Some (be_decode (slice 24 8 w)).

(** ** feed.rs *)

Definition hex_digit (n : Z) : Ascii.ascii :=
  Ascii.ascii_of_N (Z.to_N (if n <? 10 then 48 + n else 87 + n)).

Fixpoint hex (bs : bytes) : string :=
  match bs with
  | [] => EmptyString
  | b :: bs' => String (hex_digit (b2z b / 16)) (String (hex_digit (b2z b mod 16)) (hex bs'))
  end.

(** [{:#x}] of an [n]-byte word: every digit is printed. *)
Definition hex_word (n : nat) (z : Z) : string := "0x" +:+ hex (be_encode n z).

Inductive Value :=
| JNull
| JNumber (n : Z)
| JString (s : string).

Record FeedHeader := {
  fh_kind : u8;
  fh_sender : string;
  fh_block_number : Z;
  fh_timestamp : Z;
  fh_request_id : Value;
  fh_base_fee_l1 : Value
}.

Record FeedL1Message := {
  fl_header : FeedHeader;
  fl_l2msg : string;
  fl_legacy_batch_gas_cost : option Z;
  fl_batch_data_stats : option BatchDataStats
}.

Record BroadcastFeedMessage := {
  fm_sequence_number : Z;
  fm_l1_incoming_message : FeedL1Message;
  fm_delayed_messages_read : Z
}.

Definition derived_to_feed_message_with_stats (derived : DerivedMessage) (sequence_number : Z)
    (stats : option BatchDataStats) : BroadcastFeedMessage :=
  let h := d_header derived in
  {| fm_sequence_number := sequence_number;
     fm_l1_incoming_message := {|
       fl_header := {|
         fh_kind := h_kind h;
         fh_sender := hex_word 20 (h_poster h);
         fh_block_number := h_block_number h;
         fh_timestamp := h_timestamp h;
         fh_request_id :=
           match h_request_id h with
           | Some id => JString (hex_word 32 id)
           | None => JNull
           end;
         fh_base_fee_l1 :=
           JNumber (if h_l1_base_fee h <=? U64_MAX then h_l1_base_fee h else 0)
       |};
       fl_l2msg := base64_encode (d_l2_msg derived);
       fl_legacy_batch_gas_cost := None;
       fl_batch_data_stats := stats
     |};
     fm_delayed_messages_read := d_delayed_messages_read derived |}.

Definition derived_to_feed_message (derived : DerivedMessage) (sequence_number : Z)
    : BroadcastFeedMessage :=
  derived_to_feed_message_with_stats derived sequence_number None.

(** ** assemble.rs *)

Definition KIND_BATCH_POSTING_REPORT : u8 := x0d.

(** [BTreeMap<B256, BatchDataStats>] *)
Abbreviation StatsMap := (list (Z * BatchDataStats)).

Definition derived_to_feed (m : DerivedMessage) (seq : Z) (report_stats : StatsMap)
    : result L1Error BroadcastFeedMessage :=
  if byte_eqb (h_kind (d_header m)) KIND_BATCH_POSTING_REPORT then
    let? dh := ok_or (L1_Missing "batch posting report data_hash") (report_data_hash (d_l2_msg m)) in
    let? stats := ok_or (L1_Missing "batch posting report stats (batch not seen)")
                    (bt_get dh report_stats) in
    Ok (derived_to_feed_message_with_stats m seq (Some stats))
  else Ok (derived_to_feed_message m seq).

(** [for (i, m) in msgs.iter().enumerate()], numbering from [seq_start]. *)
Fixpoint feed_loop (msgs : list DerivedMessage) (seq : Z) (report_stats : StatsMap)
    : result L1Error (list BroadcastFeedMessage) :=
  match msgs with
  | [] => Ok []
  | m :: msgs' =>
      let? f := derived_to_feed m (wrap64 seq) report_stats in
      let? fs := feed_loop msgs' (seq + 1) report_stats in
      Ok (f :: fs)
  end.

Section Assemble.
Context {S : Type} {DS : DelayedSource S}.

Definition batch_to_feed_messages (batch : DeliveredBatch) (payload : bytes)
    (before_delayed_count : Z) (delayed : S) (report_stats : StatsMap) (seq_start : Z)
    : result L1Error (list BroadcastFeedMessage) :=
  let header := batch_header (db_event batch) in
  let? msgs := decode_payload_messages header payload before_delayed_count delayed in
  feed_loop msgs seq_start report_stats.

(** The locals of [assemble_feed_messages_with_seed]. *)
Record AssembleState := {
  as_report_stats : StatsMap;
  as_before : Z;
  as_seq : Z;
  as_out : list BroadcastFeedMessage
}.

Definition assemble_step (delayed : S) (st : AssembleState) (bp : DeliveredBatch * bytes)
    : result L1Error AssembleState :=
  let '(batch, payload) := bp in
  let report_stats := bt_insert (batch_data_hash batch) (batch_data_stats (serialize_batch batch))
                        (as_report_stats st) in
  let after := ev_after_delayed_messages_read (db_event batch) in
  let? msgs := batch_to_feed_messages batch payload (as_before st) delayed report_stats (as_seq st) in
  Ok {| as_report_stats := report_stats;
        as_before := after;
        as_seq := wrapping_add (as_seq st) (wrap64 (Z.of_nat (length msgs)));
        as_out := as_out st ++ msgs |}.

Definition assemble_init (start_delayed_count : Z) (seed_stats : StatsMap) : AssembleState :=
  {| as_report_stats := seed_stats; as_before := start_delayed_count; as_seq := 0; as_out := [] |}.

Definition assemble_feed_messages_with_seed (resolved : list (DeliveredBatch * bytes)) (delayed : S)
    (start_delayed_count : Z) (seed_stats : StatsMap) : result L1Error (list BroadcastFeedMessage) :=
  let? st := try_fold (assemble_step delayed) resolved
               (assemble_init start_delayed_count seed_stats) in
  Ok (as_out st).

Definition assemble_feed_messages (resolved : list (DeliveredBatch * bytes)) (delayed : S)
    (start_delayed_count : Z) : result L1Error (list BroadcastFeedMessage) :=
  assemble_feed_messages_with_seed resolved delayed start_delayed_count bt_empty.


(** ** Assembling: numbering, delayed cursor and report stats *)

Lemma derived_to_feed_shape (m : DerivedMessage) (seq : Z) (stats : StatsMap)
    (f : BroadcastFeedMessage) :
  derived_to_feed m seq stats = Ok f ->
  exists st, f = derived_to_feed_message_with_stats m seq st /\
    if byte_eqb (h_kind (d_header m)) KIND_BATCH_POSTING_REPORT
    then exists dh s, report_data_hash (d_l2_msg m) = Some dh /\ bt_get dh stats = Some s /\ st = Some s
    else st = None.
Proof.
  unfold derived_to_feed. destruct (byte_eqb _ _).
  - intros H. ok_inv. subst. eexists. split; [done|]. eauto.
  - intros [= <-]. by exists None.
Qed.

Lemma feed_loop_spec (msgs : list DerivedMessage) (seq : Z) (stats : StatsMap)
    (fs : list BroadcastFeedMessage) :
  feed_loop msgs seq stats = Ok fs ->
  Forall2 (fun m f => exists s, derived_to_feed m s stats = Ok f) msgs fs /\
  map fm_sequence_number fs = map wrap64 (seqZ seq (Z.of_nat (length fs))).
Proof.
  revert seq fs. induction msgs as [|m msgs IH]; intros seq fs; cbn [feed_loop].
  - intros [= <-]. split; [constructor|done].
  - intros H. ok_inv. subst fs. apply IH in E0 as [IHf IHs].
    split; [constructor; [by eexists|done]|]. cbn [map length].
    rewrite seqZ_cons by lia. cbn [map]. f_equal.
    + apply derived_to_feed_shape in E as (st & -> & _). done.
    + rewrite IHs. do 2 f_equal; lia.
Qed.

Lemma map_wrap64_seqZ (a n : Z) :
  0 <= a -> 0 <= n -> a + n <= 2 ^ 64 -> map wrap64 (seqZ a n) = seqZ a n.
Proof.
  intros Ha Hn Hm. rewrite <- (map_id (seqZ a n)) at 2. apply map_ext_in.
  intros x Hx%list_elem_of_In%elem_of_seqZ. apply wrap64_small. unfold is_u64. lia.
Qed.

(** Messages are numbered by their position once the total fits a [u64]. *)
Definition numbered (st : AssembleState) : Prop :=
  Z.of_nat (length (as_out st)) < 2 ^ 64 ->
  as_seq st = Z.of_nat (length (as_out st)) /\
  map fm_sequence_number (as_out st) = seqZ 0 (Z.of_nat (length (as_out st))).

Lemma assemble_step_inv (delayed : S) (st st' : AssembleState) (batch : DeliveredBatch)
    (payload : bytes) :
  assemble_step delayed st (batch, payload) = Ok st' ->
  exists msgs fs,
    decode_payload_messages (batch_header (db_event batch)) payload (as_before st) delayed = Ok msgs /\
    feed_loop msgs (as_seq st) (as_report_stats st') = Ok fs /\
    as_report_stats st' = bt_insert (batch_data_hash batch)
      (batch_data_stats (serialize_batch batch)) (as_report_stats st) /\
    as_before st' = ev_after_delayed_messages_read (db_event batch) /\
    as_seq st' = wrapping_add (as_seq st) (wrap64 (Z.of_nat (length fs))) /\
    as_out st' = as_out st ++ fs.
Proof.
  unfold assemble_step, batch_to_feed_messages. intros H. ok_inv. subst st'. cbn.
  by exists v0, v.
Qed.

Lemma assemble_step_numbered (delayed : S) (st : AssembleState) (bp : DeliveredBatch * bytes)
    (st' : AssembleState) :
  numbered st -> assemble_step delayed st bp = Ok st' -> numbered st'.
Proof.
  destruct bp as [batch payload]. intros Hn (msgs & fs & _ & Hf & _ & _ & Hs & Ho)%assemble_step_inv.
  unfold numbered in *. rewrite Ho, length_app. intros Hlt.
  destruct Hn as [Hseq Hmap]; [lia|]. apply feed_loop_spec in Hf as [_ Hf].
  rewrite Hs, Hseq. unfold wrapping_add. rewrite (wrap64_small (Z.of_nat (length fs))), wrap64_small
    by (unfold is_u64; lia).
  split; [lia|]. rewrite map_app, Hmap, Hf, Hseq, map_wrap64_seqZ by lia.
  by rewrite Nat2Z.inj_add, seqZ_app by lia.
Qed.

(** The messages assembled from a run of batches are numbered 0, 1, 2, ... without gap or
    repetition, across batch boundaries. *)
Theorem assemble_numbering (resolved : list (DeliveredBatch * bytes)) (delayed : S) (start : Z)
    (seed : StatsMap) (out : list BroadcastFeedMessage) :
  assemble_feed_messages_with_seed resolved delayed start seed = Ok out ->
  Z.of_nat (length out) < 2 ^ 64 ->
  map fm_sequence_number out = seqZ 0 (Z.of_nat (length out)).
Proof.
  unfold assemble_feed_messages_with_seed. intros H Hlen. ok_inv. subst out.
  assert (Hn : numbered v).
  { refine (try_fold_inv numbered _ _ _ _ _ _ E).
    - intros s a s' _. apply assemble_step_numbered.
    - intros _. by split. }
  by apply Hn.
Qed.

(** *** Delayed messages across batches *)

Definition feed_is_delayed (f : BroadcastFeedMessage) : bool :=
  match fh_request_id (fl_header (fm_l1_incoming_message f)) with
  | JString _ => true
  | _ => false
  end.

(** [f] carries the delayed message of global index [c]. *)
Definition feed_of_delayed (delayed : S) (c : Z) (f : BroadcastFeedMessage) : Prop :=
  exists dm seq stats, ds_message delayed c = Some dm /\
    f = derived_to_feed_message_with_stats (to_derived dm (c + 1)) seq stats.

(** Each batch continues from where the previous one stopped reading. *)
Fixpoint cursors_ascend (before : Z) (resolved : list (DeliveredBatch * bytes)) : Prop :=
  match resolved with
  | [] => True
  | (batch, _) :: resolved' =>
      let after := ev_after_delayed_messages_read (db_event batch) in
      before <= after /\ is_u64 after /\ cursors_ascend after resolved'
  end.

Definition last_cursor (before : Z) (resolved : list (DeliveredBatch * bytes)) : Z :=
  fold_left (fun _ bp => ev_after_delayed_messages_read (db_event bp.1)) resolved before.

Lemma feed_delayed_exact (delayed : S) (before : Z) (header : BatchHeader) (payload : bytes)
    (msgs : list DerivedMessage) (seq : Z) (stats : StatsMap) (fs : list BroadcastFeedMessage) :
  is_u64 before -> is_u64 (after_delayed_messages header) ->
  before <= after_delayed_messages header ->
  decode_payload_messages header payload before delayed = Ok msgs ->
  feed_loop msgs seq stats = Ok fs ->
  Forall2 (feed_of_delayed delayed) (seqZ before (after_delayed_messages header - before))
    (List.filter feed_is_delayed fs).
Proof.
  intros Hb Ha Hle Hd Hf. unfold decode_payload_messages in Hd. ok_inv.
  apply delayed_exact in Hd; [|done..].
  apply feed_loop_spec in Hf as [Hf _].
  apply (Forall2_filter_bool _ is_delayed feed_is_delayed) in Hf.
  2:{ intros m f (s & (st & -> & _)%derived_to_feed_shape). unfold is_delayed, feed_is_delayed. cbn.
      by destruct (h_request_id _). }
  eapply Forall2_trans; [|exact Hd|exact Hf].
  intros c m f (dm & Hdm & ->) (s & (st & -> & _)%derived_to_feed_shape).
  by exists dm, s, st.
Qed.

Lemma assemble_delayed_from (delayed : S) (resolved : list (DeliveredBatch * bytes))
    (st st' : AssembleState) :
  is_u64 (as_before st) -> cursors_ascend (as_before st) resolved ->
  try_fold (assemble_step delayed) resolved st = Ok st' ->
  as_before st <= last_cursor (as_before st) resolved /\
  exists fs, as_out st' = as_out st ++ fs /\
    Forall2 (feed_of_delayed delayed)
      (seqZ (as_before st) (last_cursor (as_before st) resolved - as_before st))
      (List.filter feed_is_delayed fs).
Proof.
  revert st. induction resolved as [|[batch payload] resolved IH]; intros st Hu Hc Hf.
  - injection Hf as <-. cbn. split; [lia|]. exists []. rewrite app_nil_r.
    rewrite seqZ_nil by lia. split; [done|constructor].
  - cbn [try_fold] in Hf. apply rbind_Ok in Hf as (st1 & H1 & H2).
    apply assemble_step_inv in H1 as (msgs & fs & Hd & Hl & _ & Hb & _ & Ho).
    destruct Hc as (Hle & Ha & Hc). rewrite <- Hb in Hle, Ha, Hc.
    destruct (IH st1 Ha Hc H2) as (Hle2 & fs2 & Ho2 & Hf2).
    change (last_cursor (as_before st) ((batch, payload) :: resolved))
      with (last_cursor (ev_after_delayed_messages_read (db_event batch)) resolved).
    rewrite <- Hb. split; [lia|]. exists (fs ++ fs2).
    split; [by rewrite Ho2, Ho, <- app_assoc|].
    rewrite List.filter_app.
    replace (last_cursor (as_before st1) resolved - as_before st)
      with ((as_before st1 - as_before st) + (last_cursor (as_before st1) resolved - as_before st1))
      by lia.
    rewrite seqZ_app by lia. apply Forall2_app.
    + rewrite Hb. by eapply (feed_delayed_exact delayed _ (batch_header (db_event batch)));
        [done|cbn; rewrite <- Hb..|exact Hd|exact Hl].
    + by replace (as_before st + (as_before st1 - as_before st)) with (as_before st1) by lia.
Qed.

(** Over a run of batches whose delayed counts ascend, the assembled stream contains each
    delayed message from the starting cursor up to the last batch's count exactly once and in
    index order: the cursor threaded between batches neither skips nor repeats one. *)
Theorem assemble_delayed_once (resolved : list (DeliveredBatch * bytes)) (delayed : S) (start : Z)
    (seed : StatsMap) (out : list BroadcastFeedMessage) :
  is_u64 start -> cursors_ascend start resolved ->
  assemble_feed_messages_with_seed resolved delayed start seed = Ok out ->
  Forall2 (feed_of_delayed delayed) (seqZ start (last_cursor start resolved - start))
    (List.filter feed_is_delayed out).
Proof.
  unfold assemble_feed_messages_with_seed. intros Hu Hc H. ok_inv. subst out.
  destruct (assemble_delayed_from delayed resolved (assemble_init start seed) v) as (_ & fs & Ho & Hf);
    [done..|]. by rewrite Ho.
Qed.

(** *** Batch posting reports *)

(** The stats attached to a report are those of a batch with the reported hash. *)
Definition report_ok (resolved : list (DeliveredBatch * bytes)) (seed : StatsMap)
    (f : BroadcastFeedMessage) : Prop :=
  let l1 := fm_l1_incoming_message f in
  if byte_eqb (fh_kind (fl_header l1)) KIND_BATCH_POSTING_REPORT
  then exists body dh stats,
    fl_l2msg l1 = base64_encode body /\ report_data_hash body = Some dh /\
    fl_batch_data_stats l1 = Some stats /\
    ((exists b p, In (b, p) resolved /\ batch_data_hash b = dh /\
                  stats = batch_data_stats (serialize_batch b)) \/
     bt_get dh seed = Some stats)
  else fl_batch_data_stats l1 = None.

Definition stats_ok (resolved : list (DeliveredBatch * bytes)) (seed : StatsMap)
    (stats : StatsMap) : Prop :=
  forall dh s, bt_get dh stats = Some s ->
    (exists b p, In (b, p) resolved /\ batch_data_hash b = dh /\
                 s = batch_data_stats (serialize_batch b)) \/ bt_get dh seed = Some s.

Lemma assemble_step_reports (delayed : S) resolved seed (st : AssembleState) bp (st' : AssembleState) :
  In bp resolved ->
  stats_ok resolved seed (as_report_stats st) /\ Forall (report_ok resolved seed) (as_out st) ->
  assemble_step delayed st bp = Ok st' ->
  stats_ok resolved seed (as_report_stats st') /\ Forall (report_ok resolved seed) (as_out st').
Proof.
  destruct bp as [batch payload]. intros Hin [Hst Hall].
  intros (msgs & fs & _ & Hf & Hs & _ & _ & Ho)%assemble_step_inv.
  assert (Hst' : stats_ok resolved seed (as_report_stats st')).
  { rewrite Hs. intros dh s. destruct (decide (dh = batch_data_hash batch)) as [->|Hd].
    - rewrite bt_get_insert_eq. intros [= <-]. left. by exists batch, payload.
    - rewrite bt_get_insert_ne by done. apply Hst. }
  split; [done|]. rewrite Ho. apply Forall_app. split; [done|].
  apply feed_loop_spec in Hf as [Hf _]. clear Ho. induction Hf as [|m f msgs fs Hm Hf IH];
    constructor; [|exact IH].
  destruct Hm as (s & (x & -> & Hx)%derived_to_feed_shape). unfold report_ok. cbn.
  destruct (byte_eqb _ _); [|done]. destruct Hx as (dh & y & Hdh & Hy & ->).
  exists (d_l2_msg m), dh, y. split_and!; [done..|]. by apply Hst'.
Qed.

(** In an assembled stream exactly the batch posting reports carry batch stats, and the
    stats are the length and non-zero count of the serialization of a batch of the run whose hash
    is the one in the report body, or come from the seed under that hash. *)
Lemma assembled_reports (resolved : list (DeliveredBatch * bytes)) (delayed : S) (start : Z)
    (seed : StatsMap) (out : list BroadcastFeedMessage) :
  assemble_feed_messages_with_seed resolved delayed start seed = Ok out ->
  Forall (report_ok resolved seed) out.
Proof.
  unfold assemble_feed_messages_with_seed. intros H. ok_inv. subst out.
  refine (proj2 (try_fold_inv (fun st => stats_ok resolved seed (as_report_stats st) /\
    Forall (report_ok resolved seed) (as_out st)) _ _ _ _ _ (conj _ _) E)).
  - intros s a s' Ha. by apply assemble_step_reports.
  - by right.
  - constructor.
Qed.

End Assemble.
End Decode.

(** ** Serialization *)

Section Serialize.
Context {KC : Keccak} {B64 : Base64}.

Lemma serialize_layout (b : DeliveredBatch) :
  serialize_batch b = header_bytes (batch_header (db_event b)) ++ payload_bytes (db_payload b).
Proof. unfold serialize_batch, header_bytes. cbn [flat_map]. by rewrite app_nil_r, <- !app_assoc. Qed.

Lemma header_bytes_inj (h h' : BatchHeader) (p p' : bytes) :
  header_ok h -> header_ok h' -> header_bytes h ++ p = header_bytes h' ++ p' -> h = h' /\ p = p'.
Proof.
  intros Hh Hh' Heq. pose proof (header_parse_encode h p Hh) as H1.
  rewrite Heq, (header_parse_encode h' p' Hh') in H1. by injection H1.
Qed.

(** The serialization a report hashes over parses back into the batch's header and its
    location-dependent data, so a data hash commits to both: two batches with equal data hash and
    no keccak collision between them agree on header and data. *)
Theorem serialize_batch_commits (b b' : DeliveredBatch) :
  header_ok (batch_header (db_event b)) -> header_ok (batch_header (db_event b')) ->
  header_parse (serialize_batch b) = Ok (batch_header (db_event b), payload_bytes (db_payload b)) /\
  (batch_data_hash b = batch_data_hash b' ->
   collision_free [serialize_batch b; serialize_batch b'] ->
   batch_header (db_event b) = batch_header (db_event b') /\
   payload_bytes (db_payload b) = payload_bytes (db_payload b')).
Proof.
  intros Hb Hb'. split; [rewrite serialize_layout; by apply header_parse_encode|].
  intros Hhash Hcf. apply Hcf in Hhash; [|by cbn; auto..].
  rewrite !serialize_layout in Hhash. by apply header_bytes_inj in Hhash.
Qed.

(** ** Feed form *)

Lemma hex_digit_inj (m n : Z) :
  0 <= m < 16 -> 0 <= n < 16 -> hex_digit m = hex_digit n -> m = n.
Proof.
  intros Hm Hn H. unfold hex_digit in H. apply (f_equal Ascii.N_of_ascii) in H.
  rewrite !Ascii.N_ascii_embedding in H by (repeat case_match; lia).
  destruct (Z.ltb_spec m 10), (Z.ltb_spec n 10); lia.
Qed.

Lemma hex_inj (a b : bytes) : hex a = hex b -> a = b.
Proof.
  revert b. induction a as [|x a IH]; intros [|y b]; try done. cbn [hex]. intros [= H1 H2 H3].
  pose proof (b2z_bound x). pose proof (b2z_bound y).
  apply hex_digit_inj in H1; [|Z.div_mod_to_equations; lia..].
  apply hex_digit_inj in H2; [|Z.div_mod_to_equations; lia..].
  f_equal; [|by apply IH]. apply b2z_inj. Z.div_mod_to_equations. lia.
Qed.

Lemma hex_word_inj (n : nat) (a b : Z) :
  0 <= a < 256 ^ Z.of_nat n -> 0 <= b < 256 ^ Z.of_nat n -> hex_word n a = hex_word n b -> a = b.
Proof.
  intros Ha Hb H. unfold hex_word in H. cbn [String.append] in H.
  injection H as H. apply hex_inj in H. by apply be_encode_inj in H.
Qed.

(** The fields of a derived message are in the range of their types, its base fee fits a [u64]. *)
Definition derived_ok (m : DerivedMessage) : Prop :=
  is_address (h_poster (d_header m)) /\ is_u64 (h_l1_base_fee (d_header m)) /\
  match h_request_id (d_header m) with Some id => is_b256 id | None => True end.

Lemma base_fee_u64 (z : Z) : is_u64 z -> (if z <=? U64_MAX then z else 0) = z.
Proof. unfold is_u64, U64_MAX. intros. by rewrite (proj2 (Z.leb_le _ _)) by lia. Qed.

Lemma request_id_inj (r r' : option Z) :
  match r with Some id => is_b256 id | None => True end ->
  match r' with Some id => is_b256 id | None => True end ->
  match r with Some id => JString (hex_word 32 id) | None => JNull end =
  match r' with Some id => JString (hex_word 32 id) | None => JNull end -> r = r'.
Proof.
  destruct r as [a|], r' as [b|]; try done. intros Ha Hb Hj. f_equal.
  apply (f_equal (fun v => match v with JString s => s | _ => EmptyString end)) in Hj.
  apply (hex_word_inj 32); [by rewrite pow256_32..|exact Hj].
Qed.

(** Converting a derived message to its feed form loses nothing: two messages with the same
    feed form are equal, with equal sequence number and stats, as long as the L1 base fee fits a
    [u64] (a larger one is sent as zero). *)
Theorem derived_to_feed_message_inj (m m' : DerivedMessage) (seq seq' : Z)
    (st st' : option BatchDataStats) :
  derived_ok m -> derived_ok m' ->
  derived_to_feed_message_with_stats m seq st = derived_to_feed_message_with_stats m' seq' st' ->
  m = m' /\ seq = seq' /\ st = st'.
Proof.
  intros (Hp & Hf & Hr) (Hp' & Hf' & Hr') H.
  pose proof (f_equal fm_sequence_number H) as E1.
  pose proof (f_equal fm_delayed_messages_read H) as E2.
  apply (f_equal fm_l1_incoming_message) in H.
  pose proof (f_equal fl_l2msg H) as E3. pose proof (f_equal fl_batch_data_stats H) as E4.
  apply (f_equal fl_header) in H.
  pose proof (f_equal fh_kind H) as E5. pose proof (f_equal fh_sender H) as E6.
  pose proof (f_equal fh_block_number H) as E7. pose proof (f_equal fh_timestamp H) as E8.
  pose proof (f_equal fh_request_id H) as E9. apply (f_equal fh_base_fee_l1) in H.
  destruct m as [[k p b t r f] l d], m' as [[k' p' b' t' r' f'] l' d'].
  cbn [derived_to_feed_message_with_stats fm_sequence_number fm_delayed_messages_read
       fm_l1_incoming_message fl_l2msg fl_batch_data_stats fl_header fh_kind fh_sender
       fh_block_number fh_timestamp fh_request_id fh_base_fee_l1
       d_header h_kind h_poster h_block_number h_timestamp h_l1_base_fee h_request_id d_l2_msg
       d_delayed_messages_read] in *.
  rewrite !base_fee_u64 in H by done. injection H as H.
  apply base64_inj in E3. apply hex_word_inj in E6; [|by rewrite pow256_20..].
  apply request_id_inj in E9; [|done..]. by subst.
Qed.

End Serialize.

(** ** Witnesses: a batch with one segment and one forced delayed message *)

Definition sample_event (after : Z) : SequencerBatchDeliveredData := {|
  ev_delayed_acc := 0; ev_after_delayed_messages_read := after; ev_min_timestamp := 10;
  ev_max_timestamp := 20; ev_min_l1_block := 5; ev_max_l1_block := 9; ev_data_location := TX_INPUT
|}.

Definition sample_payload : bytes := [x00; x82; x00; xff].

Definition sample_batch (n after : Z) : DeliveredBatch := {|
  db_sequence_number := n; db_before_acc := 0; db_after_acc := 0;
  db_event := sample_event after; db_payload := Calldata sample_payload
|}.

Definition sample_run : list (DeliveredBatch * bytes) :=
  [(sample_batch 0 1, sample_payload); (sample_batch 1 2, sample_payload)].

Definition sample_assemble : result L1Error (list BroadcastFeedMessage) :=
  assemble_feed_messages_with_seed (KC := Reference.keccak) (RLP := Reference.rlp)
    (BR := Reference.brotli) (B64 := Reference.base64) sample_run sample_source 0 bt_empty.

Definition sample_feed : list BroadcastFeedMessage :=
  match sample_assemble with Ok fs => fs | Err _ => [] end.

Lemma sample_assemble_ok : sample_assemble = Ok sample_feed.
Proof. vm_compute. reflexivity. Qed.

Lemma assemble_numbering_witness :
  length sample_feed = 4%nat /\ map fm_sequence_number sample_feed = [0; 1; 2; 3].
Proof.
  split; [vm_compute; reflexivity|].
  exact (assemble_numbering _ _ _ _ _ sample_assemble_ok ltac:(vm_compute; reflexivity)).
Defined.

Lemma assemble_delayed_once_witness :
  Forall2 (feed_of_delayed (B64 := Reference.base64) sample_source) [0; 1]
    (List.filter feed_is_delayed sample_feed).
Proof.
  refine (assemble_delayed_once sample_run sample_source 0 bt_empty sample_feed _ _
            sample_assemble_ok).
  - by apply small_u64.
  - cbn. repeat split; lia.
Defined.

Lemma serialize_batch_commits_witness :
  header_parse (serialize_batch (sample_batch 0 1)) =
    Ok (batch_header (sample_event 1), sample_payload).
Proof.
  refine (proj1 (serialize_batch_commits (KC := Reference.keccak) (sample_batch 0 1)
                   (sample_batch 1 2) _ _)); repeat split; cbn; lia.
Defined.

Lemma derived_to_feed_message_inj_witness :
  let m := make_l2_message sample_header [x04] 12 6 1 in
  derived_to_feed_message_with_stats (B64 := Reference.base64) m 3 None =
    derived_to_feed_message (B64 := Reference.base64) m 3 /\ m = m /\ 3 = 3.
Proof.
  intros m. split; [reflexivity|].
  destruct (derived_to_feed_message_inj (B64 := Reference.base64) m m 3 3 None None) as (H1 & H2 & _).
  - repeat split; vm_compute; by repeat constructor.
  - repeat split; vm_compute; by repeat constructor.
  - reflexivity.
  - split; [exact H1|exact H2].
Defined.
