(* ===== verification/L1Reader.v ===== *)
(** * Reading batches from L1

    [crates/arb-reth-l1/src/reader.rs] and [.../beacon.rs]. The L1 RPC endpoint is the class
    [Provider]: what it answers to each request during one call of the reader. A [getLogs] filter
    and a log are records with the fields the code sets and reads. The binary search runs on the
    fuel [log2_up (hi - lo + 1) + 1], which [search_loop_least] shows to be enough: this is the
    logarithmic bound on the number of calls. *)

From Stdlib Require Import Strings.Byte Strings.String.
From stdpp Require Import base list numbers option strings pretty.
From S2P Require Import Prelude BTree External Messages Batch Blob Multiplexer L1Decode.

Record Filter := {
  f_address : option Z;
  f_topic0 : Z;
  f_topic1 : option Z;
  f_from_block : Z;
  f_to_block : Z
}.

Record Log := {
  log_address : Z;
  log_topics : list Z;
  log_data : bytes;
  log_block_number : option Z;
  log_index : option Z;
  log_transaction_hash : option Z
}.

Record Transaction := {
  tx_input : bytes;
  tx_blob_versioned_hashes : option (list Z)
}.

(** An L1 RPC endpoint: [eth_call] of [batchCount()] on a contract at a block, [eth_getLogs],
    [eth_getTransactionByHash] and the timestamp of [eth_getBlockByNumber]; [Err] carries the
    transport error's text. *)
Class Provider := {
  call_batch_count : Z -> Z -> result string bytes;
  get_logs : Filter -> result string (list Log);
  get_transaction_by_hash : Z -> result string (option Transaction);
  get_block_timestamp : Z -> result string (option Z)
}.

(** [u64::from_be_bytes(topic.0[24..32])] *)
Definition topic_low_u64 (t : Z) : Z := be_decode (slice 24 8 (be_encode 32 t)).

(** [B256::from(U256::from(n).to_be_bytes::<32>())] *)
Definition u64_topic (n : Z) : Z := be_decode (be_encode 32 n).

(** [U256 -> usize]: fails above [u64::MAX]. *)
Definition usize_of_u256 (z : Z) : option Z := if z <=? U64_MAX then Some z else None.

(** Decodes [[offset word, length word, body]]; [64 + len] is computed in [usize]. *)
Definition decode_event_bytes (data : bytes) : result L1Error bytes :=
  if (length data <? 64)%nat then Err (L1_Missing "SequencerBatchData head")
  else
    let? len := ok_or (L1_Missing "SequencerBatchData length overflow")
                  (usize_of_u256 (be_decode (slice 32 32 data))) in
    ok_or (L1_Missing "SequencerBatchData body")
      (get_range 64 (Z.to_nat (wrapping_add 64 len)) data).

Module SequencerInboxReader.

(** The reader's [address] field; its [provider] is the class instance. *)
Record t := { address : Z }.

Definition SEQUENCER_INBOX_MAINNET : Z := 0x1c479675ad559dc151f6ec7ed3fbf8cee79582b6.

Definition new (address : Z) : t := {| address := address |}.
Definition mainnet : t := new SEQUENCER_INBOX_MAINNET.

Section Reader.
Context {PR : Provider} {ABI : SolAbi}.

Definition batch_count (self : t) (at_block : Z) : result L1Error Z :=
  let? out := map_err L1_Rpc (call_batch_count (address self) at_block) in
  if (length out <? 32)%nat then Ok 0 else Ok (be_decode (slice 24 8 out)).

(** [while lo < hi]: halve the interval with one [batch_count] per round. *)
Fixpoint search_loop (fuel : nat) (self : t) (lo hi have : Z) : option (result L1Error Z) :=
  match fuel with
  | O => None
  | S fuel' =>
      if lo <? hi then
        let mid := lo + (hi - lo) / 2 in
        match batch_count self mid with
        | Err e => Some (Err e)
        | Ok n => if have <? n then search_loop fuel' self lo mid have
                  else search_loop fuel' self (mid + 1) hi have
        end
      else Some (Ok lo)
  end.

Definition search_fuel (lo hi : Z) : nat := S (Z.to_nat (Z.log2_up (hi - lo + 1))).

Definition first_block_with_batch_count_above (self : t) (lo hi have : Z) : result L1Error Z :=
  match search_loop (search_fuel lo hi) self lo hi have with
  | Some r => r
  | None => Err (L1_Missing "search fuel")
  end.

Definition batch_logs (self : t) (from_block to_block : Z) : result L1Error (list Log) :=
  map_err L1_Rpc (get_logs {|
    f_address := Some (address self);
    f_topic0 := sig_sequencer_batch_delivered;
    f_topic1 := None;
    f_from_block := from_block;
    f_to_block := to_block |}).

Definition MAX_WINDOWS : nat := 64.

(** The scan of one window's logs: the first log of the batch decides. *)
Fixpoint scan_logs (logs : list Log) (sequence_number : Z) : result L1Error (option Z) :=
  match logs with
  | [] => Ok None
  | log :: logs' =>
      match log_topics log with
      | _ :: t1 :: _ :: _ :: _ =>
          if topic_low_u64 t1 =? sequence_number
          then let? b := ok_or (L1_Missing "log block_number") (log_block_number log) in Ok (Some b)
          else scan_logs logs' sequence_number
      | _ => scan_logs logs' sequence_number
      end
  end.

Fixpoint delivery_windows (n : nat) (self : t) (sequence_number from window : Z)
    : result L1Error (option Z) :=
  match n with
  | O => Ok None
  | S n' =>
      let to := wrapping_sub (wrapping_add from window) 1 in
      let? logs := batch_logs self from to in
      let? found := scan_logs logs sequence_number in
      match found with
      | Some b => Ok (Some b)
      | None => delivery_windows n' self sequence_number (wrapping_add to 1) window
      end
  end.

Definition delivery_block_of_batch (self : t) (sequence_number from_block window : Z)
    : result L1Error (option Z) :=
  delivery_windows MAX_WINDOWS self sequence_number from_block window.

Definition fetch_posting_tx (log : Log) : result L1Error Transaction :=
  let? tx_hash := ok_or (L1_Missing "log transaction_hash") (log_transaction_hash log) in
  let? tx := map_err L1_Rpc (get_transaction_by_hash tx_hash) in
  ok_or (L1_Missing "posting transaction") tx.

Definition fetch_separate_batch_payload (self : t) (log : Log) (sequence_number : Z)
    : result L1Error bytes :=
  let? block_number := ok_or (L1_Missing "log block_number") (log_block_number log) in
  let? logs := map_err L1_Rpc (get_logs {|
    f_address := Some (address self);
    f_topic0 := sig_sequencer_batch_data;
    f_topic1 := Some (u64_topic sequence_number);
    f_from_block := block_number;
    f_to_block := block_number |}) in
  match logs with
  | [] => Err (L1_Missing "SequencerBatchData event")
  | data_log :: rest =>
      match rest with
      | _ :: _ => Err (L1_Missing "unique SequencerBatchData event")
      | [] => decode_event_bytes (log_data data_log)
      end
  end.

Definition resolve_payload (self : t) (log : Log) (sequence_number : Z)
    (event : SequencerBatchDeliveredData) : result L1Error BatchPayload :=
  let loc := ev_data_location event in
  if byte_eqb loc TX_INPUT then
    let? tx := fetch_posting_tx log in
    let? p := extract_calldata_payload (tx_input tx) in
    Ok (Calldata p)
  else if byte_eqb loc SEPARATE_BATCH_EVENT then
    let? p := fetch_separate_batch_payload self log sequence_number in
    Ok (Calldata p)
  else if byte_eqb loc BLOB_HASHES then
    let? tx := fetch_posting_tx log in
    let versioned_hashes := default [] (tx_blob_versioned_hashes tx) in
    let? block_number := ok_or (L1_Missing "log block_number") (log_block_number log) in
    Ok (BlobPayload versioned_hashes block_number)
  else if byte_eqb loc NO_DATA then Ok NoPayload
  else Err (L1_UnsupportedDataLocation loc).

Definition resolve_batch (self : t) (log : Log) : result L1Error DeliveredBatch :=
  match log_topics log with
  | _ :: t1 :: before_acc :: after_acc :: _ =>
      let sequence_number := topic_low_u64 t1 in
      let? event := map_err L1_Batch (parse_sequencer_batch_delivered (log_data log)) in
      let? payload := resolve_payload self log sequence_number event in
      Ok {| db_sequence_number := sequence_number;
            db_before_acc := before_acc;
            db_after_acc := after_acc;
            db_event := event;
            db_payload := payload |}
  | _ => Err (L1_Missing "indexed batch topics")
  end.

(** ** The binary search *)

(** The view answers on the whole interval and never decreases. *)
Definition monotone_view (self : t) (count : Z -> Z) (lo hi : Z) : Prop :=
  (forall b, lo <= b <= hi -> batch_count self b = Ok (count b)) /\
  (forall b b', lo <= b -> b <= b' -> b' <= hi -> count b <= count b').

Lemma search_loop_least (self : t) (count : Z -> Z) (have lo0 hi0 : Z) (fuel : nat) (lo hi : Z) :
  monotone_view self count lo0 hi0 ->
  lo0 <= lo -> lo <= hi -> hi <= hi0 -> have < count hi ->
  (forall b, lo0 <= b < lo -> count b <= have) ->
  hi - lo + 1 <= 2 ^ (Z.of_nat fuel - 1) -> (0 < fuel)%nat ->
  exists b, search_loop fuel self lo hi have = Some (Ok b) /\ lo <= b <= hi /\ have < count b /\
    (forall b', lo0 <= b' < b -> count b' <= have).
Proof.
  intros [Hans Hmono]. revert lo hi. induction fuel as [|fuel IH]; [lia|].
  intros lo hi Hlo Hle Hhi Hab Hbelow Hfuel _. cbn [search_loop].
  destruct (Z.ltb_spec lo hi) as [Hlt|Hge].
  2:{ exists lo. assert (hi = lo) as -> by lia. split_and!; [done|lia|lia|lia|done]. }
  set (mid := lo + (hi - lo) / 2).
  assert (Hmid : lo <= mid < hi) by (unfold mid; Z.div_mod_to_equations; lia).
  destruct fuel as [|fuel].
  { replace (Z.of_nat 1 - 1) with 0 in Hfuel by lia. change (2 ^ 0) with 1 in Hfuel. lia. }
  assert (Hpow : 2 ^ (Z.of_nat (S (S fuel)) - 1) = 2 * 2 ^ (Z.of_nat (S fuel) - 1)).
  { rewrite <- Z.pow_succ_r by lia. f_equal. lia. }
  rewrite Hpow in Hfuel. set (p := 2 ^ (Z.of_nat (S fuel) - 1)) in *.
  rewrite Hans by lia. destruct (Z.ltb_spec have (count mid)) as [Hc|Hc].
  - destruct (IH lo mid) as (b & Hr & Hb & Hcb & Hl); try done; try lia.
    { unfold mid. Z.div_mod_to_equations. lia. }
    exists b. split_and!; try done; lia.
  - destruct (IH (mid + 1) hi) as (b & Hr & Hb & Hcb & Hl); try done; try lia.
    { intros b Hb. etrans; [apply (Hmono b mid); lia|done]. }
    { unfold mid in *. Z.div_mod_to_equations. lia. }
    exists b. split_and!; try done; lia.
Qed.

Lemma search_fuel_enough (lo hi : Z) :
  lo <= hi -> hi - lo + 1 <= 2 ^ (Z.of_nat (search_fuel lo hi) - 1).
Proof.
  intros H. unfold search_fuel. pose proof (Z.log2_up_nonneg (hi - lo + 1)).
  replace (Z.of_nat _ - 1) with (Z.log2_up (hi - lo + 1)) by lia.
  destruct (decide (hi - lo + 1 = 1)) as [->|]; [cbn; lia|]. apply Z.log2_up_spec. lia.
Qed.

Lemma search_least (self : t) (count : Z -> Z) (lo hi have : Z) :
  lo <= hi -> monotone_view self count lo hi -> have < count hi ->
  exists b, first_block_with_batch_count_above self lo hi have = Ok b /\
    lo <= b <= hi /\ have < count b /\ (forall b', lo <= b' < b -> count b' <= have).
Proof.
  intros Hle Hview Hhi.
  destruct (search_loop_least self count have lo hi (search_fuel lo hi) lo hi)
    as (b & Hr & Hb); try done; try lia.
  - by apply search_fuel_enough.
  - unfold search_fuel. lia.
  - exists b. unfold first_block_with_batch_count_above. by rewrite Hr.
Qed.

(** When the batch-count view is non-decreasing on the interval and exceeds [have] at its end,
    the binary search stops after at most [log2_up (hi - lo + 1) + 1] rounds and returns the least
    block of the interval at which the count exceeds [have], i.e. where the next batch landed. *)
Theorem search_returns_least (self : t) (count : Z -> Z) (lo hi have : Z) :
  lo <= hi -> monotone_view self count lo hi -> have < count hi ->
  exists b, first_block_with_batch_count_above self lo hi have = Ok b /\
    lo <= b <= hi /\ have < count b /\ (forall b', lo <= b' < b -> count b' <= have).
Proof. apply search_least. Qed.

(** ** Scanning for a delivery block *)

Definition log_is_batch (n : Z) (log : Log) : bool :=
  match log_topics log with
  | _ :: t1 :: _ :: _ :: _ => topic_low_u64 t1 =? n
  | _ => false
  end.

Lemma scan_logs_spec (logs : list Log) (n : Z) :
  match List.find (log_is_batch n) logs with
  | Some log => scan_logs logs n =
      let? b := ok_or (L1_Missing "log block_number") (log_block_number log) in Ok (Some b)
  | None => scan_logs logs n = Ok None
  end.
Proof.
  induction logs as [|log logs IH]; [done|]. cbn [List.find scan_logs]. unfold log_is_batch at 1.
  destruct (log_topics log) as [|? [|t1 [|? [|? ?]]]]; try exact IH.
  destruct (topic_low_u64 t1 =? n); [done|exact IH].
Qed.

(** The first log of batch [n] in the windows from [from], window by window. *)
Fixpoint first_delivery (k : nat) (self : t) (n from window : Z) : result L1Error (option Log) :=
  match k with
  | O => Ok None
  | S k' =>
      let? logs := batch_logs self from (from + window - 1) in
      match List.find (log_is_batch n) logs with
      | Some log => Ok (Some log)
      | None => first_delivery k' self n (from + window) window
      end
  end.

Lemma delivery_windows_first (k : nat) (self : t) (n from window : Z) :
  0 < window -> 0 <= from -> from + Z.of_nat k * window < 2 ^ 64 ->
  delivery_windows k self n from window =
  let? found := first_delivery k self n from window in
  match found with
  | None => Ok None
  | Some log => let? b := ok_or (L1_Missing "log block_number") (log_block_number log) in Ok (Some b)
  end.
Proof.
  intros Hw. revert from. induction k as [|k IH]; intros from Hf Hb; [done|].
  cbn [delivery_windows first_delivery].
  assert (Hto : wrapping_sub (wrapping_add from window) 1 = from + window - 1).
  { unfold wrapping_sub, wrapping_add. rewrite !wrap64_small; unfold is_u64; try lia.
    rewrite wrap64_small; unfold is_u64; lia. }
  rewrite Hto. destruct (batch_logs self from (from + window - 1)) as [logs|]; [|done].
  cbn [rbind]. pose proof (scan_logs_spec logs n) as Hs.
  destruct (List.find (log_is_batch n) logs) as [log|]; rewrite Hs.
  - cbn [rbind]. by destruct (log_block_number log).
  - cbn [rbind]. unfold wrapping_add. rewrite wrap64_small by (unfold is_u64; lia).
    replace (from + window - 1 + 1) with (from + window) by lia. apply IH; lia.
Qed.

End Reader.
End SequencerInboxReader.

(** ** ABI-encoded bytes *)

(** [data] is an offset word, the length of [body], [body] and padding. *)
Definition abi_bytes_of (data body : bytes) : Prop :=
  exists head pad, length head = 32%nat /\
    data = head ++ be_encode 32 (Z.of_nat (length body)) ++ body ++ pad.

(** The two-step read shared by both decoders of event bytes. *)
Lemma abi_bytes_read (data body : bytes) :
  Z.of_nat (length data) < 2 ^ 63 ->
  ((64 <= length data)%nat /\
   exists len, usize_of_u256 (be_decode (slice 32 32 data)) = Some len /\
     get_range 64 (Z.to_nat (wrapping_add 64 len)) data = Some body) <->
  abi_bytes_of data body.
Proof.
  intros Hsize. split.
  - intros (Hlen & len & Hu & (Hr & ->)%get_range_Some).
    unfold usize_of_u256 in Hu. destruct (Z.leb_spec (be_decode (slice 32 32 data)) U64_MAX); [|done].
    injection Hu as <-. set (n := be_decode (slice 32 32 data)) in *.
    pose proof (be_decode_bound (slice 32 32 data)) as Hn. fold n in Hn.
    assert (Hw : wrapping_add 64 n = 64 + n).
    { unfold wrapping_add, wrap64 in *. apply Z.mod_small. split; [lia|].
      destruct (Z.lt_ge_cases (64 + n) (2 ^ 64)) as [|Hge]; [done|exfalso].
      assert (Hm : (64 + n) mod 2 ^ 64 = 64 + n - 2 ^ 64).
      { symmetry. apply (Z.mod_unique _ _ 1); unfold U64_MAX in *; lia. }
      rewrite Hm in Hr. unfold U64_MAX in *. lia. }
    rewrite Hw in Hr |- *.
    exists (take 32 data), (drop (64 + Z.to_nat n) data).
    split; [rewrite length_take; lia|].
    replace (Z.to_nat (64 + n) - 64)%nat with (Z.to_nat n) by lia.
    rewrite slice_length by lia. rewrite Z2Nat.id by lia. unfold n at 1.
    rewrite be_encode_decode_len by (apply slice_length; lia).
    rewrite <- (take_drop 32 data) at 1. f_equal.
    rewrite <- (take_drop 32 (drop 32 data)) at 1. fold (slice 32 32 data). f_equal.
    rewrite drop_drop. change (32 + 32)%nat with 64%nat.
    rewrite <- (take_drop (Z.to_nat n) (drop 64 data)) at 1. by rewrite drop_drop.
  - intros (head & pad & Hh & ->). set (n := Z.of_nat (length body)).
    rewrite !length_app, be_encode_length in *. split; [lia|]. exists n.
    rewrite slice_app_skip, Hh by lia. change (32 - 32)%nat with 0%nat.
    rewrite slice_app_head by apply be_encode_length.
    rewrite be_decode_encode_small by (rewrite pow256_32; lia). split.
    + unfold usize_of_u256. by rewrite (proj2 (Z.leb_le _ _)) by (unfold U64_MAX; lia).
    + apply get_range_Some. unfold wrapping_add. rewrite wrap64_small by (unfold is_u64; lia).
      rewrite !length_app, be_encode_length. split; [lia|].
      replace (Z.to_nat (64 + n) - 64)%nat with (length body) by lia.
      rewrite slice_app_skip, Hh by lia. rewrite slice_app_skip by layout_len.
      rewrite be_encode_length. change (64 - 32 - 32)%nat with 0%nat.
      by rewrite slice_app_head.
Qed.

Lemma decode_event_bytes_Ok (data body : bytes) :
  Z.of_nat (length data) < 2 ^ 63 ->
  decode_event_bytes data = Ok body <-> abi_bytes_of data body.
Proof.
  intros Hs. rewrite <- abi_bytes_read by done. unfold decode_event_bytes.
  destruct (Nat.ltb_spec (length data) 64); [split; [done|lia]|].
  rewrite rbind_Ok. setoid_rewrite ok_or_Ok. naive_solver.
Qed.

(** ** beacon.rs *)

Module Beacon.

Definition MAINNET_GENESIS_TIME : Z := 1606824023.
Definition SECONDS_PER_SLOT : Z := 12.

(** The slot timing of a client; its [base] URL and HTTP client are in [Http] below. *)
Record BeaconClient := { genesis_time : Z; seconds_per_slot : Z }.

Definition new : BeaconClient :=
  {| genesis_time := MAINNET_GENESIS_TIME; seconds_per_slot := SECONDS_PER_SLOT |}.

Definition with_timing (self : BeaconClient) (genesis_time seconds_per_slot : Z) : BeaconClient :=
  {| genesis_time := genesis_time; seconds_per_slot := seconds_per_slot |}.

Definition slot_for_timestamp (self : BeaconClient) (ts : Z) : Z :=
  saturating_sub ts (genesis_time self) / seconds_per_slot self.

Record BlobSidecar := { sc_versioned_hash : Z; sc_blob : bytes }.
Record RawSidecar := { raw_kzg_commitment : string; raw_blob : string }.

(** What one GET of the sidecar endpoint gives: a transport error, or a status with a body that
    is JSON sidecars or not. *)
Inductive HttpOutcome :=
| NetworkError (e : string)
| Response (status : Z) (body : result string (list RawSidecar)).

(** The sidecar endpoint, per slot and attempt, and the two library functions applied to a
    sidecar: [hex::decode] and [kzg_to_versioned_hash]. *)
Class BeaconApi := {
  http_get : Z -> nat -> HttpOutcome;
  hex_decode : string -> result string bytes;
  kzg_to_versioned_hash : bytes -> Z
}.

Section Client.
Context {API : BeaconApi} {RLP : Rlp}.

Definition sidecar_try_from (r : RawSidecar) : result L1Error BlobSidecar :=
  let? commitment := map_err (fun e => L1_Rpc ("commitment hex: " +:+ e))
                       (hex_decode (raw_kzg_commitment r)) in
  let versioned_hash := kzg_to_versioned_hash commitment in
  let? bs := map_err (fun e => L1_Rpc ("blob hex: " +:+ e)) (hex_decode (raw_blob r)) in
  if negb (length bs =? BYTES_PER_BLOB)%nat
  then Err (L1_Rpc ("blob length " +:+ pretty (length bs) +:+ " != " +:+ pretty BYTES_PER_BLOB))
  else Ok {| sc_versioned_hash := versioned_hash; sc_blob := bs |}.

Definition is_success (status : Z) : bool := (200 <=? status) && (status <? 300).
Definition is_server_error (status : Z) : bool := (500 <=? status) && (status <? 600).
Definition TOO_MANY_REQUESTS : Z := 429.
Definition transient (status : Z) : bool := (status =? TOO_MANY_REQUESTS) || is_server_error status.

Definition MAX_ATTEMPTS : nat := 12.
Definition MAX_BACKOFF : Z := 30000.

Definition status_error (slot status : Z) : L1Error :=
  L1_Rpc ("beacon blob_sidecars/" +:+ pretty slot +:+ " -> " +:+ pretty status).

(** The attempts from [attempt] on with the current backoff in milliseconds; returns the result
    and the sleeps between attempts. [left] counts the attempts after this one. *)
Fixpoint blob_sidecars_loop (left : nat) (slot : Z) (attempt : nat) (backoff : Z)
    : result L1Error (list BlobSidecar) * list Z :=
  let retry last :=
    match left with
    | O => (Err last, [])
    | S left' =>
        let '(r, sleeps) :=
          blob_sidecars_loop left' slot (S attempt) (Z.min (backoff * 2) MAX_BACKOFF) in
        (r, backoff :: sleeps)
    end in
  match http_get slot attempt with
  | NetworkError e => retry (L1_Rpc e)
  | Response status body =>
      if is_success status then
        (let? raw := map_err L1_Rpc body in try_map sidecar_try_from raw, [])
      else
        let err := status_error slot status in
        if negb (transient status) then (Err err, []) else retry err
  end.

Definition blob_sidecars_timed (slot : Z) : result L1Error (list BlobSidecar) * list Z :=
  blob_sidecars_loop (MAX_ATTEMPTS - 1) slot 1 500.

Definition blob_sidecars (slot : Z) : result L1Error (list BlobSidecar) :=
  fst (blob_sidecars_timed slot).

(** [{e:?}] of a [BlobDecodeError]. *)
Definition quote : string := String (Ascii.ascii_of_nat 34) EmptyString.
Definition debug_blob_error (e : BlobDecodeError) : string :=
  match e with
  | Blob_SpareBits n => "SpareBits(" +:+ pretty n +:+ ")"
  | Blob_Rlp what => "Rlp(" +:+ quote +:+ what +:+ quote +:+ ")"
  end.

Definition find_sidecar (sidecars : list BlobSidecar) (vh : Z) : result L1Error bytes :=
  let? sc := ok_or (L1_Missing "blob sidecar for versioned hash")
               (List.find (fun s => sc_versioned_hash s =? vh) sidecars) in
  Ok (sc_blob sc).

Definition blob_batch_payload (slot : Z) (versioned_hashes : list Z) : result L1Error bytes :=
  let? sidecars := blob_sidecars slot in
  let? blobs := try_map (find_sidecar sidecars) versioned_hashes in
  map_err (fun e => L1_Blob (debug_blob_error e)) (decode_blobs blobs).

(** [SequencerInboxReader::resolve_blob_payload] *)
Definition resolve_blob_payload {PR : Provider} (block_number : Z) (versioned_hashes : list Z)
    (beacon : BeaconClient) : result L1Error bytes :=
  let? block := map_err L1_Rpc (get_block_timestamp block_number) in
  let? ts := ok_or (L1_Missing "L1 block") block in
  blob_batch_payload (slot_for_timestamp beacon ts) versioned_hashes.

(** ** Retries *)

(** An outcome after which the client tries again. *)
Definition retried (o : HttpOutcome) : bool :=
  match o with
  | NetworkError _ => true
  | Response status _ => negb (is_success status) && transient status
  end.

Definition outcome_result (slot : Z) (o : HttpOutcome) : result L1Error (list BlobSidecar) :=
  match o with
  | NetworkError e => Err (L1_Rpc e)
  | Response status body =>
      if is_success status then let? raw := map_err L1_Rpc body in try_map sidecar_try_from raw
      else Err (status_error slot status)
  end.

Fixpoint backoffs (n : nat) (backoff : Z) : list Z :=
  match n with
  | O => []
  | S n' => backoff :: backoffs n' (Z.min (backoff * 2) MAX_BACKOFF)
  end.

Lemma blob_sidecars_loop_spec (left : nat) (slot : Z) (attempt : nat) (backoff : Z) :
  exists k, (k <= left)%nat /\
    Forall (fun i => retried (http_get slot i) = true) (seq attempt k) /\
    (k = left \/ retried (http_get slot (attempt + k)) = false) /\
    blob_sidecars_loop left slot attempt backoff =
      (outcome_result slot (http_get slot (attempt + k)), backoffs k backoff).
Proof.
  revert attempt backoff. induction left as [|left IH]; intros attempt backoff.
  - exists 0%nat. rewrite Nat.add_0_r. split_and!; [lia|constructor|by left|].
    cbn [blob_sidecars_loop backoffs]. unfold outcome_result.
    destruct (http_get slot attempt) as [e|status body]; [done|].
    destruct (is_success status); [done|]. by destruct (transient status).
  - destruct (retried (http_get slot attempt)) eqn:Hr.
    + destruct (IH (S attempt) (Z.min (backoff * 2) MAX_BACKOFF)) as (k & Hk & Hall & Hend & Heq).
      exists (S k). rewrite Nat.add_succ_r. split_and!; [lia|by constructor|destruct Hend; auto|].
      cbn [blob_sidecars_loop]. rewrite Heq. cbn [backoffs Nat.add].
      unfold retried in Hr. destruct (http_get slot attempt) as [e|status body]; [done|].
      apply andb_prop in Hr as [->%negb_true_iff ->]. done.
    + exists 0%nat. rewrite Nat.add_0_r. split_and!; [lia|constructor|by right|].
      cbn [blob_sidecars_loop backoffs]. unfold outcome_result.
      unfold retried in Hr. destruct (http_get slot attempt) as [e|status body]; [done|].
      destruct (is_success status); [done|]. cbn in Hr. by rewrite Hr.
Qed.

Lemma backoffs_bounded (n : nat) (backoff : Z) :
  0 < backoff <= MAX_BACKOFF -> Forall (fun b => 0 < b <= MAX_BACKOFF) (backoffs n backoff).
Proof.
  revert backoff. induction n as [|n IH]; intros backoff Hb; constructor; [done|].
  apply IH. unfold MAX_BACKOFF in *. lia.
Qed.

(** Fetching sidecars makes at most twelve requests: it gives up on the first permanent
    outcome or after the twelfth attempt, returns that attempt's result (never the unreachable
    end of the loop), and between attempts sleeps the doubling backoff, at most 30 s each. *)
Theorem blob_sidecars_retries (slot : Z) :
  exists k, (k < MAX_ATTEMPTS)%nat /\
    Forall (fun i => retried (http_get slot i) = true) (seq 1 k) /\
    (S k = MAX_ATTEMPTS \/ retried (http_get slot (S k)) = false) /\
    blob_sidecars_timed slot = (outcome_result slot (http_get slot (S k)), backoffs k 500) /\
    Forall (fun b => 0 < b <= MAX_BACKOFF) (backoffs k 500).
Proof.
  destruct (blob_sidecars_loop_spec (MAX_ATTEMPTS - 1) slot 1 500) as (k & Hk & Hall & Hend & Heq).
  exists k. unfold MAX_ATTEMPTS in *. split_and!; [lia|done|destruct Hend; [left; lia|by right]|done|].
  apply backoffs_bounded. unfold MAX_BACKOFF. lia.
Qed.

(** ** Blob payloads *)

Lemma find_sidecars (sidecars : list BlobSidecar) (vhs : list Z) (blobs : list bytes) :
  Forall2 (fun vh blob => find_sidecar sidecars vh = Ok blob) vhs blobs ->
  try_map (find_sidecar sidecars) vhs = Ok blobs.
Proof. apply try_map_Ok. Qed.

(** If the slot's sidecars answer the batch's versioned hashes with the blobs that encode a
    payload, in the order of the hashes and whatever the order of the sidecars, the reader
    recovers exactly that payload. *)
Theorem blob_batch_payload_roundtrip {RL : RlpLaws} (slot : Z) (sidecars : list BlobSidecar)
    (vhs : list Z) (data : bytes) :
  single_low data = false -> Z.of_nat (length data) <= U64_MAX ->
  blob_sidecars slot = Ok sidecars ->
  Forall2 (fun vh blob => find_sidecar sidecars vh = Ok blob) vhs (encode_blobs data) ->
  blob_batch_payload slot vhs = Ok data.
Proof.
  intros Hlow Hlen Hs Hf. unfold blob_batch_payload. rewrite Hs. cbn [rbind].
  rewrite (find_sidecars _ _ _ Hf). cbn [rbind]. by rewrite blobs_roundtrip.
Qed.

End Client.

(** A beacon node that holds one blob and answers the third request. *)
Definition sample_data : bytes := [x80; x01; xff].
Definition sample_blob : bytes := hd [] (encode_blobs (RLP := Reference.rlp) sample_data).

Definition sample_api : BeaconApi := {|
  http_get _ attempt :=
    match attempt with
    | 1%nat => NetworkError "timeout"
    | 2%nat => Response 503 (Ok [])
    | _ => Response 200 (Ok [{| raw_kzg_commitment := "commitment"; raw_blob := "blob" |}])
    end;
  hex_decode s := Ok (if (s =? "blob")%string then sample_blob else []);
  kzg_to_versioned_hash _ := 7
|}.

Lemma sample_encoded :
  encode_blobs (RLP := Reference.rlp) sample_data = [sample_blob] /\
  length sample_blob = BYTES_PER_BLOB.
Proof.
  destruct (encode_blobs_single (RLP := Reference.rlp) sample_data [x83; x80; x01; xff])
    as (blob & Hb & Hl).
  - vm_compute. reflexivity.
  - apply Nat.leb_le. vm_compute. reflexivity.
  - unfold sample_blob. rewrite Hb. cbn [hd]. split; [exact eq_refl|exact Hl].
Qed.

Lemma sample_sidecars :
  blob_sidecars (API := sample_api) 5 = Ok [{| sc_versioned_hash := 7; sc_blob := sample_blob |}].
Proof.
  unfold blob_sidecars, blob_sidecars_timed.
  assert (Hs : sidecar_try_from (API := sample_api)
    {| raw_kzg_commitment := "commitment"; raw_blob := "blob" |} =
    Ok {| sc_versioned_hash := 7; sc_blob := sample_blob |}).
  { unfold sidecar_try_from, sample_api. cbn [hex_decode raw_kzg_commitment raw_blob].
    change ("blob" =? "blob")%string with true. cbn [map_err rbind kzg_to_versioned_hash].
    rewrite (proj2 (Nat.eqb_eq _ _) (proj2 sample_encoded)). exact eq_refl. }
  cbn [MAX_ATTEMPTS Nat.sub blob_sidecars_loop http_get sample_api fst].
  change (is_success 503) with false. change (transient 503) with true.
  change (is_success 200) with true. cbn [negb map_err rbind try_map fst].
  rewrite Hs. exact eq_refl.
Qed.

Lemma blob_batch_payload_roundtrip_witness :
  blob_batch_payload (API := sample_api) (RLP := Reference.rlp) 5 [7] = Ok [x80; x01; xff].
Proof.
  apply (blob_batch_payload_roundtrip (API := sample_api) (RLP := Reference.rlp)
           (RL := Reference.rlp_laws) 5 [{| sc_versioned_hash := 7; sc_blob := sample_blob |}] [7]
           sample_data).
  - reflexivity.
  - unfold U64_MAX. cbn [length sample_data]. lia.
  - exact sample_sidecars.
  - rewrite (proj1 sample_encoded). constructor; [exact eq_refl|constructor].
Defined.

End Beacon.

(** ** An L1 with two batches, delivered at blocks 7 and 12 *)

Definition sample_count (b : Z) : Z := if b <? 7 then 0 else if b <? 12 then 1 else 2.

Definition sample_provider : Provider := {|
  call_batch_count _ b := Ok (be_encode 32 (sample_count b));
  get_logs _ := Ok [];
  get_transaction_by_hash _ := Ok None;
  get_block_timestamp _ := Ok None
|}.

Lemma sample_batch_count (b : Z) :
  SequencerInboxReader.batch_count (PR := sample_provider) SequencerInboxReader.mainnet b
  = Ok (sample_count b).
Proof.
  unfold SequencerInboxReader.batch_count. cbn [call_batch_count sample_provider].
  cbn [map_err rbind]. rewrite be_encode_length. change (32 <? 32)%nat with false. cbn iota.
  unfold sample_count. by destruct (b <? 7); [|destruct (b <? 12)]; vm_compute.
Qed.

Lemma sample_count_mono (b b' : Z) : b <= b' -> sample_count b <= sample_count b'.
Proof.
  unfold sample_count. intros Hle.
  destruct (Z.ltb_spec b 7), (Z.ltb_spec b' 7), (Z.ltb_spec b 12), (Z.ltb_spec b' 12); lia.
Qed.

Lemma search_returns_least_witness :
  SequencerInboxReader.first_block_with_batch_count_above (PR := sample_provider)
    SequencerInboxReader.mainnet 0 100 1 = Ok 12 /\
  exists b, SequencerInboxReader.first_block_with_batch_count_above (PR := sample_provider)
    SequencerInboxReader.mainnet 0 100 1 = Ok b /\
    0 <= b <= 100 /\ 1 < sample_count b /\ (forall b', 0 <= b' < b -> sample_count b' <= 1).
Proof.
  split; [vm_compute; reflexivity|].
  apply (SequencerInboxReader.search_returns_least (PR := sample_provider)).
  - lia.
  - split.
    + intros b _. apply sample_batch_count.
    + intros b b' _ Hle _. by apply sample_count_mono.
  - reflexivity.
Defined.
