(* ===== verification/DelayedReader.v ===== *)
(** * Reconstructing delayed-inbox messages

    [crates/arb-reth-l1/src/delayed.rs]: the [MessageDelivered] metadata of the bridge is paired
    with bodies keyed by (index, inbox). The bodies fetched from transaction calldata complete in
    an order the runtime chooses ([buffer_unordered]): the order is the parameter [completion], any
    permutation. Two concurrent requests ([try_join]) are taken in the order of the arguments,
    which decides only which of two failures is reported. *)

From Stdlib Require Import Strings.Byte Strings.String Permutation Sorted.
From stdpp Require Import base list numbers option strings pretty.
From S2P Require Import Prelude BTree External Messages Batch Multiplexer L1Decode L1Reader.

Record DelayedEvent := {
  de_index : Z;
  de_before_inbox_acc : Z;
  de_inbox : Z;
  de_kind : u8;
  de_sender : Z;
  de_message_data_hash : Z;
  de_base_fee_l1 : Z;
  de_timestamp : Z;
  de_l1_block : Z
}.

Definition event_message (e : DelayedEvent) (body : bytes) : DelayedMessage := {|
  dm_kind := de_kind e;
  dm_sender := de_sender e;
  dm_block_number := de_l1_block e;
  dm_timestamp := de_timestamp e;
  dm_inbox_seq_num := de_index e;
  dm_base_fee_l1 := de_base_fee_l1 e;
  dm_data := body;
  dm_before_inbox_acc := de_before_inbox_acc e
|}.

Definition into_message {KC : Keccak} (e : DelayedEvent) (body : bytes)
    : result L1Error DelayedMessage :=
  let msg := event_message e body in
  if negb (message_data_hash msg =? de_message_data_hash e)
  then Err (L1_Blob ("delayed body hash mismatch at index " +:+ pretty (de_index e)))
  else Ok msg.

(** [verify_accumulator_chain]: every adjacent pair is consecutive and chained. *)
Fixpoint verify_accumulator_chain {KC : Keccak} (msgs : list DelayedMessage) : bool :=
  match msgs with
  | m0 :: (m1 :: _) as rest =>
      (dm_inbox_seq_num m1 =? wrapping_add (dm_inbox_seq_num m0) 1) &&
      (accumulator m0 =? dm_before_inbox_acc m1) &&
      verify_accumulator_chain rest
  | _ => true
  end.

Definition topic_u64 (log : Log) (what : string) : result L1Error Z :=
  let? t := ok_or (L1_Missing what) (log_topics log !! 1%nat) in
  Ok (topic_low_u64 t).

(** [Address::from_slice(&word(i)[12..32])] *)
Definition address_word (data : bytes) (i : nat) : Z := be_decode (slice 12 20 (word data i)).

Definition parse_message_delivered (topics : list Z) (data : bytes) (l1_block : Z)
    : result L1Error DelayedEvent :=
  match topics with
  | _ :: t1 :: before_inbox_acc :: _ =>
      if negb (length data =? 6 * 32)%nat
      then Err (L1_Batch (Batch_EventDataWrongLen (length data)))
      else Ok {|
        de_index := topic_low_u64 t1;
        de_before_inbox_acc := before_inbox_acc;
        de_inbox := address_word data 0;
        de_kind := u8_word data 1;
        de_sender := address_word data 2;
        de_message_data_hash := be_decode (word data 3);
        de_base_fee_l1 := be_decode (word data 4);
        de_timestamp := u64_word data 5;
        de_l1_block := l1_block
      |}
  | _ => Err (L1_Missing "MessageDelivered indexed topics")
  end.

Definition parse_inbox_message_data (data : bytes) : result L1Error bytes :=
  if (length data <? 64)%nat then Err (L1_Missing "InboxMessageDelivered data head")
  else
    let? len := ok_or (L1_Missing "InboxMessageDelivered length overflow")
                  (usize_of_u256 (be_decode (slice 32 32 data))) in
    ok_or (L1_Missing "InboxMessageDelivered body")
      (get_range 64 (Z.to_nat (wrapping_add 64 len)) data).

Abbreviation BodyEntry := ((Z * Z) * bytes)%type.

(** The order in which concurrently fetched bodies complete. *)
Class Completion := {
  completion : list BodyEntry -> list BodyEntry;
  completion_perm : forall l, Permutation (completion l) l
}.

Module DelayedInboxReader.

Record t := { bridge : Z }.

Definition BRIDGE_MAINNET : Z := 0x8315177aB297bA92A06054cE80a67Ed4DBd7ed3a.
Definition new (bridge : Z) : t := {| bridge := bridge |}.
Definition mainnet : t := new BRIDGE_MAINNET.

Section Reader.
Context {KC : Keccak} {PR : Provider} {ABI : SolAbi}.

Definition range_filter (address : option Z) (topic0 from_block to_block : Z) : Filter := {|
  f_address := address; f_topic0 := topic0; f_topic1 := None;
  f_from_block := from_block; f_to_block := to_block
|}.

Definition fetch_logs (filter : Filter) : result L1Error (list Log) := map_err L1_Rpc (get_logs filter).

Definition meta_of_log (log : Log) : result L1Error DelayedEvent :=
  let? l1_block := ok_or (L1_Missing "MessageDelivered block_number") (log_block_number log) in
  parse_message_delivered (log_topics log) (log_data log) l1_block.

Definition fetch_metas (self : t) (from_block to_block : Z) : result L1Error (list (Z * DelayedEvent)) :=
  let? logs := fetch_logs (range_filter (Some (bridge self)) sig_message_delivered from_block to_block) in
  try_fold (fun metas log => let? event := meta_of_log log in
                             Ok (bt_insert (de_index event) event metas)) logs bt_empty.

Definition inline_body_entry (log : Log) : result L1Error BodyEntry :=
  let? index := topic_u64 log "InboxMessageDelivered messageNum" in
  let? data := parse_inbox_message_data (log_data log) in
  Ok ((index, log_address log), data).

Definition fetch_from_origin_body (log : Log) : result L1Error bytes :=
  let? tx_hash := ok_or (L1_Missing "log transaction_hash") (log_transaction_hash log) in
  let? tx := map_err L1_Rpc (get_transaction_by_hash tx_hash) in
  let? tx := ok_or (L1_Missing "from-origin transaction") tx in
  ok_or L1_Abi (from_origin_data (tx_input tx)).

Definition origin_body_entry (log : Log) : result L1Error BodyEntry :=
  let? index := topic_u64 log "InboxMessageDeliveredFromOrigin messageNum" in
  let emitter := log_address log in
  let? data := fetch_from_origin_body log in
  Ok ((index, emitter), data).

Definition fetch_bodies {CO : Completion} (from_block to_block : Z)
    : result L1Error (list (Z * Z * bytes)) :=
  let? inline_logs := fetch_logs (range_filter None sig_inbox_message_delivered from_block to_block) in
  let? from_origin_logs :=
    fetch_logs (range_filter None sig_inbox_message_delivered_from_origin from_block to_block) in
  let? bodies := try_fold (fun bodies log => let? '(key, data) := inline_body_entry log in
                                             Ok (bt_insert key data bodies)) inline_logs bt_empty in
  let? fetched := try_map origin_body_entry from_origin_logs in
  Ok (bt_extend (completion fetched) bodies).

(** Pairing every event with its body, in index order. *)
Definition pair_body (bodies : list (Z * Z * bytes)) (event : DelayedEvent)
    : result L1Error DelayedMessage :=
  let? body := ok_or (L1_Missing "delayed message body for (index, inbox)")
                 (bt_get (de_index event, de_inbox event) bodies) in
  into_message event body.

Definition fetch_delayed {CO : Completion} (self : t) (from_block to_block : Z)
    : result L1Error (list DelayedMessage) :=
  let? metas := fetch_metas self from_block to_block in
  let? bodies := fetch_bodies from_block to_block in
  try_map (pair_body bodies) (bt_values metas).

Definition fetch_delayed_map {CO : Completion} (self : t) (from_block to_block : Z)
    : result L1Error DelayedMap :=
  let? msgs := fetch_delayed self from_block to_block in
  Ok (from_messages msgs).


(** ** What a fetch returns *)

(** The accumulated metadata: exactly the logs' indices, each with the event of one of its logs. *)
Lemma metas_spec (logs : list Log) (metas : list (Z * DelayedEvent)) :
  try_fold (fun metas log => let? event := meta_of_log log in
                             Ok (bt_insert (de_index event) event metas)) logs bt_empty = Ok metas ->
  bt_sorted metas /\
  (forall i e, bt_get i metas = Some e ->
     de_index e = i /\ exists log, In log logs /\ meta_of_log log = Ok e) /\
  (forall log e, In log logs -> meta_of_log log = Ok e -> is_Some (bt_get (de_index e) metas)).
Proof.
  revert metas. induction logs as [|log logs IH] using rev_ind; intros metas.
  - intros [= <-]. split_and!; [constructor|done|done].
  - rewrite try_fold_snoc. intros H. ok_inv. subst metas. destruct (IH _ E) as (Hs & Hget & Hall).
    split_and!.
    + by apply bt_insert_sorted.
    + intros i e. destruct (decide (i = de_index v0)) as [->|Hne].
      * rewrite bt_get_insert_eq. intros [= <-]. split; [done|]. exists log.
        rewrite in_app_iff. cbn. auto.
      * rewrite bt_get_insert_ne by done. intros Hg. destruct (Hget i e Hg) as (Hi & l & Hl & He).
        split; [done|]. exists l. rewrite in_app_iff. auto.
    + intros l e Hl He. destruct (decide (de_index e = de_index v0)) as [->|Hne].
      * rewrite bt_get_insert_eq. by eexists.
      * rewrite bt_get_insert_ne by done. apply in_app_iff in Hl as [Hl|[<-|[]]]; [by eapply Hall|].
        rewrite E0 in He. by injection He as ->.
Qed.

Lemma into_message_Ok (e : DelayedEvent) (body : bytes) (m : DelayedMessage) :
  into_message e body = Ok m <->
  m = event_message e body /\ keccak256 body = de_message_data_hash e.
Proof.
  unfold into_message. cbn [event_message message_data_hash dm_data].
  change (message_data_hash (event_message e body)) with (keccak256 body).
  destruct (Z.eqb_spec (keccak256 body) (de_message_data_hash e)); cbn; naive_solver.
Qed.

Lemma pair_body_Ok (bodies : list (Z * Z * bytes)) (e : DelayedEvent) (m : DelayedMessage) :
  pair_body bodies e = Ok m ->
  m = event_message e (dm_data m) /\ keccak256 (dm_data m) = de_message_data_hash e.
Proof. unfold pair_body. intros H. ok_inv. apply into_message_Ok in H as [-> H]. done. Qed.

(** The index of each reconstructed message is the key of its event. *)
Lemma paired_indices (metas : list (Z * DelayedEvent)) (bodies : list (Z * Z * bytes))
    (msgs : list DelayedMessage) :
  bt_sorted metas -> (forall i e, bt_get i metas = Some e -> de_index e = i) ->
  Forall2 (fun e m => pair_body bodies e = Ok m) (bt_values metas) msgs ->
  map dm_inbox_seq_num msgs = map fst metas.
Proof.
  intros Hs Hi Hf.
  assert (Hkeys : forall i e, In (i, e) metas -> de_index e = i).
  { intros i e Hin. apply Hi. by apply bt_sorted_In_get. }
  clear Hs Hi. unfold bt_values in Hf. revert msgs Hf.
  induction metas as [|[i e] metas IH]; intros msgs Hf; inversion Hf as [|? m ? msgs' Hm Hf']; subst; [done|].
  cbn [map fst]. f_equal.
  - apply pair_body_Ok in Hm as [-> _]. apply Hkeys. by left.
  - apply IH; [|done]. intros j e' Hin. apply Hkeys. by right.
Qed.

Lemma sorted_keys (metas : list (Z * DelayedEvent)) :
  bt_sorted metas -> StronglySorted Z.lt (map fst metas).
Proof.
  induction 1 as [|[i e] metas Hm IH Hall]; [constructor|]. cbn [map fst]. constructor; [done|].
  apply List.Forall_forall. intros j Hj%in_map_iff. destruct Hj as ([k e'] & <- & Hin).
  eapply List.Forall_forall in Hall; [|exact Hin]. by apply Z.compare_lt_iff.
Qed.

(** The messages [fetch_delayed] returns are in strictly ascending index order, their indices
    are exactly those of the bridge's [MessageDelivered] logs in the range, and each one has the
    metadata of such a log and a body whose keccak hash is the one the log recorded. *)
Theorem fetch_delayed_sound {CO : Completion} (self : t) (from_block to_block : Z)
    (msgs : list DelayedMessage) :
  fetch_delayed self from_block to_block = Ok msgs ->
  exists logs,
    get_logs (range_filter (Some (bridge self)) sig_message_delivered from_block to_block) = Ok logs /\
    StronglySorted Z.lt (map dm_inbox_seq_num msgs) /\
    (forall i, In i (map dm_inbox_seq_num msgs) <->
       exists log e, In log logs /\ meta_of_log log = Ok e /\ de_index e = i) /\
    Forall (fun m => exists log e, In log logs /\ meta_of_log log = Ok e /\
      m = event_message e (dm_data m) /\ keccak256 (dm_data m) = de_message_data_hash e) msgs.
Proof.
  unfold fetch_delayed, fetch_metas, fetch_logs. intros H. ok_inv.
  apply metas_spec in E as (Hs & Hget & Hall). exists v1. split; [done|].
  apply try_map_Ok in H.
  pose proof (paired_indices v v0 msgs Hs (fun i e Hg => proj1 (Hget i e Hg)) H) as Hidx.
  rewrite Hidx. split_and!.
  - by apply sorted_keys.
  - intros i. split.
    + intros Hi%in_map_iff. destruct Hi as ([j e] & <- & Hin).
      apply bt_sorted_In_get in Hin; [|done]. destruct (Hget j e Hin) as (Hj & log & Hl & He).
      by exists log, e.
    + intros (log & e & Hl & He & <-). destruct (Hall log e Hl He) as [e' He'].
      apply bt_get_In in He'. by apply (in_map fst) in He'.
  - clear Hidx. assert (Hvals : forall e, In e (bt_values v) -> exists log, In log v1 /\ meta_of_log log = Ok e).
    { intros e Hin%in_map_iff. destruct Hin as ([j e'] & <- & Hin).
      apply bt_sorted_In_get in Hin; [|done]. by apply (Hget j). }
    clear Hget Hall. induction H as [|e m es ms Hm Hf IH]; constructor.
    + destruct (Hvals e) as (log & Hl & He); [by left|]. apply pair_body_Ok in Hm as [Hm Hk].
      by exists log, e.
    + apply IH. intros e' He'. apply Hvals. by right.
Qed.

(** The order in which concurrently fetched calldata bodies complete does not influence the
    result, provided no two [InboxMessageDeliveredFromOrigin] logs of the range have the same
    index and emitter. *)
Theorem fetch_delayed_order_free (CO CO' : Completion) (self : t) (from_block to_block : Z) :
  (forall logs fetched,
     get_logs (range_filter None sig_inbox_message_delivered_from_origin from_block to_block) = Ok logs ->
     try_map origin_body_entry logs = Ok fetched -> List.NoDup (map fst fetched)) ->
  fetch_delayed (CO := CO) self from_block to_block = fetch_delayed (CO := CO') self from_block to_block.
Proof.
  intros Hnd. unfold fetch_delayed. destruct (fetch_metas self from_block to_block) as [metas|]; [|done].
  cbn [rbind]. replace (fetch_bodies (CO := CO') from_block to_block)
    with (fetch_bodies (CO := CO) from_block to_block); [done|].
  unfold fetch_bodies, fetch_logs.
  destruct (get_logs (range_filter None sig_inbox_message_delivered from_block to_block)) as [inl|]; [|done].
  destruct (get_logs (range_filter None sig_inbox_message_delivered_from_origin _ _)) as [org|]; [|done].
  specialize (Hnd org). cbn [map_err rbind]. destruct (try_fold _ inl bt_empty) as [bodies|] eqn:E; [|done].
  cbn [rbind]. destruct (try_map origin_body_entry org) as [fetched|]; [|done]. cbn [rbind].
  specialize (Hnd fetched eq_refl eq_refl). f_equal.
  assert (Hsort : bt_sorted bodies).
  { refine (try_fold_inv bt_sorted _ _ _ _ _ _ E); [|constructor].
    intros s log s' _ Hs Hstep. ok_inv. subst. by apply bt_insert_sorted. }
  apply bt_extend_perm; [|by rewrite completion_perm|done].
  by rewrite !completion_perm.
Qed.

End Reader.
End DelayedInboxReader.

(** What the range derivation needs from the reader: the reconstructed messages of a block range. *)
Class DelayedFetch := {
  fetch_range : Z -> Z -> result L1Error (list DelayedMessage)
}.

Definition reader_fetch {KC : Keccak} {PR : Provider} {ABI : SolAbi} {CO : Completion}
    (self : DelayedInboxReader.t) : DelayedFetch := {|
  fetch_range lo hi := DelayedInboxReader.fetch_delayed self lo hi
|}.

(** ** Event layouts *)

Lemma topic_low_u64_mod (z : Z) : topic_low_u64 z = z mod 2 ^ 64.
Proof. unfold topic_low_u64. by rewrite low_u64_word. Qed.

Lemma address_low (w : Z) : be_decode (slice 12 20 (be_encode 32 w)) = w mod 2 ^ 160.
Proof. rewrite (be_encode_split 12 20). layout. rewrite be_decode_encode. by rewrite pow256_20. Qed.

(** A [MessageDelivered] event is read off its ABI words: the index is the second topic modulo
    2^64, addresses and the timestamp are the low bytes of their words, hash and base fee the whole
    words; fewer than three topics or data of another length than six words is an error. *)
Theorem parse_message_delivered_words (t0 t1 acc : Z) (ts : list Z) (l1_block : Z)
    (w0 w1 w2 w3 w4 w5 : Z) (topics : list Z) (data : bytes) :
  is_b256 w3 -> is_b256 w4 ->
  parse_message_delivered (t0 :: t1 :: acc :: ts) (event_words [w0; w1; w2; w3; w4; w5]) l1_block =
    Ok {| de_index := t1 mod 2 ^ 64; de_before_inbox_acc := acc; de_inbox := w0 mod 2 ^ 160;
          de_kind := z2b w1; de_sender := w2 mod 2 ^ 160; de_message_data_hash := w3;
          de_base_fee_l1 := w4; de_timestamp := w5 mod 2 ^ 64; de_l1_block := l1_block |} /\
  ((length topics < 3)%nat \/ length data <> 192%nat ->
   exists e, parse_message_delivered topics data l1_block = Err e).
Proof.
  intros H3 H4. split.
  - unfold parse_message_delivered, event_words. cbn [map concat].
    rewrite (proj2 (Nat.eqb_eq _ _)) by layout_len. cbn [negb].
    unfold address_word, u64_word, u8_word. rewrite !word_app.
    rewrite !address_low, low_u64_word, low_u8_word, topic_low_u64_mod.
    by rewrite !be_decode_encode_small by (by rewrite pow256_32).
  - unfold parse_message_delivered. intros H.
    destruct topics as [|? [|? [|? ?]]]; try by eexists.
    destruct H as [H|H]; [cbn in H; lia|].
    rewrite (proj2 (Nat.eqb_neq _ _)) by done. by eexists.
Qed.

Lemma parse_message_delivered_words_witness :
  exists e, parse_message_delivered [1; 2] [] 5 = Err e.
Proof.
  apply (parse_message_delivered_words 0 0 0 [] 5 0 0 0 0 0 0 [1; 2] []).
  - split; [done|]. by vm_compute.
  - split; [done|]. by vm_compute.
  - left. cbn. lia.
Defined.

(** Both decoders of an ABI-encoded [bytes] argument accept exactly the byte strings that
    consist of an offset word, the length of the body, the body and padding, and return that
    body; in particular a length word that overflows [usize], alone or after adding the 64-byte
    head, is rejected. *)
Theorem event_bytes_decoders (data body : bytes) :
  Z.of_nat (length data) < 2 ^ 63 ->
  (parse_inbox_message_data data = Ok body <-> abi_bytes_of data body) /\
  (decode_event_bytes data = Ok body <-> abi_bytes_of data body).
Proof.
  intros Hs. split; [|by apply decode_event_bytes_Ok].
  rewrite <- abi_bytes_read by done. unfold parse_inbox_message_data.
  destruct (Nat.ltb_spec (length data) 64); [split; [done|lia]|].
  rewrite rbind_Ok. setoid_rewrite ok_or_Ok. naive_solver.
Qed.

Definition sample_abi_bytes : bytes :=
  be_encode 32 32 ++ be_encode 32 3 ++ [xaa; xbb; xcc] ++ repeat x00 29.

Lemma event_bytes_decoders_witness :
  parse_inbox_message_data sample_abi_bytes = Ok [xaa; xbb; xcc] /\
  decode_event_bytes sample_abi_bytes = Ok [xaa; xbb; xcc].
Proof.
  assert (Habi : abi_bytes_of sample_abi_bytes [xaa; xbb; xcc]).
  { exists (be_encode 32 32), (repeat x00 29). split; [apply be_encode_length|exact eq_refl]. }
  destruct (event_bytes_decoders sample_abi_bytes [xaa; xbb; xcc]) as [H1 H2].
  - vm_compute. reflexivity.
  - split; [by apply H1|by apply H2].
Defined.

(** ** The accumulator chain *)

Section Chain.
Context {KC : Keccak}.

Lemma verify_chain_snoc (l : list DelayedMessage) (a m : DelayedMessage) :
  verify_accumulator_chain (l ++ [a; m]) = true ->
  verify_accumulator_chain (l ++ [a]) = true /\ accumulator a = dm_before_inbox_acc m.
Proof.
  induction l as [|x l IH].
  - cbn. intros H. repeat apply andb_prop in H as [H ?].
    split; [done|]. by apply Z.eqb_eq.
  - destruct l as [|y l]; cbn [app verify_accumulator_chain] in *.
    + intros [H1 H2]%andb_prop. destruct (IH H2) as [_ Ha]. by rewrite H1.
    + intros [H1 H2]%andb_prop. destruct (IH H2) as [Hv Ha]. rewrite H1. by rewrite Hv.
Qed.

(** Equal ends force equal chains. *)
Lemma chain_unique (l1 l2 : list DelayedMessage) (m1 m2 : DelayedMessage) :
  length l1 = length l2 ->
  verify_accumulator_chain (l1 ++ [m1]) = true -> verify_accumulator_chain (l2 ++ [m2]) = true ->
  Forall delayed_ok (l1 ++ [m1]) -> Forall delayed_ok (l2 ++ [m2]) ->
  collision_free (flat_map acc_preimages ((l1 ++ [m1]) ++ (l2 ++ [m2]))) ->
  accumulator m1 = accumulator m2 -> l1 ++ [m1] = l2 ++ [m2].
Proof.
  revert l2 m1 m2. induction l1 as [|a1 l1 IH] using rev_ind; intros l2 m1 m2 Hlen H1 H2 O1 O2 Hcf Hacc.
  all: assert (m1 = m2) as <-.
  1,3: apply Forall_app in O1 as [_ O1]; apply Forall_app in O2 as [_ O2];
    inversion O1; inversion O2; subst; apply accumulator_inj; [done..| |done];
    eapply collision_free_sub; [|exact Hcf]; intros x Hx;
    apply in_flat_map; apply in_app_iff in Hx as [Hx|Hx]; [exists m1|exists m2];
    (split; [rewrite !in_app_iff; cbn; tauto|done]).
  - by destruct l2.
  - destruct l2 as [|a2 l2 _] using rev_ind; [rewrite length_app in Hlen; cbn in Hlen; lia|].
    rewrite !length_app in Hlen. cbn in Hlen. rewrite <- !app_assoc in H1, H2. cbn [app] in H1, H2.
    apply verify_chain_snoc in H1 as [V1 B1]. apply verify_chain_snoc in H2 as [V2 B2].
    apply Forall_app in O1 as [O1 _]. apply Forall_app in O2 as [O2 _].
    f_equal. apply IH; [lia|done|done|done|done| |congruence].
    eapply collision_free_sub; [|exact Hcf]. intros x Hx.
    apply in_flat_map in Hx as (y & Hy & Hx). apply in_flat_map. exists y.
    split; [|done]. rewrite !in_app_iff in *. tauto.
Qed.

(** The accumulator binds the whole delayed inbox: two verified runs of the same length that
    end in the same accumulator are the same messages, field by field and body by body, unless
    keccak256 collides on something hashed on the way. *)
Theorem verified_chains_agree (l1 l2 : list DelayedMessage) (m1 m2 : DelayedMessage) :
  length l1 = length l2 ->
  verify_accumulator_chain (l1 ++ [m1]) = true -> verify_accumulator_chain (l2 ++ [m2]) = true ->
  Forall delayed_ok (l1 ++ [m1]) -> Forall delayed_ok (l2 ++ [m2]) ->
  collision_free (flat_map acc_preimages ((l1 ++ [m1]) ++ (l2 ++ [m2]))) ->
  accumulator m1 = accumulator m2 -> l1 ++ [m1] = l2 ++ [m2].
Proof. apply chain_unique. Qed.

End Chain.

Definition chain_message (i before_acc : Z) : DelayedMessage := {|
  dm_kind := x0c; dm_sender := 7; dm_block_number := 6; dm_timestamp := 12;
  dm_inbox_seq_num := i; dm_base_fee_l1 := 0; dm_data := [xab]; dm_before_inbox_acc := before_acc
|}.

Definition chain_0 : DelayedMessage := chain_message 0 0.
Definition chain_1 : DelayedMessage :=
  chain_message 1 (accumulator (KC := Reference.keccak) chain_0).

Lemma chain_messages_ok : Forall delayed_ok [chain_0; chain_1].
Proof.
  constructor; [|constructor; [|constructor]];
    (split_and!; [split; [done|]; by vm_compute..|
                  first [apply keccak256_range | split; [done|]; by vm_compute]]).
Qed.

Lemma verified_chains_agree_witness :
  verify_accumulator_chain (KC := Reference.keccak) [chain_0; chain_1] = true /\
  [chain_0; chain_1] = [chain_0; chain_1].
Proof.
  assert (Hv : verify_accumulator_chain (KC := Reference.keccak) [chain_0; chain_1] = true)
    by (vm_compute; reflexivity).
  split; [exact Hv|].
  refine (verified_chains_agree (KC := Reference.keccak) [chain_0] [chain_0] chain_1 chain_1
            eq_refl Hv Hv chain_messages_ok chain_messages_ok _ eq_refl).
  apply collision_free_check. vm_compute. reflexivity.
Defined.

(** ** An L1 with one delayed message, its body inline *)

Definition delayed_log : Log := {|
  log_address := 9; log_topics := [3; 4; 0];
  log_data := event_words [8; 12; 7; Reference.digest [xaa; xbb; xcc]; 0; 100];
  log_block_number := Some 50; log_index := Some 0; log_transaction_hash := None
|}.

Definition body_log : Log := {|
  log_address := 8; log_topics := [4; 4]; log_data := sample_abi_bytes;
  log_block_number := Some 50; log_index := Some 0; log_transaction_hash := None
|}.

Definition delayed_provider : Provider := {|
  call_batch_count _ _ := Ok [];
  get_logs f := Ok (if f_topic0 f =? 3 then [delayed_log]
                    else if f_topic0 f =? 4 then [body_log] else []);
  get_transaction_by_hash _ := Ok None;
  get_block_timestamp _ := Ok None
|}.

#[export] Instance in_order : Completion.
Proof. refine {| completion l := l |}. done. Defined.

Definition reversed : Completion.
Proof. refine {| completion l := rev l |}. intros l. symmetry. apply Permutation_rev. Defined.

Definition fetched_sample : result L1Error (list DelayedMessage) :=
  DelayedInboxReader.fetch_delayed (KC := Reference.keccak) (PR := delayed_provider)
    (ABI := Reference.sol_abi) (CO := in_order) (DelayedInboxReader.new 9) 0 100.

Definition fetched_message : DelayedMessage := {|
  dm_kind := x0c; dm_sender := 7; dm_block_number := 50; dm_timestamp := 100;
  dm_inbox_seq_num := 4; dm_base_fee_l1 := 0; dm_data := [xaa; xbb; xcc]; dm_before_inbox_acc := 0
|}.

Lemma fetched_sample_ok : fetched_sample = Ok [fetched_message].
Proof. vm_compute. reflexivity. Qed.

Lemma fetch_delayed_sound_witness :
  exists logs, get_logs (Provider := delayed_provider)
    (DelayedInboxReader.range_filter (Some 9) 3 0 100) = Ok logs /\
    StronglySorted Z.lt [4].
Proof.
  destruct (DelayedInboxReader.fetch_delayed_sound (KC := Reference.keccak) (PR := delayed_provider)
    (ABI := Reference.sol_abi) (CO := in_order) (DelayedInboxReader.new 9) 0 100 [fetched_message]
    fetched_sample_ok) as (logs & Hl & Hs & _).
  exists logs. split; [exact Hl|exact Hs].
Defined.

Lemma fetch_delayed_order_free_witness :
  fetched_sample =
  DelayedInboxReader.fetch_delayed (KC := Reference.keccak) (PR := delayed_provider)
    (ABI := Reference.sol_abi) (CO := reversed) (DelayedInboxReader.new 9) 0 100.
Proof.
  apply (DelayedInboxReader.fetch_delayed_order_free (KC := Reference.keccak)
    (PR := delayed_provider) (ABI := Reference.sol_abi) in_order reversed).
  intros logs fetched [= <-] [= <-]. constructor.
Defined.
