(* ===== verification/L1Range.v ===== *)
(** * Deriving an L1 block range

    [crates/arb-reth-l1/src/sync.rs]: resolving the batches of a range, covering the delayed
    indices they consume (one-shot backward scan and the forward-carried [DelayedCache]) and the
    assembly tail. Mutable caches are threaded through and returned on success and on error alike.
    [DelayedCache] has one ghost field, the list of block chunks fetched so far, which no
    operation reads. Loops that walk backward run on fuel: the number of blocks below the start,
    since every iteration moves at least one block down or stops. *)

From Stdlib Require Import Strings.Byte Strings.String Sorted Permutation.
From stdpp Require Import base list numbers option strings.
From S2P Require Import Prelude BTree External Messages Batch Multiplexer L1Decode L1Reader DelayedReader.
Import Multiplexer.

Record DerivedRange := {
  dr_messages : list BroadcastFeedMessage;
  dr_next_delayed_count : Z;
  dr_batches : nat
}.

Definition DEFAULT_DELAYED_WINDOW : Z := 10000.

(** ** Stable sorting: [sort_by_key] *)

Section Sort.
Context {A : Type} (key : A -> Z * Z).

Definition key_le (a b : A) : bool :=
  match kcmp (key a) (key b) with Gt => false | _ => true end.

Fixpoint sort_insert (a : A) (l : list A) : list A :=
  match l with
  | [] => [a]
  | b :: l' => if key_le a b then a :: b :: l' else b :: sort_insert a l'
  end.

Definition sort_by_key (l : list A) : list A := foldr sort_insert [] l.

Definition le_key (a b : A) : Prop := key_le a b = true.

Lemma key_le_total (a b : A) : key_le a b = false -> key_le b a = true.
Proof. unfold key_le. rewrite (kcmp_antisym (key b) (key a)). by destruct (kcmp (key b) (key a)). Qed.

Lemma key_le_trans (a b c : A) : le_key a b -> le_key b c -> le_key a c.
Proof.
  unfold le_key, key_le.
  destruct (kcmp (key a) (key b)) eqn:E1, (kcmp (key b) (key c)) eqn:E2; try done; intros _ _;
    repeat match goal with H : kcmp _ _ = Eq |- _ => apply kcmp_eq in H; try rewrite H in * end;
    try (rewrite kcmp_refl; done).
  - by rewrite E2.
  - by rewrite E1.
  - by rewrite (kcmp_trans _ _ _ E1 E2).
Qed.

Lemma sort_insert_perm (a : A) (l : list A) : Permutation (sort_insert a l) (a :: l).
Proof.
  induction l as [|b l IH]; [done|]. cbn [sort_insert]. destruct (key_le a b); [done|].
  rewrite IH. constructor.
Qed.

Lemma sort_by_key_perm (l : list A) : Permutation (sort_by_key l) l.
Proof. induction l as [|a l IH]; [done|]. cbn. by rewrite sort_insert_perm, IH. Qed.

Lemma sort_insert_sorted (a : A) (l : list A) :
  StronglySorted le_key l -> StronglySorted le_key (sort_insert a l).
Proof.
  induction 1 as [|b l Hl IH Hall]; cbn [sort_insert]; [repeat constructor|].
  destruct (key_le a b) eqn:E.
  - constructor; [by constructor|]. constructor; [done|].
    eapply List.Forall_impl; [|exact Hall]. intros c. by apply key_le_trans.
  - constructor; [done|]. apply List.Forall_forall. intros c Hc.
    apply (Permutation_in _ (sort_insert_perm a l)) in Hc as [<-|Hc]; [by apply key_le_total|].
    by eapply List.Forall_forall in Hall.
Qed.

Lemma sort_by_key_sorted (l : list A) : StronglySorted le_key (sort_by_key l).
Proof. induction l as [|a l IH]; [constructor|]. by apply sort_insert_sorted. Qed.
End Sort.

(** [BTreeMap<B256, BatchDataStats>], as a seed and as the cache kept across windows. *)
Abbreviation StatsMap := (list (Z * BatchDataStats)).
Abbreviation ReportStatsCache := (list (Z * BatchDataStats)).

(** ** Batches *)

Section Range.
Context {KC : Keccak} {RLP : Rlp} {BR : Brotli} {ABI : SolAbi} {B64 : Base64}
        {PR : Provider} {API : Beacon.BeaconApi}.

Definition log_key (l : Log) : Z * Z :=
  (default 0 (log_block_number l), default 0 (log_index l)).

Definition resolve_one (seq_reader : SequencerInboxReader.t) (beacon : option Beacon.BeaconClient)
    (log : Log) : result L1Error (DeliveredBatch * bytes) :=
  let? batch := SequencerInboxReader.resolve_batch seq_reader log in
  let? payload :=
    match db_payload batch with
    | Calldata p => Ok p
    | NoPayload => Ok []
    | BlobPayload versioned_hashes block_number =>
        let? beacon := ok_or (L1_Missing "beacon client for blob batch") beacon in
        Beacon.resolve_blob_payload block_number versioned_hashes beacon
    end in
  Ok (batch, payload).

(** [buffered] keeps the order of the logs; the first error in that order is returned. *)
Definition resolve_batches (seq_reader : SequencerInboxReader.t)
    (beacon : option Beacon.BeaconClient) (from_block to_block : Z)
    : result L1Error (list (DeliveredBatch * bytes)) :=
  let? logs := SequencerInboxReader.batch_logs seq_reader from_block to_block in
  try_map (resolve_one seq_reader beacon) (sort_by_key log_key logs).

(** The batches of a range come out in ascending (block, log index) order, one per log the
    endpoint returned, each resolved from its own log; the order of the endpoint's answer does
    not matter. *)
Theorem resolve_batches_ordered (seq_reader : SequencerInboxReader.t)
    (beacon : option Beacon.BeaconClient) (from_block to_block : Z)
    (out : list (DeliveredBatch * bytes)) :
  resolve_batches seq_reader beacon from_block to_block = Ok out ->
  exists fetched logs,
    SequencerInboxReader.batch_logs seq_reader from_block to_block = Ok fetched /\
    Permutation logs fetched /\ StronglySorted (le_key log_key) logs /\
    Forall2 (fun log bp => resolve_one seq_reader beacon log = Ok bp) logs out.
Proof.
  unfold resolve_batches. intros (fetched & Hf & Ho)%rbind_Ok.
  exists fetched, (sort_by_key log_key fetched). split_and!; [done| | |by apply try_map_Ok].
  - apply sort_by_key_perm.
  - apply sort_by_key_sorted.
Qed.

(** ** One-shot delayed coverage *)

(** [for m in msgs { acc.insert(m.inbox_seq_num, m) }] *)
Definition insert_all (msgs : list DelayedMessage) (acc : list (Z * DelayedMessage))
    : list (Z * DelayedMessage) :=
  bt_extend (map (fun m => (dm_inbox_seq_num m, m)) msgs) acc.

(** [(from..to).all(|i| acc.contains_key(&i))] *)
Definition all_present (need_from need_to : Z) (acc : list (Z * DelayedMessage)) : bool :=
  forallb (fun i => bt_contains_key i acc) (seqZ need_from (need_to - need_from)).

Section Cover.
Context {DF : DelayedFetch}.

Fixpoint covering_loop (fuel : nat) (hi need_from need_to window : Z)
    (acc : list (Z * DelayedMessage)) : result L1Error (list (Z * DelayedMessage)) :=
  let lo := saturating_sub hi (window - 1) in
  let? msgs := fetch_range lo hi in
  let acc := insert_all msgs acc in
  if bt_contains_key need_from acc || all_present need_from need_to acc then Ok acc
  else if lo =? 0
  then Err (L1_Missing "delayed messages: scan reached block 0 without coverage")
  else match fuel with
       | O => Ok acc
       | S fuel' => covering_loop fuel' (lo - 1) need_from need_to window acc
       end.

Definition fetch_delayed_map_covering (to_block need_from need_to window : Z)
    : result L1Error DelayedMap :=
  if need_to <=? need_from then Ok DelayedMap_default
  else
    let window := Z.max window 1 in
    let? acc := covering_loop (Z.to_nat to_block) to_block need_from need_to window bt_empty in
    if all_present need_from need_to acc then Ok (from_messages (bt_values acc))
    else Err (L1_Missing "delayed message index not found in scan").

(** ** The forward-carried cache *)

Record DelayedCache := {
  dc_msgs : list (Z * DelayedMessage);
  dc_scanned_lo : option Z;
  dc_scanned_hi : option Z;
  dc_fetched : list (Z * Z)
}.

Definition DelayedCache_new : DelayedCache :=
  {| dc_msgs := bt_empty; dc_scanned_lo := None; dc_scanned_hi := None; dc_fetched := [] |}.

Definition covers (self : DelayedCache) (need_from need_to : Z) : bool :=
  all_present need_from need_to (dc_msgs self).

(** The chunk loop of [scan_range]: downward from [chunk_hi] to [lo]. *)
Fixpoint scan_chunks (fuel : nat) (lo chunk_hi window : Z) (self : DelayedCache)
    : result L1Error unit * DelayedCache :=
  let chunk_lo := Z.max (saturating_sub chunk_hi (window - 1)) lo in
  match fetch_range chunk_lo chunk_hi with
  | Err e => (Err e, self)
  | Ok msgs =>
      let self := {| dc_msgs := insert_all msgs (dc_msgs self);
                     dc_scanned_lo := dc_scanned_lo self;
                     dc_scanned_hi := dc_scanned_hi self;
                     dc_fetched := dc_fetched self ++ [(chunk_lo, chunk_hi)] |} in
      if chunk_lo =? lo then (Ok tt, self)
      else match fuel with
           | O => (Ok tt, self)
           | S fuel' => scan_chunks fuel' lo (chunk_lo - 1) window self
           end
  end.

Definition scan_range (self : DelayedCache) (lo hi window : Z)
    : result L1Error unit * DelayedCache :=
  let window := Z.max window 1 in
  match scan_chunks (Z.to_nat (hi - lo)) lo hi window self with
  | (Err e, self) => (Err e, self)
  | (Ok _, self) =>
      (Ok tt, {| dc_msgs := dc_msgs self;
                 dc_scanned_lo := Some (match dc_scanned_lo self with
                                        | None => lo | Some x => Z.min x lo end);
                 dc_scanned_hi := Some (match dc_scanned_hi self with
                                        | None => hi | Some x => Z.max x hi end);
                 dc_fetched := dc_fetched self |})
  end.

(** [while !self.covers(..)]: one window further down per iteration. *)
Fixpoint backward_walk (fuel : nat) (self : DelayedCache) (need_from need_to window : Z)
    : result L1Error unit * DelayedCache :=
  if covers self need_from need_to then (Ok tt, self)
  else
    match dc_scanned_lo self with
    | None => (Err (L1_Missing "scanned after forward extend"), self)
    | Some lo =>
        if lo =? 0
        then (Err (L1_Missing "delayed messages: scan reached block 0 without coverage"), self)
        else
          let next_hi := lo - 1 in
          let next_lo := saturating_sub next_hi (window - 1) in
          match fuel with
          | O => (Ok tt, self)
          | S fuel' =>
              match scan_range self next_lo next_hi window with
              | (Err e, self) => (Err e, self)
              | (Ok _, self) => backward_walk fuel' self need_from need_to window
              end
          end
    end.

Definition forward_extend (self : DelayedCache) (to_block window : Z)
    : result L1Error unit * DelayedCache :=
  match dc_scanned_hi self with
  | Some hi => if hi <? to_block then scan_range self (hi + 1) to_block window else (Ok tt, self)
  | None => scan_range self (saturating_sub to_block (window - 1)) to_block window
  end.

(** The blocks below the scanned interval bound the backward walk. *)
Definition walk_fuel (self : DelayedCache) : nat :=
  match dc_scanned_lo self with Some lo => Z.to_nat lo | None => 0 end.

Definition fill_cache (self : DelayedCache) (to_block need_from need_to window : Z)
    : result L1Error unit * DelayedCache :=
  if covers self need_from need_to then (Ok tt, self)
  else
    match forward_extend self to_block window with
    | (Err e, self) => (Err e, self)
    | (Ok _, self) => backward_walk (walk_fuel self) self need_from need_to window
    end.

Definition cover (self : DelayedCache) (to_block need_from need_to window : Z)
    : result L1Error DelayedMap * DelayedCache :=
  if need_to <=? need_from then (Ok DelayedMap_default, self)
  else
    let window := Z.max window 1 in
    match fill_cache self to_block need_from need_to window with
    | (Err e, self) => (Err e, self)
    | (Ok _, self) =>
        let map := from_messages
          (omap (fun i => bt_get i (dc_msgs self)) (seqZ need_from (need_to - need_from))) in
        (Ok map, {| dc_msgs := bt_retain (fun i => need_from <=? i) (dc_msgs self);
                    dc_scanned_lo := dc_scanned_lo self;
                    dc_scanned_hi := dc_scanned_hi self;
                    dc_fetched := dc_fetched self |})
    end.

(** ** Report stats *)

Fixpoint find_reported (seq_reader : SequencerInboxReader.t) (logs : list Log)
    (seq_num data_hash : Z) : result L1Error BatchDataStats :=
  match logs with
  | [] => Err (L1_Missing "reported batch not found at its delivery block")
  | log :: logs' =>
      let s := topic_low_u64 <$> log_topics log !! 1%nat in
      if negb (bool_decide (s = Some seq_num)) then find_reported seq_reader logs' seq_num data_hash
      else
        let? batch := SequencerInboxReader.resolve_batch seq_reader log in
        if negb (batch_data_hash batch =? data_hash)
        then Err (L1_Missing "reported batch data_hash mismatch")
        else Ok (batch_data_stats (serialize_batch batch))
  end.

Definition stats_for_reported_batch (seq_reader : SequencerInboxReader.t)
    (l1_block seq_num data_hash : Z) : result L1Error BatchDataStats :=
  let? logs := SequencerInboxReader.batch_logs seq_reader l1_block l1_block in
  find_reported seq_reader logs seq_num data_hash.

(** The loop over the delayed messages; the report cache keeps what was fetched before an error. *)
Fixpoint seed_loop (seq_reader : SequencerInboxReader.t) (msgs : list DelayedMessage)
    (in_range : list Z) (seed : StatsMap) (report_cache : ReportStatsCache)
    : result L1Error StatsMap * ReportStatsCache :=
  match msgs with
  | [] => (Ok seed, report_cache)
  | m :: msgs' =>
      if negb (byte_eqb (dm_kind m) KIND_BATCH_POSTING_REPORT)
      then seed_loop seq_reader msgs' in_range seed report_cache
      else
        match report_data_hash (dm_data m) with
        | None => (Err (L1_Missing "report data_hash"), report_cache)
        | Some dh =>
            if existsb (Z.eqb dh) in_range || bt_contains_key dh seed
            then seed_loop seq_reader msgs' in_range seed report_cache
            else
              match bt_get dh report_cache with
              | Some stats =>
                  seed_loop seq_reader msgs' in_range (bt_insert dh stats seed) report_cache
              | None =>
                  match report_batch_num (dm_data m) with
                  | None => (Err (L1_Missing "report batch num"), report_cache)
                  | Some seq =>
                      match stats_for_reported_batch seq_reader (dm_block_number m) seq dh with
                      | Err e => (Err e, report_cache)
                      | Ok stats =>
                          seed_loop seq_reader msgs' in_range (bt_insert dh stats seed)
                            (bt_insert dh stats report_cache)
                      end
                  end
              end
        end
  end.

Definition seed_report_stats (seq_reader : SequencerInboxReader.t) (delayed : DelayedMap)
    (in_range : list Z) (report_cache : ReportStatsCache)
    : result L1Error StatsMap * ReportStatsCache :=
  seed_loop seq_reader (bt_values (delayed_map delayed)) in_range bt_empty report_cache.

(** ** The ordered tail *)

Definition record_batches (resolved : list (DeliveredBatch * bytes)) (report_cache : ReportStatsCache)
    : ReportStatsCache :=
  fold_left (fun c bp => bt_or_insert (batch_data_hash bp.1)
                           (batch_data_stats (serialize_batch bp.1)) c) resolved report_cache.

Definition derive_from_resolved_cached (seq_reader : SequencerInboxReader.t)
    (resolved : list (DeliveredBatch * bytes)) (to_block start_delayed_count window : Z)
    (delayed_cache : DelayedCache) (report_cache : ReportStatsCache)
    : result L1Error DerivedRange * DelayedCache * ReportStatsCache :=
  match last resolved with
  | None =>
      (Ok {| dr_messages := []; dr_next_delayed_count := start_delayed_count; dr_batches := 0 |},
       delayed_cache, report_cache)
  | Some (last_batch, _) =>
      let next_delayed_count := ev_after_delayed_messages_read (db_event last_batch) in
      let batches := length resolved in
      let report_cache := record_batches resolved report_cache in
      let in_range := map (fun bp => batch_data_hash bp.1) resolved in
      if next_delayed_count <=? start_delayed_count then
        (let? messages := assemble_feed_messages_with_seed resolved mkNoDelayed start_delayed_count
                            bt_empty in
         Ok {| dr_messages := messages; dr_next_delayed_count := next_delayed_count;
               dr_batches := batches |}, delayed_cache, report_cache)
      else
        match cover delayed_cache to_block start_delayed_count next_delayed_count window with
        | (Err e, delayed_cache) => (Err e, delayed_cache, report_cache)
        | (Ok delayed, delayed_cache) =>
            match seed_report_stats seq_reader delayed in_range report_cache with
            | (Err e, report_cache) => (Err e, delayed_cache, report_cache)
            | (Ok seed_stats, report_cache) =>
                (let? messages := assemble_feed_messages_with_seed resolved delayed
                                    start_delayed_count seed_stats in
                 Ok {| dr_messages := messages; dr_next_delayed_count := next_delayed_count;
                       dr_batches := batches |}, delayed_cache, report_cache)
            end
        end
  end.

Definition derive_from_resolved (seq_reader : SequencerInboxReader.t)
    (resolved : list (DeliveredBatch * bytes)) (to_block start_delayed_count window : Z)
    : result L1Error DerivedRange :=
  fst (fst (derive_from_resolved_cached seq_reader resolved to_block start_delayed_count window
              DelayedCache_new bt_empty)).

Definition derive_range (seq_reader : SequencerInboxReader.t) (beacon : option Beacon.BeaconClient)
    (from_block to_block start_delayed_count window : Z) : result L1Error DerivedRange :=
  let? resolved := resolve_batches seq_reader beacon from_block to_block in
  derive_from_resolved seq_reader resolved to_block start_delayed_count window.


(** ** Coverage against a fixed inbox *)

(** The reader shows a fixed delayed inbox: every message with the L1 block that delivered it. *)
Class InboxView (inbox : list (Z * DelayedMessage)) := {
  inbox_view : forall lo hi, 0 <= lo <= hi -> exists msgs, fetch_range lo hi = Ok msgs /\
    (forall m, In m msgs <-> exists b, In (b, m) inbox /\ lo <= b <= hi);
  inbox_unique : forall b m b' m', In (b, m) inbox -> In (b', m') inbox ->
    dm_inbox_seq_num m = dm_inbox_seq_num m' -> m = m'
}.

Section Inbox.
Context (inbox : list (Z * DelayedMessage)) {IV : InboxView inbox}.

Definition inbox_get (i : Z) : option DelayedMessage :=
  snd <$> List.find (fun bm => dm_inbox_seq_num (snd bm) =? i) inbox.

(** The messages of an index range, as a map. *)
Definition inbox_map (need_from need_to : Z) : DelayedMap :=
  from_messages (omap inbox_get (seqZ need_from (need_to - need_from))).

Lemma inbox_get_In (b : Z) (m : DelayedMessage) :
  In (b, m) inbox -> inbox_get (dm_inbox_seq_num m) = Some m.
Proof.
  intros Hin. unfold inbox_get.
  destruct (List.find _ inbox) as [[b' m']|] eqn:E.
  - apply find_some in E as [Hin' Hi%Z.eqb_eq]. cbn. f_equal. by eapply inbox_unique.
  - apply (List.find_none _ _ E) in Hin. cbn in Hin. by rewrite Z.eqb_refl in Hin.
Qed.

(** Every entry is the inbox's message of that index, delivered in a block of [P]. *)
Definition sound (P : Z -> Prop) (msgs : list (Z * DelayedMessage)) : Prop :=
  forall i m, bt_get i msgs = Some m -> dm_inbox_seq_num m = i /\ exists b, In (b, m) inbox /\ P b.

(** Every message delivered in the blocks of [P] with an index from [floor] on is an entry. *)
Definition complete (P : Z -> Prop) (floor : Z) (msgs : list (Z * DelayedMessage)) : Prop :=
  forall b m, In (b, m) inbox -> P b -> floor <= dm_inbox_seq_num m ->
    bt_get (dm_inbox_seq_num m) msgs = Some m.

Lemma insert_all_get (ms : list DelayedMessage) (acc : list (Z * DelayedMessage)) (i : Z) :
  (In i (map dm_inbox_seq_num ms) /\
   exists m, In m ms /\ dm_inbox_seq_num m = i /\ bt_get i (insert_all ms acc) = Some m) \/
  (~ In i (map dm_inbox_seq_num ms) /\ bt_get i (insert_all ms acc) = bt_get i acc).
Proof.
  unfold insert_all. set (l := map (fun m => (dm_inbox_seq_num m, m)) ms).
  assert (Hk : map fst l = map dm_inbox_seq_num ms) by (unfold l; by rewrite map_map).
  destruct (in_dec Z.eq_dec i (map dm_inbox_seq_num ms)) as [Hin|Hnot]; [left|right].
  - split; [done|]. destruct (bt_get_extend_In i l acc) as (m & Hm & Hg); [by rewrite Hk|].
    unfold l in Hm. apply in_map_iff in Hm as (m' & [= <- <-] & Hm'). eauto.
  - split; [done|]. apply bt_get_extend_notin. by rewrite Hk.
Qed.

Lemma insert_all_sound (P : Z -> Prop) (lo hi : Z) (ms : list DelayedMessage) (acc : list (Z * DelayedMessage)) :
  (forall m, In m ms <-> exists b, In (b, m) inbox /\ lo <= b <= hi) -> sound P acc ->
  sound (fun b => P b \/ lo <= b <= hi) (insert_all ms acc).
Proof.
  intros Hms Hs i m Hg. destruct (insert_all_get ms acc i) as [(_ & m' & Hm' & Hi & Hg')|[_ Hg']].
  - rewrite Hg in Hg'. injection Hg' as <-. split; [done|].
    apply Hms in Hm' as (b & Hb & Hr). exists b. auto.
  - rewrite Hg' in Hg. destruct (Hs i m Hg) as (Hi & b & Hb & HP). split; [done|]. exists b. auto.
Qed.

Lemma insert_all_complete (P : Z -> Prop) (floor lo hi : Z) (ms : list DelayedMessage)
    (acc : list (Z * DelayedMessage)) :
  (forall m, In m ms <-> exists b, In (b, m) inbox /\ lo <= b <= hi) -> complete P floor acc ->
  complete (fun b => P b \/ lo <= b <= hi) floor (insert_all ms acc).
Proof.
  intros Hms Hc b m Hin HP Hf.
  destruct (insert_all_get ms acc (dm_inbox_seq_num m)) as [(_ & m' & Hm' & Hi & ->)|[Hnot ->]].
  - apply Hms in Hm' as (b' & Hb' & _). f_equal. by eapply inbox_unique.
  - destruct HP as [HP|HP]; [by eapply Hc|]. exfalso. apply Hnot.
    apply in_map. apply Hms. by exists b.
Qed.

Lemma complete_weaken (P Q : Z -> Prop) (floor floor' : Z) (msgs : list (Z * DelayedMessage)) :
  (forall b, Q b -> P b) -> floor <= floor' -> complete P floor msgs -> complete Q floor' msgs.
Proof. intros HPQ Hf Hc b m Hin HQ Hle. apply (Hc b); auto. lia. Qed.

Lemma sound_weaken (P Q : Z -> Prop) (msgs : list (Z * DelayedMessage)) :
  (forall b, P b -> Q b) -> sound P msgs -> sound Q msgs.
Proof. intros HPQ Hs i m Hg. destruct (Hs i m Hg) as (Hi & b & Hb & HP). split; [done|]. eauto. Qed.

(** Anywhere on L1. *)
Definition anywhere (b : Z) : Prop := True.

(** How often block [b] was fetched. *)
Definition times_fetched (b : Z) (chunks : list (Z * Z)) : nat :=
  length (List.filter (fun c => (fst c <=? b) && (b <=? snd c)) chunks).

Definition within (lo hi b : Z) : bool := (lo <=? b) && (b <=? hi).

Lemma times_fetched_snoc (b lo hi : Z) (chunks : list (Z * Z)) :
  times_fetched b (chunks ++ [(lo, hi)]) = (times_fetched b chunks + Nat.b2n (within lo hi b))%nat.
Proof.
  unfold times_fetched, within. rewrite List.filter_app, length_app. cbn [List.filter fst snd].
  by destruct (_ && _).
Qed.

(** The scan of one interval: all its messages are inserted and each of its blocks is fetched
    once more. *)
Lemma scan_chunks_ok (P : Z -> Prop) (floor : Z) (fuel : nat) (lo hi window : Z) (c : DelayedCache) :
  1 <= window -> 0 <= lo <= hi -> hi - lo <= Z.of_nat fuel ->
  sound anywhere (dc_msgs c) -> complete P floor (dc_msgs c) ->
  exists c', scan_chunks fuel lo hi window c = (Ok tt, c') /\
    sound anywhere (dc_msgs c') /\ complete (fun b => P b \/ lo <= b <= hi) floor (dc_msgs c') /\
    dc_scanned_lo c' = dc_scanned_lo c /\ dc_scanned_hi c' = dc_scanned_hi c /\
    (forall b, times_fetched b (dc_fetched c') =
               (times_fetched b (dc_fetched c) + Nat.b2n (within lo hi b))%nat).
Proof.
  intros Hw. revert P hi c. induction fuel as [|fuel IH]; intros P hi c Hlo Hfuel Hs Hc.
  all: cbn [scan_chunks]; set (clo := Z.max (saturating_sub hi (window - 1)) lo);
    assert (Hclo : lo <= clo <= hi) by (unfold clo, saturating_sub; lia);
    destruct (inbox_view clo hi ltac:(lia)) as (ms & -> & Hms);
    pose proof (sound_weaken _ anywhere _ (fun _ _ => I)
      (insert_all_sound anywhere clo hi ms (dc_msgs c) Hms Hs)) as Hs';
    pose proof (insert_all_complete P floor clo hi ms (dc_msgs c) Hms Hc) as Hc'.
  - assert (clo = lo) as -> by lia. rewrite Z.eqb_refl. eexists. split; [done|]. cbn.
    split_and!; [done..|]. intros b. apply times_fetched_snoc.
  - destruct (Z.eqb_spec clo lo) as [Heq|Hne].
    { rewrite Heq in *. eexists. split; [done|]. cbn. split_and!; [done..|].
      intros b. apply times_fetched_snoc. }
    set (c1 := {| dc_msgs := insert_all ms (dc_msgs c) |}).
    destruct (IH (fun b => P b \/ clo <= b <= hi) (clo - 1) c1)
      as (c' & -> & Hs2 & Hc2 & Hl2 & Hh2 & Ht2); [lia|lia|done|done|].
    exists c'. split_and!; [done|done| |done|done|].
    + eapply complete_weaken; [|reflexivity|exact Hc2]. cbn. intros b [HP|Hb]; [auto|].
      destruct (decide (clo <= b)); [left; right; lia|right; lia].
    + intros b. rewrite Ht2. cbn [c1 dc_fetched]. rewrite times_fetched_snoc. unfold within.
      destruct (Z.leb_spec lo b), (Z.leb_spec b (clo - 1)), (Z.leb_spec clo b), (Z.leb_spec b hi);
        cbn; lia.
Qed.

(** The invariant of the cache: the scanned interval is contiguous, holds everything delivered in
    it from [floor] on, and each of its blocks was fetched exactly once, no other block ever. *)
Definition cache_inv (floor : Z) (c : DelayedCache) : Prop :=
  sound anywhere (dc_msgs c) /\
  match dc_scanned_lo c, dc_scanned_hi c with
  | Some lo, Some hi =>
      0 <= lo <= hi /\ complete (fun b => lo <= b <= hi) floor (dc_msgs c) /\
      (forall b, times_fetched b (dc_fetched c) = Nat.b2n (within lo hi b))
  | None, None => dc_fetched c = []
  | _, _ => False
  end.

(** An interval that continues the scanned one without a hole or an overlap. *)
Definition adjacent (c : DelayedCache) (lo hi : Z) : Prop :=
  match dc_scanned_lo c, dc_scanned_hi c with
  | Some l, Some h => lo = h + 1 \/ hi = l - 1
  | _, _ => True
  end.

Lemma scan_range_ok (floor lo hi window : Z) (c : DelayedCache) :
  0 <= lo <= hi -> cache_inv floor c -> adjacent c lo hi ->
  exists c', scan_range c lo hi window = (Ok tt, c') /\ cache_inv floor c' /\
    dc_scanned_lo c' = Some (match dc_scanned_lo c with None => lo | Some x => Z.min x lo end) /\
    dc_scanned_hi c' = Some (match dc_scanned_hi c with None => hi | Some x => Z.max x hi end).
Proof.
  intros Hlo [Hs Hinv] Hadj. unfold scan_range.
  set (P := fun b => match dc_scanned_lo c, dc_scanned_hi c with
                     | Some l, Some h => l <= b <= h | _, _ => False end).
  assert (Hc : complete P floor (dc_msgs c)).
  { unfold P. destruct (dc_scanned_lo c), (dc_scanned_hi c); try done; [apply Hinv|].
    by intros b m _ []. }
  destruct (scan_chunks_ok P floor (Z.to_nat (hi - lo)) lo hi (Z.max window 1) c)
    as (c1 & -> & Hs1 & Hc1 & Hl1 & Hh1 & Ht1); [lia|lia|lia|done|done|].
  eexists. split; [done|]. unfold cache_inv, adjacent in *.
  cbn [dc_msgs dc_scanned_lo dc_scanned_hi dc_fetched].
  rewrite Hl1, Hh1. unfold P in Hc1.
  destruct (dc_scanned_lo c) as [l|], (dc_scanned_hi c) as [h|]; try done.
  - destruct Hinv as (Hlh & _ & Ht). split; [|done]. split; [done|]. split; [lia|]. split.
    + eapply complete_weaken; [|reflexivity|exact Hc1]. cbn. intros b Hb. lia.
    + intros b. rewrite Ht1, Ht. unfold within.
      destruct (Z.leb_spec l b), (Z.leb_spec b h), (Z.leb_spec lo b), (Z.leb_spec b hi),
        (Z.leb_spec (Z.min l lo) b), (Z.leb_spec b (Z.max h hi)); cbn; lia.
  - split; [|done]. split; [done|]. split; [lia|]. split.
    + eapply complete_weaken; [|reflexivity|exact Hc1]. cbn. auto.
    + intros b. rewrite Ht1, Hinv. done.
Qed.

Section Needs.
Variables (need_from need_to to_block : Z).

(** Every needed message was delivered no later than [to_block]. *)
Hypothesis Hneed : forall i, need_from <= i < need_to ->
  exists b m, In (b, m) inbox /\ dm_inbox_seq_num m = i /\ 0 <= b <= to_block.

Lemma all_present_spec (acc : list (Z * DelayedMessage)) :
  all_present need_from need_to acc = true <->
  (forall i, need_from <= i < need_to -> is_Some (bt_get i acc)).
Proof.
  unfold all_present. rewrite forallb_forall. split; intros H i Hi.
  - apply bt_contains_key_spec, H, list_elem_of_In, elem_of_seqZ. lia.
  - apply bt_contains_key_spec, H. apply list_elem_of_In, elem_of_seqZ in Hi. lia.
Qed.

(** Whatever is still missing lies below the scanned interval. *)
Lemma missing_below (floor lo hi : Z) (c : DelayedCache) :
  floor <= need_from -> cache_inv floor c -> dc_scanned_lo c = Some lo ->
  dc_scanned_hi c = Some hi -> to_block <= hi -> covers c need_from need_to = false -> 0 < lo.
Proof.
  intros Hf [_ Hinv] Hl Hh Hto Hcov. rewrite Hl, Hh in Hinv. destruct Hinv as (Hlh & Hc & _).
  destruct (Z.le_gt_cases lo 0) as [Hle|]; [exfalso|done].
  assert (covers c need_from need_to = true); [|congruence].
  apply all_present_spec. intros i Hi. destruct (Hneed i Hi) as (b & m & Hin & <- & Hb).
  exists m. apply (Hc b); [done|lia|lia].
Qed.

Lemma backward_walk_ok (floor window : Z) (fuel : nat) (c : DelayedCache) (lo hi : Z) :
  1 <= window -> floor <= need_from -> cache_inv floor c -> dc_scanned_lo c = Some lo ->
  dc_scanned_hi c = Some hi -> to_block <= hi -> lo <= Z.of_nat fuel ->
  exists c', backward_walk fuel c need_from need_to window = (Ok tt, c') /\ cache_inv floor c' /\
    covers c' need_from need_to = true.
Proof.
  intros Hw Hf. revert c lo hi. induction fuel as [|fuel IH]; intros c lo hi Hi Hl Hh Hto Hfuel.
  all: cbn [backward_walk]; destruct (covers c need_from need_to) eqn:Hcov; [by exists c|].
  all: pose proof (missing_below floor lo hi c Hf Hi Hl Hh Hto Hcov) as Hpos.
  - lia.
  - rewrite Hl. destruct (Z.eqb_spec lo 0); [lia|].
    destruct (scan_range_ok floor (saturating_sub (lo - 1) (window - 1)) (lo - 1) window c)
      as (c1 & -> & Hi1 & Hl1 & Hh1); [unfold saturating_sub; lia|done| |].
    { unfold adjacent. rewrite Hl, Hh. auto. }
    rewrite Hl in Hl1. rewrite Hh in Hh1.
    eapply IH; [done|exact Hl1|exact Hh1|lia|unfold saturating_sub; lia].
Qed.

Lemma fill_cache_ok (floor window : Z) (c : DelayedCache) :
  1 <= window -> floor <= need_from -> 0 <= to_block -> cache_inv floor c ->
  exists c', fill_cache c to_block need_from need_to window = (Ok tt, c') /\ cache_inv floor c' /\
    covers c' need_from need_to = true.
Proof.
  intros Hw Hf Hto Hi. unfold fill_cache. destruct (covers c need_from need_to) eqn:Hcov; [by exists c|].
  assert (Hext : exists c1 lo hi, forward_extend c to_block window = (Ok tt, c1) /\
    cache_inv floor c1 /\ dc_scanned_lo c1 = Some lo /\ dc_scanned_hi c1 = Some hi /\ to_block <= hi).
  { pose proof Hi as [_ Hm]. unfold forward_extend.
    destruct (dc_scanned_lo c) as [l|] eqn:El, (dc_scanned_hi c) as [h|] eqn:Eh; try done.
    - destruct (Z.ltb_spec h to_block).
      + destruct (scan_range_ok floor (h + 1) to_block window c) as (c1 & -> & Hi1 & Hl1 & Hh1);
          [lia|done|unfold adjacent; rewrite El, Eh; auto|].
        rewrite El in Hl1. rewrite Eh in Hh1. eexists c1, _, _. split_and!; [done|done|exact Hl1|exact Hh1|lia].
      + by exists c, l, h.
    - destruct (scan_range_ok floor (saturating_sub to_block (window - 1)) to_block window c)
        as (c1 & -> & Hi1 & Hl1 & Hh1); [unfold saturating_sub; lia|done|unfold adjacent; by rewrite El|].
      rewrite El in Hl1. rewrite Eh in Hh1. eexists c1, _, _. split_and!; [done|done|exact Hl1|exact Hh1|lia]. }
  destruct Hext as (c1 & lo & hi & -> & Hi1 & Hl1 & Hh1 & Hge).
  eapply backward_walk_ok; [done|done|done|exact Hl1|exact Hh1|done|].
  unfold walk_fuel. rewrite Hl1. pose proof Hi1 as [_ Hm]. rewrite Hl1, Hh1 in Hm. lia.
Qed.

(** With the needs covered, the returned map is the inbox's. *)
Lemma covered_map (c : DelayedCache) :
  sound anywhere (dc_msgs c) -> covers c need_from need_to = true ->
  from_messages (omap (fun i => bt_get i (dc_msgs c)) (seqZ need_from (need_to - need_from))) =
  inbox_map need_from need_to.
Proof.
  intros Hs Hcov. unfold inbox_map. f_equal.
  assert (Heq : forall i, In i (seqZ need_from (need_to - need_from)) ->
    bt_get i (dc_msgs c) = inbox_get i).
  { intros i Hi%list_elem_of_In%elem_of_seqZ.
    destruct (proj1 (all_present_spec (dc_msgs c)) Hcov i ltac:(lia)) as [m Hm].
    destruct (Hs i m Hm) as (<- & b & Hb & _). rewrite Hm. symmetry. by apply (inbox_get_In b). }
  revert Heq. generalize (seqZ need_from (need_to - need_from)). intros l.
  induction l as [|i l IH]; intros Heq; [done|]. cbn [omap list_omap].
  rewrite (Heq i) by (by left). change (list_omap ?f ?k) with (omap f k).
  rewrite IH by (intros j Hj; apply Heq; by right). done.
Qed.

Lemma cover_ok (floor window : Z) (c : DelayedCache) :
  floor <= need_from < need_to -> 0 <= to_block -> cache_inv floor c ->
  exists c', cover c to_block need_from need_to window = (Ok (inbox_map need_from need_to), c') /\
    cache_inv need_from c'.
Proof.
  intros Hf Hto Hi. unfold cover. rewrite (proj2 (Z.leb_gt _ _)) by lia.
  destruct (fill_cache_ok floor (Z.max window 1) c) as (c1 & -> & Hi1 & Hcov); [lia|lia|done|done|].
  pose proof Hi1 as [Hs1 Hm1]. rewrite covered_map by done. eexists. split; [done|].
  unfold cache_inv. cbn [dc_msgs dc_scanned_lo dc_scanned_hi dc_fetched]. split.
  - intros i m. rewrite bt_get_retain. destruct (need_from <=? i); [apply Hs1|done].
  - destruct (dc_scanned_lo c1) as [l|], (dc_scanned_hi c1) as [h|]; try done.
    destruct Hm1 as (Hlh & Hc1 & Ht1). split; [done|]. split; [|done].
    intros b m Hin Hb Hle. rewrite bt_get_retain, (proj2 (Z.leb_le _ _)) by done.
    apply (Hc1 b); [done|done|lia].
Qed.

End Needs.
End Inbox.

(** C30. Against a fixed delayed inbox, the forward-carried cache returns exactly the messages of
    the needed index range whenever they were delivered by [to_block]: it always finds them, from
    any earlier state. Its scanned interval stays contiguous, everything delivered in it from the
    last needed index on is cached, and each of its blocks has been fetched exactly once over the
    whole sequence of calls, no other block at all. *)
Theorem cover_correct (inbox : list (Z * DelayedMessage)) (IV : InboxView inbox)
    (floor window need_from need_to to_block : Z) (c : DelayedCache) :
  cache_inv inbox floor c -> floor <= need_from < need_to -> 0 <= to_block ->
  (forall i, need_from <= i < need_to ->
     exists b m, In (b, m) inbox /\ dm_inbox_seq_num m = i /\ 0 <= b <= to_block) ->
  exists c', cover c to_block need_from need_to window =
      (Ok (inbox_map inbox need_from need_to), c') /\
    cache_inv inbox need_from c'.
Proof. intros Hi Hf Hto Hneed. by eapply cover_ok. Qed.

(** ** The one-shot scan finds the same messages *)

Section OneShot.
Context (inbox : list (Z * DelayedMessage)) {IV : InboxView inbox}.
Variables (need_from need_to to_block : Z).

(** Indices are assigned in delivery order. *)
Hypothesis Hasc : forall b m b' m', In (b, m) inbox -> In (b', m') inbox ->
  dm_inbox_seq_num m <= dm_inbox_seq_num m' -> b <= b'.
Hypothesis Hneed : forall i, need_from <= i < need_to ->
  exists b m, In (b, m) inbox /\ dm_inbox_seq_num m = i /\ 0 <= b <= to_block.
Hypothesis Hrange : need_from < need_to.

(** The state between two rounds: the blocks above [hi] have been scanned. *)
Definition scanned_above (hi : Z) (acc : list (Z * DelayedMessage)) : Prop :=
  sound inbox (fun b => hi < b <= to_block) acc /\
  complete inbox (fun b => hi < b <= to_block) need_from acc.

(** Seeing the lowest needed index means having seen all of them. *)
Lemma lowest_seen (hi : Z) (acc : list (Z * DelayedMessage)) :
  scanned_above hi acc -> bt_contains_key need_from acc = true ->
  all_present need_from need_to acc = true.
Proof.
  intros [Hs Hc] [m0 Hm0]%bt_contains_key_spec. destruct (Hs need_from m0 Hm0) as (H0 & b0 & Hb0 & Hr0).
  apply all_present_spec. intros i Hi. destruct (Hneed i Hi) as (b & m & Hin & <- & Hb).
  exists m. apply (Hc b); [done| |lia].
  pose proof (Hasc b0 m0 b m Hb0 Hin ltac:(lia)). lia.
Qed.

Lemma covering_loop_ok (fuel : nat) (hi window : Z) (acc : list (Z * DelayedMessage)) :
  1 <= window -> 0 <= hi <= to_block -> hi <= Z.of_nat fuel -> scanned_above hi acc ->
  exists acc' lo, covering_loop fuel hi need_from need_to window acc = Ok acc' /\
    scanned_above lo acc' /\ all_present need_from need_to acc' = true.
Proof.
  intros Hw. revert hi acc. induction fuel as [|fuel IH]; intros hi acc Hhi Hfuel [Hs Hc].
  all: cbn [covering_loop]; set (lo := saturating_sub hi (window - 1));
    assert (Hlo : 0 <= lo <= hi) by (unfold lo, saturating_sub; lia);
    destruct (inbox_view lo hi Hlo) as (ms & -> & Hms); cbn [rbind];
    set (acc1 := insert_all ms acc);
    assert (H1 : scanned_above (lo - 1) acc1) by
      (split; [eapply sound_weaken; [|by eapply insert_all_sound]
              |eapply complete_weaken; [|reflexivity|by eapply insert_all_complete]];
       cbn; intros b Hb; destruct (decide (hi < b)); lia).
  all: destruct (bt_contains_key need_from acc1) eqn:E1; cbn [orb];
    [by exists acc1, (lo - 1); eauto using lowest_seen|].
  all: destruct (all_present need_from need_to acc1) eqn:E2; [by exists acc1, (lo - 1)|].
  all: destruct (Z.eqb_spec lo 0) as [Hz|Hz].
  1,3: exfalso; assert (all_present need_from need_to acc1 = true); [|congruence];
    apply all_present_spec; intros i Hi; destruct (Hneed i Hi) as (b & m & Hin & <- & Hb);
    exists m; apply (proj2 H1 b); [done|lia|lia].
  - lia.
  - apply IH; [lia|lia|done].
Qed.

Lemma covering_lookup (acc : list (Z * DelayedMessage)) (lo i : Z) :
  scanned_above lo acc -> all_present need_from need_to acc = true -> bt_sorted acc ->
  need_from <= i < need_to -> ds_message (from_messages (bt_values acc)) i = inbox_get inbox i.
Proof.
  intros [Hs _] Hall Hsort Hi.
  destruct (proj1 (all_present_spec need_from need_to acc) Hall i Hi) as [m Hm].
  destruct (Hs i m Hm) as (<- & b & Hb & _). rewrite (inbox_get_In inbox b m Hb).
  pose proof (from_messages_get (bt_values acc) (dm_inbox_seq_num m)) as Hg.
  destruct (ds_message _ _) as [m'|].
  - destruct Hg as [Hin Heq]. f_equal. apply in_map_iff in Hin as ([k m''] & <- & Hin).
    cbn in Heq. apply bt_sorted_In_get in Hin; [|done]. cbn.
    destruct (Hs k m'' Hin) as (Hk & b' & Hb' & _). by eapply inbox_unique.
  - destruct Hg. apply bt_get_In in Hm. apply in_map_iff. exists m. split; [done|].
    by apply (in_map snd) in Hm.
Qed.

End OneShot.

Lemma covering_loop_sorted (fuel : nat) (hi need_from need_to window : Z)
    (acc acc' : list (Z * DelayedMessage)) :
  bt_sorted acc -> covering_loop fuel hi need_from need_to window acc = Ok acc' -> bt_sorted acc'.
Proof.
  revert hi acc. induction fuel as [|fuel IH]; intros hi acc Hs H; cbn [covering_loop] in H.
  all: apply rbind_Ok in H as (ms & _ & H);
    assert (H1 : bt_sorted (insert_all ms acc)) by (by apply bt_extend_sorted); if_inv H.
  all: try (injection H as <-; done). by eapply IH.
Qed.

(** If the bridge numbers delayed messages in delivery order and the needed ones were
    delivered by [to_block], the backward scan of [fetch_delayed_map_covering] terminates
    successfully and serves every needed index with the same message as the cache does, although
    it stops as soon as it sees the lowest one. *)
Theorem covering_agrees (inbox : list (Z * DelayedMessage)) (IV : InboxView inbox)
    (need_from need_to to_block window : Z) :
  (forall b m b' m', In (b, m) inbox -> In (b', m') inbox ->
     dm_inbox_seq_num m <= dm_inbox_seq_num m' -> b <= b') ->
  (forall i, need_from <= i < need_to ->
     exists b m, In (b, m) inbox /\ dm_inbox_seq_num m = i /\ 0 <= b <= to_block) ->
  need_from < need_to -> 0 <= to_block ->
  exists map, fetch_delayed_map_covering to_block need_from need_to window = Ok map /\
    forall i, need_from <= i < need_to -> ds_message map i = inbox_get inbox i.
Proof.
  intros Hasc Hneed Hr Hto. unfold fetch_delayed_map_covering. rewrite (proj2 (Z.leb_gt _ _)) by lia.
  destruct (covering_loop_ok inbox need_from need_to to_block Hasc Hneed (Z.to_nat to_block) to_block
    (Z.max window 1) bt_empty) as (acc & lo & Hloop & Habove & Hall); [lia|lia|lia|by split; intros ?; [|lia]|].
  rewrite Hloop. cbn [rbind]. rewrite Hall. eexists. split; [done|]. intros i Hi.
  apply (covering_lookup inbox need_from need_to to_block acc lo); try done.
  eapply covering_loop_sorted; [|exact Hloop]. constructor.
Qed.

(** ** Warm and cold caches derive the same range *)

(** The result of deriving a window does not depend on what the delayed cache has seen before:
    with any cache states left by earlier windows the messages, the next cursor, the errors and
    the report cache are the same, in particular the same as with a fresh cache. *)
Theorem derive_cache_free (inbox : list (Z * DelayedMessage)) (IV : InboxView inbox)
    (seq_reader : SequencerInboxReader.t) (resolved : list (DeliveredBatch * bytes))
    (to_block start window floor1 floor2 : Z) (c1 c2 : DelayedCache) (rc : ReportStatsCache) :
  cache_inv inbox floor1 c1 -> cache_inv inbox floor2 c2 -> floor1 <= start -> floor2 <= start ->
  0 <= to_block ->
  (forall i, start <= i < last_cursor start resolved ->
     exists b m, In (b, m) inbox /\ dm_inbox_seq_num m = i /\ 0 <= b <= to_block) ->
  let run c := derive_from_resolved_cached seq_reader resolved to_block start window c rc in
  fst (fst (run c1)) = fst (fst (run c2)) /\ snd (run c1) = snd (run c2).
Proof.
  intros H1 H2 Hf1 Hf2 Hto Hneed run. unfold run, derive_from_resolved_cached.
  destruct (last resolved) as [[batch payload]|] eqn:El; [|done].
  assert (Hcur : last_cursor start resolved = ev_after_delayed_messages_read (db_event batch)).
  { apply last_Some in El as [l' ->]. unfold last_cursor. by rewrite fold_left_app. }
  destruct (Z.leb_spec (ev_after_delayed_messages_read (db_event batch)) start); [done|].
  rewrite Hcur in Hneed.
  destruct (cover_ok inbox _ _ to_block Hneed floor1 window c1) as (c1' & -> & _); [lia|done|done|].
  destruct (cover_ok inbox _ _ to_block Hneed floor2 window c2) as (c2' & -> & _); [lia|done|done|].
  by destruct (seed_report_stats _ _ _ _) as [[]].
Qed.

(** ** Report stats *)

(** Every cached entry holds the stats of a batch with that data hash. *)
Definition stats_valid (stats : StatsMap) : Prop :=
  forall dh st, bt_get dh stats = Some st ->
    exists b, batch_data_hash b = dh /\ st = batch_data_stats (serialize_batch b).

Lemma stats_valid_insert (dh : Z) (b : DeliveredBatch) (stats : StatsMap) :
  batch_data_hash b = dh -> stats_valid stats ->
  stats_valid (bt_insert dh (batch_data_stats (serialize_batch b)) stats).
Proof.
  intros Hb Hv dh' st. destruct (decide (dh' = dh)) as [->|Hne].
  - rewrite bt_get_insert_eq. intros [= <-]. by exists b.
  - rewrite bt_get_insert_ne by done. apply Hv.
Qed.

Lemma record_batches_valid (resolved : list (DeliveredBatch * bytes)) (rc : ReportStatsCache) :
  stats_valid rc -> stats_valid (record_batches resolved rc).
Proof.
  revert rc. induction resolved as [|[b p] resolved IH]; intros rc Hv; [done|].
  apply IH. unfold bt_or_insert. cbn [fst].
  destruct (bt_get (batch_data_hash b) rc); [done|]. by apply stats_valid_insert.
Qed.

Lemma stats_for_reported_batch_valid (r : SequencerInboxReader.t) (l1_block seq dh : Z) (st : BatchDataStats) :
  stats_for_reported_batch r l1_block seq dh = Ok st ->
  exists b, batch_data_hash b = dh /\ st = batch_data_stats (serialize_batch b).
Proof.
  unfold stats_for_reported_batch. intros H. apply rbind_Ok in H as (logs & _ & H).
  induction logs as [|log logs IH]; [done|]. cbn [find_reported] in H.
  destruct (negb (bool_decide _)); [by apply IH|].
  apply rbind_Ok in H as (b & _ & H). destruct (Z.eqb_spec (batch_data_hash b) dh); [|done].
  injection H as <-. by exists b.
Qed.

Lemma seed_loop_valid (r : SequencerInboxReader.t) (msgs : list DelayedMessage) (in_range : list Z)
    (seed : StatsMap) (rc : ReportStatsCache) :
  stats_valid seed -> stats_valid rc ->
  let '(res, rc') := seed_loop r msgs in_range seed rc in
  stats_valid rc' /\ match res with Ok seed' => stats_valid seed' | Err _ => True end.
Proof.
  revert seed rc. induction msgs as [|m msgs IH]; intros seed rc Hs Hr; [done|].
  cbn [seed_loop]. destruct (negb _); [by apply IH|].
  destruct (report_data_hash (dm_data m)) as [dh|]; [|done].
  destruct (orb _ _); [by apply IH|].
  destruct (bt_get dh rc) as [st|] eqn:Eg.
  - destruct (Hr dh st Eg) as (b & Hb & ->). apply IH; [|done]. by apply stats_valid_insert.
  - destruct (report_batch_num (dm_data m)) as [seq|]; [|done].
    destruct (stats_for_reported_batch r (dm_block_number m) seq dh) as [st|] eqn:Es; [|done].
    apply stats_for_reported_batch_valid in Es as (b & Hb & ->).
    apply IH; by apply stats_valid_insert.
Qed.

(** A report carries the stats of a batch with the hash in its body; nothing else has stats. *)
Definition report_valid (f : BroadcastFeedMessage) : Prop :=
  let l1 := fm_l1_incoming_message f in
  if byte_eqb (fh_kind (fl_header l1)) KIND_BATCH_POSTING_REPORT
  then exists body b, fl_l2msg l1 = base64_encode body /\
    report_data_hash body = Some (batch_data_hash b) /\
    fl_batch_data_stats l1 = Some (batch_data_stats (serialize_batch b))
  else fl_batch_data_stats l1 = None.

Lemma report_ok_valid (resolved : list (DeliveredBatch * bytes)) (seed : StatsMap)
    (fs : list BroadcastFeedMessage) :
  stats_valid seed -> Forall (report_ok resolved seed) fs -> Forall report_valid fs.
Proof.
  intros Hs. apply List.Forall_impl. intros f. unfold report_ok, report_valid.
  destruct (byte_eqb _ _); [|done].
  intros (body & dh & st & Hb & Hdh & Hst & [(b & p & _ & Hh & ->)|Hg]).
  - exists body, b. by rewrite Hh.
  - destruct (Hs dh st Hg) as (b & Hh & ->). exists body, b. by rewrite Hh.
Qed.

(** Every batch posting report of a derived window carries the length and non-zero count of a
    batch whose serialization hashes to the data hash in the report's body, whether that batch is
    in the window, in the report cache or fetched from L1, and no other message carries stats;
    the report cache left behind, also after an error, holds only such entries. *)
Theorem derive_reports_valid (seq_reader : SequencerInboxReader.t)
    (resolved : list (DeliveredBatch * bytes)) (to_block start window : Z) (dc : DelayedCache)
    (rc : ReportStatsCache) :
  stats_valid rc ->
  let '(res, _, rc') := derive_from_resolved_cached seq_reader resolved to_block start window dc rc in
  stats_valid rc' /\
  match res with Ok r => Forall report_valid (dr_messages r) | Err _ => True end.
Proof.
  intros Hv. unfold derive_from_resolved_cached.
  destruct (last resolved) as [[batch payload]|]; [|by split; [|constructor]].
  pose proof (record_batches_valid resolved rc Hv) as Hrec.
  destruct (_ <=? _).
  - split; [done|]. destruct (assemble_feed_messages_with_seed _ _ _ _) as [fs|] eqn:Ea; [|done].
    cbn [rbind dr_messages]. apply assembled_reports in Ea. by eapply report_ok_valid; [|exact Ea].
  - destruct (cover _ _ _ _ _) as [[delayed|e] dc']; [|done]. unfold seed_report_stats.
    pose proof (seed_loop_valid seq_reader (bt_values (delayed_map delayed))
      (map (fun bp => batch_data_hash bp.1) resolved) bt_empty (record_batches resolved rc)) as Hseed.
    destruct (seed_loop _ _ _ _ _) as [[seed|e] rc']; (destruct Hseed as [Hr' Hs']; [done|done|]);
      split; try done.
    destruct (assemble_feed_messages_with_seed _ _ _ _) as [fs|] eqn:Ea; [|done].
    cbn [rbind dr_messages]. apply assembled_reports in Ea. by eapply report_ok_valid; [|exact Ea].
Qed.

End Cover.
End Range.

(** ** Witnesses: an inbox with two messages, delivered at blocks 3 and 7 *)

Definition sample_inbox : list (Z * DelayedMessage) := [(3, sample_delayed 0); (7, sample_delayed 1)].

Definition sample_fetch : DelayedFetch := {|
  fetch_range lo hi := Ok (map snd (List.filter (fun bm => within lo hi (fst bm)) sample_inbox))
|}.

#[export] Instance sample_view : InboxView (DF := sample_fetch) sample_inbox.
Proof.
  split.
  - intros lo hi Hlo. eexists. split; [reflexivity|]. intros m. rewrite in_map_iff. split.
    + intros ([b m'] & <- & [Hin Hw]%filter_In). exists b. split; [done|].
      unfold within in Hw. cbn [fst] in Hw. lia.
    + intros (b & Hin & Hb). exists (b, m). split; [done|]. apply filter_In. split; [done|].
      unfold within. cbn [fst]. lia.
  - intros b m b' m' [H|[H|H]] [H'|[H'|H']]; try done; injection H as <- <-;
      injection H' as <- <-; done.
Defined.

Lemma sample_needed (i : Z) :
  0 <= i < 2 -> exists b m, In (b, m) sample_inbox /\ dm_inbox_seq_num m = i /\ 0 <= b <= 10.
Proof.
  intros Hi. assert (i = 0 \/ i = 1) as [-> | ->] by lia.
  - exists 3, (sample_delayed 0). split; [by left|]. cbn. lia.
  - exists 7, (sample_delayed 1). split; [right; by left|]. cbn. lia.
Qed.

Lemma fresh_cache_inv : cache_inv sample_inbox 0 DelayedCache_new.
Proof. by split. Qed.

Lemma cover_correct_witness :
  exists c', cover (DF := sample_fetch) DelayedCache_new 10 0 2 4 =
      (Ok (inbox_map sample_inbox 0 2), c') /\ cache_inv sample_inbox 0 c'.
Proof.
  apply (cover_correct (DF := sample_fetch) sample_inbox sample_view 0 4 0 2 10 DelayedCache_new
           fresh_cache_inv).
  - lia.
  - lia.
  - apply sample_needed.
Defined.

Lemma covering_agrees_witness :
  exists map, fetch_delayed_map_covering (DF := sample_fetch) 10 0 2 4 = Ok map /\
    forall i, 0 <= i < 2 -> ds_message map i = inbox_get sample_inbox i.
Proof.
  apply (covering_agrees (DF := sample_fetch) sample_inbox sample_view 0 2 10 4).
  - intros b m b' m' [H|[H|H]] [H'|[H'|H']]; try done; injection H as <- <-;
      injection H' as <- <-; cbn; lia.
  - apply sample_needed.
  - lia.
  - lia.
Defined.

Definition warm_cache : DelayedCache :=
  snd (cover (DF := sample_fetch) DelayedCache_new 10 0 2 4).

Lemma warm_cache_inv : cache_inv sample_inbox 0 warm_cache.
Proof.
  destruct (cover_ok (DF := sample_fetch) sample_inbox 0 2 10 sample_needed 0 4 DelayedCache_new)
    as (c & Hc & Hi); [lia|lia|apply fresh_cache_inv|]. unfold warm_cache. by rewrite Hc.
Qed.

Definition sample_derive (c : DelayedCache) :=
  derive_from_resolved_cached (KC := Reference.keccak) (RLP := Reference.rlp)
    (BR := Reference.brotli) (ABI := Reference.sol_abi) (B64 := Reference.base64)
    (PR := sample_provider) (DF := sample_fetch) SequencerInboxReader.mainnet sample_run 10 0 4 c
    bt_empty.

Lemma derive_cache_free_witness :
  fst (fst (sample_derive DelayedCache_new)) = fst (fst (sample_derive warm_cache)) /\
  is_ok (fst (fst (sample_derive warm_cache))) = true.
Proof.
  split; [|vm_compute; reflexivity].
  refine (proj1 (derive_cache_free (DF := sample_fetch) sample_inbox sample_view
    SequencerInboxReader.mainnet sample_run 10 0 4 0 0 DelayedCache_new warm_cache bt_empty
    fresh_cache_inv warm_cache_inv _ _ _ _)).
  - lia.
  - lia.
  - lia.
  - apply sample_needed.
Defined.

Lemma derive_reports_valid_witness :
  let '(res, _, rc') := sample_derive warm_cache in
  stats_valid (KC := Reference.keccak) rc' /\
  match res with
  | Ok r => Forall (report_valid (KC := Reference.keccak) (B64 := Reference.base64)) (dr_messages r)
  | Err _ => True
  end.
Proof.
  apply (derive_reports_valid (KC := Reference.keccak) (RLP := Reference.rlp)
    (BR := Reference.brotli) (ABI := Reference.sol_abi) (B64 := Reference.base64)
    (PR := sample_provider) (DF := sample_fetch) SequencerInboxReader.mainnet sample_run 10 0 4
    warm_cache bt_empty).
  intros dh st. done.
Defined.

Lemma resolve_batches_ordered_witness :
  exists fetched logs,
    SequencerInboxReader.batch_logs (PR := sample_provider) (ABI := Reference.sol_abi)
      SequencerInboxReader.mainnet 0 9 = Ok fetched /\
    Permutation logs fetched /\ StronglySorted (le_key log_key) logs /\
    Forall2 (fun log bp => resolve_one (RLP := Reference.rlp) (PR := sample_provider)
      (ABI := Reference.sol_abi) (API := Beacon.sample_api) SequencerInboxReader.mainnet None log = Ok bp)
      logs [].
Proof.
  apply (resolve_batches_ordered (RLP := Reference.rlp) (PR := sample_provider)
           (ABI := Reference.sol_abi) (API := Beacon.sample_api)).
  reflexivity.
Defined.
