(* ===== verification/Resume.v ===== *)
(** * The L1-derivation resume log

    [crates/arb-reth-sync/src/resume.rs]: the log of derivation boundaries, dense at its recent
    end and compacted to one boundary per 100 000 L2 blocks before, with its crash-safe
    replacement on disk. [serde_json] is the class [ResumeJson]; the file system is the part of
    [std::fs] the code uses, with what survives a power loss. *)

From Stdlib Require Import Strings.Byte Strings.String Sorted.
From stdpp Require Import base list numbers option strings gmap.
From S2P Require Import Prelude FileSystem.

Definition RECENT_CHECKPOINTS : nat := 128.
Definition HISTORICAL_CHECKPOINT_L2_INTERVAL : Z := 100000.

Record L1ResumeCheckpoint := { l1_block : Z; delayed_count : Z; l2_block : Z }.

#[export] Instance checkpoint_eq_dec : EqDecision L1ResumeCheckpoint.
Proof. solve_decision. Defined.

(** [L1ResumeLog]: its [checkpoints]. *)
Abbreviation L1ResumeLog := (list L1ResumeCheckpoint).

Definition resume_for (log : L1ResumeLog) (target : Z) : option L1ResumeCheckpoint :=
  List.find (fun cp => l2_block cp <=? target) (rev log).

(** The first boundary of each run of equal buckets. *)
Fixpoint keep_earliest (last_bucket : option Z) (l : L1ResumeLog) : L1ResumeLog :=
  match l with
  | [] => []
  | cp :: l' =>
      let bucket := l2_block cp / HISTORICAL_CHECKPOINT_L2_INTERVAL in
      if bool_decide (last_bucket = Some bucket) then keep_earliest last_bucket l'
      else cp :: keep_earliest (Some bucket) l'
  end.

Definition compact_history (log : L1ResumeLog) : L1ResumeLog :=
  if (length log <? RECENT_CHECKPOINTS)%nat then log
  else
    let recent_start := (length log - RECENT_CHECKPOINTS)%nat in
    if (recent_start =? 0)%nat then log
    else keep_earliest None (take recent_start log) ++ drop recent_start log.

(** The push-or-replace of [record]. *)
Definition append_boundary (log : L1ResumeLog) (cp : L1ResumeCheckpoint) : L1ResumeLog :=
  match last log with
  | Some l => if l2_block l =? l2_block cp then removelast log ++ [cp] else log ++ [cp]
  | None => [cp]
  end.

Definition record (log : L1ResumeLog) (cp : L1ResumeCheckpoint) : L1ResumeLog :=
  compact_history (append_boundary log cp).

Definition truncate_to (log : L1ResumeLog) (target : Z)
    : option L1ResumeCheckpoint * L1ResumeLog :=
  let log := List.filter (fun cp => l2_block cp <=? target) log in
  (last log, log).

(** [windows(2).any(|pair| pair[0].l2_block >= pair[1].l2_block)], negated. *)
Fixpoint strictly_ascending (log : L1ResumeLog) : bool :=
  match log with
  | a :: (b :: _) as rest => (l2_block a <? l2_block b) && strictly_ascending rest
  | _ => true
  end.

(** ** Ascending logs *)

Definition below (a b : L1ResumeCheckpoint) : Prop := l2_block a < l2_block b.
Definition ascending (log : L1ResumeLog) : Prop := StronglySorted below log.

Lemma ascending_check (log : L1ResumeLog) : strictly_ascending log = true <-> ascending log.
Proof.
  split.
  - intros H. apply Sorted_StronglySorted; [intros a b c; unfold below; lia|].
    induction log as [|a log IH]; [constructor|]. destruct log as [|b log]; [repeat constructor|].
    cbn [strictly_ascending] in H. apply andb_prop in H as [H1 H2].
    constructor; [by apply IH|]. constructor. unfold below. lia.
  - induction 1 as [|a log Hl IH Hall]; [done|]. destruct log as [|b log]; [done|].
    cbn [strictly_ascending]. inversion Hall; subst. unfold below in *. apply andb_true_intro.
    split; [lia|done].
Qed.

Lemma ascending_app (l k : L1ResumeLog) :
  ascending (l ++ k) <->
  ascending l /\ ascending k /\ (forall a b, In a l -> In b k -> below a b).
Proof.
  unfold ascending. induction l as [|a l IH]; cbn [app].
  - split; [intros H; split_and!; [constructor|done|done]|tauto].
  - split.
    + intros H. inversion H as [|? ? Hs Hf]; subst. apply IH in Hs as (Hl & Hk & Hlk).
      apply Forall_app in Hf as [Hf1 Hf2]. split_and!; [by constructor|done|].
      intros x y [<-|Hx] Hy; [by eapply List.Forall_forall in Hf2|auto].
    + intros (Hl & Hk & Hlk). inversion Hl as [|? ? Hs Hf]; subst. constructor.
      * apply IH. split_and!; [done|done|]. intros x y Hx Hy. apply Hlk; [by right|done].
      * apply Forall_app. split; [done|]. apply List.Forall_forall. intros y Hy. apply Hlk; [by left|done].
Qed.

Lemma keep_earliest_In (lb : option Z) (l : L1ResumeLog) (cp : L1ResumeCheckpoint) :
  In cp (keep_earliest lb l) -> In cp l.
Proof.
  revert lb. induction l as [|a l IH]; intros lb; [done|]. cbn [keep_earliest].
  case_bool_decide; [intros H1; right; eauto|]. intros [<-|H1]; [by left|right; eauto].
Qed.

Lemma keep_earliest_ascending (lb : option Z) (l : L1ResumeLog) :
  ascending l -> ascending (keep_earliest lb l).
Proof.
  intros Hl. revert lb. induction Hl as [|a l Hl IH Hall]; intros lb; [constructor|].
  cbn [keep_earliest]. case_bool_decide; [apply IH|]. constructor; [apply IH|].
  apply List.Forall_forall. intros b Hb%keep_earliest_In. by eapply List.Forall_forall in Hall.
Qed.

Definition bucket (cp : L1ResumeCheckpoint) : Z := l2_block cp / HISTORICAL_CHECKPOINT_L2_INTERVAL.

(** Every dropped boundary has an earlier one of its bucket in what is kept. *)
Lemma keep_earliest_covers (l : L1ResumeLog) (lb : option Z) (cp : L1ResumeCheckpoint) :
  ascending l -> In cp l -> lb <> Some (bucket cp) ->
  exists e, In e (keep_earliest lb l) /\ l2_block e <= l2_block cp /\ bucket e = bucket cp.
Proof.
  intros Hl. revert lb. induction Hl as [|a l Hl IH Hall]; intros lb; [done|].
  intros Hin Hlb. cbn [keep_earliest]. fold (bucket a).
  assert (Ha : In cp l -> l2_block a <= l2_block cp).
  { intros Hc. eapply List.Forall_forall in Hall; [|exact Hc]. unfold below in Hall. lia. }
  case_bool_decide as Hb.
  - destruct Hin as [<-|Hin]; [done|]. by apply IH.
  - destruct (decide (bucket a = bucket cp)) as [Heq|Hne].
    + exists a. split; [by left|]. split; [|done]. destruct Hin as [<-|Hin]; [lia|auto].
    + destruct Hin as [<-|Hin]; [done|]. destruct (IH (Some (bucket a))) as (e & He & Hle & Hbe);
        [done|congruence|]. exists e. split; [by right|done].
Qed.

Lemma compact_split (log : L1ResumeLog) :
  exists old recent, log = old ++ recent /\ (length recent <= RECENT_CHECKPOINTS)%nat /\
    ((length log <= RECENT_CHECKPOINTS)%nat -> old = []) /\
    ((RECENT_CHECKPOINTS <= length log)%nat -> length recent = RECENT_CHECKPOINTS) /\
    compact_history log = keep_earliest None old ++ recent.
Proof.
  unfold compact_history. destruct (Nat.ltb_spec (length log) RECENT_CHECKPOINTS).
  { exists [], log. split_and!; [done|lia|done|lia|done]. }
  destruct (Nat.eqb_spec (length log - RECENT_CHECKPOINTS) 0).
  { exists [], log. split_and!; [done|lia|done|lia|done]. }
  exists (take (length log - RECENT_CHECKPOINTS) log), (drop (length log - RECENT_CHECKPOINTS) log).
  split_and!; [by rewrite take_drop|rewrite length_drop; lia|lia|rewrite length_drop; lia|done].
Qed.

Lemma compact_ascending (log : L1ResumeLog) : ascending log -> ascending (compact_history log).
Proof.
  destruct (compact_split log) as (old & recent & -> & _ & _ & _ & ->).
  rewrite !ascending_app. intros (Ho & Hr & Hor). split_and!; [by apply keep_earliest_ascending|done|].
  intros a b Ha%keep_earliest_In. by apply Hor.
Qed.

Lemma compact_In (log : L1ResumeLog) (cp : L1ResumeCheckpoint) :
  In cp (compact_history log) -> In cp log.
Proof.
  destruct (compact_split log) as (old & recent & -> & _ & _ & _ & ->).
  rewrite !in_app_iff. intros [H%keep_earliest_In|H]; auto.
Qed.

Lemma compact_covers (log : L1ResumeLog) (cp : L1ResumeCheckpoint) :
  ascending log -> In cp log ->
  exists e, In e (compact_history log) /\ l2_block e <= l2_block cp /\ bucket e = bucket cp.
Proof.
  destruct (compact_split log) as (old & recent & -> & _ & _ & _ & ->).
  rewrite ascending_app. intros (Ho & _) [Hin|Hin]%in_app_iff.
  - destruct (keep_earliest_covers old None cp Ho Hin) as (e & He & Hle & Hb); [done|].
    exists e. rewrite in_app_iff. auto.
  - exists cp. rewrite in_app_iff. auto with lia.
Qed.

(** ** One boundary *)

Lemma append_boundary_shape (log : L1ResumeLog) (cp : L1ResumeCheckpoint) :
  ascending log -> (forall l, last log = Some l -> l2_block l <= l2_block cp) ->
  exists pre, append_boundary log cp = pre ++ [cp] /\
    (log = pre \/ exists l, log = pre ++ [l] /\ l2_block l = l2_block cp) /\
    (forall a, In a pre -> below a cp).
Proof.
  intros Hasc Hlast. unfold append_boundary. destruct log as [|l log _] using rev_ind.
  { exists []. split_and!; [done|by left|done]. }
  rewrite last_snoc in *. apply ascending_app in Hasc as (Hl & _ & Hbel).
  specialize (Hlast l eq_refl). destruct (Z.eqb_spec (l2_block l) (l2_block cp)) as [Heq|Hne].
  - rewrite removelast_last. exists log. split_and!; [done|right; by exists l|].
    intros a Ha. specialize (Hbel a l Ha (or_introl eq_refl)). unfold below in *. lia.
  - exists (log ++ [l]). split_and!; [done|by left|].
    intros a [Ha|[<-|[]]]%in_app_iff; [|unfold below; lia].
    specialize (Hbel a l Ha (or_introl eq_refl)). unfold below in *. lia.
Qed.

Lemma append_ascending (log : L1ResumeLog) (cp : L1ResumeCheckpoint) :
  ascending log -> (forall l, last log = Some l -> l2_block l <= l2_block cp) ->
  ascending (append_boundary log cp).
Proof.
  intros Hasc Hlast. destruct (append_boundary_shape log cp Hasc Hlast) as (pre & -> & Hpre & Hb).
  apply ascending_app. split_and!.
  - destruct Hpre as [<-|(l & -> & _)]; [done|].
    by apply ascending_app in Hasc as [Hasc _].
  - repeat constructor.
  - intros a b Ha Hc. destruct Hc as [<-|Hc]; [by apply Hb|done].
Qed.

(** ** A whole history of boundaries *)

Definition record_all (cps : list L1ResumeCheckpoint) : L1ResumeLog := fold_left record cps [].

(** Boundaries as the sync produces them: [l2_block] never decreases. *)
Definition produced (cps : list L1ResumeCheckpoint) : Prop :=
  StronglySorted (fun a b => l2_block a <= l2_block b) cps.

Definition log_inv (cps : list L1ResumeCheckpoint) (log : L1ResumeLog) : Prop :=
  ascending log /\ last log = last cps /\ (forall cp, In cp log -> In cp cps) /\
  (forall cp, In cp cps -> exists e, In e log /\ l2_block e <= l2_block cp /\ bucket e = bucket cp).

Lemma compact_last (log : L1ResumeLog) (cp : L1ResumeCheckpoint) :
  last (compact_history (log ++ [cp])) = Some cp.
Proof.
  destruct (compact_split (log ++ [cp])) as (old & recent & Heq & _ & Hsmall & Hfull & ->).
  destruct recent as [|r recent _] using rev_ind.
  - exfalso. rewrite app_nil_r in Heq. subst old.
    destruct (decide (RECENT_CHECKPOINTS <= length (log ++ [cp]))%nat) as [Hl|Hl].
    + specialize (Hfull Hl). unfold RECENT_CHECKPOINTS in Hfull. cbn in Hfull. lia.
    + destruct (app_cons_not_nil log [] cp). symmetry. apply Hsmall. lia.
  - rewrite app_assoc in Heq. apply app_inj_2 in Heq as [_ [= <-]]; [|done].
    by rewrite app_assoc, last_snoc.
Qed.

Lemma produced_snoc (cps : list L1ResumeCheckpoint) (cp : L1ResumeCheckpoint) :
  produced (cps ++ [cp]) -> produced cps /\ (forall a, In a cps -> l2_block a <= l2_block cp).
Proof.
  unfold produced. induction cps as [|a cps IH]; cbn [app]; [split; [constructor|done]|].
  intros H. inversion H as [|? ? Hs Hf]; subst. destruct (IH Hs) as [H1 H2].
  apply Forall_app in Hf as [Hf1 Hf2]. inversion Hf2; subst.
  split; [by constructor|]. intros b [<-|Hb]; [done|auto].
Qed.

Lemma record_inv (cps : list L1ResumeCheckpoint) (cp : L1ResumeCheckpoint) (log : L1ResumeLog) :
  produced (cps ++ [cp]) -> log_inv cps log -> log_inv (cps ++ [cp]) (record log cp).
Proof.
  intros [_ Hle]%produced_snoc (Hasc & Hlast & Hin & Hcov).
  assert (Hl : forall l, last log = Some l -> l2_block l <= l2_block cp).
  { intros l Hll. apply Hle. rewrite Hlast in Hll. apply last_Some_elem_of, list_elem_of_In in Hll. done. }
  destruct (append_boundary_shape log cp Hasc Hl) as (pre & Happ & Hpre & Hbel).
  pose proof (append_ascending log cp Hasc Hl) as Hasc'.
  assert (Hpre_in : forall a, In a pre -> In a log).
  { intros a Ha. destruct Hpre as [->|(l & -> & _)]; [done|]. apply in_app_iff. auto. }
  unfold log_inv, record. split_and!.
  - by apply compact_ascending.
  - rewrite Happ. rewrite compact_last, last_snoc. done.
  - intros a Ha%compact_In. rewrite Happ in Ha. apply in_app_iff. apply in_app_iff in Ha as [Ha|Ha]; [|auto].
    left. auto.
  - intros a Ha. assert (Hx : exists x, In x (append_boundary log cp) /\ l2_block x <= l2_block a /\ bucket x = bucket a).
    { apply in_app_iff in Ha as [Ha|[<-|[]]].
      - destruct (Hcov a Ha) as (e & He & Hle' & Hb). rewrite Happ.
        destruct Hpre as [<-|(l & -> & Heq)]; [exists e; rewrite in_app_iff; auto|].
        apply in_app_iff in He as [He|[<-|[]]]; [exists e; rewrite in_app_iff; auto|].
        exists cp. rewrite in_app_iff. unfold bucket in *. rewrite <- Heq. cbn. auto.
      - exists cp. rewrite Happ, in_app_iff. cbn. auto with lia. }
    destruct Hx as (x & Hx & Hle1 & Hb1). destruct (compact_covers _ x Hasc' Hx) as (e & He & Hle2 & Hb2).
    exists e. split_and!; [done|lia|congruence].
Qed.

Lemma record_all_inv (cps : list L1ResumeCheckpoint) : produced cps -> log_inv cps (record_all cps).
Proof.
  unfold record_all. induction cps as [|cp cps IH] using rev_ind; intros Hp.
  - split_and!; [constructor|done|done|done].
  - rewrite fold_left_app. cbn [fold_left]. apply record_inv; [done|].
    apply IH. by apply produced_snoc in Hp as [Hp _].
Qed.

(** ** Lookup *)

Lemma resume_for_spec (log : L1ResumeLog) (t : Z) :
  ascending log ->
  match resume_for log t with
  | Some cp => In cp log /\ l2_block cp <= t /\
      (forall cp', In cp' log -> l2_block cp' <= t -> l2_block cp' <= l2_block cp)
  | None => forall cp, In cp log -> t < l2_block cp
  end.
Proof.
  unfold resume_for. induction log as [|a log IH] using rev_ind; intros Hasc; [intros cp []|].
  apply ascending_app in Hasc as (Hl & _ & Hb). rewrite rev_app_distr. cbn [rev app List.find].
  specialize (IH Hl). destruct (Z.leb_spec (l2_block a) t) as [Ha|Ha].
  - split_and!; [apply in_app_iff; cbn; auto|done|].
    intros cp' [Hc|[<-|[]]]%in_app_iff _; [|lia]. specialize (Hb cp' a Hc (or_introl eq_refl)).
    unfold below in Hb. lia.
  - destruct (List.find _ (rev log)) as [cp|].
    + destruct IH as (H1 & H2 & H3). split_and!; [apply in_app_iff; auto|done|].
      intros cp' [Hc|[<-|[]]]%in_app_iff Hle; [auto|lia].
    + intros cp' [Hc|[<-|[]]]%in_app_iff; [auto|lia].
Qed.

Lemma same_bucket_close (a b : L1ResumeCheckpoint) :
  l2_block a <= l2_block b -> bucket a = bucket b ->
  l2_block b - l2_block a < HISTORICAL_CHECKPOINT_L2_INTERVAL.
Proof. unfold bucket, HISTORICAL_CHECKPOINT_L2_INTERVAL. intros H1 H2. Z.div_mod_to_equations. lia. Qed.

(** However many boundaries the sync records, in its order and with repeats, the log stays
    strictly ascending and ends in the newest one, and for every boundary ever recorded and every
    target at or above it the log still offers a recorded boundary at or below the target that lies
    less than 100 000 L2 blocks before that boundary: compaction never loses a safe resume point
    and bounds the re-derivation. *)
Theorem resume_after_compaction (cps : list L1ResumeCheckpoint) (cp : L1ResumeCheckpoint) (t : Z) :
  produced cps -> In cp cps -> l2_block cp <= t ->
  strictly_ascending (record_all cps) = true /\ last (record_all cps) = last cps /\
  exists r, resume_for (record_all cps) t = Some r /\ In r cps /\ l2_block r <= t /\
    l2_block cp - l2_block r < HISTORICAL_CHECKPOINT_L2_INTERVAL.
Proof.
  intros Hp Hin Ht. destruct (record_all_inv cps Hp) as (Hasc & Hlast & Hsub & Hcov).
  split; [by apply ascending_check|]. split; [done|].
  destruct (Hcov cp Hin) as (e & He & Hle & Hb). pose proof (resume_for_spec _ t Hasc) as Hs.
  destruct (resume_for _ t) as [r|].
  - destruct Hs as (Hr & Hrt & Hmax). exists r. split_and!; [done|auto|done|].
    pose proof (Hmax e He ltac:(lia)). pose proof (same_bucket_close e cp Hle Hb). lia.
  - specialize (Hs e He). lia.
Qed.

(** ** Size *)

Lemma keep_earliest_length (l : L1ResumeLog) (lb : option Z) (m M : Z) :
  ascending l -> (forall cp, In cp l -> m <= bucket cp <= M) ->
  (forall b, lb = Some b -> forall cp, In cp l -> b <= bucket cp) ->
  Z.of_nat (length (keep_earliest lb l)) <= Z.max 0 (M - match lb with Some b => Z.max m (b + 1) | None => m end + 1).
Proof.
  intros Hl. revert lb m. induction Hl as [|a l Hl IH Hall]; intros lb m Hm Hlb; [cbn [keep_earliest length]; lia|].
  cbn [keep_earliest]. fold (bucket a).
  assert (Hmono : forall cp, In cp l -> bucket a <= bucket cp).
  { intros cp Hc. eapply List.Forall_forall in Hall; [|exact Hc]. unfold below in Hall.
    unfold bucket, HISTORICAL_CHECKPOINT_L2_INTERVAL. apply Z.div_le_mono; lia. }
  pose proof (Hm a (or_introl eq_refl)) as Ha.
  case_bool_decide as Hb.
  - apply IH; [intros; apply Hm; by right|]. intros b Hbb cp Hc. apply (Hlb b Hbb). by right.
  - cbn [length]. specialize (IH (Some (bucket a)) m (fun cp Hc => Hm cp (or_intror Hc))).
    assert (Hlb' : match lb with Some b => Z.max m (b + 1) | None => m end <= bucket a).
    { destruct lb as [b|]; [|lia]. specialize (Hlb b eq_refl a (or_introl eq_refl)).
      assert (b <> bucket a) by congruence. lia. }
    assert (Hih : forall b, Some (bucket a) = Some b -> forall cp, In cp l -> b <= bucket cp).
    { intros b [= <-] cp Hc. by apply Hmono. }
    specialize (IH Hih). lia.
Qed.

(** The log stays bounded: at most the 128 recent boundaries plus one per 100 000-block bucket
    between the first and the last recorded L2 block. *)
Theorem record_bounded (log : L1ResumeLog) (m M : Z) :
  ascending log -> m <= M -> (forall cp, In cp log -> m <= bucket cp <= M) ->
  Z.of_nat (length (compact_history log)) <= Z.of_nat RECENT_CHECKPOINTS + (M - m + 1).
Proof.
  intros Hasc HmM Hm. destruct (compact_split log) as (old & recent & -> & Hr & _ & _ & ->).
  apply ascending_app in Hasc as (Ho & _ & _). rewrite length_app.
  pose proof (keep_earliest_length old None m M Ho) as Hk.
  specialize (Hk (fun cp Hc => Hm cp (proj2 (in_app_iff _ _ _) (or_introl Hc)))).
  specialize (Hk ltac:(done)). cbn in Hk. lia.
Qed.

(** ** Rewind *)

Lemma last_filter (log : L1ResumeLog) (t : Z) :
  last (List.filter (fun cp => l2_block cp <=? t) log) = resume_for log t.
Proof.
  unfold resume_for. induction log as [|a log IH] using rev_ind; [done|].
  rewrite List.filter_app, rev_app_distr. cbn [List.filter rev app List.find].
  destruct (l2_block a <=? t); [by rewrite last_snoc|]. by rewrite app_nil_r.
Qed.

Lemma filter_ascending (log : L1ResumeLog) (f : L1ResumeCheckpoint -> bool) :
  ascending log -> ascending (List.filter f log).
Proof.
  induction 1 as [|a log Hl IH Hall]; [constructor|]. cbn [List.filter]. destruct (f a); [|done].
  constructor; [done|]. apply List.Forall_forall. intros b [Hb _]%filter_In. by eapply List.Forall_forall in Hall.
Qed.

(** A boundary of the log is the last one at or below its own block. *)
Lemma last_filter_In (log : L1ResumeLog) (cp : L1ResumeCheckpoint) :
  ascending log -> In cp log -> last (List.filter (fun c => l2_block c <=? l2_block cp) log) = Some cp.
Proof.
  intros Ha Hin. apply in_split in Hin as (l1 & l2 & ->). apply ascending_app in Ha as (_ & Ha & _).
  inversion Ha as [|? ? _ Hf]; subst. rewrite List.filter_app. cbn [List.filter]. rewrite Z.leb_refl.
  assert (List.filter (fun c => l2_block c <=? l2_block cp) l2 = []) as ->.
  { clear Ha. induction Hf as [|x l2 Hx _ IH]; [done|]. cbn [List.filter]. unfold below in Hx.
    by rewrite (proj2 (Z.leb_gt _ _)) by lia. }
  apply last_snoc.
Qed.

Lemma filter_idem (log : L1ResumeLog) (f : L1ResumeCheckpoint -> bool) :
  List.filter f (List.filter f log) = List.filter f log.
Proof.
  induction log as [|a log IH]; [done|]. cbn [List.filter]. destruct (f a) eqn:E; [|done].
  cbn [List.filter]. rewrite E. by f_equal.
Qed.

(** A rewind to block [t] returns exactly the boundary a restart at tip [t] would resume from,
    keeps that boundary and everything below it, removes everything above [t], and a second rewind
    to the same block changes nothing. *)
Theorem truncate_to_resumes (log : L1ResumeLog) (t : Z) :
  ascending log ->
  let '(cp, log') := truncate_to log t in
  cp = resume_for log t /\ resume_for log' t = cp /\ ascending log' /\
  (forall c, In c log' <-> In c log /\ l2_block c <= t) /\ truncate_to log' t = (cp, log').
Proof.
  intros Hasc. unfold truncate_to. split_and!.
  - apply last_filter.
  - by rewrite <- last_filter, filter_idem.
  - by apply filter_ascending.
  - intros c. rewrite filter_In, Z.leb_le. done.
  - by rewrite filter_idem.
Qed.

(** ** The file *)

(** [serde_json] on the log and on a bare checkpoint. *)
Class ResumeJson := {
  json_to_vec : L1ResumeLog -> bytes;
  json_log : bytes -> option L1ResumeLog;
  json_checkpoint : bytes -> option L1ResumeCheckpoint;
  (** Trailing whitespace after the document is accepted. *)
  json_roundtrip : forall log, json_log (json_to_vec log ++ [x0a]) = Some log
}.

Module ResumeFile.
Import FileSystem.

Section File.
Context {RJ : ResumeJson}.

(** The calls of [save], in order, on its temporary name. *)
Definition save_ops (log : L1ResumeLog) (path tmp : string) : list FsOp :=
  [CreateNew tmp; WriteAll tmp (json_to_vec log); WriteAll tmp [x0a]; SyncAll tmp;
   Rename tmp path; SyncDir].

(** [load], from the bytes of the file if it can be read. *)
Definition load (contents : option bytes) : option L1ResumeLog :=
  bs ← contents;
  match json_log bs with
  | Some log => Some log
  | None => cp ← json_checkpoint bs; Some [cp]
  end.

Definition load_strict (contents : option bytes) : result string L1ResumeLog :=
  let? bs := ok_or "read error"%string contents in
  let? log := ok_or "json error"%string (json_log bs) in
  if strictly_ascending log then Ok log
  else Err "checkpoints are not strictly ascending by l2_block"%string.

(** C31. Replacing the resume file is crash safe: if the power fails after any number of the calls
    [save] makes, the next start loads the previous log or the new one, never a torn file; once
    [save] has returned it loads the new log. *)
Theorem save_crash_safe (s : Fs) (path tmp : string) (old : option bytes) (log : L1ResumeLog) :
  holds s path old -> tmp <> path -> dir s !! tmp = None ->
  (forall k s' c, fs_run s (take k (save_ops log path tmp)) = Some s' -> survives s' path c ->
     load c = load old \/ load c = Some log) /\
  (exists s', fs_run s (save_ops log path tmp) = Some s' /\
     forall c, survives s' path c -> load c = Some log).
Proof.
  intros Hs Ht Hn. split.
  - intros k s' c Hrun Hc. destruct (replace_survives s path tmp old Hs Ht Hn (json_to_vec log) k s' c Hrun Hc) as [->| ->].
    + by left.
    + right. cbn. by rewrite json_roundtrip.
  - destruct (replace_completes s path tmp old Hs Ht Hn (json_to_vec log)) as (s' & Hrun & Hc).
    exists s'. split; [done|]. intros c Hsv. rewrite (Hc c Hsv). cbn. by rewrite json_roundtrip.
Qed.

End File.
End ResumeFile.

(** ** Recording after a rolled-back tip

    The sync seeds its log from the file without dropping the boundaries above the durable tip.
    After a power loss has rolled the tip back, the next boundary lies below the last entry. *)

Definition checkpoint_at (l1 l2 : Z) : L1ResumeCheckpoint :=
  {| l1_block := l1; delayed_count := 0; l2_block := l2 |}.

(** A boundary below the newest logged one is appended behind it: the log is no longer ascending
    and the strict reader rejects the saved file. *)
Theorem record_below_last_breaks_order {RJ : ResumeJson} (log : L1ResumeLog)
    (l cp : L1ResumeCheckpoint) :
  last log = Some l -> l2_block cp < l2_block l -> (length log < RECENT_CHECKPOINTS)%nat ->
  strictly_ascending (record log cp) = false /\
  ResumeFile.load_strict (Some (json_to_vec (record log cp) ++ [x0a])) =
    Err "checkpoints are not strictly ascending by l2_block"%string.
Proof.
  intros Hl Hlt Hlen. assert (Hrec : record log cp = log ++ [cp]).
  { unfold record, append_boundary. rewrite Hl. destruct (Z.eqb_spec (l2_block l) (l2_block cp)); [lia|].
    unfold compact_history. rewrite length_app. cbn [length].
    destruct (Nat.ltb_spec (length log + 1) RECENT_CHECKPOINTS); [done|].
    by rewrite (proj2 (Nat.eqb_eq _ 0)) by lia. }
  assert (Hasc : strictly_ascending (record log cp) = false).
  { apply not_true_iff_false. rewrite ascending_check, Hrec. intros (_ & _ & Hb)%ascending_app.
    apply last_Some_elem_of, list_elem_of_In in Hl. specialize (Hb l cp Hl (or_introl eq_refl)).
    unfold below in Hb. lia. }
  split; [done|]. unfold ResumeFile.load_strict. cbn [ok_or rbind]. rewrite json_roundtrip.
  cbn [ok_or rbind]. by rewrite Hasc.
Qed.

(** ** Witnesses *)

Definition sample_boundaries : list L1ResumeCheckpoint :=
  [checkpoint_at 10 100; checkpoint_at 20 100; checkpoint_at 30 250; checkpoint_at 40 300].

Lemma sample_produced : produced sample_boundaries.
Proof. unfold produced, sample_boundaries. repeat constructor; cbn; lia. Qed.

Lemma resume_after_compaction_witness :
  record_all sample_boundaries = [checkpoint_at 20 100; checkpoint_at 30 250; checkpoint_at 40 300] /\
  exists r, resume_for (record_all sample_boundaries) 260 = Some r /\ In r sample_boundaries /\
    l2_block r <= 260 /\ 250 - l2_block r < 100000.
Proof.
  split; [vm_compute; reflexivity|].
  refine (proj2 (proj2 (resume_after_compaction sample_boundaries (checkpoint_at 30 250) 260
            sample_produced _ _))).
  - right. right. by left.
  - cbn. lia.
Defined.

(** 200 boundaries, one every 1000 L2 blocks. *)
Definition long_log : L1ResumeLog := map (fun i => checkpoint_at i (1000 * i)) (seqZ 0 200).

Lemma record_bounded_witness :
  length (compact_history long_log) = 129%nat /\
  Z.of_nat (length (compact_history long_log)) <= Z.of_nat RECENT_CHECKPOINTS + (1 - 0 + 1).
Proof.
  split; [vm_compute; reflexivity|]. apply record_bounded.
  - apply ascending_check. vm_compute. reflexivity.
  - lia.
  - intros cp (i & <- & Hi%list_elem_of_In%elem_of_seqZ)%in_map_iff.
    unfold bucket, HISTORICAL_CHECKPOINT_L2_INTERVAL. cbn [checkpoint_at l2_block].
    Z.div_mod_to_equations. lia.
Defined.

Lemma truncate_to_resumes_witness :
  fst (truncate_to long_log 5500) = Some (checkpoint_at 5 5000) /\
  fst (truncate_to long_log 5500) = resume_for long_log 5500.
Proof.
  split; [vm_compute; reflexivity|].
  assert (Ha : ascending long_log) by (apply ascending_check; vm_compute; reflexivity).
  pose proof (truncate_to_resumes long_log 5500 Ha) as H.
  destruct (truncate_to long_log 5500) as [cp log']. exact (proj1 H).
Defined.

(** A codec through the standard encoding of finite data as positive numbers. *)
#[export] Instance checkpoint_countable : Countable L1ResumeCheckpoint.
Proof.
  refine (inj_countable'
    (fun cp => (l1_block cp, delayed_count cp, l2_block cp))
    (fun '(a, b, c) => {| l1_block := a; delayed_count := b; l2_block := c |}) _).
  by intros [].
Defined.

Definition positive_bytes (p : positive) : bytes := be_encode (Pos.size_nat p) (Zpos p).

Lemma positive_bytes_decode (p : positive) : be_decode (positive_bytes p) = Zpos p.
Proof.
  unfold positive_bytes. apply be_decode_encode_small. split; [lia|].
  eapply Z.lt_le_trans with (m := 2 ^ Z.of_nat (Pos.size_nat p)).
  - induction p as [p IH|p IH|]; cbn [Pos.size_nat]; rewrite ?Nat2Z.inj_succ, ?Z.pow_succ_r by lia; lia.
  - apply Z.pow_le_mono_l. lia.
Qed.

#[export] Instance sample_json : ResumeJson.
Proof.
  refine {|
    json_to_vec log := positive_bytes (encode log);
    json_log bs := match be_decode (removelast bs) with Zpos p => decode p | _ => None end;
    json_checkpoint bs := None |}.
  intros log. rewrite removelast_last, positive_bytes_decode. apply decode_encode.
Defined.

Definition empty_fs : FileSystem.Fs :=
  {| FileSystem.dir := ∅; FileSystem.inodes := ∅; FileSystem.pending := [∅];
     FileSystem.next_inode := 0 |}.

Lemma empty_fs_holds : FileSystem.holds empty_fs "resume" None.
Proof.
  split.
  - intros c (d & Hd & Hc). cbn in Hd. destruct Hd as [<-|[]]. by rewrite lookup_empty in Hc.
  - intros d id Hd Hl. cbn in Hd. destruct Hd as [<-|[]]. by rewrite lookup_empty in Hl.
  - by left.
Qed.

Lemma save_crash_safe_witness :
  exists s', FileSystem.fs_run empty_fs
      (ResumeFile.save_ops sample_boundaries "resume" "resume.tmp") = Some s' /\
    forall c, FileSystem.survives s' "resume" c -> ResumeFile.load c = Some sample_boundaries.
Proof.
  refine (proj2 (ResumeFile.save_crash_safe empty_fs "resume" "resume.tmp" None sample_boundaries
                   empty_fs_holds _ _)).
  - discriminate.
  - reflexivity.
Defined.
