(* ===== verification/L1Sync.v ===== *)
(** * The catch-up runtime: errors, backoff, delivery and checkpoints

    [crates/arb-reth-sync/src/l1_sync.rs], the parts around the prefetch pipeline (which is
    [L1Pipeline.v]): error classification with URL redaction, the retry backoff, the choice of the
    resume point, numbering and delivery of a derived window, and the flush of durable boundaries.
    Text is a list of Unicode scalar values; slicing at a byte offset inside a character panics.
    Durations are nanoseconds. *)

From Stdlib Require Import Strings.Byte Strings.String Strings.Ascii Sorted.
From stdpp Require Import base list numbers option strings.
From S2P Require Import Prelude BTree External Messages Batch Multiplexer L1Decode L1Reader DelayedReader L1Range Resume.

(** ** Text *)

Abbreviation text := (list Z).

Definition text_of (s : string) : text := map (fun a => Z.of_N (N_of_ascii a)) (list_ascii_of_string s).

(** [char::len_utf8] *)
Definition len_utf8 (c : Z) : Z :=
  if c <? 0x80 then 1 else if c <? 0x800 then 2 else if c <? 0x10000 then 3 else 4.

Definition is_ascii_alphanumeric (c : Z) : bool :=
  ((48 <=? c) && (c <=? 57)) || ((65 <=? c) && (c <=? 90)) || ((97 <=? c) && (c <=? 122)).

(** [char::is_whitespace]: the Unicode [White_Space] property. *)
Definition is_whitespace (c : Z) : bool :=
  ((9 <=? c) && (c <=? 13)) || (c =? 32) || (c =? 0x85) || (c =? 0xa0) || (c =? 0x1680) ||
  ((0x2000 <=? c) && (c <=? 0x200a)) || (c =? 0x2028) || (c =? 0x2029) || (c =? 0x202f) ||
  (c =? 0x205f) || (c =? 0x3000).

(** A character of a URL scheme. *)
Definition scheme_char (c : Z) : bool :=
  is_ascii_alphanumeric c || (c =? 43) || (c =? 45) || (c =? 46).

(** A character that ends a URL: whitespace, closing parenthesis, comma or double quote. *)
Definition url_end (c : Z) : bool := is_whitespace c || (c =? 41) || (c =? 44) || (c =? 34).

Definition redacted : text := text_of "<redacted-url>".

(** What follows a leading ["://"]. *)
Definition strip_sep (s : text) : option text :=
  match s with
  | a :: b :: c :: after => if (a =? 58) && (b =? 47) && (c =? 47) then Some after else None
  | _ => None
  end.

(** [rest.find("://")]: the text before and after the first occurrence. *)
Fixpoint find_sep (s : text) : option (text * text) :=
  match s with
  | [] => None
  | c :: s' =>
      match strip_sep s with
      | Some after => Some ([], after)
      | None =>
          match find_sep s' with
          | Some (before, after) => Some (c :: before, after)
          | None => None
          end
      end
  end.

(** [s.rfind(|c| !scheme_char(c))]: the text up to and including the last such character. *)
Fixpoint rfind_break (s : text) : option (text * Z) :=
  match s with
  | [] => None
  | c :: s' =>
      match rfind_break s' with
      | Some (pre, b) => Some (c :: pre, b)
      | None => if scheme_char c then None else Some ([], c)
      end
  end.

(** [&rest[..scheme_start]] with [scheme_start = i + 1] for the byte index [i] of the break
    character: [None] is the panic when [i + 1] is not a character boundary. *)
Definition before_scheme (before : text) : option text :=
  match rfind_break before with
  | None => Some []
  | Some (pre, b) => if len_utf8 b =? 1 then Some (pre ++ [b]) else None
  end.

(** [&after[end..]] for the first URL-ending character. *)
Fixpoint skip_url (s : text) : text :=
  match s with
  | [] => []
  | c :: s' => if url_end c then s else skip_url s'
  end.

Fixpoint redact_loop (fuel : nat) (rest out : text) : option text :=
  match find_sep rest with
  | None => Some (out ++ rest)
  | Some (before, after) =>
      match fuel with
      | O => None
      | S fuel' =>
          pre ← before_scheme before;
          redact_loop fuel' (skip_url after) (out ++ pre ++ redacted)
      end
  end.

(** [redact_urls]; [None] is a panic. *)
Definition redact_urls (message : text) : option text := redact_loop (length message) message [].

(** ** Errors *)

Inductive L1SyncError :=
| Provider_failed (operation : string) (detail : text)
| Derivation_failed (operation : string) (source : L1Error)
| InvalidRpcUrl
| PersistedTip_failed (detail : text)
| PrefetchTask_failed (from to : Z)
| FrontierNotReached (frontier last_derived : Z).

Inductive L1SyncCompletion :=
| Exhausted
| FrontierReached (frontier : Z).

Definition provider_error (operation : string) : L1SyncError := Provider_failed operation [].

(** [L1SyncError::l1]; [None] is a panic inside the redaction. The text of an [Rpc] error is
    ["rpc: "] followed by the transport's message. *)
Definition l1_error (operation : string) (source : L1Error) : option L1SyncError :=
  match source with
  | L1_Rpc e => d ← redact_urls (text_of ("rpc: " +:+ e)); Some (Provider_failed operation d)
  | _ => Some (Derivation_failed operation source)
  end.

Definition is_retryable (e : L1SyncError) : bool :=
  match e with Provider_failed _ _ => true | _ => false end.

(** ** Backoff *)

Definition NANOS_PER_SEC : Z := 1000000000.
Definition DURATION_MAX : Z := (2 ^ 64 - 1) * NANOS_PER_SEC + 999999999.
Definition RETRY_INITIAL_DELAY : Z := 1 * NANOS_PER_SEC.
Definition RETRY_MAX_DELAY : Z := 30 * NANOS_PER_SEC.
Definition U32_MAX : Z := 2 ^ 32 - 1.

Record RetryBackoff := { failures_without_progress : Z; initial : Z; maximum : Z }.

Definition RetryBackoff_new (initial maximum : Z) : RetryBackoff :=
  {| failures_without_progress := 0; initial := initial; maximum := maximum |}.

Definition duration_checked_mul (d k : Z) : option Z :=
  if d * k <=? DURATION_MAX then Some (d * k) else None.
Definition duration_saturating_add (a b : Z) : Z := Z.min (a + b) DURATION_MAX.

Definition next_delay (self : RetryBackoff) (made_progress : bool) : Z * RetryBackoff :=
  let failures := if made_progress then 0 else failures_without_progress self in
  let exponent := Z.min failures 31 in
  let failures := Z.min (failures + 1) U32_MAX in
  let base := Z.min (default (maximum self)
                       (duration_checked_mul (initial self) (Z.shiftl 1 exponent)))
                (maximum self) in
  let jitter_percent := (failures * 17) mod 2 ^ 32 mod 21 in
  let jitter_nanos := Z.min (base * jitter_percent) (2 ^ 128 - 1) / 100 in
  (Z.min (duration_saturating_add base (Z.min jitter_nanos U64_MAX)) (maximum self),
   {| failures_without_progress := failures; initial := initial self; maximum := maximum self |}).

(** ** Configuration and the resume point *)

(** [L1SyncConfig], without the endpoints and the polling intervals. *)
Record L1SyncConfig := {
  cfg_sequencer_inbox : Z;
  cfg_bridge : Z;
  cfg_start_block : Z;
  cfg_end_block : option Z;
  cfg_start_delayed_count : Z;
  cfg_start_l2_block : Z;
  cfg_db_tip_l2 : Z;
  cfg_l2_frontier : option Z;
  cfg_genesis_block : Z;
  cfg_checkpointing : bool;
  cfg_batch_window : Z;
  cfg_delayed_window : Z;
  cfg_confirmations : Z;
  cfg_prefetch_windows : Z
}.

Definition L1SyncConfig_mainnet (start_block start_delayed_count : Z) : L1SyncConfig := {|
  cfg_sequencer_inbox := SequencerInboxReader.SEQUENCER_INBOX_MAINNET;
  cfg_bridge := DelayedInboxReader.BRIDGE_MAINNET;
  cfg_start_block := start_block;
  cfg_end_block := None;
  cfg_start_delayed_count := start_delayed_count;
  cfg_start_l2_block := 0;
  cfg_db_tip_l2 := 0;
  cfg_l2_frontier := None;
  cfg_genesis_block := 0;
  cfg_checkpointing := false;
  cfg_batch_window := 1000;
  cfg_delayed_window := DEFAULT_DELAYED_WINDOW;
  cfg_confirmations := 8;
  cfg_prefetch_windows := 6
|}.

(** The log [L1ResumeLog::load] finds at the checkpoint path, if checkpointing is on. *)
Definition loaded_log (cfg : L1SyncConfig) (file : option L1ResumeLog) : option L1ResumeLog :=
  if cfg_checkpointing cfg then file else None.

Record SyncProgress := { persisted_l2 : Z; checkpoint_l1 : Z; checkpoint_l2 : Z }.

#[export] Instance SyncProgress_eq_dec : EqDecision SyncProgress.
Proof. solve_decision. Defined.

Definition progress (cfg : L1SyncConfig) (file : option L1ResumeLog) (persisted : Z) : SyncProgress :=
  let checkpoint := log ← loaded_log cfg file; resume_for log persisted in
  {| persisted_l2 := persisted;
     checkpoint_l1 := match checkpoint with Some cp => l1_block cp | None => cfg_start_block cfg end;
     checkpoint_l2 := match checkpoint with Some cp => l2_block cp | None => cfg_start_l2_block cfg end |}.

Definition with_tip (base : L1SyncConfig) (tip : Z) : L1SyncConfig := {|
  cfg_sequencer_inbox := cfg_sequencer_inbox base; cfg_bridge := cfg_bridge base;
  cfg_start_block := cfg_start_block base; cfg_end_block := cfg_end_block base;
  cfg_start_delayed_count := cfg_start_delayed_count base;
  cfg_start_l2_block := cfg_start_l2_block base; cfg_db_tip_l2 := tip;
  cfg_l2_frontier := cfg_l2_frontier base; cfg_genesis_block := cfg_genesis_block base;
  cfg_checkpointing := cfg_checkpointing base; cfg_batch_window := cfg_batch_window base;
  cfg_delayed_window := cfg_delayed_window base; cfg_confirmations := cfg_confirmations base;
  cfg_prefetch_windows := cfg_prefetch_windows base
|}.

Definition with_start (base : L1SyncConfig) (cp : L1ResumeCheckpoint) : L1SyncConfig := {|
  cfg_sequencer_inbox := cfg_sequencer_inbox base; cfg_bridge := cfg_bridge base;
  cfg_start_block := l1_block cp; cfg_end_block := cfg_end_block base;
  cfg_start_delayed_count := delayed_count cp;
  cfg_start_l2_block := l2_block cp; cfg_db_tip_l2 := cfg_db_tip_l2 base;
  cfg_l2_frontier := cfg_l2_frontier base; cfg_genesis_block := cfg_genesis_block base;
  cfg_checkpointing := cfg_checkpointing base; cfg_batch_window := cfg_batch_window base;
  cfg_delayed_window := cfg_delayed_window base; cfg_confirmations := cfg_confirmations base;
  cfg_prefetch_windows := cfg_prefetch_windows base
|}.

Definition resume_config (base : L1SyncConfig) (file : option L1ResumeLog) (persisted : Z)
    : L1SyncConfig :=
  let next := with_tip base persisted in
  match (log ← loaded_log base file; resume_for log persisted) with
  | Some cp => with_start next cp
  | None => next
  end.

(** ** Delivery of one derived window *)

(** The feed channel: what was sent, and whether the receiver takes one more message then. *)
Class FeedChannel := { accepts : list BroadcastFeedMessage -> bool }.

Record WindowDelivery := { skipped : Z; frontier_reached : option L1SyncCompletion }.

Definition set_sequence (m : BroadcastFeedMessage) (seq : Z) : BroadcastFeedMessage := {|
  fm_sequence_number := seq;
  fm_l1_incoming_message := fm_l1_incoming_message m;
  fm_delayed_messages_read := fm_delayed_messages_read m
|}.

Section Delivery.
Context {FC : FeedChannel}.

(** Returns the outcome ([None]: the channel is closed), the new [next_l2] and what was sent. *)
Fixpoint enqueue_loop (messages : list BroadcastFeedMessage) (next_l2 db_tip_l2 genesis_block : Z)
    (frontier : option Z) (skips : Z) (sent : list BroadcastFeedMessage)
    : option WindowDelivery * Z * list BroadcastFeedMessage :=
  match messages with
  | [] => (Some {| skipped := skips; frontier_reached := None |}, next_l2, sent)
  | msg :: messages' =>
      let bn := next_l2 in
      let next_l2 := wrapping_add next_l2 1 in
      if bn <=? db_tip_l2
      then enqueue_loop messages' next_l2 db_tip_l2 genesis_block frontier (wrapping_add skips 1) sent
      else
        let msg := set_sequence msg (wrapping_sub bn genesis_block) in
        if accepts sent then
          let sent := sent ++ [msg] in
          if bool_decide (frontier = Some bn)
          then (Some {| skipped := skips; frontier_reached := Some (FrontierReached bn) |}, next_l2, sent)
          else enqueue_loop messages' next_l2 db_tip_l2 genesis_block frontier skips sent
        else (None, next_l2, sent)
  end.

Definition enqueue_derived_window (messages : list BroadcastFeedMessage)
    (next_l2 db_tip_l2 genesis_block : Z) (frontier : option Z) (sent : list BroadcastFeedMessage)
    : option WindowDelivery * Z * list BroadcastFeedMessage :=
  enqueue_loop messages next_l2 db_tip_l2 genesis_block frontier 0 sent.

End Delivery.

(** ** Checkpoints *)

(** The [while] loop: durable boundaries move from the queue to the log. *)
Fixpoint flush_pending (log : L1ResumeLog) (pending : list L1ResumeCheckpoint) (persisted : Z)
    : L1ResumeLog * list L1ResumeCheckpoint * option L1ResumeCheckpoint :=
  match pending with
  | cp :: pending' =>
      if l2_block cp <=? persisted then
        let '(log', rest, newest) := flush_pending (record log cp) pending' persisted in
        (log', rest, match newest with Some n => Some n | None => Some cp end)
      else (log, pending, None)
  | [] => (log, [], None)
  end.

(** The new log, the queue, and the log handed to [save] when there is something new. *)
Definition maybe_write_checkpoint (log : L1ResumeLog) (pending : list L1ResumeCheckpoint)
    (persisted : Z) : L1ResumeLog * list L1ResumeCheckpoint * option L1ResumeLog :=
  let '(log, pending, newest) := flush_pending log pending persisted in
  (log, pending, match newest with Some _ => Some log | None => None end).

(** ** Redaction leaves no URL *)

Definition sep : text := [58; 47; 47].

Lemma strip_sep_Some (s after : text) : strip_sep s = Some after -> s = sep ++ after.
Proof.
  destruct s as [|a [|b [|c k]]]; try done. cbn [strip_sep].
  destruct (Z.eqb_spec a 58), (Z.eqb_spec b 47), (Z.eqb_spec c 47); try done.
  intros [= ->]. by subst.
Qed.

Lemma find_sep_Some (s before after : text) :
  find_sep s = Some (before, after) -> s = before ++ sep ++ after /\ find_sep before = None.
Proof.
  revert before after. induction s as [|c s IH]; intros before after; [done|]. cbn [find_sep].
  destruct (strip_sep (c :: s)) as [k|] eqn:E.
  - intros [= <- <-]. by apply strip_sep_Some in E.
  - destruct (find_sep s) as [[b a]|]; [|done]. intros [= <- <-].
    destruct (IH b a eq_refl) as [Hs Hb]. split; [by rewrite Hs|]. cbn [find_sep]. rewrite Hb.
    destruct b as [|x [|y b]]; try done. cbn [strip_sep]. rewrite Hs in E. cbn in E.
    by destruct ((c =? 58) && (x =? 47) && (y =? 47)).
Qed.

(** A character outside the separator keeps two separator-free texts apart. *)
Lemma find_sep_join (a : text) (c : Z) (b : text) :
  c <> 58 -> c <> 47 -> find_sep a = None -> find_sep b = None -> find_sep (a ++ c :: b) = None.
Proof.
  intros H1 H2 Ha Hb. induction a as [|x a IH].
  - cbn [app find_sep]. rewrite Hb. destruct b as [|y [|z b]]; try done. cbn [strip_sep].
    by rewrite (proj2 (Z.eqb_neq c 58)) by done.
  - cbn [app find_sep] in *. destruct (strip_sep (x :: a)) eqn:E; [done|].
    destruct (find_sep a) as [[]|]; [done|]. rewrite (IH eq_refl).
    destruct a as [|y [|z a]]; cbn [app strip_sep] in *.
    + destruct b as [|z b]; [done|]. rewrite (proj2 (Z.eqb_neq c 47)) by done.
      by rewrite andb_false_r.
    + rewrite (proj2 (Z.eqb_neq c 47)) by done. by rewrite andb_false_r.
    + by destruct (_ && _).
Qed.

Lemma find_sep_prefix (a b : text) : find_sep (a ++ b) = None -> find_sep a = None.
Proof.
  induction a as [|x a IH]; [done|]. cbn [app find_sep]. intros H.
  destruct (strip_sep (x :: a ++ b)) eqn:E; [done|].
  destruct (find_sep (a ++ b)) as [[]|]; [done|]. rewrite (IH eq_refl).
  destruct a as [|y [|z a]]; try done. cbn [app strip_sep] in *. by destruct (_ && _).
Qed.

Lemma rfind_break_Some (s pre : text) (b : Z) :
  rfind_break s = Some (pre, b) -> exists scheme, s = pre ++ b :: scheme.
Proof.
  revert pre b. induction s as [|c s IH]; intros pre b; [done|]. cbn [rfind_break].
  destruct (rfind_break s) as [[p x]|].
  - intros [= <- <-]. destruct (IH p x eq_refl) as [k ->]. by exists k.
  - destruct (scheme_char c); [done|]. intros [= <- <-]. by exists s.
Qed.

Lemma before_scheme_prefix (before pre : text) :
  before_scheme before = Some pre -> exists k, before = pre ++ k.
Proof.
  unfold before_scheme. destruct (rfind_break before) as [[p b]|] eqn:E.
  - destruct (_ =? _); [|done]. intros [= <-]. apply rfind_break_Some in E as [k ->].
    exists k. by rewrite <- app_assoc.
  - intros [= <-]. by exists before.
Qed.

(** What has been written: nothing, or text that ends in the placeholder's bracket. *)
Definition clean_out (out : text) : Prop :=
  out = [] \/ exists o, out = o ++ [62] /\ find_sep o = None.

Lemma clean_out_app (out k : text) : clean_out out -> find_sep k = None -> find_sep (out ++ k) = None.
Proof.
  intros [->|(o & -> & Ho)] Hk; [done|]. rewrite <- app_assoc. cbn [app].
  by apply find_sep_join.
Qed.

Definition redacted_body : text := text_of "redacted-url".

Lemma redacted_shape : redacted = 60 :: redacted_body ++ [62].
Proof. reflexivity. Qed.

Lemma redact_loop_clean (fuel : nat) (rest out res : text) :
  clean_out out -> redact_loop fuel rest out = Some res -> find_sep res = None.
Proof.
  revert rest out. induction fuel as [|fuel IH]; intros rest out Hout; cbn [redact_loop];
    destruct (find_sep rest) as [[before after]|] eqn:E; try done.
  1,3: intros [= <-]; by apply clean_out_app.
  destruct (before_scheme before) as [pre|] eqn:Ep; [|done]. cbn [mbind option_bind].
  apply IH. right. exists (out ++ pre ++ 60 :: redacted_body).
  rewrite redacted_shape. split; [by rewrite <- !app_assoc|].
  apply find_sep_Some in E as [_ Hb]. apply before_scheme_prefix in Ep as [k ->].
  apply find_sep_prefix in Hb. rewrite app_assoc. apply find_sep_join; [done..| |done].
  by apply clean_out_app.
Qed.

Lemma skip_url_length (s : text) : (length (skip_url s) <= length s)%nat.
Proof. induction s as [|c s IH]; [done|]. cbn [skip_url]. destruct (url_end c); cbn [length] in *; lia. Qed.

Lemma skip_url_suffix (s : text) : exists k, s = k ++ skip_url s.
Proof.
  induction s as [|c s [k IH]]; [by exists []|]. cbn [skip_url]. destruct (url_end c); [by exists []|].
  exists (c :: k). cbn. by rewrite <- IH.
Qed.

Definition is_ascii (c : Z) : Prop := 0 <= c < 128.

Lemma before_scheme_ascii (before : text) :
  Forall is_ascii before -> exists pre, before_scheme before = Some pre.
Proof.
  intros Ha. unfold before_scheme. destruct (rfind_break before) as [[p b]|] eqn:E; [|by eexists].
  apply rfind_break_Some in E as [k ->]. apply Forall_app in Ha as [_ Ha]. inversion Ha as [|? ? Hb _]; subst.
  unfold len_utf8, is_ascii in *. rewrite (proj2 (Z.ltb_lt b 128)) by lia. by eexists.
Qed.

Lemma redact_loop_ascii (fuel : nat) (rest out : text) :
  Forall is_ascii rest -> (length rest <= fuel)%nat -> exists res, redact_loop fuel rest out = Some res.
Proof.
  revert rest out. induction fuel as [|fuel IH]; intros rest out Ha Hl; cbn [redact_loop];
    destruct (find_sep rest) as [[before after]|] eqn:E; try by eexists.
  - destruct rest; [done|cbn in Hl; lia].
  - apply find_sep_Some in E as [-> _]. apply Forall_app in Ha as [Hb Ha].
    apply Forall_app in Ha as [_ Ha]. destruct (before_scheme_ascii before Hb) as [pre ->].
    cbn [mbind option_bind]. apply IH.
    + destruct (skip_url_suffix after) as [k Hk]. rewrite Hk in Ha. by apply Forall_app in Ha as [_ Ha].
    + pose proof (skip_url_length after). rewrite !length_app in Hl. cbn in Hl. lia.
Qed.

(** Redaction of an ASCII provider message terminates without a panic, and no message, ASCII or
    not, ever comes out with a ["://"] left in it: no URL survives into the logs, not even one
    formed by joining the pieces around a removed URL. *)
Theorem redact_urls_no_url (message : text) :
  (Forall is_ascii message -> exists out, redact_urls message = Some out) /\
  (forall out, redact_urls message = Some out -> find_sep out = None).
Proof.
  split.
  - intros Ha. by apply redact_loop_ascii.
  - intros out. apply redact_loop_clean. by left.
Qed.

Lemma redact_urls_no_url_witness :
  exists out, redact_urls (text_of "error sending request for url (https://user:pw@host/key): timeout") = Some out.
Proof.
  apply (redact_urls_no_url (text_of "error sending request for url (https://user:pw@host/key): timeout")).
  repeat constructor; done.
Defined.

Example redact_example :
  redact_urls (text_of "url (https://user:pw@host/key), then wss://k done") =
  Some (text_of "url (<redacted-url>), then <redacted-url> done").
Proof. vm_compute. reflexivity. Qed.

(** A multi-byte character right before the scheme makes the byte offset [i + 1] fall inside it:
    slicing there panics. The message is a left double quotation mark followed by a URL. *)
Theorem redact_urls_panics : redact_urls (0x201c :: text_of "https://host/key") = None.
Proof. vm_compute. reflexivity. Qed.

(** ** Backoff *)

(** The retry delay is never above the maximum and at least the exponential value
    [initial * 2^min(n, 31)] capped at the maximum, where [n] counts the failures since the last
    progress; the jitter adds at most a fifth; progress resets the count and a failure raises it
    by one, saturating. *)
Theorem next_delay_bounds (self : RetryBackoff) (made_progress : bool) :
  0 <= failures_without_progress self <= U32_MAX -> 0 <= initial self ->
  0 <= maximum self <= DURATION_MAX ->
  let n := if made_progress then 0 else failures_without_progress self in
  let base := Z.min (initial self * 2 ^ Z.min n 31) (maximum self) in
  let '(delay, self') := next_delay self made_progress in
  base <= delay <= maximum self /\ 5 * delay <= 6 * base /\
  failures_without_progress self' = Z.min (n + 1) U32_MAX /\
  initial self' = initial self /\ maximum self' = maximum self.
Proof.
  intros Hf Hi Hm n base. unfold next_delay. fold n.
  assert (Hn : 0 <= n <= U32_MAX) by (unfold n; destruct made_progress; unfold U32_MAX in *; lia).
  rewrite Z.shiftl_mul_pow2, Z.mul_1_l by lia.
  assert (Hbase : Z.min (default (maximum self) (duration_checked_mul (initial self) (2 ^ Z.min n 31)))
    (maximum self) = base).
  { unfold duration_checked_mul, base. destruct (Z.leb_spec (initial self * 2 ^ Z.min n 31) DURATION_MAX);
      cbn [from_option id]; lia. }
  rewrite Hbase. set (p := _ mod 21). assert (Hp : 0 <= p < 21) by (apply Z.mod_pos_bound; lia).
  assert (Hb : 0 <= base <= DURATION_MAX).
  { unfold base. assert (0 <= 2 ^ Z.min n 31) by (apply Z.pow_nonneg; lia). nia. }
  assert (Hbp : 0 <= base * p <= base * 20) by nia.
  unfold duration_saturating_add. cbn [failures_without_progress initial maximum].
  assert (Hmin : Z.min (base * p) (2 ^ 128 - 1) = base * p).
  { unfold DURATION_MAX, NANOS_PER_SEC in Hb. lia. }
  rewrite Hmin. set (j := Z.min (base * p / 100) U64_MAX).
  assert (Hj : 0 <= j /\ 100 * j <= base * 20).
  { unfold j, U64_MAX. Z.div_mod_to_equations. lia. }
  assert (Hle : base <= maximum self) by (unfold base; lia).
  clearbody base j p. split_and!; try done; lia.
Qed.

Lemma next_delay_bounds_witness :
  fst (next_delay (RetryBackoff_new RETRY_INITIAL_DELAY RETRY_MAX_DELAY) false) = 1170000000 /\
  1000000000 <= 1170000000 <= RETRY_MAX_DELAY.
Proof.
  split; [vm_compute; reflexivity|].
  refine (proj1 (next_delay_bounds (RetryBackoff_new RETRY_INITIAL_DELAY RETRY_MAX_DELAY) false _ _ _)).
  - vm_compute. split; discriminate.
  - vm_compute. discriminate.
  - vm_compute. split; discriminate.
Defined.

(** ** Delivery *)

Section DeliveryLaws.
Context {FC : FeedChannel}.

(** One past the last block a window of [k] messages from block [n] reaches: the frontier cuts it
    when it falls inside and above the tip. *)
Definition window_end (n k tip : Z) (frontier : option Z) : Z :=
  match frontier with
  | Some f => if (tip <? f) && (n <=? f) && (f <? n + k) then f + 1 else n + k
  | None => n + k
  end.

(** Messages numbered as consecutive blocks from [bn] on. *)
Definition numbered_from (bn genesis : Z) (msgs : list BroadcastFeedMessage) : list BroadcastFeedMessage :=
  zip_with (fun b m => set_sequence m (wrapping_sub b genesis)) (seqZ bn (Z.of_nat (length msgs))) msgs.

Lemma numbered_from_cons (bn genesis : Z) (m : BroadcastFeedMessage) (msgs : list BroadcastFeedMessage) :
  numbered_from bn genesis (m :: msgs) =
  set_sequence m (wrapping_sub bn genesis) :: numbered_from (bn + 1) genesis msgs.
Proof.
  unfold numbered_from. cbn [length]. rewrite seqZ_cons by lia. cbn [zip_with].
  do 3 f_equal; lia.
Qed.

Lemma numbered_from_app (bn genesis : Z) (l k : list BroadcastFeedMessage) :
  numbered_from bn genesis (l ++ k) =
  numbered_from bn genesis l ++ numbered_from (bn + Z.of_nat (length l)) genesis k.
Proof.
  revert bn. induction l as [|m l IH]; intros bn; cbn [app length].
  - by rewrite Z.add_0_r.
  - rewrite !numbered_from_cons, IH. cbn [app]. do 3 f_equal. lia.
Qed.

Definition window_outcome (n k tip : Z) (frontier : option Z) : option L1SyncCompletion :=
  match frontier with
  | Some f => if (tip <? f) && (n <=? f) && (f <? n + k) then Some (FrontierReached f) else None
  | None => None
  end.

(** The messages of the blocks above the tip and before the end, numbered consecutively. *)
Definition delivered (msgs : list BroadcastFeedMessage) (n tip genesis : Z) (frontier : option Z)
    : list BroadcastFeedMessage :=
  let first := Z.max n (tip + 1) in
  let last := window_end n (Z.of_nat (length msgs)) tip frontier in
  numbered_from first genesis (drop (Z.to_nat (first - n)) (take (Z.to_nat (last - n)) msgs)).

Ltac frontier_cases :=
  repeat match goal with
  | |- context [?a <? ?b] => destruct (Z.ltb_spec a b)
  | |- context [?a <=? ?b] => destruct (Z.leb_spec a b)
  end; cbn [andb]; try lia.

Lemma enqueue_loop_spec (msgs : list BroadcastFeedMessage) (n tip genesis : Z) (frontier : option Z)
    (skips : Z) (sent : list BroadcastFeedMessage) :
  (forall l, accepts l = true) -> 0 <= n -> n + Z.of_nat (length msgs) < 2 ^ 64 ->
  exists d, enqueue_loop msgs n tip genesis frontier skips sent =
      (Some d, window_end n (Z.of_nat (length msgs)) tip frontier,
       sent ++ delivered msgs n tip genesis frontier) /\
    frontier_reached d = window_outcome n (Z.of_nat (length msgs)) tip frontier.
Proof.
  intros Hch. revert n skips sent. induction msgs as [|m msgs IH]; intros n skips sent Hn Hlen.
  - cbn [enqueue_loop length]. unfold delivered, window_end, window_outcome.
    assert (Hno : forall f, (tip <? f) && (n <=? f) && (f <? n + Z.of_nat 0) = false)
      by (intros f; frontier_cases; done).
    exists {| skipped := skips; frontier_reached := None |}.
    split; [|destruct frontier as [f|]; [by rewrite Hno|done]].
    rewrite take_nil, drop_nil. change (numbered_from _ genesis []) with (@nil BroadcastFeedMessage).
    rewrite app_nil_r. destruct frontier as [f|]; [rewrite Hno|]; do 2 f_equal; lia.
  - cbn [length] in Hlen. cbn [enqueue_loop].
    assert (Hw : wrapping_add n 1 = n + 1) by (apply wrap64_small; unfold is_u64; lia). rewrite Hw.
    destruct (Z.leb_spec n tip) as [Hskip|Hsend].
    + destruct (IH (n + 1) (wrapping_add skips 1) sent) as (d & -> & Hd); [lia|lia|].
      exists d. cbn [length]. rewrite Nat2Z.inj_succ.
      assert (He : window_end (n + 1) (Z.of_nat (length msgs)) tip frontier =
                   window_end n (Z.succ (Z.of_nat (length msgs))) tip frontier)
        by (unfold window_end; destruct frontier as [f|]; [|lia]; frontier_cases).
      split.
      * do 2 f_equal; [by rewrite He|]. unfold delivered. cbn [length]. rewrite Nat2Z.inj_succ, <- He.
        replace (Z.max (n + 1) (tip + 1)) with (Z.max n (tip + 1)) by lia. f_equal.
        set (e := window_end (n + 1) _ tip frontier). set (f := Z.max n (tip + 1)).
        assert (Hge : n + 1 <= e).
        { unfold e, window_end. destruct frontier as [g|]; [|lia]. frontier_cases. }
        replace (Z.to_nat (e - n)) with (S (Z.to_nat (e - (n + 1)))) by lia.
        replace (Z.to_nat (f - n)) with (S (Z.to_nat (f - (n + 1)))) by (unfold f; lia). done.
      * rewrite Hd. unfold window_outcome. destruct frontier as [f|]; [|done]. frontier_cases; done.
    + rewrite Hch. case_bool_decide as Hf.
      * subst frontier. eexists. split.
        -- unfold delivered, window_end. cbn [length].
           rewrite (proj2 (Z.ltb_lt tip n)), (proj2 (Z.leb_le n n)), (proj2 (Z.ltb_lt n _)) by lia.
           cbn [andb]. replace (Z.max n (tip + 1)) with n by lia.
           replace (Z.to_nat (n + 1 - n)) with 1%nat by lia. rewrite Z.sub_diag.
           change (drop (Z.to_nat 0) (take 1 (m :: msgs))) with [m].
           rewrite numbered_from_cons. done.
        -- cbn [frontier_reached]. unfold window_outcome. cbn [length]. frontier_cases; done.
      * destruct (IH (n + 1) skips (sent ++ [set_sequence m (wrapping_sub n genesis)]))
          as (d & -> & Hd); [lia|lia|]. exists d. cbn [length]. rewrite Nat2Z.inj_succ.
        assert (He : window_end (n + 1) (Z.of_nat (length msgs)) tip frontier =
                     window_end n (Z.succ (Z.of_nat (length msgs))) tip frontier).
        { unfold window_end. destruct frontier as [f|]; [|lia].
          assert (f <> n) by congruence. frontier_cases. }
        split.
        -- f_equal; [by rewrite He|]. unfold delivered. cbn [length]. rewrite Nat2Z.inj_succ, <- He.
           replace (Z.max (n + 1) (tip + 1)) with (n + 1) by lia.
           replace (Z.max n (tip + 1)) with n by lia. rewrite !Z.sub_diag. change (Z.to_nat 0) with 0%nat. rewrite !drop_0.
           set (e := window_end (n + 1) _ tip frontier).
           assert (Hge : n + 1 <= e).
           { unfold e, window_end. destruct frontier as [g|]; [|lia]. frontier_cases. }
           replace (Z.to_nat (e - n)) with (S (Z.to_nat (e - (n + 1)))) by lia. cbn [take].
           by rewrite numbered_from_cons, <- app_assoc.
        -- rewrite Hd. unfold window_outcome. destruct frontier as [f|]; [|done].
           assert (f <> n) by congruence. frontier_cases; done.
Qed.

(** Delivering a derived window hands the driver exactly the messages of the blocks above the
    durable tip, in order, each with its message index [block - genesis]; it stops right after the
    frontier block when the window contains it, reports that, and never sends a later message;
    the block counter ends one past the last block accounted for. *)
Theorem enqueue_exact (msgs : list BroadcastFeedMessage) (n tip genesis : Z) (frontier : option Z)
    (sent : list BroadcastFeedMessage) :
  (forall l, accepts l = true) -> 0 <= n -> n + Z.of_nat (length msgs) < 2 ^ 64 ->
  exists d, enqueue_derived_window msgs n tip genesis frontier sent =
      (Some d, window_end n (Z.of_nat (length msgs)) tip frontier,
       sent ++ delivered msgs n tip genesis frontier) /\
    frontier_reached d = window_outcome n (Z.of_nat (length msgs)) tip frontier.
Proof. apply enqueue_loop_spec. Qed.

End DeliveryLaws.

Definition open_channel : FeedChannel := {| accepts _ := true |}.

Definition blank_message : BroadcastFeedMessage := {|
  fm_sequence_number := 0;
  fm_l1_incoming_message := {|
    fl_header := {| fh_kind := x03; fh_sender := "0x"; fh_block_number := 0; fh_timestamp := 0;
                    fh_request_id := JNull; fh_base_fee_l1 := JNumber 0 |};
    fl_l2msg := "x"; fl_legacy_batch_gas_cost := None; fl_batch_data_stats := None |};
  fm_delayed_messages_read := 0
|}.

Lemma enqueue_exact_witness :
  map fm_sequence_number (delivered (repeat blank_message 10) 101 103 100 (Some 106)) = [4; 5; 6] /\
  exists d, enqueue_derived_window (FC := open_channel) (repeat blank_message 10) 101 103 100 (Some 106) [] =
      (Some d, 107, delivered (repeat blank_message 10) 101 103 100 (Some 106)) /\
    frontier_reached d = Some (FrontierReached 106).
Proof.
  split; [vm_compute; reflexivity|].
  apply (enqueue_exact (FC := open_channel) (repeat blank_message 10) 101 103 100 (Some 106) []).
  - reflexivity.
  - lia.
  - cbn. lia.
Defined.

(** ** Checkpoints *)

Lemma flush_pending_spec (log : L1ResumeLog) (pending : list L1ResumeCheckpoint) (persisted : Z) :
  exists drained, let '(log', rest, newest) := flush_pending log pending persisted in
    pending = drained ++ rest /\ Forall (fun cp => l2_block cp <= persisted) drained /\
    (forall cp, head rest = Some cp -> persisted < l2_block cp) /\
    log' = fold_left record drained log /\ newest = last drained.
Proof.
  revert log. induction pending as [|cp pending IH]; intros log; cbn [flush_pending].
  - exists []. split_and!; [done|constructor|done|done|done].
  - destruct (Z.leb_spec (l2_block cp) persisted).
    + destruct (IH (record log cp)) as [drained Hd].
      destruct (flush_pending (record log cp) pending persisted) as [[log' rest] newest].
      destruct Hd as (-> & Hall & Hhd & -> & ->). exists (cp :: drained).
      split_and!; [done|by constructor|done|done|]. by rewrite last_cons.
    + exists []. split_and!; [done|constructor| |done|done]. intros c [= <-]. done.
Qed.

(** Flushing checkpoints moves a prefix of the queue into the log, in order and completely up
    to the first boundary that is not yet durable, writes the file only when something moved, and
    never logs a boundary above the persisted tip: if the log so far and the queue are in order,
    the new log is again strictly ascending, and every target it can resume is at or below the tip
    whenever the old log was. *)
Theorem checkpoints_durable (cps pending : list L1ResumeCheckpoint) (persisted : Z) :
  produced (cps ++ pending) -> Forall (fun cp => l2_block cp <= persisted) cps ->
  exists drained rest,
    pending = drained ++ rest /\
    maybe_write_checkpoint (record_all cps) pending persisted =
      (record_all (cps ++ drained), rest,
       match drained with [] => None | _ => Some (record_all (cps ++ drained)) end) /\
    strictly_ascending (record_all (cps ++ drained)) = true /\
    Forall (fun cp => l2_block cp <= persisted) (record_all (cps ++ drained)) /\
    (forall cp, head rest = Some cp -> persisted < l2_block cp).
Proof.
  intros Hp Hc. unfold maybe_write_checkpoint.
  destruct (flush_pending_spec (record_all cps) pending persisted) as [drained Hd].
  destruct (flush_pending (record_all cps) pending persisted) as [[log' rest] newest].
  destruct Hd as (-> & Hall & Hhd & -> & ->). exists drained, rest.
  assert (Hrec : fold_left record drained (record_all cps) = record_all (cps ++ drained))
    by (unfold record_all; by rewrite fold_left_app).
  rewrite Hrec. assert (Hp' : produced (cps ++ drained)).
  { clear -Hp. rewrite app_assoc in Hp. induction rest as [|r rest IH] using rev_ind;
      [by rewrite app_nil_r in Hp|]. rewrite app_assoc in Hp. apply IH. by apply produced_snoc in Hp as [Hp _]. }
  destruct (record_all_inv _ Hp') as (Hasc & _ & Hsub & _).
  split_and!; [done| | | |done].
  - f_equal. destruct drained as [|d drained]; [done|].
    destruct (last (d :: drained)) eqn:El; [done|]. by apply last_None in El.
  - by apply ascending_check.
  - apply List.Forall_forall. intros cp Hin%Hsub. apply in_app_iff in Hin as [Hin|Hin];
      [by eapply List.Forall_forall in Hc|by eapply List.Forall_forall in Hall].
Qed.

Lemma checkpoints_durable_witness :
  exists drained rest,
    [checkpoint_at 50 400; checkpoint_at 60 500] = drained ++ rest /\
    maybe_write_checkpoint (record_all sample_boundaries)
        [checkpoint_at 50 400; checkpoint_at 60 500] 450 =
      (record_all (sample_boundaries ++ drained), rest,
       match drained with [] => None | _ => Some (record_all (sample_boundaries ++ drained)) end) /\
    strictly_ascending (record_all (sample_boundaries ++ drained)) = true /\
    Forall (fun cp => l2_block cp <= 450) (record_all (sample_boundaries ++ drained)) /\
    (forall cp, head rest = Some cp -> 450 < l2_block cp).
Proof.
  apply (checkpoints_durable sample_boundaries [checkpoint_at 50 400; checkpoint_at 60 500] 450).
  - unfold produced, sample_boundaries. repeat constructor; cbn; lia.
  - unfold sample_boundaries. repeat constructor; cbn; lia.
Defined.

(** ** Resume point after a failed attempt *)

(** The restart point never lies above the durable tip and is the newest logged boundary there. *)
Lemma resume_config_safe (base : L1SyncConfig) (log : L1ResumeLog) (tip : Z) (cp : L1ResumeCheckpoint) :
  ascending log -> cfg_checkpointing base = true -> In cp log -> l2_block cp <= tip ->
  let cfg := resume_config base (Some log) tip in
  cfg_db_tip_l2 cfg = tip /\ l2_block cp <= cfg_start_l2_block cfg <= tip /\
  exists c, In c log /\ cfg_start_block cfg = l1_block c /\
    cfg_start_delayed_count cfg = delayed_count c /\ cfg_start_l2_block cfg = l2_block c.
Proof.
  intros Hasc Hon Hin Hle. unfold resume_config, loaded_log. rewrite Hon. cbn [mbind option_bind].
  pose proof (resume_for_spec log tip Hasc) as Hs. destruct (resume_for log tip) as [c|].
  - destruct Hs as (Hc & Hct & Hmax). cbn. split_and!; [done|auto|done|by exists c].
  - specialize (Hs cp Hin). lia.
Qed.
