(* ===== verification/L1Pipeline.v ===== *)
(** * The catch-up runtime: prefetch pipeline and supervision

    [run_l1_sync] and [supervise_l1_sync_with_backoff] of [crates/arb-reth-sync/src/l1_sync.rs].
    [sync_step] is one iteration of the main loop: refresh the safe head, fill the prefetch
    pipeline, consume the oldest window. The L1 head, the persisted tip and the outcome of joining
    a prefetch task are inputs of the step; the L1 contents are the [Provider] of the readers. The
    state has two ghost fields no operation reads: the windows consumed so far and the last log
    handed to [save]. A spawned task is a window with the kind of work it does; its result is
    computed when it is awaited. The supervisor is a loop over attempts: the tip and the file it reads,
    how each attempt ends and whether a wait ends before the shutdown are inputs. *)

From Stdlib Require Import Strings.Byte Strings.String Sorted.
From stdpp Require Import base list numbers option strings.
From S2P Require Import Prelude BTree External Messages Batch Multiplexer L1Decode L1Reader DelayedReader L1Range Resume L1Sync.

(** An in-flight window: [from], [to], and whether it is scanned or known to be empty. *)
Record Window := { w_from : Z; w_to : Z; w_scan : bool }.

Record SyncState := {
  ss_delayed : Z;
  ss_delayed_cache : DelayedCache;
  ss_report_cache : list (Z * BatchDataStats);
  ss_consume_cursor : Z;
  ss_spawn_cursor : Z;
  ss_safe_head : Z;
  ss_next_l2 : Z;
  ss_pending_ckpt : list L1ResumeCheckpoint;
  ss_resume_log : L1ResumeLog;
  ss_inflight : list Window;
  ss_seen_batch_count : Z;
  ss_head_batch_count : Z;
  ss_sent : list BroadcastFeedMessage;
  ss_consumed : list Window;
  ss_saved : option L1ResumeLog
}.

(** What a step leads to: the loop goes on, the runtime returns, or a task panics. *)
Inductive Step (A : Type) :=
| Next (a : A)
| Return (r : result L1SyncError L1SyncCompletion)
| Panicked.
Arguments Next {A} a.
Arguments Return {A} r.
Arguments Panicked {A}.

Definition step_bind {A B : Type} (s : Step A) (k : A -> Step B) : Step B :=
  match s with
  | Next a => k a
  | Return r => Return r
  | Panicked => Panicked
  end.

(** [r.map_err(|e| L1SyncError::l1(operation, e))?] *)
Definition try_l1 {A : Type} (operation : string) (r : result L1Error A) : Step A :=
  match r with
  | Ok a => Next a
  | Err e => match l1_error operation e with
             | Some e' => Return (Err e')
             | None => Panicked
             end
  end.

Section Pipeline.
Context {KC : Keccak} {RLP : Rlp} {BR : Brotli} {ABI : SolAbi} {B64 : Base64}
        {PR : Provider} {API : Beacon.BeaconApi} {DF : DelayedFetch} {FC : FeedChannel}.
Variables (cfg : L1SyncConfig) (seq_reader : SequencerInboxReader.t)
          (beacon : option Beacon.BeaconClient).

(** [cfg.end_block.is_some_and(|end| cursor > end)] *)
Definition past_end (cursor : Z) : bool :=
  match cfg_end_block cfg with Some e => e <? cursor | None => false end.

Definition prefetch : nat := Z.to_nat (Z.max (cfg_prefetch_windows cfg) 1).
Definition window : Z := Z.max (cfg_batch_window cfg) 1.

Definition batch_count := SequencerInboxReader.batch_count seq_reader.

(** ** Starting *)

(** A frontier at or below the durable tip is reached before anything is derived. *)
Definition check_frontier : Step unit :=
  match cfg_l2_frontier cfg with
  | Some f => if f <=? cfg_db_tip_l2 cfg then Return (Ok (FrontierReached f)) else Next tt
  | None => Next tt
  end.

(** Everything before the loop: the frontier check and the initial batch count. *)
Definition sync_init (file : option L1ResumeLog) : Step SyncState :=
  step_bind check_frontier (fun _ =>
  step_bind (if cfg_start_block cfg =? 0 then Next 0
             else try_l1 "batchCount(start_block-1)" (batch_count (cfg_start_block cfg - 1)))
    (fun seen => Next {|
      ss_delayed := cfg_start_delayed_count cfg;
      ss_delayed_cache := DelayedCache_new;
      ss_report_cache := bt_empty;
      ss_consume_cursor := cfg_start_block cfg;
      ss_spawn_cursor := cfg_start_block cfg;
      ss_safe_head := 0;
      ss_next_l2 := wrapping_add (cfg_start_l2_block cfg) 1;
      ss_pending_ckpt := [];
      ss_resume_log := default [] (loaded_log cfg file);
      ss_inflight := [];
      ss_seen_batch_count := seen;
      ss_head_batch_count := 0;
      ss_sent := [];
      ss_consumed := [];
      ss_saved := None |})).

(** ** Refreshing the safe head *)

Definition set_head (st : SyncState) (safe_head count : Z) : SyncState := {|
  ss_delayed := ss_delayed st; ss_delayed_cache := ss_delayed_cache st;
  ss_report_cache := ss_report_cache st; ss_consume_cursor := ss_consume_cursor st;
  ss_spawn_cursor := ss_spawn_cursor st; ss_safe_head := safe_head;
  ss_next_l2 := ss_next_l2 st; ss_pending_ckpt := ss_pending_ckpt st;
  ss_resume_log := ss_resume_log st; ss_inflight := ss_inflight st;
  ss_seen_batch_count := ss_seen_batch_count st; ss_head_batch_count := count;
  ss_sent := ss_sent st; ss_consumed := ss_consumed st; ss_saved := ss_saved st
|}.

(** [head] is the answer of [get_block_number]; [None] is a failure. *)
Definition refresh_head (head : option Z) (st : SyncState) : Step SyncState :=
  if ss_safe_head st <? ss_spawn_cursor st then
    match head with
    | None => Return (Err (provider_error "get_block_number"))
    | Some h =>
        let safe_head := saturating_sub h (cfg_confirmations cfg) in
        step_bind (try_l1 "batchCount(safe_head)" (batch_count safe_head)) (fun count =>
        Next (set_head st safe_head count))
    end
  else Next st.

(** ** Filling the pipeline *)

(** [inflight.push_back((from, to, ..)); spawn_cursor = to + 1] *)
Definition push_window (st : SyncState) (to : Z) (scan : bool) (seen : Z) : SyncState := {|
  ss_delayed := ss_delayed st; ss_delayed_cache := ss_delayed_cache st;
  ss_report_cache := ss_report_cache st; ss_consume_cursor := ss_consume_cursor st;
  ss_spawn_cursor := wrapping_add to 1; ss_safe_head := ss_safe_head st;
  ss_next_l2 := ss_next_l2 st; ss_pending_ckpt := ss_pending_ckpt st;
  ss_resume_log := ss_resume_log st;
  ss_inflight := ss_inflight st ++ [{| w_from := ss_spawn_cursor st; w_to := to; w_scan := scan |}];
  ss_seen_batch_count := seen; ss_head_batch_count := ss_head_batch_count st;
  ss_sent := ss_sent st; ss_consumed := ss_consumed st; ss_saved := ss_saved st
|}.

(** The batch count at a block, from the cached value at the safe head. *)
Definition count_at (operation : string) (st : SyncState) (block : Z) : Step Z :=
  if block =? ss_safe_head st then Next (ss_head_batch_count st)
  else try_l1 operation (batch_count block).

(** One iteration of the fill loop: a window to scan, or a barren stretch as one empty window. *)
Definition spawn_window (st : SyncState) : Step SyncState :=
  let from := ss_spawn_cursor st in
  let scan_hi := match cfg_end_block cfg with
                 | Some e => Z.min e (ss_safe_head st)
                 | None => ss_safe_head st
                 end in
  let win_to := Z.min (wrapping_sub (wrapping_add from window) 1) scan_hi in
  step_bind (count_at "batchCount(win_to)" st win_to) (fun win_batch_count =>
  if ss_seen_batch_count st <? win_batch_count
  then Next (push_window st win_to true win_batch_count)
  else
    step_bind (count_at "batchCount(scan_hi)" st scan_hi) (fun hi_batch_count =>
    step_bind (if hi_batch_count =? ss_seen_batch_count st then Next scan_hi
               else step_bind (try_l1 "first_block_with_batch_count_above"
                      (SequencerInboxReader.first_block_with_batch_count_above seq_reader
                         (wrapping_add win_to 1) scan_hi (ss_seen_batch_count st)))
                      (fun b => Next (wrapping_sub b 1))) (fun to =>
    Next (push_window st to false (ss_seen_batch_count st))))).

(** [while inflight.len() < prefetch && spawn_cursor <= safe_head]; every iteration adds a
    window, so the free slots bound the iterations. *)
Fixpoint fill_loop (slots : nat) (st : SyncState) : Step SyncState :=
  match slots with
  | O => Next st
  | S slots' =>
      if (ss_spawn_cursor st <=? ss_safe_head st) && negb (past_end (ss_spawn_cursor st))
      then step_bind (spawn_window st) (fill_loop slots')
      else Next st
  end.

Definition fill_pipeline (st : SyncState) : Step SyncState :=
  fill_loop (prefetch - length (ss_inflight st)) st.

(** ** Consuming the oldest window *)

Definition await_window (w : Window) (joined : bool) : Step (list (DeliveredBatch * bytes)) :=
  if negb joined then Return (Err (PrefetchTask_failed (w_from w) (w_to w)))
  else if w_scan w
  then try_l1 "resolve_batches" (resolve_batches seq_reader beacon (w_from w) (w_to w))
  else Next [].

Definition consume_window (w : Window) (rest : list Window) (joined : bool)
    (tip : result L1SyncError Z) (st : SyncState) : Step SyncState :=
  step_bind (await_window w joined) (fun resolved =>
  let '(derived, delayed_cache, report_cache) :=
    derive_from_resolved_cached seq_reader resolved (w_to w) (ss_delayed st)
      (cfg_delayed_window cfg) (ss_delayed_cache st) (ss_report_cache st) in
  step_bind (try_l1 "derive_from_resolved" derived) (fun derived =>
  let '(delivery, next_l2, sent) :=
    enqueue_derived_window (dr_messages derived) (ss_next_l2 st) (cfg_db_tip_l2 cfg)
      (cfg_genesis_block cfg) (cfg_l2_frontier cfg) (ss_sent st) in
  match delivery with
  | None => Return (Ok Exhausted)
  | Some d =>
      match frontier_reached d with
      | Some completion => Return (Ok completion)
      | None =>
          let delayed := dr_next_delayed_count derived in
          let consume_cursor := wrapping_add (w_to w) 1 in
          let st' pending log saved := {|
            ss_delayed := delayed; ss_delayed_cache := delayed_cache;
            ss_report_cache := report_cache; ss_consume_cursor := consume_cursor;
            ss_spawn_cursor := ss_spawn_cursor st; ss_safe_head := ss_safe_head st;
            ss_next_l2 := next_l2; ss_pending_ckpt := pending; ss_resume_log := log;
            ss_inflight := rest; ss_seen_batch_count := ss_seen_batch_count st;
            ss_head_batch_count := ss_head_batch_count st; ss_sent := sent;
            ss_consumed := ss_consumed st ++ [w]; ss_saved := saved |} in
          if cfg_checkpointing cfg then
            let pending := ss_pending_ckpt st ++
              [{| l1_block := consume_cursor; delayed_count := delayed;
                  l2_block := wrapping_sub next_l2 1 |}] in
            match tip with
            | Err e => Return (Err e)
            | Ok persisted =>
                let '(log, pending, saved) :=
                  maybe_write_checkpoint (ss_resume_log st) pending persisted in
                Next (st' pending log (match saved with Some l => Some l | None => ss_saved st end))
            end
          else Next (st' (ss_pending_ckpt st) (ss_resume_log st) (ss_saved st))
      end
  end)).

(** After the loop. *)
Definition sync_finish (st : SyncState) : result L1SyncError L1SyncCompletion :=
  match cfg_l2_frontier cfg with
  | Some f => Err (FrontierNotReached f (saturating_sub (ss_next_l2 st) 1))
  | None => Ok Exhausted
  end.

Definition sync_step (head : option Z) (joined : bool) (tip : result L1SyncError Z)
    (st : SyncState) : Step SyncState :=
  if past_end (ss_consume_cursor st) then Return (sync_finish st)
  else
    step_bind (refresh_head head st) (fun st =>
    step_bind (fill_pipeline st) (fun st =>
    match ss_inflight st with
    | [] => Next st
    | w :: rest => consume_window w rest joined tip st
    end)).

(** ** The windows partition the L1 range *)

(** Consecutive windows from block [a] up to but excluding block [b]. *)
Fixpoint tiles (a : Z) (ws : list Window) (b : Z) : Prop :=
  match ws with
  | [] => a = b
  | w :: ws' => w_from w = a /\ a <= w_to w /\ tiles (w_to w + 1) ws' b
  end.

Lemma tiles_app (a b c : Z) (ws vs : list Window) : tiles a ws b -> tiles b vs c -> tiles a (ws ++ vs) c.
Proof.
  revert a. induction ws as [|w ws IH]; intros a; cbn [tiles app]; [by intros ->|].
  intros (H1 & H2 & H3) H. eauto.
Qed.

Lemma tiles_app_inv (a c : Z) (ws vs : list Window) :
  tiles a (ws ++ vs) c -> exists b, tiles a ws b /\ tiles b vs c.
Proof.
  revert a. induction ws as [|w ws IH]; intros a; cbn [tiles app]; [by exists a|].
  intros (H1 & H2 & H3). destruct (IH _ H3) as (b & Hb & Hc). by exists b.
Qed.

Lemma tiles_le (a b : Z) (ws : list Window) : tiles a ws b -> a <= b.
Proof.
  revert a. induction ws as [|w ws IH]; intros a; cbn [tiles]; [lia|].
  intros (_ & H & Ht). apply IH in Ht. lia.
Qed.

(** Every block of the range lies in a window. *)
Lemma tiles_find (a b x : Z) (ws : list Window) :
  tiles a ws b -> a <= x < b -> exists w, In w ws /\ w_from w <= x <= w_to w /\ a <= w_from w.
Proof.
  revert a. induction ws as [|w ws IH]; intros a; cbn [tiles]; [lia|].
  intros (H1 & H2 & H3) Hx. destruct (decide (x <= w_to w)).
  - exists w. split; [by left|lia].
  - destruct (IH _ H3) as (v & Hv & Hr & Ha); [lia|]. exists v. split; [by right|lia].
Qed.

Section View.
Variable count : Z -> Z.

(** The batch-count view of the L1: it answers everywhere, never decreases and is zero at the
    genesis block. *)
Hypothesis Hview : forall b, 0 <= b -> batch_count b = Ok (count b).
Hypothesis Hmono : forall b b', 0 <= b -> b <= b' -> count b <= count b'.
Hypothesis Hgenesis : count 0 = 0.

(** Block numbers and the window size stay far from the end of [u64]. *)
Hypothesis Hwindow : window < 2 ^ 63.
Hypothesis Hstart : 0 <= cfg_start_block cfg < 2 ^ 63.
Hypothesis Hconf : 0 <= cfg_confirmations cfg.

(** Batches posted before block [b]. *)
Definition count_before (b : Z) : Z := if b =? 0 then 0 else count (b - 1).

Lemma count_before_succ (b : Z) : 0 <= b -> count_before (b + 1) = count b.
Proof.
  intros Hb. unfold count_before. rewrite (proj2 (Z.eqb_neq _ 0)) by lia. f_equal. lia.
Qed.

Lemma count_nonneg (b : Z) : 0 <= b -> 0 <= count b.
Proof. intros Hb. rewrite <- Hgenesis. apply Hmono; lia. Qed.

Lemma count_before_mono (b b' : Z) : 0 <= b -> b <= b' -> count_before b <= count_before b'.
Proof.
  intros Hb Hle. unfold count_before. destruct (Z.eqb_spec b 0), (Z.eqb_spec b' 0); try lia.
  - apply count_nonneg. lia.
  - apply Hmono; lia.
Qed.

Lemma count_before_le (b : Z) : 0 <= b -> count_before b <= count b.
Proof. intros Hb. rewrite <- count_before_succ by done. apply count_before_mono; lia. Qed.

(** An empty window really is barren. *)
Definition barren_ok (w : Window) : Prop :=
  w_scan w = false -> count_before (w_to w + 1) = count_before (w_from w).

Record pipeline_inv (st : SyncState) : Prop := {
  pi_tiles : tiles (cfg_start_block cfg) (ss_consumed st ++ ss_inflight st) (ss_spawn_cursor st);
  pi_consumed : tiles (cfg_start_block cfg) (ss_consumed st) (ss_consume_cursor st);
  pi_barren : Forall barren_ok (ss_consumed st ++ ss_inflight st);
  pi_seen : ss_seen_batch_count st = count_before (ss_spawn_cursor st);
  pi_head : 0 <= ss_safe_head st < 2 ^ 63 /\ ss_head_batch_count st = count (ss_safe_head st);
  pi_spawn : ss_spawn_cursor st <= 2 ^ 63
}.

Lemma sync_init_inv (file : option L1ResumeLog) (st : SyncState) :
  sync_init file = Next st -> pipeline_inv st.
Proof.
  unfold sync_init, check_frontier. intros H.
  assert (H' : exists seen, seen = count_before (cfg_start_block cfg) /\
    ss_consumed st = [] /\ ss_inflight st = [] /\ ss_spawn_cursor st = cfg_start_block cfg /\
    ss_consume_cursor st = cfg_start_block cfg /\ ss_seen_batch_count st = seen /\
    ss_safe_head st = 0 /\ ss_head_batch_count st = 0).
  { destruct (cfg_l2_frontier cfg) as [f|]; [destruct (f <=? _); [done|]|]; cbn [step_bind] in H.
    all: unfold count_before in *; destruct (Z.eqb_spec (cfg_start_block cfg) 0) as [E|E];
      [|rewrite Hview in H by lia]; cbn [step_bind try_l1] in H; injection H as <-;
      eexists; split_and!; done. }
  destruct H' as (seen & Hs & Hc & Hi & Hsp & Hco & Hse & Hsh & Hh).
  split; rewrite ?Hc, ?Hi, ?Hsp, ?Hco, ?Hse, ?Hsh, ?Hh; cbn [app tiles]; (done || lia).
Qed.

Lemma refresh_head_inv (head : option Z) (st st' : SyncState) :
  (forall h, head = Some h -> h < 2 ^ 63) -> pipeline_inv st ->
  refresh_head head st = Next st' -> pipeline_inv st'.
Proof.
  intros Hh Hi. unfold refresh_head. destruct (_ <? _); [|by intros [= <-]].
  destruct head as [h|]; [|done]. specialize (Hh h eq_refl).
  rewrite Hview by (unfold saturating_sub; lia). cbn [try_l1 step_bind]. intros [= <-].
  destruct Hi. unfold set_head. split; cbn; try done.
  split; [unfold saturating_sub; lia|done].
Qed.

Lemma count_at_view (operation : string) (st : SyncState) (b : Z) :
  pipeline_inv st -> 0 <= b -> count_at operation st b = Next (count b).
Proof.
  intros Hi Hb. unfold count_at. destruct (Z.eqb_spec b (ss_safe_head st)) as [->|].
  - by rewrite (proj2 (pi_head st Hi)).
  - by rewrite Hview.
Qed.

(** A pushed window extends the partition. *)
Lemma push_window_inv (st : SyncState) (to : Z) (scan : bool) (seen : Z) :
  pipeline_inv st -> 0 <= ss_spawn_cursor st <= to -> to < 2 ^ 63 ->
  seen = count_before (to + 1) ->
  (scan = false -> count_before (to + 1) = count_before (ss_spawn_cursor st)) ->
  pipeline_inv (push_window st to scan seen).
Proof.
  intros [Ht Hc Hb Hs Hh Hp] Hto Hmax Hseen Hbar.
  assert (Hw : wrapping_add to 1 = to + 1) by (apply wrap64_small; unfold is_u64; lia).
  unfold push_window. split; cbn; try done; rewrite ?Hw; rewrite ?app_assoc.
  - eapply tiles_app; [exact Ht|]. cbn. lia.
  - apply Forall_app. split; [done|]. repeat constructor. unfold barren_ok. cbn. done.
  - done.
  - lia.
Qed.

Lemma window_pos : 1 <= window.
Proof. unfold window. lia. Qed.

Lemma spawn_window_inv (st st' : SyncState) :
  pipeline_inv st -> ss_spawn_cursor st <= ss_safe_head st -> past_end (ss_spawn_cursor st) = false ->
  spawn_window st = Next st' -> pipeline_inv st'.
Proof.
  intros Hi Hsp Hend. pose proof window_pos as Hwp. unfold spawn_window.
  assert (Hfrom : 0 <= ss_spawn_cursor st).
  { destruct Hi as [Ht _ _ _ _ _]. apply tiles_le in Ht. lia. }
  pose proof (proj1 (pi_head st Hi)) as Hhead.
  set (from := ss_spawn_cursor st) in *. set (hi := match cfg_end_block cfg with Some e => _ | None => _ end).
  assert (Hhi : from <= hi <= ss_safe_head st).
  { unfold hi, past_end in *. destruct (cfg_end_block cfg) as [e|]; [|lia]. apply Z.ltb_ge in Hend. lia. }
  assert (Hw : wrapping_sub (wrapping_add from window) 1 = from + window - 1).
  { unfold wrapping_sub, wrapping_add. rewrite !wrap64_small; unfold is_u64; try lia.
    rewrite wrap64_small; unfold is_u64; lia. }
  rewrite Hw. set (win_to := Z.min (from + window - 1) hi).
  assert (Hwin : from <= win_to <= hi) by (unfold win_to; lia).
  rewrite count_at_view by (done || lia). cbn [step_bind].
  rewrite (pi_seen st Hi). fold from.
  destruct (Z.ltb_spec (count_before from) (count win_to)) as [Hup|Hflat].
  { intros [= <-]. apply push_window_inv; [done|fold from; lia|lia| |done].
    by rewrite count_before_succ by lia. }
  assert (Hwb : count win_to = count_before from).
  { pose proof (count_before_le win_to ltac:(lia)).
    pose proof (count_before_mono from win_to ltac:(lia) ltac:(lia)). lia. }
  rewrite count_at_view by (done || lia). cbn [step_bind].
  destruct (Z.eqb_spec (count hi) (count_before from)) as [Heq|Hne].
  { cbn [step_bind]. intros [= <-]. apply push_window_inv; try done; try lia;
      rewrite ?count_before_succ by lia; by rewrite Heq. }
  assert (Hlt : count win_to < count hi) by (pose proof (Hmono win_to hi ltac:(lia) ltac:(lia)); lia).
  assert (win_to <> hi) by (intros Hx; rewrite Hx in Hlt; lia).
  assert (Hw1 : wrapping_add win_to 1 = win_to + 1) by (apply wrap64_small; unfold is_u64; lia).
  rewrite Hw1. destruct (SequencerInboxReader.search_least seq_reader count (win_to + 1) hi (count_before from))
    as (b & Hb & Hbr & Hbc & Hleast); [lia| |lia|].
  { split; [intros x Hx; apply Hview; lia|]. intros x y Hx Hxy Hy. apply Hmono; lia. }
  rewrite Hb. cbn [try_l1 step_bind]. intros [= <-].
  assert (Hb1 : wrapping_sub b 1 = b - 1) by (apply wrap64_small; unfold is_u64; lia).
  rewrite Hb1.
  assert (Hbar : count_before (b - 1 + 1) = count_before from).
  { rewrite count_before_succ by lia. destruct (decide (b - 1 = win_to)) as [->|Hgt]; [done|].
    pose proof (Hleast (b - 1) ltac:(lia)). pose proof (Hmono win_to (b - 1) ltac:(lia) ltac:(lia)). lia. }
  apply push_window_inv; try done; lia.
Qed.

Lemma fill_loop_inv (slots : nat) (st st' : SyncState) :
  pipeline_inv st -> fill_loop slots st = Next st' -> pipeline_inv st'.
Proof.
  revert st. induction slots as [|slots IH]; intros st Hi; cbn [fill_loop]; [by intros [= <-]|].
  destruct ((ss_spawn_cursor st <=? ss_safe_head st) && negb (past_end (ss_spawn_cursor st))) eqn:E;
    [|by intros [= <-]].
  apply andb_prop in E as [E1%Z.leb_le E2%negb_true_iff].
  destruct (spawn_window st) as [st1| |] eqn:Es; cbn [step_bind]; try done.
  apply IH. by eapply spawn_window_inv.
Qed.

Lemma consume_window_inv (w : Window) (rest : list Window) (joined : bool)
    (tip : result L1SyncError Z) (st st' : SyncState) :
  pipeline_inv st -> ss_inflight st = w :: rest ->
  consume_window w rest joined tip st = Next st' -> pipeline_inv st'.
Proof.
  intros [Ht Hc Hb Hs Hh Hsp] Hin H. unfold consume_window in H.
  assert (Hkeep : ss_consumed st' = ss_consumed st ++ [w] /\ ss_inflight st' = rest /\
    ss_consume_cursor st' = wrapping_add (w_to w) 1 /\ ss_spawn_cursor st' = ss_spawn_cursor st /\
    ss_safe_head st' = ss_safe_head st /\ ss_head_batch_count st' = ss_head_batch_count st /\
    ss_seen_batch_count st' = ss_seen_batch_count st).
  { destruct (await_window w joined) as [resolved| |]; cbn [step_bind] in H; try done.
    destruct (derive_from_resolved_cached _ _ _ _ _ _ _) as [[derived dc] rc].
    destruct (try_l1 "derive_from_resolved" derived) as [dr| |]; cbn [step_bind] in H; try done.
    destruct (enqueue_derived_window _ _ _ _ _ _) as [[[d|] n2] sent]; [|done].
    destruct (frontier_reached d); [done|]. destruct (cfg_checkpointing cfg).
    - destruct tip as [persisted|]; [|done].
      destruct (maybe_write_checkpoint _ _ _) as [[log pending] saved]. by injection H as <-.
    - by injection H as <-. }
  destruct Hkeep as (K1 & K2 & K3 & K4 & K5 & K6 & K7). rewrite Hin in Ht, Hb.
  pose proof Ht as Ht'. apply tiles_app_inv in Ht' as (b & Hcb & Hbw).
  assert (Hcur : ss_consume_cursor st = b).
  { clear -Hc Hcb. revert Hc Hcb. generalize (cfg_start_block cfg). induction (ss_consumed st) as [|v vs IH];
      intros a; cbn [tiles]; [congruence|]. intros (_ & _ & H1) (_ & _ & H2). eauto. }
  cbn [tiles] in Hbw. destruct Hbw as (Hwf & Hwt & Hrest). pose proof (tiles_le _ _ _ Hrest) as Hle.
  pose proof (tiles_le _ _ _ Hcb) as Hab.
  assert (Hw : wrapping_add (w_to w) 1 = w_to w + 1) by (apply wrap64_small; unfold is_u64; lia).
  split; rewrite ?K1, ?K2, ?K3, ?K4, ?K5, ?K6, ?K7, ?Hw; try done.
  - rewrite <- app_assoc. done.
  - eapply tiles_app; [exact Hcb|]. cbn. lia.
  - rewrite <- app_assoc. done.
Qed.

(** States the runtime can reach, whatever the head, the joins and the persisted tip. *)
Inductive reachable (file : option L1ResumeLog) : SyncState -> Prop :=
| reach_init st : sync_init file = Next st -> reachable file st
| reach_step head joined tip st st' :
    reachable file st -> (forall h, head = Some h -> h < 2 ^ 63) ->
    sync_step head joined tip st = Next st' -> reachable file st'.

Lemma sync_step_inv (head : option Z) (joined : bool) (tip : result L1SyncError Z) (st st' : SyncState) :
  (forall h, head = Some h -> h < 2 ^ 63) -> pipeline_inv st ->
  sync_step head joined tip st = Next st' -> pipeline_inv st'.
Proof.
  intros Hh Hi. unfold sync_step. destruct (past_end _); [done|].
  destruct (refresh_head head st) as [st1| |] eqn:E1; cbn [step_bind]; try done.
  pose proof (refresh_head_inv _ _ _ Hh Hi E1) as Hi1. unfold fill_pipeline.
  destruct (fill_loop _ st1) as [st2| |] eqn:E2; cbn [step_bind]; try done.
  pose proof (fill_loop_inv _ _ _ Hi1 E2) as Hi2.
  destruct (ss_inflight st2) as [|w rest] eqn:E3; [by intros [= <-]|].
  by apply consume_window_inv.
Qed.

Lemma reachable_inv (file : option L1ResumeLog) (st : SyncState) : reachable file st -> pipeline_inv st.
Proof. induction 1; eauto using sync_init_inv, sync_step_inv. Qed.

(** A batch posted in a spawned block lies in a scanned window. *)
Lemma batches_scanned (st : SyncState) (b : Z) :
  pipeline_inv st -> cfg_start_block cfg <= b < ss_spawn_cursor st -> count_before b < count b ->
  exists w, In w (ss_consumed st ++ ss_inflight st) /\ w_scan w = true /\ w_from w <= b <= w_to w.
Proof.
  intros [Ht _ Hb _ _ _] Hr Hup. destruct (tiles_find _ _ b _ Ht Hr) as (w & Hw & Hwb & Hge).
  exists w. split; [done|]. split; [|done]. destruct (w_scan w) eqn:Es; [done|exfalso].
  eapply List.Forall_forall in Hb; [|exact Hw]. specialize (Hb Es).
  rewrite count_before_succ in Hb by lia.
  pose proof (Hmono b (w_to w) ltac:(lia) ltac:(lia)).
  pose proof (count_before_mono (w_from w) b ltac:(lia) ltac:(lia)). lia.
Qed.

End View.
End Pipeline.

(** C5. In every state the catch-up loop reaches, the windows consumed and in flight partition the
    L1 blocks from the start block to the spawn cursor, the consumed ones up to the consume cursor:
    no block is skipped or processed twice and they are consumed in order. Whenever the batch-count
    view is non-decreasing (and zero at block 0), every block in which a batch was posted lies in a
    window that is really scanned: the barren-range shortcut and the binary search never jump over
    a batch. *)
Theorem pipeline_covers {KC : Keccak} {RLP : Rlp} {BR : Brotli} {ABI : SolAbi} {B64 : Base64}
    {PR : Provider} {API : Beacon.BeaconApi} {DF : DelayedFetch} {FC : FeedChannel}
    (cfg : L1SyncConfig) (seq_reader : SequencerInboxReader.t)
    (beacon : option Beacon.BeaconClient) (count : Z -> Z) (file : option L1ResumeLog)
    (st : SyncState) :
  (forall b, 0 <= b -> batch_count seq_reader b = Ok (count b)) ->
  (forall b b', 0 <= b -> b <= b' -> count b <= count b') -> count 0 = 0 ->
  window cfg < 2 ^ 63 -> 0 <= cfg_start_block cfg < 2 ^ 63 -> 0 <= cfg_confirmations cfg ->
  reachable cfg seq_reader beacon file st ->
  tiles (cfg_start_block cfg) (ss_consumed st ++ ss_inflight st) (ss_spawn_cursor st) /\
  tiles (cfg_start_block cfg) (ss_consumed st) (ss_consume_cursor st) /\
  (forall b, cfg_start_block cfg <= b < ss_spawn_cursor st -> count_before count b < count b ->
     exists w, In w (ss_consumed st ++ ss_inflight st) /\ w_scan w = true /\ w_from w <= b <= w_to w).
Proof.
  intros Hv Hm Hg Hw Hs Hc Hr.
  pose proof (reachable_inv cfg seq_reader beacon count Hv Hm Hg Hw Hs Hc file st Hr) as Hi.
  split_and!; [apply Hi|apply Hi|]. intros b Hb Hup.
  by apply (batches_scanned cfg count Hm Hg Hs st b Hi).
Qed.

(** ** Witness: the first step of a sync from block 5 on the sample L1 *)

Definition sample_config : L1SyncConfig := L1SyncConfig_mainnet 5 0.

Definition sample_init : Step SyncState :=
  sync_init (PR := sample_provider) sample_config SequencerInboxReader.mainnet None.

Definition sample_step (st : SyncState) : Step SyncState :=
  sync_step (KC := Reference.keccak) (RLP := Reference.rlp) (BR := Reference.brotli)
    (ABI := Reference.sol_abi) (B64 := Reference.base64) (PR := sample_provider)
    (API := Beacon.sample_api) (DF := sample_fetch) (FC := open_channel)
    sample_config SequencerInboxReader.mainnet None (Some 30) true (Ok 0) st.

Definition state_of (s : Step SyncState) (d : SyncState) : SyncState :=
  match s with Next st => st | _ => d end.

Definition blank_state : SyncState := {|
  ss_delayed := 0; ss_delayed_cache := DelayedCache_new; ss_report_cache := [];
  ss_consume_cursor := 0; ss_spawn_cursor := 0; ss_safe_head := 0; ss_next_l2 := 0;
  ss_pending_ckpt := []; ss_resume_log := []; ss_inflight := []; ss_seen_batch_count := 0;
  ss_head_batch_count := 0; ss_sent := []; ss_consumed := []; ss_saved := None
|}.

Definition sample_state : SyncState := state_of (sample_step (state_of sample_init blank_state)) blank_state.

Lemma sample_reachable :
  reachable (KC := Reference.keccak) (RLP := Reference.rlp) (BR := Reference.brotli)
    (ABI := Reference.sol_abi) (B64 := Reference.base64) (PR := sample_provider)
    (API := Beacon.sample_api) (DF := sample_fetch) (FC := open_channel)
    sample_config SequencerInboxReader.mainnet None None sample_state.
Proof.
  eapply (reach_step _ _ _ _ (Some 30) true (Ok 0)).
  - apply reach_init with (st := state_of sample_init blank_state). vm_compute. reflexivity.
  - intros h [= <-]. lia.
  - vm_compute. reflexivity.
Qed.

Lemma pipeline_covers_witness :
  ss_spawn_cursor sample_state = 23 /\
  tiles 5 (ss_consumed sample_state ++ ss_inflight sample_state) (ss_spawn_cursor sample_state).
Proof.
  split; [vm_compute; reflexivity|].
  refine (proj1 (pipeline_covers sample_config SequencerInboxReader.mainnet None sample_count None
    sample_state _ _ _ _ _ _ sample_reachable)).
  - intros b _. apply sample_batch_count.
  - intros b b' _. apply sample_count_mono.
  - reflexivity.
  - reflexivity.
  - split; [discriminate|reflexivity].
  - discriminate.
Defined.

(** ** Supervision *)

(** One attempt ends by the shutdown signal or with the result of [run_l1_sync]. *)
Inductive Attempt :=
| ShutDown
| Finished (r : result L1SyncError L1SyncCompletion).

(** What happens around the supervisor: the persisted tip and the resume file at its [k]th poll,
    the outcome of the [k]th attempt, and whether the wait after it ends before shutdown. *)
Record Surroundings := {
  poll_tip : nat -> result L1SyncError Z;
  poll_file : nat -> option L1ResumeLog;
  attempt : nat -> L1SyncConfig -> Attempt;
  wait_ends : nat -> Z -> bool
}.

Section Supervisor.
Variables (env : Surroundings) (base_cfg : L1SyncConfig).

(** The configuration of attempt [k]: the caller's resume point first, then the newest checkpoint. *)
Definition attempt_config (k poll : nat) (tip : Z) : L1SyncConfig :=
  if (k =? 0)%nat then with_tip base_cfg tip else resume_config base_cfg (poll_file env poll) tip.

(** The supervision loop; each attempt polls the tip once before and, when it failed in a
    retryable way, once after. [None]: the fuel (number of attempts) ran out. *)
Fixpoint supervise_loop (fuel k poll : nat) (backoff : RetryBackoff)
    : option (result L1SyncError L1SyncCompletion) :=
  match fuel with
  | O => None
  | S fuel' =>
      match poll_tip env poll with
      | Err e => Some (Err e)
      | Ok tip =>
          let attempt_start := progress base_cfg (poll_file env poll) tip in
          match attempt env k (attempt_config k poll tip) with
          | ShutDown => Some (Ok Exhausted)
          | Finished (Ok completion) => Some (Ok completion)
          | Finished (Err err) =>
              if negb (is_retryable err) then Some (Err err)
              else
                match poll_tip env (S poll) with
                | Err e => Some (Err e)
                | Ok tip' =>
                    let made_progress :=
                      negb (bool_decide (progress base_cfg (poll_file env (S poll)) tip' = attempt_start)) in
                    let '(delay, backoff) := next_delay backoff made_progress in
                    if wait_ends env k delay
                    then supervise_loop fuel' (S k) (S (S poll)) backoff
                    else Some (Ok Exhausted)
                end
          end
      end
  end.

Definition supervise_l1_sync (fuel : nat) : option (result L1SyncError L1SyncCompletion) :=
  supervise_loop fuel 0 0 (RetryBackoff_new RETRY_INITIAL_DELAY RETRY_MAX_DELAY).

(** *** What the supervisor does, attempt by attempt *)

(** Where attempt [k] starts: where the caller said at first, then at the last checkpoint of the
    resume file that is not above the durable tip, with that tip. *)
Definition started (k : nat) (tip : Z) : L1SyncConfig :=
  let checkpoint := if (k =? 0)%nat then None
                    else log ← loaded_log base_cfg (poll_file env (2 * k));
                         last (List.filter (fun cp => l2_block cp <=? tip) log) in
  match checkpoint with
  | Some cp => with_start (with_tip base_cfg tip) cp
  | None => with_tip base_cfg tip
  end.

(** The tip or the newest usable checkpoint changed during attempt [k]. *)
Definition moved (k : nat) : bool :=
  match poll_tip env (2 * k), poll_tip env (S (2 * k)) with
  | Ok tip, Ok tip' => negb (bool_decide (progress base_cfg (poll_file env (S (2 * k))) tip' =
                                          progress base_cfg (poll_file env (2 * k)) tip))
  | _, _ => false
  end.

(** The attempts in a row before [k] that did not move, as the delay counts them. *)
Fixpoint stalled (k : nat) : Z :=
  if moved k then 0 else match k with O => 0 | S k' => stalled k' + 1 end.

Fixpoint backoff_at (k : nat) : RetryBackoff :=
  match k with
  | O => RetryBackoff_new RETRY_INITIAL_DELAY RETRY_MAX_DELAY
  | S k => snd (next_delay (backoff_at k) (moved k))
  end.

Definition delay_at (k : nat) : Z := fst (next_delay (backoff_at k) (moved k)).

(** Attempt [k] failed in a retryable way and the wait after it ended before the shutdown. *)
Inductive retried_at (k : nat) : Prop :=
| retried tip err tip' :
    poll_tip env (2 * k) = Ok tip -> attempt env k (started k tip) = Finished (Err err) -> is_retryable err = true ->
    poll_tip env (S (2 * k)) = Ok tip' -> wait_ends env k (delay_at k) = true -> retried_at k.

(** Attempt [k] is the last one. *)
Inductive ends_at (k : nat) : result L1SyncError L1SyncCompletion -> Prop :=
| ends_tip e : poll_tip env (2 * k) = Err e -> ends_at k (Err e)
| ends_shutdown tip : poll_tip env (2 * k) = Ok tip -> attempt env k (started k tip) = ShutDown -> ends_at k (Ok Exhausted)
| ends_completed tip c :
    poll_tip env (2 * k) = Ok tip -> attempt env k (started k tip) = Finished (Ok c) -> ends_at k (Ok c)
| ends_failed tip err :
    poll_tip env (2 * k) = Ok tip -> attempt env k (started k tip) = Finished (Err err) -> is_retryable err = false ->
    ends_at k (Err err)
| ends_tip_after tip err e :
    poll_tip env (2 * k) = Ok tip -> attempt env k (started k tip) = Finished (Err err) -> is_retryable err = true ->
    poll_tip env (S (2 * k)) = Err e -> ends_at k (Err e)
| ends_waiting tip err tip' :
    poll_tip env (2 * k) = Ok tip -> attempt env k (started k tip) = Finished (Err err) -> is_retryable err = true ->
    poll_tip env (S (2 * k)) = Ok tip' -> wait_ends env k (delay_at k) = false -> ends_at k (Ok Exhausted).

Lemma attempt_config_started (k : nat) (tip : Z) : attempt_config k (2 * k) tip = started k tip.
Proof.
  unfold attempt_config, started, resume_config. destruct (k =? 0)%nat; [done|].
  destruct (loaded_log base_cfg (poll_file env (2 * k))) as [log|]; cbn [mbind option_bind]; [|done].
  by rewrite last_filter.
Qed.

(** One turn of the loop: its result, or another attempt. *)
Definition turn (k : nat) : option (result L1SyncError L1SyncCompletion) :=
  match poll_tip env (2 * k) with
  | Err e => Some (Err e)
  | Ok tip =>
      match attempt env k (started k tip) with
      | ShutDown => Some (Ok Exhausted)
      | Finished (Ok c) => Some (Ok c)
      | Finished (Err err) =>
          if is_retryable err then
            match poll_tip env (S (2 * k)) with
            | Err e => Some (Err e)
            | Ok _ => if wait_ends env k (delay_at k) then None else Some (Ok Exhausted)
            end
          else Some (Err err)
      end
  end.

Lemma turn_ends (k : nat) (r : result L1SyncError L1SyncCompletion) : turn k = Some r <-> ends_at k r.
Proof.
  unfold turn. split.
  - destruct (poll_tip env (2 * k)) as [tip|] eqn:E1; [|intros [= <-]; by apply ends_tip].
    destruct (attempt env k (started k tip)) as [|[c|err]] eqn:E2; [intros [= <-]; by econstructor..|].
    destruct (is_retryable err) eqn:E3; [|intros [= <-]; by econstructor].
    destruct (poll_tip env (S (2 * k))) eqn:E4; [|intros [= <-]; by eapply ends_tip_after].
    destruct (wait_ends env k (delay_at k)) eqn:E5; [done|]. intros [= <-]. by eapply ends_waiting.
  - intros H. destruct H; repeat match goal with H : _ = _ |- _ => rewrite H; clear H end; done.
Qed.

Lemma turn_retries (k : nat) : turn k = None <-> retried_at k.
Proof.
  unfold turn. split.
  - destruct (poll_tip env (2 * k)) as [tip|] eqn:E1; [|done].
    destruct (attempt env k (started k tip)) as [|[c|err]] eqn:E2; [done..|].
    destruct (is_retryable err) eqn:E3; [|done]. destruct (poll_tip env (S (2 * k))) eqn:E4; [|done].
    destruct (wait_ends env k (delay_at k)) eqn:E5; [|done]. by econstructor.
  - intros H. destruct H; repeat match goal with H : _ = _ |- _ => rewrite H; clear H end; done.
Qed.

Lemma supervise_loop_turn (fuel k : nat) :
  supervise_loop (S fuel) k (2 * k) (backoff_at k) =
  match turn k with
  | Some r => Some r
  | None => supervise_loop fuel (S k) (2 * S k) (backoff_at (S k))
  end.
Proof.
  cbn [supervise_loop]. unfold turn. destruct (poll_tip env (2 * k)) as [tip|e] eqn:E1; [|done].
  rewrite attempt_config_started. destruct (attempt env k (started k tip)) as [|[c|err]]; [done..|].
  destruct (is_retryable err); cbn [negb]; [|done]. destruct (poll_tip env (S (2 * k))) as [tip'|e] eqn:E2; [|done].
  assert (Hm : negb (bool_decide (progress base_cfg (poll_file env (S (2 * k))) tip' =
            progress base_cfg (poll_file env (2 * k)) tip)) = moved k) by (unfold moved; by rewrite E1, E2).
  rewrite Hm. unfold delay_at. cbn [backoff_at]. replace (S (S (2 * k))) with (2 * S k)%nat by lia.
  destruct (next_delay (backoff_at k) (moved k)) as [d b]. cbn [fst snd]. by destruct (wait_ends env k d).
Qed.

Lemma supervise_loop_spec (fuel k : nat) :
  match supervise_loop fuel k (2 * k) (backoff_at k) with
  | Some r => exists n, (k <= n < k + fuel)%nat /\ (forall i, (k <= i < n)%nat -> retried_at i) /\ ends_at n r
  | None => forall i, (k <= i < k + fuel)%nat -> retried_at i
  end.
Proof.
  revert k. induction fuel as [|fuel IH]; intros k; [intros i; lia|]. rewrite supervise_loop_turn.
  destruct (turn k) as [r|] eqn:Et.
  - exists k. split; [lia|]. split; [intros i; lia|]. by apply turn_ends.
  - apply turn_retries in Et. specialize (IH (S k)). destruct (supervise_loop _ _ _ _) as [r|].
    + destruct IH as (n & Hn & Hr & He). exists n. split; [lia|]. split; [|done].
      intros i Hi. destruct (decide (i = k)) as [->|]; [done|]. apply Hr. lia.
    + intros i Hi. destruct (decide (i = k)) as [->|]; [done|]. apply IH. lia.
Qed.

(** Every attempt but one ends in one way, and the first that is not retried is the last. *)
Lemma last_attempt_unique (n n' : nat) (r r' : result L1SyncError L1SyncCompletion) :
  (forall i, (i < n)%nat -> retried_at i) -> ends_at n r ->
  (forall i, (i < n')%nat -> retried_at i) -> ends_at n' r' -> n = n' /\ r = r'.
Proof.
  intros Hr He%turn_ends Hr' He'%turn_ends. assert (n = n') as <-.
  { destruct (Nat.lt_trichotomy n n') as [Hlt|[->|Hlt]]; [|done|].
    - specialize (Hr' n Hlt). apply turn_retries in Hr'. congruence.
    - specialize (Hr n' Hlt). apply turn_retries in Hr. congruence. }
  split; [done|congruence].
Qed.

Lemma backoff_at_spec (k : nat) :
  0 <= failures_without_progress (backoff_at k) <= U32_MAX /\ initial (backoff_at k) = RETRY_INITIAL_DELAY /\
  maximum (backoff_at k) = RETRY_MAX_DELAY /\
  (if moved k then 0 else failures_without_progress (backoff_at k)) = Z.min (stalled k) U32_MAX /\ 0 <= stalled k.
Proof.
  induction k as [|k (Hf & Hi & Hm & Hs & H0)].
  { cbn. destruct (moved 0); unfold U32_MAX; split_and!; try done; lia. }
  pose proof (next_delay_bounds (backoff_at k) (moved k) Hf) as Hb. rewrite Hi, Hm, Hs in Hb. cbn [backoff_at stalled].
  destruct (next_delay (backoff_at k) (moved k)) as [d b]. cbn [snd].
  destruct Hb as (_ & _ & Hf' & Hi' & Hm'); [by vm_compute|by split; vm_compute|].
  rewrite Hf', Hi', Hm'. unfold U32_MAX in *. destruct (moved (S k)); split_and!; lia.
Qed.

Lemma delay_at_bounds (k : nat) :
  Z.min (RETRY_INITIAL_DELAY * 2 ^ Z.min (stalled k) 31) RETRY_MAX_DELAY <= delay_at k <= RETRY_MAX_DELAY.
Proof.
  destruct (backoff_at_spec k) as (Hf & Hi & Hm & Hs & H0).
  pose proof (next_delay_bounds (backoff_at k) (moved k) Hf) as Hb. rewrite Hi, Hm, Hs in Hb. unfold delay_at.
  destruct (next_delay (backoff_at k) (moved k)) as [d b]. cbn [fst].
  destruct Hb as (Hd & _); [by vm_compute|by split; vm_compute|].
  by replace (Z.min (Z.min (stalled k) U32_MAX) 31) with (Z.min (stalled k) 31) in Hd by (unfold U32_MAX; lia).
Qed.


End Supervisor.

(** An outage at the caller's starting point; then the resume file has a checkpoint, from which a second
    outage and a deterministic failure follow. *)
Definition sample_surroundings : Surroundings := {|
  poll_tip _ := Ok 100;
  poll_file p := if (p <? 2)%nat then None else Some [{| l1_block := 7; delayed_count := 3; l2_block := 90 |}];
  attempt k cfg := if (k <? 2)%nat then Finished (Err (provider_error "get_block_number"))
                   else if cfg_start_block cfg =? 7 then Finished (Err InvalidRpcUrl) else ShutDown;
  wait_ends _ delay := delay <=? 2400000000
|}.

Definition checkpointing_config : L1SyncConfig := {|
  cfg_sequencer_inbox := 0; cfg_bridge := 0; cfg_start_block := 5; cfg_end_block := None;
  cfg_start_delayed_count := 0; cfg_start_l2_block := 0; cfg_db_tip_l2 := 0; cfg_l2_frontier := None;
  cfg_genesis_block := 0; cfg_checkpointing := true; cfg_batch_window := 1000; cfg_delayed_window := 1000;
  cfg_confirmations := 8; cfg_prefetch_windows := 6
|}.

