(* ===== verification/TrustedL2.v ===== *)
(** * Trusted-L2 divergence protection

    [crates/arb-reth-node/src/trusted_l2.rs] and the monitor task of
    [crates/arb-reth-node/src/commands/node.rs]: hexadecimal quantities of the remote API, the
    comparison of durable headers with the trusted endpoint, and the no-clobber publication of the
    incident marker. The JSON-RPC client's answers and [B256::from_str] are parameters. *)

From Stdlib Require Import Strings.Byte Strings.String Sorted.
From stdpp Require Import base list numbers option strings gmap sorting.
From S2P Require Import Prelude FileSystem.

(** ** Quantities *)

Definition hex_nibble (b : u8) : option Z :=
  let z := b2z b in
  if (48 <=? z) && (z <=? 57) then Some (z - 48)
  else if (97 <=? z) && (z <=? 102) then Some (z - 87)
  else if (65 <=? z) && (z <=? 70) then Some (z - 55)
  else None.

(** The digits of [u64::from_str_radix(_, 16)]: each multiplication and addition is checked. *)
Fixpoint from_hex (acc : Z) (digits : bytes) : option Z :=
  match digits with
  | [] => Some acc
  | b :: digits =>
      d ← hex_nibble b;
      if acc * 16 + d <=? U64_MAX then from_hex (acc * 16 + d) digits else None
  end.

(** [u64::from_str_radix(_, 16)]: one leading [+] is skipped when a digit follows. *)
Definition from_str_radix_16 (src : bytes) : option Z :=
  match src with
  | [] => None
  | x2b :: rest => match rest with [] => None | _ => from_hex 0 rest end
  | _ => from_hex 0 src
  end.

Definition parse_quantity (value : bytes) : option Z :=
  match value with
  | x30 :: x78 :: digits => from_str_radix_16 digits
  | _ => None
  end.

Definition hex_char (d : Z) : u8 := z2b (if d <? 10 then 48 + d else 87 + d).

Fixpoint hex_digits (fuel : nat) (n : Z) : bytes :=
  match fuel with
  | O => []
  | S fuel => (if n <? 16 then [] else hex_digits fuel (n / 16)) ++ [hex_char (n mod 16)]
  end.

(** [format!("0x{number:x}")]; a [u64] has at most sixteen digits. *)
Definition format_quantity (n : Z) : bytes := x30 :: x78 :: hex_digits 16 n.

(** ** Headers *)

(** What is read of a header, and of the node's provider. *)
Record HeaderRow := { hr_hash : Z; hr_state_root : Z }.

Record NodeProvider := {
  last_block_number : result string Z;
  sealed_header : Z -> result string (option HeaderRow)
}.

Record HeaderObservation := { number : Z; hash : Z; state_root : Z }.

#[export] Instance HeaderObservation_eq_dec : EqDecision HeaderObservation.
Proof. solve_decision. Defined.

Definition durable_header_at (provider : NodeProvider) (n : Z) : result string (option HeaderObservation) :=
  let? header := sealed_header provider n in
  Ok ((fun h => {| number := n; hash := hr_hash h; state_root := hr_state_root h |}) <$> header).

Definition durable_header (provider : NodeProvider) : result string (option HeaderObservation) :=
  let? n := last_block_number provider in durable_header_at provider n.

Record RemoteHeader := { rh_number : bytes; rh_hash : bytes; rh_state_root : bytes }.

(** [B256::from_str] *)
Class ParseB256 := { parse_b256 : bytes -> option Z }.

Definition into_observation {PB : ParseB256} (self : RemoteHeader) (expected_number : Z)
    : result string HeaderObservation :=
  let? n := ok_or "quantity"%string (parse_quantity (rh_number self)) in
  if negb (n =? expected_number) then Err "remote block is not the requested height"%string
  else
    let? h := ok_or "malformed remote block hash"%string (parse_b256 (rh_hash self)) in
    let? r := ok_or "malformed remote state root"%string (parse_b256 (rh_state_root self)) in
    Ok {| number := n; hash := h; state_root := r |}.

(** [canonical_header], from the answer of [eth_getBlockByNumber]. *)
Definition canonical_header {PB : ParseB256} (answer : result string (option RemoteHeader)) (n : Z)
    : result string (option HeaderObservation) :=
  let? response := map_err (fun _ => "trusted L2 RPC unavailable"%string) answer in
  match response with
  | None => Ok None
  | Some header =>
      let? o := map_err (fun _ => "trusted L2 RPC returned an unavailable block"%string)
                  (into_observation header n) in
      Ok (Some o)
  end.

Record Incident := {
  schema_version : Z;
  effective_chain_id : Z;
  l2_block_number : Z;
  local_hash : Z;
  canonical_hash : Z;
  local_state_root : Z;
  canonical_state_root : Z;
  detected_at_unix_secs : Z
}.

Definition SCHEMA_VERSION : Z := 1.

Inductive Comparison := Match | Mismatch (incident : Incident).

(** [compare_and_record] up to the publication; the incident is what it publishes. *)
Definition compare (chain_id now : Z) (local canonical : HeaderObservation) : result string Comparison :=
  if negb (number local =? number canonical) then Err "cannot compare different L2 block heights"%string
  else if (hash local =? hash canonical) && (state_root local =? state_root canonical) then Ok Match
  else Ok (Mismatch {|
    schema_version := SCHEMA_VERSION; effective_chain_id := chain_id; l2_block_number := number local;
    local_hash := hash local; canonical_hash := hash canonical;
    local_state_root := state_root local; canonical_state_root := state_root canonical;
    detected_at_unix_secs := now |}).

(** First local height that must be compared after observing [tip]. *)
Definition first_unchecked_height (last_checked : option HeaderObservation) (tip : HeaderObservation)
    : result string (option Z) :=
  match last_checked with
  | None => Ok (Some (number tip))
  | Some last =>
      if (number tip <? number last) || ((number tip =? number last) && negb (bool_decide (tip = last)))
      then Ok (Some (number tip))
      else if number tip =? number last then Ok None
      else ok_or "durable L2 block number overflow"%string (Some <$> checked_add (number last) 1)
  end.

(** ** The monitor *)

(** What one tick of the monitor sees: the node's provider, the remote answer for each height, the
    clock, and whether publishing an incident succeeds. *)
Record Tick := {
  tk_provider : NodeProvider;
  tk_answer : Z -> result string (option RemoteHeader);
  tk_now : Z;
  tk_persist : Incident -> result string bool
}.

Inductive Outcome :=
| Running (last_checked : option HeaderObservation)
| Fatal (error : string) (incident : option Incident).

Section Monitor.
Context {PB : ParseB256}.
Variable chain_id : Z.

(** [compare_and_record], as the loop uses it: the next state, or the fatal error. *)
Definition compare_and_record (tick : Tick) (local canonical : HeaderObservation)
    : result (string * option Incident) HeaderObservation :=
  match compare chain_id (tk_now tick) local canonical with
  | Err e => Err (e, None)
  | Ok Match => Ok local
  | Ok (Mismatch incident) =>
      match tk_persist tick incident with
      | Err e => Err (e, None)
      | Ok _ => Err ("trusted L2 divergence incident recorded"%string, Some incident)
      end
  end.

(** [for number in start..=local.number]; [break] on an unavailable block. *)
Fixpoint check_heights (count : nat) (n : Z) (tick : Tick) (tip : HeaderObservation)
    (last : option HeaderObservation) : Outcome :=
  match count with
  | O => Running last
  | S count =>
      match (if n =? number tip then Ok (Some tip) else durable_header_at (tk_provider tick) n) with
      | Err e => Fatal e None
      | Ok None => Fatal "durable L2 header disappeared while monitoring" None
      | Ok (Some local) =>
          match canonical_header (tk_answer tick n) n with
          | Err _ | Ok None => Running last
          | Ok (Some canonical) =>
              match compare_and_record tick local canonical with
              | Err (e, incident) => Fatal e incident
              | Ok checked => check_heights count (n + 1) tick tip (Some checked)
              end
          end
      end
  end.

(** The first height of the tick; [Ok None] is [continue]. *)
Definition start_height (tick : Tick) (last_checked : option HeaderObservation) (local : HeaderObservation)
    : result string (option Z) :=
  match last_checked with
  | Some last =>
      if number last <? number local then
        let? current := durable_header_at (tk_provider tick) (number last) in
        if bool_decide (current = Some last) then
          ok_or "a newer durable tip proves the block number can advance"%string
            (Some <$> checked_add (number last) 1)
        else Ok (Some (number last))
      else first_unchecked_height last_checked local
  | None => first_unchecked_height last_checked local
  end.

Definition monitor_tick (last_checked : option HeaderObservation) (tick : Tick) : Outcome :=
  match durable_header (tk_provider tick) with
  | Err e => Fatal e None
  | Ok None => Running last_checked
  | Ok (Some local) =>
      match start_height tick last_checked local with
      | Err e => Fatal e None
      | Ok None => Running last_checked
      | Ok (Some start) =>
          check_heights (Z.to_nat (number local - start + 1)) start tick local last_checked
      end
  end.

(** The monitor over its ticks, until a fatal error. *)
Fixpoint monitor (last_checked : option HeaderObservation) (ticks : list Tick) : Outcome :=
  match ticks with
  | [] => Running last_checked
  | tick :: ticks =>
      match monitor_tick last_checked tick with
      | Running last_checked => monitor last_checked ticks
      | outcome => outcome
      end
  end.
End Monitor.

(** ** Startup and the recovery client *)

Definition validate_chain_id (expected actual : Z) : result string unit :=
  if negb (expected =? actual) then Err "trusted L2 RPC chain id does not match effective chain id"%string
  else Ok tt.

(** [refuse_active_incident]: only existence is checked. *)
Definition refuse_active_incident (exists_marker : bool) : result string unit :=
  if exists_marker then Err "active trusted-L2 divergence incident exists"%string else Ok tt.

(** [TrustedL2Monitor::start]: [client] is the outcome of building the HTTP client, [answer] that of
    [eth_chainId]; the result is the chain the monitor watches. *)
Definition start (exists_marker : bool) (client : option unit) (answer : result string bytes) (chain_id : Z)
    : result string Z :=
  let? _ := refuse_active_incident exists_marker in
  let? _ := ok_or "invalid --canonical-l2-rpc URL"%string client in
  let? remote_chain_id := map_err (fun _ => "trusted L2 RPC chain-id request failed"%string) answer in
  let? actual := ok_or "trusted L2 RPC returned a malformed chain id"%string (parse_quantity remote_chain_id) in
  let? _ := validate_chain_id chain_id actual in
  Ok chain_id.

(** Failures of the recovery authority: an outage can be retried, the others are terminal. *)
Inductive RecoveryAuthorityError :=
| Unavailable (message : string)
| Malformed (message : string)
| AuthorityMismatch (message : string).

(** [CanonicalL2Client::connect] *)
Definition connect (client : option unit) (answer : result string bytes) (expected_chain_id : Z)
    : result RecoveryAuthorityError unit :=
  let? _ := ok_or (Malformed "invalid --canonical-l2-rpc URL") client in
  let? chain_id := map_err (fun _ => Unavailable "trusted L2 RPC chain-id request failed") answer in
  let? actual := ok_or (Malformed "trusted L2 RPC returned a malformed chain id") (parse_quantity chain_id) in
  if negb (expected_chain_id =? actual) then
    Err (AuthorityMismatch "trusted L2 RPC chain id does not match effective chain id") else Ok tt.

(** The errors of [jsonrpsee] that [CanonicalL2Client::header] tells apart. *)
Inductive ClientError := ParseError | OtherError.

(** [CanonicalL2Client::header] *)
Definition client_header {PB : ParseB256} (answer : result ClientError (option RemoteHeader)) (n : Z)
    : result RecoveryAuthorityError HeaderObservation :=
  let? response := map_err (fun e => match e with
      | ParseError => Malformed "trusted L2 RPC returned a malformed block"
      | OtherError => Unavailable "trusted L2 RPC unavailable"
      end) answer in
  let? header := ok_or (Unavailable "trusted L2 RPC has no requested block") response in
  map_err (fun _ => Malformed "trusted L2 RPC returned a malformed block") (into_observation header n).

(** [load_active_incident]: [read] is [fs::read]'s outcome, [parse] is [serde_json::from_slice]. *)
Definition load_active_incident (parse : bytes -> option Incident) (read : result string bytes)
    : result string Incident :=
  let? bs := map_err (fun _ => "read active trusted-L2 incident"%string) read in
  let? incident := ok_or "invalid active trusted-L2 incident"%string (parse bs) in
  if negb (schema_version incident =? SCHEMA_VERSION) then
    Err "unsupported active trusted-L2 incident schema version"%string
  else Ok incident.

(** ** Quantities round trip *)

Lemma hex_nibble_char (d : Z) : 0 <= d < 16 -> hex_nibble (hex_char d) = Some d.
Proof.
  intros Hd. unfold hex_char, hex_nibble. rewrite b2z_z2b.
  destruct (Z.ltb_spec d 10).
  - rewrite Z.mod_small by lia. rewrite (proj2 (Z.leb_le 48 _)), (proj2 (Z.leb_le _ 57)) by lia.
    cbn. f_equal. lia.
  - rewrite Z.mod_small by lia. rewrite (proj2 (Z.leb_le 48 _)), (proj2 (Z.leb_gt _ 57)) by lia.
    rewrite (proj2 (Z.leb_le 97 _)), (proj2 (Z.leb_le _ 102)) by lia. cbn. f_equal. lia.
Qed.

Lemma from_hex_app (l k : bytes) (acc : Z) : from_hex acc (l ++ k) = a ← from_hex acc l; from_hex a k.
Proof.
  revert acc. induction l as [|b l IH]; intros acc; [done|]. cbn [app from_hex].
  destruct (hex_nibble b); cbn; [|done]. by case_match.
Qed.

Lemma from_hex_digits (fuel : nat) (n : Z) :
  (0 < fuel)%nat -> 0 <= n < 16 ^ Z.of_nat fuel -> n <= U64_MAX ->
  from_hex 0 (hex_digits fuel n) = Some n.
Proof.
  revert n. induction fuel as [|fuel IH]; intros n Hf Hn Hu; [lia|]. cbn [hex_digits].
  pose proof (Z.mod_pos_bound n 16 ltac:(lia)) as Hm. pose proof (Z.div_mod n 16 ltac:(lia)) as Hdm.
  assert (Hlast : forall a, a * 16 + n mod 16 = n -> from_hex a [hex_char (n mod 16)] = Some n).
  { intros a Ha. cbn [from_hex]. rewrite hex_nibble_char by done. cbn. rewrite Ha.
    by rewrite (proj2 (Z.leb_le _ _)) by lia. }
  rewrite from_hex_app. destruct (Z.ltb_spec n 16).
  - cbn [from_hex mbind option_bind]. apply Hlast. rewrite Z.mod_small by lia. lia.
  - destruct fuel as [|fuel]; [change (16 ^ Z.of_nat 1) with 16 in Hn; lia|].
    rewrite IH; [cbn [mbind option_bind]; apply Hlast; lia|lia| |].
    + rewrite Nat2Z.inj_succ, Z.pow_succ_r in Hn by lia. split; [apply Z.div_pos; lia|].
      apply Z.div_lt_upper_bound; lia.
    + pose proof (Z.div_le_upper_bound n 16 n ltac:(lia) ltac:(lia)). lia.
Qed.

(** Every height the node asks for is read back from its own notation. *)
Lemma parse_format_quantity (n : Z) : 0 <= n <= U64_MAX -> parse_quantity (format_quantity n) = Some n.
Proof.
  intros Hn. assert (Hd : from_hex 0 (hex_digits 16 n) = Some n).
  { apply from_hex_digits; [lia| |lia]. unfold U64_MAX in Hn. change (16 ^ Z.of_nat 16) with (2 ^ 64). lia. }
  unfold parse_quantity, format_quantity, from_str_radix_16.
  destruct (hex_digits 16 n) as [|b l] eqn:E; [|destruct b; try exact Hd].
  - apply (f_equal length) in E. cbn [hex_digits] in E. rewrite length_app in E. cbn in E. lia.
  - cbn in Hd. done.
Qed.

(** ** What the monitor establishes *)

Section MonitorRuns.
Context {PB : ParseB256}.
Variable chain_id : Z.

(** The durable chain and the trusted chain. *)
Variables (local canonical : Z -> HeaderObservation).
Hypothesis local_number : forall n, number (local n) = n.
Hypothesis canonical_number : forall n, number (canonical n) = n.

Definition available (tick : Tick) (n : Z) : Prop :=
  canonical_header (tk_answer tick n) n = Ok (Some (canonical n)).

(** A tick at durable tip [t]: the provider serves the durable chain, the endpoint answers from the
    trusted chain or not at all, and incidents can be published. *)
Record honest (tick : Tick) (t : Z) : Prop := {
  ho_range : 0 <= t < U64_MAX;
  ho_tip : durable_header (tk_provider tick) = Ok (Some (local t));
  ho_at : forall n, 0 <= n <= t -> durable_header_at (tk_provider tick) n = Ok (Some (local n));
  ho_answer : forall n, available tick n \/ canonical_header (tk_answer tick n) n = Ok None \/
                exists e, canonical_header (tk_answer tick n) n = Err e;
  ho_persist : forall i, is_ok (tk_persist tick i) = true
}.

Definition agrees (a b : Z) : Prop := forall n, a <= n <= b -> local n = canonical n.

(** The incident of a divergence at height [n]. *)
Definition incident_at (n now : Z) : Incident := {|
  schema_version := SCHEMA_VERSION; effective_chain_id := chain_id; l2_block_number := n;
  local_hash := hash (local n); canonical_hash := hash (canonical n);
  local_state_root := state_root (local n); canonical_state_root := state_root (canonical n);
  detected_at_unix_secs := now
|}.

Lemma compare_and_record_spec (tick : Tick) (t n : Z) :
  honest tick t ->
  compare_and_record chain_id tick (local n) (canonical n) =
    if decide (local n = canonical n) then Ok (local n)
    else Err ("trusted L2 divergence incident recorded"%string, Some (incident_at n (tk_now tick))).
Proof.
  intros [_ _ _ _ Hp]. unfold compare_and_record, compare. rewrite local_number, canonical_number, Z.eqb_refl. cbn [negb].
  destruct (_ && _) eqn:E.
  - apply andb_prop in E as [E1%Z.eqb_eq E2%Z.eqb_eq]. rewrite decide_True; [done|].
    pose proof (local_number n) as Hl. pose proof (canonical_number n) as Hc.
    destruct (local n), (canonical n); cbn in *. congruence.
  - rewrite decide_False.
    + match goal with |- context [tk_persist tick ?i] => specialize (Hp i); destruct (tk_persist tick i) end; done.
    + intros Heq. by rewrite Heq, !Z.eqb_refl in E.
Qed.

(** A tick's scan from [n] checks heights in order: it stops at the first one the endpoint does not
    serve, having checked those before; at the first divergence, which it reports; or at the tip. *)
Lemma check_heights_spec (count : nat) (n t : Z) (tick : Tick) (last : option HeaderObservation) :
  honest tick t -> 0 <= n -> n + Z.of_nat count = t + 1 ->
  match check_heights chain_id count n tick (local t) last with
  | Running last' => exists m, n <= m <= t + 1 /\ agrees n (m - 1) /\
      last' = (if decide (m = n) then last else Some (local (m - 1))) /\
      (m <= t -> ~ available tick m)
  | Fatal _ i => exists m, n <= m <= t /\ agrees n (m - 1) /\ local m <> canonical m /\
      available tick m /\ i = Some (incident_at m (tk_now tick))
  end.
Proof.
  intros Hh. revert n last. induction count as [|count IH]; intros n last Hn Hc; cbn [check_heights].
  { exists n. split; [lia|]. split; [intros k; lia|]. rewrite decide_True by done. split; [done|lia]. }
  assert (Hlocal : (if n =? number (local t) then Ok (Some (local t))
                    else durable_header_at (tk_provider tick) n) = Ok (Some (local n))).
  { rewrite local_number. destruct (Z.eqb_spec n t) as [->|]; [done|]. apply (ho_at _ _ Hh). lia. }
  rewrite Hlocal.
  assert (Hstop : ~ available tick n -> exists m, n <= m <= t + 1 /\ agrees n (m - 1) /\
            last = (if decide (m = n) then last else Some (local (m - 1))) /\ (m <= t -> ~ available tick m)).
  { intros Ha. exists n. split; [lia|]. split; [intros k; lia|]. by rewrite decide_True by done. }
  unfold available in Hstop.
  destruct (ho_answer _ _ Hh n) as [Ha|[Ha|[e Ha]]]; unfold available in *; rewrite Ha in *; [|by apply Hstop..].
  rewrite (compare_and_record_spec _ _ _ Hh). case_decide as Heq.
  2: { exists n. split; [lia|]. split; [intros k; lia|done]. }
  specialize (IH (n + 1) (Some (local n)) ltac:(lia) ltac:(lia)).
  assert (Hext : forall m, n + 1 <= m -> agrees (n + 1) (m - 1) -> agrees n (m - 1)).
  { intros m Hm Hag k Hk. destruct (decide (k = n)) as [->|]; [done|]. apply Hag. lia. }
  destruct (check_heights _ _ _ _ _ _) as [last'|e' i].
  - destruct IH as (m & Hm & Hag & Hl & Hna). exists m. split; [lia|]. split; [by apply Hext; [lia|]|].
    rewrite (decide_False (P := m = n)) by lia. split; [|done]. rewrite Hl. case_decide as Em; [|done].
    subst m. do 2 f_equal. lia.
  - destruct IH as (m & Hm & Hag & Hne & Hi). exists m. split; [lia|]. split; [by apply Hext; [lia|]|]. done.
Qed.

(** A run of the monitor: its ticks, each with the durable tip it found. Nothing is compared until
    the endpoint serves the tip of a tick; that tip is the height the comparison starts from. *)
Definition first_compared (run : list (Tick * Z)) (first : Z) : Prop :=
  exists pre tick post, run = pre ++ (tick, first) :: post /\
    Forall (fun p => ~ available p.1 p.2) pre /\ available tick first.

(** What has been checked: nothing, if no tip was ever served; else every height from the first tip
    that was, up to the last checked one, which is the tip of the last tick unless the endpoint did
    not serve the next height in that tick. *)
Definition checked (run : list (Tick * Z)) (last_checked : option HeaderObservation) : Prop :=
  match last_checked with
  | None => Forall (fun p => ~ available p.1 p.2) run
  | Some h => exists first m, h = local m /\ first_compared run first /\ first <= m /\ agrees first m /\
      forall tick t, last run = Some (tick, t) -> m <= t /\ (m < t -> ~ available tick (m + 1))
  end.

(** What a fatal outcome reports: the first divergence from the first tip that was served, in the
    tick [tick] in which the endpoint served that height. *)
Definition diverged (run : list (Tick * Z)) (i : option Incident) : Prop :=
  exists pre tick t post first m, run = pre ++ (tick, t) :: post /\
    first_compared (pre ++ [(tick, t)]) first /\ first <= m <= t /\ agrees first (m - 1) /\
    local m <> canonical m /\ available tick m /\ i = Some (incident_at m (tk_now tick)).

Lemma first_compared_app (run tail : list (Tick * Z)) (first : Z) :
  first_compared run first -> first_compared (run ++ tail) first.
Proof.
  intros (pre & tick & post & -> & H). exists pre, tick, (post ++ tail). by rewrite <- app_assoc.
Qed.

Lemma first_compared_in (run : list (Tick * Z)) (first : Z) : first_compared run first -> first ∈ run.*2.
Proof. intros (pre & tick & post & -> & _). rewrite fmap_app. set_solver. Qed.

Lemma agrees_app (a m b : Z) : agrees a m -> agrees (m + 1) b -> agrees a b.
Proof. intros H1 H2 n Hn. destruct (Z.le_gt_cases n m); [apply H1|apply H2]; lia. Qed.

(** The tick after which the tip was not served, or the first one in which it was. *)
Lemma first_tick_spec (run : list (Tick * Z)) (tick : Tick) (t : Z) :
  honest tick t -> Forall (fun p => ~ available p.1 p.2) run ->
  match monitor_tick chain_id None tick with
  | Running last' => checked (run ++ [(tick, t)]) last'
  | Fatal _ i => diverged (run ++ [(tick, t)]) i
  end.
Proof.
  intros Hh Hrun. pose proof (ho_range _ _ Hh) as Hr. unfold monitor_tick. rewrite (ho_tip _ _ Hh).
  cbn [start_height first_unchecked_height]. rewrite local_number.
  pose proof (check_heights_spec (Z.to_nat (t - t + 1)) t t tick None Hh ltac:(lia) ltac:(lia)) as Hs.
  destruct (ho_answer _ _ Hh t) as [Hav|Hno].
  - assert (Hfirst : first_compared (run ++ [(tick, t)]) t) by (by exists run, tick, []).
    destruct (check_heights _ _ _ _ _ _) as [last'|e i].
    + destruct Hs as (k & Hk & Hag & -> & Hna).
      assert (k = t + 1) as -> by (destruct (Z.le_gt_cases k t); [|lia]; assert (k = t) as -> by lia; by destruct (Hna ltac:(lia))).
      rewrite decide_False by lia. exists t, t. replace (t + 1 - 1) with t in * by lia.
      split; [done|]. split; [done|]. split; [lia|]. split; [done|]. intros k' t' E.
      rewrite last_snoc in E. simplify_eq. lia.
    + destruct Hs as (k & Hk & Hag & Hne & Hk' & ->). exists run, tick, t, [], t, k.
      repeat (split; [done|]). done.
  - destruct (Z.to_nat (t - t + 1)) as [|count] eqn:Ec; [lia|]. cbn [check_heights] in *.
    rewrite local_number, Z.eqb_refl in *.
    assert (~ available tick t) as Hna by (unfold available; destruct Hno as [->|[e ->]]; done).
    destruct Hno as [->|[e ->]]; cbn [checked]; apply Forall_app; (split; [done|]); by apply Forall_singleton.
Qed.

Lemma monitor_tick_spec (run : list (Tick * Z)) (last_checked : option HeaderObservation) (tick : Tick) (t : Z) :
  checked run last_checked -> (forall x, x ∈ run.*2 -> 0 <= x <= t) -> honest tick t ->
  match monitor_tick chain_id last_checked tick with
  | Running last' => checked (run ++ [(tick, t)]) last'
  | Fatal _ i => diverged (run ++ [(tick, t)]) i
  end.
Proof.
  intros Hc Hle Hh. destruct last_checked as [h|]; [|by apply first_tick_spec].
  pose proof (ho_range _ _ Hh) as Hr. destruct Hc as (first & m & -> & Hf & Hfm & Hag & Hlast).
  pose proof (Hle _ (first_compared_in _ _ Hf)) as H0.
  assert (Hm : m <= t).
  { destruct Hf as (pre & k & post & -> & _). destruct (last (pre ++ (k, first) :: post)) as [[k' t']|] eqn:E.
    - destruct (Hlast _ _ eq_refl) as [Hmt _]. apply last_Some_elem_of in E.
      assert (t' ∈ (pre ++ (k, first) :: post).*2) as Hin by (by apply (list_elem_of_fmap_2 snd _ (k', t'))).
      specialize (Hle _ Hin). lia.
    - apply last_None in E. by destruct pre. }
  apply (first_compared_app _ [(tick, t)]) in Hf. unfold monitor_tick. rewrite (ho_tip _ _ Hh).
  cbn [start_height]. rewrite !local_number. destruct (Z.ltb_spec m t) as [Hlt|Hge].
  - rewrite (ho_at _ _ Hh) by lia. cbn [rbind]. rewrite bool_decide_eq_true_2 by done.
    unfold checked_add. rewrite (proj2 (Z.leb_le (m + 1) _)) by lia. cbn [fmap option_fmap option_map ok_or].
    pose proof (check_heights_spec (Z.to_nat (t - (m + 1) + 1)) (m + 1) t tick (Some (local m)) Hh ltac:(lia) ltac:(lia)) as Hs.
    destruct (check_heights _ _ _ _ _ _) as [last'|e i].
    + destruct Hs as (k & Hk & Hag' & -> & Hna).
      assert ((if decide (k = m + 1) then Some (local m) else Some (local (k - 1))) = Some (local (k - 1)))
        as -> by (case_decide; [subst; do 2 f_equal; lia|done]).
      exists first, (k - 1). split; [done|]. split; [done|]. split; [lia|].
      split; [by eapply agrees_app|]. intros k' t' E. rewrite last_snoc in E. simplify_eq.
      split; [lia|]. intros Hkt. replace (k - 1 + 1) with k by lia. apply Hna. lia.
    + destruct Hs as (k & Hk & Hag' & Hne & Hav & ->). exists run, tick, t, [], first, k.
      split; [done|]. split; [done|]. split; [lia|]. split; [by eapply agrees_app|done].
  - assert (m = t) as -> by lia. unfold first_unchecked_height. rewrite local_number, Z.ltb_irrefl, Z.eqb_refl.
    rewrite bool_decide_eq_true_2 by done. cbn [negb andb orb]. exists first, t.
    split; [done|]. split; [done|]. split; [done|]. split; [done|]. intros k' t' E.
    rewrite last_snoc in E. simplify_eq. lia.
Qed.

Lemma monitor_app (last : option HeaderObservation) (ticks : list Tick) (tick : Tick) :
  monitor chain_id last (ticks ++ [tick]) =
  match monitor chain_id last ticks with
  | Running last => monitor_tick chain_id last tick
  | outcome => outcome
  end.
Proof.
  revert last. induction ticks as [|x ticks IH]; intros last; cbn [app monitor].
  - by destruct (monitor_tick chain_id last tick).
  - destruct (monitor_tick chain_id last x); [apply IH|done].
Qed.

(** C27. Over any run of the trusted-L2 monitor on an append-only durable chain that can be read,
    where incidents can be published and the endpoint answers from the trusted chain or not at all: as long as the endpoint serves no tip of the
    run, nothing has been checked. From the first tick whose tip it serves, the monitor compares
    every height, in order and leaving none out, whatever the tips of the later ticks and wherever
    the endpoint is unavailable in between: while it runs, all heights from that first tip to the
    last checked one agree with the trusted chain, hash and state root, and the last checked one is
    the tip itself unless the endpoint did not serve the next height in the last tick. It stops only
    for a divergence, which is the first one from that first tip on, in the tick in which the
    endpoint served that height, and the incident it publishes carries both observations of it. *)
Theorem monitor_exact (run : list (Tick * Z)) :
  Forall (fun p => honest p.1 p.2) run -> StronglySorted Z.le run.*2 ->
  match monitor chain_id None run.*1 with
  | Running last_checked => checked run last_checked
  | Fatal _ i => diverged run i
  end.
Proof.
  induction run as [|[tick t] run IH] using rev_ind; intros Hh Hs; [apply List.Forall_nil|].
  apply Forall_app in Hh as [Hh Ht]. apply List.Forall_inv in Ht.
  rewrite fmap_app in Hs. pose proof (StronglySorted_app_1_l _ _ _ Hs) as Hsl.
  assert (Hle : forall x, x ∈ run.*2 -> 0 <= x <= t).
  { intros x Hx. split; [|apply (StronglySorted_app_1_elem_of _ _ _ _ _ Hs); [done|by left]].
    apply list_elem_of_fmap in Hx as ([k x'] & -> & Hx). rewrite Forall_forall in Hh.
    pose proof (ho_range _ _ (Hh _ Hx)). cbn in *. lia. }
  specialize (IH Hh Hsl). rewrite fmap_app. cbn [fmap list_fmap fst] in *. rewrite monitor_app.
  destruct (monitor chain_id None run.*1) as [last'|e i]; [by apply monitor_tick_spec|].
  destruct IH as (pre & k & t' & post & first & m & -> & H).
  exists pre, k, t', (post ++ [(tick, t)]), first, m. by rewrite <- app_assoc.
Qed.
End MonitorRuns.

(** A durable chain that leaves the trusted one at height 3, and an endpoint that serves heights 1
    to 3. *)
Module Sample.

Fixpoint hex_value (acc : Z) (digits : bytes) : option Z :=
  match digits with
  | [] => Some acc
  | b :: digits => d ← hex_nibble b; hex_value (acc * 16 + d) digits
  end.

#[local] Instance parse_full_hash : ParseB256 := {|
  parse_b256 bs :=
    match bs with
    | x30 :: x78 :: digits => if bool_decide (length digits = 64%nat) then hex_value 0 digits else None
    | _ => None
    end
|}.

Definition full_hash (z : Z) : bytes := x30 :: x78 :: replicate 48 x30 ++ replicate (16 - length (hex_digits 16 z)) x30 ++ hex_digits 16 z.

Definition local (n : Z) : HeaderObservation := {| number := n; hash := 100 + n; state_root := 200 + n |}.
Definition canonical (n : Z) : HeaderObservation :=
  {| number := n; hash := if n =? 3 then 999 else 100 + n; state_root := 200 + n |}.

Definition served (n : Z) : RemoteHeader := {|
  rh_number := format_quantity n; rh_hash := full_hash (hash (canonical n)); rh_state_root := full_hash (state_root (canonical n))
|}.

Definition tick_at (t now : Z) : Tick := {|
  tk_provider := {| last_block_number := Ok t;
                    sealed_header n := Ok (Some {| hr_hash := 100 + n; hr_state_root := 200 + n |}) |};
  tk_answer n := if (1 <=? n) && (n <=? 3) then Ok (Some (served n)) else Ok None;
  tk_now := now;
  tk_persist _ := Ok true
|}.

Lemma tick_honest (t now : Z) : 0 <= t <= 4 -> honest local canonical (tick_at t now) t.
Proof.
  intros Ht. split; [unfold U64_MAX; lia|done|done| |done]. intros n. unfold available, tick_at. cbn [tk_answer].
  destruct ((1 <=? n) && (n <=? 3)) eqn:E; [|right; left; reflexivity]. left.
  apply andb_true_iff in E as [H1%Z.leb_le H3%Z.leb_le].
  assert (n = 1 \/ n = 2 \/ n = 3) as [->|[->| ->]] by lia; vm_compute; reflexivity.
Qed.

(** The endpoint serves nothing at height 0, so the comparison starts at 1; the durable tip then
    jumps to 4, and the monitor checks 2 and finds the divergence at 3. *)
Lemma monitor_exact_witness :
  monitor 42161 None [tick_at 0 9] = Running None /\
  monitor 42161 None [tick_at 0 9; tick_at 1 10] = Running (Some (local 1)) /\
  monitor 42161 None [tick_at 0 9; tick_at 1 10; tick_at 4 12] =
    Fatal "trusted L2 divergence incident recorded" (Some (incident_at 42161 local canonical 3 12)) /\
  diverged 42161 local canonical [(tick_at 0 9, 0); (tick_at 1 10, 1); (tick_at 4 12, 4)]
    (Some (incident_at 42161 local canonical 3 12)).
Proof.
  assert (E : monitor 42161 None [tick_at 0 9; tick_at 1 10; tick_at 4 12] =
    Fatal "trusted L2 divergence incident recorded" (Some (incident_at 42161 local canonical 3 12)))
    by (vm_compute; reflexivity).
  split; [vm_compute; reflexivity|]. split; [vm_compute; reflexivity|]. split; [exact E|].
  pose proof (monitor_exact 42161 local canonical (fun n => eq_refl) (fun n => eq_refl)
    [(tick_at 0 9, 0); (tick_at 1 10, 1); (tick_at 4 12, 4)]) as H.
  cbn [fmap list_fmap fst] in H. rewrite E in H. apply H.
  - repeat (apply List.Forall_cons; [apply tick_honest; cbn; lia|]). apply List.Forall_nil.
  - repeat (apply SSorted_cons; [|repeat (apply List.Forall_cons; [cbn; lia|]); apply List.Forall_nil]). apply SSorted_nil.
Defined.
End Sample.

(** ** Publishing the incident marker *)

Module Marker.
Import FileSystem.

(** How [persist_incident] ends: [Ok(true)], [Ok(false)] or an error. *)
Inductive Ending := Won | Lost | Failed.

(** Where a call of [persist_incident] is: before the call it makes next. *)
Inductive Pc :=
| PExists
| PCreate
| PWriteJson
| PWriteNewline
| PSync
| PLink
| PSyncDir
| PRemove (e : Ending)
| PCleanSync (e : Ending)
| PReturned (e : Ending).

(** A process publishing an incident: its temporary name and the serialised incident. *)
Record Publisher := { pub_tmp : string; pub_json : bytes }.

Definition marker_of (p : Publisher) : bytes := pub_json p ++ [x0a].

Section Publishing.
Variable path : string.

(** One call of [persist_incident]; every call may fail, and a failing write may leave a part of
    what it was given. *)
Inductive call (p : Publisher) : Fs -> Pc -> Fs -> Pc -> Prop :=
| call_exists s id : dir s !! path = Some id -> call p s PExists s (PReturned Lost)
| call_absent s : dir s !! path = None -> call p s PExists s PCreate
| call_create s s' : fs_step s (CreateNew (pub_tmp p)) = Some s' -> call p s PCreate s' PWriteJson
| call_json s s' : fs_step s (WriteAll (pub_tmp p) (pub_json p)) = Some s' -> call p s PWriteJson s' PWriteNewline
| call_newline s s' : fs_step s (WriteAll (pub_tmp p) [x0a]) = Some s' -> call p s PWriteNewline s' PSync
| call_sync s s' : fs_step s (SyncAll (pub_tmp p)) = Some s' -> call p s PSync s' PLink
| call_link s s' : fs_step s (HardLink (pub_tmp p) path) = Some s' -> call p s PLink s' PSyncDir
| call_link_exists s id : dir s !! path = Some id -> call p s PLink s (PRemove Lost)
| call_sync_dir s s' : fs_step s SyncDir = Some s' -> call p s PSyncDir s' (PRemove Won)
| call_partial s s' pc bs rest :
    pc = PWriteJson /\ pub_json p = bs ++ rest \/ pc = PWriteNewline /\ [x0a] = bs ++ rest ->
    fs_step s (WriteAll (pub_tmp p) bs) = Some s' -> call p s pc s' (PRemove Failed)
| call_fail s pc : pc = PCreate \/ pc = PWriteJson \/ pc = PWriteNewline \/ pc = PSync \/ pc = PLink \/ pc = PSyncDir ->
    call p s pc s (PRemove Failed)
| call_remove s s' e : fs_step s (RemoveFile (pub_tmp p)) = Some s' -> call p s (PRemove e) s' (PCleanSync e)
| call_remove_fails s e : call p s (PRemove e) s (PCleanSync e)
| call_clean s s' e : fs_step s SyncDir = Some s' -> call p s (PCleanSync e) s' (PReturned e)
| call_clean_fails s e : call p s (PCleanSync e) s (PReturned e).

(** Any number of processes, their calls interleaved. *)
Record World := { fs : Fs; procs : list (Publisher * Pc) }.

Inductive step : World -> World -> Prop :=
| step_call s s' ps i p pc pc' :
    ps !! i = Some (p, pc) -> call p s pc s' pc' ->
    step {| fs := s; procs := ps |} {| fs := s'; procs := <[i := (p, pc')]> ps |}.

Inductive reachable (w0 : World) : World -> Prop :=
| reach_start : reachable w0 w0
| reach_step w w' : reachable w0 w -> step w w' -> reachable w0 w'.

(** What the temporary file holds at each point before the marker is linked. *)
Definition staged_data (p : Publisher) (pc : Pc) : option (bytes * bool) :=
  match pc with
  | PWriteJson => Some ([], false)
  | PWriteNewline => Some (pub_json p, false)
  | PSync => Some (marker_of p, false)
  | PLink => Some (marker_of p, true)
  | _ => None
  end.

(** The process that linked the marker, as far as its state tells. *)
Definition won (pc : Pc) : bool :=
  match pc with
  | PSyncDir | PRemove Won | PCleanSync Won | PReturned Won => true
  | _ => false
  end.

(** The winner's directory sync has returned. *)
Definition durable (pc : Pc) : bool :=
  match pc with
  | PRemove Won | PCleanSync Won | PReturned Won => true
  | _ => false
  end.

(** A process that ended without an error knows the marker exists. *)
Definition knows (pc : Pc) : bool :=
  match pc with
  | PSyncDir | PRemove Won | PRemove Lost | PCleanSync Won | PCleanSync Lost | PReturned Won | PReturned Lost => true
  | _ => false
  end.

(** *** One call *)

(** A process owns its temporary file until it links it. *)
Definition own (s : Fs) (p : Publisher) (pc : Pc) : Prop :=
  match staged_data p pc with
  | Some (bs, sy) => exists id, dir s !! pub_tmp p = Some id /\
      inodes s !! id = Some {| data := bs; synced := sy |} /\
      forall name, dir s !! name = Some id -> name = pub_tmp p
  | None => pc = PExists \/ pc = PCreate -> dir s !! pub_tmp p = None
  end.

(** What any call leaves alone: the other names, and the inodes that another name reaches. *)
Record frame (p : Publisher) (s s' : Fs) : Prop := {
  fr_dir : forall name, name <> pub_tmp p -> name <> path -> dir s' !! name = dir s !! name;
  fr_inode : forall name id, name <> pub_tmp p -> dir s !! name = Some id -> inodes s' !! id = inodes s !! id;
  fr_names : forall name id, dir s' !! name = Some id ->
    dir s !! name = Some id \/ id = next_inode s \/ dir s !! pub_tmp p = Some id;
  fr_next : (next_inode s <= next_inode s')%nat;
  fr_bound : forall name id, dir s' !! name = Some id -> (id < next_inode s')%nat;
  fr_last : In (dir s') (pending s');
  fr_pending : forall d, In d (pending s') -> d = dir s' \/ In d (pending s)
}.

Record sound (s : Fs) : Prop := {
  so_bound : forall name id, dir s !! name = Some id -> (id < next_inode s)%nat;
  so_last : In (dir s) (pending s)
}.

Lemma frame_refl (p : Publisher) (s : Fs) : sound s -> frame p s s.
Proof. intros [Hb Hl]. split; auto. Qed.

Lemma frame_write (p : Publisher) (s : Fs) (id : nat) (i : Inode) :
  sound s -> dir s !! pub_tmp p = Some id -> (forall name, dir s !! name = Some id -> name = pub_tmp p) ->
  frame p s (set_inode s id i).
Proof.
  intros [Hb Hl] Hid Honly. split; cbn; auto.
  intros name id' Hne Hd. apply lookup_insert_ne. intros <-. apply Hne, Honly, Hd.
Qed.

Lemma frame_dir (p : Publisher) (s : Fs) (d : gmap string nat) :
  sound s -> (forall name, name <> pub_tmp p -> name <> path -> d !! name = dir s !! name) ->
  (forall name id, d !! name = Some id -> dir s !! name = Some id \/ dir s !! pub_tmp p = Some id) ->
  frame p s (set_dir s d).
Proof.
  intros [Hb Hl] Hd Hn. split; cbn; auto.
  - intros name id H. destruct (Hn name id H); auto.
  - intros name id H. destruct (Hn name id H) as [H'|H']; apply (Hb _ _ H').
  - intros d' [<-|H]; auto.
Qed.

(** Another process keeps its temporary file over a call. *)
Lemma own_frame (p q : Publisher) (s s' : Fs) (pc : Pc) :
  sound s -> frame p s s' -> pub_tmp q <> pub_tmp p -> pub_tmp q <> path -> own s q pc -> own s' q pc.
Proof.
  intros Hs Hf Hqp Hq. unfold own. destruct (staged_data q pc) as [[bs sy]|].
  - intros (id & Hd & Hi & Honly). exists id. rewrite (fr_dir _ _ _ Hf), (fr_inode _ _ _ Hf _ _ Hqp Hd) by done.
    split_and!; [done|done|]. intros name Hn.
    destruct (fr_names _ _ _ Hf _ _ Hn) as [H|[->|H]]; [by apply Honly| |].
    + pose proof (so_bound _ Hs _ _ Hd). lia.
    + destruct Hqp. symmetry. by apply Honly.
  - intros H Hpc. rewrite (fr_dir _ _ _ Hf) by done. auto.
Qed.

(** What a call does to the marker: nothing, or it links it. *)
Definition marker_effect (p : Publisher) (s : Fs) (pc : Pc) (s' : Fs) (pc' : Pc) : Prop :=
  (dir s' !! path = dir s !! path /\ (won pc' = true -> won pc = true) /\
   (knows pc' = true -> knows pc = true \/ is_Some (dir s !! path)) /\
   (durable pc' = true -> durable pc = true \/ pending s' = [dir s'])) \/
  (pc' = PSyncDir /\ dir s !! path = None /\ exists id,
     dir s' !! path = Some id /\ inodes s' !! id = Some {| data := marker_of p; synced := true |}).

(** A call that only changes the temporary file, or nothing. *)
Lemma quiet_effect (p : Publisher) (s s' : Fs) (pc pc' : Pc) :
  dir s' !! path = dir s !! path -> implb (won pc') (won pc) = true ->
  (knows pc' = true -> knows pc = true \/ is_Some (dir s !! path)) -> implb (durable pc') (durable pc) = true ->
  marker_effect p s pc s' pc'.
Proof. intros Hp Hw Hk Hd. left. destruct (won pc'), (won pc), (durable pc'), (durable pc); cbn in *; auto. Qed.

Lemma write_effect (p : Publisher) (s s' : Fs) (pc : Pc) (bs bs' : bytes) (sy : bool) :
  sound s -> own s p pc -> staged_data p pc = Some (bs, sy) ->
  fs_step s (WriteAll (pub_tmp p) bs') = Some s' ->
  frame p s s' /\ dir s' = dir s /\
  forall pc', staged_data p pc' = Some (bs ++ bs', false) \/ (exists e, pc' = PRemove e) -> own s' p pc'.
Proof.
  intros Hs Ho Hst. unfold own in Ho. rewrite Hst in Ho. destruct Ho as (id & Hd & Hi & Honly).
  cbn [fs_step]. rewrite Hd. cbn. rewrite Hi. cbn. intros [= <-].
  split_and!; [by apply frame_write|done|]. intros pc' [H|[e ->]]; [|by intros [?|?]].
  unfold own. rewrite H. exists id. cbn. split_and!; [done|apply lookup_insert_eq|done].
Qed.

Lemma call_effect (p : Publisher) (s s' : Fs) (pc pc' : Pc) :
  sound s -> pub_tmp p <> path -> own s p pc -> call p s pc s' pc' ->
  frame p s s' /\ own s' p pc' /\ marker_effect p s pc s' pc'.
Proof.
  intros Hs Hne Ho Hc.
  destruct Hc as [s id Hp|s Hp|s s' E|s s' E|s s' E|s s' E|s s' E|s id Hp|s s' E|s s' pc bs rest Hpc E
                 |s pc Hpc|s s' e E|s e|s s' e E|s e].
  - split; [by apply frame_refl|]. split; [by intros [?|?]|]. apply quiet_effect; eauto.
  - split; [by apply frame_refl|]. split; [|by apply quiet_effect]. intros _. apply Ho. auto.
  - assert (Hnew : dir s !! pub_tmp p = None) by (apply Ho; auto).
    cbn [fs_step] in E. rewrite Hnew in E. injection E as <-.
    destruct Hs as [Hb Hl]. split; [split; cbn|split].
    + intros name H1 _. by rewrite lookup_insert_ne by done.
    + intros name id _ Hd. apply lookup_insert_ne. apply Hb in Hd. lia.
    + intros name id. rewrite lookup_insert_Some. intros [[_ <-]|[_ H]]; auto.
    + lia.
    + intros name id. rewrite lookup_insert_Some. intros [[_ <-]|[_ H]]; [lia|]. apply Hb in H. lia.
    + auto.
    + intros d [<-|H]; auto.
    + exists (next_inode s). cbn. rewrite !lookup_insert_eq. split_and!; [done|done|].
      intros name. rewrite lookup_insert_Some. intros [[<- _]|[_ H]]; [done|]. apply Hb in H. lia.
    + apply quiet_effect; cbn; auto. by rewrite lookup_insert_ne by done.
  - destruct (write_effect p s s' PWriteJson [] _ _ Hs Ho eq_refl E) as (Hf & Hd & Hw).
    split; [done|]. split; [apply Hw; by left|]. apply quiet_effect; auto. by rewrite Hd.
  - destruct (write_effect p s s' PWriteNewline _ _ _ Hs Ho eq_refl E) as (Hf & Hd & Hw).
    split; [done|]. split; [apply Hw; by left|]. apply quiet_effect; auto. by rewrite Hd.
  - destruct Ho as (id & Hd & Hi & Honly). cbn [fs_step] in E. rewrite Hd in E. cbn in E. rewrite Hi in E.
    injection E as <-. split; [by apply frame_write|]. split; [|by apply quiet_effect].
    exists id. cbn. split_and!; [done|apply lookup_insert_eq|done].
  - destruct Ho as (id & Hd & Hi & Honly). cbn [fs_step] in E. rewrite Hd in E. cbn in E.
    destruct (dir s !! path) eqn:Hp; [done|]. injection E as <-. split; [apply frame_dir; [done| |]|].
    + intros name _ H. by rewrite lookup_insert_ne by done.
    + intros name id'. rewrite lookup_insert_Some. intros [[_ <-]|[_ H]]; auto.
    + split; [by intros [?|?]|]. right. split_and!; [done|done|]. exists id. cbn. by rewrite lookup_insert_eq.
  - split; [by apply frame_refl|]. split; [by intros [?|?]|]. apply quiet_effect; eauto.
  - cbn in E. injection E as <-. destruct Hs as [Hb Hl]. split; [split; cbn; auto|].
    + intros d [<-|[]]; auto.
    + split; [by intros [?|?]|]. left. cbn. split_and!; auto.
  - assert (Hst : exists bs0 sy, staged_data p pc = Some (bs0, sy)) by (destruct Hpc as [[-> _]|[-> _]]; eauto).
    destruct Hst as (bs0 & sy & Hst). destruct (write_effect p s s' pc _ _ _ Hs Ho Hst E) as (Hf & Hd & Hw).
    split; [done|]. split; [apply Hw; eauto|]. apply quiet_effect; cbn; try done. by rewrite Hd.
  - split; [by apply frame_refl|]. split; [by intros [?|?]|]. by apply quiet_effect.
  - cbn [fs_step] in E. destruct (dir s !! pub_tmp p) as [id|] eqn:Hd; [|done]. injection E as <-.
    split; [apply frame_dir; [done| |]|].
    + intros name H _. by rewrite lookup_delete_ne by done.
    + intros name id'. rewrite lookup_delete_Some. intros [_ H]; auto.
    + split; [by intros [?|?]|]. apply quiet_effect; cbn; [by rewrite lookup_delete_ne by done|..];
        destruct e; auto.
  - split; [by apply frame_refl|]. split; [by intros [?|?]|]. apply quiet_effect; destruct e; auto.
  - cbn in E. injection E as <-. destruct Hs as [Hb Hl]. split; [split; cbn; auto|].
    + intros d [<-|[]]; auto.
    + split; [by intros [?|?]|]. apply quiet_effect; destruct e; auto.
  - split; [by apply frame_refl|]. split; [by intros [?|?]|]. apply quiet_effect; destruct e; auto.
Qed.

(** *** Reachable worlds *)

(** The marker, if it has been linked: its inode and the process that linked it. *)
Definition marker_ok (w : World) (k : option (nat * nat)) : Prop :=
  match k with
  | None => (forall d, In d (pending (fs w)) -> d !! path = None) /\
            (forall j p pc, procs w !! j = Some (p, pc) -> knows pc = false)
  | Some (id, i) =>
      dir (fs w) !! path = Some id /\
      (forall d, In d (pending (fs w)) -> d !! path = None \/ d !! path = Some id) /\
      (exists p pc, procs w !! i = Some (p, pc) /\
         inodes (fs w) !! id = Some {| data := marker_of p; synced := true |} /\
         (durable pc = true -> forall d, In d (pending (fs w)) -> d !! path = Some id)) /\
      (forall j p pc, procs w !! j = Some (p, pc) -> won pc = true -> j = i)
  end.

Record inv (w : World) : Prop := {
  in_sound : sound (fs w);
  in_tmp_path : forall j p pc, procs w !! j = Some (p, pc) -> pub_tmp p <> path;
  in_tmp_ne : forall i j p q pc pc', procs w !! i = Some (p, pc) -> procs w !! j = Some (q, pc') ->
    pub_tmp p = pub_tmp q -> i = j;
  in_own : forall j p pc, procs w !! j = Some (p, pc) -> own (fs w) p pc
}.

(** The processes after a call of process [i]. *)
Lemma lookup_moved (ps : list (Publisher * Pc)) (i j : nat) (p q : Publisher) (pc pc' pq : Pc) :
  ps !! i = Some (p, pc) -> <[i := (p, pc')]> ps !! j = Some (q, pq) ->
  (j = i /\ q = p /\ pq = pc') \/ (j <> i /\ ps !! j = Some (q, pq)).
Proof. intros Hi. rewrite list_lookup_insert_Some. intros [(-> & [= <- <-] & _)|[? ?]]; auto. Qed.

Lemma lookup_publisher (ps : list (Publisher * Pc)) (i j : nat) (p q : Publisher) (pc pc' pq : Pc) :
  ps !! i = Some (p, pc) -> <[i := (p, pc')]> ps !! j = Some (q, pq) -> exists pq', ps !! j = Some (q, pq').
Proof. intros Hi Hj. destruct (lookup_moved _ _ _ _ _ _ _ _ Hi Hj) as [(-> & -> & ->)|[_ H]]; eauto. Qed.

Lemma inv_step (w w' : World) : inv w -> step w w' -> inv w'.
Proof.
  intros [Hs Htp Hne Ho] Hst. destruct Hst as [s s' ps i p pc pc' Hi Hc]. cbn [fs procs] in *.
  destruct (call_effect _ _ _ _ _ Hs (Htp _ _ _ Hi) (Ho _ _ _ Hi) Hc) as (Hf & Ho' & _). split; cbn [fs procs].
  - destruct Hf. by split.
  - intros j q pq Hj. destruct (lookup_publisher _ _ _ _ _ _ _ _ Hi Hj) as [pq' H]. by eapply Htp.
  - intros j k q r pq pr Hj Hk. destruct (lookup_publisher _ _ _ _ _ _ _ _ Hi Hj) as [? H].
    destruct (lookup_publisher _ _ _ _ _ _ _ _ Hi Hk) as [? H']. by eapply Hne.
  - intros j q pq Hj. destruct (lookup_moved _ _ _ _ _ _ _ _ Hi Hj) as [(-> & -> & ->)|[Hji H]]; [done|].
    eapply own_frame; [done|exact Hf| |by eapply Htp|by eapply Ho]. intros E. apply Hji. by eapply Hne.
Qed.

Lemma marker_step (w w' : World) (k : option (nat * nat)) :
  inv w -> step w w' -> marker_ok w k -> exists k', marker_ok w' k'.
Proof.
  intros [Hs Htp Hne Ho] Hst Hm. destruct Hst as [s s' ps i p pc pc' Hi Hc]. cbn [fs procs] in *.
  destruct (call_effect _ _ _ _ _ Hs (Htp _ _ _ Hi) (Ho _ _ _ Hi) Hc) as (Hf & _ & He).
  pose proof (fr_pending _ _ _ Hf) as Hpend.
  destruct k as [[id k]|]; cbn [marker_ok fs procs] in Hm.
  - destruct Hm as (Hd & Hall & (q & pq & Hk & Hq & Hdur) & Hwin).
    destruct He as [(Hp & Hw & Hkn & Hdu)|(_ & Hn & _)]; [|by rewrite Hn in Hd].
    exists (Some (id, k)). cbn [marker_ok fs procs]. rewrite Hd in Hp. split_and!; [done| | |].
    + intros d Hin. destruct (Hpend d Hin) as [->|H]; auto.
    + assert (Hino : inodes s' !! id = inodes s !! id).
      { eapply (fr_inode _ _ _ Hf); [|exact Hd]. intros E. by eapply (Htp _ _ _ Hi). }
      assert (Hdur' : durable pq = true -> forall d, In d (pending s') -> d !! path = Some id).
      { intros H d Hin. destruct (Hpend d Hin) as [->|H']; auto. }
      destruct (decide (i = k)) as [->|Hik].
      * assert ((p, pc) = (q, pq)) as [= -> ->] by congruence. exists q, pc'. rewrite Hino.
        split_and!; [apply list_lookup_insert_eq; by apply lookup_lt_Some in Hi|done|].
        intros H d Hin. destruct (Hdu H) as [H'|H']; [auto|].
        rewrite H' in Hin. destruct Hin as [<-|[]]; done.
      * exists q, pq. rewrite Hino. by rewrite list_lookup_insert_ne by done.
    + intros j r pr Hj Hwr. destruct (lookup_moved _ _ _ _ _ _ _ _ Hi Hj) as [(-> & -> & ->)|[_ H]];
        [apply (Hwin _ _ _ Hi), Hw, Hwr|by eapply Hwin].
  - destruct Hm as [Hall Hkn0].
    assert (Hd : dir s !! path = None) by apply Hall, Hs.
    destruct He as [(Hp & Hw & Hkn & Hdu)|(-> & _ & id & Hp & Hino)].
    + exists None. cbn [marker_ok fs procs]. split.
      * intros d Hin. destruct (Hpend d Hin) as [->|H]; [congruence|auto].
      * intros j r pr Hj. destruct (lookup_moved _ _ _ _ _ _ _ _ Hi Hj) as [(-> & -> & ->)|[_ H]]; [|by eapply Hkn0].
        apply not_true_is_false. intros H. destruct (Hkn H) as [H'|[x H']]; [by rewrite (Hkn0 _ _ _ Hi) in H'|congruence].
    + exists (Some (id, i)). cbn [marker_ok fs procs]. split_and!; [done| | |].
      * intros d Hin. destruct (Hpend d Hin) as [->|H]; auto.
      * exists p, PSyncDir. split_and!; [apply list_lookup_insert_eq; by apply lookup_lt_Some in Hi|done|done].
      * intros j r pr Hj Hwr. destruct (lookup_moved _ _ _ _ _ _ _ _ Hi Hj) as [(-> & _)|[_ H]]; [done|].
        pose proof (Hkn0 _ _ _ H) as Hn. by destruct pr as [| | | | | | |[]|[]|[]].
Qed.

(** Processes that have not started, with temporary names of their own. *)
Record initial (w : World) : Prop := {
  ini_sound : sound (fs w);
  ini_start : forall j p pc, procs w !! j = Some (p, pc) ->
    pc = PExists /\ pub_tmp p <> path /\ dir (fs w) !! pub_tmp p = None;
  ini_distinct : forall i j p q pc pc', procs w !! i = Some (p, pc) -> procs w !! j = Some (q, pc') ->
    pub_tmp p = pub_tmp q -> i = j
}.

Lemma initial_inv (w : World) : initial w -> inv w.
Proof.
  intros [Hs Hst Hne]. split; [done| |done|].
  - intros j p pc H. by apply (Hst _ _ _ H).
  - intros j p pc H. destruct (Hst _ _ _ H) as (-> & _ & H'). by intros _.
Qed.

Lemma marker_reachable_inv (w0 w : World) : inv w0 -> reachable w0 w -> inv w.
Proof. intros H. induction 1 as [|w w' _ IH Hst]; [done|]. by eapply inv_step. Qed.

Lemma reachable_marker (w0 w : World) (k : option (nat * nat)) :
  inv w0 -> marker_ok w0 k -> reachable w0 w -> exists k', marker_ok w k'.
Proof.
  intros Hi Hk. induction 1 as [|w w' Hr [k' IH] Hst]; [by exists k|].
  eapply marker_step; [|exact Hst|exact IH]. by eapply marker_reachable_inv.
Qed.

(** What a reader of the marker gets now. *)
Definition read_marker (s : Fs) : option bytes := id ← dir s !! path; data <$> inodes s !! id.

Lemma no_clobber_step (w w' : World) (bs : bytes) :
  inv w -> step w w' -> read_marker (fs w) = Some bs -> read_marker (fs w') = Some bs.
Proof.
  intros [Hs Htp _ Ho] Hst. destruct Hst as [s s' ps i p pc pc' Hi Hc]. cbn [fs procs] in *.
  destruct (call_effect _ _ _ _ _ Hs (Htp _ _ _ Hi) (Ho _ _ _ Hi) Hc) as (Hf & _ & He).
  unfold read_marker. destruct (dir s !! path) as [id|] eqn:Hd; [|done].
  destruct He as [(-> & _)|(_ & Hn & _)]; [|by rewrite Hn in Hd]. rewrite Hd. cbn [mbind option_bind].
  rewrite (fr_inode _ _ _ Hf path id); [done| |done]. intros E. by eapply (Htp _ _ _ Hi).
Qed.

Lemma no_clobber (w w' : World) (bs : bytes) :
  inv w -> reachable w w' -> read_marker (fs w) = Some bs -> read_marker (fs w') = Some bs.
Proof.
  intros Hi. induction 1 as [|w' w'' Hr IH Hst]; [done|]. intros H.
  eapply no_clobber_step; [|exact Hst|auto]. by eapply marker_reachable_inv.
Qed.

(** The marker of one publisher, and nothing else, whatever a power loss leaves. *)
Definition published (w : World) : Prop :=
  exists i p pc, procs w !! i = Some (p, pc) /\ read_marker (fs w) = Some (marker_of p) /\
    (forall c, survives (fs w) path c -> c = None \/ c = Some (marker_of p)) /\
    (durable pc = true -> forall c, survives (fs w) path c -> c = Some (marker_of p)) /\
    (forall j q pq, procs w !! j = Some (q, pq) -> won pq = true -> j = i).

Definition unpublished (w : World) : Prop :=
  read_marker (fs w) = None /\ (forall c, survives (fs w) path c -> c = None) /\
  (forall j p pc, procs w !! j = Some (p, pc) -> knows pc = false).

Lemma marker_ok_published (w : World) (k : option (nat * nat)) :
  inv w -> marker_ok w k -> published w \/ unpublished w.
Proof.
  intros Hi. destruct k as [[id i]|]; cbn [marker_ok].
  - intros (Hd & Hall & (p & pc & Hp & Hino & Hdur) & Hwin). left. exists i, p, pc.
    assert (Hone : forall (d : gmap string nat) c, d !! path = Some id ->
              match d !! path with
              | None => c = None
              | Some id => exists i bs, inodes (fs w) !! id = Some i /\ c = Some bs /\ (synced i = true -> bs = data i)
              end -> c = Some (marker_of p)).
    { intros d c ->. intros (x & bs & Hx & -> & Hb). rewrite Hino in Hx. injection Hx as <-. f_equal. by apply Hb. }
    split_and!; [done| | | |done].
    + unfold read_marker. rewrite Hd. cbn. by rewrite Hino.
    + intros c (d & Hin & Hc). destruct (Hall d Hin) as [Hn|Hs]; [left; by rewrite Hn in Hc|right; by eapply Hone].
    + intros H c (d & Hin & Hc). eapply Hone; [|exact Hc]. auto.
  - intros [Hall Hk]. right. split_and!; [| |done].
    + unfold read_marker. by rewrite (Hall _ (so_last _ (in_sound _ Hi))).
    + intros c (d & Hin & Hc). by rewrite (Hall _ Hin) in Hc.
Qed.

(** The next call of a process when no call fails, as a function. *)
Definition succeed (p : Publisher) (s : Fs) (pc : Pc) : option (Fs * Pc) :=
  match pc with
  | PExists => Some (s, if dir s !! path then PReturned Lost else PCreate)
  | PCreate => s' ← fs_step s (CreateNew (pub_tmp p)); Some (s', PWriteJson)
  | PWriteJson => s' ← fs_step s (WriteAll (pub_tmp p) (pub_json p)); Some (s', PWriteNewline)
  | PWriteNewline => s' ← fs_step s (WriteAll (pub_tmp p) [x0a]); Some (s', PSync)
  | PSync => s' ← fs_step s (SyncAll (pub_tmp p)); Some (s', PLink)
  | PLink =>
      match dir s !! path with
      | Some _ => Some (s, PRemove Lost)
      | None => s' ← fs_step s (HardLink (pub_tmp p) path); Some (s', PSyncDir)
      end
  | PSyncDir => s' ← fs_step s SyncDir; Some (s', PRemove Won)
  | PRemove e => s' ← fs_step s (RemoveFile (pub_tmp p)); Some (s', PCleanSync e)
  | PCleanSync e => s' ← fs_step s SyncDir; Some (s', PReturned e)
  | PReturned _ => None
  end.

Lemma succeed_call (p : Publisher) (s s' : Fs) (pc pc' : Pc) :
  succeed p s pc = Some (s', pc') -> call p s pc s' pc'.
Proof.
  destruct pc; cbn [succeed]; try (destruct (dir s !! path) eqn:Hp);
    try (destruct (fs_step _ _) eqn:E; cbn [mbind option_bind]); intros [= <- <-]; econstructor; eassumption.
Qed.

(** The processes in the order of a schedule. *)
Fixpoint run_schedule (w : World) (schedule : list nat) : option World :=
  match schedule with
  | [] => Some w
  | i :: schedule =>
      '(p, pc) ← procs w !! i; '(s', pc') ← succeed p (fs w) pc;
      run_schedule {| fs := s'; procs := <[i := (p, pc')]> (procs w) |} schedule
  end.

Lemma run_schedule_reachable (schedule : list nat) (w0 w w' : World) :
  reachable w0 w -> run_schedule w schedule = Some w' -> reachable w0 w'.
Proof.
  revert w. induction schedule as [|i schedule IH]; intros w Hr; cbn [run_schedule]; [congruence|].
  destruct (procs w !! i) as [[p pc]|] eqn:Hi; cbn [mbind option_bind]; [|done].
  destruct (succeed p (fs w) pc) as [[s' pc']|] eqn:Hs; cbn [mbind option_bind]; [|done].
  apply IH. eapply reach_step; [exact Hr|]. destruct w as [s ps]. econstructor; [exact Hi|]. by apply succeed_call.
Qed.

(** C26. Any number of monitors publish their incidents in one directory, every call of theirs may
    fail and the calls interleave in any order. A marker that a reader sees never changes again,
    whether it was there at the start or not. When it was not, then at every point, and whatever a
    power loss leaves: there is no marker and no monitor has returned [Ok]; or there is the complete
    marker of exactly one monitor, which is the only one to return [Ok(true)], and by then it is on
    disk. *)
Theorem marker_no_clobber (w0 w : World) :
  initial w0 -> reachable w0 w ->
  (forall w' bs, reachable w w' -> read_marker (fs w) = Some bs -> read_marker (fs w') = Some bs) /\
  ((forall d, In d (pending (fs w0)) -> d !! path = None) -> published w \/ unpublished w).
Proof.
  intros H0 Hr. pose proof (marker_reachable_inv _ _ (initial_inv _ H0) Hr) as Hi. split.
  - intros w' bs Hw'. by apply no_clobber.
  - intros Hall. destruct (reachable_marker w0 w None (initial_inv _ H0)) as [k Hk]; [|done|by eapply marker_ok_published].
    split; [done|]. intros j p pc Hj. by destruct (ini_start _ H0 _ _ _ Hj) as (-> & _).
Qed.
End Publishing.

(** Two monitors that diverge at once; both stage their incident before either links it. *)
Definition two_monitors : World := {|
  fs := {| dir := ∅; inodes := ∅; pending := [∅]; next_inode := 0 |};
  procs := [({| pub_tmp := ".active-1-5.tmp"; pub_json := [x7b; x31; x7d] |}, PExists);
            ({| pub_tmp := ".active-2-9.tmp"; pub_json := [x7b; x32; x7d] |}, PExists)]
|}.

Definition race_schedule : list nat := [0; 1; 1; 0; 0; 1; 1; 0; 0; 1; 0; 1; 0; 0; 1; 0; 1]%nat.

Lemma two_monitors_initial : initial "active.json" two_monitors.
Proof.
  split.
  - split; [|by left]. intros name id. cbn. by rewrite lookup_empty.
  - intros [|[|j]] p pc; cbn; intros [= <- <-]; by rewrite lookup_empty.
  - intros [|[|i]] [|[|j]] p q pc pc'; cbn; intros [= <- <-] [= <- <-]; done.
Qed.

(** The race ends with one winner, and its marker alone on disk. *)
Lemma marker_no_clobber_witness :
  exists w, run_schedule "active.json" two_monitors race_schedule = Some w /\
    snd <$> procs w = [PReturned Won; PReturned Lost] /\
    read_marker "active.json" (fs w) = Some [x7b; x31; x7d; x0a] /\
    (published "active.json" w \/ unpublished "active.json" w).
Proof.
  destruct (run_schedule "active.json" two_monitors race_schedule) as [w|] eqn:E; [|vm_compute in E; discriminate].
  exists w. split; [done|].
  pose proof (marker_no_clobber "active.json" two_monitors w two_monitors_initial) as H.
  assert (Hr : reachable "active.json" two_monitors w)
    by (eapply run_schedule_reachable; [apply reach_start|exact E]).
  destruct (H Hr) as [_ Hp].
  assert (Ho : published "active.json" w \/ unpublished "active.json" w) by (apply Hp; intros d [<-|[]]; reflexivity).
  split; [|split; [|exact Ho]]; clear -E; vm_compute in E; injection E as <-; reflexivity.
Defined.
End Marker.
