(* ===== verification/Driver.v ===== *)
(** * The engine driver: sequence reconciliation

    [crates/arb-reth-engine/src/engine.rs], [ArbEngineDriver::advance_with_applied_inner] and the
    operations it composes. Feed and L1 derivation both hand it messages; it drops the ones
    already applied, buffers the ones ahead of a gap and applies the next one, driving Reth's
    engine tree by channel requests. The tree, the payload builder and the provider are the class
    [Engine]. The state keeps the requests sent to the tree and the calls of the [on_applied]
    callback; an error ends the driver (its caller shuts it down), so it carries no state. *)

From Stdlib Require Import Strings.Byte Strings.String.
From stdpp Require Import base list numbers option.
From S2P Require Import Prelude BTree L1Decode.

Record SealedHeader := { sh_number : Z; sh_timestamp : Z; sh_hash : Z }.

Record ArbPayloadAttributes := { pa_timestamp : Z; pa_message : BroadcastFeedMessage }.

(** An executed block: its sealed header. *)
Record ExecutedBlock := { eb_header : SealedHeader }.

(** The requests the driver sends on [to_tree]. *)
Inductive EngineRequest :=
| ForkchoiceBuild (head : Z) (attributes : ArbPayloadAttributes)
| InsertExecutedBlock (block : ExecutedBlock)
| ForkchoiceHead (head : Z).

(** Reth: whether the tree's channel still takes a request after those sent, the block the payload
    job resolves to, the answer of the final forkchoice update, and whether the block is then
    observed as canonical (at once or within [wait_for_head]'s timeout). *)
Class Engine := {
  tree_accepts : list EngineRequest -> bool;
  build_payload : SealedHeader -> ArbPayloadAttributes -> result string ExecutedBlock;
  forkchoice_answer : ExecutedBlock -> result string unit;
  becomes_canonical : ExecutedBlock -> bool
}.

Record PendingAppliedBlock := { pab_sequence_number : Z; pab_block : ExecutedBlock }.

Record ArbEngineDriver := {
  tip : SealedHeader;
  pending_applied : option PendingAppliedBlock;
  next_seq : Z;
  pending : list (Z * BroadcastFeedMessage);
  to_tree : list EngineRequest;
  on_applied_calls : list Z
}.

Definition MAX_PENDING : nat := 50000.

Definition native_payload_attributes (d : ArbEngineDriver) (msg : BroadcastFeedMessage)
    : ArbPayloadAttributes :=
  {| pa_timestamp := Z.max (fh_timestamp (fl_header (fm_l1_incoming_message msg)))
                       (sh_timestamp (tip d));
     pa_message := msg |}.

Section Driver.
Context {EN : Engine}.

Definition send (request : EngineRequest) (d : ArbEngineDriver) : result string ArbEngineDriver :=
  if tree_accepts (to_tree d) then
    Ok {| tip := tip d; pending_applied := pending_applied d; next_seq := next_seq d;
          pending := pending d; to_tree := to_tree d ++ [request];
          on_applied_calls := on_applied_calls d |}
  else Err "send: channel closed"%string.

(** The sequence number of the settled block, if one was pending. *)
Definition settle_pending_applied (d : ArbEngineDriver)
    : result string (option Z * ArbEngineDriver) :=
  match pending_applied d with
  | None => Ok (None, d)
  | Some p =>
      let d := {| tip := tip d; pending_applied := None; next_seq := next_seq d;
                  pending := pending d; to_tree := to_tree d;
                  on_applied_calls := on_applied_calls d |} in
      let? _ := forkchoice_answer (pab_block p) in
      if becomes_canonical (pab_block p) then Ok (Some (pab_sequence_number p), d)
      else Err "block was NOT canonicalized within timeout"%string
  end.

Definition queue_applied_block (sequence_number : Z) (built : ExecutedBlock) (d : ArbEngineDriver)
    : result string (Z * ArbEngineDriver) :=
  let new_hash := sh_hash (eb_header built) in
  let? d := send (InsertExecutedBlock built) d in
  let? d := send (ForkchoiceHead new_hash) d in
  Ok (new_hash,
      {| tip := eb_header built;
         pending_applied := Some {| pab_sequence_number := sequence_number; pab_block := built |};
         next_seq := next_seq d; pending := pending d; to_tree := to_tree d;
         on_applied_calls := on_applied_calls d |}).

(** The new hash and the sequence number of the block settled on the way. *)
Definition apply_one_native (sequence_number : Z) (msg : BroadcastFeedMessage)
    (d : ArbEngineDriver) : result string (Z * option Z * ArbEngineDriver) :=
  let parent := tip d in
  let attributes := native_payload_attributes d msg in
  let? d := send (ForkchoiceBuild (sh_hash parent) attributes) d in
  let? '(completed_previous, d) := settle_pending_applied d in
  let? built := build_payload parent attributes in
  let? '(new_hash, d) := queue_applied_block sequence_number built d in
  Ok (new_hash, completed_previous, d).

(** [if let Some((sequence_number, timing)) = completed { on_applied(sequence_number, timing) }] *)
Definition report (completed : option Z) (d : ArbEngineDriver) : ArbEngineDriver :=
  {| tip := tip d; pending_applied := pending_applied d; next_seq := next_seq d;
     pending := pending d; to_tree := to_tree d;
     on_applied_calls := on_applied_calls d ++ option_list completed |}.

Definition set_pending (d : ArbEngineDriver) (p : list (Z * BroadcastFeedMessage))
    : ArbEngineDriver :=
  {| tip := tip d; pending_applied := pending_applied d; next_seq := next_seq d; pending := p;
     to_tree := to_tree d; on_applied_calls := on_applied_calls d |}.

Definition bump (d : ArbEngineDriver) : ArbEngineDriver :=
  {| tip := tip d; pending_applied := pending_applied d; next_seq := wrapping_add (next_seq d) 1;
     pending := pending d; to_tree := to_tree d; on_applied_calls := on_applied_calls d |}.

(** Apply the message at the cursor, report the block it settled, move the cursor. *)
Definition apply_at_cursor (msg : BroadcastFeedMessage) (d : ArbEngineDriver)
    : result string (Z * ArbEngineDriver) :=
  let? '(hash, completed, d) := apply_one_native (next_seq d) msg d in
  Ok (hash, bump (report completed d)).

(** [while let Some(buffered) = self.pending.remove(&self.next_seq)]; every turn removes an entry,
    so the buffer's size bounds the turns. *)
Fixpoint drain (fuel : nat) (hash : Z) (d : ArbEngineDriver) : result string (Z * ArbEngineDriver) :=
  match bt_get (next_seq d) (pending d) with
  | None => Ok (hash, d)
  | Some buffered =>
      match fuel with
      | O => Ok (hash, d)
      | S fuel =>
          let d := set_pending d (bt_remove (next_seq d) (pending d)) in
          let? '(new_hash, d) := apply_at_cursor buffered d in
          drain fuel new_hash d
      end
  end.

(** Settle the pending block and report it. *)
Definition settle_and_report (d : ArbEngineDriver) : result string ArbEngineDriver :=
  let? '(completed, d) := settle_pending_applied d in
  Ok (report completed d).

Definition advance_with_applied_inner (msg : BroadcastFeedMessage) (defer_tail : bool)
    (d : ArbEngineDriver) : result string (Z * ArbEngineDriver) :=
  let seq := fm_sequence_number msg in
  if seq <? next_seq d then
    let? d := settle_and_report d in
    Ok (sh_hash (tip d), d)
  else if next_seq d <? seq then
    let d := if (length (pending d) <? MAX_PENDING)%nat
             then set_pending d (bt_insert seq msg (pending d)) else d in
    let? d := settle_and_report d in
    Ok (sh_hash (tip d), d)
  else
    let? '(hash, d) := apply_at_cursor msg d in
    let? '(hash, d) := drain (length (pending d)) hash d in
    let? d := if negb defer_tail then settle_and_report d else Ok d in
    Ok (hash, set_pending d (bt_retain (fun k => next_seq d <=? k) (pending d))).

(** The messages of a run, each with its [defer_tail] flag. *)
Definition drive (msgs : list (BroadcastFeedMessage * bool)) (d : ArbEngineDriver)
    : result string ArbEngineDriver :=
  try_fold (fun d '(msg, defer_tail) =>
    let? '(_, d) := advance_with_applied_inner msg defer_tail d in Ok d) msgs d.

(** The driver over a resumed tip, as [spawn] leaves it. *)
Definition spawned (genesis_tip : SealedHeader) (genesis_block : Z) : ArbEngineDriver :=
  {| tip := genesis_tip; pending_applied := None;
     next_seq := wrapping_add (saturating_sub (sh_number genesis_tip) genesis_block) 1;
     pending := []; to_tree := []; on_applied_calls := [] |}.

(** Whether a message is applied, dropped as known or buffered, rather than dropped because the
    reorder buffer is full. *)
Definition takes_in (msg : BroadcastFeedMessage) (d : ArbEngineDriver) : bool :=
  (fm_sequence_number msg <=? next_seq d) || (length (pending d) <? MAX_PENDING)%nat.

(** A run in which no message ahead of the cursor meets a full reorder buffer. *)
Fixpoint never_full (msgs : list (BroadcastFeedMessage * bool)) (d : ArbEngineDriver) : bool :=
  match msgs with
  | [] => true
  | (msg, defer_tail) :: msgs =>
      takes_in msg d &&
      match advance_with_applied_inner msg defer_tail d with
      | Ok (_, d) => never_full msgs d
      | Err _ => true
      end
  end.

(** Messages numbered consecutively from [n]. *)
Definition consecutive (n : Z) (sent : list BroadcastFeedMessage) : Prop :=
  forall i m, sent !! i = Some m -> fm_sequence_number m = n + Z.of_nat i.

(** ** What a run amounts to *)

(** A chain of messages applied from cursor [n] on top of [parent]. *)
Definition applied : Type := BroadcastFeedMessage * ExecutedBlock.

Definition payload_of (parent : SealedHeader) (m : BroadcastFeedMessage) : ArbPayloadAttributes :=
  {| pa_timestamp := Z.max (fh_timestamp (fl_header (fm_l1_incoming_message m))) (sh_timestamp parent);
     pa_message := m |}.

Fixpoint chain (parent : SealedHeader) (n : Z) (l : list applied) : Prop :=
  match l with
  | [] => True
  | (m, b) :: l =>
      fm_sequence_number m = n /\ build_payload parent (payload_of parent m) = Ok b /\
      chain (eb_header b) (n + 1) l
  end.

Fixpoint chain_tip (parent : SealedHeader) (l : list applied) : SealedHeader :=
  match l with
  | [] => parent
  | (_, b) :: l => chain_tip (eb_header b) l
  end.

(** The requests of a chain: build on the parent, insert, make canonical. *)
Fixpoint chain_requests (parent : SealedHeader) (l : list applied) : list EngineRequest :=
  match l with
  | [] => []
  | (m, b) :: l =>
      [ForkchoiceBuild (sh_hash parent) (payload_of parent m); InsertExecutedBlock b;
       ForkchoiceHead (sh_hash (eb_header b))] ++ chain_requests (eb_header b) l
  end.

Lemma chain_snoc (parent : SealedHeader) (n : Z) (l : list applied) (m : BroadcastFeedMessage)
    (b : ExecutedBlock) :
  chain parent n l -> fm_sequence_number m = n + Z.of_nat (length l) ->
  build_payload (chain_tip parent l) (payload_of (chain_tip parent l) m) = Ok b ->
  chain parent n (l ++ [(m, b)]).
Proof.
  revert parent n. induction l as [|[m' b'] l IH]; intros parent n Hc Hs Hb.
  - cbn in *. split; [lia|done].
  - destruct Hc as (H1 & H2 & H3). cbn [length app] in *. do 2 (split; [done|]).
    apply IH; [done|lia|done].
Qed.

Lemma chain_tip_snoc (parent : SealedHeader) (l : list applied) (m : BroadcastFeedMessage)
    (b : ExecutedBlock) : chain_tip parent (l ++ [(m, b)]) = eb_header b.
Proof. revert parent. induction l as [|[m' b'] l IH]; intros parent; [done|]. apply IH. Qed.

Lemma chain_requests_snoc (parent : SealedHeader) (l : list applied) (m : BroadcastFeedMessage)
    (b : ExecutedBlock) :
  chain_requests parent (l ++ [(m, b)]) = chain_requests parent l ++
    [ForkchoiceBuild (sh_hash (chain_tip parent l)) (payload_of (chain_tip parent l) m);
     InsertExecutedBlock b; ForkchoiceHead (sh_hash (eb_header b))].
Proof.
  revert parent. induction l as [|[m' b'] l IH]; intros parent; [done|].
  cbn [app chain_requests chain_tip]. by rewrite IH.
Qed.

(** What the driver's steps do when they succeed. *)
Lemma send_spec (r : EngineRequest) (d d' : ArbEngineDriver) :
  send r d = Ok d' ->
  d' = {| tip := tip d; pending_applied := pending_applied d; next_seq := next_seq d;
          pending := pending d; to_tree := to_tree d ++ [r];
          on_applied_calls := on_applied_calls d |}.
Proof. unfold send. intros H. if_inv H. by simplify_eq. Qed.

Lemma settle_spec (d d' : ArbEngineDriver) (o : option Z) :
  settle_pending_applied d = Ok (o, d') ->
  o = (pab_sequence_number <$> pending_applied d) /\
  d' = {| tip := tip d; pending_applied := None; next_seq := next_seq d; pending := pending d;
          to_tree := to_tree d; on_applied_calls := on_applied_calls d |}.
Proof.
  unfold settle_pending_applied. intros H. destruct d as [t [p|] n pd tr cs]; cbn in *.
  - ok_inv. if_inv H. by simplify_eq.
  - by simplify_eq.
Qed.

Lemma apply_spec (seq h : Z) (m : BroadcastFeedMessage) (d d' : ArbEngineDriver) (o : option Z) :
  apply_one_native seq m d = Ok (h, o, d') ->
  exists b, build_payload (tip d) (payload_of (tip d) m) = Ok b /\
    o = (pab_sequence_number <$> pending_applied d) /\
    d' = {| tip := eb_header b;
            pending_applied := Some {| pab_sequence_number := seq; pab_block := b |};
            next_seq := next_seq d; pending := pending d;
            to_tree := to_tree d ++ [ForkchoiceBuild (sh_hash (tip d)) (payload_of (tip d) m);
                         InsertExecutedBlock b; ForkchoiceHead (sh_hash (eb_header b))];
            on_applied_calls := on_applied_calls d |}.
Proof.
  unfold apply_one_native, queue_applied_block. intros H.
  apply rbind_Ok in H as (d1 & H1%send_spec & H). apply rbind_Ok in H as ([o' d2] & H2 & H).
  apply settle_spec in H2 as [-> H2]. apply rbind_Ok in H as (b & Hb & H).
  apply rbind_Ok in H as ([h' d3] & H3 & H). apply rbind_Ok in H3 as (d4 & H4%send_spec & H3).
  apply rbind_Ok in H3 as (d5 & H5%send_spec & H3). simplify_eq. exists b.
  split; [done|]. split; [done|]. cbn. by rewrite <- !app_assoc.
Qed.

Section Run.
Variables (d0 : ArbEngineDriver) (all : list BroadcastFeedMessage).

(** The driver after applying [l]: its tip, its requests and its callbacks are those of the
    chain, and its buffer holds messages of the run under their sequence numbers. *)
Record run_inv (l : list applied) (d : ArbEngineDriver) : Prop := {
  ri_chain : chain (tip d0) (next_seq d0) l;
  ri_from : Forall (fun a => In (fst a) all) l;
  ri_seq : next_seq d = next_seq d0 + Z.of_nat (length l);
  ri_tip : tip d = chain_tip (tip d0) l;
  ri_requests : to_tree d = to_tree d0 ++ chain_requests (tip d0) l;
  ri_calls : on_applied_calls d ++ option_list (pab_sequence_number <$> pending_applied d)
             = on_applied_calls d0 ++ option_list (pab_sequence_number <$> pending_applied d0)
               ++ map (fun a => fm_sequence_number (fst a)) l;
  ri_pending : forall s m, In (s, m) (pending d) -> In m all /\ fm_sequence_number m = s;
  ri_sorted : bt_sorted (pending d)
}.

Lemma run_inv_set_pending (l : list applied) (d : ArbEngineDriver)
    (p : list (Z * BroadcastFeedMessage)) :
  run_inv l d -> (forall s m, In (s, m) p -> In m all /\ fm_sequence_number m = s) -> bt_sorted p ->
  run_inv l (set_pending d p).
Proof. intros [] Hp Hs. by split. Qed.

Lemma settle_inv (l : list applied) (d d' : ArbEngineDriver) :
  run_inv l d -> settle_and_report d = Ok d' ->
  run_inv l d' /\ pending d' = pending d /\ next_seq d' = next_seq d /\ pending_applied d' = None.
Proof.
  intros [] H. unfold settle_and_report in H. apply rbind_Ok in H as ([o d1] & [-> ->]%settle_spec & H).
  simplify_eq. split; [|done]. split; try done. cbn [report on_applied_calls pending_applied].
  by rewrite app_nil_r.
Qed.

(** Applying the message at the cursor extends the chain by one block. *)
Lemma apply_inv (l : list applied) (d d' : ArbEngineDriver) (m : BroadcastFeedMessage) (h : Z) :
  run_inv l d -> In m all -> fm_sequence_number m = next_seq d ->
  0 <= next_seq d < U64_MAX -> apply_at_cursor m d = Ok (h, d') ->
  exists b, run_inv (l ++ [(m, b)]) d' /\ pending d' = pending d /\ next_seq d' = next_seq d + 1.
Proof.
  intros [Hc Hf Hs Ht Hr Hcalls Hp Hso] Hin Hm Hu H. unfold apply_at_cursor in H.
  apply rbind_Ok in H as ([[h1 o] d1] & (b & Hb & -> & ->)%apply_spec & H). simplify_eq.
  assert (Hw : wrapping_add (next_seq d) 1 = next_seq d + 1).
  { apply wrap64_small. unfold is_u64, U64_MAX in *. lia. }
  exists b. cbn [bump report pending next_seq]. split; [|done].
  rewrite Ht in *. split; cbn [bump report tip pending_applied next_seq pending to_tree on_applied_calls].
  - apply chain_snoc; [done|congruence|done].
  - apply List.Forall_app. split; [done|]. by constructor.
  - rewrite Hw, length_app. cbn [length]. lia.
  - by rewrite chain_tip_snoc.
  - by rewrite chain_requests_snoc, Hr, app_assoc.
  - rewrite map_app. cbn [fmap option_fmap option_map option_list map fst pab_sequence_number].
    rewrite Hcalls, Hm, <- !app_assoc. done.
  - done.
  - done.
Qed.

Lemma drain_inv (fuel : nat) (l : list applied) (d d' : ArbEngineDriver) (h h' : Z) :
  (forall m, In m all -> 0 <= fm_sequence_number m < U64_MAX) ->
  run_inv l d -> (length (pending d) <= fuel)%nat -> drain fuel h d = Ok (h', d') ->
  exists l', run_inv (l ++ l') d' /\ bt_get (next_seq d') (pending d') = None /\
    next_seq d <= next_seq d' /\
    (forall s, next_seq d' <= s -> bt_get s (pending d') = bt_get s (pending d)) /\
    (length (pending d') <= length (pending d))%nat.
Proof.
  intros Hall. revert l d h. induction fuel as [|fuel IH]; intros l d h Hi Hl H; cbn [drain] in H.
  - destruct (pending d) as [|? ?] eqn:E; [|cbn in Hl; lia]. cbn in H. simplify_eq.
    exists []. rewrite app_nil_r, E. done.
  - destruct (bt_get (next_seq d) (pending d)) as [m|] eqn:E.
    2: { simplify_eq. exists []. rewrite app_nil_r. done. }
    apply rbind_Ok in H as ([h1 d1] & H1 & H). pose proof E as E'. apply bt_get_In in E'.
    destruct (ri_pending _ _ Hi _ _ E') as [Hin Hm].
    assert (Hi1 : run_inv l (set_pending d (bt_remove (next_seq d) (pending d)))).
    { apply run_inv_set_pending; [done| |by apply bt_retain_sorted, Hi].
      intros s m' Hm'. apply (ri_pending _ _ Hi). unfold bt_remove, bt_retain in Hm'.
      by apply filter_In in Hm' as [Hm' _]. }
    eapply apply_inv in H1 as (b & Hi2 & Hp2 & Hn2); [|exact Hi1|done|done|cbn; rewrite <- Hm; by apply Hall].
    cbn [set_pending pending next_seq] in Hp2, Hn2.
    pose proof (bt_remove_length _ _ _ E) as Hlen.
    eapply IH in H as (l' & Hi3 & Hnone & Hle & Hsame & Hl3); [|exact Hi2|rewrite Hp2; lia].
    rewrite Hp2 in *. exists ((m, b) :: l'). rewrite <- app_assoc in Hi3.
    split; [done|]. split; [done|]. split; [lia|]. split; [|lia].
    intros s Hs. rewrite Hsame, bt_get_remove by done.
    destruct (kcmp (next_seq d) s) eqn:Ek; [|done|done]. apply kcmp_eq in Ek. lia.
Qed.

(** Between two calls the buffer lies above the cursor. *)
Definition resting (d : ArbEngineDriver) : Prop :=
  forall s m, bt_get s (pending d) = Some m -> next_seq d < s.

(** A sequence number is applied or buffered. *)
Definition known (d : ArbEngineDriver) (s : Z) : Prop :=
  s < next_seq d \/ is_Some (bt_get s (pending d)).

Definition step_ok (l : list applied) (d d' : ArbEngineDriver) : Prop :=
  exists l', run_inv (l ++ l') d' /\ resting d' /\ next_seq d <= next_seq d' /\
    (forall s, known d s -> known d' s) /\ (length (pending d') <= S (length (pending d)))%nat.

Lemma insert_length (k : Z) (v : BroadcastFeedMessage) (p : list (Z * BroadcastFeedMessage)) :
  (length (bt_insert k v p) <= S (length p))%nat.
Proof.
  induction p as [|[k' v'] p IH]; cbn [bt_insert]; [done|]. destruct (kcmp k k'); cbn [length] in *; lia.
Qed.

(** A message below the cursor changes nothing but the pending block. *)
Lemma advance_below (l : list applied) (d d' : ArbEngineDriver) :
  run_inv l d -> resting d -> settle_and_report d = Ok d' -> step_ok l d d'.
Proof.
  intros Hi Hr H. destruct (settle_inv _ _ _ Hi H) as (Hi' & Ep & En & _).
  exists []. rewrite app_nil_r. unfold resting, known in *. rewrite Ep, En.
  split_and!; [done|done|lia|done|lia].
Qed.

Lemma advance_above (l : list applied) (d d' : ArbEngineDriver) (m : BroadcastFeedMessage) :
  run_inv l d -> resting d -> In m all -> next_seq d < fm_sequence_number m ->
  settle_and_report (set_pending d (bt_insert (fm_sequence_number m) m (pending d))) = Ok d' ->
  step_ok l d d' /\ known d' (fm_sequence_number m).
Proof.
  intros Hi Hr Hin Hlt H.
  assert (Hi1 : run_inv l (set_pending d (bt_insert (fm_sequence_number m) m (pending d)))).
  { apply run_inv_set_pending; [done| |by apply bt_insert_sorted, Hi].
    intros s m' [[= -> ->]|Hm']%bt_insert_In; [done|]. by apply (ri_pending _ _ Hi). }
  destruct (settle_inv _ _ _ Hi1 H) as (Hi' & Ep & En & _). cbn [set_pending pending next_seq] in *.
  split.
  - exists []. rewrite app_nil_r. unfold resting, known in *. rewrite Ep, En. split_and!; [done| |lia| |].
    + intros s m'. rewrite bt_get_insert. destruct (kcmp s (fm_sequence_number m)) eqn:Ek; [|by apply Hr..].
      apply kcmp_eq in Ek as ->. done.
    + intros s [Hs|Hs]; [by left|right]. rewrite bt_get_insert. by destruct (kcmp s _).
    + apply insert_length.
  - right. rewrite Ep, bt_get_insert_eq. by eexists.
Qed.

Lemma retain_get (d : ArbEngineDriver) (s : Z) :
  bt_get s (bt_retain (fun k => next_seq d <=? k) (pending d))
    = if next_seq d <=? s then bt_get s (pending d) else None.
Proof. apply bt_get_retain. Qed.

Lemma advance_at (l : list applied) (d d' : ArbEngineDriver) (m : BroadcastFeedMessage)
    (h : Z) (defer_tail : bool) :
  (forall m, In m all -> 0 <= fm_sequence_number m < U64_MAX) ->
  run_inv l d -> In m all -> fm_sequence_number m = next_seq d ->
  (let? '(hash, d1) := apply_at_cursor m d in
   let? '(hash, d1) := drain (length (pending d1)) hash d1 in
   let? d1 := if negb defer_tail then settle_and_report d1 else Ok d1 in
   Ok (hash, set_pending d1 (bt_retain (fun k => next_seq d1 <=? k) (pending d1)))) = Ok (h, d') ->
  step_ok l d d' /\ known d' (fm_sequence_number m) /\
  (defer_tail = false -> pending_applied d' = None).
Proof.
  intros Hall Hi Hin Hm H.
  apply rbind_Ok in H as ([h1 d1] & H1 & H). apply rbind_Ok in H as ([h2 d2] & H2 & H).
  apply rbind_Ok in H as (d3 & H3 & H). simplify_eq.
  eapply apply_inv in H1 as (b & Hi1 & Hp1 & Hn1); [|done|done|done|rewrite <- Hm; by apply Hall].
  eapply drain_inv in H2 as (l2 & Hi2 & Hnone & Hle & Hsame & Hlen); [|done|exact Hi1|done].
  assert (H3' : run_inv ((l ++ [(m, b)]) ++ l2) d3 /\ pending d3 = pending d2 /\
                next_seq d3 = next_seq d2 /\ (defer_tail = false -> pending_applied d3 = None)).
  { destruct defer_tail; cbn in H3; [by simplify_eq|].
    destruct (settle_inv _ _ _ Hi2 H3) as (? & ? & ? & ?). done. }
  destruct H3' as (Hi3 & Ep3 & En3 & Hd3). rewrite <- app_assoc in Hi3.
  rewrite Hp1 in *.
  assert (Hi4 : run_inv (l ++ [(m, b)] ++ l2) (set_pending d3 (bt_retain (fun k => next_seq d3 <=? k) (pending d3)))).
  { apply run_inv_set_pending; [done| |by apply bt_retain_sorted, Hi3].
    intros s m' Hm'. unfold bt_retain in Hm'. apply filter_In in Hm' as [Hm' _].
    by apply (ri_pending _ _ Hi3). }
  split; [|split; [|done]].
  - exists ([(m, b)] ++ l2). split; [done|]. unfold resting, known. cbn [set_pending next_seq pending].
    split_and!.
    + intros s m' Hs. rewrite retain_get in Hs. rewrite Ep3, En3 in *.
      destruct (Z.leb_spec (next_seq d2) s); [|done].
      destruct (Z.eq_dec s (next_seq d2)) as [->|]; [congruence|lia].
    + lia.
    + intros s Hs. rewrite retain_get, Ep3, En3. destruct (Z.leb_spec (next_seq d2) s); [|by left].
      right. rewrite Hsame by done. destruct Hs as [Hs|Hs]; [lia|done].
    + unfold bt_retain. rewrite Ep3.
      pose proof (List.filter_length_le (fun kv : Z * BroadcastFeedMessage => next_seq d3 <=? fst kv) (pending d2)).
      lia.
  - left. cbn [set_pending next_seq]. lia.
Qed.

Lemma advance_inv (l : list applied) (d d' : ArbEngineDriver) (m : BroadcastFeedMessage)
    (h : Z) (defer_tail : bool) :
  (forall m, In m all -> 0 <= fm_sequence_number m < U64_MAX) ->
  run_inv l d -> resting d -> In m all ->
  advance_with_applied_inner m defer_tail d = Ok (h, d') ->
  step_ok l d d' /\ (takes_in m d = true -> known d' (fm_sequence_number m)) /\
  (defer_tail = false -> pending_applied d' = None).
Proof.
  intros Hall Hi Hr Hin H. unfold advance_with_applied_inner in H. unfold takes_in.
  destruct (Z.ltb_spec (fm_sequence_number m) (next_seq d)) as [Hlt|Hge].
  { apply rbind_Ok in H as (d1 & H1 & H). simplify_eq. destruct (settle_inv _ _ _ Hi H1) as (_ & _ & En & Hn).
    split; [by apply advance_below|]. split; [|done]. intros _. left. lia. }
  destruct (Z.ltb_spec (next_seq d) (fm_sequence_number m)) as [Hlt|Hle].
  - apply rbind_Ok in H as (d1 & H1 & H). simplify_eq.
    assert (Hn : pending_applied d' = None).
    { apply rbind_Ok in H1 as ([o d2] & [_ ->]%settle_spec & H1). by simplify_eq. }
    destruct (Nat.ltb_spec (length (pending d)) MAX_PENDING) as [Hl|Hl].
    + destruct (advance_above _ _ _ _ Hi Hr Hin Hlt H1). done.
    + split; [by apply advance_below|]. split; [|done].
      by rewrite (proj2 (Z.leb_gt _ _)).
  - assert (Hm : fm_sequence_number m = next_seq d) by lia.
    destruct (advance_at _ _ _ _ _ _ Hall Hi Hin Hm H) as (Hs & Hk & Hd). done.
Qed.

Lemma drive_inv (msgs : list (BroadcastFeedMessage * bool)) (l : list applied) (d d' : ArbEngineDriver) :
  (forall m, In m all -> 0 <= fm_sequence_number m < U64_MAX) ->
  (forall m, In m (map fst msgs) -> In m all) ->
  run_inv l d -> resting d -> drive msgs d = Ok d' ->
  exists l', run_inv (l ++ l') d' /\ resting d' /\
    next_seq d <= next_seq d' /\ (forall s, known d s -> known d' s) /\
    ((length (pending d) + length msgs <= MAX_PENDING)%nat -> never_full msgs d = true) /\
    (never_full msgs d = true ->
     forall m, In m (map fst msgs) -> known d' (fm_sequence_number m)).
Proof.
  intros Hall. revert l d. induction msgs as [|[m defer] msgs IH]; intros l d Hms Hi Hr H;
    cbn [drive try_fold never_full] in *.
  - unfold drive in H. cbn in H. simplify_eq. exists []. rewrite app_nil_r. done.
  - unfold drive in H. cbn [try_fold] in H. apply rbind_Ok in H as (d1 & H1 & H).
    apply rbind_Ok in H1 as ([h d2] & H1 & [= ->]).
    destruct (advance_inv _ _ _ _ _ _ Hall Hi Hr (Hms m (or_introl eq_refl)) H1) as (Hs & Hk & _).
    destruct Hs as (l1 & Hi1 & Hr1 & Hle & Hknown & Hlen).
    rewrite H1.
    eapply IH in H as (l2 & Hi2 & Hr2 & Hle2 & Hk2 & Hf2 & Hm2); [| |exact Hi1|done].
    2: { intros m' Hm'. apply Hms. by right. }
    rewrite <- app_assoc in Hi2. exists (l1 ++ l2). split_and!; [done|done|lia|by auto|..].
    + intros Hcap. cbn [length] in Hcap. apply andb_true_iff. split; [|apply Hf2; lia].
      apply orb_true_iff. right. apply Nat.ltb_lt. lia.
    + intros [Ht Hn]%andb_true_iff m' [<-|Hm']; [by apply Hk2, Hk|by apply Hm2].
Qed.

(** Messages numbered consecutively that arrive in order are applied whatever arrives between
    them: each is at or below the cursor when it arrives, so no buffering is needed. *)
Lemma drive_progress (sent : list BroadcastFeedMessage) (msgs : list (BroadcastFeedMessage * bool))
    (l : list applied) (n : Z) (d d' : ArbEngineDriver) :
  (forall m, In m all -> 0 <= fm_sequence_number m < U64_MAX) ->
  (forall m, In m (map fst msgs) -> In m all) ->
  run_inv l d -> resting d -> drive msgs d = Ok d' -> sublist sent (map fst msgs) ->
  consecutive n sent -> n <= next_seq d -> n + Z.of_nat (length sent) <= next_seq d'.
Proof.
  intros Hall. revert l n d sent.
  induction msgs as [|[m defer] msgs IH]; intros l n d sent Hms Hi Hr H Hsub Hnum Hn; cbn [map fst] in Hsub.
  { unfold drive in H. cbn in H. simplify_eq. apply sublist_nil_r in Hsub as ->. cbn. lia. }
  unfold drive in H. cbn [try_fold] in H. apply rbind_Ok in H as (d1 & H1 & H).
  apply rbind_Ok in H1 as ([h d2] & H1 & [= ->]).
  destruct (advance_inv _ _ _ _ _ _ Hall Hi Hr (Hms m (or_introl eq_refl)) H1) as (Hs & Hk & _).
  destruct Hs as (l1 & Hi1 & Hr1 & Hle & _ & _).
  assert (Hms' : forall x, In x (map fst msgs) -> In x all) by (intros x Hx; apply Hms; by right).
  apply sublist_cons_r in Hsub as [Hsub|(sent' & -> & Hsub)].
  { eapply (IH _ n _ _ Hms' Hi1 Hr1 H); [done|done|lia]. }
  assert (Hm : fm_sequence_number m = n) by (rewrite (Hnum O m eq_refl); lia).
  assert (Hn1 : n + 1 <= next_seq d1).
  { destruct Hk as [Hlt|[m' Hm']]; [|lia|apply Hr1 in Hm'; lia].
    unfold takes_in. rewrite Hm, (proj2 (Z.leb_le _ _)) by done. done. }
  cbn [length]. rewrite Nat2Z.inj_succ.
  enough (n + 1 + Z.of_nat (length sent') <= next_seq d') by lia.
  eapply (IH _ (n + 1) _ _ Hms' Hi1 Hr1 H); [done| |done].
  intros i x Hx. rewrite (Hnum (S i) x Hx). lia.
Qed.

End Run.

(** ** Runs from a spawned driver *)

Definition sequences_ok (msgs : list (BroadcastFeedMessage * bool)) : Prop :=
  forall m, In m (map fst msgs) -> 0 <= fm_sequence_number m < U64_MAX.

Lemma spawned_inv (t : SealedHeader) (g : Z) (all : list BroadcastFeedMessage) :
  run_inv (spawned t g) all [] (spawned t g) /\ resting (spawned t g).
Proof.
  split; [|done]. split; try done.
  - cbn. lia.
  - constructor.
Qed.

(** What a successful run from a spawned driver has done. *)
Lemma drive_spec (t : SealedHeader) (g : Z) (msgs : list (BroadcastFeedMessage * bool))
    (d : ArbEngineDriver) :
  sequences_ok msgs -> drive msgs (spawned t g) = Ok d ->
  exists l, run_inv (spawned t g) (map fst msgs) l d /\
    ((length msgs <= MAX_PENDING)%nat -> never_full msgs (spawned t g) = true) /\
    (never_full msgs (spawned t g) = true ->
     forall m, In m (map fst msgs) -> fm_sequence_number m <> next_seq d) /\
    (forall n sent, n <= next_seq (spawned t g) -> consecutive n sent -> sublist sent (map fst msgs) ->
     n + Z.of_nat (length sent) <= next_seq d).
Proof.
  intros Hs H. destruct (spawned_inv t g (map fst msgs)) as [Hi Hr].
  destruct (drive_inv _ _ msgs [] _ _ Hs (fun m Hm => Hm) Hi Hr H) as (l & Hl & Hr' & _ & _ & Hf & Hk).
  exists l. split_and!; [done|done| |].
  - intros Hcap m Hm Heq. destruct (Hk Hcap m Hm) as [Hlt|[m' Hm']]; [lia|]. apply Hr' in Hm'. lia.
  - intros n sent Hn Hc Hsub.
    exact (drive_progress _ _ sent msgs [] n _ _ Hs (fun m Hm => Hm) Hi Hr H Hsub Hc Hn).
Qed.

Lemma chain_lookup (parent : SealedHeader) (n : Z) (l : list applied) (i : nat) :
  chain parent n l -> (i < length l)%nat ->
  exists a, In a l /\ fm_sequence_number (fst a) = n + Z.of_nat i.
Proof.
  revert parent n i. induction l as [|[m b] l IH]; intros parent n i Hc Hi; cbn [length] in Hi; [lia|].
  destruct Hc as (Hm & _ & Hc). destruct i as [|i].
  - exists (m, b). split; [by left|]. cbn. lia.
  - destruct (IH _ _ i Hc ltac:(lia)) as (a & Ha & Hs). exists a. split; [by right|]. lia.
Qed.

(** Chains over messages that agree per sequence number are equal. *)
Lemma chain_agree (parent : SealedHeader) (n : Z) (l l' : list applied) :
  (forall a a', In a l -> In a' l' ->
     fm_sequence_number (fst a) = fm_sequence_number (fst a') -> fst a = fst a') ->
  chain parent n l -> chain parent n l' -> length l = length l' -> l = l'.
Proof.
  revert parent n l'. induction l as [|[m b] l IH]; intros parent n [|[m' b'] l'] Hag Hc Hc' Hlen;
    try done.
  destruct Hc as (Hm & Hb & Hc), Hc' as (Hm' & Hb' & Hc').
  assert (m = m') as <-.
  { apply (Hag (m, b) (m', b')); [by left|by left|]. cbn. congruence. }
  rewrite Hb in Hb'. injection Hb' as <-. f_equal. eapply IH; [|done|done|by injection Hlen].
  intros a a' Ha Ha'. apply Hag; by right.
Qed.

(** C2. Whatever order and overlap the feed and L1 derivation deliver messages in, the driver
    applies exactly one message per sequence number, consecutively from its cursor, each built on
    the block before it: the tip, the requests sent to the engine tree (build on the parent,
    insert, make canonical, block by block) and the callbacks (with at most the last one
    outstanding) are those of one chain of received messages; and as long as the buffer bound is
    not reached the cursor stops only at a sequence number that was never received. *)
Theorem drive_applies_in_order (t : SealedHeader) (g : Z)
    (msgs : list (BroadcastFeedMessage * bool)) (d : ArbEngineDriver) :
  sequences_ok msgs -> drive msgs (spawned t g) = Ok d ->
  exists l, chain t (next_seq (spawned t g)) l /\
    Forall (fun a => In (fst a) (map fst msgs)) l /\
    next_seq d = next_seq (spawned t g) + Z.of_nat (length l) /\
    tip d = chain_tip t l /\ to_tree d = chain_requests t l /\
    on_applied_calls d ++ option_list (pab_sequence_number <$> pending_applied d)
      = map (fun a => fm_sequence_number (fst a)) l /\
    ((length msgs <= MAX_PENDING)%nat ->
     forall m, In m (map fst msgs) -> fm_sequence_number m <> next_seq d).
Proof.
  intros Hs H. destruct (drive_spec t g msgs d Hs H) as (l & [] & Hfull & Hmax & _). exists l.
  split_and!; try done. intros Hcap. by apply Hmax, Hfull.
Qed.

(** The chain does not depend on the order of arrival: two runs over the same messages, in
    any order, with any repetitions, where copies of a sequence number agree, end at the same tip
    with the same requests sent to the engine tree, when both stop at a number never received. *)
Theorem drive_order_free (t : SealedHeader) (g : Z)
    (msgs msgs' : list (BroadcastFeedMessage * bool)) (d d' : ArbEngineDriver) :
  (forall m, In m (map fst msgs) <-> In m (map fst msgs')) ->
  (forall m m', In m (map fst msgs) -> In m' (map fst msgs) ->
     fm_sequence_number m = fm_sequence_number m' -> m = m') ->
  sequences_ok msgs -> drive msgs (spawned t g) = Ok d -> drive msgs' (spawned t g) = Ok d' ->
  (forall m, In m (map fst msgs) -> fm_sequence_number m <> next_seq d) ->
  (forall m, In m (map fst msgs) -> fm_sequence_number m <> next_seq d') ->
  next_seq d = next_seq d' /\ tip d = tip d' /\ to_tree d = to_tree d'.
Proof.
  intros Hsame Hag Hs H H' Hmax Hmax'.
  assert (Hs' : sequences_ok msgs') by (intros m Hm; by apply Hs, Hsame).
  destruct (drive_spec t g msgs d Hs H) as (l & [] & _).
  destruct (drive_spec t g msgs' d' Hs' H') as (l' & [] & _).
  rewrite List.Forall_forall in *.
  assert (Hlen : length l = length l').
  { destruct (Nat.lt_trichotomy (length l) (length l')) as [Hlt|[Heq|Hlt]]; [exfalso|done|exfalso].
    - destruct (chain_lookup _ _ _ _ ri_chain1 Hlt) as (a & Ha & Hseq).
      apply (Hmax (fst a)); [|lia]. by apply Hsame, ri_from1.
    - destruct (chain_lookup _ _ _ _ ri_chain0 Hlt) as (a & Ha & Hseq).
      apply (Hmax' (fst a)); [|lia]. by apply ri_from0. }
  assert (l = l') as <-.
  { eapply chain_agree; [|exact ri_chain0|exact ri_chain1|done]. intros a a' Ha Ha' Hseq.
    apply Hag; [by apply ri_from0|by apply Hsame, ri_from1|done]. }
  split_and!; congruence.
Qed.

(** ** Progress *)

(** An engine that answers every request. *)
Definition healthy : Prop :=
  (forall rs, tree_accepts rs = true) /\ (forall p a, exists b, build_payload p a = Ok b) /\
  (forall b, forkchoice_answer b = Ok tt) /\ (forall b, becomes_canonical b = true).

Lemma settle_total (d : ArbEngineDriver) :
  healthy -> exists o d', settle_pending_applied d = Ok (o, d').
Proof.
  intros (_ & _ & Hf & Hc). unfold settle_pending_applied.
  destruct (pending_applied d) as [p|]; [rewrite Hf; cbn [rbind]; rewrite Hc|]; by eexists _, _.
Qed.

Lemma settle_and_report_total (d : ArbEngineDriver) :
  healthy -> exists d', settle_and_report d = Ok d'.
Proof.
  intros Hh. unfold settle_and_report. destruct (settle_total d Hh) as (o & d' & ->). by eexists.
Qed.

Lemma apply_total (m : BroadcastFeedMessage) (d : ArbEngineDriver) :
  healthy -> exists h d', apply_at_cursor m d = Ok (h, d').
Proof.
  intros Hh. pose proof Hh as (Ha & Hb & _). unfold apply_at_cursor, apply_one_native.
  unfold send at 1. rewrite Ha. cbn [rbind].
  match goal with |- context [settle_pending_applied ?d1] =>
    destruct (settle_total d1 Hh) as (o & d2 & ->) end. cbn [rbind].
  match goal with |- context [build_payload ?p ?a] => destruct (Hb p a) as (b & ->) end. cbn [rbind].
  unfold queue_applied_block, send. rewrite !Ha. cbn [rbind]. rewrite Ha. cbn [rbind]. by eexists _, _.
Qed.

Lemma drain_total (fuel : nat) (h : Z) (d : ArbEngineDriver) :
  healthy -> exists h' d', drain fuel h d = Ok (h', d').
Proof.
  intros Hh. revert h d. induction fuel as [|fuel IH]; intros h d; cbn [drain];
    destruct (bt_get _ _) as [m|]; try by eexists _, _.
  destruct (apply_total m (set_pending d (bt_remove (next_seq d) (pending d))) Hh) as (h1 & d1 & ->).
  apply IH.
Qed.

Lemma advance_total (m : BroadcastFeedMessage) (defer_tail : bool) (d : ArbEngineDriver) :
  healthy -> exists h d', advance_with_applied_inner m defer_tail d = Ok (h, d').
Proof.
  intros Hh. unfold advance_with_applied_inner. case_match.
  { destruct (settle_and_report_total d Hh) as (d' & ->). by eexists _, _. }
  case_match.
  { match goal with |- context [settle_and_report ?d1] =>
      destruct (settle_and_report_total d1 Hh) as (d' & ->) end. by eexists _, _. }
  destruct (apply_total m d Hh) as (h1 & d1 & ->). cbn [rbind].
  destruct (drain_total (length (pending d1)) h1 d1 Hh) as (h2 & d2 & ->). cbn [rbind].
  destruct defer_tail; cbn [negb rbind]; [by eexists _, _|].
  destruct (settle_and_report_total d2 Hh) as (d3 & ->). by eexists _, _.
Qed.

Lemma drive_total (msgs : list (BroadcastFeedMessage * bool)) (d : ArbEngineDriver) :
  healthy -> exists d', drive msgs d = Ok d'.
Proof.
  intros Hh. revert d. induction msgs as [|[m defer] msgs IH]; intros d; [by eexists|].
  unfold drive. cbn [try_fold]. destruct (advance_total m defer d Hh) as (h & d1 & ->). apply IH.
Qed.

(** C34. With an engine that answers and sequence numbers below the end of [u64], every run succeeds and applies what it can. A message ahead of
    the cursor is buffered unless the reorder buffer holds its 50,000 entries; as long as none
    meets a full buffer (in particular when no more than that many arrive), once the messages
    received cover the next [k] sequence numbers, in any order, all [k] have been applied. Messages
    numbered consecutively from the cursor or below it that arrive in order, as those of L1 do, are
    applied whatever arrives between them, with the buffer full or not. *)
Theorem drive_completes (t : SealedHeader) (g : Z) (msgs : list (BroadcastFeedMessage * bool)) :
  healthy -> sequences_ok msgs ->
  exists d, drive msgs (spawned t g) = Ok d /\
    ((length msgs <= MAX_PENDING)%nat -> never_full msgs (spawned t g) = true) /\
    (never_full msgs (spawned t g) = true -> forall k : nat,
     (forall i, (i < k)%nat -> exists m, In m (map fst msgs) /\
        fm_sequence_number m = next_seq (spawned t g) + Z.of_nat i) ->
     next_seq (spawned t g) + Z.of_nat k <= next_seq d) /\
    (forall n sent, n <= next_seq (spawned t g) -> consecutive n sent -> sublist sent (map fst msgs) ->
     n + Z.of_nat (length sent) <= next_seq d).
Proof.
  intros Hh Hs. destruct (drive_total msgs (spawned t g) Hh) as (d & H). exists d.
  destruct (drive_spec t g msgs d Hs H) as (l & [] & Hfull & Hmax & Hord). split_and!; try done.
  intros Hf k Hk.
  destruct (Z.le_gt_cases (next_seq (spawned t g) + Z.of_nat k) (next_seq d)) as [|Hlt]; [done|].
  destruct (Hk (length l) ltac:(lia)) as (m & Hm & Hseq). destruct (Hmax Hf m Hm). lia.
Qed.

End Driver.

(** ** Witnesses *)

(** An engine whose blocks are numbered after their parent and hashed by their number. *)
#[export] Instance sample_engine : Engine := {|
  tree_accepts _ := true;
  build_payload p a :=
    Ok {| eb_header := {| sh_number := sh_number p + 1; sh_timestamp := pa_timestamp a;
                          sh_hash := 1000 + sh_number p |} |};
  forkchoice_answer _ := Ok tt;
  becomes_canonical _ := true
|}.

Definition sample_message (seq : Z) : BroadcastFeedMessage :=
  {| fm_sequence_number := seq;
     fm_l1_incoming_message :=
       {| fl_header := {| fh_kind := x03; fh_sender := EmptyString; fh_block_number := 7;
                          fh_timestamp := 50 + seq; fh_request_id := JNull; fh_base_fee_l1 := JNull |};
          fl_l2msg := EmptyString; fl_legacy_batch_gas_cost := None; fl_batch_data_stats := None |};
     fm_delayed_messages_read := 0 |}.

Definition sample_tip : SealedHeader := {| sh_number := 100; sh_timestamp := 40; sh_hash := 9 |}.

(** Messages 1, 2 and 3 with a gap that closes late, and a duplicate. *)
Definition sample_arrivals : list (BroadcastFeedMessage * bool) :=
  [(sample_message 3, false); (sample_message 1, true); (sample_message 1, false);
   (sample_message 2, true)].

Definition sample_ordered : list (BroadcastFeedMessage * bool) :=
  [(sample_message 1, false); (sample_message 2, false); (sample_message 3, false)].

Definition sample_driven (msgs : list (BroadcastFeedMessage * bool)) : ArbEngineDriver :=
  match drive msgs (spawned sample_tip 100) with Ok d => d | Err _ => spawned sample_tip 100 end.

Lemma sample_arrivals_ok : sequences_ok sample_arrivals.
Proof. intros m Hm. unfold U64_MAX. cbn in Hm. repeat destruct Hm as [<-|Hm]; cbn; done || lia. Qed.

Lemma sample_arrivals_driven :
  drive sample_arrivals (spawned sample_tip 100) = Ok (sample_driven sample_arrivals).
Proof. vm_compute. reflexivity. Qed.

Lemma sample_ordered_driven :
  drive sample_ordered (spawned sample_tip 100) = Ok (sample_driven sample_ordered).
Proof. vm_compute. reflexivity. Qed.

Lemma drive_applies_in_order_witness :
  next_seq (sample_driven sample_arrivals) = 4 /\
  sh_number (tip (sample_driven sample_arrivals)) = 103 /\
  exists l, chain sample_tip 1 l /\ to_tree (sample_driven sample_arrivals) = chain_requests sample_tip l.
Proof.
  split; [vm_compute; reflexivity|]. split; [vm_compute; reflexivity|].
  destruct (drive_applies_in_order sample_tip 100 sample_arrivals (sample_driven sample_arrivals)
              sample_arrivals_ok sample_arrivals_driven) as (l & Hc & _ & _ & _ & Hr & _).
  exists l. split; [exact Hc|exact Hr].
Defined.

Lemma drive_order_free_witness :
  tip (sample_driven sample_arrivals) = tip (sample_driven sample_ordered) /\
  to_tree (sample_driven sample_arrivals) = to_tree (sample_driven sample_ordered).
Proof.
  refine (proj2 (drive_order_free sample_tip 100 sample_arrivals sample_ordered _ _
                   _ _ sample_arrivals_ok sample_arrivals_driven sample_ordered_driven _ _)).
  - intros m. cbn. tauto.
  - intros m m' Hm Hm'. cbn in Hm, Hm'.
    repeat destruct Hm as [<-|Hm]; repeat destruct Hm' as [<-|Hm']; cbn; done || congruence.
  - intros m Hm. cbn in Hm. repeat destruct Hm as [<-|Hm]; vm_compute; done.
  - intros m Hm. cbn in Hm. repeat destruct Hm as [<-|Hm]; vm_compute; done.
Defined.

Lemma drive_completes_witness :
  exists d, drive sample_arrivals (spawned sample_tip 100) = Ok d /\ 1 + Z.of_nat 3 <= next_seq d /\
    1 + Z.of_nat 2 <= next_seq d.
Proof.
  destruct (drive_completes sample_tip 100 sample_arrivals) as (d & Hd & Hfull & Hany & Hord).
  - split_and!; try done. intros p a. by eexists.
  - exact sample_arrivals_ok.
  - exists d. split; [exact Hd|]. split.
    + apply Hany.
      * apply Hfull, Nat.leb_le. vm_compute. reflexivity.
      * intros i Hi. exists (sample_message (1 + Z.of_nat i)). split; [|done].
        destruct i as [|[|[|i]]]; cbn; [tauto..|lia].
    + apply (Hord 1 [sample_message 1; sample_message 2]).
      * vm_compute. discriminate.
      * intros [|[|i]] m [= <-]; reflexivity.
      * cbn. apply sublist_cons, sublist_skip, sublist_cons, sublist_skip, sublist_nil.
Defined.
