(* ===== verification/Feed.v ===== *)
(** * Concurrent sequencer-feed ingestion

    [crates/arb-reth-node/src/feed.rs]: the expansion of the configured endpoints into raced
    connections, the first-wins sequence race with its reconnect cursor, the coordinator that
    forwards the winners, and the reconnect delays. The URL parser is the class [UrlParser];
    instants are integers; the WebSocket lanes, which only fill the coordinator's queue, are its
    input list. *)

From Stdlib Require Import Strings.Byte Strings.String Sorted.
From stdpp Require Import base list numbers option strings pretty.
From S2P Require Import Prelude BTree L1Decode L1Sync.

Definition MAX_FEED_SOURCES : Z := 64.
Definition MAX_RECENT_SEQUENCES : nat := 16384.
Definition INITIAL_RECONNECT_DELAY : Z := 250.
Definition MAX_RECONNECT_DELAY : Z := 8000.
Definition INITIAL_RATE_LIMIT_DELAY : Z := 30000.
Definition MAX_RATE_LIMIT_DELAY : Z := 300000.

(** ** Feed sources *)

Inductive IpAddr :=
| V4 (octets : Z)
| V6 (segments : Z).

#[export] Instance IpAddr_eq_dec : EqDecision IpAddr.
Proof. solve_decision. Defined.

Record FeedSourceSpec := { fss_local_ip : IpAddr; fss_connections : Z }.

Record FeedSource := {
  fs_ordinal : Z;
  fs_endpoint : Z;
  fs_connection : Z;
  fs_url : string;
  fs_display_endpoint : string;
  fs_local_ip : option IpAddr
}.

(** [url::Url]: what the code reads of it; [None] when the text does not parse. *)
Record Url := { url_scheme : string; url_host : option string; url_port : option Z }.
Class UrlParser := { url_parse : string -> option Url }.

Inductive FeedError :=
| SourcesWithoutUrl
| DuplicateSource (ip : IpAddr)
| CountOverflow
| NoConnection
| TooManySources (total : Z)
| InvalidUrl (endpoint : Z)
| NotWebSocket (endpoint : Z).

Definition checked_mul (a b : Z) : option Z := if a * b <=? U64_MAX then Some (a * b) else None.

(** The loop over the declared sources: its set of addresses and its connection count. *)
Definition declare_source (st : list IpAddr * Z) (spec : FeedSourceSpec)
    : result FeedError (list IpAddr * Z) :=
  let '(declared_ips, bound_connections) := st in
  if bool_decide (fss_local_ip spec ∈ declared_ips) then Err (DuplicateSource (fss_local_ip spec))
  else
    let? n := ok_or CountOverflow (checked_add bound_connections (fss_connections spec)) in
    Ok (fss_local_ip spec :: declared_ips, n).

(** [for _ in 0..n { sources.push(..); connection = connection.saturating_add(1) }] *)
Fixpoint push_sources (n : nat) (endpoint : Z) (raw_url display : string) (ip : option IpAddr)
    (st : list FeedSource * Z) : list FeedSource * Z :=
  match n with
  | O => st
  | S n =>
      let '(sources, connection) := st in
      push_sources n endpoint raw_url display ip
        (sources ++ [{| fs_ordinal := Z.of_nat (length sources); fs_endpoint := endpoint;
                        fs_connection := connection; fs_url := raw_url;
                        fs_display_endpoint := display; fs_local_ip := ip |}],
         saturating_add connection 1)
  end.

(** Scheme, host and port only: credentials, path and query stay out of it. *)
Definition display_endpoint (scheme host : string) (port : option Z) : string :=
  match port with
  | Some port => scheme +:+ "://" +:+ host +:+ ":" +:+ pretty (Z.to_N port)
  | None => scheme +:+ "://" +:+ host
  end.

Definition is_websocket (scheme : string) : bool :=
  bool_decide (scheme = "ws"%string) || bool_decide (scheme = "wss"%string).

Definition expand_endpoint {UP : UrlParser} (unbound_connections : Z)
    (source_specs : list FeedSourceSpec) (sources : list FeedSource) (ep : Z * string)
    : result FeedError (list FeedSource) :=
  let '(endpoint, raw_url) := ep in
  let? parsed := ok_or (InvalidUrl endpoint) (url_parse raw_url) in
  match is_websocket (url_scheme parsed), url_host parsed with
  | true, Some host =>
      let display := display_endpoint (url_scheme parsed) host (url_port parsed) in
      let st := push_sources (Z.to_nat unbound_connections) endpoint raw_url display None
                  (sources, 0) in
      let st := fold_left (fun st spec =>
                  push_sources (Z.to_nat (fss_connections spec)) endpoint raw_url display
                    (Some (fss_local_ip spec)) st) source_specs st in
      Ok (fst st)
  | _, _ => Err (NotWebSocket endpoint)
  end.

Definition enumerate {A : Type} (l : list A) : list (Z * A) :=
  combine (map Z.of_nat (seq 0 (length l))) l.

Definition expand_feed_sources {UP : UrlParser} (urls : list string)
    (unbound_connections_per_endpoint : option Z) (source_specs : list FeedSourceSpec)
    : result FeedError (list FeedSource) :=
  match urls with
  | [] =>
      match unbound_connections_per_endpoint, source_specs with
      | None, [] => Ok []
      | _, _ => Err SourcesWithoutUrl
      end
  | _ =>
      let unbound_connections :=
        default (match source_specs with [] => 1 | _ => 0 end) unbound_connections_per_endpoint in
      let? '(_, bound_connections) := try_fold declare_source source_specs ([], 0) in
      let? connections_per_endpoint :=
        ok_or CountOverflow (checked_add unbound_connections bound_connections) in
      if negb (0 <? connections_per_endpoint) then Err NoConnection
      else
        let? total :=
          ok_or CountOverflow (checked_mul (Z.of_nat (length urls)) connections_per_endpoint) in
        if negb (total <=? MAX_FEED_SOURCES) then Err (TooManySources total)
        else try_fold (expand_endpoint unbound_connections source_specs) (enumerate urls) []
  end.

(** ** The sequence race *)

Inductive Observation :=
| First
| Duplicate (winner_ready_at : option Z)
| Stale.

Record SequenceRace := { next_resume : Z; recent : list (Z * Z) }.

Definition SequenceRace_new (next_resume : Z) : SequenceRace :=
  {| next_resume := next_resume; recent := bt_empty |}.

(** [while self.recent.contains_key(&self.next_resume)]; every turn passes one more key, so the
    map's size bounds the turns. *)
Fixpoint advance_resume (fuel : nat) (next_resume : Z) (recent : list (Z * Z)) : Z :=
  match fuel with
  | O => next_resume
  | S fuel =>
      if bt_contains_key next_resume recent then
        match checked_add next_resume 1 with
        | None => next_resume
        | Some next => advance_resume fuel next recent
        end
      else next_resume
  end.

(** [while self.recent.len() > MAX_RECENT_SEQUENCES { self.recent.pop_first(); }] *)
Fixpoint evict (recent : list (Z * Z)) : list (Z * Z) :=
  match recent with
  | [] => []
  | _ :: rest => if (MAX_RECENT_SEQUENCES <? length recent)%nat then evict rest else recent
  end.

Definition observe (race : SequenceRace) (sequence ready_at : Z) : Observation * SequenceRace :=
  match bt_get sequence (recent race) with
  | Some first => (Duplicate (Some first), race)
  | None =>
      if sequence <? next_resume race then (Stale, race)
      else
        let recent := bt_insert sequence ready_at (recent race) in
        let next_resume := advance_resume (length recent) (next_resume race) recent in
        (First, {| next_resume := next_resume; recent := evict recent |})
  end.

(** ** The coordinator *)

Record FeedIngress := { fi_message : BroadcastFeedMessage; fi_ready_for_channel_at : Z }.

(** What the coordinator has forwarded, and the shared reconnect cursor. *)
Record Coordinator := {
  race : SequenceRace;
  output : list BroadcastFeedMessage;
  resume_sequence : Z
}.

Section Coordinate.
Context {FC : FeedChannel}.

(** The [while let Some(item) = ingress.recv()] loop over the items received. *)
Fixpoint coordinate_loop (ingress : list FeedIngress) (c : Coordinator) : Coordinator :=
  match ingress with
  | [] => c
  | item :: ingress =>
      match observe (race c) (fm_sequence_number (fi_message item)) (fi_ready_for_channel_at item) with
      | (First, race) =>
          if accepts (output c) then
            coordinate_loop ingress
              {| race := race; output := output c ++ [fi_message item];
                 resume_sequence := next_resume race |}
          else {| race := race; output := output c; resume_sequence := next_resume race |}
      | (_, race) =>
          coordinate_loop ingress
            {| race := race; output := output c; resume_sequence := resume_sequence c |}
      end
  end.

Definition coordinate (ingress : list FeedIngress) (resume_sequence : Z) : Coordinator :=
  coordinate_loop ingress
    {| race := SequenceRace_new resume_sequence; output := []; resume_sequence := resume_sequence |}.

End Coordinate.

(** ** Reconnect delays, in milliseconds *)

Definition initial_connect_delay (ordinal : Z) : Z := 1000 * Z.min ordinal 10.

(** The base never exceeds what a [Duration] holds, so [checked_mul] succeeds. *)
Definition reconnect_delay (failures ordinal : Z) (rate_limited : bool) : Z :=
  let exponent := Z.min (saturating_sub failures 1) 5 in
  let '(initial, maximum) :=
    if rate_limited then (INITIAL_RATE_LIMIT_DELAY, MAX_RATE_LIMIT_DELAY)
    else (INITIAL_RECONNECT_DELAY, MAX_RECONNECT_DELAY) in
  let base := Z.min (initial * 2 ^ exponent) maximum in
  let jitter_ms := wrap64 (ordinal * 73) mod 1000 in
  Z.min (base + jitter_ms) maximum.

(** ** The expansion, source by source *)

(** The lanes of one endpoint, in order: the unbound ones, then each declared address's. *)
Definition endpoint_ips (unbound : Z) (specs : list FeedSourceSpec) : list (option IpAddr) :=
  replicate (Z.to_nat unbound) None ++
  flat_map (fun spec => replicate (Z.to_nat (fss_connections spec)) (Some (fss_local_ip spec))) specs.

(** Lanes numbered from ordinal [o] and connection [c]. *)
Definition lanes (o c : Z) (endpoint : Z) (url display : string) (ips : list (option IpAddr))
    : list FeedSource :=
  imap (fun i ip => {| fs_ordinal := o + Z.of_nat i; fs_endpoint := endpoint;
                       fs_connection := c + Z.of_nat i; fs_url := url;
                       fs_display_endpoint := display; fs_local_ip := ip |}) ips.

Lemma lanes_app (o c e : Z) (url display : string) (l k : list (option IpAddr)) :
  lanes o c e url display (l ++ k) = lanes o c e url display l ++
    lanes (o + Z.of_nat (length l)) (c + Z.of_nat (length l)) e url display k.
Proof.
  unfold lanes. rewrite imap_app. f_equal. apply imap_ext. intros i ip _. cbn. f_equal; lia.
Qed.

Lemma lanes_length (o c e : Z) (url display : string) (l : list (option IpAddr)) :
  length (lanes o c e url display l) = length l.
Proof. apply length_imap. Qed.

Lemma push_sources_lanes (n : nat) (e c : Z) (url display : string) (ip : option IpAddr)
    (sources : list FeedSource) :
  0 <= c -> c + Z.of_nat n <= U64_MAX ->
  push_sources n e url display ip (sources, c) =
    (sources ++ lanes (Z.of_nat (length sources)) c e url display (replicate n ip), c + Z.of_nat n).
Proof.
  revert sources c. induction n as [|n IH]; intros sources c Hc Hn; cbn [push_sources replicate].
  - cbn. by rewrite app_nil_r, Z.add_0_r.
  - unfold saturating_add. rewrite Z.min_r, IH by lia. rewrite <- app_assoc, length_app. f_equal; [|lia].
    f_equal. cbn [length app]. change (ip :: replicate n ip) with ([ip] ++ replicate n ip).
    rewrite lanes_app. cbn [length]. unfold lanes at 2. cbn [imap app]. rewrite !Z.add_0_r.
    f_equal. f_equal; lia.
Qed.

Definition spec_total (specs : list FeedSourceSpec) : Z :=
  fold_right (fun spec n => fss_connections spec + n) 0 specs.

Definition specs_ok (specs : list FeedSourceSpec) : Prop :=
  Forall (fun spec => 0 <= fss_connections spec) specs.

Lemma spec_total_nonneg (specs : list FeedSourceSpec) : specs_ok specs -> 0 <= spec_total specs.
Proof. induction 1; cbn [spec_total fold_right] in *; [lia|]. unfold spec_total in *. lia. Qed.

Lemma fold_sources_lanes (specs : list FeedSourceSpec) (e c : Z) (url display : string)
    (sources : list FeedSource) :
  specs_ok specs -> 0 <= c -> c + spec_total specs <= U64_MAX ->
  fold_left (fun st spec => push_sources (Z.to_nat (fss_connections spec)) e url display
               (Some (fss_local_ip spec)) st) specs (sources, c) =
    (sources ++ lanes (Z.of_nat (length sources)) c e url display
       (flat_map (fun spec => replicate (Z.to_nat (fss_connections spec)) (Some (fss_local_ip spec))) specs),
     c + spec_total specs).
Proof.
  intros Hs. revert sources c. induction Hs as [|spec specs Hspec Hs IH]; intros sources c Hc Hn.
  - cbn. by rewrite app_nil_r, Z.add_0_r.
  - pose proof (spec_total_nonneg specs Hs). cbn [fold_left flat_map].
    change (spec_total (spec :: specs)) with (fss_connections spec + spec_total specs) in *.
    rewrite push_sources_lanes by lia. rewrite IH by lia.
    rewrite lanes_app, <- app_assoc, !length_app, lanes_length, length_replicate.
    f_equal; [|lia]. do 3 f_equal; lia.
Qed.

Section Expand.
Context {UP : UrlParser}.

(** The display form of a URL the parser accepts as a WebSocket endpoint. *)
Definition display_of (url : string) : option string :=
  match url_parse url with
  | Some p => match is_websocket (url_scheme p), url_host p with
              | true, Some host => Some (display_endpoint (url_scheme p) host (url_port p))
              | _, _ => None
              end
  | None => None
  end.

(** All lanes, endpoint by endpoint, from ordinal [o] and endpoint [e] on. *)
Fixpoint all_lanes (o e : Z) (urls : list string) (ips : list (option IpAddr)) : list FeedSource :=
  match urls with
  | [] => []
  | url :: urls =>
      lanes o 0 e url (default EmptyString (display_of url)) ips ++
      all_lanes (o + Z.of_nat (length ips)) (e + 1) urls ips
  end.

Lemma endpoint_ips_length (unbound : Z) (specs : list FeedSourceSpec) :
  0 <= unbound -> specs_ok specs ->
  Z.of_nat (length (endpoint_ips unbound specs)) = unbound + spec_total specs.
Proof.
  intros Hu Hs. unfold endpoint_ips. rewrite length_app, length_replicate.
  enough (Z.of_nat (length (flat_map (fun spec => replicate (Z.to_nat (fss_connections spec))
            (Some (fss_local_ip spec))) specs)) = spec_total specs) by lia.
  induction Hs as [|spec specs Hspec Hs IH]; [done|]. cbn [flat_map].
  change (spec_total (spec :: specs)) with (fss_connections spec + spec_total specs).
  rewrite length_app, length_replicate. lia.
Qed.

Lemma expand_endpoint_lanes (unbound e : Z) (specs : list FeedSourceSpec) (url : string)
    (sources sources' : list FeedSource) :
  0 <= unbound -> specs_ok specs -> unbound + spec_total specs <= U64_MAX ->
  expand_endpoint unbound specs sources (e, url) = Ok sources' ->
  is_Some (display_of url) /\
  sources' = sources ++ lanes (Z.of_nat (length sources)) 0 e url
               (default EmptyString (display_of url)) (endpoint_ips unbound specs).
Proof.
  intros Hu Hs Hn H. unfold expand_endpoint in H. unfold display_of.
  pose proof (spec_total_nonneg specs Hs).
  destruct (url_parse url) as [p|]; [|done]. cbn [ok_or rbind] in H.
  destruct (is_websocket (url_scheme p)), (url_host p) as [host|]; try done.
  rewrite push_sources_lanes in H by lia. rewrite fold_sources_lanes in H by (try done; lia).
  simplify_eq. split; [by eexists|]. cbn [fst default]. unfold endpoint_ips.
  rewrite lanes_app, <- app_assoc, length_app, lanes_length, !length_replicate. do 3 f_equal; lia.
Qed.

Lemma expand_all (unbound : Z) (specs : list FeedSourceSpec) (urls : list string) (k : nat)
    (sources sources' : list FeedSource) :
  0 <= unbound -> specs_ok specs -> unbound + spec_total specs <= U64_MAX ->
  try_fold (expand_endpoint unbound specs) (combine (map Z.of_nat (seq k (length urls))) urls) sources
    = Ok sources' ->
  Forall (fun url => is_Some (display_of url)) urls /\
  sources' = sources ++ all_lanes (Z.of_nat (length sources)) (Z.of_nat k) urls (endpoint_ips unbound specs).
Proof.
  intros Hu Hs Hn. revert k sources. induction urls as [|url urls IH]; intros k sources H.
  - cbn in H. simplify_eq. split; [constructor|]. by rewrite app_nil_r.
  - cbn [length seq map combine try_fold] in H. apply rbind_Ok in H as (s1 & H1 & H).
    apply expand_endpoint_lanes in H1 as [Hd ->]; [|done..].
    apply IH in H as [Hds ->]. split; [by constructor|]. cbn [all_lanes].
    rewrite <- app_assoc, length_app, lanes_length. do 3 f_equal; lia.
Qed.

Lemma declare_sources (specs : list FeedSourceSpec) (ips ips' : list IpAddr) (n n' : Z) :
  try_fold declare_source specs (ips, n) = Ok (ips', n') ->
  n' = n + spec_total specs /\ (forall ip, ip ∈ ips -> ip ∉ map fss_local_ip specs) /\
  NoDup (map fss_local_ip specs).
Proof.
  revert ips n. induction specs as [|spec specs IH]; intros ips n H; cbn [try_fold] in H.
  - simplify_eq. split; [cbn; lia|]. split; [|constructor]. intros ip _. apply not_elem_of_nil.
  - apply rbind_Ok in H as ([ips1 n1] & H1 & H). unfold declare_source in H1.
    destruct (bool_decide_reflect (fss_local_ip spec ∈ ips)) as [|Hnot]; [done|]. ok_inv. simplify_eq.
    unfold checked_add in E. if_inv E. simplify_eq.
    apply IH in H as (-> & Hdis & Hnd). cbn [spec_total fold_right map].
    split; [unfold spec_total; lia|]. split.
    + intros ip Hip [Heq|Hin]%elem_of_cons; [by subst|]. by apply (Hdis ip); [right|].
    + constructor; [|done]. apply Hdis. by left.
Qed.

(** A configuration that is accepted expands into exactly the declared lanes: for every
    endpoint in order the unbound ones and then each source address's count, with consecutive
    ordinals over all endpoints and consecutive connection numbers within one; at most 64 in
    all, no address declared twice, every URL an absolute WebSocket URL. *)
Theorem expand_feed_sources_exact (urls : list string) (unbound : option Z)
    (specs : list FeedSourceSpec) (sources : list FeedSource) :
  specs_ok specs -> (match unbound with Some n => 0 <= n | None => True end) -> urls <> [] ->
  expand_feed_sources urls unbound specs = Ok sources ->
  let n := default (if decide (specs = []) then 1 else 0) unbound in
  sources = all_lanes 0 0 urls (endpoint_ips n specs) /\
  Z.of_nat (length sources) = Z.of_nat (length urls) * (n + spec_total specs) /\
  0 < Z.of_nat (length sources) <= MAX_FEED_SOURCES /\
  NoDup (map fss_local_ip specs) /\ Forall (fun url => is_Some (display_of url)) urls.
Proof.
  intros Hs Hu Hne H n. unfold expand_feed_sources in H. destruct urls as [|url urls]; [done|].
  set (us := url :: urls) in *.
  replace (default (match specs with [] => 1 | _ => 0 end) unbound) with n in H.
  2: { unfold n. destruct unbound; [done|]. by destruct specs. }
  assert (Hn : 0 <= n) by (unfold n; destruct unbound; cbn; [done|case_decide; lia]).
  apply rbind_Ok in H as ([ips bound] & H1 & H). apply declare_sources in H1 as (-> & _ & Hnd).
  apply rbind_Ok in H as (per & Hper & H). apply ok_or_Ok in Hper. unfold checked_add in Hper.
  if_inv Hper. simplify_eq. apply Z.leb_le in C. if_inv H. apply negb_false_iff, Z.ltb_lt in C0.
  apply rbind_Ok in H as (total & Htot & H). apply ok_or_Ok in Htot. unfold checked_mul in Htot.
  if_inv Htot. simplify_eq. if_inv H. apply negb_false_iff, Z.leb_le in C2.
  assert (Hlen : Z.of_nat (length (endpoint_ips n specs)) = n + spec_total specs)
    by (by apply endpoint_ips_length).
  unfold enumerate in H. apply expand_all in H as [Hd ->]; [|done|done|lia].
  cbn [app length]. change (Z.of_nat 0) with 0.
  assert (Hall : forall l o e, length (all_lanes o e l (endpoint_ips n specs))
                   = (length l * length (endpoint_ips n specs))%nat).
  { intros l. induction l as [|x l IH]; intros o e; [done|]. cbn [all_lanes length].
    rewrite length_app, lanes_length, IH. lia. }
  assert (Hl : Z.of_nat (length (all_lanes 0 0 us (endpoint_ips n specs)))
               = Z.of_nat (length us) * (n + spec_total specs)).
  { rewrite Hall, Nat2Z.inj_mul. lia. }
  assert (0 < Z.of_nat (length us)) by (subst us; cbn [length]; lia).
  split_and!; try done; rewrite ?Hl; try lia; nia.
Qed.

End Expand.

(** ** The race *)

Lemma advance_resume_spec (fuel : nat) (n : Z) (r : list (Z * Z)) :
  n <= advance_resume fuel n r /\
  (forall s, n <= s < advance_resume fuel n r -> bt_contains_key s r = true).
Proof.
  revert n. induction fuel as [|fuel IH]; intros n; cbn [advance_resume]; [split; lia|].
  destruct (bt_contains_key n r) eqn:E; [|split; lia].
  unfold checked_add. destruct (n + 1 <=? U64_MAX); [|split; lia].
  destruct (IH (n + 1)) as [H1 H2]. split; [lia|]. intros s Hs.
  destruct (Z.eq_dec s n) as [->|]; [done|]. apply H2. lia.
Qed.

(** The entries at or above [n]. *)
Definition above (n : Z) (r : list (Z * Z)) : list (Z * Z) := bt_retain (fun k => n <=? k) r.

Lemma retain_above (n : Z) (r : list (Z * Z)) :
  above (n + 1) r = bt_remove n (above n r).
Proof.
  unfold above, bt_remove, bt_retain. induction r as [|[k v] r IH]; [done|]. cbn [List.filter fst].
  destruct (Z.leb_spec n k); cbn [List.filter fst].
  - destruct (kcmp n k) eqn:E.
    + apply kcmp_eq in E as ->. rewrite (proj2 (Z.leb_gt _ _)) by lia. exact IH.
    + assert (n <> k) by (intros ->; by rewrite kcmp_refl in E).
      rewrite (proj2 (Z.leb_le _ _)) by lia. by rewrite IH.
    + assert (n <> k) by (intros ->; by rewrite kcmp_refl in E).
      rewrite (proj2 (Z.leb_le _ _)) by lia. by rewrite IH.
  - rewrite (proj2 (Z.leb_gt _ _)) by lia. exact IH.
Qed.

(** The fuel is enough: the loop stops at a key that is absent, or at the last [u64]. *)
Lemma advance_resume_stops (fuel : nat) (n : Z) (r : list (Z * Z)) :
  (length (above n r) <= fuel)%nat ->
  bt_contains_key (advance_resume fuel n r) r = false \/ U64_MAX <= advance_resume fuel n r.
Proof.
  revert n. induction fuel as [|fuel IH]; intros n Hf; cbn [advance_resume].
  - left. unfold bt_contains_key. destruct (bt_get n r) as [v|] eqn:E; [exfalso|done].
    apply bt_get_In in E. assert (Hin : In (n, v) (above n r)).
    { apply filter_In. split; [done|]. apply Z.leb_refl. }
    destruct (above n r); [done|]. cbn in Hf. lia.
  - destruct (bt_contains_key n r) eqn:E; [|by left]. unfold checked_add.
    destruct (Z.leb_spec (n + 1) U64_MAX); [|right; lia]. apply IH.
    rewrite retain_above. unfold bt_contains_key in E. destruct (bt_get n r) as [v|] eqn:Ev; [|done].
    pose proof (bt_remove_length n v (above n r)) as Hl.
    unfold above in Hl. rewrite bt_get_retain, Z.leb_refl in Hl. specialize (Hl Ev). unfold above in *. lia.
Qed.

Lemma evict_suffix (r : list (Z * Z)) : exists pre, r = pre ++ evict r.
Proof.
  induction r as [|kv r IH]; [by exists []|]. cbn [evict].
  destruct (MAX_RECENT_SEQUENCES <? length (kv :: r))%nat; [|by exists []].
  destruct IH as [pre IH]. exists (kv :: pre). cbn. by rewrite <- IH.
Qed.

Lemma evict_length (r : list (Z * Z)) : (length (evict r) <= MAX_RECENT_SEQUENCES)%nat.
Proof.
  induction r as [|kv r IH]; cbn [evict]; [cbn; lia|].
  destruct (Nat.ltb_spec MAX_RECENT_SEQUENCES (length (kv :: r))); lia.
Qed.

Lemma evict_one (r : list (Z * Z)) :
  (length r <= S MAX_RECENT_SEQUENCES)%nat ->
  evict r = if (MAX_RECENT_SEQUENCES <? length r)%nat then tl r else r.
Proof.
  destruct r as [|kv r]; [done|]. intros Hl. cbn [evict tl].
  destruct (MAX_RECENT_SEQUENCES <? length (kv :: r))%nat; [|done].
  destruct r as [|kv' r]; [done|]. cbn [evict]. cbn [length] in Hl.
  by rewrite (proj2 (Nat.ltb_ge _ _)) by (cbn [length]; lia).
Qed.

(** A strictly sorted map with its keys in an interval is no longer than the interval. *)
Lemma sorted_span (r : list (Z * Z)) (a b : Z) :
  bt_sorted r -> (forall k v, In (k, v) r -> a <= k < b) -> a <= b -> Z.of_nat (length r) <= b - a.
Proof.
  intros Hs. revert a. induction Hs as [|[k v] r Hs IH Hall]; intros a Hr Hab; [cbn; lia|].
  rewrite List.Forall_forall in Hall. cbn [length]. pose proof (Hr k v (or_introl eq_refl)).
  specialize (IH (k + 1)). enough (Z.of_nat (length r) <= b - (k + 1)) by lia.
  apply IH; [|lia]. intros k' v' Hin. pose proof (Hr k' v' (or_intror Hin)).
  specialize (Hall _ Hin). unfold klt in Hall. cbn in Hall. change (k < k') in Hall. lia.
Qed.

(** What is true of every race: its cursor covers only sequences that won, its memory holds
    winners only and is bounded. *)
Record race_inv (start : Z) (seen : list Z) (r : SequenceRace) : Prop := {
  rv_start : start <= next_resume r;
  rv_covered : forall s, start <= s < next_resume r -> s ∈ seen;
  rv_recent : forall s v, In (s, v) (recent r) -> s ∈ seen;
  rv_sorted : bt_sorted (recent r);
  rv_bounded : (length (recent r) <= MAX_RECENT_SEQUENCES)%nat
}.

(** While arrivals stay within [MAX_RECENT_SEQUENCES] of the cursor, the race also forgets no
    winner it still needs. *)
Record race_tight (start : Z) (seen : list Z) (r : SequenceRace) : Prop := {
  rt_known : forall s, s ∈ seen -> start <= s /\ (s < next_resume r \/ is_Some (bt_get s (recent r)));
  rt_near : forall s v, In (s, v) (recent r) -> s < next_resume r + Z.of_nat MAX_RECENT_SEQUENCES;
  rt_stop : bt_get (next_resume r) (recent r) = None \/ U64_MAX <= next_resume r
}.

Lemma race_new_inv (start : Z) :
  race_inv start [] (SequenceRace_new start) /\ race_tight start [] (SequenceRace_new start).
Proof.
  split; split; cbn; try done; try lia.
  - constructor.
  - intros s Hs. by apply elem_of_nil in Hs.
  - by left.
Qed.

(** The map after an insertion, before the eviction. *)
Lemma insert_facts (start s t : Z) (seen : list Z) (r : SequenceRace) :
  race_inv start seen r -> bt_get s (recent r) = None ->
  bt_sorted (bt_insert s t (recent r)) /\
  (forall k v, In (k, v) (bt_insert s t (recent r)) -> k = s \/ In (k, v) (recent r)) /\
  (length (bt_insert s t (recent r)) <= S MAX_RECENT_SEQUENCES)%nat.
Proof.
  intros [] Hg. split_and!.
  - by apply bt_insert_sorted.
  - intros k v [[= -> ->]|Hin]%bt_insert_In; [by left|by right].
  - assert (H : forall l : list (Z * Z), (length (bt_insert s t l) <= S (length l))%nat).
    { intros l. induction l as [|[k v] l IH]; cbn [bt_insert]; [done|].
      destruct (kcmp s k); cbn [length] in *; lia. }
    specialize (H (recent r)). lia.
Qed.

Lemma evict_In (kv : Z * Z) (r : list (Z * Z)) : In kv (evict r) -> In kv r.
Proof.
  intros H. destruct (evict_suffix r) as [pre Hr]. rewrite Hr. apply in_or_app. by right.
Qed.

Lemma sorted_suffix (pre r : list (Z * Z)) : bt_sorted (pre ++ r) -> bt_sorted r.
Proof. induction pre as [|kv pre IH]; [done|]. cbn. inversion 1; subst. by apply IH. Qed.

Lemma evict_sorted (r : list (Z * Z)) : bt_sorted r -> bt_sorted (evict r).
Proof.
  intros H. destruct (evict_suffix r) as [pre Hr]. apply (sorted_suffix pre). by rewrite <- Hr.
Qed.

Lemma observe_first_inv (start s t : Z) (seen : list Z) (r : SequenceRace) (r' : SequenceRace) :
  race_inv start seen r -> observe r s t = (First, r') -> race_inv start (s :: seen) r'.
Proof.
  intros Hi H. unfold observe in H. destruct (bt_get s (recent r)) eqn:Hg; [done|].
  destruct (Z.ltb_spec s (next_resume r)); [done|]. injection H as <-.
  destruct (insert_facts start s t seen r Hi Hg) as (Hsort & Hin & Hlen). destruct Hi.
  destruct (advance_resume_spec (length (bt_insert s t (recent r))) (next_resume r)
              (bt_insert s t (recent r))) as [Hle Hcov].
  assert (Hmem : forall k v, In (k, v) (bt_insert s t (recent r)) -> k ∈ s :: seen).
  { intros k v [->|Hk]%Hin; [by left|right; exact (rv_recent0 _ _ Hk)]. }
  split; cbn [next_resume recent].
  - lia.
  - intros k Hk. destruct (Z.lt_ge_cases k (next_resume r)); [right; apply rv_covered0; lia|].
    specialize (Hcov k ltac:(lia)). unfold bt_contains_key in Hcov.
    destruct (bt_get k _) as [v|] eqn:Ek; [|done]. apply bt_get_In in Ek. exact (Hmem _ _ ltac:(eassumption)).
  - intros k v Hk%evict_In. exact (Hmem _ _ ltac:(eassumption)).
  - by apply evict_sorted.
  - apply evict_length.
Qed.

Lemma observe_first_tight (start s t : Z) (seen : list Z) (r : SequenceRace) (r' : SequenceRace) :
  race_inv start seen r -> race_tight start seen r ->
  s < next_resume r + Z.of_nat MAX_RECENT_SEQUENCES ->
  observe r s t = (First, r') -> race_tight start (s :: seen) r'.
Proof.
  intros Hi [Hk Hn _] Hclose H. unfold observe in H. destruct (bt_get s (recent r)) eqn:Hg; [done|].
  destruct (Z.ltb_spec s (next_resume r)) as [|Hge]; [done|]. injection H as <-.
  destruct (insert_facts start s t seen r Hi Hg) as (Hsort & Hin & Hlen).
  set (m := bt_insert s t (recent r)) in *. set (n := advance_resume (length m) (next_resume r) m).
  assert (Hle : next_resume r <= n) by apply advance_resume_spec.
  assert (Hnear : forall k v, In (k, v) m -> k < n + Z.of_nat MAX_RECENT_SEQUENCES).
  { intros k v [->|Hkv]%Hin; [lia|]. pose proof (Hn _ _ Hkv). lia. }
  assert (Hkeep : forall k, is_Some (bt_get k m) -> k < n \/ is_Some (bt_get k (evict m))).
  { intros k [v Hv]. rewrite evict_one by done. destruct (Nat.ltb_spec MAX_RECENT_SEQUENCES (length m)).
    2: { right. by eexists. }
    destruct m as [|[k0 v0] m0] eqn:Em; [cbn in *; lia|]. cbn [tl].
    destruct (Z.eq_dec k k0) as [->|Hne].
    - left. destruct (Z.lt_ge_cases k0 n); [done|]. exfalso.
      assert (Hall : forall k' v', In (k', v') ((k0, v0) :: m0) -> n <= k' < n + Z.of_nat MAX_RECENT_SEQUENCES).
      { intros k' v' Hk'. split; [|by eapply Hnear]. destruct Hk' as [[= <- <-]|Hk']; [lia|].
        inversion Hsort as [|? ? ? Hlt]; subst. rewrite List.Forall_forall in Hlt.
        specialize (Hlt _ Hk'). unfold klt in Hlt. cbn in Hlt. change (k0 < k') in Hlt. lia. }
      pose proof (sorted_span _ _ _ Hsort Hall ltac:(lia)). lia.
    - right. cbn [bt_get] in Hv. destruct (kcmp k k0) eqn:Ek; [|by eexists..].
      apply kcmp_eq in Ek. done. }
  destruct Hi. split; cbn [next_resume recent].
  - intros k [->|Hks]%elem_of_cons.
    + split; [lia|]. apply Hkeep. subst m. rewrite bt_get_insert_eq. by eexists.
    + destruct (Hk k Hks) as [Hst [Hlt|Hsome]]; (split; [done|]); [left; lia|]. apply Hkeep.
      subst m. rewrite bt_get_insert. destruct (kcmp k s); [by eexists|done|done].
  - intros k v Hkv%evict_In. by eapply Hnear.
  - destruct (advance_resume_stops (length m) (next_resume r) m) as [Hstop|Hstop]; [|left|by right].
    { apply List.filter_length_le. }
    fold n in Hstop. destruct (bt_get n (evict m)) as [v|] eqn:Ev; [exfalso|done].
    apply bt_get_In, evict_In, (bt_sorted_In_get n v m Hsort) in Ev.
    unfold bt_contains_key in Hstop. by rewrite Ev in Hstop.
Qed.

(** ** The coordinator forwards first copies *)

(** The first copy of each sequence at or above [start], in order of arrival. *)
Fixpoint first_copies (start : Z) (seen : list Z) (items : list FeedIngress)
    : list BroadcastFeedMessage :=
  match items with
  | [] => []
  | item :: items =>
      let s := fm_sequence_number (fi_message item) in
      if (s <? start) || bool_decide (s ∈ seen) then first_copies start seen items
      else fi_message item :: first_copies start (s :: seen) items
  end.

(** No arrival runs further than the race remembers ahead of its cursor. *)
Fixpoint close_run (r : SequenceRace) (items : list FeedIngress) : Prop :=
  match items with
  | [] => True
  | item :: items =>
      let s := fm_sequence_number (fi_message item) in
      s < next_resume r + Z.of_nat MAX_RECENT_SEQUENCES /\
      close_run (snd (observe r s (fi_ready_for_channel_at item))) items
  end.

Lemma observe_skips (start s t : Z) (seen : list Z) (r r' : SequenceRace) (o : Observation) :
  race_inv start seen r -> observe r s t = (o, r') -> o <> First ->
  r' = r /\ (s < start \/ s ∈ seen).
Proof.
  intros [] H Ho. unfold observe in H. destruct (bt_get s (recent r)) as [v|] eqn:Hg.
  - injection H as <- <-. split; [done|]. right. apply bt_get_In in Hg. exact (rv_recent0 _ _ Hg).
  - destruct (Z.ltb_spec s (next_resume r)); injection H as <- <-; [|done]. split; [done|].
    destruct (Z.lt_ge_cases s start); [by left|]. right. apply rv_covered0. lia.
Qed.

Lemma observe_wins (start s t : Z) (seen : list Z) (r r' : SequenceRace) :
  race_inv start seen r -> race_tight start seen r -> observe r s t = (First, r') ->
  start <= s /\ s ∉ seen.
Proof.
  intros [] [] H. unfold observe in H. destruct (bt_get s (recent r)) as [v|] eqn:Hg; [done|].
  destruct (Z.ltb_spec s (next_resume r)); [done|]. split; [lia|]. intros Hin.
  destruct (rt_known0 s Hin) as [_ [Hlt|Hsome]]; [lia|]. rewrite Hg in Hsome. by destruct Hsome.
Qed.

Lemma race_inv_mono (start : Z) (seen seen' : list Z) (r : SequenceRace) :
  (forall s, s ∈ seen -> s ∈ seen') -> race_inv start seen r -> race_inv start seen' r.
Proof. intros Hm []. split; naive_solver. Qed.

Section Coordinated.
Context {FC : FeedChannel}.

Lemma coordinate_loop_copies (items : list FeedIngress) (c : Coordinator) (start : Z)
    (seen : list Z) :
  race_inv start seen (race c) -> race_tight start seen (race c) -> close_run (race c) items ->
  exists fwd rest, output (coordinate_loop items c) = output c ++ fwd /\
    first_copies start seen items = fwd ++ rest /\ ((forall l, accepts l = true) -> rest = []).
Proof.
  revert c seen. induction items as [|item items IH]; intros c seen Hi Ht Hc.
  { exists [], []. cbn. by rewrite app_nil_r. }
  cbn [coordinate_loop first_copies close_run] in *. destruct Hc as [Hclose Hc].
  set (s := fm_sequence_number (fi_message item)) in *.
  destruct (observe (race c) s (fi_ready_for_channel_at item)) as [o r'] eqn:E. cbn [snd] in Hc.
  assert (Hcase : o = First \/ o <> First) by (destruct o; ((by left) || (by right))).
  destruct Hcase as [->|Hne].
  - destruct (observe_wins start s _ seen _ _ Hi Ht E) as [Hge Hnot].
    rewrite (proj2 (Z.ltb_ge _ _)), bool_decide_eq_false_2 by done. cbn [orb].
    destruct (accepts (output c)) eqn:Ea.
    + pose proof (observe_first_inv _ _ _ _ _ _ Hi E) as Hi'.
      pose proof (observe_first_tight _ _ _ _ _ _ Hi Ht Hclose E) as Ht'.
      destruct (IH {| race := r'; output := output c ++ [fi_message item];
                      resume_sequence := next_resume r' |} (s :: seen) Hi' Ht' Hc)
        as (fwd & rest & Ho & Hf & Hr).
      exists (fi_message item :: fwd), rest. cbn [output] in Ho. rewrite Ho, Hf, <- app_assoc. done.
    + exists [], (fi_message item :: first_copies start (s :: seen) items). cbn [output].
      rewrite app_nil_r. split; [done|]. split; [done|]. intros Hopen. by rewrite Hopen in Ea.
  - destruct (observe_skips start s _ seen _ _ _ Hi E Hne) as [-> Hskip].
    assert ((s <? start) || bool_decide (s ∈ seen) = true) as ->.
    { apply orb_true_iff. destruct Hskip; [left; by apply Z.ltb_lt|right; by apply bool_decide_eq_true_2]. }
    destruct (IH {| race := race c; output := output c; resume_sequence := resume_sequence c |}
                seen Hi Ht Hc) as (fwd & rest & Ho & Hf & Hr).
    exists fwd, rest. destruct o; try done.
Qed.

Lemma first_copies_NoDup (start : Z) (seen : list Z) (items : list FeedIngress) :
  NoDup (map fm_sequence_number (first_copies start seen items)) /\
  (forall s, s ∈ map fm_sequence_number (first_copies start seen items) -> s ∉ seen).
Proof.
  revert seen. induction items as [|item items IH]; intros seen; cbn [first_copies].
  - split; [constructor|]. intros s Hs. by apply elem_of_nil in Hs.
  - destruct (_ <? start); cbn [orb]; [apply IH|].
    destruct (bool_decide_reflect (fm_sequence_number (fi_message item) ∈ seen)) as [|Hnot]; [apply IH|].
    destruct (IH (fm_sequence_number (fi_message item) :: seen)) as [Hnd Hdis]. cbn [map].
    split.
    + constructor; [|done]. intros Hin. apply (Hdis _ Hin). by left.
    + intros s [->|Hs]%elem_of_cons; [done|]. intros Hin. apply (Hdis s Hs). by right.
Qed.

(** First copy wins: while no connection runs more than 16 384 sequences ahead of the
    contiguous prefix, the coordinator hands the engine exactly the first copy of every sequence
    at or above the resume point, in order of arrival, and no sequence twice (the beginning of
    that list when the engine's channel closes). *)
Theorem coordinate_first_wins (items : list FeedIngress) (start : Z) :
  close_run (SequenceRace_new start) items ->
  (exists rest, first_copies start [] items = output (coordinate items start) ++ rest /\
     ((forall l, accepts l = true) -> rest = [])) /\
  NoDup (map fm_sequence_number (output (coordinate items start))).
Proof.
  intros Hc. destruct (race_new_inv start) as [Hi Ht].
  destruct (coordinate_loop_copies items {| race := SequenceRace_new start; output := [];
              resume_sequence := start |} start [] Hi Ht Hc) as (fwd & rest & Ho & Hf & Hr).
  unfold coordinate. rewrite Ho. cbn [output app]. split; [by exists rest|].
  destruct (first_copies_NoDup start [] items) as [Hnd _]. rewrite Hf, map_app in Hnd.
  by apply NoDup_app in Hnd as [Hnd _].
Qed.

Lemma coordinate_loop_cursor (items : list FeedIngress) (c : Coordinator) (start : Z) :
  (forall l, accepts l = true) ->
  race_inv start (map fm_sequence_number (output c)) (race c) ->
  resume_sequence c = next_resume (race c) ->
  let c' := coordinate_loop items c in
  race_inv start (map fm_sequence_number (output c')) (race c') /\
  resume_sequence c' = next_resume (race c').
Proof.
  intros Hopen. revert c. induction items as [|item items IH]; intros c Hi Hr; [done|].
  cbn [coordinate_loop]. set (s := fm_sequence_number (fi_message item)) in *.
  destruct (observe (race c) s (fi_ready_for_channel_at item)) as [o r'] eqn:E. destruct o.
  - rewrite Hopen. apply IH; [|done]. cbn [output race].
    eapply race_inv_mono; [|by eapply observe_first_inv]. intros k.
    rewrite map_app, elem_of_app, elem_of_cons. intros [->|Hk]; [right; by left|by left].
  - destruct (observe_skips start s _ _ _ _ _ Hi E ltac:(done)) as [-> _]. by apply IH.
  - destruct (observe_skips start s _ _ _ _ _ Hi E ltac:(done)) as [-> _]. by apply IH.
Qed.

(** The reconnect cursor is conservative whatever arrives, in any order and however far
    ahead: every sequence from the resume point up to the cursor has been forwarded, so a
    connection that asks for the cursor after a disconnect cannot skip a message; and the race
    never remembers more than 16 384 sequences. *)
Theorem resume_cursor_safe (items : list FeedIngress) (start : Z) :
  (forall l, accepts l = true) ->
  let c := coordinate items start in
  start <= resume_sequence c /\
  (forall s, start <= s < resume_sequence c -> s ∈ map fm_sequence_number (output c)) /\
  (length (recent (race c)) <= MAX_RECENT_SEQUENCES)%nat.
Proof.
  intros Hopen c. destruct (race_new_inv start) as [Hi _].
  destruct (coordinate_loop_cursor items {| race := SequenceRace_new start; output := [];
              resume_sequence := start |} start Hopen Hi eq_refl) as [[] Hr].
  unfold c, coordinate. rewrite Hr. done.
Qed.

End Coordinated.

(** Beyond that distance a winner is forgotten while it is still above the cursor: a later copy of
    the evicted sequence is forwarded again. *)
Theorem evicted_sequence_wins_again (r : SequenceRace) (k v s t t' : Z) (rest : list (Z * Z)) :
  recent r = (k, v) :: rest -> bt_sorted (recent r) ->
  length (recent r) = MAX_RECENT_SEQUENCES -> next_resume r < k ->
  bt_get s (recent r) = None -> k < s ->
  let r' := snd (observe r s t) in
  fst (observe r s t) = First /\ (next_resume r' <= k -> fst (observe r' k t') = First).
Proof.
  intros Hr Hs Hl Hk Hg Hlt. cbn zeta. unfold observe. rewrite Hg, (proj2 (Z.ltb_ge _ _)) by lia.
  cbn [fst snd]. split; [done|]. cbn [next_resume recent]. intros Hle.
  assert (Hins : bt_insert s t (recent r) = (k, v) :: bt_insert s t rest).
  { rewrite Hr. cbn [bt_insert]. replace (kcmp s k) with Gt; [done|].
    symmetry. change (s > k). lia. }
  assert (Hlen : length (bt_insert s t (recent r)) = S (length (recent r))).
  { rewrite Hr in Hg |- *. clear -Hg. revert Hg. generalize ((k, v) :: rest). intros l.
    induction l as [|[k0 v0] l IH]; [done|]. cbn [bt_get bt_insert].
    destruct (kcmp s k0); [done|done|]. intros Hg. cbn [length]. by rewrite IH. }
  assert (Hev : evict (bt_insert s t (recent r)) = bt_insert s t rest).
  { rewrite evict_one by lia. rewrite (proj2 (Nat.ltb_lt _ _)) by lia. by rewrite Hins. }
  rewrite Hev. destruct (bt_get k (bt_insert s t rest)) as [w|] eqn:Ew.
  - exfalso. rewrite bt_get_insert in Ew. replace (kcmp k s) with Lt in Ew by (symmetry; by apply Z.compare_lt_iff).
    rewrite Hr in Hs. inversion Hs as [|? ? ? Hall]; subst. rewrite List.Forall_forall in Hall.
    apply bt_get_In, Hall in Ew. unfold klt in Ew. cbn in Ew. by rewrite Z.compare_refl in Ew.
  - by rewrite (proj2 (Z.ltb_ge _ _)) by lia.
Qed.

(** The reconnect delay stays between the initial delay and its maximum, and doubles with the
    failures until it reaches it. *)
Lemma reconnect_delay_bounds (failures ordinal : Z) (rate_limited : bool) :
  1 <= failures <= 6 -> 0 <= ordinal ->
  let initial := if rate_limited then INITIAL_RATE_LIMIT_DELAY else INITIAL_RECONNECT_DELAY in
  let maximum := if rate_limited then MAX_RATE_LIMIT_DELAY else MAX_RECONNECT_DELAY in
  Z.min (initial * 2 ^ (failures - 1)) maximum <= reconnect_delay failures ordinal rate_limited <= maximum.
Proof.
  intros Hf Ho. unfold reconnect_delay, saturating_sub. pose proof (wrap64_bound (ordinal * 73)).
  pose proof (Z.mod_pos_bound (wrap64 (ordinal * 73)) 1000 ltac:(lia)).
  rewrite (Z.max_r 0), (Z.min_l _ 5) by lia. destruct rate_limited; lia.
Qed.

(** ** Witnesses *)

Definition ingress (seq at_ms : Z) : FeedIngress :=
  {| fi_message := {| fm_sequence_number := seq;
       fm_l1_incoming_message := fm_l1_incoming_message blank_message;
       fm_delayed_messages_read := 0 |};
     fi_ready_for_channel_at := at_ms |}.

Definition sample_ingress : list FeedIngress :=
  [ingress 7 1; ingress 7 2; ingress 5 3; ingress 4 4; ingress 6 5; ingress 7 6].

#[local] Existing Instance open_channel.

Lemma coordinate_first_wins_witness :
  map fm_sequence_number (output (coordinate sample_ingress 5)) = [7; 5; 6] /\
  NoDup (map fm_sequence_number (output (coordinate sample_ingress 5))).
Proof.
  split; [vm_compute; reflexivity|].
  refine (proj2 (coordinate_first_wins sample_ingress 5 _)).
  assert (Hz : Z.of_nat MAX_RECENT_SEQUENCES = 16384) by (vm_compute; reflexivity).
  unfold sample_ingress. cbn [close_run]. rewrite Hz. vm_compute. repeat split.
Defined.

Lemma resume_cursor_safe_witness :
  resume_sequence (coordinate sample_ingress 5) = 8 /\
  forall s, 5 <= s < resume_sequence (coordinate sample_ingress 5) ->
    s ∈ map fm_sequence_number (output (coordinate sample_ingress 5)).
Proof.
  split; [vm_compute; reflexivity|].
  refine (proj1 (proj2 (resume_cursor_safe sample_ingress 5 _))). reflexivity.
Defined.

#[export] Instance sample_urls : UrlParser := {|
  url_parse raw := if bool_decide (raw = "wss://relay/feed?key=1"%string)
                   then Some {| url_scheme := "wss"; url_host := Some "relay"%string; url_port := Some 9642 |}
                   else None
|}.

Definition sample_specs : list FeedSourceSpec := [{| fss_local_ip := V4 1; fss_connections := 2 |}].

Definition sample_sources : list FeedSource :=
  match expand_feed_sources ["wss://relay/feed?key=1"%string] (Some 1) sample_specs with
  | Ok l => l
  | Err _ => []
  end.

Lemma expand_feed_sources_exact_witness :
  map fs_local_ip sample_sources = [None; Some (V4 1); Some (V4 1)] /\
  Z.of_nat (length sample_sources) = 1 * (1 + spec_total sample_specs).
Proof.
  split; [vm_compute; reflexivity|].
  refine (proj1 (proj2 (expand_feed_sources_exact ["wss://relay/feed?key=1"%string] (Some 1)
            sample_specs sample_sources _ _ _ _))).
  - repeat constructor; cbn; lia.
  - lia.
  - discriminate.
  - vm_compute. reflexivity.
Defined.
