(* ===== verification/Ingress.v ===== *)
(** * Ingress: arbitration between the live feed and L1 derivation

    [crates/arb-reth-node/src/launcher.rs]: the engine handoff admission, the [IngressScheduler]
    over the two ingress channels, and the drive loop of [ArbLauncher::launch_impl] that feeds the
    engine driver of [Driver].

    Timing is an input. What a channel delivers is the list of the outcomes of polling it, in
    order: a message that has arrived, or nothing yet; the end of the list is a channel whose
    senders are gone. The instant a finite run's input is closed is the number of polls of the
    close signal that still find it unset. Quantifying over these is quantifying over every
    interleaving of the senders, the closer and the loop; a send on a channel is atomic. The ghost
    fields of the state list what was handed over and what the close rejected. *)

From Stdlib Require Import Strings.Byte Strings.String.
From stdpp Require Import base list numbers option.
From S2P Require Import Prelude BTree L1Decode Driver.

(** ** Engine handoff admission *)

Inductive ArbLaunchMode :=
| Ordinary
| Finite (frontier : Z).

Definition frontier_of (mode : ArbLaunchMode) : option Z :=
  match mode with
  | Ordinary => None
  | Finite frontier => Some frontier
  end.

Definition is_serving (mode : ArbLaunchMode) : bool :=
  match mode with
  | Ordinary => true
  | Finite _ => false
  end.

Inductive EngineHandoffAdmissionError :=
| FrontierBelowGenesis (frontier genesis_block : Z)
| SequenceNumberOverflow (sequence_number genesis_block : Z)
| TipBelowGenesis (tip genesis_block : Z)
| NextSequenceOverflow (tip genesis_block : Z).

Inductive EngineHandoffAdmission :=
| AdmittedBlock (block_number : Z)
| RejectedAboveFrontier (block_number frontier : Z).

Definition checked_sub (a b : Z) : option Z := if b <=? a then Some (a - b) else None.

Definition finite_handoff_admission (block_number frontier genesis_block : Z)
    : result EngineHandoffAdmissionError EngineHandoffAdmission :=
  if frontier <? genesis_block then Err (FrontierBelowGenesis frontier genesis_block)
  else if frontier <? block_number then Ok (RejectedAboveFrontier block_number frontier)
  else Ok (AdmittedBlock block_number).

Definition admit_engine_handoff (mode : ArbLaunchMode) (sequence_number genesis_block : Z)
    : result EngineHandoffAdmissionError EngineHandoffAdmission :=
  let? block_number := ok_or (SequenceNumberOverflow sequence_number genesis_block)
                         (checked_add sequence_number genesis_block) in
  match mode with
  | Ordinary => Ok (AdmittedBlock block_number)
  | Finite frontier => finite_handoff_admission block_number frontier genesis_block
  end.

Definition finite_max_sequence (mode : ArbLaunchMode) (genesis_block : Z)
    : result EngineHandoffAdmissionError (option Z) :=
  match frontier_of mode with
  | None => Ok None
  | Some frontier =>
      ok_or (FrontierBelowGenesis frontier genesis_block) (Some <$> checked_sub frontier genesis_block)
  end.

Definition next_driver_sequence (tip genesis_block : Z) : result EngineHandoffAdmissionError Z :=
  let? sequence := ok_or (TipBelowGenesis tip genesis_block) (checked_sub tip genesis_block) in
  ok_or (NextSequenceOverflow tip genesis_block) (checked_add sequence 1).

(** ** Channels *)

Inductive Poll := Arrived (message : BroadcastFeedMessage) | NotYet.

Definition Receiver := list Poll.

Inductive TryRecv := Received (message : BroadcastFeedMessage) | Empty | Disconnected.

Definition try_recv (rx : Receiver) : TryRecv * Receiver :=
  match rx with
  | [] => (Disconnected, [])
  | Arrived message :: rx => (Received message, rx)
  | NotYet :: rx => (Empty, rx)
  end.

(** [rx.close()]: what has been queued stays, what would have been sent later is rejected. *)
Fixpoint close (rx : Receiver) : Receiver :=
  match rx with
  | Arrived message :: rx => Arrived message :: close rx
  | _ => []
  end.

(** The messages a channel delivers. *)
Fixpoint arrivals (rx : Receiver) : list BroadcastFeedMessage :=
  match rx with
  | [] => []
  | Arrived message :: rx => message :: arrivals rx
  | NotYet :: rx => arrivals rx
  end.

(** The messages sent after the queued ones, which a close rejects. *)
Fixpoint late (rx : Receiver) : list BroadcastFeedMessage :=
  match rx with
  | [] => []
  | Arrived _ :: rx => late rx
  | NotYet :: rx => arrivals rx
  end.

(** ** The scheduler *)

Inductive MessageSource := L1 | Feed.

#[export] Instance MessageSource_eq_dec : EqDecision MessageSource.
Proof. solve_decision. Defined.

Definition peer (source : MessageSource) : MessageSource :=
  match source with L1 => Feed | Feed => L1 end.

Definition MAX_MESSAGE_BATCH : nat := 64.

Inductive BatchKind := OrdinaryBatch | GapCloser.

Record SelectedBatch := {
  sb_source : MessageSource;
  sb_messages : list BroadcastFeedMessage;
  sb_kind : BatchKind
}.

Record IngressScheduler := {
  feed_messages : Receiver;
  l1_messages : Receiver;
  feed_pending : option BroadcastFeedMessage;
  l1_pending : option BroadcastFeedMessage;
  l1_buffered : list BroadcastFeedMessage;
  feed_open : bool;
  l1_open : bool;
  owed : MessageSource
}.

Definition IngressScheduler_new (feed l1 : Receiver) : IngressScheduler := {|
  feed_messages := feed; l1_messages := l1; feed_pending := None; l1_pending := None;
  l1_buffered := []; feed_open := true; l1_open := true; owed := Feed
|}.

(** The feed channel of a finite run has no sender. *)
Definition l1_only (l1 : Receiver) : IngressScheduler := IngressScheduler_new [] l1.

Definition with_feed (s : IngressScheduler) (rx : Receiver) (pending : option BroadcastFeedMessage)
    (open : bool) : IngressScheduler := {|
  feed_messages := rx; l1_messages := l1_messages s; feed_pending := pending;
  l1_pending := l1_pending s; l1_buffered := l1_buffered s; feed_open := open;
  l1_open := l1_open s; owed := owed s
|}.

Definition with_l1 (s : IngressScheduler) (rx : Receiver) (pending : option BroadcastFeedMessage)
    (buffered : list BroadcastFeedMessage) (open : bool) : IngressScheduler := {|
  feed_messages := feed_messages s; l1_messages := rx; feed_pending := feed_pending s;
  l1_pending := pending; l1_buffered := buffered; feed_open := feed_open s;
  l1_open := open; owed := owed s
|}.

(** The three places a source's messages wait in, by source. *)
Definition rx_of (source : MessageSource) (s : IngressScheduler) : Receiver :=
  match source with L1 => l1_messages s | Feed => feed_messages s end.
Definition pending_of (source : MessageSource) (s : IngressScheduler) : option BroadcastFeedMessage :=
  match source with L1 => l1_pending s | Feed => feed_pending s end.
Definition buffered_of (source : MessageSource) (s : IngressScheduler) : list BroadcastFeedMessage :=
  match source with L1 => l1_buffered s | Feed => [] end.
Definition open_of (source : MessageSource) (s : IngressScheduler) : bool :=
  match source with L1 => l1_open s | Feed => feed_open s end.

(** Replaces the receiver, the head and the open flag of one source: the code's
    [let (open, pending, messages) = match source ..]. *)
Definition with_source (source : MessageSource) (s : IngressScheduler) (rx : Receiver)
    (pending : option BroadcastFeedMessage) (open : bool) : IngressScheduler :=
  match source with
  | L1 => with_l1 s rx pending (l1_buffered s) open
  | Feed => with_feed s rx pending open
  end.

Definition within (max_sequence : Z) (message : BroadcastFeedMessage) : bool :=
  fm_sequence_number message <=? max_sequence.

(** [close_l1_input]: the [while let Ok(..) = try_recv()] loop drains the closed receiver. *)
Definition close_l1_input (max_sequence : Z) (s : IngressScheduler) : IngressScheduler :=
  let pending := match l1_pending s with
                 | Some message => if max_sequence <? fm_sequence_number message then None
                                   else Some message
                 | None => None
                 end in
  let buffered := l1_buffered s ++
    List.filter (within max_sequence) (arrivals (close (l1_messages s))) in
  with_l1 s [] pending buffered (negb (bool_decide (buffered = []))).

Definition try_fill_head (source : MessageSource) (s : IngressScheduler) : IngressScheduler :=
  match source, l1_open s, l1_pending s, l1_buffered s with
  | L1, true, None, message :: buffered =>
      with_l1 s (l1_messages s) (Some message) buffered true
  | _, _, _, _ =>
      if negb (open_of source s) || bool_decide (is_Some (pending_of source s)) then s
      else
        match try_recv (rx_of source s) with
        | (Received message, rx) => with_source source s rx (Some message) (open_of source s)
        | (Empty, rx) => with_source source s rx (pending_of source s) (open_of source s)
        | (Disconnected, rx) => with_source source s rx (pending_of source s) false
        end
  end.

(** The signal that closes a finite run's input; [None] is an ordinary run, which has none. *)
Definition CloseSignal := option nat.

(** [closed.load(..)], or one poll of [close_rx]. *)
Definition poll_close (c : CloseSignal) : bool * CloseSignal :=
  match c with
  | None => (false, None)
  | Some O => (true, Some O)
  | Some (S n) => (false, Some n)
  end.

(** One poll of an arm of [wait_for_head]'s [select!]: whether it completed. *)
Definition poll_arm (source : MessageSource) (s : IngressScheduler) : bool * IngressScheduler :=
  if open_of source s then
    match try_recv (rx_of source s) with
    | (Received message, rx) => (true, with_source source s rx (Some message) (open_of source s))
    | (Empty, rx) => (false, with_source source s rx (pending_of source s) (open_of source s))
    | (Disconnected, rx) => (true, with_source source s rx (pending_of source s) false)
    end
  else (false, s).

Inductive Woken := HeadReady | CloseFired.

(** [wait_for_head], woken until an arm completes; between two wakes the loop's own [select!]
    polls the close signal, when it takes part. Every round polls an open channel. *)
Fixpoint wait_for_head (fuel : nat) (c : CloseSignal) (s : IngressScheduler)
    : Woken * CloseSignal * IngressScheduler :=
  let '(ready, s) := poll_arm (owed s) s in
  if ready then (HeadReady, c, s)
  else
    let '(ready, s) := poll_arm (peer (owed s)) s in
    if ready then (HeadReady, c, s)
    else
      let '(fired, c) := poll_close c in
      if fired then (CloseFired, c, s)
      else match fuel with
           | O => (HeadReady, c, s)
           | S fuel => wait_for_head fuel c s
           end.

(** [while messages.len() < MAX_MESSAGE_BATCH]: the messages after the first. *)
Fixpoint fill_batch (slots : nat) (source : MessageSource) (s : IngressScheduler)
    : list BroadcastFeedMessage * IngressScheduler :=
  match slots with
  | O => ([], s)
  | S slots =>
      match source, l1_buffered s with
      | L1, message :: buffered =>
          let '(messages, s) :=
            fill_batch slots source (with_l1 s (l1_messages s) (l1_pending s) buffered (l1_open s)) in
          (message :: messages, s)
      | _, _ =>
          match try_recv (rx_of source s) with
          | (Received message, rx) =>
              let '(messages, s) :=
                fill_batch slots source (with_source source s rx (pending_of source s) (open_of source s)) in
              (message :: messages, s)
          | (Empty, rx) => ([], with_source source s rx (pending_of source s) (open_of source s))
          | (Disconnected, rx) => ([], with_source source s rx (pending_of source s) false)
          end
      end
  end.

(** An L1 message that closes the exact gap in front of a feed head. *)
Definition is_gap_closer (next_sequence : Z) (s : IngressScheduler) : bool :=
  match feed_pending s, l1_pending s with
  | Some feed, Some l1 =>
      (fm_sequence_number l1 =? next_sequence) && (next_sequence <? fm_sequence_number feed)
  | _, _ => false
  end.

(** [None]: both heads are empty. *)
Definition select_source (next_sequence : Z) (s : IngressScheduler)
    : option (MessageSource * BatchKind * BroadcastFeedMessage) :=
  match feed_pending s, l1_pending s with
  | None, None => None
  | Some feed, None => Some (Feed, OrdinaryBatch, feed)
  | None, Some l1 => Some (L1, OrdinaryBatch, l1)
  | Some feed, Some l1 =>
      if is_gap_closer next_sequence s then Some (L1, GapCloser, l1)
      else match owed s with
           | L1 => Some (L1, OrdinaryBatch, l1)
           | Feed => Some (Feed, OrdinaryBatch, feed)
           end
  end.

(** The messages after the first: the head is taken, and an ordinary batch is filled up. *)
Definition start_batch (source : MessageSource) (kind : BatchKind) (s : IngressScheduler)
    : list BroadcastFeedMessage * IngressScheduler :=
  let s := with_source source s (rx_of source s) None (open_of source s) in
  match kind with
  | OrdinaryBatch => fill_batch (MAX_MESSAGE_BATCH - 1) source s
  | GapCloser => ([], s)
  end.

Inductive Selected :=
| Batch (batch : SelectedBatch)
| Ended
| Interrupted.

(** [next_batch], as the loop awaits it: [Interrupted] when the close signal wins the loop's
    [select!] while both heads are empty. A wait that yields no message closes a channel, so two
    waits without a message reach the end. *)
Fixpoint next_batch (fuel : nat) (next_sequence : Z) (c : CloseSignal) (s : IngressScheduler)
    : Selected * CloseSignal * IngressScheduler :=
  let s := try_fill_head L1 (try_fill_head Feed s) in
  match select_source next_sequence s with
  | None =>
      if negb (feed_open s) && negb (l1_open s) then (Ended, c, s)
      else match fuel with
           | O => (Ended, c, s)
           | S fuel =>
               match wait_for_head (length (feed_messages s) + length (l1_messages s)) c s with
               | (CloseFired, c, s) => (Interrupted, c, s)
               | (HeadReady, c, s) => next_batch fuel next_sequence c s
               end
           end
  | Some (source, kind, first) =>
      let '(messages, s) := start_batch source kind s in
      (Batch {| sb_source := source; sb_messages := first :: messages; sb_kind := kind |}, c, s)
  end.

Definition complete_batch (source : MessageSource) (kind : BatchKind) (s : IngressScheduler)
    : IngressScheduler :=
  let set_owed o := {|
    feed_messages := feed_messages s; l1_messages := l1_messages s;
    feed_pending := feed_pending s; l1_pending := l1_pending s; l1_buffered := l1_buffered s;
    feed_open := feed_open s; l1_open := l1_open s; owed := o |} in
  match kind with
  | GapCloser => set_owed Feed
  | OrdinaryBatch => if decide (source = owed s) then set_owed (peer source) else s
  end.

(** ** The drive loop *)

Inductive DriveError :=
| Admission (error : EngineHandoffAdmissionError)
| EngineFailed (error : string)
| Panicked.

(** The handed messages are kept with their source and their overlap flag, and the messages a close
    of the input rejected are kept too. *)
Definition Handoff : Type := MessageSource * (BroadcastFeedMessage * bool).

Record DriveState := {
  ds_scheduler : IngressScheduler;
  ds_driver : ArbEngineDriver;
  ds_close : CloseSignal;
  ds_handed : list Handoff;
  ds_rejected : list BroadcastFeedMessage
}.

Section DriveLoop.
Context {EN : Engine}.
Variables (mode : ArbLaunchMode) (genesis_block : Z) (max_sequence : option Z).

Definition with_parts (st : DriveState) (c : CloseSignal) (s : IngressScheduler) : DriveState := {|
  ds_scheduler := s; ds_driver := ds_driver st; ds_close := c; ds_handed := ds_handed st;
  ds_rejected := ds_rejected st
|}.

(** [scheduler.close_l1_input(finite_max_sequence.expect(..))] *)
Definition close_input (st : DriveState) : result DriveError DriveState :=
  match max_sequence with
  | None => Err Panicked
  | Some m =>
      Ok {| ds_scheduler := close_l1_input m (ds_scheduler st); ds_driver := ds_driver st;
            ds_close := ds_close st; ds_handed := ds_handed st;
            ds_rejected := late (l1_messages (ds_scheduler st)) ++ ds_rejected st |}
  end.

(** [if finite_input_close_rx.is_some_and(|close| close.closed.load(..)) { close }] *)
Definition close_if_signalled (st : DriveState) : result DriveError DriveState :=
  let '(closed, c) := poll_close (ds_close st) in
  let st := with_parts st c (ds_scheduler st) in
  if closed then close_input st else Ok st.

(** One turn of [for (index, msg) in batch]; [more] is [index + 1 < batch_len]. *)
Definition hand_over (source : MessageSource) (st : DriveState)
    (item : BroadcastFeedMessage * bool) : result DriveError DriveState :=
  let '(msg, more) := item in
  let? st := close_if_signalled st in
  let? admission := map_err Admission (admit_engine_handoff mode (fm_sequence_number msg) genesis_block) in
  match admission with
  | RejectedAboveFrontier _ _ => Ok st
  | AdmittedBlock _ =>
      let? '(_, d) := map_err EngineFailed (advance_with_applied_inner msg more (ds_driver st)) in
      Ok {| ds_scheduler := ds_scheduler st; ds_driver := d; ds_close := ds_close st;
            ds_handed := ds_handed st ++ [(source, (msg, more))]; ds_rejected := ds_rejected st |}
  end.

(** Each message of a batch with whether another follows it. *)
Fixpoint overlapped (batch : list BroadcastFeedMessage) : list (BroadcastFeedMessage * bool) :=
  match batch with
  | [] => []
  | msg :: rest => (msg, negb (bool_decide (rest = []))) :: overlapped rest
  end.

(** The selection of the loop: unless the signal is already set, it races [next_batch] in the
    [select!], polled first. *)
Definition select_batch (next_sequence : Z) (st : DriveState) : Selected * DriveState :=
  match ds_close st with
  | None =>
      let '(selected, _, s) := next_batch 2 next_sequence None (ds_scheduler st) in
      (selected, with_parts st None s)
  | Some n =>
      let '(closed, c) := poll_close (Some n) in
      if closed then
        let '(selected, _, s) := next_batch 2 next_sequence None (ds_scheduler st) in
        (selected, with_parts st c s)
      else
        let '(fired, c) := poll_close c in
        if fired then (Interrupted, with_parts st c (ds_scheduler st))
        else
          let '(selected, c, s) := next_batch 2 next_sequence c (ds_scheduler st) in
          (selected, with_parts st c s)
  end.

(** The [loop]; [None] when the fuel runs out. *)
Fixpoint drive_loop (fuel : nat) (st : DriveState) : option (result DriveError DriveState) :=
  match fuel with
  | O => None
  | S fuel =>
      match next_driver_sequence (sh_number (tip (ds_driver st))) genesis_block with
      | Err e => Some (Err (Admission e))
      | Ok next_sequence =>
          match close_if_signalled st with
          | Err e => Some (Err e)
          | Ok st =>
              match select_batch next_sequence st with
              | (Ended, st) => Some (Ok st)
              | (Interrupted, st) =>
                  match close_input st with
                  | Err e => Some (Err e)
                  | Ok st => drive_loop fuel st
                  end
              | (Batch b, st) =>
                  match try_fold (hand_over (sb_source b)) (overlapped (sb_messages b)) st with
                  | Err e => Some (Err e)
                  | Ok st =>
                      drive_loop fuel (with_parts st (ds_close st)
                        (complete_batch (sb_source b) (sb_kind b) (ds_scheduler st)))
                  end
              end
          end
      end
  end.

End DriveLoop.

(** ** Conservation: polling moves messages, it neither drops nor reorders them *)

(** The messages of a source the scheduler still holds or will receive, in order. *)
Definition remaining (source : MessageSource) (s : IngressScheduler) : list BroadcastFeedMessage :=
  option_list (pending_of source s) ++ buffered_of source s ++ arrivals (rx_of source s).

(** A source is marked closed only once nothing is left behind its head. *)
Definition wf (s : IngressScheduler) : Prop :=
  forall source, open_of source s = false -> rx_of source s = [] /\ buffered_of source s = [].

(** A step that selects nothing. *)
Record quiet (s s' : IngressScheduler) : Prop := {
  q_wf : wf s';
  q_owed : owed s' = owed s;
  q_remaining : forall source, remaining source s' = remaining source s;
  q_open : forall source, open_of source s = false -> open_of source s' = false;
  q_kept : forall source, is_Some (pending_of source s) -> pending_of source s' = pending_of source s;
  q_rx : forall source, rx_of source s' `suffix_of` rx_of source s
}.

Lemma quiet_refl (s : IngressScheduler) : wf s -> quiet s s.
Proof. by split. Qed.

Lemma quiet_trans (s1 s2 s3 : IngressScheduler) : quiet s1 s2 -> quiet s2 s3 -> quiet s1 s3.
Proof.
  intros [W1 O1 R1 P1 K1 S1] [W2 O2 R2 P2 K2 S2]. split; [done|congruence|..].
  - intros source. by rewrite R2.
  - auto.
  - intros source Hs. rewrite K2; [by apply K1|]. by rewrite K1.
  - intros source. etrans; [apply S2|apply S1].
Qed.

Lemma with_source_quiet (source : MessageSource) (s : IngressScheduler) (rx : Receiver)
    (pending : option BroadcastFeedMessage) (open : bool) :
  wf s -> rx `suffix_of` rx_of source s ->
  option_list pending ++ buffered_of source s ++ arrivals rx = remaining source s ->
  (is_Some (pending_of source s) -> pending = pending_of source s) ->
  (open = false -> rx = [] /\ buffered_of source s = []) ->
  (open_of source s = false -> open = false) ->
  quiet s (with_source source s rx pending open).
Proof.
  intros W Hsuf Hrem Hk Ho Hc. split.
  - intros [|] H; destruct source; cbn in *; auto; (apply (W L1) || apply (W Feed)); done.
  - by destruct source.
  - intros [|]; destruct source; unfold remaining in *; cbn in *; auto.
  - intros [|]; destruct source; cbn in *; auto.
  - intros [|]; destruct source; cbn in *; auto.
  - intros [|]; destruct source; cbn in *; done.
Qed.

(** One poll leaves the rest of the outcomes. *)
Lemma suffix_tail (p : Poll) (rx : Receiver) : rx `suffix_of` p :: rx.
Proof. by apply suffix_cons_r. Qed.

#[local] Hint Resolve suffix_tail : core.

Lemma try_fill_head_quiet (source : MessageSource) (s : IngressScheduler) :
  wf s -> quiet s (try_fill_head source s).
Proof.
  intros W. unfold try_fill_head.
  assert (Hpoll : quiet s
    (if negb (open_of source s) || bool_decide (is_Some (pending_of source s)) then s
     else match try_recv (rx_of source s) with
          | (Received message, rx) => with_source source s rx (Some message) (open_of source s)
          | (Empty, rx) => with_source source s rx (pending_of source s) (open_of source s)
          | (Disconnected, rx) => with_source source s rx (pending_of source s) false
          end) \/ (source = L1 /\ l1_open s = true /\ l1_pending s = None /\ l1_buffered s <> [])).
  { destruct (open_of source s) eqn:Eo; [|left; by apply quiet_refl].
    destruct (pending_of source s) as [m|] eqn:Ep; [left; by apply quiet_refl|].
    destruct (decide (buffered_of source s = [])) as [Eb|Eb].
    2: { right. destruct source; [|done]. done. }
    left. cbn. destruct (rx_of source s) as [|[m|] rx] eqn:Er; cbn;
      (apply with_source_quiet; [done|by rewrite Er; auto| | |done || by rewrite Eo|done || by rewrite Eo]);
      try (by rewrite Ep); unfold remaining; rewrite ?Ep, Eb, Er; done. }
  destruct source.
  - destruct (l1_open s) eqn:Eo; [|by destruct Hpoll as [?|(_ & ? & _)]].
    destruct (l1_pending s) as [m|] eqn:Ep; [by destruct Hpoll as [?|(_ & _ & ? & _)]|].
    destruct (l1_buffered s) as [|m buffered] eqn:Eb; [by destruct Hpoll as [?|(_ & _ & _ & ?)]|].
    split.
    + intros [|] H; cbn in *; [done|]. by apply (W Feed).
    + done.
    + intros [|]; unfold remaining; cbn; rewrite ?Ep, ?Eb; done.
    + intros [|]; cbn; congruence.
    + intros [|]; cbn; rewrite ?Ep; [by intros []|done].
    + by intros [|].
  - by destruct Hpoll as [?|(? & _)].
Qed.

(** A head the scheduler could not fill has nothing buffered behind it. *)
Lemma try_fill_head_buffered (s : IngressScheduler) :
  wf s -> l1_pending (try_fill_head L1 s) = None -> l1_buffered (try_fill_head L1 s) = [].
Proof.
  intros W. unfold try_fill_head. destruct (l1_open s) eqn:Eo.
  - destruct (l1_pending s) as [m|] eqn:Ep.
    { cbn. rewrite Eo, Ep. cbn. by rewrite Ep. }
    destruct (l1_buffered s) eqn:Eb; [|done].
    cbn. rewrite Eo, Ep. cbn. by destruct (l1_messages s) as [|[m|] rx].
  - cbn. rewrite Eo. cbn. intros _. by apply (W L1).
Qed.

(** ** Waiting *)

Lemma poll_arm_spec (source : MessageSource) (s s' : IngressScheduler) (ready : bool) :
  wf s -> pending_of source s = None -> buffered_of source s = [] ->
  poll_arm source s = (ready, s') ->
  quiet s s' /\ buffered_of source s' = [] /\
  pending_of (peer source) s' = pending_of (peer source) s /\
  rx_of (peer source) s' = rx_of (peer source) s /\
  open_of (peer source) s' = open_of (peer source) s /\
  buffered_of (peer source) s' = buffered_of (peer source) s /\
  (ready = true -> is_Some (pending_of source s') \/ open_of source s = true /\ open_of source s' = false) /\
  (ready = false -> pending_of source s' = None /\ open_of source s' = open_of source s /\
     (length (rx_of source s') + Nat.b2n (open_of source s) = length (rx_of source s))%nat).
Proof.
  intros W Ep Eb. unfold poll_arm. destruct (open_of source s) eqn:Eo.
  2: { intros [= <- <-]. split; [by apply quiet_refl|]. rewrite Ep, Eb. cbn.
       split_and!; try done. all: intros _; split_and!; try done; lia. }
  assert (Hq : forall rx p o, rx `suffix_of` rx_of source s ->
            option_list p ++ arrivals rx = arrivals (rx_of source s) ->
            (o = false -> rx = []) -> quiet s (with_source source s rx p o)).
  { intros rx p o Hs Hr Ho. apply with_source_quiet; [done|done| | | |by rewrite Eo].
    - unfold remaining. by rewrite Ep, Eb.
    - rewrite Ep. by intros [].
    - intros H. split; [by apply Ho|done]. }
  destruct (rx_of source s) as [|[m|] rx] eqn:Er; cbn; intros [= <- <-];
    (split; [by apply Hq; rewrite ?Ep; auto|]); destruct source; cbn in *; rewrite ?Ep, ?Eb, ?Eo;
    split_and!; try done; try (intros _; (by left) || (by right) || (by split_and!; [..|lia])).
Qed.

Definition opens (s : IngressScheduler) : nat := (Nat.b2n (feed_open s) + Nat.b2n (l1_open s))%nat.

Definition idle (s : IngressScheduler) : Prop :=
  feed_pending s = None /\ l1_pending s = None /\ l1_buffered s = [].

(** A wait ends with a head, with one channel fewer open, or with the close signal. *)
Lemma wait_for_head_spec (fuel : nat) (c c' : CloseSignal) (s s' : IngressScheduler) (w : Woken) :
  wf s -> idle s -> (0 < opens s)%nat ->
  (length (feed_messages s) + length (l1_messages s) <= fuel)%nat ->
  wait_for_head fuel c s = (w, c', s') ->
  quiet s s' /\ (c = None -> c' = None /\ w = HeadReady) /\
  match w with
  | HeadReady => is_Some (feed_pending s') \/ is_Some (l1_pending s') \/ (opens s' < opens s)%nat
  | CloseFired => c' = Some O
  end.
Proof.
  revert c s. induction fuel as [|fuel IH]; intros c s W (Ef & El & Eb) Hop Hfuel;
    unfold wait_for_head; fold wait_for_head;
    destruct (poll_arm (owed s) s) as [r1 s1] eqn:E1.
  all: apply poll_arm_spec in E1 as (Q1 & B1 & Pp1 & Rp1 & Op1 & Bp1 & T1 & F1);
    [|done|by destruct (owed s)|by destruct (owed s)].
  all: destruct r1.
  1, 3: intros [= <- <- <-]; split; [done|]; split; [done|];
    destruct (T1 eq_refl) as [?|[Ho Hc]]; unfold opens;
    [destruct (owed s); cbn in *; auto|right; right; destruct (owed s); cbn in *; rewrite Ho, Hc, Op1; cbn [Nat.b2n]; lia].
  all: destruct (F1 eq_refl) as (P1 & O1 & L1'); rewrite (q_owed _ _ Q1) in *;
    destruct (poll_arm (peer (owed s)) s1) as [r2 s2] eqn:E2.
  all: apply poll_arm_spec in E2 as (Q2 & B2 & Pp2 & Rp2 & Op2 & Bp2 & T2 & F2);
    [|by apply Q1|rewrite Pp1; by destruct (owed s)|rewrite Bp1; by destruct (owed s)].
  all: pose proof (quiet_trans _ _ _ Q1 Q2) as Q.
  all: destruct r2.
  1, 3: intros [= <- <- <-]; split; [done|]; split; [done|];
    destruct (T2 eq_refl) as [?|[Ho Hc]]; unfold opens;
    [destruct (owed s); cbn in *; auto
    |right; right; rewrite Op1 in Ho; destruct (owed s); cbn in *; rewrite Ho, Hc, Op2, O1; cbn [Nat.b2n]; lia].
  all: destruct (F2 eq_refl) as (P2 & O2 & L2'); rewrite Rp1, Op1 in L2'.
  all: assert (Hless : (length (feed_messages s2) + length (l1_messages s2) + opens s
                         = length (feed_messages s) + length (l1_messages s))%nat)
    by (unfold opens; destruct (owed s); cbn in *; rewrite Rp2; lia).
  - lia.
  - destruct (poll_close c) as [fired c1] eqn:Ec. destruct fired.
    { intros [= <- <- <-]. split; [done|]. destruct c as [[|n]|]; cbn in Ec; simplify_eq. done. }
    intros H. apply IH in H as (Q' & Hn & Hw).
    + split; [by eapply quiet_trans|]. split; [|].
      * intros ->. cbn in Ec. simplify_eq. by apply Hn.
      * destruct w; [|done]. destruct Hw as [?|[?|Hw]]; [by left|by right; left|].
        right; right. enough (opens s2 = opens s) by lia. unfold opens.
        destruct (owed s); cbn in *; congruence.
    + apply Q.
    + unfold idle. destruct (owed s); cbn in *; split_and!; congruence.
    + enough (opens s2 = opens s) by lia. unfold opens. destruct (owed s); cbn in *; congruence.
    + lia.
Qed.

(** ** Selecting a batch *)

(** A step that takes the messages [taken] of one source. *)
Record takes (source : MessageSource) (taken : list BroadcastFeedMessage)
    (s s' : IngressScheduler) : Prop := {
  t_wf : wf s';
  t_owed : owed s' = owed s;
  t_taken : remaining source s = taken ++ remaining source s';
  t_peer : remaining (peer source) s' = remaining (peer source) s;
  t_pending : pending_of source s' = None;
  t_rx : forall src, rx_of src s' `suffix_of` rx_of src s
}.

Lemma takes_trans (source : MessageSource) (l k : list BroadcastFeedMessage)
    (s1 s2 s3 : IngressScheduler) :
  takes source l s1 s2 -> takes source k s2 s3 -> takes source (l ++ k) s1 s3.
Proof.
  intros [W1 O1 T1 P1 N1 R1] [W2 O2 T2 P2 N2 R2]. split; try congruence; try done.
  - rewrite T1, T2. apply app_assoc.
  - intros src. etrans; [apply R2|apply R1].
Qed.

Lemma quiet_takes (source : MessageSource) (l : list BroadcastFeedMessage)
    (s1 s2 s3 : IngressScheduler) : quiet s1 s2 -> takes source l s2 s3 -> takes source l s1 s3.
Proof.
  intros Q [W2 O2 T2 P2 N2 R2]. split; try done.
  - rewrite O2. apply Q.
  - by rewrite <- (q_remaining _ _ Q).
  - rewrite P2. apply Q.
  - intros src. etrans; [apply R2|apply Q].
Qed.

(** Taking messages straight from the channel of a source. *)
Lemma with_source_takes (source : MessageSource) (s : IngressScheduler) (rx : Receiver) (o : bool)
    (taken : list BroadcastFeedMessage) :
  wf s -> pending_of source s = None -> buffered_of source s = [] ->
  rx `suffix_of` rx_of source s -> arrivals (rx_of source s) = taken ++ arrivals rx ->
  (o = false -> rx = []) -> takes source taken s (with_source source s rx None o).
Proof.
  intros W Ep Eb Hs Ha Ho. split; [|by destruct source| |by destruct source..|].
  - intros [|] H; destruct source; cbn in *; auto; (by apply (W L1)) || (by apply (W Feed)).
  - unfold remaining. rewrite Ep, Eb, Ha. destruct source; cbn in *; by rewrite ?Eb.
  - intros [|]; destruct source; cbn in *; done.
Qed.

Lemma fill_batch_spec (slots : nat) (source : MessageSource) (s s' : IngressScheduler)
    (taken : list BroadcastFeedMessage) :
  wf s -> pending_of source s = None -> fill_batch slots source s = (taken, s') ->
  takes source taken s s' /\ pending_of (peer source) s' = pending_of (peer source) s /\
  (length taken <= slots)%nat.
Proof.
  revert s taken. induction slots as [|slots IH]; intros s taken W Ep H; cbn [fill_batch] in H.
  { simplify_eq. split; [|done]. by split. }
  assert (Hcons : forall m s1, takes source [m] s s1 ->
    pending_of (peer source) s1 = pending_of (peer source) s ->
    (let '(messages, s2) := fill_batch slots source s1 in (m :: messages, s2)) = (taken, s') ->
    takes source taken s s' /\ pending_of (peer source) s' = pending_of (peer source) s /\
    (length taken <= S slots)%nat).
  { intros m s1 T Hp Hf. destruct (fill_batch slots source s1) as [rest s2] eqn:E. simplify_eq.
    apply IH in E as (T' & Hp' & Hl); [|apply T|apply T].
    split; [by apply (takes_trans _ [m] rest _ s1)|]. split; [congruence|cbn; lia]. }
  destruct (buffered_of source s) as [|m buffered] eqn:Eb.
  - assert (Hs : (match try_recv (rx_of source s) with
            | (Received message, rx) =>
                let '(messages, s) :=
                  fill_batch slots source (with_source source s rx (pending_of source s) (open_of source s)) in
                (message :: messages, s)
            | (Empty, rx) => ([], with_source source s rx (pending_of source s) (open_of source s))
            | (Disconnected, rx) => ([], with_source source s rx (pending_of source s) false)
            end) = (taken, s')) by (destruct source; cbn in Eb; [by rewrite Eb in H|done]).
    clear H. rewrite Ep in Hs.
    assert (Ho : open_of source s = false -> rx_of source s = []) by (intros; by apply W).
    destruct (rx_of source s) as [|[m|] rx] eqn:Er; cbn in Hs.
    2: { refine (Hcons m _ _ _ Hs); [|by destruct source].
         apply with_source_takes; try done; rewrite ?Er; auto. intros H. by specialize (Ho H). }
    all: simplify_eq; (split; [|split; [by destruct source|cbn; lia]]);
      apply with_source_takes; try done; rewrite ?Er; auto. intros H. by specialize (Ho H).
  - destruct source; cbn in Eb; [|done]. rewrite Eb in H. refine (Hcons m _ _ _ H); [|done].
    split; try done.
    + intros [|] Ho; cbn in *; [|by apply (W Feed)].
      destruct (W L1 Ho) as [_ ?]. by cbn in *; congruence.
    + unfold remaining. cbn in *. by rewrite Ep, Eb.
Qed.

Lemma select_source_spec (ns : Z) (s : IngressScheduler) (source : MessageSource) (kind : BatchKind)
    (first : BroadcastFeedMessage) :
  select_source ns s = Some (source, kind, first) ->
  pending_of source s = Some first /\
  match kind with
  | GapCloser => source = L1 /\ fm_sequence_number first = ns /\
                 exists m, feed_pending s = Some m /\ ns < fm_sequence_number m
  | OrdinaryBatch => is_Some (pending_of (peer source) s) -> source = owed s
  end.
Proof.
  unfold select_source, is_gap_closer. intros H.
  destruct (feed_pending s) as [f|] eqn:Ef, (l1_pending s) as [l|] eqn:El; simplify_eq; cbn; try done.
  - destruct ((_ =? _) && _) eqn:E.
    + apply andb_prop in E as [E1%Z.eqb_eq E2%Z.ltb_lt]. simplify_eq. cbn. eauto 6.
    + destruct (owed s) eqn:Eo; simplify_eq; cbn; rewrite ?Ef, ?El; done.
  - split; [done|]. rewrite El. by intros [].
  - split; [done|]. rewrite Ef. by intros [].
Qed.

Lemma select_source_none (ns : Z) (s : IngressScheduler) :
  select_source ns s = None -> feed_pending s = None /\ l1_pending s = None.
Proof.
  unfold select_source. intros H.
  destruct (feed_pending s), (l1_pending s); [|done..]. by destruct (is_gap_closer _ _), (owed s).
Qed.

Lemma select_source_some (ns : Z) (s : IngressScheduler) :
  is_Some (feed_pending s) \/ is_Some (l1_pending s) -> select_source ns s <> None.
Proof.
  intros H E. apply select_source_none in E as [E1 E2]. rewrite E1, E2 in H. by destruct H as [[]|[]].
Qed.

Lemma fill_heads_spec (s : IngressScheduler) :
  wf s -> let s1 := try_fill_head L1 (try_fill_head Feed s) in
  quiet s s1 /\ (l1_pending s1 = None -> l1_buffered s1 = []).
Proof.
  intros W. pose proof (try_fill_head_quiet Feed s W) as Q1.
  pose proof (try_fill_head_quiet L1 _ (q_wf _ _ Q1)) as Q2. split; [by eapply quiet_trans|].
  apply try_fill_head_buffered, Q1.
Qed.

Lemma opens_quiet (s s' : IngressScheduler) : quiet s s' -> (opens s' <= opens s)%nat.
Proof.
  intros Q. pose proof (q_open _ _ Q Feed) as Hf. pose proof (q_open _ _ Q L1) as Hl.
  cbn in Hf, Hl. unfold opens.
  destruct (feed_open s); [|rewrite Hf by done]; (destruct (l1_open s); [|rewrite Hl by done]);
    destruct (feed_open s'), (l1_open s'); cbn; lia.
Qed.

Lemma start_batch_spec (source : MessageSource) (kind : BatchKind) (first : BroadcastFeedMessage)
    (s s' : IngressScheduler) (taken : list BroadcastFeedMessage) :
  wf s -> pending_of source s = Some first -> start_batch source kind s = (taken, s') ->
  takes source (first :: taken) s s' /\ pending_of (peer source) s' = pending_of (peer source) s /\
  (length (first :: taken) <= MAX_MESSAGE_BATCH)%nat.
Proof.
  intros W Ep. unfold start_batch.
  set (s0 := with_source source s (rx_of source s) None (open_of source s)).
  assert (T0 : takes source [first] s s0).
  { split; [|by destruct source| |by destruct source..|].
    - intros [|] H; destruct source; cbn in *; (by apply (W L1)) || (by apply (W Feed)).
    - unfold remaining. rewrite Ep. by destruct source.
    - intros [|]; by destruct source. }
  assert (Hp : pending_of (peer source) s0 = pending_of (peer source) s) by (by destruct source).
  clearbody s0. unfold MAX_MESSAGE_BATCH. destruct kind; intros H.
  - apply fill_batch_spec in H as (T & Hp' & Hl); [|apply T0|apply T0].
    split; [by apply (takes_trans _ [first] taken _ s0)|]. split; [congruence|cbn [length]; lia].
  - simplify_eq. split; [done|]. split; [done|cbn [length]; lia].
Qed.

(** How a batch was selected: once the heads were filled, from the source [select_source] names. *)
Definition selected_from (ns : Z) (b : SelectedBatch) (s s' : IngressScheduler) : Prop :=
  exists s1 first rest, quiet s s1 /\
    select_source ns s1 = Some (sb_source b, sb_kind b, first) /\
    sb_messages b = first :: rest /\ start_batch (sb_source b) (sb_kind b) s1 = (rest, s').

(** The end means that both sources are drained; the close signal interrupts only a wait. *)
Lemma next_batch_spec (fuel : nat) (ns : Z) (c c' : CloseSignal) (s s' : IngressScheduler)
    (sel : Selected) :
  wf s -> (opens s <= fuel)%nat \/ is_Some (feed_pending s) \/ is_Some (l1_pending s) ->
  next_batch fuel ns c s = (sel, c', s') ->
  (c = None -> c' = None /\ sel <> Interrupted) /\
  match sel with
  | Batch b => selected_from ns b s s'
  | Ended => quiet s s' /\ forall source, remaining source s = []
  | Interrupted => quiet s s' /\ c' = Some O
  end.
Proof.
  revert c s. induction fuel as [|fuel IH]; intros c s W Hop H; cbn [next_batch] in H;
    destruct (fill_heads_spec s W) as [Q Hb];
    set (s1 := try_fill_head L1 (try_fill_head Feed s)) in *; clearbody s1;
    pose proof (opens_quiet _ _ Q) as Hle;
    destruct (select_source ns s1) as [[[source kind] first]|] eqn:Es.
  1, 3: destruct (start_batch source kind s1) as [rest s2] eqn:Et; simplify_eq;
    split; [by intros ->|by exists s1, first, rest].
  all: apply select_source_none in Es as [Ef El]; specialize (Hb El).
  all: destruct Hop as [Hop|Hop];
    [|pose proof (q_kept _ _ Q Feed) as Kf; pose proof (q_kept _ _ Q L1) as Kl; cbn in Kf, Kl;
      destruct Hop as [Hop|Hop]; [specialize (Kf Hop)|specialize (Kl Hop)]; destruct Hop; congruence].
  all: assert (Hend : opens s1 = O -> forall source, remaining source s = []) by
    (intros Ho source; rewrite <- (q_remaining _ _ Q); unfold remaining, opens in *;
     destruct (q_wf _ _ Q source) as [-> ->]; destruct source; cbn in *; rewrite ?Ef, ?El;
       destruct (feed_open s1), (l1_open s1); done).
  - assert (Ho : opens s1 = O) by lia.
    destruct (negb _ && negb _); simplify_eq; (split; [by intros ->|]); by split; [|apply Hend].
  - destruct (negb (feed_open s1) && negb (l1_open s1)) eqn:Eo.
    { simplify_eq. split; [by intros ->|]. split; [done|]. apply Hend. unfold opens.
      by destruct (feed_open s'), (l1_open s'). }
    destruct (wait_for_head _ _ _) as [[w c1] s2] eqn:Ew.
    apply wait_for_head_spec in Ew as (Q2 & Hn & Hw); [|by apply Q|done| |done].
    2: { unfold opens. destruct (feed_open s1), (l1_open s1); cbn in *; done || lia. }
    pose proof (quiet_trans _ _ _ Q Q2) as Q3. destruct w.
    2: { simplify_eq. split; [|done]. intros Hc. by destruct (Hn Hc). }
    apply IH in H as [Hc' H]; [|by apply Q2|destruct Hw as [?|[?|?]]; auto; left; lia].
    split; [intros ->; by apply Hc', Hn|]. destruct sel as [b| |].
    + destruct H as (s4 & first & rest & Q4 & H). exists s4, first, rest.
      split; [by eapply quiet_trans|done].
    + destruct H as [Q4 Hr]. split; [by eapply quiet_trans|]. intros source.
      by rewrite <- (q_remaining _ _ Q3).
    + destruct H as [Q4 ->]. split; [by eapply quiet_trans|done].
Qed.

(** A signal stays a signal. *)
Lemma wait_for_head_signal (fuel : nat) (c c' : CloseSignal) (s s' : IngressScheduler) (w : Woken) :
  wait_for_head fuel c s = (w, c', s') -> c' = None -> c = None.
Proof.
  revert c s. induction fuel as [|fuel IH]; intros c s; unfold wait_for_head; fold wait_for_head;
    (destruct (poll_arm _ s) as [[] s1]; [by intros [= _ <- _]|]);
    (destruct (poll_arm _ s1) as [[] s2]; [by intros [= _ <- _]|]);
    destruct c as [[|n]|]; cbn; intros H ->; try done; try by simplify_eq.
  by apply IH in H.
Qed.

Lemma next_batch_signal (fuel : nat) (ns : Z) (c c' : CloseSignal) (s s' : IngressScheduler)
    (sel : Selected) : next_batch fuel ns c s = (sel, c', s') -> c' = None -> c = None.
Proof.
  revert c s. induction fuel as [|fuel IH]; intros c s; cbn [next_batch];
    (destruct (select_source _ _) as [[[source kind] first]|];
     [destruct (start_batch _ _ _); by intros [= _ <- _]|]);
    (destruct (negb _ && negb _); [by intros [= _ <- _]|]); [by intros [= _ <- _]|].
  destruct (wait_for_head _ _ _) as [[[] c1] s1] eqn:E; intros H Hc.
  - by eapply wait_for_head_signal, IH.
  - simplify_eq. by eapply wait_for_head_signal.
Qed.

(** A batch takes a non-empty run of at most 64 messages off the front of one source. *)
Lemma selected_takes (ns : Z) (b : SelectedBatch) (s s' : IngressScheduler) :
  selected_from ns b s s' ->
  takes (sb_source b) (sb_messages b) s s' /\ sb_messages b <> [] /\
  (length (sb_messages b) <= MAX_MESSAGE_BATCH)%nat.
Proof.
  intros (s1 & first & rest & Q & [Ep _]%select_source_spec & -> & Ht).
  apply (start_batch_spec _ _ first) in Ht as (T & _ & Hl); [|by apply Q|done].
  split_and!; [by eapply quiet_takes|done|done].
Qed.

Lemma opens_le (s : IngressScheduler) : (opens s <= 2)%nat.
Proof. unfold opens. destruct (feed_open s), (l1_open s); cbn; lia. Qed.

(** ** Fairness *)

Lemma complete_batch_wf (source : MessageSource) (kind : BatchKind) (s : IngressScheduler) :
  wf s -> wf (complete_batch source kind s).
Proof.
  intros W. unfold complete_batch. destruct kind; [case_decide|]; try done;
    intros [|]; (by apply (W L1)) || (by apply (W Feed)).
Qed.

Lemma complete_batch_pending (source src : MessageSource) (kind : BatchKind) (s : IngressScheduler) :
  pending_of src (complete_batch source kind s) = pending_of src s /\
  remaining src (complete_batch source kind s) = remaining src s.
Proof. unfold complete_batch. by destruct kind; [case_decide|]; destruct src. Qed.

(** A waiting source is owed the batch after the one that passed it over. *)
Lemma passed_over (ns : Z) (b : SelectedBatch) (s s' : IngressScheduler) :
  selected_from ns b s s' -> is_Some (pending_of (peer (sb_source b)) s') ->
  owed (complete_batch (sb_source b) (sb_kind b) s') = peer (sb_source b).
Proof.
  intros (s1 & first & rest & Q & [Ep Hk]%select_source_spec & _ & Ht) Hp.
  apply (start_batch_spec _ _ first) in Ht as ([] & Epeer & _); [|by apply Q|done].
  rewrite Epeer in Hp. unfold complete_batch. destruct (sb_kind b).
  - rewrite decide_True; [done|]. rewrite t_owed0. auto.
  - by destruct Hk as [-> _].
Qed.

(** A selection passes over a waiting source only when it is not owed or by a gap closer. *)
Lemma owed_is_served (ns : Z) (b : SelectedBatch) (s s' : IngressScheduler) :
  selected_from ns b s s' -> is_Some (pending_of (owed s) s) ->
  sb_source b = owed s \/ sb_kind b = GapCloser.
Proof.
  intros (s1 & first & rest & Q & [Ep Hk]%select_source_spec & _) Hp.
  destruct (sb_kind b); [left|by right].
  destruct (decide (sb_source b = owed s)) as [|Hne]; [done|].
  rewrite <- (q_owed _ _ Q). apply Hk.
  replace (peer (sb_source b)) with (owed s) by (destruct (sb_source b), (owed s); done).
  by rewrite (q_kept _ _ Q).
Qed.

Lemma gap_closer_is_l1 (ns : Z) (b : SelectedBatch) (s s' : IngressScheduler) :
  selected_from ns b s s' -> sb_kind b = GapCloser ->
  sb_source b = L1 /\ exists m, sb_messages b = [m] /\ fm_sequence_number m = ns.
Proof.
  intros (s1 & first & rest & Q & [Ep Hk]%select_source_spec & -> & Ht) E. rewrite E in *.
  destruct Hk as (-> & Hn & _). cbn in Ht. simplify_eq. eauto.
Qed.

(** Arbitration is bounded-fair. Take two consecutive selections of the scheduler. A batch has
    at most 64 messages, and a gap closer is the single L1 message at the driver's cursor, taken in
    front of a feed head beyond it. If L1 had a message waiting when the feed was served, L1 is
    served next; if the feed had one waiting when L1 was served, the feed is served next, unless L1
    holds the very message the feed is waiting for. *)
Theorem bounded_fairness (ns ns' : Z) (c c' c1 c2 : CloseSignal) (s s1 s2 : IngressScheduler)
    (b1 b2 : SelectedBatch) :
  wf s -> next_batch 2 ns c s = (Batch b1, c1, s1) ->
  next_batch 2 ns' c' (complete_batch (sb_source b1) (sb_kind b1) s1) = (Batch b2, c2, s2) ->
  (length (sb_messages b1) <= MAX_MESSAGE_BATCH)%nat /\
  (sb_kind b1 = GapCloser -> sb_source b1 = L1 /\ exists m, sb_messages b1 = [m] /\ fm_sequence_number m = ns) /\
  (sb_source b1 = Feed -> is_Some (l1_pending s1) -> sb_source b2 = L1) /\
  (sb_source b1 = L1 -> is_Some (feed_pending s1) -> sb_source b2 = Feed \/ sb_kind b2 = GapCloser).
Proof.
  intros W H1 H2. apply next_batch_spec in H1 as [_ H1]; [|done|left; apply opens_le].
  destruct (selected_takes _ _ _ _ H1) as ([] & _ & Hl).
  apply next_batch_spec in H2 as [_ H2]; [|by apply complete_batch_wf|left; apply opens_le].
  assert (Hserved : is_Some (pending_of (peer (sb_source b1)) s1) ->
    sb_source b2 = peer (sb_source b1) \/ sb_kind b2 = GapCloser).
  { intros Hp. rewrite <- (passed_over _ _ _ _ H1 Hp). eapply owed_is_served; [exact H2|].
    rewrite (passed_over _ _ _ _ H1 Hp). by rewrite (proj1 (complete_batch_pending _ _ _ _)). }
  split; [done|]. split; [by eapply gap_closer_is_l1|]. split.
  - intros E Hp. rewrite E in Hserved. destruct (Hserved Hp) as [|Hg]; [done|].
    by apply gap_closer_is_l1 in H2 as [? _].
  - intros E Hp. rewrite E in Hserved. by apply Hserved.
Qed.

(** ** Closing the input *)

(** Everything the channel will deliver has already been sent. *)
Definition all_queued (rx : Receiver) : Prop := ~ In NotYet rx.

Lemma close_cut (rx : Receiver) :
  arrivals rx = arrivals (close rx) ++ late rx /\ (all_queued rx -> late rx = []).
Proof.
  induction rx as [|[m|] rx [Hc Hq]]; cbn; [done|..].
  - rewrite <- Hc. split; [done|]. intros H. apply Hq. intros Hn. apply H. by right.
  - split; [done|]. intros []. by left.
Qed.

Lemma filter_twice {A : Type} (f : A -> bool) (l : list A) :
  List.filter f (List.filter f l) = List.filter f l.
Proof.
  induction l as [|a l IH]; [done|]. cbn. destruct (f a) eqn:E; [|done]. cbn. by rewrite E, IH.
Qed.

(** Closing keeps the bounded messages that were queued, and those only. *)
Lemma close_l1_input_spec (m : Z) (s : IngressScheduler) :
  wf s ->
  wf (close_l1_input m s) /\ l1_messages (close_l1_input m s) = [] /\
  remaining Feed (close_l1_input m s) = remaining Feed s /\
  incl (remaining L1 (close_l1_input m s)) (remaining L1 s) /\
  (length (remaining L1 (close_l1_input m s)) <= length (remaining L1 s))%nat /\
  List.filter (within m) (remaining L1 s)
    = List.filter (within m) (remaining L1 (close_l1_input m s)) ++
      List.filter (within m) (late (l1_messages s)) /\
  (all_queued (l1_messages s) -> late (l1_messages s) = []).
Proof.
  intros W. destruct (close_cut (l1_messages s)) as [Hc Hq]. set (cut := late (l1_messages s)) in *.
  set (kept := List.filter (within m) (arrivals (close (l1_messages s)))).
  assert (Hrem : remaining L1 (close_l1_input m s) =
    List.filter (within m) (option_list (l1_pending s)) ++ l1_buffered s ++ kept).
  { unfold remaining, close_l1_input. cbn. rewrite app_nil_r. f_equal.
    destruct (l1_pending s) as [p|]; [|done]. cbn. unfold within. rewrite Z.leb_antisym.
    by destruct (m <? fm_sequence_number p). }
  assert (Hs : remaining L1 s =
    option_list (l1_pending s) ++ l1_buffered s ++ arrivals (close (l1_messages s)) ++ cut)
    by (by rewrite <- Hc).
  rewrite Hrem, Hs. split_and!.
  - intros [|] H; [|by apply (W Feed)]. cbn in *. apply negb_false_iff, bool_decide_eq_true in H. done.
  - done.
  - done.
  - intros x. rewrite !in_app_iff. unfold kept. rewrite !filter_In. tauto.
  - rewrite !length_app. pose proof (List.filter_length_le (within m) (option_list (l1_pending s))).
    pose proof (List.filter_length_le (within m) (arrivals (close (l1_messages s)))). unfold kept. lia.
  - unfold kept. rewrite !List.filter_app, !filter_twice, <- !app_assoc. done.
  - done.
Qed.

(** ** The loop's invariant *)

(** The state [launch_impl] starts the loop in; [close_at] matters to a finite run only. *)
Definition launched {EN : Engine} (mode : ArbLaunchMode) (genesis_block : Z) (head : SealedHeader)
    (feed l1 : Receiver) (close_at : nat) : DriveState := {|
  ds_scheduler := if is_serving mode then IngressScheduler_new feed l1 else l1_only l1;
  ds_driver := spawned head genesis_block;
  ds_close := if is_serving mode then None else Some close_at;
  ds_handed := []; ds_rejected := []
|}.

(** The finite bound is checked first, then the loop runs. *)
Definition launch_and_drive {EN : Engine} (fuel : nat) (mode : ArbLaunchMode) (genesis_block : Z)
    (head : SealedHeader) (feed l1 : Receiver) (close_at : nat)
    : option (result DriveError DriveState) :=
  match finite_max_sequence mode genesis_block with
  | Err e => Some (Err (Admission e))
  | Ok max_sequence =>
      drive_loop mode genesis_block max_sequence fuel
        (launched mode genesis_block head feed l1 close_at)
  end.

(** The messages handed to the driver from one source, in order. *)
Definition handed_from (source : MessageSource) (handed : list Handoff) : list BroadcastFeedMessage :=
  map (fun h => fst (snd h)) (List.filter (fun h => bool_decide (fst h = source)) handed).

Definition admitted (mode : ArbLaunchMode) (genesis_block : Z) (m : BroadcastFeedMessage) : bool :=
  match mode with
  | Ordinary => true
  | Finite frontier => fm_sequence_number m + genesis_block <=? frontier
  end.

(** A list that belongs to one source. *)
Definition only (source : MessageSource) (l : list BroadcastFeedMessage) (src : MessageSource)
    : list BroadcastFeedMessage :=
  match source, src with
  | L1, L1 | Feed, Feed => l
  | _, _ => []
  end.

Lemma handed_from_app (source : MessageSource) (l k : list Handoff) :
  handed_from source (l ++ k) = handed_from source l ++ handed_from source k.
Proof. unfold handed_from. by rewrite List.filter_app, map_app. Qed.

(** Once a finite bound has been computed, only an overflowing sequence number is an error. *)
Lemma admit_total (mode : ArbLaunchMode) (genesis_block seq : Z) (max_sequence : option Z) :
  finite_max_sequence mode genesis_block = Ok max_sequence -> seq + genesis_block <= U64_MAX ->
  exists a, admit_engine_handoff mode seq genesis_block = Ok a.
Proof.
  intros Hm Hs. unfold admit_engine_handoff, checked_add. rewrite (proj2 (Z.leb_le _ _)) by lia.
  cbn [ok_or rbind]. destruct mode as [|f]; [by eexists|]. unfold finite_handoff_admission.
  unfold finite_max_sequence, checked_sub in Hm. cbn in Hm.
  destruct (Z.leb_spec genesis_block f); [|done]. rewrite (proj2 (Z.ltb_ge _ _)) by lia.
  case_match; by eexists.
Qed.

Section DriveInvariant.
Context {EN : Engine}.
Variables (mode : ArbLaunchMode) (genesis_block : Z) (max_sequence : option Z).
Hypothesis max_sequence_ok : finite_max_sequence mode genesis_block = Ok max_sequence.
Variables (head : SealedHeader) (feed l1 : Receiver) (close_at : nat).

Let st0 := launched mode genesis_block head feed l1 close_at.
Let rx0 (source : MessageSource) : Receiver := rx_of source (ds_scheduler st0).
Let adm := admitted mode genesis_block.

Lemma finite_bound (f : Z) : mode = Finite f -> max_sequence = Some (f - genesis_block) /\ genesis_block <= f.
Proof.
  intros E. unfold finite_max_sequence, checked_sub in max_sequence_ok. rewrite E in *. cbn in *.
  destruct (Z.leb_spec genesis_block f); cbn in *; [|done]. by simplify_eq.
Qed.

(** Every message of a source is accounted for: handed over, in the batch being handed over, still
    to be taken, or rejected by the close; rejected messages come last. *)
Record drive_inv (source : MessageSource) (batch cut : list BroadcastFeedMessage) (st : DriveState)
    : Prop := {
  di_wf : wf (ds_scheduler st);
  di_messages : forall src, List.filter adm (arrivals (rx0 src)) =
    handed_from src (ds_handed st) ++ List.filter adm (only source batch src) ++
    List.filter adm (remaining src (ds_scheduler st)) ++ List.filter adm (only L1 cut src);
  di_from : forall src, incl (only source batch src ++ remaining src (ds_scheduler st)) (arrivals (rx0 src));
  di_admitted : forall h, In h (ds_handed st) -> adm (fst (snd h)) = true;
  di_mode : ds_close st = None <-> mode = Ordinary;
  di_cut : mode = Ordinary \/ all_queued l1 -> cut = [];
  di_queued : all_queued l1 -> all_queued (l1_messages (ds_scheduler st));
  di_driver : drive (map snd (ds_handed st)) (ds_driver st0) = Ok (ds_driver st);
  di_rejected : cut = ds_rejected st
}.

Lemma drive_inv_start : drive_inv L1 [] [] st0.
Proof.
  split.
  - unfold st0, launched. cbn. by destruct mode; intros [|].
  - intros src. cbn [launched st0 ds_handed]. unfold remaining, rx0, st0, launched.
    cbn [ds_scheduler ds_handed]. destruct mode, src; cbn; by rewrite ?app_nil_r.
  - intros src m. unfold remaining, rx0, st0, launched. cbn [ds_scheduler].
    destruct mode, src; cbn; done.
  - done.
  - cbn. by destruct mode.
  - done.
  - unfold st0, launched. cbn. by destruct mode.
  - done.
  - done.
Qed.

Lemma suffix_queued (rx rx' : Receiver) : rx' `suffix_of` rx -> all_queued rx -> all_queued rx'.
Proof. intros [k ->] H Hin. apply H. apply in_app_iff. by right. Qed.

(** Selecting nothing, and polling the signal. *)
Lemma drive_inv_quiet (source : MessageSource) (batch cut : list BroadcastFeedMessage)
    (st : DriveState) (c : CloseSignal) (s : IngressScheduler) :
  drive_inv source batch cut st -> quiet (ds_scheduler st) s -> (c = None <-> ds_close st = None) ->
  drive_inv source batch cut (with_parts st c s).
Proof.
  intros [] Q Hc. split; cbn [with_parts ds_scheduler ds_handed ds_close ds_driver ds_rejected]; try done.
  - apply Q.
  - intros src. by rewrite (q_remaining _ _ Q).
  - intros src. by rewrite (q_remaining _ _ Q).
  - by rewrite Hc.
  - intros H. eapply (suffix_queued _ _ (q_rx _ _ Q L1)). auto.
Qed.

Lemma drive_inv_takes (source src : MessageSource) (cut taken : list BroadcastFeedMessage)
    (st : DriveState) (c : CloseSignal) (s : IngressScheduler) :
  drive_inv src [] cut st -> takes source taken (ds_scheduler st) s ->
  (c = None <-> ds_close st = None) -> drive_inv source taken cut (with_parts st c s).
Proof.
  intros [] [W O T P N R] Hc.
  assert (Hrem : forall x, remaining x (ds_scheduler st) = only source taken x ++ remaining x s).
  { intros x. destruct source, x; cbn [only peer] in *; done. }
  assert (Hnil : forall x, only src [] x = []) by (by destruct src; intros [|]).
  split; cbn [with_parts ds_scheduler ds_handed ds_close ds_driver ds_rejected]; try done.
  - intros x. rewrite di_messages0, Hnil, Hrem, List.filter_app, <- !app_assoc. done.
  - intros x. by rewrite <- Hrem, <- (app_nil_l (remaining _ _)), <- (Hnil x).
  - by rewrite Hc.
  - intros H. eapply (suffix_queued _ _ (R L1)). auto.
Qed.

Definition total (s : IngressScheduler) : nat := (length (remaining Feed s) + length (remaining L1 s))%nat.

(** The turn the close signal may still cost. *)
Definition turns_owed (c : CloseSignal) : nat := match c with Some (S _) => 1 | _ => 0 end.

(** A step of the loop that hands nothing over. *)
Record moves (st st' : DriveState) : Prop := {
  mv_driver : ds_driver st' = ds_driver st;
  mv_handed : ds_handed st' = ds_handed st;
  mv_total : (total (ds_scheduler st') <= total (ds_scheduler st))%nat;
  mv_close : (turns_owed (ds_close st') <= turns_owed (ds_close st))%nat
}.

Lemma within_admitted (f : Z) (l : list BroadcastFeedMessage) :
  mode = Finite f -> List.filter (within (f - genesis_block)) l = List.filter adm l.
Proof.
  intros E. apply List.filter_ext. intros m. unfold adm, admitted, within. rewrite E.
  apply eq_true_iff_eq. rewrite !Z.leb_le. lia.
Qed.

Lemma finite_mode (st : DriveState) (source : MessageSource) (batch cut : list BroadcastFeedMessage) :
  drive_inv source batch cut st -> ds_close st <> None -> exists f, mode = Finite f.
Proof. intros [] H. rewrite di_mode0 in H. destruct mode as [|f]; [done|by exists f]. Qed.

Lemma close_input_inv (source : MessageSource) (batch cut : list BroadcastFeedMessage)
    (st : DriveState) :
  drive_inv source batch cut st -> ds_close st <> None ->
  exists st' cut', close_input max_sequence st = Ok st' /\ drive_inv source batch cut' st' /\
    moves st st' /\ ds_close st' = ds_close st.
Proof.
  intros Hi Hc. destruct (finite_mode _ _ _ _ Hi Hc) as [f Em]. destruct Hi.
  unfold close_input. destruct (finite_bound f Em) as [Emax _]. rewrite Emax.
  destruct (close_l1_input_spec (f - genesis_block) (ds_scheduler st) di_wf0)
    as (W & Erx & Ef & Hincl & Hlen & Hcut & Hq).
  rewrite !(within_admitted f _ Em) in Hcut.
  eexists _, (late (l1_messages (ds_scheduler st)) ++ cut). split; [done|].
  set (s' := close_l1_input (f - genesis_block) (ds_scheduler st)) in *.
  split; [|split; [|done]].
  - split; cbn [with_parts ds_scheduler ds_handed ds_close ds_driver ds_rejected]; try done.
    + intros src. rewrite di_messages0. do 2 f_equal. destruct src; cbn [only].
      * rewrite Hcut, List.filter_app, <- app_assoc. done.
      * by rewrite Ef.
    + intros src m Hm. apply di_from0. rewrite in_app_iff in *. destruct Hm as [Hm|Hm]; [by left|right].
      destruct src; [by apply Hincl|by rewrite <- Ef].
    + intros [H|H]; [congruence|]. rewrite di_cut0 by (by right). rewrite Hq by auto. done.
    + intros _. rewrite Erx. by intros [].
    + by rewrite di_rejected0.
  - split; cbn [with_parts ds_scheduler ds_handed ds_close ds_driver ds_rejected]; try done.
    unfold total. rewrite Ef. lia.
Qed.

Lemma close_if_signalled_inv (source : MessageSource) (batch cut : list BroadcastFeedMessage)
    (st : DriveState) :
  drive_inv source batch cut st ->
  exists st' cut', close_if_signalled max_sequence st = Ok st' /\ drive_inv source batch cut' st' /\
    moves st st' /\ (ds_close st = None \/ ds_close st = Some O -> ds_close st' = ds_close st).
Proof.
  intros Hi. unfold close_if_signalled. pose proof (quiet_refl _ (di_wf _ _ _ _ Hi)) as Q.
  destruct (poll_close (ds_close st)) as [closed c] eqn:Ec.
  assert (Hi' : drive_inv source batch cut (with_parts st c (ds_scheduler st))).
  { apply drive_inv_quiet; [done|done|]. destruct (ds_close st) as [[|n]|]; cbn in Ec; by simplify_eq. }
  assert (Hm : moves st (with_parts st c (ds_scheduler st))).
  { split; try done. destruct (ds_close st) as [[|[|n]]|]; cbn in *; simplify_eq; cbn; lia. }
  assert (Hs : ds_close st = None \/ ds_close st = Some O -> c = ds_close st).
  { destruct (ds_close st) as [[|n]|]; cbn in *; simplify_eq; intros []; congruence. }
  destruct closed; [|by exists (with_parts st c (ds_scheduler st)), cut].
  destruct (close_input_inv _ _ _ _ Hi') as (st' & cut' & -> & Hi2 & [] & Hc2).
  { destruct (ds_close st) as [[|n]|]; cbn in *; by simplify_eq. }
  exists st', cut'. split; [done|]. split; [done|]. destruct Hm. cbn in *. split; [|by rewrite Hc2].
  split; congruence || lia.
Qed.

(** ** Handing a batch over *)

Lemma admit_spec (seq : Z) (a : EngineHandoffAdmission) (m : BroadcastFeedMessage) :
  fm_sequence_number m = seq -> admit_engine_handoff mode seq genesis_block = Ok a ->
  match a with
  | AdmittedBlock block_number => adm m = true /\ block_number = seq + genesis_block
  | RejectedAboveFrontier _ _ => adm m = false
  end.
Proof.
  intros <- H. unfold admit_engine_handoff, finite_handoff_admission, checked_add in H.
  unfold adm, admitted. apply rbind_Ok in H as (n & Hn%ok_or_Ok & H). if_inv Hn. simplify_eq.
  destruct mode as [|f]; [by simplify_eq|]. if_inv H; simplify_eq.
  - apply Z.leb_gt. by apply Z.ltb_lt.
  - split; [|done]. apply Z.leb_le. by apply Z.ltb_ge.
Qed.

Lemma handed_from_snoc (src source : MessageSource) (h : list Handoff) (m : BroadcastFeedMessage) (more : bool) :
  handed_from src (h ++ [(source, (m, more))]) = handed_from src h ++ only source [m] src.
Proof. rewrite handed_from_app. f_equal. by destruct src, source. Qed.

Lemma drive_snoc (l : list (BroadcastFeedMessage * bool)) (m : BroadcastFeedMessage) (more : bool)
    (d d1 d2 : ArbEngineDriver) (h : Z) :
  drive l d = Ok d1 -> advance_with_applied_inner m more d1 = Ok (h, d2) ->
  drive (l ++ [(m, more)]) d = Ok d2.
Proof. intros H1 H2. unfold drive in *. rewrite try_fold_snoc, H1. cbn. by rewrite H2. Qed.

(** What a turn leaves to do. *)
Definition shrinks (st st' : DriveState) : Prop :=
  (total (ds_scheduler st') <= total (ds_scheduler st))%nat /\
  (turns_owed (ds_close st') <= turns_owed (ds_close st))%nat.

Lemma hand_over_inv (source : MessageSource) (m : BroadcastFeedMessage) (more : bool)
    (batch cut : list BroadcastFeedMessage) (st st' : DriveState) :
  drive_inv source (m :: batch) cut st ->
  hand_over mode genesis_block max_sequence source st (m, more) = Ok st' ->
  exists cut', drive_inv source batch cut' st' /\ shrinks st st'.
Proof.
  intros Hi H. destruct (close_if_signalled_inv _ _ _ _ Hi) as (st1 & cut' & E1 & [] & [] & _).
  unfold hand_over in H. rewrite E1 in H. cbn [rbind] in H.
  apply rbind_Ok in H as (a & Ha%map_err_Ok & H). apply (admit_spec _ _ m) in Ha; [|done].
  assert (Hincl : forall src, incl (only source batch src ++ remaining src (ds_scheduler st1)) (arrivals (rx0 src))).
  { intros src x Hx. apply di_from0. destruct source, src; cbn [only] in *; rewrite ?in_app_iff in *; cbn; tauto. }
  exists cut'. destruct a as [n|n f].
  - destruct Ha as [Ha _]. apply rbind_Ok in H as ([h d] & Hd%map_err_Ok & H). simplify_eq.
    split; [|done]. split; cbn [ds_scheduler ds_handed ds_driver ds_close]; try done.
    + intros src. rewrite di_messages0, handed_from_snoc, <- !app_assoc. f_equal.
      destruct source, src; cbn [only List.filter app]; by rewrite ?Ha.
    + intros x [Hx|[<-|[]]]%in_app_iff; [by apply di_admitted0|done].
    + rewrite map_app. by eapply drive_snoc.
  - simplify_eq. split; [|done]. split; try done.
    intros src. rewrite di_messages0. do 2 f_equal.
    destruct source, src; cbn [only List.filter]; by rewrite ?Ha.
Qed.

Lemma hand_over_batch_inv (source : MessageSource) (batch cut : list BroadcastFeedMessage)
    (st st' : DriveState) :
  drive_inv source batch cut st ->
  try_fold (hand_over mode genesis_block max_sequence source) (overlapped batch) st = Ok st' ->
  exists cut', drive_inv source [] cut' st' /\ shrinks st st'.
Proof.
  revert st cut. induction batch as [|m batch IH]; intros st cut Hi H; cbn [overlapped try_fold] in H.
  - simplify_eq. by exists cut.
  - apply rbind_Ok in H as (st1 & H1 & H).
    destruct (hand_over_inv _ _ _ _ _ _ _ Hi H1) as (cut1 & Hi1 & Hs1).
    destruct (IH _ _ Hi1 H) as (cut2 & Hi2 & Hs2). exists cut2. split; [done|].
    unfold shrinks in *. lia.
Qed.

(** ** Selecting and looping *)

Lemma next_batch_inv (ns : Z) (source : MessageSource) (cut : list BroadcastFeedMessage)
    (c c' c2 : CloseSignal) (st : DriveState) (sel : Selected) (s : IngressScheduler) :
  drive_inv source [] cut st -> next_batch 2 ns c (ds_scheduler st) = (sel, c', s) ->
  (c2 = None <-> ds_close st = None) ->
  match sel with
  | Batch b => drive_inv (sb_source b) (sb_messages b) cut (with_parts st c2 s) /\
               (total s < total (ds_scheduler st))%nat
  | Ended => drive_inv source [] cut (with_parts st c2 s) /\ forall src, remaining src s = []
  | Interrupted => drive_inv source [] cut (with_parts st c2 s) /\ total s = total (ds_scheduler st)
  end.
Proof.
  intros Hi H Hc. apply next_batch_spec in H as [_ H]; [|apply Hi|left; apply opens_le].
  destruct sel as [b| |].
  - apply selected_takes in H as (T & Hne & _). split; [by eapply drive_inv_takes|].
    destruct T as [_ _ T P _ _]. unfold total. destruct (sb_messages b) as [|m rest]; [done|].
    apply (f_equal length) in T. rewrite length_app in T. cbn [length] in T.
    apply (f_equal length) in P. destruct (sb_source b); cbn in P; lia.
  - destruct H as [Q Hr]. split; [by apply drive_inv_quiet|]. intros src. rewrite (q_remaining _ _ Q). apply Hr.
  - destruct H as [Q _]. split; [by apply drive_inv_quiet|]. unfold total. by rewrite !(q_remaining _ _ Q).
Qed.

Lemma select_batch_inv (ns : Z) (source : MessageSource) (cut : list BroadcastFeedMessage)
    (st st' : DriveState) (sel : Selected) :
  drive_inv source [] cut st -> select_batch ns st = (sel, st') ->
  (turns_owed (ds_close st') <= turns_owed (ds_close st))%nat /\
  match sel with
  | Batch b => drive_inv (sb_source b) (sb_messages b) cut st' /\
               (total (ds_scheduler st') < total (ds_scheduler st))%nat
  | Ended => drive_inv source [] cut st' /\ forall src, remaining src (ds_scheduler st') = []
  | Interrupted => drive_inv source [] cut st' /\ ds_close st' = Some O /\
                   total (ds_scheduler st') = total (ds_scheduler st) /\
                   turns_owed (ds_close st) = 1%nat
  end.
Proof.
  intros Hi H. unfold select_batch in H. destruct (ds_close st) as [n|] eqn:Ec.
  2: { destruct (next_batch _ _ _ _) as [[sel' c'] s] eqn:En. simplify_eq.
       pose proof En as En'. apply next_batch_spec in En' as [Hn _]; [|apply Hi|left; apply opens_le].
       destruct (Hn eq_refl) as [_ Hni].
       eapply (next_batch_inv _ _ _ _ _ None) in En; [|done|done]. split; [done|].
       by destruct sel as [b| |]. }
  destruct n as [|n]; cbn [poll_close] in H.
  - destruct (next_batch _ _ _ _) as [[sel' c'] s] eqn:En. simplify_eq.
    pose proof En as En'. apply next_batch_spec in En' as [Hn _]; [|apply Hi|left; apply opens_le].
    destruct (Hn eq_refl) as [_ Hni].
    eapply (next_batch_inv _ _ _ _ _ (Some O)) in En; [|done|by rewrite Ec]. split; [done|].
    by destruct sel as [b| |].
  - destruct n as [|n]; cbn [poll_close] in H.
    { simplify_eq. split; [cbn; lia|]. split; [|done].
      apply drive_inv_quiet; [done|by apply quiet_refl, Hi|by rewrite Ec]. }
    destruct (next_batch _ _ _ _) as [[sel' c'] s] eqn:En. simplify_eq.
    pose proof (next_batch_signal _ _ _ _ _ _ _ En) as Hs.
    pose proof En as En'. apply next_batch_spec in En' as [_ Hn]; [|apply Hi|left; apply opens_le].
    eapply (next_batch_inv _ _ _ _ _ c') in En; [|done|rewrite Ec; split; [by intros ?%Hs|done]].
    split; [cbn; destruct c' as [[|]|]; cbn; lia|]. destruct sel as [b| |]; [done|done|].
    destruct En as [? ?], Hn as [_ ->]. done.
Qed.

(** ** Runs that do not fail *)

(** Reth numbers a payload after its parent. *)
Definition numbered : Prop :=
  forall p a b, build_payload p a = Ok b -> sh_number (eb_header b) = sh_number p + 1.

Lemma chain_tip_number (parent : SealedHeader) (n : Z) (l : list applied) :
  numbered -> chain parent n l -> sh_number (chain_tip parent l) = sh_number parent + Z.of_nat (length l).
Proof.
  intros Hn. revert parent n. induction l as [|[m b] l IH]; intros parent n Hc; cbn; [lia|].
  destruct Hc as (_ & Hb & Hc). rewrite (IH _ _ Hc), (Hn _ _ _ Hb). lia.
Qed.

(** The engine answers and numbers its blocks, the chain starts at or above genesis, and the
    sequence numbers received are block numbers in range. *)
Record clean : Prop := {
  cl_healthy : healthy;
  cl_numbered : numbered;
  cl_genesis : 0 <= genesis_block <= sh_number head;
  cl_head : sh_number head - genesis_block < U64_MAX;
  cl_messages : forall m, In m (arrivals feed ++ arrivals l1) ->
    0 <= fm_sequence_number m < U64_MAX /\ fm_sequence_number m + genesis_block <= U64_MAX
}.

Lemma rx0_arrives (src : MessageSource) (m : BroadcastFeedMessage) :
  In m (arrivals (rx0 src)) -> In m (arrivals feed ++ arrivals l1).
Proof.
  unfold rx0, st0, launched. cbn [ds_scheduler]. rewrite in_app_iff.
  destruct (is_serving mode), src; cbn; tauto.
Qed.

Lemma handed_arrived (source : MessageSource) (batch cut : list BroadcastFeedMessage)
    (st : DriveState) (m : BroadcastFeedMessage) :
  drive_inv source batch cut st -> In m (map fst (map snd (ds_handed st))) ->
  exists src, In m (arrivals (rx0 src)).
Proof.
  intros [] Hm. rewrite map_map in Hm. apply in_map_iff in Hm as ([src [m' more]] & <- & Hh).
  exists src. cbn. enough (In m' (List.filter adm (arrivals (rx0 src)))) as H by (by apply filter_In in H as [H _]).
  rewrite di_messages0, in_app_iff. left. unfold handed_from. apply in_map_iff.
  exists (src, (m', more)). split; [done|]. apply filter_In. split; [done|]. by apply bool_decide_eq_true.
Qed.

Lemma spawned_cursor : clean -> next_seq (ds_driver st0) = sh_number head - genesis_block + 1.
Proof.
  intros []. cbn. unfold saturating_sub. rewrite Z.max_r by lia. apply wrap64_small.
  unfold is_u64, U64_MAX in *. lia.
Qed.

(** What the loop has applied is a chain of the messages handed over, block by block. *)
Lemma driver_chain (source : MessageSource) (batch cut : list BroadcastFeedMessage) (st : DriveState) :
  clean -> drive_inv source batch cut st ->
  exists l, run_inv (ds_driver st0) (map fst (map snd (ds_handed st))) l (ds_driver st) /\
    sh_number (tip (ds_driver st)) = sh_number head + Z.of_nat (length l) /\
    next_seq (ds_driver st) = sh_number (tip (ds_driver st)) - genesis_block + 1 /\
    next_seq (ds_driver st) <= U64_MAX.
Proof.
  intros Hcl Hi. pose proof (spawned_cursor Hcl) as Hcur. destruct Hcl.
  assert (Hseq : sequences_ok (map snd (ds_handed st))).
  { intros m Hm. destruct (handed_arrived _ _ _ _ _ Hi Hm) as (src & Hsrc). by apply cl_messages0, (rx0_arrives src). }
  destruct (drive_spec head genesis_block _ _ Hseq (di_driver _ _ _ _ Hi)) as (l & Hl & _).
  change (spawned head genesis_block) with (ds_driver st0) in Hl. exists l. split; [done|].
  destruct Hl. rewrite ri_tip, (chain_tip_number _ _ _ cl_numbered0 ri_chain). cbn [tip ds_driver st0 launched spawned].
  split; [done|]. split; [lia|]. rewrite ri_seq, Hcur.
  destruct (decide (length l = O)) as [->|Hne]; [lia|].
  destruct (chain_lookup _ _ _ (length l - 1) ri_chain ltac:(lia)) as (a & Ha & Hs).
  rewrite List.Forall_forall in ri_from. specialize (ri_from _ Ha).
  destruct (Hseq _ ri_from). lia.
Qed.

Lemma next_sequence_total (source : MessageSource) (batch cut : list BroadcastFeedMessage)
    (st : DriveState) :
  clean -> drive_inv source batch cut st ->
  exists ns, next_driver_sequence (sh_number (tip (ds_driver st))) genesis_block = Ok ns.
Proof.
  intros Hcl Hi. destruct (driver_chain _ _ _ _ Hcl Hi) as (l & _ & Ht & Hn & Hb). destruct Hcl.
  unfold next_driver_sequence, checked_sub, checked_add.
  rewrite (proj2 (Z.leb_le _ _)) by lia. cbn. rewrite (proj2 (Z.leb_le _ _)) by lia. by eexists.
Qed.

Lemma hand_over_total (source : MessageSource) (m : BroadcastFeedMessage) (more : bool)
    (batch cut : list BroadcastFeedMessage) (st : DriveState) :
  clean -> drive_inv source (m :: batch) cut st ->
  exists st', hand_over mode genesis_block max_sequence source st (m, more) = Ok st'.
Proof.
  intros [] Hi. destruct (close_if_signalled_inv _ _ _ _ Hi) as (st1 & cut' & E1 & Hi1 & _).
  unfold hand_over. rewrite E1. cbn [rbind].
  destruct (cl_messages0 m) as [Hs Hg].
  { apply (rx0_arrives source), (di_from _ _ _ _ Hi). destruct source; cbn; auto. }
  assert (Ha : exists a, admit_engine_handoff mode (fm_sequence_number m) genesis_block = Ok a).
  { by eapply admit_total. }
  destruct Ha as [a ->]. cbn [map_err rbind]. destruct a; [|by eexists].
  destruct (advance_total m more (ds_driver st1) cl_healthy0) as (h & d & ->). by eexists.
Qed.

Lemma hand_over_batch_total (source : MessageSource) (batch cut : list BroadcastFeedMessage)
    (st : DriveState) :
  clean -> drive_inv source batch cut st ->
  exists st', try_fold (hand_over mode genesis_block max_sequence source) (overlapped batch) st = Ok st'.
Proof.
  intros Hcl. revert st cut. induction batch as [|m batch IH]; intros st cut Hi; cbn [overlapped try_fold].
  - by eexists.
  - edestruct (hand_over_total source m) as [st1 E]; [done|exact Hi|]. rewrite E. cbn [rbind].
    destruct (hand_over_inv _ _ _ _ _ _ _ Hi E) as (cut1 & Hi1 & _). by eapply IH.
Qed.

Lemma drive_inv_complete (source src : MessageSource) (kind : BatchKind)
    (cut : list BroadcastFeedMessage) (st : DriveState) :
  drive_inv src [] cut st ->
  drive_inv src [] cut (with_parts st (ds_close st) (complete_batch source kind (ds_scheduler st))).
Proof.
  intros []. split; cbn [with_parts ds_scheduler ds_handed ds_close ds_driver ds_rejected]; try done.
  - by apply complete_batch_wf.
  - intros x. by rewrite (proj2 (complete_batch_pending _ _ _ _)).
  - intros x. by rewrite (proj2 (complete_batch_pending _ _ _ _)).
  - intros H. unfold complete_batch. destruct kind; [case_decide|]; by apply di_queued0.
Qed.

(** The loop ends within a turn per message, one for the close signal and one for the end; it ends
    with both sources drained, or with an error that a clean run does not have. *)
Lemma drive_loop_spec (fuel : nat) (source : MessageSource) (cut : list BroadcastFeedMessage)
    (st : DriveState) :
  drive_inv source [] cut st ->
  (total (ds_scheduler st) + turns_owed (ds_close st) < fuel)%nat ->
  exists r, drive_loop mode genesis_block max_sequence fuel st = Some r /\
    (clean -> exists st', r = Ok st') /\
    forall st', r = Ok st' -> exists src cut', drive_inv src [] cut' st' /\
      forall x, remaining x (ds_scheduler st') = [].
Proof.
  revert source cut st. induction fuel as [|fuel IH]; intros source cut st Hi Hfuel; [lia|].
  cbn [drive_loop].
  destruct (next_driver_sequence _ _) as [ns|e] eqn:Ens.
  2: { eexists. split; [done|]. split; [|done]. intros Hcl.
       destruct (next_sequence_total _ _ _ _ Hcl Hi) as [ns H]. congruence. }
  destruct (close_if_signalled_inv _ _ _ _ Hi) as (st1 & cut1 & -> & Hi1 & [_ _ Ht1 Hc1] & _).
  destruct (select_batch ns st1) as [sel st2] eqn:Es.
  apply (select_batch_inv _ _ _ _ _ _ Hi1) in Es as [Hc2 Es]. destruct sel as [b| |].
  - destruct Es as [Hi2 Ht2].
    destruct (try_fold _ _ _) as [st3|e] eqn:Ef.
    2: { eexists. split; [done|]. split; [|done]. intros Hcl.
         destruct (hand_over_batch_total _ _ _ _ Hcl Hi2) as [st3 H]. congruence. }
    destruct (hand_over_batch_inv _ _ _ _ _ Hi2 Ef) as (cut3 & Hi3 & Ht3 & Hc3).
    apply (IH (sb_source b) cut3); [by apply drive_inv_complete|].
    unfold total in *. cbn [with_parts ds_scheduler ds_close].
    rewrite !(proj2 (complete_batch_pending _ _ _ _)). lia.
  - destruct Es as [Hi2 Hr]. eexists. split; [done|]. split; [by eexists|].
    intros st' [= <-]. by exists source, cut1.
  - destruct Es as (Hi2 & Ec & Ht2 & Ho). rewrite Ec in Hc2.
    destruct (close_input_inv _ _ _ _ Hi2) as (st3 & cut3 & -> & Hi3 & [_ _ Ht3 _] & Hc3).
    { by rewrite Ec. }
    apply (IH source cut3); [done|]. rewrite Hc3, Ec. cbn. lia.
Qed.
End DriveInvariant.

(** ** Whole runs *)

Section Runs.
Context {EN : Engine}.
Variables (genesis_block : Z) (head : SealedHeader).

(** A turn per message, one for the close signal, one for the end. *)
Definition enough (feed l1 : Receiver) : nat := (length (arrivals feed) + length (arrivals l1) + 2)%nat.

(** A run from launch: it ends, and every message is accounted for. *)
Lemma launch_and_drive_spec (mode : ArbLaunchMode) (max_sequence : option Z) (feed l1 : Receiver)
    (close_at : nat) :
  finite_max_sequence mode genesis_block = Ok max_sequence ->
  exists r, launch_and_drive (enough feed l1) mode genesis_block head feed l1 close_at = Some r /\
    (clean genesis_block head feed l1 -> exists st', r = Ok st') /\
    forall st', r = Ok st' -> exists src cut,
      drive_inv mode genesis_block head feed l1 close_at src [] cut st' /\
      forall x, remaining x (ds_scheduler st') = [].
Proof.
  intros Hm. unfold launch_and_drive. rewrite Hm.
  apply (drive_loop_spec mode genesis_block max_sequence Hm head feed l1 close_at _ L1 []).
  - by eapply drive_inv_start.
  - unfold enough, total, remaining, launched. cbn [ds_scheduler ds_close].
    destruct mode; cbn; [lia|destruct close_at; lia].
Qed.

Lemma filter_all {A : Type} (f : A -> bool) (l : list A) :
  (forall a, f a = true) -> List.filter f l = l.
Proof. intros H. induction l as [|a l IH]; [done|]. cbn. by rewrite H, IH. Qed.

Lemma ordinary_run (feed l1 : Receiver) :
  clean genesis_block head feed l1 ->
  exists st, launch_and_drive (enough feed l1) Ordinary genesis_block head feed l1 0 = Some (Ok st) /\
    handed_from Feed (ds_handed st) = arrivals feed /\ handed_from L1 (ds_handed st) = arrivals l1 /\
    drive (map snd (ds_handed st)) (spawned head genesis_block) = Ok (ds_driver st).
Proof.
  intros Hcl. destruct (launch_and_drive_spec Ordinary None feed l1 0 eq_refl) as (r & Hr & Hok & Hinv).
  destruct (Hok Hcl) as [st ->]. destruct (Hinv st eq_refl) as (src & cut & [] & Hrem).
  exists st. split; [done|]. rewrite di_cut0 in di_messages0 by (by left).
  assert (H : forall x, arrivals (rx_of x (ds_scheduler (launched Ordinary genesis_block head feed l1 0)))
              = handed_from x (ds_handed st)).
  { intros x. specialize (di_messages0 x). rewrite Hrem in di_messages0.
    rewrite !filter_all in di_messages0 by done. rewrite di_messages0.
    destruct src, x; cbn; by rewrite app_nil_r. }
  split_and!; [by rewrite <- H..|done].
Qed.

Lemma handed_split (handed : list Handoff) :
  (length handed = length (handed_from Feed handed) + length (handed_from L1 handed))%nat /\
  forall m, In m (map fst (map snd handed)) <->
    In m (handed_from Feed handed ++ handed_from L1 handed).
Proof.
  induction handed as [|[source [m more]] handed IH] using rev_ind; [done|]. destruct IH as [IHl IHm].
  rewrite !handed_from_snoc, !map_app. split.
  - rewrite !length_app. destruct source; cbn; lia.
  - intros x. rewrite in_app_iff, IHm. destruct source; cbn; rewrite !in_app_iff; cbn; tauto.
Qed.

(** What one source handed over is in order among all handoffs. *)
Lemma handed_sublist (source : MessageSource) (handed : list Handoff) :
  sublist (handed_from source handed) (map fst (map snd handed)).
Proof.
  induction handed as [|[src [m more]] handed IH]; [constructor|]. cbn [map fst snd]. unfold handed_from in *.
  cbn [List.filter fst]. destruct (bool_decide (src = source)); cbn [map fst snd]; by constructor.
Qed.

Definition received (feed l1 : Receiver) : list BroadcastFeedMessage := arrivals feed ++ arrivals l1.

(** An ordinary run, with what its handoffs amount to. *)
Lemma ordinary_handoffs (feed l1 : Receiver) :
  clean genesis_block head feed l1 ->
  exists st, launch_and_drive (enough feed l1) Ordinary genesis_block head feed l1 0 = Some (Ok st) /\
    handed_from Feed (ds_handed st) = arrivals feed /\ handed_from L1 (ds_handed st) = arrivals l1 /\
    drive (map snd (ds_handed st)) (spawned head genesis_block) = Ok (ds_driver st) /\
    (forall m, In m (map fst (map snd (ds_handed st))) <-> In m (received feed l1)) /\
    length (map snd (ds_handed st)) = length (received feed l1) /\
    sequences_ok (map snd (ds_handed st)).
Proof.
  intros Hcl. destruct (ordinary_run feed l1 Hcl) as (st & Hr & Hf & Hl & Hd).
  destruct (handed_split (ds_handed st)) as [Hlen Hin]. rewrite Hf, Hl in *.
  exists st. split_and!; try done.
  - unfold received. rewrite length_map, length_app. done.
  - intros m Hm. by apply (cl_messages _ _ _ _ Hcl), Hin.
Qed.

(** The block after the tip was not received, or what was received in order reaches the tip. *)
Lemma ordinary_stops (feed l1 : Receiver) (st : DriveState) :
  clean genesis_block head feed l1 ->
  handed_from L1 (ds_handed st) = arrivals l1 ->
  drive (map snd (ds_handed st)) (spawned head genesis_block) = Ok (ds_driver st) ->
  sequences_ok (map snd (ds_handed st)) ->
  exists l, run_inv (spawned head genesis_block) (map fst (map snd (ds_handed st))) l (ds_driver st) /\
    sh_number (tip (ds_driver st)) = sh_number head + Z.of_nat (length l) /\
    next_seq (ds_driver st) = sh_number (tip (ds_driver st)) - genesis_block + 1 /\
    ((length (map snd (ds_handed st)) <= MAX_PENDING)%nat ->
     never_full (map snd (ds_handed st)) (spawned head genesis_block) = true) /\
    (never_full (map snd (ds_handed st)) (spawned head genesis_block) = true ->
     forall m, In m (map fst (map snd (ds_handed st))) -> fm_sequence_number m <> next_seq (ds_driver st)) /\
    (forall n, n <= sh_number head - genesis_block + 1 -> consecutive n (arrivals l1) ->
     n + Z.of_nat (length (arrivals l1)) <= next_seq (ds_driver st)).
Proof.
  intros Hcl Hl Hd Hs. destruct (drive_spec _ _ _ _ Hs Hd) as (l & Hi & Hfull & Hmax & Hord).
  pose proof (spawned_cursor Ordinary genesis_block head feed l1 0 Hcl) as Hcur. cbn [ds_driver launched] in Hcur.
  pose proof (chain_tip_number _ _ _ (cl_numbered _ _ _ _ Hcl) (ri_chain _ _ _ _ Hi)) as Ht.
  pose proof (ri_tip _ _ _ _ Hi) as Htip. pose proof (ri_seq _ _ _ _ Hi) as Hseq. cbn [tip spawned] in Ht, Htip.
  rewrite <- Htip in Ht. exists l. split_and!; [done|done|lia|done|done|].
  intros n Hn Hc. apply Hord; [lia|done|]. rewrite <- Hl. apply handed_sublist.
Qed.

(** C22. Whatever the timing of the two sources, on a healthy engine that numbers blocks one after the
    other and with numbers below the end of [u64], the loop of an ordinary node ends
    once they are drained, hands every message of each source to the driver exactly once and in the
    order it was sent, and the driver has then applied one block per sequence number, numbered from
    the head it started on. As long as no message ahead of the driver's cursor meets a full reorder
    buffer (in particular when at most 50,000 messages are received) it stops only at a sequence
    number that neither source delivered; and whatever the feed does to the buffer, what L1 delivers
    consecutively from the head or before it has been applied. *)
Theorem ingress_delivers (feed l1 : Receiver) :
  clean genesis_block head feed l1 ->
  exists st l, launch_and_drive (enough feed l1) Ordinary genesis_block head feed l1 0 = Some (Ok st) /\
    handed_from Feed (ds_handed st) = arrivals feed /\ handed_from L1 (ds_handed st) = arrivals l1 /\
    chain head (sh_number head - genesis_block + 1) l /\
    Forall (fun a => In (fst a) (received feed l1)) l /\
    tip (ds_driver st) = chain_tip head l /\
    sh_number (tip (ds_driver st)) = sh_number head + Z.of_nat (length l) /\
    ((length (received feed l1) <= MAX_PENDING)%nat \/
       never_full (map snd (ds_handed st)) (spawned head genesis_block) = true ->
     forall m, In m (received feed l1) ->
       fm_sequence_number m + genesis_block <> sh_number (tip (ds_driver st)) + 1) /\
    (forall n, n <= sh_number head - genesis_block + 1 -> consecutive n (arrivals l1) ->
     n + Z.of_nat (length (arrivals l1)) + genesis_block <= sh_number (tip (ds_driver st)) + 1).
Proof.
  intros Hcl. destruct (ordinary_handoffs feed l1 Hcl) as (st & Hr & Hf & Hl & Hd & Hin & Hn & Hs).
  destruct (ordinary_stops feed l1 st Hcl Hl Hd Hs) as (l & [] & Ht & Hnext & Hfull & Hmax & Hord).
  pose proof (spawned_cursor Ordinary genesis_block head feed l1 0 Hcl) as Hcur. cbn [ds_driver launched] in Hcur.
  rewrite Hcur in *. exists st, l. cbn [tip spawned] in *. split_and!; try done.
  - apply List.Forall_forall. intros a Ha. rewrite List.Forall_forall in ri_from. by apply Hin, ri_from.
  - intros Hcap m Hm Heq. apply (Hmax ltac:(destruct Hcap; [apply Hfull; lia|done]) m); [by apply Hin|]. lia.
  - intros n Hle Hc. specialize (Hord n Hle Hc). lia.
Qed.

(** What is received is applied whatever the timing: it fits the driver's reorder buffer, or L1
    delivers it all, consecutively from the head or before it, the feed being only faster. *)
Definition covered (feed l1 : Receiver) : Prop :=
  (length (received feed l1) <= MAX_PENDING)%nat \/
  exists n, n <= sh_number head - genesis_block + 1 /\ consecutive n (arrivals l1) /\
    forall m, In m (arrivals feed) -> fm_sequence_number m < n + Z.of_nat (length (arrivals l1)).

Lemma covered_stops (feed l1 : Receiver) (st : DriveState) :
  clean genesis_block head feed l1 -> covered feed l1 ->
  handed_from L1 (ds_handed st) = arrivals l1 ->
  drive (map snd (ds_handed st)) (spawned head genesis_block) = Ok (ds_driver st) ->
  sequences_ok (map snd (ds_handed st)) ->
  length (map snd (ds_handed st)) = length (received feed l1) ->
  forall m, In m (received feed l1) -> In m (map fst (map snd (ds_handed st))) ->
    fm_sequence_number m <> next_seq (ds_driver st).
Proof.
  intros Hcl Hcov Hl Hd Hs Hlen m Hm Hin.
  destruct (ordinary_stops feed l1 st Hcl Hl Hd Hs) as (l & _ & _ & _ & Hfull & Hmax & Hord).
  destruct Hcov as [Hcap|(n & Hn & Hc & Hfeed)].
  - apply Hmax; [|done]. apply Hfull. lia.
  - specialize (Hord n Hn Hc). unfold received in Hm. apply in_app_iff in Hm as [Hm|Hm].
    + apply Hfeed in Hm. lia.
    + apply list_elem_of_In, list_elem_of_lookup in Hm as (i & Hi). rewrite (Hc i m Hi).
      apply lookup_lt_Some in Hi. lia.
Qed.

(** C29. Arbitration does not influence the chain: on a healthy engine that numbers blocks one after the
    other, with numbers below the end of [u64], two ordinary runs that receive
    the same messages, each through either source, in any order, with any repetitions and at any
    times, where copies of a sequence number agree and the messages fit the driver's reorder buffer
    or are all delivered by L1 in order, end at the same tip with the same engine requests. *)
Theorem ingress_timing_free (feed l1 feed' l1' : Receiver) :
  clean genesis_block head feed l1 -> clean genesis_block head feed' l1' ->
  (forall m, In m (received feed l1) <-> In m (received feed' l1')) ->
  (forall m m', In m (received feed l1) -> In m' (received feed l1) ->
     fm_sequence_number m = fm_sequence_number m' -> m = m') ->
  covered feed l1 -> covered feed' l1' ->
  exists st st',
    launch_and_drive (enough feed l1) Ordinary genesis_block head feed l1 0 = Some (Ok st) /\
    launch_and_drive (enough feed' l1') Ordinary genesis_block head feed' l1' 0 = Some (Ok st') /\
    tip (ds_driver st) = tip (ds_driver st') /\ to_tree (ds_driver st) = to_tree (ds_driver st').
Proof.
  intros Hcl Hcl' Hsame Hag Hcov Hcov'.
  destruct (ordinary_handoffs feed l1 Hcl) as (st & Hr & _ & Hl & Hd & Hin & Hn & Hs).
  destruct (ordinary_handoffs feed' l1' Hcl') as (st' & Hr' & _ & Hl' & Hd' & Hin' & Hn' & Hs').
  exists st, st'. split; [done|]. split; [done|].
  refine (proj2 (drive_order_free head genesis_block _ _ _ _ _ _ Hs Hd Hd' _ _)).
  - intros m. by rewrite Hin, Hin'.
  - intros m m' Hm%Hin Hm'%Hin. by apply Hag.
  - intros m Hm. by eapply (covered_stops feed l1); [..|apply Hin|].
  - intros m Hm. eapply (covered_stops feed' l1'); [done..|by apply Hsame, Hin|by apply Hin', Hsame, Hin].
Qed.

(** What the handoffs of a finite run amount to; [cut] is what the close rejected. *)
Record finite_handed (f : Z) (l1 : Receiver) (cut : list BroadcastFeedMessage) (st : DriveState)
    : Prop := {
  fh_feed : handed_from Feed (ds_handed st) = [];
  fh_l1 : List.filter (admitted (Finite f) genesis_block) (arrivals l1)
    = handed_from L1 (ds_handed st) ++ List.filter (admitted (Finite f) genesis_block) cut;
  fh_cut : all_queued l1 -> cut = [];
  fh_rejected : cut = ds_rejected st;
  fh_admitted : forall m, In m (map fst (map snd (ds_handed st))) ->
    fm_sequence_number m + genesis_block <= f;
  fh_driven : drive (map snd (ds_handed st)) (spawned head genesis_block) = Ok (ds_driver st);
  fh_sequences : sequences_ok (map snd (ds_handed st))
}.

Lemma finite_handoffs (f : Z) (feed l1 : Receiver) (close_at : nat) :
  clean genesis_block head feed l1 -> sh_number head <= f ->
  exists st cut, launch_and_drive (enough feed l1) (Finite f) genesis_block head feed l1 close_at = Some (Ok st) /\
    finite_handed f l1 cut st.
Proof.
  intros Hcl Hf. pose proof (cl_genesis _ _ _ _ Hcl) as Hg.
  assert (Hm : finite_max_sequence (Finite f) genesis_block = Ok (Some (f - genesis_block))).
  { unfold finite_max_sequence, checked_sub. cbn. by rewrite (proj2 (Z.leb_le _ _)) by lia. }
  destruct (launch_and_drive_spec (Finite f) _ feed l1 close_at Hm) as (r & Hr & Hok & Hinv).
  destruct (Hok Hcl) as [st ->]. destruct (Hinv st eq_refl) as (src & cut & Hi & Hrem).
  exists st, cut. split; [done|].
  pose proof (di_messages _ _ _ _ _ _ _ _ _ _ Hi) as Hmsgs.
  split.
  - specialize (Hmsgs Feed). rewrite Hrem in Hmsgs. cbn in Hmsgs. symmetry in Hmsgs.
    by apply app_eq_nil in Hmsgs as [-> _].
  - specialize (Hmsgs L1). rewrite Hrem in Hmsgs.
    cbn [rx_of launched is_serving ds_scheduler l1_only IngressScheduler_new l1_messages] in Hmsgs.
    rewrite Hmsgs. by destruct src.
  - intros Hq. apply (di_cut _ _ _ _ _ _ _ _ _ _ Hi). by right.
  - apply Hi.
  - intros m Hin. rewrite map_map in Hin. apply in_map_iff in Hin as (h & <- & Hh).
    apply (di_admitted _ _ _ _ _ _ _ _ _ _ Hi) in Hh. by apply Z.leb_le in Hh.
  - apply Hi.
  - intros m Hin. destruct (handed_arrived _ _ _ _ _ _ _ _ _ _ _ Hi Hin) as (x & Hx).
    by apply (cl_messages _ _ _ _ Hcl), (rx0_arrives (Finite f) genesis_block head feed l1 close_at x).
Qed.

(** The driver of a finite run: a chain on the head that stops at a message not handed over. *)
Lemma finite_chain (f : Z) (feed l1 : Receiver) (cut : list BroadcastFeedMessage) (st : DriveState) :
  clean genesis_block head feed l1 -> finite_handed f l1 cut st ->
  exists l, chain head (sh_number head - genesis_block + 1) l /\
    Forall (fun a => In (fst a) (map fst (map snd (ds_handed st)))) l /\
    sh_number (tip (ds_driver st)) = sh_number head + Z.of_nat (length l) /\
    (forall n, n <= sh_number head - genesis_block + 1 -> consecutive n (handed_from L1 (ds_handed st)) ->
     n + Z.of_nat (length (handed_from L1 (ds_handed st))) + genesis_block <= sh_number (tip (ds_driver st)) + 1).
Proof.
  intros Hcl [_ _ _ _ _ Hd Hs]. destruct (drive_spec _ _ _ _ Hs Hd) as (l & [] & _ & _ & Hord).
  pose proof (spawned_cursor Ordinary genesis_block head feed l1 0 Hcl) as Hcur.
  cbn [ds_driver launched] in Hcur. rewrite Hcur in *. cbn [tip spawned] in *.
  pose proof (chain_tip_number _ _ _ (cl_numbered _ _ _ _ Hcl) ri_chain) as Ht.
  exists l. split_and!; [done|done|congruence|]. intros n Hn Hc.
  specialize (Hord n _ Hn Hc (handed_sublist L1 _)). rewrite ri_seq, ri_tip in *. lia.
Qed.

Lemma finite_tip_le (f : Z) (feed l1 : Receiver) (cut : list BroadcastFeedMessage) (st : DriveState) :
  clean genesis_block head feed l1 -> finite_handed f l1 cut st -> sh_number head <= f ->
  sh_number (tip (ds_driver st)) <= f.
Proof.
  intros Hcl Hh Hf. destruct (finite_chain _ _ _ _ _ Hcl Hh) as (l & Hc & Hfrom & -> & _).
  destruct (decide (length l = O)) as [->|Hne]; [lia|].
  destruct (chain_lookup _ _ _ (length l - 1) Hc ltac:(lia)) as (a & Ha & Hseq).
  rewrite List.Forall_forall in Hfrom. pose proof (fh_admitted _ _ _ _ Hh _ (Hfrom _ Ha)). lia.
Qed.

(** Messages for the blocks after the head, in order, none of them rejected. *)
Lemma finite_tip_reaches (f : Z) (feed l1 : Receiver) (cut : list BroadcastFeedMessage) (st : DriveState) :
  clean genesis_block head feed l1 -> finite_handed f l1 cut st -> sh_number head <= f ->
  cut = [] -> consecutive (sh_number head - genesis_block + 1) (arrivals l1) ->
  Z.of_nat (length (arrivals l1)) = f - sh_number head ->
  sh_number (tip (ds_driver st)) = f.
Proof.
  intros Hcl Hh Hf -> Hc Hlen. pose proof (finite_tip_le _ _ _ _ _ Hcl Hh Hf) as Hle.
  destruct (finite_chain _ _ _ _ _ Hcl Hh) as (l & _ & _ & _ & Hord).
  destruct Hh as [_ Hl1 _ _ _ _ _]. rewrite app_nil_r in Hl1.
  assert (Hall : List.filter (admitted (Finite f) genesis_block) (arrivals l1) = arrivals l1).
  { apply forallb_filter_id, forallb_forall. intros m Hm.
    apply list_elem_of_In, list_elem_of_lookup in Hm as (i & Hi). pose proof (Hc i m Hi).
    apply lookup_lt_Some in Hi. apply Z.leb_le. lia. }
  rewrite Hall in Hl1. rewrite <- Hl1 in Hord. specialize (Hord _ (Z.le_refl _) Hc). lia.
Qed.

(** A finite run never passes its frontier, whatever the timing of its input and whenever the
    input is closed: it ends, every message it hands to the driver is for a block at or below the
    frontier, taken from L1 in order without omission up to the point where the close rejected the
    rest, and its tip is at or below the frontier. If the input is one message per block up to the
    frontier, in order, and the close rejected none, the run ends exactly there. *)
Theorem finite_run_exact (f : Z) (feed l1 : Receiver) (close_at : nat) :
  clean genesis_block head feed l1 -> sh_number head <= f ->
  exists st, launch_and_drive (enough feed l1) (Finite f) genesis_block head feed l1 close_at = Some (Ok st) /\
    handed_from Feed (ds_handed st) = [] /\
    List.filter (admitted (Finite f) genesis_block) (arrivals l1)
      = handed_from L1 (ds_handed st) ++ List.filter (admitted (Finite f) genesis_block) (ds_rejected st) /\
    (forall h, In h (ds_handed st) -> fm_sequence_number (fst (snd h)) + genesis_block <= f) /\
    sh_number (tip (ds_driver st)) <= f /\ (all_queued l1 -> ds_rejected st = []) /\
    (ds_rejected st = [] -> consecutive (sh_number head - genesis_block + 1) (arrivals l1) ->
     Z.of_nat (length (arrivals l1)) = f - sh_number head -> sh_number (tip (ds_driver st)) = f).
Proof.
  intros Hcl Hf. destruct (finite_handoffs f feed l1 close_at Hcl Hf) as (st & cut & Hr & Hh).
  pose proof (fh_rejected _ _ _ _ Hh) as E.
  exists st. rewrite <- E. split_and!; [done|apply Hh|apply Hh| |by eapply finite_tip_le|apply Hh|].
  - intros h Hin. apply (fh_admitted _ _ _ _ Hh). rewrite map_map.
    exact (in_map (fun x : Handoff => fst (snd x)) _ _ Hin).
  - intros. by eapply finite_tip_reaches.
Qed.
End Runs.

(** ** Witnesses *)

Definition sample_feed : Receiver :=
  [NotYet; Arrived (sample_message 3); NotYet; Arrived (sample_message 2)].

Definition sample_l1 : Receiver :=
  [NotYet; NotYet; NotYet; Arrived (sample_message 1); Arrived (sample_message 2)].

(** The same messages, all through L1. *)
Definition sample_l1_all : Receiver :=
  [Arrived (sample_message 1); Arrived (sample_message 2); NotYet; Arrived (sample_message 3)].

(** A channel whose sender outlives the close and sends a message later. *)
Definition sample_late : Receiver := [NotYet; NotYet; NotYet; Arrived (sample_message 1)].

Definition sample_run (mode : ArbLaunchMode) (feed l1 : Receiver) (close_at : nat) : option DriveState :=
  match launch_and_drive (enough feed l1) mode 100 sample_tip feed l1 close_at with
  | Some (Ok st) => Some st
  | _ => None
  end.

(** A close that takes effect between the two reads of the flag at the top of the loop is not seen
    by that turn: the loop then waits for the channel alone, and a sender that is still alive can
    keep it waiting and have a later message handed over. Observed one read earlier or later, the
    same close ends the run with nothing handed over. *)
Theorem close_between_reads_waits :
  (fun st => map (fun h => fst (snd h)) (ds_handed st)) <$> sample_run (Finite 102) [] sample_late 1
    = Some [sample_message 1] /\
  ds_handed <$> sample_run (Finite 102) [] sample_late 0 = Some [] /\
  ds_handed <$> sample_run (Finite 102) [] sample_late 2 = Some [].
Proof. split_and!; vm_compute; reflexivity. Qed.

Lemma sample_healthy : healthy /\ numbered.
Proof. split; [split_and!; try done; intros p a; by eexists|]. intros p a b [= <-]. done. Qed.

Lemma sample_clean (feed l1 : Receiver) :
  (forall m, In m (arrivals feed ++ arrivals l1) -> exists n, m = sample_message n /\ 0 <= n <= 3) ->
  clean 100 sample_tip feed l1.
Proof.
  intros H. split; [apply sample_healthy..|cbn; lia|cbn; unfold U64_MAX; lia|].
  intros m (n & -> & Hn)%H. cbn. unfold U64_MAX. lia.
Qed.

Ltac sample_messages :=
  apply sample_clean; cbn; intros m Hm; repeat destruct Hm as [<-|Hm]; try done;
  eexists; (split; [reflexivity|lia]).

Lemma ingress_delivers_witness :
  exists st, sample_run Ordinary sample_feed sample_l1 0 = Some st /\
    map (fun h => (fst h, fm_sequence_number (fst (snd h)))) (ds_handed st)
      = [(Feed, 3); (Feed, 2); (L1, 1); (L1, 2)] /\
    sh_number (tip (ds_driver st)) = 103 /\
    forall m, In m (received sample_feed sample_l1) -> fm_sequence_number m + 100 <> 104.
Proof.
  assert (Hc : clean 100 sample_tip sample_feed sample_l1) by sample_messages.
  assert (Hl : (length (received sample_feed sample_l1) <= MAX_PENDING)%nat)
    by (apply Nat.leb_le; vm_compute; reflexivity).
  destruct (ingress_delivers 100 sample_tip sample_feed sample_l1 Hc)
    as (st & l & Hr & _ & _ & _ & _ & _ & _ & Hstop & _). specialize (Hstop (or_introl Hl)).
  exists st. unfold sample_run. rewrite Hr. split; [reflexivity|].
  assert (Hst : Some (Ok st) = launch_and_drive (enough sample_feed sample_l1) Ordinary 100 sample_tip
                  sample_feed sample_l1 0) by (by rewrite Hr).
  clear Hr. vm_compute in Hst. injection Hst as ->.
  split; [reflexivity|]. split; [reflexivity|exact Hstop].
Defined.

Lemma ingress_timing_free_witness :
  exists st st', sample_run Ordinary sample_feed sample_l1 0 = Some st /\
    sample_run Ordinary [] sample_l1_all 0 = Some st' /\
    tip (ds_driver st) = tip (ds_driver st') /\ to_tree (ds_driver st) = to_tree (ds_driver st').
Proof.
  assert (Hc : clean 100 sample_tip sample_feed sample_l1) by sample_messages.
  assert (Hc' : clean 100 sample_tip [] sample_l1_all) by sample_messages.
  destruct (ingress_timing_free 100 sample_tip sample_feed sample_l1 [] sample_l1_all Hc Hc')
    as (st & st' & Hr & Hr' & H).
  - intros m. cbn. tauto.
  - intros m m' Hm Hm'. cbn in Hm, Hm'.
    repeat destruct Hm as [<-|Hm]; repeat destruct Hm' as [<-|Hm']; cbn; done || congruence.
  - left. apply Nat.leb_le. vm_compute. reflexivity.
  - right. exists 1. split; [vm_compute; discriminate|]. split; [|intros m []].
    intros [|[|[|i]]] m [= <-]; reflexivity.
  - exists st, st'. unfold sample_run. rewrite Hr, Hr'.
    split; [reflexivity|]. split; [reflexivity|exact H].
Defined.

(** Two messages that arrive late, before the input is closed. *)
Definition sample_l1_finite : Receiver :=
  [NotYet; Arrived (sample_message 1); NotYet; NotYet; Arrived (sample_message 2)].

Lemma finite_run_exact_witness :
  exists st, sample_run (Finite 102) [] sample_l1_finite 20 = Some st /\
    sh_number (tip (ds_driver st)) = 102.
Proof.
  assert (Hc : clean 100 sample_tip [] sample_l1_finite) by sample_messages.
  destruct (finite_run_exact 100 sample_tip 102 [] sample_l1_finite 20 Hc)
    as (st & Hr & _ & _ & _ & _ & _ & Hq).
  { cbn. lia. }
  exists st. unfold sample_run. rewrite Hr. split; [reflexivity|].
  assert (Hst : Some (Ok st) = launch_and_drive (enough [] sample_l1_finite) (Finite 102) 100 sample_tip
                  [] sample_l1_finite 20) by (by rewrite Hr).
  apply Hq.
  - vm_compute in Hst. injection Hst as ->. reflexivity.
  - intros [|[|i]] m [= <-]; reflexivity.
  - reflexivity.
Defined.

Lemma bounded_fairness_witness :
  exists b1 b2, sb_source b1 = Feed /\ sb_source b2 = L1 /\
    map fm_sequence_number (sb_messages b1) = [5] /\ map fm_sequence_number (sb_messages b2) = [1; 2].
Proof.
  set (s := IngressScheduler_new [Arrived (sample_message 5)] [Arrived (sample_message 1); Arrived (sample_message 2)]).
  assert (W : wf s) by (by intros [|]).
  destruct (next_batch 2 7 None s) as [[[b1| |] c1] s1] eqn:E1; [|vm_compute in E1; discriminate E1..].
  destruct (next_batch 2 7 None (complete_batch (sb_source b1) (sb_kind b1) s1)) as [[[b2| |] c2] s2] eqn:E2.
  2-3: vm_compute in E1; injection E1 as <- <- <-; vm_compute in E2; discriminate E2.
  destruct (bounded_fairness 7 7 None None c1 c2 s s1 s2 b1 b2 W E1 E2) as (_ & _ & Hl1 & _).
  exists b1, b2.
  vm_compute in E1. injection E1 as <- <- <-.
  split; [reflexivity|]. split; [apply Hl1; [reflexivity|by eexists]|].
  vm_compute in E2. injection E2 as <- <- <-. split; reflexivity.
Defined.
