(* ===== verification/Finite.v ===== *)
(** * Stopped finite execution

    [crates/arb-reth-node/src/finite.rs] and the finite half of [ArbNodeHandle] in
    [crates/arb-reth-node/src/launcher.rs]: the checks a bounded recovery run makes before anything
    starts, the completion that its waiters share, and the result it returns.

    [Completion] is a step relation: the owner task that publishes the supervisor's result and any
    number of waiters interleave in any order, and a waiter may be dropped at its await point. *)

From Stdlib Require Import Strings.Byte Strings.String.
From stdpp Require Import base list numbers option strings.
From S2P Require Import Prelude BTree L1Decode Resume L1Sync TrustedL2 Driver Ingress.

(** ** The shared completion *)

Module Completion.

(** The errors a waiter sees: the supervisor's report, or the note that it has been taken. *)
Inductive WaitError := Report (error : string) | FailureAlreadyObserved.

Inductive FiniteCompletionState :=
| Pending
| Succeeded
| Failed (error : string)
| FailedAlreadyObserved.

(** The locked part of [complete]. *)
Definition complete (r : result string unit) : FiniteCompletionState :=
  match r with
  | Ok _ => Succeeded
  | Err error => Failed error
  end.

(** The locked part of one turn of [wait]: the result, if there is one, and the state left. *)
Definition look (state : FiniteCompletionState)
    : option (result WaitError unit) * FiniteCompletionState :=
  match state with
  | Pending => (None, Pending)
  | Succeeded => (Some (Ok tt), Succeeded)
  | FailedAlreadyObserved => (Some (Err FailureAlreadyObserved), FailedAlreadyObserved)
  | Failed error => (Some (Err (Report error)), FailedAlreadyObserved)
  end.

(** A waiter: about to register, registered ([enable]), or awaiting the notification after it found
    the state pending; [notified] is the permit [notify_waiters] gave to a registered waiter. *)
Inductive Waiter :=
| Idle
| Enabled (notified : bool)
| Awaiting (notified : bool)
| Returned (r : result WaitError unit)
| Dropped.

(** The owner: waiting for the supervisor, after the state is stored, after [notify_waiters]. *)
Inductive Owner := Working | Stored | Done.

Record World := { state : FiniteCompletionState; owner : Owner; waiters : list Waiter }.

(** [notify_waiters]: every registered waiter is woken. *)
Definition notify (w : Waiter) : Waiter :=
  match w with
  | Enabled _ => Enabled true
  | Awaiting _ => Awaiting true
  | w => w
  end.

Section Steps.
Variable result_of_supervisor : result string unit.

Inductive step : World -> World -> Prop :=
| step_store st ws :
    step {| state := st; owner := Working; waiters := ws |}
         {| state := complete result_of_supervisor; owner := Stored; waiters := ws |}
| step_notify st ws :
    step {| state := st; owner := Stored; waiters := ws |}
         {| state := st; owner := Done; waiters := map notify ws |}
| step_enable st o ws i :
    ws !! i = Some Idle ->
    step {| state := st; owner := o; waiters := ws |}
         {| state := st; owner := o; waiters := <[i := Enabled false]> ws |}
| step_look_pending st st' o ws i n :
    ws !! i = Some (Enabled n) -> look st = (None, st') ->
    step {| state := st; owner := o; waiters := ws |}
         {| state := st'; owner := o; waiters := <[i := Awaiting n]> ws |}
| step_look_result st st' o ws i n r :
    ws !! i = Some (Enabled n) -> look st = (Some r, st') ->
    step {| state := st; owner := o; waiters := ws |}
         {| state := st'; owner := o; waiters := <[i := Returned r]> ws |}
| step_wake st o ws i :
    ws !! i = Some (Awaiting true) ->
    step {| state := st; owner := o; waiters := ws |}
         {| state := st; owner := o; waiters := <[i := Idle]> ws |}
| step_drop st o ws i n :
    ws !! i = Some (Awaiting n) ->
    step {| state := st; owner := o; waiters := ws |}
         {| state := st; owner := o; waiters := <[i := Dropped]> ws |}.

Definition start (n : nat) : World :=
  {| state := Pending; owner := Working; waiters := replicate n Idle |}.

Inductive reachable (n : nat) : World -> Prop :=
| reach_start : reachable n (start n)
| reach_step w w' : reachable n w -> step w w' -> reachable n w'.

(** Whether a waiter returned the supervisor's report. *)
Definition took_report (w : Waiter) : bool :=
  match w with
  | Returned (Err (Report _)) => true
  | _ => false
  end.

Definition reports (ws : list Waiter) : nat := length (List.filter took_report ws).

(** What a waiter may have returned. *)
Definition returned_ok (w : Waiter) : Prop :=
  match w with
  | Returned (Ok _) => result_of_supervisor = Ok tt
  | Returned (Err (Report e)) => result_of_supervisor = Err e
  | Returned (Err FailureAlreadyObserved) => exists e, result_of_supervisor = Err e
  | _ => True
  end.

(** The state agrees with the owner's progress, and the report is in exactly one place. *)
Definition state_ok (w : World) : Prop :=
  match owner w with
  | Working => state w = Pending /\ reports (waiters w) = O
  | _ => match result_of_supervisor with
         | Ok _ => state w = Succeeded /\ reports (waiters w) = O
         | Err e => state w = Failed e /\ reports (waiters w) = O \/
                    state w = FailedAlreadyObserved /\ reports (waiters w) = 1%nat
         end
  end.

Record inv (w : World) : Prop := {
  inv_state : state_ok w;
  inv_returned : Forall returned_ok (waiters w);
  inv_none_before : state w = Pending \/ (exists e, state w = Failed e) ->
    forall r, ~ In (Returned r) (waiters w);
  inv_woken : owner w = Done -> ~ In (Awaiting false) (waiters w)
}.

Lemma insert_In (ws : list Waiter) (i : nat) (x y : Waiter) : In x (<[i := y]> ws) -> x = y \/ In x ws.
Proof.
  revert i. induction ws as [|w ws IH]; intros [|i]; cbn; try tauto.
  - intros [<-|H]; auto.
  - intros [<-|H]; [auto|]. apply IH in H. tauto.
Qed.

Lemma insert_Forall (P : Waiter -> Prop) (ws : list Waiter) (i : nat) (y : Waiter) :
  Forall P ws -> P y -> Forall P (<[i := y]> ws).
Proof.
  rewrite !List.Forall_forall. intros H Hy x [->|Hx]%insert_In; auto.
Qed.

Lemma reports_insert (ws : list Waiter) (i : nat) (x y : Waiter) :
  ws !! i = Some x ->
  (reports (<[i := y]> ws) + Nat.b2n (took_report x) = reports ws + Nat.b2n (took_report y))%nat.
Proof.
  unfold reports. revert i. induction ws as [|w ws IH]; intros [|i] H; cbn in H |- *; try done.
  - simplify_eq. destruct (took_report x), (took_report y); cbn [Nat.b2n length]; lia.
  - specialize (IH i H). change (list_insert i y ws) with (<[i := y]> ws).
    destruct (took_report w); cbn [length Nat.add]; [f_equal|]; exact IH.
Qed.

Lemma notify_keeps (ws : list Waiter) :
  reports (map notify ws) = reports ws /\ (Forall returned_ok ws -> Forall returned_ok (map notify ws)) /\
  ~ In (Awaiting false) (map notify ws).
Proof.
  unfold reports. induction ws as [|w ws (IHr & IHf & IHn)].
  { split_and!; [done|constructor|by intros []]. }
  cbn. split_and!.
  - assert (took_report (notify w) = took_report w) as -> by (by destruct w).
    destruct (took_report w); cbn [length]; by rewrite ?IHr.
  - inversion 1; subst. constructor; [by destruct w|auto].
  - intros [H|H]; [by destruct w|done].
Qed.

(** A waiter's step that leaves the state and the reports alone. *)
Lemma inv_waiter (st : FiniteCompletionState) (o : Owner) (ws : list Waiter) (i : nat) (x y : Waiter) :
  inv {| state := st; owner := o; waiters := ws |} -> ws !! i = Some x ->
  took_report x = false -> took_report y = false -> (forall r, y <> Returned r) ->
  (o = Done -> y <> Awaiting false) ->
  inv {| state := st; owner := o; waiters := <[i := y]> ws |}.
Proof.
  intros [Hs Hf Hn Hw] Hi Hx Hy Hr Ha. pose proof (reports_insert _ _ _ y Hi) as Hrep.
  rewrite Hx, Hy in Hrep. cbn in Hrep. rewrite !Nat.add_0_r in Hrep. split; cbn [state owner waiters] in *.
  - unfold state_ok in *. cbn [state owner waiters] in *. by rewrite Hrep.
  - apply insert_Forall; [done|]. destruct y; try done. by edestruct Hr.
  - intros Ho r [E|H]%insert_In; [by destruct (Hr r)|by eapply Hn].
  - intros Ho [E|H]%insert_In; [by destruct (Ha Ho)|by apply Hw].
Qed.

Lemma inv_look (st st' : FiniteCompletionState) (o : Owner) (ws : list Waiter) (i : nat) (n : bool)
    (r : result WaitError unit) :
  inv {| state := st; owner := o; waiters := ws |} -> ws !! i = Some (Enabled n) ->
  look st = (Some r, st') -> inv {| state := st'; owner := o; waiters := <[i := Returned r]> ws |}.
Proof.
  intros [Hs Hf Hn Hw] Hi Hl. pose proof (reports_insert _ _ _ (Returned r) Hi) as Hrep. cbn [took_report Nat.b2n] in Hrep.
  rewrite Nat.add_0_r in Hrep. unfold state_ok in Hs. cbn [state owner waiters] in Hs.
  assert (Ho : o <> Working) by (intros ->; destruct Hs as [-> _]; done).
  split; cbn [state owner waiters].
  - unfold state_ok. cbn [state owner waiters]. destruct o; [done|..].
    all: destruct result_of_supervisor as [u|e]; [|destruct Hs as [Hs|Hs]]; destruct Hs as [-> Hz];
      cbn in Hl; simplify_eq; cbn [took_report Nat.b2n] in Hrep; rewrite Hrep, Hz; auto.
  - apply insert_Forall; [done|]. destruct o; [done|..].
    all: destruct result_of_supervisor as [[]|e] eqn:E; [|destruct Hs as [Hs|Hs]]; destruct Hs as [-> _];
      cbn in Hl; simplify_eq; cbn; rewrite ?E; eauto.
  - intros H. exfalso. destruct st; cbn in Hl; simplify_eq; by destruct H as [|[]].
  - intros Hd [E|H]%insert_In; [done|by apply Hw].
Qed.

Lemma inv_reachable (n : nat) (w : World) : reachable n w -> inv w.
Proof.
  induction 1 as [|w w' _ IH Hstep].
  - split; cbn.
    + unfold state_ok. cbn. split; [done|]. unfold reports. by induction n.
    + induction n; cbn; by constructor.
    + intros _ r H. induction n; cbn in H; [done|]. by destruct H.
    + done.
  - destruct Hstep as [st ws|st ws|st o ws i Hi|st st' o ws i k Hi Hl|st st' o ws i k r Hi Hl|st o ws i Hi|st o ws i k Hi].
    + destruct IH as [[Hp Hr] Hf Hn _]. split; cbn [state owner waiters] in *; [|done| |done].
      * unfold state_ok. cbn. destruct result_of_supervisor as [[]|e]; cbn; auto.
      * intros _. apply Hn. by left.
    + destruct IH as [Hs Hf Hn _]. destruct (notify_keeps ws) as (Er & Ef & En). split; cbn [state owner waiters] in *; [|auto| |done].
      * unfold state_ok in *. cbn [state owner waiters] in *. by rewrite Er.
      * intros H r Hin. apply (Hn H r). apply in_map_iff in Hin as (x & Ex & Hx).
        destruct x; cbn in Ex; try discriminate Ex. injection Ex as <-. done.
    + by eapply inv_waiter.
    + assert (st = Pending /\ st' = Pending) as [-> ->] by (by destruct st; cbn in Hl; simplify_eq).
      eapply inv_waiter; [done|done|done..|]. intros ->. exfalso.
      destruct IH as [Hs _ _ _]. unfold state_ok in Hs. cbn [state owner waiters] in Hs.
      destruct result_of_supervisor; [|destruct Hs as [Hs|Hs]]; by destruct Hs.
    + by eapply inv_look.
    + by eapply inv_waiter.
    + by eapply inv_waiter.
Qed.

(** One waiter's own steps from [w] bring it to a result. *)
Inductive resolves (i : nat) : nat -> World -> Prop :=
| res_done r w : waiters w !! i = Some (Returned r) -> resolves i 0 w
| res_step k w w' : step w w' -> (forall j, j <> i -> waiters w' !! j = waiters w !! j) ->
    resolves i k w' -> resolves i (S k) w.

Lemma look_resolves (st st' : FiniteCompletionState) (o : Owner) (ws : list Waiter) (i : nat) (k : bool)
    (r : result WaitError unit) :
  look st = (Some r, st') -> ws !! i = Some (Enabled k) ->
  resolves i 1 {| state := st; owner := o; waiters := ws |}.
Proof.
  intros Hl Hi. eapply res_step; [by eapply step_look_result| |].
  - intros j Hj. cbn. by rewrite list_lookup_insert_ne.
  - apply (res_done i r). cbn. apply list_lookup_insert_eq. by eapply lookup_lt_Some.
Qed.

Lemma idle_resolves (st st' : FiniteCompletionState) (o : Owner) (ws : list Waiter) (i : nat)
    (r : result WaitError unit) :
  look st = (Some r, st') -> ws !! i = Some Idle -> resolves i 2 {| state := st; owner := o; waiters := ws |}.
Proof.
  intros Hl Hi. eapply res_step; [by eapply step_enable| |].
  - intros j Hj. cbn. by rewrite list_lookup_insert_ne.
  - eapply look_resolves; [done|]. apply list_lookup_insert_eq. by eapply lookup_lt_Some.
Qed.

Lemma waiter_resolves (st : FiniteCompletionState) (o : Owner) (ws : list Waiter) (i : nat) (x : Waiter) :
  (exists r st', look st = (Some r, st')) -> ws !! i = Some x -> x <> Dropped -> x <> Awaiting false ->
  exists k, (k <= 3)%nat /\ resolves i k {| state := st; owner := o; waiters := ws |}.
Proof.
  intros (r & st' & Hl) Hi Hd Ha. destruct x as [|k|[|]|r0|]; try done.
  - exists 2%nat. split; [lia|]. by eapply idle_resolves.
  - exists 1%nat. split; [lia|]. by eapply look_resolves.
  - exists 3%nat. split; [lia|]. eapply res_step; [by eapply step_wake| |].
    + intros j Hj. cbn. by rewrite list_lookup_insert_ne.
    + eapply idle_resolves; [done|]. apply list_lookup_insert_eq. by eapply lookup_lt_Some.
  - exists 0%nat. split; [lia|]. by eapply res_done.
Qed.

(** The completion of a finite run loses no wake-up and duplicates no failure. However its
    waiters, their cancellations and the publishing task interleave: once the result is published,
    every waiter that has neither returned nor been dropped returns within three steps of its own,
    without waiting for anything else; a success is returned to all of them; a failure is returned
    with its report to at most one, every other one is told that it has been observed. *)
Theorem completion_exact (n : nat) (w : World) :
  reachable n w -> owner w = Done ->
  (forall i x, waiters w !! i = Some x -> x <> Dropped -> exists k, (k <= 3)%nat /\ resolves i k w) /\
  Forall returned_ok (waiters w) /\
  (reports (waiters w) <= 1)%nat /\
  (forall e, result_of_supervisor = Err e ->
     (exists r, In (Returned r) (waiters w)) -> reports (waiters w) = 1%nat).
Proof.
  intros Hr Hd. destruct (inv_reachable n w Hr) as [Hs Hf Hn Hw]. destruct w as [st o ws].
  cbn [state owner waiters] in *. subst o.
  assert (Hst : exists r st', look st = (Some r, st')).
  { unfold state_ok in Hs. cbn [state owner waiters] in Hs.
    destruct result_of_supervisor; [|destruct Hs as [Hs|Hs]]; destruct Hs as [-> _]; by eexists _, _. }
  split_and!; [|done|..].
  - intros i x Hi Hx. by apply waiter_resolves with (x := x) (1 := Hst); [..|intros ->; by apply Hw, list_elem_of_In, (list_elem_of_lookup_2 _ i)].
  - unfold state_ok in Hs. cbn [state owner waiters] in Hs. destruct result_of_supervisor; [|destruct Hs as [Hs|Hs]]; destruct Hs as [_ ->]; lia.
  - intros e He [r Hin]. unfold state_ok in Hs. cbn [state owner waiters] in Hs. rewrite He in Hs.
    destruct Hs as [[-> _]|[_ ?]]; [|done]. exfalso. apply (Hn (or_intror (ex_intro _ e eq_refl)) r Hin).
Qed.
End Steps.

(** Two waiters, one of them registered before a failure is published. *)
Lemma completion_exact_witness :
  exists w, reachable (Err "engine failed"%string) 2 w /\ owner w = Done /\
    waiters w = [Awaiting true; Idle] /\
    (exists k, (k <= 3)%nat /\ resolves (Err "engine failed"%string) 0 k w) /\
    (exists k, (k <= 3)%nat /\ resolves (Err "engine failed"%string) 1 k w).
Proof.
  set (r := Err "engine failed"%string).
  assert (Hr : reachable r 2 {| state := complete r; owner := Done; waiters := [Awaiting true; Idle] |}).
  { eapply reach_step; [|apply (step_notify r (complete r) [Awaiting false; Idle])].
    eapply reach_step; [|apply (step_store r Pending [Awaiting false; Idle])].
    eapply reach_step; [|apply (step_look_pending r Pending Pending Working [Enabled false; Idle] 0 false); reflexivity].
    eapply reach_step; [|apply (step_enable r Pending Working [Idle; Idle] 0); reflexivity].
    apply reach_start. }
  eexists. split; [exact Hr|]. split; [reflexivity|]. split; [reflexivity|].
  destruct (completion_exact r 2 _ Hr eq_refl) as (Hres & _).
  split; [apply (Hres 0%nat (Awaiting true))|apply (Hres 1%nat Idle)]; (reflexivity || discriminate).
Defined.

End Completion.

(** ** Checks before launch *)

(** The file system and the [url] crate: [Path::canonicalize] ([None] on an error), the header of
    a static-file provider opened read-only (the outer result is the opening), and the scheme and
    host of a parsed URL. *)
Class FiniteEnv := {
  canonicalize : string -> option string;
  static_headers : result string (Z -> result string (option HeaderRow));
  parse_url : string -> option (string * option string)
}.

Record ChainSpec := { cs_chain_id : Z; cs_genesis_hash : Z }.

Record ResolvedRollupBoot := {
  rb_chain_spec : ChainSpec;
  rb_chain_id : Z;
  rb_genesis_block : Z;
  rb_sequencer_inbox : Z;
  rb_bridge : Z
}.

(** The builder's configuration and the database installed into it. *)
Record StoppedFiniteRethLaunch := {
  fl_chain : ChainSpec;
  fl_configured_db : string;
  fl_database_path : string
}.

(** [L1SyncConfig] with the two endpoints the derivation model leaves out. *)
Record StoppedFiniteConfig := {
  sf_checkpoint : L1ResumeCheckpoint;
  sf_l1_sync : L1SyncConfig;
  sf_l1_rpc : string;
  sf_l1_beacon : option string;
  sf_frontier : Z
}.

Inductive ValidateError :=
| BootChainId
| ConfiguredChainId
| ConfiguredChainSpec
| BelowBootGenesis
| CheckpointAboveFrontier
| SyncNotAtCheckpoint
| ContractsMismatch
| UnboundedEnd
| ResumeMetadataOrZeroWindow
| InvalidUrl (name : string)
| NotHttp (name : string)
| DatabasePath
| StaticFiles (error : string)
| TipHeaderMissing
| TipExceedsCheckpoint (checkpoint : Z)
| GenesisHeaderMissing
| GenesisHash.

Section Validation.
Context {FE : FiniteEnv}.

Definition same_path (left right : string) : bool :=
  String.eqb left right ||
  (bool_decide (canonicalize left = canonicalize right) && bool_decide (is_Some (canonicalize left))).

Definition validate_database (reth : StoppedFiniteRethLaunch) (boot : ResolvedRollupBoot)
    (checkpoint : Z) : result ValidateError unit :=
  if negb (same_path (fl_configured_db reth) (fl_database_path reth)) then Err DatabasePath
  else
    let? header_by_number := map_err StaticFiles static_headers in
    let? tip := map_err StaticFiles (header_by_number checkpoint) in
    let? _ := ok_or TipHeaderMissing tip in
    let? _ := match checked_add checkpoint 1 with
              | None => Ok tt
              | Some next =>
                  let? tail := map_err StaticFiles (header_by_number next) in
                  match tail with
                  | Some _ => Err (TipExceedsCheckpoint checkpoint)
                  | None => Ok tt
                  end
              end in
    let? genesis := map_err StaticFiles (header_by_number (rb_genesis_block boot)) in
    let? genesis := ok_or GenesisHeaderMissing genesis in
    if negb (hr_hash genesis =? cs_genesis_hash (rb_chain_spec boot)) then Err GenesisHash
    else Ok tt.

Definition validate_http_url (name value : string) : result ValidateError unit :=
  let? url := ok_or (InvalidUrl name) (parse_url value) in
  let '(scheme, host) := url in
  if negb (String.eqb scheme "http" || String.eqb scheme "https") || bool_decide (host = None)
  then Err (NotHttp name) else Ok tt.

Definition validate (self : StoppedFiniteConfig) (boot : ResolvedRollupBoot)
    (reth : StoppedFiniteRethLaunch) : result ValidateError unit :=
  let checkpoint := sf_checkpoint self in
  let sync := sf_l1_sync self in
  if negb (cs_chain_id (rb_chain_spec boot) =? rb_chain_id boot) then Err BootChainId
  else if negb (cs_chain_id (fl_chain reth) =? rb_chain_id boot) then Err ConfiguredChainId
  else if negb (cs_genesis_hash (fl_chain reth) =? cs_genesis_hash (rb_chain_spec boot))
  then Err ConfiguredChainSpec
  else if (l2_block checkpoint <? rb_genesis_block boot) || (sf_frontier self <? rb_genesis_block boot)
  then Err BelowBootGenesis
  else if sf_frontier self <? l2_block checkpoint then Err CheckpointAboveFrontier
  else if negb (cfg_start_block sync =? l1_block checkpoint)
       || negb (cfg_start_delayed_count sync =? delayed_count checkpoint)
       || negb (cfg_start_l2_block sync =? l2_block checkpoint)
       || negb (cfg_db_tip_l2 sync =? l2_block checkpoint)
       || negb (cfg_genesis_block sync =? rb_genesis_block boot)
       || negb (bool_decide (cfg_l2_frontier sync = Some (sf_frontier self)))
  then Err SyncNotAtCheckpoint
  else if negb (cfg_sequencer_inbox sync =? rb_sequencer_inbox boot) || negb (cfg_bridge sync =? rb_bridge boot)
  then Err ContractsMismatch
  else if match cfg_end_block sync with None => true | Some e => e <? l1_block checkpoint end
  then Err UnboundedEnd
  else if cfg_checkpointing sync || (cfg_batch_window sync =? 0) || (cfg_delayed_window sync =? 0)
       || (cfg_prefetch_windows sync =? 0)
  then Err ResumeMetadataOrZeroWindow
  else
    let? _ := validate_http_url "L1 RPC" (sf_l1_rpc self) in
    let? _ := match sf_l1_beacon self with
              | Some beacon => validate_http_url "L1 beacon" beacon
              | None => Ok tt
              end in
    validate_database reth boot (l2_block checkpoint).

End Validation.

(** ** The result of a run *)

Inductive FiniteError :=
| NotFiniteLauncher
| NodeExit (error : string)
| ProviderFailed (error : string)
| TipNotFrontier (tip frontier : Z)
| HeaderMissing (frontier : Z)
| DerivationFailed (error : L1SyncError)
| WithoutFrontier (frontier : Z) (completion : L1SyncCompletion)
| AlsoTeardown (primary teardown : FiniteError)
| Invalid (error : ValidateError)
| LaunchFailed (error : string).

(** [exit] is what [wait_for_node_exit] returns. *)
Definition wait_for_finite_execution (finite_frontier : option Z) (exit : result string unit)
    (provider : NodeProvider) : result FiniteError HeaderObservation :=
  let? frontier := ok_or NotFiniteLauncher finite_frontier in
  let? _ := map_err NodeExit exit in
  let? tip := map_err ProviderFailed (last_block_number provider) in
  if negb (tip =? frontier) then Err (TipNotFrontier tip frontier)
  else
    let? header := map_err ProviderFailed (sealed_header provider frontier) in
    let? header := ok_or (HeaderMissing frontier) header in
    Ok {| number := frontier; hash := hr_hash header; state_root := hr_state_root header |}.

(** [has_close]: the launcher kept a [FiniteInputClose]. The input is closed once [derivation] has
    completed, before the teardown is awaited. *)
Definition finish_finite_l1_execution (finite_frontier : option Z) (has_close : bool)
    (derivation : result L1SyncError L1SyncCompletion) (exit : result string unit)
    (provider : NodeProvider) : result FiniteError HeaderObservation :=
  let? frontier := ok_or NotFiniteLauncher finite_frontier in
  if negb has_close then Err NotFiniteLauncher
  else
    let derivation_result :=
      match derivation with
      | Ok (FrontierReached reached) =>
          if reached =? frontier then Ok tt else Err (WithoutFrontier frontier (FrontierReached reached))
      | Ok completion => Err (WithoutFrontier frontier completion)
      | Err error => Err (DerivationFailed error)
      end in
    let teardown := wait_for_finite_execution finite_frontier exit provider in
    match derivation_result, teardown with
    | Ok _, r => r
    | Err primary, Ok _ => Err primary
    | Err primary, Err teardown => Err (AlsoTeardown primary teardown)
    end.

(** The launched node: the result of launching, then what the supervisor returned and the provider
    it left. A launcher in finite mode keeps its frontier and its input close. *)
Definition run_stopped_finite {FE : FiniteEnv} (reth : StoppedFiniteRethLaunch)
    (boot : ResolvedRollupBoot) (finite : StoppedFiniteConfig)
    (launch : result string NodeProvider) (exit : result string unit)
    (derivation : result L1SyncError L1SyncCompletion) : result FiniteError HeaderObservation :=
  let? _ := map_err Invalid (validate finite boot reth) in
  let? provider := map_err LaunchFailed launch in
  let mode := Finite (sf_frontier finite) in
  finish_finite_l1_execution (frontier_of mode) (negb (is_serving mode)) derivation exit provider.

(** ** What a successful run means *)

Lemma validate_sound {FE : FiniteEnv} (self : StoppedFiniteConfig) (boot : ResolvedRollupBoot)
    (reth : StoppedFiniteRethLaunch) :
  validate self boot reth = Ok tt ->
  rb_genesis_block boot <= l2_block (sf_checkpoint self) <= sf_frontier self /\
  cfg_start_l2_block (sf_l1_sync self) = l2_block (sf_checkpoint self) /\
  cfg_db_tip_l2 (sf_l1_sync self) = l2_block (sf_checkpoint self) /\
  cfg_genesis_block (sf_l1_sync self) = rb_genesis_block boot /\
  cfg_l2_frontier (sf_l1_sync self) = Some (sf_frontier self) /\
  validate_database reth boot (l2_block (sf_checkpoint self)) = Ok tt.
Proof.
  unfold validate. intros H. if_inv H.
  apply rbind_Ok in H as (u & _ & H). apply rbind_Ok in H as (u' & _ & H).
  repeat match goal with
  | C : _ || _ = false |- _ => apply orb_false_iff in C as [? ?]
  | C : negb _ = false |- _ => apply negb_false_iff in C
  end.
  repeat match goal with
  | C : (_ =? _) = true |- _ => apply Z.eqb_eq in C
  | C : (_ <? _) = false |- _ => apply Z.ltb_ge in C
  | C : bool_decide _ = true |- _ => apply bool_decide_eq_true in C
  end.
  split_and!; done || lia.
Qed.

Lemma wait_for_finite_execution_iff (f : Z) (exit : result string unit) (provider : NodeProvider)
    (obs : HeaderObservation) :
  wait_for_finite_execution (Some f) exit provider = Ok obs <->
  exit = Ok tt /\ last_block_number provider = Ok f /\
  exists h, sealed_header provider f = Ok (Some h) /\
    obs = {| number := f; hash := hr_hash h; state_root := hr_state_root h |}.
Proof.
  unfold wait_for_finite_execution. cbn [ok_or rbind]. split.
  - intros H. apply rbind_Ok in H as ([] & He%map_err_Ok & H).
    apply rbind_Ok in H as (tip & Ht%map_err_Ok & H). destruct (Z.eqb_spec tip f) as [->|]; [|done].
    apply rbind_Ok in H as (h & Hh%map_err_Ok & H). apply rbind_Ok in H as (h' & ->%ok_or_Ok & H).
    simplify_eq. eauto 6.
  - intros (-> & -> & h & Hh & ->). cbn [map_err rbind]. rewrite Z.eqb_refl. cbn [negb]. by rewrite Hh.
Qed.

(** The messages of the derived windows, delivered one window after the other as the catch-up loop
    does, until the frontier. *)
Fixpoint deliver_windows {FC : FeedChannel} (windows : list (list BroadcastFeedMessage))
    (next_l2 tip genesis : Z) (frontier : option Z) (sent : list BroadcastFeedMessage)
    : option L1SyncCompletion * list BroadcastFeedMessage :=
  match windows with
  | [] => (None, sent)
  | w :: windows =>
      let '(delivery, next_l2, sent) := enqueue_derived_window w next_l2 tip genesis frontier sent in
      match delivery with
      | None => (Some Exhausted, sent)
      | Some d =>
          match frontier_reached d with
          | Some completion => (Some completion, sent)
          | None => deliver_windows windows next_l2 tip genesis frontier sent
          end
      end
  end.

Lemma numbered_from_sequences (bn genesis : Z) (l : list BroadcastFeedMessage) :
  map fm_sequence_number (numbered_from bn genesis l) =
  map (fun b => wrapping_sub b genesis) (seqZ bn (Z.of_nat (length l))).
Proof.
  revert bn. induction l as [|m l IH]; intros bn; [done|].
  rewrite numbered_from_cons. cbn [length]. rewrite seqZ_cons by lia. cbn [map set_sequence fm_sequence_number].
  rewrite IH. do 3 f_equal; lia.
Qed.

(** Delivery that reached the frontier has sent one message per block up to it. *)
Lemma deliver_windows_reached {FC : FeedChannel} (windows : list (list BroadcastFeedMessage))
    (tip genesis f : Z) (acc sent : list BroadcastFeedMessage) :
  (forall l, accepts l = true) -> 0 <= tip ->
  tip + 1 + Z.of_nat (length acc) + Z.of_nat (length (concat windows)) < 2 ^ 64 ->
  tip + Z.of_nat (length acc) < f ->
  deliver_windows windows (tip + 1 + Z.of_nat (length acc)) tip genesis (Some f)
    (numbered_from (tip + 1) genesis acc) = (Some (FrontierReached f), sent) ->
  exists l, sent = numbered_from (tip + 1) genesis l /\ Z.of_nat (length l) = f - tip.
Proof.
  intros Hch Ht. revert acc. induction windows as [|w windows IH]; intros acc Hb Hf H; [done|].
  cbn [deliver_windows concat] in *. rewrite length_app in Hb.
  set (n := tip + 1 + Z.of_nat (length acc)) in *.
  unfold enqueue_derived_window in H.
  destruct (enqueue_loop_spec w n tip genesis (Some f) 0 (numbered_from (tip + 1) genesis acc) Hch)
    as (d & Hd & Hout); [lia|lia|]. rewrite Hd in H. rewrite Hout in H. clear Hd Hout.
  unfold delivered, window_outcome in H. replace (Z.max n (tip + 1)) with n in H by lia.
  rewrite Z.sub_diag in H. change (Z.to_nat 0) with 0%nat in H. rewrite drop_0 in H.
  set (e := window_end n (Z.of_nat (length w)) tip (Some f)) in *.
  assert (He : e = if f <? n + Z.of_nat (length w) then f + 1 else n + Z.of_nat (length w)).
  { unfold e, window_end. by rewrite (proj2 (Z.ltb_lt tip f)), (proj2 (Z.leb_le n f)) by lia. }
  rewrite (proj2 (Z.ltb_lt tip f)), (proj2 (Z.leb_le n f)) in H by lia. cbn [andb] in H.
  assert (Happ : forall k, numbered_from (tip + 1) genesis acc ++ numbered_from n genesis k
                   = numbered_from (tip + 1) genesis (acc ++ k))
    by (intros k; by rewrite numbered_from_app).
  rewrite Happ in H. clearbody e. destruct (Z.ltb_spec f (n + Z.of_nat (length w))).
  - simplify_eq. eexists. split; [done|]. rewrite length_app, length_take. unfold n in *. lia.
  - rewrite He in H. replace (Z.to_nat (n + Z.of_nat (length w) - n)) with (length w) in H by lia.
    rewrite firstn_all in H. apply (IH (acc ++ w)).
    + rewrite length_app. unfold n in *. lia.
    + rewrite length_app. unfold n in *. lia.
    + rewrite <- H. f_equal. rewrite length_app. unfold n. lia.
Qed.

(** The messages sent up to the frontier are those of the blocks after the tip, in order. *)
Lemma sent_consecutive {FC : FeedChannel} (windows : list (list BroadcastFeedMessage)) (tip genesis f : Z)
    (sent : list BroadcastFeedMessage) :
  (forall l, accepts l = true) -> 0 <= tip -> 0 <= genesis -> genesis <= tip -> tip < f < U64_MAX ->
  tip + 1 + Z.of_nat (length (concat windows)) < 2 ^ 64 ->
  deliver_windows windows (tip + 1) tip genesis (Some f) [] = (Some (FrontierReached f), sent) ->
  consecutive (tip - genesis + 1) sent /\ Z.of_nat (length sent) = f - tip.
Proof.
  intros Hch Ht Hg Hgt Hf Hb H.
  destruct (deliver_windows_reached windows tip genesis f [] sent) as (l & -> & Hl);
    [done|done|cbn; lia|cbn; lia|by rewrite Z.add_0_r|].
  pose proof (numbered_from_sequences (tip + 1) genesis l) as Hs. rewrite Hl in Hs.
  assert (Hlen : Z.of_nat (length (numbered_from (tip + 1) genesis l)) = f - tip).
  { apply (f_equal length) in Hs. rewrite !length_map, length_seqZ in Hs. lia. }
  split; [|done]. intros i m Hm. pose proof (lookup_lt_Some _ _ _ Hm) as Hi.
  apply (f_equal (fun k => k !! i)) in Hs. change (@map ?A ?B) with (@fmap list _ A B) in Hs.
  rewrite !list_lookup_fmap, Hm in Hs. cbn in Hs.
  rewrite (proj2 (lookup_seqZ _ _ i (tip + 1 + Z.of_nat i))) in Hs by lia. injection Hs as ->.
  unfold wrapping_sub. rewrite wrap64_small; [lia|]. unfold is_u64, U64_MAX in *. lia.
Qed.

Lemma finish_iff (f : Z) (derivation : result L1SyncError L1SyncCompletion) (exit : result string unit)
    (provider : NodeProvider) (obs : HeaderObservation) :
  finish_finite_l1_execution (Some f) true derivation exit provider = Ok obs <->
  derivation = Ok (FrontierReached f) /\ exit = Ok tt /\ last_block_number provider = Ok f /\
  exists h, sealed_header provider f = Ok (Some h) /\
    obs = {| number := f; hash := hr_hash h; state_root := hr_state_root h |}.
Proof.
  rewrite <- wait_for_finite_execution_iff. unfold finish_finite_l1_execution. cbn [ok_or rbind negb].
  destruct derivation as [[|reached]|e].
  - split; [by destruct (wait_for_finite_execution _ _ _)|by intros [? _]].
  - destruct (Z.eqb_spec reached f) as [->|Hne].
    + split; [by intros ->|by intros [_ ->]].
    + split; [by destruct (wait_for_finite_execution _ _ _)|]. intros [[= ?] _]. done.
  - split; [by destruct (wait_for_finite_execution _ _ _)|by intros [? _]].
Qed.

Section EndToEnd.
Context {EN : Engine} {FE : FiniteEnv} {FC : FeedChannel}.

(** C16. Stopped finite execution, end to end. Take a configuration that passes its checks, a
    head at its checkpoint block, an engine that answers and numbers blocks one after the other, with
    numbers below the end of [u64], and a derivation whose windows, delivered after the checkpoint over a channel
    that takes them, reach the frontier, any number of blocks away. Whenever the messages arrive and
    whenever the input is closed, the drive loop ends at or below the frontier. If the close rejected
    no message, which is so when it takes effect once the derivation has sent its last one, the
    engine has been driven from the checkpoint block to exactly the frontier block. The run returns
    the durable header at the frontier when the node exited cleanly with that durable tip after a
    derivation that reached the frontier, and nothing in any other case. *)
Theorem stopped_finite_exact (reth : StoppedFiniteRethLaunch) (boot : ResolvedRollupBoot)
    (finite : StoppedFiniteConfig) (head : SealedHeader) (windows : list (list BroadcastFeedMessage))
    (sent : list BroadcastFeedMessage) (l1 feed : Receiver) (close_at : nat) :
  validate finite boot reth = Ok tt -> healthy -> numbered ->
  (forall l, accepts l = true) ->
  sh_number head = l2_block (sf_checkpoint finite) -> 0 <= rb_genesis_block boot ->
  l2_block (sf_checkpoint finite) < sf_frontier finite < U64_MAX ->
  l2_block (sf_checkpoint finite) + 1 + Z.of_nat (length (concat windows)) < 2 ^ 64 ->
  deliver_windows windows (l2_block (sf_checkpoint finite) + 1) (cfg_db_tip_l2 (sf_l1_sync finite))
    (cfg_genesis_block (sf_l1_sync finite)) (cfg_l2_frontier (sf_l1_sync finite)) []
    = (Some (FrontierReached (sf_frontier finite)), sent) ->
  arrivals l1 = sent -> arrivals feed = [] ->
  exists st,
    launch_and_drive (enough feed l1) (Finite (sf_frontier finite)) (rb_genesis_block boot) head feed l1 close_at
      = Some (Ok st) /\
    sh_number (tip (ds_driver st)) <= sf_frontier finite /\
    (all_queued l1 -> ds_rejected st = []) /\
    (ds_rejected st = [] -> sh_number (tip (ds_driver st)) = sf_frontier finite) /\
    forall provider exit derivation obs,
      run_stopped_finite reth boot finite (Ok provider) exit derivation = Ok obs <->
      derivation = Ok (FrontierReached (sf_frontier finite)) /\ exit = Ok tt /\
      last_block_number provider = Ok (sf_frontier finite) /\
      exists h, sealed_header provider (sf_frontier finite) = Ok (Some h) /\
        obs = {| number := sf_frontier finite; hash := hr_hash h; state_root := hr_state_root h |}.
Proof.
  intros Hv Hh Hn Hch Hhead Hg Hf Hb Hsent Harr Hfeed.
  destruct (validate_sound _ _ _ Hv) as (Hge & _ & Htip & Hgen & Hfr & _).
  rewrite Htip, Hgen, Hfr in Hsent.
  assert (Hcp : 0 <= l2_block (sf_checkpoint finite)) by lia.
  destruct (sent_consecutive _ _ _ _ _ Hch Hcp Hg (proj1 Hge) Hf Hb Hsent) as [Hc Hlen].
  assert (Hcl : clean (rb_genesis_block boot) head feed l1).
  { split; [done|done|lia|unfold U64_MAX in *; lia|]. intros m. rewrite Hfeed, Harr. cbn [app].
    intros (i & Hi)%list_elem_of_In%list_elem_of_lookup. rewrite (Hc i m Hi).
    apply lookup_lt_Some in Hi. lia. }
  assert (Hhf : sh_number head <= sf_frontier finite) by lia.
  destruct (finite_handoffs _ _ (sf_frontier finite) feed l1 close_at Hcl Hhf) as (st & cut & Hr & Hfh).
  exists st. rewrite <- (fh_rejected _ _ _ _ _ _ Hfh).
  split_and!; [done|by eapply finite_tip_le|apply Hfh| |].
  - intros E. eapply finite_tip_reaches; [done|done|done|done|by rewrite Harr, Hhead|]. rewrite Harr, Hhead. lia.
  - intros provider exit derivation obs.
    unfold run_stopped_finite. rewrite Hv. cbn [map_err rbind]. apply finish_iff.
Qed.
End EndToEnd.

(** ** Witness: from checkpoint 100 to frontier 103 over two windows *)

Definition sample_header : HeaderRow := {| hr_hash := 77; hr_state_root := 78 |}.

#[local] Instance sample_env : FiniteEnv := {|
  canonicalize p := Some p;
  static_headers := Ok (fun n => Ok (if n =? 100 then Some sample_header else None));
  parse_url _ := Some ("http"%string, Some "host"%string)
|}.

Definition sample_boot : ResolvedRollupBoot := {|
  rb_chain_spec := {| cs_chain_id := 42161; cs_genesis_hash := 77 |};
  rb_chain_id := 42161; rb_genesis_block := 100; rb_sequencer_inbox := 5; rb_bridge := 6
|}.

Definition sample_reth : StoppedFiniteRethLaunch := {|
  fl_chain := {| cs_chain_id := 42161; cs_genesis_hash := 77 |};
  fl_configured_db := "db"; fl_database_path := "db"
|}.

Definition sample_finite : StoppedFiniteConfig := {|
  sf_checkpoint := {| l1_block := 9; delayed_count := 0; l2_block := 100 |};
  sf_l1_sync := {|
    cfg_sequencer_inbox := 5; cfg_bridge := 6; cfg_start_block := 9; cfg_end_block := Some 20;
    cfg_start_delayed_count := 0; cfg_start_l2_block := 100; cfg_db_tip_l2 := 100;
    cfg_l2_frontier := Some 103; cfg_genesis_block := 100; cfg_checkpointing := false;
    cfg_batch_window := 10; cfg_delayed_window := 10; cfg_confirmations := 8; cfg_prefetch_windows := 2 |};
  sf_l1_rpc := "http://host"; sf_l1_beacon := None; sf_frontier := 103
|}.

Definition sample_windows : list (list BroadcastFeedMessage) :=
  [repeat blank_message 2; repeat blank_message 2].

Definition sample_sent : list BroadcastFeedMessage :=
  snd (deliver_windows (FC := open_channel) sample_windows 101 100 100 (Some 103) []).

(** The messages arrive with pauses; the input is closed after the last one. *)
Definition sample_paused : Receiver :=
  flat_map (fun m => [NotYet; Arrived m; NotYet]) sample_sent.

Lemma stopped_finite_exact_witness :
  exists st,
    launch_and_drive (enough [] sample_paused) (Finite 103) 100 sample_tip [] sample_paused 12 = Some (Ok st) /\
    sh_number (tip (ds_driver st)) = 103 /\
    run_stopped_finite sample_reth sample_boot sample_finite
      (Ok {| last_block_number := Ok 103; sealed_header _ := Ok (Some sample_header) |}) (Ok tt)
      (Ok (FrontierReached 103)) = Ok {| number := 103; hash := 77; state_root := 78 |}.
Proof.
  destruct (stopped_finite_exact (FC := open_channel) sample_reth sample_boot sample_finite sample_tip sample_windows
              sample_sent sample_paused [] 12) as (st & Hr & _ & _ & Ht & Hiff).
  - vm_compute. reflexivity.
  - apply sample_healthy.
  - apply sample_healthy.
  - reflexivity.
  - reflexivity.
  - cbn. lia.
  - cbn. unfold U64_MAX. lia.
  - cbn. lia.
  - vm_compute. reflexivity.
  - vm_compute. reflexivity.
  - reflexivity.
  - assert (Hst : Some (Ok st) = launch_and_drive (enough [] sample_paused) (Finite 103) 100 sample_tip [] sample_paused 12)
      by (symmetry; exact Hr).
    exists st. split; [exact Hr|]. split.
    + apply Ht. clear -Hst. vm_compute in Hst. injection Hst as ->. reflexivity.
    + apply Hiff. split; [reflexivity|]. split; [reflexivity|]. split; [reflexivity|]. exists sample_header. split; reflexivity.
Defined.
