(* ===== verification/Recover.v ===== *)
(** * Stopped recovery after a trusted-L2 incident

    [crates/arb-reth-node/src/commands/recover.rs]: the journal and its phases, the decision from
    the durable tip, the unwind, the truncation of the resume log, the finite rebuild and its
    verification, as one program over what is on disk. A run reads and writes a [Disk]; every
    durable write may fail, before or after it took effect, and the power may fail before any of
    them. What happens outside the program (RPC answers, opening the database, the node that the
    finite run launches) is the run's [Env]. *)

From Stdlib Require Import Strings.Byte Strings.String.
From stdpp Require Import base list numbers option strings gmap.
From S2P Require Import Prelude FileSystem Crash L1Reader DelayedReader Resume L1Sync TrustedL2 Finite.

(** ** The journal *)

Inductive Phase := Prepared | Unwound | ResumeTruncated | FrontierMatched | Failed.

#[export] Instance Phase_eq_dec : EqDecision Phase.
Proof. solve_decision. Defined.

Record RecoveryIdentity := {
  id_chain_id : Z;
  id_genesis_block : Z;
  id_genesis_hash : Z;
  id_sequencer_inbox : Z;
  id_bridge : Z;
  id_canonical_l2_rpc : string;
  id_l1_rpc : string;
  id_l1_beacon : string;
  id_l1_end_block : Z;
  id_max_recovery_l2_blocks : Z;
  id_l1_prefetch : Z;
  id_l1_getlogs_range : Z
}.

#[export] Instance RecoveryIdentity_eq_dec : EqDecision RecoveryIdentity.
Proof. solve_decision. Defined.

#[export] Instance Incident_eq_dec : EqDecision Incident.
Proof. solve_decision. Defined.

Record RecoveryJournal := {
  jn_schema_version : Z;
  jn_identity : RecoveryIdentity;
  jn_incident : Incident;
  jn_checkpoint : L1ResumeCheckpoint;
  jn_truncated_resume : L1ResumeLog;
  jn_original_tip : Z;
  jn_target : Z;
  jn_frontier : Z;
  jn_phase : Phase
}.

#[export] Instance RecoveryJournal_eq_dec : EqDecision RecoveryJournal.
Proof. solve_decision. Defined.

Definition with_phase (j : RecoveryJournal) (p : Phase) : RecoveryJournal := {|
  jn_schema_version := jn_schema_version j; jn_identity := jn_identity j; jn_incident := jn_incident j;
  jn_checkpoint := jn_checkpoint j; jn_truncated_resume := jn_truncated_resume j;
  jn_original_tip := jn_original_tip j; jn_target := jn_target j; jn_frontier := jn_frontier j; jn_phase := p
|}.

(** [serde_json] on the marker and on the journal. *)
Class RecoverJson := {
  incident_from_slice : bytes -> option Incident;
  journal_to_vec : RecoveryJournal -> bytes;
  journal_from_slice : bytes -> option RecoveryJournal;
  (** Trailing whitespace after the document is accepted. *)
  journal_roundtrip : forall j, journal_from_slice (journal_to_vec j ++ [x0a]) = Some j
}.

(** What an error of the command says: [AuthorityError] is the only kind that is looked at. *)
Inductive RecoverError :=
| AuthorityError (error : RecoveryAuthorityError)
| FiniteFailed (error : FiniteError)
| AlsoUnrecorded (cause save : RecoverError)
| Failure (message : string).

Definition is_authority_error (error : RecoverError) : bool :=
  match error with AuthorityError _ => true | _ => false end.

Definition same_immutable_identity (left right : RecoveryJournal) : bool :=
  (jn_schema_version left =? jn_schema_version right)
  && bool_decide (jn_identity left = jn_identity right)
  && bool_decide (jn_incident left = jn_incident right)
  && bool_decide (jn_checkpoint left = jn_checkpoint right)
  && bool_decide (jn_truncated_resume left = jn_truncated_resume right)
  && (jn_original_tip left =? jn_original_tip right)
  && (jn_target left =? jn_target right)
  && (jn_frontier left =? jn_frontier right).

Definition legal_phase_transition (from to : Phase) : bool :=
  bool_decide (from = to) ||
  match from, to with
  | Prepared, (Unwound | Failed) | Unwound, (ResumeTruncated | Failed)
  | ResumeTruncated, (FrontierMatched | Failed) => true
  | _, _ => false
  end.

Inductive DurableTipAction := UnwindToTarget | AtTarget | VerifyFrontier.

#[export] Instance DurableTipAction_eq_dec : EqDecision DurableTipAction.
Proof. solve_decision. Defined.

Definition durable_tip_action (journal : RecoveryJournal) (tip : Z) : result RecoverError DurableTipAction :=
  let incompatible := Err (Failure "database tip is incompatible with recovery phase") in
  match jn_phase journal with
  | Prepared =>
      if jn_target journal <=? tip then
        Ok (if jn_target journal <? tip then UnwindToTarget else AtTarget)
      else incompatible
  | Unwound => if tip =? jn_target journal then Ok AtTarget else incompatible
  | ResumeTruncated =>
      if tip =? jn_target journal then Ok AtTarget
      else if (jn_target journal <? tip) && (tip <? jn_frontier journal) then Ok UnwindToTarget
      else if tip =? jn_frontier journal then Ok VerifyFrontier
      else incompatible
  | FrontierMatched => if tip =? jn_frontier journal then Ok VerifyFrontier else incompatible
  | Failed => Err (Failure "recovery journal is terminally failed")
  end.

(** ** Disk and programs *)

Record Database := { db_tip : Z; db_headers : gmap Z HeaderRow }.

(** [remove_block_and_execution_above] *)
Definition remove_above (target : Z) (db : Database) : Database :=
  {| db_tip := target; db_headers := filter (fun '(n, _) => n <= target) (db_headers db) |}.

Record Disk := {
  dk_marker : option bytes;
  dk_resume : option bytes;
  dk_journal : option bytes;
  dk_db : Database
}.

Definition set_journal (bs : bytes) (d : Disk) : Disk :=
  {| dk_marker := dk_marker d; dk_resume := dk_resume d; dk_journal := Some bs; dk_db := dk_db d |}.
Definition set_resume (bs : bytes) (d : Disk) : Disk :=
  {| dk_marker := dk_marker d; dk_resume := Some bs; dk_journal := dk_journal d; dk_db := dk_db d |}.
Definition set_db (db : Database) (d : Disk) : Disk :=
  {| dk_marker := dk_marker d; dk_resume := dk_resume d; dk_journal := dk_journal d; dk_db := db |}.

(** Programs of the command. *)
Abbreviation Prog := (M Disk RecoverError).

Definition fail {A : Type} (message : string) : Prog A := raise (Failure message).
Definition report {A : Type} (r : result string A) : Prog A := lift (map_err Failure r).

(** ** Inputs *)

Record RecoverArgs := {
  ra_canonical_l2_rpc : string;
  ra_l1_rpc : string;
  ra_l1_beacon : string;
  ra_l1_end_block : Z;
  ra_max_recovery_l2_blocks : Z;
  ra_snapshot_head : option string;
  ra_chain_info : option string;
  ra_genesis_json : option string;
  ra_chain_id : option Z;
  ra_l1_prefetch : Z;
  ra_l1_getlogs_range : Z
}.

Record Boot := { bt_resolved : ResolvedRollupBoot; bt_genesis_hash : Z }.

(** What [orbit_chain_from_files] yields of the chain. *)
Record OrbitChain := {
  ob_spec : ChainSpec; ob_chain_id : Z; ob_genesis_block : Z; ob_sequencer_inbox : Z; ob_bridge : Z
}.

(** A launched node, to its end: the database it leaves, whether the power failed meanwhile, and
    what launching, its exit and the derivation returned. *)
Record NodeRun := {
  nr_db : Database;
  nr_crashed : bool;
  nr_launch : result string unit;
  nr_exit : result string unit;
  nr_derivation : result L1SyncError L1SyncCompletion
}.

(** The places of the program that ask the authority, and that open the database. *)
Inductive AskSite := AskFrontier | AskChoose | AskCheckpoint | AskRebuilt | AskVerify.
Inductive OpenSite := OpenTip | OpenUnwind | OpenReopen | OpenVerify.
Inductive BootSite := BootInitial | BootPreflight.

Record Env := {
  ev_snapshot : BootSite -> string -> result string (Z * Z);
  ev_orbit : BootSite -> string -> string -> result string OrbitChain;
  ev_client : option unit;
  ev_chain_id : result string bytes;
  ev_ask : AskSite -> Z -> result ClientError (option RemoteHeader);
  ev_static : Database -> result string (Z -> result string (option HeaderRow));
  ev_lock : result string unit;
  ev_open : OpenSite -> result string unit;
  ev_consistency : OpenSite -> result string (option Z * option Z);
  ev_provider : OpenSite -> result string unit;
  ev_unwind : Database -> Z -> result string unit * Database;
  ev_create : Fault RecoverError;
  ev_save : Phase -> Fault RecoverError;
  ev_resume_save : Fault RecoverError;
  ev_finite : Database -> FiniteEnv;
  ev_database_path : string;
  ev_node : StoppedFiniteConfig -> Database -> NodeRun
}.

Definition ARB_ONE_CHAIN_ID : Z := 42161.

(** [super::rewind::require_storage_v2_consistency], from the outcome of [check_consistency]: the
    unwind targets of RocksDB and of the static files. *)
Definition require_storage_v2_consistency (check : result string (option Z * option Z)) : result string unit :=
  let? '(rocksdb_unwind, sf_unwind) := map_err (fun _ => "static-file/db consistency check failed"%string) check in
  match rocksdb_unwind, sf_unwind with
  | None, None => Ok tt
  | _, _ => Err "datadir needs a pipeline unwind before it is consistent"%string
  end.

(** Derive the immutable retained prefix from a strict pre-mutation log. *)
Definition truncated_resume_from (log : L1ResumeLog) (checkpoint : L1ResumeCheckpoint)
    : result string L1ResumeLog :=
  let truncated := snd (truncate_to log (l2_block checkpoint)) in
  if negb (bool_decide (last truncated = Some checkpoint)) then
    Err "strict resume log no longer retains selected checkpoint"%string
  else Ok truncated.

Definition observation (n : Z) (header : HeaderRow) : HeaderObservation :=
  {| number := n; hash := hr_hash header; state_root := hr_state_root header |}.

Definition exact (left right : HeaderObservation) : bool := bool_decide (left = right).

Section Operations.
Context {RJ : ResumeJson} {CJ : RecoverJson} {PB : ParseB256}.

Definition strict_journal (contents : option bytes) : result string (option RecoveryJournal) :=
  match contents with
  | None => Ok None
  | Some bs =>
      let? journal := ok_or "invalid recovery journal"%string (journal_from_slice bs) in
      if negb (jn_schema_version journal =? 2) then
        Err "unsupported recovery journal schema version"%string
      else Ok (Some journal)
  end.

Definition journal_bytes (j : RecoveryJournal) : bytes := journal_to_vec j ++ [x0a].

Definition read_journal (d : Disk) : result string (option RecoveryJournal) := strict_journal (dk_journal d).

Definition read_incident (d : Disk) : result string Incident :=
  load_active_incident incident_from_slice (ok_or "not found"%string (dk_marker d)).

Definition read_resume (d : Disk) : result string L1ResumeLog := ResumeFile.load_strict (dk_resume d).

(** Create the immutable initial journal without replacing a concurrent creator. *)
Definition create_journal (ev : Env) (journal : RecoveryJournal) : Prog RecoveryJournal :=
  let! d := get in
  match dk_journal d with
  | Some _ =>
      let! existing := report (read_journal d) in
      let! existing := report (ok_or "journal disappeared during creation"%string existing) in
      if negb (bool_decide (existing = journal)) then
        fail "concurrent recovery created a different immutable journal"
      else mret existing
  | None => let! _ := write (ev_create ev) (set_journal (journal_bytes journal)) in mret journal
  end.

(** Update only the phase of an already-published, identity-verified journal. *)
Definition save_journal (ev : Env) (journal : RecoveryJournal) : Prog unit :=
  let! d := get in
  let! current := report (read_journal d) in
  let! current := report (ok_or "recovery journal disappeared before phase update"%string current) in
  if negb (same_immutable_identity current journal) then
    fail "recovery journal immutable identity changed before phase update"
  else if negb (legal_phase_transition (jn_phase current) (jn_phase journal)) then
    fail "illegal recovery journal phase transition"
  else write (ev_save ev (jn_phase journal)) (set_journal (journal_bytes journal)).

(** [cause] ends the run; the journal is terminal unless recording that fails too. *)
Definition persist_terminal_failure {A : Type} (ev : Env) (journal : RecoveryJournal) (cause : RecoverError)
    : Prog A := fun s =>
  match save_journal ev (with_phase journal Failed) s with
  | (Ret _, s) => (Raise cause, s)
  | (Raise error, s) => (Raise (AlsoUnrecorded cause error), s)
  | (Crashed, s) => (Crashed, s)
  end.

Definition ask_header (ev : Env) (site : AskSite) (n : Z) : result RecoverError HeaderObservation :=
  map_err AuthorityError (client_header (ev_ask ev site n) n).

Definition boot_of (ev : Env) (site : BootSite) (args : RecoverArgs) : result string Boot :=
  match ra_snapshot_head args, ra_chain_info args, ra_genesis_json args with
  | Some head, None, None =>
      let? chain_id := ok_or "--snapshot-head requires explicit --chain-id"%string (ra_chain_id args) in
      if negb (chain_id =? ARB_ONE_CHAIN_ID) then Err "--snapshot-head recovery only supports Arbitrum One"%string
      else
        let? '(genesis, hash) := ev_snapshot ev site head in
        Ok {| bt_resolved := {| rb_chain_spec := {| cs_chain_id := chain_id; cs_genesis_hash := hash |};
                                rb_chain_id := chain_id; rb_genesis_block := genesis;
                                rb_sequencer_inbox := SequencerInboxReader.SEQUENCER_INBOX_MAINNET;
                                rb_bridge := DelayedInboxReader.BRIDGE_MAINNET |};
              bt_genesis_hash := hash |}
  | None, Some chain_info, Some genesis =>
      let? chain := ev_orbit ev site chain_info genesis in
      if match ra_chain_id args with Some id => negb (id =? ob_chain_id chain) | None => false end
      then Err "--chain-id does not match Orbit boot chain id"%string
      else Ok {| bt_resolved := {| rb_chain_spec := ob_spec chain; rb_chain_id := ob_chain_id chain;
                                   rb_genesis_block := ob_genesis_block chain;
                                   rb_sequencer_inbox := ob_sequencer_inbox chain; rb_bridge := ob_bridge chain |};
                 bt_genesis_hash := cs_genesis_hash (ob_spec chain) |}
  | _, _, _ => Err "provide exactly --snapshot-head with --chain-id, or --chain-info together with --genesis"%string
  end.

Definition boot (ev : Env) (site : BootSite) (args : RecoverArgs) (incident : Incident) : result string Boot :=
  let? boot := boot_of ev site args in
  if negb (rb_chain_id (bt_resolved boot) =? effective_chain_id incident) then
    Err "boot chain id does not match active incident effective chain id"%string
  else Ok boot.

Definition recovery_identity (args : RecoverArgs) (boot : Boot) : RecoveryIdentity := {|
  id_chain_id := rb_chain_id (bt_resolved boot);
  id_genesis_block := rb_genesis_block (bt_resolved boot);
  id_genesis_hash := bt_genesis_hash boot;
  id_sequencer_inbox := rb_sequencer_inbox (bt_resolved boot);
  id_bridge := rb_bridge (bt_resolved boot);
  id_canonical_l2_rpc := ra_canonical_l2_rpc args;
  id_l1_rpc := ra_l1_rpc args;
  id_l1_beacon := ra_l1_beacon args;
  id_l1_end_block := ra_l1_end_block args;
  id_max_recovery_l2_blocks := ra_max_recovery_l2_blocks args;
  id_l1_prefetch := ra_l1_prefetch args;
  id_l1_getlogs_range := ra_l1_getlogs_range args
|}.

Definition validate_finite_inputs {FE : FiniteEnv} (args : RecoverArgs) (checkpoint : L1ResumeCheckpoint)
    : result RecoverError unit :=
  let invalid := map_err (fun e => FiniteFailed (Invalid e)) in
  let? _ := invalid (validate_http_url "--l1-rpc" (ra_l1_rpc args)) in
  let? _ := invalid (validate_http_url "--l1-beacon" (ra_l1_beacon args)) in
  if ra_l1_end_block args <? l1_block checkpoint then
    Err (Failure "--l1-end-block is before the selected checkpoint L1 block")
  else Ok tt.

(** The candidates of [choose_checkpoint], newest first. *)
Fixpoint choose_checkpoint (ev : Env) (local : Z -> result string (option HeaderRow)) (incident : Incident)
    (max_span : Z) (candidates : L1ResumeLog) : result RecoverError L1ResumeCheckpoint :=
  match candidates with
  | [] => Err (Failure "no exact canonical resume checkpoint exists below incident frontier")
  | checkpoint :: candidates =>
      let? row := map_err Failure (local (l2_block checkpoint)) in
      match row with
      | None => choose_checkpoint ev local incident max_span candidates
      | Some row =>
          let? canonical := ask_header ev AskChoose (l2_block checkpoint) in
          if exact (observation (l2_block checkpoint) row) canonical then
            if l2_block_number incident <? l2_block checkpoint then Err (Failure "checkpoint is above incident")
            else if max_span <? l2_block_number incident - l2_block checkpoint then
              Err (Failure "selected recovery span exceeds --max-recovery-l2-blocks")
            else Ok checkpoint
          else choose_checkpoint ev local incident max_span candidates
      end
  end.

Definition candidates_of (log : L1ResumeLog) (incident : Incident) : L1ResumeLog :=
  List.filter (fun cp => l2_block cp <? l2_block_number incident) (rev log).

(** ** The stages *)

(** [open_factory] and the durable tip. *)
Definition open_tip (ev : Env) (site : OpenSite) (checked : bool) : Prog Z :=
  let! _ := report (ev_open ev site) in
  let! _ := if checked then report (require_storage_v2_consistency (ev_consistency ev site)) else mret tt in
  let! _ := report (ev_provider ev site) in
  let! d := get in
  mret (db_tip (dk_db d)).

(** [remove_block_and_execution_above] and its commit. *)
Definition commit_unwind (ev : Env) (target : Z) : Prog (result string unit) := fun '(d, n) =>
  match n with
  | O => (Crashed, (d, O))
  | S n => let '(r, db) := ev_unwind ev (dk_db d) target in (Ret r, (set_db db d, n))
  end.

(** [None]: the journal already represents a durable frontier. *)
Definition unwind_and_reopen (ev : Env) (journal : RecoveryJournal) : Prog (option RecoveryJournal) :=
  let! tip := open_tip ev OpenUnwind true in
  let! action := lift (durable_tip_action journal tip) in
  if bool_decide (action = VerifyFrontier) then mret None
  else
    let! _ := (if bool_decide (action = UnwindToTarget) then
                 let! r := commit_unwind ev (jn_target journal) in
                 match r with
                 | Err e => persist_terminal_failure ev journal (Failure e)
                 | Ok _ => mret tt
                 end
               else mret tt) in
    let! reopened_tip := open_tip ev OpenReopen true in
    if negb (reopened_tip =? jn_target journal) then
      persist_terminal_failure ev journal (Failure "unwind reopened at another block")
    else if bool_decide (jn_phase journal = Prepared) then
      let journal := with_phase journal Unwound in
      let! _ := save_journal ev journal in
      mret (Some journal)
    else mret (Some journal).

Definition verify_durable_frontier (ev : Env) (journal : RecoveryJournal) : Prog unit :=
  let! tip := open_tip ev OpenVerify false in
  let! d := get in
  let! row := report (ok_or "durable frontier header is missing"%string (db_headers (dk_db d) !! jn_frontier journal)) in
  if negb (tip =? jn_frontier journal) then fail "durable local tip does not equal recovery frontier"
  else
    let! canonical := lift (ask_header ev AskVerify (jn_frontier journal)) in
    if negb (exact (observation (jn_frontier journal) row) canonical) then
      fail "durable local frontier does not match canonical authority"
    else mret tt.

(** The reread of the resume file, and whether it is the journal's prefix. *)
Definition confirm_resume (ev : Env) (journal : RecoveryJournal) : Prog unit :=
  let! d := get in
  match read_resume d with
  | Err e => persist_terminal_failure ev journal (Failure e)
  | Ok durable =>
      if negb (bool_decide (durable = jn_truncated_resume journal)) then
        persist_terminal_failure ev journal (Failure "durable resume log does not equal journal-bound truncation")
      else mret tt
  end.

(** [expected.save(resume_path)], its error made terminal. *)
Definition save_resume (ev : Env) (journal : RecoveryJournal) : Prog unit := fun s =>
  match write (ev_resume_save ev) (set_resume (json_to_vec (jn_truncated_resume journal) ++ [x0a])) s with
  | (Raise error, s) => persist_terminal_failure ev journal error s
  | r => r
  end.

Definition durably_truncate_resume (ev : Env) (log : L1ResumeLog) (journal : RecoveryJournal)
    : Prog RecoveryJournal :=
  let expected := jn_truncated_resume journal in
  let! derived := report (truncated_resume_from log (jn_checkpoint journal)) in
  if negb (bool_decide (derived = expected)) then
    persist_terminal_failure ev journal (Failure "strict resume log does not match journal-bound truncation")
  else
    match jn_phase journal with
    | Unwound =>
        let! _ := (if negb (bool_decide (log = expected)) then save_resume ev journal else mret tt) in
        let! _ := confirm_resume ev journal in
        let next := with_phase journal ResumeTruncated in
        let! _ := save_journal ev next in
        mret next
    | ResumeTruncated => let! _ := confirm_resume ev journal in mret journal
    | _ => fail "cannot truncate resume log from this recovery phase"
    end.

Definition preflight (ev : Env) (args : RecoverArgs) (pre : Disk)
    : result RecoverError (Boot * Incident * L1ResumeLog) :=
  if ra_max_recovery_l2_blocks args =? 0 then Err (Failure "--max-recovery-l2-blocks must be nonzero")
  else if (ra_l1_prefetch args =? 0) || (ra_l1_getlogs_range args =? 0) then
    Err (Failure "L1 recovery bounds must be nonzero")
  else
    let? incident := map_err Failure (read_incident pre) in
    let? b := map_err Failure (boot ev BootPreflight args incident) in
    let? log := map_err Failure (read_resume pre) in
    let? _ := map_err AuthorityError
                (connect (ev_client ev) (ev_chain_id ev) (rb_chain_id (bt_resolved b))) in
    let? frontier := ask_header ev AskFrontier (l2_block_number incident) in
    if negb (hash frontier =? canonical_hash incident) || negb (state_root frontier =? canonical_state_root incident)
    then Err (AuthorityError (AuthorityMismatch "canonical incident frontier no longer matches active incident authority"))
    else Ok (b, incident, log).

(** The bounded sync of the rebuild. *)
Definition finite_config (args : RecoverArgs) (boot : ResolvedRollupBoot) (checkpoint : L1ResumeCheckpoint)
    (frontier : Z) : StoppedFiniteConfig :=
  let base := L1SyncConfig_mainnet (l1_block checkpoint) (delayed_count checkpoint) in {|
    sf_checkpoint := checkpoint;
    sf_l1_sync := {|
      cfg_sequencer_inbox := rb_sequencer_inbox boot; cfg_bridge := rb_bridge boot;
      cfg_start_block := cfg_start_block base; cfg_end_block := Some (ra_l1_end_block args);
      cfg_start_delayed_count := cfg_start_delayed_count base;
      cfg_start_l2_block := l2_block checkpoint; cfg_db_tip_l2 := l2_block checkpoint;
      cfg_l2_frontier := Some frontier; cfg_genesis_block := rb_genesis_block boot;
      cfg_checkpointing := cfg_checkpointing base; cfg_batch_window := ra_l1_getlogs_range args;
      cfg_delayed_window := ra_l1_getlogs_range args; cfg_confirmations := cfg_confirmations base;
      cfg_prefetch_windows := ra_l1_prefetch args |};
    sf_l1_rpc := ra_l1_rpc args; sf_l1_beacon := Some (ra_l1_beacon args); sf_frontier := frontier
|}.

Definition provider_of (db : Database) : NodeProvider :=
  {| last_block_number := Ok (db_tip db); sealed_header n := Ok (db_headers db !! n) |}.

(** [finite_runner] as [run] instantiates it: the node is launched once the inputs are valid. *)
Definition finite_runner (ev : Env) (boot : ResolvedRollupBoot) (finite : StoppedFiniteConfig)
    : Prog HeaderObservation := fun '(d, n) =>
  let reth := {| fl_chain := rb_chain_spec boot; fl_configured_db := ev_database_path ev;
                 fl_database_path := ev_database_path ev |} in
  let FE := ev_finite ev (dk_db d) in
  match validate finite boot reth with
  | Err e => (Raise (FiniteFailed (Invalid e)), (d, n))
  | Ok _ =>
      let node := ev_node ev finite (dk_db d) in
      let s := (set_db (nr_db node) d, n) in
      if nr_crashed node then (Crashed, s)
      else
        match run_stopped_finite reth boot finite (let? _ := nr_launch node in Ok (provider_of (nr_db node)))
                (nr_exit node) (nr_derivation node) with
        | Ok o => (Ret o, s)
        | Err e => (Raise (FiniteFailed e), s)
        end
  end.

(** Everything before the lock; nothing is written. [pre] is what the files held then. The result is
    what the rest of the run uses: the boot, the incident, the log, the journal if there was one,
    and the selected checkpoint. *)
Definition before_lock (ev : Env) (args : RecoverArgs) (pre : Disk)
    : result RecoverError (Boot * Incident * L1ResumeLog * option RecoveryJournal * L1ResumeCheckpoint) :=
  let? initial_incident := map_err Failure (read_incident pre) in
  let? initial_boot := map_err Failure (boot ev BootInitial args initial_incident) in
  let? initial_journal := map_err Failure (read_journal pre) in
  if match initial_journal with
     | Some existing => negb (bool_decide (jn_incident existing = initial_incident))
                        || negb (bool_decide (jn_identity existing = recovery_identity args initial_boot))
     | None => false
     end
  then Err (Failure "recovery inputs do not match the immutable journal identity")
  else if match initial_journal with Some j => bool_decide (jn_phase j = Failed) | None => false end
  then Err (Failure "recovery journal is marked failed; inspect it before a new recovery")
  else
    let? '(b, incident, log) := preflight ev args pre in
    let? header_by_number := map_err Failure (ev_static ev (dk_db pre)) in
    let? genesis := map_err Failure (header_by_number (rb_genesis_block (bt_resolved b))) in
    let? genesis := ok_or (Failure "boot genesis header is missing locally") genesis in
    if negb (hr_hash genesis =? cs_genesis_hash (rb_chain_spec (bt_resolved b))) then
      Err (Failure "local genesis hash does not match resolved chain boot")
    else
      let? checkpoint :=
        match initial_journal with
        | Some existing => Ok (jn_checkpoint existing)
        | None => choose_checkpoint ev header_by_number incident (ra_max_recovery_l2_blocks args)
                    (candidates_of log incident)
        end in
      let? local := map_err Failure (header_by_number (l2_block checkpoint)) in
      let? local := ok_or (Failure "selected recovery checkpoint header is missing locally") local in
      let? canonical := ask_header ev AskCheckpoint (l2_block checkpoint) in
      if negb (exact (observation (l2_block checkpoint) local) canonical) then
        Err (Failure "selected recovery checkpoint no longer matches canonical authority")
      else if l2_block_number incident <=? l2_block checkpoint then
        Err (Failure "selected checkpoint is not strictly below incident frontier")
      else if ra_max_recovery_l2_blocks args <? l2_block_number incident - l2_block checkpoint then
        Err (Failure "selected recovery span exceeds --max-recovery-l2-blocks")
      else
        let? _ := validate_finite_inputs (FE := ev_finite ev (dk_db pre)) args checkpoint in
        Ok (b, incident, log, initial_journal, checkpoint).

(** The rereads under the lock. *)
Definition recheck (args : RecoverArgs) (b : Boot) (incident : Incident) (log : L1ResumeLog)
    (initial_journal : option RecoveryJournal) (checkpoint : L1ResumeCheckpoint) (d : Disk)
    : result RecoverError (option RecoveryJournal) :=
  let? locked_incident := map_err Failure (read_incident d) in
  if negb (bool_decide (locked_incident = incident)) then
    Err (Failure "active incident changed before lock acquisition; refusing recovery")
  else
    let? locked_log := map_err Failure (read_resume d) in
    if negb (bool_decide (locked_log = log)) then
      Err (Failure "recovery resume log changed before lock acquisition; refusing recovery")
    else
      let? journal := map_err Failure (read_journal d) in
      if bool_decide (is_Some initial_journal) && bool_decide (journal = None) then
        Err (Failure "recovery journal disappeared before lock acquisition; refusing recovery")
      else
        match journal with
        | None => Ok None
        | Some existing =>
            if negb (bool_decide (jn_incident existing = locked_incident)) then
              Err (Failure "recovery journal names a different active incident; refusing target reselection")
            else if negb (bool_decide (jn_identity existing = recovery_identity args b)) then
              Err (Failure "recovery inputs do not match the immutable journal identity")
            else if bool_decide (jn_phase existing = Failed) then
              Err (Failure "recovery journal is marked failed; inspect it before a new recovery")
            else if negb (bool_decide (jn_checkpoint existing = checkpoint))
                 || negb (jn_target existing =? l2_block checkpoint)
                 || negb (jn_frontier existing =? l2_block_number locked_incident) then
              Err (Failure "recovery journal changed before lock acquisition; refusing target reselection")
            else
              let? truncated := map_err Failure (truncated_resume_from locked_log checkpoint) in
              if negb (bool_decide (jn_truncated_resume existing = truncated)) then
                Err (Failure "recovery journal changed before lock acquisition; refusing target reselection")
              else Ok (Some existing)
        end.

(** The journal of the run: the one on disk, or a new one. *)
Definition prepare (ev : Env) (args : RecoverArgs) (b : Boot) (incident : Incident) (log : L1ResumeLog)
    (checkpoint : L1ResumeCheckpoint) (journal : option RecoveryJournal) : Prog RecoveryJournal :=
  let! tip := open_tip ev OpenTip false in
  if bool_decide (journal = None) && (tip <? l2_block_number incident) then
    fail "database tip is below incident frontier; refusing initial recovery"
  else if l2_block checkpoint <? rb_genesis_block (bt_resolved b) then
    fail "selected checkpoint is below boot genesis"
  else
    match journal with
    | Some existing =>
        if negb (jn_target existing =? l2_block checkpoint)
           || negb (jn_frontier existing =? l2_block_number incident) then
          fail "recovery journal target does not match its checkpoint/frontier"
        else mret existing
    | None =>
        let! truncated := report (truncated_resume_from log checkpoint) in
        create_journal ev {|
          jn_schema_version := 2; jn_identity := recovery_identity args b; jn_incident := incident;
          jn_checkpoint := checkpoint; jn_truncated_resume := truncated; jn_original_tip := tip;
          jn_target := l2_block checkpoint; jn_frontier := l2_block_number incident; jn_phase := Prepared |}
    end.

(** [verify_durable_frontier] with its errors: an authority failure can be retried, anything else is
    terminal when [terminal] says so. *)
Definition verify_or_fail (ev : Env) (journal : RecoveryJournal) (terminal : bool) : Prog unit := fun s =>
  match verify_durable_frontier ev journal s with
  | (Raise error, s) =>
      if is_authority_error error then (Raise error, s)
      else if terminal then persist_terminal_failure ev journal error s
      else (Raise error, s)
  | r => r
  end.

(** A durable tip at the frontier: verified afresh. *)
Definition verify_frontier_stage (ev : Env) (journal : RecoveryJournal) : Prog unit :=
  let at_resume := bool_decide (jn_phase journal = ResumeTruncated) in
  let! _ := verify_or_fail ev journal at_resume in
  if at_resume then save_journal ev (with_phase journal FrontierMatched) else mret tt.

(** The rebuild up to the frontier, compared with the authority in memory and then on disk. *)
Definition rebuild_stage (ev : Env) (args : RecoverArgs) (b : Boot) (checkpoint : L1ResumeCheckpoint)
    (journal : RecoveryJournal) : Prog unit :=
  let! rebuilt := finite_runner ev (bt_resolved b)
                    (finite_config args (bt_resolved b) checkpoint (jn_frontier journal)) in
  let! canonical_frontier := lift (ask_header ev AskRebuilt (jn_frontier journal)) in
  if negb (exact rebuilt canonical_frontier) then
    persist_terminal_failure ev journal (Failure "rebuilt frontier does not match canonical hash/state root")
  else
    let! _ := verify_or_fail ev journal true in
    save_journal ev (with_phase journal FrontierMatched).

(** [run_inner_with_before_lock]: [pre] is the disk before the lock, the state the disk under it. *)
Definition run_recover (ev : Env) (args : RecoverArgs) (pre : Disk) : Prog unit :=
  let! '(b, incident, log, initial_journal, checkpoint) := lift (before_lock ev args pre) in
  let! _ := report (ev_lock ev) in
  let! d := get in
  let! journal := lift (recheck args b incident log initial_journal checkpoint d) in
  let! journal := prepare ev args b incident log checkpoint journal in
  let! reopened := unwind_and_reopen ev journal in
  match reopened with
  | None => verify_frontier_stage ev journal
  | Some journal =>
      let! journal := durably_truncate_resume ev log journal in
      rebuild_stage ev args b checkpoint journal
  end.

(** ** A phase update is one durable write *)

(** The file system calls of [save_journal], on its temporary name. *)
Definition save_journal_ops (journal : RecoveryJournal) (path tmp : string) : list FileSystem.FsOp :=
  FileSystem.replace_ops path tmp (journal_to_vec journal).

(** A power loss among them leaves the previous journal or the new one, and after the last of them
    the new one. *)
Lemma save_journal_atomic (s : FileSystem.Fs) (path tmp : string) (old : option bytes) (journal : RecoveryJournal) :
  FileSystem.holds s path old -> tmp <> path -> FileSystem.dir s !! tmp = None -> jn_schema_version journal = 2 ->
  (forall k s' c, FileSystem.fs_run s (take k (save_journal_ops journal path tmp)) = Some s' ->
     FileSystem.survives s' path c -> c = old \/ strict_journal c = Ok (Some journal)) /\
  (exists s', FileSystem.fs_run s (save_journal_ops journal path tmp) = Some s' /\
     forall c, FileSystem.survives s' path c -> strict_journal c = Ok (Some journal)).
Proof.
  intros Hs Ht Hn Hv.
  assert (Hnew : strict_journal (Some (journal_to_vec journal ++ [x0a])) = Ok (Some journal)).
  { cbn. rewrite journal_roundtrip. cbn. by rewrite Hv. }
  split.
  - intros k s' c Hrun Hc.
    destruct (FileSystem.replace_survives s path tmp old Hs Ht Hn (journal_to_vec journal) k s' c Hrun Hc) as [->| ->]; auto.
  - destruct (FileSystem.replace_completes s path tmp old Hs Ht Hn (journal_to_vec journal)) as (s' & Hrun & Hc).
    exists s'. split; [done|]. intros c Hsv. by rewrite (Hc c Hsv).
Qed.

End Operations.
