(* ===== verification/RecoverSafety.v ===== *)
(** * What recovery guarantees over any history of runs

    Theorems about [Recover]: any number of runs of the command, each with its own inputs, faults
    and power losses, starting from a data directory with an incident and no journal. *)

From Stdlib Require Import Strings.Byte Strings.String.
From stdpp Require Import base list numbers option strings gmap relations.
From S2P Require Import Prelude FileSystem Crash L1Reader DelayedReader Resume L1Sync TrustedL2 Finite Recover.

(** ** Reads of the command *)

Lemma wp_report {A : Type} (r : result string A) (Q : A -> Disk -> Prop) (C : Disk -> Prop) (d : Disk) :
  C d -> (forall a, r = Ok a -> Q a d) -> wp (report r) Q C d.
Proof. intros HC HQ. apply wp_lift; [done|]. intros a H%map_err_Ok. by apply HQ. Qed.

Lemma wp_open_tip (ev : Env) (site : OpenSite) (checked : bool) (Q : Z -> Disk -> Prop) (C : Disk -> Prop) (d : Disk) :
  C d -> Q (db_tip (dk_db d)) d -> wp (open_tip ev site checked) Q C d.
Proof.
  intros HC HQ. unfold open_tip. apply wp_bind, wp_report; [done|]. intros _ _. apply wp_bind.
  assert (Hk : wp (let! _ := report (ev_provider ev site) in let! d := get in mret (db_tip (dk_db d))) Q C d).
  { apply wp_bind, wp_report; [done|]. intros _ _. apply wp_bind, wp_get. by apply wp_ret. }
  destruct checked; [|by apply wp_ret]. by apply wp_report.
Qed.

(** ** The journal on disk *)

Section Histories.
Context {RJ : ResumeJson} {CJ : RecoverJson} {PB : ParseB256}.

Definition has_journal (j : RecoveryJournal) (d : Disk) : Prop :=
  dk_journal d = Some (journal_bytes j) /\ jn_schema_version j = 2.

Lemma has_journal_read (j : RecoveryJournal) (d : Disk) : has_journal j d -> read_journal d = Ok (Some j).
Proof.
  intros [H Hv]. unfold read_journal, strict_journal. rewrite H. unfold journal_bytes. rewrite journal_roundtrip.
  cbn [ok_or rbind]. by rewrite Hv.
Qed.

Lemma same_immutable_phase (j : RecoveryJournal) (p : Phase) : same_immutable_identity j (with_phase j p) = true.
Proof.
  unfold same_immutable_identity. cbn [with_phase jn_schema_version jn_identity jn_incident jn_checkpoint
    jn_truncated_resume jn_original_tip jn_target jn_frontier]. by rewrite !Z.eqb_refl, !bool_decide_eq_true_2.
Qed.

Lemma wp_save (ev : Env) (j : RecoveryJournal) (p : Phase) (Q : unit -> Disk -> Prop) (C : Disk -> Prop) (d : Disk) :
  has_journal j d -> C d ->
  (legal_phase_transition (jn_phase j) p = true ->
   C (set_journal (journal_bytes (with_phase j p)) d) /\ Q tt (set_journal (journal_bytes (with_phase j p)) d)) ->
  wp (save_journal ev (with_phase j p)) Q C d.
Proof.
  intros Hj HC HQ. unfold save_journal. apply wp_bind, wp_get. rewrite (has_journal_read _ _ Hj).
  apply wp_bind, wp_report; [done|]. intros o [= <-]. apply wp_bind, wp_report; [done|]. intros current [= <-].
  rewrite same_immutable_phase. cbn [negb]. change (jn_phase (with_phase j p)) with p.
  destruct (legal_phase_transition (jn_phase j) p); cbn [negb]; [|by apply wp_raise].
  destruct HQ; [done|]. by apply wp_write.
Qed.

Lemma wp_terminal {A : Type} (ev : Env) (j : RecoveryJournal) (cause : RecoverError) (Q : A -> Disk -> Prop)
    (C : Disk -> Prop) (d : Disk) :
  has_journal j d -> C d ->
  (legal_phase_transition (jn_phase j) Failed = true -> C (set_journal (journal_bytes (with_phase j Failed)) d)) ->
  wp (persist_terminal_failure ev j cause) Q C d.
Proof.
  intros Hj HC HF n. pose proof (wp_save ev j Failed (fun _ => C) C d Hj HC (fun H => conj (HF H) (HF H)) n) as H.
  unfold persist_terminal_failure. by destruct (save_journal _ _ _) as [[a|e|] [d' n']].
Qed.

(** ** The invariant *)

(** The disk before the first run, and the authority's chain. *)
Variables (d0 : Disk) (canonical : Z -> HeaderObservation).
Hypothesis no_journal : dk_journal d0 = None.

Record journal_ok (j : RecoveryJournal) : Prop := {
  jo_incident : read_incident d0 = Ok (jn_incident j);
  jo_log : exists log, read_resume d0 = Ok log /\ truncated_resume_from log (jn_checkpoint j) = Ok (jn_truncated_resume j);
  jo_target : jn_target j = l2_block (jn_checkpoint j);
  jo_frontier : jn_frontier j = l2_block_number (jn_incident j);
  jo_below : jn_target j < jn_frontier j;
  jo_span : jn_frontier j - jn_target j <= id_max_recovery_l2_blocks (jn_identity j);
  jo_end : l1_block (jn_checkpoint j) <= id_l1_end_block (jn_identity j);
  jo_genesis : id_genesis_block (jn_identity j) <= jn_target j;
  jo_genesis_row : exists g, db_headers (dk_db d0) !! id_genesis_block (jn_identity j) = Some g /\
                     hr_hash g = id_genesis_hash (jn_identity j);
  jo_tip : jn_original_tip j = db_tip (dk_db d0) /\ jn_frontier j <= jn_original_tip j;
  jo_exact : exists row, db_headers (dk_db d0) !! jn_target j = Some row /\
               observation (jn_target j) row = canonical (jn_target j);
  jo_canonical : hash (canonical (jn_frontier j)) = canonical_hash (jn_incident j) /\
                 state_root (canonical (jn_frontier j)) = canonical_state_root (jn_incident j)
}.

(** The blocks up to [t] are those of the start. *)
Definition rows_kept (t : Z) (db : Database) : Prop :=
  forall n, n <= t -> db_headers db !! n = db_headers (dk_db d0) !! n.

(** A database between the target and the frontier. *)
Definition rebuilding (j : RecoveryJournal) (db : Database) : Prop :=
  rows_kept (jn_target j) db /\ jn_target j <= db_tip db <= jn_frontier j /\
  (forall n, db_tip db < n -> db_headers db !! n = None).

Definition matched (j : RecoveryJournal) (db : Database) : Prop :=
  db_tip db = jn_frontier j /\ exists row, db_headers db !! jn_frontier j = Some row /\
    observation (jn_frontier j) row = canonical (jn_frontier j).

Definition unwound_db (j : RecoveryJournal) : Database := remove_above (jn_target j) (dk_db d0).

(** What each phase says of the rest of the disk. *)
Definition stage_ok (j : RecoveryJournal) (d : Disk) : Prop :=
  match jn_phase j with
  | Prepared => dk_resume d = dk_resume d0 /\ (dk_db d = dk_db d0 \/ dk_db d = unwound_db j)
  | Unwound => (dk_resume d = dk_resume d0 \/ read_resume d = Ok (jn_truncated_resume j)) /\ dk_db d = unwound_db j
  | ResumeTruncated => read_resume d = Ok (jn_truncated_resume j) /\ rebuilding j (dk_db d)
  | FrontierMatched => read_resume d = Ok (jn_truncated_resume j) /\ rebuilding j (dk_db d) /\ matched j (dk_db d)
  | Failed => (dk_resume d = dk_resume d0 \/ read_resume d = Ok (jn_truncated_resume j)) /\
              rows_kept (jn_target j) (dk_db d)
  end.

Definition legal (p q : Phase) : Prop := legal_phase_transition p q = true.

(** The journal [j] now, from the journal [j0] of an earlier point. *)
Definition evolved (j0 : option RecoveryJournal) (j : RecoveryJournal) : Prop :=
  forall j', j0 = Some j' -> j = with_phase j' (jn_phase j) /\ rtc legal (jn_phase j') (jn_phase j).

Record inv_at (j0 : option RecoveryJournal) (j : RecoveryJournal) (d : Disk) : Prop := {
  ia_marker : dk_marker d = dk_marker d0;
  ia_journal : has_journal j d;
  ia_ok : journal_ok j;
  ia_stage : stage_ok j d;
  ia_evolved : evolved j0 j
}.

Definition inv (j0 : option RecoveryJournal) (d : Disk) : Prop := (d = d0 /\ j0 = None) \/ exists j, inv_at j0 j d.

Lemma unwound_rows (t : Z) (db : Database) : rows_kept t db -> rows_kept t (remove_above t db).
Proof.
  intros H n Hn. rewrite <- (H n Hn). cbn. destruct (db_headers db !! n) as [row|] eqn:E.
  - by apply map_lookup_filter_Some_2.
  - apply map_lookup_filter_None_2. by left.
Qed.

Lemma remove_above_none (t n : Z) (db : Database) : t < n -> db_headers (remove_above t db) !! n = None.
Proof. intros H. cbn. apply map_lookup_filter_None_2. right. intros x _. cbn. lia. Qed.

Lemma unwound_rebuilding (j : RecoveryJournal) (db : Database) :
  journal_ok j -> rows_kept (jn_target j) db -> rebuilding j (remove_above (jn_target j) db).
Proof.
  intros Hj Hk. pose proof (jo_below _ Hj). split_and!; [by apply unwound_rows|cbn; lia|cbn; lia|].
  cbn [db_tip remove_above]. intros n Hn. by apply remove_above_none.
Qed.

Lemma rows_refl (t : Z) : rows_kept t (dk_db d0).
Proof. by intros n _. Qed.

Lemma stage_failed (j : RecoveryJournal) (d : Disk) : stage_ok j d -> stage_ok (with_phase j Failed) d.
Proof.
  unfold stage_ok. cbn [with_phase jn_phase jn_truncated_resume jn_target]. destruct (jn_phase j).
  - intros [Hr [-> | ->]]; (split; [by left|]); [apply rows_refl|apply unwound_rows, rows_refl].
  - intros [Hr ->]. split; [done|]. apply unwound_rows, rows_refl.
  - intros [Hr [Hk _]]. auto.
  - intros [Hr [[Hk _] _]]. auto.
  - done.
Qed.

Lemma journal_ok_phase (j : RecoveryJournal) (p : Phase) : journal_ok j -> journal_ok (with_phase j p).
Proof. intros []. by constructor. Qed.

(** The disk facts do not depend on the journal file. *)
Lemma stage_set_journal (j : RecoveryJournal) (bs : bytes) (d : Disk) : stage_ok j d -> stage_ok j (set_journal bs d).
Proof. done. Qed.

Lemma inv_save (j0 : option RecoveryJournal) (j : RecoveryJournal) (p : Phase) (d : Disk) :
  inv_at j0 j d -> legal (jn_phase j) p -> stage_ok (with_phase j p) d ->
  inv_at j0 (with_phase j p) (set_journal (journal_bytes (with_phase j p)) d).
Proof.
  intros [Hm [Hj Hv] Hok _ Hev] Hl Hs. split; [done|by split|by apply journal_ok_phase|by apply stage_set_journal|].
  intros j' ->. destruct (Hev j' eq_refl) as [Hw Hr]. cbn [with_phase jn_phase]. split.
  - by rewrite Hw.
  - by eapply rtc_r.
Qed.

Lemma inv_terminal {A : Type} (ev : Env) (j0 : option RecoveryJournal) (j : RecoveryJournal) (cause : RecoverError)
    (Q : A -> Disk -> Prop) (d : Disk) :
  inv_at j0 j d -> wp (persist_terminal_failure ev j cause) Q (inv j0) d.
Proof.
  intros H. apply wp_terminal; [apply H|right; eauto|]. intros Hl. right. eexists. apply inv_save; [done..|].
  by apply stage_failed, H.
Qed.

(** ** The environment *)

(** A node that the finite run launches on a database at the checkpoint, as [Finite] and [Ingress]
    show of it: it appends blocks up to the frontier at most. *)
Definition node_extends (cfg : StoppedFiniteConfig) (db db' : Database) : Prop :=
  (forall n, n <= l2_block (sf_checkpoint cfg) -> db_headers db' !! n = db_headers db !! n) /\
  l2_block (sf_checkpoint cfg) <= db_tip db' <= sf_frontier cfg /\
  (forall n, db_tip db' < n -> db_headers db' !! n = None).

(** The authority answers from one chain or fails; the static files are those of the database; an
    unwind commits or changes nothing. Everything else is free: any read or write may fail. *)
Record faithful (ev : Env) : Prop := {
  fa_ask : forall site n o, client_header (ev_ask ev site n) n = Ok o -> o = canonical n;
  fa_static : forall db f n r, ev_static ev db = Ok f -> f n = Ok r -> r = db_headers db !! n;
  fa_unwind : forall db t, snd (ev_unwind ev db t) = remove_above t db \/
                (snd (ev_unwind ev db t) = db /\ is_ok (fst (ev_unwind ev db t)) = false);
  fa_node : forall cfg db, l2_block (sf_checkpoint cfg) < sf_frontier cfg ->
              db_tip db = l2_block (sf_checkpoint cfg) ->
              node_extends cfg db (nr_db (ev_node ev cfg db))
}.

Lemma header_canonical (ev : Env) (site : AskSite) (n : Z) (o : HeaderObservation) :
  faithful ev -> ask_header ev site n = Ok o -> o = canonical n.
Proof. intros Hf H%map_err_Ok. by apply (fa_ask _ Hf _ _ _ H). Qed.

(** ** The stages keep the invariant *)

Section Stages.
Variables (ev : Env) (j0 : option RecoveryJournal).
Hypothesis Hev : faithful ev.

Lemma inv_of (j : RecoveryJournal) (d : Disk) : inv_at j0 j d -> inv j0 d.
Proof. intros H. right. by exists j. Qed.

(** Replacing the database under an unchanged journal. *)
Lemma inv_set_db (j : RecoveryJournal) (db : Database) (d : Disk) :
  inv_at j0 j d -> stage_ok j (set_db db d) -> inv_at j0 j (set_db db d).
Proof. intros [Hm Hj Hok _ He] Hs. by split. Qed.

Lemma durable_tip_unwind (j : RecoveryJournal) (tip : Z) :
  durable_tip_action j tip = Ok UnwindToTarget ->
  jn_target j < tip /\ (jn_phase j = Prepared \/ jn_phase j = ResumeTruncated).
Proof.
  unfold durable_tip_action. destruct (jn_phase j); repeat case_match; intros [=]; auto with lia.
Qed.

Lemma durable_tip_verify (j : RecoveryJournal) (tip : Z) :
  durable_tip_action j tip = Ok VerifyFrontier ->
  tip = jn_frontier j /\ (jn_phase j = ResumeTruncated \/ jn_phase j = FrontierMatched).
Proof. unfold durable_tip_action. destruct (jn_phase j); repeat case_match; intros [=]; auto with lia. Qed.

Lemma durable_tip_at (j : RecoveryJournal) (tip : Z) :
  durable_tip_action j tip = Ok AtTarget ->
  tip = jn_target j /\ (jn_phase j = Prepared \/ jn_phase j = Unwound \/ jn_phase j = ResumeTruncated).
Proof. unfold durable_tip_action. destruct (jn_phase j); repeat case_match; intros [=]; auto with lia. Qed.

(** Unwinding from a tip above the target keeps the phase's facts. *)
Lemma stage_unwind (j : RecoveryJournal) (d : Disk) :
  journal_ok j -> stage_ok j d -> jn_target j < db_tip (dk_db d) ->
  jn_phase j = Prepared \/ jn_phase j = ResumeTruncated ->
  stage_ok j (set_db (remove_above (jn_target j) (dk_db d)) d).
Proof.
  intros Hj Hs Ht Hp. unfold stage_ok in *. destruct Hp as [Hp|Hp]; rewrite Hp in *.
  - destruct Hs as [Hr [Hd|Hd]]; split; try done; right; [by cbn; rewrite Hd|].
    exfalso. rewrite Hd in Ht. cbn in Ht. lia.
  - destruct Hs as [Hr (Hk & _)]. split; [done|]. cbn. by apply unwound_rebuilding.
Qed.

Lemma wp_commit_unwind (j : RecoveryJournal) (d : Disk) (Q : result string unit -> Disk -> Prop) :
  inv_at j0 j d -> jn_target j < db_tip (dk_db d) -> jn_phase j = Prepared \/ jn_phase j = ResumeTruncated ->
  (forall r db, inv_at j0 j (set_db db d) -> Q r (set_db db d)) ->
  wp (commit_unwind ev (jn_target j)) Q (inv j0) d.
Proof.
  intros Hi Ht Hp HQ [|n]; cbn [commit_unwind]; [by eapply inv_of|].
  pose proof (fa_unwind _ Hev (dk_db d) (jn_target j)) as Hu.
  destruct (ev_unwind ev (dk_db d) (jn_target j)) as [r db]. cbn in Hu. apply HQ, inv_set_db; [done|].
  destruct Hu as [-> |[-> _]]; [apply stage_unwind; by try apply Hi|]. destruct d. apply Hi.
Qed.

(** After the unwind the database is at the target and the journal says so. *)
Definition unwound_post (j : RecoveryJournal) (d : Disk) (o : option RecoveryJournal) (d' : Disk) : Prop :=
  match o with
  | None => d' = d /\ db_tip (dk_db d) = jn_frontier j /\ (jn_phase j = ResumeTruncated \/ jn_phase j = FrontierMatched)
  | Some j' => inv_at j0 j' d' /\ j' = with_phase j (jn_phase j') /\ dk_resume d' = dk_resume d /\
      db_tip (dk_db d') = jn_target j /\ (jn_phase j' = Unwound \/ jn_phase j' = ResumeTruncated)
  end.

Lemma wp_reopen (j : RecoveryJournal) (d d1 : Disk) :
  inv_at j0 j d1 -> dk_resume d1 = dk_resume d ->
  jn_phase j = Prepared \/ jn_phase j = Unwound \/ jn_phase j = ResumeTruncated ->
  wp (let! reopened_tip := open_tip ev OpenReopen true in
      if negb (reopened_tip =? jn_target j) then
        persist_terminal_failure ev j (Failure "unwind reopened at another block")
      else if bool_decide (jn_phase j = Prepared) then
        let journal := with_phase j Unwound in
        let! _ := save_journal ev journal in
        mret (Some journal)
      else mret (Some j)) (unwound_post j d) (inv j0) d1.
Proof.
  intros Hi Hr Hp. apply wp_bind, wp_open_tip; [by eapply inv_of|].
  destruct (Z.eqb_spec (db_tip (dk_db d1)) (jn_target j)) as [Ht|]; cbn [negb]; [|by apply inv_terminal].
  case_bool_decide as Hprep.
  - assert (Hl : legal (jn_phase j) Unwound) by (by rewrite Hprep).
    assert (Hs : stage_ok (with_phase j Unwound) d1).
    { pose proof (ia_stage _ _ _ Hi) as Hs. unfold stage_ok in *. rewrite Hprep in Hs.
      cbn [with_phase jn_phase]. destruct Hs as [H1 [H2|H2]]; (split; [by left|]); [|done].
      exfalso. pose proof (ia_ok _ _ _ Hi) as Hok. destruct (jo_tip _ Hok) as [H3 H4].
      pose proof (jo_below _ Hok). rewrite H2 in Ht. lia. }
    pose proof (inv_save _ _ _ _ Hi Hl Hs) as Hi'. apply wp_bind, wp_save; [apply Hi|by eapply inv_of|].
    intros _. split; [by eapply inv_of|]. apply wp_ret. cbn. split_and!; auto.
  - apply wp_ret. split_and!; try done; [by destruct j|]. by destruct Hp as [?|[?|?]]; auto.
Qed.

Lemma wp_unwind_and_reopen (j : RecoveryJournal) (d : Disk) :
  inv_at j0 j d -> wp (unwind_and_reopen ev j) (unwound_post j d) (inv j0) d.
Proof.
  intros Hi. unfold unwind_and_reopen. apply wp_bind, wp_open_tip; [by eapply inv_of|].
  apply wp_bind, wp_lift; [by eapply inv_of|]. intros action Ha. case_bool_decide as Hv.
  { subst action. apply durable_tip_verify in Ha as [Ht Hp]. by apply wp_ret. }
  apply wp_bind. case_bool_decide as Hu.
  - subst action. apply durable_tip_unwind in Ha as [Ht Hp]. apply wp_bind.
    apply (wp_commit_unwind j); [done|done|done|]. intros r db Hi'.
    destruct r; [|by apply inv_terminal]. apply wp_ret. apply wp_reopen; [done|done|]. naive_solver.
  - destruct action; [done| |done]. apply durable_tip_at in Ha as [Ht Hp]. apply wp_ret. by apply wp_reopen.
Qed.

(** ** Truncating the resume log *)

Lemma read_resume_set (l : L1ResumeLog) (d : Disk) :
  ascending l -> read_resume (set_resume (json_to_vec l ++ [x0a]) d) = Ok l.
Proof.
  intros Ha%ascending_check. unfold read_resume, ResumeFile.load_strict. cbn [dk_resume set_resume ok_or rbind].
  rewrite json_roundtrip. cbn [ok_or rbind]. by rewrite Ha.
Qed.

Lemma truncated_ascending (j : RecoveryJournal) : journal_ok j -> ascending (jn_truncated_resume j).
Proof.
  intros Hj. destruct (jo_log _ Hj) as (log & Hl & Ht). unfold truncated_resume_from in Ht.
  case_bool_decide; [|done]. injection Ht as <-. cbn [truncate_to snd]. apply filter_ascending.
  unfold read_resume, ResumeFile.load_strict in Hl. apply rbind_Ok in Hl as (bs & _ & Hl).
  apply rbind_Ok in Hl as (l & _ & Hl). case_match; [|done]. injection Hl as <-. by apply ascending_check.
Qed.

Lemma wp_confirm (j : RecoveryJournal) (d : Disk) (Q : unit -> Disk -> Prop) :
  inv_at j0 j d -> (read_resume d = Ok (jn_truncated_resume j) -> Q tt d) -> wp (confirm_resume ev j) Q (inv j0) d.
Proof.
  intros Hi HQ. apply wp_bind, wp_get. destruct (read_resume d) as [durable|e] eqn:E; [|by apply inv_terminal].
  case_bool_decide as Hd; cbn [negb]; [|by apply inv_terminal]. apply wp_ret, HQ. by subst.
Qed.

Lemma wp_save_resume (j : RecoveryJournal) (d : Disk) (Q : unit -> Disk -> Prop) :
  inv_at j0 j d -> jn_phase j = Unwound ->
  (forall d', inv_at j0 j d' -> dk_db d' = dk_db d -> Q tt d') -> wp (save_resume ev j) Q (inv j0) d.
Proof.
  intros Hi Hp HQ. set (d' := set_resume (json_to_vec (jn_truncated_resume j) ++ [x0a]) d).
  assert (Hi' : inv_at j0 j d').
  { destruct Hi as [Hm Hj Hok Hs He]. split; try done. unfold stage_ok in *. rewrite Hp in *.
    split; [|apply Hs]. right. by apply read_resume_set, truncated_ascending. }
  intros [|n]; unfold save_resume, write; [by eapply inv_of|].
  destruct (ev_resume_save ev); fold d'.
  - by apply HQ.
  - apply (inv_terminal ev j0 j _ Q d Hi).
  - apply (inv_terminal ev j0 j _ Q d' Hi').
Qed.

Definition truncated_post (j : RecoveryJournal) (j' : RecoveryJournal) (d' : Disk) : Prop :=
  inv_at j0 j' d' /\ j' = with_phase j ResumeTruncated /\ db_tip (dk_db d') = jn_target j.

Lemma wp_mark_truncated (j : RecoveryJournal) (d : Disk) :
  inv_at j0 j d -> jn_phase j = Unwound -> db_tip (dk_db d) = jn_target j ->
  wp (let! _ := confirm_resume ev j in
      let next := with_phase j ResumeTruncated in
      let! _ := save_journal ev next in
      mret next) (truncated_post j) (inv j0) d.
Proof.
  intros Hi Hp Ht. apply wp_bind, wp_confirm; [done|]. intros Hr.
  assert (Hl : legal (jn_phase j) ResumeTruncated) by (by rewrite Hp).
  assert (Hs : stage_ok (with_phase j ResumeTruncated) d).
  { destruct Hi as [_ _ Hok Hs _]. unfold stage_ok in *. rewrite Hp in Hs. split; [done|].
    destruct Hs as [_ ->]. apply (unwound_rebuilding j); [done|apply rows_refl]. }
  pose proof (inv_save _ _ _ _ Hi Hl Hs) as Hi'.
  apply wp_bind, wp_save; [apply Hi|by eapply inv_of|]. intros _. split; [by eapply inv_of|].
  apply wp_ret. by split_and!.
Qed.

Lemma wp_truncate (log : L1ResumeLog) (j : RecoveryJournal) (d : Disk) :
  inv_at j0 j d -> db_tip (dk_db d) = jn_target j ->
  wp (durably_truncate_resume ev log j) (truncated_post j) (inv j0) d.
Proof.
  intros Hi Ht. unfold durably_truncate_resume. apply wp_bind, wp_report; [by eapply inv_of|]. intros derived _.
  case_bool_decide; cbn [negb]; [|by apply inv_terminal].
  destruct (jn_phase j) eqn:Hp; try (apply wp_raise; by eapply inv_of).
  - apply wp_bind. case_bool_decide; cbn [negb].
    + apply wp_ret. by apply wp_mark_truncated.
    + apply wp_save_resume; [done|done|]. intros d' Hi' Hdb. apply wp_mark_truncated; [done|done|]. by rewrite Hdb.
  - apply wp_bind, wp_confirm; [done|]. intros _. apply wp_ret. split_and!; [done| |done]. destruct j; cbn in *; by subst.
Qed.

(** ** Rebuilding and verifying *)

Lemma wp_finite_runner (boot : ResolvedRollupBoot) (cfg : StoppedFiniteConfig) (j : RecoveryJournal) (d : Disk)
    (Q : HeaderObservation -> Disk -> Prop) :
  inv_at j0 j d -> jn_phase j = ResumeTruncated -> db_tip (dk_db d) = jn_target j ->
  l2_block (sf_checkpoint cfg) = jn_target j -> sf_frontier cfg = jn_frontier j ->
  (forall o d', inv_at j0 j d' -> Q o d') -> wp (finite_runner ev boot cfg) Q (inv j0) d.
Proof.
  intros Hi Hp Ht Hc Hf HQ n. unfold finite_runner. destruct (validate _ _ _); [|by eapply inv_of].
  assert (Hi' : inv_at j0 j (set_db (nr_db (ev_node ev cfg (dk_db d))) d)).
  { apply inv_set_db; [done|]. destruct Hi as [_ _ Hok Hs _]. pose proof (jo_below _ Hok). unfold stage_ok in *.
    rewrite Hp in *. destruct Hs as [Hr (Hk & _ & _)]. split; [done|]. cbn [dk_db set_db].
    destruct (fa_node _ Hev cfg (dk_db d)) as (N1 & N2 & N3); [lia|lia|]. rewrite Hc, Hf in *. split_and!; try done; [|lia|lia].
    intros n' Hn'. rewrite N1 by done. by apply Hk. }
  cbv zeta. destruct (nr_crashed _); [by eapply inv_of|].
  destruct (run_stopped_finite _ _ _ _ _ _); [by apply HQ|by eapply inv_of].
Qed.

(** Verification writes nothing and only passes at the authority's frontier. *)
Lemma verify_spec (j : RecoveryJournal) (d : Disk) (n : nat) :
  match verify_durable_frontier ev j (d, n) with
  | (Ret _, s) => s = (d, n) /\ matched j (dk_db d)
  | (Raise _, s) => s = (d, n)
  | (Crashed, _) => False
  end.
Proof.
  unfold verify_durable_frontier, open_tip, report, fail, lift, mthen, get, mret, raise. cbn [fst].
  destruct (map_err Failure (ev_open ev OpenVerify)); [|done].
  destruct (map_err Failure (ev_provider ev OpenVerify)); [|done]. cbn [fst].
  destruct (db_headers (dk_db d) !! jn_frontier j) as [row|] eqn:Hrow; cbn [ok_or map_err]; [|done].
  destruct (Z.eqb_spec (db_tip (dk_db d)) (jn_frontier j)) as [Ht|]; cbn [negb]; [|done].
  destruct (ask_header ev AskVerify (jn_frontier j)) as [o|] eqn:Ho; [|done].
  apply header_canonical in Ho as ->; [|done]. unfold exact. case_bool_decide; cbn [negb]; [|done].
  split; [done|]. split; [done|]. eauto.
Qed.

Lemma wp_verify_or_fail (j : RecoveryJournal) (terminal : bool) (d : Disk) (Q : unit -> Disk -> Prop) :
  inv_at j0 j d -> (matched j (dk_db d) -> Q tt d) -> wp (verify_or_fail ev j terminal) Q (inv j0) d.
Proof.
  intros Hi HQ n. unfold verify_or_fail. pose proof (verify_spec j d n) as Hv.
  destruct (verify_durable_frontier ev j (d, n)) as [[[]|e|] s]; [|subst s|done].
  - destruct Hv as [-> Hm]. by apply HQ.
  - destruct (is_authority_error e); [by eapply inv_of|]. destruct terminal; [|by eapply inv_of].
    by apply (inv_terminal ev j0 j e Q d).
Qed.

(** Publishing success. *)
Lemma wp_save_matched (j : RecoveryJournal) (d : Disk) :
  inv_at j0 j d -> jn_phase j = ResumeTruncated -> matched j (dk_db d) ->
  wp (save_journal ev (with_phase j FrontierMatched)) (fun _ => inv j0) (inv j0) d.
Proof.
  intros Hi Hp Hm.
  assert (Hs : stage_ok (with_phase j FrontierMatched) d).
  { pose proof (ia_stage _ _ _ Hi) as Hs. unfold stage_ok in *. rewrite Hp in Hs. by destruct Hs. }
  assert (Hl : legal (jn_phase j) FrontierMatched) by (by rewrite Hp).
  pose proof (inv_of _ _ (inv_save _ _ _ _ Hi Hl Hs)). apply wp_save; [apply Hi|by eapply inv_of|]. intros _. split; auto.
Qed.

Lemma wp_verify_stage (j : RecoveryJournal) (d : Disk) :
  inv_at j0 j d -> wp (verify_frontier_stage ev j) (fun _ => inv j0) (inv j0) d.
Proof.
  intros Hi. apply wp_bind, wp_verify_or_fail; [done|]. intros Hm.
  case_bool_decide; [by apply wp_save_matched|]. apply wp_ret. by eapply inv_of.
Qed.

Lemma wp_rebuild (args : RecoverArgs) (b : Boot) (cp : L1ResumeCheckpoint) (j : RecoveryJournal) (d : Disk) :
  inv_at j0 j d -> jn_phase j = ResumeTruncated -> db_tip (dk_db d) = jn_target j -> l2_block cp = jn_target j ->
  wp (rebuild_stage ev args b cp j) (fun _ => inv j0) (inv j0) d.
Proof.
  intros Hi Hp Ht Hc. apply wp_bind, (wp_finite_runner _ _ j); [done..|]. intros o d' Hi'.
  apply wp_bind, wp_lift; [by eapply inv_of|]. intros c _.
  destruct (exact o c); cbn [negb]; [|by apply inv_terminal].
  apply wp_bind, wp_verify_or_fail; [done|]. intros Hm. by apply wp_save_matched.
Qed.

End Stages.

(** ** What the checks before the lock establish *)

Lemma boot_of_genesis (ev : Env) (site : BootSite) (args : RecoverArgs) (b : Boot) :
  boot_of ev site args = Ok b -> bt_genesis_hash b = cs_genesis_hash (rb_chain_spec (bt_resolved b)).
Proof.
  unfold boot_of. intros H.
  destruct (ra_snapshot_head args), (ra_chain_info args), (ra_genesis_json args); try discriminate H; ok_inv.
  - if_inv H. ok_inv. by subst.
  - destruct (match ra_chain_id args with Some _ => _ | None => _ end); [done|]. ok_inv. by subst.
Qed.

Lemma boot_genesis (ev : Env) (site : BootSite) (args : RecoverArgs) (i : Incident) (b : Boot) :
  boot ev site args i = Ok b -> bt_genesis_hash b = cs_genesis_hash (rb_chain_spec (bt_resolved b)).
Proof.
  unfold boot. intros H. ok_inv. if_inv H. ok_inv. subst. by eapply boot_of_genesis.
Qed.

Lemma preflight_facts (ev : Env) (args : RecoverArgs) (pre : Disk) (b : Boot) (i : Incident) (log : L1ResumeLog) :
  faithful ev -> preflight ev args pre = Ok (b, i, log) ->
  read_incident pre = Ok i /\ read_resume pre = Ok log /\
  bt_genesis_hash b = cs_genesis_hash (rb_chain_spec (bt_resolved b)) /\
  hash (canonical (l2_block_number i)) = canonical_hash i /\
  state_root (canonical (l2_block_number i)) = canonical_state_root i.
Proof.
  intros Hf H. unfold preflight in H. if_inv H; ok_inv.
  if_inv H. ok_inv. subst. apply header_canonical in E3 as ->; [|done].
  apply orb_false_iff in C1 as [C1 C2]. apply negb_false_iff, Z.eqb_eq in C1. apply negb_false_iff, Z.eqb_eq in C2.
  split_and!; try done. by eapply boot_genesis.
Qed.

(** What the run goes on with after its checks on [pre]. *)
Record selected (args : RecoverArgs) (pre : Disk) (b : Boot) (i : Incident) (log : L1ResumeLog)
    (initial : option RecoveryJournal) (cp : L1ResumeCheckpoint) : Prop := {
  se_incident : read_incident pre = Ok i;
  se_resume : read_resume pre = Ok log;
  se_journal : read_journal pre = Ok initial;
  se_genesis : exists g, db_headers (dk_db pre) !! rb_genesis_block (bt_resolved b) = Some g /\ hr_hash g = bt_genesis_hash b;
  se_exact : exists row, db_headers (dk_db pre) !! l2_block cp = Some row /\
               observation (l2_block cp) row = canonical (l2_block cp);
  se_below : l2_block cp < l2_block_number i;
  se_span : l2_block_number i - l2_block cp <= ra_max_recovery_l2_blocks args;
  se_end : l1_block cp <= ra_l1_end_block args;
  se_canonical : hash (canonical (l2_block_number i)) = canonical_hash i /\
                 state_root (canonical (l2_block_number i)) = canonical_state_root i
}.

Lemma before_lock_facts (ev : Env) (args : RecoverArgs) (pre : Disk) (b : Boot) (i : Incident) (log : L1ResumeLog)
    (initial : option RecoveryJournal) (cp : L1ResumeCheckpoint) :
  faithful ev -> before_lock ev args pre = Ok (b, i, log, initial, cp) -> selected args pre b i log initial cp.
Proof.
  intros Hf H. unfold before_lock in H. ok_inv.
  match type of H with (if ?c then _ else _) = _ => destruct c; [discriminate H|] end.
  match type of H with (if ?c then _ else _) = _ => destruct c; [discriminate H|] end.
  ok_inv. destruct (negb (hr_hash _ =? _)) eqn:Hg; [discriminate H|].
  apply negb_false_iff, Z.eqb_eq in Hg. ok_inv.
  destruct (exact _ _) eqn:He; cbn [negb] in H; [|discriminate H].
  destruct (_ <=? _) eqn:Hle in H; [discriminate H|]. destruct (_ <? _) eqn:Hlt in H; [discriminate H|].
  ok_inv. subst. apply preflight_facts in E2 as (Hi & Hl & Hb & Hc); [|done].
  apply (fa_static _ Hf _ _ _ _ E3) in E4. apply (fa_static _ Hf _ _ _ _ E3) in E7.
  apply header_canonical in E9 as ->; [|done]. apply bool_decide_eq_true in He.
  split; try done; [eauto with congruence..|lia|lia|].
  unfold validate_finite_inputs in E10. ok_inv. if_inv E10. lia.
Qed.

(** The run's checkpoint is the one its journal is about, when there is one. *)
Lemma recheck_facts (args : RecoverArgs) (b : Boot) (i : Incident) (log : L1ResumeLog)
    (initial journal : option RecoveryJournal) (cp : L1ResumeCheckpoint) (d : Disk) :
  recheck args b i log initial cp d = Ok journal ->
  read_incident d = Ok i /\ read_resume d = Ok log /\ read_journal d = Ok journal /\
  match journal with
  | None => initial = None
  | Some j => jn_incident j = i /\ jn_identity j = recovery_identity args b /\ jn_phase j <> Failed /\
              jn_checkpoint j = cp /\ jn_target j = l2_block cp /\ jn_frontier j = l2_block_number i
  end.
Proof.
  unfold recheck. intros H. ok_inv. case_bool_decide; [|discriminate H]. cbn [negb] in H. ok_inv.
  case_bool_decide; [|discriminate H]. cbn [negb] in H. ok_inv. subst.
  destruct (bool_decide (is_Some initial) && bool_decide (v1 = None)) eqn:Hd; [discriminate H|].
  destruct v1 as [j|].
  - repeat (case_bool_decide; [|discriminate H]; cbn [negb] in H). case_bool_decide; [discriminate H|].
    destruct (negb _ || negb _ || negb _) eqn:Hc in H; [discriminate H|]. ok_inv. case_bool_decide; [|discriminate H].
    cbn [negb] in H. ok_inv. subst journal. apply orb_false_iff in Hc as [Hc Hc3]. apply orb_false_iff in Hc as [Hc1 Hc2].
    apply negb_false_iff, bool_decide_eq_true in Hc1. split_and!; done || lia || congruence.
  - ok_inv. subst. split_and!; try done. rewrite (bool_decide_eq_true_2 (None = None)), andb_true_r in Hd by done.
    apply bool_decide_eq_false in Hd. by destruct initial as [x|]; [destruct Hd; eauto|].
Qed.

(** ** A whole run *)

(** A file as it was at some point of the past: the reads before the lock need not agree on one. *)
Definition glimpse (past : list Disk) (pre : Disk) : Prop :=
  (exists d, In d past /\ dk_marker pre = dk_marker d) /\ (exists d, In d past /\ dk_resume pre = dk_resume d) /\
  (exists d, In d past /\ dk_journal pre = dk_journal d) /\ (exists d, In d past /\ dk_db pre = dk_db d).

Lemma glimpse_start (past : list Disk) (pre : Disk) : (forall d, In d past -> d = d0) -> glimpse past pre -> pre = d0.
Proof.
  intros H ((d1 & H1 & E1) & (d2 & H2 & E2) & (d3 & H3 & E3) & (d4 & H4 & E4)).
  rewrite (H _ H1) in E1. rewrite (H _ H2) in E2. rewrite (H _ H3) in E3. rewrite (H _ H4) in E4.
  destruct pre as [m r j b], d0 as [m0 r0 k0 b0]. cbn in *. by subst.
Qed.

Lemma read_journal_start : read_journal d0 = Ok None.
Proof. unfold read_journal. by rewrite no_journal. Qed.

(** The journal a run works with. *)
Lemma wp_prepare (ev : Env) (args : RecoverArgs) (b : Boot) (i : Incident) (log : L1ResumeLog)
    (cp : L1ResumeCheckpoint) (initial journal : option RecoveryJournal) (j0 : option RecoveryJournal) (d : Disk)
    (Q : RecoveryJournal -> Disk -> Prop) :
  inv j0 d -> read_journal d = Ok journal ->
  (journal = None -> selected args d0 b i log initial cp) ->
  (forall j d', inv_at j0 j d' -> jn_target j = l2_block cp -> dk_resume d' = dk_resume d -> Q j d') ->
  wp (prepare ev args b i log cp journal) Q (inv j0) d.
Proof.
  intros Hi Hj Hsel HQ. unfold prepare. apply wp_bind, wp_open_tip; [done|].
  destruct (bool_decide (journal = None) && _) eqn:Htip; [by apply wp_raise|].
  destruct (Z.ltb_spec (l2_block cp) (rb_genesis_block (bt_resolved b))) as [|Hgen]; [by apply wp_raise|].
  destruct journal as [j|].
  - destruct (negb _ || negb _) eqn:Hc; [by apply wp_raise|]. apply wp_ret.
    apply orb_false_iff in Hc as [Hc _]. apply negb_false_iff, Z.eqb_eq in Hc.
    destruct Hi as [[-> _]|(j' & Hi)]; [by rewrite read_journal_start in Hj|].
    rewrite (has_journal_read _ _ (ia_journal _ _ _ Hi)) in Hj. injection Hj as ->. by apply HQ.
  - destruct Hi as [[-> ->]|(j' & Hi)]; [|by rewrite (has_journal_read _ _ (ia_journal _ _ _ Hi)) in Hj].
    destruct (Hsel eq_refl) as [Sinc Sres Sj Sgen Sex Sbel Sspan Send Scan].
    rewrite bool_decide_eq_true_2, andb_true_l in Htip by done.
    apply wp_bind, wp_report; [by left|]. intros truncated Htr.
    match goal with |- wp (create_journal _ ?j) _ _ _ => set (nj := j) end.
    assert (Hi' : inv_at None nj (set_journal (journal_bytes nj) d0)).
    { split; [done|done| |by split; [|left]|done]. subst nj. split; cbn; try done; [by exists log|lia]. }
    unfold create_journal. apply wp_bind, wp_get. rewrite no_journal.
    apply wp_bind, wp_write; [by left|by right; exists nj|]. apply wp_ret. by apply HQ.
Qed.

Lemma wp_run (ev : Env) (args : RecoverArgs) (pre : Disk) (j0 : option RecoveryJournal) (d : Disk) :
  faithful ev -> inv j0 d -> (d = d0 -> pre = d0) -> wp (run_recover ev args pre) (fun _ => inv j0) (inv j0) d.
Proof.
  intros Hf Hi Hpre. unfold run_recover. apply wp_bind, wp_lift; [done|].
  intros [[[[b i] log] initial] cp] Hb%before_lock_facts; [|done].
  apply wp_bind, wp_report; [done|]. intros _ _. apply wp_bind, wp_get.
  apply wp_bind, wp_lift; [done|]. intros journal (_ & Hres & Hj & Hjn)%recheck_facts.
  apply wp_bind, (wp_prepare _ _ _ _ _ _ initial _ j0); [done|done| |].
  { intros ->. destruct Hi as [[Hd _]|(j' & Hi)]; [by rewrite <- (Hpre Hd)|].
    by rewrite (has_journal_read _ _ (ia_journal _ _ _ Hi)) in Hj. }
  intros j d' Hi' Ht Hr. apply wp_bind. eapply wp_mono; [by apply (wp_unwind_and_reopen ev j0 Hf j)| |done].
  intros [j'|] d'' Hpost; cbn [unwound_post] in Hpost.
  - destruct Hpost as (Hi'' & Hjj & Hrr & Htt & Hpp). apply wp_bind.
    eapply wp_mono; [apply (wp_truncate ev j0 log j' d''); [done|rewrite Hjj; done]| |done].
    intros j3 d3 (Hi3 & -> & Ht3). apply wp_rebuild; [done|done|done|done|]. by rewrite Hjj.
  - destruct Hpost as (-> & _). by apply wp_verify_stage.
Qed.

(** ** Histories *)

(** The disks after any number of runs, newest first. A run may use any inputs, meet any fault the
    environment allows, and end by a power loss; what it read before taking the lock may be old. *)
Inductive runs : list Disk -> Prop :=
| runs_start : runs [d0]
| runs_step d past ev args pre n out d' n' :
    runs (d :: past) -> glimpse (d :: past) pre -> faithful ev ->
    run_recover ev args pre (d, n) = (out, (d', n')) -> runs (d' :: d :: past).

(** The journal of [x] lives on in [d]. *)
Definition descends (x d : Disk) : Prop :=
  forall j, read_journal x = Ok (Some j) ->
  exists j', read_journal d = Ok (Some j') /\ j' = with_phase j (jn_phase j') /\ rtc legal (jn_phase j) (jn_phase j').

Lemma inv_journal (d : Disk) : inv None d -> exists o, read_journal d = Ok o /\ inv o d.
Proof.
  intros [[-> _]|(j & Hi)].
  - exists None. split; [apply read_journal_start|by left].
  - exists (Some j). split; [by apply has_journal_read, Hi|]. right. exists j. destruct Hi. split; try done.
    intros j' [= <-]. split; [by destruct j|done].
Qed.

Lemma inv_weaken (o : option RecoveryJournal) (d : Disk) : inv o d -> inv None d.
Proof. intros [[-> _]|(j & [])]; [by left|]. right. exists j. by split. Qed.

Lemma inv_descends (d d' : Disk) (o : option RecoveryJournal) :
  read_journal d = Ok o -> inv o d' -> descends d d'.
Proof.
  intros Hd Hi j Hj. rewrite Hd in Hj. injection Hj as ->. destruct Hi as [[_ ?]|(j' & Hi)]; [done|].
  exists j'. split; [by apply has_journal_read, Hi|]. by apply (ia_evolved _ _ _ Hi).
Qed.

Lemma descends_trans (x d d' : Disk) : descends x d -> descends d d' -> descends x d'.
Proof.
  intros H1 H2 j Hj. destruct (H1 j Hj) as (j1 & Hj1 & E1 & R1). destruct (H2 j1 Hj1) as (j2 & Hj2 & E2 & R2).
  exists j2. split; [done|]. split; [rewrite E2, E1; done|by etrans].
Qed.

Lemma runs_inv (d : Disk) (past : list Disk) :
  runs (d :: past) -> inv None d /\ forall x, In x (d :: past) -> inv None x /\ descends x d.
Proof.
  intros H. remember (d :: past) as trace eqn:E. revert d past E.
  induction H as [|d past ev args pre n out d' n' Hr IH Hg Hf Hrun]; intros d1 past1 [= <- <-].
  - assert (Hi : inv None d0) by (by left). split; [done|]. intros x [<-|[]]. split; [done|].
    intros j Hj. by rewrite read_journal_start in Hj.
  - destruct (IH d past eq_refl) as [Hi Hall]. destruct (inv_journal d Hi) as (o & Ho & Hio).
    assert (Hi' : inv o d').
    { pose proof (wp_run ev args pre o d Hf Hio) as Hw.
      assert (Hpre : d = d0 -> pre = d0).
      { intros ->. eapply glimpse_start; [|exact Hg]. intros x Hx. destruct (Hall x Hx) as [Hxi Hxd].
        destruct Hxi as [[-> _]|(j & Hxj)]; [done|]. exfalso.
        destruct (Hxd j (has_journal_read _ _ (ia_journal _ _ _ Hxj))) as (j' & Hj' & _).
        by rewrite read_journal_start in Hj'. }
      specialize (Hw Hpre n). rewrite Hrun in Hw. by destruct out. }
    assert (Hdd : descends d d') by (by eapply inv_descends). pose proof (inv_weaken _ _ Hi') as Hw'.
    split; [done|]. intros x [<-|Hx].
    + split; [done|]. destruct (inv_journal d' Hw') as (o' & Ho' & Hio'). by eapply inv_descends.
    + destruct (Hall x Hx) as [Hxi Hxd]. split; [done|]. by eapply descends_trans.
Qed.

(** What holds of every disk that recovery leaves. *)
Lemma inv_safe (d : Disk) :
  inv None d ->
  dk_marker d = dk_marker d0 /\
  match read_journal d with
  | Err _ => False
  | Ok None => d = d0
  | Ok (Some j) =>
      journal_ok j /\ rows_kept (jn_target j) (dk_db d) /\ stage_ok j d /\
      (jn_phase j = FrontierMatched ->
       db_tip (dk_db d) = l2_block_number (jn_incident j) /\
       exists row, db_headers (dk_db d) !! l2_block_number (jn_incident j) = Some row /\
         hr_hash row = canonical_hash (jn_incident j) /\ hr_state_root row = canonical_state_root (jn_incident j))
  end.
Proof.
  intros Hi. split; [by destruct Hi as [[-> _]|(j & Hi)]; [|apply Hi]|].
  destruct Hi as [[-> _]|(j & Hi)]; [by rewrite read_journal_start|].
  rewrite (has_journal_read _ _ (ia_journal _ _ _ Hi)). destruct Hi as [_ _ Hok Hs _]. split_and!; try done.
  - pose proof (stage_failed _ _ Hs) as Hk. apply Hk.
  - intros Hp. unfold stage_ok in Hs. rewrite Hp in Hs. destruct Hs as (_ & _ & Ht & row & Hrow & Heq).
    rewrite (jo_frontier _ Hok) in *. split; [done|]. exists row. split; [done|].
    destruct (jo_canonical _ Hok) as [Hh Hsr]. rewrite (jo_frontier _ Hok), <- Heq in Hh, Hsr. by split.
Qed.

(** C10. Whatever the faults, power losses and inputs of any number of recovery runs: the incident
    marker is never touched; until a journal exists nothing is; once one exists it is well formed,
    is about the incident, names a checkpoint of the original log strictly below the incident whose
    header is the authority's, and every later journal is the same one in a phase that legal
    transitions reach, so a terminal failure and a success are final. The blocks up to its target
    are never changed; the resume log is the original or exactly its retained prefix, and is the
    prefix from [ResumeTruncated] on; and [FrontierMatched] means that the durable tip is the
    incident's block with the canonical hash and state root that the incident recorded. *)
Theorem recovery_safe (d : Disk) (past : list Disk) :
  runs (d :: past) ->
  dk_marker d = dk_marker d0 /\
  (forall x, In x past -> descends x d) /\
  match read_journal d with
  | Err _ => False
  | Ok None => d = d0
  | Ok (Some j) =>
      journal_ok j /\ rows_kept (jn_target j) (dk_db d) /\ stage_ok j d /\
      (jn_phase j = FrontierMatched ->
       db_tip (dk_db d) = l2_block_number (jn_incident j) /\
       exists row, db_headers (dk_db d) !! l2_block_number (jn_incident j) = Some row /\
         hr_hash row = canonical_hash (jn_incident j) /\ hr_state_root row = canonical_state_root (jn_incident j))
  end.
Proof.
  intros H. destruct (runs_inv _ _ H) as [Hi Hall]. destruct (inv_safe d Hi) as [Hm Hj]. split; [done|].
  split; [|done]. intros x Hx. apply Hall. by right.
Qed.

(** ** Completion *)

Lemma twp_report {A : Type} (r : result string A) (a : A) (Q : A -> Disk -> Prop) (d : Disk) :
  r = Ok a -> Q a d -> twp 0 (report r) Q d.
Proof. intros ->. apply twp_ret. Qed.

(** An environment in which everything works, for the inputs of the journal and the boot [b]. *)
Record cooperative (ev : Env) (args : RecoverArgs) (b : Boot) (i : Incident) : Prop := {
  co_faithful : faithful ev;
  co_boot : forall site, boot ev site args i = Ok b;
  co_spec : cs_chain_id (rb_chain_spec (bt_resolved b)) = rb_chain_id (bt_resolved b);
  co_bounds : ra_max_recovery_l2_blocks args <> 0 /\ ra_l1_prefetch args <> 0 /\ ra_l1_getlogs_range args <> 0;
  co_connect : connect (ev_client ev) (ev_chain_id ev) (rb_chain_id (bt_resolved b)) = Ok tt;
  co_block : is_u64 (l2_block_number i);
  co_ask : forall site n, is_u64 n -> client_header (ev_ask ev site n) n = Ok (canonical n);
  co_static : forall db, exists f, ev_static ev db = Ok f /\ forall n, f n = Ok (db_headers db !! n);
  co_lock : ev_lock ev = Ok tt;
  co_open : forall site, ev_open ev site = Ok tt;
  co_consistency : forall site, ev_consistency ev site = Ok (None, None);
  co_provider : forall site, ev_provider ev site = Ok tt;
  co_unwind : forall db t, ev_unwind ev db t = (Ok tt, remove_above t db);
  co_create : ev_create ev = Succeeds;
  co_save : forall p, ev_save ev p = Succeeds;
  co_resume : ev_resume_save ev = Succeeds;
  co_url : forall db name url, url = ra_l1_rpc args \/ url = ra_l1_beacon args ->
             validate_http_url (FE := ev_finite ev db) name url = Ok tt;
  co_headers : forall db, @static_headers (ev_finite ev db) = Ok (fun n => Ok (db_headers db !! n));
  co_node : forall cfg db, l2_block (sf_checkpoint cfg) < sf_frontier cfg -> db_tip db = l2_block (sf_checkpoint cfg) ->
    let node := ev_node ev cfg db in
    nr_crashed node = false /\ nr_launch node = Ok tt /\ nr_exit node = Ok tt /\
    nr_derivation node = Ok (FrontierReached (sf_frontier cfg)) /\ db_tip (nr_db node) = sf_frontier cfg /\
    exists row, db_headers (nr_db node) !! sf_frontier cfg = Some row /\
      observation (sf_frontier cfg) row = canonical (sf_frontier cfg)
}.

Section Completes.
Variables (ev : Env) (args : RecoverArgs) (b : Boot) (i : Incident) (j0 : option RecoveryJournal).
Hypothesis Hco : cooperative ev args b i.

Lemma authority_answers (site : AskSite) (n : Z) : is_u64 n -> ask_header ev site n = Ok (canonical n).
Proof. intros H. unfold ask_header. by rewrite (co_ask _ _ _ _ Hco). Qed.

Lemma twp_open_tip (site : OpenSite) (checked : bool) (Q : Z -> Disk -> Prop) (d : Disk) :
  Q (db_tip (dk_db d)) d -> twp 0 (open_tip ev site checked) Q d.
Proof.
  intros HQ. unfold open_tip. apply (twp_bind 0 0), (twp_report _ tt); [apply (co_open _ _ _ _ Hco)|].
  apply (twp_bind 0 0). apply (twp_mono 0 _ (fun _ d' => d' = d)).
  - destruct checked; [|by apply twp_ret]. apply (twp_report _ tt); [|done].
    by rewrite (co_consistency _ _ _ _ Hco).
  - intros _ d' ->. apply (twp_bind 0 0), (twp_report _ tt); [apply (co_provider _ _ _ _ Hco)|].
    apply (twp_bind 0 0), twp_get, twp_ret, HQ.
Qed.

Lemma twp_save (j : RecoveryJournal) (p : Phase) (Q : unit -> Disk -> Prop) (d : Disk) :
  has_journal j d -> legal (jn_phase j) p -> Q tt (set_journal (journal_bytes (with_phase j p)) d) ->
  twp 1 (save_journal ev (with_phase j p)) Q d.
Proof.
  intros Hj Hl HQ. unfold save_journal. apply (twp_bind 0 1), twp_get.
  apply (twp_bind 0 1), (twp_report _ (Some j)); [by apply has_journal_read|].
  apply (twp_bind 0 1), (twp_report _ j); [done|]. rewrite same_immutable_phase. cbn [negb].
  change (jn_phase (with_phase j p)) with p. unfold legal in Hl. rewrite Hl. cbn [negb].
  rewrite (co_save _ _ _ _ Hco). by apply twp_write.
Qed.

Lemma tip_action_ok (j : RecoveryJournal) (d : Disk) :
  inv_at j0 j d -> jn_phase j <> Failed -> exists a, durable_tip_action j (db_tip (dk_db d)) = Ok a.
Proof.
  intros [_ _ Hok Hs _] Hp. pose proof (jo_below _ Hok). destruct (jo_tip _ Hok).
  unfold stage_ok in Hs. unfold durable_tip_action. destruct (jn_phase j); [| | | |done].
  - assert (jn_target j <= db_tip (dk_db d)) by (destruct Hs as [_ [-> | ->]]; cbn; lia).
    rewrite (proj2 (Z.leb_le _ _)) by done. eauto.
  - destruct Hs as [_ ->]. cbn [unwound_db remove_above db_tip]. rewrite Z.eqb_refl. eauto.
  - destruct Hs as (_ & _ & Ht & _). destruct (Z.eqb_spec (db_tip (dk_db d)) (jn_target j)); [eauto|].
    destruct (Z.ltb_spec (jn_target j) (db_tip (dk_db d))); [|lia].
    destruct (Z.ltb_spec (db_tip (dk_db d)) (jn_frontier j)); cbn [andb]; [eauto|].
    rewrite (proj2 (Z.eqb_eq _ _)) by lia. eauto.
  - destruct Hs as (_ & _ & -> & _). rewrite Z.eqb_refl. eauto.
Qed.

Lemma twp_reopen (j : RecoveryJournal) (d : Disk) :
  inv_at j0 j d -> db_tip (dk_db d) = jn_target j ->
  twp 1 (let! reopened_tip := open_tip ev OpenReopen true in
      if negb (reopened_tip =? jn_target j) then
        persist_terminal_failure ev j (Failure "unwind reopened at another block")
      else if bool_decide (jn_phase j = Prepared) then
        let journal := with_phase j Unwound in
        let! _ := save_journal ev journal in
        mret (Some journal)
      else mret (Some j)) (fun _ _ => True) d.
Proof.
  intros Hi Ht. apply (twp_bind 0 1), twp_open_tip. rewrite Ht, Z.eqb_refl. cbn [negb]. case_bool_decide as Hp.
  - apply (twp_bind 1 0), twp_save; [apply Hi|by rewrite Hp|]. by apply twp_ret.
  - eapply twp_le; [by apply twp_ret|lia].
Qed.

Lemma twp_unwind (j : RecoveryJournal) (d : Disk) :
  inv_at j0 j d -> jn_phase j <> Failed -> twp 2 (unwind_and_reopen ev j) (unwound_post j0 j d) d.
Proof.
  intros Hi Hp. eapply twp_mono; [eapply (twp_wp _ _ (fun _ _ => True)); [|by apply (wp_unwind_and_reopen ev j0 (co_faithful _ _ _ _ Hco))]|by intros a d' [_ H]].
  unfold unwind_and_reopen. apply (twp_bind 0 2), twp_open_tip.
  destruct (tip_action_ok j d Hi Hp) as [a Ha]. apply (twp_bind 0 2), (twp_lift _ a); [done|].
  case_bool_decide as Hv; [eapply twp_le; [by apply twp_ret|lia]|].
  apply (twp_bind 1 1). case_bool_decide as Hu.
  - subst a. apply durable_tip_unwind in Ha as [Ht Hpp].
    apply (twp_bind 1 0). intros [|n] Hn; [lia|]. unfold commit_unwind. rewrite (co_unwind _ _ _ _ Hco).
    exists (Ok tt), (set_db (remove_above (jn_target j) (dk_db d)) d), n. split; [done|]. split; [lia|].
    apply twp_ret. apply twp_reopen; [|done]. apply inv_set_db; [done|].
    apply stage_unwind; [apply Hi|apply Hi|done|done].
  - destruct a; [done| |done]. apply durable_tip_at in Ha as [Ht _].
    eapply twp_le; [apply twp_ret; by apply twp_reopen|lia].
Qed.

(** The retained prefix is its own truncation. *)
Lemma truncated_again (log l : L1ResumeLog) (cp : L1ResumeCheckpoint) :
  truncated_resume_from log cp = Ok l -> truncated_resume_from l cp = Ok l.
Proof.
  unfold truncated_resume_from, truncate_to. cbn [snd]. case_bool_decide as H; [|done]. cbn [negb].
  intros [= <-]. rewrite filter_idem. by rewrite bool_decide_eq_true_2 by done.
Qed.

(** The log on disk truncates to the journal's prefix, at any phase. *)
Lemma log_truncates (j : RecoveryJournal) (d : Disk) :
  inv_at j0 j d -> exists log, read_resume d = Ok log /\
    truncated_resume_from log (jn_checkpoint j) = Ok (jn_truncated_resume j).
Proof.
  intros [_ _ Hok Hs _]. destruct (jo_log _ Hok) as (log & Hl & Ht).
  assert (H : dk_resume d = dk_resume d0 \/ read_resume d = Ok (jn_truncated_resume j)).
  { unfold stage_ok in Hs. destruct (jn_phase j); naive_solver. }
  destruct H as [H|H].
  - exists log. unfold read_resume in *. by rewrite H.
  - exists (jn_truncated_resume j). split; [done|]. by eapply truncated_again.
Qed.

Lemma twp_confirm (j : RecoveryJournal) (d : Disk) (Q : unit -> Disk -> Prop) :
  read_resume d = Ok (jn_truncated_resume j) -> Q tt d -> twp 0 (confirm_resume ev j) Q d.
Proof.
  intros Hr HQ. apply (twp_bind 0 0), twp_get. rewrite Hr, bool_decide_eq_true_2 by done. by apply twp_ret.
Qed.

Lemma twp_truncate (log : L1ResumeLog) (j : RecoveryJournal) (d : Disk) :
  inv_at j0 j d -> db_tip (dk_db d) = jn_target j -> jn_phase j = Unwound \/ jn_phase j = ResumeTruncated ->
  read_resume d = Ok log -> twp 2 (durably_truncate_resume ev log j) (truncated_post j0 j) d.
Proof.
  intros Hi Ht Hp Hr. eapply twp_mono; [eapply (twp_wp _ _ (fun _ _ => True)); [|by apply wp_truncate]|by intros a d' [_ H]].
  destruct (log_truncates j d Hi) as (log' & Hr' & Htr). rewrite Hr in Hr'. injection Hr' as <-.
  unfold durably_truncate_resume. apply (twp_bind 0 2), (twp_report _ (jn_truncated_resume j)); [done|].
  rewrite bool_decide_eq_true_2 by done. cbn [negb]. destruct Hp as [Hp|Hp]; rewrite Hp.
  - assert (Hend : forall d', has_journal j d' -> read_resume d' = Ok (jn_truncated_resume j) ->
      twp 1 (let! _ := confirm_resume ev j in
             let next := with_phase j ResumeTruncated in
             let! _ := save_journal ev next in
             mret next) (fun _ _ => True) d').
    { intros d' Hj' Hrd. apply (twp_bind 0 1), twp_confirm; [done|]. apply (twp_bind 1 0), twp_save; [done|by rewrite Hp|].
      by apply twp_ret. }
    apply (twp_bind 1 1). case_bool_decide as Hl; cbn [negb].
    + eapply twp_le; [apply twp_ret, Hend; [apply Hi|by rewrite Hr, Hl]|lia].
    + intros [|n] Hn; [lia|]. unfold save_resume, write. rewrite (co_resume _ _ _ _ Hco).
      eexists tt, _, n. split; [done|]. split; [lia|]. apply Hend; [apply Hi|].
      apply read_resume_set, truncated_ascending, Hi.
  - apply (twp_bind 0 2), twp_confirm; [|eapply twp_le; [by apply twp_ret|lia]].
    pose proof (ia_stage _ _ _ Hi) as Hs. unfold stage_ok in Hs. rewrite Hp in Hs. apply Hs.
Qed.

(** The inputs that the journal [j] binds. *)
Record bound_to (j : RecoveryJournal) : Prop := {
  bd_incident : jn_incident j = i;
  bd_identity : jn_identity j = recovery_identity args b;
  bd_block : is_u64 (l2_block (jn_checkpoint j))
}.

Lemma frontier_u64 (j : RecoveryJournal) : bound_to j -> journal_ok j -> is_u64 (jn_frontier j).
Proof. intros Hb Hok. rewrite (jo_frontier _ Hok), (bd_incident _ Hb). apply (co_block _ _ _ _ Hco). Qed.

Lemma twp_verify (j : RecoveryJournal) (terminal : bool) (d : Disk) (Q : unit -> Disk -> Prop) :
  is_u64 (jn_frontier j) -> matched j (dk_db d) -> Q tt d -> twp 0 (verify_or_fail ev j terminal) Q d.
Proof.
  intros Hf (Ht & row & Hrow & Hex) HQ n Hn. unfold verify_or_fail.
  assert (Hv : twp 0 (verify_durable_frontier ev j) Q d).
  { apply (twp_bind 0 0), twp_open_tip. apply (twp_bind 0 0), twp_get.
    apply (twp_bind 0 0), (twp_report _ row); [by rewrite Hrow|]. rewrite Ht, Z.eqb_refl. cbn [negb].
    apply (twp_bind 0 0), (twp_lift _ (canonical (jn_frontier j))); [by apply authority_answers|].
    unfold exact. rewrite bool_decide_eq_true_2 by done. by apply twp_ret. }
  destruct (Hv n Hn) as (a & d' & n' & -> & Hn' & HQ'). by exists a, d', n'.
Qed.

Lemma finite_valid (j : RecoveryJournal) (d : Disk) (reth : StoppedFiniteRethLaunch) :
  bound_to j -> journal_ok j -> rebuilding j (dk_db d) -> db_tip (dk_db d) = jn_target j ->
  fl_chain reth = rb_chain_spec (bt_resolved b) -> fl_configured_db reth = fl_database_path reth ->
  validate (FE := ev_finite ev (dk_db d)) (finite_config args (bt_resolved b) (jn_checkpoint j) (jn_frontier j))
    (bt_resolved b) reth = Ok tt.
Proof.
  intros [_ Hid _] Hok (Hk & _ & Hnone) Ht Hch Hpath. pose proof (jo_genesis _ Hok) as Hg. pose proof (jo_end _ Hok) as He.
  pose proof (jo_below _ Hok) as Hb. pose proof (jo_target _ Hok) as Htg.
  destruct (jo_genesis_row _ Hok) as (g & Hgr & Hgh). destruct (jo_exact _ Hok) as (row & Hrow & _).
  pose proof (boot_genesis _ _ _ _ _ (co_boot _ _ _ _ Hco BootInitial)) as Hbg.
  rewrite Hid in Hg, He, Hgr, Hgh. cbn [recovery_identity id_genesis_block id_genesis_hash id_l1_end_block] in Hg, He, Hgr, Hgh.
  destruct (co_bounds _ _ _ _ Hco) as (_ & Hb2 & Hb3).
  assert (Hdb : validate_database (FE := ev_finite ev (dk_db d)) reth (bt_resolved b) (l2_block (jn_checkpoint j)) = Ok tt).
  { unfold validate_database, same_path. rewrite Hpath, String.eqb_refl. cbn [orb negb]. rewrite (co_headers _ _ _ _ Hco).
    cbn [map_err rbind]. rewrite <- Htg, (Hk (jn_target j)), Hrow by lia. cbn [ok_or rbind].
    unfold checked_add. destruct (jn_target j + 1 <=? U64_MAX); rewrite ?(Hnone (jn_target j + 1)) by lia;
      cbn [map_err rbind]; rewrite Hk, Hgr by lia; cbn [map_err rbind ok_or]; rewrite Hgh, Hbg, Z.eqb_refl; done. }
  unfold validate, finite_config. cbn [sf_checkpoint sf_l1_sync sf_l1_rpc sf_l1_beacon sf_frontier cfg_sequencer_inbox
    cfg_bridge cfg_start_block cfg_end_block cfg_start_delayed_count cfg_start_l2_block cfg_db_tip_l2 cfg_l2_frontier
    cfg_genesis_block cfg_checkpointing cfg_batch_window cfg_delayed_window cfg_prefetch_windows L1SyncConfig_mainnet].
  rewrite Hch, (co_spec _ _ _ _ Hco), !Z.eqb_refl, bool_decide_eq_true_2 by done. cbn [negb orb].
  rewrite (proj2 (Z.ltb_ge (l2_block (jn_checkpoint j)) _)), (proj2 (Z.ltb_ge (jn_frontier j) (rb_genesis_block _))),
    (proj2 (Z.ltb_ge (jn_frontier j) (l2_block _))), (proj2 (Z.ltb_ge (ra_l1_end_block args) _)) by lia.
  cbn [orb]. rewrite (proj2 (Z.eqb_neq (ra_l1_getlogs_range args) 0)), (proj2 (Z.eqb_neq (ra_l1_prefetch args) 0)) by done.
  cbn [orb]. rewrite !(co_url _ _ _ _ Hco) by auto. exact Hdb.
Qed.

Lemma finite_ok (j : RecoveryJournal) (d : Disk) (reth : StoppedFiniteRethLaunch) (db : Database) (row : HeaderRow) :
  validate (FE := ev_finite ev (dk_db d)) (finite_config args (bt_resolved b) (jn_checkpoint j) (jn_frontier j))
    (bt_resolved b) reth = Ok tt ->
  db_tip db = jn_frontier j -> db_headers db !! jn_frontier j = Some row ->
  run_stopped_finite (FE := ev_finite ev (dk_db d)) reth (bt_resolved b)
    (finite_config args (bt_resolved b) (jn_checkpoint j) (jn_frontier j))
    (Ok (provider_of db)) (Ok tt) (Ok (FrontierReached (jn_frontier j))) = Ok (observation (jn_frontier j) row).
Proof.
  intros Hv Ht Hrow. unfold run_stopped_finite. rewrite Hv. cbn [map_err rbind]. apply finish_iff.
  split_and!; [done|done|by cbn; rewrite Ht|]. exists row. cbn. by rewrite Hrow.
Qed.

Lemma twp_finite (j : RecoveryJournal) (d : Disk) :
  bound_to j -> inv_at j0 j d -> jn_phase j = ResumeTruncated -> db_tip (dk_db d) = jn_target j ->
  twp 0 (finite_runner ev (bt_resolved b) (finite_config args (bt_resolved b) (jn_checkpoint j) (jn_frontier j)))
    (fun o d' => o = canonical (jn_frontier j) /\ matched j (dk_db d') /\ inv_at j0 j d') d.
Proof.
  intros Hb Hi Hp Ht. pose proof (ia_ok _ _ _ Hi) as Hok. pose proof (jo_target _ Hok) as Htg.
  pose proof (jo_below _ Hok) as Hlt.
  assert (Hre : rebuilding j (dk_db d)).
  { pose proof (ia_stage _ _ _ Hi) as Hs. unfold stage_ok in Hs. rewrite Hp in Hs. apply Hs. }
  eapply twp_mono; [eapply (twp_wp _ _ (fun o d' => o = canonical (jn_frontier j) /\ matched j (dk_db d')))|].
  - intros n _. unfold finite_runner.
    match goal with |- context [validate _ _ ?r] => pose proof (finite_valid j d r Hb Hok Hre Ht eq_refl eq_refl) as Hv end.
    rewrite Hv. destruct (co_node _ _ _ _ Hco (finite_config args (bt_resolved b) (jn_checkpoint j) (jn_frontier j)) (dk_db d))
      as (Hn1 & Hn2 & Hn3 & Hn4 & Hnt & row & Hrow & Hex); [cbn; lia|cbn; lia|].
    cbv zeta. rewrite Hn1, Hn2, Hn3, Hn4. cbn [rbind sf_frontier finite_config] in *.
    rewrite (finite_ok j d _ _ row Hv Hnt Hrow).
    eexists _, _, n. split; [done|]. split; [lia|]. split; [done|]. split; [done|]. by exists row.
  - eapply (wp_finite_runner ev j0 (co_faithful _ _ _ _ Hco) _ _ j d (fun _ => inv_at j0 j)); [done|done|done|by cbn|done|auto].
  - intros o d' [[-> Hm] Hi']. auto.
Qed.

Definition published (d : Disk) : Prop :=
  exists j, read_journal d = Ok (Some j) /\ jn_phase j = FrontierMatched.

Lemma twp_publish (j : RecoveryJournal) (d : Disk) :
  inv_at j0 j d -> jn_phase j = ResumeTruncated ->
  twp 1 (save_journal ev (with_phase j FrontierMatched)) (fun _ => published) d.
Proof.
  intros Hi Hp. apply twp_save; [apply Hi|by rewrite Hp|]. exists (with_phase j FrontierMatched). split; [apply has_journal_read|done].
  split; [done|apply Hi].
Qed.

Lemma twp_rebuild (j : RecoveryJournal) (d : Disk) :
  bound_to j -> inv_at j0 j d -> jn_phase j = ResumeTruncated -> db_tip (dk_db d) = jn_target j ->
  twp 1 (rebuild_stage ev args b (jn_checkpoint j) j) (fun _ => published) d.
Proof.
  intros Hb Hi Hp Ht. apply (twp_bind 0 1). eapply twp_mono; [by apply twp_finite|].
  intros o d' (-> & Hm & Hi'). pose proof (frontier_u64 j Hb (ia_ok _ _ _ Hi)) as Hf.
  apply (twp_bind 0 1), (twp_lift _ (canonical (jn_frontier j))); [by apply authority_answers|].
  unfold exact. rewrite bool_decide_eq_true_2 by done. cbn [negb].
  apply (twp_bind 0 1), twp_verify; [done|done|]. by apply twp_publish.
Qed.

Lemma twp_verify_stage (j : RecoveryJournal) (d : Disk) :
  bound_to j -> inv_at j0 j d -> jn_phase j = ResumeTruncated \/ jn_phase j = FrontierMatched -> matched j (dk_db d) ->
  twp 1 (verify_frontier_stage ev j) (fun _ => published) d.
Proof.
  intros Hb Hi Hp Hm. apply (twp_bind 0 1), twp_verify; [by apply frontier_u64, Hi|done|].
  case_bool_decide as Hr; [by apply twp_publish|].
  eapply twp_le; [apply twp_ret|lia]. exists j. split; [by apply has_journal_read, Hi|]. by destruct Hp.
Qed.

(** From the journal on: a run in a cooperative environment publishes success. *)
Lemma twp_stages (log : L1ResumeLog) (j : RecoveryJournal) (d : Disk) :
  bound_to j -> inv_at j0 j d -> jn_phase j <> Failed -> read_resume d = Ok log ->
  (jn_phase j = ResumeTruncated -> db_tip (dk_db d) = jn_frontier j -> matched j (dk_db d)) ->
  twp 5 (let! reopened := unwind_and_reopen ev j in
         match reopened with
         | None => verify_frontier_stage ev j
         | Some journal =>
             let! journal := durably_truncate_resume ev log journal in
             rebuild_stage ev args b (jn_checkpoint j) journal
         end) (fun _ => published) d.
Proof.
  intros Hb Hi Hp Hr Hm. apply (twp_bind 2 3). eapply twp_mono; [by apply twp_unwind|].
  intros [j'|] d' Hpost; cbn [unwound_post] in Hpost.
  - destruct Hpost as (Hi' & Hjj & Hrr & Htt & Hpp). apply (twp_bind 2 1). eapply twp_mono.
    { apply twp_truncate; [done|by rewrite Hjj|done|]. unfold read_resume in *. by rewrite Hrr. }
    intros j3 d3 (Hi3 & -> & Ht3). assert (jn_checkpoint j = jn_checkpoint (with_phase j' ResumeTruncated)) as ->
      by (by rewrite Hjj). apply twp_rebuild; [|done|done|done]. destruct Hb. rewrite Hjj. by split.
  - destruct Hpost as (-> & Ht & Hpp). eapply twp_le; [apply twp_verify_stage; [done|done|done|]|lia].
    destruct Hpp as [Hpp|Hpp]; [auto|]. pose proof (ia_stage _ _ _ Hi) as Hs. unfold stage_ok in Hs. rewrite Hpp in Hs. apply Hs.
Qed.

(** ** The checks pass *)

Lemma preflight_ok (pre : Disk) (log : L1ResumeLog) :
  read_incident pre = Ok i -> read_resume pre = Ok log ->
  hash (canonical (l2_block_number i)) = canonical_hash i ->
  state_root (canonical (l2_block_number i)) = canonical_state_root i ->
  preflight ev args pre = Ok (b, i, log).
Proof.
  intros Hi Hl Hh Hs. unfold preflight. destruct (co_bounds _ _ _ _ Hco) as (H1 & H2 & H3).
  rewrite (proj2 (Z.eqb_neq _ _) H1), (proj2 (Z.eqb_neq _ _) H2), (proj2 (Z.eqb_neq _ _) H3). cbn [orb].
  rewrite Hi. cbn [map_err rbind]. rewrite (co_boot _ _ _ _ Hco). cbn [map_err rbind]. rewrite Hl. cbn [map_err rbind].
  rewrite (co_connect _ _ _ _ Hco). cbn [map_err rbind]. rewrite authority_answers by apply (co_block _ _ _ _ Hco). cbn [rbind].
  by rewrite Hh, Hs, !Z.eqb_refl.
Qed.

Lemma before_lock_ok (pre : Disk) (log : L1ResumeLog) (initial : option RecoveryJournal) (cp : L1ResumeCheckpoint) :
  selected args pre b i log initial cp -> is_u64 (l2_block cp) ->
  match initial with
  | Some j => bound_to j /\ jn_phase j <> Failed /\ jn_checkpoint j = cp
  | None => forall f, (forall n, f n = Ok (db_headers (dk_db pre) !! n)) ->
              choose_checkpoint ev f i (ra_max_recovery_l2_blocks args) (candidates_of log i) = Ok cp
  end ->
  before_lock ev args pre = Ok (b, i, log, initial, cp).
Proof.
  intros [Sinc Sres Sj (g & Hg & Hgh) (row & Hrow & Hex) Sbel Sspan Send [Sh Ss]] Hu Hinit. unfold before_lock.
  rewrite Sinc. cbn [map_err rbind]. rewrite (co_boot _ _ _ _ Hco). cbn [map_err rbind]. rewrite Sj. cbn [map_err rbind].
  assert (Hc : match initial with
     | Some existing => negb (bool_decide (jn_incident existing = i))
                        || negb (bool_decide (jn_identity existing = recovery_identity args b))
     | None => false
     end = false).
  { destruct initial as [j|]; [|done]. destruct Hinit as [[H1 H2 _] _]. by rewrite !bool_decide_eq_true_2. }
  rewrite Hc.
  assert (Hc' : match initial with Some j => bool_decide (jn_phase j = Failed) | None => false end = false).
  { destruct initial as [j|]; [|done]. destruct Hinit as (_ & H & _). by apply bool_decide_eq_false. }
  rewrite Hc', (preflight_ok pre log) by done. cbn [rbind].
  destruct (co_static _ _ _ _ Hco (dk_db pre)) as (f & Hf & Hfn). rewrite Hf. cbn [map_err rbind].
  rewrite Hfn, Hg. cbn [map_err rbind ok_or].
  rewrite Hgh, (boot_genesis _ _ _ _ _ (co_boot _ _ _ _ Hco BootInitial)), Z.eqb_refl. cbn [negb].
  assert (Hcp : match initial with
     | Some existing => Ok (jn_checkpoint existing)
     | None => choose_checkpoint ev f i (ra_max_recovery_l2_blocks args) (candidates_of log i)
     end = Ok cp).
  { destruct initial as [j|]; [by destruct Hinit as (_ & _ & ->)|by apply Hinit]. }
  rewrite Hcp. cbn [rbind]. rewrite Hfn, Hrow. cbn [map_err rbind ok_or]. rewrite authority_answers by done. cbn [rbind].
  unfold exact. rewrite bool_decide_eq_true_2 by done. cbn [negb].
  rewrite (proj2 (Z.leb_gt _ _)), (proj2 (Z.ltb_ge _ _)) by lia.
  unfold validate_finite_inputs. rewrite !(co_url _ _ _ _ Hco) by auto. cbn [map_err rbind].
  by rewrite (proj2 (Z.ltb_ge _ _)) by lia.
Qed.

(** A journal of the history satisfies the checks again, at any phase. *)
Lemma selected_again (j : RecoveryJournal) (d : Disk) (log : L1ResumeLog) :
  bound_to j -> inv_at j0 j d -> read_resume d = Ok log -> selected args d b i log (Some j) (jn_checkpoint j).
Proof.
  intros [Hbi Hbd _] Hi Hr. pose proof (ia_ok _ _ _ Hi) as Hok.
  pose proof (stage_failed _ _ (ia_stage _ _ _ Hi)) as [_ Hk]. change (jn_target (with_phase j Failed)) with (jn_target j) in Hk.
  destruct Hok as [O1 O2 O3 O4 O5 O6 O7 O8 O9 O10 O11 O12].
  rewrite Hbd in O6, O7, O8, O9. cbn [recovery_identity id_max_recovery_l2_blocks id_l1_end_block id_genesis_block id_genesis_hash] in *.
  rewrite Hbi in *. split.
  - unfold read_incident in *. by rewrite (ia_marker _ _ _ Hi).
  - done.
  - by apply has_journal_read, Hi.
  - by rewrite (Hk _ O8).
  - rewrite <- O3. rewrite (Hk (jn_target j)) by lia. done.
  - lia.
  - lia.
  - lia.
  - by rewrite <- O4.
Qed.

Lemma recheck_again (j : RecoveryJournal) (d : Disk) (log : L1ResumeLog) :
  bound_to j -> inv_at j0 j d -> jn_phase j <> Failed -> read_resume d = Ok log ->
  recheck args b i log (Some j) (jn_checkpoint j) d = Ok (Some j).
Proof.
  intros Hb Hi Hp Hr. destruct (selected_again j d log Hb Hi Hr) as [Sinc _ Sj _ _ _ _ _ _].
  destruct Hb as [Hbi Hbd _]. unfold recheck. rewrite Sinc. cbn [map_err rbind]. rewrite bool_decide_eq_true_2 by done.
  cbn [negb]. rewrite Hr. cbn [map_err rbind]. rewrite bool_decide_eq_true_2 by done. cbn [negb]. rewrite Sj.
  cbn [map_err rbind]. rewrite (bool_decide_eq_false_2 (Some j = None)), andb_false_r by done.
  rewrite (bool_decide_eq_true_2 (jn_incident j = i)), (bool_decide_eq_true_2 (jn_identity j = _)) by done. cbn [negb].
  rewrite (bool_decide_eq_false_2 (jn_phase j = Failed)), (bool_decide_eq_true_2 (jn_checkpoint j = _)) by done.
  pose proof (ia_ok _ _ _ Hi) as Hok. rewrite (jo_target _ Hok), (jo_frontier _ Hok), Hbi, !Z.eqb_refl. cbn [negb orb].
  destruct (log_truncates j d Hi) as (log' & Hr' & Ht). rewrite Hr in Hr'. injection Hr' as <-. rewrite Ht.
  cbn [map_err rbind]. by rewrite bool_decide_eq_true_2 by done.
Qed.

Lemma completes_again (j : RecoveryJournal) (d : Disk) :
  bound_to j -> inv_at j0 j d -> jn_phase j <> Failed ->
  (jn_phase j = ResumeTruncated -> db_tip (dk_db d) = jn_frontier j -> matched j (dk_db d)) ->
  twp 6 (run_recover ev args d) (fun _ => published) d.
Proof.
  intros Hb Hi Hp Hm. destruct (log_truncates j d Hi) as (log & Hr & _). unfold run_recover.
  apply (twp_bind 0 6), (twp_lift _ (b, i, log, Some j, jn_checkpoint j)).
  { apply before_lock_ok; [by apply selected_again|apply Hb|done]. }
  apply (twp_bind 0 6), (twp_report _ tt); [apply (co_lock _ _ _ _ Hco)|]. apply (twp_bind 0 6), twp_get.
  apply (twp_bind 0 6), (twp_lift _ (Some j)); [by apply recheck_again|].
  apply (twp_bind 1 5). apply (twp_mono _ _ (fun j' d' => j' = j /\ d' = d)).
  - pose proof (ia_ok _ _ _ Hi) as Hok. pose proof (jo_genesis _ Hok) as Hg. destruct Hb as [Hbi Hbd _].
    rewrite Hbd in Hg. cbn in Hg. eapply twp_le; [|apply Nat.le_0_l]. apply (twp_bind 0 0), twp_open_tip.
    rewrite (bool_decide_eq_false_2 (Some j = None)) by done. cbn [andb].
    rewrite (jo_target _ Hok) in *. rewrite (proj2 (Z.ltb_ge _ _)) by lia.
    rewrite (jo_frontier _ Hok), Hbi, !Z.eqb_refl. by apply twp_ret.
  - intros j' d' [-> ->]. by apply twp_stages.
Qed.

(** ** The first run *)

(** A data directory from which recovery can start: the newest boundary below the incident whose
    block the authority confirms is within bounds. *)
Record startable (log : L1ResumeLog) (cp : L1ResumeCheckpoint) : Prop := {
  st_incident : read_incident d0 = Ok i;
  st_log : read_resume d0 = Ok log;
  st_blocks : forall c, In c log -> is_u64 (l2_block c);
  st_newest : exists newer older, candidates_of log i = newer ++ cp :: older /\
    forall c row, In c newer -> db_headers (dk_db d0) !! l2_block c = Some row ->
      observation (l2_block c) row <> canonical (l2_block c);
  st_exact : exists row, db_headers (dk_db d0) !! l2_block cp = Some row /\
    observation (l2_block cp) row = canonical (l2_block cp);
  st_span : l2_block_number i - l2_block cp <= ra_max_recovery_l2_blocks args;
  st_end : l1_block cp <= ra_l1_end_block args;
  st_genesis : rb_genesis_block (bt_resolved b) <= l2_block cp;
  st_genesis_row : exists g, db_headers (dk_db d0) !! rb_genesis_block (bt_resolved b) = Some g /\ hr_hash g = bt_genesis_hash b;
  st_tip : l2_block_number i <= db_tip (dk_db d0);
  st_canonical : hash (canonical (l2_block_number i)) = canonical_hash i /\
                 state_root (canonical (l2_block_number i)) = canonical_state_root i
}.

Lemma choose_newest (f : Z -> result string (option HeaderRow)) (newer older : L1ResumeLog) (cp : L1ResumeCheckpoint) :
  (forall n, f n = Ok (db_headers (dk_db d0) !! n)) -> (forall c, In c (newer ++ cp :: older) -> is_u64 (l2_block c)) ->
  (forall c row, In c newer -> db_headers (dk_db d0) !! l2_block c = Some row ->
     observation (l2_block c) row <> canonical (l2_block c)) ->
  (exists row, db_headers (dk_db d0) !! l2_block cp = Some row /\ observation (l2_block cp) row = canonical (l2_block cp)) ->
  l2_block cp < l2_block_number i -> l2_block_number i - l2_block cp <= ra_max_recovery_l2_blocks args ->
  choose_checkpoint ev f i (ra_max_recovery_l2_blocks args) (newer ++ cp :: older) = Ok cp.
Proof.
  intros Hf Hu Hnew (row & Hrow & Hex) Hb Hs. induction newer as [|c newer IH]; cbn [app choose_checkpoint].
  - rewrite Hf, Hrow. cbn [map_err rbind]. rewrite authority_answers by (apply Hu; by left). cbn [rbind]. unfold exact.
    rewrite bool_decide_eq_true_2 by done. by rewrite (proj2 (Z.ltb_ge (l2_block_number i) _)), (proj2 (Z.ltb_ge _ _)) by lia.
  - rewrite Hf. cbn [map_err rbind]. destruct (db_headers (dk_db d0) !! l2_block c) as [r|] eqn:E.
    + rewrite authority_answers by (apply Hu; by left). cbn [rbind]. unfold exact.
      rewrite bool_decide_eq_false_2; [|eapply Hnew; [by left|done]].
      apply IH; [intros c' Hin; apply Hu; by right|intros c' row' Hin; apply Hnew; by right].
    + apply IH; [intros c' Hin; apply Hu; by right|intros c' row' Hin; apply Hnew; by right].
Qed.

Lemma startable_candidate (log : L1ResumeLog) (cp : L1ResumeCheckpoint) :
  startable log cp -> In cp log /\ l2_block cp < l2_block_number i.
Proof.
  intros Hst. destruct (st_newest _ _ Hst) as (newer & older & Hc & _).
  assert (Hin : In cp (candidates_of log i)) by (rewrite Hc; apply in_elt).
  apply filter_In in Hin as [Hin Hlt]. split; [by apply in_rev|lia].
Qed.

Lemma startable_truncates (log : L1ResumeLog) (cp : L1ResumeCheckpoint) :
  startable log cp -> exists l, truncated_resume_from log cp = Ok l.
Proof.
  intros Hst. destruct (startable_candidate _ _ Hst) as [Hin _]. unfold truncated_resume_from, truncate_to. cbn [snd].
  rewrite last_filter_In; [rewrite bool_decide_eq_true_2 by done; eauto| |done].
  pose proof (st_log _ _ Hst) as Hl. unfold read_resume, ResumeFile.load_strict in Hl. ok_inv. if_inv Hl. ok_inv. subst.
  by apply ascending_check.
Qed.

Lemma completes_first (log : L1ResumeLog) (cp : L1ResumeCheckpoint) :
  startable log cp -> j0 = None -> twp 6 (run_recover ev args d0) (fun _ => published) d0.
Proof.
  intros Hst Hj0. destruct (startable_candidate _ _ Hst) as [Hin Hlt]. destruct (startable_truncates _ _ Hst) as (l & Hl).
  assert (Hsel : selected args d0 b i log None cp).
  { destruct Hst. split; try done. apply read_journal_start. }
  unfold run_recover. apply (twp_bind 0 6), (twp_lift _ (b, i, log, None, cp)).
  { apply before_lock_ok; [done|by apply (st_blocks _ _ Hst)|]. intros f Hf.
    destruct (st_newest _ _ Hst) as (newer & older & Hc & Hnew). rewrite Hc.
    apply choose_newest; try done; [|apply Hst|apply Hst]. rewrite <- Hc.
    intros c [Hcin _]%filter_In. apply (st_blocks _ _ Hst). by apply in_rev. }
  apply (twp_bind 0 6), (twp_report _ tt); [apply (co_lock _ _ _ _ Hco)|]. apply (twp_bind 0 6), twp_get.
  apply (twp_bind 0 6), (twp_lift _ None).
  { unfold recheck. rewrite (se_incident _ _ _ _ _ _ _ Hsel). cbn [map_err rbind]. rewrite bool_decide_eq_true_2 by done.
    cbn [negb]. rewrite (se_resume _ _ _ _ _ _ _ Hsel). cbn [map_err rbind]. rewrite bool_decide_eq_true_2 by done.
    cbn [negb]. by rewrite read_journal_start. }
  apply (twp_bind 1 5).
  assert (Hcreate : twp 1 (prepare ev args b i log cp None) (fun j d' => bound_to j /\ jn_phase j = Prepared /\ jn_checkpoint j = cp) d0).
  { unfold prepare. apply (twp_bind 0 1), twp_open_tip. rewrite bool_decide_eq_true_2 by done. cbn [andb].
    pose proof (st_tip _ _ Hst). pose proof (st_genesis _ _ Hst). rewrite !(proj2 (Z.ltb_ge _ _)) by lia.
    apply (twp_bind 0 1), (twp_report _ l); [done|]. unfold create_journal. apply (twp_bind 0 1), twp_get.
    rewrite no_journal, (co_create _ _ _ _ Hco). apply (twp_bind 1 0), twp_write, twp_ret. split_and!; try done.
    split; try done. by apply (st_blocks _ _ Hst). }
  eapply twp_mono.
  - eapply twp_wp; [exact Hcreate|]. apply (wp_prepare ev args b i log cp None None j0 d0
      (fun j d' => inv_at j0 j d' /\ jn_target j = l2_block cp /\ dk_resume d' = dk_resume d0)); [by left| |done|].
    + apply read_journal_start.
    + by intros j d' H1 H2 H3.
  - intros j d' [(Hb & Hp & <-) (Hi & Htg & Hr)].
    apply twp_stages; [done|done|by rewrite Hp| |by rewrite Hp]. unfold read_resume in *. rewrite Hr. apply Hst.
Qed.
End Completes.

End Histories.

(** ** A recovery from block 10 to the incident at block 12 *)

Module Sample.

Definition phase_code (p : Phase) : Z :=
  match p with Prepared => 0 | Unwound => 1 | ResumeTruncated => 2 | FrontierMatched => 3 | Failed => 4 end.
Definition phase_of (z : Z) : Phase :=
  if z =? 0 then Prepared else if z =? 1 then Unwound else if z =? 2 then ResumeTruncated
  else if z =? 3 then FrontierMatched else Failed.

Definition identity_fields (x : RecoveryIdentity) : list positive :=
  [encode (id_chain_id x); encode (id_genesis_block x); encode (id_genesis_hash x); encode (id_sequencer_inbox x);
   encode (id_bridge x); encode (id_canonical_l2_rpc x); encode (id_l1_rpc x); encode (id_l1_beacon x);
   encode (id_l1_end_block x); encode (id_max_recovery_l2_blocks x); encode (id_l1_prefetch x); encode (id_l1_getlogs_range x)].

Definition identity_of (l : list positive) : option RecoveryIdentity :=
  match l with
  | [a; b; c; d; e; f; g; h; k; m; n; o] =>
      a ← decode a; b ← decode b; c ← decode c; d ← decode d; e ← decode e; f ← decode f; g ← decode g; h ← decode h;
      k ← decode k; m ← decode m; n ← decode n; o ← decode o;
      Some {| id_chain_id := a; id_genesis_block := b; id_genesis_hash := c; id_sequencer_inbox := d; id_bridge := e;
              id_canonical_l2_rpc := f; id_l1_rpc := g; id_l1_beacon := h; id_l1_end_block := k;
              id_max_recovery_l2_blocks := m; id_l1_prefetch := n; id_l1_getlogs_range := o |}
  | _ => None
  end.

Definition incident_fields (x : Incident) : list Z :=
  [schema_version x; effective_chain_id x; l2_block_number x; local_hash x; canonical_hash x; local_state_root x;
   canonical_state_root x; detected_at_unix_secs x].

Definition incident_of (l : list Z) : option Incident :=
  match l with
  | [a; b; c; d; e; f; g; h] =>
      Some {| schema_version := a; effective_chain_id := b; l2_block_number := c; local_hash := d; canonical_hash := e;
              local_state_root := f; canonical_state_root := g; detected_at_unix_secs := h |}
  | _ => None
  end.

Definition journal_fields (j : RecoveryJournal) : list positive :=
  [encode (jn_schema_version j); encode (identity_fields (jn_identity j)); encode (incident_fields (jn_incident j));
   encode (jn_checkpoint j); encode (jn_truncated_resume j); encode (jn_original_tip j); encode (jn_target j);
   encode (jn_frontier j); encode (phase_code (jn_phase j))].

Definition journal_of (l : list positive) : option RecoveryJournal :=
  match l with
  | [a; b; c; d; e; f; g; h; k] =>
      a ← decode a; b ← decode b; b ← identity_of b; c ← decode c; c ← incident_of c; d ← decode d; e ← decode e;
      f ← decode f; g ← decode g; h ← decode h; k ← decode k;
      Some {| jn_schema_version := a; jn_identity := b; jn_incident := c; jn_checkpoint := d; jn_truncated_resume := e;
              jn_original_tip := f; jn_target := g; jn_frontier := h; jn_phase := phase_of k |}
  | _ => None
  end.

Lemma journal_fields_of (j : RecoveryJournal) : journal_of (journal_fields j) = Some j.
Proof.
  destruct j as [v x y cp l t a f p]. unfold journal_of, journal_fields. cbn [jn_schema_version jn_identity jn_incident
    jn_checkpoint jn_truncated_resume jn_original_tip jn_target jn_frontier jn_phase].
  rewrite !decode_encode. cbn [mbind option_bind].
  assert (identity_of (identity_fields x) = Some x) as ->.
  { destruct x as [x1 x2 x3 x4 x5 x6 x7 x8 x9 x10 x11 x12]. unfold identity_of, identity_fields. cbn [id_chain_id id_genesis_block id_genesis_hash id_sequencer_inbox
      id_bridge id_canonical_l2_rpc id_l1_rpc id_l1_beacon id_l1_end_block id_max_recovery_l2_blocks id_l1_prefetch
      id_l1_getlogs_range]. by rewrite !decode_encode. }
  cbn [mbind option_bind].
  assert (incident_of (incident_fields y) = Some y) as -> by (by destruct y). cbn [mbind option_bind]. by destruct p.
Qed.

(** A positive as its binary digits. *)
Fixpoint digits (p : positive) : bytes :=
  match p with
  | xH => [x31]
  | xO p => x30 :: digits p
  | xI p => x31 :: digits p
  end.

Fixpoint positive_of (bs : bytes) : option positive :=
  match bs with
  | [] => None
  | x31 :: [] => Some xH
  | b :: bs => p ← positive_of bs; Some (if byte_eqb b x31 then xI p else xO p)
  end.

Lemma positive_of_digits (p : positive) : positive_of (digits p) = Some p.
Proof.
  induction p as [p IH|p IH|]; cbn [digits]; [| |done]; cbn [positive_of]; destruct (digits p) eqn:E; try done;
    rewrite IH; done.
Qed.

Definition the_incident : Incident := {|
  schema_version := 1; effective_chain_id := 42161; l2_block_number := 12; local_hash := 77; canonical_hash := 12;
  local_state_root := 78; canonical_state_root := 12; detected_at_unix_secs := 1
|}.

#[local] Instance recover_json : RecoverJson.
Proof.
  refine {| incident_from_slice _ := Some the_incident;
            journal_to_vec j := digits (encode (journal_fields j));
            journal_from_slice bs := p ← positive_of (removelast bs); l ← decode p; journal_of l |}.
  intros j. rewrite removelast_last, positive_of_digits. cbn [mbind option_bind]. rewrite decode_encode.
  apply journal_fields_of.
Defined.

#[local] Instance short_hash : ParseB256 := {| parse_b256 := parse_quantity |}.

Definition canonical (n : Z) : HeaderObservation := {| number := n; hash := n; state_root := n |}.
Definition row (h : Z) : HeaderRow := {| hr_hash := h; hr_state_root := h |}.
Definition boundary (n : Z) : L1ResumeCheckpoint := {| l1_block := n; delayed_count := 0; l2_block := n |}.
Definition log : L1ResumeLog := [boundary 10; boundary 11; boundary 13].

(** Blocks 11 to 14 diverge; the boundary at 11 is not canonical. *)
Definition start : Disk := {|
  dk_marker := Some [];
  dk_resume := Some (json_to_vec log ++ [x0a]);
  dk_journal := None;
  dk_db := {| db_tip := 14; db_headers := {[10 := row 10; 11 := row 91; 12 := row 77; 13 := row 93; 14 := row 94]} |}
|}.

Definition args : RecoverArgs := {|
  ra_canonical_l2_rpc := "http://l2"; ra_l1_rpc := "http://l1"; ra_l1_beacon := "http://beacon"; ra_l1_end_block := 50;
  ra_max_recovery_l2_blocks := 5; ra_snapshot_head := Some "head"%string; ra_chain_info := None; ra_genesis_json := None;
  ra_chain_id := Some 42161; ra_l1_prefetch := 2; ra_l1_getlogs_range := 100
|}.

Definition the_boot : Boot := {|
  bt_resolved := {| rb_chain_spec := {| cs_chain_id := 42161; cs_genesis_hash := 10 |}; rb_chain_id := 42161;
                    rb_genesis_block := 10; rb_sequencer_inbox := SequencerInboxReader.SEQUENCER_INBOX_MAINNET;
                    rb_bridge := DelayedInboxReader.BRIDGE_MAINNET |};
  bt_genesis_hash := 10
|}.

(** A node that rebuilds the frontier. *)
Definition rebuilt (cfg : StoppedFiniteConfig) (db : Database) : Database := {|
  db_tip := sf_frontier cfg;
  db_headers := <[sf_frontier cfg := row (sf_frontier cfg)]> (db_headers (remove_above (l2_block (sf_checkpoint cfg)) db))
|}.

Definition env : Env := {|
  ev_snapshot _ _ := Ok (10, 10);
  ev_orbit _ _ _ := Err "unused"%string;
  ev_client := Some tt;
  ev_chain_id := Ok (format_quantity 42161);
  ev_ask _ n := Ok (Some {| rh_number := format_quantity n; rh_hash := format_quantity n; rh_state_root := format_quantity n |});
  ev_static db := Ok (fun n => Ok (db_headers db !! n));
  ev_lock := Ok tt;
  ev_open _ := Ok tt;
  ev_consistency _ := Ok (None, None);
  ev_provider _ := Ok tt;
  ev_unwind db t := (Ok tt, remove_above t db);
  ev_create := Succeeds;
  ev_save _ := Succeeds;
  ev_resume_save := Succeeds;
  ev_finite db := {| canonicalize p := Some p; static_headers := Ok (fun n => Ok (db_headers db !! n));
                     parse_url _ := Some ("http"%string, Some "host"%string) |};
  ev_database_path := "db";
  ev_node cfg db := {| nr_db := rebuilt cfg db; nr_crashed := false; nr_launch := Ok tt; nr_exit := Ok tt;
                       nr_derivation := Ok (FrontierReached (sf_frontier cfg)) |}
|}.

Lemma ask_answer (site : AskSite) (n : Z) : is_u64 n -> client_header (ev_ask env site n) n = Ok (canonical n).
Proof.
  unfold is_u64. intros H. unfold client_header, into_observation. cbn [ev_ask env map_err rbind ok_or rh_number rh_hash rh_state_root].
  cbn [parse_b256 short_hash]. rewrite !parse_format_quantity by (unfold U64_MAX; lia). cbn [ok_or rbind].
  by rewrite Z.eqb_refl.
Qed.

Lemma env_node (cfg : StoppedFiniteConfig) (db : Database) :
  l2_block (sf_checkpoint cfg) < sf_frontier cfg -> node_extends cfg db (rebuilt cfg db).
Proof.
  intros Hlt. split_and!; cbn [rebuilt db_headers db_tip]; [|lia|lia|].
  - intros n Hn. rewrite lookup_insert_ne by lia. cbn.
    destruct (db_headers db !! n) as [r|] eqn:E; [by apply map_lookup_filter_Some_2|].
    apply map_lookup_filter_None_2. by left.
  - intros n Hn. rewrite lookup_insert_ne by lia. apply (remove_above_none (l2_block (sf_checkpoint cfg)) n db). lia.
Qed.

Lemma env_faithful : faithful canonical env.
Proof.
  split.
  - intros site n o H. unfold client_header, into_observation in H. cbn [ev_ask env map_err rbind ok_or rh_number] in H.
    apply map_err_Ok in H. cbn [rh_hash rh_state_root parse_b256 short_hash] in H.
    destruct (parse_quantity (format_quantity n)) as [v|]; cbn [ok_or rbind] in H; [|discriminate H].
    destruct (Z.eqb_spec v n) as [Hv|]; cbn [negb] in H; [|discriminate H]. injection H as <-. by rewrite Hv.
  - intros db f n r [= <-] [= <-]. done.
  - intros db t. by left.
  - intros cfg db Hlt _. by apply env_node.
Qed.

Lemma env_cooperative : cooperative canonical env args the_boot the_incident.
Proof.
  split.
  - apply env_faithful.
  - intros site. reflexivity.
  - reflexivity.
  - split_and!; discriminate.
  - vm_compute. reflexivity.
  - split; [discriminate|reflexivity].
  - apply ask_answer.
  - intros db. eexists. split; reflexivity.
  - reflexivity.
  - reflexivity.
  - reflexivity.
  - reflexivity.
  - reflexivity.
  - reflexivity.
  - reflexivity.
  - reflexivity.
  - intros db name url _. reflexivity.
  - reflexivity.
  - intros cfg db Hlt Ht. cbn [ev_node env nr_crashed nr_launch nr_exit nr_derivation nr_db]. cbv zeta.
    split_and!; try reflexivity. exists (row (sf_frontier cfg)). split; [|reflexivity].
    cbn [rebuilt db_headers]. apply lookup_insert_eq.
Qed.

Lemma start_resume : read_resume start = Ok log.
Proof. unfold read_resume, ResumeFile.load_strict. cbn [dk_resume start ok_or rbind]. by rewrite json_roundtrip. Qed.

Lemma start_startable : startable start canonical args the_boot the_incident log (boundary 10).
Proof.
  split.
  - reflexivity.
  - apply start_resume.
  - intros c Hc. cbn in Hc. destruct Hc as [<-|[<-|[<-|[]]]]; (split; [discriminate|reflexivity]).
  - exists [boundary 11], []. split; [reflexivity|]. intros c r [<-|[]] H. vm_compute in H. injection H as <-. discriminate.
  - exists (row 10). split; reflexivity.
  - discriminate.
  - discriminate.
  - discriminate.
  - exists (row 10). split; reflexivity.
  - discriminate.
  - split; reflexivity.
Qed.


(** The power fails after the third durable write: the journal says [Unwound], and the blocks up to
    10 are those of the start. *)
Lemma recovery_safe_witness :
  exists d n j, run_recover env args start (start, 3%nat) = (Crashed, (d, n)) /\
    read_journal d = Ok (Some j) /\ jn_phase j = Unwound /\ rows_kept start (jn_target j) (dk_db d).
Proof.
  destruct (run_recover env args start (start, 3%nat)) as [out [d n]] eqn:E.
  assert (Hr : runs start canonical [d; start]).
  { eapply runs_step; [apply runs_start| |apply env_faithful|exact E].
    split_and!; exists start; (split; [left; reflexivity|reflexivity]). }
  pose proof (recovery_safe start canonical eq_refl d [start] Hr) as (_ & _ & H).
  assert (Hd : out = Crashed /\ exists j, read_journal d = Ok (Some j) /\ jn_phase j = Unwound).
  { vm_compute in E. injection E as <- <- <-. split; [reflexivity|]. eexists. split; vm_compute; reflexivity. }
  destruct Hd as (-> & j & Hj & Hp). rewrite Hj in H. exists d, n, j. split; [reflexivity|].
  split; [exact Hj|]. split; [exact Hp|]. apply H.
Defined.
End Sample.
