(* ===== verification/RecoverLock.v ===== *)
(** * Recovery commands that run at the same time

    [RecoveryLock] of [crates/arb-reth-node/src/commands/recover.rs], and what it is for: any number of
    recovery commands may be started on one datadir. Each reads and checks what it likes, then takes the
    advisory lock, and only the one that has it writes; a command that is killed loses it. [flock] is
    the kernel's: an exclusive lock is granted when nobody holds it. *)

From Stdlib Require Import Strings.Byte Strings.String.
From stdpp Require Import base list numbers option strings gmap relations.
From S2P Require Import Prelude Crash Resume TrustedL2 Finite Recover RecoverSafety.

(** [RecoveryLock::acquire]: [created] is whether the directory and the lock file could be opened. *)
Definition acquire (created : result string unit) (held : bool) : result string unit :=
  let? _ := created in
  if held then Err "another recovery process holds the datadir recovery lock"%string else Ok tt.

(** ** Runs in pieces *)

Section Locked.
Context {RJ : ResumeJson} {CJ : RecoverJson} {PB : ParseB256}.

(** A run up to its journal, and the rest of it. *)
Definition start_run (ev : Env) (args : RecoverArgs) (pre : Disk) : Prog (Boot * L1ResumeLog * L1ResumeCheckpoint * RecoveryJournal) :=
  let! '(b, incident, log, initial_journal, checkpoint) := lift (before_lock ev args pre) in
  let! _ := report (ev_lock ev) in
  let! d := get in
  let! journal := lift (recheck args b incident log initial_journal checkpoint d) in
  let! journal := prepare ev args b incident log checkpoint journal in
  mret (b, log, checkpoint, journal).

Definition rest_of_run (ev : Env) (args : RecoverArgs) (started : Boot * L1ResumeLog * L1ResumeCheckpoint * RecoveryJournal) : Prog unit :=
  let '(b, log, checkpoint, journal) := started in
  let! reopened := unwind_and_reopen ev journal in
  match reopened with
  | None => verify_frontier_stage ev journal
  | Some journal =>
      let! journal := durably_truncate_resume ev log journal in
      rebuild_stage ev args b checkpoint journal
  end.

Lemma run_split (ev : Env) (args : RecoverArgs) (pre : Disk) (s : Disk * nat) :
  run_recover ev args pre s = mthen (start_run ev args pre) (rest_of_run ev args) s.
Proof.
  unfold run_recover, start_run, rest_of_run, mthen. destruct (lift _ s) as [[[[[[b i] log] initial] cp]|e|] s1]; [|done|done].
  destruct (report _ s1) as [[u|e|] s2]; [|done|done]. destruct (get s2) as [[d|e|] s3]; [|done|done].
  destruct (lift _ s3) as [[j|e|] s4]; [|done|done]. by destruct (prepare _ _ _ _ _ _ _ s4) as [[j'|e|] s5].
Qed.

(** What the node run of the rebuild does is decided last. *)
Definition with_node (ev : Env) (node : StoppedFiniteConfig -> Database -> NodeRun) : Env := {|
  ev_snapshot := ev_snapshot ev; ev_orbit := ev_orbit ev; ev_client := ev_client ev; ev_chain_id := ev_chain_id ev; ev_ask := ev_ask ev;
  ev_static := ev_static ev; ev_lock := ev_lock ev; ev_open := ev_open ev; ev_consistency := ev_consistency ev;
  ev_provider := ev_provider ev; ev_unwind := ev_unwind ev; ev_create := ev_create ev; ev_save := ev_save ev;
  ev_resume_save := ev_resume_save ev; ev_finite := ev_finite ev; ev_database_path := ev_database_path ev; ev_node := node
|}.

(** ** The commands *)

(** The command that holds the lock: the disk it found, what it read before, and how many of its durable
    writes are done. *)
Record Holder := { h_base : Disk; h_ev : Env; h_args : RecoverArgs; h_pre : Disk; h_writes : nat }.

(** The disk, every disk there was before, and who holds the lock. *)
Record Fleet := { fl_now : Disk; fl_past : list Disk; fl_holder : option Holder }.

Definition fleet_start (d : Disk) : Fleet := {| fl_now := d; fl_past := []; fl_holder := None |}.

(** The disk of a run after [k] writes, its node run being [node] (which may be cut short). *)
Definition disk_at (h : Holder) (node : StoppedFiniteConfig -> Database -> NodeRun) (k : nat) : Disk :=
  fst (snd (run_recover (with_node (h_ev h) node) (h_args h) (h_pre h) (h_base h, k))).

Variables (d0 : Disk) (canonical : Z -> HeaderObservation).

(** A command takes the lock, or is refused and ends; the holder makes more of its writes, or is done
    or killed, which frees the lock. *)
Inductive fleet_step (f : Fleet) : Fleet -> Prop :=
| Locks ev args pre created :
    fl_holder f = None -> ev_lock ev = acquire created false -> faithful canonical ev -> glimpse (fl_now f :: fl_past f) pre ->
    fleet_step f {| fl_now := fl_now f; fl_past := fl_past f;
                    fl_holder := Some {| h_base := fl_now f; h_ev := ev; h_args := args; h_pre := pre; h_writes := O |} |}
| Refused ev args pre created n h :
    fl_holder f = Some h -> ev_lock ev = acquire created true -> faithful canonical ev -> glimpse (fl_now f :: fl_past f) pre ->
    fleet_step f {| fl_now := fst (snd (run_recover ev args pre (fl_now f, n))); fl_past := fl_now f :: fl_past f; fl_holder := Some h |}
| Writes h node k :
    fl_holder f = Some h -> (h_writes h <= k)%nat -> faithful canonical (with_node (h_ev h) node) ->
    fleet_step f {| fl_now := disk_at h node k; fl_past := fl_now f :: fl_past f;
                    fl_holder := Some {| h_base := h_base h; h_ev := h_ev h; h_args := h_args h; h_pre := h_pre h; h_writes := k |} |}
| Unlocks h : fl_holder f = Some h -> fleet_step f {| fl_now := fl_now f; fl_past := fl_past f; fl_holder := None |}.

(** ** One run among the others *)

Hypothesis no_journal : dk_journal d0 = None.

(** A command that meets the lock held changes nothing. *)
Lemma refused_unchanged (ev : Env) (args : RecoverArgs) (pre d : Disk) (created : result string unit) (n : nat) :
  ev_lock ev = acquire created true -> fst (snd (run_recover ev args pre (d, n))) = d.
Proof.
  intros Hl. unfold run_recover, mthen, report. destruct (before_lock ev args pre) as [[[[[b i] log] initial] cp]|e]; cbn [lift raise mret]; [|done].
  rewrite Hl. by destruct created as [[]|e].
Qed.

Lemma wp_disk {A : Type} (m : Prog A) (P : Disk -> Prop) (d : Disk) (n : nat) : wp m (fun _ => P) P d -> P (fst (snd (m (d, n)))).
Proof. intros H. specialize (H n). by destruct (m (d, n)) as [[a|e|] [d' n']]. Qed.

(** The part after the journal, from the journal on. *)
Lemma wp_rest (ev : Env) (args : RecoverArgs) (j0 : option RecoveryJournal) (b : Boot) (log : L1ResumeLog) (cp : L1ResumeCheckpoint)
    (j : RecoveryJournal) (d : Disk) :
  faithful canonical ev -> inv_at d0 canonical j0 j d -> jn_target j = l2_block cp ->
  wp (rest_of_run ev args (b, log, cp, j)) (fun _ => inv d0 canonical j0) (inv d0 canonical j0) d.
Proof.
  intros Hf Hi Ht. apply wp_bind. eapply wp_mono; [by apply (wp_unwind_and_reopen d0 canonical ev j0 Hf j)| |done].
  intros [j'|] d'' Hpost; cbn [unwound_post] in Hpost.
  - destruct Hpost as (Hi'' & Hjj & _ & Htt & _). apply wp_bind.
    eapply wp_mono; [apply (wp_truncate d0 canonical ev j0 log j' d''); [done|rewrite Hjj; done]| |done].
    intros j3 d3 (Hi3 & -> & Ht3). apply wp_rebuild; [done|done|done|done|]. by rewrite Hjj.
  - destruct Hpost as (-> & _). by apply wp_verify_stage.
Qed.

Lemma wp_start (ev : Env) (args : RecoverArgs) :
  faithful canonical ev ->
  wp (start_run ev args d0) (fun started d' => inv_at d0 canonical None (snd started) d' /\ jn_target (snd started) = l2_block (snd (fst started)))
     (inv d0 canonical None) d0.
Proof.
  intros Hf. assert (Hi : inv d0 canonical None d0) by (by left). unfold start_run. apply wp_bind, wp_lift; [done|].
  intros [[[[b i] log] initial] cp] Hb%(before_lock_facts canonical); [|done].
  apply wp_bind, wp_report; [done|]. intros _ _. apply wp_bind, wp_get. apply wp_bind, wp_lift; [done|].
  intros journal (_ & _ & Hj & _)%recheck_facts.
  apply wp_bind, (wp_prepare d0 canonical no_journal _ _ _ _ _ _ initial _ None); [done|done|done|]. intros j d' Hj' Ht _. by apply wp_ret.
Qed.

(** From a disk without a journal a run writes the journal first, or nothing at all. *)
Definition first_write {A : Type} (ev : Env) (m : Prog A) : Prop :=
  (exists e, forall k, m (d0, k) = (Raise e, (d0, k))) \/
  exists j a, forall k, m (d0, k) = mthen (write (ev_create ev) (set_journal (journal_bytes j))) (fun _ => mret a) (d0, k).

Lemma first_write_lift {A B : Type} (ev : Env) (r : result RecoverError B) (m : B -> Prog A) :
  (forall b, r = Ok b -> first_write ev (m b)) -> first_write ev (mthen (lift r) m).
Proof. intros H. destruct r as [b|e]; [by apply H|]. left. exists e. done. Qed.

Lemma first_write_report {A B : Type} (ev : Env) (r : result string B) (m : B -> Prog A) :
  (forall b, r = Ok b -> first_write ev (m b)) -> first_write ev (mthen (report r) m).
Proof. intros H. apply first_write_lift. intros b E%map_err_Ok. by apply H. Qed.

Lemma first_write_get {A : Type} (ev : Env) (m : Disk -> Prog A) : first_write ev (m d0) -> first_write ev (mthen get m).
Proof. done. Qed.

Lemma first_write_assoc {A B C : Type} (ev : Env) (m : Prog C) (l : C -> Prog B) (r : B -> Prog A) :
  first_write ev (mthen m (fun c => mthen (l c) r)) -> first_write ev (mthen (mthen m l) r).
Proof.
  intros [(e & H)|(j & a & H)]; [left; exists e|right; exists j, a]; intros k; rewrite <- H; unfold mthen; by destruct (m (d0, k)) as [[c|e'|] s'].
Qed.

Lemma first_write_fail {A B : Type} (ev : Env) (message : string) (m : B -> Prog A) : first_write ev (mthen (fail message) m).
Proof. left. exists (Failure message). done. Qed.

Lemma start_run_shape (ev : Env) (args : RecoverArgs) : first_write ev (start_run ev args d0).
Proof.
  apply first_write_lift. intros [[[[b i] log] initial] cp] _. apply first_write_report. intros _ _. apply first_write_get.
  apply first_write_lift. intros journal (_ & _ & Hj & _)%recheck_facts. rewrite (read_journal_start d0 no_journal) in Hj. injection Hj as <-.
  unfold prepare, open_tip. do 2 apply first_write_assoc. apply first_write_report. intros _ _. apply first_write_assoc.
  apply (first_write_report ev (Ok tt)). intros _ _. apply first_write_assoc, first_write_report. intros _ _. apply first_write_assoc, first_write_get.
  apply (first_write_report ev (Ok (db_tip (dk_db d0)))). intros tip _. destruct (bool_decide _ && _); [apply first_write_fail|].
  destruct (l2_block cp <? _); [apply first_write_fail|]. apply first_write_assoc, first_write_report. intros truncated _.
  unfold create_journal. apply first_write_assoc, first_write_get. rewrite no_journal. right. do 2 eexists. intros k.
  unfold mthen. destruct k as [|k]; [reflexivity|]. cbn. destruct (ev_create ev); reflexivity.
Qed.

(** Nothing before the rebuild depends on the node run. *)
Lemma choose_checkpoint_node (ev : Env) (node : StoppedFiniteConfig -> Database -> NodeRun) local incident limit (candidates : L1ResumeLog) :
  choose_checkpoint (with_node ev node) local incident limit candidates = choose_checkpoint ev local incident limit candidates.
Proof.
  induction candidates as [|c rest IH]; [done|]. cbn [choose_checkpoint]. destruct (local (l2_block c)) as [[row|]|e]; cbn [map_err rbind]; [|done|done].
  change (ask_header (with_node ev node)) with (ask_header ev). destruct (ask_header ev AskChoose (l2_block c)) as [o|e]; cbn [rbind]; [|done].
  by rewrite IH.
Qed.

Lemma before_lock_node (ev : Env) (node : StoppedFiniteConfig -> Database -> NodeRun) (args : RecoverArgs) (pre : Disk) :
  before_lock (with_node ev node) args pre = before_lock ev args pre.
Proof.
  unfold before_lock. change (boot (with_node ev node)) with (boot ev). change (preflight (with_node ev node)) with (preflight ev).
  change (ask_header (with_node ev node)) with (ask_header ev). cbn [ev_static ev_finite with_node].
  destruct (map_err _ (read_incident pre)) as [i|e]; cbn [rbind]; [|done]. destruct (map_err _ (boot _ _ _ _)) as [b|e]; cbn [rbind]; [|done].
  destruct (map_err _ (read_journal pre)) as [j|e]; cbn [rbind]; [|done]. destruct (match j with Some _ => _ | None => false end); [done|].
  destruct (match j with Some _ => _ | None => false end); [done|]. destruct (preflight ev args pre) as [[[b' i'] log]|e]; cbn [rbind]; [|done].
  destruct (map_err _ (ev_static ev (dk_db pre))) as [f|e]; cbn [rbind]; [|done]. destruct (map_err _ (f _)) as [g|e]; cbn [rbind]; [|done].
  destruct (ok_or _ g) as [g'|e]; cbn [rbind]; [|done]. by rewrite choose_checkpoint_node.
Qed.

Lemma start_run_node (ev : Env) (node : StoppedFiniteConfig -> Database -> NodeRun) (args : RecoverArgs) (pre : Disk) (s : Disk * nat) :
  start_run (with_node ev node) args pre s = start_run ev args pre s.
Proof. unfold start_run. by rewrite before_lock_node. Qed.

Lemma inv_at_root (o : option RecoveryJournal) (j : RecoveryJournal) (d : Disk) : inv_at d0 canonical o j d -> inv_at d0 canonical (Some j) j d.
Proof. intros []. split; try done. intros j' [= <-]. split; [by destruct j|done]. Qed.

(** The disks of the runs that share everything but the node run: untouched, or one journal from the
    first write on. *)
Lemma disks_from_start (h : Holder) :
  h_base h = d0 -> h_pre h = d0 -> faithful canonical (h_ev h) ->
  (forall node k, disk_at h node k = d0) \/
  exists j, (forall node, disk_at h node O = d0) /\
    forall node k, faithful canonical (with_node (h_ev h) node) -> inv d0 canonical (Some j) (disk_at h node (S k)).
Proof.
  intros Hb Hp Hf. unfold disk_at. rewrite Hb, Hp. pose proof (wp_start (h_ev h) (h_args h) Hf 1%nat) as Hw.
  destruct (start_run_shape (h_ev h) (h_args h)) as [(e & H)|(j & a & H)].
  { left. intros node k. rewrite run_split. unfold mthen. by rewrite start_run_node, H. }
  rewrite H in Hw. destruct (ev_create (h_ev h)) as [|e|e] eqn:Ec; cbn in Hw.
  - destruct Hw as [Hi Ht]. right. exists (snd a). split; [intros node; rewrite run_split; unfold mthen at 1; by rewrite start_run_node, H|].
    intros node k Hn. rewrite run_split. unfold mthen at 1. rewrite start_run_node, H. cbn. destruct a as [[[b log] cp] j'].
    apply (wp_disk (rest_of_run (with_node (h_ev h) node) (h_args h) (b, log, cp, j'))), wp_rest; [done| |done]. by eapply inv_at_root.
  - left. intros node k. rewrite run_split. unfold mthen at 1. rewrite start_run_node, H. by destruct k.
  - destruct Hw as [[Hd _]|(j' & Hi)]; [exfalso; by rewrite <- Hd in no_journal|]. right. exists j'.
    split; [intros node; rewrite run_split; unfold mthen at 1; by rewrite start_run_node, H|].
    intros node k _. rewrite run_split. unfold mthen at 1. rewrite start_run_node, H. cbn. right. exists j'. by eapply inv_at_root.
Qed.

(** From a disk with a journal every run keeps it, up to its phase. *)
Lemma disks_from_journal (h : Holder) (j : RecoveryJournal) (node : StoppedFiniteConfig -> Database -> NodeRun) (k : nat) :
  inv d0 canonical None (h_base h) -> read_journal (h_base h) = Ok (Some j) -> faithful canonical (with_node (h_ev h) node) ->
  inv d0 canonical (Some j) (disk_at h node k).
Proof.
  intros Hi Hj Hn. destruct (inv_journal d0 canonical no_journal _ Hi) as (o & Ho & Hio). rewrite Hj in Ho. injection Ho as <-.
  unfold disk_at. apply (wp_disk (run_recover (with_node (h_ev h) node) (h_args h) (h_pre h))), wp_run; [done|done|done|].
  intros E. rewrite E, (read_journal_start d0 no_journal) in Hj. discriminate Hj.
Qed.

(** ** Every interleaving *)

Definition is_phase_of (j : RecoveryJournal) (x : Disk) : Prop := exists p, read_journal x = Ok (Some (with_phase j p)).

Definition seen (f : Fleet) : list Disk := fl_now f :: fl_past f.

(** What the holder may still do. *)
Definition holder_ok (f : Fleet) (h : Holder) : Prop :=
  faithful canonical (h_ev h) /\ inv d0 canonical None (h_base h) /\ (h_base h = d0 -> h_pre h = d0) /\
  ((h_base h = d0 /\ forall x, In x (seen f) -> x = d0) \/
   exists j, (forall x, In x (seen f) -> x = d0 \/ is_phase_of j x) /\ is_phase_of j (fl_now f) /\
     forall node k, (h_writes h <= k)%nat -> faithful canonical (with_node (h_ev h) node) -> is_phase_of j (disk_at h node k)).

Definition fleet_ok (f : Fleet) : Prop :=
  (forall x, In x (seen f) -> inv d0 canonical None x) /\
  ((forall x, In x (seen f) -> x = d0) \/
   exists j, (forall x, In x (seen f) -> x = d0 \/ is_phase_of j x) /\ is_phase_of j (fl_now f)) /\
  forall h, fl_holder f = Some h -> holder_ok f h.

Lemma inv_is_phase (j : RecoveryJournal) (x : Disk) : inv d0 canonical (Some j) x -> is_phase_of j x.
Proof.
  intros [[_ [=]]|(j' & Hi)]. exists (jn_phase j'). rewrite (has_journal_read _ _ (ia_journal _ _ _ _ _ Hi)).
  by destruct (ia_evolved _ _ _ _ _ Hi j eq_refl) as [<- _].
Qed.

Lemma fleet_start_ok : fleet_ok (fleet_start d0).
Proof.
  assert (H : forall x, In x (seen (fleet_start d0)) -> x = d0) by (by intros x [<-|[]]).
  split; [intros x ->%H; by left|]. split; [by left|done].
Qed.

(** Whoever takes the lock finds a disk from which its run is safe. *)
Lemma locks_ok (f : Fleet) (ev : Env) (args : RecoverArgs) (pre : Disk) :
  fleet_ok f -> faithful canonical ev -> glimpse (seen f) pre ->
  holder_ok f {| h_base := fl_now f; h_ev := ev; h_args := args; h_pre := pre; h_writes := O |}.
Proof.
  intros (Hinv & Hj & _) Hf Hg. assert (Hd : forall j, is_phase_of j (fl_now f) -> fl_now f <> d0).
  { intros j [p Hp] E. rewrite E, (read_journal_start d0 no_journal) in Hp. discriminate Hp. }
  split; [done|]. split; [by apply Hinv; left|]. cbn [h_base h_pre]. split.
  { intros E. destruct Hj as [Hall|(j & _ & Hp)]; [by eapply glimpse_start|by destruct (Hd j Hp)]. }
  destruct Hj as [Hall|(j & Hall & Hp)]; [left; split; [apply Hall; by left|done]|]. right. exists j. split; [done|]. split; [done|].
  destruct Hp as [p Hp]. intros node k _ Hn.
  destruct (inv_is_phase _ _ (disks_from_journal {| h_base := fl_now f; h_ev := ev; h_args := args; h_pre := pre; h_writes := O |} _ node k
    (Hinv _ (or_introl eq_refl)) Hp Hn)) as [q Hq]. exists q. rewrite Hq. by destruct j.
Qed.

Lemma disk_at_writes (h : Holder) (n : nat) (node : StoppedFiniteConfig -> Database -> NodeRun) (k : nat) :
  disk_at {| h_base := h_base h; h_ev := h_ev h; h_args := h_args h; h_pre := h_pre h; h_writes := n |} node k = disk_at h node k.
Proof. done. Qed.

(** Its writes keep the fleet safe. *)
Lemma writes_ok (f : Fleet) (h : Holder) (node : StoppedFiniteConfig -> Database -> NodeRun) (k : nat) :
  fleet_ok f -> fl_holder f = Some h -> (h_writes h <= k)%nat -> faithful canonical (with_node (h_ev h) node) ->
  fleet_ok {| fl_now := disk_at h node k; fl_past := fl_now f :: fl_past f;
              fl_holder := Some {| h_base := h_base h; h_ev := h_ev h; h_args := h_args h; h_pre := h_pre h; h_writes := k |} |}.
Proof.
  intros (Hinv & _ & Hh) Eh Hk Hn. destruct (Hh h Eh) as (Hf & Hb & Hpre & Hcase).
  assert (Hnow : inv d0 canonical None (disk_at h node k)).
  { unfold disk_at. by apply (wp_disk (run_recover (with_node (h_ev h) node) (h_args h) (h_pre h))), wp_run. }
  assert (Hcase' : (h_base h = d0 /\ forall x, In x (disk_at h node k :: seen f) -> x = d0) \/
    exists j, (forall x, In x (disk_at h node k :: seen f) -> x = d0 \/ is_phase_of j x) /\ is_phase_of j (disk_at h node k) /\
      forall node' k', (k <= k')%nat -> faithful canonical (with_node (h_ev h) node') -> is_phase_of j (disk_at h node' k')).
  { destruct Hcase as [[E Hall]|(j & Hall & _ & Hfut)].
    - destruct (disks_from_start h E (Hpre E) Hf) as [H0|(j & H0 & HS)]; [left; split; [done|]; intros x [<-|Hx]; auto|].
      destruct k as [|k]; [left; split; [done|]; intros x [<-|Hx]; auto|]. right. exists j. split; [|split].
      + intros x [<-|Hx]; [right; by apply inv_is_phase, HS|left; by apply Hall].
      + by apply inv_is_phase, HS.
      + intros node' [|k'] Hle Hn'; [lia|]. by apply inv_is_phase, HS.
    - right. exists j. split; [|split; [by apply Hfut|]]; [intros x [<-|Hx]; [right; by apply Hfut|by apply Hall]|].
      intros node' k' Hle. apply Hfut. lia. }
  split; [intros x [<-|Hx]; [done|by apply Hinv]|]. split.
  - destruct Hcase' as [[_ ?]|(j & ? & ? & _)]; [by left|right; by exists j].
  - intros h' [= <-]. split; [done|]. split; [done|]. split; [done|]. exact Hcase'.
Qed.

Lemma fleet_step_ok (f f' : Fleet) : fleet_ok f -> fleet_step f f' -> fleet_ok f'.
Proof.
  intros Hok Hs. pose proof Hok as (Hinv & Hj & Hh). destruct Hs as [ev args pre created Eh El Hf Hg|ev args pre created n h Eh El Hf Hg|h node k Eh Hk Hn|h Eh].
  - split; [done|]. split; [done|]. intros h [= <-]. by apply (locks_ok f).
  - rewrite (refused_unchanged _ _ _ _ _ n El). assert (Hsame : forall x, In x (fl_now f :: seen f) -> In x (seen f)) by (intros x [<-|Hx]; [by left|done]).
    split; [intros x Hx; by apply Hinv, Hsame|]. split.
    + destruct Hj as [Hall|(j & Hall & Hp)]; [left; intros x Hx; by apply Hall, Hsame|right; exists j; split; [intros x Hx; by apply Hall, Hsame|done]].
    + intros h' [= <-]. destruct (Hh h Eh) as (? & ? & ? & Hc). split; [done|]. split; [done|]. split; [done|].
      destruct Hc as [[? Hall]|(j & Hall & Hp & Hfut)]; [left; split; [done|]; intros x Hx; by apply Hall, Hsame|].
      right. exists j. split; [intros x Hx; by apply Hall, Hsame|done].
  - by apply writes_ok.
  - split; [done|]. by split.
Qed.

(** C11. However many recovery commands are started on one datadir, whenever each reads, whatever fails and
    whenever one is killed: every disk there ever is is safe, as in [recovery_safe]; there is only one
    journal, of which later disks differ in the phase; and it never disappears. *)
Theorem concurrent_recovery_safe (f : Fleet) :
  rtc fleet_step (fleet_start d0) f ->
  (forall x, In x (fl_now f :: fl_past f) ->
   dk_marker x = dk_marker d0 /\
   match read_journal x with
   | Err _ => False
   | Ok None => x = d0
   | Ok (Some j) =>
       journal_ok d0 canonical j /\ rows_kept d0 (jn_target j) (dk_db x) /\ stage_ok d0 canonical j x /\
       (jn_phase j = FrontierMatched ->
        db_tip (dk_db x) = l2_block_number (jn_incident j) /\
        exists row, db_headers (dk_db x) !! l2_block_number (jn_incident j) = Some row /\
          hr_hash row = canonical_hash (jn_incident j) /\ hr_state_root row = canonical_state_root (jn_incident j))
   end) /\
  (forall x j, In x (fl_past f) -> read_journal x = Ok (Some j) ->
   exists j', read_journal (fl_now f) = Ok (Some j') /\ j' = with_phase j (jn_phase j')).
Proof.
  intros H. assert (Hok : fleet_ok f).
  { pose proof fleet_start_ok as H0. induction H as [f|f g f' Hs _ IH]; [done|]. apply IH. by eapply fleet_step_ok. }
  destruct Hok as (Hinv & Hj & _). split; [intros x Hx; by apply inv_safe, Hinv|]. intros x j Hx Hr.
  destruct Hj as [Hall|(j0 & Hall & p & Hp)].
  - rewrite (Hall x (or_intror Hx)), (read_journal_start d0 no_journal) in Hr. discriminate Hr.
  - destruct (Hall x (or_intror Hx)) as [->|[q Hq]]; [by rewrite (read_journal_start d0 no_journal) in Hr|].
    rewrite Hq in Hr. injection Hr as <-. exists (with_phase j0 p). split; [done|]. by destruct j0.
Qed.
End Locked.

(** ** Two commands

    The first takes the lock, makes three writes and is killed. The second was refused while it ran;
    started again, with what it read before the first one began, it completes the recovery. *)

Module SampleFleet.
Import RecoverSafety.Sample.
#[local] Existing Instance recover_json.
#[local] Existing Instance short_hash.

Definition busy : Env := {|
  ev_snapshot := ev_snapshot env; ev_orbit := ev_orbit env; ev_client := ev_client env; ev_chain_id := ev_chain_id env; ev_ask := ev_ask env;
  ev_static := ev_static env; ev_lock := acquire (Ok tt) true; ev_open := ev_open env; ev_consistency := ev_consistency env;
  ev_provider := ev_provider env; ev_unwind := ev_unwind env; ev_create := ev_create env; ev_save := ev_save env;
  ev_resume_save := ev_resume_save env; ev_finite := ev_finite env; ev_database_path := ev_database_path env; ev_node := ev_node env
|}.

Definition first : Holder := {| h_base := start; h_ev := env; h_args := args; h_pre := start; h_writes := O |}.
Definition cut : Disk := disk_at first (ev_node env) 3.
Definition second : Holder := {| h_base := cut; h_ev := env; h_args := args; h_pre := start; h_writes := O |}.
Definition final : Disk := disk_at second (ev_node env) 6.

Lemma busy_faithful : faithful canonical busy.
Proof. destruct env_faithful. by split. Qed.

Lemma final_phase : exists j, read_journal final = Ok (Some j) /\ jn_phase j = FrontierMatched.
Proof. eexists. split; vm_compute; reflexivity. Qed.

Lemma cut_phase : exists j, read_journal cut = Ok (Some j) /\ jn_phase j = Unwound.
Proof. eexists. split; vm_compute; reflexivity. Qed.

Lemma glimpse_in (past : list Disk) : In start past -> glimpse past start.
Proof. intros H. split_and!; by exists start. Qed.

Lemma concurrent_recovery_safe_witness :
  exists f, rtc (fleet_step canonical) (fleet_start start) f /\ fl_now f = final /\ In cut (fl_past f) /\
    dk_marker final = dk_marker start /\
    exists j, read_journal final = Ok (Some j) /\ jn_phase j = FrontierMatched /\ rows_kept start (jn_target j) (dk_db final).
Proof.
  assert (Hf : rtc (fleet_step canonical) (fleet_start start)
    {| fl_now := final; fl_past := [cut; cut; start];
       fl_holder := Some {| h_base := cut; h_ev := env; h_args := args; h_pre := start; h_writes := 6 |} |}).
  { eapply rtc_l; [apply (Locks canonical _ env args start (Ok tt)); [reflexivity|reflexivity|apply env_faithful|apply glimpse_in; by left]|].
    eapply rtc_l; [apply (Writes canonical _ first (ev_node env) 3); [reflexivity|cbn; lia|apply env_faithful]|].
    eapply rtc_l; [eapply (Refused canonical _ busy args start (Ok tt) 5); [reflexivity|reflexivity|apply busy_faithful|apply glimpse_in; cbn; tauto]|].
    rewrite (refused_unchanged busy args start _ (Ok tt) 5 eq_refl).
    eapply rtc_l; [eapply Unlocks; reflexivity|].
    eapply rtc_l; [apply (Locks canonical _ env args start (Ok tt)); [reflexivity|reflexivity|apply env_faithful|apply glimpse_in; cbn; tauto]|].
    eapply rtc_l; [apply (Writes canonical _ second (ev_node env) 6); [reflexivity|cbn; lia|apply env_faithful]|]. apply rtc_refl. }
  eexists. split; [exact Hf|]. pose proof (concurrent_recovery_safe start canonical eq_refl _ Hf) as [Hall _].
  destruct (Hall final (or_introl eq_refl)) as [Hm Hj]. destruct final_phase as (j & Hr & Hp). rewrite Hr in Hj.
  split; [reflexivity|]. split; [left; reflexivity|]. split; [exact Hm|]. exists j. split; [exact Hr|]. split; [exact Hp|]. apply Hj.
Defined.
End SampleFleet.
