(* ===== verification/Rewind.v ===== *)
(** * The rewind command

    [crates/arb-reth-node/src/commands/rewind.rs]: unwinding the database to an earlier block and
    truncating the resume log to match, and the realignment of the changeset files that an old
    snapshot import seeded. The diagnostics that are only logged are left out; whether the revert
    range has changesets is an input. *)

From Stdlib Require Import Strings.Byte Strings.String Strings.Ascii.
From stdpp Require Import base list numbers option strings gmap pretty.
From S2P Require Import Prelude FileSystem Crash Resume TrustedL2 Recover.

(** ** The changeset files *)

Module Layout.

(** File names and contents of the static-file directory. *)
Abbreviation StaticDir := (gmap string bytes).

(** [u64::from_le_bytes] at an offset of the config, and [to_le_bytes]. *)
Definition rd (conf : bytes) (off : nat) : Z := be_decode (rev (slice off 8 conf)).
Definition to_le_bytes (z : Z) : bytes := rev (be_encode 8 z).

Definition has_dot (n : string) : bool := existsb (fun c => Ascii.eqb c ".") (list_ascii_of_string n).

Definition patch_conf (conf : bytes) (target : Z) : bytes :=
  take 8 conf ++ to_le_bytes target ++ slice 16 9 conf ++ to_le_bytes target ++ drop 33 conf.

(** The shape that is rewritten. *)
Definition misseeded (conf : bytes) (genesis : Z) : bool :=
  (41 <=? length conf)%nat && (rd conf 0 =? 1) && (b2z (nth 24 conf x00) =? 1)
  && negb (rd conf 8 =? rd conf 25) && (rd conf 25 =? genesis).

Section Migration.
(** [std::fs::read_dir], in the order it lists. *)
Variable read_dir : StaticDir -> list string.

Definition rename_file (src dst : string) (d : StaticDir) : StaticDir :=
  match d !! src with
  | Some bs => <[dst := bs]> (base.delete src d)
  | None => d
  end.

(** [if src.exists() && src != dst { rename }] for each extension. *)
Fixpoint rename_all (data_name new_base : string) (exts : list string) : M StaticDir string unit :=
  match exts with
  | [] => mret tt
  | ext :: exts =>
      let src := (data_name ++ ext)%string in
      let dst := (new_base ++ ext)%string in
      let! d := get in
      let! _ := (if bool_decide (is_Some (d !! src)) && negb (String.eqb src dst)
                 then write Succeeds (rename_file src dst) else mret tt) in
      rename_all data_name new_base exts
  end.

Definition read_file (n : string) : M StaticDir string bytes :=
  let! d := get in lift (ok_or "No such file or directory"%string (d !! n)).

Definition EXTENSIONS : list string := [EmptyString; ".conf"; ".off"; ".csoff"]%string.

Definition base_name (seg : string) (start stop : Z) : string :=
  ("static_file_" ++ seg ++ "_" ++ pretty (Z.to_N start) ++ "_" ++ pretty (Z.to_N stop))%string.

(** One segment; [continue] is returning. Opening the config for writing truncates it. *)
Definition migrate_segment (genesis : Z) (seg : string) : M StaticDir string unit :=
  let target := wrapping_add genesis 1 in
  let! d := get in
  match List.find (fun n => String.prefix ("static_file_" ++ seg ++ "_") n && negb (has_dot n)) (read_dir d) with
  | None => mret tt
  | Some data_name =>
      let! conf := read_file (data_name ++ ".conf") in
      if negb (misseeded conf genesis) then mret tt
      else
        let new_base := base_name seg target (rd conf 16) in
        let! _ := rename_all data_name new_base EXTENSIONS in
        let new_conf_path := (new_base ++ ".conf")%string in
        let! new_conf := read_file new_conf_path in
        let! _ := write Succeeds (insert new_conf_path []) in
        write Succeeds (insert new_conf_path (patch_conf new_conf target))
  end.

Definition SEGMENTS : list string := ["account-change-sets"; "storage-change-sets"]%string.

Fixpoint migrate_all (genesis : Z) (segs : list string) : M StaticDir string unit :=
  match segs with
  | [] => mret tt
  | seg :: segs => let! _ := migrate_segment genesis seg in migrate_all genesis segs
  end.

Definition migrate_changeset_layout (genesis : Z) : M StaticDir string unit := migrate_all genesis SEGMENTS.
End Migration.

(** ** The patched header *)

Lemma rd_encoded (pre post : bytes) (off : nat) (z : Z) :
  length pre = off -> is_u64 z -> rd (pre ++ to_le_bytes z ++ post) off = z.
Proof.
  intros <- Hz. unfold rd, to_le_bytes.
  rewrite slice_app_skip by lia. rewrite Nat.sub_diag.
  rewrite slice_app_head by (rewrite length_rev, be_encode_length; done).
  rewrite rev_involutive. apply be_decode_encode_small. done.
Qed.

(** Both fields are the new start, everything else is kept, and the header is not rewritten again. *)
Lemma patch_conf_aligned (conf : bytes) (genesis : Z) :
  (41 <= length conf)%nat -> 0 <= genesis < U64_MAX ->
  let conf' := patch_conf conf (wrapping_add genesis 1) in
  length conf' = length conf /\ rd conf' 8 = genesis + 1 /\ rd conf' 25 = genesis + 1 /\
  take 8 conf' = take 8 conf /\ slice 16 9 conf' = slice 16 9 conf /\ drop 33 conf' = drop 33 conf /\
  misseeded conf' genesis = false.
Proof.
  intros Hl Hg. cbv zeta. unfold U64_MAX in Hg.
  unfold wrapping_add. rewrite wrap64_small by (unfold is_u64; lia).
  assert (Hz : is_u64 (genesis + 1)) by (unfold is_u64; lia). set (t := genesis + 1) in *.
  assert (L1 : length (take 8 conf) = 8%nat) by (rewrite length_take; lia).
  assert (L2 : length (to_le_bytes t) = 8%nat) by (unfold to_le_bytes; by rewrite length_rev, be_encode_length).
  assert (L3 : length (slice 16 9 conf) = 9%nat) by (apply slice_length; lia).
  assert (R8 : rd (patch_conf conf t) 8 = t) by (by apply rd_encoded).
  assert (R25 : rd (patch_conf conf t) 25 = t).
  { unfold patch_conf. rewrite !app_assoc. rewrite <- app_assoc. apply rd_encoded; [|done].
    rewrite !length_app. lia. }
  split_and!; try done.
  - unfold patch_conf. rewrite !length_app, length_drop. lia.
  - unfold patch_conf. by rewrite take_app_le, take_take by lia.
  - unfold patch_conf. rewrite slice_app_skip, slice_app_skip, L1, L2 by lia. by apply slice_app_head.
  - unfold patch_conf. rewrite !app_assoc. rewrite drop_app_ge; rewrite !length_app, L1, L2, L3; [done|lia].
  - unfold misseeded. rewrite R8, R25, Z.eqb_refl. by rewrite andb_false_r.
Qed.

(** ** Interrupted migrations *)

(** Genesis 5 in a file of the slot that ends at 9. *)
Definition sample_conf : bytes :=
  to_le_bytes 1 ++ to_le_bytes 0 ++ to_le_bytes 9 ++ [x01] ++ to_le_bytes 5 ++ to_le_bytes 7.

Definition sample_dir : StaticDir := {[
  "static_file_account-change-sets_0_9" := [x61];
  "static_file_account-change-sets_0_9.conf" := sample_conf;
  "static_file_account-change-sets_0_9.off" := [x62];
  "static_file_account-change-sets_0_9.csoff" := [x63]
]}%string.

Definition listing (d : StaticDir) : list string := elements (dom d).

Definition migrate (d : StaticDir) (n : nat) : Result string unit * StaticDir :=
  let '(r, (d', _)) := migrate_changeset_layout listing 5 (d, n) in (r, d').

Definition after (n : nat) : StaticDir := snd (migrate sample_dir n).

(** An undisturbed run renames the four files and aligns the header, and a second one changes
    nothing. *)
Lemma migrate_sample :
  fst (migrate sample_dir 6) = Ret tt /\ migrate (after 6) 6 = (Ret tt, after 6) /\
  after 6 !! "static_file_account-change-sets_6_9"%string = Some [x61] /\
  after 6 !! "static_file_account-change-sets_6_9.conf"%string = Some (patch_conf sample_conf 6) /\
  size (after 6) = 4%nat.
Proof.
  split; [vm_compute; reflexivity|]. split.
  - rewrite (surjective_pairing (migrate (after 6) 6)). apply pair_equal_spec. split; [vm_compute; reflexivity|].
    apply (bool_decide_eq_true_1 (snd (migrate (after 6) 6) = after 6)). vm_compute. reflexivity.
  - split_and!; vm_compute; reflexivity.
Qed.

(** A run that is cut after the data file was renamed leaves the config under its old name: the next
    run finds the data file under the new one and fails to read its config, and so does every later
    one. *)
Theorem interrupted_rename_sticks (n : nat) :
  fst (migrate sample_dir 1) = Crashed /\
  migrate (after 1) n = (Raise "No such file or directory"%string, after 1).
Proof.
  split; [vm_compute; reflexivity|]. rewrite (surjective_pairing (migrate (after 1) n)).
  apply pair_equal_spec. split; [vm_compute; reflexivity|].
  apply (bool_decide_eq_true_1 (snd (migrate (after 1) n) = after 1)). vm_compute. reflexivity.
Qed.

(** A run that is cut between truncating the config and writing it leaves an empty config, which the
    next run takes for a layout it does not know and leaves as it is. *)
Theorem interrupted_patch_loses_header :
  fst (migrate sample_dir 5) = Crashed /\
  after 5 !! "static_file_account-change-sets_6_9.conf"%string = Some [] /\ migrate (after 5) 6 = (Ret tt, after 5).
Proof.
  split; [vm_compute; reflexivity|]. split; [vm_compute; reflexivity|].
  rewrite (surjective_pairing (migrate (after 5) 6)). apply pair_equal_spec. split; [vm_compute; reflexivity|].
  apply (bool_decide_eq_true_1 (snd (migrate (after 5) 6) = after 5)). vm_compute. reflexivity.
Qed.

End Layout.

(** ** The command *)

Record RewindArgs := {
  rw_to : option Z;
  rw_diverged_at : option Z;
  rw_snapshot_head : option string;
  rw_chain_info : option string;
  rw_genesis_json : option string;
  rw_dry_run : bool;
  rw_allow_genesis_rescan : bool
}.

Record RewindDisk := { rd_resume : option bytes; rd_db : Database; rd_static : Layout.StaticDir }.

(** What the command meets: the genesis block of the boot files, the database and what opening and
    checking it give, whether the revert range has account changesets, the unwind, and the write of
    the log. *)
Record RewindEnv := {
  re_head : string -> result string Z;
  re_orbit : string -> string -> result string Z;
  re_db_exists : bool;
  re_read_dir : Layout.StaticDir -> list string;
  re_open : result string unit;
  re_consistency : result string (option Z * option Z);
  re_provider : result string unit;
  re_changesets : result string bool;
  re_unwind : Database -> Z -> result string unit * Database;
  re_save : Fault string;
  re_remove : Fault string;
  re_final : result string unit
}.

Abbreviation Rw := (M RewindDisk string).

(** The new tip: [--to] names it, [--diverged-at N] keeps [N - 1]. *)
Definition new_tip_of (args : RewindArgs) : result string Z :=
  match rw_to args, rw_diverged_at args with
  | Some to, _ => Ok to
  | None, Some n => if n <? 1 then Err "--diverged-at must be >= 1 (block 0 is genesis)"%string else Ok (n - 1)
  | None, None => Err "clap requires --to or --diverged-at"%string
  end.

(** The genesis floor and whether the data directory was seeded from a snapshot. *)
Definition rewind_boot (ev : RewindEnv) (args : RewindArgs) : result string (Z * bool) :=
  match rw_snapshot_head args, rw_chain_info args, rw_genesis_json args with
  | Some head, _, _ => let? genesis := re_head ev head in Ok (genesis, true)
  | None, Some ci, Some g => let? genesis := re_orbit ev ci g in Ok (genesis, false)
  | None, _, _ => Err "provide either --snapshot-head or --chain-info together with --genesis"%string
  end.

Definition resume_checkpoint_for_rewind (log : option L1ResumeLog) (new_tip genesis_block : Z)
    (allow_genesis_rescan : bool) : result string (option L1ResumeCheckpoint) :=
  let checkpoint := l ← log; resume_for l new_tip in
  if bool_decide (checkpoint = None) && negb (new_tip =? genesis_block) && negb allow_genesis_rescan then
    Err "no L1 resume boundary exists at or below rewind target; refusing to unwind"%string
  else Ok checkpoint.

Definition set_static (s : Layout.StaticDir) (d : RewindDisk) : RewindDisk :=
  {| rd_resume := rd_resume d; rd_db := rd_db d; rd_static := s |}.
Definition set_log (r : option bytes) (d : RewindDisk) : RewindDisk :=
  {| rd_resume := r; rd_db := rd_db d; rd_static := rd_static d |}.
Definition set_database (db : Database) (d : RewindDisk) : RewindDisk :=
  {| rd_resume := rd_resume d; rd_db := db; rd_static := rd_static d |}.

Definition on_static (m : M Layout.StaticDir string unit) : Rw unit := fun '(d, n) =>
  let '(r, (s, n)) := m (rd_static d, n) in (r, (set_static s d, n)).

Definition unwind_to (ev : RewindEnv) (t : Z) : Rw (result string unit) := fun '(d, n) =>
  match n with
  | O => (Crashed, (d, O))
  | S n => let '(r, db) := re_unwind ev (rd_db d) t in (Ret r, (set_database db d, n))
  end.

(** [let _ = remove_file(..)]: an error is ignored. *)
Definition remove_log (ev : RewindEnv) : Rw unit := fun s =>
  match write (re_remove ev) (set_log None) s with
  | (Raise _, s) => (Ret tt, s)
  | r => r
  end.

Section Run.
Context {RJ : ResumeJson}.

Definition truncate_log (ev : RewindEnv) (log : option L1ResumeLog) (new_tip : Z) : Rw unit :=
  match log with
  | None => mret tt
  | Some log =>
      let log := snd (truncate_to log new_tip) in
      if bool_decide (log = []) then remove_log ev
      else write (re_save ev) (set_log (Some (json_to_vec log ++ [x0a])))
  end.

(** From the unwind on. *)
Definition unwind_and_truncate (ev : RewindEnv) (log : option L1ResumeLog) (new_tip : Z) : Rw unit :=
  let! r := unwind_to ev new_tip in
  let! _ := lift r in
  let! _ := truncate_log ev log new_tip in
  let! _ := lift (re_final ev) in
  let! d := get in
  if negb (db_tip (rd_db d) =? new_tip) then raise "unwind did not land where expected"%string else mret tt.

(** From opening the database on. *)
Definition rewind_opened (ev : RewindEnv) (args : RewindArgs) (log : option L1ResumeLog) (new_tip : Z) : Rw unit :=
  let! _ := lift (re_open ev) in
  let! _ := lift (require_storage_v2_consistency (re_consistency ev)) in
  let! _ := lift (re_provider ev) in
  let! d := get in
  let current_tip := db_tip (rd_db d) in
  if current_tip <=? new_tip then raise "nothing to rewind"%string
  else
    let! found := lift (re_changesets ev) in
    if negb found then raise "no account changesets found; the v2 state revert would be a no-op"%string
    else if rw_dry_run args then mret tt
    else unwind_and_truncate ev log new_tip.

Definition run_rewind (ev : RewindEnv) (args : RewindArgs) : Rw unit :=
  let! new_tip := lift (new_tip_of args) in
  let! '(genesis, snapshot_seeded) := lift (rewind_boot ev args) in
  if negb (re_db_exists ev) then raise "no database"%string
  else if new_tip <? genesis then raise "new tip is below the imported genesis block"%string
  else
    let! d := get in
    let log := ResumeFile.load (rd_resume d) in
    let! _ := lift (resume_checkpoint_for_rewind log new_tip genesis (rw_allow_genesis_rescan args)) in
    let! _ := (if snapshot_seeded then on_static (Layout.migrate_changeset_layout (re_read_dir ev) genesis) else mret tt) in
    rewind_opened ev args log new_tip.

(** ** What a rewind may leave *)

(** The boundary a restart at tip [t] would resume from. *)
Definition resumes (d : RewindDisk) (t : Z) : option L1ResumeCheckpoint :=
  log ← ResumeFile.load (rd_resume d); resume_for log t.

(** The unwind commits, or fails and changes nothing, or fails after committing. *)
Definition unwinds (ev : RewindEnv) : Prop := forall db t,
  snd (re_unwind ev db t) = remove_above t db \/
  (snd (re_unwind ev db t) = db /\ is_ok (fst (re_unwind ev db t)) = false).

Section Safety.
Variables (ev : RewindEnv) (args : RewindArgs) (d0 : RewindDisk).
Hypothesis Hev : unwinds ev.

Definition untouched (d : RewindDisk) : Prop := rd_db d = rd_db d0 /\ rd_resume d = rd_resume d0.

Definition rewound (t g : Z) (d : RewindDisk) : Prop :=
  g <= t < db_tip (rd_db d0) /\ rd_db d = remove_above t (rd_db d0) /\ resumes d t = resumes d0 t /\
  (is_Some (resumes d0 t) \/ t = g \/ rw_allow_genesis_rescan args = true).

(** No boundary above the new tip is left in the log. *)
Definition log_truncated (t : Z) (d : RewindDisk) : Prop :=
  forall log cp, ResumeFile.load (rd_resume d) = Some log -> In cp log -> l2_block cp <= t.

Definition safe (d : RewindDisk) : Prop :=
  untouched d \/ exists t g seeded, new_tip_of args = Ok t /\ rewind_boot ev args = Ok (g, seeded) /\ rewound t g d.

Lemma load_saved (log : L1ResumeLog) : ResumeFile.load (Some (json_to_vec log ++ [x0a])) = Some log.
Proof. cbn. by rewrite json_roundtrip. Qed.

Lemma wp_truncate_log (t g : Z) (d : RewindDisk) :
  rewound t g d -> rd_resume d = rd_resume d0 ->
  wp (truncate_log ev (ResumeFile.load (rd_resume d0)) t) (fun _ d' => rewound t g d' /\ (re_remove ev = Succeeds -> log_truncated t d'))
    (rewound t g) d.
Proof.
  intros Hw Hr. unfold truncate_log. destruct (ResumeFile.load (rd_resume d0)) as [log|] eqn:Hl.
  2: { apply wp_ret. split; [done|]. intros _ l cp. by rewrite Hr, Hl. }
  assert (Hres : resumes d0 t = resume_for log t) by (unfold resumes; by rewrite Hl).
  cbn [snd truncate_to]. case_bool_decide as He.
  - assert (Hn : rewound t g (set_log None d)).
    { destruct Hw as ([H1 H1'] & H2 & _ & H3). split_and!; try done. rewrite Hres, <- last_filter, He. done. }
    intros [|n]; unfold remove_log, write; [done|].
    destruct (re_remove ev); (split; [done|]); intros Hs; try discriminate Hs. by intros l cp.
  - assert (Hn : rewound t g (set_log (Some (json_to_vec (List.filter (fun cp => l2_block cp <=? t) log) ++ [x0a])) d)).
    { destruct Hw as ([H1 H1'] & H2 & _ & H3). split_and!; try done. rewrite Hres. unfold resumes. cbn [rd_resume set_log].
      rewrite load_saved. cbn [mbind option_bind]. by rewrite <- !last_filter, filter_idem. }
    apply wp_write; [done|done|]. split; [done|]. intros _ l cp. cbn [rd_resume set_log]. rewrite load_saved.
    intros [= <-] [_ Hc]%filter_In. lia.
Qed.

Lemma wp_unwind_and_truncate (t g : Z) (seeded : bool) (d : RewindDisk) :
  new_tip_of args = Ok t -> rewind_boot ev args = Ok (g, seeded) -> g <= t < db_tip (rd_db d0) ->
  is_Some (resumes d0 t) \/ t = g \/ rw_allow_genesis_rescan args = true -> untouched d ->
  wp (unwind_and_truncate ev (ResumeFile.load (rd_resume d0)) t)
    (fun _ d' => rewound t g d' /\ (re_remove ev = Succeeds -> log_truncated t d')) safe d.
Proof.
  intros Ht Hb Hg Hs [Hdb Hr].
  assert (Hsafe : forall d', rewound t g d' -> safe d') by (intros d' H; right; by exists t, g, seeded).
  apply wp_bind. intros [|n]; unfold unwind_to; [by left|]. pose proof (Hev (rd_db d) t) as Hu.
  destruct (re_unwind ev (rd_db d) t) as [r db]. cbn [fst snd] in Hu.
  assert (Hcase : rewound t g (set_database db d) \/ (untouched (set_database db d) /\ is_ok r = false)).
  { destruct Hu as [->|[-> Hf]]; [left|right; split; [by split|done]]. rewrite Hdb.
    split_and!; try done; try lia. unfold resumes. cbn [rd_resume set_database]. by rewrite Hr. }
  apply wp_bind, wp_lift; [by destruct Hcase as [|[]]; [apply Hsafe|left]|]. intros u ->.
  destruct Hcase as [Hw|[_ Hf]]; [|discriminate Hf].
  apply wp_bind. eapply wp_mono; [by apply wp_truncate_log| |by apply Hsafe].
  intros [] d' [Hw' Hl]. apply wp_bind, wp_lift; [by apply Hsafe|]. intros [] _. apply wp_bind, wp_get.
  destruct (negb _); [apply wp_raise; by apply Hsafe|by apply wp_ret].
Qed.

Lemma untouched_static (s : Layout.StaticDir) (d : RewindDisk) : untouched d -> untouched (set_static s d).
Proof. done. Qed.

Lemma wp_on_static (m : M Layout.StaticDir string unit) (Q : unit -> RewindDisk -> Prop) (C : RewindDisk -> Prop)
    (d : RewindDisk) :
  (forall s, C (set_static s d)) -> (forall s, Q tt (set_static s d)) -> wp (on_static m) Q C d.
Proof.
  intros HC HQ n. unfold on_static. destruct (m (rd_static d, n)) as [[[]|e|] [s n']]; auto.
Qed.

(** What success means. *)
Definition succeeded (d : RewindDisk) : Prop :=
  (rw_dry_run args = true /\ untouched d) \/
  exists t g seeded, new_tip_of args = Ok t /\ rewind_boot ev args = Ok (g, seeded) /\ rewound t g d /\
    (re_remove ev = Succeeds -> log_truncated t d).

Lemma wp_rewind_opened (t g : Z) (seeded : bool) (d : RewindDisk) :
  new_tip_of args = Ok t -> rewind_boot ev args = Ok (g, seeded) -> g <= t ->
  is_Some (resumes d0 t) \/ t = g \/ rw_allow_genesis_rescan args = true -> untouched d ->
  wp (rewind_opened ev args (ResumeFile.load (rd_resume d0)) t) (fun _ => succeeded) safe d.
Proof.
  intros Ht Hb Hg Hs Hd. assert (Hu : safe d) by (by left). unfold rewind_opened.
  do 3 (apply wp_bind, wp_lift; [done|]; intros [] _). apply wp_bind, wp_get. cbv zeta.
  destruct (Z.leb_spec (db_tip (rd_db d)) t) as [|Hlt]; [by apply wp_raise|].
  apply wp_bind, wp_lift; [done|]. intros found _. destruct (negb found); [by apply wp_raise|].
  destruct (rw_dry_run args) eqn:Hdry; [apply wp_ret; by left|].
  eapply wp_mono; [apply (wp_unwind_and_truncate t g seeded d); try done| |done].
  - rewrite <- (proj1 Hd). lia.
  - intros [] d' H. right. exists t, g, seeded. naive_solver.
Qed.

Lemma wp_run_rewind : wp (run_rewind ev args) (fun _ => succeeded) safe d0.
Proof.
  assert (H0 : untouched d0) by done. assert (Hu : forall d, untouched d -> safe d) by (intros d H; by left).
  unfold run_rewind. apply wp_bind, wp_lift; [auto|]. intros t Ht. apply wp_bind, wp_lift; [auto|]. intros [g seeded] Hb.
  destruct (negb (re_db_exists ev)); [apply wp_raise; auto|].
  destruct (Z.ltb_spec t g) as [|Hg]; [apply wp_raise; auto|]. apply wp_bind, wp_get.
  apply wp_bind, wp_lift; [auto|]. intros cp Hcp.
  assert (Hs : is_Some (resumes d0 t) \/ t = g \/ rw_allow_genesis_rescan args = true).
  { unfold resume_checkpoint_for_rewind in Hcp. fold (resumes d0 t) in Hcp. destruct (resumes d0 t) as [c|]; [by left; exists c|].
    rewrite bool_decide_eq_true_2 in Hcp by done. destruct (Z.eqb_spec t g); [auto|].
    destruct (rw_allow_genesis_rescan args); [auto|discriminate Hcp]. }
  apply wp_bind. destruct seeded; [|apply wp_ret; by eapply wp_rewind_opened].
  apply wp_on_static; intros s; [apply Hu|eapply wp_rewind_opened; try done]; by apply untouched_static.
Qed.
End Safety.

(** C33. A rewind is all or nothing for a restart, wherever an error or a power loss ends it: the
    database and the resume log are as before, or the database is unwound to exactly the requested
    tip, which is below the old one and not below genesis, and the log still yields the very
    boundary that the preflight found for that tip; there is one, or the tip is genesis, or the
    operator accepted a rescan. A run that returns success has unwound the database, and left no
    boundary above the new tip in the log, or was a dry run and changed neither. *)
Theorem rewind_safe (ev : RewindEnv) (args : RewindArgs) (d0 d : RewindDisk) (n n' : nat) (out : Result string unit) :
  unwinds ev -> run_rewind ev args (d0, n) = (out, (d, n')) ->
  safe ev args d0 d /\
  (out = Ret tt -> succeeded ev args d0 d).
Proof.
  intros Hev Hrun. pose proof (wp_run_rewind ev args d0 Hev n) as Hw. rewrite Hrun in Hw.
  destruct out as [[]|e|]; [|by split|by split]. split; [|done].
  destruct Hw as [[_ H]|(t & g & seeded & H1 & H2 & H3 & _)]; [by left|right; by exists t, g, seeded].
Qed.
End Run.

(** ** A rewind of ten blocks, and one cut after the unwind *)

Definition sample_args : RewindArgs := {|
  rw_to := None; rw_diverged_at := Some 16; rw_snapshot_head := None; rw_chain_info := Some "info"%string;
  rw_genesis_json := Some "genesis"%string; rw_dry_run := false; rw_allow_genesis_rescan := false
|}.

Definition sample_env : RewindEnv := {|
  re_head _ := Err "unused"%string; re_orbit _ _ := Ok 0; re_db_exists := true; re_read_dir _ := [];
  re_open := Ok tt; re_consistency := Ok (None, None); re_provider := Ok tt; re_changesets := Ok true;
  re_unwind db t := (Ok tt, remove_above t db); re_save := Succeeds; re_remove := Succeeds; re_final := Ok tt
|}.

Definition sample_boundary (n : Z) : L1ResumeCheckpoint := {| l1_block := n; delayed_count := 0; l2_block := n |}.

Definition sample_disk : RewindDisk := {|
  rd_resume := Some (json_to_vec [sample_boundary 10; sample_boundary 20] ++ [x0a]);
  rd_db := {| db_tip := 25; db_headers := ∅ |}; rd_static := ∅
|}.

Lemma rewind_safe_witness :
  (exists d, run_rewind sample_env sample_args (sample_disk, 2%nat) = (Ret tt, (d, O)) /\
     db_tip (rd_db d) = 15 /\ resumes d 15 = Some (sample_boundary 10) /\ succeeded sample_env sample_args sample_disk d) /\
  (exists d, run_rewind sample_env sample_args (sample_disk, 1%nat) = (Crashed, (d, O)) /\
     db_tip (rd_db d) = 15 /\ resumes d 15 = Some (sample_boundary 10) /\ safe sample_env sample_args sample_disk d).
Proof.
  assert (Hev : unwinds sample_env) by (intros db t; left; reflexivity). split.
  - destruct (run_rewind sample_env sample_args (sample_disk, 2%nat)) as [out [d n]] eqn:E.
    destruct (rewind_safe _ _ _ _ _ _ _ Hev E) as [_ H]. vm_compute in E. injection E as <- <- <-.
    eexists. split; [reflexivity|]. split; [reflexivity|]. split; [vm_compute; reflexivity|]. apply H. reflexivity.
  - destruct (run_rewind sample_env sample_args (sample_disk, 1%nat)) as [out [d n]] eqn:E.
    destruct (rewind_safe _ _ _ _ _ _ _ Hev E) as [H _]. vm_compute in E. injection E as <- <- <-.
    eexists. split; [reflexivity|]. split; [reflexivity|]. split; [vm_compute; reflexivity|]. exact H.
Defined.
