(* ===== verification/SnapshotStream.v ===== *)
(** * The full-snapshot stream

    [crates/arb-reth-genesis/src/snapshot_stream.rs]: the reader of the exporter's stream
    (manifest, blocks, state history, state), its structural checks, the RLP walkers it uses and
    the [StreamBuilder] that writes the same framing. The reader's [inner] is the list of bytes
    not read yet. A call that fails ends the use of the stream (every caller propagates the
    error), so an error carries no state; [Panic] is the error value of the calls that panic
    ([B256::from_slice] on a slice that is not 32 bytes, a [Vec] longer than [isize::MAX]).
    The trie root of [alloy_trie] is the class [OrderedTrie]. *)

From Stdlib Require Import Strings.Byte Strings.String Sorted.
From stdpp Require Import base list numbers option.
From S2P Require Import Prelude External.

Definition MAGIC : bytes := [x41; x52; x42; x53; x4e; x41; x50; x32].

Definition SECTION_MANIFEST : u8 := xf1.
Definition SECTION_BLOCKS : u8 := xf2.
Definition SECTION_HISTORY : u8 := xf3.
Definition SECTION_STATE : u8 := xf4.
Definition SECTION_END : u8 := xff.

Definition REC_END : u8 := x00.
Definition REC_HEADER : u8 := x01.
Definition REC_BODY : u8 := x02.
Definition REC_RECEIPTS : u8 := x03.
Definition REC_ACCOUNT : u8 := x04.
Definition REC_STORAGE : u8 := x05.
Definition REC_CODE : u8 := x06.

Definition HISTORY_VERSION_RAW_SLOTS : u8 := x01.

Record ResumePoint := { rp_l1_block : Z; rp_delayed_count : Z; rp_l2_block : Z }.

Record Manifest := {
  m_block : Z;
  m_root : Z;
  m_state_id : Z;
  m_hash : Z;
  m_resume : option ResumePoint
}.

Record HistoryAccount := {
  ha_address : Z;
  ha_previous : option (Z * Z * option Z);
  ha_storage : list (Z * Z)
}.

Record HistoryObject := {
  ho_state_id : Z;
  ho_block : Z;
  ho_parent_root : Z;
  ho_post_root : Z;
  ho_accounts : list HistoryAccount
}.

Inductive SnapshotRecord :=
| Header (block hash : Z) (rlp : bytes)
| Body (block : Z) (rlp : bytes)
| Receipts (block : Z) (rlp : bytes)
| History (object : HistoryObject)
| Account (hashed_address nonce balance : Z) (code_hash : option Z)
| Storage (hashed_slot value : Z)
| Code (hash : Z) (code : bytes).

Record SnapshotStream := {
  inner : bytes;
  manifest : Manifest;
  section : u8;
  last_block : option (Z * Z);
  last_history : option (Z * Z);
  held : option SnapshotRecord;
  finished : bool
}.

Inductive SnapshotError :=
| UnexpectedEof
| BadMagic (magic : bytes)
| ExpectedManifest (tag : u8)
| ExpectedBlocks (tag : u8)
| InvalidTag (tag section : u8)
| CodeHash (hash : Z)
| HeaderHash (block hash : Z)
| BlockAbove (block top : Z)
| BlocksJump (last block : Z)
| NotBuilding (block last parent : Z)
| HistoryVersion (state_id : Z) (version : u8)
| HistoryAbove (state_id block top : Z)
| HistoryNotAdvancing (state_id block last : Z)
| HistoryBreak (state_id block parent_root last_post : Z)
| NoHistory
| HistoryEndsAtBlock (block top : Z)
| HistoryEndsAtRoot (post_root root : Z)
| VarintOverflow
| IntegerTooWide (n : nat)
| RlpEmpty
| RlpShort
| RlpKind
| RlpClaims (len : Z) (available : nat)
| TrailingBytes (what : string)
| Context (what : string) (e : SnapshotError)
| Panic.

(** ** Primitive reads *)

Definition read_exact (n : Z) (r : bytes) : result SnapshotError (bytes * bytes) :=
  if Z.of_nat (length r) <? n then Err UnexpectedEof
  else Ok (take (Z.to_nat n) r, drop (Z.to_nat n) r).

Definition read_u8 (r : bytes) : result SnapshotError (u8 * bytes) :=
  match r with
  | [] => Err UnexpectedEof
  | b :: r => Ok (b, r)
  end.

Definition read_b256 (r : bytes) : result SnapshotError (Z * bytes) :=
  let? '(b, r) := read_exact 32 r in
  Ok (be_decode b, r).

(** [u64::checked_shl] checks the shift amount only: the bits shifted out are lost. *)
Definition checked_shl (x shift : Z) : option Z :=
  if shift <? 64 then Some (wrap64 (Z.shiftl x shift)) else None.

Fixpoint read_uvarint_loop (value shift : Z) (r : bytes) : result SnapshotError (Z * bytes) :=
  match r with
  | [] => Err UnexpectedEof
  | byte :: r =>
      match checked_shl (Z.land (b2z byte) 127) shift with
      | None => Err VarintOverflow
      | Some bits =>
          let value := Z.lor value bits in
          if Z.land (b2z byte) 128 =? 0 then Ok (value, r)
          else
            let shift := shift + 7 in
            if 64 <=? shift then Err VarintOverflow else read_uvarint_loop value shift r
      end
  end.

Definition read_uvarint (r : bytes) : result SnapshotError (Z * bytes) := read_uvarint_loop 0 0 r.

Definition read_short_bytes (r : bytes) : result SnapshotError (bytes * bytes) :=
  let? '(len, r) := read_u8 r in
  read_exact (b2z len) r.

Definition read_short_u256 (r : bytes) : result SnapshotError (Z * bytes) :=
  let? '(bs, r) := read_short_bytes r in
  if (32 <? length bs)%nat then Err (IntegerTooWide (length bs)) else Ok (be_decode bs, r).

(** [isize::MAX]: [vec![0u8; len]] panics above it. *)
Definition ISIZE_MAX : Z := 2 ^ 63 - 1.

Definition read_blob (r : bytes) : result SnapshotError (bytes * bytes) :=
  let? '(len, r) := read_uvarint r in
  if ISIZE_MAX <? len then Err Panic else read_exact len r.

(** [(!code_hash.is_empty()).then(|| B256::from_slice(&code_hash))] *)
Definition code_hash_of (code_hash : bytes) : result SnapshotError (option Z) :=
  match code_hash with
  | [] => Ok None
  | _ => if (length code_hash =? 32)%nat then Ok (Some (be_decode code_hash)) else Err Panic
  end.

(** ** RLP walkers *)

Definition be_usize (bs : bytes) : Z :=
  fold_left (fun n b => Z.lor (wrap64 (Z.shiftl n 8)) (b2z b)) bs 0.

(** [blob.get(i..j)] at [usize] bounds. *)
Definition get_usize (i j : Z) (blob : bytes) : option bytes :=
  if (i <=? j) && (j <=? Z.of_nat (length blob))
  then Some (take (Z.to_nat (j - i)) (drop (Z.to_nat i) blob)) else None.

(** The item's header length and its payload length. *)
Definition rlp_extent (prefix : u8) (blob : bytes) : result SnapshotError (Z * Z) :=
  let p := b2z prefix in
  if p <=? 0x7f then Ok (0, 1)
  else if p <=? 0xb7 then Ok (1, p - 0x80)
  else if p <=? 0xbf then
    let n := p - 0xb7 in
    let? len := ok_or RlpShort (get_usize 1 (1 + n) blob) in
    Ok (1 + n, be_usize len)
  else if p <=? 0xf7 then Ok (1, p - 0xc0)
  else
    let n := p - 0xf7 in
    let? len := ok_or RlpShort (get_usize 1 (1 + n) blob) in
    Ok (1 + n, be_usize len).

Definition rlp_split (blob : bytes) (want_list : bool) : result SnapshotError (bytes * bytes) :=
  match blob with
  | [] => Err RlpEmpty
  | prefix :: _ =>
      let? '(header, len) := rlp_extent prefix blob in
      if negb (Bool.eqb (0xc0 <=? b2z prefix) want_list) then Err RlpKind
      else
        let e := wrap64 (header + len) in
        let? payload := ok_or (RlpClaims len (length blob)) (get_usize header e blob) in
        Ok (payload, drop (Z.to_nat e) blob)
  end.

Fixpoint skip_fields (index : nat) (cursor : bytes) : result SnapshotError bytes :=
  match index with
  | O => Ok cursor
  | S index => let? '(_, next) := rlp_split cursor false in skip_fields index next
  end.

Definition header_field (rlp : bytes) (index : nat) : result SnapshotError bytes :=
  let? '(cursor, rest) := rlp_split rlp true in
  match rest with
  | _ :: _ => Err (TrailingBytes "header")
  | [] =>
      let? cursor := skip_fields index cursor in
      let? '(payload, _) := rlp_split cursor false in
      Ok payload
  end.

(** [alloy_trie::root::ordered_trie_root_with_encoder] over encoded items. *)
Class OrderedTrie := { ordered_trie_root : list bytes -> Z }.

(** The [while] loop over the transactions; [None] only when the fuel runs out. *)
Fixpoint transaction_leaves (fuel : nat) (cursor : bytes) (encoded : list bytes)
    : option (result SnapshotError (list bytes)) :=
  match fuel with
  | O => None
  | S fuel =>
      match cursor with
      | [] => Some (Ok encoded)
      | b :: _ =>
          let is_list := 0xc0 <=? b2z b in
          match rlp_split cursor is_list with
          | Err e => Some (Err e)
          | Ok (payload, next) =>
              let leaf := if is_list then take (length cursor - length next) cursor else payload in
              transaction_leaves fuel next (encoded ++ [leaf])
          end
      end
  end.

(** Every item is at least one byte, so the loop runs at most [length txs] times. *)
Definition transactions_root {TR : OrderedTrie} (body_rlp : bytes)
    : option (result SnapshotError Z) :=
  match rlp_split body_rlp true with
  | Err e => Some (Err e)
  | Ok (_, _ :: _) => Some (Err (TrailingBytes "body"))
  | Ok (body, []) =>
      match rlp_split body true with
      | Err e => Some (Err (Context "body has no transactions list" e))
      | Ok (txs, _) =>
          match transaction_leaves (S (length txs)) txs [] with
          | None => None
          | Some (Err e) => Some (Err e)
          | Some (Ok encoded) => Some (Ok (ordered_trie_root encoded))
          end
      end
  end.

(** ** The reader *)

Definition open (inner : bytes) : result SnapshotError SnapshotStream :=
  let? '(magic, inner) := map_err (Context "read stream magic") (read_exact 8 inner) in
  if negb (bool_decide (magic = MAGIC)) then Err (BadMagic magic)
  else
    let? '(tag, inner) := read_u8 inner in
    if negb (byte_eqb tag SECTION_MANIFEST) then Err (ExpectedManifest tag)
    else
      let? '(block, inner) := read_uvarint inner in
      let? '(root, inner) := read_b256 inner in
      let? '(state_id, inner) := read_uvarint inner in
      let? '(hash, inner) := read_b256 inner in
      let? '(present, inner) := read_u8 inner in
      let? '(resume, inner) :=
        (if byte_eqb present x01 then
           let? '(l1_block, inner) := read_uvarint inner in
           let? '(delayed_count, inner) := read_uvarint inner in
           let? '(l2_block, inner) := read_uvarint inner in
           Ok (Some {| rp_l1_block := l1_block; rp_delayed_count := delayed_count;
                       rp_l2_block := l2_block |}, inner)
         else Ok (None, inner)) in
      Ok {| inner := inner;
            manifest := {| m_block := block; m_root := root; m_state_id := state_id;
                           m_hash := hash; m_resume := resume |};
            section := SECTION_MANIFEST; last_block := None; last_history := None;
            held := None; finished := false |}.

Definition unread (s : SnapshotStream) (record : SnapshotRecord) : SnapshotStream :=
  {| inner := inner s; manifest := manifest s; section := section s; last_block := last_block s;
     last_history := last_history s; held := Some record; finished := finished s |}.

(** The stream with its reader at [r], in section [sec]. *)
Definition at_input (s : SnapshotStream) (sec : u8) (r : bytes) : SnapshotStream :=
  {| inner := r; manifest := manifest s; section := sec; last_block := last_block s;
     last_history := last_history s; held := held s; finished := finished s |}.

Definition set_last_block (s : SnapshotStream) (last : option (Z * Z)) : SnapshotStream :=
  {| inner := inner s; manifest := manifest s; section := section s; last_block := last;
     last_history := last_history s; held := held s; finished := finished s |}.

Definition set_last_history (s : SnapshotStream) (last : option (Z * Z)) : SnapshotStream :=
  {| inner := inner s; manifest := manifest s; section := section s; last_block := last_block s;
     last_history := last; held := held s; finished := finished s |}.

Definition set_held (s : SnapshotStream) (h : option SnapshotRecord) : SnapshotStream :=
  {| inner := inner s; manifest := manifest s; section := section s; last_block := last_block s;
     last_history := last_history s; held := h; finished := finished s |}.

Definition set_finished (s : SnapshotStream) : SnapshotStream :=
  {| inner := inner s; manifest := manifest s; section := section s; last_block := last_block s;
     last_history := last_history s; held := held s; finished := true |}.

Definition check_header {K : Keccak} (s : SnapshotStream) (block hash : Z) (rlp : bytes)
    : result SnapshotError SnapshotStream :=
  if negb (keccak256 rlp =? hash) then Err (HeaderHash block hash)
  else if m_block (manifest s) <? block then Err (BlockAbove block (m_block (manifest s)))
  else
    let? parent := map_err (Context "parent hash") (header_field rlp 0) in
    let? _ :=
      match last_block s with
      | None => Ok tt
      | Some (last_number, last_hash) =>
          if negb (block =? wrapping_add last_number 1) then Err (BlocksJump last_number block)
          else if negb (bool_decide (parent = be_encode 32 last_hash)) then
            if (length parent =? 32)%nat then Err (NotBuilding block last_number (be_decode parent))
            else Err Panic
          else Ok tt
      end in
    Ok (set_last_block s (Some (block, hash))).

(** [for _ in 0..slots] *)
Fixpoint read_slots (slots : nat) (r : bytes) : result SnapshotError (list (Z * Z) * bytes) :=
  match slots with
  | O => Ok ([], r)
  | S slots =>
      let? '(key, r) := read_b256 r in
      let? '(value, r) := read_short_u256 r in
      let? '(rest, r) := read_slots slots r in
      Ok ((key, value) :: rest, r)
  end.

Definition read_history_account (r : bytes) : result SnapshotError (HistoryAccount * bytes) :=
  let? '(address, r) := read_exact 20 r in
  let? '(present, r) := read_u8 r in
  let? '(previous, r) :=
    (if byte_eqb present x00 then Ok (None, r)
     else
       let? '(nonce, r) := read_uvarint r in
       let? '(balance, r) := read_short_u256 r in
       let? '(code_hash, r) := read_short_bytes r in
       let? code_hash := code_hash_of code_hash in
       Ok (Some (nonce, balance, code_hash), r)) in
  let? '(slots, r) := read_uvarint r in
  let? '(storage, r) := read_slots (Z.to_nat slots) r in
  Ok ({| ha_address := be_decode address; ha_previous := previous; ha_storage := storage |}, r).

(** [for _ in 0..count] *)
Fixpoint read_history_accounts (count : nat) (r : bytes)
    : result SnapshotError (list HistoryAccount * bytes) :=
  match count with
  | O => Ok ([], r)
  | S count =>
      let? '(account, r) := read_history_account r in
      let? '(rest, r) := read_history_accounts count r in
      Ok (account :: rest, r)
  end.

Definition check_history (s : SnapshotStream) (state_id block : Z) (version : u8)
    (parent_root : Z) : result SnapshotError unit :=
  let top := m_block (manifest s) in
  if negb (byte_eqb version HISTORY_VERSION_RAW_SLOTS) then Err (HistoryVersion state_id version)
  else if top <? block then Err (HistoryAbove state_id block top)
  else
    match last_history s with
    | None => Ok tt
    | Some (last, last_post) =>
        if block <=? last then Err (HistoryNotAdvancing state_id block last)
        else if negb (parent_root =? last_post)
        then Err (HistoryBreak state_id block parent_root last_post)
        else Ok tt
    end.

Definition read_history (s : SnapshotStream)
    : result SnapshotError (HistoryObject * SnapshotStream) :=
  let r := inner s in
  let? '(state_id, r) := read_uvarint r in
  let? '(block, r) := read_uvarint r in
  let? '(version, r) := read_u8 r in
  let? '(parent_root, r) := read_b256 r in
  let? '(post_root, r) := read_b256 r in
  let? _ := check_history s state_id block version parent_root in
  let s := set_last_history s (Some (block, post_root)) in
  let? '(count, r) := read_uvarint r in
  let? '(accounts, r) := read_history_accounts (Z.to_nat count) r in
  Ok ({| ho_state_id := state_id; ho_block := block; ho_parent_root := parent_root;
         ho_post_root := post_root; ho_accounts := accounts |}, at_input s (section s) r).

(** The arms of [next_record] that return a record; [s] is positioned behind [tag]. *)
Definition read_record {K : Keccak} (s : SnapshotStream) (tag : u8)
    : result SnapshotError (SnapshotRecord * SnapshotStream) :=
  let r := inner s in
  let tagged sec rec := byte_eqb (section s) sec && byte_eqb tag rec in
  let done record r := Ok (record, at_input s (section s) r) in
  if tagged SECTION_BLOCKS REC_HEADER then
    let? '(block, r) := read_uvarint r in
    let? '(hash, r) := read_b256 r in
    let? '(rlp, r) := read_blob r in
    let? s := check_header s block hash rlp in
    Ok (Header block hash rlp, at_input s (section s) r)
  else if tagged SECTION_BLOCKS REC_BODY then
    let? '(block, r) := read_uvarint r in
    let? '(rlp, r) := read_blob r in
    done (Body block rlp) r
  else if tagged SECTION_BLOCKS REC_RECEIPTS then
    let? '(block, r) := read_uvarint r in
    let? '(rlp, r) := read_blob r in
    done (Receipts block rlp) r
  else if tagged SECTION_HISTORY REC_HEADER then
    let? '(object, s) := read_history s in
    Ok (History object, s)
  else if tagged SECTION_STATE REC_ACCOUNT then
    let? '(hashed_address, r) := read_b256 r in
    let? '(nonce, r) := read_uvarint r in
    let? '(balance, r) := read_short_u256 r in
    let? '(code_hash, r) := read_short_bytes r in
    let? code_hash := code_hash_of code_hash in
    done (Account hashed_address nonce balance code_hash) r
  else if tagged SECTION_STATE REC_STORAGE then
    let? '(hashed_slot, r) := read_b256 r in
    let? '(value, r) := read_short_u256 r in
    done (Storage hashed_slot value) r
  else if tagged SECTION_STATE REC_CODE then
    let? '(hash, r) := read_b256 r in
    let? '(code, r) := read_blob r in
    if negb (keccak256 code =? hash) then Err (CodeHash hash) else done (Code hash code) r
  else Err (InvalidTag tag (section s)).

(** The section transitions, in their fixed order. *)
Definition transition (sec tag : u8) : bool :=
  (byte_eqb sec SECTION_MANIFEST && byte_eqb tag SECTION_BLOCKS)
  || (byte_eqb sec SECTION_BLOCKS && byte_eqb tag SECTION_HISTORY)
  || (byte_eqb sec SECTION_HISTORY && byte_eqb tag SECTION_STATE).

(** The [loop]: each turn consumes a tag. *)
Fixpoint next_loop {K : Keccak} (s : SnapshotStream) (sec : u8) (r : bytes)
    : result SnapshotError (option SnapshotRecord * SnapshotStream) :=
  match r with
  | [] => Err UnexpectedEof
  | tag :: r =>
      if transition sec tag then next_loop s tag r
      else if byte_eqb sec SECTION_STATE && byte_eqb tag SECTION_END
      then Ok (None, set_finished (at_input s sec r))
      else if byte_eqb sec SECTION_MANIFEST then Err (ExpectedBlocks tag)
      else if byte_eqb tag REC_END then next_loop s sec r
      else let? '(record, s) := read_record (at_input s sec r) tag in Ok (Some record, s)
  end.

Definition next_record {K : Keccak} (s : SnapshotStream)
    : result SnapshotError (option SnapshotRecord * SnapshotStream) :=
  match held s with
  | Some record => Ok (Some record, set_held s None)
  | None => if finished s then Ok (None, s) else next_loop s (section s) (inner s)
  end.

Definition check_history_meets_state (s : SnapshotStream) : result SnapshotError unit :=
  match last_history s with
  | None => Err NoHistory
  | Some (block, post_root) =>
      if negb (block =? m_block (manifest s))
      then Err (HistoryEndsAtBlock block (m_block (manifest s)))
      else if negb (post_root =? m_root (manifest s))
      then Err (HistoryEndsAtRoot post_root (m_root (manifest s)))
      else Ok tt
  end.

Definition last_block_number (s : SnapshotStream) : option Z := fst <$> last_block s.

(** ** The builder *)

(** [while v >= 0x80]; ten bytes hold any [u64]. *)
Fixpoint put_uvarint_loop (fuel : nat) (v : Z) : bytes :=
  match fuel with
  | O => [z2b v]
  | S fuel =>
      if 0x80 <=? v then z2b (Z.lor (v mod 256) 0x80) :: put_uvarint_loop fuel (Z.shiftr v 7)
      else [z2b v]
  end.

Definition put_uvarint (out : bytes) (v : Z) : bytes := out ++ put_uvarint_loop 9 v.

Definition put_short (out b : bytes) : bytes := out ++ [z2b (Z.of_nat (length b))] ++ b.

Fixpoint trim (bs : bytes) : bytes :=
  match bs with
  | x00 :: bs => trim bs
  | _ => bs
  end.

Module StreamBuilder.

Definition new (m : Manifest) : bytes :=
  let out := MAGIC ++ [SECTION_MANIFEST] in
  let out := put_uvarint out (m_block m) in
  let out := out ++ be_encode 32 (m_root m) in
  let out := put_uvarint out (m_state_id m) in
  let out := out ++ be_encode 32 (m_hash m) in
  match m_resume m with
  | None => out ++ [x00]
  | Some r =>
      let out := out ++ [x01] in
      let out := put_uvarint out (rp_l1_block r) in
      let out := put_uvarint out (rp_delayed_count r) in
      put_uvarint out (rp_l2_block r)
  end.

Definition section (out : bytes) (tag : u8) : bytes := out ++ [tag].
Definition blocks (out : bytes) : bytes := section out SECTION_BLOCKS.
Definition history_section (out : bytes) : bytes := section out SECTION_HISTORY.
Definition state (out : bytes) : bytes := section out SECTION_STATE.
Definition end_section (out : bytes) : bytes := out ++ [REC_END].

Definition put_blob (out rlp : bytes) : bytes := put_uvarint out (Z.of_nat (length rlp)) ++ rlp.

Definition header {K : Keccak} (out : bytes) (block : Z) (rlp : bytes) : bytes :=
  let out := put_uvarint (out ++ [REC_HEADER]) block in
  put_blob (out ++ be_encode 32 (keccak256 rlp)) rlp.

Definition body (out : bytes) (block : Z) (rlp : bytes) : bytes :=
  put_blob (put_uvarint (out ++ [REC_BODY]) block) rlp.

Definition receipts (out : bytes) (block : Z) (rlp : bytes) : bytes :=
  put_blob (put_uvarint (out ++ [REC_RECEIPTS]) block) rlp.

Definition put_code_hash (out : bytes) (code : option Z) : bytes :=
  put_short out (match code with Some c => be_encode 32 c | None => [] end).

Definition put_u256 (out : bytes) (v : Z) : bytes := put_short out (trim (be_encode 32 v)).

Definition put_slot (out : bytes) (kv : Z * Z) : bytes :=
  put_u256 (out ++ be_encode 32 (fst kv)) (snd kv).

Definition put_account (out : bytes) (a : HistoryAccount) : bytes :=
  let out := out ++ be_encode 20 (ha_address a) in
  let out :=
    match ha_previous a with
    | None => out ++ [x00]
    | Some (nonce, balance, code) =>
        put_code_hash (put_u256 (put_uvarint (out ++ [x01]) nonce) balance) code
    end in
  let out := put_uvarint out (Z.of_nat (length (ha_storage a))) in
  fold_left put_slot (ha_storage a) out.

Definition history (out : bytes) (o : HistoryObject) : bytes :=
  let out := put_uvarint (out ++ [REC_HEADER]) (ho_state_id o) in
  let out := put_uvarint out (ho_block o) ++ [HISTORY_VERSION_RAW_SLOTS] in
  let out := out ++ be_encode 32 (ho_parent_root o) ++ be_encode 32 (ho_post_root o) in
  let out := put_uvarint out (Z.of_nat (length (ho_accounts o))) in
  fold_left put_account (ho_accounts o) out.

Definition account (out : bytes) (hashed_address nonce balance : Z) (code_hash : option Z)
    : bytes :=
  let out := put_uvarint (out ++ [REC_ACCOUNT] ++ be_encode 32 hashed_address) nonce in
  put_code_hash (put_u256 out balance) code_hash.

Definition storage (out : bytes) (hashed_slot value : Z) : bytes :=
  put_u256 (out ++ [REC_STORAGE] ++ be_encode 32 hashed_slot) value.

Definition code {K : Keccak} (out bs : bytes) : bytes :=
  put_blob (out ++ [REC_CODE] ++ be_encode 32 (keccak256 bs)) bs.

Definition finish (out : bytes) : bytes := out ++ [SECTION_END].

End StreamBuilder.

(** ** Reading back what the builder writes *)

Lemma low_bits (b : u8) : Z.land (b2z b) 127 = b2z b mod 128.
Proof. apply (Z.land_ones _ 7). lia. Qed.

Lemma high_bit (b : u8) : (Z.land (b2z b) 128 =? 0) = (b2z b <? 128).
Proof. by destruct b. Qed.

(** The continuation byte: seven bits of the value under a set high bit. *)
Lemma continuation_byte (v : Z) :
  b2z (z2b (Z.lor (v mod 256) 128)) = 128 + v mod 128.
Proof.
  pose proof (Z.mod_pos_bound v 128 ltac:(lia)).
  assert (Z.lor (v mod 256) 128 = 128 + v mod 128) as ->.
  { replace 256 with (2 * 128) by done. rewrite (Z.mul_comm 2), Z.rem_mul_r by lia.
    pose proof (Z.mod_pos_bound (v / 128) 2 ltac:(lia)).
    replace (v mod 128 + 128 * ((v / 128) mod 2))
      with (Z.lor (v mod 128) (Z.shiftl ((v / 128) mod 2) 7)) by (rewrite lor_shiftl_add; lia).
    assert (Hm : (v / 128) mod 2 = 0 \/ (v / 128) mod 2 = 1) by lia. rewrite <- Z.lor_assoc.
    assert (Z.lor (Z.shiftl ((v / 128) mod 2) 7) 128 = Z.shiftl 1 7) as ->
      by (by destruct Hm as [-> | ->]).
    rewrite lor_shiftl_add; lia. }
  rewrite b2z_z2b. apply Z.mod_small. lia.
Qed.

(** One byte of a varint at shift [7 k]. *)
Lemma checked_shl_fits (x shift : Z) :
  0 <= shift < 64 -> 0 <= x -> x * 2 ^ shift < 2 ^ 64 -> checked_shl x shift = Some (Z.shiftl x shift).
Proof.
  intros Hs Hx Hb. unfold checked_shl. rewrite (proj2 (Z.ltb_lt _ _)) by lia. f_equal.
  apply wrap64_small. rewrite Z.shiftl_mul_pow2 by lia. unfold is_u64. nia.
Qed.

Lemma uvarint_loop_roundtrip (fuel : nat) (k value v : Z) (rest : bytes) :
  0 <= k -> k + Z.of_nat fuel = 9 -> 0 <= value < 2 ^ (7 * k) ->
  0 <= v -> v * 2 ^ (7 * k) < 2 ^ 64 ->
  read_uvarint_loop value (7 * k) (put_uvarint_loop fuel v ++ rest)
    = Ok (value + v * 2 ^ (7 * k), rest).
Proof.
  revert k value v. induction fuel as [|fuel IH]; intros k value v Hk Hf Hv Hv0 Hb.
  - assert (k = 9) as -> by lia. assert (v < 2) by (change (2 ^ (7 * 9)) with (2 ^ 63) in Hb; lia).
    cbn [put_uvarint_loop app read_uvarint_loop]. rewrite high_bit, low_bits, b2z_z2b.
    rewrite !(Z.mod_small v) by lia. rewrite checked_shl_fits, lor_shiftl_add by lia.
    by rewrite (proj2 (Z.ltb_lt v 128)) by lia.
  - cbn [put_uvarint_loop]. destruct (Z.leb_spec 128 v) as [Hge|Hlt];
      cbn [app read_uvarint_loop]; rewrite high_bit, low_bits.
    + rewrite continuation_byte. pose proof (Z.mod_pos_bound v 128 ltac:(lia)).
      rewrite (Z.add_mod 128), Z.mod_same, Z.add_0_l, !Z.mod_mod by lia.
      pose proof (Z.div_mod v 128 ltac:(lia)) as Hdm.
      assert (Hp : 0 < 2 ^ (7 * k)) by (apply Z.pow_pos_nonneg; lia).
      assert (Hd : 1 <= v / 128) by (apply Z.div_le_lower_bound; lia).
      rewrite checked_shl_fits by (try lia; nia). rewrite lor_shiftl_add by lia.
      rewrite (proj2 (Z.ltb_ge _ 128)) by lia.
      rewrite (proj2 (Z.leb_gt 64 _)) by lia.
      rewrite (Z.shiftr_div_pow2 v 7) by lia. change (2 ^ 7) with 128.
      replace (7 * k + 7) with (7 * (k + 1)) by lia.
      assert (Hpow : 2 ^ (7 * (k + 1)) = 128 * 2 ^ (7 * k)).
      { replace (7 * (k + 1)) with (7 + 7 * k) by lia. by rewrite Z.pow_add_r by lia. }
      rewrite IH by (rewrite ?Hpow; first [lia|nia]). rewrite Hpow. do 2 f_equal. nia.
    + rewrite b2z_z2b. rewrite (Z.mod_small v 256), (Z.mod_small v 128) by lia.
      assert (7 * k < 64) by lia.
      rewrite checked_shl_fits, lor_shiftl_add by lia.
      by rewrite (proj2 (Z.ltb_lt v 128)) by lia.
Qed.

Lemma read_put_uvarint (v : Z) (rest : bytes) :
  is_u64 v -> read_uvarint (put_uvarint_loop 9 v ++ rest) = Ok (v, rest).
Proof.
  intros Hv. unfold read_uvarint. unfold is_u64 in Hv.
  pose proof (uvarint_loop_roundtrip 9 0 0 v rest) as H. change (7 * 0) with 0 in H.
  rewrite H by lia. do 2 f_equal. lia.
Qed.

Lemma read_exact_app (n : Z) (b rest : bytes) :
  n = Z.of_nat (length b) -> read_exact n (b ++ rest) = Ok (b, rest).
Proof.
  intros ->. unfold read_exact. rewrite length_app, (proj2 (Z.ltb_ge _ _)) by lia.
  by rewrite Nat2Z.id, take_app_length, drop_app_length.
Qed.

Lemma read_put_b256 (z : Z) (rest : bytes) :
  is_b256 z -> read_b256 (be_encode 32 z ++ rest) = Ok (z, rest).
Proof.
  intros Hz. unfold read_b256. rewrite read_exact_app by (by rewrite be_encode_length).
  cbn [rbind]. by rewrite be_decode_encode_small.
Qed.

Lemma read_put_short (b rest : bytes) :
  (length b <= 255)%nat ->
  read_short_bytes (z2b (Z.of_nat (length b)) :: b ++ rest) = Ok (b, rest).
Proof.
  intros Hb. unfold read_short_bytes. cbn [app read_u8 rbind].
  apply read_exact_app. rewrite b2z_z2b, Z.mod_small; lia.
Qed.

Lemma trim_length (l : bytes) : (length (trim l) <= length l)%nat.
Proof. induction l as [|[] l IH]; cbn in *; lia. Qed.

Lemma trim_decode (l : bytes) : be_decode (trim l) = be_decode l.
Proof.
  induction l as [|b l IH]; [done|]. destruct (decide (b = x00)) as [->|Hb].
  - cbn [trim]. rewrite IH, (be_decode_cons x00). change (b2z x00) with 0. lia.
  - by destruct b.
Qed.

Lemma read_put_u256 (v : Z) (rest : bytes) :
  is_b256 v ->
  read_short_u256 (z2b (Z.of_nat (length (trim (be_encode 32 v)))) :: trim (be_encode 32 v) ++ rest)
    = Ok (v, rest).
Proof.
  intros Hv. pose proof (trim_length (be_encode 32 v)) as Hl. rewrite be_encode_length in Hl.
  unfold read_short_u256. rewrite read_put_short by lia. cbn [rbind].
  rewrite (proj2 (Nat.ltb_ge _ _)) by lia. by rewrite trim_decode, be_decode_encode_small.
Qed.

(** The bytes of an optional code hash. *)
Definition code_hash_bytes (code : option Z) : bytes :=
  match code with Some c => be_encode 32 c | None => [] end.

Definition opt_b256 (code : option Z) : Prop := match code with Some c => is_b256 c | None => True end.

Lemma code_hash_length (code : option Z) : (length (code_hash_bytes code) <= 32)%nat.
Proof. destruct code; cbn [code_hash_bytes]; [rewrite be_encode_length|cbn]; lia. Qed.

Lemma code_hash_roundtrip (code : option Z) :
  opt_b256 code -> code_hash_of (code_hash_bytes code) = Ok code.
Proof.
  destruct code as [c|]; [|done]. intros Hc. cbn [code_hash_bytes]. unfold code_hash_of.
  pose proof (be_encode_length 32 c) as Hl. destruct (be_encode 32 c) eqn:E; [done|].
  rewrite <- E in *. rewrite Hl. cbn [Nat.eqb]. by rewrite be_decode_encode_small.
Qed.

Lemma read_put_blob (b rest : bytes) :
  Z.of_nat (length b) <= ISIZE_MAX ->
  read_blob (put_uvarint_loop 9 (Z.of_nat (length b)) ++ b ++ rest) = Ok (b, rest).
Proof.
  intros Hb. unfold read_blob. unfold ISIZE_MAX in *.
  rewrite read_put_uvarint by (unfold is_u64; lia). cbn [rbind].
  rewrite (proj2 (Z.ltb_ge _ _)) by lia. by apply read_exact_app.
Qed.

(** ** What a valid stream is *)

(** The section a record belongs to, and the order of the sections. *)
Definition section_of (r : SnapshotRecord) : u8 :=
  match r with
  | Header _ _ _ | Body _ _ | Receipts _ _ => SECTION_BLOCKS
  | History _ => SECTION_HISTORY
  | Account _ _ _ _ | Storage _ _ | Code _ _ => SECTION_STATE
  end.

Definition section_le (a b : SnapshotRecord) : Prop := b2z (section_of a) <= b2z (section_of b).

(** A header's number and parent follow the last header seen, a history object's block and
    starting root the last object seen. *)
Definition follows (last : option (Z * Z)) (block : Z) (parent : bytes) : Prop :=
  match last with
  | None => True
  | Some (number, hash) => block = number + 1 /\ parent = be_encode 32 hash
  end.

Definition chains (last : option (Z * Z)) (block parent_root : Z) : Prop :=
  match last with
  | None => True
  | Some (number, post) => number < block /\ parent_root = post
  end.

Definition next_block (last : option (Z * Z)) (r : SnapshotRecord) : option (Z * Z) :=
  match r with Header block hash _ => Some (block, hash) | _ => last end.

Definition next_history (last : option (Z * Z)) (r : SnapshotRecord) : option (Z * Z) :=
  match r with History o => Some (ho_block o, ho_post_root o) | _ => last end.

Section Valid.
Context {K : Keccak}.

Definition valid_record (top : Z) (lb lh : option (Z * Z)) (r : SnapshotRecord) : Prop :=
  match r with
  | Header block hash rlp =>
      keccak256 rlp = hash /\ block <= top /\
      exists parent, header_field rlp 0 = Ok parent /\ follows lb block parent
  | History o => ho_block o <= top /\ chains lh (ho_block o) (ho_parent_root o)
  | Code hash code => keccak256 code = hash
  | _ => True
  end.

Fixpoint valid_from (top : Z) (lb lh : option (Z * Z)) (rs : list SnapshotRecord) : Prop :=
  match rs with
  | [] => True
  | r :: rs => valid_record top lb lh r /\ valid_from top (next_block lb r) (next_history lh r) rs
  end.

(** Repeated calls of [next_record], up to [n] or the end of the stream. *)
Fixpoint read_records (n : nat) (s : SnapshotStream)
    : result SnapshotError (list SnapshotRecord * SnapshotStream) :=
  match n with
  | O => Ok ([], s)
  | S n =>
      let? '(o, s) := next_record s in
      match o with
      | None => Ok ([], s)
      | Some r => let? '(rs, s) := read_records n s in Ok (r :: rs, s)
      end
  end.

(** ** The reader accepts only valid streams *)

(** What a call may change besides its input. *)
Definition carried (s s' : SnapshotStream) (lb lh : option (Z * Z)) : Prop :=
  manifest s' = manifest s /\ held s' = held s /\ last_block s' = lb /\ last_history s' = lh.

(** The last header is at or below the convert point. *)
Definition below_top (s : SnapshotStream) : Prop :=
  match last_block s with Some (n, _) => 0 <= n <= m_block (manifest s) | None => True end.

Lemma byte_eqb_true (a b : u8) : byte_eqb a b = true -> a = b.
Proof. apply bool_decide_eq_true_1. Qed.

Lemma read_uvarint_nonneg (value shift v : Z) (r r' : bytes) :
  0 <= value -> read_uvarint_loop value shift r = Ok (v, r') -> 0 <= v.
Proof.
  revert value shift. induction r as [|b r IH]; intros value shift Hv H; cbn in H; [done|].
  destruct (checked_shl _ _) as [bits|] eqn:E; [|done].
  assert (Hl : 0 <= Z.lor value bits).
  { apply Z.lor_nonneg. split; [done|]. unfold checked_shl in E. if_inv E. injection E as <-.
    apply wrap64_bound. }
  if_inv H; [by simplify_eq|]. by eapply IH.
Qed.

Lemma check_header_valid (s s' : SnapshotStream) (block hash : Z) (rlp : bytes) :
  below_top s -> m_block (manifest s) < U64_MAX -> check_header s block hash rlp = Ok s' ->
  valid_record (m_block (manifest s)) (last_block s) (last_history s) (Header block hash rlp) /\
  s' = set_last_block s (Some (block, hash)).
Proof.
  intros Hb Hm H. unfold check_header in H. if_inv H.
  apply negb_false_iff, Z.eqb_eq in C. apply Z.ltb_ge in C0. ok_inv. subst s'.
  split; [|done]. split; [done|]. split; [done|]. exists v. split; [done|].
  unfold below_top in Hb. destruct (last_block s) as [[n h]|]; [|done].
  if_inv E0. apply negb_false_iff in C1, C2. apply Z.eqb_eq in C1. apply bool_decide_eq_true in C2.
  split; [|done]. subst block. apply wrap64_small. unfold is_u64, U64_MAX in *. lia.
Qed.

Lemma read_history_valid (s s' : SnapshotStream) (o : HistoryObject) :
  read_history s = Ok (o, s') ->
  valid_record (m_block (manifest s)) (last_block s) (last_history s) (History o) /\
  carried s s' (last_block s) (Some (ho_block o, ho_post_root o)) /\
  section s' = section s /\ finished s' = finished s.
Proof.
  intros H. unfold read_history in H. ok_inv. simplify_eq. cbn [valid_record ho_block ho_parent_root].
  split; [|done]. unfold check_history in E4. if_inv E4. apply Z.ltb_ge in C0. split; [done|].
  destruct (last_history s) as [[n p]|]; [|done]. if_inv E4.
  apply Z.leb_gt in C1. apply negb_false_iff, Z.eqb_eq in C2. done.
Qed.

Lemma read_record_valid (s s' : SnapshotStream) (tag : u8) (r : SnapshotRecord) :
  below_top s -> m_block (manifest s) < U64_MAX -> read_record s tag = Ok (r, s') ->
  valid_record (m_block (manifest s)) (last_block s) (last_history s) r /\
  section_of r = section s /\ section s' = section s /\ finished s' = finished s /\
  carried s s' (next_block (last_block s) r) (next_history (last_history s) r) /\ below_top s'.
Proof.
  intros Hb Hm H. unfold read_record in H.
  repeat match type of H with
  | context [if ?c then _ else _] =>
      lazymatch c with
      | byte_eqb _ _ && byte_eqb _ _ => let C := fresh "C" in destruct c eqn:C
      end
  end; try discriminate H; try apply andb_prop in C as [C _];
    try apply andb_prop in C0 as [C0 _]; try apply andb_prop in C1 as [C1 _];
    try apply andb_prop in C2 as [C2 _]; try apply andb_prop in C3 as [C3 _];
    try apply andb_prop in C4 as [C4 _]; try apply andb_prop in C5 as [C5 _].
  - ok_inv. simplify_eq. apply check_header_valid in E2 as [Hv ->]; [|done..].
    apply byte_eqb_true in C. pose proof (read_uvarint_nonneg 0 0 _ _ _ ltac:(done) E).
    repeat split; try done; cbn; try apply Hv.
  - ok_inv. simplify_eq. apply byte_eqb_true in C0. done.
  - ok_inv. simplify_eq. apply byte_eqb_true in C1. done.
  - ok_inv. simplify_eq. apply byte_eqb_true in C2. apply read_history_valid in E as (Hv & Hc & Hs & Hf).
    destruct Hc as (E1 & E2 & E3 & E4). unfold below_top in *. by rewrite E1, E3.
  - ok_inv. simplify_eq. apply byte_eqb_true in C3. done.
  - ok_inv. simplify_eq. apply byte_eqb_true in C4. done.
  - ok_inv. if_inv H. simplify_eq. apply byte_eqb_true in C5. apply negb_false_iff, Z.eqb_eq in C6.
    done.
Qed.

Lemma transition_le (sec tag : u8) : transition sec tag = true -> b2z sec <= b2z tag.
Proof.
  unfold transition. intros [[[C1 C2]%andb_prop|[C1 C2]%andb_prop]%orb_prop|[C1 C2]%andb_prop]%orb_prop;
    apply byte_eqb_true in C1 as ->; apply byte_eqb_true in C2 as ->; by vm_compute.
Qed.

Lemma next_loop_some (s s' : SnapshotStream) (sec : u8) (r : bytes) (rec : SnapshotRecord) :
  next_loop s sec r = Ok (Some rec, s') ->
  exists sec' r' tag, b2z sec <= b2z sec' /\ read_record (at_input s sec' r') tag = Ok (rec, s').
Proof.
  revert sec. induction r as [|tag r IH]; intros sec H; cbn [next_loop] in H; [done|]. if_inv H.
  - apply IH in H as (sec' & r' & tag' & Hle & H). apply transition_le in C.
    exists sec', r', tag'. split; [lia|done].
  - by apply IH in H.
  - ok_inv. simplify_eq. by exists sec, r, tag.
Qed.

Lemma next_loop_none (s s' : SnapshotStream) (sec : u8) (r : bytes) :
  next_loop s sec r = Ok (None, s') ->
  exists sec' r', s' = set_finished (at_input s sec' r').
Proof.
  revert sec. induction r as [|tag r IH]; intros sec H; cbn [next_loop] in H; [done|]. if_inv H.
  - by apply IH in H.
  - simplify_eq. by eexists _, _.
  - by apply IH in H.
  - ok_inv. done.
Qed.

Definition fold_block (lb : option (Z * Z)) (rs : list SnapshotRecord) : option (Z * Z) :=
  fold_left next_block rs lb.
Definition fold_history (lh : option (Z * Z)) (rs : list SnapshotRecord) : option (Z * Z) :=
  fold_left next_history rs lh.

Lemma read_records_valid (n : nat) (s s' : SnapshotStream) (rs : list SnapshotRecord) :
  held s = None -> below_top s -> m_block (manifest s) < U64_MAX ->
  read_records n s = Ok (rs, s') ->
  valid_from (m_block (manifest s)) (last_block s) (last_history s) rs /\
  StronglySorted section_le rs /\
  Forall (fun r => b2z (section s) <= b2z (section_of r)) rs /\
  carried s s' (fold_block (last_block s) rs) (fold_history (last_history s) rs).
Proof.
  revert s rs. induction n as [|n IH]; intros s rs Hh Hb Hm H; cbn [read_records] in H.
  { simplify_eq. repeat split; constructor. }
  ok_inv. unfold next_record in E. rewrite Hh in E. destruct (finished s).
  { simplify_eq. repeat split; constructor. }
  destruct o as [r|].
  - ok_inv. simplify_eq. apply next_loop_some in E as (sec & r' & tag & Hle & E).
    apply read_record_valid in E as (Hv & Hsec & Hs & Hf & Hc & Hb'); [|done..].
    cbn [at_input manifest last_block last_history section] in *.
    destruct Hc as (Em & Eh & Elb & Elh). cbn [at_input manifest held last_block last_history] in *.
    apply IH in E0 as (Hvs & Hsort & Hall & Hc'); [|by rewrite Eh|done|by rewrite Em].
    rewrite Em, Elb, Elh in *. destruct Hc' as (Em' & Eh' & Elb' & Elh').
    assert (Hge : Forall (fun x => b2z (section_of r) <= b2z (section_of x)) l).
    { by rewrite Hsec, <- Hs. }
    split_and!; [by split|by constructor| |].
    + constructor; [by rewrite Hsec|]. eapply List.Forall_impl; [|exact Hge].
      intros x Hx. cbn in Hx. rewrite Hsec in Hx. lia.
    + split_and!; [congruence|congruence|done|done].
  - apply next_loop_none in E as (sec & r & ->). simplify_eq. repeat split; constructor.
Qed.

(** ** The reader accepts every valid stream *)

(** The values fit the fields that hold them. *)
Definition history_account_fits (a : HistoryAccount) : Prop :=
  is_address (ha_address a) /\
  match ha_previous a with
  | None => True
  | Some (nonce, balance, code) => is_u64 nonce /\ is_b256 balance /\ opt_b256 code
  end /\
  is_u64 (Z.of_nat (length (ha_storage a))) /\
  Forall (fun kv => is_b256 (fst kv) /\ is_b256 (snd kv)) (ha_storage a).

Definition blob_fits (b : bytes) : Prop := Z.of_nat (length b) <= ISIZE_MAX.

Definition record_fits (r : SnapshotRecord) : Prop :=
  match r with
  | Header block _ rlp | Body block rlp | Receipts block rlp => is_u64 block /\ blob_fits rlp
  | History o =>
      is_u64 (ho_state_id o) /\ is_u64 (ho_block o) /\ is_b256 (ho_parent_root o) /\
      is_b256 (ho_post_root o) /\ is_u64 (Z.of_nat (length (ho_accounts o))) /\
      Forall history_account_fits (ho_accounts o)
  | Account hashed_address nonce balance code =>
      is_b256 hashed_address /\ is_u64 nonce /\ is_b256 balance /\ opt_b256 code
  | Storage hashed_slot value => is_b256 hashed_slot /\ is_b256 value
  | Code _ code => blob_fits code
  end.

Definition manifest_fits (m : Manifest) : Prop :=
  is_u64 (m_block m) /\ is_b256 (m_root m) /\ is_u64 (m_state_id m) /\ is_b256 (m_hash m) /\
  match m_resume m with
  | None => True
  | Some r => is_u64 (rp_l1_block r) /\ is_u64 (rp_delayed_count r) /\ is_u64 (rp_l2_block r)
  end.

(** The builder call that writes a record. *)
Definition write_record (out : bytes) (r : SnapshotRecord) : bytes :=
  match r with
  | Header block _ rlp => StreamBuilder.header out block rlp
  | Body block rlp => StreamBuilder.body out block rlp
  | Receipts block rlp => StreamBuilder.receipts out block rlp
  | History o => StreamBuilder.history out o
  | Account hashed_address nonce balance code =>
      StreamBuilder.account out hashed_address nonce balance code
  | Storage hashed_slot value => StreamBuilder.storage out hashed_slot value
  | Code _ code => StreamBuilder.code out code
  end.

(** A complete stream, section by section. *)
Definition build (m : Manifest) (bs : list SnapshotRecord) (hs : list HistoryObject)
    (ss : list SnapshotRecord) : bytes :=
  let out := fold_left write_record bs (StreamBuilder.blocks (StreamBuilder.new m)) in
  let out := StreamBuilder.history_section (StreamBuilder.end_section out) in
  let out := fold_left StreamBuilder.history hs out in
  let out := StreamBuilder.state (StreamBuilder.end_section out) in
  let out := fold_left write_record ss out in
  StreamBuilder.finish (StreamBuilder.end_section out).

(** Normal form of a concatenation. *)
Ltac flat := repeat first [rewrite <- app_assoc | rewrite app_nil_l | rewrite <- app_comm_cons].

(** Appending writers: what is written does not depend on what is there. *)
Lemma fold_append {A : Type} (f : bytes -> A -> bytes) (l : list A) (out : bytes) :
  (forall out a, f out a = out ++ f [] a) -> fold_left f l out = out ++ concat (map (f []) l).
Proof.
  intros Hf. revert out. induction l as [|a l IH]; intros out; cbn [fold_left map concat].
  - by rewrite app_nil_r.
  - by rewrite IH, Hf, app_assoc.
Qed.

Lemma put_slot_append (out : bytes) (kv : Z * Z) :
  StreamBuilder.put_slot out kv = out ++ StreamBuilder.put_slot [] kv.
Proof. unfold StreamBuilder.put_slot, StreamBuilder.put_u256, put_short. flat. reflexivity. Qed.

Lemma put_account_append (out : bytes) (a : HistoryAccount) :
  StreamBuilder.put_account out a = out ++ StreamBuilder.put_account [] a.
Proof.
  unfold StreamBuilder.put_account. rewrite !(fold_append _ _ _ put_slot_append).
  destruct (ha_previous a) as [[[nonce balance] code]|];
    unfold StreamBuilder.put_code_hash, StreamBuilder.put_u256, put_short, put_uvarint;
    flat; reflexivity.
Qed.

Lemma history_append (out : bytes) (o : HistoryObject) :
  StreamBuilder.history out o = out ++ StreamBuilder.history [] o.
Proof.
  unfold StreamBuilder.history, put_uvarint.
  rewrite !(fold_append _ _ _ put_account_append). flat. reflexivity.
Qed.

Lemma write_record_append (out : bytes) (r : SnapshotRecord) :
  write_record out r = out ++ write_record [] r.
Proof.
  destruct r; cbn [write_record];
    [unfold StreamBuilder.header|unfold StreamBuilder.body|unfold StreamBuilder.receipts
    |apply history_append|unfold StreamBuilder.account|unfold StreamBuilder.storage
    |unfold StreamBuilder.code];
    unfold StreamBuilder.put_blob, StreamBuilder.put_code_hash, StreamBuilder.put_u256, put_short,
      put_uvarint; flat; reflexivity.
Qed.

(** Reads the next field of a known input. *)
Ltac read_field :=
  first
    [ rewrite read_put_uvarint by done
    | rewrite read_put_b256 by done
    | rewrite read_put_u256 by done
    | rewrite read_put_blob by done ];
  cbn [rbind].

Lemma read_put_code_hash (code : option Z) (rest : bytes) :
  read_short_bytes (z2b (Z.of_nat (length (code_hash_bytes code))) :: code_hash_bytes code ++ rest)
    = Ok (code_hash_bytes code, rest).
Proof. pose proof (code_hash_length code). apply read_put_short. lia. Qed.

Lemma read_slots_roundtrip (l : list (Z * Z)) (rest : bytes) :
  Forall (fun kv => is_b256 (fst kv) /\ is_b256 (snd kv)) l ->
  read_slots (length l) (concat (map (StreamBuilder.put_slot []) l) ++ rest) = Ok (l, rest).
Proof.
  induction 1 as [|[k v] l [Hk Hv] Hl IH]; [done|]. cbn [length read_slots map concat fst snd] in *.
  unfold StreamBuilder.put_slot at 1, StreamBuilder.put_u256, put_short.
  cbn [fst snd]. flat. do 2 read_field. by rewrite IH.
Qed.

Lemma read_account_roundtrip (a : HistoryAccount) (rest : bytes) :
  history_account_fits a ->
  read_history_account (StreamBuilder.put_account [] a ++ rest) = Ok (a, rest).
Proof.
  intros (Ha & Hp & Hn & Hs). unfold StreamBuilder.put_account.
  rewrite (fold_append _ _ _ put_slot_append). destruct a as [addr prev slots].
  cbn [ha_address ha_previous ha_storage] in *. unfold read_history_account.
  assert (Haddr : be_decode (be_encode 20 addr) = addr) by (by apply be_decode_encode_small).
  destruct prev as [[[nonce balance] code]|].
  - destruct Hp as (Hno & Hba & Hc).
    unfold StreamBuilder.put_code_hash, StreamBuilder.put_u256, put_short, put_uvarint.
    change (match code with Some c => be_encode 32 c | None => [] end) with (code_hash_bytes code).
    rewrite <- !app_assoc, app_nil_l.
    rewrite read_exact_app by (by rewrite be_encode_length). cbn [rbind app read_u8].
    eval_kinds. read_field. read_field. rewrite read_put_code_hash. cbn [rbind].
    rewrite code_hash_roundtrip by done. cbn [rbind]. read_field.
    rewrite Nat2Z.id, read_slots_roundtrip by done. cbn [rbind]. by rewrite Haddr.
  - unfold put_uvarint. rewrite <- !app_assoc, app_nil_l.
    rewrite read_exact_app by (by rewrite be_encode_length). cbn [rbind app read_u8].
    eval_kinds. cbn [rbind]. read_field.
    rewrite Nat2Z.id, read_slots_roundtrip by done. cbn [rbind]. by rewrite Haddr.
Qed.

Lemma read_accounts_roundtrip (l : list HistoryAccount) (rest : bytes) :
  Forall history_account_fits l ->
  read_history_accounts (length l) (concat (map (StreamBuilder.put_account []) l) ++ rest)
    = Ok (l, rest).
Proof.
  induction 1 as [|a l Ha Hl IH]; [done|]. cbn [length read_history_accounts map concat].
  rewrite <- app_assoc, read_account_roundtrip by done. cbn [rbind]. by rewrite IH.
Qed.

(** The stream behind a record it has returned. *)
Definition after (s : SnapshotStream) (r : SnapshotRecord) (rest : bytes) : SnapshotStream :=
  {| inner := rest; manifest := manifest s; section := section_of r;
     last_block := next_block (last_block s) r; last_history := next_history (last_history s) r;
     held := held s; finished := finished s |}.

Lemma check_header_accepts (s : SnapshotStream) (block hash : Z) (rlp : bytes) :
  is_u64 block ->
  valid_record (m_block (manifest s)) (last_block s) (last_history s) (Header block hash rlp) ->
  check_header s block hash rlp = Ok (set_last_block s (Some (block, hash))).
Proof.
  intros Hu (<- & Htop & parent & Hp & Hf). unfold check_header.
  rewrite Z.eqb_refl, (proj2 (Z.ltb_ge _ _)) by done. cbn [negb]. rewrite Hp. cbn [map_err rbind].
  destruct (last_block s) as [[n h]|]; [|done]. destruct Hf as [-> ->].
  unfold wrapping_add. rewrite wrap64_small, Z.eqb_refl, bool_decide_eq_true_2 by done. done.
Qed.

Lemma check_history_accepts (s : SnapshotStream) (o : HistoryObject) :
  valid_record (m_block (manifest s)) (last_block s) (last_history s) (History o) ->
  check_history s (ho_state_id o) (ho_block o) HISTORY_VERSION_RAW_SLOTS (ho_parent_root o) = Ok tt.
Proof.
  intros [Htop Hc]. unfold check_history. eval_kinds. cbn [negb].
  rewrite (proj2 (Z.ltb_ge _ _)) by done.
  destruct (last_history s) as [[n p]|]; [|done]. destruct Hc as [Hlt ->].
  by rewrite (proj2 (Z.leb_gt _ _)), Z.eqb_refl by done.
Qed.

(** The tag and the fields of a record's encoding. *)
Definition record_tag (r : SnapshotRecord) : u8 :=
  match r with
  | Header _ _ _ | History _ => REC_HEADER
  | Body _ _ => REC_BODY
  | Receipts _ _ => REC_RECEIPTS
  | Account _ _ _ _ => REC_ACCOUNT
  | Storage _ _ => REC_STORAGE
  | Code _ _ => REC_CODE
  end.

Lemma read_history_roundtrip (s : SnapshotStream) (o : HistoryObject) (rest : bytes) :
  record_fits (History o) ->
  valid_record (m_block (manifest s)) (last_block s) (last_history s) (History o) ->
  exists fields, StreamBuilder.history [] o = REC_HEADER :: fields /\
    read_history (at_input s SECTION_HISTORY (fields ++ rest)) = Ok (o, after s (History o) rest).
Proof.
  intros (Hid & Hb & Hp & Hpo & Hn & Ha) Hv. unfold StreamBuilder.history, put_uvarint.
  rewrite (fold_append _ _ _ put_account_append), <- !app_assoc. cbn [app].
  eexists. split; [reflexivity|]. unfold read_history. cbn [at_input inner].
  flat. do 2 read_field. cbn [read_u8 rbind]. do 2 read_field.
  rewrite check_history_accepts by done. cbn [rbind]. read_field.
  rewrite Nat2Z.id, read_accounts_roundtrip by done. cbn [rbind]. by destruct o.
Qed.

Lemma read_record_roundtrip (s : SnapshotStream) (r : SnapshotRecord) (rest : bytes) :
  record_fits r -> valid_record (m_block (manifest s)) (last_block s) (last_history s) r ->
  exists fields, write_record [] r = record_tag r :: fields /\
    read_record (at_input s (section_of r) (fields ++ rest)) (record_tag r)
      = Ok (r, after s r rest).
Proof.
  intros Hf Hv. destruct r as [b h rlp|b rlp|b rlp|o|ha n ba ch|hs v|h c];
    cbn [write_record record_tag section_of].
  4: { destruct (read_history_roundtrip s o rest Hf Hv) as (fields & -> & H).
       exists fields. split; [done|]. unfold read_record. cbn [at_input section]. eval_kinds.
       cbn [andb]. cbn [rbind] in *. by rewrite H. }
  all: unfold StreamBuilder.header, StreamBuilder.body, StreamBuilder.receipts,
         StreamBuilder.account, StreamBuilder.storage, StreamBuilder.code, StreamBuilder.put_blob,
         StreamBuilder.put_code_hash, StreamBuilder.put_u256, put_short, put_uvarint;
       rewrite <- ?app_assoc; cbn [app]; eexists; (split; [reflexivity|]);
       unfold read_record; cbn [at_input section inner]; eval_kinds; cbn [andb];
       rewrite <- ?app_assoc; cbn [app record_fits] in *.
  - destruct Hf as [Hb Hl]. pose proof Hv as [Hh _]. rewrite Hh. pose proof (keccak256_range rlp) as Hk.
    rewrite Hh in Hk. read_field. rewrite <- ?app_assoc. read_field. rewrite <- ?app_assoc. read_field.
    by rewrite check_header_accepts by done.
  - destruct Hf as [Hb Hl]. read_field. rewrite <- ?app_assoc. by read_field.
  - destruct Hf as [Hb Hl]. read_field. rewrite <- ?app_assoc. by read_field.
  - destruct Hf as (Ha & Hn & Hb & Hc). read_field. rewrite <- ?app_assoc. read_field.
    rewrite <- ?app_assoc. cbn [app]. rewrite <- ?app_assoc. read_field.
    change (match ch with Some c => be_encode 32 c | None => [] end) with (code_hash_bytes ch).
    cbn [app]. rewrite read_put_code_hash. cbn [rbind]. by rewrite code_hash_roundtrip by done.
  - destruct Hf as [Hs Hvv]. read_field. by read_field.
  - cbn in Hv. rewrite Hv. pose proof (keccak256_range c) as Hk. rewrite Hv in Hk.
    read_field. rewrite <- ?app_assoc. read_field. by rewrite Hv, Z.eqb_refl.
Qed.

Lemma at_input_twice (s : SnapshotStream) (a b : u8) (r r' : bytes) :
  at_input (at_input s a r) b r' = at_input s b r'.
Proof. done. Qed.

(** The loop uses the stream's own position nowhere. *)
Lemma next_loop_at (s : SnapshotStream) (a sec : u8) (r r' : bytes) :
  next_loop (at_input s a r) sec r' = next_loop s sec r'.
Proof.
  revert sec. induction r' as [|tag r' IH]; intros sec; cbn [next_loop]; [done|].
  by rewrite !IH, at_input_twice.
Qed.

Lemma next_loop_record (s : SnapshotStream) (r : SnapshotRecord) (rest : bytes) :
  record_fits r -> valid_record (m_block (manifest s)) (last_block s) (last_history s) r ->
  next_loop s (section_of r) (write_record [] r ++ rest) = Ok (Some r, after s r rest).
Proof.
  intros Hf Hv. destruct (read_record_roundtrip s r rest Hf Hv) as (fields & -> & H).
  cbn [app next_loop]. rewrite H.
  assert (transition (section_of r) (record_tag r) = false) as -> by (by destruct r).
  assert (byte_eqb (section_of r) SECTION_STATE && byte_eqb (record_tag r) SECTION_END = false) as ->
    by (by destruct r).
  assert (byte_eqb (section_of r) SECTION_MANIFEST = false) as -> by (by destruct r).
  assert (byte_eqb (record_tag r) REC_END = false) as -> by (by destruct r). done.
Qed.

(** A section's records are read one after another. *)
Lemma read_records_section (rs : list SnapshotRecord) (sec : u8) (n : nat) (s : SnapshotStream)
    (rest : bytes) :
  Forall (fun r => section_of r = sec) rs -> Forall record_fits rs ->
  valid_from (m_block (manifest s)) (last_block s) (last_history s) rs ->
  held s = None -> finished s = false -> section s = sec ->
  inner s = concat (map (write_record []) rs) ++ rest ->
  read_records (length rs + n) s =
    let? '(more, s') := read_records n
      {| inner := rest; manifest := manifest s; section := sec;
         last_block := fold_block (last_block s) rs;
         last_history := fold_history (last_history s) rs; held := None; finished := false |} in
    Ok (rs ++ more, s').
Proof.
  intros Hsec. revert s. induction Hsec as [|r rs Hr Hrs IH]; intros s Hf Hv Hh Hfin Hs Hi.
  - cbn in Hi. destruct s; cbn in *; subst. cbn [length Nat.add].
    by destruct (read_records n _) as [[]|].
  - inversion Hf as [|? ? Hfr Hf']; subst. destruct Hv as [Hvr Hv].
    cbn [length Nat.add read_records]. unfold next_record. rewrite Hh, Hfin, Hs, Hi.
    cbn [map concat]. rewrite <- app_assoc, next_loop_record by done. cbn [rbind].
    rewrite IH; [|done..]. cbn [after manifest last_block last_history].
    unfold fold_block, fold_history. cbn [fold_left].
    by destruct (read_records n _) as [[]|].
Qed.

(** The end of a section and the tag of the next one are skipped. *)
Lemma read_records_transition (n : nat) (s : SnapshotStream) (sec : u8) (rest : bytes) :
  held s = None -> finished s = false -> byte_eqb (section s) SECTION_MANIFEST = false ->
  transition (section s) sec = true -> transition (section s) REC_END = false ->
  inner s = [REC_END; sec] ++ rest ->
  read_records (S n) s = read_records (S n) (at_input s sec rest).
Proof.
  intros Hh Hf Hm Ht He Hi. cbn [read_records]. unfold next_record.
  cbn [at_input held finished section inner]. rewrite Hh, Hf, Hi, next_loop_at.
  cbn [app next_loop]. rewrite He, Ht, Hm. eval_kinds. by rewrite andb_false_r.
Qed.

Lemma read_records_blocks (n : nat) (s : SnapshotStream) (rest : bytes) :
  held s = None -> finished s = false -> section s = SECTION_MANIFEST ->
  inner s = [SECTION_BLOCKS] ++ rest ->
  read_records (S n) s = read_records (S n) (at_input s SECTION_BLOCKS rest).
Proof.
  intros Hh Hf Hs Hi. cbn [read_records]. unfold next_record.
  cbn [at_input held finished section inner]. by rewrite Hh, Hf, Hs, Hi, next_loop_at.
Qed.

Lemma valid_from_app (top : Z) (lb lh : option (Z * Z)) (a b : list SnapshotRecord) :
  valid_from top lb lh (a ++ b) <->
  valid_from top lb lh a /\ valid_from top (fold_block lb a) (fold_history lh a) b.
Proof.
  revert lb lh. induction a as [|r a IH]; intros lb lh; cbn [app valid_from].
  - unfold fold_block, fold_history. cbn. tauto.
  - rewrite IH. unfold fold_block, fold_history. cbn [fold_left]. tauto.
Qed.

(** Opening a built stream reads the manifest back and stops at the first section. *)
Lemma open_new (m : Manifest) (rest : bytes) :
  manifest_fits m ->
  open (StreamBuilder.new m ++ rest) =
    Ok {| inner := rest; manifest := m; section := SECTION_MANIFEST; last_block := None;
          last_history := None; held := None; finished := false |}.
Proof.
  intros (Hb & Hr & Hi & Hh & Hres). unfold open, StreamBuilder.new, put_uvarint.
  destruct m as [b root sid hash [res|]]; cbn [m_block m_root m_state_id m_hash m_resume] in *;
    flat.
  all: rewrite read_exact_app by done; cbn [map_err rbind]; rewrite bool_decide_eq_true_2 by done;
    cbn [negb read_u8 rbind]; eval_kinds; cbn [negb]; do 4 read_field; cbn [read_u8 rbind]; eval_kinds.
  - destruct Hres as (H1 & H2 & H3). do 3 read_field. by destruct res.
  - done.
Qed.

Lemma build_bytes (m : Manifest) (bs : list SnapshotRecord) (hs : list HistoryObject)
    (ss : list SnapshotRecord) :
  build m bs hs ss = StreamBuilder.new m ++ [SECTION_BLOCKS] ++ concat (map (write_record []) bs) ++
    [REC_END; SECTION_HISTORY] ++ concat (map (write_record []) (map History hs)) ++
    [REC_END; SECTION_STATE] ++ concat (map (write_record []) ss) ++ [REC_END; SECTION_END].
Proof.
  unfold build, StreamBuilder.finish, StreamBuilder.end_section, StreamBuilder.state,
    StreamBuilder.history_section, StreamBuilder.blocks, StreamBuilder.section.
  rewrite !(fold_append _ _ _ write_record_append), (fold_append _ _ _ history_append), map_map.
  rewrite <- !app_assoc. done.
Qed.

(** The state when the whole of [rs] has been read. *)
Definition exhausted (m : Manifest) (rs : list SnapshotRecord) : SnapshotStream :=
  {| inner := []; manifest := m; section := SECTION_STATE; last_block := fold_block None rs;
     last_history := fold_history None rs; held := None; finished := true |}.

Lemma read_records_build (m : Manifest) (bs : list SnapshotRecord) (hs : list HistoryObject)
    (ss : list SnapshotRecord) (n : nat) (s0 : SnapshotStream) :
  Forall (fun r => section_of r = SECTION_BLOCKS) bs ->
  Forall (fun r => section_of r = SECTION_STATE) ss ->
  Forall record_fits (bs ++ map History hs ++ ss) ->
  valid_from (m_block m) None None (bs ++ map History hs ++ ss) ->
  open (StreamBuilder.new m ++ drop (length (StreamBuilder.new m)) (build m bs hs ss)) = Ok s0 ->
  manifest_fits m ->
  read_records (length bs + (length (map History hs) + (length ss + S n))) s0
    = Ok (bs ++ map History hs ++ ss, exhausted m (bs ++ map History hs ++ ss)).
Proof.
  intros Hbs Hss Hfit Hv Hopen Hm.
  apply List.Forall_app in Hfit as [Hf1 [Hf2 Hf3]%List.Forall_app].
  apply valid_from_app in Hv as [Hv1 [Hv2 Hv3]%valid_from_app].
  assert (Hhs : Forall (fun r => section_of r = SECTION_HISTORY) (map History hs)).
  { apply List.Forall_forall. by intros r (o & <- & _)%in_map_iff. }
  rewrite open_new in Hopen by done. rewrite build_bytes, drop_app_length in Hopen.
  injection Hopen as <-.
  set (l := map History hs) in *.
  rewrite !Nat.add_succ_r. erewrite read_records_blocks by reflexivity.
  cbn [at_input]. rewrite <- !Nat.add_succ_r.
  erewrite (read_records_section bs SECTION_BLOCKS) by done. cbn [last_block last_history manifest].
  rewrite !Nat.add_succ_r.
  erewrite (read_records_transition _ _ SECTION_HISTORY) by done. cbn [at_input].
  rewrite <- !Nat.add_succ_r.
  erewrite (read_records_section l SECTION_HISTORY) by done. cbn [last_block last_history manifest].
  rewrite !Nat.add_succ_r.
  erewrite (read_records_transition _ _ SECTION_STATE) by done. cbn [at_input].
  rewrite <- !Nat.add_succ_r.
  erewrite (read_records_section ss SECTION_STATE) by done. cbn [last_block last_history manifest].
  assert (Hend : forall lb lh, read_records (S n)
    {| inner := [REC_END; SECTION_END]; manifest := m; section := SECTION_STATE;
       last_block := lb; last_history := lh; held := None; finished := false |} =
    Ok ([], {| inner := []; manifest := m; section := SECTION_STATE;
       last_block := lb; last_history := lh; held := None; finished := true |})) by done.
  rewrite Hend. cbn [rbind]. rewrite app_nil_r. unfold exhausted, fold_block, fold_history.
  by rewrite !fold_left_app.
Qed.

(** C36. What [StreamBuilder] writes, the reader reads: for every stream whose values fit their
    fields and whose headers and history objects are linked, [open] recovers the manifest,
    [next_record] returns exactly the records written, in order, and then [None] at the end of
    the input. *)
Theorem stream_roundtrip (m : Manifest) (bs : list SnapshotRecord) (hs : list HistoryObject)
    (ss : list SnapshotRecord) (n : nat) :
  manifest_fits m ->
  Forall (fun r => section_of r = SECTION_BLOCKS) bs ->
  Forall (fun r => section_of r = SECTION_STATE) ss ->
  Forall record_fits (bs ++ map History hs ++ ss) ->
  valid_from (m_block m) None None (bs ++ map History hs ++ ss) ->
  (length (bs ++ map History hs ++ ss) < n)%nat ->
  exists s0 s, open (build m bs hs ss) = Ok s0 /\ manifest s0 = m /\
    read_records n s0 = Ok (bs ++ map History hs ++ ss, s) /\
    inner s = [] /\ finished s = true /\ next_record s = Ok (None, s).
Proof.
  intros Hm Hbs Hss Hfit Hv Hn.
  assert (Hopen : exists s0, open (build m bs hs ss) = Ok s0 /\ manifest s0 = m).
  { rewrite build_bytes, open_new by done. by eexists. }
  destruct Hopen as (s0 & Hopen & Hman).
  exists s0, (exhausted m (bs ++ map History hs ++ ss)). do 2 (split; [done|]). split; [|done].
  replace n with (length bs + (length (map History hs) + (length ss + S (n -
    length (bs ++ map History hs ++ ss) - 1))))%nat by (rewrite !length_app in *; lia).
  apply read_records_build; try done. rewrite <- Hopen. f_equal.
  rewrite build_bytes at 1. rewrite drop_app_length. symmetry. apply build_bytes.
Qed.

(** C9. The reader accepts only linked streams: among the records it returns, the blocks come
    first, then the history, then the state; each header hashes to its hash, is the successor of
    the header before it and names its hash as parent; history objects ascend and start from the
    root the previous one ended at; code blobs match their hashes; none is above the convert
    point; and when [check_history_meets_state] passes, the history read ends at the convert
    point's block and state root. *)
Theorem accepted_stream_linked (input : bytes) (n : nat) (s0 s : SnapshotStream)
    (rs : list SnapshotRecord) :
  open input = Ok s0 -> m_block (manifest s0) < U64_MAX -> read_records n s0 = Ok (rs, s) ->
  StronglySorted section_le rs /\
  valid_from (m_block (manifest s0)) None None rs /\
  last_block_number s = fst <$> fold_block None rs /\
  (check_history_meets_state s = Ok tt <->
   fold_history None rs = Some (m_block (manifest s0), m_root (manifest s0))).
Proof.
  intros Hopen Hm Hread.
  assert (H0 : held s0 = None /\ last_block s0 = None /\ last_history s0 = None).
  { unfold open in Hopen. ok_inv. if_inv Hopen. ok_inv. if_inv Hopen. ok_inv. by subst s0. }
  destruct H0 as (Hh & Hlb & Hlh).
  apply read_records_valid in Hread as (Hv & Hs & _ & Em & _ & Elb & Elh); [|done| |done].
  2: { unfold below_top. by rewrite Hlb. }
  rewrite Hlb, Hlh in *. split_and!; [done|done| |].
  - unfold last_block_number. by rewrite Elb.
  - unfold check_history_meets_state. rewrite Elh, Em.
    destruct (fold_history None rs) as [[b p]|]; [|by split].
    destruct (Z.eqb_spec b (m_block (manifest s0))), (Z.eqb_spec p (m_root (manifest s0)));
      cbn [negb]; split; (done || congruence).
Qed.

End Valid.

(** ** RLP items *)

Lemma be_usize_decode (l : bytes) : (length l <= 8)%nat -> be_usize l = be_decode l.
Proof.
  induction l as [|b l IH] using rev_ind; intros Hl; [done|].
  rewrite length_app in Hl. cbn [length] in Hl. unfold be_usize. rewrite fold_left_app.
  cbn [fold_left]. change (fold_left _ l 0) with (be_usize l). rewrite IH, be_decode_app by lia.
  pose proof (be_decode_bound l) as Hb. pose proof (b2z_bound b).
  assert (be_decode l < 256 ^ 7).
  { eapply Z.lt_le_trans; [apply Hb|]. apply Z.pow_le_mono_r; lia. }
  rewrite wrap64_small, Z.lor_comm, lor_shiftl_add; [|lia|lia|].
  - rewrite (be_decode_cons b []). cbn [length]. change (256 ^ Z.of_nat 1) with 256.
    change (be_decode []) with 0. change (256 ^ Z.of_nat 0) with 1. change (2 ^ 8) with 256. lia.
  - rewrite Z.shiftl_mul_pow2 by lia. change (2 ^ 8) with 256. split; lia.
Qed.

Definition item_header (is_list : bool) (payload : bytes) : bytes :=
  Reference.header_encode {| rlp_list := is_list; rlp_payload_length := Z.of_nat (length payload) |}.

(** The extent the code computes from an encoded header. *)
Lemma item_extent (is_list : bool) (payload rest : bytes) :
  Z.of_nat (length payload) < 2 ^ 63 ->
  exists prefix tl, item_header is_list payload = prefix :: tl /\
    (0xc0 <=? b2z prefix) = is_list /\
    (length (prefix :: tl) <= 9)%nat /\
    rlp_extent prefix (item_header is_list payload ++ payload ++ rest)
      = Ok (Z.of_nat (length (prefix :: tl)), Z.of_nat (length payload)).
Proof.
  intros Hn. set (n := Z.of_nat (length payload)) in *. unfold item_header, Reference.header_encode.
  cbn [rlp_payload_length rlp_list]. fold n. destruct (Z.ltb_spec n 56).
  - eexists _, []. split; [reflexivity|]. cbn [length]. unfold rlp_extent.
    rewrite b2z_z2b, Z.mod_small by (destruct is_list; lia).
    destruct is_list; (split; [lia|]); (split; [lia|]).
    + rewrite !(proj2 (Z.leb_gt (192 + n) _)) by lia. rewrite (proj2 (Z.leb_le (192 + n) _)) by lia.
      repeat f_equal. lia.
    + rewrite (proj2 (Z.leb_gt (128 + n) _)) by lia. rewrite (proj2 (Z.leb_le (128 + n) _)) by lia.
      repeat f_equal. lia.
  - pose proof (Reference.be_min_length n ltac:(lia)) as Hl.
    pose proof (Reference.be_min_decode n ltac:(lia)) as Hd. set (l := Reference.be_min n) in *.
    eexists _, l. split; [reflexivity|]. cbn [length app]. unfold rlp_extent, get_usize.
    rewrite b2z_z2b, Z.mod_small by (destruct is_list; lia).
    assert (Hget : forall p, take (Z.to_nat (1 + Z.of_nat (length l) - 1))
                     (drop (Z.to_nat 1) (p :: l ++ payload ++ rest)) = l).
    { intros p. replace (Z.to_nat (1 + Z.of_nat (length l) - 1)) with (length l) by lia.
      cbn [Z.to_nat Pos.to_nat Pos.iter_op drop]. apply take_app_length. }
    destruct is_list; (split; [lia|]); (split; [lia|]).
    + rewrite !(proj2 (Z.leb_gt (247 + Z.of_nat (length l)) _)) by lia.
      replace (247 + Z.of_nat (length l) - 247) with (Z.of_nat (length l)) by lia.
      rewrite Hget. cbn [length]. rewrite length_app.
      rewrite (proj2 (andb_true_iff _ _)) by (split; apply Z.leb_le; lia).
      cbn [ok_or rbind]. rewrite be_usize_decode, Hd by lia. repeat f_equal. lia.
    + rewrite !(proj2 (Z.leb_gt (183 + Z.of_nat (length l)) _)) by lia.
      rewrite (proj2 (Z.leb_le (183 + Z.of_nat (length l)) _)) by lia.
      replace (183 + Z.of_nat (length l) - 183) with (Z.of_nat (length l)) by lia.
      rewrite Hget. cbn [length]. rewrite length_app.
      rewrite (proj2 (andb_true_iff _ _)) by (split; apply Z.leb_le; lia).
      cbn [ok_or rbind]. rewrite be_usize_decode, Hd by lia. repeat f_equal. lia.
Qed.

Lemma rlp_split_item (is_list : bool) (payload rest : bytes) :
  Z.of_nat (length payload) < 2 ^ 63 ->
  rlp_split (item_header is_list payload ++ payload ++ rest) is_list = Ok (payload, rest).
Proof.
  intros Hn. destruct (item_extent is_list payload rest Hn) as (p & tl & Hh & Hk & Hl & He).
  rewrite Hh in *. set (hdr := p :: tl) in *. unfold rlp_split.
  change (hdr ++ payload ++ rest) with (p :: tl ++ payload ++ rest) at 1.
  cbv iota beta. rewrite He. cbn [rbind]. rewrite Hk, Bool.eqb_reflx. cbn [negb].
  rewrite wrap64_small by (unfold is_u64; lia). unfold get_usize.
  rewrite (proj2 (andb_true_iff _ _)) by (split; apply Z.leb_le; rewrite ?length_app; lia).
  cbn [ok_or rbind].
  replace (Z.to_nat (Z.of_nat (length hdr) + Z.of_nat (length payload)
             - Z.of_nat (length hdr))) with (length payload) by lia.
  replace (Z.to_nat (Z.of_nat (length hdr) + Z.of_nat (length payload)))
    with (length (hdr ++ payload)) by (rewrite length_app; lia).
  rewrite Nat2Z.id, drop_app_length, take_app_length. by rewrite app_assoc, drop_app_length.
Qed.

Lemma rlp_split_string (data rest : bytes) :
  Z.of_nat (length data) < 2 ^ 63 ->
  rlp_split (Reference.encode_bytes data ++ rest) false = Ok (data, rest).
Proof.
  intros Hn. unfold Reference.encode_bytes. destruct (single_low data) eqn:E.
  - destruct data as [|b [|? ?]]; try done. cbn in E. apply Z.ltb_lt in E. pose proof (b2z_bound b).
    cbn [app rlp_split]. unfold rlp_extent. rewrite (proj2 (Z.leb_le (b2z b) _)) by lia. cbn [rbind].
    rewrite (proj2 (Z.leb_gt _ (b2z b))) by lia. cbn. unfold get_usize. cbn [length].
    rewrite (proj2 (andb_true_iff _ _)) by (split; apply Z.leb_le; vm_compute (wrap64 _); lia). done.
  - rewrite <- app_assoc. by apply (rlp_split_item false).
Qed.

(** The walker always moves forward. *)
Lemma rlp_extent_pos (prefix : u8) (blob : bytes) (header len : Z) :
  rlp_extent prefix blob = Ok (header, len) -> 0 <= header /\ (header = 0 -> len = 1).
Proof.
  unfold rlp_extent. intros H. pose proof (b2z_bound prefix). if_inv H; ok_inv; simplify_eq; try lia.
  all: apply Z.leb_gt in C, C0; try apply Z.leb_gt in C1; try apply Z.leb_gt in C2; lia.
Qed.

Lemma rlp_split_progress (blob payload next : bytes) (want_list : bool) :
  rlp_split blob want_list = Ok (payload, next) -> (length next < length blob)%nat.
Proof.
  unfold rlp_split. destruct blob as [|p blob]; [done|]. set (b := p :: blob). intros H. ok_inv.
  if_inv H. ok_inv. simplify_eq. apply rlp_extent_pos in E as [Hz Hl]. unfold get_usize in E0.
  if_inv E0. apply andb_prop in C0 as [C0%Z.leb_le C1%Z.leb_le]. rewrite length_drop.
  assert (Hpos : 0 < wrap64 (z + z0)).
  { destruct (Z.eq_dec z 0) as [-> |]; [|lia]. rewrite Hl by done. reflexivity. }
  assert (0 < length b)%nat by (subst b; cbn [length]; lia). lia.
Qed.

Lemma transaction_leaves_enough (fuel : nat) (cursor : bytes) (acc : list bytes) :
  (length cursor < fuel)%nat -> transaction_leaves fuel cursor acc <> None.
Proof.
  revert cursor acc. induction fuel as [|fuel IH]; intros cursor acc Hf; [lia|].
  cbn [transaction_leaves]. destruct cursor as [|b cursor]; [done|].
  destruct (rlp_split _ _) as [[payload next]|e] eqn:E; [|done].
  apply IH. apply rlp_split_progress in E. lia.
Qed.

(** A transaction in a block body: a legacy one is an RLP list, a typed one an RLP string around
    its envelope; and the leaf it contributes to the transactions trie. *)
Inductive BodyTransaction :=
| LegacyTransaction (fields : bytes)
| TypedTransaction (envelope : bytes).

Definition rlp_list_of (payload : bytes) : bytes := item_header true payload ++ payload.

Definition tx_item (t : BodyTransaction) : bytes :=
  match t with
  | LegacyTransaction fields => rlp_list_of fields
  | TypedTransaction envelope => Reference.encode_bytes envelope
  end.

Definition tx_leaf (t : BodyTransaction) : bytes :=
  match t with
  | LegacyTransaction fields => rlp_list_of fields
  | TypedTransaction envelope => envelope
  end.

Lemma encode_bytes_string (data rest : bytes) :
  Z.of_nat (length data) < 2 ^ 63 ->
  exists b tl, Reference.encode_bytes data ++ rest = b :: tl /\ (0xc0 <=? b2z b) = false.
Proof.
  intros Hn. pose proof (rlp_split_string data rest Hn) as Hs. unfold rlp_split in Hs.
  destruct (Reference.encode_bytes data ++ rest) as [|b tl]; [done|]. exists b, tl. split; [done|].
  apply rbind_Ok in Hs as ([h l] & _ & Hs). by destruct (0xc0 <=? b2z b).
Qed.

Lemma encode_bytes_length (data : bytes) : (length data <= length (Reference.encode_bytes data))%nat.
Proof. unfold Reference.encode_bytes. destruct (single_low data); rewrite ?length_app; lia. Qed.

Lemma transaction_leaves_items (txs : list BodyTransaction) (fuel : nat) (acc : list bytes) :
  Z.of_nat (length (concat (map tx_item txs))) < 2 ^ 63 -> (length txs < fuel)%nat ->
  transaction_leaves fuel (concat (map tx_item txs)) acc = Some (Ok (acc ++ map tx_leaf txs)).
Proof.
  revert fuel acc. induction txs as [|t txs IH]; intros fuel acc Hn Hf;
    destruct fuel as [|fuel]; cbn [length] in Hf; try lia; cbn [map concat].
  { by rewrite app_nil_r. }
  cbn [map concat] in Hn. rewrite length_app in Hn. cbn [transaction_leaves].
  set (rest := concat (map tx_item txs)) in *.
  assert (Hstep : exists b tl payload, tx_item t ++ rest = b :: tl /\
    rlp_split (tx_item t ++ rest) (0xc0 <=? b2z b) = Ok (payload, rest) /\
    (if 0xc0 <=? b2z b then take (length (tx_item t ++ rest) - length rest) (tx_item t ++ rest)
     else payload) = tx_leaf t).
  { destruct t as [fields|envelope]; cbn [tx_item tx_leaf] in *.
    - unfold rlp_list_of in *. rewrite length_app in Hn. rewrite <- app_assoc.
      destruct (item_extent true fields rest ltac:(lia)) as (p & tl & Hh & Hk & _).
      exists p, (tl ++ fields ++ rest), fields. rewrite Hk, rlp_split_item by lia.
      split; [by rewrite Hh|]. split; [done|].
      replace (_ - _)%nat with (length (item_header true fields ++ fields))
        by (rewrite !length_app; lia).
      by rewrite app_assoc, take_app_length.
    - pose proof (encode_bytes_length envelope).
      destruct (encode_bytes_string envelope rest ltac:(lia)) as (b & tl & Hb & Hk).
      exists b, tl, envelope. by rewrite Hk, rlp_split_string by lia. }
  destruct Hstep as (b & tl & payload & Hc & Hs & Hleaf). rewrite Hc in *. rewrite Hs.
  cbv zeta. rewrite Hleaf, IH by lia. by rewrite <- app_assoc.
Qed.

(** Each item takes a byte at least. *)
Lemma items_length (txs : list BodyTransaction) :
  (length txs <= length (concat (map tx_item txs)))%nat.
Proof.
  induction txs as [|t txs IH]; [done|]. cbn [map concat length]. rewrite length_app.
  assert (0 < length (tx_item t))%nat; [|lia].
  destruct t as [f|e]; cbn [tx_item].
  - unfold rlp_list_of, item_header, Reference.header_encode. rewrite length_app.
    case_match; cbn [length]; lia.
  - unfold Reference.encode_bytes. destruct (single_low e) eqn:E; [by destruct e as [|? []]; cbn; lia || done|].
    rewrite length_app. unfold Reference.header_encode. case_match; cbn [length]; lia.
Qed.

(** [transactions_root] computes the trie root of exactly the consensus encodings of the
    body's transactions, in order: the whole RLP list of a legacy transaction and the bare
    envelope of a typed one, whatever follows the transactions in the body; and on every input
    it returns, with an error or a root. *)
Theorem transactions_root_leaves {TR : OrderedTrie} (txs : list BodyTransaction) (tail : bytes) :
  Z.of_nat (length (rlp_list_of (concat (map tx_item txs)) ++ tail)) < 2 ^ 63 ->
  transactions_root (rlp_list_of (rlp_list_of (concat (map tx_item txs)) ++ tail))
    = Some (Ok (ordered_trie_root (map tx_leaf txs))) /\
  (forall body, transactions_root body <> None).
Proof.
  intros Hn. split.
  - unfold transactions_root. set (body := rlp_list_of _ ++ tail) in *.
    unfold rlp_list_of at 1. rewrite <- (app_nil_r body) at 2. rewrite rlp_split_item by done.
    unfold body at 1, rlp_list_of at 1. rewrite <- app_assoc.
    assert (Hl : Z.of_nat (length (concat (map tx_item txs))) < 2 ^ 63).
    { unfold body, rlp_list_of in Hn. rewrite !length_app in Hn. lia. }
    rewrite rlp_split_item by done. pose proof (items_length txs).
    by rewrite transaction_leaves_items by lia.
  - intros body. unfold transactions_root. destruct (rlp_split body true) as [[b [|? ?]]|]; try done.
    destruct (rlp_split b true) as [[txs' ?]|]; [|done].
    pose proof (transaction_leaves_enough (S (length txs')) txs' [] ltac:(lia)).
    by destruct (transaction_leaves _ _ _) as [[]|].
Qed.

(** ** Malformed input the reader does not report *)

(** A tenth varint byte above one encodes a value beyond [u64]: its high bits are dropped, where
    the reader means to report the overflow. *)
Theorem read_uvarint_drops_overflow (b : u8) (rest : bytes) :
  b2z b < 128 ->
  read_uvarint (replicate 9 x80 ++ b :: rest) = Ok ((b2z b mod 2) * 2 ^ 63, rest).
Proof.
  intros Hb. unfold read_uvarint. cbn [replicate app].
  do 9 (cbn [read_uvarint_loop]; unfold checked_shl at 1; cbn -[b2z read_uvarint_loop wrap64 Z.land Z.lor];
    change (Z.land (b2z x80) 127) with 0; change (Z.land (b2z x80) 128) with 128;
    rewrite Z.shiftl_0_l; change (wrap64 0) with 0; cbn -[read_uvarint_loop b2z]).
  by destruct b.
Qed.

(** A code hash that is neither empty nor 32 bytes long panics. *)
Theorem short_code_hash_panics (c : bytes) :
  (0 < length c <= 255)%nat -> length c <> 32%nat -> code_hash_of c = Err Panic.
Proof.
  intros Hc H32. unfold code_hash_of. destruct c as [|b c]; [cbn in Hc; lia|].
  destruct (Nat.eqb_spec (length (b :: c)) 32); [lia|done].
Qed.

(** ** Witnesses *)

#[local] Existing Instance Reference.keccak.

Definition sample_header_rlp (parent : Z) : bytes :=
  rlp_list_of (Reference.encode_bytes (be_encode 32 parent) ++ Reference.encode_bytes [x05]).

Definition sample_manifest : Manifest :=
  {| m_block := 301; m_root := 77; m_state_id := 9; m_hash := Reference.digest (sample_header_rlp 5);
     m_resume := Some {| rp_l1_block := 1000; rp_delayed_count := 3; rp_l2_block := 300 |} |}.

Definition sample_blocks : list SnapshotRecord :=
  let first := sample_header_rlp 5 in
  let second := sample_header_rlp (Reference.digest first) in
  [Header 300 (Reference.digest first) first; Body 300 [xc0]; Receipts 300 [xc0];
   Header 301 (Reference.digest second) second].

Definition sample_history : list HistoryObject :=
  [{| ho_state_id := 8; ho_block := 300; ho_parent_root := 60; ho_post_root := 61;
      ho_accounts := [] |};
   {| ho_state_id := 9; ho_block := 301; ho_parent_root := 61; ho_post_root := 77;
      ho_accounts := [{| ha_address := 4; ha_previous := Some (1, 1000, Some 12); ha_storage := [(1, 2)] |};
                      {| ha_address := 5; ha_previous := None; ha_storage := [] |}] |}].

Definition sample_state : list SnapshotRecord :=
  [Account 3 1 (2 ^ 70) None; Storage 1 300; Code (Reference.digest [x60; x00]) [x60; x00]].

Definition sample_records : list SnapshotRecord :=
  sample_blocks ++ map History sample_history ++ sample_state.

Lemma sample_records_fit : Forall record_fits sample_records.
Proof.
  unfold sample_records, sample_blocks, sample_state, sample_history. cbn [map app].
  repeat constructor; cbn; try done; try (by vm_compute; split).
Qed.

Lemma sample_records_valid : valid_from 301 None None sample_records.
Proof.
  unfold sample_records, sample_blocks, sample_state, sample_history. cbn [map app valid_from].
  repeat split; try (by vm_compute); try (by eexists; split; [vm_compute; reflexivity|done]).
Qed.

Lemma stream_roundtrip_witness :
  exists s0 s, open (build sample_manifest sample_blocks sample_history sample_state) = Ok s0 /\
    manifest s0 = sample_manifest /\ read_records 10 s0 = Ok (sample_records, s) /\
    inner s = [] /\ finished s = true /\ next_record s = Ok (None, s).
Proof.
  apply (stream_roundtrip sample_manifest sample_blocks sample_history sample_state 10).
  - by vm_compute; repeat split.
  - repeat constructor.
  - repeat constructor.
  - exact sample_records_fit.
  - exact sample_records_valid.
  - cbn. lia.
Defined.

Definition sample_stream : bytes := build sample_manifest sample_blocks sample_history sample_state.

Definition ok_default {E A : Type} (d : A) (r : result E A) : A :=
  match r with Ok a => a | Err _ => d end.

Definition sample_opened : SnapshotStream :=
  ok_default {| inner := []; manifest := sample_manifest; section := xff; last_block := None;
                last_history := None; held := None; finished := true |} (open sample_stream).

Definition sample_drained : SnapshotStream :=
  snd (ok_default ([], sample_opened) (read_records 10 sample_opened)).

Lemma accepted_stream_linked_witness :
  StronglySorted section_le sample_records /\
  valid_from (m_block (manifest sample_opened)) None None sample_records /\
  last_block_number sample_drained = Some 301 /\
  (check_history_meets_state sample_drained = Ok tt <->
   fold_history None sample_records
     = Some (m_block (manifest sample_opened), m_root (manifest sample_opened))).
Proof.
  change (Some 301) with (fst <$> fold_block None sample_records).
  apply (accepted_stream_linked sample_stream 10 sample_opened sample_drained sample_records).
  - vm_compute. reflexivity.
  - by vm_compute.
  - vm_compute. reflexivity.
Defined.

#[export] Instance sample_trie : OrderedTrie := {|
  ordered_trie_root leaves := Reference.digest (concat leaves)
|}.

Lemma transactions_root_leaves_witness :
  transactions_root (rlp_list_of (rlp_list_of (tx_item (LegacyTransaction [x01; x02]) ++
      tx_item (TypedTransaction (x02 :: replicate 60 xcc))) ++ [xc0]))
    = Some (Ok (ordered_trie_root [[xc2; x01; x02]; x02 :: replicate 60 xcc])).
Proof.
  refine (proj1 (transactions_root_leaves
    [LegacyTransaction [x01; x02]; TypedTransaction (x02 :: replicate 60 xcc)] [xc0] _)).
  by vm_compute.
Defined.
