(* ===== verification/StorageV2.v ===== *)
(** * Storage V2 persistence batches

    [crates/arb-reth-engine/src/storage_v2.rs]: before a batch of blocks is persisted, the plain keys
    of the slots that pre-ArbOS-20 blocks touched are recorded, and the reverts of accounts whose
    storage a block wiped are completed with every slot they had, so that an unwind can restore it.
    The database, the preimage sidecar and the header codec are inputs; metrics are left out. *)

From Stdlib Require Import Strings.Byte Strings.String.
From stdpp Require Import base list numbers option strings gmap sorting.
From S2P Require Import Prelude External.

(** ** Blocks *)

Inductive RevertToSlot := RevertTo (value : Z) | Destroyed.

#[export] Instance RevertToSlot_eq_dec : EqDecision RevertToSlot.
Proof. solve_decision. Defined.

(** [AccountRevert]: plain slots to what a revert restores. *)
Record AccountRevert := { wipe_storage : bool; rv_storage : gmap Z RevertToSlot }.

Record HashedStorageSorted := { wiped : bool; storage_slots : list (Z * Z) }.

(** [HashedPostStateSorted]: accounts (removed when [None]) and storages by hashed address. *)
Record HashedPostState := { hp_accounts : list (Z * option Z); hp_storages : gmap Z HashedStorageSorted }.

(** A header's format, and what of it decides about legacy semantics. *)
Class ArbHeaders := {
  Header : Type;
  h_number : Header -> Z;
  h_hash : Header -> Z;
  h_parent_hash : Header -> Z;
  (** [ArbHeaderInfo::decode_header]: [is_arbitrum] and the format version. *)
  decode_header : Header -> option (bool * Z);
  (** [ArbSpecId::from_arbos_version(v).is_enabled_in(ArbSpecId::ARBOS_20)] *)
  arbos_20 : Z -> bool
}.

Record ExecutedBlock {AH : ArbHeaders} := {
  eb_header : Header;
  (** The plain slots of each account of the bundle state. *)
  eb_slots : list (list Z);
  eb_reverts : list (list (Z * AccountRevert));
  eb_hashed : HashedPostState
}.

Record BlockNumHash := { bn_number : Z; bn_hash : Z }.

Record PersistenceResult := { last_block : BlockNumHash; last_state_trie_block : BlockNumHash }.

Record PersistenceFrontiers := {
  pf_last_block : option BlockNumHash;
  pf_last_state_trie_block : option BlockNumHash
}.

Definition frontiers_default : PersistenceFrontiers := {| pf_last_block := None; pf_last_state_trie_block := None |}.

Definition frontiers_update (result : PersistenceResult) : PersistenceFrontiers :=
  {| pf_last_block := Some (last_block result); pf_last_state_trie_block := Some (last_state_trie_block result) |}.

Definition state_trie_parent (self : PersistenceFrontiers) (prev_db_tip prev_partial_state_trie : Z) : result string Z :=
  let? last := ok_or "persistence frontier cache is incomplete: missing database tip"%string (pf_last_block self) in
  let? trie := ok_or "persistence frontier cache is incomplete: missing state/trie tip"%string
                 (pf_last_state_trie_block self) in
  if negb ((bn_number last =? prev_db_tip) && (bn_number trie =? prev_partial_state_trie)) then
    Err "persistence input frontiers do not match confirmed frontiers"%string
  else Ok (bn_hash trie).

(** [SaveBlocksInput]: [si_blocks] are the state/trie blocks followed by the masking ones. *)
Record SaveBlocksInput {AH : ArbHeaders} := {
  si_blocks : list ExecutedBlock;
  si_prev_db_tip : Z;
  si_prev_partial_state_trie : Z;
  si_new_db_tip : Z;
  si_new_partial_state_trie : Z
}.

(** A read-only provider: the durable tip, the [Finish] checkpoint with its partial state/trie tip,
    and header hashes. *)
Record DurableProvider := {
  dp_last_block_number : result string Z;
  dp_finish : result string (option (Z * option Z));
  dp_sealed_header : Z -> result string (option Z)
}.

Section Persistence.
Context {KC : Keccak} {AH : ArbHeaders}.

Definition hash_slot (plain : Z) : Z := keccak256 (be_encode 32 plain).
Definition hash_address (address : Z) : Z := keccak256 (be_encode 20 address).

(** ** Where a batch starts *)

Definition read_durable_persistence_frontier (provider : DurableProvider) (prev_db_tip prev_partial_state_trie : Z)
    : result string Z :=
  let? durable_tip := dp_last_block_number provider in
  if negb (durable_tip =? prev_db_tip) then Err "persistence input database tip does not match durable tip"%string
  else
    let? checkpoint := dp_finish provider in
    let '(db_tip, trie_tip) :=
      match checkpoint with
      | Some (block_number, partial) => (block_number, default block_number partial)
      | None => (0, 0)
      end in
    if negb ((db_tip =? prev_db_tip) && (trie_tip =? prev_partial_state_trie)) then
      Err "persistence input frontiers do not match Finish checkpoint"%string
    else
      let? header := dp_sealed_header provider prev_partial_state_trie in
      ok_or "missing state/trie frontier header"%string header.

(** Two attempts; each opens the provider afresh. *)
Definition read_bootstrap_persistence_frontier (attempts : nat -> result string DurableProvider)
    (prev_db_tip prev_partial_state_trie : Z) : result string Z :=
  let attempt n := let? provider := attempts n in
                   read_durable_persistence_frontier provider prev_db_tip prev_partial_state_trie in
  match attempt 1%nat with
  | Ok parent => Ok parent
  | Err _ => attempt 2%nat
  end.

Fixpoint validate_blocks (blocks : list ExecutedBlock) (expected_number expected_parent : Z) : result string unit :=
  match blocks with
  | [] => Ok tt
  | block :: blocks =>
      if negb (h_number (eb_header block) =? expected_number) then
        Err "persistence batch starts or jumps at another block"%string
      else if negb (h_parent_hash (eb_header block) =? expected_parent) then
        Err "persistence batch block has another parent"%string
      else
        let? next := ok_or "persistence block number overflow"%string (checked_add expected_number 1) in
        validate_blocks blocks next (h_hash (eb_header block))
  end.

Definition validate_persistence_blocks (blocks : list ExecutedBlock) (prev_partial_state_trie expected_parent : Z)
    : result string unit :=
  let? first := ok_or "durable block number overflow"%string (checked_add prev_partial_state_trie 1) in
  validate_blocks blocks first expected_parent.

Definition validate_persistence_batch (attempts : nat -> result string DurableProvider)
    (frontiers : PersistenceFrontiers) (blocks : list ExecutedBlock) (prev_db_tip prev_partial_state_trie : Z)
    : result string unit :=
  let? expected_parent :=
    match pf_last_state_trie_block frontiers with
    | Some _ => state_trie_parent frontiers prev_db_tip prev_partial_state_trie
    | None => read_bootstrap_persistence_frontier attempts prev_db_tip prev_partial_state_trie
    end in
  validate_persistence_blocks blocks prev_partial_state_trie expected_parent.

(** ** Legacy blocks and their preimages *)

Fixpoint legacy_flags (parent : Header) (blocks : list ExecutedBlock) : result string (list bool) :=
  match blocks with
  | [] => Ok []
  | block :: blocks =>
      let? '(is_arbitrum, version) := ok_or "decode ArbOS parent header"%string (decode_header parent) in
      if negb is_arbitrum then Err "parent header is not an Arbitrum header"%string
      else
        let? rest := legacy_flags (eb_header block) blocks in
        Ok (negb (arbos_20 version) :: rest)
  end.

(** [blocks[0]] of an empty batch panics. *)
Definition legacy_block_flags (header_by_number : Z -> result string (option Header)) (blocks : list ExecutedBlock)
    : result string (list bool) :=
  match blocks with
  | [] => Err "index out of bounds"%string
  | first :: _ =>
      let first_number := h_number (eb_header first) in
      if first_number <? 1 then Err "cannot persist block zero as an executed child"%string
      else
        let? parent := header_by_number (first_number - 1) in
        let? parent := ok_or "missing persisted parent header"%string parent in
        legacy_flags parent blocks
  end.

Definition push_preimage (plain_slot : Z) : Z * Z := (hash_slot plain_slot, plain_slot).

(** The plain slots a block touched or reverts. *)
Definition block_slots (block : ExecutedBlock) : list Z :=
  concat (eb_slots block) ++
  flat_map (fun transition => flat_map (fun '(_, revert) => fst <$> map_to_list (rv_storage revert)) transition)
    (eb_reverts block).

Definition collect_slot_preimages (blocks : list ExecutedBlock) (legacy : list bool) : list (Z * Z) :=
  flat_map (fun '(block, is_legacy) => if is_legacy : bool then push_preimage <$> block_slots block else [])
    (zip blocks legacy).

Definition key_le (a b : Z * Z) : Prop := fst a <= fst b.
#[export] Instance key_le_dec (a b : Z * Z) : Decision (key_le a b).
Proof. unfold key_le. apply _. Defined.

(** [windows(2)] with equal hashes and different preimages. *)
Fixpoint conflicting (entries : list (Z * Z)) : bool :=
  match entries with
  | a :: ((b :: _) as rest) => ((fst a =? fst b) && negb (snd a =? snd b)) || conflicting rest
  | _ => false
  end.

(** [dedup_by_key] *)
Fixpoint dedup_by_key (entries : list (Z * Z)) : list (Z * Z) :=
  match entries with
  | [] => []
  | a :: rest =>
      match dedup_by_key rest with
      | b :: rest' => if fst a =? fst b then a :: rest' else a :: b :: rest'
      | [] => [a]
      end
  end.

Fixpoint missing_preimages (get : Z -> result string (option Z)) (entries : list (Z * Z)) : result string (list (Z * Z)) :=
  match entries with
  | [] => Ok []
  | (hashed_slot, plain_slot) :: entries =>
      let? found := get hashed_slot in
      match found with
      | None => let? missing := missing_preimages get entries in Ok ((hashed_slot, plain_slot) :: missing)
      | Some existing =>
          if existing =? plain_slot then missing_preimages get entries
          else Err "corrupt slot preimage"%string
      end
  end.

Definition insert_preimages (entries : list (Z * Z)) (preimages : gmap Z Z) : gmap Z Z :=
  fold_left (fun m '(h, p) => <[h := p]> m) entries preimages.

(** ** Wiped accounts *)

(** [wiped_storage_addresses], of the reverts of a block. *)
Definition wiped_storage_addresses (reverts : list (list (Z * AccountRevert))) : list Z :=
  flat_map (flat_map (fun '(address, revert) => if wipe_storage revert then [address] else [])) reverts.

Definition collect_wipe_addresses (blocks : list ExecutedBlock) (legacy : list bool) : gset Z :=
  list_to_set (flat_map (fun '(block, is_legacy) =>
    if is_legacy : bool then wiped_storage_addresses (eb_reverts block) else []) (zip blocks legacy)).

Definition block_has_storage_wipe (block : ExecutedBlock) : bool :=
  negb (bool_decide (wiped_storage_addresses (eb_reverts block) = [])).

(** [TrackedStorage] by hashed address: its slots; the plain address is only asserted in debug builds. *)
Abbreviation Tracked := (gmap Z (gmap Z Z)).

(** [load_wiped_account_storage], from the table of hashed storages. *)
Definition load_wiped_account_storage (table : gmap Z (gmap Z Z)) (addresses : gset Z) : Tracked :=
  set_fold (fun address tracked =>
    <[hash_address address := default ∅ (table !! hash_address address)]> tracked) ∅ addresses.

(** What a tracked slot makes of the revert of its plain slot. *)
Definition revert_entry (value : Z) (old : option RevertToSlot) : RevertToSlot :=
  match old with
  | Some (RevertTo v) => RevertTo v
  | Some Destroyed | None => RevertTo value
  end.

Definition inject_slot (get : Z -> result string (option Z)) (storage : gmap Z RevertToSlot) (entry : Z * Z)
    : result string (gmap Z RevertToSlot) :=
  let '(hashed_slot, value) := entry in
  let? found := get hashed_slot in
  let? plain := ok_or "missing slot preimage"%string found in
  if negb (hash_slot plain =? hashed_slot) then Err "corrupt slot preimage"%string
  else Ok (<[plain := revert_entry value (storage !! plain)]> storage).

Definition inject_revert (get : Z -> result string (option Z)) (tracked : Tracked) (entry : Z * AccountRevert)
    : result string (Z * AccountRevert) :=
  let '(address, revert) := entry in
  if negb (wipe_storage revert) then Ok (address, revert)
  else
    let? slots := ok_or "storage for wiped account was not loaded"%string (tracked !! hash_address address) in
    let? storage := try_fold (inject_slot get) (map_to_list slots) (rv_storage revert) in
    Ok (address, {| wipe_storage := true; rv_storage := storage |}).

Definition inject_plain_wipe_reverts (get : Z -> result string (option Z)) (tracked : Tracked)
    (reverts : list (list (Z * AccountRevert))) : result string (list (list (Z * AccountRevert))) :=
  try_map (try_map (inject_revert get tracked)) reverts.

(** [entry(..).and_modify(wiped = true).or_insert(..)] *)
Definition mark_wiped (storages : gmap Z HashedStorageSorted) (address : Z) : gmap Z HashedStorageSorted :=
  let h := hash_address address in
  <[h := match storages !! h with
         | Some st => {| wiped := true; storage_slots := storage_slots st |}
         | None => {| wiped := true; storage_slots := [] |}
         end]> storages.

(** [mark_hashed_storage_wipes] and, on the live hashed state, [mark_live_hashed_storage_wipes]. *)
Definition mark_hashed_storage_wipes (reverts : list (list (Z * AccountRevert))) (hashed : HashedPostState)
    : HashedPostState := {|
  hp_accounts := hp_accounts hashed;
  hp_storages := fold_left mark_wiped (wiped_storage_addresses reverts) (hp_storages hashed)
|}.

(** The storage of one account over a block. *)
Definition apply_slot (slots : gmap Z Z) (entry : Z * Z) : gmap Z Z :=
  let '(hashed_slot, value) := entry in
  if value =? 0 then base.delete hashed_slot slots else <[hashed_slot := value]> slots.

Definition apply_account (updates : HashedPostState) (hashed_address : Z) (slots : gmap Z Z) : gmap Z Z :=
  let slots :=
    match hp_storages updates !! hashed_address with
    | Some storage => fold_left apply_slot (storage_slots storage) (if wiped storage then ∅ else slots)
    | None => slots
    end in
  if existsb (fun '(h, account) => (h =? hashed_address) && bool_decide (account = None)) (hp_accounts updates)
  then ∅ else slots.

(** [apply_hashed_updates]: each update touches the tracked storage of its own account. *)
Definition apply_hashed_updates (tracked : Tracked) (updates : HashedPostState) : Tracked :=
  map_imap (fun hashed_address slots => Some (apply_account updates hashed_address slots)) tracked.

(** One block of the loop. *)
Definition complete_block (get : Z -> result string (option Z)) (tracked : Tracked) (block : ExecutedBlock)
    (is_legacy : bool) : result string ExecutedBlock :=
  if is_legacy && block_has_storage_wipe block then
    let? reverts := inject_plain_wipe_reverts get tracked (eb_reverts block) in
    Ok {| eb_header := eb_header block; eb_slots := eb_slots block; eb_reverts := reverts;
          eb_hashed := mark_hashed_storage_wipes reverts (eb_hashed block) |}
  else Ok block.

(** The loop over the blocks. *)
Fixpoint complete_blocks (get : Z -> result string (option Z)) (tracked : Tracked) (blocks : list (ExecutedBlock * bool))
    : result string (list ExecutedBlock) :=
  match blocks with
  | [] => Ok []
  | (block, is_legacy) :: blocks =>
      let? block := complete_block get tracked block is_legacy in
      let? rest := complete_blocks get (apply_hashed_updates tracked (eb_hashed block)) blocks in
      Ok (block :: rest)
  end.

(** ** A batch *)

(** What preparing a batch meets: the storage settings, the provider, the sidecar ([pe_open] is [Ok]
    when it is open already) and the table. *)
Record PrepareEnv := {
  pe_use_hashed_state : result string bool;
  pe_attempts : nat -> result string DurableProvider;
  pe_header_by_number : Z -> result string (option Header);
  pe_open : result string unit;
  pe_reader : result string unit;
  (** Whether reading a key of the sidecar fails. *)
  pe_get : Z -> result string unit;
  pe_insert : result string unit;
  pe_table : result string (gmap Z (gmap Z Z))
}.

(** [SlotPreimagesReader::get] *)
Definition reader_get (env : PrepareEnv) (preimages : gmap Z Z) (hashed_slot : Z) : result string (option Z) :=
  let? _ := pe_get env hashed_slot in
  Ok (preimages !! hashed_slot).

(** Recording the preimages: the sidecar after it, and whether the batch goes on. *)
Definition record_preimages (env : PrepareEnv) (entries : list (Z * Z)) (preimages : gmap Z Z)
    : result string unit * gmap Z Z :=
  match entries with
  | [] => (Ok tt, preimages)
  | _ =>
      let sorted := merge_sort key_le entries in
      if conflicting sorted then (Err "conflicting slot preimages"%string, preimages)
      else
        match (let? _ := pe_reader env in missing_preimages (reader_get env preimages) (dedup_by_key sorted)) with
        | Err e => (Err e, preimages)
        | Ok [] => (Ok tt, preimages)
        | Ok missing =>
            match pe_insert env with
            | Err e => (Err e, preimages)
            | Ok _ => (Ok tt, insert_preimages missing preimages)
            end
        end
  end.

Definition with_blocks (input : SaveBlocksInput) (blocks : list ExecutedBlock) : SaveBlocksInput := {|
  si_blocks := blocks; si_prev_db_tip := si_prev_db_tip input;
  si_prev_partial_state_trie := si_prev_partial_state_trie input;
  si_new_db_tip := si_new_db_tip input; si_new_partial_state_trie := si_new_partial_state_trie input
|}.

(** The checks on a batch: [None] when it is persisted as it is. *)
Definition batch_flags (env : PrepareEnv) (frontiers : PersistenceFrontiers) (input : SaveBlocksInput)
    : result string (option (list bool)) :=
  let? hashed := pe_use_hashed_state env in
  if negb hashed then Ok None
  else
    let? _ := validate_persistence_batch (pe_attempts env) frontiers (si_blocks input)
                (si_prev_db_tip input) (si_prev_partial_state_trie input) in
    let? legacy := legacy_block_flags (pe_header_by_number env) (si_blocks input) in
    if existsb id legacy then Ok (Some legacy) else Ok None.

(** Completing the reverts, from the recorded preimages. *)
Definition complete_reverts (env : PrepareEnv) (preimages : gmap Z Z) (blocks : list ExecutedBlock) (legacy : list bool)
    : result string (list ExecutedBlock) :=
  let addresses := collect_wipe_addresses blocks legacy in
  if bool_decide (addresses = ∅) then Ok blocks
  else
    let? table := pe_table env in
    let? _ := pe_reader env in
    complete_blocks (reader_get env preimages) (load_wiped_account_storage table addresses) (zip blocks legacy).

Definition prepare_storage_v2_batch (env : PrepareEnv) (frontiers : PersistenceFrontiers) (input : SaveBlocksInput)
    (preimages : gmap Z Z) : result string SaveBlocksInput * gmap Z Z :=
  match batch_flags env frontiers input with
  | Err e => (Err e, preimages)
  | Ok None => (Ok input, preimages)
  | Ok (Some legacy) =>
      match pe_open env with
      | Err e => (Err e, preimages)
      | Ok _ =>
          let '(recorded, preimages) :=
            record_preimages env (collect_slot_preimages (si_blocks input) legacy) preimages in
          (let? _ := recorded in
           let? blocks := complete_reverts env preimages (si_blocks input) legacy in
           Ok (with_blocks input blocks), preimages)
      end
  end.
(** ** The persistence proxy *)

(** [PersistenceAction]: the two actions the proxy answers itself, and any other. *)
Inductive PersistenceAction :=
  | SaveBlocks (input : SaveBlocksInput)
  | RemoveBlocksAbove (block : Z)
  | OtherAction (tag : Z).

(** An action the proxy receives, with what preparing it meets, whether the delegate takes what it
    is sent and what it answers ([None]: it drops the reply channel). *)
Record ProxyEvent := {
  ev_action : PersistenceAction;
  ev_env : PrepareEnv;
  ev_sent : bool;
  ev_answer : option PersistenceResult
}.

Record ProxyState := { px_frontiers : PersistenceFrontiers; px_preimages : gmap Z Z }.

(** What the delegate takes, with its answer, and whether the loop goes on. *)
Definition delegate_and_confirm (st : ProxyState) (action : PersistenceAction) (ev : ProxyEvent)
    : list (PersistenceAction * option PersistenceResult) * ProxyState * bool :=
  if negb (ev_sent ev) then ([], st, false)
  else
    match ev_answer ev with
    | None => ([(action, None)], st, false)
    | Some result =>
        ([(action, Some result)],
         {| px_frontiers := frontiers_update result; px_preimages := px_preimages st |}, true)
    end.

Definition proxy_step (st : ProxyState) (ev : ProxyEvent)
    : list (PersistenceAction * option PersistenceResult) * ProxyState * bool :=
  match ev_action ev with
  | SaveBlocks input =>
      let '(prepared, preimages) := prepare_storage_v2_batch (ev_env ev) (px_frontiers st) input (px_preimages st) in
      let st := {| px_frontiers := px_frontiers st; px_preimages := preimages |} in
      match prepared with
      | Err _ => ([], st, false)
      | Ok input => delegate_and_confirm st (SaveBlocks input) ev
      end
  | RemoveBlocksAbove block => delegate_and_confirm st (RemoveBlocksAbove block) ev
  | OtherAction tag => if ev_sent ev then ([(OtherAction tag, None)], st, true) else ([], st, false)
  end.

(** The thread's loop: what reaches the delegate, in order, and the state at its end. *)
Fixpoint proxy_loop (st : ProxyState) (events : list ProxyEvent)
    : list (PersistenceAction * option PersistenceResult) * ProxyState :=
  match events with
  | [] => ([], st)
  | ev :: events =>
      let '(sent, st, continue) := proxy_step st ev in
      if continue : bool then
        let '(trace, st) := proxy_loop st events in (sent ++ trace, st)
      else (sent, st)
  end.

Definition proxy_init (preimages : gmap Z Z) : ProxyState :=
  {| px_frontiers := frontiers_default; px_preimages := preimages |}.

(** ** The recorded preimages *)

(** Entries that agree on the plain slot of every hashed slot. *)
Definition functional (entries : list (Z * Z)) : Prop :=
  forall h p q, (h, p) ∈ entries -> (h, q) ∈ entries -> p = q.

Lemma functional_sub (es fs : list (Z * Z)) : functional fs -> es ⊆ fs -> functional es.
Proof. intros Hf Hs h p q Hp Hq. eapply Hf; by apply Hs. Qed.

#[export] Instance key_le_total : Total key_le.
Proof. intros a b. unfold key_le. lia. Qed.
#[export] Instance key_le_trans : Transitive key_le.
Proof. intros a b c. unfold key_le. lia. Qed.

Lemma sorted_functional (es : list (Z * Z)) :
  StronglySorted key_le es -> conflicting es = false -> functional es.
Proof.
  induction 1 as [|[ha pa] es Hs IH Hle]; [intros _ h p q Hp; by apply elem_of_nil in Hp|].
  intros Hc.
  assert (Htail : conflicting es = false) by (destruct es; [done|]; by apply orb_false_iff in Hc as [_ ?]).
  assert (Hhead : forall q, (ha, q) ∈ es -> q = pa).
  { intros q Hq. destruct es as [|[hb pb] es]; [by apply elem_of_nil in Hq|].
    apply orb_false_iff in Hc as [Hc _]. cbn [fst snd] in Hc.
    assert (Hb : hb = ha).
    { apply List.Forall_cons_iff in Hle as [Hab _]. unfold key_le in Hab. cbn in Hab.
      apply StronglySorted_inv in Hs as [_ Hbs]. apply elem_of_cons in Hq as [[= -> _]|Hq]; [done|].
      rewrite Forall_forall in Hbs. specialize (Hbs _ Hq). unfold key_le in Hbs. cbn in Hbs. lia. }
    subst hb. rewrite Z.eqb_refl in Hc. cbn in Hc. apply negb_false_iff, Z.eqb_eq in Hc. subst pb.
    eapply (IH Htail ha); [done|left]. }
  intros h p q [?|Hp]%elem_of_cons [?|Hq]%elem_of_cons; simplify_eq; [done|..].
  - symmetry. by apply Hhead.
  - by apply Hhead.
  - by eapply IH.
Qed.

Lemma dedup_sub (es : list (Z * Z)) : dedup_by_key es ⊆ es.
Proof.
  induction es as [|a es IH]; [done|]. cbn.
  destruct (dedup_by_key es) as [|b ds]; [set_solver|]. destruct (fst a =? fst b); set_solver.
Qed.

Lemma dedup_key (es : list (Z * Z)) (h p : Z) : (h, p) ∈ es -> exists q, (h, q) ∈ dedup_by_key es.
Proof.
  induction es as [|[ha pa] es IH]; [by intros ?%elem_of_nil|]. cbn.
  intros [[= -> ->]|[q Hq]%IH]%elem_of_cons.
  - exists pa. destruct (dedup_by_key es) as [|[hb pb] ds]; [left|]. cbn. destruct (ha =? hb); left.
  - destruct (dedup_by_key es) as [|[hb pb] ds]; [by apply elem_of_nil in Hq|]. cbn.
    destruct (Z.eqb_spec ha hb) as [->|]; [|exists q; by right].
    apply elem_of_cons in Hq as [[= -> ->]|Hq]; [exists pa; left|exists q; by right].
Qed.

Lemma dedup_mem (es : list (Z * Z)) (h p : Z) : functional es -> (h, p) ∈ es -> (h, p) ∈ dedup_by_key es.
Proof.
  intros Hf Hp. destruct (dedup_key _ _ _ Hp) as [q Hq]. by rewrite (Hf h p q Hp (dedup_sub _ _ Hq)).
Qed.

Lemma insert_preimages_app (es fs : list (Z * Z)) (m : gmap Z Z) :
  insert_preimages (es ++ fs) m = insert_preimages fs (insert_preimages es m).
Proof. apply fold_left_app. Qed.

Lemma insert_preimages_other (es : list (Z * Z)) (m : gmap Z Z) (h : Z) :
  (forall p, (h, p) ∉ es) -> insert_preimages es m !! h = m !! h.
Proof.
  revert m. induction es as [|[h1 p1] es IH]; intros m Hn; [done|]. cbn.
  etrans; [apply IH; set_solver|]. apply lookup_insert_ne. intros ->. apply (Hn p1). left.
Qed.

Lemma insert_preimages_mem (es : list (Z * Z)) (m : gmap Z Z) (h p : Z) :
  functional es -> (h, p) ∈ es -> insert_preimages es m !! h = Some p.
Proof.
  induction es as [|[h1 p1] es IH] using rev_ind; intros Hf Hp; [by apply elem_of_nil in Hp|].
  rewrite insert_preimages_app. cbn. destruct (decide (h1 = h)) as [->|Hne].
  - rewrite lookup_insert_eq. f_equal. apply (Hf h); [|done]. apply elem_of_app. right. left.
  - rewrite lookup_insert_ne by done. apply IH; [eapply functional_sub; [done|set_solver]|].
    apply elem_of_app in Hp as [?|[[= ]|[]%elem_of_nil]%elem_of_cons]; [done|]. congruence.
Qed.

(** Every entry was found with its plain slot, or is missing; the missing ones are entries. *)
Lemma missing_preimages_spec (env : PrepareEnv) (m : gmap Z Z) (es missing : list (Z * Z)) :
  missing_preimages (reader_get env m) es = Ok missing ->
  missing ⊆ es /\ (forall h p, (h, p) ∈ missing -> m !! h = None) /\
  (forall h p, (h, p) ∈ es -> m !! h = Some p \/ (h, p) ∈ missing).
Proof.
  revert missing. induction es as [|[h1 p1] es IH]; intros missing; cbn; [intros [= <-]; set_solver|].
  unfold reader_get at 1. intros Hm. ok_inv. subst. destruct (m !! h1) as [q|] eqn:Hl; ok_inv.
  - destruct (Z.eqb_spec q p1) as [->|]; [|done]. destruct (IH _ Hm) as (? & ? & Hall).
    split; [set_solver|]. split; [done|]. intros h p [[= -> ->]|?]%elem_of_cons; [by left|by apply Hall].
  - subst. destruct (IH _ E) as (? & Hnone & Hall). split; [set_solver|]. split.
    + intros h p [[= -> ->]|?]%elem_of_cons; [done|by eapply Hnone].
    + intros h p [[= -> ->]|Hp]%elem_of_cons; [right; left|]. destruct (Hall _ _ Hp); [by left|right; by right].
Qed.

(** Once recorded, the sidecar maps the hash of every touched slot to that slot, keeps what it had
    and gains nothing else. *)
Lemma record_preimages_spec (env : PrepareEnv) (es : list (Z * Z)) (m m' : gmap Z Z) :
  record_preimages env es m = (Ok tt, m') ->
  (forall h p, (h, p) ∈ es -> m' !! h = Some p) /\ m ⊆ m' /\
  (forall h p, m' !! h = Some p -> m !! h = Some p \/ (h, p) ∈ es).
Proof.
  unfold record_preimages. destruct es as [|e es]; [intros [= <-]; set_solver|].
  remember (e :: es) as entries eqn:He. clear He.
  destruct (conflicting _) eqn:Hc; [done|].
  assert (Hperm : merge_sort key_le entries ≡ₚ entries) by apply merge_sort_Permutation.
  assert (Hf : functional (merge_sort key_le entries))
    by (apply sorted_functional; [apply (StronglySorted_merge_sort key_le); apply _|done]).
  destruct (rbind _ _) as [missing|] eqn:Hm; [|done]. ok_inv.
  destruct (missing_preimages_spec _ _ _ _ Hm) as (Hsub & Hnone & Hall).
  assert (Hin : forall h p, (h, p) ∈ entries -> m !! h = Some p \/ (h, p) ∈ missing).
  { intros h p Hp. apply Hall, dedup_mem; [done|]. by rewrite Hperm. }
  assert (Hmem : missing ⊆ entries).
  { intros x Hx. rewrite <- Hperm. apply dedup_sub, Hsub, Hx. }
  assert (Hfm : functional missing).
  { eapply functional_sub; [exact Hf|]. intros x Hx. apply dedup_sub, Hsub, Hx. }
  assert (Hres : forall m', m' = insert_preimages missing m ->
    (forall h p, (h, p) ∈ entries -> m' !! h = Some p) /\ m ⊆ m' /\
    (forall h p, m' !! h = Some p -> m !! h = Some p \/ (h, p) ∈ entries)).
  { intros ? ->. split_and!.
    - intros h p [Hk|Hk]%Hin; [|by apply insert_preimages_mem].
      rewrite insert_preimages_other; [done|]. intros q Hq%Hnone. congruence.
    - apply map_subseteq_spec. intros h p Hk. rewrite insert_preimages_other; [done|].
      intros q Hq%Hnone. congruence.
    - intros h p. destruct (m !! h) as [q|] eqn:Hk.
      + rewrite insert_preimages_other; [by left; congruence|]. intros r Hr%Hnone. congruence.
      + intros Hp. right. apply Hmem. revert Hp.
        destruct (decide (h ∈ missing.*1)) as [([? q] & -> & Hq)%list_elem_of_fmap|Hn].
        * cbn. rewrite (insert_preimages_mem _ _ _ _ Hfm Hq). by intros [= ->].
        * rewrite insert_preimages_other; [congruence|]. intros q Hq. apply Hn.
          apply list_elem_of_fmap. by exists (h, q). }
  destruct missing as [|x missing]; [intros [= <-]; by apply Hres|].
  destruct (pe_insert env); [|done]. intros [= <-]. by apply Hres.
Qed.
Lemma record_preimages_Err (env : PrepareEnv) (es : list (Z * Z)) (e : string) (m m' : gmap Z Z) :
  record_preimages env es m = (Err e, m') -> m' = m.
Proof.
  unfold record_preimages. destruct es; [done|]. destruct (conflicting _); [by intros [= _ <-]|].
  destruct (rbind _ _) as [[|x missing]|]; [done| |by intros [= _ <-]].
  destruct (pe_insert env); [done|by intros [= _ <-]].
Qed.

(** ** The storage a wipe loses *)

(** What reverting a slot restores: [RevertToSlot::to_previous_value]. *)
Definition to_previous_value (r : RevertToSlot) : Z :=
  match r with
  | RevertTo v => v
  | Destroyed => 0
  end.

(** The unwind of a changeset over the hashed storage: a zero removes the slot. *)
Definition unwind (reverts : gmap Z RevertToSlot) (slots : gmap Z Z) : gmap Z Z :=
  map_fold (fun plain r m => apply_slot m (hash_slot plain, to_previous_value r)) slots reverts.

Definition nonzero (v : Z) : option Z := if v =? 0 then None else Some v.

(** A storage table holds no zero slot. *)
Definition no_zero (slots : gmap Z Z) : Prop := map_Forall (fun _ v => v <> 0) slots.

Lemma apply_slot_same (slots : gmap Z Z) (h v : Z) : apply_slot slots (h, v) !! h = nonzero v.
Proof.
  unfold apply_slot, nonzero. destruct (v =? 0); [apply lookup_delete_eq|apply lookup_insert_eq].
Qed.

Lemma apply_slot_other (slots : gmap Z Z) (h h' v : Z) : h <> h' -> apply_slot slots (h, v) !! h' = slots !! h'.
Proof.
  intros. unfold apply_slot. destruct (v =? 0); [by apply lookup_delete_ne|by apply lookup_insert_ne].
Qed.

Lemma apply_slot_no_zero (slots : gmap Z Z) (e : Z * Z) : no_zero slots -> no_zero (apply_slot slots e).
Proof.
  destruct e as [h v]. intros Hz. cbn. destruct (Z.eqb_spec v 0); [by apply map_Forall_delete|].
  by apply map_Forall_insert_2.
Qed.

Lemma apply_slots_no_zero (es : list (Z * Z)) (slots : gmap Z Z) : no_zero slots -> no_zero (fold_left apply_slot es slots).
Proof. revert slots. induction es as [|e es IH]; intros slots Hz; [done|]. apply IH. by apply apply_slot_no_zero. Qed.

Lemma no_zero_empty : no_zero ∅.
Proof. apply map_Forall_empty. Qed.

Lemma apply_account_no_zero (u : HashedPostState) (h : Z) (slots : gmap Z Z) :
  no_zero slots -> no_zero (apply_account u h slots).
Proof.
  intros Hz. unfold apply_account. destruct (existsb _ _); [apply no_zero_empty|].
  destruct (hp_storages u !! h) as [st|]; [|done]. apply apply_slots_no_zero.
  destruct (wiped st); [apply no_zero_empty|done].
Qed.

(** The storage of an account after the blocks, from what it was before them. *)
Definition storage_after (blocks : list ExecutedBlock) (h : Z) (slots : gmap Z Z) : gmap Z Z :=
  fold_left (fun s b => apply_account (eb_hashed b) h s) blocks slots.

Lemma storage_after_no_zero (blocks : list ExecutedBlock) (h : Z) (slots : gmap Z Z) :
  no_zero slots -> no_zero (storage_after blocks h slots).
Proof.
  revert slots. induction blocks as [|b blocks IH]; intros slots Hz; [done|].
  apply IH. by apply apply_account_no_zero.
Qed.

(** *** Unwinding *)

Definition injective_on (reverts : gmap Z RevertToSlot) : Prop :=
  forall p q, is_Some (reverts !! p) -> is_Some (reverts !! q) -> hash_slot p = hash_slot q -> p = q.

Lemma unwind_other (reverts : gmap Z RevertToSlot) (slots : gmap Z Z) (h : Z) :
  (forall p, is_Some (reverts !! p) -> hash_slot p <> h) -> unwind reverts slots !! h = slots !! h.
Proof.
  unfold unwind. apply (map_fold_weak_ind (fun r m =>
    (forall p, is_Some (m !! p) -> hash_slot p <> h) -> r !! h = slots !! h)); [done|].
  intros p r m acc Hp IH Hn. rewrite apply_slot_other.
  - apply IH. intros q Hq. apply Hn. destruct (decide (p = q)) as [->|]; [by rewrite lookup_insert_eq|].
    by rewrite lookup_insert_ne.
  - apply Hn. by rewrite lookup_insert_eq.
Qed.

Lemma unwind_same (reverts : gmap Z RevertToSlot) (slots : gmap Z Z) (p : Z) (r : RevertToSlot) :
  injective_on reverts -> reverts !! p = Some r ->
  unwind reverts slots !! hash_slot p = nonzero (to_previous_value r).
Proof.
  unfold unwind. apply (map_fold_weak_ind (fun acc m =>
    injective_on m -> m !! p = Some r -> acc !! hash_slot p = nonzero (to_previous_value r))); [done|].
  intros q s m acc Hq IH Hinj Hp. destruct (decide (q = p)) as [->|Hne].
  - rewrite lookup_insert_eq in Hp. injection Hp as ->. apply apply_slot_same.
  - rewrite apply_slot_other; cycle 1.
    { intros Heq. apply Hne, Hinj; [by rewrite lookup_insert_eq|by rewrite Hp|done]. }
    rewrite lookup_insert_ne in Hp by done. apply IH; [|done]. intros a b Ha Hb.
    assert (Hins : forall c, is_Some (m !! c) -> is_Some (<[q := s]> m !! c)).
    { intros c Hc. rewrite lookup_insert_ne; [done|]. intros <-. rewrite Hq in Hc. by destruct Hc. }
    apply Hinj; by apply Hins.
Qed.

(** *** Injecting *)

Section inject.
Context (env : PrepareEnv) (pm : gmap Z Z).

Lemma inject_slots_spec (l : list (Z * Z)) (rv rv' : gmap Z RevertToSlot) :
  NoDup l.*1 -> try_fold (inject_slot (reader_get env pm)) l rv = Ok rv' ->
  (forall h v, (h, v) ∈ l -> exists p, pm !! h = Some p /\ hash_slot p = h) /\
  (forall p, rv' !! p = match (list_to_map l : gmap Z Z) !! hash_slot p with
                        | Some v => if decide (pm !! hash_slot p = Some p) then Some (revert_entry v (rv !! p)) else rv !! p
                        | None => rv !! p
                        end).
Proof.
  revert rv. induction l as [|[h v] l IH]; intros rv Hnd; cbn [try_fold].
  { intros [= <-]. split; [by intros ?? ?%elem_of_nil|]. intros p. by rewrite list_to_map_nil, lookup_empty. }
  cbn in Hnd. apply NoDup_cons in Hnd as [Hh Hnd]. unfold inject_slot at 1, reader_get at 1. intros Hf. ok_inv. subst. rename v2 into v1.
  destruct (Z.eqb_spec (hash_slot v1) h) as [Hv|]; cbn in E; [|discriminate]. ok_inv. subst v0.
  destruct (IH _ Hnd Hf) as [Hpm Hl]. split.
  { intros h' v' [[= -> ->]|Hin]%elem_of_cons; [by exists v1|by eapply Hpm]. }
  intros p. rewrite Hl. change (list_to_map ((h, v) :: l)) with (<[h := v]> (list_to_map l : gmap Z Z)).
  destruct (decide (h = hash_slot p)) as [Heq|Hne].
  - rewrite <- Heq, lookup_insert_eq. rewrite not_elem_of_list_to_map_1 by done.
    destruct (decide (p = v1)) as [->|Hp].
    + rewrite decide_True by done. by rewrite lookup_insert_eq.
    + rewrite decide_False by congruence. by rewrite lookup_insert_ne.
  - rewrite (lookup_insert_ne _ h) by done. rewrite lookup_insert_ne; [done|]. intros ->. congruence.
Qed.

(** A completed revert: the slots it had, and one entry for every slot of the account. *)
Lemma inject_storage_spec (slots : gmap Z Z) (rv rv' : gmap Z RevertToSlot) :
  try_fold (inject_slot (reader_get env pm)) (map_to_list slots) rv = Ok rv' ->
  (forall h v, slots !! h = Some v -> exists p, pm !! h = Some p /\ hash_slot p = h) /\
  (forall p, rv' !! p = match slots !! hash_slot p with
                        | Some v => if decide (pm !! hash_slot p = Some p) then Some (revert_entry v (rv !! p)) else rv !! p
                        | None => rv !! p
                        end).
Proof.
  intros Hf. destruct (inject_slots_spec _ _ _ (NoDup_fst_map_to_list slots) Hf) as [Hpm Hl].
  rewrite list_to_map_to_list in Hl. split; [|done]. intros h v Hv. by apply (Hpm h v), elem_of_map_to_list.
Qed.
End inject.

(** What revm promises of the revert of a wiped account, whose storage was [pre] before the block
    and is [post] after it: a value it reverts to is the slot's value before the block, and a slot
    that only exists after the block has an entry. *)
Record revert_contract (pre post : gmap Z Z) (rv : gmap Z RevertToSlot) : Prop := {
  rc_value : forall p v, rv !! p = Some (RevertTo v) -> v = default 0 (pre !! hash_slot p);
  rc_created : forall h, pre !! h = None -> is_Some (post !! h) -> exists p, hash_slot p = h /\ is_Some (rv !! p)
}.

Lemma nonzero_Some (v : Z) : v <> 0 -> nonzero v = Some v.
Proof. intros. unfold nonzero. by destruct (Z.eqb_spec v 0). Qed.

(** Unwinding a completed revert restores the storage, whatever the hash. *)
Lemma inject_restores (env : PrepareEnv) (pm pre post : gmap Z Z) (rv rv' : gmap Z RevertToSlot) :
  (forall p, is_Some (rv !! p) -> pm !! hash_slot p = Some p) -> no_zero pre -> revert_contract pre post rv ->
  try_fold (inject_slot (reader_get env pm)) (map_to_list pre) rv = Ok rv' ->
  unwind rv' post = pre.
Proof.
  intros Hrec Hz [Hval Hnew] Hf. destruct (inject_storage_spec _ _ _ _ _ Hf) as [Hpm Hl].
  assert (Hrec' : forall p, is_Some (rv' !! p) -> pm !! hash_slot p = Some p).
  { intros p. rewrite Hl. destruct (pre !! hash_slot p); [|apply Hrec]. case_decide; [done|apply Hrec]. }
  assert (Hinj : injective_on rv').
  { intros p q Hp%Hrec' Hq%Hrec' Heq. rewrite Heq in Hp. congruence. }
  apply map_eq. intros h. destruct (pre !! h) as [v|] eqn:Hpre.
  - destruct (Hpm h v Hpre) as (p & Hp & <-).
    specialize (Hl p). rewrite Hpre, decide_True in Hl by done.
    rewrite (unwind_same _ _ _ _ Hinj Hl). apply (Hz _ _) in Hpre as Hv0.
    destruct (rv !! p) as [[w|]|] eqn:Hw; cbn; [|by apply nonzero_Some..].
    rewrite (Hval p w Hw), Hpre. by apply nonzero_Some.
  - assert (Hcase : (exists p, hash_slot p = h /\ is_Some (rv' !! p)) \/ ~ (exists p, hash_slot p = h /\ is_Some (rv' !! p))).
    { destruct (pm !! h) as [p|] eqn:Hp.
      - destruct (decide (hash_slot p = h /\ is_Some (rv' !! p))) as [?|Hn]; [left; by exists p|right].
        intros (q & Hh & Hq). apply Hrec' in Hq as Hqh. apply Hn. rewrite Hh, Hp in Hqh. injection Hqh as ->. done.
      - right. intros (q & Hh & Hq%Hrec'). congruence. }
    destruct Hcase as [(p & <- & [r Hr])|Hn].
    + rewrite (unwind_same _ _ _ _ Hinj Hr). rewrite Hl, Hpre in Hr.
      destruct r as [w|]; [|done]. by rewrite (Hval p w Hr), Hpre.
    + rewrite unwind_other by (intros p ? ?; apply Hn; by exists p).
      destruct (post !! h) eqn:Hpost; [|done]. destruct (Hnew h Hpre) as (p & <- & Hp); [by eexists|].
      destruct Hn. exists p. split; [done|]. by rewrite Hl, Hpre.
Qed.
(** ** The batch *)

Lemma load_lookup (table : gmap Z (gmap Z Z)) (addresses : gset Z) (a : Z) :
  a ∈ addresses ->
  load_wiped_account_storage table addresses !! hash_address a = Some (default ∅ (table !! hash_address a)).
Proof.
  unfold load_wiped_account_storage. revert a. apply (set_fold_ind_L (fun r X => forall a, a ∈ X ->
    r !! hash_address a = Some (default ∅ (table !! hash_address a)))); [set_solver|].
  intros x X r Hx IH a [->%elem_of_singleton|Ha]%elem_of_union; [by rewrite lookup_insert_eq|].
  destruct (decide (hash_address x = hash_address a)) as [->|]; [by rewrite lookup_insert_eq|].
  rewrite lookup_insert_ne by done. by apply IH.
Qed.

(** The tracked storages after some blocks. *)
Definition tracked_after (blocks : list ExecutedBlock) (tracked : Tracked) : Tracked :=
  fold_left (fun t b => apply_hashed_updates t (eb_hashed b)) blocks tracked.

Lemma tracked_after_lookup (blocks : list ExecutedBlock) (tracked : Tracked) (h : Z) :
  tracked_after blocks tracked !! h = storage_after blocks h <$> tracked !! h.
Proof.
  revert tracked. induction blocks as [|b blocks IH]; intros tracked; [cbn; by destruct (tracked !! h)|].
  cbn. etrans; [apply IH|]. unfold apply_hashed_updates. rewrite map_lookup_imap. by destruct (tracked !! h).
Qed.

Lemma complete_blocks_lookup (get : Z -> result string (option Z)) (tracked : Tracked)
    (blocks : list (ExecutedBlock * bool)) (out : list ExecutedBlock) (i : nat) (b : ExecutedBlock) (lg : bool) :
  complete_blocks get tracked blocks = Ok out -> blocks !! i = Some (b, lg) ->
  exists b', out !! i = Some b' /\ complete_block get (tracked_after (take i out) tracked) b lg = Ok b'.
Proof.
  revert tracked out i. induction blocks as [|[b0 lg0] blocks IH]; intros tracked out i; [done|].
  cbn [complete_blocks]. intros Hc Hi. ok_inv. subst out. destruct i as [|i]; cbn in Hi.
  - injection Hi as -> ->. by exists v.
  - by apply (IH _ _ _ E0).
Qed.

Lemma complete_blocks_length (get : Z -> result string (option Z)) (tracked : Tracked)
    (blocks : list (ExecutedBlock * bool)) (out : list ExecutedBlock) :
  complete_blocks get tracked blocks = Ok out -> length out = length blocks.
Proof.
  revert tracked out. induction blocks as [|[b lg] blocks IH]; intros tracked out; cbn [complete_blocks].
  - by intros [= <-].
  - intros Hc. ok_inv. subst out. cbn. f_equal. by eapply IH.
Qed.

Lemma legacy_flags_length (parent : Header) (blocks : list ExecutedBlock) (legacy : list bool) :
  legacy_flags parent blocks = Ok legacy -> length legacy = length blocks.
Proof.
  revert parent legacy. induction blocks as [|b blocks IH]; intros parent legacy; cbn [legacy_flags].
  - by intros [= <-].
  - intros Hl. apply rbind_Ok in Hl as ([arb v] & _ & Hl). if_inv Hl. ok_inv. subst. cbn. f_equal. by eapply IH.
Qed.

Lemma legacy_block_flags_length (hbn : Z -> result string (option Header)) (blocks : list ExecutedBlock) (legacy : list bool) :
  legacy_block_flags hbn blocks = Ok legacy -> length legacy = length blocks.
Proof.
  destruct blocks as [|b blocks]; [done|]. unfold legacy_block_flags. intros Hl. if_inv Hl. ok_inv.
  by eapply legacy_flags_length.
Qed.

Lemma batch_flags_Ok (env : PrepareEnv) (fr : PersistenceFrontiers) (input : SaveBlocksInput) (legacy : list bool) :
  batch_flags env fr input = Ok (Some legacy) ->
  validate_persistence_batch (pe_attempts env) fr (si_blocks input) (si_prev_db_tip input)
    (si_prev_partial_state_trie input) = Ok tt /\
  legacy_block_flags (pe_header_by_number env) (si_blocks input) = Ok legacy.
Proof.
  unfold batch_flags. intros Hb. ok_inv. if_inv Hb. ok_inv. if_inv Hb. ok_inv. simplify_eq.
  split; [by destruct v0|done].
Qed.

(** A prepared batch of legacy blocks, taken apart. *)
Lemma prepare_Ok (env : PrepareEnv) (fr : PersistenceFrontiers) (input out : SaveBlocksInput) (legacy : list bool)
    (pm pm' : gmap Z Z) :
  prepare_storage_v2_batch env fr input pm = (Ok out, pm') -> batch_flags env fr input = Ok (Some legacy) ->
  record_preimages env (collect_slot_preimages (si_blocks input) legacy) pm = (Ok tt, pm') /\
  exists blocks, complete_reverts env pm' (si_blocks input) legacy = Ok blocks /\ out = with_blocks input blocks.
Proof.
  unfold prepare_storage_v2_batch. intros Hp Hb. rewrite Hb in Hp. destruct (pe_open env); [|done].
  destruct (record_preimages _ _ _) as [recorded m] eqn:Hr. injection Hp as Hp <-. ok_inv. subst.
  split; [by destruct v|]. by eexists.
Qed.

Lemma zip_lookup {A B : Type} (l : list A) (k : list B) (i : nat) (a : A) (b : B) :
  l !! i = Some a -> k !! i = Some b -> zip l k !! i = Some (a, b).
Proof.
  revert k i. induction l as [|x l IH]; intros [|y k] [|i]; cbn; try done; [by intros [= ->] [= ->]|apply IH].
Qed.

Lemma block_slot_recorded (blocks : list ExecutedBlock) (legacy : list bool) (i : nat) (b : ExecutedBlock) (p : Z) :
  blocks !! i = Some b -> legacy !! i = Some true -> p ∈ block_slots b ->
  (hash_slot p, p) ∈ collect_slot_preimages blocks legacy.
Proof.
  intros Hb Hl Hp. apply list_elem_of_In, in_flat_map. exists (b, true).
  split; [by apply list_elem_of_In, (list_elem_of_lookup_2 _ i), zip_lookup|].
  apply list_elem_of_In, list_elem_of_fmap. by exists p.
Qed.

Section revert.
Context (b : ExecutedBlock) (j k : nat) (transition : list (Z * AccountRevert)) (a : Z) (rv : AccountRevert).
Hypothesis Htr : eb_reverts b !! j = Some transition.
Hypothesis Hrv : transition !! k = Some (a, rv).

Lemma revert_slot (p : Z) : is_Some (rv_storage rv !! p) -> p ∈ block_slots b.
Proof.
  intros [r Hr]. apply elem_of_app. right.
  apply list_elem_of_In, in_flat_map. exists transition. split; [by eapply list_elem_of_In, list_elem_of_lookup_2|].
  apply in_flat_map. exists (a, rv). split; [by eapply list_elem_of_In, list_elem_of_lookup_2|].
  apply list_elem_of_In, list_elem_of_fmap. exists (p, r). split; [done|]. by apply elem_of_map_to_list.
Qed.

Lemma wiped_address : wipe_storage rv = true -> a ∈ wiped_storage_addresses (eb_reverts b).
Proof.
  intros Hw. apply list_elem_of_In, in_flat_map. exists transition.
  split; [by eapply list_elem_of_In, list_elem_of_lookup_2|].
  apply in_flat_map. exists (a, rv). split; [by eapply list_elem_of_In, list_elem_of_lookup_2|].
  rewrite Hw. by left.
Qed.

Lemma wiped_has_wipe : wipe_storage rv = true -> block_has_storage_wipe b = true.
Proof.
  intros Hw%wiped_address. unfold block_has_storage_wipe. apply negb_true_iff, bool_decide_eq_false.
  intros Hn. rewrite Hn in Hw. by apply elem_of_nil in Hw.
Qed.

Lemma collected_address (blocks : list ExecutedBlock) (legacy : list bool) (i : nat) :
  blocks !! i = Some b -> legacy !! i = Some true -> wipe_storage rv = true -> a ∈ collect_wipe_addresses blocks legacy.
Proof.
  intros Hb Hl Hw. apply elem_of_list_to_set, list_elem_of_In, in_flat_map. exists (b, true).
  split; [by apply list_elem_of_In, (list_elem_of_lookup_2 _ i), zip_lookup|].
  by apply list_elem_of_In, wiped_address.
Qed.

(** Where the loop leaves the revert. *)
Lemma inject_lookup (get : Z -> result string (option Z)) (tracked : Tracked) (reverts : list (list (Z * AccountRevert))) :
  inject_plain_wipe_reverts get tracked (eb_reverts b) = Ok reverts ->
  exists transition' rv', reverts !! j = Some transition' /\ transition' !! k = Some (a, rv') /\
    inject_revert get tracked (a, rv) = Ok (a, rv').
Proof.
  unfold inject_plain_wipe_reverts. rewrite try_map_Ok. intros HF.
  destruct (Forall2_lookup_l _ _ _ _ _ HF Htr) as (tr' & Htr' & HF'). rewrite try_map_Ok in HF'.
  destruct (Forall2_lookup_l _ _ _ _ _ HF' Hrv) as ([a' rv'] & Hrv' & Hi).
  assert (a' = a) as ->.
  { unfold inject_revert in Hi. if_inv Hi; ok_inv; by simplify_eq. }
  by exists tr', rv'.
Qed.
End revert.

(** C25. Unwinding restores wiped storage. When a batch is accepted, take any account whose storage a
    legacy block wipes. Its revert keeps its place in the block, and unwinding the completed revert
    from the storage after the block gives back, slot for slot, the storage before the block (the
    durable table advanced over the earlier blocks of the batch), as long as revm's own entries are
    right and the table holds no zero slot. Nothing is assumed of the hash: a collision would have
    been refused. *)
Theorem wipe_reverts_restore (env : PrepareEnv) (fr : PersistenceFrontiers) (input out : SaveBlocksInput)
    (legacy : list bool) (pm pm' : gmap Z Z) (table : gmap Z (gmap Z Z))
    (i j k : nat) (b : ExecutedBlock) (transition : list (Z * AccountRevert)) (a : Z) (rv : AccountRevert) :
  prepare_storage_v2_batch env fr input pm = (Ok out, pm') ->
  batch_flags env fr input = Ok (Some legacy) -> pe_table env = Ok table ->
  (forall slots, table !! hash_address a = Some slots -> no_zero slots) ->
  si_blocks input !! i = Some b -> legacy !! i = Some true ->
  eb_reverts b !! j = Some transition -> transition !! k = Some (a, rv) -> wipe_storage rv = true ->
  let durable := default ∅ (table !! hash_address a) in
  let pre := storage_after (take i (si_blocks out)) (hash_address a) durable in
  let post := storage_after (take (S i) (si_blocks out)) (hash_address a) durable in
  revert_contract pre post (rv_storage rv) ->
  exists b' transition' rv',
    si_blocks out !! i = Some b' /\ eb_reverts b' !! j = Some transition' /\
    transition' !! k = Some (a, rv') /\ wipe_storage rv' = true /\ unwind (rv_storage rv') post = pre.
Proof.
  intros Hp Hfl Htab Hzero Hb Hl Htr Hrv Hw durable pre post Hcon.
  destruct (prepare_Ok _ _ _ _ _ _ _ Hp Hfl) as (Hrec & blocks & Hc & ->).
  destruct (record_preimages_spec _ _ _ _ Hrec) as (Hknown & _ & _).
  pose proof (collected_address b j k transition a rv Htr Hrv _ _ _ Hb Hl Hw) as Ha.
  unfold complete_reverts in Hc. rewrite bool_decide_false in Hc by set_solver.
  rewrite Htab in Hc. cbn [rbind] in Hc. ok_inv.
  destruct (complete_blocks_lookup _ _ _ _ _ _ _ Hc (zip_lookup _ _ _ _ _ Hb Hl)) as (b' & Hb' & Hcb).
  unfold complete_block in Hcb. rewrite (wiped_has_wipe b j k transition a rv Htr Hrv Hw) in Hcb.
  cbn [andb] in Hcb. ok_inv. subst b'.
  destruct (inject_lookup b j k transition a rv Htr Hrv _ _ _ E0) as (tr' & rv' & Htr' & Hrv' & Hinj).
  eexists _, tr', rv'. split; [exact Hb'|]. split; [exact Htr'|]. split; [exact Hrv'|].
  unfold inject_revert in Hinj. rewrite Hw in Hinj. cbn [negb] in Hinj. ok_inv. simplify_eq. split; [done|].
  rewrite tracked_after_lookup, load_lookup in E1 by exact Ha. injection E1 as <-.
  cbn [rv_storage]. eapply inject_restores; [| |exact Hcon|exact E2].
  - intros p Hsp. apply Hknown. eapply block_slot_recorded; [exact Hb|exact Hl|].
    by eapply revert_slot.
  - apply storage_after_no_zero. unfold durable. destruct (table !! hash_address a) eqn:Ht; [by eapply Hzero|].
    apply no_zero_empty.
Qed.
(** ** What else a prepared batch keeps *)

(** Headers numbered on from block [number], each the child of the one before, the first of [hash]. *)
Definition linked_onto (number hash : Z) (headers : list Header) : Prop :=
  forall i h, headers !! i = Some h ->
    h_number h = number + 1 + Z.of_nat i /\
    h_parent_hash h =
      match i with
      | O => hash
      | S i' => from_option h_hash hash (headers !! i')
      end.

Lemma linked_onto_cons (number hash : Z) (h : Header) (headers : list Header) :
  h_number h = number + 1 -> h_parent_hash h = hash ->
  linked_onto (number + 1) (h_hash h) headers -> linked_onto number hash (h :: headers).
Proof.
  intros Hn Hh Hl [|i] c Hi; cbn in Hi; [injection Hi as <-; split; [lia|done]|].
  destruct (Hl i c Hi) as [Hcn Hcp]. split; [lia|]. rewrite Hcp. destruct i as [|i]; [done|]. cbn.
  destruct (headers !! i) eqn:Hlk; [done|]. exfalso.
  apply lookup_ge_None in Hlk. apply lookup_lt_Some in Hi. lia.
Qed.

Lemma validate_blocks_linked (blocks : list ExecutedBlock) (number hash : Z) :
  validate_blocks blocks (number + 1) hash = Ok tt -> linked_onto number hash (eb_header <$> blocks).
Proof.
  revert number hash. induction blocks as [|b blocks IH]; intros number hash; [done|].
  cbn [validate_blocks]. intros Hv. destruct (Z.eqb_spec (h_number (eb_header b)) (number + 1)); cbn [negb] in Hv; [|done].
  destruct (Z.eqb_spec (h_parent_hash (eb_header b)) hash); cbn [negb] in Hv; [|done]. ok_inv.
  unfold checked_add in E. if_inv E. injection E as <-. apply linked_onto_cons; [done|done|]. by apply IH.
Qed.

Lemma validate_persistence_linked (blocks : list ExecutedBlock) (number hash : Z) :
  validate_persistence_blocks blocks number hash = Ok tt -> linked_onto number hash (eb_header <$> blocks).
Proof.
  unfold validate_persistence_blocks. intros Hv. ok_inv. unfold checked_add in E. if_inv E. injection E as <-.
  by apply validate_blocks_linked.
Qed.

(** A revert, an account and a block as completion leaves them. *)
Definition same_revert (before after : Z * AccountRevert) : Prop :=
  fst after = fst before /\ wipe_storage (snd after) = wipe_storage (snd before) /\
  (wipe_storage (snd before) = false -> snd after = snd before) /\
  (forall p v, rv_storage (snd before) !! p = Some (RevertTo v) -> rv_storage (snd after) !! p = Some (RevertTo v)).

Definition completed (is_legacy : bool) (before after : ExecutedBlock) : Prop :=
  eb_header after = eb_header before /\ eb_slots after = eb_slots before /\
  (is_legacy = false -> after = before) /\
  Forall2 (Forall2 same_revert) (eb_reverts before) (eb_reverts after) /\
  hp_accounts (eb_hashed after) = hp_accounts (eb_hashed before) /\
  (forall h, default [] (storage_slots <$> hp_storages (eb_hashed after) !! h)
             = default [] (storage_slots <$> hp_storages (eb_hashed before) !! h)) /\
  (is_legacy = true -> forall a, a ∈ wiped_storage_addresses (eb_reverts before) ->
     wiped <$> hp_storages (eb_hashed after) !! hash_address a = Some true).

#[local] Instance same_revert_refl : Reflexive same_revert.
Proof. done. Qed.

Lemma inject_keeps (env : PrepareEnv) (pm slots : gmap Z Z) (rv rv' : gmap Z RevertToSlot) (p v : Z) :
  try_fold (inject_slot (reader_get env pm)) (map_to_list slots) rv = Ok rv' ->
  rv !! p = Some (RevertTo v) -> rv' !! p = Some (RevertTo v).
Proof.
  intros [_ Hl]%inject_storage_spec Hp. rewrite Hl. destruct (slots !! hash_slot p); [|done].
  case_decide; [|done]. by rewrite Hp.
Qed.

Lemma inject_same (env : PrepareEnv) (pm : gmap Z Z) (tracked : Tracked) (reverts out : list (list (Z * AccountRevert))) :
  inject_plain_wipe_reverts (reader_get env pm) tracked reverts = Ok out -> Forall2 (Forall2 same_revert) reverts out.
Proof.
  unfold inject_plain_wipe_reverts. rewrite try_map_Ok. intros HF. apply (Forall2_impl _ _ _ _ HF).
  intros tr tr'. rewrite try_map_Ok. intros HF'. apply (Forall2_impl _ _ _ _ HF'). intros [a rv] e. unfold inject_revert. destruct (wipe_storage rv) eqn:Hw; cbn [negb].
  - intros Hi. ok_inv. simplify_eq. split; [done|]. split; [cbn; by rewrite Hw|]. split; [cbn; congruence|].
    intros p v'. cbn. by eapply inject_keeps.
  - intros [= <-]. apply same_revert_refl.
Qed.

Lemma same_wiped (before after : list (list (Z * AccountRevert))) :
  Forall2 (Forall2 same_revert) before after -> wiped_storage_addresses after = wiped_storage_addresses before.
Proof.
  unfold wiped_storage_addresses. induction 1 as [|tr tr' before after HF _ IH]; [done|]. cbn. f_equal; [|exact IH].
  clear IH. induction HF as [|[a rv] [a' rv'] tr tr' (Ha & Hw & _) _ IH]; [done|]. cbn in *. subst. rewrite Hw. by f_equal.
Qed.

Lemma mark_wiped_slots (storages : gmap Z HashedStorageSorted) (a h : Z) :
  default [] (storage_slots <$> mark_wiped storages a !! h) = default [] (storage_slots <$> storages !! h).
Proof.
  unfold mark_wiped. destruct (decide (hash_address a = h)) as [<-|]; [|by rewrite lookup_insert_ne].
  rewrite lookup_insert_eq. by destruct (storages !! hash_address a).
Qed.

Lemma mark_wiped_keeps (storages : gmap Z HashedStorageSorted) (a h : Z) :
  wiped <$> storages !! h = Some true -> wiped <$> mark_wiped storages a !! h = Some true.
Proof.
  intros Hw. unfold mark_wiped. destruct (decide (hash_address a = h)) as [<-|]; [|by rewrite lookup_insert_ne].
  rewrite lookup_insert_eq. by destruct (storages !! hash_address a).
Qed.

Lemma mark_wiped_all (addresses : list Z) (storages : gmap Z HashedStorageSorted) :
  (forall h, default [] (storage_slots <$> fold_left mark_wiped addresses storages !! h)
             = default [] (storage_slots <$> storages !! h)) /\
  (forall h, wiped <$> storages !! h = Some true -> wiped <$> fold_left mark_wiped addresses storages !! h = Some true) /\
  (forall a, a ∈ addresses -> wiped <$> fold_left mark_wiped addresses storages !! hash_address a = Some true).
Proof.
  revert storages. induction addresses as [|a addresses IH]; intros storages.
  { split; [done|]. split; [done|]. by intros a ?%elem_of_nil. }
  cbn. destruct (IH (mark_wiped storages a)) as (Hs & Hk & Ha). split_and!.
  - intros h. rewrite Hs. apply mark_wiped_slots.
  - intros h Hw. apply Hk. by apply mark_wiped_keeps.
  - intros a' [->|Hin]%elem_of_cons; [|by apply Ha]. apply Hk. unfold mark_wiped. rewrite lookup_insert_eq.
    by destruct (storages !! hash_address a).
Qed.

Lemma completed_refl (lg : bool) (b : ExecutedBlock) :
  (lg = true -> wiped_storage_addresses (eb_reverts b) = []) -> completed lg b b.
Proof.
  intros Hn. split_and!; [done|done|done|reflexivity|done|done|].
  intros Hlg. rewrite (Hn Hlg). by intros a ?%elem_of_nil.
Qed.

Lemma complete_block_completed (env : PrepareEnv) (pm : gmap Z Z) (tracked : Tracked) (b b' : ExecutedBlock) (lg : bool) :
  complete_block (reader_get env pm) tracked b lg = Ok b' -> completed lg b b'.
Proof.
  unfold complete_block. destruct (lg && block_has_storage_wipe b) eqn:Hc.
  - intros Hb. ok_inv. subst b'. apply andb_true_iff in Hc as [-> _]. apply inject_same in E as Hsame.
    destruct (mark_wiped_all (wiped_storage_addresses v) (hp_storages (eb_hashed b))) as (Hs & _ & Hw).
    split_and!; [done|done|done|exact Hsame|done|exact Hs|].
    intros _ a Ha. apply Hw. by rewrite (same_wiped _ _ Hsame).
  - intros [= <-]. apply completed_refl. intros ->. cbn in Hc.
    by apply negb_false_iff, bool_decide_eq_true in Hc.
Qed.
(** Where the checks found the batch to start: the confirmed frontier, or the durable one. *)
Definition starts_at (env : PrepareEnv) (fr : PersistenceFrontiers) (input : SaveBlocksInput) (hash : Z) : Prop :=
  match pf_last_state_trie_block fr with
  | Some trie =>
      exists last, pf_last_block fr = Some last /\ bn_number last = si_prev_db_tip input /\
        bn_number trie = si_prev_partial_state_trie input /\ hash = bn_hash trie
  | None =>
      exists n provider, pe_attempts env n = Ok provider /\
        dp_last_block_number provider = Ok (si_prev_db_tip input) /\
        dp_sealed_header provider (si_prev_partial_state_trie input) = Ok (Some hash)
  end.

Lemma read_durable_Ok (provider : DurableProvider) (db trie hash : Z) :
  read_durable_persistence_frontier provider db trie = Ok hash ->
  dp_last_block_number provider = Ok db /\ dp_sealed_header provider trie = Ok (Some hash).
Proof.
  unfold read_durable_persistence_frontier. intros Hr. ok_inv.
  destruct (Z.eqb_spec v db) as [->|]; cbn [negb] in Hr; [|done]. split; [done|].
  destruct (dp_finish provider) as [[[n p]|]|]; cbn [rbind] in Hr; if_inv Hr; ok_inv; by subst.
Qed.

Lemma validate_batch_Ok (env : PrepareEnv) (fr : PersistenceFrontiers) (input : SaveBlocksInput) :
  validate_persistence_batch (pe_attempts env) fr (si_blocks input) (si_prev_db_tip input)
    (si_prev_partial_state_trie input) = Ok tt ->
  exists hash, starts_at env fr input hash /\
    linked_onto (si_prev_partial_state_trie input) hash (eb_header <$> si_blocks input).
Proof.
  unfold validate_persistence_batch. intros Hv. ok_inv. exists v.
  split; [|by apply validate_persistence_linked]. unfold starts_at.
  destruct (pf_last_state_trie_block fr) as [trie|] eqn:Htr.
  - unfold state_trie_parent in E. rewrite Htr in E. ok_inv. simplify_eq. if_inv E. ok_inv. subst.
    apply negb_false_iff, andb_true_iff in C as [?%Z.eqb_eq ?%Z.eqb_eq]. by eexists.
  - unfold read_bootstrap_persistence_frontier in E. destruct (pe_attempts env 1) as [p1|] eqn:H1; cbn [rbind] in E.
    + destruct (read_durable_persistence_frontier p1 _ _) as [h1|] eqn:Hr.
      * injection E as <-. exists 1%nat, p1. split; [done|]. by apply read_durable_Ok.
      * ok_inv. eexists _, _. split; [done|]. by apply read_durable_Ok.
    + ok_inv. eexists _, _. split; [done|]. by apply read_durable_Ok.
Qed.

(** The blocks handed on, against the blocks of the batch and their flags. *)
Abbreviation completions blocks legacy out :=
  (Forall2 (fun '(before, lg) after => completed lg before after) (zip blocks legacy) out).

Lemma completions_headers (blocks : list ExecutedBlock) (legacy : list bool) (out : list ExecutedBlock) :
  length legacy = length blocks -> completions blocks legacy out -> eb_header <$> out = eb_header <$> blocks.
Proof.
  revert legacy out. induction blocks as [|b blocks IH]; intros [|lg legacy] out Hlen HF; cbn in *; try done;
    inversion HF as [|? b' ? out' Hc HF']; subst; [done|].
  rewrite !fmap_cons. f_equal; [apply Hc|]. apply (IH legacy); [lia|done].
Qed.

Lemma completions_refl (blocks : list ExecutedBlock) (legacy : list bool) :
  length legacy = length blocks ->
  (forall i b, blocks !! i = Some b -> legacy !! i = Some true -> wiped_storage_addresses (eb_reverts b) = []) ->
  completions blocks legacy blocks.
Proof.
  revert legacy. induction blocks as [|b blocks IH]; intros [|lg legacy] Hlen Hn; cbn in *; try done.
  constructor.
  - apply completed_refl. intros ->. by apply (Hn 0%nat).
  - apply IH; [lia|]. intros i c Hi Hl. by apply (Hn (S i)).
Qed.

Lemma complete_blocks_completions (env : PrepareEnv) (pm : gmap Z Z) (tracked : Tracked) (blocks : list ExecutedBlock)
    (legacy : list bool) (out : list ExecutedBlock) :
  complete_blocks (reader_get env pm) tracked (zip blocks legacy) = Ok out -> completions blocks legacy out.
Proof.
  revert tracked legacy out. induction blocks as [|b blocks IH]; intros tracked [|lg legacy] out;
    cbn [zip zip_with complete_blocks]; try by (intros [= <-]; constructor).
  intros Hc. ok_inv. subst out. constructor; [by eapply complete_block_completed|by eapply IH].
Qed.

Lemma complete_reverts_completions (env : PrepareEnv) (pm : gmap Z Z) (blocks : list ExecutedBlock)
    (legacy : list bool) (out : list ExecutedBlock) :
  length legacy = length blocks -> complete_reverts env pm blocks legacy = Ok out -> completions blocks legacy out.
Proof.
  unfold complete_reverts. intros Hlen. case_bool_decide as Hempty.
  - intros [= <-]. apply completions_refl; [done|]. intros i b Hb Hl.
    destruct (wiped_storage_addresses (eb_reverts b)) as [|a l] eqn:Hw; [done|]. exfalso.
    assert (a ∈ collect_wipe_addresses blocks legacy); [|set_solver].
    apply elem_of_list_to_set, list_elem_of_In, in_flat_map. exists (b, true).
    split; [by apply list_elem_of_In, (list_elem_of_lookup_2 _ i), zip_lookup|]. rewrite Hw. by left.
  - intros Hc. ok_inv. by eapply complete_blocks_completions.
Qed.

Lemma collect_slot_preimages_In (blocks : list ExecutedBlock) (legacy : list bool) (h p : Z) :
  (h, p) ∈ collect_slot_preimages blocks legacy ->
  h = hash_slot p /\ Exists (fun b => p ∈ block_slots b) blocks.
Proof.
  intros ([b lg] & Hb & Hp)%list_elem_of_In%in_flat_map. destruct lg; [|done].
  apply list_elem_of_In, list_elem_of_fmap in Hp as (q & [= -> ->] & Hq). split; [done|].
  apply Exists_exists. exists b. split; [|done]. apply list_elem_of_In in Hb.
  by apply elem_of_zip_l in Hb.
Qed.

(** What the checks establish when the storage is hashed. *)
Lemma batch_flags_hashed (env : PrepareEnv) (fr : PersistenceFrontiers) (input : SaveBlocksInput) (flags : option (list bool)) :
  pe_use_hashed_state env = Ok true -> batch_flags env fr input = Ok flags ->
  exists legacy, legacy_block_flags (pe_header_by_number env) (si_blocks input) = Ok legacy /\
    length legacy = length (si_blocks input) /\
    flags = (if existsb id legacy then Some legacy else None) /\
    exists hash, starts_at env fr input hash /\
      linked_onto (si_prev_partial_state_trie input) hash (eb_header <$> si_blocks input).
Proof.
  unfold batch_flags. intros -> Hb. cbn [rbind negb] in Hb. ok_inv. destruct v. exists v0.
  split; [done|]. split; [by eapply legacy_block_flags_length|].
  split; [destruct (existsb id v0); congruence|by apply validate_batch_Ok].
Qed.

(** An accepted batch as its blocks' completion; its headers and tips are unchanged. *)
Lemma prepare_completions (env : PrepareEnv) (fr : PersistenceFrontiers) (input out : SaveBlocksInput) (pm pm' : gmap Z Z) :
  pe_use_hashed_state env = Ok true -> prepare_storage_v2_batch env fr input pm = (Ok out, pm') ->
  exists legacy, legacy_block_flags (pe_header_by_number env) (si_blocks input) = Ok legacy /\
    length legacy = length (si_blocks input) /\ completions (si_blocks input) legacy (si_blocks out) /\
    out = with_blocks input (si_blocks out) /\
    exists hash, starts_at env fr input hash /\
      linked_onto (si_prev_partial_state_trie input) hash (eb_header <$> si_blocks input).
Proof.
  intros Hh Hp. destruct (batch_flags env fr input) as [flags|] eqn:Hfl;
    [|unfold prepare_storage_v2_batch in Hp; by rewrite Hfl in Hp].
  destruct (batch_flags_hashed _ _ _ _ Hh Hfl) as (legacy & Hlf & Hlen & -> & Hlk).
  exists legacy. split; [done|]. split; [done|]. destruct (existsb id legacy) eqn:Hex.
  - destruct (prepare_Ok _ _ _ _ _ _ _ Hp Hfl) as (_ & blocks & Hc & ->). cbn [si_blocks with_blocks].
    split; [by eapply complete_reverts_completions|by split].
  - unfold prepare_storage_v2_batch in Hp. rewrite Hfl in Hp. injection Hp as <- _.
    split; [|by destruct input]. apply completions_refl; [done|]. intros i b _ Hl. exfalso.
    apply (list_elem_of_lookup_2 _ _ _), list_elem_of_In in Hl.
    assert (existsb id legacy = true) by (apply existsb_exists; by exists true). congruence.
Qed.

Lemma prepare_linked (env : PrepareEnv) (fr : PersistenceFrontiers) (input out : SaveBlocksInput) (pm pm' : gmap Z Z) :
  pe_use_hashed_state env = Ok true -> prepare_storage_v2_batch env fr input pm = (Ok out, pm') ->
  exists hash, starts_at env fr out hash /\
    linked_onto (si_prev_partial_state_trie out) hash (eb_header <$> si_blocks out).
Proof.
  intros Hh Hp. destruct (prepare_completions _ _ _ _ _ _ Hh Hp) as (legacy & _ & Hlen & HF & Hout & hash & Hst & Hlk).
  exists hash. rewrite (completions_headers _ _ _ Hlen HF), Hout. by split.
Qed.

(** Accepted or not, a batch leaves the sidecar with what it had and pairs of touched slots. *)
Lemma prepare_preimages (env : PrepareEnv) (fr : PersistenceFrontiers) (input : SaveBlocksInput)
    (out : result string SaveBlocksInput) (pm pm' : gmap Z Z) :
  prepare_storage_v2_batch env fr input pm = (out, pm') ->
  pm ⊆ pm' /\
  (forall h p, pm' !! h = Some p ->
     pm !! h = Some p \/ h = hash_slot p /\ Exists (fun b => p ∈ block_slots b) (si_blocks input)).
Proof.
  unfold prepare_storage_v2_batch.
  destruct (batch_flags env fr input) as [[legacy|]|]; [|intros [= <- <-]; by split; [|left]..].
  destruct (pe_open env); [|intros [= <- <-]; by split; [|left]].
  destruct (record_preimages _ _ _) as [recorded m] eqn:Hr. intros [= <- <-].
  destruct recorded as [[]|].
  - destruct (record_preimages_spec _ _ _ _ Hr) as (_ & Hsub & Hnew). split; [done|].
    intros h p [?|Hin]%Hnew; [by left|right]. by eapply collect_slot_preimages_In.
  - apply record_preimages_Err in Hr as ->. by split; [|left].
Qed.

(** What an accepted batch is. With hashed state, an accepted batch continues the confirmed
    frontier (or the durable one, before any confirmation) block by block. What is handed on has the
    same tips and the same blocks, except that on legacy blocks the wiped accounts' reverts gain
    entries, without losing a value they reverted to, and their hashed storage is marked as wiped.
    The preimage sidecar only gains the hashes of slots the batch touched. *)
Theorem prepared_batch (env : PrepareEnv) (fr : PersistenceFrontiers) (input out : SaveBlocksInput) (pm pm' : gmap Z Z) :
  pe_use_hashed_state env = Ok true ->
  prepare_storage_v2_batch env fr input pm = (Ok out, pm') ->
  (exists hash, starts_at env fr input hash /\
     linked_onto (si_prev_partial_state_trie input) hash (eb_header <$> si_blocks out)) /\
  (exists legacy, legacy_block_flags (pe_header_by_number env) (si_blocks input) = Ok legacy /\
     Forall2 (fun '(before, lg) after => completed lg before after) (zip (si_blocks input) legacy) (si_blocks out)) /\
  out = with_blocks input (si_blocks out) /\
  pm ⊆ pm' /\
  (forall h p, pm' !! h = Some p -> pm !! h = Some p \/ h = hash_slot p /\ Exists (fun b => p ∈ block_slots b) (si_blocks input)).
Proof.
  intros Hh Hp. destruct (prepare_completions _ _ _ _ _ _ Hh Hp) as (legacy & Hlf & Hlen & HF & Hout & hash & Hst & Hlk).
  destruct (prepare_preimages _ _ _ _ _ _ Hp) as [Hsub Hnew]. split_and!; [|by exists legacy|done..].
  exists hash. by rewrite (completions_headers _ _ _ Hlen HF).
Qed.

(** ** What reaches the delegate *)

(** The delegate's last answer. *)
Definition last_confirmed (trace : list (PersistenceAction * option PersistenceResult)) : option PersistenceResult :=
  last (omap snd trace).

Definition frontiers_of (trace : list (PersistenceAction * option PersistenceResult)) : PersistenceFrontiers :=
  from_option frontiers_update frontiers_default (last_confirmed trace).

(** A save or a removal the delegate took was answered. *)
Definition answered (e : PersistenceAction * option PersistenceResult) : Prop :=
  snd e = None -> exists tag, fst e = OtherAction tag.

(** Every pair of the sidecar is a slot under its hash. *)
Definition preimages_sound (pm : gmap Z Z) : Prop := forall h p, pm !! h = Some p -> h = hash_slot p.

(** A batch that continues what the delegate last confirmed. *)
Definition extends_confirmed (events : list ProxyEvent) (trace : list (PersistenceAction * option PersistenceResult))
    (out : SaveBlocksInput) : Prop :=
  match last_confirmed trace with
  | Some r =>
      si_prev_db_tip out = bn_number (last_block r) /\
      si_prev_partial_state_trie out = bn_number (last_state_trie_block r) /\
      linked_onto (bn_number (last_state_trie_block r)) (bn_hash (last_state_trie_block r)) (eb_header <$> si_blocks out)
  | None =>
      exists ev n provider hash, ev ∈ events /\ pe_attempts (ev_env ev) n = Ok provider /\
        dp_last_block_number provider = Ok (si_prev_db_tip out) /\
        dp_sealed_header provider (si_prev_partial_state_trie out) = Ok (Some hash) /\
        linked_onto (si_prev_partial_state_trie out) hash (eb_header <$> si_blocks out)
  end.

Lemma last_confirmed_snoc (trace : list (PersistenceAction * option PersistenceResult)) (a : PersistenceAction)
    (r : option PersistenceResult) :
  last_confirmed (trace ++ [(a, r)]) = match r with Some r => Some r | None => last_confirmed trace end.
Proof.
  unfold last_confirmed. rewrite omap_app. destruct r as [r|]; cbn; [apply last_snoc|by rewrite app_nil_r].
Qed.

(** One step keeps the cached frontiers in step with the answers while the loop goes on, sends at
    most one action, and a batch it sends is a prepared one. *)
Lemma proxy_step_spec (st st' : ProxyState) (ev : ProxyEvent) (trace sent : list (PersistenceAction * option PersistenceResult))
    (continue : bool) :
  px_frontiers st = frontiers_of trace -> proxy_step st ev = (sent, st', continue) ->
  (continue = true -> px_frontiers st' = frontiers_of (trace ++ sent)) /\
  (forall t1 out ans t2, sent = t1 ++ (SaveBlocks out, ans) :: t2 ->
     t1 = [] /\ t2 = [] /\ exists input pm pm',
       prepare_storage_v2_batch (ev_env ev) (frontiers_of trace) input pm = (Ok out, pm')).
Proof.
  intros Hfr. unfold proxy_step.
  assert (Hone : forall (P : Prop) (x : PersistenceAction * option PersistenceResult) t1 out ans t2, (x = (SaveBlocks out, ans) -> P) ->
            [x] = t1 ++ (SaveBlocks out, ans) :: t2 -> t1 = [] /\ t2 = [] /\ P).
  { intros P x [|y t1] out ans t2 HP Heq; [injection Heq as -> <-; by split_and!; [..|apply HP]|].
    injection Heq as -> Heq. symmetry in Heq. by apply app_eq_nil in Heq as [_ ?]. }
  assert (Hnil : forall t1 (x : PersistenceAction * option PersistenceResult) t2, [] <> t1 ++ x :: t2)
    by (intros [|? ?] ? ?; discriminate).
  destruct (ev_action ev) as [input|block|tag].
  - destruct (prepare_storage_v2_batch _ _ input _) as [prepared pm'] eqn:Hp. rewrite Hfr in Hp.
    destruct prepared as [prep|]; [|intros [= <- <- <-]; split; [done|]; by intros ???? ?%Hnil].
    unfold delegate_and_confirm. destruct (ev_sent ev); cbn [negb];
      [|intros [= <- <- <-]; split; [done|]; by intros ???? ?%Hnil].
    destruct (ev_answer ev) as [r|]; intros [= <- <- <-]; (split; [try done|]).
    + intros _. unfold frontiers_of. by rewrite last_confirmed_snoc.
    + intros t1 out ans t2. apply Hone. intros [= <- _]. by eexists _, _, _.
    + intros t1 out ans t2. apply Hone. intros [= <- _]. by eexists _, _, _.
  - unfold delegate_and_confirm. destruct (ev_sent ev); cbn [negb];
      [|intros [= <- <- <-]; split; [done|]; by intros ???? ?%Hnil].
    destruct (ev_answer ev) as [r|]; intros [= <- <- <-]; (split; [try done|]).
    + intros _. unfold frontiers_of. by rewrite last_confirmed_snoc.
    + intros t1 out ans t2. by apply Hone.
    + intros t1 out ans t2. by apply Hone.
  - destruct (ev_sent ev); intros [= <- <- <-]; (split; [|intros ????]); [|by apply Hone|done|by intros ?%Hnil].
    intros _. unfold frontiers_of. by rewrite last_confirmed_snoc.
Qed.
Lemma proxy_step_answered (st st' : ProxyState) (ev : ProxyEvent) (sent : list (PersistenceAction * option PersistenceResult)) :
  proxy_step st ev = (sent, st', true) -> Forall answered sent.
Proof.
  unfold proxy_step, delegate_and_confirm. intros Hs.
  destruct (ev_action ev) as [input|block|tag], (ev_sent ev), (ev_answer ev) as [r|]; cbn [negb] in Hs;
    try destruct (prepare_storage_v2_batch _ _ _ _) as [[?|?] ?]; cbn in Hs; try discriminate Hs;
    injection Hs as <- _; (constructor; [unfold answered; cbn; (discriminate || eauto)|constructor]).
Qed.

Lemma proxy_step_preimages (st st' : ProxyState) (ev : ProxyEvent) (sent : list (PersistenceAction * option PersistenceResult))
    (continue : bool) :
  proxy_step st ev = (sent, st', continue) -> preimages_sound (px_preimages st) -> preimages_sound (px_preimages st').
Proof.
  unfold proxy_step, delegate_and_confirm. intros Hs Hsound.
  destruct (ev_action ev) as [input|block|tag].
  - destruct (prepare_storage_v2_batch _ _ _ _) as [prepared pm] eqn:Hp.
    destruct (prepare_preimages _ _ _ _ _ _ Hp) as [_ Hnew].
    assert (preimages_sound pm) by (intros h p [Hk|[-> _]]%Hnew; [by apply Hsound|done]).
    destruct prepared, (ev_sent ev), (ev_answer ev); cbn [negb] in Hs; by injection Hs as _ <- _.
  - destruct (ev_sent ev), (ev_answer ev); cbn [negb] in Hs; by injection Hs as _ <- _.
  - destruct (ev_sent ev); by injection Hs as _ <- _.
Qed.

Lemma proxy_loop_preimages (st st' : ProxyState) (events : list ProxyEvent)
    (trace : list (PersistenceAction * option PersistenceResult)) :
  proxy_loop st events = (trace, st') -> preimages_sound (px_preimages st) -> preimages_sound (px_preimages st').
Proof.
  revert st trace. induction events as [|ev events IH]; intros st trace; cbn [proxy_loop]; [by intros [= _ <-]|].
  destruct (proxy_step st ev) as [[sent st1] continue] eqn:Hs. intros Hl Hsound.
  apply (proxy_step_preimages _ _ _ _ _ Hs) in Hsound. destruct continue; [|by injection Hl as _ <-].
  destruct (proxy_loop st1 events) as [rest st2] eqn:Hl'. injection Hl as _ <-. by eapply IH.
Qed.

Lemma starts_at_extends (ev : ProxyEvent) (events : list ProxyEvent)
    (trace : list (PersistenceAction * option PersistenceResult)) (out : SaveBlocksInput) (hash : Z) :
  ev ∈ events -> starts_at (ev_env ev) (frontiers_of trace) out hash ->
  linked_onto (si_prev_partial_state_trie out) hash (eb_header <$> si_blocks out) ->
  extends_confirmed events trace out.
Proof.
  unfold extends_confirmed, frontiers_of, starts_at. intros Hin.
  destruct (last_confirmed trace) as [r|]; cbn.
  - intros (last & [= <-] & <- & Htr & ->) Hl. rewrite <- Htr in *. by split_and!.
  - intros (n & provider & H1 & H2 & H3) Hl. by exists ev, n, provider, hash.
Qed.

(** The loop, from any moment of a run. *)
Lemma proxy_loop_extends (st st' : ProxyState) (all events : list ProxyEvent)
    (before trace t1 : list (PersistenceAction * option PersistenceResult)) (out : SaveBlocksInput)
    (ans : option PersistenceResult) (t2 : list (PersistenceAction * option PersistenceResult)) :
  events ⊆ all -> Forall (fun ev => pe_use_hashed_state (ev_env ev) = Ok true) events ->
  px_frontiers st = frontiers_of before ->
  proxy_loop st events = (trace, st') -> trace = t1 ++ (SaveBlocks out, ans) :: t2 ->
  extends_confirmed all (before ++ t1) out /\ Forall answered t1.
Proof.
  revert st before trace t1. induction events as [|ev events IH]; intros st before trace t1 Hsub Hh Hfr; cbn [proxy_loop].
  { intros [= <- _] Heq. by destruct t1. }
  apply List.Forall_cons_iff in Hh as [Hev Hh].
  destruct (proxy_step st ev) as [[sent st1] continue] eqn:Hs.
  destruct (proxy_step_spec _ _ _ before _ _ Hfr Hs) as [Hnext Hsent].
  assert (Hhere : forall s1 s2, sent = s1 ++ (SaveBlocks out, ans) :: s2 ->
                    s1 = [] /\ extends_confirmed all before out).
  { intros s1 s2 Heq. destruct (Hsent _ _ _ _ Heq) as (-> & _ & input & pm & pm' & Hp). split; [done|].
    destruct (prepare_linked _ _ _ _ _ _ Hev Hp) as (hash & Hst & Hl).
    eapply starts_at_extends; [|exact Hst|exact Hl]. apply Hsub. left. }
  destruct continue; cycle 1.
  { intros [= <- _] Heq. destruct (Hhere _ _ Heq) as [-> ?]. rewrite app_nil_r. by split. }
  destruct (proxy_loop st1 events) as [rest st2] eqn:Hl. intros [= <- ->] Heq.
  apply app_eq_app in Heq as (l & [[Heq1 Heq2]|[Heq1 Heq2]]).
  - destruct l as [|x l].
    + rewrite app_nil_r in Heq1. subst sent.
      destruct (IH st1 (before ++ t1) rest [] ltac:(set_solver) Hh (Hnext eq_refl) Hl (eq_sym Heq2)) as [He _].
      rewrite app_nil_r in He. split; [done|]. by eapply proxy_step_answered.
    + injection Heq2 as <- _. destruct (Hhere _ _ Heq1) as [-> ?]. rewrite app_nil_r. by split.
  - subst t1. destruct (IH st1 (before ++ sent) rest l ltac:(set_solver) Hh (Hnext eq_refl) Hl Heq2) as [He Ha].
    rewrite app_assoc. split; [done|]. apply List.Forall_app. split; [by eapply proxy_step_answered|done].
Qed.

(** C35. Every batch extends what is confirmed. Whatever actions the proxy receives and however the
    delegate fails, each batch of blocks that reaches the delegate continues, by number and by
    parent hash, the frontier the delegate last confirmed (the durable one before any answer), every
    earlier save or removal was answered, and the sidecar only maps a hash to a slot it is the hash
    of. *)
Theorem proxy_extends_confirmed (pm : gmap Z Z) (events : list ProxyEvent) (st : ProxyState)
    (trace t1 : list (PersistenceAction * option PersistenceResult)) (out : SaveBlocksInput)
    (ans : option PersistenceResult) (t2 : list (PersistenceAction * option PersistenceResult)) :
  Forall (fun ev => pe_use_hashed_state (ev_env ev) = Ok true) events -> preimages_sound pm ->
  proxy_loop (proxy_init pm) events = (trace, st) -> trace = t1 ++ (SaveBlocks out, ans) :: t2 ->
  extends_confirmed events t1 out /\ Forall answered t1 /\ preimages_sound (px_preimages st).
Proof.
  intros Hh Hsound Hl Heq.
  destruct (proxy_loop_extends (proxy_init pm) st events events [] trace t1 out ans t2) as [He Ha]; try done.
  split; [exact He|]. split; [exact Ha|]. by eapply proxy_loop_preimages.
Qed.
End Persistence.


(** ** A sample batch *)

Module Sample.

Import Reference.

(** Headers as number, hash, parent hash, all of ArbOS 11. *)
#[export] Instance headers : ArbHeaders := {|
  Header := Z * Z * Z;
  h_number h := fst (fst h);
  h_hash h := snd (fst h);
  h_parent_hash h := snd h;
  decode_header h := Some (true, 11);
  arbos_20 v := 20 <=? v
|}.

Definition address : Z := 7.

(** Block 1 writes slot 4 of the account; block 2 wipes the account and recreates it with slot 3. *)
Definition block1 : ExecutedBlock := {|
  eb_header := (1, 101, 100); eb_slots := [[4]];
  eb_reverts := [[(address, {| wipe_storage := false; rv_storage := {[4 := RevertTo 0]} |})]];
  eb_hashed := {| hp_accounts := [];
                  hp_storages := {[hash_address address := {| wiped := false; storage_slots := [(hash_slot 4, 8)] |}]} |}
|}.

Definition revert2 : AccountRevert :=
  {| wipe_storage := true; rv_storage := <[2 := RevertTo 6]> {[3 := Destroyed]} |}.

Definition block2 : ExecutedBlock := {|
  eb_header := (2, 102, 101); eb_slots := [[3]];
  eb_reverts := [[(address, revert2)]];
  eb_hashed := {| hp_accounts := [];
                  hp_storages := {[hash_address address := {| wiped := false; storage_slots := [(hash_slot 3, 9)] |}]} |}
|}.

Definition input : SaveBlocksInput := {|
  si_blocks := [block1; block2]; si_prev_db_tip := 0; si_prev_partial_state_trie := 0;
  si_new_db_tip := 2; si_new_partial_state_trie := 2
|}.

Definition provider : DurableProvider := {|
  dp_last_block_number := Ok 0; dp_finish := Ok None; dp_sealed_header n := Ok (Some (100 + n))
|}.

(** The account's slots 1 and 2 are durable. *)
Definition table : gmap Z (gmap Z Z) :=
  {[hash_address address := <[hash_slot 1 := 5]> {[hash_slot 2 := 6]}]}.

Definition env : PrepareEnv := {|
  pe_use_hashed_state := Ok true; pe_attempts _ := Ok provider; pe_header_by_number n := Ok (Some (n, 100 + n, 99 + n));
  pe_open := Ok tt; pe_reader := Ok tt; pe_get _ := Ok tt; pe_insert := Ok tt; pe_table := Ok table
|}.

(** An earlier batch recorded slots 1 and 2. *)
Definition preimages : gmap Z Z := <[hash_slot 1 := 1]> {[hash_slot 2 := 2]}.

Definition run := prepare_storage_v2_batch env frontiers_default input preimages.

Definition accepted (r : result string SaveBlocksInput) : SaveBlocksInput :=
  match r with
  | Ok o => o
  | Err _ => input
  end.

Definition out : SaveBlocksInput := accepted (fst run).

Lemma run_Ok : prepare_storage_v2_batch env frontiers_default input preimages = (Ok out, snd run).
Proof.
  change (run = (Ok out, snd run)). unfold out. assert (Hok : (match fst run with Ok _ => true | Err _ => false end) = true)
    by (vm_compute; reflexivity).
  destruct run as [[o|e] m]; [reflexivity|discriminate Hok].
Qed.

#[local] Strategy opaque [run out].

Definition durable : gmap Z Z := default ∅ (table !! hash_address address).
Definition pre : gmap Z Z := storage_after (take 1 (si_blocks out)) (hash_address address) durable.
Definition post : gmap Z Z := storage_after (take 2 (si_blocks out)) (hash_address address) durable.

Lemma contract : revert_contract pre post (rv_storage revert2).
Proof.
  split.
  - assert (H : map_Forall (fun p r => match r with RevertTo v => v = default 0 (pre !! hash_slot p) | Destroyed => True end)
                  (rv_storage revert2)).
    { unfold revert2. cbn [rv_storage]. apply map_Forall_insert_2; [vm_compute; reflexivity|].
      apply map_Forall_singleton. exact I. }
    intros p v Hp. exact (H p _ Hp).
  - assert (H : map_Forall (fun h _ => h = hash_slot 3) post)
      by (apply (bool_decide_unpack _); vm_compute; exact I).
    intros h _ [v Hv]. exists 3. split; [symmetry; exact (H h v Hv)|]. eexists. reflexivity.
Qed.

(** The batch is accepted; unwinding block 2 gives back slots 1, 2 and 4. *)
Lemma wipe_reverts_restore_witness :
  (exists b' transition' rv',
     si_blocks out !! 1%nat = Some b' /\ eb_reverts b' !! 0%nat = Some transition' /\
     transition' !! 0%nat = Some (address, rv') /\ wipe_storage rv' = true /\ unwind (rv_storage rv') post = pre) /\
  pre = <[hash_slot 1 := 5]> (<[hash_slot 2 := 6]> {[hash_slot 4 := 8]}).
Proof.
  split.
  - unfold pre, post, durable. apply (wipe_reverts_restore env frontiers_default input out [true; true] preimages (snd run) table
             1 0 0 block2 [(address, revert2)] address revert2).
    + exact run_Ok.
    + vm_compute. reflexivity.
    + reflexivity.
    + intros slots Hs. assert (H : bool_decide (no_zero slots) = true); [|by apply bool_decide_eq_true in H].
      assert (Heq : slots = <[hash_slot 1 := 5]> {[hash_slot 2 := 6]}).
      { unfold table in Hs. rewrite lookup_singleton_eq in Hs. by injection Hs as <-. }
      subst slots. vm_compute. reflexivity.
    + reflexivity.
    + reflexivity.
    + reflexivity.
    + reflexivity.
    + reflexivity.
    + exact contract.
  - apply (bool_decide_unpack _). vm_compute. exact I.
Defined.

Lemma prepared_batch_witness :
  pe_use_hashed_state env = Ok true /\
  exists hash, starts_at env frontiers_default input hash /\
    linked_onto (si_prev_partial_state_trie input) hash (eb_header <$> si_blocks out).
Proof.
  split; [reflexivity|].
  exact (proj1 (prepared_batch env frontiers_default input out preimages (snd run) eq_refl run_Ok)).
Defined.

(** *** The proxy *)

Definition confirmed : PersistenceResult :=
  {| last_block := {| bn_number := 2; bn_hash := 102 |}; last_state_trie_block := {| bn_number := 2; bn_hash := 102 |} |}.

Definition block3 : ExecutedBlock := {|
  eb_header := (3, 103, 102); eb_slots := []; eb_reverts := [];
  eb_hashed := {| hp_accounts := []; hp_storages := ∅ |}
|}.

Definition input3 : SaveBlocksInput := {|
  si_blocks := [block3]; si_prev_db_tip := 2; si_prev_partial_state_trie := 2;
  si_new_db_tip := 3; si_new_partial_state_trie := 3
|}.

Definition events : list ProxyEvent := [
  {| ev_action := SaveBlocks input; ev_env := env; ev_sent := true; ev_answer := Some confirmed |};
  {| ev_action := OtherAction 0; ev_env := env; ev_sent := true; ev_answer := None |};
  {| ev_action := SaveBlocks input3; ev_env := env; ev_sent := true; ev_answer := None |};
  {| ev_action := SaveBlocks input3; ev_env := env; ev_sent := true; ev_answer := Some confirmed |} ].

Definition loop := proxy_loop (proxy_init preimages) events.

(** The third action is the last to reach the delegate: it went unanswered. *)
Lemma loop_trace : fst loop = [(SaveBlocks out, Some confirmed); (OtherAction 0, None)] ++ (SaveBlocks input3, None) :: [].
Proof. vm_compute. reflexivity. Qed.

Lemma preimages_ok : preimages_sound preimages.
Proof.
  assert (H : map_Forall (fun h p => h = hash_slot p) preimages) by (apply (bool_decide_unpack _); vm_compute; exact I).
  exact H.
Qed.

Lemma proxy_extends_confirmed_witness :
  extends_confirmed events [(SaveBlocks out, Some confirmed); (OtherAction 0, None)] input3 /\
  Forall answered [(SaveBlocks out, Some confirmed); (OtherAction 0, None)] /\
  preimages_sound (px_preimages (snd loop)).
Proof.
  apply (proxy_extends_confirmed preimages events (snd loop) (fst loop) _ input3 None []).
  - repeat constructor.
  - exact preimages_ok.
  - apply surjective_pairing.
  - exact loop_trace.
Defined.

(** A slot the sidecar does not know stops the batch. *)
Lemma unknown_slot_refused : fst (prepare_storage_v2_batch env frontiers_default input ∅) = Err "missing slot preimage"%string.
Proof. vm_compute. reflexivity. Qed.
End Sample.
