(* ===== verification/Preimages.v ===== *)
(** * The slot-preimage sidecar

    [crates/arb-reth-genesis/src/preimages.rs] and [readers.rs], and [build_preimages] of
    [crates/arb-reth-node/src/commands/snapshot.rs]: the plain storage slots of a Classic export and
    of the accounts ArbOS initialization makes, batched into the store that maps the hash of a slot
    to the slot, built beside its place and renamed into it. serde_json, [U256]'s parser and the
    ArbOS initialization are outside the repository. *)

From Stdlib Require Import Strings.Byte Strings.String Sorted.
From stdpp Require Import base list numbers option strings gmap sorting.
From S2P Require Import Prelude External Text Crash StorageV2.

(** ** The Classic export *)

Record IndexManifest := {
  ix_next_block_number : Z; ix_accounts_path : string; ix_address_table_path : string; ix_retryable_path : string
}.

(** [RawContractInfo]: the storage is a map in the order of its keys, or null. *)
Record RawContractInfo := { rc_code : bytes; rc_contract_storage : option (list (Z * Z)) }.

Record RawAccount := { ra_addr : Z; ra_balance : string; ra_nonce : Z; ra_contract_info : option RawContractInfo }.

Record RawRetryable := {
  rr_id : Z; rr_timeout : Z; rr_from : Z; rr_to : Z; rr_callvalue : string; rr_beneficiary : Z; rr_calldata : bytes
}.

Record GenesisAccountInput := {
  ga_address : Z; ga_balance : Z; ga_nonce : Z; ga_code : bytes; ga_storage : list (Z * Z)
}.

Record GenesisRetryableInput := {
  gr_id : Z; gr_timeout : Z; gr_from : Z; gr_to : option Z; gr_callvalue : Z; gr_beneficiary : Z; gr_calldata : bytes
}.

(** serde_json on the export's lines, [U256::from_str], and arb_revm's genesis accounts, of which
    only the storage is used. *)
Class ClassicExport := {
  json_index : string -> option IndexManifest;
  json_account : string -> option RawAccount;
  json_address : string -> option Z;
  json_retryable : string -> option RawRetryable;
  u256_parse : string -> option Z;
  build_mainnet_genesis_accounts : list Z -> list GenesisRetryableInput -> result string (list (list (Z * Z)))
}.

Section Readers.
Context {CE : ClassicExport}.

Definition parse_account_line (line : string) : result string GenesisAccountInput :=
  let? raw := ok_or "account json"%string (json_account line) in
  let? balance := ok_or "bad balance"%string (u256_parse (ra_balance raw)) in
  let '(code, storage) :=
    match ra_contract_info raw with
    | Some ci => (rc_code ci, default [] (rc_contract_storage ci))
    | None => ([], [])
    end in
  Ok {| ga_address := ra_addr raw; ga_balance := balance; ga_nonce := ra_nonce raw; ga_code := code; ga_storage := storage |}.

(** A line read from a file, or the error of reading it. *)
Abbreviation Line := (result string string).

(** [accounts]: the items of the lazy iterator. *)
Definition accounts (lines : list Line) : list (result string GenesisAccountInput) :=
  omap (fun line =>
    match line with
    | Err e => Some (Err e)
    | Ok line =>
        match trim_text line with
        | EmptyString => None
        | _ => Some (parse_account_line line)
        end
    end) lines.

(** The lines of a text that are not blank, trimmed and parsed until the first error. *)
Fixpoint parse_lines {A : Type} (parse : string -> result string A) (lines : list string) : result string (list A) :=
  match lines with
  | [] => Ok []
  | line :: lines =>
      match trim_text line with
      | EmptyString => parse_lines parse lines
      | trimmed => let? a := parse trimmed in let? rest := parse_lines parse lines in Ok (a :: rest)
      end
  end.

Definition address_table (lines : list string) : result string (list Z) :=
  parse_lines (fun line => ok_or "address json"%string (json_address line)) lines.

Definition parse_retryable (line : string) : result string GenesisRetryableInput :=
  let? raw := ok_or "retryable json"%string (json_retryable line) in
  let? callvalue := ok_or "bad callvalue"%string (u256_parse (rr_callvalue raw)) in
  Ok {| gr_id := rr_id raw; gr_timeout := rr_timeout raw; gr_from := rr_from raw;
        gr_to := if rr_to raw =? 0 then None else Some (rr_to raw); gr_callvalue := callvalue;
        gr_beneficiary := rr_beneficiary raw; gr_calldata := rr_calldata raw |}.

Definition retryables (lines : list string) : result string (list GenesisRetryableInput) :=
  parse_lines parse_retryable lines.
End Readers.

(** ** Counts and the manifest *)

Definition GENESIS_BLOCK_NUMBER : Z := 22207817.
Definition MANIFEST_VERSION : Z := 1.
Definition CLASSIC_ACCOUNTS : Z := 1294583.
Definition CLASSIC_STORAGE_SLOTS : Z := 24491013.
Definition ADDRESS_TABLE_ENTRIES : Z := 680046.
Definition RETRYABLES : Z := 16206.
Definition ARBOS_ACCOUNTS : Z := 15.
Definition ARBOS_STORAGE_SLOTS : Z := 1410458.
Definition UNIQUE_SLOT_PREIMAGES : Z := 18784532.

Record SlotPreimageStats := {
  sp_next_block_number : Z; sp_classic_accounts : Z; sp_classic_slots : Z; sp_arbos_accounts : Z; sp_arbos_slots : Z;
  sp_address_table_entries : Z; sp_retryables : Z
}.

#[export] Instance SlotPreimageStats_eq_dec : EqDecision SlotPreimageStats.
Proof. solve_decision. Defined.

Definition total_slots (self : SlotPreimageStats) : Z := sp_classic_slots self + sp_arbos_slots self.

Definition canonical_stats : SlotPreimageStats := {|
  sp_next_block_number := GENESIS_BLOCK_NUMBER; sp_classic_accounts := CLASSIC_ACCOUNTS;
  sp_classic_slots := CLASSIC_STORAGE_SLOTS; sp_arbos_accounts := ARBOS_ACCOUNTS; sp_arbos_slots := ARBOS_STORAGE_SLOTS;
  sp_address_table_entries := ADDRESS_TABLE_ENTRIES; sp_retryables := RETRYABLES
|}.

Definition validate_canonical (self : SlotPreimageStats) : result string unit :=
  if bool_decide (self = canonical_stats) then Ok tt else Err "Classic export does not match canonical Arbitrum One Nitro genesis"%string.

Record SlotPreimageManifest := { pm_version : Z; pm_stats : SlotPreimageStats; pm_unique_mappings : Z }.

Definition preimage_manifest_validate (self : SlotPreimageManifest) : result string unit :=
  if negb (pm_version self =? MANIFEST_VERSION) then Err "unsupported slot-preimage manifest version"%string
  else
    let? _ := validate_canonical (pm_stats self) in
    if negb (pm_unique_mappings self =? UNIQUE_SLOT_PREIMAGES) then Err "slot-preimage mapping count mismatch"%string
    else Ok tt.

Definition preimage_manifest_new (stats : SlotPreimageStats) (unique_mappings : Z) : result string SlotPreimageManifest :=
  let manifest := {| pm_version := MANIFEST_VERSION; pm_stats := stats; pm_unique_mappings := unique_mappings |} in
  let? _ := preimage_manifest_validate manifest in
  Ok manifest.

(** ** What is on disk *)

(** A sidecar directory: the store, and the manifest once it is written. *)
Record Sidecar := { sc_store : gmap Z Z; sc_manifest : option SlotPreimageManifest }.

(** [db/preimage], [db/.preimage.tmp], and how the next durable writes go. *)
Record BuildDisk := { bd_sidecar : option Sidecar; bd_staging : option Sidecar; bd_faults : list (Fault string) }.

Abbreviation BuildIO := (M BuildDisk string).

Definition disk_write (f : option Sidecar * option Sidecar -> option Sidecar * option Sidecar) : BuildIO unit :=
  let! d := get in
  write (default Succeeds (head (bd_faults d)))
    (fun d => let '(sidecar, staging) := f (bd_sidecar d, bd_staging d) in
              {| bd_sidecar := sidecar; bd_staging := staging; bd_faults := tail (bd_faults d) |}).

(** A change of the directory that is built. *)
Definition stage (f : Sidecar -> Sidecar) : BuildIO unit :=
  disk_write (fun '(sidecar, staging) => (sidecar, f <$> staging)).

Definition staged_store : BuildIO (gmap Z Z) :=
  let! d := get in mret (from_option sc_store ∅ (bd_staging d)).

Definition sync_directory : BuildIO unit := disk_write id.

(** On an error the directory is removed, as far as that works, and the error is returned. *)
Definition or_discard {A : Type} (m : BuildIO A) : BuildIO A := fun d =>
  match m d with
  | (Raise e, d) =>
      match disk_write (fun '(sidecar, _) => (sidecar, None)) d with
      | (Crashed, d) => (Crashed, d)
      | (_, d) => (Raise e, d)
      end
  | r => r
  end.

(** ** Building *)

Definition PREIMAGE_BATCH_SIZE : nat := 250000.

Section Build.
Context {K : Keccak} {CE : ClassicExport}.

(** [visit_storage], with the visitor's state. *)
Fixpoint visit_storage {S : Type} (visit : S -> Z -> Z -> BuildIO S) (storage : list (Z * Z)) (count : Z) (s : S)
    : BuildIO (Z * S) :=
  match storage with
  | [] => mret (count, s)
  | (plain_slot, value) :: storage =>
      if value =? 0 then visit_storage visit storage count s
      else
        let! s := visit s (hash_slot plain_slot) plain_slot in
        visit_storage visit storage (count + 1) s
  end.

Fixpoint visit_classic {S : Type} (visit : S -> Z -> Z -> BuildIO S) (items : list (result string GenesisAccountInput))
    (count slots : Z) (s : S) : BuildIO (Z * Z * S) :=
  match items with
  | [] => mret (count, slots, s)
  | item :: items =>
      let! account := lift item in
      let! '(slots, s) := visit_storage visit (ga_storage account) slots s in
      visit_classic visit items (count + 1) slots s
  end.

Fixpoint visit_arbos {S : Type} (visit : S -> Z -> Z -> BuildIO S) (storages : list (list (Z * Z))) (slots : Z) (s : S)
    : BuildIO (Z * S) :=
  match storages with
  | [] => mret (slots, s)
  | storage :: storages =>
      let! '(slots, s) := visit_storage visit storage slots s in
      visit_arbos visit storages slots s
  end.

(** The files of the export directory. *)
Record ExportDir := {
  ed_index : result string string;
  ed_accounts : string -> result string (list (result string string));
  ed_text : string -> result string (list string)
}.

Definition visit_arbitrum_one_slot_preimages {S : Type} (export : ExportDir) (visit : S -> Z -> Z -> BuildIO S) (s : S)
    : BuildIO (SlotPreimageStats * S) :=
  let! text := lift (ed_index export) in
  let! index := lift (ok_or "index json"%string (json_index text)) in
  let! lines := lift (ed_accounts export (ix_accounts_path index)) in
  let! '(classic_accounts, classic_slots, s) := visit_classic visit (accounts lines) 0 0 s in
  let! lines := lift (ed_text export (ix_address_table_path index)) in
  let! table := lift (address_table lines) in
  let! lines := lift (ed_text export (ix_retryable_path index)) in
  let! pending := lift (retryables lines) in
  let! arbos := lift (build_mainnet_genesis_accounts table pending) in
  let! '(arbos_slots, s) := visit_arbos visit arbos 0 s in
  mret ({| sp_next_block_number := ix_next_block_number index; sp_classic_accounts := classic_accounts;
           sp_classic_slots := classic_slots; sp_arbos_accounts := Z.of_nat (length arbos); sp_arbos_slots := arbos_slots;
           sp_address_table_entries := Z.of_nat (length table); sp_retryables := Z.of_nat (length pending) |}, s).

(** The entries of a batch that the store lacks. *)
Fixpoint missing_entries (store : gmap Z Z) (entries : list (Z * Z)) : result string (list (Z * Z)) :=
  match entries with
  | [] => Ok []
  | (hashed_slot, plain_slot) :: entries =>
      if negb (hash_slot plain_slot =? hashed_slot) then Err "invalid slot-preimage mapping"%string
      else
        match store !! hashed_slot with
        | Some existing =>
            if existing =? plain_slot then missing_entries store entries else Err "conflicting slot preimage"%string
        | None => let? missing := missing_entries store entries in Ok ((hashed_slot, plain_slot) :: missing)
        end
  end.

Definition flush_preimage_batch (batch : list (Z * Z)) : BuildIO nat :=
  match batch with
  | [] => mret O
  | _ =>
      let sorted := merge_sort key_le batch in
      if conflicting sorted then raise "conflicting slot preimages in batch"%string
      else
        let! store := staged_store in
        let! missing := lift (missing_entries store (dedup_by_key sorted)) in
        let! _ := stage (fun sc => {| sc_store := insert_preimages missing (sc_store sc); sc_manifest := sc_manifest sc |}) in
        mret (length missing)
  end.

(** The closure given to the visitor: the batch and the mappings counted so far. *)
Definition push_mapping (s : list (Z * Z) * Z) (hashed_slot plain_slot : Z) : BuildIO (list (Z * Z) * Z) :=
  let '(batch, unique_mappings) := s in
  let batch := batch ++ [(hashed_slot, plain_slot)] in
  if (length batch =? PREIMAGE_BATCH_SIZE)%nat then
    let! inserted := flush_preimage_batch batch in
    mret ([], unique_mappings + Z.of_nat inserted)
  else mret (batch, unique_mappings).

(** The mappings of the export in the store, with the counts. *)
Definition fill_store (export : ExportDir) : BuildIO (SlotPreimageStats * Z) :=
  let! '(stats, (batch, unique_mappings)) := visit_arbitrum_one_slot_preimages export push_mapping ([], 0) in
  let! inserted := flush_preimage_batch batch in
  mret (stats, unique_mappings + Z.of_nat inserted).

Definition write_preimage_manifest (manifest : SlotPreimageManifest) : BuildIO unit :=
  stage (fun sc => {| sc_store := sc_store sc; sc_manifest := Some manifest |}).

Definition build_preimages (export : ExportDir) : BuildIO unit :=
  let! d := get in
  match bd_sidecar d, bd_staging d with
  | Some _, _ => raise "refusing to replace existing slot-preimage sidecar"%string
  | None, Some _ => raise "incomplete slot-preimage build exists"%string
  | None, None =>
      let! _ := disk_write (fun '(sidecar, _) => (sidecar, Some {| sc_store := ∅; sc_manifest := None |})) in
      let! _ := or_discard (
        let! '(stats, unique_mappings) := fill_store export in
        let! manifest := lift (preimage_manifest_new stats unique_mappings) in
        let! _ := write_preimage_manifest manifest in
        sync_directory) in
      let! _ := or_discard (disk_write (fun '(_, staging) => (staging, None))) in
      sync_directory
  end.
End Build.

(** ** What is visited *)

(** The plain slots with a value. *)
Definition nonzero (storage : list (Z * Z)) : list Z := fst <$> List.filter (fun '(_, value) => negb (value =? 0)) storage.

(** The accounts up to the end, if none is an error. *)
Fixpoint all_ok {A : Type} (items : list (result string A)) : result string (list A) :=
  match items with
  | [] => Ok []
  | item :: items => let? a := item in let? rest := all_ok items in Ok (a :: rest)
  end.

Section Spec.
Context {K : Keccak} {CE : ClassicExport}.

(** The slots of an export and its counts: what a build is about. *)
Definition visited (export : ExportDir) : result string (SlotPreimageStats * list Z) :=
  let? text := ed_index export in
  let? index := ok_or "index json"%string (json_index text) in
  let? lines := ed_accounts export (ix_accounts_path index) in
  let? classic := all_ok (accounts lines) in
  let? table_lines := ed_text export (ix_address_table_path index) in
  let? table := address_table table_lines in
  let? retryable_lines := ed_text export (ix_retryable_path index) in
  let? pending := retryables retryable_lines in
  let? arbos := build_mainnet_genesis_accounts table pending in
  let classic_slots := flat_map (fun a => nonzero (ga_storage a)) classic in
  let arbos_slots := flat_map nonzero arbos in
  Ok ({| sp_next_block_number := ix_next_block_number index; sp_classic_accounts := Z.of_nat (length classic);
         sp_classic_slots := Z.of_nat (length classic_slots); sp_arbos_accounts := Z.of_nat (length arbos);
         sp_arbos_slots := Z.of_nat (length arbos_slots); sp_address_table_entries := Z.of_nat (length table);
         sp_retryables := Z.of_nat (length pending) |}, classic_slots ++ arbos_slots).

(** The visitor on one slot after the other. *)
Fixpoint visit_slots {S : Type} (visit : S -> Z -> Z -> BuildIO S) (slots : list Z) (s : S) : BuildIO S :=
  match slots with
  | [] => mret s
  | p :: slots => let! s := visit s (hash_slot p) p in visit_slots visit slots s
  end.

Lemma mthen_assoc {A B C : Type} (m : BuildIO A) (f : A -> BuildIO B) (g : B -> BuildIO C) d :
  mthen (mthen m f) g d = mthen m (fun a => mthen (f a) g) d.
Proof. unfold mthen. by destruct (m d) as [[]]. Qed.

Lemma mthen_ext {A B : Type} (m m' : BuildIO A) (f f' : A -> BuildIO B) d :
  m d = m' d -> (forall a d, f a d = f' a d) -> mthen m f d = mthen m' f' d.
Proof. intros Hm Hf. unfold mthen. rewrite Hm. by destruct (m' d) as [[]]. Qed.

Lemma visit_storage_eq {S : Type} (visit : S -> Z -> Z -> BuildIO S) (storage : list (Z * Z)) (count : Z) (s : S) d :
  visit_storage visit storage count s d
    = (let! s := visit_slots visit (nonzero storage) s in mret (count + Z.of_nat (length (nonzero storage)), s)) d.
Proof.
  revert count s d. induction storage as [|[p v] storage IH]; intros count s d; cbn [visit_storage].
  { cbn. by rewrite Z.add_0_r. }
  unfold nonzero in *. cbn [List.filter]. destruct (v =? 0); cbn [negb fmap list_fmap fst visit_slots length]; [apply IH|].
  rewrite mthen_assoc. apply mthen_ext; [done|]. intros s' d'. rewrite IH. apply mthen_ext; [done|].
  intros s2 d2. rewrite Nat2Z.inj_succ, <- Z.add_1_l, Z.add_assoc. done.
Qed.

Lemma visit_slots_app {S : Type} (visit : S -> Z -> Z -> BuildIO S) (a b : list Z) (s : S) d :
  visit_slots visit (a ++ b) s d = (let! s := visit_slots visit a s in visit_slots visit b s) d.
Proof.
  revert s d. induction a as [|p a IH]; intros s d; [done|]. cbn [app visit_slots]. rewrite mthen_assoc.
  apply mthen_ext; [done|]. intros s' d'. apply IH.
Qed.

Lemma visit_classic_eq {S : Type} (visit : S -> Z -> Z -> BuildIO S) (items : list (result string GenesisAccountInput))
    (classic : list GenesisAccountInput) (count slots : Z) (s : S) d :
  all_ok items = Ok classic ->
  let nz := flat_map (fun a => nonzero (ga_storage a)) classic in
  visit_classic visit items count slots s d
    = (let! s := visit_slots visit nz s in mret (count + Z.of_nat (length classic), slots + Z.of_nat (length nz), s)) d.
Proof.
  revert classic count slots s d. induction items as [|item items IH]; intros classic count slots s d Hok nz; cbn in Hok.
  { injection Hok as <-. cbn. by rewrite !Z.add_0_r. }
  apply rbind_Ok in Hok as (a & -> & Hok). apply rbind_Ok in Hok as (rest & Hrest & Hok). injection Hok as <-.
  cbn [visit_classic lift]. subst nz. cbn [flat_map length]. unfold mthen at 1. cbn.
  etrans; [apply (mthen_ext _ _ _ _ _ (visit_storage_eq _ _ _ _ _) (fun _ _ => eq_refl))|].
  rewrite mthen_assoc. symmetry.
  etrans; [apply (mthen_ext _ _ _ _ _ (visit_slots_app _ _ _ _ _) (fun _ _ => eq_refl))|].
  rewrite mthen_assoc. apply mthen_ext; [done|]. intros s1 d1. symmetry.
  etrans; [unfold mthen at 1; cbn; apply (IH rest _ _ _ _ Hrest)|]. apply mthen_ext; [done|]. intros s2 d2.
  rewrite length_app, !Nat2Z.inj_add, Nat2Z.inj_succ, <- Z.add_1_l, !Z.add_assoc. done.
Qed.

Lemma visit_classic_err {S : Type} (visit : S -> Z -> Z -> BuildIO S) (items : list (result string GenesisAccountInput))
    (e : string) (count slots : Z) (s : S) d r :
  all_ok items = Err e -> fst (visit_classic visit items count slots s d) <> Ret r.
Proof.
  revert count slots s d r. induction items as [|item items IH]; intros count slots s d r Hok; [done|]. cbn in Hok.
  cbn [visit_classic]. destruct item as [a|]; [|done]. cbn [rbind] in Hok. unfold mthen at 1. cbn [lift mret].
  unfold mthen at 1. destruct (visit_storage _ _ _ _ _) as [[[c s']|?|] d']; [|done|done].
  apply IH. by destruct (all_ok items).
Qed.

Lemma visit_arbos_eq {S : Type} (visit : S -> Z -> Z -> BuildIO S) (storages : list (list (Z * Z))) (slots : Z) (s : S) d :
  visit_arbos visit storages slots s d
    = (let! s := visit_slots visit (flat_map nonzero storages) s in
       mret (slots + Z.of_nat (length (flat_map nonzero storages)), s)) d.
Proof.
  revert slots s d. induction storages as [|st storages IH]; intros slots s d; cbn [visit_arbos flat_map].
  { cbn. by rewrite Z.add_0_r. }
  etrans; [apply (mthen_ext _ _ _ _ _ (visit_storage_eq _ _ _ _ _) (fun _ _ => eq_refl))|].
  rewrite mthen_assoc. symmetry.
  etrans; [apply (mthen_ext _ _ _ _ _ (visit_slots_app _ _ _ _ _) (fun _ _ => eq_refl))|].
  rewrite mthen_assoc. apply mthen_ext; [done|]. intros s1 d1. symmetry.
  etrans; [unfold mthen at 1; cbn; apply IH|]. apply mthen_ext; [done|]. intros s2 d2.
  rewrite length_app, Nat2Z.inj_add, Z.add_assoc. done.
Qed.

(** A readable export is visited slot by slot. *)
Lemma visit_all_eq {S : Type} (export : ExportDir) (visit : S -> Z -> Z -> BuildIO S) (s : S) (stats : SlotPreimageStats)
    (slots : list Z) d :
  visited export = Ok (stats, slots) ->
  visit_arbitrum_one_slot_preimages export visit s d = (let! s := visit_slots visit slots s in mret (stats, s)) d.
Proof.
  unfold visited, visit_arbitrum_one_slot_preimages. intros H.
  apply rbind_Ok in H as (text & -> & H). apply rbind_Ok in H as (index & Hindex & H).
  apply rbind_Ok in H as (lines & Hlines & H). apply rbind_Ok in H as (classic & Hclassic & H).
  apply rbind_Ok in H as (tl & Htl & H). apply rbind_Ok in H as (table & Htable & H).
  apply rbind_Ok in H as (rl & Hrl & H). apply rbind_Ok in H as (pending & Hpending & H).
  apply rbind_Ok in H as (arbos & Harbos & H). injection H as <- <-.
  do 3 (unfold mthen at 1; rewrite ?Hindex, ?Hlines; cbn [lift mret]).
  etrans; [apply (mthen_ext _ _ _ _ _ (visit_classic_eq _ _ _ _ _ _ _ Hclassic) (fun _ _ => eq_refl))|]. rewrite mthen_assoc. symmetry.
  etrans; [apply (mthen_ext _ _ _ _ _ (visit_slots_app _ _ _ _ _) (fun _ _ => eq_refl))|].
  rewrite mthen_assoc. apply mthen_ext; [done|]. intros s1 d1. symmetry. unfold mthen at 1. cbn [mret].
  do 5 (unfold mthen at 1; rewrite ?Htl, ?Htable, ?Hrl, ?Hpending, ?Harbos; cbn [lift mret]).
  etrans; [apply (mthen_ext _ _ _ _ _ (visit_arbos_eq _ _ _ _ _) (fun _ _ => eq_refl))|].
  rewrite mthen_assoc. apply mthen_ext; [done|]. done.
Qed.

Lemma mthen_no_ret {A B : Type} (m : BuildIO A) (f : A -> BuildIO B) d b :
  fst (mthen m f d) = Ret b -> exists a d', m d = (Ret a, d') /\ fst (f a d') = Ret b.
Proof. unfold mthen. destruct (m d) as [[a|?|] d'] eqn:Hm; [|done|done]. intros H. by exists a, d'. Qed.

Lemma lift_ret {A : Type} (r : result string A) d d' a : lift (D := BuildDisk) r d = (Ret a, d') -> r = Ok a /\ d' = d.
Proof. destruct r; [|done]. by intros [= <- <-]. Qed.

(** An unreadable export is not. *)
Lemma visit_all_err {S : Type} (export : ExportDir) (visit : S -> Z -> Z -> BuildIO S) (s : S) (e : string) d r :
  visited export = Err e -> fst (visit_arbitrum_one_slot_preimages export visit s d) <> Ret r.
Proof.
  unfold visited, visit_arbitrum_one_slot_preimages. intros H Hr.
  apply mthen_no_ret in Hr as (text & d1 & H0 & Hr). apply lift_ret in H0 as [H0 ->]. rewrite H0 in H. cbn [rbind] in H.
  apply mthen_no_ret in Hr as (index & d1 & H1 & Hr). apply lift_ret in H1 as [H1 ->]. rewrite H1 in H. cbn [rbind] in H.
  apply mthen_no_ret in Hr as (lines & d1 & H2 & Hr). apply lift_ret in H2 as [H2 ->]. rewrite H2 in H. cbn [rbind] in H.
  apply mthen_no_ret in Hr as ([[c n] s1] & d1 & H3 & Hr).
  destruct (all_ok (accounts lines)) as [classic|e'] eqn:Hc; cycle 1.
  { apply (visit_classic_err visit _ e' 0 0 s d (c, n, s1)) in Hc. rewrite H3 in Hc. done. }
  cbn [rbind] in H.
  apply mthen_no_ret in Hr as (tl & d2 & H4 & Hr). apply lift_ret in H4 as [H4 ->]. rewrite H4 in H. cbn [rbind] in H.
  apply mthen_no_ret in Hr as (table & d2 & H5 & Hr). apply lift_ret in H5 as [H5 ->]. rewrite H5 in H. cbn [rbind] in H.
  apply mthen_no_ret in Hr as (rl & d2 & H6 & Hr). apply lift_ret in H6 as [H6 ->]. rewrite H6 in H. cbn [rbind] in H.
  apply mthen_no_ret in Hr as (pending & d2 & H7 & Hr). apply lift_ret in H7 as [H7 ->]. rewrite H7 in H. cbn [rbind] in H.
  apply mthen_no_ret in Hr as (arbos & d2 & H8 & _). apply lift_ret in H8 as [H8 _]. by rewrite H8 in H.
Qed.

(** ** The store *)

(** The store holds the slots of [l], and nothing else. *)
Definition filled (store : gmap Z Z) (l : list Z) : Prop :=
  forall h p, store !! h = Some p <-> p ∈ l /\ h = hash_slot p.

Lemma filled_nil : filled ∅ [].
Proof. intros h p. rewrite lookup_empty. split; [done|]. by intros [[]%not_elem_of_nil _]. Qed.

Definition key_lt (a b : Z * Z) : Prop := fst a < fst b.

Lemma dedup_sorted (es : list (Z * Z)) : StronglySorted key_le es -> StronglySorted key_lt (dedup_by_key es).
Proof.
  induction 1 as [|a es Hs IH Hle]; [constructor|]. cbn. pose proof (dedup_sub es) as Hsub.
  destruct (dedup_by_key es) as [|b ds]; [by repeat constructor|]. apply StronglySorted_inv in IH as [Hds Hb].
  assert (Hab : fst a <= fst b).
  { rewrite Forall_forall in Hle. apply (Hle b), Hsub. left. }
  destruct (Z.eqb_spec (fst a) (fst b)) as [He|Hne].
  - constructor; [done|]. eapply List.Forall_impl; [|exact Hb]. intros x. unfold key_lt. by rewrite He.
  - constructor; [by constructor|]. constructor; [unfold key_lt; lia|]. eapply List.Forall_impl; [|exact Hb].
    intros x. unfold key_lt. lia.
Qed.

Lemma sorted_keys_NoDup (es : list (Z * Z)) : StronglySorted key_lt es -> NoDup es.*1.
Proof.
  induction 1 as [|a es _ IH Hlt]; [constructor|]. constructor; [|done]. intros (b & Hb & Hin)%list_elem_of_fmap.
  rewrite Forall_forall in Hlt. specialize (Hlt _ Hin). unfold key_lt in Hlt. lia.
Qed.

Lemma insert_preimages_size (es : list (Z * Z)) (m : gmap Z Z) :
  NoDup es.*1 -> (forall h p, (h, p) ∈ es -> m !! h = None) -> size (insert_preimages es m) = (length es + size m)%nat.
Proof.
  revert m. induction es as [|[h p] es IH]; intros m Hnd Hn; [done|]. cbn. apply NoDup_cons in Hnd as [Hh Hnd].
  etrans; [apply IH; [done|]|].
  - intros h' p' Hin. rewrite lookup_insert_ne; [apply (Hn h' p'); by right|]. intros ->. apply Hh.
    apply list_elem_of_fmap. by exists (h', p').
  - rewrite map_size_insert_None by (apply (Hn h p); left). lia.
Qed.

Lemma missing_entries_spec (store : gmap Z Z) (es missing : list (Z * Z)) :
  missing_entries store es = Ok missing ->
  missing `sublist_of` es /\ (forall h p, (h, p) ∈ missing -> store !! h = None) /\
  (forall h p, (h, p) ∈ es -> h = hash_slot p /\ (store !! h = Some p \/ (h, p) ∈ missing)).
Proof.
  revert missing. induction es as [|[h1 p1] es IH]; intros missing; cbn [missing_entries].
  { intros [= <-]. split; [done|]. split; [by intros ? ? []%not_elem_of_nil|by intros ? ? []%not_elem_of_nil]. }
  destruct (Z.eqb_spec (hash_slot p1) h1) as [<-|]; cbn [negb]; [|done].
  destruct (store !! hash_slot p1) as [q|] eqn:Hl.
  - destruct (Z.eqb_spec q p1) as [->|]; [|done]. intros (Hs & Hn & Ha)%IH. split; [by apply sublist_cons|]. split; [done|].
    intros h p [[= -> ->]|Hin]%elem_of_cons; [split; [done|by left]|by apply Ha].
  - intros H. ok_inv. subst. destruct (IH _ E) as (Hs & Hn & Ha). split; [by apply sublist_skip|]. split.
    + intros h p [[= -> ->]|Hin]%elem_of_cons; [done|by eapply Hn].
    + intros h p [[= -> ->]|Hin]%elem_of_cons; [split; [done|right; left]|].
      destruct (Ha _ _ Hin) as [? [?|?]]; (split; [done|]); [by left|right; by right].
Qed.

Lemma wp_disk_write f (Q : unit -> BuildDisk -> Prop) (C : BuildDisk -> Prop) (d : BuildDisk) :
  C d -> (forall d', (bd_sidecar d', bd_staging d') = f (bd_sidecar d, bd_staging d) -> C d' /\ Q tt d') ->
  wp (disk_write f) Q C d.
Proof.
  intros HC HQ. unfold disk_write. apply wp_bind, wp_get. apply wp_write; [done|..]; apply HQ;
    by destruct (f (bd_sidecar d, bd_staging d)).
Qed.

(** A build in progress: the sidecar is not there yet. *)
Definition staged (d : BuildDisk) (store : gmap Z Z) : Prop :=
  bd_sidecar d = None /\ bd_staging d = Some {| sc_store := store; sc_manifest := None |}.

Definition unpublished (d : BuildDisk) : Prop := bd_sidecar d = None.

(** The mappings inserted by a batch. *)
Lemma batch_fills (store : gmap Z Z) (l ps : list Z) (missing : list (Z * Z)) :
  let batch := merge_sort key_le (push_preimage <$> ps) in
  filled store l -> conflicting batch = false -> missing_entries store (dedup_by_key batch) = Ok missing ->
  filled (insert_preimages missing store) (l ++ ps) /\
  size (insert_preimages missing store) = (length missing + size store)%nat.
Proof.
  intros batch Hst Hc Hm. destruct (missing_entries_spec _ _ _ Hm) as (Hsub & Hnone & Hall).
  assert (Hsort : StronglySorted key_le batch) by (apply (StronglySorted_merge_sort key_le); apply _).
  assert (Hf : functional batch) by (by apply sorted_functional).
  assert (Hperm : forall h p, (h, p) ∈ batch <-> p ∈ ps /\ h = hash_slot p).
  { intros h p. unfold batch. rewrite merge_sort_Permutation. unfold push_preimage. rewrite list_elem_of_fmap. naive_solver. }
  assert (Hfm : functional missing).
  { eapply functional_sub; [exact Hf|]. intros x Hx. eapply dedup_sub, elem_of_sublist; [exact Hx|done]. }
  split; [|apply insert_preimages_size; [|exact Hnone]; eapply sublist_NoDup; [|apply fmap_sublist; exact Hsub];
           by apply sorted_keys_NoDup, dedup_sorted].
  assert (Hmiss : forall h p, (h, p) ∈ missing -> p ∈ ps /\ h = hash_slot p).
  { intros h p Hin. apply Hperm, dedup_sub. by eapply elem_of_sublist. }
  intros h p. split.
  - destruct (decide (h ∈ missing.*1)) as [([? q] & -> & Hq)%list_elem_of_fmap|Hn].
    + cbn. rewrite (insert_preimages_mem _ _ _ _ Hfm Hq). intros [= ->]. apply Hmiss in Hq as [? ?].
      split; [apply elem_of_app; by right|done].
    + rewrite insert_preimages_other by (intros q Hq; apply Hn, list_elem_of_fmap; by exists (h, q)).
      intros [? ?]%Hst. split; [apply elem_of_app; by left|done].
  - intros [[Hp|Hp]%elem_of_app ->].
    + assert (Hs : store !! hash_slot p = Some p) by (by apply Hst).
      rewrite insert_preimages_other; [done|]. intros q Hq%Hnone. congruence.
    + assert (Hb : (hash_slot p, p) ∈ dedup_by_key batch) by (apply dedup_mem; [done|by apply Hperm]).
      destruct (Hall _ _ Hb) as [_ [Hs|Hin]]; [|by apply insert_preimages_mem].
      rewrite insert_preimages_other; [done|]. intros q Hq%Hnone. congruence.
Qed.

Definition flushed_by (store : gmap Z Z) (l : list Z) (n : nat) (d : BuildDisk) : Prop :=
  exists store', staged d store' /\ filled store' l /\ size store' = (n + size store)%nat.

Lemma flush_spec (store : gmap Z Z) (l ps : list Z) (d : BuildDisk) :
  staged d store -> filled store l ->
  wp (flush_preimage_batch (push_preimage <$> ps)) (flushed_by store (l ++ ps)) unpublished d.
Proof.
  intros [Hsc Hst] Hfill. assert (Hu : unpublished d) by done. unfold flush_preimage_batch.
  destruct ps as [|p ps]; [apply wp_ret; exists store; by rewrite app_nil_r|].
  remember (p :: ps) as ps' eqn:Hps. rewrite Hps at 1. cbn [fmap list_fmap]. clear Hps.
  destruct (conflicting _) eqn:Hc; [by apply wp_raise|].
  apply wp_bind. unfold staged_store. apply wp_bind, wp_get, wp_ret. rewrite Hst. cbn [from_option sc_store].
  apply wp_bind, wp_lift; [done|]. intros missing Hm. destruct (batch_fills _ _ _ _ Hfill Hc Hm) as [Hf Hs].
  apply wp_bind, wp_disk_write; [done|]. intros d' Hd'. rewrite Hsc, Hst in Hd'. injection Hd' as Hsc' Hst'.
  split; [done|]. apply wp_ret. by exists (insert_preimages missing store).
Qed.

(** Programs that leave the published sidecar alone. *)
Definition keeps {A : Type} (m : BuildIO A) : Prop := forall s, bd_sidecar (fst (snd (m s))) = bd_sidecar (fst s).

Lemma keeps_ret {A : Type} (a : A) : keeps (mret a).
Proof. by intros []. Qed.

Lemma keeps_raise {A : Type} (e : string) : keeps (A := A) (raise e).
Proof. by intros []. Qed.

Lemma keeps_lift {A : Type} (r : result string A) : keeps (lift r).
Proof. by destruct r; intros []. Qed.

Lemma keeps_bind {A B : Type} (m : BuildIO A) (f : A -> BuildIO B) : keeps m -> (forall a, keeps (f a)) -> keeps (mthen m f).
Proof.
  intros Hm Hf s. unfold mthen. specialize (Hm s). destruct (m s) as [[a|?|] s']; [|done|done]. cbn in *. by rewrite Hf.
Qed.

Lemma keeps_get : keeps get.
Proof. by intros []. Qed.

Lemma keeps_stage (f : Sidecar -> Sidecar) : keeps (stage f).
Proof.
  apply keeps_bind; [apply keeps_get|]. intros d [d' [|n]]; [done|]. cbn. by destruct (default Succeeds (head (bd_faults d))).
Qed.

Create HintDb keeps.
#[local] Hint Resolve keeps_ret keeps_raise keeps_lift keeps_bind keeps_get keeps_stage : keeps.

Lemma keeps_flush (batch : list (Z * Z)) : keeps (flush_preimage_batch batch).
Proof.
  unfold flush_preimage_batch, staged_store. destruct batch; [auto with keeps|]. destruct (conflicting _); auto 7 with keeps.
Qed.

#[local] Hint Resolve keeps_flush : keeps.

Lemma keeps_push (st : list (Z * Z) * Z) (h p : Z) : keeps (push_mapping st h p).
Proof. destruct st as [batch unique]. unfold push_mapping. destruct (_ =? _)%nat; auto with keeps. Qed.

#[local] Hint Resolve keeps_push : keeps.

Lemma keeps_storage (storage : list (Z * Z)) (count : Z) (st : list (Z * Z) * Z) : keeps (visit_storage push_mapping storage count st).
Proof.
  revert count st. induction storage as [|[p v] storage IH]; intros count st; cbn [visit_storage]; [auto with keeps|].
  destruct (v =? 0); auto with keeps.
Qed.

#[local] Hint Resolve keeps_storage : keeps.

Lemma keeps_classic (items : list (result string GenesisAccountInput)) (count slots : Z) (st : list (Z * Z) * Z) :
  keeps (visit_classic push_mapping items count slots st).
Proof.
  revert count slots st. induction items as [|item items IH]; intros count slots st; cbn [visit_classic]; [auto with keeps|].
  apply keeps_bind; [auto with keeps|]. intros a. apply keeps_bind; [auto with keeps|]. by intros [].
Qed.

Lemma keeps_arbos (storages : list (list (Z * Z))) (slots : Z) (st : list (Z * Z) * Z) :
  keeps (visit_arbos push_mapping storages slots st).
Proof.
  revert slots st. induction storages as [|storage storages IH]; intros slots st; cbn [visit_arbos]; [auto with keeps|].
  apply keeps_bind; [auto with keeps|]. by intros [].
Qed.

#[local] Hint Resolve keeps_classic keeps_arbos : keeps.

Lemma visit_all_keeps (export : ExportDir) (st : list (Z * Z) * Z) : keeps (visit_arbitrum_one_slot_preimages export push_mapping st).
Proof.
  unfold visit_arbitrum_one_slot_preimages. do 3 (apply keeps_bind; [auto with keeps|intros ?]).
  apply keeps_bind; [auto with keeps|]. intros [[c n] st']. do 5 (apply keeps_bind; [auto with keeps|intros ?]).
  apply keeps_bind; [auto with keeps|]. intros []. auto with keeps.
Qed.

(** The visitor's state: [l] is in the store, [ps] is batched. *)
Definition mapping_inv (l : list Z) (st : list (Z * Z) * Z) (d : BuildDisk) : Prop :=
  exists l0 ps store, staged d store /\ filled store l0 /\ l = l0 ++ ps /\ fst st = (push_preimage <$> ps) /\
    snd st = Z.of_nat (size store).

Lemma push_mapping_spec (l : list Z) (st : list (Z * Z) * Z) (p : Z) (d : BuildDisk) :
  mapping_inv l st d -> wp (push_mapping st (hash_slot p) p) (mapping_inv (l ++ [p])) unpublished d.
Proof.
  intros (l0 & ps & store & Hst & Hf & -> & Hb & Hu). destruct st as [batch unique]. cbn [fst snd] in *. subst.
  unfold push_mapping. change [(hash_slot p, p)] with (push_preimage <$> [p]). rewrite <- fmap_app.
  destruct (length _ =? PREIMAGE_BATCH_SIZE)%nat.
  - apply wp_bind. eapply wp_mono; [by apply flush_spec| |done]. intros n d' (store' & Hst' & Hf' & Hs). apply wp_ret.
    exists (l0 ++ ps ++ [p]), [], store'. rewrite app_nil_r, app_assoc in *. split_and!; try done. cbn. lia.
  - apply wp_ret. exists l0, (ps ++ [p]), store. by rewrite app_assoc.
Qed.

Lemma visit_slots_spec (slots l : list Z) (st : list (Z * Z) * Z) (d : BuildDisk) :
  mapping_inv l st d -> wp (visit_slots push_mapping slots st) (mapping_inv (l ++ slots)) unpublished d.
Proof.
  revert l st d. induction slots as [|p slots IH]; intros l st d Hinv; cbn [visit_slots]; [apply wp_ret; by rewrite app_nil_r|].
  apply wp_bind. eapply wp_mono; [by apply push_mapping_spec| |done]. intros st' d' Hinv'. rewrite cons_middle, app_assoc. by apply IH.
Qed.

(** What a filled store is filled with. *)
Definition holds_export (export : ExportDir) (stats : SlotPreimageStats) (unique : Z) (store : gmap Z Z) : Prop :=
  exists slots, visited export = Ok (stats, slots) /\ filled store slots /\ unique = Z.of_nat (size store).

Lemma fill_store_spec (export : ExportDir) (d : BuildDisk) :
  staged d ∅ ->
  wp (fill_store export) (fun '(stats, unique) d' => exists store, staged d' store /\ holds_export export stats unique store)
    unpublished d.
Proof.
  intros Hst. unfold fill_store. apply wp_bind. destruct (visited export) as [[stats slots]|e] eqn:Hv; cycle 1.
  { intros n. pose proof (visit_all_err export push_mapping ([], 0) e (d, n)) as Hno. destruct Hst as [Hu _].
    pose proof (visit_all_keeps export ([], 0) (d, n)) as Hk. cbn [fst] in Hk.
    destruct (visit_arbitrum_one_slot_preimages _ _ _ _) as [[r|?|] [d' n']]; cbn in *; [by destruct (Hno r Hv)|..];
      unfold unpublished; by rewrite Hk. }
  assert (Hw : wp (visit_arbitrum_one_slot_preimages export push_mapping ([], 0))
    (fun '(stats', st) d' => stats' = stats /\ mapping_inv slots st d') unpublished d).
  { intros n. rewrite (visit_all_eq _ _ _ _ _ _ Hv). revert n. apply wp_bind.
    eapply wp_mono; [apply (visit_slots_spec slots [])| |done]; [|by intros st d' Hi; apply wp_ret].
    exists [], [], ∅. split_and!; try done. apply filled_nil. }
  eapply wp_mono; [exact Hw| |done]. intros [stats' [batch unique]] d' (-> & l0 & ps & store & Hst' & Hf & -> & Hb & Hu).
  cbn [fst snd] in *. subst. apply wp_bind. eapply wp_mono; [by apply flush_spec| |done].
  intros n d2 (store' & Hst2 & Hf2 & Hs2). apply wp_ret. exists store'. split; [done|]. exists (l0 ++ ps). split_and!; [done..|].
  lia.
Qed.

(** ** A build that is not disturbed *)

Definition quiet_disk (d : BuildDisk) : Prop := bd_faults d = [].

Definition no_collision (l : list Z) : Prop := forall p q, p ∈ l -> q ∈ l -> hash_slot p = hash_slot q -> p = q.

Lemma twp_disk_write f (Q : unit -> BuildDisk -> Prop) (d : BuildDisk) :
  quiet_disk d -> (forall d', quiet_disk d' -> Q tt d') -> twp 1 (disk_write f) Q d.
Proof.
  intros Hq HQ. unfold disk_write. apply (twp_bind 0 1), twp_get. rewrite Hq. apply twp_write, HQ.
  unfold quiet_disk in *. rewrite Hq. by destruct (f _).
Qed.

Lemma no_conflict (es : list (Z * Z)) : functional es -> conflicting es = false.
Proof.
  induction es as [|a es IH]; intros Hf; [done|]. destruct es as [|b es]; [done|]. cbn [conflicting].
  apply orb_false_iff. split; [|apply IH; eapply functional_sub; [exact Hf|set_solver]].
  destruct a as [h p], b as [h' q]. cbn [fst snd]. destruct (Z.eqb_spec h h') as [->|]; [|done]. cbn.
  rewrite (Hf h' p q); [by rewrite Z.eqb_refl|left|right; left].
Qed.

Lemma missing_entries_total (store : gmap Z Z) (l : list Z) (es : list (Z * Z)) :
  filled store l -> (forall h p, (h, p) ∈ es -> h = hash_slot p /\ forall q, q ∈ l -> hash_slot q = hash_slot p -> q = p) ->
  exists missing, missing_entries store es = Ok missing.
Proof.
  intros Hf. induction es as [|[h p] es IH]; intros Hok; [by eexists|]. cbn [missing_entries].
  destruct (Hok h p) as [-> Hinj]; [left|]. rewrite Z.eqb_refl. cbn [negb].
  destruct IH as [missing Hm]; [intros h' p' Hin; apply Hok; by right|]. rewrite Hm. cbn [rbind].
  destruct (store !! hash_slot p) as [q|] eqn:Hs; [|by eexists]. apply Hf in Hs as [Hq He]. rewrite (Hinj q Hq (eq_sym He)).
  rewrite Z.eqb_refl. by eexists.
Qed.

Lemma flush_total (store : gmap Z Z) (l ps : list Z) (d : BuildDisk) :
  staged d store -> filled store l -> quiet_disk d -> no_collision (l ++ ps) ->
  twp 1 (flush_preimage_batch (push_preimage <$> ps)) (fun n d' => quiet_disk d' /\ flushed_by store (l ++ ps) n d') d.
Proof.
  intros Hst Hf Hq Hinj. apply (twp_wp _ _ (fun _ d' => quiet_disk d') _ unpublished); [|by apply flush_spec].
  unfold flush_preimage_batch. destruct ps as [|p ps]; [eapply twp_le; [by apply twp_ret|lia]|].
  remember (p :: ps) as ps' eqn:Hps. rewrite Hps at 1. cbn [fmap list_fmap]. clear Hps.
  set (batch := merge_sort key_le (push_preimage <$> ps')).
  assert (Hperm : forall h p, (h, p) ∈ batch -> p ∈ ps' /\ h = hash_slot p).
  { intros h q. unfold batch. rewrite merge_sort_Permutation. unfold push_preimage. rewrite list_elem_of_fmap. naive_solver. }
  rewrite no_conflict; [|intros h q1 q2 [H1 ->]%Hperm [H2 He]%Hperm; apply Hinj; [apply elem_of_app; by right..|done]].
  apply (twp_bind 0 1). unfold staged_store. apply (twp_bind 0 0), twp_get, twp_ret. destruct Hst as [_ ->]. cbn [from_option sc_store].
  destruct (missing_entries_total store l (dedup_by_key batch) Hf) as [missing Hm].
  { intros h q Hin%dedup_sub. destruct (Hperm _ _ Hin) as [Hin' ->]. split; [done|]. intros q' Hq' He.
    apply Hinj; [apply elem_of_app; by left|apply elem_of_app; by right|done]. }
  apply (twp_bind 0 1). eapply twp_lift; [exact Hm|]. apply (twp_bind 1 0), twp_disk_write; [done|]. intros d' Hq'. by apply twp_ret.
Qed.

Lemma push_mapping_total (l : list Z) (st : list (Z * Z) * Z) (p : Z) (d : BuildDisk) :
  mapping_inv l st d -> quiet_disk d -> no_collision (l ++ [p]) ->
  twp 1 (push_mapping st (hash_slot p) p) (fun st' d' => quiet_disk d' /\ mapping_inv (l ++ [p]) st' d') d.
Proof.
  intros Hinv Hq Hinj. apply (twp_wp _ _ (fun _ d' => quiet_disk d') _ unpublished); [|by apply push_mapping_spec].
  destruct Hinv as (l0 & ps & store & Hst & Hf & -> & Hb & Hu). destruct st as [batch unique]. cbn [fst snd] in *. subst.
  unfold push_mapping. change [(hash_slot p, p)] with (push_preimage <$> [p]). rewrite <- fmap_app.
  destruct (length _ =? PREIMAGE_BATCH_SIZE)%nat; [|eapply twp_le; [by apply twp_ret|lia]].
  apply (twp_bind 1 0). eapply twp_mono; [apply (flush_total store l0); try done; by rewrite app_assoc|].
  intros n d' [Hq' _]. by apply twp_ret.
Qed.

Lemma visit_slots_total (slots l : list Z) (st : list (Z * Z) * Z) (d : BuildDisk) :
  mapping_inv l st d -> quiet_disk d -> no_collision (l ++ slots) ->
  twp (length slots) (visit_slots push_mapping slots st) (fun st' d' => quiet_disk d' /\ mapping_inv (l ++ slots) st' d') d.
Proof.
  revert l st d. induction slots as [|p slots IH]; intros l st d Hinv Hq Hinj; cbn [visit_slots length];
    [apply twp_ret; by rewrite app_nil_r|].
  rewrite cons_middle, app_assoc in *. apply (twp_bind 1 (length slots)).
  eapply twp_mono; [apply push_mapping_total; try done|].
  - intros x y Hx Hy. apply Hinj; apply elem_of_app; by left.
  - intros st' d' [Hq' Hinv']. by apply IH.
Qed.

Lemma fill_store_total (export : ExportDir) (stats : SlotPreimageStats) (slots : list Z) (d : BuildDisk) :
  visited export = Ok (stats, slots) -> no_collision slots -> staged d ∅ -> quiet_disk d ->
  twp (length slots + 1) (fill_store export) (fun _ d' => quiet_disk d') d.
Proof.
  intros Hv Hinj Hst Hq. unfold fill_store. apply twp_bind. intros n Hn. rewrite (visit_all_eq _ _ _ _ _ _ Hv). revert n Hn.
  rewrite <- (Nat.add_0_r (length slots)). apply twp_bind.
  eapply twp_mono; [apply (visit_slots_total slots []); try done|].
  { exists [], [], ∅. split_and!; try done. apply filled_nil. }
  intros [batch unique] d' (Hq' & l0 & ps & store & Hst' & Hf & He & Hb & Hu). apply twp_ret. cbn [fst snd] in *. subst.
  apply (twp_bind 1 0). eapply twp_mono; [apply (flush_total store l0); try done; by rewrite <- He|].
  intros m d2 [Hq2 _]. by apply twp_ret.
Qed.

(** The sidecar holds exactly the slots of the export. For a readable export whose slots have
    different hashes, filling the store returns, in whatever batches the slots come: the store maps
    the hash of every slot with a value, of the Classic accounts and of the ArbOS accounts, to that
    slot, and holds nothing else; the counts returned are those of the export and of the store. *)
Theorem fill_store_exact (export : ExportDir) (stats : SlotPreimageStats) (slots : list Z) (n : nat) :
  visited export = Ok (stats, slots) -> no_collision slots -> (length slots + 1 <= n)%nat ->
  let start := {| bd_sidecar := None; bd_staging := Some {| sc_store := ∅; sc_manifest := None |}; bd_faults := [] |} in
  exists store n',
    fill_store export (start, n) = (Ret (stats, Z.of_nat (size store)),
      ({| bd_sidecar := None; bd_staging := Some {| sc_store := store; sc_manifest := None |}; bd_faults := [] |}, n')) /\
    forall h p, store !! h = Some p <-> p ∈ slots /\ h = hash_slot p.
Proof.
  intros Hv Hinj Hn start. assert (Hst : staged start ∅) by done.
  pose proof (fill_store_total export stats slots start Hv Hinj Hst eq_refl) as Ht.
  eapply twp_wp in Ht; [|by apply fill_store_spec]. destruct (Ht n Hn) as ([stats' unique] & d' & n' & Hrun & _ & Hq & store & Hst' & slots' & Hv' & Hf & ->).
  rewrite Hv in Hv'. injection Hv' as <- <-. exists store, n'. split; [|exact Hf]. rewrite Hrun. do 2 f_equal.
  destruct d' as [sidecar staging faults], Hst' as [Hs1 Hs2]. cbn in *. unfold quiet_disk in Hq. cbn in Hq. by subst.
Qed.

(** ** Publishing *)

(** A sidecar of this export, with a valid manifest that counts it. *)
Definition complete_sidecar (export : ExportDir) (sc : Sidecar) : Prop :=
  exists stats unique, holds_export export stats unique (sc_store sc) /\
    sc_manifest sc = Some {| pm_version := MANIFEST_VERSION; pm_stats := stats; pm_unique_mappings := unique |} /\
    preimage_manifest_validate {| pm_version := MANIFEST_VERSION; pm_stats := stats; pm_unique_mappings := unique |} = Ok tt.

Lemma wp_or_discard {A : Type} (m : BuildIO A) (Q : A -> BuildDisk -> Prop) (C1 C : BuildDisk -> Prop) (d : BuildDisk) :
  wp m Q C1 d -> (forall d', C1 d' -> C d') -> (forall d' d2, C1 d' -> bd_sidecar d2 = bd_sidecar d' -> C d2) ->
  wp (or_discard m) Q C d.
Proof.
  intros Hm HC HK n. specialize (Hm n). unfold or_discard. destruct (m (d, n)) as [[a|e|] [d' n']]; [done| |by apply HC].
  unfold disk_write, mthen, get, write. cbn. destruct n' as [|n']; [by apply HC|].
  destruct (default Succeeds (head (bd_faults d'))); cbn; by eapply HK.
Qed.

Lemma build_body_spec (export : ExportDir) (d : BuildDisk) :
  staged d ∅ ->
  wp (or_discard (
        let! '(stats, unique_mappings) := fill_store export in
        let! manifest := lift (preimage_manifest_new stats unique_mappings) in
        let! _ := write_preimage_manifest manifest in
        sync_directory))
    (fun _ d' => bd_sidecar d' = None /\ exists sc, bd_staging d' = Some sc /\ complete_sidecar export sc) unpublished d.
Proof.
  intros Hst. eapply (wp_or_discard _ _ unpublished); [|done|by intros d' d2 Hu He; unfold unpublished; rewrite He].
  apply wp_bind. eapply wp_mono; [by apply fill_store_spec| |done].
  intros [stats unique] d1 (store & [Hsc Hstg] & Hold). apply wp_bind, wp_lift; [done|]. intros manifest Hm.
  unfold preimage_manifest_new in Hm. apply rbind_Ok in Hm as ([] & Hval & Hm). injection Hm as <-.
  apply wp_bind, wp_disk_write; [done|]. intros d2 Hd2. rewrite Hsc, Hstg in Hd2. injection Hd2 as Hsc2 Hstg2. split; [done|].
  apply wp_disk_write; [done|]. intros d3 Hd3. rewrite Hsc2, Hstg2 in Hd3. injection Hd3 as Hsc3 Hstg3. split; [done|].
  split; [done|]. eexists. split; [exact Hstg3|]. exists stats, unique. by split_and!.
Qed.

Lemma build_preimages_spec (export : ExportDir) (d : BuildDisk) :
  let published d' := exists sc, bd_sidecar d' = Some sc /\ complete_sidecar export sc in
  wp (build_preimages export) (fun _ => published) (fun d' => bd_sidecar d' = bd_sidecar d \/ published d') d.
Proof.
  intros published. unfold build_preimages. apply wp_bind, wp_get.
  destruct (bd_sidecar d) as [sc|] eqn:Hsc; [apply wp_raise; by left|]. destruct (bd_staging d) as [sc|]; [apply wp_raise; by left|].
  apply wp_bind, wp_disk_write; [by left|]. intros d1 Hd1. rewrite Hsc in Hd1. injection Hd1 as Hsc1 Hstg1. split; [by left|].
  apply wp_bind. eapply wp_mono; [by apply build_body_spec| |by left]. intros [] d2 (Hsc2 & sc & Hstg2 & Hok).
  assert (Hpub : forall d3, (bd_sidecar d3, bd_staging d3) = (bd_staging d2, None) -> published d3).
  { intros d3 Hd3. injection Hd3 as Hs3 _. exists sc. by rewrite Hs3. }
  apply wp_bind. eapply (wp_or_discard _ _ (fun d' => bd_sidecar d' = None \/ published d')); [|done|].
  - apply wp_disk_write; [by left|]. intros d3 Hd3%Hpub. split; [by right|]. apply wp_disk_write; [by right|].
    intros d4 Hd4. assert (published d4); [|by split; [right|]]. destruct Hd3 as (sc' & Hs & Hc). exists sc'.
    injection Hd4 as -> _. done.
  - intros d' d3 [Hn|(sc' & Hs & Hc)] He; rewrite <- He in *; [by left|right; by exists sc'].
Qed.

(** C24. A sidecar is published whole or not at all. Whatever the export holds, whatever fails and
    wherever the power is lost, a build leaves the sidecar that was there, or one that holds exactly
    the slots of the export with a valid manifest that counts them; a build that returns leaves the
    latter, and an existing sidecar is never replaced. *)
Theorem sidecar_published (export : ExportDir) (d d' : BuildDisk) (n n' : nat) (r : Result string unit) :
  build_preimages export (d, n) = (r, (d', n')) ->
  let published := exists sc, bd_sidecar d' = Some sc /\ complete_sidecar export sc in
  (bd_sidecar d' = bd_sidecar d \/ bd_sidecar d = None /\ published) /\ (r = Ret tt -> published).
Proof.
  intros Hrun published. pose proof (build_preimages_spec export d n) as Hs. rewrite Hrun in Hs.
  assert (Hkeep : is_Some (bd_sidecar d) -> bd_sidecar d' = bd_sidecar d).
  { intros [sc Hsc]. unfold build_preimages, mthen, get in Hrun. cbn in Hrun. rewrite Hsc in Hrun. cbn in Hrun. by injection Hrun as _ <- _. }
  destruct (bd_sidecar d) as [sc|] eqn:Hsc.
  - specialize (Hkeep ltac:(by eexists)). split; [by left|]. intros ->. exact Hs.
  - destruct r as [[]|e|]; [split; [by right|done]|..]; (split; [|done]); destruct Hs as [Hs|Hs]; [by left|by right|by left|by right].
Qed.
End Spec.

(** ** A small export *)

Module SampleExport.
#[local] Existing Instance Reference.keccak.

Definition account1 : RawAccount := {|
  ra_addr := 1; ra_balance := "10"; ra_nonce := 0;
  ra_contract_info := Some {| rc_code := [x60]; rc_contract_storage := Some [(1, 5); (2, 0); (7, 9)] |}
|}.

#[export] Instance json : ClassicExport := {|
  json_index s := if decide (s = "index"%string)
    then Some {| ix_next_block_number := 300; ix_accounts_path := "accounts"; ix_address_table_path := "table";
                 ix_retryable_path := "retryables" |} else None;
  json_account s := if decide (s = "a1"%string) then Some account1 else None;
  json_address s := if decide (s = "t1"%string) then Some 77 else None;
  json_retryable s := None;
  u256_parse s := parse_u64 s;
  build_mainnet_genesis_accounts table pending := Ok [[(7, 3); (8, 1)]; []]
|}.

Definition export : ExportDir := {|
  ed_index := Ok "index"%string;
  ed_accounts path := Ok [Ok "a1"%string; Ok "  "%string];
  ed_text path := if decide (path = "table"%string) then Ok ["  t1 "%string] else Ok []
|}.

Definition stats : SlotPreimageStats := {|
  sp_next_block_number := 300; sp_classic_accounts := 1; sp_classic_slots := 2; sp_arbos_accounts := 2; sp_arbos_slots := 2;
  sp_address_table_entries := 1; sp_retryables := 0
|}.

Lemma fill_store_exact_witness :
  exists store n',
    fill_store export ({| bd_sidecar := None; bd_staging := Some {| sc_store := ∅; sc_manifest := None |}; bd_faults := [] |}, 9%nat)
      = (Ret (stats, Z.of_nat (size store)),
         ({| bd_sidecar := None; bd_staging := Some {| sc_store := store; sc_manifest := None |}; bd_faults := [] |}, n')) /\
    forall h p, store !! h = Some p <-> p ∈ [1; 7; 7; 8] /\ h = hash_slot p.
Proof.
  apply (fill_store_exact export stats [1; 7; 7; 8] 9).
  - vm_compute. reflexivity.
  - intros p q Hp Hq. rewrite !elem_of_cons in Hp, Hq.
    destruct Hp as [->|[->|[->|[->|[]%elem_of_nil]]]], Hq as [->|[->|[->|[->|[]%elem_of_nil]]]]; first [intros _; reflexivity | vm_compute; discriminate].
  - cbn. lia.
Defined.

Definition empty_disk : BuildDisk := {| bd_sidecar := None; bd_staging := None; bd_faults := [] |}.

Definition built : Result string unit * (BuildDisk * nat) := build_preimages export (empty_disk, 20%nat).

Lemma built_parts : build_preimages export (empty_disk, 20%nat) = (fst built, (fst (snd built), snd (snd built))).
Proof. unfold built. destruct (build_preimages _ _) as [? [? ?]]. reflexivity. Qed.

(** The sample is not the canonical export: its build fails, and nothing is left. *)
Lemma sidecar_published_witness :
  fst built <> Ret tt /\ bd_staging (fst (snd built)) = None /\
  (bd_sidecar (fst (snd built)) = None \/
   None = @None Sidecar /\ exists sc, bd_sidecar (fst (snd built)) = Some sc /\ complete_sidecar export sc).
Proof.
  split; [vm_compute; discriminate|]. split; [vm_compute; reflexivity|].
  exact (proj1 (sidecar_published export empty_disk (fst (snd built)) 20 (snd (snd built)) (fst built) built_parts)).
Defined.
End SampleExport.
