(* ===== verification/TxLog.v ===== *)
(** * Transaction log stream and execution frontiers

    [crates/arb-reth-engine/src/tx_log_stream.rs]: while a block is built, the state after each
    transaction is kept under an identifier in a bounded store that RPC simulation reads, and an
    event is published for local consumers. [crates/arb-reth-node/src/mev_tx_logs.rs] sends the
    events over a socket, one binary frame each; the frame format is the one of
    [docs/mev-tx-log-ipc.md], whose reader is [read_frame] here. The EVM's state and environment
    are parameters, and so is tokio's broadcast channel, through the answers of [recv]. *)

From Stdlib Require Import Strings.Byte Strings.String.
From stdpp Require Import base list numbers option strings gmap.
From S2P Require Import Prelude External.

Definition TX_LOG_STREAM_CAPACITY : nat := 1024.
Definition EXECUTION_FRONTIER_CAPACITY : nat := TX_LOG_STREAM_CAPACITY.

(** ** Execution frontiers *)

Section Frontiers.
Context {KC : Keccak} {EvmState EvmEnv CacheState ChainContext : Type}.

Record FrontierBlockBase := {
  base_parent_hash : Z;
  base_evm_env : EvmEnv;
  base_pre_execution_state : CacheState
}.

(** The deltas of a block, newest first. *)
Inductive FrontierStateDelta :=
  | Delta (previous : option FrontierStateDelta) (update : EvmState).

Record ArbExecutionFrontier := {
  frontier_id : Z;
  ef_block_number : Z;
  ef_transaction_index : Z;
  ef_transaction_hash : Z;
  ef_chain_context : ChainContext;
  ef_base : FrontierBlockBase;
  ef_tail : FrontierStateDelta
}.

Definition parent_hash (self : ArbExecutionFrontier) : Z := base_parent_hash (ef_base self).
Definition evm_env (self : ArbExecutionFrontier) : EvmEnv := base_evm_env (ef_base self).
Definition pre_execution_state (self : ArbExecutionFrontier) : CacheState := base_pre_execution_state (ef_base self).

(** The walk over [previous], pushing each update. *)
Fixpoint walk_deltas (node : FrontierStateDelta) : list EvmState :=
  match node with
  | Delta previous update =>
      update :: match previous with
                | Some node => walk_deltas node
                | None => []
                end
  end.

Definition state_updates (self : ArbExecutionFrontier) : list EvmState := reverse (walk_deltas (ef_tail self)).

(** *** The store *)

Record ExecutionFrontierInner := { order : list Z; frontiers : gmap Z ArbExecutionFrontier }.

Record ArbExecutionFrontierStore := { inner : ExecutionFrontierInner; capacity : nat }.

Definition store_new (capacity : nat) : ArbExecutionFrontierStore :=
  {| inner := {| order := []; frontiers := ∅ |}; capacity := Nat.max capacity 1 |}.

Definition store_default : ArbExecutionFrontierStore := store_new EXECUTION_FRONTIER_CAPACITY.

Definition store_get (self : ArbExecutionFrontierStore) (id : Z) : option ArbExecutionFrontier :=
  frontiers (inner self) !! id.

(** The [while] loop: the oldest entries go until the order fits. *)
Fixpoint expire (capacity : nat) (order : list Z) (fs : gmap Z ArbExecutionFrontier) : ExecutionFrontierInner :=
  match order with
  | expired :: rest =>
      if (capacity <? length order)%nat then expire capacity rest (base.delete expired fs)
      else {| order := order; frontiers := fs |}
  | [] => {| order := []; frontiers := fs |}
  end.

Definition store_insert (self : ArbExecutionFrontierStore) (frontier : ArbExecutionFrontier) : ArbExecutionFrontierStore :=
  let id := frontier_id frontier in
  let pushed :=
    match frontiers (inner self) !! id with
    | None => order (inner self) ++ [id]
    | Some _ => order (inner self)
    end in
  {| inner := expire (capacity self) pushed (<[id := frontier]> (frontiers (inner self))); capacity := capacity self |}.

(** *** The block being built *)

Record ArbExecutionFrontierBlock := { fb_base : FrontierBlockBase; fb_tail : option FrontierStateDelta }.

Definition begin_frontier_block (parent_hash : Z) (evm_env : EvmEnv) (pre_execution_state : CacheState)
    : ArbExecutionFrontierBlock := {|
  fb_base := {| base_parent_hash := parent_hash; base_evm_env := evm_env;
                base_pre_execution_state := pre_execution_state |};
  fb_tail := None
|}.

(** The 80 bytes that identify a frontier. *)
Definition identity (parent_hash block_number transaction_index transaction_hash : Z) : bytes :=
  be_encode 32 parent_hash ++ be_encode 8 block_number ++ be_encode 8 transaction_index ++
  be_encode 32 transaction_hash.

(** The frontier, the handle after it, and the store that the handle shares. *)
Definition advance (store : ArbExecutionFrontierStore) (self : ArbExecutionFrontierBlock)
    (block_number transaction_index transaction_hash : Z) (update : EvmState) (chain_context : ChainContext)
    : Z * ArbExecutionFrontierBlock * ArbExecutionFrontierStore :=
  let id := keccak256 (identity (base_parent_hash (fb_base self)) block_number transaction_index transaction_hash) in
  let tail := Delta (fb_tail self) update in
  (id, {| fb_base := fb_base self; fb_tail := Some tail |},
   store_insert store {|
     frontier_id := id; ef_block_number := block_number; ef_transaction_index := transaction_index;
     ef_transaction_hash := transaction_hash; ef_chain_context := chain_context;
     ef_base := fb_base self; ef_tail := tail |}).

(** *** Builders sharing the store

    Any number of blocks are begun and advanced in any order; a step on a handle that was not begun
    does not exist. *)

Inductive BuilderOp :=
  | Begin (parent_hash : Z) (evm_env : EvmEnv) (pre_execution_state : CacheState)
  | Advance (handle : nat) (block_number transaction_index transaction_hash : Z)
      (update : EvmState) (chain_context : ChainContext).

Record Builders := { bl_store : ArbExecutionFrontierStore; bl_blocks : list ArbExecutionFrontierBlock }.

Definition builder_step (s : Builders) (op : BuilderOp) : option Builders :=
  match op with
  | Begin p e c => Some {| bl_store := bl_store s; bl_blocks := bl_blocks s ++ [begin_frontier_block p e c] |}
  | Advance i n t h u c =>
      block ← bl_blocks s !! i;
      let '(_, block, store) := advance (bl_store s) block n t h u c in
      Some {| bl_store := store; bl_blocks := <[i := block]> (bl_blocks s) |}
  end.

Definition builder_run (s : Builders) (ops : list BuilderOp) : option Builders :=
  foldl (fun s op => s ≫= fun s => builder_step s op) (Some s) ops.

Definition builders_new (capacity : nat) : Builders := {| bl_store := store_new capacity; bl_blocks := [] |}.

(** ** The store against the list of what was inserted *)

(** [order] lists the keys of [frontiers], once each. *)
Definition inner_ok (s : ExecutionFrontierInner) : Prop :=
  NoDup (order s) /\ forall id, id ∈ order s <-> is_Some (frontiers s !! id).

Lemma expire_spec (cap : nat) (o : list Z) (fs : gmap Z ArbExecutionFrontier) :
  inner_ok {| order := o; frontiers := fs |} ->
  inner_ok (expire cap o fs) /\ order (expire cap o fs) = drop (length o - cap) o /\
  (forall id, id ∈ order (expire cap o fs) -> frontiers (expire cap o fs) !! id = fs !! id).
Proof.
  revert fs. induction o as [|x o IH]; intros fs Hok; [done|]. cbn [expire].
  destruct (Nat.ltb_spec cap (length (x :: o))) as [Hlt|Hge].
  - destruct Hok as [[Hx Hnd]%NoDup_cons Hdom]. cbn [order frontiers] in *.
    destruct (IH (base.delete x fs)) as (Hok' & Hord & Hlk).
    { split; [done|]. intros id. cbn [order frontiers]. split.
      - intros Hid. rewrite lookup_delete_ne by (intros ->; done). apply Hdom. by right.
      - intros [f Hf]. apply lookup_delete_Some in Hf as [Hne Hf].
        assert (Hin : id ∈ x :: o) by (apply Hdom; by eexists). apply elem_of_cons in Hin as [->|]; done. }
    split; [done|]. split.
    + rewrite Hord. cbn [length] in *. by replace (S (length o) - cap)%nat with (S (length o - cap))%nat by lia.
    + intros id Hid. rewrite Hlk by done. rewrite lookup_delete_ne; [done|].
      intros <-. rewrite Hord in Hid. apply Hx. eapply (sublist_subseteq (drop _ o)); [apply sublist_drop|exact Hid].
  - split; [done|]. cbn [order]. replace (length (x :: o) - cap)%nat with O by lia. done.
Qed.

Definition pushed (s : ExecutionFrontierInner) (id : Z) : list Z :=
  match frontiers s !! id with
  | None => order s ++ [id]
  | Some _ => order s
  end.

Lemma insert_ok (s : ExecutionFrontierInner) (f : ArbExecutionFrontier) :
  inner_ok s -> inner_ok {| order := pushed s (frontier_id f); frontiers := <[frontier_id f := f]> (frontiers s) |}.
Proof.
  intros [Hnd Hdom]. unfold pushed. split; cbn [order frontiers].
  - destruct (frontiers s !! frontier_id f) eqn:E; [done|]. apply NoDup_app. split; [done|]. split; [|apply NoDup_singleton].
    intros id Hid ->%list_elem_of_singleton. apply Hdom in Hid as [? ?]. congruence.
  - intros id. rewrite lookup_insert_is_Some. destruct (frontiers s !! frontier_id f) eqn:E.
    + rewrite Hdom. split; [destruct (decide (frontier_id f = id)); naive_solver|].
      intros [<-|[_ ?]]; [by eexists|done].
    + rewrite elem_of_app, list_elem_of_singleton, Hdom. destruct (decide (frontier_id f = id)); naive_solver.
Qed.

Lemma store_insert_ok (s : ArbExecutionFrontierStore) (f : ArbExecutionFrontier) :
  inner_ok (inner s) -> inner_ok (inner (store_insert s f)) /\
  order (inner (store_insert s f)) =
    drop (length (pushed (inner s) (frontier_id f)) - capacity s) (pushed (inner s) (frontier_id f)) /\
  (forall id, id ∈ order (inner (store_insert s f)) ->
     store_get (store_insert s f) id = if decide (frontier_id f = id) then Some f else store_get s id).
Proof.
  intros Hok. destruct (expire_spec (capacity s) _ _ (insert_ok _ f Hok)) as (Hok' & Hord & Hlk).
  split; [done|]. split; [done|]. intros id Hid. unfold store_get, store_insert. cbn [inner].
  etrans; [by apply Hlk|]. case_decide as Hid'; [subst; apply lookup_insert_eq|by rewrite lookup_insert_ne].
Qed.
Definition insert_all (cap : nat) (fs : list ArbExecutionFrontier) : ArbExecutionFrontierStore :=
  foldl store_insert (store_new cap) fs.

Definition ids (fs : list ArbExecutionFrontier) : list Z := frontier_id <$> fs.

Lemma insert_all_snoc (cap : nat) (fs : list ArbExecutionFrontier) (f : ArbExecutionFrontier) :
  insert_all cap (fs ++ [f]) = store_insert (insert_all cap fs) f.
Proof. unfold insert_all. by rewrite foldl_app. Qed.

Lemma ids_snoc (fs : list ArbExecutionFrontier) (f : ArbExecutionFrontier) : ids (fs ++ [f]) = ids fs ++ [frontier_id f].
Proof. unfold ids. by rewrite fmap_app. Qed.

Lemma insert_all_capacity (cap : nat) (fs : list ArbExecutionFrontier) : capacity (insert_all cap fs) = Nat.max cap 1.
Proof. induction fs as [|f fs IH] using rev_ind; [done|]. by rewrite insert_all_snoc. Qed.

Lemma insert_all_ok (cap : nat) (fs : list ArbExecutionFrontier) : inner_ok (inner (insert_all cap fs)).
Proof.
  induction fs as [|f fs IH] using rev_ind.
  - split; [constructor|]. intros id. cbn. rewrite elem_of_nil, lookup_empty. split; [done|]. by intros [? ?].
  - rewrite insert_all_snoc. by apply store_insert_ok.
Qed.

Lemma insert_all_bound (cap : nat) (fs : list ArbExecutionFrontier) :
  (length (order (inner (insert_all cap fs))) <= Nat.max cap 1)%nat.
Proof.
  induction fs as [|f fs IH] using rev_ind; [cbn; lia|]. rewrite insert_all_snoc.
  destruct (store_insert_ok _ f (insert_all_ok cap fs)) as (_ & -> & _).
  rewrite length_drop, insert_all_capacity. lia.
Qed.

Lemma store_get_order (s : ArbExecutionFrontierStore) (id : Z) :
  inner_ok (inner s) -> is_Some (store_get s id) <-> id ∈ order (inner s).
Proof. intros [_ Hdom]. symmetry. apply Hdom. Qed.

(** What is found is the last frontier inserted under its identifier. *)
Lemma insert_all_latest (cap : nat) (fs : list ArbExecutionFrontier) (id : Z) (f : ArbExecutionFrontier) :
  store_get (insert_all cap fs) id = Some f ->
  exists l r, fs = l ++ f :: r /\ frontier_id f = id /\ id ∉ ids r.
Proof.
  revert f. induction fs as [|g fs IH] using rev_ind; intros f; [by unfold store_get; cbn; rewrite lookup_empty|].
  rewrite insert_all_snoc. intros Hf.
  destruct (store_insert_ok _ g (insert_all_ok cap fs)) as (Hok & _ & Hlk).
  rewrite Hlk in Hf by (apply store_get_order; [done|by eexists]). case_decide as Hid.
  - injection Hf as <-. exists fs, []. split; [done|]. split; [done|]. set_solver.
  - destruct (IH f Hf) as (l & r & -> & Hfid & Hr). exists l, (r ++ [g]).
    split; [by rewrite <- app_assoc|]. split; [done|]. rewrite ids_snoc. set_solver.
Qed.

(** The order of arrival: an identifier arrives when it is observed while it is not among the newest
    [cap] arrivals; observed again while it still is, it keeps its place. *)
Definition newest (cap : nat) (l : list Z) : list Z := drop (length l - cap) l.

Definition arrive (cap : nat) (past : list Z) (id : Z) : list Z :=
  if decide (id ∈ newest cap past) then past else past ++ [id].

Definition arrivals (cap : nat) (observed : list Z) : list Z := foldl (arrive cap) [] observed.

Lemma arrivals_snoc (cap : nat) (l : list Z) (id : Z) :
  arrivals cap (l ++ [id]) = arrive cap (arrivals cap l) id.
Proof. unfold arrivals. by rewrite foldl_app. Qed.

Lemma arrivals_in (cap : nat) (l : list Z) (id : Z) : id ∈ arrivals cap l -> id ∈ l.
Proof.
  induction l as [|x l IH] using rev_ind; [done|]. rewrite arrivals_snoc. unfold arrive. case_decide; set_solver.
Qed.

Lemma arrivals_nodup (cap : nat) (l : list Z) : NoDup l -> arrivals cap l = l.
Proof.
  induction l as [|x l IH] using rev_ind; [done|]. intros (Hnd & Hx & _)%NoDup_app.
  rewrite arrivals_snoc, IH by done. unfold arrive. rewrite decide_False; [done|]. intros Hin.
  apply (Hx x); [|by left]. eapply (sublist_subseteq (newest cap l)); [apply sublist_drop|exact Hin].
Qed.

Lemma newest_snoc (cap : nat) (l : list Z) (id : Z) :
  drop (length (newest cap l ++ [id]) - cap) (newest cap l ++ [id]) = newest cap (l ++ [id]).
Proof.
  unfold newest. rewrite !length_app, length_drop. cbn [length].
  destruct (decide (length l <= cap)%nat) as [Hle|Hgt].
  - replace (length l - cap)%nat with O by lia. rewrite drop_0. f_equal. lia.
  - destruct (decide (cap = O)) as [->|Hcap].
    + rewrite !drop_ge; [done|rewrite length_app; cbn; lia..|]. rewrite length_app, length_drop. cbn. lia.
    + rewrite !drop_app_le by (rewrite ?length_drop; lia). rewrite drop_drop. do 2 f_equal. lia.
Qed.

(** The stored identifiers are the newest arrivals, in their order. *)
Lemma insert_all_order (cap : nat) (fs : list ArbExecutionFrontier) :
  order (inner (insert_all cap fs)) = newest (Nat.max cap 1) (arrivals (Nat.max cap 1) (ids fs)).
Proof.
  induction fs as [|f fs IH] using rev_ind; [done|]. rewrite ids_snoc, insert_all_snoc, arrivals_snoc.
  destruct (store_insert_ok _ f (insert_all_ok cap fs)) as (_ & -> & _). rewrite insert_all_capacity.
  pose proof (store_get_order _ (frontier_id f) (insert_all_ok cap fs)) as Hin. unfold store_get in Hin.
  pose proof (insert_all_bound cap fs) as Hb. rewrite IH in *. unfold pushed, arrive.
  destruct (frontiers (inner (insert_all cap fs)) !! frontier_id f) as [g|].
  - rewrite decide_True by (apply Hin; by eexists). rewrite IH.
    by replace (length (newest _ _) - Nat.max cap 1)%nat with O by lia.
  - rewrite decide_False by (intros [? ?]%Hin; done). rewrite IH. apply newest_snoc.
Qed.

(** The last observation under an identifier is one. *)
Lemma latest_unique (fs l r l' r' : list ArbExecutionFrontier) (f g : ArbExecutionFrontier) :
  fs = l ++ f :: r -> fs = l' ++ g :: r' -> frontier_id f = frontier_id g ->
  frontier_id f ∉ ids r -> frontier_id g ∉ ids r' -> f = g.
Proof.
  intros -> E Hid Hr Hr'. unfold ids in *. apply app_eq_inv in E as [(k & -> & E)|(k & -> & E)].
  - destruct k as [|x k]; cbn in E; simplify_eq; [done|]. exfalso. apply Hr'. set_solver.
  - destruct k as [|x k]; cbn in E; simplify_eq; [done|]. exfalso. apply Hr. set_solver.
Qed.

(** Exactly the newest arrivals are found, each with the last observation under it. *)
Lemma insert_all_exact (cap : nat) (fs : list ArbExecutionFrontier) (id : Z) (f : ArbExecutionFrontier) :
  store_get (insert_all cap fs) id = Some f <->
  id ∈ newest (Nat.max cap 1) (arrivals (Nat.max cap 1) (ids fs)) /\
  exists l r, fs = l ++ f :: r /\ frontier_id f = id /\ id ∉ ids r.
Proof.
  rewrite <- insert_all_order, <- store_get_order by apply insert_all_ok. split.
  - intros Hf. split; [by eexists|by eapply insert_all_latest].
  - intros [[g Hg] (l & r & Hfs & <- & Hr)]. rewrite Hg. f_equal.
    destruct (insert_all_latest _ _ _ _ Hg) as (l' & r' & Hfs' & Hid & Hr').
    eapply latest_unique; [exact Hfs'|exact Hfs|done|by rewrite Hid|done].
Qed.

(** When no identifier repeats, each observation is the last under its own. *)
Lemma latest_nodup (fs : list ArbExecutionFrontier) (f : ArbExecutionFrontier) :
  NoDup (ids fs) -> f ∈ fs -> exists l r, fs = l ++ f :: r /\ frontier_id f ∉ ids r.
Proof.
  intros Hnd (l & r & ->)%list_elem_of_split. exists l, r. split; [done|].
  unfold ids in Hnd. rewrite fmap_app in Hnd. apply NoDup_app in Hnd as (_ & _ & Hnd).
  by apply NoDup_cons in Hnd as [? _].
Qed.

(** Then the last ones are found. *)
Lemma insert_all_recent (cap : nat) (fs : list ArbExecutionFrontier) (f : ArbExecutionFrontier) :
  NoDup (ids fs) -> f ∈ drop (length fs - Nat.max cap 1) fs ->
  store_get (insert_all cap fs) (frontier_id f) = Some f.
Proof.
  intros Hnd Hf. apply insert_all_exact. rewrite arrivals_nodup by done. split.
  - unfold newest, ids. rewrite <- fmap_drop, length_fmap. by apply list_elem_of_fmap_2.
  - destruct (latest_nodup fs f Hnd) as (l & r & Hfs & Hr); [|by exists l, r].
    eapply sublist_subseteq; [apply sublist_drop|exact Hf].
Qed.

(** ** What the builders observed *)

(** The updates of a handle and the blocks begun, by the operations. *)
Definition updates_of (i : nat) (ops : list BuilderOp) : list EvmState :=
  omap (fun op => match op with
                  | Advance j _ _ _ u _ => if decide (j = i) then Some u else None
                  | Begin _ _ _ => None
                  end) ops.

Definition begun (ops : list BuilderOp) : list FrontierBlockBase :=
  omap (fun op => match op with
                  | Begin p e c => Some {| base_parent_hash := p; base_evm_env := e; base_pre_execution_state := c |}
                  | Advance _ _ _ _ _ _ => None
                  end) ops.

(** The chain that holds updates in order. *)
Definition chain (updates : list EvmState) : option FrontierStateDelta :=
  foldl (fun node u => Some (Delta node u)) None updates.

(** The frontier that an operation after [before] observes. *)
Definition observed_after (before : list BuilderOp) (op : BuilderOp) : option ArbExecutionFrontier :=
  match op with
  | Begin _ _ _ => None
  | Advance i n t h u c =>
      base ← begun before !! i;
      Some {| frontier_id := keccak256 (identity (base_parent_hash base) n t h); ef_block_number := n;
              ef_transaction_index := t; ef_transaction_hash := h; ef_chain_context := c; ef_base := base;
              ef_tail := Delta (chain (updates_of i before)) u |}
  end.

Definition opt_list {A : Type} (o : option A) : list A :=
  match o with
  | Some a => [a]
  | None => []
  end.

(** Every frontier the operations observe, in order. *)
Fixpoint observed_from (before ops : list BuilderOp) : list ArbExecutionFrontier :=
  match ops with
  | [] => []
  | op :: ops => opt_list (observed_after before op) ++ observed_from (before ++ [op]) ops
  end.

Abbreviation observed ops := (observed_from [] ops).

Lemma observed_from_app (before ops ops' : list BuilderOp) :
  observed_from before (ops ++ ops') = observed_from before ops ++ observed_from (before ++ ops) ops'.
Proof.
  revert before. induction ops as [|op ops IH]; intros before; cbn; [by rewrite app_nil_r|].
  by rewrite IH, <- !app_assoc.
Qed.

Lemma observed_snoc (ops : list BuilderOp) (op : BuilderOp) :
  observed (ops ++ [op]) = observed ops ++ opt_list (observed_after ops op).
Proof. rewrite observed_from_app. cbn. by rewrite app_nil_r. Qed.

Lemma delta_chain_snoc (us : list EvmState) (u : EvmState) : chain (us ++ [u]) = Some (Delta (chain us) u).
Proof. unfold chain. by rewrite foldl_app. Qed.

Lemma chain_walk (us : list EvmState) (u : EvmState) : reverse (walk_deltas (Delta (chain us) u)) = us ++ [u].
Proof.
  revert u. induction us as [|v us IH] using rev_ind; intros u; [done|].
  rewrite delta_chain_snoc. cbn [walk_deltas]. rewrite reverse_cons. f_equal. apply IH.
Qed.

Lemma builder_run_snoc (s : Builders) (ops : list BuilderOp) (op : BuilderOp) :
  builder_run s (ops ++ [op]) = builder_run s ops ≫= fun s => builder_step s op.
Proof. unfold builder_run. by rewrite foldl_app. Qed.

Lemma updates_of_snoc (i : nat) (ops : list BuilderOp) (op : BuilderOp) :
  updates_of i (ops ++ [op]) = updates_of i ops ++ updates_of i [op].
Proof. apply omap_app. Qed.

Lemma begun_snoc (ops : list BuilderOp) (op : BuilderOp) : begun (ops ++ [op]) = begun ops ++ begun [op].
Proof. apply omap_app. Qed.

(** The handles and the store, against the operations. *)
Lemma builder_run_spec (cap : nat) (ops : list BuilderOp) (s : Builders) :
  builder_run (builders_new cap) ops = Some s ->
  bl_store s = insert_all cap (observed ops) /\
  bl_blocks s = imap (fun i base => {| fb_base := base; fb_tail := chain (updates_of i ops) |}) (begun ops) /\
  (forall i, (length (begun ops) <= i)%nat -> updates_of i ops = []).
Proof.
  revert s. induction ops as [|op ops IH] using rev_ind; intros s; [by intros [= <-]|].
  rewrite builder_run_snoc. destruct (builder_run (builders_new cap) ops) as [s0|]; [|done]. cbn [mbind option_bind].
  destruct (IH s0 eq_refl) as (Hst & Hbl & Hnone). clear IH. intros Hs.
  rewrite observed_snoc, begun_snoc. destruct op as [p e c|i n t h u c]; cbn [builder_step observed_after] in *.
  - injection Hs as <-. cbn [bl_store bl_blocks]. cbn [opt_list]. rewrite app_nil_r. split; [done|].
    assert (Hupd : forall i, updates_of i (ops ++ [Begin p e c]) = updates_of i ops)
      by (intros i; rewrite updates_of_snoc; apply app_nil_r).
    split.
    + rewrite imap_app, Hbl. cbn. f_equal; [|].
      * apply imap_ext. intros i x _. by rewrite Hupd.
      * rewrite Hupd, Nat.add_0_r, Hnone by lia. done.
    + intros i. rewrite length_app. cbn. intros Hi. rewrite Hupd. apply Hnone. lia.
  - destruct (bl_blocks s0 !! i) as [b|] eqn:Hb; [|done]. cbn in Hs. injection Hs as <-. cbn [bl_store bl_blocks].
    rewrite Hbl, list_lookup_imap in Hb. destruct (begun ops !! i) as [base|] eqn:Hbase; [|done].
    injection Hb as <-. cbn [mbind option_bind fb_base fb_tail]. cbn [opt_list].
    rewrite insert_all_snoc, Hst.
    split; [done|]. rewrite app_nil_r. split.
    + rewrite Hbl. apply list_eq. intros j. rewrite list_lookup_imap, updates_of_snoc. cbn.
      destruct (decide (i = j)) as [->|Hij].
      * rewrite list_lookup_insert_eq by (rewrite length_imap; by eapply lookup_lt_Some).
        by rewrite Hbase, delta_chain_snoc.
      * rewrite list_lookup_insert_ne, list_lookup_imap by done. by rewrite app_nil_r.
    + intros j Hj. rewrite updates_of_snoc, Hnone by done. cbn. rewrite decide_False; [done|].
      intros ->. apply lookup_lt_Some in Hbase. lia.
Qed.
Lemma inner_ok_size (s : ExecutionFrontierInner) : inner_ok s -> size (frontiers s) = length (order s).
Proof.
  intros [Hnd Hdom]. rewrite <- (size_list_to_set (C := gset Z)) by done. rewrite <- size_dom. f_equal.
  apply set_eq. intros id. by rewrite elem_of_dom, elem_of_list_to_set, Hdom.
Qed.

(** A frontier is what one of the operations observed: its own fields, the base of its block, and
    every update of that block so far, in order. *)
Definition observation (ops : list BuilderOp) (f : ArbExecutionFrontier) : Prop :=
  exists before i n t h u c after base,
    ops = before ++ Advance i n t h u c :: after /\ begun before !! i = Some base /\
    frontier_id f = keccak256 (identity (parent_hash f) n t h) /\
    parent_hash f = base_parent_hash base /\ evm_env f = base_evm_env base /\
    pre_execution_state f = base_pre_execution_state base /\ ef_chain_context f = c /\
    state_updates f = updates_of i before ++ [u].

Lemma observed_observation (ops : list BuilderOp) (f : ArbExecutionFrontier) : f ∈ observed ops -> observation ops f.
Proof.
  induction ops as [|op ops IH] using rev_ind; [by intros ?%elem_of_nil|].
  rewrite observed_snoc, elem_of_app. intros [Hf|Hf].
  - destruct (IH Hf) as (l & i & n & t & h & u & c & r & base & -> & Hrest).
    exists l, i, n, t, h, u, c, (r ++ [op]), base. by rewrite <- app_assoc.
  - destruct op as [p e c|i n t h u c]; [by apply elem_of_nil in Hf|]. cbn in Hf.
    destruct (begun ops !! i) as [base|] eqn:Hb; [|by apply elem_of_nil in Hf]. cbn in Hf.
    apply list_elem_of_singleton in Hf as ->. exists ops, i, n, t, h, u, c, [], base.
    split_and!; try done. apply chain_walk.
Qed.

(** C32. The frontier store is bounded and exact. Whatever blocks are begun and advanced, and in
    whatever interleaving, the store never holds more frontiers than its capacity. It finds a
    frontier under an identifier exactly when the identifier is one of the last [capacity] arrivals,
    an observation under an identifier that is still stored being no new arrival (so that it keeps
    its old place, and may be evicted before identifiers observed earlier than its last
    observation); and what it finds is the latest observation under that identifier, with the exact
    environment and the updates of its block in execution order. In particular, as long as no
    identifier repeats, each of the last [capacity] observations is found. *)
Theorem frontier_store_exact (cap : nat) (ops : list BuilderOp) (s : Builders) :
  builder_run (builders_new cap) ops = Some s ->
  (size (frontiers (inner (bl_store s))) <= Nat.max cap 1)%nat /\
  (forall id f, store_get (bl_store s) id = Some f <->
     id ∈ newest (Nat.max cap 1) (arrivals (Nat.max cap 1) (ids (observed ops))) /\
     exists l r, observed ops = l ++ f :: r /\ frontier_id f = id /\ id ∉ ids r) /\
  (forall f, f ∈ observed ops -> observation ops f) /\
  (NoDup (ids (observed ops)) -> forall f,
     f ∈ drop (length (observed ops) - Nat.max cap 1) (observed ops) -> store_get (bl_store s) (frontier_id f) = Some f).
Proof.
  intros (-> & _ & _)%builder_run_spec. split_and!.
  - rewrite inner_ok_size by apply insert_all_ok. apply insert_all_bound.
  - intros id f. apply insert_all_exact.
  - apply observed_observation.
  - intros Hnd f. by apply insert_all_recent.
Qed.
End Frontiers.

Arguments FrontierBlockBase : clear implicits.
Arguments FrontierStateDelta : clear implicits.
Arguments ArbExecutionFrontier : clear implicits.
Arguments BuilderOp : clear implicits.
Arguments Builders : clear implicits.

(** ** Events and their frames *)

Inductive ArbTxExecutionKind := StartBlock | User | ScheduledRetry.

Record Log := { log_address : Z; log_topics : list Z; log_data : bytes }.

Record ArbTxLogEvent := {
  te_block_number : Z;
  te_transaction_index : Z;
  te_transaction_hash : Z;
  te_frontier_id : Z;
  te_kind : ArbTxExecutionKind;
  te_success : bool;
  te_gas_used : Z;
  te_logs : list Log
}.

Definition FRAME_VERSION : Z := 2.
Definition FIXED_BODY_LEN : Z := 96.
Definition MAX_LOG_TOPICS : nat := 4.

(** [u32::try_from] *)
Definition u32_try_from (z : Z) : option Z := if z <? 2 ^ 32 then Some z else None.

(** The length of the body, log by log. *)
Fixpoint add_log_lengths (logs : list Log) (body_len : Z) : result string Z :=
  match logs with
  | [] => Ok body_len
  | log :: logs =>
      if (MAX_LOG_TOPICS <? length (log_topics log))%nat then
        Err "MEV transaction-log event has too many log topics"%string
      else
        let? data_len := ok_or "MEV transaction-log log data exceeds 4 GiB"%string
                           (u32_try_from (Z.of_nat (length (log_data log)))) in
        let? body_len := ok_or "MEV transaction-log frame length overflow"%string
                           (checked_add body_len (25 + Z.of_nat (length (log_topics log)) * 32 + data_len)) in
        add_log_lengths logs body_len
  end.

Definition kind_byte (kind : ArbTxExecutionKind) : Z :=
  match kind with
  | StartBlock => 0
  | User => 1
  | ScheduledRetry => 2
  end.

Definition encode_log (log : Log) : bytes :=
  be_encode 20 (log_address log) ++ [z2b (Z.of_nat (length (log_topics log)))] ++
  be_encode 4 (Z.of_nat (length (log_data log))) ++ flat_map (be_encode 32) (log_topics log) ++ log_data log.

Definition encode_event (event : ArbTxLogEvent) : result string bytes :=
  let? log_count := ok_or "MEV transaction-log event has too many logs"%string
                      (u32_try_from (Z.of_nat (length (te_logs event)))) in
  let? body_len := add_log_lengths (te_logs event) FIXED_BODY_LEN in
  let? frame_len := ok_or "MEV transaction-log frame exceeds 4 GiB"%string (u32_try_from body_len) in
  Ok (be_encode 4 frame_len ++
      [z2b FRAME_VERSION; z2b (kind_byte (te_kind event)); z2b (Z.b2z (te_success event)); z2b 0] ++
      be_encode 8 (te_block_number event) ++ be_encode 8 (te_transaction_index event) ++
      be_encode 8 (te_gas_used event) ++ be_encode 32 (te_transaction_hash event) ++
      be_encode 32 (te_frontier_id event) ++ be_encode 4 log_count ++ flat_map encode_log (te_logs event)).

(** ** The socket *)

(** [remove_stale_socket], over what [symlink_metadata] says of the path. *)
Inductive PathMetadata := PathNotFound | PathError | PathSocket | PathOther.

(** Whether the path may be bound, and whether the file is removed; [removes] is the outcome of
    [remove_file]. *)
Definition remove_stale_socket (metadata : PathMetadata) (removes : bool) : result string unit * bool :=
  match metadata with
  | PathNotFound => (Ok tt, false)
  | PathError => (Err "inspect"%string, false)
  | PathOther => (Err "refusing to replace non-socket MEV transaction-log IPC path"%string, false)
  | PathSocket => if removes then (Ok tt, true) else (Err "remove stale socket"%string, false)
  end.

(** What [events.recv()] answers. *)
Inductive Received := Event (event : ArbTxLogEvent) | Lagged | Closed.

(** One client: [answers] of the channel, and for each frame whether [write_all] wrote it all
    ([None]) or failed after some bytes. The bytes the client gets. *)
Fixpoint stream_client (answers : list Received) (writes : list (option nat)) : bytes :=
  match answers with
  | [] | Lagged :: _ | Closed :: _ => []
  | Event event :: answers =>
      match encode_event event with
      | Err _ => stream_client answers writes
      | Ok encoded =>
          match writes with
          | [] => []
          | Some n :: _ => take n encoded
          | None :: writes => encoded ++ stream_client answers writes
          end
      end
  end.


(** ** The documented reader *)

Definition take_bytes (n : Z) (bs : bytes) : option (bytes * bytes) :=
  if Z.of_nat (length bs) <? n then None else Some (take (Z.to_nat n) bs, drop (Z.to_nat n) bs).

Definition take_uint (n : Z) (bs : bytes) : option (Z * bytes) :=
  '(field, rest) ← take_bytes n bs;
  Some (be_decode field, rest).

Fixpoint take_topics (n : nat) (bs : bytes) : option (list Z * bytes) :=
  match n with
  | O => Some ([], bs)
  | S n =>
      '(topic, bs) ← take_uint 32 bs;
      '(topics, bs) ← take_topics n bs;
      Some (topic :: topics, bs)
  end.

Definition take_log (bs : bytes) : option (Log * bytes) :=
  '(address, bs) ← take_uint 20 bs;
  '(topic_count, bs) ← take_uint 1 bs;
  '(data_length, bs) ← take_uint 4 bs;
  if 4 <? topic_count then None
  else
    '(topics, bs) ← take_topics (Z.to_nat topic_count) bs;
    '(data, bs) ← take_bytes data_length bs;
    Some ({| log_address := address; log_topics := topics; log_data := data |}, bs).

Fixpoint take_logs (n : nat) (bs : bytes) : option (list Log * bytes) :=
  match n with
  | O => Some ([], bs)
  | S n =>
      '(log, bs) ← take_log bs;
      '(logs, bs) ← take_logs n bs;
      Some (log :: logs, bs)
  end.

Definition read_kind (z : Z) : option ArbTxExecutionKind :=
  if z =? 0 then Some StartBlock else if z =? 1 then Some User else if z =? 2 then Some ScheduledRetry else None.

Definition read_flag (z : Z) : option bool :=
  if z =? 0 then Some false else if z =? 1 then Some true else None.

(** A log record takes at least 25 bytes, so that a count the body cannot hold is refused first. *)
Definition decode_body (bs : bytes) : option ArbTxLogEvent :=
  '(version, bs) ← take_uint 1 bs;
  '(kind, bs) ← take_uint 1 bs;
  '(success, bs) ← take_uint 1 bs;
  '(flags, bs) ← take_uint 1 bs;
  '(block_number, bs) ← take_uint 8 bs;
  '(transaction_index, bs) ← take_uint 8 bs;
  '(gas_used, bs) ← take_uint 8 bs;
  '(transaction_hash, bs) ← take_uint 32 bs;
  '(id, bs) ← take_uint 32 bs;
  '(log_count, bs) ← take_uint 4 bs;
  kind ← read_kind kind;
  success ← read_flag success;
  if negb ((version =? 2) && (flags =? 0)) then None
  else if Z.of_nat (length bs) <? 25 * log_count then None
  else
    '(logs, bs) ← take_logs (Z.to_nat log_count) bs;
    if bool_decide (bs = []) then
      Some {| te_block_number := block_number; te_transaction_index := transaction_index;
              te_transaction_hash := transaction_hash; te_frontier_id := id; te_kind := kind;
              te_success := success; te_gas_used := gas_used; te_logs := logs |}
    else None.

Inductive ReadFrame := Incomplete | ProtocolError | Frame (event : ArbTxLogEvent) (rest : bytes).

Definition read_frame (bs : bytes) : ReadFrame :=
  match take_uint 4 bs with
  | None => Incomplete
  | Some (frame_length, bs) =>
      match take_bytes frame_length bs with
      | None => Incomplete
      | Some (body, rest) =>
          match decode_body body with
          | Some event => Frame event rest
          | None => ProtocolError
          end
      end
  end.

(** Every whole frame, and whether the stream broke the protocol; a frame has at least four bytes. *)
Fixpoint read_stream (fuel : nat) (bs : bytes) : list ArbTxLogEvent * bool :=
  match fuel with
  | O => ([], true)
  | S fuel =>
      match read_frame bs with
      | Incomplete => ([], true)
      | ProtocolError => ([], false)
      | Frame event rest => let '(events, ok) := read_stream fuel rest in (event :: events, ok)
      end
  end.

(** ** Events in, events out *)

Definition log_ok (log : Log) : Prop := is_address (log_address log) /\ Forall is_b256 (log_topics log).

(** The widths of the fields' types. *)
Definition event_ok (e : ArbTxLogEvent) : Prop :=
  is_u64 (te_block_number e) /\ is_u64 (te_transaction_index e) /\ is_u64 (te_gas_used e) /\
  is_b256 (te_transaction_hash e) /\ is_b256 (te_frontier_id e) /\ Forall log_ok (te_logs e).

Definition log_len (log : Log) : Z := 25 + Z.of_nat (length (log_topics log)) * 32 + Z.of_nat (length (log_data log)).
Definition logs_len (logs : list Log) : Z := foldr (fun log n => log_len log + n) 0 logs.

(** An event fits a frame: at most four topics a log, and a body below 4 GiB. *)
Definition encodable (e : ArbTxLogEvent) : bool :=
  forallb (fun log => length (log_topics log) <=? MAX_LOG_TOPICS)%nat (te_logs e) &&
  (FIXED_BODY_LEN + logs_len (te_logs e) <? 2 ^ 32).

Lemma log_len_nonneg (log : Log) : 25 <= log_len log.
Proof. unfold log_len. lia. Qed.

Lemma logs_len_cons (l : Log) (logs : list Log) : logs_len (l :: logs) = log_len l + logs_len logs.
Proof. done. Qed.

Lemma logs_len_count (logs : list Log) : 25 * Z.of_nat (length logs) <= logs_len logs.
Proof.
  induction logs as [|l logs IH]; [done|]. rewrite logs_len_cons. cbn [length]. pose proof (log_len_nonneg l). lia.
Qed.

Lemma add_log_lengths_Ok (logs : list Log) (n m : Z) :
  add_log_lengths logs n = Ok m -> m = n + logs_len logs /\
  forallb (fun log => length (log_topics log) <=? MAX_LOG_TOPICS)%nat logs = true.
Proof.
  revert n. induction logs as [|l logs IH]; intros n; cbn [add_log_lengths]; [intros [= <-]; cbn; split; [lia|done]|].
  destruct (Nat.ltb_spec MAX_LOG_TOPICS (length (log_topics l))) as [|Hle]; [done|]. intros Ha. ok_inv.
  unfold u32_try_from in E. if_inv E. injection E as <-. unfold checked_add in E0. if_inv E0. injection E0 as <-.
  destruct (IH _ Ha) as [-> Hall]. rewrite logs_len_cons. cbn [forallb]. rewrite Hall, andb_true_r. split; [unfold log_len; lia|].
  by apply Nat.leb_le.
Qed.

Lemma add_log_lengths_fits (logs : list Log) (n : Z) :
  forallb (fun log => length (log_topics log) <=? MAX_LOG_TOPICS)%nat logs = true ->
  0 <= n -> n + logs_len logs < 2 ^ 32 -> add_log_lengths logs n = Ok (n + logs_len logs).
Proof.
  revert n. induction logs as [|l logs IH]; intros n Hall Hn Hfit; [cbn; f_equal; lia|].
  rewrite logs_len_cons in *. cbn [forallb] in Hall. apply andb_true_iff in Hall as [Hl%Nat.leb_le Hall]. pose proof (logs_len_count logs). cbn [add_log_lengths].
  destruct (Nat.ltb_spec MAX_LOG_TOPICS (length (log_topics l))) as [|_]; [lia|].
  unfold log_len in *. unfold u32_try_from. destruct (Z.ltb_spec (Z.of_nat (length (log_data l))) (2 ^ 32)); [|lia].
  cbn [ok_or rbind]. unfold checked_add. destruct (Z.leb_spec (n + (25 + Z.of_nat (length (log_topics l)) * 32 + Z.of_nat (length (log_data l)))) U64_MAX);
    [|unfold U64_MAX in *; lia].
  cbn [ok_or rbind]. rewrite IH; [f_equal; lia|done|lia|lia].
Qed.

(** An event encodes exactly when it fits a frame. *)
Lemma encode_event_iff (e : ArbTxLogEvent) : (exists bs, encode_event e = Ok bs) <-> encodable e = true.
Proof.
  unfold encode_event, encodable. split.
  - intros [bs He]. ok_inv. apply add_log_lengths_Ok in E0 as [-> ->]. unfold u32_try_from in E1. if_inv E1. done.
  - intros [Hall Hfit%Z.ltb_lt]%andb_true_iff. unfold FIXED_BODY_LEN in *. pose proof (logs_len_count (te_logs e)).
    rewrite add_log_lengths_fits by (done || lia). unfold u32_try_from.
    destruct (Z.ltb_spec (Z.of_nat (length (te_logs e))) (2 ^ 32)); [|lia]. cbn [ok_or rbind].
    destruct (Z.ltb_spec (96 + logs_len (te_logs e)) (2 ^ 32)); [|lia].
    cbn [ok_or rbind]. eexists. reflexivity.
Qed.

(** *** Reading back what is written *)

Lemma take_bytes_app (n : Z) (l r : bytes) : Z.of_nat (length l) = n -> take_bytes n (l ++ r) = Some (l, r).
Proof.
  intros <-. unfold take_bytes. rewrite length_app, Nat2Z.id.
  destruct (Z.ltb_spec (Z.of_nat (length l + length r)) (Z.of_nat (length l))); [lia|].
  by rewrite take_app_length, drop_app_length.
Qed.

Lemma take_uint_app (n : Z) (k : nat) (z : Z) (r : bytes) :
  Z.of_nat k = n -> 0 <= z < 256 ^ n -> take_uint n (be_encode k z ++ r) = Some (z, r).
Proof.
  intros <- Hz. unfold take_uint. rewrite take_bytes_app by (by rewrite be_encode_length). cbn.
  by rewrite be_decode_encode_small.
Qed.

Lemma take_byte_cons (z : Z) (r : bytes) : 0 <= z < 256 -> take_uint 1 (z2b z :: r) = Some (z, r).
Proof. intros Hz. change (z2b z :: r) with (be_encode 1 z ++ r). by apply take_uint_app. Qed.

Lemma take_topics_app (ts : list Z) (r : bytes) :
  Forall is_b256 ts -> take_topics (length ts) (flat_map (be_encode 32) ts ++ r) = Some (ts, r).
Proof.
  induction 1 as [|t ts Ht _ IH]; [done|]. cbn [length take_topics flat_map]. rewrite <- app_assoc.
  rewrite take_uint_app by (done || exact Ht). cbn. by rewrite IH.
Qed.

Lemma flat_map_be_length (ts : list Z) : length (flat_map (be_encode 32) ts) = (length ts * 32)%nat.
Proof. induction ts as [|t ts IH]; [done|]. cbn [flat_map length]. rewrite length_app, be_encode_length, IH. lia. Qed.

Lemma encode_log_length (log : Log) : Z.of_nat (length (encode_log log)) = log_len log.
Proof.
  unfold encode_log, log_len. rewrite !length_app, !be_encode_length, flat_map_be_length. cbn [length]. lia.
Qed.

Lemma encode_logs_length (logs : list Log) : Z.of_nat (length (flat_map encode_log logs)) = logs_len logs.
Proof.
  induction logs as [|l logs IH]; [done|]. cbn [flat_map]. rewrite length_app, logs_len_cons, <- IH, <- encode_log_length. lia.
Qed.

Lemma take_log_app (log : Log) (r : bytes) :
  log_ok log -> (length (log_topics log) <= 4)%nat -> Z.of_nat (length (log_data log)) < 2 ^ 32 ->
  take_log (encode_log log ++ r) = Some (log, r).
Proof.
  intros [Ha Ht] Hn Hd. unfold take_log, encode_log. rewrite <- !app_assoc. cbn [app].
  rewrite take_uint_app by (done || exact Ha). cbn [mbind option_bind].
  rewrite take_byte_cons by lia. cbn [mbind option_bind]. rewrite take_uint_app by (done || (split; [lia|exact Hd])).
  cbn [mbind option_bind]. destruct (Z.ltb_spec 4 (Z.of_nat (length (log_topics log)))); [lia|].
  rewrite Nat2Z.id, take_topics_app by done. cbn [mbind option_bind].
  rewrite take_bytes_app by done. by destruct log.
Qed.

Lemma take_logs_app (logs : list Log) (r : bytes) :
  Forall log_ok logs -> forallb (fun log => length (log_topics log) <=? MAX_LOG_TOPICS)%nat logs = true ->
  logs_len logs < 2 ^ 32 -> take_logs (length logs) (flat_map encode_log logs ++ r) = Some (logs, r).
Proof.
  induction 1 as [|l logs Hl _ IH]; [done|]. rewrite logs_len_cons. cbn [forallb]. intros [Hn%Nat.leb_le Hall]%andb_true_iff Hlen.
  pose proof (logs_len_count logs). unfold log_len in Hlen.
  cbn [length take_logs flat_map]. rewrite <- app_assoc, take_log_app by (done || lia). cbn [mbind option_bind].
  by rewrite IH by (done || lia).
Qed.

Lemma read_kind_byte (k : ArbTxExecutionKind) : read_kind (kind_byte k) = Some k.
Proof. by destruct k. Qed.

Lemma read_flag_byte (b : bool) : read_flag (Z.b2z b) = Some b.
Proof. by destruct b. Qed.

Definition encode_body (event : ArbTxLogEvent) : bytes :=
  [z2b FRAME_VERSION; z2b (kind_byte (te_kind event)); z2b (Z.b2z (te_success event)); z2b 0] ++
  be_encode 8 (te_block_number event) ++ be_encode 8 (te_transaction_index event) ++
  be_encode 8 (te_gas_used event) ++ be_encode 32 (te_transaction_hash event) ++
  be_encode 32 (te_frontier_id event) ++ be_encode 4 (Z.of_nat (length (te_logs event))) ++
  flat_map encode_log (te_logs event).

Lemma encode_event_body (e : ArbTxLogEvent) (bs : bytes) :
  encode_event e = Ok bs ->
  bs = be_encode 4 (Z.of_nat (length (encode_body e))) ++ encode_body e /\
  Z.of_nat (length (encode_body e)) < 2 ^ 32 /\ encodable e = true.
Proof.
  intros He. assert (Henc : encodable e = true) by (apply encode_event_iff; by exists bs).
  unfold encode_event in He. ok_inv. apply add_log_lengths_Ok in E0 as [-> _].
  unfold u32_try_from in E, E1. if_inv E. if_inv E1. injection E as <-. injection E1 as <-.
  assert (Hlen : FIXED_BODY_LEN + logs_len (te_logs e) = Z.of_nat (length (encode_body e))).
  { unfold encode_body, FIXED_BODY_LEN. rewrite !length_app, !be_encode_length. cbn [length].
    rewrite <- encode_logs_length. lia. }
  rewrite Hlen in *. split; [done|]. split; [|done]. by apply Z.ltb_lt.
Qed.

Lemma decode_encode_body (e : ArbTxLogEvent) :
  event_ok e -> encodable e = true -> decode_body (encode_body e) = Some e.
Proof.
  intros (Hbn & Hti & Hgas & Hth & Hfid & Hlogs) [Hall Hfit%Z.ltb_lt]%andb_true_iff.
  pose proof (logs_len_count (te_logs e)) as Hc. unfold FIXED_BODY_LEN in Hfit.
  assert (Hk : 0 <= kind_byte (te_kind e) < 256) by (destruct (te_kind e); cbn; lia).
  assert (Hs : 0 <= Z.b2z (te_success e) < 256) by (destruct (te_success e); cbn; lia).
  unfold decode_body, encode_body. cbn [app].
  do 4 (rewrite take_byte_cons by (done || unfold FRAME_VERSION; lia); cbn [mbind option_bind]).
  do 6 (rewrite take_uint_app by (done || (split; lia)); cbn [mbind option_bind]).
  rewrite read_kind_byte, read_flag_byte. cbn [mbind option_bind].
  change (negb ((FRAME_VERSION =? 2) && (0 =? 0))) with false. cbn iota.
  destruct (Z.ltb_spec (Z.of_nat (length (flat_map encode_log (te_logs e)))) (25 * Z.of_nat (length (te_logs e)))) as [Hlt|_];
    [rewrite encode_logs_length in Hlt; lia|].
  rewrite Nat2Z.id. rewrite <- (app_nil_r (flat_map encode_log (te_logs e))), take_logs_app by (done || lia).
  cbn [mbind option_bind]. rewrite bool_decide_true by done. by destruct e.
Qed.

Lemma read_frame_app (e : ArbTxLogEvent) (bs rest : bytes) :
  event_ok e -> encode_event e = Ok bs -> read_frame (bs ++ rest) = Frame e rest.
Proof.
  intros Hok (-> & Hlen & Henc)%encode_event_body. unfold read_frame. rewrite <- app_assoc.
  rewrite take_uint_app by (done || (split; [lia|exact Hlen])). rewrite take_bytes_app by done.
  by rewrite decode_encode_body.
Qed.

Lemma take_bytes_short (n : Z) (bs : bytes) : Z.of_nat (length bs) < n -> take_bytes n bs = None.
Proof. intros. unfold take_bytes. destruct (Z.ltb_spec (Z.of_nat (length bs)) n); [done|lia]. Qed.

(** A frame cut short is not yet a frame. *)
Lemma read_frame_cut (e : ArbTxLogEvent) (bs : bytes) (n : nat) :
  encode_event e = Ok bs -> (n < length bs)%nat -> read_frame (take n bs) = Incomplete.
Proof.
  intros (-> & Hlen & _)%encode_event_body. rewrite length_app, be_encode_length. intros Hn. unfold read_frame.
  destruct (decide (n < 4)%nat) as [Hlt|Hge].
  - unfold take_uint. rewrite take_bytes_short; [done|]. rewrite length_take, length_app, be_encode_length. lia.
  - rewrite take_app, be_encode_length, (take_ge (be_encode 4 _)) by (rewrite be_encode_length; lia).
    rewrite take_uint_app by (done || (split; [lia|exact Hlen])).
    rewrite take_bytes_short; [done|]. rewrite length_take. lia.
Qed.

Lemma encode_event_length (e : ArbTxLogEvent) (bs : bytes) : encode_event e = Ok bs -> (100 <= length bs)%nat.
Proof.
  intros (-> & _)%encode_event_body. unfold encode_body. rewrite !length_app, !be_encode_length. cbn [length]. lia.
Qed.

(** What tokio's channel promises a receiver: the events published since it subscribed, in order and
    without a gap, until it lags or the channel closes. *)
Definition fifo (published : list ArbTxLogEvent) (n : nat) (answers : list Received) : Prop :=
  exists rest, answers = (Event <$> take n published) ++ rest /\
    match rest with
    | [] | Lagged :: _ | Closed :: _ => True
    | Event _ :: _ => False
    end.

(** The writes that succeed before the first that fails. *)
Fixpoint successes (writes : list (option nat)) : nat :=
  match writes with
  | None :: writes => S (successes writes)
  | _ => O
  end.

(** The client's reader finds the events of [es] that fit a frame, up to where the stream ends. *)
Lemma read_stream_client (es : list ArbTxLogEvent) (rest : list Received) (writes : list (option nat)) (fuel : nat) :
  Forall event_ok es ->
  match rest with
  | [] | Lagged :: _ | Closed :: _ => True
  | Event _ :: _ => False
  end ->
  (length (stream_client ((Event <$> es) ++ rest) writes) <= fuel)%nat ->
  exists m, read_stream fuel (stream_client ((Event <$> es) ++ rest) writes)
            = (take m (List.filter encodable es), true) /\
    (Nat.min (length (List.filter encodable es)) (successes writes) <= m)%nat.
Proof.
  intros Hok Hrest. revert writes fuel. induction Hok as [|e es He _ IH]; intros writes fuel Hfuel.
  { exists O. cbn in *. split; [|lia]. destruct fuel, rest as [|[] ?]; done. }
  rewrite fmap_cons in *. cbn [app stream_client List.filter] in *.
  destruct (encode_event e) as [bs|err] eqn:Henc.
  - assert (Hfit : encodable e = true) by (apply encode_event_iff; by exists bs). rewrite Hfit.
    pose proof (encode_event_length e bs Henc) as Hl.
    destruct writes as [|[n|] writes].
    + exists O. split; [by destruct fuel|]. cbn. lia.
    + destruct (decide (n < length bs)%nat) as [Hn|Hn].
      * exists O. split; [|cbn; lia]. destruct fuel; [done|]. cbn [read_stream]. by rewrite (read_frame_cut e bs n).
      * exists 1%nat. split; [|cbn; lia]. rewrite take_ge in * by lia. destruct fuel as [|fuel]; [lia|]. cbn [read_stream].
        rewrite <- (app_nil_r bs), (read_frame_app e bs []) by done. by destruct fuel.
    + destruct fuel as [|fuel]; [rewrite length_app in Hfuel; lia|]. cbn [read_stream].
      rewrite (read_frame_app e bs) by done. rewrite length_app in Hfuel.
      destruct (IH writes fuel) as (m & Hm & Hle); [lia|]. rewrite Hm. exists (S m). split; [done|]. cbn [length successes]. lia.
  - assert (Hfit : encodable e = false).
    { destruct (encodable e) eqn:Hf; [|done]. apply encode_event_iff in Hf as [bs Hbs]. congruence. }
    rewrite Hfit. by apply IH.
Qed.

(** A client reads what was published. When the channel delivers the first [n] events published
    since the client connected and then lags or closes, and wherever a write fails, the documented
    reader finds in the bytes the client received only whole, well-formed frames: those of the [n]
    events that fit a frame, in order and without a gap, at least one for every write that succeeded
    before the first failing one. *)
Theorem client_reads_published (published : list ArbTxLogEvent) (n : nat) (answers : list Received) (writes : list (option nat)) :
  Forall event_ok published -> fifo published n answers ->
  let bytes := stream_client answers writes in
  let frames := List.filter encodable (take n published) in
  exists m, read_stream (length bytes) bytes = (take m frames, true) /\ (Nat.min (length frames) (successes writes) <= m)%nat.
Proof.
  intros Hok (rest & -> & Hrest) bytes frames. apply read_stream_client; [by apply Forall_take|done|done].
Qed.

(** ** A sample *)

Module Sample.
Import Reference.

Definition ops : list (BuilderOp nat unit unit unit) := [
  Begin 17 tt tt; Advance 0 42 0 51 100%nat tt; Begin 18 tt tt; Advance 1 43 0 52 200%nat tt;
  Advance 0 42 1 68 101%nat tt ].

(** Two frontiers fit; the first is gone, and the last one carries both updates of its block. *)
Lemma frontier_store_exact_witness :
  exists s, builder_run (builders_new 2) ops = Some s /\
    (size (frontiers (inner (bl_store s))) <= 2)%nat /\
    store_get (bl_store s) (keccak256 (identity 17 42 0 51)) = None /\
    (state_updates <$> store_get (bl_store s) (keccak256 (identity 17 42 1 68))) = Some [100; 101]%nat /\
    (ef_transaction_index <$> store_get (bl_store s) (keccak256 (identity 18 43 0 52))) = Some 0.
Proof.
  eexists. split; [vm_compute; reflexivity|].
  split; [|split; [vm_compute; reflexivity|]; split; vm_compute; reflexivity].
  apply (frontier_store_exact 2 ops). vm_compute. reflexivity.
Defined.

(** A repeated identifier keeps its place: after observations of A, B, A and C, a store of capacity
    2 holds B and C. *)
Example repeat_keeps_place : newest 2 (arrivals 2 [1; 2; 1; 3]) = [2; 3].
Proof. reflexivity. Qed.

Definition log1 : Log := {| log_address := 0x11; log_topics := [0xbb]; log_data := [x12; x34] |}.

Definition event1 : ArbTxLogEvent := {|
  te_block_number := 42; te_transaction_index := 3; te_transaction_hash := 0xaa; te_frontier_id := 0xcc;
  te_kind := User; te_success := true; te_gas_used := 21000; te_logs := [log1]
|}.

(** An event with five topics in a log has no frame. *)
Definition event2 : ArbTxLogEvent := {|
  te_block_number := 42; te_transaction_index := 4; te_transaction_hash := 0xab; te_frontier_id := 0xcd;
  te_kind := ScheduledRetry; te_success := false; te_gas_used := 1;
  te_logs := [{| log_address := 1; log_topics := [1; 2; 3; 4; 5]; log_data := [] |}]
|}.

Definition answers : list Received := [Event event1; Event event2; Event event1; Lagged].

(** The second frame is cut after ten bytes. *)
Lemma client_reads_published_witness :
  (exists m, read_stream (length (stream_client answers [None; Some 10%nat])) (stream_client answers [None; Some 10%nat])
            = (take m (List.filter encodable [event1; event2; event1]), true) /\ (1 <= m)%nat) /\
  fst (read_stream 200 (stream_client answers [None; Some 10%nat])) = [event1].
Proof.
  split; [|vm_compute; reflexivity].
  apply (client_reads_published [event1; event2; event1] 3 answers [None; Some 10%nat]).
  - repeat constructor; cbn; lia.
  - exists [Lagged]. split; [reflexivity|exact I].
Defined.
End Sample.
