(* ===== verification/StoredReceipt.v ===== *)
(** * Stored receipts

    [crates/arb-reth-node/src/stored_receipt.rs] decodes the receipts of a block from the form in
    which Nitro stores them, which lacks the bloom and the transaction type; the type comes from the
    block's transactions, through [receipt_envelope_for_type] of [crates/arb-reth-evm/src/block.rs].
    RLP and the bloom are outside the repository; the laws used are that decoding undoes encoding. *)

From Stdlib Require Import Strings.Byte Strings.String.
From stdpp Require Import base list numbers option strings.
From S2P Require Import Prelude External TxLog.

(** [Bytes::decode], [Vec::<Log>::decode] and [logs_bloom], with the encoders of the exporter. *)
Class ReceiptCodec := {
  codec_rlp :: Rlp;
  bytes_decode : bytes -> option (bytes * bytes);
  logs_decode : bytes -> option (list Log * bytes);
  logs_bloom : list Log -> Z;
  u64_encode : Z -> bytes;
  logs_encode : list Log -> bytes
}.

(** A log of the EVM: at most four topics, and data within memory. *)
Definition log_fits (log : Log) : Prop :=
  log_ok log /\ (length (log_topics log) <= 4)%nat /\ Z.of_nat (length (log_data log)) < 2 ^ 32.

Class ReceiptCodecLaws {RC : ReceiptCodec} := {
  list_header_roundtrip : forall payload tail, Z.of_nat (length payload) < 2 ^ 64 ->
    rlp_header_decode
      (rlp_header_encode {| rlp_list := true; rlp_payload_length := Z.of_nat (length payload) |} ++ payload ++ tail)
    = Some ({| rlp_list := true; rlp_payload_length := Z.of_nat (length payload) |}, payload ++ tail);
  bytes_roundtrip : forall data tail, Z.of_nat (length data) < 2 ^ 64 ->
    bytes_decode (rlp_encode_bytes data ++ tail) = Some (data, tail);
  u64_roundtrip : forall z tail, is_u64 z -> rlp_u64_decode (u64_encode z ++ tail) = Some (z, tail);
  logs_roundtrip : forall logs tail, Forall log_fits logs -> Z.of_nat (length logs) < 2 ^ 64 ->
    logs_decode (logs_encode logs ++ tail) = Some (logs, tail);
  (** A header is not empty. *)
  header_encode_nonempty : forall h, rlp_header_encode h <> []
}.

(** ** Receipts *)

Record ArbReceipt := {
  r_status : bool;
  r_cumulative_gas_used : Z;
  r_logs : list Log;
  r_gas_used_for_l1 : Z
}.

Record ReceiptWithBloom := { rwb_receipt : ArbReceipt; rwb_logs_bloom : Z }.

Inductive ArbReceiptEnvelope :=
  | Legacy (r : ReceiptWithBloom) | Eip2930 (r : ReceiptWithBloom) | Eip1559 (r : ReceiptWithBloom)
  | Eip4844 (r : ReceiptWithBloom) | Eip7702 (r : ReceiptWithBloom) | Deposit (r : ReceiptWithBloom)
  | Unsigned (r : ReceiptWithBloom) | Contract (r : ReceiptWithBloom) | Retry (r : ReceiptWithBloom)
  | SubmitRetryable (r : ReceiptWithBloom) | Internal (r : ReceiptWithBloom).

Definition receipt_envelope_for_type (tx_type : u8) (rwb : ReceiptWithBloom) : ArbReceiptEnvelope :=
  match tx_type with
  | x00 => Legacy rwb
  | x01 => Eip2930 rwb
  | x02 => Eip1559 rwb
  | x03 => Eip4844 rwb
  | x04 => Eip7702 rwb
  | x64 => Deposit rwb
  | x65 => Unsigned rwb
  | x66 => Contract rwb
  | x68 => Retry rwb
  | x69 => SubmitRetryable rwb
  | x6a => Internal rwb
  | _ => Legacy rwb
  end.

Definition ARBITRUM_LEGACY_STATUS : bytes := [x00].

Inductive ReceiptError :=
  | MalformedRlp
  | NotAList
  | ClaimsBytes (claimed : Z) (follow : nat)
  | ReceiptNotAList (index : nat)
  | ReceiptClaims (index : nat) (claimed : Z) (remain : nat)
  | FieldError (index : nat) (field : string)
  | ClassicReceipt (index : nat)
  | UnsupportedStatus (index len : nat)
  | MoreReceipts (transactions receipts : nat)
  | FewerReceipts (transactions receipts : nat).

Section Decode.
Context {RC : ReceiptCodec}.

Definition decode_status (index : nat) (status : bytes) : result ReceiptError bool :=
  if bool_decide (status = ARBITRUM_LEGACY_STATUS) then Err (ClassicReceipt index)
  else
    match status with
    | [] => Ok false
    | [x01] => Ok true
    | other => Err (UnsupportedStatus index (length other))
    end.

(** The receipt, and the rest of the buffer. What follows the logs in the body is not read. *)
Definition decode_one (buf : bytes) (tx_type : u8) (index : nat) : result ReceiptError (ArbReceiptEnvelope * bytes) :=
  let? '(header, buf) := ok_or MalformedRlp (rlp_header_decode buf) in
  if negb (rlp_list header) then Err (ReceiptNotAList index)
  else if Z.of_nat (length buf) <? rlp_payload_length header then
    Err (ReceiptClaims index (rlp_payload_length header) (length buf))
  else
    let n := Z.to_nat (rlp_payload_length header) in
    let body := take n buf in
    let rest := drop n buf in
    let? '(status, body) := ok_or (FieldError index "status"%string) (bytes_decode body) in
    let? status := decode_status index status in
    let? '(cumulative_gas_used, body) := ok_or (FieldError index "cumulativeGasUsed"%string) (rlp_u64_decode body) in
    let? '(gas_used_for_l1, body) := ok_or (FieldError index "l1GasUsed"%string) (rlp_u64_decode body) in
    let? '(logs, _) := ok_or (FieldError index "logs"%string) (logs_decode body) in
    Ok (receipt_envelope_for_type tx_type
          {| rwb_receipt := {| r_status := status; r_cumulative_gas_used := cumulative_gas_used; r_logs := logs;
                               r_gas_used_for_l1 := gas_used_for_l1 |};
             rwb_logs_bloom := logs_bloom logs |}, rest).

(** The [while] loop: [index] receipts are decoded, [tx_types] are the types still to come. *)
Fixpoint decode_loop (tx_types : list u8) (index : nat) (buf : bytes) : result ReceiptError (list ArbReceiptEnvelope) :=
  match buf, tx_types with
  | [], [] => Ok []
  | [], _ => Err (FewerReceipts (index + length tx_types) index)
  | _, [] => Err (MoreReceipts index (index + 1))
  | _, tx_type :: tx_types =>
      let? '(receipt, buf) := decode_one buf tx_type index in
      let? receipts := decode_loop tx_types (S index) buf in
      Ok (receipt :: receipts)
  end.

Definition decode_stored_receipts (rlp : bytes) (tx_types : list u8) : result ReceiptError (list ArbReceiptEnvelope) :=
  let? '(outer, buf) := ok_or MalformedRlp (rlp_header_decode rlp) in
  if negb (rlp_list outer) then Err NotAList
  else if negb (Z.of_nat (length buf) =? rlp_payload_length outer) then
    Err (ClaimsBytes (rlp_payload_length outer) (length buf))
  else decode_loop tx_types 0 buf.

(** ** Nitro's storage form *)

(** A stored receipt and the bytes of its optional trailing fields. *)
Record StoredReceipt := { sr_receipt : ArbReceipt; sr_extra : bytes }.

Definition list_item (payload : bytes) : bytes :=
  rlp_header_encode {| rlp_list := true; rlp_payload_length := Z.of_nat (length payload) |} ++ payload.

Definition receipt_payload (r : StoredReceipt) : bytes :=
  rlp_encode_bytes (if r_status (sr_receipt r) then [x01] else []) ++
  u64_encode (r_cumulative_gas_used (sr_receipt r)) ++ u64_encode (r_gas_used_for_l1 (sr_receipt r)) ++
  logs_encode (r_logs (sr_receipt r)) ++ sr_extra r.

Definition encode_receipt (r : StoredReceipt) : bytes := list_item (receipt_payload r).

Definition encode_stored_receipts (rs : list StoredReceipt) : bytes := list_item (flat_map encode_receipt rs).

Definition receipt_fits (r : StoredReceipt) : Prop :=
  is_u64 (r_cumulative_gas_used (sr_receipt r)) /\ is_u64 (r_gas_used_for_l1 (sr_receipt r)) /\
  Forall log_fits (r_logs (sr_receipt r)) /\ Z.of_nat (length (r_logs (sr_receipt r))) < 2 ^ 64 /\
  Z.of_nat (length (receipt_payload r)) < 2 ^ 64.

(** What a forward sync would have written for a receipt of a transaction of this type. *)
Definition synced (tx_type : u8) (r : StoredReceipt) : ArbReceiptEnvelope :=
  receipt_envelope_for_type tx_type {| rwb_receipt := sr_receipt r; rwb_logs_bloom := logs_bloom (r_logs (sr_receipt r)) |}.

Context {RL : ReceiptCodecLaws}.

Lemma decode_one_encode (r : StoredReceipt) (tail : bytes) (tx_type : u8) (index : nat) :
  receipt_fits r -> decode_one (encode_receipt r ++ tail) tx_type index = Ok (synced tx_type r, tail).
Proof.
  intros (Hc & Hg & Hl & Hn & Hlen). unfold decode_one, encode_receipt, list_item. rewrite <- app_assoc.
  rewrite list_header_roundtrip by done. cbn [ok_or rbind rlp_list rlp_payload_length negb].
  destruct (Z.ltb_spec (Z.of_nat (length (receipt_payload r ++ tail))) (Z.of_nat (length (receipt_payload r))));
    [rewrite length_app in *; lia|].
  rewrite Nat2Z.id, take_app_length, drop_app_length. unfold receipt_payload at 1.
  assert (Hst : Z.of_nat (length (if r_status (sr_receipt r) then [x01] else [])) < 2 ^ 64)
    by (destruct (r_status (sr_receipt r)); cbn; lia).
  rewrite bytes_roundtrip by done. cbn [ok_or rbind].
  assert (decode_status index (if r_status (sr_receipt r) then [x01] else []) = Ok (r_status (sr_receipt r))) as ->
    by (by destruct (r_status (sr_receipt r))).
  cbn [rbind]. rewrite u64_roundtrip by done. cbn [ok_or rbind]. rewrite u64_roundtrip by done. cbn [ok_or rbind].
  rewrite logs_roundtrip by done. cbn [ok_or rbind]. unfold synced. by destruct r as [[] ?].
Qed.

Lemma encode_receipt_nonempty (r : StoredReceipt) (tail : bytes) : exists b l, encode_receipt r ++ tail = b :: l.
Proof.
  unfold encode_receipt, list_item. pose proof (header_encode_nonempty {| rlp_list := true;
    rlp_payload_length := Z.of_nat (length (receipt_payload r)) |}). destruct (rlp_header_encode _) as [|b l]; [done|].
  by eexists b, _.
Qed.

Lemma decode_loop_encode (rs : list StoredReceipt) (tx_types : list u8) (index : nat) :
  Forall receipt_fits rs ->
  decode_loop tx_types index (flat_map encode_receipt rs) =
    if decide (length rs = length tx_types) then Ok (zip_with synced tx_types rs)
    else if (length rs <? length tx_types)%nat then Err (FewerReceipts (index + length tx_types) (index + length rs))
    else Err (MoreReceipts (index + length tx_types) (index + length tx_types + 1)).
Proof.
  intros Hfit. revert tx_types index. induction Hfit as [|r rs Hr _ IH]; intros tys index.
  - destruct tys as [|ty tys]; [done|]. cbn. by rewrite Nat.add_0_r.
  - cbn [flat_map]. destruct (encode_receipt_nonempty r (flat_map encode_receipt rs)) as (b & l & Hbl).
    destruct tys as [|ty tys].
    + rewrite Hbl. cbn [decode_loop length]. rewrite decide_False by done. cbn. by rewrite Nat.add_0_r.
    + assert (Hstep : decode_loop (ty :: tys) index (encode_receipt r ++ flat_map encode_receipt rs) =
        let? '(receipt, buf) := decode_one (encode_receipt r ++ flat_map encode_receipt rs) ty index in
        let? receipts := decode_loop tys (S index) buf in Ok (receipt :: receipts)) by (by rewrite Hbl).
      rewrite Hstep, decode_one_encode by done. cbn [rbind]. rewrite IH. cbn [length zip_with].
      destruct (decide (length rs = length tys)) as [Heq|Hne].
      * by rewrite decide_True by lia.
      * rewrite decide_False by lia. change (S (length rs) <? S (length tys))%nat with (length rs <? length tys)%nat.
        destruct (length rs <? length tys)%nat; cbn [rbind]; do 2 f_equal; lia.
Qed.

(** C37. Stored receipts decode to synced ones. The stored form of a block's receipts decodes, with
    the types of its transactions, to exactly the receipts a forward sync would have written, in
    order and whatever the optional trailing fields hold; with any other number of transactions it
    is refused, and the error says which side is short. *)
Theorem stored_receipts_roundtrip (rs : list StoredReceipt) (tx_types : list u8) :
  Forall receipt_fits rs -> Z.of_nat (length (flat_map encode_receipt rs)) < 2 ^ 64 ->
  decode_stored_receipts (encode_stored_receipts rs) tx_types =
    if decide (length rs = length tx_types) then Ok (zip_with synced tx_types rs)
    else if (length rs <? length tx_types)%nat then Err (FewerReceipts (length tx_types) (length rs))
    else Err (MoreReceipts (length tx_types) (length tx_types + 1)).
Proof.
  intros Hfit Hlen. unfold decode_stored_receipts, encode_stored_receipts, list_item.
  rewrite <- (app_nil_r (flat_map encode_receipt rs)) at 2. rewrite list_header_roundtrip by done.
  cbn [ok_or rbind rlp_list rlp_payload_length negb]. rewrite app_nil_r, Z.eqb_refl. cbn [negb].
  by rewrite decode_loop_encode.
Qed.
End Decode.

(** ** A codec of fixed-width fields *)

Module FixedWidth.

Definition header_encode (h : RlpHeader) : bytes := z2b (Z.b2z (rlp_list h)) :: be_encode 8 (rlp_payload_length h).

Definition header_decode (buf : bytes) : option (RlpHeader * bytes) :=
  '(l, buf) ← take_uint 1 buf;
  '(n, buf) ← take_uint 8 buf;
  Some ({| rlp_list := l =? 1; rlp_payload_length := n |}, buf).

Definition codec : ReceiptCodec := {|
  codec_rlp := {|
    rlp_header_decode := header_decode; rlp_u64_decode := take_uint 8; rlp_header_encode := header_encode;
    rlp_encode_bytes data := be_encode 8 (Z.of_nat (length data)) ++ data |};
  bytes_decode buf := '(n, buf) ← take_uint 8 buf; take_bytes n buf;
  logs_decode buf := '(n, buf) ← take_uint 8 buf; take_logs (Z.to_nat n) buf;
  logs_bloom logs := Z.of_nat (length logs);
  u64_encode := be_encode 8;
  logs_encode logs := be_encode 8 (Z.of_nat (length logs)) ++ flat_map encode_log logs
|}.

Lemma take_logs_fits (logs : list Log) (tail : bytes) :
  Forall log_fits logs -> take_logs (length logs) (flat_map encode_log logs ++ tail) = Some (logs, tail).
Proof.
  induction 1 as [|l logs (Hl & Ht & Hd) _ IH]; [done|]. cbn [length take_logs flat_map].
  rewrite <- app_assoc, take_log_app by done. cbn [mbind option_bind]. by rewrite IH.
Qed.

#[export] Instance laws : ReceiptCodecLaws (RC := codec).
Proof.
  split; cbn [rlp_header_decode rlp_header_encode rlp_encode_bytes rlp_u64_decode codec codec_rlp bytes_decode
    logs_decode u64_encode logs_encode].
  - intros payload tail Hlen. unfold header_decode, header_encode. cbn [app rlp_list rlp_payload_length Z.b2z].
    rewrite take_byte_cons by lia. cbn [mbind option_bind]. by rewrite take_uint_app by (done || (split; [lia|exact Hlen])).
  - intros data tail Hlen. rewrite <- app_assoc, take_uint_app by (done || (split; [lia|exact Hlen])).
    cbn [mbind option_bind]. by apply take_bytes_app.
  - intros z tail Hz. by apply take_uint_app.
  - intros logs tail Hfit Hlen. rewrite <- app_assoc, take_uint_app by (done || (split; [lia|exact Hlen])).
    cbn [mbind option_bind]. rewrite Nat2Z.id. by apply take_logs_fits.
  - done.
Qed.

Definition receipt1 : StoredReceipt := {|
  sr_receipt := {| r_status := true; r_cumulative_gas_used := 21000; r_logs := [TxLog.Sample.log1]; r_gas_used_for_l1 := 7 |};
  sr_extra := [xaa; xbb]
|}.

Definition receipt2 : StoredReceipt := {|
  sr_receipt := {| r_status := false; r_cumulative_gas_used := 42000; r_logs := []; r_gas_used_for_l1 := 0 |};
  sr_extra := []
|}.

Lemma receipts_fit : Forall (receipt_fits (RC := codec)) [receipt1; receipt2].
Proof.
  repeat constructor; cbn [receipt1 receipt2 sr_receipt r_cumulative_gas_used r_gas_used_for_l1 r_logs length
      TxLog.Sample.log1 log_address log_topics log_data]; try lia; vm_compute; reflexivity.
Qed.

(** Two receipts, of a start-block transaction and of a dynamic-fee one. *)
Lemma stored_receipts_roundtrip_witness :
  decode_stored_receipts (RC := codec) (encode_stored_receipts (RC := codec) [receipt1; receipt2]) [x6a; x02]
    = Ok [synced (RC := codec) x6a receipt1; synced (RC := codec) x02 receipt2] /\
  synced (RC := codec) x6a receipt1 = Internal {| rwb_receipt := sr_receipt receipt1; rwb_logs_bloom := 1 |}.
Proof.
  split; [|reflexivity].
  exact (stored_receipts_roundtrip (RC := codec) (RL := laws) [receipt1; receipt2] [x6a; x02] receipts_fit
           ltac:(vm_compute; reflexivity)).
Defined.
End FixedWidth.
