(* ===== verification/SnapshotFull.v ===== *)
(** * The full-snapshot importer

    [crates/arb-reth-node/src/commands/snapshot_full.rs]: a snapshot stream becomes a datadir: blocks
    checked against their headers, the state history as changesets, the state, the indices and, last,
    the completion manifest. The stream reader is [SnapshotStream], receipts are [StoredReceipt]'s,
    and the command is a program over [Crash]: every commit may fail or be the last one. The resume log
    and the names of the changeset files are written without a sync: [power_loss] says what becomes of
    them. Reth's tables are lists and maps of what is put into them; its codecs, roots, trie and
    stages are parameters. *)

From Stdlib Require Import Strings.Byte Strings.Ascii Strings.String.
From stdpp Require Import base list numbers option strings gmap.
From S2P Require Import Prelude External Text Crash StoredReceipt SnapshotStream.

(** alloy's headers and bodies, and the roots computed from them. *)
Class BlockCodec := {
  BlockHeader : Type;
  bh_number : BlockHeader -> Z;
  bh_transactions_root : BlockHeader -> Z;
  bh_receipts_root : BlockHeader -> Z;
  bh_state_root : BlockHeader -> Z;
  bh_hash : BlockHeader -> Z;
  block_header_decode : bytes -> option (BlockHeader * bytes);
  Transaction : Type;
  tx_type_byte : Transaction -> u8;
  block_body_decode : bytes -> option (list Transaction * bytes);
  calculate_transaction_root : list Transaction -> Z;
  calculate_receipt_root : list ArbReceiptEnvelope -> Z
}.

Definition BLOCK_BATCH : nat := 4000.
Definition TX_BATCH : nat := 50000.
Definition CHANGESET_BATCH : nat := 250000.
Definition STATE_COMMIT_THRESHOLD : nat := 250000.

(** ** The datadir *)

Record AccountInfo := { ai_nonce : Z; ai_balance : Z; ai_bytecode_hash : option Z }.
Record AccountBeforeTx := { ab_address : Z; ab_info : option AccountInfo }.
Record StorageBeforeTx := { sb_address : Z; sb_key : Z; sb_value : Z }.

(** [SnapshotImportManifest]; its version is always the current one. *)
Record ImportManifest := { im_block_number : Z; im_block_hash : Z; im_state_root : Z }.

(** The resume log in the datadir: [std::fs::write] creates or truncates the file, then writes it. *)
Inductive ResumeFile := NoFile | Truncated | Written (resume : ResumePoint).

Record Datadir {BC : BlockCodec} := {
  (** The header segment: number, hash and header. *)
  dd_headers : list (Z * Z * BlockHeader);
  dd_header_numbers : gmap Z Z;
  (** The bodies appended, in order; body indices follow from them. *)
  dd_bodies : list (Z * option (list Transaction));
  dd_receipts : list (Z * ArbReceiptEnvelope);
  (** Where the changeset segments begin, and their entries. *)
  dd_changeset_start : option Z;
  dd_account_changesets : list (Z * list AccountBeforeTx);
  dd_storage_changesets : list (Z * list StorageBeforeTx);
  dd_hashed_accounts : gmap Z AccountInfo;
  (** A dup-sorted table: every entry of every account. *)
  dd_hashed_storages : gset (Z * Z * Z);
  dd_bytecodes : gmap Z bytes;
  (** Whether the changeset files carry the names of their headers. *)
  dd_renamed : bool;
  (** The block every stage checkpoint names, and the last block without history. *)
  dd_checkpoints : option Z;
  dd_pruned_to : option Z;
  dd_resume : ResumeFile;
  dd_complete : option ImportManifest
}.

Definition empty_datadir {BC : BlockCodec} : Datadir := {|
  dd_headers := []; dd_header_numbers := ∅; dd_bodies := []; dd_receipts := []; dd_changeset_start := None;
  dd_account_changesets := []; dd_storage_changesets := []; dd_hashed_accounts := ∅; dd_hashed_storages := ∅;
  dd_bytecodes := ∅; dd_renamed := false; dd_checkpoints := None; dd_pruned_to := None; dd_resume := NoFile;
  dd_complete := None
|}.

(** ** What a power loss takes back

    The tables and the completion manifest are synced when they are written. The new names of the
    changeset files and the resume log are not: the process that wrote them sees them, and so does
    the next one after a kill, but a power loss may restore old names and leave the log absent or
    empty. *)

Definition resume_survives (file file' : ResumeFile) : Prop :=
  file' = file \/ file <> NoFile /\ (file' = NoFile \/ file' = Truncated).

Definition with_unsynced {BC : BlockCodec} (renamed : bool) (resume : ResumeFile) (d : Datadir) : Datadir := {|
  dd_headers := dd_headers d; dd_header_numbers := dd_header_numbers d; dd_bodies := dd_bodies d;
  dd_receipts := dd_receipts d; dd_changeset_start := dd_changeset_start d;
  dd_account_changesets := dd_account_changesets d; dd_storage_changesets := dd_storage_changesets d;
  dd_hashed_accounts := dd_hashed_accounts d; dd_hashed_storages := dd_hashed_storages d;
  dd_bytecodes := dd_bytecodes d; dd_renamed := renamed; dd_checkpoints := dd_checkpoints d;
  dd_pruned_to := dd_pruned_to d; dd_resume := resume; dd_complete := dd_complete d
|}.

Definition power_loss {BC : BlockCodec} (d d' : Datadir) : Prop :=
  exists renamed resume, (renamed = dd_renamed d \/ renamed = false) /\ resume_survives (dd_resume d) resume /\
    d' = with_unsynced renamed resume d.

(** What a run works on: the datadir and how its next commits go. *)
Record Work {BC : BlockCodec} := { w_dir : Datadir; w_faults : list (Fault string) }.

Section Importer.
Context {K : Keccak} {BC : BlockCodec} {RC : ReceiptCodec}.

Abbreviation IO := (M Work string).

(** A commit: the next fault decides how it goes. *)
Definition commit (f : Datadir -> Datadir) : IO unit :=
  let! w := get in
  write (default Succeeds (head (w_faults w)))
    (fun w => {| w_dir := f (w_dir w); w_faults := tail (w_faults w) |}).

Definition dir : IO Datadir := let! w := get in mret (w_dir w).

Definition fail {A : Type} (message : string) : IO A := raise message.

Definition checked {A : Type} (message : string) (o : option A) : IO A := lift (ok_or message o).

(** [stream.next_record()?] *)
Definition pull (s : SnapshotStream) : IO (option SnapshotRecord * SnapshotStream) :=
  lift (map_err (fun _ => "snapshot stream"%string) (next_record s)).

(** ** Blocks *)

Record PendingBlock := {
  pb_number : Z;
  pb_hash : Z;
  pb_header : BlockHeader;
  pb_body : option (list Transaction);
  pb_receipts : option (list ArbReceiptEnvelope)
}.

Record BlockSectionStats := {
  bs_blocks : Z; bs_bodies : Z; bs_transactions : Z; bs_receipt_sets : Z; bs_receipts : Z;
  bs_first_block : Z; bs_last_block : Z
}.

Definition block_stats_default : BlockSectionStats := {|
  bs_blocks := 0; bs_bodies := 0; bs_transactions := 0; bs_receipt_sets := 0; bs_receipts := 0;
  bs_first_block := 0; bs_last_block := 0
|}.

Definition tx_count (block : PendingBlock) : nat := from_option length O (pb_body block).

(** The receipts of the batch with their transaction numbers. *)
Fixpoint number_receipts (tx_num : Z) (batch : list PendingBlock) : result string (list (Z * ArbReceiptEnvelope)) :=
  match batch with
  | [] => Ok []
  | block :: batch =>
      match pb_receipts block with
      | Some receipts =>
          let? rest := number_receipts (tx_num + Z.of_nat (length receipts)) batch in
          Ok (zip (seqZ tx_num (Z.of_nat (length receipts))) receipts ++ rest)
      | None =>
          if (0 <? tx_count block)%nat then Err "block has transactions but no receipts"%string
          else number_receipts tx_num batch
      end
  end.

Definition count_block (stats : BlockSectionStats) (block : PendingBlock) : BlockSectionStats :=
  let blocks := bs_blocks stats + 1 in
  {| bs_blocks := blocks;
     bs_bodies := bs_bodies stats + (if pb_body block then 1 else 0);
     bs_transactions := bs_transactions stats + Z.of_nat (tx_count block);
     bs_receipt_sets := bs_receipt_sets stats + (if pb_receipts block then 1 else 0);
     bs_receipts := bs_receipts stats + Z.of_nat (from_option length O (pb_receipts block));
     bs_first_block := if blocks =? 1 then pb_number block else bs_first_block stats;
     bs_last_block := pb_number block |}.

Definition append_blocks (batch : list PendingBlock) (receipts : list (Z * ArbReceiptEnvelope)) (d : Datadir) : Datadir := {|
  dd_headers := dd_headers d ++ ((fun b => (pb_number b, pb_hash b, pb_header b)) <$> batch);
  dd_header_numbers := fold_left (fun m b => <[pb_hash b := pb_number b]> m) batch (dd_header_numbers d);
  dd_bodies := dd_bodies d ++ ((fun b => (pb_number b, pb_body b)) <$> batch);
  dd_receipts := dd_receipts d ++ receipts;
  dd_changeset_start := dd_changeset_start d; dd_account_changesets := dd_account_changesets d;
  dd_storage_changesets := dd_storage_changesets d; dd_hashed_accounts := dd_hashed_accounts d;
  dd_hashed_storages := dd_hashed_storages d; dd_bytecodes := dd_bytecodes d; dd_renamed := dd_renamed d;
  dd_checkpoints := dd_checkpoints d; dd_pruned_to := dd_pruned_to d; dd_resume := dd_resume d;
  dd_complete := dd_complete d
|}.

(** Where Reth's body indices end: the transactions of all bodies. *)
Definition indices_next_tx_num (d : Datadir) : Z :=
  foldr (fun '(_, body) n => Z.of_nat (from_option length O body) + n) 0 (dd_bodies d).

(** The state of the blocks loop. [first] only seeds the header segment's range. *)
Record BlocksState := {
  ws_batch : list PendingBlock;
  ws_pending : option PendingBlock;
  ws_batch_txs : nat;
  ws_next_tx_num : Z;
  ws_stats : BlockSectionStats
}.

Definition flush_blocks (st : BlocksState) : IO BlocksState :=
  match ws_batch st with
  | [] => mret st
  | batch =>
      let! receipts := lift (number_receipts (ws_next_tx_num st) batch) in
      let stats := fold_left count_block batch (ws_stats st) in
      let next_tx_num := ws_next_tx_num st + foldr (fun b n => Z.of_nat (tx_count b) + n) 0 batch in
      let! d := dir in
      if negb (indices_next_tx_num (append_blocks batch receipts d) =? next_tx_num) then
        fail "transaction numbering diverged"
      else
        let! _ := commit (append_blocks batch receipts) in
        mret {| ws_batch := []; ws_pending := ws_pending st; ws_batch_txs := ws_batch_txs st;
                ws_next_tx_num := next_tx_num; ws_stats := stats |}
  end.

Definition expect_pending (pending : option PendingBlock) (block : Z) : result string PendingBlock :=
  let? target := ok_or "arrived before any header"%string pending in
  if negb (pb_number target =? block) then Err "does not belong to the open block"%string else Ok target.

(** [pending.take()] pushed onto the batch. *)
Definition take_pending (st : BlocksState) : BlocksState :=
  match ws_pending st with
  | Some done =>
      {| ws_batch := ws_batch st ++ [done]; ws_pending := None; ws_batch_txs := ws_batch_txs st + tx_count done;
         ws_next_tx_num := ws_next_tx_num st; ws_stats := ws_stats st |}
  | None => st
  end.

Definition with_pending (st : BlocksState) (pending : PendingBlock) : BlocksState := {|
  ws_batch := ws_batch st; ws_pending := Some pending; ws_batch_txs := ws_batch_txs st;
  ws_next_tx_num := ws_next_tx_num st; ws_stats := ws_stats st
|}.

Definition open_block (block hash : Z) (rlp : bytes) : result string PendingBlock :=
  let? '(header, input) := ok_or "decode header"%string (block_header_decode rlp) in
  if negb (bool_decide (input = [])) then Err "trailing bytes after the header"%string
  else if negb (bh_number header =? block) then Err "header says it is another block"%string
  else Ok {| pb_number := block; pb_hash := hash; pb_header := header; pb_body := None; pb_receipts := None |}.

Definition add_body (target : PendingBlock) (rlp : bytes) : result string PendingBlock :=
  let? '(body, input) := ok_or "decode body"%string (block_body_decode rlp) in
  if negb (bool_decide (input = [])) then Err "trailing bytes after the body"%string
  else if negb (calculate_transaction_root body =? bh_transactions_root (pb_header target)) then
    Err "transactions root"%string
  else Ok {| pb_number := pb_number target; pb_hash := pb_hash target; pb_header := pb_header target;
             pb_body := Some body; pb_receipts := pb_receipts target |}.

Definition add_receipts (target : PendingBlock) (rlp : bytes) : result string PendingBlock :=
  let? body := ok_or "receipts arrived without a body"%string (pb_body target) in
  let? receipts := map_err (fun _ => "stored receipts"%string) (decode_stored_receipts rlp (tx_type_byte <$> body)) in
  if negb (calculate_receipt_root receipts =? bh_receipts_root (pb_header target)) then Err "receipts root"%string
  else Ok {| pb_number := pb_number target; pb_hash := pb_hash target; pb_header := pb_header target;
             pb_body := pb_body target; pb_receipts := Some receipts |}.

(** The [loop] of [write_blocks]. *)
Fixpoint blocks_loop (fuel : nat) (s : SnapshotStream) (st : BlocksState) : IO (SnapshotStream * BlocksState) :=
  match fuel with
  | O => fail "out of fuel"
  | S fuel =>
      let! '(record, s) := pull s in
      match record with
      | Some (Header block hash rlp) =>
          let st := take_pending st in
          let! st := (if (BLOCK_BATCH <=? length (ws_batch st))%nat || (TX_BATCH <=? ws_batch_txs st)%nat then
                        let! st := flush_blocks st in
                        mret {| ws_batch := ws_batch st; ws_pending := ws_pending st; ws_batch_txs := 0;
                                ws_next_tx_num := ws_next_tx_num st; ws_stats := ws_stats st |}
                      else mret st) in
          let! pending := lift (open_block block hash rlp) in
          blocks_loop fuel s (with_pending st pending)
      | Some (Body block rlp) =>
          let! target := lift (expect_pending (ws_pending st) block) in
          let! target := lift (add_body target rlp) in
          blocks_loop fuel s (with_pending st target)
      | Some (Receipts block rlp) =>
          let! target := lift (expect_pending (ws_pending st) block) in
          let! target := lift (add_receipts target rlp) in
          blocks_loop fuel s (with_pending st target)
      | other =>
          let! st := flush_blocks (take_pending st) in
          mret (match other with Some record => unread s record | None => s end, st)
      end
  end.

Definition write_blocks (fuel : nat) (s : SnapshotStream) (m : Manifest) : IO (SnapshotStream * BlockSectionStats) :=
  let! '(s, st) := blocks_loop fuel s {| ws_batch := []; ws_pending := None; ws_batch_txs := 0; ws_next_tx_num := 0;
                                          ws_stats := block_stats_default |} in
  let stats := ws_stats st in
  if bs_blocks stats =? 0 then fail "the stream's blocks section is empty"
  else if negb (bs_last_block stats =? m_block m) then fail "blocks do not end at the convert point"
  else mret (s, stats).
(** ** State history *)

Record HistorySectionStats := {
  hs_objects : Z; hs_blocks : Z; hs_accounts : Z; hs_slots : Z; hs_first_block : Z; hs_last_block : Z
}.

Definition history_stats_default : HistorySectionStats := {|
  hs_objects := 0; hs_blocks := 0; hs_accounts := 0; hs_slots := 0; hs_first_block := 0; hs_last_block := 0
|}.

Definition accounts_before (object : HistoryObject) : list AccountBeforeTx :=
  (fun a => {| ab_address := ha_address a;
               ab_info := (fun '(nonce, balance, code) =>
                 {| ai_nonce := nonce; ai_balance := balance; ai_bytecode_hash := code |}) <$> ha_previous a |})
    <$> ho_accounts object.

Definition slots_before (object : HistoryObject) : list StorageBeforeTx :=
  flat_map (fun a => (fun '(key, value) => {| sb_address := ha_address a; sb_key := key; sb_value := value |}) <$> ha_storage a)
    (ho_accounts object).

(** One entry for each block from [at_] on: empty up to the object's block, then the object's. *)
Definition entries_of {A : Type} (at_ : Z) (object : HistoryObject) (entry : list A) : list (Z * list A) :=
  ((fun n => (n, [])) <$> seqZ at_ (ho_block object - at_)) ++ [(ho_block object, entry)].

(** The changesets of a batch, and the block after its last object. *)
Fixpoint lay_out_history (at_ : Z) (batch : list HistoryObject)
    : result string (list (Z * list AccountBeforeTx) * list (Z * list StorageBeforeTx) * Z) :=
  match batch with
  | [] => Ok ([], [], at_)
  | object :: batch =>
      if ho_block object <? at_ then Err "history object is at or below the previous one"%string
      else
        let? '(accounts, slots, end_) := lay_out_history (wrapping_add (ho_block object) 1) batch in
        Ok (entries_of at_ object (accounts_before object) ++ accounts,
            entries_of at_ object (slots_before object) ++ slots, end_)
  end.

Definition count_object (at_ : Z) (stats : HistorySectionStats) (object : HistoryObject) : HistorySectionStats := {|
  hs_objects := hs_objects stats + 1;
  hs_blocks := hs_blocks stats + (ho_block object - at_) + 1;
  hs_accounts := hs_accounts stats + Z.of_nat (length (accounts_before object));
  hs_slots := hs_slots stats + Z.of_nat (length (slots_before object));
  hs_first_block := hs_first_block stats;
  hs_last_block := ho_block object
|}.

Fixpoint count_objects (at_ : Z) (stats : HistorySectionStats) (batch : list HistoryObject) : HistorySectionStats :=
  match batch with
  | [] => stats
  | object :: batch => count_objects (wrapping_add (ho_block object) 1) (count_object at_ stats object) batch
  end.

Definition append_history (start : option Z) (accounts : list (Z * list AccountBeforeTx))
    (slots : list (Z * list StorageBeforeTx)) (d : Datadir) : Datadir := {|
  dd_headers := dd_headers d; dd_header_numbers := dd_header_numbers d; dd_bodies := dd_bodies d;
  dd_receipts := dd_receipts d;
  dd_changeset_start := match start with Some s => Some s | None => dd_changeset_start d end;
  dd_account_changesets := dd_account_changesets d ++ accounts;
  dd_storage_changesets := dd_storage_changesets d ++ slots;
  dd_hashed_accounts := dd_hashed_accounts d; dd_hashed_storages := dd_hashed_storages d;
  dd_bytecodes := dd_bytecodes d; dd_renamed := dd_renamed d; dd_checkpoints := dd_checkpoints d;
  dd_pruned_to := dd_pruned_to d; dd_resume := dd_resume d; dd_complete := dd_complete d
|}.

Record HistoryState := {
  hw_batch : list HistoryObject;
  hw_entries : nat;
  hw_cursor : option Z;
  hw_stats : HistorySectionStats
}.

Definition set_first_block (first : Z) (stats : HistorySectionStats) : HistorySectionStats := {|
  hs_objects := hs_objects stats; hs_blocks := hs_blocks stats; hs_accounts := hs_accounts stats;
  hs_slots := hs_slots stats; hs_first_block := first; hs_last_block := hs_last_block stats
|}.

Definition flush_history (st : HistoryState) : IO HistoryState :=
  match hw_batch st with
  | [] => mret st
  | (object :: _) as batch =>
      let from_block := default (ho_block object) (hw_cursor st) in
      let start := match hw_cursor st with None => Some from_block | Some _ => None end in
      let stats := match hw_cursor st with None => set_first_block from_block (hw_stats st) | Some _ => hw_stats st end in
      let! '(accounts, slots, at_) := lift (lay_out_history from_block batch) in
      let! _ := commit (append_history start accounts slots) in
      mret {| hw_batch := []; hw_entries := hw_entries st; hw_cursor := Some at_;
              hw_stats := count_objects from_block stats batch |}
  end.

Definition object_entries (object : HistoryObject) : nat :=
  foldr (fun a n => S (length (ha_storage a)) + n)%nat O (ho_accounts object).

(** The [loop] of [write_history]. *)
Fixpoint history_loop (fuel : nat) (s : SnapshotStream) (st : HistoryState) : IO (SnapshotStream * HistoryState) :=
  match fuel with
  | O => fail "out of fuel"
  | S fuel =>
      let! '(record, s) := pull s in
      match record with
      | Some (History object) =>
          let st := {| hw_batch := hw_batch st ++ [object]; hw_entries := hw_entries st + object_entries object;
                       hw_cursor := hw_cursor st; hw_stats := hw_stats st |} in
          if (CHANGESET_BATCH <=? hw_entries st)%nat then
            let! st := flush_history st in
            history_loop fuel s {| hw_batch := hw_batch st; hw_entries := 0; hw_cursor := hw_cursor st;
                                   hw_stats := hw_stats st |}
          else history_loop fuel s st
      | other =>
          let! st := flush_history st in
          mret (match other with Some record => unread s record | None => s end, st)
      end
  end.

Definition write_history (fuel : nat) (s : SnapshotStream) (m : Manifest) : IO (SnapshotStream * HistorySectionStats) :=
  let! '(s, st) := history_loop fuel s {| hw_batch := []; hw_entries := 0; hw_cursor := None;
                                           hw_stats := history_stats_default |} in
  let stats := hw_stats st in
  if hs_objects stats =? 0 then fail "the stream's history section is empty"
  else
    let! _ := lift (map_err (fun _ => "history does not meet the state"%string) (check_history_meets_state s)) in
    if negb (hs_last_block stats =? m_block m) then fail "history does not end at the convert point"
    else mret (s, stats).

(** ** State *)

(** The writes of the open database transaction. *)
Inductive StateOp :=
  | PutAccount (hashed_address : Z) (account : AccountInfo)
  | UpsertStorage (owner hashed_slot value : Z)
  | PutBytecode (hash : Z) (code : bytes).

Definition apply_op (d : Datadir) (op : StateOp) : Datadir := {|
  dd_headers := dd_headers d; dd_header_numbers := dd_header_numbers d; dd_bodies := dd_bodies d;
  dd_receipts := dd_receipts d; dd_changeset_start := dd_changeset_start d;
  dd_account_changesets := dd_account_changesets d; dd_storage_changesets := dd_storage_changesets d;
  dd_hashed_accounts := match op with PutAccount h a => <[h := a]> (dd_hashed_accounts d) | _ => dd_hashed_accounts d end;
  dd_hashed_storages :=
    match op with UpsertStorage o h v => {[(o, h, v)]} ∪ dd_hashed_storages d | _ => dd_hashed_storages d end;
  dd_bytecodes := match op with PutBytecode h c => <[h := c]> (dd_bytecodes d) | _ => dd_bytecodes d end;
  dd_renamed := dd_renamed d; dd_checkpoints := dd_checkpoints d; dd_pruned_to := dd_pruned_to d;
  dd_resume := dd_resume d; dd_complete := dd_complete d
|}.

Record StateSectionStats := { ss_accounts : Z; ss_slots : Z; ss_bytecodes : Z }.

Record StateLoop := {
  sl_ops : list StateOp;
  sl_account : option Z;
  sl_wanted : gset Z;
  sl_provided : gset Z;
  sl_stats : StateSectionStats
}.

(** [written]: every write since the last commit. *)
Definition sl_written (st : StateLoop) : nat := length (sl_ops st).

Definition state_commit (st : StateLoop) : IO StateLoop :=
  let! _ := commit (fun d => fold_left apply_op (sl_ops st) d) in
  mret {| sl_ops := []; sl_account := sl_account st; sl_wanted := sl_wanted st; sl_provided := sl_provided st;
          sl_stats := sl_stats st |}.

(** One record of the state section. *)
Definition state_record (st : StateLoop) (record : SnapshotRecord) : result string StateLoop :=
  let stats := sl_stats st in
  match record with
  | Account hashed_address nonce balance code_hash =>
      Ok {| sl_ops := sl_ops st ++ [PutAccount hashed_address
                        {| ai_nonce := nonce; ai_balance := balance; ai_bytecode_hash := code_hash |}];
            sl_account := Some hashed_address;
            sl_wanted := match code_hash with Some h => {[h]} ∪ sl_wanted st | None => sl_wanted st end;
            sl_provided := sl_provided st;
            sl_stats := {| ss_accounts := ss_accounts stats + 1; ss_slots := ss_slots stats; ss_bytecodes := ss_bytecodes stats |} |}
  | Storage hashed_slot value =>
      let? owner := ok_or "storage slot arrived before any account"%string (sl_account st) in
      if value =? 0 then Ok st
      else
        Ok {| sl_ops := sl_ops st ++ [UpsertStorage owner hashed_slot value]; sl_account := sl_account st;
              sl_wanted := sl_wanted st; sl_provided := sl_provided st;
              sl_stats := {| ss_accounts := ss_accounts stats; ss_slots := ss_slots stats + 1; ss_bytecodes := ss_bytecodes stats |} |}
  | Code hash code =>
      Ok {| sl_ops := sl_ops st ++ [PutBytecode hash code]; sl_account := sl_account st; sl_wanted := sl_wanted st;
            sl_provided := {[hash]} ∪ sl_provided st;
            sl_stats := {| ss_accounts := ss_accounts stats; ss_slots := ss_slots stats; ss_bytecodes := ss_bytecodes stats + 1 |} |}
  | _ => Err "unexpected record after the state section"%string
  end.

Fixpoint state_loop (fuel : nat) (s : SnapshotStream) (st : StateLoop) : IO StateLoop :=
  match fuel with
  | O => fail "out of fuel"
  | S fuel =>
      let! st := (if (STATE_COMMIT_THRESHOLD <=? sl_written st)%nat then state_commit st else mret st) in
      let! '(record, s) := pull s in
      match record with
      | Some record =>
          let! st := lift (state_record st record) in
          state_loop fuel s st
      | None => mret st
      end
  end.

Definition write_state (fuel : nat) (s : SnapshotStream) : IO StateSectionStats :=
  let! st := state_loop fuel s {| sl_ops := []; sl_account := None; sl_wanted := ∅; sl_provided := ∅;
                                   sl_stats := {| ss_accounts := 0; ss_slots := 0; ss_bytecodes := 0 |} |} in
  let! st := state_commit st in
  if ss_accounts (sl_stats st) =? 0 then fail "the stream's state section is empty"
  else if negb (bool_decide (sl_wanted st ⊆ sl_provided st)) then fail "an account references code the stream does not carry"
  else mret (sl_stats st).
(** ** Finishing *)

(** How one of Reth's stages runs: rounds that stop short of the target, then its end. *)
Record StageRun := { sr_rounds : nat; sr_end : result string unit }.

(** [run_stage]: every round is committed; a stage writes indices, which are not part of [Datadir]. *)
Definition run_stage (run : StageRun) : IO unit :=
  let! _ := Nat.iter (sr_rounds run) (fun rest => let! _ := commit id in rest) (mret tt) in
  let! _ := lift (sr_end run) in
  commit id.

(** [sealed_header]: the header of a block with its stored hash. *)
Definition sealed_header (d : Datadir) (block : Z) : option (Z * BlockHeader) :=
  match List.find (fun '(number, _, _) => number =? block) (dd_headers d) with
  | Some (_, hash, header) => Some (hash, header)
  | None => None
  end.

Definition write_history_boundary (history_from : Z) : option Z :=
  if 1 <=? history_from then Some (history_from - 1) else None.

Definition set_checkpoints (block : Z) (pruned_to : option Z) (d : Datadir) : Datadir := {|
  dd_headers := dd_headers d; dd_header_numbers := dd_header_numbers d; dd_bodies := dd_bodies d;
  dd_receipts := dd_receipts d; dd_changeset_start := dd_changeset_start d;
  dd_account_changesets := dd_account_changesets d; dd_storage_changesets := dd_storage_changesets d;
  dd_hashed_accounts := dd_hashed_accounts d; dd_hashed_storages := dd_hashed_storages d;
  dd_bytecodes := dd_bytecodes d; dd_renamed := dd_renamed d; dd_checkpoints := Some block;
  dd_pruned_to := match pruned_to with Some p => Some p | None => dd_pruned_to d end;
  dd_resume := dd_resume d; dd_complete := dd_complete d
|}.

Definition set_resume (file : ResumeFile) (d : Datadir) : Datadir := {|
  dd_headers := dd_headers d; dd_header_numbers := dd_header_numbers d; dd_bodies := dd_bodies d;
  dd_receipts := dd_receipts d; dd_changeset_start := dd_changeset_start d;
  dd_account_changesets := dd_account_changesets d; dd_storage_changesets := dd_storage_changesets d;
  dd_hashed_accounts := dd_hashed_accounts d; dd_hashed_storages := dd_hashed_storages d;
  dd_bytecodes := dd_bytecodes d; dd_renamed := dd_renamed d; dd_checkpoints := dd_checkpoints d;
  dd_pruned_to := dd_pruned_to d; dd_resume := file; dd_complete := dd_complete d
|}.

Definition set_renamed (d : Datadir) : Datadir := {|
  dd_headers := dd_headers d; dd_header_numbers := dd_header_numbers d; dd_bodies := dd_bodies d;
  dd_receipts := dd_receipts d; dd_changeset_start := dd_changeset_start d;
  dd_account_changesets := dd_account_changesets d; dd_storage_changesets := dd_storage_changesets d;
  dd_hashed_accounts := dd_hashed_accounts d; dd_hashed_storages := dd_hashed_storages d;
  dd_bytecodes := dd_bytecodes d; dd_renamed := true; dd_checkpoints := dd_checkpoints d;
  dd_pruned_to := dd_pruned_to d; dd_resume := dd_resume d; dd_complete := dd_complete d
|}.

Definition set_complete (manifest : ImportManifest) (d : Datadir) : Datadir := {|
  dd_headers := dd_headers d; dd_header_numbers := dd_header_numbers d; dd_bodies := dd_bodies d;
  dd_receipts := dd_receipts d; dd_changeset_start := dd_changeset_start d;
  dd_account_changesets := dd_account_changesets d; dd_storage_changesets := dd_storage_changesets d;
  dd_hashed_accounts := dd_hashed_accounts d; dd_hashed_storages := dd_hashed_storages d;
  dd_bytecodes := dd_bytecodes d; dd_renamed := dd_renamed d; dd_checkpoints := dd_checkpoints d;
  dd_pruned_to := dd_pruned_to d; dd_resume := dd_resume d; dd_complete := Some manifest
|}.

(** [std::fs::write]: the file is created empty, then filled; neither is synced. *)
Definition write_resume_log (m : Manifest) : IO unit :=
  match m_resume m with
  | None => mret tt
  | Some resume =>
      if m_block m <? rp_l2_block resume then fail "resume point is above the convert point"
      else
        let! _ := commit (set_resume Truncated) in
        commit (set_resume (Written resume))
  end.

(** [write_snapshot_import_manifest]: the manifest is made from the head, so only the head is left to
    check; an existing manifest is not replaced. *)
Definition write_snapshot_import_manifest (block hash : Z) (header : BlockHeader) : IO unit :=
  if negb ((bh_number header =? block) && (bh_hash header =? hash)) then
    fail "snapshot head stream contains an invalid number or block hash"
  else
    let! d := dir in
    match dd_complete d with
    | Some _ => fail "file exists"
    | None => commit (set_complete {| im_block_number := block; im_block_hash := hash; im_state_root := bh_state_root header |})
    end.

(** What finishing meets: how the four index stages run. *)
Record FinalizeEnv := { fe_stages : list StageRun }.

Fixpoint run_stages (runs : list StageRun) : IO unit :=
  match runs with
  | [] => mret tt
  | run :: runs => let! _ := run_stage run in run_stages runs
  end.

Definition finalize (env : FinalizeEnv) (m : Manifest) (history_from : Z) : IO unit :=
  let! _ := run_stages (fe_stages env) in
  let! d := dir in
  let! '(hash, header) := checked "block has no header after the import" (sealed_header d (m_block m)) in
  if negb (hash =? m_hash m) then fail "the convert point has another hash"
  else
    let! _ := commit (set_checkpoints (m_block m) (write_history_boundary history_from)) in
    let! _ := write_resume_log m in
    write_snapshot_import_manifest (m_block m) hash header.

(** [compute_state_root_chunked]: [chunks] commits on the way, and the root of the hashed tables. *)
Definition compute_state_root_chunked (chunks : nat) (root : Datadir -> result string Z) : IO Z :=
  let! _ := Nat.iter chunks (fun rest => let! _ := commit id in rest) (mret tt) in
  let! d := dir in
  let! r := lift (root d) in
  let! _ := commit id in
  mret r.

(** What the command meets besides the stream. *)
Record ImportEnv := {
  ie_fresh : result string unit;
  ie_stream : result string bytes;
  (** The chain files, the directories and the opened database, with its storage settings. *)
  ie_setup : result string unit;
  ie_chunks : nat;
  ie_finalize : FinalizeEnv
}.

(** Reth's trie over the hashed tables, by the tables' contents. *)
Context (trie_root : gmap Z AccountInfo -> gset (Z * Z * Z) -> result string Z).

Definition dir_root (d : Datadir) : result string Z := trie_root (dd_hashed_accounts d) (dd_hashed_storages d).

(** Every record has a byte of its own, and one record may be held. *)
Definition stream_fuel (s : SnapshotStream) : nat := S (S (2 * length (inner s))).

Definition import_full (env : ImportEnv) : IO unit :=
  let! _ := lift (ie_fresh env) in
  let! input := lift (ie_stream env) in
  let! s := lift (map_err (fun _ => "open stream"%string) (open input)) in
  let m := manifest s in
  let fuel := stream_fuel s in
  let! _ := lift (ie_setup env) in
  let! '(s, blocks) := write_blocks fuel s m in
  let! '(s, history) := write_history fuel s m in
  if hs_first_block history <? bs_first_block blocks then fail "history starts before the blocks"
  else
    let! _ := write_state fuel s in
    let! root := compute_state_root_chunked (ie_chunks env) dir_root in
    if negb (root =? m_root m) then fail "state root"
    else
      (** [rename_changeset_files_to_header]: the renames are not synced. *)
      let! _ := commit set_renamed in
      finalize (ie_finalize env) m (hs_first_block history).

(** ** Finishing a datadir on its own *)

Definition PREFIX : string := "static_file_account-change-sets_".

(** The start block in a changeset segment's name. *)
Definition segment_start (name : string) : option Z :=
  range ← strip_prefix PREFIX name;
  if contains "."%char range then None
  else start ← split_once "_"%char range; parse_u64 start.

Definition min_start (lowest : option Z) (name : string) : option Z :=
  match segment_start name with
  | Some start => Some (from_option (fun current => Z.min current start) start lowest)
  | None => lowest
  end.

Definition lowest_changeset_block (names : list string) : result string Z :=
  ok_or "no account-changeset segments"%string (fold_left min_start names None).

(** What [finalize_datadir] meets. *)
Record FinishEnv := {
  fn_names : result string (list string);
  fn_setup : result string unit;
  fn_finalize : FinalizeEnv
}.

Definition highest_header (d : Datadir) : option Z := (fun '(number, _, _) => number) <$> last (dd_headers d).

Definition finalize_datadir (env : FinishEnv) : IO unit :=
  let! d := dir in
  match dd_complete d with
  | Some _ => fail "already finished"
  | None =>
      let! names := lift (fn_names env) in
      let! history_from := lift (lowest_changeset_block names) in
      let! _ := lift (fn_setup env) in
      let! block := checked "no headers" (highest_header d) in
      let! '(hash, header) := checked "block is missing its header" (sealed_header d block) in
      finalize (fn_finalize env)
        {| m_block := block; m_root := bh_state_root header; m_state_id := 0; m_hash := hash; m_resume := None |} history_from
  end.
End Importer.
