(* ===== verification/SnapshotFullSafety.v ===== *)
(** * What a completed import holds

    Proofs about [SnapshotFull]: the tables against the records of the stream, section by section,
    and the integrity of every datadir that carries the completion manifest. *)

From Stdlib Require Import Strings.Byte Strings.String Sorted.
From stdpp Require Import base list numbers option strings gmap.
From S2P Require Import Prelude External Crash StoredReceipt SnapshotStream SnapshotFull.

(** ** Reading the stream *)

Section Reading.
Context {K : Keccak}.

(** Records pulled one after the other. *)
Inductive pulls : SnapshotStream -> list SnapshotRecord -> SnapshotStream -> Prop :=
  | pulls_nil s : pulls s [] s
  | pulls_cons s r s1 rs s2 : next_record s = Ok (Some r, s1) -> pulls s1 rs s2 -> pulls s (r :: rs) s2.

Lemma pulls_app (s s1 s2 : SnapshotStream) (rs rs' : list SnapshotRecord) :
  pulls s rs s1 -> pulls s1 rs' s2 -> pulls s (rs ++ rs') s2.
Proof. induction 1; [done|]. intros. cbn. econstructor; [done|]. auto. Qed.

Lemma pulls_snoc (s s1 s2 : SnapshotStream) (rs : list SnapshotRecord) (r : SnapshotRecord) :
  pulls s rs s1 -> next_record s1 = Ok (Some r, s2) -> pulls s (rs ++ [r]) s2.
Proof. intros Hp Hn. eapply pulls_app; [done|]. econstructor; [done|constructor]. Qed.

(** A section's loop reads [rs] and puts back the record that ends it. *)
Definition stops (s : SnapshotStream) (rs : list SnapshotRecord) (out : SnapshotStream) : Prop :=
  exists s1 o s2, pulls s rs s1 /\ next_record s1 = Ok (o, s2) /\
    out = match o with Some r => unread s2 r | None => s2 end.

(** The stream ends after [rs]. *)
Definition drains (s : SnapshotStream) (rs : list SnapshotRecord) : Prop :=
  exists s1 s2, pulls s rs s1 /\ next_record s1 = Ok (None, s2).

(** A reader between two records. *)
Definition between (s : SnapshotStream) : Prop :=
  held s = None /\ below_top s /\ m_block (manifest s) < U64_MAX.

Lemma next_record_between (s s' : SnapshotStream) (r : SnapshotRecord) :
  between s -> next_record s = Ok (Some r, s') -> between s'.
Proof.
  intros (Hh & Hb & Hm) Hn. unfold next_record in Hn. rewrite Hh in Hn. destruct (finished s); [done|].
  apply next_loop_some in Hn as (sec & r' & tag & _ & Hr).
  apply read_record_valid in Hr as (_ & _ & _ & _ & (Em & Eh & _) & Hb'); [|done..]. cbn in *.
  split; [by rewrite Eh|]. split; [done|]. by rewrite Em.
Qed.

Lemma pulls_between (s s' : SnapshotStream) (rs : list SnapshotRecord) : between s -> pulls s rs s' -> between s'.
Proof. intros Hb Hp. induction Hp; [done|]. eauto using next_record_between. Qed.

Lemma unread_again (s : SnapshotStream) (r : SnapshotRecord) :
  held s = None -> next_record (unread s r) = Ok (Some r, s).
Proof. intros Hh. unfold next_record. cbn. destruct s; cbn in *. by subst. Qed.

Lemma next_record_end (s s' : SnapshotStream) : held s = None -> next_record s = Ok (None, s') -> next_record s' = Ok (None, s').
Proof.
  intros Hh. unfold next_record. rewrite Hh. destruct (finished s) eqn:Hf.
  - intros [= <-]. by rewrite Hh, Hf.
  - intros (sec & r & ->)%next_loop_none. cbn. by rewrite Hh.
Qed.

(** What follows a section's end is what a later reader finds. *)
Lemma stops_drains (s out : SnapshotStream) (rs rest : list SnapshotRecord) :
  between s -> stops s rs out -> drains out rest -> drains s (rs ++ rest).
Proof.
  intros Hb (s1 & o & s2 & Hp & Hn & ->) (e1 & e2 & Hp' & He). pose proof (pulls_between _ _ _ Hb Hp) as Hb1.
  destruct o as [r|].
  - pose proof (next_record_between _ _ _ Hb1 Hn) as Hb2. pose proof (unread_again s2 r (proj1 Hb2)) as Hu.
    inversion Hp' as [|? r' s3 rs' ? Hn' Hp'']; subst; [rewrite Hu in He; discriminate He|].
    rewrite Hu in Hn'. injection Hn' as <- <-. exists e1, e2. split; [|done].
    eapply pulls_app; [done|]. by econstructor.
  - pose proof (next_record_end _ _ (proj1 Hb1) Hn) as Hu.
    inversion Hp' as [|? r' s3 rs' ? Hn' Hp'']; subst; [|rewrite Hu in Hn'; discriminate Hn'].
    exists s1, e1. split; [by rewrite app_nil_r|done].
Qed.

Lemma stops_stops (s s1 s2 : SnapshotStream) (rs rest : list SnapshotRecord) :
  between s -> stops s rs s1 -> stops s1 rest s2 -> stops s (rs ++ rest) s2.
Proof.
  intros Hb (a & o & b & Hp & Hn & ->) (c & o' & d & Hp' & Hn' & ->). pose proof (pulls_between _ _ _ Hb Hp) as Hb1.
  destruct o as [r|].
  - pose proof (next_record_between _ _ _ Hb1 Hn) as Hb2. pose proof (unread_again b r (proj1 Hb2)) as Hu.
    inversion Hp' as [|? r' s3 rs' ? Hn'' Hp'']; subst.
    + rewrite Hu in Hn'. injection Hn' as <- <-. exists a, (Some r), b. split; [by rewrite app_nil_r|done].
    + rewrite Hu in Hn''. injection Hn'' as <- <-. exists c, o', d. split; [|done].
      eapply pulls_app; [done|]. by econstructor.
  - pose proof (next_record_end _ _ (proj1 Hb1) Hn) as Hu.
    inversion Hp' as [|? r' s3 rs' ? Hn'' Hp'']; subst; [|rewrite Hu in Hn''; discriminate Hn''].
    exists a, None, c. split; [by rewrite app_nil_r|]. rewrite Hu in Hn'. by injection Hn' as <- <-.
Qed.

Lemma pulls_read_records (s s' : SnapshotStream) (rs : list SnapshotRecord) :
  pulls s rs s' -> read_records (length rs) s = Ok (rs, s').
Proof. induction 1 as [|s r s1 rs s2 Hn _ IH]; [done|]. cbn. rewrite Hn. cbn. by rewrite IH. Qed.
End Reading.

(** A transactions root commits to the transactions. *)
Class RootLaws {BC : BlockCodec} := {
  transaction_root_inj : forall a b, calculate_transaction_root a = calculate_transaction_root b -> a = b
}.

Section Safety.
Context {K : Keccak} {BC : BlockCodec} {RC : ReceiptCodec} {RL : RootLaws}.

(** Until the last step, nothing says that the datadir is complete. *)
Definition incomplete (w : Work) : Prop := dd_complete (w_dir w) = None.

Lemma wp_commit (f : Datadir -> Datadir) (Q : unit -> Work -> Prop) (C : Work -> Prop) (w : Work) :
  C w -> (forall w', w_dir w' = f (w_dir w) -> C w' /\ Q tt w') -> wp (commit f) Q C w.
Proof.
  intros HC HQ. unfold commit. apply wp_bind, wp_get. apply wp_write; [done|..]; by apply HQ.
Qed.

Lemma wp_dir (Q : Datadir -> Work -> Prop) (C : Work -> Prop) (w : Work) : Q (w_dir w) w -> wp dir Q C w.
Proof. intros HQ. unfold dir. apply wp_bind, wp_get. by apply wp_ret. Qed.

Lemma wp_pull (s : SnapshotStream) (Q : option SnapshotRecord * SnapshotStream -> Work -> Prop) (C : Work -> Prop) (w : Work) :
  C w -> (forall o s', next_record s = Ok (o, s') -> Q (o, s') w) -> wp (pull s) Q C w.
Proof.
  intros HC HQ. unfold pull. apply wp_lift; [done|]. intros [o s'] Hn. apply HQ.
  destruct (next_record s); [by injection Hn as ->|done].
Qed.

(** ** Blocks *)

(** The blocks that records describe: a body and receipts belong to the header before them. *)
Definition assemble_step (acc : list PendingBlock) (r : SnapshotRecord) : result string (list PendingBlock) :=
  match r with
  | Header block hash rlp => let? p := open_block block hash rlp in Ok (acc ++ [p])
  | Body block rlp =>
      let? target := expect_pending (last acc) block in
      let? target := add_body target rlp in
      Ok (removelast acc ++ [target])
  | Receipts block rlp =>
      let? target := expect_pending (last acc) block in
      let? target := add_receipts target rlp in
      Ok (removelast acc ++ [target])
  | _ => Err "not a block record"%string
  end.

Definition assemble (rs : list SnapshotRecord) : result string (list PendingBlock) := try_fold assemble_step rs [].

Lemma assemble_snoc (rs : list SnapshotRecord) (r : SnapshotRecord) (bl : list PendingBlock) :
  assemble rs = Ok bl -> assemble (rs ++ [r]) = assemble_step bl r.
Proof. intros H. unfold assemble in *. rewrite try_fold_snoc, H. done. Qed.

(** What was checked of a block. *)
Definition block_checked (b : PendingBlock) : Prop :=
  bh_number (pb_header b) = pb_number b /\
  (forall txs, pb_body b = Some txs -> calculate_transaction_root txs = bh_transactions_root (pb_header b)) /\
  (forall rs, pb_receipts b = Some rs ->
     length rs = tx_count b /\ is_Some (pb_body b) /\ calculate_receipt_root rs = bh_receipts_root (pb_header b)).

Lemma decode_loop_length (tys : list u8) (i : nat) (buf : bytes) (rs : list ArbReceiptEnvelope) :
  decode_loop tys i buf = Ok rs -> length rs = length tys.
Proof.
  revert i buf rs. induction tys as [|ty tys IH]; intros i buf rs; destruct buf as [|b buf]; cbn [decode_loop]; try done; try by intros [= <-].
  intros H. apply rbind_Ok in H as ([r buf'] & _ & H). ok_inv. subst. cbn. f_equal. by eapply IH.
Qed.

Lemma decode_stored_receipts_length (rlp : bytes) (tys : list u8) (rs : list ArbReceiptEnvelope) :
  decode_stored_receipts rlp tys = Ok rs -> length rs = length tys.
Proof.
  unfold decode_stored_receipts. intros H. apply rbind_Ok in H as ([h buf] & _ & H). if_inv H. by eapply decode_loop_length.
Qed.

Lemma open_block_checked (block hash : Z) (rlp : bytes) (p : PendingBlock) :
  open_block block hash rlp = Ok p ->
  block_checked p /\ pb_number p = block /\ pb_hash p = hash /\ block_header_decode rlp = Some (pb_header p, []).
Proof.
  unfold open_block. intros H. apply rbind_Ok in H as ([h input] & Hd & H). apply ok_or_Ok in Hd. if_inv H.
  apply negb_false_iff in C, C0. apply bool_decide_eq_true in C. apply Z.eqb_eq in C0. injection H as <-. subst input.
  by split_and!.
Qed.

Lemma add_body_checked (target : PendingBlock) (rlp : bytes) (p : PendingBlock) :
  block_checked target -> add_body target rlp = Ok p ->
  block_checked p /\ pb_number p = pb_number target /\ pb_hash p = pb_hash target /\ pb_header p = pb_header target.
Proof.
  intros (Hn & Hb & Hr). unfold add_body. intros H. apply rbind_Ok in H as ([body input] & _ & H). if_inv H.
  apply negb_false_iff, Z.eqb_eq in C0. injection H as <-.
  split; [|done]. split; [done|]. split; [by intros txs [= <-]|].
  cbn. intros rs Hrs. destruct (Hr rs Hrs) as (Hlen & [txs Htxs] & Hroot). split_and!; [|by eexists|done].
  unfold tx_count in *. rewrite Htxs in Hlen. cbn in *. rewrite Hlen. f_equal. apply transaction_root_inj.
  rewrite C0. by apply Hb.
Qed.

Lemma add_receipts_checked (target : PendingBlock) (rlp : bytes) (p : PendingBlock) :
  block_checked target -> add_receipts target rlp = Ok p ->
  block_checked p /\ pb_number p = pb_number target /\ pb_hash p = pb_hash target /\ pb_header p = pb_header target.
Proof.
  intros (Hn & Hb & _). unfold add_receipts. intros H. apply rbind_Ok in H as (body & Hbody & H).
  apply ok_or_Ok in Hbody. apply rbind_Ok in H as (receipts & Hrec & H). apply map_err_Ok in Hrec. if_inv H.
  apply negb_false_iff, Z.eqb_eq in C. injection H as <-. split; [|done].
  split; [done|]. split; [done|]. cbn. intros rs [= <-]. split_and!; [|by rewrite Hbody|done].
  apply decode_stored_receipts_length in Hrec. rewrite length_fmap in Hrec. unfold tx_count. cbn. by rewrite Hbody.
Qed.

(** The headers of the records, and the blocks made of them. *)
Definition header_of (r : SnapshotRecord) : option (Z * Z) :=
  match r with
  | Header block hash _ => Some (block, hash)
  | _ => None
  end.

Lemma last_split {A : Type} (l : list A) (x : A) : last l = Some x -> l = removelast l ++ [x].
Proof.
  destruct l as [|y l] using rev_ind; [done|]. rewrite last_snoc. intros [= ->]. by rewrite removelast_last.
Qed.

Lemma expect_pending_Ok (o : option PendingBlock) (block : Z) (t : PendingBlock) :
  expect_pending o block = Ok t -> o = Some t.
Proof. unfold expect_pending. intros H. ok_inv. if_inv H. by injection H as <-. Qed.

Lemma assemble_checked (rs : list SnapshotRecord) (bl : list PendingBlock) :
  assemble rs = Ok bl ->
  Forall block_checked bl /\ (fun b => (pb_number b, pb_hash b)) <$> bl = omap header_of rs /\
  Forall (fun r => match r with Header _ _ _ | Body _ _ | Receipts _ _ => True | _ => False end) rs.
Proof.
  revert bl. induction rs as [|r rs IH] using rev_ind; intros bl; [intros [= <-]; by split_and!|].
  destruct (assemble rs) as [acc|] eqn:Ha; cycle 1.
  { unfold assemble in *. rewrite try_fold_snoc, Ha. done. }
  rewrite (assemble_snoc _ _ _ Ha). destruct (IH acc eq_refl) as (Hch & Hnum & Hrec). rewrite omap_app, <- Hnum.
  assert (Hreplace : forall t t', last acc = Some t -> pb_number t' = pb_number t -> pb_hash t' = pb_hash t ->
    block_checked t' -> Forall block_checked (removelast acc ++ [t']) /\
      (fun b => (pb_number b, pb_hash b)) <$> removelast acc ++ [t'] = (fun b => (pb_number b, pb_hash b)) <$> acc).
  { intros t t' Hl Hn Hh Hc. pose proof (last_split _ _ Hl) as Hs.
    rewrite Hs in Hch. apply List.Forall_app in Hch as [Hch _]. split.
    - apply List.Forall_app. by split; [|constructor].
    - rewrite Hs at 2. rewrite !fmap_app. cbn. by rewrite Hn, Hh. }
  assert (Hin : forall t, last acc = Some t -> block_checked t).
  { intros t Hl. rewrite List.Forall_forall in Hch. apply Hch. rewrite (last_split _ _ Hl). apply in_app_iff. right. by left. }
  destruct r as [block hash rlp|block rlp|block rlp| | | |]; cbn [assemble_step]; intros H; try done;
    apply rbind_Ok in H as (t & Ht & H).
  - injection H as <-. apply open_block_checked in Ht as (Hc & Hn & Hh & _). split_and!.
    + apply List.Forall_app. by split; [|constructor].
    + rewrite fmap_app. cbn. by rewrite Hn, Hh.
    + apply List.Forall_app. by split; [|constructor].
  - apply expect_pending_Ok in Ht. apply rbind_Ok in H as (t' & Ht' & H). injection H as <-.
    apply add_body_checked in Ht' as (Hc & Hn & Hh & _); [|by apply Hin].
    destruct (Hreplace t t' Ht Hn Hh Hc) as [H1 H2]. split_and!; [done|by rewrite app_nil_r|].
    apply List.Forall_app. by split; [|constructor].
  - apply expect_pending_Ok in Ht. apply rbind_Ok in H as (t' & Ht' & H). injection H as <-.
    apply add_receipts_checked in Ht' as (Hc & Hn & Hh & _); [|by apply Hin].
    destruct (Hreplace t t' Ht Hn Hh Hc) as [H1 H2]. split_and!; [done|by rewrite app_nil_r|].
    apply List.Forall_app. by split; [|constructor].
Qed.

(** The blocks that the records of a blocks section describe, each with the header, the
    transactions and the receipts its records encode. *)
Inductive describes : list SnapshotRecord -> list PendingBlock -> Prop :=
  | describes_nil : describes [] []
  | describes_header rs bl number hash rlp header :
      describes rs bl -> block_header_decode rlp = Some (header, []) -> bh_number header = number ->
      describes (rs ++ [Header number hash rlp])
        (bl ++ [{| pb_number := number; pb_hash := hash; pb_header := header; pb_body := None; pb_receipts := None |}])
  | describes_body rs bl number hash header body receipts rlp txs :
      describes rs (bl ++ [{| pb_number := number; pb_hash := hash; pb_header := header; pb_body := body;
                             pb_receipts := receipts |}]) ->
      block_body_decode rlp = Some (txs, []) -> calculate_transaction_root txs = bh_transactions_root header ->
      describes (rs ++ [Body number rlp])
        (bl ++ [{| pb_number := number; pb_hash := hash; pb_header := header; pb_body := Some txs;
                   pb_receipts := receipts |}])
  | describes_receipts rs bl number hash header txs old rlp receipts :
      describes rs (bl ++ [{| pb_number := number; pb_hash := hash; pb_header := header; pb_body := Some txs;
                             pb_receipts := old |}]) ->
      decode_stored_receipts rlp (tx_type_byte <$> txs) = Ok receipts ->
      calculate_receipt_root receipts = bh_receipts_root header ->
      describes (rs ++ [Receipts number rlp])
        (bl ++ [{| pb_number := number; pb_hash := hash; pb_header := header; pb_body := Some txs;
                   pb_receipts := Some receipts |}]).

Lemma expect_pending_number (o : option PendingBlock) (block : Z) (t : PendingBlock) :
  expect_pending o block = Ok t -> o = Some t /\ pb_number t = block.
Proof.
  unfold expect_pending. intros H. ok_inv. if_inv H. injection H as <-. split; [done|].
  by apply negb_false_iff, Z.eqb_eq in C.
Qed.

Lemma assemble_describes (rs : list SnapshotRecord) (bl : list PendingBlock) :
  assemble rs = Ok bl -> describes rs bl.
Proof.
  revert bl. induction rs as [|r rs IH] using rev_ind; intros bl; [intros [= <-]; constructor|].
  destruct (assemble rs) as [acc|] eqn:Ha; cycle 1.
  { unfold assemble in *. rewrite try_fold_snoc, Ha. done. }
  rewrite (assemble_snoc _ _ _ Ha). specialize (IH acc eq_refl).
  destruct r as [block hash rlp|block rlp|block rlp| | | |]; cbn [assemble_step]; intros H; try done;
    apply rbind_Ok in H as (t & Ht & H).
  - injection H as <-. unfold open_block in Ht. apply rbind_Ok in Ht as ([h input] & Hd%ok_or_Ok & Ht).
    if_inv Ht. apply negb_false_iff in C, C0. apply bool_decide_eq_true in C. apply Z.eqb_eq in C0.
    injection Ht as <-. subst input. by constructor.
  - apply expect_pending_number in Ht as [Hl <-]. apply rbind_Ok in H as (t' & Ht' & H). injection H as <-.
    rewrite (last_split _ _ Hl) in IH. unfold add_body in Ht'.
    apply rbind_Ok in Ht' as ([body input] & Hd%ok_or_Ok & Ht'). if_inv Ht'. apply negb_false_iff in C, C0.
    apply bool_decide_eq_true in C. apply Z.eqb_eq in C0. injection Ht' as <-. subst input.
    destruct t. by eapply describes_body.
  - apply expect_pending_number in Ht as [Hl <-]. apply rbind_Ok in H as (t' & Ht' & H). injection H as <-.
    rewrite (last_split _ _ Hl) in IH. unfold add_receipts in Ht'.
    apply rbind_Ok in Ht' as (body & Hb%ok_or_Ok & Ht'). apply rbind_Ok in Ht' as (receipts & Hr%map_err_Ok & Ht').
    if_inv Ht'. apply negb_false_iff, Z.eqb_eq in C. injection Ht' as <-.
    destruct t as [n h hd bd rc]. cbn in *. subst bd. by eapply describes_receipts.
Qed.

(** The records of the blocks section. *)
Definition is_block_record (r : SnapshotRecord) : bool :=
  match r with Header _ _ _ | Body _ _ | Receipts _ _ => true | _ => false end.

Definition txs (bl : list PendingBlock) : Z := foldr (fun b n => Z.of_nat (tx_count b) + n) 0 bl.

Lemma append_blocks_app (b1 b2 : list PendingBlock) (r1 r2 : list (Z * ArbReceiptEnvelope)) (d : Datadir) :
  append_blocks b2 r2 (append_blocks b1 r1 d) = append_blocks (b1 ++ b2) (r1 ++ r2) d.
Proof. unfold append_blocks. cbn. by rewrite !fmap_app, !app_assoc, fold_left_app. Qed.

Lemma number_receipts_app (n : Z) (a b : list PendingBlock) (ra rb : list (Z * ArbReceiptEnvelope)) :
  Forall block_checked a -> number_receipts n a = Ok ra -> number_receipts (n + txs a) b = Ok rb ->
  number_receipts n (a ++ b) = Ok (ra ++ rb).
Proof.
  intros Hch. revert n ra. induction Hch as [|x a (_ & _ & Hr) _ IH]; intros n ra; cbn [app number_receipts txs foldr].
  { intros [= <-]. by rewrite Z.add_0_r. }
  fold (txs a). destruct (pb_receipts x) as [rs|].
  - destruct (Hr rs eq_refl) as (Hlen & _). intros Ha Hb. ok_inv. subst ra.
    rewrite (IH _ _ E); [cbn; by rewrite app_assoc|]. rewrite Hlen. by rewrite <- Z.add_assoc.
  - destruct (Nat.ltb_spec 0 (tx_count x)) as [|Hz]; [done|]. intros Ha Hb. apply IH; [done|].
    by replace (tx_count x) with O in Hb by lia.
Qed.

(** The tables after the blocks [fl] are committed. *)
Definition flushed (fl : list PendingBlock) (st : BlocksState) (w : Work) : Prop :=
  exists receipts, number_receipts 0 fl = Ok receipts /\ w_dir w = append_blocks fl receipts empty_datadir /\
    ws_stats st = fold_left count_block fl block_stats_default /\ ws_next_tx_num st = txs fl.

Lemma flushed_incomplete (fl : list PendingBlock) (st : BlocksState) (w : Work) : flushed fl st w -> incomplete w.
Proof. intros (receipts & _ & Hd & _). unfold incomplete. by rewrite Hd. Qed.

Lemma txs_app (a b : list PendingBlock) : txs (a ++ b) = txs a + txs b.
Proof. induction a as [|x a IH]; [done|]. cbn. fold (txs a) (txs (a ++ b)). rewrite IH. lia. Qed.

Lemma flush_blocks_spec (fl : list PendingBlock) (st : BlocksState) (w : Work) :
  Forall block_checked fl -> flushed fl st w ->
  wp (flush_blocks st) (fun st' w' => flushed (fl ++ ws_batch st) st' w' /\ ws_batch st' = [] /\ ws_pending st' = ws_pending st)
    incomplete w.
Proof.
  intros Hch Hfl. pose proof (flushed_incomplete _ _ _ Hfl) as Hi. destruct Hfl as (recs & Hrec & Hd & Hst & Htx).
  unfold flush_blocks. destruct (ws_batch st) as [|b batch] eqn:Hb.
  { apply wp_ret. rewrite app_nil_r. split; [by exists recs|done]. }
  rewrite <- Hb. clear b batch Hb. set (batch := ws_batch st).
  apply wp_bind, wp_lift; [done|]. intros rb Hrb. apply wp_bind, wp_dir.
  destruct (negb _); [by apply wp_raise|]. apply wp_bind, wp_commit; [done|]. intros w' Hw'.
  rewrite Hd, append_blocks_app in Hw'. split; [unfold incomplete; by rewrite Hw'|]. apply wp_ret.
  split; [|done]. exists (recs ++ rb). split_and!; [|done| |].
  - apply number_receipts_app; [done|done|]. by rewrite Z.add_0_l, <- Htx.
  - cbn. by rewrite fold_left_app, Hst.
  - cbn. by rewrite txs_app, Htx.
Qed.

(** The loop between two records: what was pulled makes up what is committed, batched and open. *)
Definition opt_pending (st : BlocksState) : list PendingBlock :=
  match ws_pending st with
  | Some p => [p]
  | None => []
  end.

Definition blocks_inv (s0 s : SnapshotStream) (st : BlocksState) (w : Work) : Prop :=
  exists rs fl, pulls s0 rs s /\ assemble rs = Ok (fl ++ ws_batch st ++ opt_pending st) /\ flushed fl st w.

Definition blocks_done (s0 : SnapshotStream) (r : SnapshotStream * BlocksState) (w : Work) : Prop :=
  exists rs bl, stops s0 rs (fst r) /\ assemble rs = Ok bl /\ flushed bl (snd r) w.

Lemma blocks_inv_incomplete (s0 s : SnapshotStream) (st : BlocksState) (w : Work) : blocks_inv s0 s st w -> incomplete w.
Proof. intros (rs & fl & _ & _ & Hfl). by eapply flushed_incomplete. Qed.

Lemma take_pending_flushed (fl : list PendingBlock) (st : BlocksState) (w : Work) :
  flushed fl st w -> flushed fl (take_pending st) w /\ ws_batch (take_pending st) = ws_batch st ++ opt_pending st /\
  ws_pending (take_pending st) = None.
Proof.
  unfold take_pending, opt_pending. destruct (ws_pending st) eqn:Hp; [done|]. rewrite app_nil_r. done.
Qed.

(** A record that goes to the open block. *)
Lemma blocks_inv_pending (s0 s s' : SnapshotStream) (st : BlocksState) (w : Work) (r : SnapshotRecord) (block : Z)
    (t t' : PendingBlock) :
  blocks_inv s0 s st w -> next_record s = Ok (Some r, s') -> expect_pending (ws_pending st) block = Ok t ->
  (forall acc, last acc = Some t -> assemble_step acc r = Ok (removelast acc ++ [t'])) ->
  blocks_inv s0 s' (with_pending st t') w.
Proof.
  intros (rs & fl & Hp & Ha & Hfl) Hn Ht Hstep. apply expect_pending_Ok in Ht. exists (rs ++ [r]), fl.
  split; [by eapply pulls_snoc|]. unfold opt_pending in *. rewrite Ht in Ha. cbn [with_pending ws_batch ws_pending].
  split; [|done]. rewrite (assemble_snoc _ _ _ Ha). rewrite app_assoc, Hstep by apply last_snoc.
  by rewrite removelast_last, app_assoc.
Qed.
Lemma with_pending_flushed (fl : list PendingBlock) (st : BlocksState) (p : PendingBlock) (w : Work) :
  flushed fl st w -> flushed fl (with_pending st p) w.
Proof. done. Qed.

(** The flush that a header may trigger. *)
Lemma maybe_flush_spec (fl : list PendingBlock) (st : BlocksState) (w : Work) (full : bool) :
  Forall block_checked fl -> flushed fl st w ->
  wp (if full then
        let! st := flush_blocks st in
        mret {| ws_batch := ws_batch st; ws_pending := ws_pending st; ws_batch_txs := 0;
                ws_next_tx_num := ws_next_tx_num st; ws_stats := ws_stats st |}
      else mret st)
    (fun st' w' => exists fl', flushed fl' st' w' /\ fl' ++ ws_batch st' = fl ++ ws_batch st /\ ws_pending st' = ws_pending st)
    incomplete w.
Proof.
  intros Hch Hfl. destruct full; [|apply wp_ret; by exists fl].
  apply wp_bind. eapply wp_mono; [by apply flush_blocks_spec| |done].
  intros st' w' (Hfl' & Hb & Hp). apply wp_ret. exists (fl ++ ws_batch st). cbn. rewrite Hb, app_nil_r. by split_and!.
Qed.

Lemma assemble_prefix_checked (rs : list SnapshotRecord) (a b : list PendingBlock) :
  assemble rs = Ok (a ++ b) -> Forall block_checked a.
Proof. intros (Hch & _)%assemble_checked. by apply List.Forall_app in Hch as [? _]. Qed.

Lemma blocks_loop_spec (fuel : nat) (s0 s : SnapshotStream) (st : BlocksState) (w : Work) :
  blocks_inv s0 s st w -> wp (blocks_loop fuel s st) (blocks_done s0) incomplete w.
Proof.
  revert s st w. induction fuel as [|fuel IH]; intros s st w Hinv; pose proof (blocks_inv_incomplete _ _ _ _ Hinv) as Hi;
    cbn [blocks_loop]; [by apply wp_raise|].
  apply wp_bind, wp_pull; [done|]. intros o s' Hn.
  assert (Hend : forall o, next_record s = Ok (o, s') ->
    wp (let! st := flush_blocks (take_pending st) in mret (match o with Some record => unread s' record | None => s' end, st))
      (blocks_done s0) incomplete w).
  { clear o Hn. intros o Hn. destruct Hinv as (rs & fl & Hp & Ha & Hfl).
    destruct (take_pending_flushed _ _ _ Hfl) as (Hfl' & Hb & _).
    apply wp_bind. eapply wp_mono; [apply flush_blocks_spec; [by eapply assemble_prefix_checked|exact Hfl']| |done].
    intros st' w' (Hfl'' & _). apply wp_ret. exists rs, (fl ++ ws_batch (take_pending st)). split_and!; [|by rewrite Hb|done].
    by exists s, o, s'. }
  destruct o as [[block hash rlp|block rlp|block rlp| | | |]|]; try by apply (Hend _ Hn).
  - destruct Hinv as (rs & fl & Hp & Ha & Hfl). destruct (take_pending_flushed _ _ _ Hfl) as (Hfl' & Hb & Hpn).
    apply wp_bind. eapply wp_mono; [apply maybe_flush_spec; [by eapply assemble_prefix_checked|exact Hfl']| |done].
    intros st' w' (fl' & Hfl'' & Hall & Hpn'). apply wp_bind, wp_lift; [by eapply flushed_incomplete|].
    intros p Hopen. apply IH. exists (rs ++ [Header block hash rlp]), fl'. split; [by eapply pulls_snoc|].
    split; [|by apply with_pending_flushed]. rewrite (assemble_snoc _ _ _ Ha). cbn [assemble_step]. rewrite Hopen. cbn [rbind].
    cbn [with_pending ws_batch ws_pending opt_pending]. by rewrite <- Hb, <- Hall, <- app_assoc.
  - apply wp_bind, wp_lift; [done|]. intros t Ht. apply wp_bind, wp_lift; [done|]. intros t' Ht'. apply IH.
    eapply blocks_inv_pending; [exact Hinv|exact Hn|exact Ht|]. intros acc Hl. cbn [assemble_step].
    apply expect_pending_Ok in Ht as Ht2. rewrite Hl, <- Ht2, Ht. cbn [rbind]. by rewrite Ht'.
  - apply wp_bind, wp_lift; [done|]. intros t Ht. apply wp_bind, wp_lift; [done|]. intros t' Ht'. apply IH.
    eapply blocks_inv_pending; [exact Hinv|exact Hn|exact Ht|]. intros acc Hl. cbn [assemble_step].
    apply expect_pending_Ok in Ht as Ht2. rewrite Hl, <- Ht2, Ht. cbn [rbind]. by rewrite Ht'.
Qed.

Lemma write_blocks_spec (fuel : nat) (s : SnapshotStream) (m : Manifest) (w : Work) :
  w_dir w = empty_datadir ->
  wp (write_blocks fuel s m)
    (fun '(s', stats) w' => exists rs bl receipts, stops s rs s' /\ assemble rs = Ok bl /\
       number_receipts 0 bl = Ok receipts /\ w_dir w' = append_blocks bl receipts empty_datadir /\
       stats = fold_left count_block bl block_stats_default /\ bl <> [] /\ bs_last_block stats = m_block m)
    incomplete w.
Proof.
  intros Hd. unfold write_blocks. apply wp_bind. eapply wp_mono; [apply blocks_loop_spec| |done].
  { exists [], []. split; [constructor|]. split; [done|]. exists []. by rewrite Hd. }
  intros [s' st] w' (rs & bl & Hs & Ha & Hfl). pose proof (flushed_incomplete _ _ _ Hfl) as Hi.
  destruct Hfl as (recs & Hrec & Hd' & Hst & _). cbn [fst snd] in *.
  destruct (Z.eqb_spec (bs_blocks (ws_stats st)) 0) as [|Hne]; [by apply wp_raise|].
  destruct (Z.eqb_spec (bs_last_block (ws_stats st)) (m_block m)) as [Heq|]; cbn [negb]; [|by apply wp_raise].
  apply wp_ret. exists rs, bl, recs. split_and!; try done. intros ->. by rewrite Hst in Hne.
Qed.
(** ** State history *)

Lemma lay_out_history_app (at_ e1 e2 : Z) (a b : list HistoryObject) (x1 x2 : list (Z * list AccountBeforeTx))
    (y1 y2 : list (Z * list StorageBeforeTx)) :
  lay_out_history at_ a = Ok (x1, y1, e1) -> lay_out_history e1 b = Ok (x2, y2, e2) ->
  lay_out_history at_ (a ++ b) = Ok (x1 ++ x2, y1 ++ y2, e2).
Proof.
  revert at_ x1 y1. induction a as [|o a IH]; intros at_ x1 y1; cbn [app lay_out_history]; [by intros [= <- <- <-]|].
  destruct (ho_block o <? at_); [done|]. intros Ha Hb. apply rbind_Ok in Ha as ([[x y] e] & Ha & Heq). injection Heq as <- <- <-.
  rewrite (IH _ _ _ Ha Hb). cbn [rbind]. by rewrite !app_assoc.
Qed.

Lemma count_objects_app (at_ e1 : Z) (a b : list HistoryObject) (x1 : list (Z * list AccountBeforeTx))
    (y1 : list (Z * list StorageBeforeTx)) (stats : HistorySectionStats) :
  lay_out_history at_ a = Ok (x1, y1, e1) ->
  count_objects at_ stats (a ++ b) = count_objects e1 (count_objects at_ stats a) b.
Proof.
  revert at_ x1 y1 stats. induction a as [|o a IH]; intros at_ x1 y1 stats; cbn [app lay_out_history count_objects];
    [by intros [= _ _ <-]|].
  destruct (ho_block o <? at_); [done|]. intros Ha. apply rbind_Ok in Ha as ([[x y] e] & Ha & Heq). injection Heq as _ _ <-.
  by apply (IH _ _ _ _ Ha).
Qed.

Lemma append_history_app (start : option Z) (x1 x2 : list (Z * list AccountBeforeTx)) (y1 y2 : list (Z * list StorageBeforeTx))
    (d : Datadir) :
  append_history None x2 y2 (append_history start x1 y1 d) = append_history start (x1 ++ x2) (y1 ++ y2) d.
Proof. unfold append_history. cbn. by rewrite !app_assoc. Qed.

(** The changesets after the objects [fl] are committed. *)
Definition history_flushed (d0 : Datadir) (fl : list HistoryObject) (st : HistoryState) (w : Work) : Prop :=
  match fl with
  | [] => w_dir w = d0 /\ hw_cursor st = None /\ hw_stats st = history_stats_default
  | o :: _ =>
      exists x y e, lay_out_history (ho_block o) fl = Ok (x, y, e) /\
        w_dir w = append_history (Some (ho_block o)) x y d0 /\ hw_cursor st = Some e /\
        hw_stats st = count_objects (ho_block o) (set_first_block (ho_block o) history_stats_default) fl
  end.

Lemma history_flushed_incomplete (d0 : Datadir) (fl : list HistoryObject) (st : HistoryState) (w : Work) :
  dd_complete d0 = None -> history_flushed d0 fl st w -> incomplete w.
Proof.
  intros Hd. unfold incomplete. destruct fl; [intros (-> & _); done|]. intros (x & y & e & _ & -> & _). done.
Qed.

Lemma flush_history_spec (d0 : Datadir) (fl : list HistoryObject) (st : HistoryState) (w : Work) :
  dd_complete d0 = None -> history_flushed d0 fl st w ->
  wp (flush_history st) (fun st' w' => history_flushed d0 (fl ++ hw_batch st) st' w' /\ hw_batch st' = []) incomplete w.
Proof.
  intros Hd Hfl. pose proof (history_flushed_incomplete _ _ _ _ Hd Hfl) as Hi.
  unfold flush_history. destruct (hw_batch st) as [|o batch] eqn:Hb.
  { apply wp_ret. by rewrite app_nil_r. }
  apply wp_bind, wp_lift; [done|]. intros [[x y] e] Hlay. apply wp_bind, wp_commit; [done|]. intros w' Hw'.
  destruct fl as [|o0 fl].
  - destruct Hfl as (Hd0 & Hcur & Hst). rewrite Hcur in *. cbn [default] in *. rewrite Hd0 in Hw'.
    split; [unfold incomplete; by rewrite Hw'|]. apply wp_ret. split; [|done]. exists x, y, e. rewrite Hst. done.
  - destruct Hfl as (x0 & y0 & e0 & Hlay0 & Hd0 & Hcur & Hst). rewrite Hcur in *. cbn [default] in *.
    rewrite Hd0, append_history_app in Hw'. split; [unfold incomplete; by rewrite Hw'|]. apply wp_ret. split; [|done].
    exists (x0 ++ x), (y0 ++ y), e. split_and!; [by eapply (lay_out_history_app _ _ _ (o0 :: fl))|done|done|].
    cbn [hw_stats]. by rewrite Hst, <- (count_objects_app _ _ (o0 :: fl) _ _ _ _ Hlay0).
Qed.

Definition history_inv (d0 : Datadir) (s0 s : SnapshotStream) (st : HistoryState) (w : Work) : Prop :=
  exists fl, pulls s0 (History <$> (fl ++ hw_batch st)) s /\ history_flushed d0 fl st w.

Lemma history_loop_spec (d0 : Datadir) (fuel : nat) (s0 s : SnapshotStream) (st : HistoryState) (w : Work) :
  dd_complete d0 = None -> history_inv d0 s0 s st w ->
  wp (history_loop fuel s st)
    (fun '(s', st') w' => exists objs, stops s0 (History <$> objs) s' /\ history_flushed d0 objs st' w') incomplete w.
Proof.
  intros Hd. revert s st w. induction fuel as [|fuel IH]; intros s st w Hinv; destruct Hinv as (fl & Hp & Hfl);
    pose proof (history_flushed_incomplete _ _ _ _ Hd Hfl) as Hi; cbn [history_loop]; [by apply wp_raise|].
  apply wp_bind, wp_pull; [done|]. intros o s' Hn.
  assert (Hend : forall o, next_record s = Ok (o, s') ->
    wp (let! st := flush_history st in mret (match o with Some record => unread s' record | None => s' end, st))
      (fun '(s', st') w' => exists objs, stops s0 (History <$> objs) s' /\ history_flushed d0 objs st' w') incomplete w).
  { clear o Hn. intros o Hn. apply wp_bind. eapply wp_mono; [by apply (flush_history_spec d0 fl)| |done].
    intros st' w' (Hfl' & _). apply wp_ret. exists (fl ++ hw_batch st). split; [by exists s, o, s'|done]. }
  destruct o as [[| | |object| | |]|]; try by apply (Hend _ Hn).
  set (st1 := {| hw_batch := hw_batch st ++ [object]; hw_entries := (hw_entries st + object_entries object)%nat;
                 hw_cursor := hw_cursor st; hw_stats := hw_stats st |}).
  assert (Hp1 : pulls s0 (History <$> fl ++ hw_batch st1) s').
  { cbn [st1 hw_batch]. rewrite app_assoc, fmap_app. cbn. by eapply pulls_snoc. }
  assert (Hfl1 : history_flushed d0 fl st1 w) by (by destruct fl).
  destruct (CHANGESET_BATCH <=? hw_entries st1)%nat.
  - apply wp_bind. eapply wp_mono; [apply flush_history_spec; [exact Hd|exact Hfl1]| |done].
    intros st' w' (Hfl' & Hb). apply IH. exists (fl ++ hw_batch st1). cbn [hw_batch].
    rewrite Hb, app_nil_r. split; [done|]. by destruct (fl ++ hw_batch st1).
  - apply IH. by exists fl.
Qed.

Lemma write_history_spec (d0 : Datadir) (fuel : nat) (s : SnapshotStream) (m : Manifest) (w : Work) :
  dd_complete d0 = None -> w_dir w = d0 ->
  wp (write_history fuel s m)
    (fun '(s', stats) w' => exists o objs x y e, stops s (History <$> o :: objs) s' /\
       lay_out_history (ho_block o) (o :: objs) = Ok (x, y, e) /\
       w_dir w' = append_history (Some (ho_block o)) x y d0 /\
       stats = count_objects (ho_block o) (set_first_block (ho_block o) history_stats_default) (o :: objs) /\
       hs_last_block stats = m_block m)
    incomplete w.
Proof.
  intros Hd Hw. unfold write_history. apply wp_bind.
  eapply wp_mono; [apply (history_loop_spec d0 fuel s s); [exact Hd|]| |done].
  { exists []. split; [apply pulls_nil|]. by split_and!. }
  intros [s' st] w' (objs & Hs & Hfl). pose proof (history_flushed_incomplete _ _ _ _ Hd Hfl) as Hi.
  destruct (Z.eqb_spec (hs_objects (hw_stats st)) 0) as [|Hne]; [by apply wp_raise|].
  apply wp_bind, wp_lift; [done|]. intros _ _.
  destruct (Z.eqb_spec (hs_last_block (hw_stats st)) (m_block m)) as [Heq|]; cbn [negb]; [|by apply wp_raise].
  apply wp_ret. destruct objs as [|o objs]; [destruct Hfl as (_ & _ & Hst); by rewrite Hst in Hne|].
  destruct Hfl as (x & y & e & Hlay & Hdir & _ & Hst). by exists o, objs, x, y, e.
Qed.
(** ** State *)

Definition state_start : StateLoop := {|
  sl_ops := []; sl_account := None; sl_wanted := ∅; sl_provided := ∅;
  sl_stats := {| ss_accounts := 0; ss_slots := 0; ss_bytecodes := 0 |}
|}.

(** The state section without its intermediate commits. *)
Definition state_of (rs : list SnapshotRecord) : result string StateLoop := try_fold state_record rs state_start.

Definition with_prefix (ops : list StateOp) (st : StateLoop) : StateLoop := {|
  sl_ops := ops ++ sl_ops st; sl_account := sl_account st; sl_wanted := sl_wanted st; sl_provided := sl_provided st;
  sl_stats := sl_stats st
|}.

Lemma state_record_prefix (ops : list StateOp) (st st' : StateLoop) (r : SnapshotRecord) :
  state_record st r = Ok st' -> state_record (with_prefix ops st) r = Ok (with_prefix ops st').
Proof.
  destruct r as [| | | |h n b c|h v|h c]; cbn [state_record with_prefix sl_account sl_stats]; intros H; try done.
  - injection H as <-. unfold with_prefix. cbn. by rewrite app_assoc.
  - apply rbind_Ok in H as (owner & Ho & H). rewrite Ho. cbn [rbind]. destruct (v =? 0); [by injection H as <-|].
    injection H as <-. unfold with_prefix. cbn. by rewrite app_assoc.
  - injection H as <-. unfold with_prefix. cbn. by rewrite app_assoc.
Qed.

Lemma with_prefix_nil (st : StateLoop) : with_prefix [] st = st.
Proof. by destruct st. Qed.

Lemma state_of_records (rs : list SnapshotRecord) (st : StateLoop) :
  state_of rs = Ok st -> Forall (fun r => match r with Account _ _ _ _ | Storage _ _ | Code _ _ => True | _ => False end) rs.
Proof.
  unfold state_of. generalize state_start as st0. induction rs as [|r rs IH]; intros st0 H; [done|].
  cbn [try_fold] in H. apply rbind_Ok in H as (st1 & Hr & H). constructor; [by destruct r|by eapply IH].
Qed.

Definition state_inv (d0 : Datadir) (s0 s : SnapshotStream) (st : StateLoop) (w : Work) : Prop :=
  exists rs ops, pulls s0 rs s /\ state_of rs = Ok (with_prefix ops st) /\ w_dir w = fold_left apply_op ops d0.

Lemma apply_ops_complete (ops : list StateOp) (d : Datadir) : dd_complete (fold_left apply_op ops d) = dd_complete d.
Proof. revert d. induction ops as [|op ops IH]; intros d; [done|]. cbn. by rewrite IH. Qed.

Lemma state_inv_incomplete (d0 : Datadir) (s0 s : SnapshotStream) (st : StateLoop) (w : Work) :
  dd_complete d0 = None -> state_inv d0 s0 s st w -> incomplete w.
Proof. intros Hd (rs & ops & _ & _ & Hw). unfold incomplete. by rewrite Hw, apply_ops_complete. Qed.

Lemma state_commit_spec (d0 : Datadir) (s0 s : SnapshotStream) (st : StateLoop) (w : Work) :
  dd_complete d0 = None -> state_inv d0 s0 s st w ->
  wp (state_commit st) (fun st' w' => state_inv d0 s0 s st' w' /\ sl_ops st' = [] /\ sl_stats st' = sl_stats st /\
      sl_wanted st' = sl_wanted st /\ sl_provided st' = sl_provided st) incomplete w.
Proof.
  intros Hd Hinv. pose proof (state_inv_incomplete _ _ _ _ _ Hd Hinv) as Hi. destruct Hinv as (rs & ops & Hp & Ho & Hw).
  unfold state_commit. apply wp_bind, wp_commit; [done|]. intros w' Hw'. rewrite Hw, <- fold_left_app in Hw'.
  split; [unfold incomplete; by rewrite Hw', apply_ops_complete|]. apply wp_ret. split_and!; try done.
  exists rs, (ops ++ sl_ops st). split_and!; [done| |done]. rewrite Ho. unfold with_prefix. cbn. by rewrite app_nil_r.
Qed.

Lemma state_loop_spec (d0 : Datadir) (fuel : nat) (s0 s : SnapshotStream) (st : StateLoop) (w : Work) :
  dd_complete d0 = None -> state_inv d0 s0 s st w ->
  wp (state_loop fuel s st)
    (fun st' w' => exists s', state_inv d0 s0 s' st' w' /\ exists s2, next_record s' = Ok (None, s2)) incomplete w.
Proof.
  intros Hd. revert s st w. induction fuel as [|fuel IH]; intros s st w Hinv;
    pose proof (state_inv_incomplete _ _ _ _ _ Hd Hinv) as Hi; cbn [state_loop]; [by apply wp_raise|].
  apply wp_bind.
  assert (Hflush : wp (if (STATE_COMMIT_THRESHOLD <=? sl_written st)%nat then state_commit st else mret st)
            (fun st' w' => state_inv d0 s0 s st' w') incomplete w).
  { destruct (_ <=? _)%nat; [|by apply wp_ret]. eapply wp_mono; [by apply (state_commit_spec d0 s0 s)| |done]. by intros ? ? (? & _). }
  eapply wp_mono; [exact Hflush| |done]. clear Hinv Hi Hflush w st. intros st w Hinv.
  pose proof (state_inv_incomplete _ _ _ _ _ Hd Hinv) as Hi.
  apply wp_bind, wp_pull; [done|]. intros [r|] s' Hn.
  - apply wp_bind, wp_lift; [done|]. intros st' Hr. apply IH. destruct Hinv as (rs & ops & Hp & Ho & Hw).
    exists (rs ++ [r]), ops. split; [by eapply pulls_snoc|]. split; [|done].
    unfold state_of in *. rewrite try_fold_snoc, Ho. by apply state_record_prefix.
  - apply wp_ret. exists s. split; [done|]. by exists s'.
Qed.

Lemma write_state_spec (d0 : Datadir) (fuel : nat) (s : SnapshotStream) (w : Work) :
  dd_complete d0 = None -> w_dir w = d0 ->
  wp (write_state fuel s)
    (fun _ w' => exists rs st, drains s rs /\ state_of rs = Ok st /\ w_dir w' = fold_left apply_op (sl_ops st) d0 /\
       ss_accounts (sl_stats st) <> 0 /\ sl_wanted st ⊆ sl_provided st)
    incomplete w.
Proof.
  intros Hd Hw. unfold write_state. apply wp_bind.
  eapply wp_mono; [apply (state_loop_spec d0 fuel s s); [exact Hd|]| |done].
  { exists [], []. split; [constructor|]. by split. }
  intros st w1 (s' & Hinv & s2 & Hend). apply wp_bind.
  eapply wp_mono; [by apply (state_commit_spec d0 s s')| |done].
  intros st' w2 (Hinv' & Hops & Hst & Hwa & Hpr). pose proof (state_inv_incomplete _ _ _ _ _ Hd Hinv') as Hi.
  destruct (Z.eqb_spec (ss_accounts (sl_stats st')) 0) as [|Hne]; [by apply wp_raise|].
  case_bool_decide as Hsub; cbn [negb]; [|by apply wp_raise]. apply wp_ret.
  destruct Hinv' as (rs & ops & Hp & Ho & Hd'). exists rs, (with_prefix ops st'). split; [by exists s', s2|]. split; [done|].
  cbn [with_prefix sl_ops sl_stats sl_wanted sl_provided]. by rewrite Hops, app_nil_r.
Qed.

(** ** Finishing *)

Lemma wp_iter_commit (n : nat) (Q : unit -> Work -> Prop) (C : Work -> Prop) (w : Work) :
  C w -> (forall w', w_dir w' = w_dir w -> C w') -> (forall w', w_dir w' = w_dir w -> Q tt w') ->
  wp (Nat.iter n (fun rest => let! _ := commit id in rest) (mret tt)) Q C w.
Proof.
  revert w. induction n as [|n IH]; intros w Hi HC HQ; cbn [Nat.iter]; [by apply wp_ret, HQ|].
  apply wp_bind, wp_commit; [done|]. intros w' Hw'. split; [by apply HC|].
  apply IH; [by apply HC|..]; intros w2 Hw2; rewrite Hw' in Hw2; auto.
Qed.

Lemma run_stage_spec (run : StageRun) (w : Work) :
  incomplete w -> wp (run_stage run) (fun _ w' => w_dir w' = w_dir w) incomplete w.
Proof.
  intros Hi. unfold run_stage. apply wp_bind, wp_iter_commit; [done|intros w' Hw'; unfold incomplete; by rewrite Hw'|].
  intros w1 Hw1. assert (incomplete w1) by (unfold incomplete; by rewrite Hw1).
  apply wp_bind, wp_lift; [done|]. intros _ _. apply wp_commit; [done|]. intros w2 Hw2. unfold incomplete.
  cbn in Hw2. by rewrite Hw2, Hw1.
Qed.

Lemma run_stages_spec (runs : list StageRun) (w : Work) :
  incomplete w -> wp (run_stages runs) (fun _ w' => w_dir w' = w_dir w) incomplete w.
Proof.
  revert w. induction runs as [|run runs IH]; intros w Hi; cbn [run_stages]; [by apply wp_ret|].
  apply wp_bind. eapply wp_mono; [by apply run_stage_spec| |done]. intros [] w1 Hw1.
  eapply wp_mono; [apply IH; unfold incomplete; by rewrite Hw1| |done]. cbn. intros [] w2 Hw2. by rewrite Hw2.
Qed.

(** The datadir [d] finished at the manifest's block. *)
Definition finished_at (m : Manifest) (history_from : Z) (d d' : Datadir) : Prop :=
  exists header, sealed_header d (m_block m) = Some (m_hash m, header) /\ bh_number header = m_block m /\
    bh_hash header = m_hash m /\
    d' = set_complete {| im_block_number := m_block m; im_block_hash := m_hash m; im_state_root := bh_state_root header |}
           (match m_resume m with
            | Some resume => set_resume (Written resume)
            | None => id
            end (set_checkpoints (m_block m) (write_history_boundary history_from) d)) /\
    (forall resume, m_resume m = Some resume -> rp_l2_block resume <= m_block m).

Lemma finalize_spec (env : FinalizeEnv) (m : Manifest) (history_from : Z) (w : Work) (d : Datadir) :
  w_dir w = d -> dd_complete d = None ->
  wp (finalize env m history_from) (fun _ w' => finished_at m history_from d (w_dir w'))
    (fun w' => dd_complete (w_dir w') = None \/ finished_at m history_from d (w_dir w')) w.
Proof.
  intros Hw Hd. assert (Hi : incomplete w) by (unfold incomplete; by rewrite Hw). unfold finalize. apply wp_bind.
  eapply wp_mono; [by apply run_stages_spec| |by left]. intros [] w1 Hw1. rewrite Hw in Hw1.
  assert (Hi1 : dd_complete (w_dir w1) = None) by (by rewrite Hw1).
  apply wp_bind, wp_dir. apply wp_bind, wp_lift; [by left|]. intros [hash header] Hh. apply ok_or_Ok in Hh.
  destruct (Z.eqb_spec hash (m_hash m)) as [->|]; cbn [negb]; [|apply wp_raise; by left].
  apply wp_bind, wp_commit; [by left|]. intros w2 Hw2. rewrite Hw1 in *.
  assert (Hi2 : dd_complete (w_dir w2) = None) by (by rewrite Hw2). split; [by left|].
  apply wp_bind.
  assert (Hres : wp (write_resume_log m) (fun _ w3 =>
      w_dir w3 = (match m_resume m with Some resume => set_resume (Written resume) | None => id end) (w_dir w2) /\
      forall resume, m_resume m = Some resume -> rp_l2_block resume <= m_block m) incomplete w2).
  { unfold write_resume_log. destruct (m_resume m) as [resume|]; [|by apply wp_ret].
    destruct (Z.ltb_spec (m_block m) (rp_l2_block resume)); [by apply wp_raise|].
    apply wp_bind, wp_commit; [done|]. intros w0 Hw0.
    assert (Hi0 : incomplete w0) by (unfold incomplete; by rewrite Hw0). split; [done|].
    apply wp_commit; [done|]. intros w3 Hw3. rewrite Hw0 in Hw3.
    split; [unfold incomplete; by rewrite Hw3|]. split; [done|]. by intros ? [= <-]. }
  eapply wp_mono; [exact Hres| |by left]. intros [] w3 [Hw3 Hbelow].
  assert (Hi3 : dd_complete (w_dir w3) = None) by (rewrite Hw3; by destruct (m_resume m)).
  unfold write_snapshot_import_manifest.
  destruct (Z.eqb_spec (bh_number header) (m_block m)) as [Hnum|]; cbn [andb negb]; [|apply wp_raise; by left].
  destruct (Z.eqb_spec (bh_hash header) (m_hash m)) as [Hhash|]; cbn [negb]; [|apply wp_raise; by left].
  apply wp_bind, wp_dir. rewrite Hi3. apply wp_commit; [by left|]. intros w4 Hw4.
  assert (finished_at m history_from d (w_dir w4)); [|by split; [right|]].
  exists header. split_and!; try done. by rewrite Hw4, Hw3, Hw2.
Qed.
(** ** Numbers *)

Lemma header_numbers (top : Z) (lb lh : option (Z * Z)) (rs : list SnapshotRecord) :
  valid_from top lb lh rs ->
  match lb with
  | Some (n, _) => (omap header_of rs).*1 = seqZ (n + 1) (Z.of_nat (length (omap header_of rs)))
  | None => exists first, (omap header_of rs).*1 = seqZ first (Z.of_nat (length (omap header_of rs)))
  end.
Proof.
  revert lb lh. induction rs as [|r rs IH]; intros lb lh; cbn [valid_from].
  { intros _. destruct lb as [[n h]|]; [done|]. by exists 0. }
  intros [Hv Hvs]. apply IH in Hvs. destruct r as [block hash rlp| | | | | |]; cbn [omap list_omap header_of] in *; try exact Hvs.
  cbn [next_block] in Hvs. destruct Hv as (_ & _ & parent & _ & Hf). cbn [fmap list_fmap length fst].
  assert (Hseq : forall n, block = n -> block :: (omap header_of rs).*1 = seqZ n (Z.of_nat (S (length (omap header_of rs))))).
  { intros n <-. rewrite Hvs. rewrite (seqZ_cons block) by lia. f_equal. f_equal; lia. }
  destruct lb as [[n h]|]; [apply Hseq; by destruct Hf|]. exists block. by apply Hseq.
Qed.

Lemma count_blocks_last (bl : list PendingBlock) (b : PendingBlock) (stats : BlockSectionStats) :
  bs_last_block (fold_left count_block (bl ++ [b]) stats) = pb_number b.
Proof. by rewrite fold_left_app. Qed.

Lemma count_blocks_first (bl : list PendingBlock) (stats : BlockSectionStats) :
  0 < bs_blocks stats -> bs_first_block (fold_left count_block bl stats) = bs_first_block stats.
Proof.
  revert stats. induction bl as [|b bl IH]; intros stats Hs; [done|]. cbn [fold_left]. rewrite IH by (cbn; lia). cbn.
  destruct (Z.eqb_spec (bs_blocks stats + 1) 1); [lia|done].
Qed.

Lemma numbers_span (l : list Z) (first : Z) :
  l = seqZ first (Z.of_nat (length l)) -> l <> [] -> head l = Some first /\ last l = Some (first + Z.of_nat (length l) - 1).
Proof.
  intros Hl Hne. destruct l as [|x l] using rev_ind; [done|]. clear IHl. rewrite last_snoc.
  rewrite length_app in *. cbn [length] in *. replace (Z.of_nat (length l + 1)) with (Z.of_nat (length l) + 1) in * by lia.
  split.
  - rewrite Hl. rewrite seqZ_cons by lia. done.
  - f_equal. rewrite seqZ_app in Hl by lia. apply app_inj_2 in Hl as [_ Hx]; [|rewrite length_seqZ; cbn; lia].
    rewrite seqZ_cons in Hx by lia. apply (f_equal (hd 0)) in Hx. cbn in Hx. lia.
Qed.

Lemma entries_numbers {A : Type} (at_ : Z) (o : HistoryObject) (e : list A) :
  at_ <= ho_block o -> (entries_of at_ o e).*1 = seqZ at_ (ho_block o + 1 - at_).
Proof.
  intros Hle. unfold entries_of. rewrite fmap_app, <- list_fmap_compose. cbn.
  replace (ho_block o + 1 - at_) with ((ho_block o - at_) + 1) by lia. rewrite seqZ_app by lia. f_equal.
  - by rewrite list_fmap_id.
  - rewrite seqZ_cons, seqZ_nil by lia. cbn. f_equal. lia.
Qed.

(** One changeset for every block from where the layout begins to where it ends. *)
Lemma lay_out_numbers (at_ e : Z) (objs : list HistoryObject) (x : list (Z * list AccountBeforeTx))
    (y : list (Z * list StorageBeforeTx)) :
  Forall (fun o => 0 <= ho_block o < U64_MAX) objs -> lay_out_history at_ objs = Ok (x, y, e) ->
  at_ <= e /\ x.*1 = seqZ at_ (e - at_) /\ y.*1 = seqZ at_ (e - at_) /\
  (forall o, last objs = Some o -> e = ho_block o + 1).
Proof.
  intros Hok. revert at_ x y e. induction Hok as [|o objs Ho _ IH]; intros at_ x y e; cbn [lay_out_history].
  { intros [= <- <- <-]. rewrite Z.sub_diag. split_and!; [lia|done|done|done]. }
  destruct (Z.ltb_spec (ho_block o) at_); [done|]. intros H'. apply rbind_Ok in H' as ([[x' y'] e'] & Hl & Heq).
  injection Heq as <- <- <-. unfold wrapping_add in Hl. rewrite wrap64_small in Hl by (unfold is_u64, U64_MAX in *; lia).
  destruct (IH _ _ _ _ Hl) as (Hle & Hx & Hy & Hlast).
  assert (Hjoin : seqZ at_ (e' - at_) = seqZ at_ (ho_block o + 1 - at_) ++ seqZ (ho_block o + 1) (e' - (ho_block o + 1))).
  { replace (e' - at_) with ((ho_block o + 1 - at_) + (e' - (ho_block o + 1))) by lia. rewrite seqZ_app by lia. f_equal. f_equal. lia. }
  split_and!; [lia| | |].
  - by rewrite fmap_app, entries_numbers, Hx, Hjoin.
  - by rewrite fmap_app, entries_numbers, Hy, Hjoin.
  - intros o'. destruct objs as [|o2 objs]; [|by apply Hlast]. cbn. intros [= <-]. cbn in Hl. by injection Hl.
Qed.

Lemma entries_of_In {A : Type} (at_ : Z) (o : HistoryObject) (e : list A) :
  (ho_block o, e) ∈ entries_of at_ o e /\
  (forall n c, (n, c) ∈ entries_of at_ o e -> c <> [] -> n = ho_block o /\ c = e).
Proof.
  unfold entries_of. split; [apply elem_of_app; right; by apply list_elem_of_singleton|].
  intros n c [Hin|Hin]%elem_of_app Hc; [|apply list_elem_of_singleton in Hin; by injection Hin as -> ->].
  apply list_elem_of_fmap in Hin as (m & Hm & _). injection Hm as -> ->. done.
Qed.

(** The layout holds each object's changes, and no others. *)
Lemma lay_out_In (at_ e : Z) (objs : list HistoryObject) (x : list (Z * list AccountBeforeTx))
    (y : list (Z * list StorageBeforeTx)) :
  lay_out_history at_ objs = Ok (x, y, e) ->
  (forall o, o ∈ objs -> (ho_block o, accounts_before o) ∈ x /\ (ho_block o, slots_before o) ∈ y) /\
  (forall n c, (n, c) ∈ x -> c <> [] -> exists o, o ∈ objs /\ ho_block o = n /\ c = accounts_before o) /\
  (forall n c, (n, c) ∈ y -> c <> [] -> exists o, o ∈ objs /\ ho_block o = n /\ c = slots_before o).
Proof.
  revert at_ x y e. induction objs as [|o objs IH]; intros at_ x y e; cbn [lay_out_history].
  { intros [= <- <- <-]. split_and!; [by intros o Ho%not_elem_of_nil|by intros n c Hc%not_elem_of_nil..]. }
  destruct (ho_block o <? at_); [done|]. intros H. apply rbind_Ok in H as ([[x' y'] e'] & Hl & Heq).
  injection Heq as <- <- <-. destruct (IH _ _ _ _ Hl) as (IH1 & IH2 & IH3).
  destruct (entries_of_In at_ o (accounts_before o)) as [A1 A2].
  destruct (entries_of_In at_ o (slots_before o)) as [S1 S2]. setoid_rewrite elem_of_cons. setoid_rewrite elem_of_app.
  split_and!.
  - intros o' [->|Ho']; [by split; left|]. by destruct (IH1 _ Ho'); split; right.
  - intros n c [Hin|Hin] Hc; [destruct (A2 _ _ Hin Hc) as [-> ->]; by eauto|].
    destruct (IH2 _ _ Hin Hc) as (o' & ? & ? & ?). eauto.
  - intros n c [Hin|Hin] Hc; [destruct (S2 _ _ Hin Hc) as [-> ->]; by eauto|].
    destruct (IH3 _ _ Hin Hc) as (o' & ? & ? & ?). eauto.
Qed.

Lemma count_objects_last (at_ : Z) (stats : HistorySectionStats) (objs : list HistoryObject) (o : HistoryObject) :
  last objs = Some o -> hs_last_block (count_objects at_ stats objs) = ho_block o.
Proof.
  revert at_ stats. induction objs as [|o1 objs IH]; intros at_ stats Hl; [done|]. cbn [count_objects].
  destruct objs as [|o2 objs]; [by injection Hl as ->|by apply IH].
Qed.

Lemma count_objects_first (at_ : Z) (stats : HistorySectionStats) (objs : list HistoryObject) :
  hs_first_block (count_objects at_ stats objs) = hs_first_block stats.
Proof. revert at_ stats. induction objs as [|o objs IH]; intros at_ stats; [done|]. cbn [count_objects]. by rewrite IH. Qed.

(** ** Receipts *)

Definition receipts_of (b : PendingBlock) : list ArbReceiptEnvelope := default [] (pb_receipts b).

Lemma number_receipts_spec (n : Z) (bl : list PendingBlock) (recs : list (Z * ArbReceiptEnvelope)) :
  Forall block_checked bl -> number_receipts n bl = Ok recs ->
  recs.*1 = seqZ n (txs bl) /\ recs.*2 = concat (receipts_of <$> bl) /\
  Forall (fun b => length (receipts_of b) = tx_count b) bl.
Proof.
  intros Hch. revert n recs. induction Hch as [|b bl (_ & _ & Hr) _ IH]; intros n recs; cbn [number_receipts].
  { intros [= <-]. done. }
  assert (Hnn : 0 <= txs bl) by (clear; induction bl as [|b bl IH]; [done|cbn; fold (txs bl); lia]).
  cbn [txs foldr fmap list_fmap concat]. fold (txs bl). unfold receipts_of at 1.
  destruct (pb_receipts b) as [rs|] eqn:Hrs.
  - destruct (Hr rs eq_refl) as (Hlen & _). intros H. ok_inv. subst recs. destruct (IH _ _ E) as (H1 & H2 & H3).
    assert (Hz : length (seqZ n (Z.of_nat (length rs))) = length rs) by (rewrite length_seqZ; lia).
    split_and!.
    + rewrite fmap_app, fst_zip by lia. rewrite H1, Hlen, seqZ_app by lia. done.
    + rewrite fmap_app, snd_zip by lia. by rewrite H2.
    + constructor; [|done]. unfold receipts_of. by rewrite Hrs.
  - destruct (Nat.ltb_spec 0 (tx_count b)); [done|]. intros H'. destruct (IH _ _ H') as (H1 & H2 & H3).
    assert (Hz : tx_count b = O) by lia. split_and!; [by rewrite Hz|done|]. constructor; [|done].
    unfold receipts_of. by rewrite Hrs, Hz.
Qed.
(** ** The state tables *)

Record state_facts (rs : list SnapshotRecord) (st : StateLoop) : Prop := {
  sf_wanted : forall h a c, PutAccount h a ∈ sl_ops st -> ai_bytecode_hash a = Some c -> c ∈ sl_wanted st;
  sf_provided : forall c, c ∈ sl_provided st -> exists code, PutBytecode c code ∈ sl_ops st;
  sf_code : forall c code, PutBytecode c code ∈ sl_ops st -> Code c code ∈ rs;
  sf_slot : forall o h v, UpsertStorage o h v ∈ sl_ops st -> v <> 0 /\ exists a, PutAccount o a ∈ sl_ops st;
  sf_account : forall o, sl_account st = Some o -> exists a, PutAccount o a ∈ sl_ops st
}.

Lemma state_of_facts (rs : list SnapshotRecord) (st : StateLoop) : state_of rs = Ok st -> state_facts rs st.
Proof.
  clear RL. revert st. induction rs as [|r rs IH] using rev_ind; intros st; unfold state_of.
  { intros [= <-]. split; cbn; set_solver. }
  rewrite try_fold_snoc. intros H. apply rbind_Ok in H as (st0 & H0 & Hr). destruct (IH st0 H0) as [H1 H2 H3 H4 H5].
  destruct r as [| | | |h n b c|h v|h c]; cbn [state_record] in Hr; try done.
  - injection Hr as <-. split; cbn; destruct c as [c|]; set_solver.
  - apply rbind_Ok in Hr as (owner & Ho & Hr). apply ok_or_Ok in Ho. destruct (Z.eqb_spec v 0).
    + injection Hr as <-. split; try done. set_solver.
    + injection Hr as <-. destruct (H5 owner Ho) as [a Ha]. split; cbn; set_solver.
  - injection Hr as <-. split; cbn; set_solver.
Qed.

Lemma apply_ops_accounts (ops : list StateOp) (d : Datadir) (h : Z) (a : AccountInfo) :
  dd_hashed_accounts (fold_left apply_op ops d) !! h = Some a -> PutAccount h a ∈ ops \/ dd_hashed_accounts d !! h = Some a.
Proof.
  revert d. induction ops as [|op ops IH]; intros d; [by right|]. cbn [fold_left]. intros [Hin|Hd]%IH; [left; by right|].
  destruct op as [h' a'| |]; cbn in Hd; [|by right..]. destruct (decide (h' = h)) as [->|].
  - rewrite lookup_insert_eq in Hd. injection Hd as ->. left. left.
  - rewrite lookup_insert_ne in Hd by done. by right.
Qed.

Lemma apply_ops_account_some (ops : list StateOp) (d : Datadir) (h : Z) :
  (exists a, PutAccount h a ∈ ops) \/ is_Some (dd_hashed_accounts d !! h) -> is_Some (dd_hashed_accounts (fold_left apply_op ops d) !! h).
Proof.
  revert d. induction ops as [|op ops IH]; intros d H; [destruct H as [[a []%elem_of_nil]|]; done|]. cbn [fold_left]. apply IH.
  destruct H as [[a [<-|Ha]%elem_of_cons]|Hd]; [right; cbn; by rewrite lookup_insert_eq|left; by exists a|right].
  destruct op as [h' a'| |]; cbn; try done. destruct (decide (h' = h)) as [->|]; [by rewrite lookup_insert_eq|by rewrite lookup_insert_ne].
Qed.

Lemma apply_ops_code (ops : list StateOp) (d : Datadir) (c : Z) (code : bytes) :
  dd_bytecodes (fold_left apply_op ops d) !! c = Some code -> PutBytecode c code ∈ ops \/ dd_bytecodes d !! c = Some code.
Proof.
  revert d. induction ops as [|op ops IH]; intros d; [by right|]. cbn [fold_left]. intros [Hin|Hd]%IH; [left; by right|].
  destruct op as [| |c' code']; cbn in Hd; [by right..|]. destruct (decide (c' = c)) as [->|].
  - rewrite lookup_insert_eq in Hd. injection Hd as ->. left. left.
  - rewrite lookup_insert_ne in Hd by done. by right.
Qed.

Lemma apply_ops_code_some (ops : list StateOp) (d : Datadir) (c : Z) :
  (exists code, PutBytecode c code ∈ ops) \/ is_Some (dd_bytecodes d !! c) -> is_Some (dd_bytecodes (fold_left apply_op ops d) !! c).
Proof.
  revert d. induction ops as [|op ops IH]; intros d H; [destruct H as [[a []%elem_of_nil]|]; done|]. cbn [fold_left]. apply IH.
  destruct H as [[a [<-|Ha]%elem_of_cons]|Hd]; [right; cbn; by rewrite lookup_insert_eq|left; by exists a|right].
  destruct op as [| |c' code']; cbn; try done. destruct (decide (c' = c)) as [->|]; [by rewrite lookup_insert_eq|by rewrite lookup_insert_ne].
Qed.

Lemma apply_ops_slots (ops : list StateOp) (d : Datadir) (o h v : Z) :
  (o, h, v) ∈ dd_hashed_storages (fold_left apply_op ops d) -> UpsertStorage o h v ∈ ops \/ (o, h, v) ∈ dd_hashed_storages d.
Proof.
  revert d. induction ops as [|op ops IH]; intros d; [by right|]. cbn [fold_left]. intros [Hin|Hd]%IH; [left; by right|].
  destruct op as [|o' h' v'|]; cbn in Hd; [by right| |by right].
  apply elem_of_union in Hd as [[= -> -> ->]%elem_of_singleton|]; [left; left|by right].
Qed.

(** The other tables stay as they are. *)
Lemma apply_ops_frame (ops : list StateOp) (d : Datadir) :
  dd_headers (fold_left apply_op ops d) = dd_headers d /\ dd_bodies (fold_left apply_op ops d) = dd_bodies d /\
  dd_receipts (fold_left apply_op ops d) = dd_receipts d /\
  dd_changeset_start (fold_left apply_op ops d) = dd_changeset_start d /\
  dd_account_changesets (fold_left apply_op ops d) = dd_account_changesets d /\
  dd_storage_changesets (fold_left apply_op ops d) = dd_storage_changesets d /\
  dd_pruned_to (fold_left apply_op ops d) = dd_pruned_to d.
Proof. revert d. induction ops as [|op ops IH]; intros d; [done|]. cbn [fold_left]. by destruct (IH (apply_op d op)) as (-> & -> & -> & -> & -> & -> & ->). Qed.

(** The accounts' code is there, and slots are not zero and have an account. *)
Lemma state_tables_ok (rs : list SnapshotRecord) (st : StateLoop) (d0 : Datadir) :
  state_of rs = Ok st -> sl_wanted st ⊆ sl_provided st ->
  dd_hashed_accounts d0 = ∅ -> dd_hashed_storages d0 = ∅ -> dd_bytecodes d0 = ∅ ->
  (forall c code, Code c code ∈ rs -> keccak256 code = c) ->
  let d := fold_left apply_op (sl_ops st) d0 in
  (forall h a c, dd_hashed_accounts d !! h = Some a -> ai_bytecode_hash a = Some c ->
     exists code, dd_bytecodes d !! c = Some code /\ keccak256 code = c) /\
  (forall o h v, (o, h, v) ∈ dd_hashed_storages d -> v <> 0 /\ is_Some (dd_hashed_accounts d !! o)).
Proof.
  intros Hst Hsub Ea Es Eb Hkeccak d. pose proof (state_of_facts _ _ Hst) as Hsf. split.
  - intros h a c Hacc Hc. apply apply_ops_accounts in Hacc as [Hin|Hacc]; [|by rewrite Ea, lookup_empty in Hacc].
    assert (Hprov : c ∈ sl_provided st) by (apply Hsub; by eapply (sf_wanted _ _ Hsf)).
    destruct (sf_provided _ _ Hsf c Hprov) as [code0 Hcode0].
    destruct (apply_ops_code_some (sl_ops st) d0 c) as [code Hcode]; [left; by exists code0|]. exists code. split; [done|].
    apply apply_ops_code in Hcode as [Hin'|Hcode]; [|by rewrite Eb, lookup_empty in Hcode].
    by apply Hkeccak, (sf_code _ _ Hsf).
  - intros o h v Hin. apply apply_ops_slots in Hin as [Hin|Hin]; [|by rewrite Es in Hin; apply not_elem_of_empty in Hin].
    destruct (sf_slot _ _ Hsf _ _ _ Hin) as [Hv0 Hacc]. split; [done|]. apply apply_ops_account_some. by left.
Qed.

(** What the records of a state section say, each account with its code hash, each non-zero slot under
    the account before it, each blob of code under its hash. *)
Definition accounts_of (rs : list SnapshotRecord) : gmap Z AccountInfo :=
  fold_left (fun m r => match r with
    | Account h nonce balance code =>
        <[h := {| ai_nonce := nonce; ai_balance := balance; ai_bytecode_hash := code |}]> m
    | _ => m
    end) rs ∅.

Definition slots_of (rs : list SnapshotRecord) : gset (Z * Z * Z) :=
  snd (fold_left (fun '(owner, slots) r => match r with
    | Account h _ _ _ => (Some h, slots)
    | Storage slot value =>
        (owner, match owner with
                | Some o => if value =? 0 then slots else {[(o, slot, value)]} ∪ slots
                | None => slots
                end)
    | _ => (owner, slots)
    end) rs (@None Z, ∅)).

Definition codes_of (rs : list SnapshotRecord) : gmap Z bytes :=
  fold_left (fun m r => match r with Code h code => <[h := code]> m | _ => m end) rs ∅.

(** Records of the other sections say nothing of the state. *)
Lemma state_tables_skip (rs rest : list SnapshotRecord) :
  Forall (fun r => match r with Account _ _ _ _ | Storage _ _ | Code _ _ => False | _ => True end) rs ->
  accounts_of (rs ++ rest) = accounts_of rest /\ slots_of (rs ++ rest) = slots_of rest /\
  codes_of (rs ++ rest) = codes_of rest.
Proof.
  intros H. unfold accounts_of, slots_of, codes_of. rewrite !fold_left_app.
  induction H as [|r rs Hr _ (IH1 & IH2 & IH3)]; [done|]. by destruct r.
Qed.

(** The tables hold exactly what the records say. *)
Lemma state_of_tables (rs : list SnapshotRecord) (st : StateLoop) (d0 : Datadir) :
  state_of rs = Ok st -> dd_hashed_accounts d0 = ∅ -> dd_hashed_storages d0 = ∅ -> dd_bytecodes d0 = ∅ ->
  let d := fold_left apply_op (sl_ops st) d0 in
  dd_hashed_accounts d = accounts_of rs /\ dd_hashed_storages d = slots_of rs /\ dd_bytecodes d = codes_of rs /\
  sl_account st = fst (fold_left (fun '(owner, slots) r => match r with
    | Account h _ _ _ => (Some h, slots)
    | Storage slot value =>
        (owner, match owner with
                | Some o => if value =? 0 then slots else {[(o, slot, value)]} ∪ slots
                | None => slots
                end)
    | _ => (owner, slots)
    end) rs (@None Z, (∅ : gset (Z * Z * Z)))).
Proof.
  clear RL. intros H Ha Hs Hb. revert st H. induction rs as [|r rs IH] using rev_ind; intros st; unfold state_of.
  { intros [= <-]. done. }
  rewrite try_fold_snoc. intros H. apply rbind_Ok in H as (st0 & H0 & Hr).
  destruct (IH st0 H0) as (E1 & E2 & E3 & E4). clear IH.
  unfold accounts_of, slots_of, codes_of in *. rewrite !fold_left_app.
  destruct (fold_left _ rs (None, ∅)) as [owner slots] eqn:Ef. cbn [fst snd] in *.
  destruct r as [| | | |h n b c|h v|h c]; cbn [state_record] in Hr; try done.
  - injection Hr as <-. cbn [sl_ops sl_account fold_left fst snd]. rewrite fold_left_app.
    cbn [fold_left apply_op dd_hashed_accounts dd_hashed_storages dd_bytecodes]. by rewrite E1.
  - apply rbind_Ok in Hr as (o & Ho%ok_or_Ok & Hr). rewrite Ho in E4. subst owner.
    destruct (v =? 0) eqn:Ev; injection Hr as <-; cbn [sl_ops sl_account fold_left fst snd]; rewrite Ev; [done|].
    rewrite fold_left_app. cbn [fold_left apply_op dd_hashed_accounts dd_hashed_storages dd_bytecodes]. by rewrite E2.
  - injection Hr as <-. cbn [sl_ops sl_account fold_left fst snd]. rewrite fold_left_app.
    cbn [fold_left apply_op dd_hashed_accounts dd_hashed_storages dd_bytecodes]. by rewrite E3.
Qed.

Lemma apply_ops_resume (ops : list StateOp) (d : Datadir) : dd_resume (fold_left apply_op ops d) = dd_resume d.
Proof. revert d. induction ops as [|op ops IH]; intros d; [done|]. cbn. by rewrite IH. Qed.

(** ** What the stream guarantees *)

Lemma read_record_history (s s' : SnapshotStream) (tag : u8) (o : HistoryObject) :
  read_record s tag = Ok (History o, s') -> 0 <= ho_block o.
Proof.
  intros H. unfold read_record in H.
  repeat match type of H with
  | context [if byte_eqb ?a ?b && byte_eqb ?c ?d then _ else _] => destruct (byte_eqb a b && byte_eqb c d)
  end; try discriminate H; ok_inv; simplify_eq; [|if_inv H; by simplify_eq].
  unfold read_history in E. ok_inv. simplify_eq. by eapply (read_uvarint_nonneg 0 0).
Qed.

Lemma pulls_history (s s' : SnapshotStream) (rs : list SnapshotRecord) :
  between s -> pulls s rs s' -> Forall (fun r => match r with History o => 0 <= ho_block o | _ => True end) rs.
Proof.
  intros Hb Hp. induction Hp as [|s r s1 rs s2 Hn _ IH]; [done|]. constructor; [|eauto using next_record_between].
  unfold next_record in Hn. destruct Hb as (Hh & _). rewrite Hh in Hn. destruct (finished s); [done|].
  apply next_loop_some in Hn as (sec & r' & tag & _ & Hr). destruct r; try done. by eapply read_record_history.
Qed.

Lemma valid_from_In (top : Z) (lb lh : option (Z * Z)) (rs : list SnapshotRecord) (r : SnapshotRecord) :
  valid_from top lb lh rs -> r ∈ rs -> exists lb' lh', valid_record top lb' lh' r.
Proof.
  revert lb lh. induction rs as [|r0 rs IH]; intros lb lh; [by intros _ []%elem_of_nil|].
  intros [Hv Hvs] [->|Hin]%elem_of_cons; [by exists lb, lh|]. by eapply IH.
Qed.

Lemma drains_valid (s : SnapshotStream) (rs : list SnapshotRecord) :
  between s -> drains s rs ->
  valid_from (m_block (manifest s)) (last_block s) (last_history s) rs /\
  Forall (fun r => match r with History o => 0 <= ho_block o | _ => True end) rs.
Proof.
  intros Hb (s1 & s2 & Hp & _). split; [|by eapply pulls_history]. destruct Hb as (Hh & Hb & Hm).
  pose proof (pulls_read_records _ _ _ Hp) as Hr. by apply read_records_valid in Hr as (Hv & _).
Qed.
(** ** A consistent datadir *)

Context (trie_root : gmap Z AccountInfo -> gset (Z * Z * Z) -> result string Z).

(** A datadir converted from the records [rs] at the manifest's block, with blocks from [first] and
    history from [s_lo]. *)
Record consistent (m : Manifest) (rs : list SnapshotRecord) (first s_lo : Z) (d : Datadir) : Prop := {
  (** The headers are the stream's. *)
  cs_records : ((fun '(n, hash, _) => (n, hash)) <$> dd_headers d) = omap header_of rs;
  (** The bodies and receipts are those of the stream's records, each with the root its header
      names; receipts are numbered as the transactions are. *)
  cs_blocks : exists bl, describes (List.filter is_block_record rs) bl /\ Forall block_checked bl /\
    Forall (fun b => length (receipts_of b) = tx_count b) bl /\
    dd_headers d = ((fun b => (pb_number b, pb_hash b, pb_header b)) <$> bl) /\
    dd_bodies d = ((fun b => (pb_number b, pb_body b)) <$> bl) /\
    (dd_receipts d).*1 = seqZ 0 (txs bl) /\ (dd_receipts d).*2 = concat (receipts_of <$> bl);
  (** Headers without a gap up to the convert point. *)
  cs_headers : ((fun '(n, _, _) => n) <$> dd_headers d) = seqZ first (m_block m - first + 1);
  (** A changeset for every block from [s_lo] to the convert point, and below it no history. *)
  cs_order : first <= s_lo <= m_block m;
  cs_start : dd_changeset_start d = Some s_lo;
  cs_accounts : (dd_account_changesets d).*1 = seqZ s_lo (m_block m - s_lo + 1);
  cs_slots : (dd_storage_changesets d).*1 = seqZ s_lo (m_block m - s_lo + 1);
  cs_pruned : dd_pruned_to d = write_history_boundary s_lo;
  (** The changesets are those of the stream's history objects, and empty in between. *)
  cs_history : forall o, History o ∈ rs ->
    (ho_block o, accounts_before o) ∈ dd_account_changesets d /\ (ho_block o, slots_before o) ∈ dd_storage_changesets d;
  cs_changes : (forall n changes, (n, changes) ∈ dd_account_changesets d -> changes <> [] ->
      exists o, History o ∈ rs /\ ho_block o = n /\ changes = accounts_before o) /\
    (forall n changes, (n, changes) ∈ dd_storage_changesets d -> changes <> [] ->
      exists o, History o ∈ rs /\ ho_block o = n /\ changes = slots_before o);
  (** The state is that of the records. *)
  cs_state : dd_hashed_accounts d = accounts_of rs /\ dd_hashed_storages d = slots_of rs /\ dd_bytecodes d = codes_of rs;
  (** Code that an account names is there and hashes to its key; no zero slot, none without an account. *)
  cs_code : forall h a c, dd_hashed_accounts d !! h = Some a -> ai_bytecode_hash a = Some c ->
    exists code, dd_bytecodes d !! c = Some code /\ keccak256 code = c;
  cs_storage : forall o h v, (o, h, v) ∈ dd_hashed_storages d -> v <> 0 /\ is_Some (dd_hashed_accounts d !! o);
  (** The trie over the tables has the root of the convert point. *)
  cs_root : dir_root trie_root d = Ok (m_root m);
  cs_checkpoints : dd_checkpoints d = Some (m_block m);
  (** A resume log that can be read holds the manifest's point, at or below the convert point. *)
  cs_resume : forall r, dd_resume d = Written r -> m_resume m = Some r /\ rp_l2_block r <= m_block m;
  (** The manifest names the stored header of the convert point. *)
  cs_complete : exists header, sealed_header d (m_block m) = Some (m_hash m, header) /\
    dd_complete d = Some {| im_block_number := m_block m; im_block_hash := m_hash m; im_state_root := bh_state_root header |}
}.

(** What is not synced is in place too: the changeset files carry the names of their headers, and the
    resume log is there when the manifest has a point. *)
Definition in_place (m : Manifest) (d : Datadir) : Prop :=
  dd_renamed d = true /\ dd_resume d = match m_resume m with Some r => Written r | None => NoFile end.

(** A power loss leaves a consistent datadir consistent. *)
Lemma power_loss_consistent (m : Manifest) (rs : list SnapshotRecord) (first s_lo : Z) (d d' : Datadir) :
  power_loss d d' -> consistent m rs first s_lo d -> consistent m rs first s_lo d'.
Proof.
  intros (renamed & resume & _ & Hres & ->) []. split; try done.
  intros r Hr. cbn in Hr. subst resume. destruct Hres as [E|[_ [?|?]]]; [|done|done]. by apply cs_resume0.
Qed.

Lemma open_between (input : bytes) (s : SnapshotStream) :
  open input = Ok s -> m_block (manifest s) < U64_MAX -> between s /\ last_block s = None /\ last_history s = None.
Proof.
  unfold open. intros H Hm. apply rbind_Ok in H as ([magic r] & _ & H). destruct (negb _); [done|].
  apply rbind_Ok in H as ([tag r1] & _ & H). destruct (negb _); [done|].
  apply rbind_Ok in H as ([block r2] & _ & H). apply rbind_Ok in H as ([root r3] & _ & H).
  apply rbind_Ok in H as ([sid r4] & _ & H). apply rbind_Ok in H as ([hash r5] & _ & H).
  apply rbind_Ok in H as ([present r6] & _ & H). apply rbind_Ok in H as ([resume r7] & _ & H).
  injection H as <-. by split_and!.
Qed.
(** The sections' records and the tables they leave. *)
Definition sections_ok (s : SnapshotStream) (rs : list SnapshotRecord) (m : Manifest) (bl : list PendingBlock) (o : HistoryObject)
    (objs : list HistoryObject) (st : StateLoop) (d : Datadir) : Prop :=
  exists brs srs receipts x y e, rs = brs ++ (History <$> o :: objs) ++ srs /\ drains s rs /\
    assemble brs = Ok bl /\ number_receipts 0 bl = Ok receipts /\ bl <> [] /\
    bs_last_block (fold_left count_block bl block_stats_default) = m_block m /\
    lay_out_history (ho_block o) (o :: objs) = Ok (x, y, e) /\
    hs_last_block (count_objects (ho_block o) (set_first_block (ho_block o) history_stats_default) (o :: objs)) = m_block m /\
    bs_first_block (fold_left count_block bl block_stats_default) <= ho_block o /\
    state_of srs = Ok st /\ sl_wanted st ⊆ sl_provided st /\
    d = fold_left apply_op (sl_ops st) (append_history (Some (ho_block o)) x y (append_blocks bl receipts empty_datadir)).

Lemma bl_last (bl : list PendingBlock) (n : Z) :
  bl <> [] -> bs_last_block (fold_left count_block bl block_stats_default) = n -> last (pb_number <$> bl) = Some n.
Proof.
  destruct bl as [|b bl _] using rev_ind; [done|]. rewrite count_blocks_last, fmap_app.
  change (pb_number <$> [b]) with [pb_number b]. rewrite last_snoc. by intros _ ->.
Qed.

Lemma bl_first (bl : list PendingBlock) (b : PendingBlock) :
  head bl = Some b -> bs_first_block (fold_left count_block bl block_stats_default) = pb_number b.
Proof. destruct bl as [|b' bl]; [done|]. intros [= ->]. cbn [fold_left]. by rewrite count_blocks_first. Qed.

(** Headers without a gap, from the records' headers. *)
Lemma assembled_numbers (top : Z) (lh : option (Z * Z)) (brs rest : list SnapshotRecord) (bl : list PendingBlock) (m_top : Z) :
  valid_from top None lh (brs ++ rest) -> assemble brs = Ok bl -> bl <> [] ->
  bs_last_block (fold_left count_block bl block_stats_default) = m_top ->
  let first := bs_first_block (fold_left count_block bl block_stats_default) in
  (pb_number <$> bl) = seqZ first (m_top - first + 1).
Proof.
  intros Hv Ha Hne Hlast first.
  assert (Hvb : valid_from top None lh brs).
  { clear -Hv. revert Hv. generalize (@None (Z * Z)) as lb. revert lh.
    induction brs as [|r brs IH]; intros lh lb; [done|]. cbn. intros [H1 H2]. split; [done|]. by apply IH. }
  apply header_numbers in Hvb as [f Hf]. destruct (assemble_checked _ _ Ha) as (_ & Hnum & _). rewrite <- Hnum in Hf.
  rewrite length_fmap, <- list_fmap_compose in Hf. change (pb_number <$> bl = seqZ f (Z.of_nat (length bl))) in Hf.
  rewrite <- (length_fmap pb_number bl) in Hf.
  destruct (numbers_span _ _ Hf) as [Hh Hl]; [by destruct bl|]. pose proof (bl_last bl m_top Hne Hlast) as Hl'.
  rewrite Hl in Hl'. injection Hl' as Hl'. destruct bl as [|b bl]; [done|]. injection Hh as Hh.
  subst first. rewrite (bl_first (b :: bl) b eq_refl), Hh. rewrite Hf at 1. f_equal. lia.
Qed.

Lemma fmap_numbers (bl : list PendingBlock) :
  (fun '(n, _, _) => n) <$> ((fun b => (pb_number b, pb_hash b, pb_header b)) <$> bl) = pb_number <$> bl.
Proof. by rewrite <- list_fmap_compose. Qed.

Lemma fmap_hashes (bl : list PendingBlock) :
  (fun '(n, hash, _) => (n, hash)) <$> ((fun b => (pb_number b, pb_hash b, pb_header b)) <$> bl)
    = (fun b => (pb_number b, pb_hash b)) <$> bl.
Proof. by rewrite <- list_fmap_compose. Qed.

Lemma history_valid (s : SnapshotStream) (m : Manifest) (brs srs : list SnapshotRecord) (objs : list HistoryObject) :
  between s -> drains s (brs ++ (History <$> objs) ++ srs) ->
  Forall (fun o => 0 <= ho_block o < U64_MAX) objs.
Proof.
  intros Hb Hd. destruct (drains_valid _ _ Hb Hd) as [Hv Hnn]. apply List.Forall_forall. intros o Ho.
  assert (Hin : History o ∈ brs ++ (History <$> objs) ++ srs).
  { apply elem_of_app. right. apply elem_of_app. left. apply list_elem_of_fmap. exists o. split; [done|]. by apply list_elem_of_In. }
  destruct (valid_from_In _ _ _ _ _ Hv Hin) as (lb & lh & Htop & _).
  rewrite List.Forall_forall in Hnn. specialize (Hnn (History o) ltac:(by apply list_elem_of_In)). cbn in Hnn.
  destruct Hb as (_ & _ & Hm). lia.
Qed.

(** Each kind of record is in its own section. *)
Lemma section_records (brs srs : list SnapshotRecord) (objs : list HistoryObject) (bl : list PendingBlock) (st : StateLoop) :
  assemble brs = Ok bl -> state_of srs = Ok st ->
  omap header_of (brs ++ (History <$> objs) ++ srs) = omap header_of brs /\
  (forall o, History o ∈ brs ++ (History <$> objs) ++ srs <-> o ∈ objs) /\
  List.filter is_block_record (brs ++ (History <$> objs) ++ srs) = brs /\
  accounts_of (brs ++ (History <$> objs) ++ srs) = accounts_of srs /\
  slots_of (brs ++ (History <$> objs) ++ srs) = slots_of srs /\
  codes_of (brs ++ (History <$> objs) ++ srs) = codes_of srs.
Proof.
  intros Ha Hst. destruct (assemble_checked _ _ Ha) as (_ & _ & Hb). pose proof (state_of_records _ _ Hst) as Hs.
  split; [|split; [|split]].
  - rewrite !omap_app. replace (omap header_of (History <$> objs)) with (@nil (Z * Z)) by (by induction objs).
    replace (omap header_of srs) with (@nil (Z * Z)) by (clear -Hs; induction Hs as [|[] ? ? ? IH]; cbn; done).
    by rewrite !app_nil_r.
  - intros o. rewrite !elem_of_app, list_elem_of_fmap. split.
    + intros [Hin|[(o' & [= ->] & Ho')|Hin]]; [|done|]; exfalso; rewrite List.Forall_forall in Hb, Hs;
        [apply (Hb (History o))|apply (Hs (History o))]; by apply list_elem_of_In.
    + intros Ho. right. left. by exists o.
  - rewrite !List.filter_app.
    replace (List.filter is_block_record brs) with brs by (clear -Hb; induction Hb as [|[] ? ? ? IH]; cbn; congruence || done).
    replace (List.filter is_block_record (History <$> objs)) with (@nil SnapshotRecord) by (by induction objs).
    replace (List.filter is_block_record srs) with (@nil SnapshotRecord) by (clear -Hs; induction Hs as [|[] ? ? ? IH]; cbn; done).
    by rewrite !app_nil_r.
  - rewrite app_assoc. apply state_tables_skip, List.Forall_app. split.
    + clear -Hb. induction Hb as [|[] ? ? ? IH]; constructor; done.
    + clear. induction objs; constructor; done.
Qed.

(** What finishing leaves of the tables. *)
Lemma finished_frame (m : Manifest) (history_from : Z) (header : BlockHeader) (d : Datadir) :
  let f := set_complete {| im_block_number := m_block m; im_block_hash := m_hash m; im_state_root := bh_state_root header |}
             (match m_resume m with Some resume => set_resume (Written resume) | None => id end
                (set_checkpoints (m_block m) (write_history_boundary history_from) (set_renamed d))) in
  dd_headers f = dd_headers d /\ dd_bodies f = dd_bodies d /\ dd_receipts f = dd_receipts d /\
  dd_changeset_start f = dd_changeset_start d /\ dd_account_changesets f = dd_account_changesets d /\
  dd_storage_changesets f = dd_storage_changesets d /\
  dd_pruned_to f = match write_history_boundary history_from with Some p => Some p | None => dd_pruned_to d end /\
  dd_hashed_accounts f = dd_hashed_accounts d /\ dd_hashed_storages f = dd_hashed_storages d /\
  dd_bytecodes f = dd_bytecodes d.
Proof. by destruct (m_resume m). Qed.

(** The sections and a finished manifest make a consistent datadir. *)
Lemma sections_consistent (s : SnapshotStream) (rs : list SnapshotRecord) (bl : list PendingBlock) (o : HistoryObject) (objs : list HistoryObject)
    (st : StateLoop) (d d' : Datadir) :
  let m := manifest s in
  between s -> last_block s = None -> sections_ok s rs m bl o objs st d -> dir_root trie_root d = Ok (m_root m) ->
  finished_at m (ho_block o) (set_renamed d) d' ->
  consistent m rs (bs_first_block (fold_left count_block bl block_stats_default)) (ho_block o) d' /\ in_place m d'.
Proof.
  intros m Hb Hlb (brs & srs & recs & x & y & e & -> & Hdr & Ha & Hrec & Hne & Hlast & Hlay & Hhl & Hfirst & Hst & Hsub & ->) Hroot
    (header & Hsealed & Hnum & Hhash & -> & Hbelow).
  destruct (drains_valid _ _ Hb Hdr) as [Hv _]. rewrite Hlb in Hv.
  pose proof (history_valid s m _ _ _ Hb Hdr) as Hobj.
  destruct (assemble_checked _ _ Ha) as (Hch & Hhd & _).
  destruct (section_records _ _ (o :: objs) _ _ Ha Hst) as (Hhead & Hobjs & Hfilter & Hskip). destruct (lay_out_In _ _ _ _ _ Hlay) as (Hin1 & Hin2 & Hin3).
  destruct (number_receipts_spec _ _ _ Hch Hrec) as (Hr1 & Hr2 & Hr3).
  destruct (lay_out_numbers _ _ _ _ _ Hobj Hlay) as (_ & Hx & Hy & He).
  destruct (last (o :: objs)) as [ol|] eqn:Hol; [|by destruct objs using rev_ind; rewrite ?app_comm_cons, ?last_snoc in Hol].
  rewrite (count_objects_last _ _ _ _ Hol) in Hhl. specialize (He ol eq_refl).
  pose proof (assembled_numbers _ _ _ _ _ _ Hv Ha Hne Hlast) as Hn. cbn in Hn.
  set (d1 := append_history (Some (ho_block o)) x y (append_blocks bl recs empty_datadir)) in *.
  destruct (apply_ops_frame (sl_ops st) d1) as (Fh & Fb & Fr & Fs & Fa & Fst & Fp).
  assert (Hlo : ho_block o <= m_block m).
  { destruct (valid_from_In _ _ _ _ (History o) Hv) as (lb & lh & Htop & _); [|exact Htop].
    apply elem_of_app. right. apply elem_of_app. left. left. }
  destruct (state_tables_ok srs st d1 Hst Hsub eq_refl eq_refl eq_refl) as [Hcode Hslot].
  { intros c code Hin. destruct (valid_from_In _ _ _ _ (Code c code) Hv) as (lb & lh & Hk); [|exact Hk].
    apply elem_of_app. right. apply elem_of_app. by right. }
  set (d2 := fold_left apply_op (sl_ops st) d1) in *.
  destruct (finished_frame m (ho_block o) header d2) as (S1 & S2 & S3 & S4 & S5 & S6 & S7 & S8 & S9 & S10).
  assert (Hres : dd_resume d2 = NoFile) by (unfold d2; by rewrite apply_ops_resume).
  split; [|split; [by destruct (m_resume m)|destruct (m_resume m); [done|exact Hres]]].
  split; rewrite ?S1, ?S2, ?S3, ?S4, ?S5, ?S6, ?S8, ?S9, ?S10; try done.
  - rewrite Fh, Hhead, <- Hhd. apply fmap_hashes.
  - exists bl. rewrite Fh, Fb, Fr, Hfilter. split; [by apply assemble_describes|]. by split_and!.
  - rewrite Fh. etrans; [apply fmap_numbers|exact Hn].
  - rewrite Fa. etrans; [exact Hx|]. f_equal. lia.
  - rewrite Fst. etrans; [exact Hy|]. f_equal. lia.
  - rewrite S7, Fp. unfold write_history_boundary. by destruct (1 <=? ho_block o).
  - intros o' Ho'%Hobjs. rewrite Fa, Fst. by apply Hin1.
  - rewrite Fa, Fst. split; intros n c Hc Hc'; [destruct (Hin2 n c Hc Hc') as (o' & ? & ? & ?)|
      destruct (Hin3 n c Hc Hc') as (o' & ? & ? & ?)]; exists o'; (split; [by apply Hobjs|done]).
  - destruct Hskip as (-> & -> & ->). split_and!; by apply (state_of_tables srs st d1 Hst).
  - unfold dir_root in *. by rewrite S8, S9.
  - by destruct (m_resume m).
  - intros r. destruct (m_resume m) as [r'|] eqn:Er; cbn; [|by rewrite Hres].
    intros [= <-]. split; [done|]. by apply Hbelow.
  - exists header. split; [|done]. unfold sealed_header in *. by rewrite S1.
Qed.

(** ** The whole command *)

Lemma compute_state_root_spec (chunks : nat) (root : Datadir -> result string Z) (w : Work) :
  incomplete w ->
  wp (compute_state_root_chunked chunks root) (fun r w' => w_dir w' = w_dir w /\ root (w_dir w) = Ok r) incomplete w.
Proof.
  intros Hi. unfold compute_state_root_chunked.
  apply wp_bind, wp_iter_commit; [done|intros w' Hw'; unfold incomplete; by rewrite Hw'|].
  intros w1 Hw1. assert (Hi1 : incomplete w1) by (unfold incomplete; by rewrite Hw1).
  apply wp_bind, wp_dir, wp_bind, wp_lift; [done|]. intros r Hr. rewrite Hw1 in Hr.
  apply wp_bind, wp_commit; [done|]. intros w2 Hw2. cbn in Hw2. rewrite Hw1 in Hw2.
  split; [unfold incomplete; by rewrite Hw2|]. by apply wp_ret.
Qed.

(** The stream that the command read was read to its end, and the datadir is consistent with it. *)
Definition imported (env : ImportEnv) (d : Datadir) : Prop :=
  exists input s rs first s_lo, ie_stream env = Ok input /\ open input = Ok s /\ drains s rs /\
    consistent (manifest s) rs first s_lo d.

(** As the command leaves it: with everything in place. *)
Definition imported_in_place (env : ImportEnv) (d : Datadir) : Prop :=
  imported env d /\ forall input s, ie_stream env = Ok input -> open input = Ok s -> in_place (manifest s) d.

Lemma import_full_spec (env : ImportEnv) (w : Work) :
  w_dir w = empty_datadir ->
  (forall input s, ie_stream env = Ok input -> open input = Ok s -> m_block (manifest s) < U64_MAX) ->
  wp (import_full trie_root env) (fun _ w' => imported_in_place env (w_dir w'))
    (fun w' => incomplete w' \/ imported_in_place env (w_dir w')) w.
Proof.
  intros Hw Hmax. assert (Hi : incomplete w) by (unfold incomplete; by rewrite Hw). unfold import_full.
  apply wp_bind, wp_lift; [by left|]. intros _ _. apply wp_bind, wp_lift; [by left|]. intros input Hin.
  apply wp_bind, wp_lift; [by left|]. intros s Hopen. apply map_err_Ok in Hopen. pose proof (Hmax _ _ Hin Hopen) as Hm.
  destruct (open_between _ _ Hopen Hm) as (Hb & Hlb & _). apply wp_bind, wp_lift; [by left|]. intros _ _.
  apply wp_bind. eapply wp_mono; [by apply write_blocks_spec| |by left].
  intros [s1 stats] w1 (brs & bl & recs & Hs1 & Ha & Hrec & Hd1 & -> & Hne & Hlast).
  apply wp_bind. eapply wp_mono; [apply (write_history_spec (append_blocks bl recs empty_datadir)); [done|exact Hd1]| |by left].
  intros [s2 hstats] w2 (o & objs & x & y & e & Hs2 & Hlay & Hd2 & -> & Hhl).
  assert (Hi2 : incomplete w2) by (unfold incomplete; by rewrite Hd2).
  rewrite count_objects_first. cbn [set_first_block hs_first_block].
  destruct (Z.ltb_spec (ho_block o) (bs_first_block (fold_left count_block bl block_stats_default))) as [|Hfirst];
    [apply wp_raise; by left|].
  apply wp_bind. eapply wp_mono; [eapply write_state_spec; [|exact Hd2]; done| |by left].
  intros _s w3 (srs & st & Hdr & Hst & Hd3 & _ & Hsub). clear _s.
  assert (Hi3 : incomplete w3) by (unfold incomplete; by rewrite Hd3, apply_ops_complete).
  apply wp_bind. eapply wp_mono; [by apply compute_state_root_spec| |by left]. intros root w4 [Hd4 Hroot].
  assert (Hi4 : incomplete w4) by (unfold incomplete; by rewrite Hd4).
  destruct (Z.eqb_spec root (m_root (manifest s))) as [->|]; cbn [negb]; [|apply wp_raise; by left].
  apply wp_bind, wp_commit; [by left|]. intros w5 Hd5. rewrite Hd4 in Hd5.
  assert (Hi5 : incomplete w5) by (unfold incomplete; by rewrite Hd5). split; [by left|].
  assert (Hsec : sections_ok s (brs ++ (History <$> o :: objs) ++ srs) (manifest s) bl o objs st (w_dir w3)).
  { exists brs, srs, recs, x, y, e. split; [done|]. split_and!; try done. rewrite app_assoc.
    eapply stops_drains; [done| |exact Hdr]. by eapply stops_stops. }
  pose proof Hsec as (_ & _ & _ & _ & _ & _ & _ & Hdrains & _).
  assert (Hfin : forall d', finished_at (manifest s) (ho_block o) (set_renamed (w_dir w3)) d' -> imported_in_place env d').
  { intros d' Hf. destruct (sections_consistent _ _ _ _ _ _ _ d' Hb Hlb Hsec Hroot Hf) as [Hc Hp]. split.
    - exists input, s. do 3 eexists. by split_and!.
    - intros input' s' Hin' Ho'. rewrite Hin in Hin'. injection Hin' as <-. rewrite Hopen in Ho'. by injection Ho' as <-. }
  eapply wp_mono; [apply finalize_spec; [exact Hd5|exact Hi3]|..]; cbn; [by auto|].
  intros w6 [Hn|Hf]; [by left|right; by auto].
Qed.

(** C13. A datadir that says it is complete is whole, for a stream whose convert point is below the last
    [u64]. Whatever commits fail and wherever the command is
    stopped, a fresh datadir carries the completion manifest after [import_full] only when it holds
    the whole stream: gapless headers up to the convert point, for each the body and the receipts that
    its records encode, with the roots the header names and receipts numbered as the transactions
    are, exactly the history's changes with an entry for every block, exactly the accounts, slots
    and code of the state records, with the manifest's state root, the checkpoints, and what is not
    synced (the names of the changeset files, the resume log) in place. If the power is then lost, or
    at any point of the run, a datadir with the manifest still holds all of that but for the unsynced:
    names may be old, and the resume log may be gone or empty but not wrong. A run that returns leaves
    a complete datadir. *)
Theorem import_full_consistent (env : ImportEnv) (faults : list (Fault string)) (n n' : nat) (result : Result string unit)
    (w : Work) :
  (forall input s, ie_stream env = Ok input -> open input = Ok s -> m_block (manifest s) < U64_MAX) ->
  import_full trie_root env ({| w_dir := empty_datadir; w_faults := faults |}, n) = (result, (w, n')) ->
  (is_Some (dd_complete (w_dir w)) -> imported_in_place env (w_dir w)) /\
  (forall d', power_loss (w_dir w) d' -> is_Some (dd_complete d') -> imported env d') /\
  (result = Ret tt -> is_Some (dd_complete (w_dir w))).
Proof.
  intros Hm Hrun. pose proof (import_full_spec env {| w_dir := empty_datadir; w_faults := faults |} eq_refl Hm n) as Hs.
  rewrite Hrun in Hs.
  assert (Hc : imported env (w_dir w) -> is_Some (dd_complete (w_dir w))).
  { intros (input & s & rs & first & s_lo & _ & _ & _ & Hcs). apply cs_complete in Hcs as (header & _ & ->). by eexists. }
  assert (Hi : is_Some (dd_complete (w_dir w)) -> imported_in_place env (w_dir w)).
  { intros [x Hx]. unfold incomplete in Hs. destruct result as [[]|e|]; [done|..]; (destruct Hs as [Hi|Hi]; [by rewrite Hi in Hx|done]). }
  split; [done|]. split.
  - intros d' Hl Hd'. assert (E : dd_complete d' = dd_complete (w_dir w)) by (by destruct Hl as (? & ? & _ & _ & ->)).
    rewrite E in Hd'. destruct (Hi Hd') as [(input & s & rs & first & s_lo & H1 & H2 & H3 & H4) _].
    exists input, s, rs, first, s_lo. split_and!; try done. by eapply power_loss_consistent.
  - intros ->. apply Hc, Hs.
Qed.
End Safety.

(** ** A small snapshot *)

Module Sample.
#[local] Existing Instance Reference.keccak.
#[local] Existing Instance StoredReceipt.FixedWidth.codec.

Definition field (rlp : bytes) (i : nat) : Z :=
  match header_field rlp i with
  | Ok v => be_decode v
  | Err _ => -1
  end.

(** Headers are their encoding; a transaction is its type. *)
#[export] Instance codec : BlockCodec := {|
  BlockHeader := bytes;
  bh_number rlp := field rlp 1; bh_transactions_root rlp := field rlp 2; bh_receipts_root rlp := field rlp 3;
  bh_state_root rlp := field rlp 4; bh_hash := Reference.digest;
  block_header_decode rlp := Some (rlp, []);
  Transaction := u8;
  tx_type_byte t := t;
  block_body_decode rlp := Some (rlp, []);
  calculate_transaction_root txs := Zpos (encode (b2z <$> txs));
  calculate_receipt_root rs := Z.of_nat (length rs)
|}.

#[export] Instance root_laws : RootLaws.
Proof.
  split. intros a b H. injection H as H. apply (inj encode) in H.
  revert b H. induction a as [|x a IH]; intros [|y b] H; try done. cbn in H. injection H as Hx Hab.
  f_equal; [by apply b2z_inj|by apply IH].
Defined.

Definition header_rlp (parent number txs_root receipts_root state_root : Z) : bytes :=
  rlp_list_of (concat (Reference.encode_bytes <$> [be_encode 32 parent; be_encode 8 number; be_encode 32 txs_root;
    be_encode 32 receipts_root; be_encode 32 state_root])).

Definition body1 : bytes := [x6a; x02].
Definition header1 : bytes := header_rlp 5 300 (calculate_transaction_root (body1 : list Transaction)) 2 60.
Definition header2 : bytes :=
  header_rlp (Reference.digest header1) 301 (calculate_transaction_root ([] : list Transaction)) 0 1011.
Definition stored : bytes := encode_stored_receipts [StoredReceipt.FixedWidth.receipt1; StoredReceipt.FixedWidth.receipt2].

Definition m : Manifest := {|
  m_block := 301; m_root := 1011; m_state_id := 9; m_hash := Reference.digest header2;
  m_resume := Some {| rp_l1_block := 1000; rp_delayed_count := 3; rp_l2_block := 300 |}
|}.

Definition blocks : list SnapshotRecord :=
  [Header 300 (Reference.digest header1) header1; Body 300 body1; Receipts 300 stored;
   Header 301 (Reference.digest header2) header2; Body 301 []].

Definition objects : list HistoryObject :=
  [{| ho_state_id := 8; ho_block := 300; ho_parent_root := 60; ho_post_root := 61; ho_accounts := [] |};
   {| ho_state_id := 9; ho_block := 301; ho_parent_root := 61; ho_post_root := 1011;
      ho_accounts := [{| ha_address := 4; ha_previous := Some (1, 1000, Some 12); ha_storage := [(1, 2)] |};
                      {| ha_address := 5; ha_previous := None; ha_storage := [] |}] |}].

Definition state : list SnapshotRecord :=
  [Account 3 1 (2 ^ 70) (Some (Reference.digest [x60; x00])); Storage 1 300; Code (Reference.digest [x60; x00]) [x60; x00]].

(** A trie that counts. *)
Definition trie (accounts : gmap Z AccountInfo) (storages : gset (Z * Z * Z)) : result string Z :=
  Ok (1000 + 10 * Z.of_nat (size accounts) + Z.of_nat (size storages)).

Definition env : ImportEnv := {|
  ie_fresh := Ok tt; ie_stream := Ok (build m blocks objects state); ie_setup := Ok tt; ie_chunks := 1;
  ie_finalize := {| fe_stages := replicate 4 {| sr_rounds := 1; sr_end := Ok tt |} |}
|}.

Definition run (n : nat) : Result string unit * (Work * nat) :=
  import_full trie env ({| w_dir := empty_datadir; w_faults := [] |}, n).

Lemma run_returns : fst (run 40) = Ret tt /\ fst (run 12) = Crashed.
Proof. split; vm_compute; reflexivity. Qed.

Lemma below_max (input : bytes) (s : SnapshotStream) :
  ie_stream env = Ok input -> open input = Ok s -> m_block (manifest s) < U64_MAX.
Proof.
  intros H Ho. assert (match ie_stream env with Ok i => match open i with Ok s => m_block (manifest s) <? U64_MAX | Err _ => false end
    | Err _ => false end = true) as Hc by (vm_compute; reflexivity).
  rewrite H, Ho in Hc. by apply Z.ltb_lt.
Qed.

Lemma run_parts (n : nat) :
  import_full trie env ({| w_dir := empty_datadir; w_faults := [] |}, n) = (fst (run n), (fst (snd (run n)), snd (snd (run n)))).
Proof. unfold run. by destruct (import_full _ _ _) as [? [? ?]]. Qed.

(** The run of 40 commits is complete and whole, also after a power loss; the run of 12 is cut short and
    is not complete. *)
Lemma import_full_consistent_witness :
  fst (run 40) = Ret tt /\ imported_in_place trie env (w_dir (fst (snd (run 40)))) /\
  imported trie env (with_unsynced false Truncated (w_dir (fst (snd (run 40))))) /\
  fst (run 12) = Crashed /\
  (is_Some (dd_complete (w_dir (fst (snd (run 12))))) -> imported_in_place trie env (w_dir (fst (snd (run 12))))).
Proof.
  destruct run_returns as [H40 H12]. split; [exact H40|].
  destruct (import_full_consistent trie env [] 40 _ _ _ below_max (run_parts 40)) as (Hc & Hl & Hr).
  split; [exact (Hc (Hr H40))|]. split.
  - apply Hl; [|exact (Hr H40)]. exists false, Truncated. split; [by right|]. split; [|reflexivity].
    right. split; [vm_compute; discriminate|by right].
  - split; [exact H12|]. exact (proj1 (import_full_consistent trie env [] 12 _ _ _ below_max (run_parts 12))).
Defined.

(** A power loss after the import returned can leave a datadir marked complete whose changeset files
    are not where the headers say, and whose resume log is empty. *)
Theorem unsynced_after_completion :
  fst (run 40) = Ret tt /\
  exists d', power_loss (w_dir (fst (snd (run 40)))) d' /\ bool_decide (is_Some (dd_complete d')) = true /\
    dd_renamed d' = false /\ dd_resume d' = Truncated.
Proof.
  split; [apply run_returns|]. exists (with_unsynced false Truncated (w_dir (fst (snd (run 40))))). split_and!.
  - exists false, Truncated. split; [by right|]. split; [|reflexivity]. right. split; [vm_compute; discriminate|by right].
  - vm_compute. reflexivity.
  - reflexivity.
  - reflexivity.
Qed.
End Sample.
