(* ===== verification/SnapshotFullTotal.v ===== *)
(** * An exported snapshot is imported

    Proofs about [SnapshotFull]: the stream is read within its fuel, and the import of what
    [SnapshotStream]'s builder writes returns, with the datadir that [SnapshotFullSafety] describes. *)

From Stdlib Require Import Strings.Byte Strings.String.
From stdpp Require Import base list numbers option strings gmap.
From S2P Require Import Prelude External Crash StoredReceipt SnapshotStream SnapshotFull SnapshotFullSafety.

(** ** Progress of the reader *)

(** Reading leaves at most what was there. *)
Definition shrinks {A : Type} (f : bytes -> result SnapshotError (A * bytes)) : Prop :=
  forall r a r', f r = Ok (a, r') -> (length r' <= length r)%nat.

Create HintDb shrink.

Lemma shrinks_bind {A B : Type} (f : bytes -> result SnapshotError (A * bytes)) (g : A -> bytes -> result SnapshotError (B * bytes)) :
  shrinks f -> (forall a, shrinks (g a)) -> shrinks (fun r => let? '(a, r) := f r in g a r).
Proof.
  intros Hf Hg r b r' H. apply rbind_Ok in H as ([a r1] & Ha & Hb). apply Hf in Ha. apply Hg in Hb. lia.
Qed.

Lemma shrinks_ok {A : Type} (a : A) : shrinks (fun r => Ok (a, r)).
Proof. by intros r a' r' [= <- <-]. Qed.

Lemma shrinks_err {A : Type} (e : bytes -> SnapshotError) : shrinks (A := A) (fun r => Err (e r)).
Proof. by intros r a' r' H. Qed.

Lemma shrinks_if {A : Type} (b : bool) (f g : bytes -> result SnapshotError (A * bytes)) :
  shrinks f -> shrinks g -> shrinks (fun r => if b then f r else g r).
Proof. by destruct b. Qed.

Lemma shrinks_check {A B : Type} (c : result SnapshotError B) (g : B -> bytes -> result SnapshotError (A * bytes)) :
  (forall b, shrinks (g b)) -> shrinks (fun r => let? b := c in g b r).
Proof. intros Hg r a r' H. apply rbind_Ok in H as (b & _ & H). by eapply Hg. Qed.

#[export] Hint Resolve shrinks_bind shrinks_ok shrinks_err shrinks_if shrinks_check : shrink.

Lemma read_exact_shrinks (n : Z) : shrinks (read_exact n).
Proof. intros r a r'. unfold read_exact. destruct (Z.of_nat (length r) <? n); [done|]. intros [= <- <-]. rewrite length_drop. lia. Qed.

Lemma read_u8_shrinks : shrinks read_u8.
Proof. intros r a r' H. unfold read_u8 in H. destruct r; [done|]. injection H as <- <-. cbn. lia. Qed.

Lemma read_uvarint_shrinks : shrinks read_uvarint.
Proof.
  intros r. unfold read_uvarint. generalize 0 at 1 as value. generalize 0 as shift.
  induction r as [|b r IH]; intros shift value a r' H; [done|]. cbn [read_uvarint_loop] in H.
  destruct (checked_shl _ _); [|done]. if_inv H; [injection H as <- <-; cbn; lia|]. apply IH in H. cbn. lia.
Qed.

#[export] Hint Resolve read_exact_shrinks read_u8_shrinks read_uvarint_shrinks : shrink.

Lemma read_b256_shrinks : shrinks read_b256.
Proof. unfold read_b256. auto with shrink. Qed.

Lemma read_short_bytes_shrinks : shrinks read_short_bytes.
Proof. unfold read_short_bytes. auto with shrink. Qed.

#[export] Hint Resolve read_b256_shrinks read_short_bytes_shrinks : shrink.

Lemma read_short_u256_shrinks : shrinks read_short_u256.
Proof. unfold read_short_u256. auto with shrink. Qed.

Lemma read_blob_shrinks : shrinks read_blob.
Proof. unfold read_blob. auto with shrink. Qed.

#[export] Hint Resolve read_short_u256_shrinks read_blob_shrinks : shrink.

Lemma read_slots_shrinks (n : nat) : shrinks (read_slots n).
Proof. induction n as [|n IH]; cbn [read_slots]; auto 7 with shrink. Qed.

#[export] Hint Resolve read_slots_shrinks : shrink.

Lemma read_history_account_shrinks : shrinks read_history_account.
Proof. unfold read_history_account. auto 20 with shrink. Qed.

#[export] Hint Resolve read_history_account_shrinks : shrink.

Lemma read_history_accounts_shrinks (n : nat) : shrinks (read_history_accounts n).
Proof. induction n as [|n IH]; cbn [read_history_accounts]; auto 7 with shrink. Qed.

#[export] Hint Resolve read_history_accounts_shrinks : shrink.

(** Turns reads into bounds. *)
Ltac shrink_all :=
  repeat match goal with
  | H : ?f _ = Ok (_, _) |- _ =>
      let Hs := fresh in assert (shrinks f) as Hs by (solve [auto with shrink]); apply Hs in H; clear Hs
  end.

Section Progress.
Context {K : Keccak}.

Lemma read_record_progress (s s' : SnapshotStream) (tag : u8) (r : SnapshotRecord) :
  read_record s tag = Ok (r, s') -> (length (inner s') <= length (inner s))%nat.
Proof.
  unfold read_record. intros H. if_inv H; ok_inv; try (injection H as <- <-);
    repeat match goal with H : read_history _ = Ok _ |- _ => unfold read_history in H; ok_inv end;
    simplify_eq; cbn [at_input inner]; shrink_all; cbn [set_last_history inner] in *; try lia.
  if_inv H. injection H as <- <-. cbn [at_input inner]. lia.
Qed.

Lemma next_loop_progress (s s' : SnapshotStream) (sec : u8) (r : bytes) (rec : SnapshotRecord) :
  next_loop s sec r = Ok (Some rec, s') -> (length (inner s') < length r)%nat.
Proof.
  revert sec. induction r as [|tag r IH]; intros sec H; cbn [next_loop] in H; [done|]. if_inv H.
  - apply IH in H. cbn. lia.
  - apply IH in H. cbn. lia.
  - ok_inv. simplify_eq. apply read_record_progress in E. cbn in *. lia.
Qed.

Lemma pulls_length (s s' : SnapshotStream) (rs : list SnapshotRecord) :
  between s -> pulls s rs s' -> (length rs <= length (inner s))%nat.
Proof.
  intros Hb Hp. induction Hp as [|s r s1 rs s2 Hn _ IH]; [cbn; lia|]. specialize (IH (next_record_between _ _ _ Hb Hn)).
  destruct Hb as (Hh & _). unfold next_record in Hn. rewrite Hh in Hn. destruct (finished s); [done|].
  apply next_loop_progress in Hn. cbn. lia.
Qed.

Lemma pulls_app_inv (s s' : SnapshotStream) (a b : list SnapshotRecord) :
  pulls s (a ++ b) s' -> exists s1, pulls s a s1 /\ pulls s1 b s'.
Proof.
  revert s. induction a as [|r a IH]; intros s H; [exists s; by split; [constructor|]|].
  inversion H as [|? ? s1 ? ? Hn Hp]; subst. destruct (IH _ Hp) as (s2 & H1 & H2). exists s2. split; [by econstructor|done].
Qed.

(** What a record put back leaves to read. *)
Lemma pulls_unread (s s1 s2 : SnapshotStream) (r : SnapshotRecord) (rs : list SnapshotRecord) :
  between s -> next_record s = Ok (Some r, s1) -> pulls s1 rs s2 -> pulls (unread s1 r) (r :: rs) s2.
Proof.
  intros Hb Hn Hp. econstructor; [|exact Hp]. apply unread_again. by apply (next_record_between _ _ _ Hb) in Hn as (? & _).
Qed.
End Progress.

(** ** The sections return *)

Section Total.
Context {K : Keccak} {BC : BlockCodec} {RC : ReceiptCodec} {RL : RootLaws}.

(** No commit will fail. *)
Definition quiet (w : Work) : Prop := w_faults w = [].

Lemma twp_commit (f : Datadir -> Datadir) (Q : unit -> Work -> Prop) (w : Work) :
  quiet w -> (forall w', quiet w' -> w_dir w' = f (w_dir w) -> Q tt w') -> twp 1 (commit f) Q w.
Proof.
  intros Hq HQ. unfold commit. apply (twp_bind 0 1), twp_get. rewrite Hq. apply twp_write, HQ; [|done].
  unfold quiet. cbn. by rewrite Hq.
Qed.

Lemma twp_dir (Q : Datadir -> Work -> Prop) (w : Work) : Q (w_dir w) w -> twp 0 dir Q w.
Proof. intros HQ. unfold dir. apply (twp_bind 0 0), twp_get. by apply twp_ret. Qed.

Lemma twp_pull (s s' : SnapshotStream) (o : option SnapshotRecord) (Q : option SnapshotRecord * SnapshotStream -> Work -> Prop)
    (w : Work) :
  next_record s = Ok (o, s') -> Q (o, s') w -> twp 0 (pull s) Q w.
Proof. intros Hn HQ. unfold pull. rewrite Hn. by apply twp_ret. Qed.

(** Blocks before the open one stay as they are. *)
Lemma assemble_keeps (rs : list SnapshotRecord) (acc bl : list PendingBlock) :
  try_fold assemble_step rs acc = Ok bl -> removelast acc `prefix_of` bl.
Proof.
  revert acc. induction rs as [|r rs IH]; intros acc H; cbn [try_fold] in H.
  - injection H as <-. destruct acc as [|x acc] using rev_ind; [done|]. rewrite removelast_last. by exists [x].
  - apply rbind_Ok in H as (acc' & Hs & H). apply IH in H.
    destruct r; cbn [assemble_step] in Hs; try done; ok_inv; subst acc'; rewrite removelast_last in H; [|done..].
    etrans; [|done]. destruct acc as [|x acc _] using rev_ind; [done|]. rewrite removelast_last. by exists [x].
Qed.

Lemma number_receipts_prefix (n : Z) (a b : list PendingBlock) (r : list (Z * ArbReceiptEnvelope)) :
  Forall block_checked a -> number_receipts n (a ++ b) = Ok r ->
  exists ra rb, number_receipts n a = Ok ra /\ number_receipts (n + txs a) b = Ok rb /\ r = ra ++ rb.
Proof.
  intros Hch. revert n r. induction Hch as [|x a (_ & _ & Hr) _ IH]; intros n r; cbn [app number_receipts txs foldr].
  { intros H. exists [], r. by rewrite Z.add_0_r. }
  fold (txs a). destruct (pb_receipts x) as [rs|].
  - destruct (Hr rs eq_refl) as (Hlen & _). intros H. ok_inv. subst. destruct (IH _ _ E) as (ra & rb & Ha & Hb & ->).
    rewrite Ha. eexists _, rb. split; [done|]. split; [|by rewrite app_assoc]. rewrite <- Hb. f_equal. lia.
  - destruct (Nat.ltb_spec 0 (tx_count x)) as [|Hz]; [done|]. intros H. destruct (IH _ _ H) as (ra & rb & Ha & Hb & ->).
    exists ra, rb. split; [done|]. split; [|done]. rewrite <- Hb. f_equal. lia.
Qed.

Lemma indices_append (b : list PendingBlock) (r : list (Z * ArbReceiptEnvelope)) (d : Datadir) :
  indices_next_tx_num (append_blocks b r d) = indices_next_tx_num d + txs b.
Proof.
  unfold indices_next_tx_num, append_blocks. cbn [dd_bodies]. rewrite foldr_app.
  induction (dd_bodies d) as [|[n body] l IH]; cbn [foldr]; [|rewrite IH; lia].
  induction b as [|x b IH]; [done|]. cbn [fmap list_fmap foldr txs]. fold (txs b). unfold tx_count. rewrite IH. lia.
Qed.

Lemma flush_blocks_total (fl : list PendingBlock) (st : BlocksState) (w : Work) (rest : list PendingBlock) (r : list (Z * ArbReceiptEnvelope)) :
  Forall block_checked (fl ++ ws_batch st) -> flushed fl st w -> quiet w ->
  number_receipts 0 ((fl ++ ws_batch st) ++ rest) = Ok r ->
  twp 1 (flush_blocks st) (fun st' w' => quiet w' /\ flushed (fl ++ ws_batch st) st' w' /\ ws_batch st' = [] /\
    ws_pending st' = ws_pending st) w.
Proof.
  intros Hch Hfl Hq Hr. pose proof (proj1 (proj1 (List.Forall_app _ _ _) Hch)) as Hchf.
  destruct (number_receipts_prefix _ _ _ _ Hch Hr) as (ra & rb & Ha & _). apply number_receipts_prefix in Ha as (r1 & r2 & H1 & H2 & _); [|done].
  rewrite Z.add_0_l in H2.
  apply (twp_wp _ _ (fun _ w' => quiet w') _ incomplete); [|by apply flush_blocks_spec].
  destruct Hfl as (recs & Hrec & Hd & Hst & Htx). unfold flush_blocks.
  destruct (ws_batch st) as [|b batch] eqn:Hb; [eapply twp_le; [by apply twp_ret|lia]|]. rewrite <- Hb in *.
  apply (twp_bind 0 1). eapply twp_lift; [rewrite Htx; exact H2|]. apply (twp_bind 0 1), twp_dir.
  assert (indices_next_tx_num (append_blocks (ws_batch st) r2 (w_dir w)) = ws_next_tx_num st + txs (ws_batch st)) as Hi.
  { rewrite indices_append, Htx, Hd, indices_append. done. }
  fold (txs (ws_batch st)). rewrite Hi, Z.eqb_refl. cbn [negb].
  apply (twp_bind 1 0), twp_commit; [done|]. intros w' Hq' _. by apply twp_ret.
Qed.

(** A loop's last record goes back. *)
Definition put_back (o : option SnapshotRecord) (s : SnapshotStream) : SnapshotStream :=
  match o with
  | Some r => unread s r
  | None => s
  end.

Definition is_block_record (r : SnapshotRecord) : bool :=
  match r with
  | Header _ _ _ | Body _ _ | Receipts _ _ => true
  | _ => false
  end.

(** The blocks loop has read [rs0], committed [fl] and will read [rs]. *)
Definition blocks_ahead (rs0 rs : list SnapshotRecord) (fl bl : list PendingBlock) (st : BlocksState) (w : Work) : Prop :=
  assemble rs0 = Ok (fl ++ ws_batch st ++ opt_pending st) /\ assemble (rs0 ++ rs) = Ok bl /\ flushed fl st w /\ quiet w /\
  (ws_pending st = None -> fl ++ ws_batch st = []).

Definition blocks_read (o : option SnapshotRecord) (s2 : SnapshotStream) (bl : list PendingBlock)
    (r : SnapshotStream * BlocksState) (w : Work) : Prop :=
  fst r = put_back o s2 /\ flushed bl (snd r) w /\ quiet w.

Lemma blocks_end_total (rs0 : list SnapshotRecord) (fl bl : list PendingBlock) (st : BlocksState) (w : Work)
    (recs : list (Z * ArbReceiptEnvelope)) (o : option SnapshotRecord) (s2 : SnapshotStream) :
  blocks_ahead rs0 [] fl bl st w -> number_receipts 0 bl = Ok recs ->
  twp 1 (let! st := flush_blocks (take_pending st) in mret (put_back o s2, st)) (blocks_read o s2 bl) w.
Proof.
  intros (Ha & Hbl & Hfl & Hq & Hpn) Hrec. rewrite app_nil_r, Ha in Hbl. injection Hbl as <-.
  destruct (take_pending_flushed _ _ _ Hfl) as (Hfl' & Hb & _).
  apply (twp_bind 1 0). eapply twp_mono; [eapply (flush_blocks_total fl _ w []); [|exact Hfl'|done|]|].
  - rewrite Hb. by apply assemble_checked in Ha as (? & _).
  - rewrite app_nil_r, Hb. exact Hrec.
  - intros st' w' (Hq' & Hfl'' & _). apply twp_ret. rewrite Hb in Hfl''. done.
Qed.

(** The state after a header. *)
Lemma blocks_header_total (rs0 rs : list SnapshotRecord) (fl bl : list PendingBlock) (st : BlocksState) (w : Work)
    (recs : list (Z * ArbReceiptEnvelope)) (block hash : Z) (rlp : bytes) (full : bool) :
  blocks_ahead rs0 (Header block hash rlp :: rs) fl bl st w -> number_receipts 0 bl = Ok recs ->
  twp 1 (if full then
           let! st := flush_blocks (take_pending st) in
           mret {| ws_batch := ws_batch st; ws_pending := ws_pending st; ws_batch_txs := 0;
                   ws_next_tx_num := ws_next_tx_num st; ws_stats := ws_stats st |}
         else mret (take_pending st))
    (fun st' w' => exists p fl', open_block block hash rlp = Ok p /\
       blocks_ahead (rs0 ++ [Header block hash rlp]) rs fl' bl (with_pending st' p) w') w.
Proof.
  intros (Ha & Hbl & Hfl & Hq & Hpn) Hrec. destruct (take_pending_flushed _ _ _ Hfl) as (Hfl' & Hb & _).
  rewrite cons_middle, app_assoc in Hbl. pose proof Hbl as Hbl'.
  unfold assemble in Hbl'. rewrite try_fold_app in Hbl'. apply rbind_Ok in Hbl' as (acc & Hacc & Hrest).
  change (assemble (rs0 ++ [Header block hash rlp]) = Ok acc) in Hacc. pose proof Hacc as Hstep.
  rewrite (assemble_snoc _ _ _ Ha) in Hstep. cbn [assemble_step] in Hstep. apply rbind_Ok in Hstep as (p & Hp & Hstep).
  injection Hstep as <-. apply assemble_keeps in Hrest as [rest Hrest]. rewrite removelast_last in Hrest. rewrite <- Hb in *.
  assert (Hgo : forall st' fl' w', quiet w' -> flushed fl' st' w' -> fl' ++ ws_batch st' = fl ++ ws_batch (take_pending st) ->
      exists p fl', open_block block hash rlp = Ok p /\
        blocks_ahead (rs0 ++ [Header block hash rlp]) rs fl' bl (with_pending st' p) w').
  { intros st' fl' w' Hq' Hf' He. exists p, fl'. split; [done|]. split_and!; [|done..].
    rewrite Hacc. cbn [with_pending ws_batch opt_pending ws_pending]. by rewrite app_assoc, He. }
  destruct full; [|eapply twp_le; [apply twp_ret; by eapply Hgo|lia]].
  apply (twp_bind 1 0). eapply twp_mono; [eapply (flush_blocks_total fl _ w rest); [|exact Hfl'|done|by rewrite <- Hrest]|].
  - by apply assemble_checked in Ha as (? & _).
  - intros st' w' (Hq' & Hf' & Hb' & _). apply twp_ret. eapply Hgo; [done|by apply Hf'|]. cbn. by rewrite Hb', app_nil_r.
Qed.

(** The state after a record that goes to the open block. *)
Lemma blocks_pending_total (rs0 rs : list SnapshotRecord) (fl bl : list PendingBlock) (st : BlocksState) (w : Work)
    (r : SnapshotRecord) (block : Z) (add : PendingBlock -> result string PendingBlock) :
  (forall acc, assemble_step acc r = let? target := expect_pending (last acc) block in
                                     let? target := add target in Ok (removelast acc ++ [target])) ->
  blocks_ahead rs0 (r :: rs) fl bl st w ->
  exists t t', expect_pending (ws_pending st) block = Ok t /\ add t = Ok t' /\
    blocks_ahead (rs0 ++ [r]) rs fl bl (with_pending st t') w.
Proof.
  intros Hadd (Ha & Hbl & Hfl & Hq & Hpn). rewrite cons_middle, app_assoc in Hbl. pose proof Hbl as Hbl'.
  unfold assemble in Hbl'. rewrite try_fold_app in Hbl'. apply rbind_Ok in Hbl' as (acc & Hacc & _).
  change (assemble (rs0 ++ [r]) = Ok acc) in Hacc. pose proof Hacc as Hstep.
  rewrite (assemble_snoc _ _ _ Ha), Hadd in Hstep. apply rbind_Ok in Hstep as (t & Ht & Hstep).
  apply rbind_Ok in Hstep as (t' & Ht' & Hstep). injection Hstep as <-.
  assert (Hl : ws_pending st = last (fl ++ ws_batch st ++ opt_pending st)).
  { unfold opt_pending. destruct (ws_pending st) as [q|]; [by rewrite app_assoc, last_snoc|].
    by rewrite app_nil_r, Hpn. }
  rewrite Hl. exists t, t'. split; [done|]. split; [done|]. apply expect_pending_Ok in Ht. rewrite <- Hl in Ht.
  unfold opt_pending in *. rewrite Ht in *. split_and!; [|done..]. rewrite Hacc.
  by rewrite app_assoc, removelast_last, <- app_assoc.
Qed.

Lemma blocks_loop_total (rs : list SnapshotRecord) (s s1 s2 : SnapshotStream) (o : option SnapshotRecord) (bl : list PendingBlock)
    (recs : list (Z * ArbReceiptEnvelope)) :
  pulls s rs s1 -> next_record s1 = Ok (o, s2) -> (forall r, o = Some r -> is_block_record r = false) ->
  number_receipts 0 bl = Ok recs ->
  forall fuel rs0 fl st w, (length rs < fuel)%nat -> blocks_ahead rs0 rs fl bl st w ->
  twp (S (length rs)) (blocks_loop fuel s st) (blocks_read o s2 bl) w.
Proof.
  intros Hp Hn Ho Hrec. induction Hp as [s|s r s' rs s1 Hr _ IH]; intros [|fuel] rs0 fl st w Hf Hinv; cbn [length] in *; try lia;
    cbn [blocks_loop].
  - apply (twp_bind 0 1). eapply twp_pull; [exact Hn|].
    pose proof (blocks_end_total _ _ _ _ _ _ o s2 Hinv Hrec) as Hend.
    destruct o as [[]|]; try exact Hend; discriminate (Ho _ eq_refl).
  - specialize (IH Hn). apply (twp_bind 0 (S (S (length rs)))). eapply twp_pull; [exact Hr|].
    destruct r as [block hash rlp|block rlp|block rlp|o'|h n b c|h v|h c];
      try (exfalso; destruct Hinv as (_ & Hbl & _); apply assemble_checked in Hbl as (_ & _ & Hbl);
           apply List.Forall_app in Hbl as [_ Hbl]; by inversion Hbl).
    + apply (twp_bind 1 (S (length rs))). eapply twp_mono; [by eapply (blocks_header_total rs0 rs)|].
      intros st' w' (p & fl' & Hopen & Hinv'). apply (twp_bind 0 (S (length rs))). eapply twp_lift; [exact Hopen|].
      eapply IH; [lia|exact Hinv'].
    + destruct (blocks_pending_total rs0 rs fl bl st w (Body block rlp) block (fun t => add_body t rlp) (fun _ => eq_refl) Hinv) as (t & t' & H1 & H2 & H3).
      eapply twp_le; [|apply Nat.le_succ_diag_r]. apply (twp_bind 0 (S (length rs))). eapply twp_lift; [exact H1|].
      apply (twp_bind 0 (S (length rs))). eapply twp_lift; [exact H2|]. eapply IH; [lia|exact H3].
    + destruct (blocks_pending_total rs0 rs fl bl st w (Receipts block rlp) block (fun t => add_receipts t rlp) (fun _ => eq_refl) Hinv) as (t & t' & H1 & H2 & H3).
      eapply twp_le; [|apply Nat.le_succ_diag_r]. apply (twp_bind 0 (S (length rs))). eapply twp_lift; [exact H1|].
      apply (twp_bind 0 (S (length rs))). eapply twp_lift; [exact H2|]. eapply IH; [lia|exact H3].
Qed.

Lemma count_blocks_count (bl : list PendingBlock) (stats : BlockSectionStats) :
  bs_blocks (fold_left count_block bl stats) = bs_blocks stats + Z.of_nat (length bl).
Proof. revert stats. induction bl as [|b bl IH]; intros stats; cbn [fold_left length]; [lia|]. rewrite IH. cbn. lia. Qed.

Lemma write_blocks_total (fuel : nat) (rs : list SnapshotRecord) (s s1 s2 : SnapshotStream) (o : option SnapshotRecord)
    (bl : list PendingBlock) (recs : list (Z * ArbReceiptEnvelope)) (m : Manifest) (w : Work) :
  pulls s rs s1 -> next_record s1 = Ok (o, s2) -> (forall r, o = Some r -> is_block_record r = false) ->
  (length rs < fuel)%nat -> assemble rs = Ok bl -> number_receipts 0 bl = Ok recs -> bl <> [] ->
  bs_last_block (fold_left count_block bl block_stats_default) = m_block m -> quiet w -> w_dir w = empty_datadir ->
  twp (S (length rs)) (write_blocks fuel s m)
    (fun '(s', stats) w' => s' = put_back o s2 /\ stats = fold_left count_block bl block_stats_default /\ quiet w' /\
       w_dir w' = append_blocks bl recs empty_datadir) w.
Proof.
  intros Hp Hn Ho Hf Ha Hrec Hne Hlast Hq Hd. unfold write_blocks. rewrite <- (Nat.add_0_r (S (length rs))). apply twp_bind.
  eapply twp_mono; [eapply (blocks_loop_total rs s s1 s2 o bl recs Hp Hn Ho Hrec fuel [] []); [done|]|].
  { split_and!; [done|exact Ha| |done|done]. exists []. by rewrite Hd. }
  intros [s' st] w' (Hs & (recs' & Hrec' & Hd' & Hst & _) & Hq'). cbn [fst snd] in *. rewrite Hrec in Hrec'. injection Hrec' as <-.
  destruct (Z.eqb_spec (bs_blocks (ws_stats st)) 0) as [Hz|_].
  { exfalso. rewrite Hst, count_blocks_count in Hz. destruct bl; [done|]. cbn in Hz. lia. }
  rewrite Hst, Hlast, Z.eqb_refl. by apply twp_ret.
Qed.

Lemma lay_out_prefix (at_ e : Z) (a b : list HistoryObject) (x : list (Z * list AccountBeforeTx)) (y : list (Z * list StorageBeforeTx)) :
  lay_out_history at_ (a ++ b) = Ok (x, y, e) -> exists x1 y1 e1, lay_out_history at_ a = Ok (x1, y1, e1) /\
    exists r, lay_out_history e1 b = Ok r.
Proof.
  revert at_ x y e. induction a as [|o a IH]; intros at_ x y e; cbn [app lay_out_history].
  { intros H. exists [], [], at_. split; [done|by eexists]. }
  destruct (ho_block o <? at_); [done|]. intros H. apply rbind_Ok in H as ([[x' y'] e'] & H & _).
  destruct (IH _ _ _ _ H) as (x1 & y1 & e1 & H1 & H2). rewrite H1. cbn [rbind]. by do 3 eexists.
Qed.

(** The objects [o :: objs] can be laid out, and [fl] of them are. *)
Lemma flush_history_total (d0 : Datadir) (o : HistoryObject) (fl rest all : list HistoryObject) (st : HistoryState) (w : Work)
    (r : list (Z * list AccountBeforeTx) * list (Z * list StorageBeforeTx) * Z) :
  dd_complete d0 = None -> history_flushed d0 fl st w -> quiet w -> all = (fl ++ hw_batch st) ++ rest ->
  head all = Some o -> lay_out_history (ho_block o) all = Ok r ->
  twp 1 (flush_history st) (fun st' w' => quiet w' /\ history_flushed d0 (fl ++ hw_batch st) st' w' /\ hw_batch st' = []) w.
Proof.
  intros Hd Hfl Hq -> Hh Hr. apply (twp_wp _ _ (fun _ w' => quiet w') _ incomplete); [|by apply flush_history_spec].
  unfold flush_history. destruct (hw_batch st) as [|o1 batch] eqn:Hb; [eapply twp_le; [by apply twp_ret|lia]|].
  destruct r as [[x y] e]. apply lay_out_prefix in Hr as (x1 & y1 & e1 & Hr & _). pose proof Hr as Hr'.
  apply lay_out_prefix in Hr' as (x2 & y2 & e2 & Hf & [r2 H2]).
  assert (lay_out_history (default (ho_block o1) (hw_cursor st)) (o1 :: batch) = Ok r2) as Hlay.
  { rewrite <- H2.
    destruct fl as [|o0 fl].
    - destruct Hfl as (_ & -> & _). cbn [default]. injection Hh as ->. cbn in Hf. by injection Hf as _ _ <-.
    - destruct Hfl as (x3 & y3 & e3 & Hf' & _ & -> & _). cbn [default]. cbn in Hh. injection Hh as ->. rewrite Hf in Hf'.
      by injection Hf' as _ _ <-. }
  apply (twp_bind 0 1). eapply twp_lift; [exact Hlay|]. destruct r2 as [[x3 y3] e3].
  apply (twp_bind 1 0), twp_commit; [done|]. intros w' Hq' _. by apply twp_ret.
Qed.

Definition is_history (r : SnapshotRecord) : bool :=
  match r with
  | History _ => true
  | _ => false
  end.

Lemma history_loop_total (d0 : Datadir) (o : HistoryObject) (all : list HistoryObject)
    (r : list (Z * list AccountBeforeTx) * list (Z * list StorageBeforeTx) * Z) (objs : list HistoryObject)
    (s s1 s2 : SnapshotStream) (next : option SnapshotRecord) :
  dd_complete d0 = None -> head all = Some o -> lay_out_history (ho_block o) all = Ok r ->
  pulls s (History <$> objs) s1 -> next_record s1 = Ok (next, s2) -> (forall r, next = Some r -> is_history r = false) ->
  forall fuel fl st w, (length objs < fuel)%nat -> all = (fl ++ hw_batch st) ++ objs -> history_flushed d0 fl st w -> quiet w ->
  twp (S (length objs)) (history_loop fuel s st)
    (fun '(s', st') w' => s' = put_back next s2 /\ history_flushed d0 all st' w' /\ quiet w') w.
Proof.
  intros Hd Hh Hr Hp Hn Hnext. revert s Hp. induction objs as [|obj objs IH]; intros s Hp [|fuel] fl st w Hf Hall Hfl Hq;
    cbn [length] in *; try lia; cbn [history_loop].
  - inversion Hp; subst s1. apply (twp_bind 0 1). eapply twp_pull; [exact Hn|].
    assert (Hend : twp 1 (let! st := flush_history st in mret (put_back next s2, st))
      (fun '(s', st') w' => s' = put_back next s2 /\ history_flushed d0 all st' w' /\ quiet w') w).
    { apply (twp_bind 1 0). eapply twp_mono; [by eapply (flush_history_total d0 o fl [] all)|].
      intros st' w' (Hq' & Hfl' & _). apply twp_ret. rewrite app_nil_r in Hall. by rewrite Hall. }
    destruct next as [[]|]; try exact Hend; discriminate (Hnext _ eq_refl).
  - inversion Hp as [|? ? s' ? ? Hpull Hp']; subst s1. apply (twp_bind 0 (S (S (length objs)))). eapply twp_pull; [exact Hpull|].
    set (st1 := {| hw_batch := hw_batch st ++ [obj]; hw_entries := (hw_entries st + object_entries obj)%nat;
                   hw_cursor := hw_cursor st; hw_stats := hw_stats st |}).
    assert (Hfl1 : history_flushed d0 fl st1 w) by (by destruct fl).
    assert (Hall1 : all = (fl ++ hw_batch st1) ++ objs) by (rewrite Hall; cbn [st1 hw_batch]; by rewrite <- !app_assoc).
    cbv beta iota zeta. fold st1. destruct (CHANGESET_BATCH <=? hw_entries st1)%nat.
    + apply (twp_bind 1 (S (length objs))). eapply twp_mono; [by eapply (flush_history_total d0 o fl objs all)|].
      intros st' w' (Hq' & Hfl' & Hb). eapply (IH _ Hp' fuel (fl ++ hw_batch st1)); [lia| |by destruct (fl ++ hw_batch st1)|done].
      cbn [hw_batch]. by rewrite Hb, app_nil_r.
    + eapply twp_le; [|apply Nat.le_succ_diag_r]. eapply (IH _ Hp' fuel fl); [lia|done..].
Qed.

Lemma count_objects_count (at_ : Z) (stats : HistorySectionStats) (objs : list HistoryObject) :
  hs_objects (count_objects at_ stats objs) = hs_objects stats + Z.of_nat (length objs).
Proof.
  revert at_ stats. induction objs as [|o objs IH]; intros at_ stats; cbn [count_objects length]; [lia|]. rewrite IH. cbn. lia.
Qed.

Lemma write_history_total (d0 : Datadir) (fuel : nat) (o : HistoryObject) (objs : list HistoryObject) (s s1 s2 : SnapshotStream)
    (next : option SnapshotRecord) (x : list (Z * list AccountBeforeTx)) (y : list (Z * list StorageBeforeTx)) (e : Z)
    (m : Manifest) (w : Work) :
  let stats := count_objects (ho_block o) (set_first_block (ho_block o) history_stats_default) (o :: objs) in
  dd_complete d0 = None -> w_dir w = d0 -> quiet w -> pulls s (History <$> o :: objs) s1 -> next_record s1 = Ok (next, s2) ->
  (forall r, next = Some r -> is_history r = false) -> (length (o :: objs) < fuel)%nat ->
  lay_out_history (ho_block o) (o :: objs) = Ok (x, y, e) -> check_history_meets_state (put_back next s2) = Ok tt ->
  hs_last_block stats = m_block m ->
  twp (S (length (o :: objs))) (write_history fuel s m)
    (fun '(s', stats') w' => s' = put_back next s2 /\ stats' = stats /\ quiet w' /\
       w_dir w' = append_history (Some (ho_block o)) x y d0) w.
Proof.
  intros stats Hd Hw Hq Hp Hn Hnext Hf Hlay Hmeets Hlast. unfold write_history.
  rewrite <- (Nat.add_0_r (S (length (o :: objs)))). apply twp_bind.
  eapply twp_mono; [by eapply (history_loop_total d0 o (o :: objs) _ (o :: objs) s s1 s2 next Hd eq_refl Hlay Hp Hn Hnext fuel [])|].
  intros [s' st] w' (-> & (x' & y' & e' & Hlay' & Hd' & _ & Hst) & Hq'). rewrite Hlay in Hlay'. injection Hlay' as <- <- <-.
  fold stats in Hst. rewrite Hst. unfold stats at 1. rewrite count_objects_count.
  destruct (Z.eqb_spec (hs_objects (set_first_block (ho_block o) history_stats_default) + Z.of_nat (length (o :: objs))) 0) as [Hz|_];
    [cbn in Hz; lia|].
  apply (twp_bind 0 0). eapply twp_lift; [by rewrite Hmeets|]. rewrite Hlast, Z.eqb_refl. by apply twp_ret.
Qed.

Lemma state_record_prefix_inv (ops : list StateOp) (st x : StateLoop) (r : SnapshotRecord) :
  state_record (with_prefix ops st) r = Ok x -> exists st', state_record st r = Ok st' /\ x = with_prefix ops st'.
Proof.
  intros H. destruct (state_record st r) as [st'|] eqn:Hs.
  - exists st'. split; [done|]. rewrite (state_record_prefix _ _ _ _ Hs) in H. by injection H.
  - exfalso. destruct r as [| | | |h n b c|h v|h c]; cbn [state_record with_prefix sl_account] in *; try done.
    destruct (sl_account st); cbn [ok_or rbind] in *; [|done]. by destruct (v =? 0).
Qed.

(** The state loop has read [rs0], committed [ops] and will read [rs]. *)
Definition state_ahead (d0 : Datadir) (rs0 rs : list SnapshotRecord) (stf st : StateLoop) (w : Work) : Prop :=
  exists ops, state_of rs0 = Ok (with_prefix ops st) /\ state_of (rs0 ++ rs) = Ok stf /\
    w_dir w = fold_left apply_op ops d0 /\ quiet w.

Lemma state_commit_total (d0 : Datadir) (rs0 rs : list SnapshotRecord) (stf st : StateLoop) (w : Work) :
  state_ahead d0 rs0 rs stf st w ->
  twp 1 (state_commit st) (fun st' w' => state_ahead d0 rs0 rs stf st' w' /\ sl_ops st' = []) w.
Proof.
  intros (ops & H0 & Hf & Hw & Hq). unfold state_commit. apply (twp_bind 1 0), twp_commit; [done|]. intros w' Hq' Hw'.
  apply twp_ret. split; [|done]. exists (ops ++ sl_ops st). split_and!; [|done| |done].
  - rewrite H0. unfold with_prefix. cbn. by rewrite app_nil_r.
  - by rewrite Hw', Hw, fold_left_app.
Qed.

Lemma state_loop_total (d0 : Datadir) (rs : list SnapshotRecord) (s s1 s2 : SnapshotStream) (stf : StateLoop) :
  pulls s rs s1 -> next_record s1 = Ok (None, s2) ->
  forall fuel rs0 st w, (length rs < fuel)%nat -> state_ahead d0 rs0 rs stf st w ->
  twp (S (length rs)) (state_loop fuel s st) (fun st' w' => exists rs0, state_ahead d0 rs0 [] stf st' w') w.
Proof.
  intros Hp Hn. induction Hp as [s|s r s' rs s1 Hr _ IH]; intros [|fuel] rs0 st w Hf Hinv; cbn [length] in *; try lia; cbn [state_loop];
    (assert (Hc : twp 1 (if (STATE_COMMIT_THRESHOLD <=? sl_written st)%nat then state_commit st else mret st)
             (fun st' w' => state_ahead d0 rs0 ?[rest] stf st' w') w)
       by (destruct (_ <=? _)%nat; [eapply twp_mono; [by apply state_commit_total|by intros ? ? (? & _)]|
             eapply twp_le; [by apply twp_ret|lia]])).
  - apply (twp_bind 1 0). eapply twp_mono; [exact Hc|]. intros st' w' Hinv'. apply (twp_bind 0 0).
    eapply twp_pull; [exact Hn|]. apply twp_ret. by exists rs0.
  - apply (twp_bind 1 (S (length rs))). eapply twp_mono; [exact Hc|]. intros st' w' (ops & H0 & Hs & Hw' & Hq').
    apply (twp_bind 0 (S (length rs))). eapply twp_pull; [exact Hr|].
    rewrite cons_middle, app_assoc in Hs. pose proof Hs as Hs'. unfold state_of in Hs'. rewrite try_fold_app in Hs'.
    apply rbind_Ok in Hs' as (st2 & Hst2 & _). pose proof Hst2 as Hst3. rewrite try_fold_snoc in Hst3.
    fold (state_of rs0) in Hst3. rewrite H0 in Hst3. cbn [rbind] in Hst3.
    apply state_record_prefix_inv in Hst3 as (st3 & Hrec & ->). apply (twp_bind 0 (S (length rs))).
    eapply twp_lift; [exact Hrec|]. eapply (IH Hn fuel (rs0 ++ [r])); [lia|]. by exists ops.
Qed.

Lemma write_state_total (d0 : Datadir) (fuel : nat) (rs : list SnapshotRecord) (s s1 s2 : SnapshotStream) (stf : StateLoop) (w : Work) :
  w_dir w = d0 -> quiet w -> pulls s rs s1 -> next_record s1 = Ok (None, s2) -> (length rs < fuel)%nat -> state_of rs = Ok stf ->
  ss_accounts (sl_stats stf) <> 0 -> sl_wanted stf ⊆ sl_provided stf ->
  twp (S (S (length rs))) (write_state fuel s) (fun _ w' => quiet w' /\ w_dir w' = fold_left apply_op (sl_ops stf) d0) w.
Proof.
  intros Hw Hq Hp Hn Hf Hs Hne Hsub. unfold write_state. replace (S (S (length rs))) with (S (length rs) + 1)%nat by lia.
  apply twp_bind. eapply twp_mono; [eapply (state_loop_total d0 rs s s1 s2 stf Hp Hn fuel []); [done|]|].
  { by exists []. }
  intros st w1 (rs0 & Hinv). apply (twp_bind 1 0). eapply twp_mono; [by apply state_commit_total|].
  intros st' w2 [(ops & H0 & H1 & Hw2 & Hq2) Hops]. rewrite app_nil_r, H0 in H1. injection H1 as <-.
  cbn [with_prefix sl_stats sl_wanted sl_provided sl_ops] in *.
  destruct (Z.eqb_spec (ss_accounts (sl_stats st')) 0); [done|]. rewrite bool_decide_true by done. cbn [negb].
  apply twp_ret. by rewrite Hops, app_nil_r.
Qed.

(** ** The whole command returns *)

Lemma twp_iter_commit (n : nat) (w : Work) :
  quiet w -> twp n (Nat.iter n (fun rest => let! _ := commit id in rest) (mret tt)) (fun _ w' => quiet w' /\ w_dir w' = w_dir w) w.
Proof.
  revert w. induction n as [|n IH]; intros w Hq; cbn [Nat.iter]; [by apply twp_ret|].
  apply (twp_bind 1 n), twp_commit; [done|]. intros w' Hq' Hw'. eapply twp_mono; [by apply IH|].
  intros [] w2 [Hq2 Hw2]. split; [done|]. by rewrite Hw2, Hw'.
Qed.

(** The commits of the index stages. *)
Definition stage_commits (runs : list StageRun) : nat := foldr (fun run n => sr_rounds run + 1 + n)%nat O runs.

Lemma run_stage_total (run : StageRun) (w : Work) :
  quiet w -> sr_end run = Ok tt -> twp (sr_rounds run + 1) (run_stage run) (fun _ w' => quiet w' /\ w_dir w' = w_dir w) w.
Proof.
  intros Hq He. unfold run_stage. apply twp_bind. eapply twp_mono; [by apply twp_iter_commit|]. intros [] w1 [Hq1 Hw1].
  apply (twp_bind 0 1). eapply twp_lift; [exact He|]. apply twp_commit; [done|]. intros w2 Hq2 Hw2. by rewrite Hw2, <- Hw1.
Qed.

Lemma run_stages_total (runs : list StageRun) (w : Work) :
  quiet w -> Forall (fun run => sr_end run = Ok tt) runs ->
  twp (stage_commits runs) (run_stages runs) (fun _ w' => quiet w' /\ w_dir w' = w_dir w) w.
Proof.
  intros Hq Hok. revert w Hq. induction Hok as [|run runs He _ IH]; intros w Hq; cbn [run_stages stage_commits foldr]; [by apply twp_ret|].
  apply twp_bind. eapply twp_mono; [by apply run_stage_total|]. intros [] w2 [Hq2 <-]. by apply IH.
Qed.

(** What finishing needs of the tables. *)
Definition finishable (m : Manifest) (d : Datadir) : Prop :=
  dd_complete d = None /\
  (exists header, sealed_header d (m_block m) = Some (m_hash m, header) /\ bh_number header = m_block m /\ bh_hash header = m_hash m) /\
  (forall resume, m_resume m = Some resume -> rp_l2_block resume <= m_block m).

Lemma finalize_total (env : FinalizeEnv) (m : Manifest) (history_from : Z) (w : Work) :
  quiet w -> finishable m (w_dir w) -> Forall (fun run => sr_end run = Ok tt) (fe_stages env) ->
  twp (stage_commits (fe_stages env) + 4) (finalize env m history_from) (fun _ w' => quiet w') w.
Proof.
  intros Hq (Hi & (header & Hs & Hnum & Hhash) & Hres) Hok. unfold finalize. apply twp_bind.
  eapply twp_mono; [by apply run_stages_total|]. intros [] w1 [Hq1 Hw1].
  apply (twp_bind 0 4), twp_dir. rewrite Hw1. apply (twp_bind 0 4). eapply (twp_lift _ (m_hash m, header)); [by rewrite Hs|]. cbv beta iota. rewrite Z.eqb_refl. cbn [negb].
  apply (twp_bind 1 3), twp_commit; [done|]. intros w2 Hq2 Hw2.
  assert (Hi2 : dd_complete (w_dir w2) = None) by (rewrite Hw2; cbn; by rewrite Hw1).
  apply (twp_bind 2 1). unfold write_resume_log.
  assert (Hlast : forall w3, quiet w3 -> dd_complete (w_dir w3) = None ->
    twp 1 (write_snapshot_import_manifest (m_block m) (m_hash m) header) (fun _ w' => quiet w') w3).
  { intros w3 Hq3 Hi3. unfold write_snapshot_import_manifest. rewrite Hnum, Hhash, !Z.eqb_refl. cbn [andb negb].
    apply (twp_bind 0 1), twp_dir. rewrite Hi3. by apply twp_commit. }
  destruct (m_resume m) as [resume|]; [|eapply twp_le; [by apply twp_ret, Hlast|lia]].
  destruct (Z.ltb_spec (m_block m) (rp_l2_block resume)) as [Hlt|_]; [specialize (Hres _ eq_refl); lia|].
  apply (twp_bind 1 1), twp_commit; [done|]. intros w0 Hq0 Hw0. apply twp_commit; [done|].
  intros w3 Hq3 Hw3. apply Hlast; [done|]. by rewrite Hw3, Hw0.
Qed.

Lemma compute_state_root_total (chunks : nat) (root : Datadir -> result string Z) (r : Z) (w : Work) :
  quiet w -> root (w_dir w) = Ok r ->
  twp (chunks + 1) (compute_state_root_chunked chunks root) (fun r' w' => r' = r /\ quiet w' /\ w_dir w' = w_dir w) w.
Proof.
  intros Hq Hr. unfold compute_state_root_chunked. apply twp_bind. eapply twp_mono; [by apply twp_iter_commit|].
  intros [] w1 [Hq1 Hw1]. apply (twp_bind 0 1), twp_dir. rewrite Hw1. apply (twp_bind 0 1). eapply twp_lift; [exact Hr|].
  apply (twp_bind 1 0), twp_commit; [done|]. intros w2 Hq2 Hw2. apply twp_ret. cbn in Hw2. by rewrite Hw2, Hw1.
Qed.

Lemma read_records_pulls (n : nat) (s s' : SnapshotStream) (rs : list SnapshotRecord) :
  read_records n s = Ok (rs, s') -> (length rs < n)%nat -> exists s1, pulls s rs s1 /\ next_record s1 = Ok (None, s').
Proof.
  revert s rs. induction n as [|n IH]; intros s rs H Hn; [lia|]. cbn [read_records] in H.
  apply rbind_Ok in H as ([o s1] & Hr & H). destruct o as [r|].
  - apply rbind_Ok in H as ([rs' s2] & Hrs & H). injection H as <- <-. cbn [length] in Hn.
    destruct (IH _ _ Hrs) as (s3 & Hp & He); [lia|]. exists s3. split; [by econstructor|done].
  - injection H as <- <-. exists s. split; [constructor|done].
Qed.

Lemma lay_out_valid (top : Z) (lb : option (Z * Z)) (objs : list HistoryObject) (at_ number post : Z) :
  valid_from top lb (Some (number, post)) (History <$> objs) -> at_ <= number + 1 ->
  Forall (fun o => 0 <= ho_block o < U64_MAX) objs -> exists r, lay_out_history at_ objs = Ok r.
Proof.
  intros Hv Hat Hb. revert at_ number post Hv Hat. induction Hb as [|o objs Ho _ IH]; intros at_ number post Hv Hat; [by eexists|].
  cbn [fmap list_fmap valid_from valid_record next_block next_history] in Hv. destruct Hv as [(_ & Hlt & _) Hv].
  cbn [lay_out_history]. destruct (Z.ltb_spec (ho_block o) at_); [lia|].
  unfold wrapping_add. rewrite wrap64_small by (unfold is_u64, U64_MAX in *; lia).
  destruct (IH (ho_block o + 1) _ _ Hv) as ([[x y] e] & ->); [lia|]. by eexists.
Qed.

Context (trie_root : gmap Z AccountInfo -> gset (Z * Z * Z) -> result string Z).

(** A stream that the exporter wrote, of a chain whose blocks, history and state agree, and an
    environment that lets the import run. *)
Record importable (env : ImportEnv) (m : Manifest) (bs : list SnapshotRecord) (hs : list HistoryObject)
    (ss : list SnapshotRecord) (bl : list PendingBlock) (recs : list (Z * ArbReceiptEnvelope)) (st : StateLoop) : Prop := {
  ib_fresh : ie_fresh env = Ok tt;
  ib_setup : ie_setup env = Ok tt;
  ib_stages : Forall (fun run => sr_end run = Ok tt) (fe_stages (ie_finalize env));
  ib_stream : ie_stream env = Ok (build m bs hs ss);
  ib_manifest : manifest_fits m /\ m_block m < U64_MAX;
  ib_sections : Forall (fun r => section_of r = SECTION_BLOCKS) bs /\ Forall (fun r => section_of r = SECTION_STATE) ss;
  ib_fits : Forall record_fits (bs ++ (History <$> hs) ++ ss);
  ib_linked : valid_from (m_block m) None None (bs ++ (History <$> hs) ++ ss);
  (** The blocks agree with their headers and end at the convert point. *)
  ib_blocks : assemble bs = Ok bl /\ number_receipts 0 bl = Ok recs /\ bl <> [] /\
    bs_last_block (fold_left count_block bl block_stats_default) = m_block m;
  ib_head : finishable m (append_blocks bl recs empty_datadir);
  (** The history ends at the convert point's root and does not start before the blocks. *)
  ib_history : fold_history None (History <$> hs) = Some (m_block m, m_root m) /\
    (forall o, head hs = Some o -> bs_first_block (fold_left count_block bl block_stats_default) <= ho_block o);
  (** The state has its code and the convert point's root. *)
  ib_state : state_of ss = Ok st /\ ss_accounts (sl_stats st) <> 0 /\ sl_wanted st ⊆ sl_provided st;
  ib_root : dir_root trie_root (fold_left apply_op (sl_ops st) empty_datadir) = Ok (m_root m)
}.

Lemma fold_history_last (hs : list HistoryObject) (lh : option (Z * Z)) (o : HistoryObject) :
  last hs = Some o -> fold_history lh (History <$> hs) = Some (ho_block o, ho_post_root o).
Proof.
  destruct hs as [|o' hs] using rev_ind; [done|]. rewrite last_snoc. intros [= ->]. unfold fold_history.
  rewrite fmap_app, fold_left_app. done.
Qed.

Lemma fold_history_other (rs : list SnapshotRecord) (lh : option (Z * Z)) :
  Forall (fun r => is_history r = false) rs -> fold_history lh rs = lh.
Proof. unfold fold_history. intros H. revert lh. induction H as [|r rs Hr _ IH]; intros lh; [done|]. destruct r; cbn in *; try done; apply IH. Qed.

(** The tables that a state section writes do not depend on the others. *)
Lemma apply_ops_tables (ops : list StateOp) (d d' : Datadir) :
  dd_hashed_accounts d = dd_hashed_accounts d' -> dd_hashed_storages d = dd_hashed_storages d' ->
  dir_root trie_root (fold_left apply_op ops d) = dir_root trie_root (fold_left apply_op ops d').
Proof.
  revert d d'. induction ops as [|op ops IH]; intros d d' Ha Hs; cbn [fold_left]; [unfold dir_root; by rewrite Ha, Hs|].
  apply IH; destruct op; cbn; by rewrite ?Ha, ?Hs.
Qed.

(** The exported stream, as the sections' loops meet it. *)
Record stream_parts (m : Manifest) (bs : list SnapshotRecord) (o : HistoryObject) (objs : list HistoryObject)
    (r : SnapshotRecord) (srs : list SnapshotRecord) (s0 : SnapshotStream) : Prop := {
  sp_manifest : manifest s0 = m;
  sp_drains : drains s0 (bs ++ (History <$> o :: objs) ++ r :: srs);
  sp_length : (length (bs ++ (History <$> o :: objs) ++ r :: srs) <= length (inner s0))%nat;
  sp_pulls : exists a a' c c' e e',
    pulls s0 bs a /\ next_record a = Ok (Some (History o), a') /\
    pulls (unread a' (History o)) (History <$> o :: objs) c /\ next_record c = Ok (Some r, c') /\
    check_history_meets_state (unread c' r) = Ok tt /\
    pulls (unread c' r) (r :: srs) e /\ next_record e = Ok (None, e')
}.

Lemma section_not_history (r : SnapshotRecord) :
  section_of r = SECTION_BLOCKS \/ section_of r = SECTION_STATE -> is_history r = false.
Proof. destruct r; cbn; intros [?|?]; done. Qed.

(** The history seen by a reader at the end of the history section. *)
Lemma history_met (s0 c c' : SnapshotStream) (bs hs : list SnapshotRecord) (r : SnapshotRecord) :
  between s0 -> last_history s0 = None -> Forall (fun r => is_history r = false) bs -> is_history r = false ->
  pulls s0 (bs ++ hs) c -> next_record c = Ok (Some r, c') ->
  fold_history None hs = Some (m_block (manifest s0), m_root (manifest s0)) -> check_history_meets_state (unread c' r) = Ok tt.
Proof.
  intros (Hh & Hb & Hm) Hlh Hbs Hr Hp Hn Hf. pose proof (pulls_read_records _ _ _ (pulls_snoc _ _ _ _ _ Hp Hn)) as Hrec.
  apply read_records_valid in Hrec as (_ & _ & _ & Em & _ & _ & Elh); [|done..].
  assert (fold_history (last_history s0) ((bs ++ hs) ++ [r]) = Some (m_block (manifest s0), m_root (manifest s0))) as He.
  { rewrite Hlh. unfold fold_history in *. rewrite !fold_left_app. fold (fold_history None bs). rewrite fold_history_other by done.
    rewrite Hf. by destruct r. }
  unfold check_history_meets_state. cbn [unread last_history manifest]. rewrite Elh, He, Em, !Z.eqb_refl. done.
Qed.

Lemma importable_parts (env : ImportEnv) (m : Manifest) (bs : list SnapshotRecord) (hs : list HistoryObject)
    (ss : list SnapshotRecord) (bl : list PendingBlock) (recs : list (Z * ArbReceiptEnvelope)) (st : StateLoop) :
  importable env m bs hs ss bl recs st ->
  exists s0 o objs r srs, open (build m bs hs ss) = Ok s0 /\ between s0 /\ hs = o :: objs /\ ss = r :: srs /\
    stream_parts m bs o objs r srs s0.
Proof.
  intros [_ _ _ _ [Hmf Hmax] [Hsb Hss] Hfit Hv _ _ [Hfh _] (Hst & Hne & _) _].
  assert (exists s0, open (build m bs hs ss) = Ok s0 /\ manifest s0 = m) as (s0 & Hopen & Hman)
    by (rewrite build_bytes, open_new by done; by eexists).
  destruct (open_between _ _ Hopen) as (Hb & _ & Hlh); [by rewrite Hman|].
  assert (read_records (length bs + (length (History <$> hs) + (length ss + 1))) s0
    = Ok (bs ++ (History <$> hs) ++ ss, exhausted m (bs ++ (History <$> hs) ++ ss))) as Hread.
  { apply (read_records_build m bs hs ss 0); try done. rewrite <- Hopen. f_equal.
    rewrite build_bytes at 1. rewrite drop_app_length. symmetry. apply build_bytes. }
  apply read_records_pulls in Hread as (e & Hp & He); [|rewrite !length_app; lia].
  destruct hs as [|o objs]; [done|]. destruct ss as [|r srs]; [cbn in Hst; injection Hst as <-; done|].
  exists s0, o, objs, r, srs. split_and!; try done. split; [done|by eexists _, _|by eapply pulls_length|].
  apply pulls_app_inv in Hp as (a & Ha & Hp). apply pulls_app_inv in Hp as (c & Hc & Hp).
  inversion Hc as [|? ? a' ? ? Hna Hpa]; subst. inversion Hp as [|? ? c' ? ? Hnc Hpc]; subst.
  assert (Hr : is_history r = false) by (inversion Hss; subst; apply section_not_history; by right).
  exists a, a', c, c', e, (exhausted (manifest s0) (bs ++ (History <$> o :: objs) ++ r :: srs)). split_and!; try done.
  - apply pulls_unread with a; [by eapply pulls_between|done|exact Hpa].
  - eapply (history_met s0 c c' bs (History <$> o :: objs)); try done.
    + eapply List.Forall_impl; [|exact Hsb]. intros x Hx. apply section_not_history. by left.
    + by eapply pulls_app.
  - apply pulls_unread with c; [|done|done]. eapply pulls_between; [|exact Hc]. by eapply pulls_between.
Qed.

Lemma history_laid_out (m : Manifest) (bs : list SnapshotRecord) (o : HistoryObject) (objs : list HistoryObject)
    (ss : list SnapshotRecord) (s0 : SnapshotStream) :
  between s0 -> drains s0 (bs ++ (History <$> o :: objs) ++ ss) ->
  valid_from (m_block m) None None (bs ++ (History <$> o :: objs) ++ ss) ->
  fold_history None (History <$> o :: objs) = Some (m_block m, m_root m) ->
  (exists x y e, lay_out_history (ho_block o) (o :: objs) = Ok (x, y, e)) /\
  hs_last_block (count_objects (ho_block o) (set_first_block (ho_block o) history_stats_default) (o :: objs)) = m_block m.
Proof.
  intros Hb Hdr Hv Hfh. pose proof (history_valid s0 m _ _ _ Hb Hdr) as Hobj. inversion Hobj as [|? ? Ho Hobjs]; subst. split.
  - apply valid_from_app in Hv as [_ Hv]. apply valid_from_app in Hv as [Hv _]. destruct Hv as [_ Hv].
    cbn [lay_out_history]. rewrite Z.ltb_irrefl. unfold wrapping_add. rewrite wrap64_small by (unfold is_u64, U64_MAX in *; lia).
    destruct (lay_out_valid _ _ objs (ho_block o + 1) _ _ Hv) as ([[x y] e] & ->); [lia|done|]. by do 3 eexists.
  - destruct (last (o :: objs)) as [ol|] eqn:Hol; [|by destruct objs using rev_ind; rewrite ?app_comm_cons, ?last_snoc in Hol].
    rewrite (count_objects_last _ _ _ _ Hol). rewrite (fold_history_last _ _ _ Hol) in Hfh. by injection Hfh.
Qed.

(** The history and the state leave what finishing reads. *)
Lemma finishable_state (m : Manifest) (start : option Z) (x : list (Z * list AccountBeforeTx)) (y : list (Z * list StorageBeforeTx))
    (ops : list StateOp) (d : Datadir) :
  finishable m d -> finishable m (set_renamed (fold_left apply_op ops (append_history start x y d))).
Proof.
  intros (Hc & (header & Hs & Hh) & Hr). destruct (apply_ops_frame ops (append_history start x y d)) as (Fh & _).
  split; [cbn; by rewrite apply_ops_complete|]. split; [|done]. exists header. split; [|done].
  unfold sealed_header in *. cbn [set_renamed dd_headers]. by rewrite Fh.
Qed.

Definition import_commits (env : ImportEnv) (bs : list SnapshotRecord) (hs : list HistoryObject) (ss : list SnapshotRecord) : nat :=
  S (length bs) + (S (length hs) + (S (S (length ss)) + (ie_chunks env + 1 + (1 + (stage_commits (fe_stages (ie_finalize env)) + 4))))).

Lemma import_full_total (env : ImportEnv) (m : Manifest) (bs : list SnapshotRecord) (hs : list HistoryObject)
    (ss : list SnapshotRecord) (bl : list PendingBlock) (recs : list (Z * ArbReceiptEnvelope)) (st : StateLoop) (w : Work) :
  importable env m bs hs ss bl recs st -> quiet w -> w_dir w = empty_datadir ->
  twp (import_commits env bs hs ss) (import_full trie_root env) (fun _ w' => quiet w') w.
Proof.
  intros Him Hq Hw. destruct (importable_parts _ _ _ _ _ _ _ _ Him) as (s0 & o & objs & r & srs & Hopen & Hb & -> & -> & [Hman Hdr Hlen Hparts]).
  destruct Him as [Hfr Hse Hstg Hstr [_ Hmax] [Hsb Hss] _ Hv (Ha & Hrec & Hne & Hlast) Hhead [Hfh Hfirst] (Hst & Hacc & Hsub) Hroot].
  destruct Hparts as (a & a' & c & c' & e & e' & P1 & N1 & P2 & N2 & Hmeet & P3 & N3).
  rewrite !length_app, length_fmap in Hlen. unfold import_full, import_commits.
  apply (twp_bind 0). eapply twp_lift; [exact Hfr|]. apply (twp_bind 0). eapply twp_lift; [exact Hstr|].
  apply (twp_bind 0). eapply twp_lift; [by rewrite Hopen|]. apply (twp_bind 0). eapply twp_lift; [exact Hse|]. rewrite Hman.
  assert (Hfuel : (length bs + length (o :: objs) + length (r :: srs) < stream_fuel s0)%nat) by (unfold stream_fuel; lia).
  destruct (history_laid_out m bs o objs (r :: srs) s0 Hb Hdr Hv Hfh) as ((x & y & en & Hlay) & Hhl).
  apply (twp_bind (S (length bs))). eapply twp_mono; [eapply (write_blocks_total _ bs s0 a a' _ bl recs); try done; [by intros ? [= <-]|lia]|].
  intros [s1 stats] w1 (-> & -> & Hq1 & Hw1). apply (twp_bind (S (length (o :: objs)))).
  eapply twp_mono; [eapply (write_history_total (append_blocks bl recs empty_datadir) _ o objs _ c c' (Some r)); try done; [|lia]|].
  { intros ? [= <-]. inversion Hss; subst. apply section_not_history. by right. }
  intros [s2 hstats] w2 (-> & -> & Hq2 & Hw2). rewrite count_objects_first. cbn [set_first_block hs_first_block].
  destruct (Z.ltb_spec (ho_block o) (bs_first_block (fold_left count_block bl block_stats_default))); [specialize (Hfirst _ eq_refl); lia|].
  apply (twp_bind (S (S (length (r :: srs))))). eapply twp_mono; [eapply (write_state_total _ _ (r :: srs) _ e e' st); try done; lia|].
  intros _s w3 (Hq3 & Hw3). clear _s. apply (twp_bind (ie_chunks env + 1)).
  eapply twp_mono; [apply (compute_state_root_total _ _ (m_root m)); [done|]|].
  { rewrite Hw3, <- Hroot. by apply apply_ops_tables. }
  intros root w4 (-> & Hq4 & Hw4). rewrite Z.eqb_refl. cbn [negb]. apply (twp_bind 1), twp_commit; [done|]. intros w5 Hq5 Hw5.
  apply finalize_total; [done| |done]. rewrite Hw5, Hw4, Hw3. by apply finishable_state.
Qed.

(** A stream has one sequence of records. *)
Lemma drains_fun (s : SnapshotStream) (rs rs' : list SnapshotRecord) : drains s rs -> drains s rs' -> rs = rs'.
Proof.
  intros (a & b & Hp & Hn) (a' & b' & Hp' & Hn'). revert rs' Hp'.
  induction Hp as [s|s r s1 rs s2 Hr _ IH]; intros rs' Hp'; inversion Hp' as [|? r' s3 rs3 ? Hr' Hp3]; subst; [done|congruence..|].
  rewrite Hr in Hr'. injection Hr' as <- <-. f_equal. by apply IH.
Qed.

(** C23. An exported snapshot is imported. The stream that the builder writes for a chain whose blocks
    match their headers, whose history ends at the convert point's state and whose state has the
    convert point's root is imported: into a fresh datadir, with no failing commit, setup or stage, [import_full] returns within a number
    of commits that the stream's length bounds, never for want of fuel, and the datadir is complete
    and holds the headers, bodies, receipts, history and state of exactly the exported records, with
    the changeset files and the resume log in place. *)
Theorem exported_snapshot_imports (env : ImportEnv) (m : Manifest) (bs : list SnapshotRecord) (hs : list HistoryObject)
    (ss : list SnapshotRecord) (bl : list PendingBlock) (recs : list (Z * ArbReceiptEnvelope)) (st : StateLoop) (n : nat) :
  importable env m bs hs ss bl recs st -> (import_commits env bs hs ss <= n)%nat ->
  exists w n', import_full trie_root env ({| w_dir := empty_datadir; w_faults := [] |}, n) = (Ret tt, (w, n')) /\
    (n <= n' + import_commits env bs hs ss)%nat /\
    (exists first s_lo, consistent trie_root m (bs ++ (History <$> hs) ++ ss) first s_lo (w_dir w)) /\
    in_place m (w_dir w).
Proof.
  intros Him Hn. pose proof (import_full_total env m bs hs ss bl recs st {| w_dir := empty_datadir; w_faults := [] |} Him eq_refl eq_refl) as Ht.
  destruct (importable_parts _ _ _ _ _ _ _ _ Him) as (s0 & o & objs & r & srs & Hopen & Hb & -> & -> & Hparts).
  pose proof (ib_stream _ _ _ _ _ _ _ _ Him) as Hstr. destruct Hparts as [Hman Hdr _ _].
  eapply twp_wp in Ht; [|apply import_full_spec; [done|]].
  - destruct (Ht n Hn) as ([] & w & n' & Hrun & Hle & _ & Hi & Hp). exists w, n'. split_and!; [done|done| |].
    + destruct Hi as (input & s & rs & first & s_lo & Hin & Ho & Hd & Hc). exists first, s_lo.
      rewrite Hstr in Hin. injection Hin as <-. rewrite Hopen in Ho. injection Ho as <-. rewrite Hman in Hc.
      by rewrite <- (drains_fun _ _ _ Hd Hdr).
    + rewrite <- Hman. by eapply Hp.
  - intros input s Hi Ho. rewrite Hstr in Hi. injection Hi as <-. rewrite Hopen in Ho. injection Ho as <-.
    by destruct Hb as (_ & _ & ?).
Qed.
End Total.

Module SampleExport.
Import SnapshotFullSafety.Sample.
#[local] Existing Instance Reference.keccak.
#[local] Existing Instance StoredReceipt.FixedWidth.codec.

Definition ok_or_default {A : Type} (d : A) (r : result string A) : A :=
  match r with
  | Ok a => a
  | Err _ => d
  end.

Definition is_ok {A : Type} (r : result string A) : bool :=
  match r with
  | Ok _ => true
  | Err _ => false
  end.

Lemma is_ok_default {A : Type} (d : A) (r : result string A) : is_ok r = true -> r = Ok (ok_or_default d r).
Proof. by destruct r. Qed.

Definition bl : list PendingBlock := ok_or_default [] (assemble blocks).
Definition recs : list (Z * ArbReceiptEnvelope) := ok_or_default [] (number_receipts 0 bl).
Definition st : StateLoop := ok_or_default state_start (state_of state).

Lemma sample_fit : Forall record_fits (blocks ++ (History <$> objects) ++ state).
Proof.
  unfold blocks, state, objects. cbn [fmap list_fmap app].
  repeat constructor; vm_compute; try reflexivity; try discriminate; try (split; [discriminate|reflexivity]).
Qed.

Lemma sample_linked : valid_from (m_block m) None None (blocks ++ (History <$> objects) ++ state).
Proof.
  unfold blocks, state, objects. cbn [fmap list_fmap app valid_from valid_record next_block next_history].
  repeat split; try (eexists; split; [vm_compute; reflexivity|]); vm_compute; try reflexivity; try discriminate; try exact I; split; reflexivity.
Qed.

Lemma sample_importable : importable trie env m blocks objects state bl recs st.
Proof.
  split.
  - done.
  - done.
  - repeat constructor.
  - reflexivity.
  - split; [by vm_compute; repeat split|by vm_compute].
  - split; repeat constructor.
  - exact sample_fit.
  - exact sample_linked.
  - split; [apply is_ok_default; vm_compute; reflexivity|]. split; [apply is_ok_default; vm_compute; reflexivity|].
    split; [|vm_compute; reflexivity]. intros Hbl. apply (f_equal length) in Hbl. vm_compute in Hbl. discriminate Hbl.
  - split; [reflexivity|]. split; [|by intros resume [= <-]]. exists header2. split; [vm_compute; reflexivity|]. split; vm_compute; reflexivity.
  - split; [reflexivity|]. intros o [= <-]. vm_compute. discriminate.
  - split; [apply is_ok_default; vm_compute; reflexivity|]. split; [vm_compute; discriminate|]. apply (bool_decide_unpack _). vm_compute. exact I.
  - vm_compute. reflexivity.
Qed.

Lemma exported_snapshot_imports_witness :
  exists w n', import_full trie env ({| w_dir := empty_datadir; w_faults := [] |}, 40%nat) = (Ret tt, (w, n')) /\
    (40 <= n' + import_commits env blocks objects state)%nat /\
    (exists first s_lo, consistent trie m (blocks ++ (History <$> objects) ++ state) first s_lo (w_dir w)) /\
    in_place m (w_dir w).
Proof.
  exact (exported_snapshot_imports trie env m blocks objects state bl recs st 40 sample_importable ltac:(vm_compute; lia)).
Defined.

(** [finalize_datadir] on the datadir of a run that stopped before its state section. *)
Definition finish_early : Result string unit * (Work * nat) :=
  finalize_datadir
    {| fn_names := Ok ["static_file_account-change-sets_0_499999"%string]; fn_setup := Ok tt; fn_finalize := ie_finalize env |}
    ({| w_dir := w_dir (fst (snd (run 2))); w_faults := [] |}, 40%nat).

(** It completes the datadir: the manifest names the state root of the head's header, which the
    tables, that hold no account, do not have; and the stream's resume point is lost. *)
Theorem finalize_datadir_unchecked :
  fst (run 2) = Crashed /\ fst finish_early = Ret tt /\
  im_state_root <$> dd_complete (w_dir (fst (snd finish_early))) = Some 1011 /\
  dir_root trie (w_dir (fst (snd finish_early))) = Ok 1000 /\
  dd_resume (w_dir (fst (snd finish_early))) = NoFile /\ is_Some (m_resume m).
Proof. do 5 (split; [vm_compute; reflexivity|]). by eexists. Qed.

(** A header with transactions and no body record makes a block: nothing is compared with its roots. *)
Theorem block_without_body_unchecked :
  option_map pb_body (head (ok_or_default [] (assemble [Header 300 (Reference.digest header1) header1]))) = Some None /\
  bh_transactions_root header1 <> calculate_transaction_root ([] : list Transaction).
Proof. split; vm_compute; [reflexivity|discriminate]. Qed.
End SampleExport.
