(* ===== verification/HeadImport.v ===== *)
(** * The head-state importer and the launch check

    [crates/arb-reth-node/src/commands/snapshot.rs]: a Nitro state stream of text lines becomes the
    hashed tables of a datadir, after a pass that checks the whole stream; the head header, its
    checkpoints and the completion manifest follow, and the launch check reads the manifests back.
    The tables and the commits are [SnapshotFull]'s, the sidecar of slot preimages is [Preimages]'s.
    The hexadecimal codecs, the header codec and Reth's genesis check are parameters. *)

From Stdlib Require Import Strings.Byte Strings.Ascii Strings.String.
From stdpp Require Import base list numbers option strings gmap.
From S2P Require Import Prelude External Text Crash StorageV2 StoredReceipt SnapshotStream SnapshotFull Preimages.

(** [hex::decode], [U256::from_str_radix(_, 16)], and what arb_revm reads from a header. *)
Class HeadCodec {BC : BlockCodec} := {
  hex_decode : string -> option bytes;
  u256_from_hex : string -> option Z;
  (** [ArbHeaderInfo::decode_header]: the ArbOS format version. *)
  arbos_format_version : BlockHeader -> option Z;
  (** [ArbSpecId::from_arbos_version(v).is_enabled_in(ArbSpecId::ARBOS_20)] *)
  arbos_20_enabled : Z -> bool
}.

Definition COMMIT_THRESHOLD : nat := 100000.
Definition KECCAK_EMPTY : Z := 0xc5d2460186f7233c927e7db2dcc703c0e500b653ca82273b7bfad8045d85a470.
Definition SNAPSHOT_IMPORT_MANIFEST_VERSION : Z := 1.
Definition GENESIS_STATE_ROOT : Z := 0x7f2bfc4481d02bfcfc606ebb949384ef78d03a0f30a2dc9cccd652eb80926ae1.
Definition GENESIS_BLOCK_HASH : Z := 0x7d237dd685b96381544e223f8906e35645d63b89c19983f2246db48568c07986.

Section Importer.
Context {K : Keccak} {BC : BlockCodec} {RC : ReceiptCodec} {HC : HeadCodec}.

Abbreviation IO := (M Work string).

(** ** Lines *)

(** [B256::from_slice] of other than 32 bytes panics. *)
Definition parse_b256 (hex_str : string) : result string Z :=
  let s := trim_hex_prefix hex_str in
  if negb (String.length s =? 64)%nat then Err "expected 64 hex chars"%string
  else
    let? bs := ok_or "invalid hex"%string (hex_decode s) in
    if (length bs =? 32)%nat then Ok (be_decode bs) else Err "panic"%string.

Inductive StateRecord :=
  | AccountRecord (account_hash : Z) (account : AccountInfo)
  | CodeRecord (code_hash : Z) (bytecode : bytes)
  | StorageRecord (slot_hash value : Z).

(** The next field of a line. *)
Definition next_field (parts : list string) : result string (string * list string) :=
  match parts with
  | [] => Err "missing field"%string
  | field :: parts => Ok (field, parts)
  end.

Definition parse_account_fields (parts : list string) : result string (StateRecord * list string) :=
  let? '(field, parts) := next_field parts in
  let? account_hash := parse_b256 field in
  let? '(field, parts) := next_field parts in
  let? nonce := ok_or "bad nonce"%string (parse_u64 field) in
  let? '(field, parts) := next_field parts in
  let? balance := ok_or "bad balance"%string (u256_from_hex (trim_hex_prefix field)) in
  let? '(field, parts) := next_field parts in
  let? code_hash := parse_b256 field in
  let? '(field, parts) := next_field parts in
  let? _ := parse_b256 field in
  Ok (AccountRecord account_hash
        {| ai_nonce := nonce; ai_balance := balance;
           ai_bytecode_hash := if code_hash =? KECCAK_EMPTY then None else Some code_hash |}, parts).

Definition parse_code_fields (parts : list string) : result string (StateRecord * list string) :=
  let? '(field, parts) := next_field parts in
  let? code_hash := parse_b256 field in
  let? '(field, parts) := next_field parts in
  let? code := ok_or "bad code hex"%string (hex_decode field) in
  if negb (keccak256 code =? code_hash) then Err "bytecode hash mismatch"%string
  else Ok (CodeRecord code_hash code, parts).

Definition parse_storage_fields (parts : list string) : result string (StateRecord * list string) :=
  let? '(field, parts) := next_field parts in
  let? slot_hash := parse_b256 field in
  let? '(field, parts) := next_field parts in
  let? value := ok_or "bad value"%string (u256_from_hex (trim_hex_prefix field)) in
  Ok (StorageRecord slot_hash value, parts).

(** A blank line has no words. *)
Definition parse_state_record (line : string) : result string (option StateRecord) :=
  match split_whitespace line with
  | [] => Ok None
  | tag :: parts =>
      let? '(record, parts) :=
        (if decide (tag = "A"%string) then parse_account_fields parts
         else if decide (tag = "C"%string) then parse_code_fields parts
         else if decide (tag = "S"%string) then parse_storage_fields parts
         else Err "unknown state record"%string) in
      match parts with
      | [] => Ok (Some record)
      | _ :: _ => Err "unexpected trailing fields"%string
      end
  end.

(** ** The pass over the whole stream *)

(** The lookups of the open sidecar. *)
Abbreviation Preimage := (Z -> result string (option Z)).

Definition require_slot_preimage (get : Preimage) (hashed_slot : Z) : result string Z :=
  let? found := get hashed_slot in
  let? plain_slot := ok_or "missing preimage"%string found in
  if negb (hash_slot plain_slot =? hashed_slot) then Err "corrupt preimage"%string else Ok plain_slot.

Definition check_preimage (preimages : option Preimage) (slot_hash : Z) : result string unit :=
  match preimages with
  | Some get => let? _ := require_slot_preimage get slot_hash in Ok tt
  | None => Ok tt
  end.

Record StateStreamStats := { st_accounts : Z; st_slots : Z; st_bytecodes : Z }.

Record Preflight := {
  pf_stats : StateStreamStats; pf_saw_account : bool; pf_required : gset Z; pf_provided : gset Z
}.

Definition preflight_start : Preflight := {|
  pf_stats := {| st_accounts := 0; st_slots := 0; st_bytecodes := 0 |}; pf_saw_account := false; pf_required := ∅; pf_provided := ∅
|}.

Definition preflight_record (preimages : option Preimage) (p : Preflight) (record : StateRecord) : result string Preflight :=
  let stats := pf_stats p in
  match record with
  | AccountRecord _ account =>
      Ok {| pf_stats := {| st_accounts := st_accounts stats + 1; st_slots := st_slots stats; st_bytecodes := st_bytecodes stats |};
            pf_saw_account := true;
            pf_required := match ai_bytecode_hash account with Some h => {[h]} ∪ pf_required p | None => pf_required p end;
            pf_provided := pf_provided p |}
  | CodeRecord code_hash _ =>
      Ok {| pf_stats := {| st_accounts := st_accounts stats; st_slots := st_slots stats; st_bytecodes := st_bytecodes stats + 1 |};
            pf_saw_account := pf_saw_account p; pf_required := pf_required p; pf_provided := {[code_hash]} ∪ pf_provided p |}
  | StorageRecord slot_hash value =>
      if negb (pf_saw_account p) then Err "S record before any A record"%string
      else if value =? 0 then Ok p
      else
        let? _ := check_preimage preimages slot_hash in
        Ok {| pf_stats := {| st_accounts := st_accounts stats; st_slots := st_slots stats + 1; st_bytecodes := st_bytecodes stats |};
              pf_saw_account := pf_saw_account p; pf_required := pf_required p; pf_provided := pf_provided p |}
  end.

(** A line read from the stream, or the error of reading it. *)
Abbreviation Line := (result string string).

Definition preflight_line (preimages : option Preimage) (p : Preflight) (line : Line) : result string Preflight :=
  let? line := line in
  let? record := parse_state_record line in
  match record with
  | None => Ok p
  | Some record => preflight_record preimages p record
  end.

Definition preflight_state_stream (lines : list Line) (preimages : option Preimage) : result string StateStreamStats :=
  let? p := try_fold (preflight_line preimages) lines preflight_start in
  if st_accounts (pf_stats p) =? 0 then Err "state stream contains no accounts"%string
  else if negb (bool_decide (pf_required p ⊆ pf_provided p)) then Err "state stream is missing bytecode record"%string
  else Ok (pf_stats p).

(** ** Writing the state *)

(** The writes of the open transaction, which [storage_units] counts, and the account of the slots. *)
Record StreamLoop := { il_ops : list StateOp; il_account : option Z }.

Definition commit_chunk (st : StreamLoop) : IO StreamLoop :=
  if (COMMIT_THRESHOLD <=? length (il_ops st))%nat then
    let! _ := commit (fun d => fold_left apply_op (il_ops st) d) in
    mret {| il_ops := []; il_account := il_account st |}
  else mret st.

Definition stream_record (preimages : option Preimage) (st : StreamLoop) (record : StateRecord) : IO StreamLoop :=
  match record with
  | AccountRecord account_hash account =>
      let! st := commit_chunk st in
      mret {| il_ops := il_ops st ++ [PutAccount account_hash account]; il_account := Some account_hash |}
  | CodeRecord code_hash bytecode =>
      let! st := commit_chunk st in
      mret {| il_ops := il_ops st ++ [PutBytecode code_hash bytecode]; il_account := il_account st |}
  | StorageRecord slot_hash value =>
      let! acct_hash := checked "S record before any A record" (il_account st) in
      if value =? 0 then mret st
      else
        let! _ := lift (check_preimage preimages slot_hash) in
        let! st := commit_chunk st in
        mret {| il_ops := il_ops st ++ [UpsertStorage acct_hash slot_hash value]; il_account := il_account st |}
  end.

Fixpoint stream_loop (preimages : option Preimage) (lines : list Line) (st : StreamLoop) : IO StreamLoop :=
  match lines with
  | [] => mret st
  | line :: lines =>
      let! line := lift line in
      let! record := lift (parse_state_record line) in
      match record with
      | None => stream_loop preimages lines st
      | Some record => let! st := stream_record preimages st record in stream_loop preimages lines st
      end
  end.

Definition stream_import (lines : list Line) (preimages : option Preimage) : IO unit :=
  let! st := stream_loop preimages lines {| il_ops := []; il_account := None |} in
  commit (fun d => fold_left apply_op (il_ops st) d).

(** ** The head *)

Record Head := { hd_number : Z; hd_hash : Z; hd_header : BlockHeader }.

(** A body or receipts record: checked, and not used. *)
Definition check_block_record (parts : list string) : result string unit :=
  let? '(field, parts) := next_field parts in
  let? _ := ok_or "bad number"%string (parse_u64 field) in
  let? '(field, parts) := next_field parts in
  let? encoded := ok_or "invalid hex"%string (hex_decode field) in
  match parts with
  | _ :: _ => Err "unexpected trailing fields"%string
  | [] =>
      let? '(header, input) := ok_or "decode record"%string (rlp_header_decode encoded) in
      if negb (rlp_list header) || negb (Z.of_nat (length input) =? rlp_payload_length header) then Err "invalid RLP"%string
      else Ok tt
  end.

Definition parse_header_fields (parts : list string) : result string Head :=
  let? '(field, parts) := next_field parts in
  let? num := ok_or "bad number"%string (parse_u64 field) in
  let? '(field, parts) := next_field parts in
  let? hash := parse_b256 field in
  let? '(field, parts) := next_field parts in
  let? rlp := ok_or "invalid hex"%string (hex_decode field) in
  match parts with
  | _ :: _ => Err "unexpected trailing fields"%string
  | [] =>
      let? '(header, input) := ok_or "decode header"%string (block_header_decode rlp) in
      if negb (bool_decide (input = [])) then Err "trailing bytes after header RLP"%string
      else if negb (bh_number header =? num) then Err "header number mismatch"%string
      else if negb (bh_hash header =? hash) then Err "header hash mismatch"%string
      else Ok {| hd_number := num; hd_hash := hash; hd_header := header |}
  end.

Definition parse_header_record (line : string) : result string (option Head) :=
  match split_whitespace line with
  | [] => Ok None
  | tag :: parts =>
      if bool_decide (tag = "B"%string) || bool_decide (tag = "R"%string) then
        let? _ := check_block_record parts in Ok None
      else if decide (tag = "H"%string) then
        let? head := parse_header_fields parts in Ok (Some head)
      else Err "unknown block record"%string
  end.

Definition better_head (best : option Head) (head : Head) : option Head :=
  match best with
  | Some b => if hd_number b <=? hd_number head then Some head else best
  | None => Some head
  end.

Definition head_line (best : option Head) (line : Line) : result string (option Head) :=
  let? line := line in
  let? record := parse_header_record line in
  match record with
  | None => Ok best
  | Some head => Ok (better_head best head)
  end.

Definition read_head_header (lines : list Line) : result string Head :=
  let? best := try_fold head_line lines None in
  ok_or "no H records"%string best.

Inductive SnapshotPreimagePolicy := CanonicalGenesisRequired | NotRequired.

Definition requires_preimages (policy : SnapshotPreimagePolicy) : bool :=
  match policy with
  | CanonicalGenesisRequired => true
  | NotRequired => false
  end.

Definition validate_snapshot_identity (expected : Z) (head : Head) : result string SnapshotPreimagePolicy :=
  let header := hd_header head in
  if negb ((bh_number header =? hd_number head) && (bh_hash header =? hd_hash head)) then
    Err "snapshot head contains an invalid number or block hash"%string
  else if negb (bh_state_root header =? expected) then Err "snapshot head state root does not match --expect"%string
  else
    let? version := ok_or "decode snapshot head ArbOS version"%string (arbos_format_version header) in
    if arbos_20_enabled version then Ok NotRequired
    else if negb ((hd_number head =? GENESIS_BLOCK_NUMBER) && (hd_hash head =? GENESIS_BLOCK_HASH) &&
                  (expected =? GENESIS_STATE_ROOT)) then
      Err "pre-ArbOS 20 snapshot requires a complete slot-preimage set"%string
    else Ok CanonicalGenesisRequired.

(** ** Manifests *)

Record SnapshotImportManifest := { sm_version : Z; sm_block_number : Z; sm_block_hash : Z; sm_state_root : Z }.

Definition validate_snapshot_import_manifest (manifest : SnapshotImportManifest) (head : Head) : result string unit :=
  let header := hd_header head in
  if negb (sm_version manifest =? SNAPSHOT_IMPORT_MANIFEST_VERSION) then Err "unsupported snapshot import manifest version"%string
  else if negb ((sm_block_number manifest =? hd_number head) && (sm_block_hash manifest =? hd_hash head) &&
                (sm_state_root manifest =? bh_state_root header)) then
    Err "snapshot import manifest does not match the supplied head stream"%string
  else if negb ((bh_number header =? hd_number head) && (bh_hash header =? hd_hash head)) then
    Err "snapshot head stream contains an invalid number or block hash"%string
  else Ok tt.

(** The preimage directory: its database file, and its manifest when the file is there. *)
Record PreimageDir := { pd_mdbx : bool; pd_manifest : option (result string SlotPreimageManifest) }.

Definition read_preimage_manifest (dir : PreimageDir) : result string SlotPreimageManifest :=
  let? file := ok_or "slot-preimage completion manifest is missing"%string (pd_manifest dir) in
  let? manifest := file in
  let? _ := preimage_manifest_validate manifest in
  Ok manifest.

(** Refuses a datadir of the new format whose import did not complete. *)
Definition validate_snapshot_import_for_launch (import_manifest : option (result string SnapshotImportManifest))
    (preimage : PreimageDir) (head : Head) : result string unit :=
  match import_manifest, pd_manifest preimage with
  | None, None => Ok tt
  | _, _ =>
      let? file := ok_or "snapshot import is incomplete: missing completion manifest"%string import_manifest in
      let? manifest := file in
      let? _ := validate_snapshot_import_manifest manifest head in
      let? policy := validate_snapshot_identity (bh_state_root (hd_header head)) head in
      if requires_preimages policy then
        if negb (pd_mdbx preimage) then Err "snapshot slot-preimage database is missing"%string
        else let? _ := read_preimage_manifest preimage in Ok tt
      else Ok tt
  end.

(** What is at the target: the resume log and its temporary file, the manifest, the entries of [db]
    and the other directories. *)
Record Target := {
  tg_resume : bool; tg_resume_tmp : bool; tg_manifest : bool; tg_db : option (result string (list (result string string)));
  tg_static_files : bool; tg_rocksdb : bool
}.

Fixpoint only_preimage (entries : list (result string string)) : result string unit :=
  match entries with
  | [] => Ok tt
  | entry :: entries =>
      let? name := entry in
      if decide (name = "preimage"%string) then only_preimage entries
      else Err "snapshot import requires a fresh target; unexpected path exists"%string
  end.

Definition ensure_fresh_import_target (t : Target) : result string unit :=
  if tg_resume t || tg_resume_tmp t then Err "snapshot import requires a fresh target; stale L1 resume metadata exists"%string
  else if tg_manifest t then Err "snapshot import requires a fresh target; completion manifest already exists"%string
  else
    let? _ := match tg_db t with
              | None => Ok tt
              | Some entries => let? entries := entries in only_preimage entries
              end in
    if tg_static_files t || tg_rocksdb t then Err "snapshot import requires a fresh target; remove the previous import"%string
    else Ok tt.

(** ** Writing the head *)

(** A header in its segment. *)
Definition append_head (head : Head) (d : Datadir) : Datadir := {|
  dd_headers := dd_headers d ++ [(hd_number head, hd_hash head, hd_header head)]; dd_header_numbers := dd_header_numbers d;
  dd_bodies := dd_bodies d; dd_receipts := dd_receipts d; dd_changeset_start := dd_changeset_start d;
  dd_account_changesets := dd_account_changesets d; dd_storage_changesets := dd_storage_changesets d;
  dd_hashed_accounts := dd_hashed_accounts d; dd_hashed_storages := dd_hashed_storages d; dd_bytecodes := dd_bytecodes d;
  dd_renamed := dd_renamed d; dd_checkpoints := dd_checkpoints d; dd_pruned_to := dd_pruned_to d; dd_resume := dd_resume d;
  dd_complete := dd_complete d
|}.

(** The expected start of the changeset segments, and an empty entry for the head. *)
Definition start_changesets (accounts : bool) (head_num : Z) (d : Datadir) : Datadir := {|
  dd_headers := dd_headers d; dd_header_numbers := dd_header_numbers d; dd_bodies := dd_bodies d; dd_receipts := dd_receipts d;
  dd_changeset_start := Some head_num;
  dd_account_changesets := if accounts then dd_account_changesets d ++ [(head_num, [])] else dd_account_changesets d;
  dd_storage_changesets := if accounts then dd_storage_changesets d else dd_storage_changesets d ++ [(head_num, [])];
  dd_hashed_accounts := dd_hashed_accounts d; dd_hashed_storages := dd_hashed_storages d; dd_bytecodes := dd_bytecodes d;
  dd_renamed := dd_renamed d; dd_checkpoints := dd_checkpoints d; dd_pruned_to := dd_pruned_to d; dd_resume := dd_resume d;
  dd_complete := dd_complete d
|}.

(** The database rows of the heads: numbers, empty bodies, every stage's checkpoint, and the history
    that is not there. *)
Definition head_rows (heads : list Head) (head_num : Z) (d : Datadir) : Datadir := {|
  dd_headers := dd_headers d;
  dd_header_numbers := fold_left (fun m h => <[hd_hash h := hd_number h]> m) heads (dd_header_numbers d);
  dd_bodies := dd_bodies d ++ ((fun h => (hd_number h, None)) <$> heads); dd_receipts := dd_receipts d;
  dd_changeset_start := dd_changeset_start d; dd_account_changesets := dd_account_changesets d;
  dd_storage_changesets := dd_storage_changesets d; dd_hashed_accounts := dd_hashed_accounts d;
  dd_hashed_storages := dd_hashed_storages d; dd_bytecodes := dd_bytecodes d; dd_renamed := dd_renamed d;
  dd_checkpoints := Some head_num; dd_pruned_to := Some head_num; dd_resume := dd_resume d; dd_complete := dd_complete d
|}.

Fixpoint write_head_loop (lines : list Line) (heads : list Head) (head_num head_hash : Z) : IO (list Head * Z * Z) :=
  match lines with
  | [] => mret (heads, head_num, head_hash)
  | line :: lines =>
      let! line := lift line in
      let! record := lift (parse_header_record line) in
      match record with
      | None => write_head_loop lines heads head_num head_hash
      | Some head =>
          let! _ := commit (append_head head) in
          if head_num <=? hd_number head then write_head_loop lines (heads ++ [head]) (hd_number head) (hd_hash head)
          else write_head_loop lines (heads ++ [head]) head_num head_hash
      end
  end.

Definition write_head_blocks (lines : list Line) : IO (Z * Z) :=
  let! '(heads, head_num, head_hash) := write_head_loop lines [] 0 0 in
  let! _ := commit (start_changesets true head_num) in
  let! _ := commit (start_changesets false head_num) in
  let! _ := commit (head_rows heads head_num) in
  mret (head_num, head_hash).

(** What Reth reads of a header segment at a block: the hash and the header. *)
Abbreviation SealedHeader := (list (Z * Z * BlockHeader) -> Z -> option (Z * BlockHeader)).

(** [best_block_number] is the checkpoint of the last stage. *)
Definition verify_head (sealed : SealedHeader) (head_num head_hash : Z) : IO unit :=
  let! d := dir in
  let! '(hash, _) := checked "no sealed header" (sealed (dd_headers d) head_num) in
  if bool_decide (dd_checkpoints d = Some head_num) && (hash =? head_hash) then mret tt else fail "head mismatch".

(** ** The command *)

Definition set_pruned (block : Z) (d : Datadir) : Datadir := {|
  dd_headers := dd_headers d; dd_header_numbers := dd_header_numbers d; dd_bodies := dd_bodies d; dd_receipts := dd_receipts d;
  dd_changeset_start := dd_changeset_start d; dd_account_changesets := dd_account_changesets d;
  dd_storage_changesets := dd_storage_changesets d; dd_hashed_accounts := dd_hashed_accounts d;
  dd_hashed_storages := dd_hashed_storages d; dd_bytecodes := dd_bytecodes d; dd_renamed := dd_renamed d;
  dd_checkpoints := dd_checkpoints d; dd_pruned_to := Some block; dd_resume := dd_resume d; dd_complete := dd_complete d
|}.

(** What the command meets. *)
Record HeadImportEnv := {
  he_expect : string;
  he_target : Target;
  he_blocks : list Line;
  he_state : list Line;
  he_preimage : PreimageDir;
  (** The open sidecar, and its lookups. *)
  he_open_preimages : result string Preimage;
  he_setup : result string unit;
  he_chunks : nat;
  he_sealed_header : SealedHeader;
  (** [init_genesis_with_settings_and_validate] over the datadir, for a chain with this head. *)
  he_init_genesis : Datadir -> Head -> result string Z;
  he_sync : result string unit
}.

Context (trie_root : gmap Z AccountInfo -> gset (Z * Z * Z) -> result string Z).

Definition open_preimages (env : HeadImportEnv) (policy : SnapshotPreimagePolicy) : result string (option Preimage) :=
  if requires_preimages policy then
    if negb (pd_mdbx (he_preimage env)) then Err "slot-preimage sidecar is missing"%string
    else
      let? _ := read_preimage_manifest (he_preimage env) in
      let? get := he_open_preimages env in
      Ok (Some get)
  else Ok None.

Definition verify_launch (env : HeadImportEnv) (head : Head) (head_hash : Z) : IO unit :=
  let! d := dir in
  let! got := lift (he_init_genesis env d head) in
  if got =? head_hash then mret tt else fail "init_genesis returned another hash".

Definition import (env : HeadImportEnv) : IO unit :=
  let! expected := lift (parse_b256 (he_expect env)) in
  let! _ := lift (ensure_fresh_import_target (he_target env)) in
  let! head := lift (read_head_header (he_blocks env)) in
  let! policy := lift (validate_snapshot_identity expected head) in
  let! preimages := lift (open_preimages env policy) in
  let! _ := lift (preflight_state_stream (he_state env) preimages) in
  let! _ := lift (he_setup env) in
  let! _ := stream_import (he_state env) preimages in
  let! computed := compute_state_root_chunked (he_chunks env) (dir_root trie_root) in
  if negb (computed =? expected) then fail "state root mismatch"
  else
    let! '(head_num, head_hash) := write_head_blocks (he_blocks env) in
    let! _ := verify_head (he_sealed_header env) head_num head_hash in
    let! _ := verify_launch env head head_hash in
    let! _ := commit set_renamed in
    let! _ := lift (he_sync env) in
    write_snapshot_import_manifest (hd_number head) (hd_hash head) (hd_header head).

(** ** Repairing the history boundary *)

(** Over a database with this best block and these prune checkpoints of account and storage history. *)
Definition repair_history (sealed : SealedHeader) (lines : list Line) (best : Z) (checkpoints : list (option Z)) : IO unit :=
  let! head := lift (read_head_header lines) in
  let! d := dir in
  if best <? hd_number head then fail "database head is below snapshot head"
  else
    let! '(hash, _) := checked "snapshot header is missing from the database" (sealed (dd_headers d) (hd_number head)) in
    if negb (hash =? hd_hash head) then fail "snapshot header hash mismatch"
    else if existsb (fun c => match c with Some block => hd_number head <? block | None => false end) checkpoints then
      fail "refusing to move checkpoint backward"
    else commit (fun d => set_pruned (hd_number head) d).
End Importer.
