(* ===== verification/HeadImportSafety.v ===== *)
(** * What the head-state importer leaves

    Over [HeadImport]: a stream that passes the first pass is written whole and as the full importer
    would write it, and only a whole import is marked complete and passes the launch check. *)

From Stdlib Require Import Strings.Byte Strings.Ascii Strings.String.
From stdpp Require Import base list numbers option strings gmap.
From S2P Require Import Prelude External Text Crash StorageV2 StoredReceipt SnapshotStream SnapshotFull SnapshotFullSafety SnapshotFullTotal Preimages HeadImport.

Section Records.
Context {K : Keccak} {BC : BlockCodec} {RC : ReceiptCodec} {HC : HeadCodec}.

(** ** The records of a stream *)

(** The record of the binary stream that says the same. *)
Definition to_stream (r : StateRecord) : SnapshotRecord :=
  match r with
  | AccountRecord h a => Account h (ai_nonce a) (ai_balance a) (ai_bytecode_hash a)
  | CodeRecord h code => Code h code
  | StorageRecord h v => Storage h v
  end.

Fixpoint state_lines (lines : list (result string string)) : result string (list StateRecord) :=
  match lines with
  | [] => Ok []
  | line :: lines =>
      let? line := line in
      let? record := parse_state_record line in
      let? records := state_lines lines in
      Ok (option_list record ++ records)
  end.

Lemma parse_state_record_code (line : string) (h : Z) (code : bytes) :
  parse_state_record line = Ok (Some (CodeRecord h code)) -> keccak256 code = h.
Proof.
  unfold parse_state_record. destruct (split_whitespace line) as [|tag parts]; [done|]. intros H.
  apply rbind_Ok in H as ([r rest] & Hr & H). destruct rest; [|done]. injection H as ->.
  unfold parse_account_fields, parse_code_fields, parse_storage_fields in Hr.
  repeat case_decide; [..|done]; ok_inv; simplify_eq. if_inv Hr. simplify_eq. by apply negb_false_iff, Z.eqb_eq in C.
Qed.

Lemma state_lines_code (lines : list (result string string)) (rs : list StateRecord) (h : Z) (code : bytes) :
  state_lines lines = Ok rs -> Code h code ∈ (to_stream <$> rs) -> keccak256 code = h.
Proof.
  revert rs. induction lines as [|line lines IH]; intros rs; cbn [state_lines]; [by intros [= <-] []%elem_of_nil|].
  intros H. apply rbind_Ok in H as (text & -> & H). apply rbind_Ok in H as (r & Hr & H).
  apply rbind_Ok in H as (rs' & Hrs & H). injection H as <-. rewrite fmap_app. intros [Hin|Hin]%elem_of_app; [|by eapply IH].
  destruct r as [r|]; cbn in Hin; [|by apply elem_of_nil in Hin]. apply list_elem_of_singleton in Hin.
  destruct r; cbn in Hin; try done. injection Hin as -> ->. by eapply parse_state_record_code.
Qed.

(** Of a slot that is written: its preimage is there when preimages are looked up. *)
Definition slot_ok (preimages : option (Z -> result string (option Z))) (r : StateRecord) : Prop :=
  match r with
  | StorageRecord h v => v <> 0 -> check_preimage preimages h = Ok tt
  | _ => True
  end.

Lemma check_preimage_Some (get : Z -> result string (option Z)) (h : Z) :
  check_preimage (Some get) h = Ok tt -> exists plain, get h = Ok (Some plain) /\ hash_slot plain = h.
Proof.
  unfold check_preimage, require_slot_preimage. intros H. apply rbind_Ok in H as (plain & H & _). apply rbind_Ok in H as (o & Hg & H).
  apply rbind_Ok in H as (p & Ho & H). apply ok_or_Ok in Ho. subst o. exists p. split; [done|].
  destruct (Z.eqb_spec (hash_slot p) h); [done|discriminate H].
Qed.

(** ** The pass before the import *)

(** The pass counts and collects what the full importer's state section does. *)
Definition pass_matches (p : Preflight) (st : StateLoop) : Prop :=
  pf_required p = sl_wanted st /\ pf_provided p = sl_provided st /\ st_accounts (pf_stats p) = ss_accounts (sl_stats st) /\
  st_slots (pf_stats p) = ss_slots (sl_stats st) /\ st_bytecodes (pf_stats p) = ss_bytecodes (sl_stats st) /\
  (pf_saw_account p = true -> is_Some (sl_account st)).

Lemma preflight_lines (preimages : option (Z -> result string (option Z))) (lines : list (result string string)) (p p' : Preflight) :
  try_fold (preflight_line preimages) lines p = Ok p' ->
  exists rs, state_lines lines = Ok rs /\ try_fold (preflight_record preimages) rs p = Ok p'.
Proof.
  revert p. induction lines as [|line lines IH]; intros p; cbn [try_fold state_lines]; [intros [= <-]; by exists []|].
  intros H. apply rbind_Ok in H as (p1 & H1 & H). unfold preflight_line in H1. apply rbind_Ok in H1 as (text & -> & H1).
  apply rbind_Ok in H1 as (r & Hr & H1). destruct (IH p1 H) as (rs & Hrs & Hf). exists (option_list r ++ rs).
  cbn [rbind]. rewrite Hr. cbn [rbind]. rewrite Hrs. split; [done|].
  destruct r as [r|]; [|by injection H1 as ->].
  change (try_fold (preflight_record preimages) (r :: rs) p = Ok p'). cbn [try_fold]. by rewrite H1.
Qed.

Lemma preflight_record_step (preimages : option (Z -> result string (option Z))) (r : StateRecord) (p p' : Preflight) (st : StateLoop) :
  preflight_record preimages p r = Ok p' -> pass_matches p st ->
  slot_ok preimages r /\ exists st', state_record st (to_stream r) = Ok st' /\ pass_matches p' st'.
Proof.
  intros H (M1 & M2 & M3 & M4 & M5 & M6). destruct r as [h a|h code|h v]; cbn [preflight_record to_stream state_record slot_ok] in *.
  - injection H as <-. split; [done|]. eexists. split; [done|]. unfold pass_matches. cbn. rewrite M1, M2, M3, M4, M5. by split_and!.
  - injection H as <-. split; [done|]. eexists. split; [done|]. unfold pass_matches. cbn. rewrite M1, M2, M3, M4, M5. by split_and!.
  - destruct (pf_saw_account p) eqn:Hs; [|done]. destruct (M6 eq_refl) as [owner Ho]. rewrite Ho. cbn [negb ok_or rbind] in *.
    destruct (Z.eqb_spec v 0).
    + injection H as <-. split; [done|]. eexists. split; [done|]. unfold pass_matches. rewrite Ho. by split_and!.
    + apply rbind_Ok in H as ([] & Hc & H). injection H as <-. split; [done|]. eexists. split; [done|].
      unfold pass_matches. cbn. rewrite M1, M2, M3, M4, M5. by split_and!.
Qed.

Lemma preflight_records (preimages : option (Z -> result string (option Z))) (rs : list StateRecord) (p p' : Preflight) (st : StateLoop) :
  try_fold (preflight_record preimages) rs p = Ok p' -> pass_matches p st ->
  Forall (slot_ok preimages) rs /\ exists st', try_fold state_record (to_stream <$> rs) st = Ok st' /\ pass_matches p' st'.
Proof.
  revert p st. induction rs as [|r rs IH]; intros p st; cbn [fmap list_fmap try_fold]; [intros [= <-]; by eauto|].
  intros H Hm. apply rbind_Ok in H as (p1 & H1 & H). destruct (preflight_record_step _ _ _ _ _ H1 Hm) as [Hok (st1 & Hs & Hm1)].
  rewrite Hs. cbn [rbind]. destruct (IH _ _ H Hm1) as [Hoks Hst]. split; [by constructor|done].
Qed.

Lemma preflight_spec (preimages : option (Z -> result string (option Z))) (lines : list (result string string)) (stats : StateStreamStats) :
  preflight_state_stream lines preimages = Ok stats ->
  exists rs st, state_lines lines = Ok rs /\ state_of (to_stream <$> rs) = Ok st /\ Forall (slot_ok preimages) rs /\
    sl_wanted st ⊆ sl_provided st /\ ss_accounts (sl_stats st) <> 0 /\
    stats = {| st_accounts := ss_accounts (sl_stats st); st_slots := ss_slots (sl_stats st);
               st_bytecodes := ss_bytecodes (sl_stats st) |}.
Proof.
  unfold preflight_state_stream. intros H. apply rbind_Ok in H as (p & Hp & H). apply preflight_lines in Hp as (rs & Hrs & Hp).
  destruct (preflight_records preimages rs preflight_start p state_start Hp) as (Hok & st & Hst & M1 & M2 & M3 & M4 & M5 & _); [done|].
  destruct (Z.eqb_spec (st_accounts (pf_stats p)) 0); [done|]. case_bool_decide as Hsub; [|done]. cbn [negb] in H. injection H as <-.
  exists rs, st. rewrite <- M1, <- M2, <- M3, <- M4, <- M5. by destruct (pf_stats p).
Qed.

(** ** Writing the state *)

(** The loop has committed some of the operations of [st] and holds the others. *)
Definition holds_ops (d0 : Datadir) (st : StateLoop) (il : StreamLoop) (w : Work) : Prop :=
  exists ops, sl_ops st = ops ++ il_ops il /\ sl_account st = il_account il /\ w_dir w = fold_left apply_op ops d0.

Lemma holds_ops_incomplete (d0 : Datadir) (st : StateLoop) (il : StreamLoop) (w : Work) :
  dd_complete d0 = None -> holds_ops d0 st il w -> incomplete w.
Proof. intros Hd (ops & _ & _ & Hw). unfold incomplete. by rewrite Hw, apply_ops_complete. Qed.

Lemma holds_ops_push (d0 : Datadir) (st st' : StateLoop) (il : StreamLoop) (op : StateOp) (account : option Z) (w : Work) :
  holds_ops d0 st il w -> sl_ops st' = sl_ops st ++ [op] -> sl_account st' = account ->
  holds_ops d0 st' {| il_ops := il_ops il ++ [op]; il_account := account |} w.
Proof. intros (ops & Ho & _ & Hw) Hs Ha. exists ops. cbn. rewrite Hs, Ho, app_assoc. by split_and!. Qed.

Lemma commit_chunk_spec (d0 : Datadir) (st : StateLoop) (il : StreamLoop) (w : Work) :
  dd_complete d0 = None -> holds_ops d0 st il w -> wp (commit_chunk il) (fun il' => holds_ops d0 st il') incomplete w.
Proof.
  intros Hd Hh. pose proof (holds_ops_incomplete _ _ _ _ Hd Hh) as Hi. unfold commit_chunk. destruct (_ <=? _)%nat; [|by apply wp_ret].
  destruct Hh as (ops & Ho & Ha & Hw). apply wp_bind, wp_commit; [done|]. intros w' Hw'. rewrite Hw, <- fold_left_app in Hw'.
  split; [unfold incomplete; by rewrite Hw', apply_ops_complete|]. apply wp_ret. exists (ops ++ il_ops il). cbn. by rewrite app_nil_r.
Qed.

Lemma commit_chunk_total (d0 : Datadir) (st : StateLoop) (il : StreamLoop) (w : Work) :
  quiet w -> holds_ops d0 st il w -> twp 1 (commit_chunk il) (fun il' w' => quiet w' /\ holds_ops d0 st il' w') w.
Proof.
  intros Hq Hh. unfold commit_chunk. destruct (_ <=? _)%nat; [|eapply twp_le; [by apply twp_ret|lia]].
  destruct Hh as (ops & Ho & Ha & Hw). apply (twp_bind 1 0), twp_commit; [done|]. intros w' Hq' Hw'. apply twp_ret. split; [done|].
  exists (ops ++ il_ops il). cbn. rewrite app_nil_r, Hw', Hw, fold_left_app. by split_and!.
Qed.

Lemma stream_record_spec (preimages : option (Z -> result string (option Z))) (d0 : Datadir) (st : StateLoop) (il : StreamLoop)
    (r : StateRecord) (w : Work) :
  dd_complete d0 = None -> holds_ops d0 st il w ->
  wp (stream_record preimages il r)
    (fun il' w' => slot_ok preimages r /\ exists st', state_record st (to_stream r) = Ok st' /\ holds_ops d0 st' il' w') incomplete w.
Proof.
  intros Hd Hh. pose proof (holds_ops_incomplete _ _ _ _ Hd Hh) as Hi. pose proof Hh as (_ & _ & Ha & _).
  destruct r as [h [n b c]|h code|h v]; cbn [stream_record to_stream state_record slot_ok].
  - apply wp_bind. eapply wp_mono; [by apply (commit_chunk_spec d0 st)| |done]. intros il1 w1 Hh1. apply wp_ret. split; [done|].
    eexists. split; [done|]. by eapply holds_ops_push.
  - apply wp_bind. eapply wp_mono; [by apply (commit_chunk_spec d0 st)| |done]. intros il1 w1 Hh1. apply wp_ret. split; [done|].
    eexists. split; [done|]. pose proof Hh1 as (_ & _ & Ha1 & _).
    eapply holds_ops_push; [exact Hh1|done|exact Ha1].
  - apply wp_bind, wp_lift; [done|]. intros owner Ho. rewrite Ha. apply ok_or_Ok in Ho. rewrite Ho. cbn [ok_or rbind].
    destruct (Z.eqb_spec v 0); [apply wp_ret; split; [done|]; by exists st|].
    apply wp_bind, wp_lift; [done|]. intros [] Hc. apply wp_bind. eapply wp_mono; [by apply (commit_chunk_spec d0 st)| |done].
    intros il1 w1 Hh1. apply wp_ret. split; [done|]. eexists. split; [done|]. pose proof Hh1 as (_ & _ & Ha1 & _).
    eapply holds_ops_push; [exact Hh1|done|cbn; congruence].
Qed.

Lemma stream_record_total (preimages : option (Z -> result string (option Z))) (d0 : Datadir) (st st' : StateLoop) (il : StreamLoop)
    (r : StateRecord) (w : Work) :
  quiet w -> holds_ops d0 st il w -> slot_ok preimages r -> state_record st (to_stream r) = Ok st' ->
  twp 1 (stream_record preimages il r) (fun il' w' => quiet w' /\ holds_ops d0 st' il' w') w.
Proof.
  intros Hq Hh Hok Hst. pose proof Hh as (_ & _ & Ha & _).
  destruct r as [h [n b c]|h code|h v]; cbn [stream_record to_stream state_record slot_ok] in *.
  - injection Hst as <-. apply (twp_bind 1 0). eapply twp_mono; [by apply (commit_chunk_total d0 st)|]. intros il1 w1 [Hq1 Hh1].
    apply twp_ret. split; [done|]. by eapply holds_ops_push.
  - injection Hst as <-. apply (twp_bind 1 0). eapply twp_mono; [by apply (commit_chunk_total d0 st)|]. intros il1 w1 [Hq1 Hh1].
    apply twp_ret. split; [done|]. pose proof Hh1 as (_ & _ & Ha1 & _).
    eapply holds_ops_push; [exact Hh1|done|exact Ha1].
  - apply rbind_Ok in Hst as (owner & Ho & Hst). rewrite Ha in Ho. apply ok_or_Ok in Ho.
    apply (twp_bind 0 1). eapply (twp_lift _ owner); [by rewrite Ho|].
    destruct (Z.eqb_spec v 0) as [->|Hv]; [injection Hst as <-; eapply twp_le; [by apply twp_ret|lia]|].
    injection Hst as <-. apply (twp_bind 0 1). eapply twp_lift; [by apply Hok|]. apply (twp_bind 1 0).
    eapply twp_mono; [by apply (commit_chunk_total d0 st)|]. intros il1 w1 [Hq1 Hh1]. apply twp_ret. split; [done|].
    pose proof Hh1 as (_ & _ & Ha1 & _).
    eapply holds_ops_push; [exact Hh1|done|exact Ha1].
Qed.

Lemma stream_loop_spec (preimages : option (Z -> result string (option Z))) (d0 : Datadir) (lines : list (result string string))
    (st : StateLoop) (il : StreamLoop) (w : Work) :
  dd_complete d0 = None -> holds_ops d0 st il w ->
  wp (stream_loop preimages lines il)
    (fun il' w' => exists rs st', state_lines lines = Ok rs /\ Forall (slot_ok preimages) rs /\
       try_fold state_record (to_stream <$> rs) st = Ok st' /\ holds_ops d0 st' il' w') incomplete w.
Proof.
  intros Hd. revert st il w. induction lines as [|line lines IH]; intros st il w Hh; cbn [stream_loop state_lines];
    pose proof (holds_ops_incomplete _ _ _ _ Hd Hh) as Hi; [apply wp_ret; by exists [], st|].
  apply wp_bind, wp_lift; [done|]. intros text ->. cbn [rbind]. apply wp_bind, wp_lift; [done|]. intros r Hr. rewrite Hr. cbn [rbind].
  destruct r as [r|].
  - apply wp_bind. eapply wp_mono; [by apply (stream_record_spec preimages d0 st)| |done]. intros il1 w1 (Hok & st1 & Hs & Hh1).
    eapply wp_mono; [by apply (IH st1)| |done]. intros il2 w2 (rs & st2 & -> & Hoks & Hst & Hh2). exists (r :: rs), st2.
    split_and!; [done|by constructor| |done]. cbn [fmap list_fmap try_fold]. by rewrite Hs.
  - eapply wp_mono; [by apply (IH st)| |done]. intros il2 w2 (rs & st2 & -> & Hoks & Hst & Hh2). by exists rs, st2.
Qed.

Lemma stream_loop_total (preimages : option (Z -> result string (option Z))) (d0 : Datadir) (lines : list (result string string))
    (rs : list StateRecord) (st st' : StateLoop) (il : StreamLoop) (w : Work) :
  quiet w -> holds_ops d0 st il w -> state_lines lines = Ok rs -> Forall (slot_ok preimages) rs ->
  try_fold state_record (to_stream <$> rs) st = Ok st' ->
  twp (length lines) (stream_loop preimages lines il) (fun il' w' => quiet w' /\ holds_ops d0 st' il' w') w.
Proof.
  revert rs st il w. induction lines as [|line lines IH]; intros rs st il w Hq Hh; cbn [stream_loop state_lines length].
  { intros [= <-] _ [= <-]. by apply twp_ret. }
  intros H Hoks Hst. apply rbind_Ok in H as (text & -> & H). apply rbind_Ok in H as (r & Hr & H). apply rbind_Ok in H as (rs' & Hrs & H).
  injection H as <-. apply (twp_bind 0 (S (length lines))). eapply twp_lift; [done|]. apply (twp_bind 0 (S (length lines))).
  eapply twp_lift; [exact Hr|]. cbv beta iota. destruct r as [r|].
  - change (Forall (slot_ok preimages) (r :: rs')) in Hoks. apply Forall_cons in Hoks as [Hok Hoks].
    change (try_fold state_record (to_stream r :: (to_stream <$> rs')) st = Ok st') in Hst. cbn [try_fold] in Hst.
    apply rbind_Ok in Hst as (st1 & Hs & Hst). apply (twp_bind 1 (length lines)).
    eapply twp_mono; [by apply (stream_record_total preimages d0 st st1)|]. intros il1 w1 [Hq1 Hh1]. by eapply IH.
  - eapply twp_le; [|apply Nat.le_succ_diag_r]. by eapply IH.
Qed.

Lemma holds_ops_start (w : Work) : holds_ops (w_dir w) state_start {| il_ops := []; il_account := None |} w.
Proof. by exists []. Qed.

Lemma stream_import_spec (preimages : option (Z -> result string (option Z))) (lines : list (result string string)) (w : Work) :
  incomplete w ->
  wp (stream_import lines preimages)
    (fun _ w' => exists rs st, state_lines lines = Ok rs /\ Forall (slot_ok preimages) rs /\ state_of (to_stream <$> rs) = Ok st /\
       w_dir w' = fold_left apply_op (sl_ops st) (w_dir w)) incomplete w.
Proof.
  intros Hi. unfold stream_import. apply wp_bind. eapply wp_mono; [apply (stream_loop_spec preimages (w_dir w) lines state_start)| |done];
    [done|apply holds_ops_start|]. intros il w1 (rs & st & Hl & Hok & Hst & Hh).
  pose proof (holds_ops_incomplete _ _ _ _ Hi Hh) as Hi1. destruct Hh as (ops & Ho & _ & Hw). apply wp_commit; [done|]. intros w2 Hw2.
  assert (Hd : w_dir w2 = fold_left apply_op (sl_ops st) (w_dir w)) by (by rewrite Hw2, Hw, Ho, fold_left_app).
  split; [unfold incomplete; by rewrite Hd, apply_ops_complete|]. by exists rs, st.
Qed.

(** C39. The pass over the stream decides the import. When [preflight_state_stream] accepts the lines,
    an undisturbed [stream_import] returns within a commit per line and one more, whatever the chunks
    of [COMMIT_THRESHOLD] writes, and leaves the hashed accounts, slots and code that the full
    importer's state section leaves from the same records; the counts are those of that section, code
    is there for every account that names it, and every slot written has its preimage. *)
Theorem preflight_import_exact (preimages : option (Z -> result string (option Z))) (lines : list (result string string))
    (stats : StateStreamStats) (w : Work) (n : nat) :
  preflight_state_stream lines preimages = Ok stats -> w_faults w = [] -> (S (length lines) <= n)%nat ->
  exists rs st w' n', state_lines lines = Ok rs /\ state_of (to_stream <$> rs) = Ok st /\
    stream_import lines preimages (w, n) = (Ret tt, (w', n')) /\ w_dir w' = fold_left apply_op (sl_ops st) (w_dir w) /\
    stats = {| st_accounts := ss_accounts (sl_stats st); st_slots := ss_slots (sl_stats st);
               st_bytecodes := ss_bytecodes (sl_stats st) |} /\
    sl_wanted st ⊆ sl_provided st /\ Forall (slot_ok preimages) rs /\
    (forall s s1 s2 fuel, pulls s (to_stream <$> rs) s1 -> next_record s1 = Ok (None, s2) -> (length rs < fuel)%nat ->
       exists stats' w2 n2, write_state fuel s (w, S (S (length rs))) = (Ret stats', (w2, n2)) /\ w_dir w2 = w_dir w').
Proof.
  intros Hp Hq Hn. apply preflight_spec in Hp as (rs & st & Hl & Hst & Hok & Hsub & Hne & ->).
  assert (Ht : twp (length lines + 1) (stream_import lines preimages) (fun _ w' => w_dir w' = fold_left apply_op (sl_ops st) (w_dir w)) w).
  { unfold stream_import. apply twp_bind. eapply twp_mono; [apply (stream_loop_total preimages (w_dir w) lines rs state_start st)|]; try done; [apply holds_ops_start|].
    intros il w1 [Hq1 (ops & Ho & _ & Hw1)]. apply twp_commit; [done|]. intros w2 _ Hw2. by rewrite Hw2, Hw1, Ho, fold_left_app. }
  destruct (Ht n) as ([] & w' & n' & Hrun & _ & Hw'); [lia|]. exists rs, st, w', n'. split_and!; try done.
  intros s s1 s2 fuel Hpulls Hend Hf.
  destruct (write_state_total (w_dir w) fuel (to_stream <$> rs) s s1 s2 st w eq_refl Hq Hpulls Hend) with (n := S (S (length rs)))
    as (stats' & w2 & n2 & Hrun2 & _ & _ & Hw2); rewrite ?length_fmap; try done. exists stats', w2, n2. by rewrite Hw', Hw2.
Qed.
End Records.

Section Heads.
Context {K : Keccak} {BC : BlockCodec} {RC : ReceiptCodec} {HC : HeadCodec}.

(** ** The head of a blocks stream *)

Lemma parse_digits_nonneg (s : string) (acc n : Z) : 0 <= acc -> parse_digits acc s = Some n -> 0 <= n.
Proof.
  revert acc. induction s as [|c s IH]; intros acc Hacc; cbn [parse_digits]; [by intros [= <-]|].
  unfold digit. destruct ((48 <=? _) && (_ <=? 57)) eqn:Hc; cbn [mbind option_bind]; [|done].
  destruct (_ <=? U64_MAX); [|done]. apply IH. apply andb_true_iff in Hc as [H1%Z.leb_le _]. lia.
Qed.

Lemma parse_u64_nonneg (s : string) (n : Z) : parse_u64 s = Some n -> 0 <= n.
Proof.
  unfold parse_u64. destruct s as [|[[] [] [] [] [] [] [] []] s]; try done; try (by apply parse_digits_nonneg).
  destruct s; [done|by apply parse_digits_nonneg].
Qed.

(** The number and the hash of a head are those of its header. *)
Definition authenticated (head : Head) : Prop :=
  0 <= hd_number head /\ bh_number (hd_header head) = hd_number head /\ bh_hash (hd_header head) = hd_hash head.

Lemma parse_header_record_authenticated (line : string) (head : Head) :
  parse_header_record line = Ok (Some head) -> authenticated head.
Proof.
  unfold parse_header_record. destruct (split_whitespace line) as [|tag parts]; [done|].
  destruct (bool_decide _ || bool_decide _); [intros H; ok_inv; discriminate|]. case_decide; [|done].
  intros H'. apply rbind_Ok in H' as (h & Hh & [= ->]). unfold parse_header_fields in Hh.
  apply rbind_Ok in Hh as ([f1 p1] & _ & Hh). apply rbind_Ok in Hh as (num & Hn%ok_or_Ok%parse_u64_nonneg & Hh).
  apply rbind_Ok in Hh as ([f2 p2] & _ & Hh). apply rbind_Ok in Hh as (hash & _ & Hh).
  apply rbind_Ok in Hh as ([f3 p3] & _ & Hh). apply rbind_Ok in Hh as (rlp & _ & Hh). destruct p3; [|done].
  apply rbind_Ok in Hh as ([header input] & _ & Hh). destruct (negb (bool_decide _)); [done|].
  destruct (Z.eqb_spec (bh_number header) num); [|done]. destruct (Z.eqb_spec (bh_hash header) hash); [|done].
  cbn [negb] in Hh. injection Hh as <-. by split_and!.
Qed.

Fixpoint head_lines (lines : list (result string string)) : result string (list Head) :=
  match lines with
  | [] => Ok []
  | line :: lines =>
      let? line := line in
      let? record := parse_header_record line in
      let? heads := head_lines lines in
      Ok (option_list record ++ heads)
  end.

Lemma head_lines_authenticated (lines : list (result string string)) (heads : list Head) :
  head_lines lines = Ok heads -> Forall authenticated heads.
Proof.
  revert heads. induction lines as [|line lines IH]; intros heads; cbn [head_lines]; [by intros [= <-]|].
  intros H. apply rbind_Ok in H as (text & -> & H). apply rbind_Ok in H as (r & Hr & H). apply rbind_Ok in H as (hs & Hhs & [= <-]).
  apply Forall_app. split; [|by apply IH]. destruct r as [head|]; repeat constructor; by eapply parse_header_record_authenticated.
Qed.

Lemma head_lines_best (lines : list (result string string)) (best best' : option Head) :
  try_fold head_line lines best = Ok best' -> exists heads, head_lines lines = Ok heads /\ best' = fold_left better_head heads best.
Proof.
  revert best. induction lines as [|line lines IH]; intros best; cbn [try_fold head_lines]; [intros [= <-]; by exists []|].
  intros H. apply rbind_Ok in H as (b & H1 & H). unfold head_line in H1. apply rbind_Ok in H1 as (text & -> & H1).
  apply rbind_Ok in H1 as (r & Hr & H1). destruct (IH b H) as (hs & Hhs & ->). exists (option_list r ++ hs). cbn [rbind]. rewrite Hr.
  cbn [rbind]. rewrite Hhs. split; [done|]. destruct r as [head|]; by injection H1 as <-.
Qed.

Lemma read_head_header_spec (lines : list (result string string)) (head : Head) :
  read_head_header lines = Ok head -> exists heads, head_lines lines = Ok heads /\ fold_left better_head heads None = Some head.
Proof.
  unfold read_head_header. intros H. apply rbind_Ok in H as (best & Hb & Ho%ok_or_Ok).
  apply head_lines_best in Hb as (heads & Hh & ->). by exists heads.
Qed.

(** The best head is one of them, and none has a higher number. *)
Lemma best_head_spec (heads : list Head) (best : option Head) (head : Head) :
  fold_left better_head heads best = Some head ->
  (head ∈ heads \/ best = Some head) /\ Forall (fun h => hd_number h <= hd_number head) heads /\
  (forall b, best = Some b -> hd_number b <= hd_number head).
Proof.
  revert best. induction heads as [|h heads IH]; intros best; cbn [fold_left].
  { intros ->. split_and!; [by right|done|by intros b [= ->]]. }
  intros H. apply IH in H as (Hin & Hall & Hb). unfold better_head in *. destruct best as [b|].
  - destruct (Z.leb_spec (hd_number b) (hd_number h)); specialize (Hb _ eq_refl);
      (split_and!; [|constructor; [lia|done]|intros ? [= <-]; lia]);
      destruct Hin as [Hin|Hin]; try (left; by right); injection Hin as ->; [left; left|by right].
  - specialize (Hb _ eq_refl). split_and!; [|by constructor|done]. left. destruct Hin as [Hin|[= ->]]; [by right|left].
Qed.

(** Writing keeps the number and hash of the best head. *)
Definition pick (best : Z * Z) (h : Head) : Z * Z := if fst best <=? hd_number h then (hd_number h, hd_hash h) else best.

Lemma pick_best (heads : list Head) (best : option Head) (nh : Z * Z) (head : Head) :
  Forall authenticated heads ->
  match best with Some b => nh = (hd_number b, hd_hash b) | None => nh = (0, 0) end ->
  fold_left better_head heads best = Some head -> fold_left pick heads nh = (hd_number head, hd_hash head).
Proof.
  revert best nh. induction heads as [|h heads IH]; intros best nh Ha Hb; cbn [fold_left]; [by intros ->|].
  apply Forall_cons in Ha as [(Hpos & _) Ha]. apply IH; [done|]. unfold pick, better_head. destruct best as [b|]; subst nh; cbn [fst].
  - by destruct (Z.leb_spec (hd_number b) (hd_number h)).
  - by rewrite (proj2 (Z.leb_le _ _) Hpos).
Qed.

Definition append_heads (heads : list Head) (d : Datadir) : Datadir := fold_left (fun d h => append_head h d) heads d.

Lemma append_heads_complete (heads : list Head) (d : Datadir) : dd_complete (append_heads heads d) = dd_complete d.
Proof. unfold append_heads. revert d. induction heads as [|h heads IH]; intros d; [done|]. cbn [fold_left]. by rewrite IH. Qed.

Lemma write_head_loop_spec (lines : list (result string string)) (hs0 : list Head) (num hash : Z) (w : Work) :
  incomplete w ->
  wp (write_head_loop lines hs0 num hash)
    (fun '(hs, num', hash') w' => exists heads, head_lines lines = Ok heads /\ hs = hs0 ++ heads /\
       (num', hash') = fold_left pick heads (num, hash) /\ w_dir w' = append_heads heads (w_dir w)) incomplete w.
Proof.
  revert hs0 num hash w. induction lines as [|line lines IH]; intros hs0 num hash w Hi; cbn [write_head_loop head_lines].
  { apply wp_ret. exists []. by rewrite app_nil_r. }
  apply wp_bind, wp_lift; [done|]. intros text ->. cbn [rbind]. apply wp_bind, wp_lift; [done|]. intros r Hr. rewrite Hr. cbn [rbind].
  destruct r as [head|].
  - apply wp_bind, wp_commit; [done|]. intros w1 Hw1. assert (Hi1 : incomplete w1) by (unfold incomplete; by rewrite Hw1).
    split; [done|].
    assert (Hpick : pick (num, hash) head = if num <=? hd_number head then (hd_number head, hd_hash head) else (num, hash)) by done.
    destruct (num <=? hd_number head);
      (eapply wp_mono; [by apply IH| |done]; intros [[hs num'] hash'] w2 (heads & -> & -> & Hp & Hw2);
       exists (head :: heads); cbn [fold_left]; rewrite Hpick, <- Hp, Hw2, Hw1, <- app_assoc; by split_and!).
  - eapply wp_mono; [by apply IH| |done]. intros [[hs num'] hash'] w2 (heads & -> & H). by exists heads.
Qed.
End Heads.

Section Whole.
Context {K : Keccak} {BC : BlockCodec} {RC : ReceiptCodec} {HC : HeadCodec}.
Context (trie_root : gmap Z AccountInfo -> gset (Z * Z * Z) -> result string Z).

(** ** The whole command *)

Lemma append_heads_eq (heads : list Head) (d : Datadir) : append_heads heads d = {|
  dd_headers := dd_headers d ++ ((fun h => (hd_number h, hd_hash h, hd_header h)) <$> heads);
  dd_header_numbers := dd_header_numbers d; dd_bodies := dd_bodies d; dd_receipts := dd_receipts d;
  dd_changeset_start := dd_changeset_start d; dd_account_changesets := dd_account_changesets d;
  dd_storage_changesets := dd_storage_changesets d; dd_hashed_accounts := dd_hashed_accounts d;
  dd_hashed_storages := dd_hashed_storages d; dd_bytecodes := dd_bytecodes d; dd_renamed := dd_renamed d;
  dd_checkpoints := dd_checkpoints d; dd_pruned_to := dd_pruned_to d; dd_resume := dd_resume d; dd_complete := dd_complete d
|}.
Proof.
  unfold append_heads. revert d. induction heads as [|h heads IH]; intros d; cbn [fold_left fmap list_fmap].
  - rewrite app_nil_r. by destruct d.
  - rewrite IH. unfold append_head. cbn. by rewrite <- app_assoc.
Qed.

Definition headed (heads : list Head) (n : Z) (d : Datadir) : Datadir :=
  head_rows heads n (start_changesets false n (start_changesets true n (append_heads heads d))).

Lemma write_head_blocks_spec (lines : list (result string string)) (w : Work) :
  incomplete w ->
  wp (write_head_blocks lines)
    (fun '(n, h) w' => exists heads, head_lines lines = Ok heads /\ (n, h) = fold_left pick heads (0, 0) /\
       w_dir w' = headed heads n (w_dir w)) incomplete w.
Proof.
  intros Hi. unfold write_head_blocks. apply wp_bind. eapply wp_mono; [by apply write_head_loop_spec| |done].
  intros [[hs n] h] w1 (heads & Hl & -> & Hp & Hw1). cbn [app].
  assert (Hi1 : incomplete w1) by (unfold incomplete; by rewrite Hw1, append_heads_complete).
  apply wp_bind, wp_commit; [done|]. intros w2 Hw2. assert (Hi2 : incomplete w2) by (unfold incomplete; by rewrite Hw2). split; [done|].
  apply wp_bind, wp_commit; [done|]. intros w3 Hw3. assert (Hi3 : incomplete w3) by (unfold incomplete; by rewrite Hw3). split; [done|].
  apply wp_bind, wp_commit; [done|]. intros w4 Hw4. assert (Hi4 : incomplete w4) by (unfold incomplete; by rewrite Hw4). split; [done|].
  apply wp_ret. exists heads. split_and!; [done..|]. by rewrite Hw4, Hw3, Hw2, Hw1.
Qed.

(** The slots come from the records. *)
Lemma state_of_slots (rs : list SnapshotRecord) (st : StateLoop) (o h v : Z) :
  state_of rs = Ok st -> UpsertStorage o h v ∈ sl_ops st -> Storage h v ∈ rs.
Proof.
  revert st. induction rs as [|r rs IH] using rev_ind; intros st; unfold state_of; [intros [= <-]; cbn; by intros []%elem_of_nil|].
  rewrite try_fold_snoc. intros H. apply rbind_Ok in H as (st0 & H0 & Hr). rewrite elem_of_app, list_elem_of_singleton. intros Hin.
  destruct r as [| | | |h' n b c|h' v'|h' c]; cbn [state_record] in Hr; try done.
  - injection Hr as <-. cbn in Hin. apply elem_of_app in Hin as [Hin|[=]%list_elem_of_singleton]. left. by eapply IH.
  - apply rbind_Ok in Hr as (owner & _ & Hr). destruct (v' =? 0); injection Hr as <-; [left; by eapply IH|]. cbn in Hin.
    apply elem_of_app in Hin as [Hin|[= -> -> ->]%list_elem_of_singleton]; [left; by eapply IH|by right].
  - injection Hr as <-. cbn in Hin. apply elem_of_app in Hin as [Hin|[=]%list_elem_of_singleton]. left. by eapply IH.
Qed.

Lemma validate_snapshot_identity_spec (expected : Z) (head : Head) (policy : SnapshotPreimagePolicy) :
  validate_snapshot_identity expected head = Ok policy ->
  bh_state_root (hd_header head) = expected /\
  exists version, arbos_format_version (hd_header head) = Some version /\ requires_preimages policy = negb (arbos_20_enabled version) /\
    (requires_preimages policy = true ->
     hd_number head = GENESIS_BLOCK_NUMBER /\ hd_hash head = GENESIS_BLOCK_HASH /\ expected = GENESIS_STATE_ROOT).
Proof.
  unfold validate_snapshot_identity. destruct (negb _); [done|]. destruct (Z.eqb_spec (bh_state_root (hd_header head)) expected) as [Hr|]; [|done].
  cbn [negb]. intros H. apply rbind_Ok in H as (version & Hv%ok_or_Ok & H). split; [done|]. exists version. split; [done|].
  destruct (arbos_20_enabled version); [by injection H as <-|].
  destruct (Z.eqb_spec (hd_number head) GENESIS_BLOCK_NUMBER); [|done].
  destruct (Z.eqb_spec (hd_hash head) GENESIS_BLOCK_HASH); [|done].
  destruct (Z.eqb_spec expected GENESIS_STATE_ROOT); [|done]. cbn [andb negb] in H. by injection H as <-.
Qed.

(** The checks before anything is written. *)
Definition accepted (env : HeadImportEnv) (head : Head) (policy : SnapshotPreimagePolicy)
    (preimages : option (Z -> result string (option Z))) : Prop :=
  exists expected stats, parse_b256 (he_expect env) = Ok expected /\ ensure_fresh_import_target (he_target env) = Ok tt /\
    read_head_header (he_blocks env) = Ok head /\ validate_snapshot_identity expected head = Ok policy /\
    open_preimages env policy = Ok preimages /\ preflight_state_stream (he_state env) preimages = Ok stats.

(** The file that carries a completion manifest. *)
Definition manifest_file (m : ImportManifest) : SnapshotImportManifest := {|
  sm_version := SNAPSHOT_IMPORT_MANIFEST_VERSION; sm_block_number := im_block_number m; sm_block_hash := im_block_hash m;
  sm_state_root := im_state_root m
|}.

(** A datadir that holds the state of the accepted head. *)
Record head_datadir (env : HeadImportEnv) (head : Head) (policy : SnapshotPreimagePolicy)
    (preimages : option (Z -> result string (option Z))) (d : Datadir) : Prop := {
  hi_head : authenticated head;
  (** The headers are the stream's, the head is the highest and reads back with its hash. *)
  hi_headers : exists heads, head_lines (he_blocks env) = Ok heads /\ head ∈ heads /\
    Forall (fun h => hd_number h <= hd_number head) heads /\
    dd_headers d = ((fun h => (hd_number h, hd_hash h, hd_header h)) <$> heads) /\ dd_bodies d = ((fun h => (hd_number h, None)) <$> heads);
  hi_sealed : exists header, he_sealed_header env (dd_headers d) (hd_number head) = Some (hd_hash head, header);
  (** The hashed tables have the head's state root, and are what the records write. *)
  hi_root : trie_root (dd_hashed_accounts d) (dd_hashed_storages d) = Ok (bh_state_root (hd_header head));
  hi_state : exists rs st, state_lines (he_state env) = Ok rs /\ state_of (to_stream <$> rs) = Ok st /\
    dd_hashed_accounts d = dd_hashed_accounts (fold_left apply_op (sl_ops st) empty_datadir) /\
    dd_hashed_storages d = dd_hashed_storages (fold_left apply_op (sl_ops st) empty_datadir) /\
    dd_bytecodes d = dd_bytecodes (fold_left apply_op (sl_ops st) empty_datadir);
  hi_code : forall h a c, dd_hashed_accounts d !! h = Some a -> ai_bytecode_hash a = Some c ->
    exists code, dd_bytecodes d !! c = Some code /\ keccak256 code = c;
  (** Slots are not zero and have an account; before ArbOS 20 they have a preimage. *)
  hi_slots : forall o h v, (o, h, v) ∈ dd_hashed_storages d -> v <> 0 /\ is_Some (dd_hashed_accounts d !! o);
  hi_preimages : forall version o h v, arbos_format_version (hd_header head) = Some version -> arbos_20_enabled version = false ->
    (o, h, v) ∈ dd_hashed_storages d -> exists get plain, preimages = Some get /\ get h = Ok (Some plain) /\ hash_slot plain = h;
  (** Every stage is at the head, and history begins there. *)
  hi_boundary : dd_checkpoints d = Some (hd_number head) /\ dd_pruned_to d = Some (hd_number head) /\
    dd_changeset_start d = Some (hd_number head) /\ dd_account_changesets d = [(hd_number head, [])] /\
    dd_storage_changesets d = [(hd_number head, [])] /\ dd_renamed d = true;
  (** The manifest names the head, and the launch check accepts it. *)
  hi_launch : exists m, dd_complete d = Some m /\ im_block_number m = hd_number head /\ im_block_hash m = hd_hash head /\
    validate_snapshot_import_for_launch (Some (Ok (manifest_file m))) (he_preimage env) head = Ok tt
}.

Definition head_manifest (head : Head) : ImportManifest := {|
  im_block_number := hd_number head; im_block_hash := hd_hash head; im_state_root := bh_state_root (hd_header head)
|}.

Lemma launch_accepts (env : HeadImportEnv) (head : Head) (policy : SnapshotPreimagePolicy)
    (preimages : option (Z -> result string (option Z))) :
  accepted env head policy preimages -> authenticated head ->
  validate_snapshot_import_for_launch (Some (Ok (manifest_file (head_manifest head)))) (he_preimage env) head = Ok tt.
Proof.
  intros (expected & stats & _ & _ & _ & Hid & Hpre & _) (_ & Hn & Hh). unfold validate_snapshot_import_for_launch. cbn [ok_or rbind].
  unfold validate_snapshot_import_manifest. cbn. rewrite Hn, Hh, !Z.eqb_refl. cbn [andb negb rbind].
  pose proof (validate_snapshot_identity_spec _ _ _ Hid) as (-> & _). rewrite Hid. cbn [rbind]. unfold open_preimages in Hpre.
  destruct (requires_preimages policy); [|done]. destruct (pd_mdbx (he_preimage env)); [|done]. cbn [negb] in *.
  apply rbind_Ok in Hpre as (m & Hm & _). by rewrite Hm.
Qed.

Lemma apply_ops_empty (ops : list StateOp) :
  fold_left apply_op ops empty_datadir = {|
    dd_headers := []; dd_header_numbers := ∅; dd_bodies := []; dd_receipts := []; dd_changeset_start := None;
    dd_account_changesets := []; dd_storage_changesets := [];
    dd_hashed_accounts := dd_hashed_accounts (fold_left apply_op ops empty_datadir);
    dd_hashed_storages := dd_hashed_storages (fold_left apply_op ops empty_datadir);
    dd_bytecodes := dd_bytecodes (fold_left apply_op ops empty_datadir);
    dd_renamed := false; dd_checkpoints := None; dd_pruned_to := None; dd_resume := NoFile; dd_complete := None |}.
Proof.
  induction ops as [|op ops IH] using rev_ind; [done|]. rewrite fold_left_app. cbn [fold_left]. rewrite IH at 1.
  unfold apply_op at 1. by destruct op.
Qed.

Lemma head_datadir_written (env : HeadImportEnv) (head : Head) (policy : SnapshotPreimagePolicy)
    (preimages : option (Z -> result string (option Z))) (heads : list Head) (rs : list StateRecord) (st : StateLoop) (header : BlockHeader) :
  let tables := fold_left apply_op (sl_ops st) empty_datadir in
  let d := headed heads (hd_number head) tables in
  accepted env head policy preimages -> head_lines (he_blocks env) = Ok heads -> fold_left better_head heads None = Some head ->
  state_lines (he_state env) = Ok rs -> state_of (to_stream <$> rs) = Ok st -> Forall (slot_ok preimages) rs ->
  trie_root (dd_hashed_accounts tables) (dd_hashed_storages tables) = Ok (bh_state_root (hd_header head)) ->
  he_sealed_header env (dd_headers d) (hd_number head) = Some (hd_hash head, header) ->
  head_datadir env head policy preimages (set_complete (head_manifest head) (set_renamed d)).
Proof.
  intros tables d Hacc Hl Hbest Hrs Hst Hok Hroot Hsealed. pose proof (best_head_spec _ _ _ Hbest) as ([Hin|[=]] & Hmax & _).
  assert (Ha : authenticated head).
  { apply head_lines_authenticated in Hl. rewrite Forall_forall in Hl. by apply Hl. }
  pose proof Hacc as (expected & stats & _ & _ & _ & Hid & Hpre & Hp).
  apply preflight_spec in Hp as (rs' & st' & Hrs' & Hst' & _ & Hsub & _). rewrite Hrs in Hrs'. injection Hrs' as <-.
  rewrite Hst in Hst'. injection Hst' as <-.
  destruct (state_tables_ok (to_stream <$> rs) st empty_datadir Hst Hsub) as [Hcode Hslots]; try done.
  { intros c code. by eapply state_lines_code. }
  assert (Hd : d = headed heads (hd_number head) tables) by done. unfold headed in Hd. rewrite append_heads_eq in Hd. clearbody d.
  assert (Ht : dd_hashed_accounts d = dd_hashed_accounts tables /\ dd_hashed_storages d = dd_hashed_storages tables /\
               dd_bytecodes d = dd_bytecodes tables) by (rewrite Hd; done). destruct Ht as (T1 & T2 & T3).
  unfold tables in Hd. rewrite apply_ops_empty in Hd. cbn in Hd.
  split; cbn; rewrite ?T1, ?T2, ?T3; try done.
  - exists heads. by rewrite Hd.
  - by exists header.
  - by exists rs, st.
  - intros version o h v Hv H20 Hin'. apply validate_snapshot_identity_spec in Hid as (_ & version' & Hv' & Hreq & _).
    rewrite Hv in Hv'. injection Hv' as <-. rewrite H20 in Hreq. unfold open_preimages in Hpre. rewrite Hreq in Hpre. cbn [negb] in Hpre.
    destruct (negb (pd_mdbx _)); [done|]. apply rbind_Ok in Hpre as (m & _ & Hpre). apply rbind_Ok in Hpre as (get & _ & [= <-]).
    pose proof (Hslots _ _ _ Hin') as [Hnz _].
    apply apply_ops_slots in Hin' as [Hin'|Hin']; [|by apply not_elem_of_empty in Hin'].
    apply (state_of_slots _ _ _ _ _ Hst), list_elem_of_fmap in Hin' as (r & Hr & Hin'). rewrite Forall_forall in Hok.
    specialize (Hok r Hin'). destruct r; try done. injection Hr as <- <-. apply Hok, check_preimage_Some in Hnz as (plain & Hg & Hpl).
    by exists get, plain.
  - by rewrite Hd.
  - exists (head_manifest head). split_and!; [done..|]. by eapply launch_accepts.
Qed.

Definition head_imported (env : HeadImportEnv) (d : Datadir) : Prop :=
  exists head policy preimages, accepted env head policy preimages /\ head_datadir env head policy preimages d.

Lemma import_spec (env : HeadImportEnv) (w : Work) :
  w_dir w = empty_datadir ->
  wp (import trie_root env) (fun _ w' => head_imported env (w_dir w'))
    (fun w' => w_dir w' = empty_datadir \/
       (exists head policy preimages, accepted env head policy preimages) /\ (incomplete w' \/ head_imported env (w_dir w'))) w.
Proof.
  intros Hw. assert (Hi : incomplete w) by (unfold incomplete; by rewrite Hw). unfold import.
  apply wp_bind, wp_lift; [by left|]. intros expected Hexp. apply wp_bind, wp_lift; [by left|]. intros [] Hfresh.
  apply wp_bind, wp_lift; [by left|]. intros head Hhead. apply wp_bind, wp_lift; [by left|]. intros policy Hid.
  apply wp_bind, wp_lift; [by left|]. intros preimages Hpre. apply wp_bind, wp_lift; [by left|]. intros stats Hp.
  apply wp_bind, wp_lift; [by left|]. intros [] _.
  assert (Hacc : accepted env head policy preimages) by (by exists expected, stats).
  assert (Hcr : forall w', incomplete w' -> w_dir w' = empty_datadir \/
    (exists head policy preimages, accepted env head policy preimages) /\ (incomplete w' \/ head_imported env (w_dir w'))).
  { intros w' Hi'. right. split; [by exists head, policy, preimages|by left]. }
  apply wp_bind. eapply wp_mono; [by apply stream_import_spec| |exact Hcr]. intros [] w1 (rs & st & Hrs & Hok & Hst & Hw1). rewrite Hw in Hw1.
  assert (Hi1 : incomplete w1) by (unfold incomplete; by rewrite Hw1, apply_ops_complete).
  apply wp_bind. eapply wp_mono; [by apply compute_state_root_spec| |exact Hcr]. intros root w2 [Hw2 Hroot]. rewrite Hw1 in Hw2, Hroot.
  assert (Hi2 : incomplete w2) by (unfold incomplete; by rewrite Hw2, apply_ops_complete).
  destruct (Z.eqb_spec root expected) as [->|]; cbn [negb]; [|by apply wp_raise, Hcr].
  apply wp_bind. eapply wp_mono; [by apply write_head_blocks_spec| |exact Hcr]. intros [n hash] w3 (heads & Hl & Hpick & Hw3).
  apply read_head_header_spec in Hhead as (heads' & Hl' & Hbest). rewrite Hl in Hl'. injection Hl' as <-.
  rewrite (pick_best heads None (0, 0) head (head_lines_authenticated _ _ Hl) eq_refl Hbest) in Hpick. injection Hpick as -> ->.
  rewrite Hw2 in Hw3.
  assert (Hi3 : incomplete w3).
  { unfold incomplete. rewrite Hw3. unfold headed. cbn. by rewrite append_heads_complete, apply_ops_complete. }
  apply wp_bind. unfold verify_head. apply wp_bind, wp_dir, wp_bind, wp_lift; [by apply Hcr|]. intros [hash header] Hsealed%ok_or_Ok.
  destruct (bool_decide _ && (hash =? hd_hash head)) eqn:Hv; [|by apply wp_raise, Hcr].
  apply andb_true_iff in Hv as [_ ->%Z.eqb_eq]. apply wp_ret, wp_bind. unfold verify_launch.
  apply wp_bind, wp_dir, wp_bind, wp_lift; [by apply Hcr|]. intros got _. destruct (got =? hd_hash head); [|by apply wp_raise, Hcr].
  apply wp_ret, wp_bind, wp_commit; [by apply Hcr|]. intros w4 Hw4. assert (Hi4 : incomplete w4) by (unfold incomplete; by rewrite Hw4).
  split; [by apply Hcr|]. apply wp_bind, wp_lift; [by apply Hcr|]. intros [] _. unfold write_snapshot_import_manifest.
  destruct (negb _); [by apply wp_raise, Hcr|]. apply wp_bind, wp_dir. rewrite Hi4. apply wp_commit; [by apply Hcr|]. intros w5 Hw5.
  pose proof (validate_snapshot_identity_spec _ _ _ Hid) as (Hsr & _).
  assert (Hdone : head_imported env (w_dir w5)).
  { exists head, policy, preimages. split; [done|]. rewrite Hw5, Hw4, Hw3. rewrite Hw3 in Hsealed.
    eapply (head_datadir_written env head policy preimages heads rs st header); try done. by rewrite Hsr. }
  split; [right; split; [by exists head, policy, preimages|by right]|done].
Qed.

(** C14. Only a whole import is marked complete. Whatever commits fail and wherever the power is lost,
    a fresh datadir carries the completion manifest after [import] only when it holds the state of
    the head: the head is the highest of the stream and its number and hash are its header's, the
    hashed tables are those of the stream and have the header's state root, the code that accounts
    name is there, slots are not zero, have an account and before ArbOS 20 a preimage, all stages and
    the history boundary are at the head, and the launch check accepts the manifest. A run that
    returns leaves such a datadir, and one that fails a check writes nothing. *)
Theorem import_complete (env : HeadImportEnv) (faults : list (Fault string)) (n n' : nat) (result : Result string unit) (w : Work) :
  import trie_root env ({| w_dir := empty_datadir; w_faults := faults |}, n) = (result, (w, n')) ->
  (is_Some (dd_complete (w_dir w)) -> head_imported env (w_dir w)) /\ (result = Ret tt -> is_Some (dd_complete (w_dir w))) /\
  (w_dir w = empty_datadir \/ exists head policy preimages, accepted env head policy preimages).
Proof.
  intros Hrun. pose proof (import_spec env {| w_dir := empty_datadir; w_faults := faults |} eq_refl n) as Hs. rewrite Hrun in Hs.
  assert (Hc : head_imported env (w_dir w) -> is_Some (dd_complete (w_dir w)) /\
    exists head policy preimages, accepted env head policy preimages).
  { intros (head & policy & pre & Hacc & Hd). destruct (hi_launch _ _ _ _ _ Hd) as (m & -> & _). split; [by eexists|by exists head, policy, pre]. }
  assert (Hn : incomplete w -> is_Some (dd_complete (w_dir w)) -> head_imported env (w_dir w)).
  { intros Hi [x Hx]. unfold incomplete in Hi. by rewrite Hi in Hx. }
  assert (He : w_dir w = empty_datadir -> incomplete w) by (unfold incomplete; by intros ->).
  destruct result as [[]|e|]; [split_and!; [done|by intros _; apply Hc|right; by apply Hc]|..];
    (split_and!; [|done|]); destruct Hs as [Hs|[Hacc Hs]]; try (by left); try (by right);
    [by intros H; apply Hn; [apply He|]|destruct Hs; [by apply Hn|done]|by intros H; apply Hn; [apply He|]|destruct Hs; [by apply Hn|done]].
Qed.

(** ** Repairing the boundary *)

(** The boundary moves only to the head of the stream, which the database has under its hash, and
    never back; a repair that fails leaves the datadir or has moved it there. *)
Theorem repair_history_spec (sealed : list (Z * Z * BlockHeader) -> Z -> option (Z * BlockHeader)) (lines : list (result string string))
    (best : Z) (checkpoints : list (option Z)) (w : Work) :
  let repaired d := exists head header, read_head_header lines = Ok head /\ hd_number head <= best /\
    sealed (dd_headers (w_dir w)) (hd_number head) = Some (hd_hash head, header) /\
    Forall (fun c => forall block, c = Some block -> block <= hd_number head) checkpoints /\ d = set_pruned (hd_number head) (w_dir w) in
  wp (repair_history sealed lines best checkpoints) (fun _ w' => repaired (w_dir w'))
    (fun w' => w_dir w' = w_dir w \/ repaired (w_dir w')) w.
Proof.
  intros repaired. unfold repair_history. apply wp_bind, wp_lift; [by left|]. intros head Hhead. apply wp_bind, wp_dir.
  destruct (Z.ltb_spec best (hd_number head)) as [|Hb]; [apply wp_raise; by left|].
  apply wp_bind, wp_lift; [by left|]. intros [hash header] Hs%ok_or_Ok. destruct (Z.eqb_spec hash (hd_hash head)) as [->|]; [|apply wp_raise; by left].
  cbn [negb]. destruct (existsb _ checkpoints) eqn:Hc; [apply wp_raise; by left|].
  assert (Hr : repaired (set_pruned (hd_number head) (w_dir w))).
  { exists head, header. split_and!; try done. apply Forall_forall. intros c Hin block ->. apply Z.nlt_ge. intros Hlt.
    assert (existsb (fun c => match c with Some block => hd_number head <? block | None => false end) checkpoints = true); [|congruence].
    apply existsb_exists. exists (Some block). split; [by apply list_elem_of_In|by apply Z.ltb_lt]. }
  apply wp_commit; [by left|]. intros w' ->. split; [by right|done].
Qed.
End Whole.

(** ** A small import *)

Module SampleImport.
#[local] Existing Instance Reference.keccak.
#[local] Existing Instance StoredReceipt.FixedWidth.codec.
Import SnapshotFullSafety.Sample.

Definition nibble (c : ascii) : option Z :=
  let n := Z.of_N (N_of_ascii c) in
  if (48 <=? n) && (n <=? 57) then Some (n - 48) else if (97 <=? n) && (n <=? 102) then Some (n - 87) else None.

Fixpoint nibbles (s : string) : option (list Z) :=
  match s with
  | EmptyString => Some []
  | String c s => n ← nibble c; ns ← nibbles s; Some (n :: ns)
  end.

Fixpoint pair_up (ns : list Z) : option bytes :=
  match ns with
  | [] => Some []
  | [_] => None
  | hi :: lo :: ns => bs ← pair_up ns; Some (z2b (16 * hi + lo) :: bs)
  end.

#[export] Instance hex_codec : HeadCodec := {|
  hex_decode s := ns ← nibbles s; pair_up ns;
  u256_from_hex s := ns ← nibbles s; Some (fold_left (fun a n => 16 * a + n) ns 0);
  arbos_format_version header := Some 32;
  arbos_20_enabled version := 20 <=? version
|}.

Definition digit_char (n : Z) : ascii := ascii_of_N (Z.to_N (if n <? 10 then 48 + n else 87 + n)).
Definition hex (bs : bytes) : string := foldr (fun b s => String (digit_char (b2z b / 16)) (String (digit_char (b2z b mod 16)) s)) EmptyString bs.
Definition word (v : Z) : string := hex (be_encode 32 v).

Definition code : bytes := [x60; x00].

(** An account with code and a slot, a slot that is zero and a blank line. *)
Definition state_text : list (result string string) :=
  Ok <$> [("A " ++ word 3 ++ " 1 0x40 " ++ word (Reference.digest code) ++ " " ++ word 7)%string; ("S " ++ word 1 ++ " 0x12c")%string;
          "  "%string; ("S " ++ word 2 ++ " 0")%string; ("C " ++ word (Reference.digest code) ++ " 6000")%string].

Definition blocks_text : list (result string string) :=
  [Ok ("H 301 " ++ word (Reference.digest header2) ++ " " ++ hex header2)%string].

Definition target : Target := {|
  tg_resume := false; tg_resume_tmp := false; tg_manifest := false; tg_db := None; tg_static_files := false; tg_rocksdb := false
|}.

Definition sample_env : HeadImportEnv := {|
  he_expect := ("0x" ++ word 1011)%string; he_target := target; he_blocks := blocks_text; he_state := state_text;
  he_preimage := {| pd_mdbx := false; pd_manifest := None |}; he_open_preimages := Err "no sidecar"%string; he_setup := Ok tt; he_chunks := 1;
  he_sealed_header headers n := match List.find (fun '(k, _, _) => k =? n) headers with Some (_, hash, header) => Some (hash, header) | None => None end;
  he_init_genesis d head := Ok (hd_hash head); he_sync := Ok tt
|}.

Definition start : Work := {| w_dir := empty_datadir; w_faults := [] |}.

Definition state_stats : StateStreamStats := {| st_accounts := 1; st_slots := 1; st_bytecodes := 1 |}.

Lemma preflight_import_exact_witness :
  preflight_state_stream state_text None = Ok state_stats /\
  exists rs st w' n', state_lines state_text = Ok rs /\ state_of (to_stream <$> rs) = Ok st /\
    stream_import state_text None (start, 6%nat) = (Ret tt, (w', n')) /\
    w_dir w' = fold_left apply_op (sl_ops st) empty_datadir /\ sl_wanted st ⊆ sl_provided st.
Proof.
  assert (Hp : preflight_state_stream state_text None = Ok state_stats) by (vm_compute; reflexivity).
  split; [exact Hp|].
  destruct (preflight_import_exact None state_text state_stats start 6 Hp eq_refl) as (rs & st & w' & n' & H1 & H2 & H3 & H4 & _ & H6 & _);
    [vm_compute; lia|]. exists rs, st, w', n'. split_and!; [exact H1|exact H2|exact H3|exact H4|exact H6].
Defined.

Definition run_import (n : nat) : Result string unit * (Work * nat) := import trie sample_env (start, n).

Lemma run_import_parts (n : nat) :
  import trie sample_env (start, n) = (fst (run_import n), (fst (snd (run_import n)), snd (snd (run_import n)))).
Proof. unfold run_import. destruct (import _ _ _) as [? [? ?]]. reflexivity. Qed.

Lemma run_import_ends : fst (run_import 20) = Ret tt /\ fst (run_import 5) = Crashed.
Proof. split; vm_compute; reflexivity. Qed.

(** Twenty commits are enough; after five the power is lost. *)
Lemma import_complete_witness :
  fst (run_import 20) = Ret tt /\ head_imported trie sample_env (w_dir (fst (snd (run_import 20)))) /\
  fst (run_import 5) = Crashed /\
  (is_Some (dd_complete (w_dir (fst (snd (run_import 5))))) -> head_imported trie sample_env (w_dir (fst (snd (run_import 5))))).
Proof.
  destruct run_import_ends as [H20 H5]. split; [exact H20|].
  destruct (import_complete trie sample_env [] 20 _ _ _ (run_import_parts 20)) as (Hc & Hr & _). split; [exact (Hc (Hr H20))|].
  split; [exact H5|]. exact (proj1 (import_complete trie sample_env [] 5 _ _ _ (run_import_parts 5))).
Defined.

Definition sample_head : Head := {| hd_number := 301; hd_hash := Reference.digest header2; hd_header := header2 |}.

(** The launch check does not see that an import stopped: after the power loss accounts are there, no
    manifest is, and [validate_snapshot_import_for_launch] accepts the datadir as an older one. *)
Theorem interrupted_import_launches :
  fst (run_import 5) = Crashed /\ dd_hashed_accounts (w_dir (fst (snd (run_import 5)))) <> ∅ /\
  dd_complete (w_dir (fst (snd (run_import 5)))) = None /\
  validate_snapshot_import_for_launch None (he_preimage sample_env) sample_head = Ok tt.
Proof.
  split; [exact (proj2 run_import_ends)|]. split; [|split; vm_compute; reflexivity].
  intros H. assert (Hs : size (dd_hashed_accounts (w_dir (fst (snd (run_import 5))))) = 1%nat) by (vm_compute; reflexivity).
  rewrite H in Hs. discriminate Hs.
Qed.
End SampleImport.
