(* ===== verification/BlockExecutor.v ===== *)
(** * The block executor

    [crates/arb-reth-evm/src/env.rs], [config.rs] and [block.rs]: the environment of a block from its
    header or its parent, the executor that runs transactions and keeps their receipts, and the
    assembler of the header. The EVM with ArbOS ([revm], [arb_revm]), header metadata and transaction
    types are outside the repository: the class [ArbRevm]. Timings and metrics are left out. *)

From Stdlib Require Import Strings.Byte Strings.String.
From stdpp Require Import base list numbers option strings.
From S2P Require Import Prelude External TxLog StoredReceipt.

(** ** Headers and environments *)

(** [alloy_consensus::Header] *)
Record Header := {
  parent_hash : Z; ommers_hash : Z; beneficiary : Z; state_root : Z; transactions_root : Z; receipts_root : Z;
  withdrawals_root : option Z; header_logs_bloom : Z; difficulty : Z; number : Z; gas_limit : Z; gas_used : Z;
  timestamp : Z; mix_hash : Z; nonce : bytes; base_fee_per_gas : option Z; extra_data : bytes;
  parent_beacon_block_root : option Z; blob_gas_used : option Z; excess_blob_gas : option Z; requests_hash : option Z;
  block_access_list_hash : option Z; slot_number : option Z
}.

Record SealedHeader := { sealed_header : Header; sealed_hash : Z }.

(** [ArbHeaderInfo], which Nitro keeps in [extra_data] and [mix_hash]. *)
Record ArbHeaderInfo := {
  hi_send_root : Z; hi_send_count : Z; hi_l1_block_number : Z; hi_arbos_format_version : Z; hi_collect_tips : bool
}.

(** [arb_revm::ArbBlockHeaderInfo], and its default. *)
Record ArbBlockHeaderInfo := {
  bi_send_root : Z; bi_send_count : Z; bi_l1_block_number : Z; bi_arbos_version : Z; bi_collect_tips : bool
}.

Definition default_header_info : ArbBlockHeaderInfo := {|
  bi_send_root := 0; bi_send_count := 0; bi_l1_block_number := 0; bi_arbos_version := 0; bi_collect_tips := false
|}.

(** revm's [BlockEnv]. *)
Record BlockEnv := {
  be_number : Z; be_beneficiary : Z; be_timestamp : Z; be_gas_limit : Z; be_basefee : Z; be_difficulty : Z;
  be_prevrandao : option Z
}.

Record ArbBlockEnv := { env_inner : BlockEnv; env_l1_block_number : Z; env_base_fee_in_block : Z }.

Definition arb_block_env_new (inner : BlockEnv) (l1_block_number : Z) : ArbBlockEnv := {|
  env_inner := inner; env_l1_block_number := l1_block_number; env_base_fee_in_block := be_basefee inner
|}.

(** The fields of revm's [CfgEnv] that are set. *)
Record CfgEnv {Spec : Type} := {
  cfg_spec : Spec; cfg_chain_id : Z; disable_priority_fee_check : bool; disable_balance_check : bool; disable_eip7623 : bool;
  disable_eip3541 : bool; tx_gas_limit_cap : option Z; limit_contract_code_size : option Z
}.
Arguments CfgEnv : clear implicits.

Record EvmEnv {Spec : Type} := { env_cfg : CfgEnv Spec; env_block : ArbBlockEnv }.
Arguments EvmEnv : clear implicits.

(** ** What is outside *)

(** How a transaction ends. *)
Record ExecutionResult := { is_success : bool; tx_gas_used : Z; result_logs : list Log }.

(** The input of [start_block_prelude]. *)
Record StartBlockInput := {
  sb_parent_number : Z; sb_sequence_number : option Z; sb_l1_block_number : Z; sb_poster : Z; sb_l1_base_fee_wei : Z;
  sb_chain_id : Z; sb_l2_block_number : Z; sb_time_last_block : Z
}.

(** Flags of an account in a state update. *)
Record AccountFlags := { is_selfdestructed : bool; is_created : bool; is_empty : bool }.

Class ArbRevm := {
  (** Transactions. *)
  ArbTxEnvelope : Type;
  tx_ty : ArbTxEnvelope -> u8;
  tx_hash : ArbTxEnvelope -> Z;
  tx_sender : ArbTxEnvelope -> result string Z;
  internal_tx : Z -> bytes -> ArbTxEnvelope;
  (** Versions. *)
  ArbSpecId : Type;
  from_arbos_version : Z -> ArbSpecId;
  default_spec : ArbSpecId;
  arbos_30_enabled : ArbSpecId -> bool;
  (** Header metadata and the roots of a body. *)
  decode_header : Header -> option ArbHeaderInfo;
  is_arbitrum : ArbHeaderInfo -> bool;
  encode_mix_hash : ArbHeaderInfo -> Z;
  encode_extra_data : ArbHeaderInfo -> bytes;
  transaction_root : list ArbTxEnvelope -> Z;
  receipt_root : list ArbReceiptEnvelope -> Z;
  SYSTEM_ADDRESS : Z;
  HISTORY_STORAGE_ADDRESS : Z;
  ARB_BATCH_POSTER_ADDRESS : Z;
  start_block_prelude : StartBlockInput -> option bytes;
  (** The EVM over a state: its environment, its chain context, the updates it was given, and the
      updates its state hook saw while one was set. *)
  StateProvider : Type;
  EvmState : Type;
  state_values : EvmState -> list AccountFlags;
  CacheState : Type;
  ArbChainContext : Type;
  Evm : Type;
  evm_new : StateProvider -> EvmEnv ArbSpecId -> Evm;
  evm_env_of : Evm -> EvmEnv ArbSpecId;
  modify_block : (ArbBlockEnv -> ArbBlockEnv) -> Evm -> Evm;
  chain : Evm -> ArbChainContext;
  poster_gas : Evm -> Z;
  set_l1_block_number : Z -> Evm -> Evm;
  set_base_fee_in_block : Z -> Evm -> Evm;
  cache : Evm -> CacheState;
  set_state_hook : bool -> Evm -> Evm;
  hooked : Evm -> list EvmState;
  transact : Evm -> ArbTxEnvelope -> Z -> result string (ExecutionResult * EvmState) * Evm;
  transact_system_call : Evm -> Z -> Z -> bytes -> result string EvmState * Evm;
  evm_commit : EvmState -> Evm -> Evm;
  read_base_fee_wei : Evm -> result string Z * Evm;
  read_block_header_info : Evm -> result string ArbBlockHeaderInfo * Evm;
  is_redeem_scheduled_log : Log -> bool;
  scheduled_retries_from_redeem_logs : Evm -> list Log -> Z -> list ArbTxEnvelope * Evm
}.

Section Config.
Context {AR : ArbRevm}.

(** ** Configuration *)

Definition DEFAULT_MAX_CODE_SIZE : Z := 24576.
Definition ARB_ONE_CHAIN_ID : Z := 42161.

Record ArbEvmConfig := { ec_chain_id : Z; ec_max_code_size : Z }.

Definition evm_config_new (chain_id : Z) : ArbEvmConfig := {|
  ec_chain_id := chain_id; ec_max_code_size := DEFAULT_MAX_CODE_SIZE
|}.

Definition arbitrum_one : ArbEvmConfig := evm_config_new ARB_ONE_CHAIN_ID.

Definition with_max_code_size (c : ArbEvmConfig) (max_code_size : Z) : ArbEvmConfig :=
  if negb (max_code_size =? 0) then {| ec_chain_id := ec_chain_id c; ec_max_code_size := max_code_size |} else c.

Definition cfg_env (c : ArbEvmConfig) (spec : ArbSpecId) : CfgEnv ArbSpecId := {|
  cfg_spec := spec; cfg_chain_id := ec_chain_id c; disable_priority_fee_check := true; disable_balance_check := false;
  disable_eip7623 := true; disable_eip3541 := arbos_30_enabled spec; tx_gas_limit_cap := Some U64_MAX;
  limit_contract_code_size := Some (ec_max_code_size c)
|}.

Definition build_evm_env (c : ArbEvmConfig) (spec : ArbSpecId)
    (number beneficiary timestamp gas_limit basefee difficulty l1_block_number : Z) : EvmEnv ArbSpecId := {|
  env_cfg := cfg_env c spec;
  env_block := arb_block_env_new {|
    be_number := number; be_beneficiary := beneficiary; be_timestamp := timestamp; be_gas_limit := gas_limit;
    be_basefee := basefee; be_difficulty := difficulty; be_prevrandao := Some difficulty |} l1_block_number
|}.

Definition spec_for_header (h : Header) : ArbSpecId :=
  match decode_header h with
  | Some info => if is_arbitrum info then from_arbos_version (hi_arbos_format_version info) else default_spec
  | None => default_spec
  end.

Definition l1_block_number_for_header (h : Header) : Z :=
  match decode_header h with
  | Some info => if is_arbitrum info then hi_l1_block_number info else 0
  | None => 0
  end.

Definition evm_env (c : ArbEvmConfig) (h : Header) : EvmEnv ArbSpecId :=
  build_evm_env c (spec_for_header h) (number h) (beneficiary h) (timestamp h) (gas_limit h)
    (default 0 (base_fee_per_gas h)) (difficulty h) (l1_block_number_for_header h).

Record ArbNextBlockEnvAttributes := {
  na_timestamp : Z; na_suggested_fee_recipient : Z; na_prev_randao : Z; na_gas_limit : Z; na_l1_block_number : Z;
  na_l1_base_fee_wei : Z; na_arbos_format_version : Z; na_delayed_messages_read : Z; na_extra_data : bytes
}.

Definition next_evm_env (c : ArbEvmConfig) (parent : Header) (attributes : ArbNextBlockEnvAttributes) : EvmEnv ArbSpecId :=
  build_evm_env c (from_arbos_version (na_arbos_format_version attributes)) (wrapping_add (number parent) 1)
    (na_suggested_fee_recipient attributes) (na_timestamp attributes) (na_gas_limit attributes)
    (default 0 (base_fee_per_gas parent)) 1 (na_l1_block_number attributes).

(** The execution context of a block; the last field is the cell that the executor fills for the assembler. *)
Record ArbBlockExecutionCtx := {
  xc_parent_hash : Z; xc_extra_data : bytes; xc_l1_base_fee_wei : Z; xc_l1_block_number : Z; xc_time_last_block : Z;
  xc_sequence_number : option Z; xc_poster : Z; xc_delayed_messages_read : Z; header_info_out : option ArbBlockHeaderInfo
}.

Definition context_for_block (h : Header) : ArbBlockExecutionCtx := {|
  xc_parent_hash := parent_hash h; xc_extra_data := extra_data h; xc_l1_base_fee_wei := 0;
  xc_l1_block_number := l1_block_number_for_header h; xc_time_last_block := 0; xc_sequence_number := None;
  xc_poster := beneficiary h; xc_delayed_messages_read := be_decode (nonce h); header_info_out := None
|}.

Definition context_for_next_block (parent : Header) (parent_hash : Z) (attributes : ArbNextBlockEnvAttributes)
    : ArbBlockExecutionCtx := {|
  xc_parent_hash := parent_hash; xc_extra_data := na_extra_data attributes; xc_l1_base_fee_wei := na_l1_base_fee_wei attributes;
  xc_l1_block_number := na_l1_block_number attributes;
  xc_time_last_block := saturating_sub (na_timestamp attributes) (timestamp parent); xc_sequence_number := None;
  xc_poster := na_suggested_fee_recipient attributes; xc_delayed_messages_read := na_delayed_messages_read attributes;
  header_info_out := None
|}.
End Config.

Section Executor.
Context {AR : ArbRevm} {RC : ReceiptCodec}.

(** ** The executor *)

Record ArbTxResult := { tr_result : ExecutionResult; tr_state : EvmState; tr_gas_used_for_l1 : Z; tr_tx_type : u8 }.

Record ArbBlockExecutor := {
  ex_evm : Evm; ex_ctx : ArbBlockExecutionCtx; ex_chain_id : Z; ex_receipts : list ArbReceiptEnvelope; ex_gas_used : Z
}.

Definition executor_new (evm : Evm) (ctx : ArbBlockExecutionCtx) (chain_id : Z) : ArbBlockExecutor := {|
  ex_evm := evm; ex_ctx := ctx; ex_chain_id := chain_id; ex_receipts := []; ex_gas_used := 0
|}.

(** The executor with another EVM. *)
Definition with_evm (ex : ArbBlockExecutor) (evm : Evm) : ArbBlockExecutor := {|
  ex_evm := evm; ex_ctx := ex_ctx ex; ex_chain_id := ex_chain_id ex; ex_receipts := ex_receipts ex; ex_gas_used := ex_gas_used ex
|}.

Definition create_executor (chain_id : Z) (evm : Evm) (ctx : ArbBlockExecutionCtx) : ArbBlockExecutor :=
  executor_new (set_l1_block_number (xc_l1_block_number ctx) evm) ctx chain_id.

Definition build_arb_receipt (tx_type : u8) (result : ExecutionResult) (cumulative_gas_used gas_used_for_l1 : Z)
    : ArbReceiptEnvelope :=
  let logs := result_logs result in
  receipt_envelope_for_type tx_type {|
    rwb_receipt := {| r_status := is_success result; r_cumulative_gas_used := cumulative_gas_used; r_logs := logs;
                      r_gas_used_for_l1 := gas_used_for_l1 |};
    rwb_logs_bloom := logs_bloom logs |}.

Definition apply_pre_execution_changes (ex : ArbBlockExecutor) : result string ArbBlockExecutor :=
  let '(result, evm) := transact_system_call (ex_evm ex) SYSTEM_ADDRESS HISTORY_STORAGE_ADDRESS
                          (be_encode 32 (xc_parent_hash (ex_ctx ex))) in
  let? state := result in
  Ok (with_evm ex (evm_commit state evm)).

Definition execute_transaction_without_commit (ex : ArbBlockExecutor) (tx : ArbTxEnvelope) (sender : Z)
    : result string ArbTxResult * ArbBlockExecutor :=
  let '(result, evm) := transact (ex_evm ex) tx sender in
  match result with
  | Err e => (Err e, with_evm ex evm)
  | Ok (result, state) =>
      (Ok {| tr_result := result; tr_state := state; tr_gas_used_for_l1 := poster_gas evm; tr_tx_type := tx_ty tx |},
       with_evm ex evm)
  end.

Definition commit_transaction (ex : ArbBlockExecutor) (output : ArbTxResult) : ArbBlockExecutor :=
  let total := wrapping_add (ex_gas_used ex) (tx_gas_used (tr_result output)) in {|
    ex_evm := evm_commit (tr_state output) (ex_evm ex); ex_ctx := ex_ctx ex; ex_chain_id := ex_chain_id ex;
    ex_receipts := ex_receipts ex ++ [build_arb_receipt (tr_tx_type output) (tr_result output) total (tr_gas_used_for_l1 output)];
    ex_gas_used := total
  |}.

(** The receipt inside its envelope. *)
Definition receipt_of (r : ArbReceiptEnvelope) : ArbReceipt :=
  match r with
  | Legacy r | Eip2930 r | Eip1559 r | Eip4844 r | Eip7702 r | Deposit r | Unsigned r | Contract r | Retry r
  | SubmitRetryable r | Internal r => rwb_receipt r
  end.

Record BlockExecutionResult := { br_receipts : list ArbReceiptEnvelope; br_gas_used : Z; br_blob_gas_used : Z }.

Definition set_header_info (info : ArbBlockHeaderInfo) (c : ArbBlockExecutionCtx) : ArbBlockExecutionCtx := {|
  xc_parent_hash := xc_parent_hash c; xc_extra_data := xc_extra_data c; xc_l1_base_fee_wei := xc_l1_base_fee_wei c;
  xc_l1_block_number := xc_l1_block_number c; xc_time_last_block := xc_time_last_block c;
  xc_sequence_number := xc_sequence_number c; xc_poster := xc_poster c;
  xc_delayed_messages_read := xc_delayed_messages_read c; header_info_out := Some info
|}.

(** The EVM, the context with its cell filled, and the result. *)
Definition finish (ex : ArbBlockExecutor) : result string (Evm * ArbBlockExecutionCtx * BlockExecutionResult) :=
  let '(info, evm) := read_block_header_info (ex_evm ex) in
  let? info := info in
  let gas_used := match last (ex_receipts ex) with
                  | Some r => r_cumulative_gas_used (receipt_of r)
                  | None => 0
                  end in
  Ok (evm, set_header_info info (ex_ctx ex),
      {| br_receipts := ex_receipts ex; br_gas_used := gas_used; br_blob_gas_used := 0 |}).

Definition start_block_input (ex : ArbBlockExecutor) (l2_block_number : Z) : StartBlockInput := {|
  sb_parent_number := saturating_sub l2_block_number 1; sb_sequence_number := xc_sequence_number (ex_ctx ex);
  sb_l1_block_number := xc_l1_block_number (ex_ctx ex); sb_poster := xc_poster (ex_ctx ex);
  sb_l1_base_fee_wei := xc_l1_base_fee_wei (ex_ctx ex); sb_chain_id := ex_chain_id ex;
  sb_l2_block_number := l2_block_number; sb_time_last_block := xc_time_last_block (ex_ctx ex)
|}.

Definition start_block_tx (ex : ArbBlockExecutor) : option ArbTxEnvelope :=
  let l2_block_number := be_number (env_inner (env_block (evm_env_of (ex_evm ex)))) in
  data ← start_block_prelude (start_block_input ex l2_block_number);
  Some (internal_tx (ex_chain_id ex) data).

(** ** The assembler *)

Definition EMPTY_OMMER_ROOT_HASH : Z := 0x1dcc4de8dec75d7aab85b567b6ccd41ad312451b948a7413f0a142fd40d49347.

Record Block := { blk_header : Header; blk_transactions : list ArbTxEnvelope }.

Definition header_info (ctx : ArbBlockExecutionCtx) (env : ArbBlockEnv) : ArbHeaderInfo :=
  let computed := default default_header_info (header_info_out ctx) in {|
    hi_send_root := bi_send_root computed; hi_send_count := bi_send_count computed;
    hi_l1_block_number := bi_l1_block_number computed; hi_arbos_format_version := bi_arbos_version computed;
    hi_collect_tips := bi_collect_tips computed && (be_beneficiary (env_inner env) =? ARB_BATCH_POSTER_ADDRESS)
  |}.

(** The environment's number and timestamp were made from 64-bit ones, so that converting them back,
    which saturates, keeps them. *)
Definition assemble_block (env : ArbBlockEnv) (ctx : ArbBlockExecutionCtx) (transactions : list ArbTxEnvelope)
    (output : BlockExecutionResult) (root : Z) : Block :=
  let block := env_inner env in
  let arb_info := header_info ctx env in {|
    blk_header := {|
      parent_hash := xc_parent_hash ctx; ommers_hash := EMPTY_OMMER_ROOT_HASH; beneficiary := be_beneficiary block;
      state_root := root; transactions_root := transaction_root transactions;
      receipts_root := receipt_root (br_receipts output); withdrawals_root := None;
      header_logs_bloom := logs_bloom (flat_map (fun r => r_logs (receipt_of r)) (br_receipts output));
      difficulty := 1; number := be_number block; gas_limit := be_gas_limit block; gas_used := br_gas_used output;
      timestamp := be_timestamp block; mix_hash := encode_mix_hash arb_info;
      nonce := be_encode 8 (xc_delayed_messages_read ctx); base_fee_per_gas := Some (be_basefee block);
      extra_data := encode_extra_data arb_info; parent_beacon_block_root := None; blob_gas_used := None;
      excess_blob_gas := None; requests_hash := None; block_access_list_hash := None; slot_number := None |};
    blk_transactions := transactions
  |}.
End Executor.
