(* ===== verification/Production.v ===== *)
(** * Block production

    [produce_with_timing] of [crates/arb-reth-engine/src/engine.rs] and its caller
    [ArbPayloadBuilder::build] of [native_payload.rs]: one ordered message becomes a block over its
    parent. The start-block transaction comes first, then every user transaction with the retries it
    schedules; the state root comes from a task that watched the updates, unless it cannot represent
    them. Message digestion and Reth's block builder are parameters; timings are left out. *)

From Stdlib Require Import Strings.Byte Strings.String.
From stdpp Require Import base list numbers option strings gmap.
From S2P Require Import Prelude External TxLog StoredReceipt L1Decode BlockExecutor.

(** ** What production meets *)

Record ArbParentHeader := {
  ph_number : Z; ph_timestamp : Z; ph_beneficiary : Z; ph_basefee : Z; ph_gas_limit : Z; ph_difficulty : Z; ph_prevrandao : option Z
}.

(** The envelope that [digest_message] returns, with the gas limit of its configuration. *)
Record ArbExecutionInput {AR : ArbRevm} := {
  mi_l1_block_number : Z; mi_l1_timestamp : Z; mi_poster : Z; mi_l1_base_fee_wei : Z; mi_delayed_messages_read : Z;
  mi_txs : list ArbTxEnvelope; mi_block_gas_limit : Z
}.

Class Digest {AR : ArbRevm} := {
  digest_message : BroadcastFeedMessage -> ArbParentHeader -> Z -> Z -> result string ArbExecutionInput
}.

Section Parameters.
Context {AR : ArbRevm} {RC : ReceiptCodec}.

(** An open builder: the executor and the transactions that it included. *)
Definition Building : Type := ArbBlockExecutor * list ArbTxEnvelope.

Record Outcome := { oc_block : Block; oc_result : BlockExecutionResult; oc_evm : Evm }.

(** Reth's [BasicBlockBuilder] over the executor, and the root of the merged updates over the trie
    of the parent. *)
Class BlockBuilder := {
  execute_transaction_with_result_closure : Building -> ArbTxEnvelope -> Z -> result string ArbTxResult * Building;
  builder_finish : StateProvider -> Building -> option Z -> result string Outcome;
  synchronous_root : StateProvider -> Evm -> result string Z
}.
End Parameters.

(** ** Hazards of the sparse root *)

Definition SPARSE_HAZARD_SELFDESTRUCT : Z := Z.shiftl 1 0.
Definition SPARSE_HAZARD_CREATED_EMPTY : Z := Z.shiftl 1 1.

Section Production.
Context {K : Keccak} {AR : ArbRevm} {RC : ReceiptCodec} {DG : Digest} {BB : BlockBuilder}.

Definition account_hazard (preserve_created_empty_accounts : bool) (hazards : Z) (account : AccountFlags) : Z :=
  let hazards := if is_selfdestructed account then Z.lor hazards SPARSE_HAZARD_SELFDESTRUCT else hazards in
  if preserve_created_empty_accounts && is_created account && is_empty account
  then Z.lor hazards SPARSE_HAZARD_CREATED_EMPTY else hazards.

Definition sparse_root_hazards (state : EvmState) (preserve_created_empty_accounts : bool) : Z :=
  fold_left (account_hazard preserve_created_empty_accounts) (state_values state) 0.

(** What the hook of the state-root task has collected. *)
Definition sparse_hazards_seen (preserve : bool) (updates : list EvmState) : Z :=
  fold_left (fun seen update => Z.lor seen (sparse_root_hazards update preserve)) updates 0.

(** ** The transaction-log stream *)

Abbreviation FrontierStore := (ArbExecutionFrontierStore (EvmState := EvmState) (EvmEnv := EvmEnv ArbSpecId)
  (CacheState := CacheState) (ChainContext := ArbChainContext)).
Abbreviation FrontierBlock := (ArbExecutionFrontierBlock (EvmState := EvmState) (EvmEnv := EvmEnv ArbSpecId)
  (CacheState := CacheState)).

(** The store, the block being observed, what was published, and whether a client is there when the
    next transactions run. *)
Record TxLogStream := {
  ts_store : FrontierStore; ts_block : FrontierBlock; ts_published : list ArbTxLogEvent; ts_subscribed : nat -> bool
}.

Definition has_subscribers (s : TxLogStream) : bool := ts_subscribed s O.

(** The observation of a committed transaction. *)
Definition observe_transaction (s : TxLogStream) (evm : Evm) (block transaction_index : Z) (tx : ArbTxEnvelope)
    (kind : ArbTxExecutionKind) (res : ArbTxResult) : TxLogStream :=
  let '(frontier_id, frontier, store) :=
    advance (ts_store s) (ts_block s) block transaction_index (tx_hash tx) (tr_state res) (chain evm) in {|
    ts_store := store; ts_block := frontier;
    ts_published :=
      if has_subscribers s then
        ts_published s ++ [{| te_block_number := block; te_transaction_index := transaction_index; te_transaction_hash := tx_hash tx;
                              te_frontier_id := frontier_id; te_kind := kind; te_success := is_success (tr_result res);
                              te_gas_used := tx_gas_used (tr_result res); te_logs := result_logs (tr_result res) |}]
      else ts_published s;
    ts_subscribed := fun n => ts_subscribed s (S n)
  |}.

(** A transaction that was not committed is not observed. *)
Definition pass_transaction (s : TxLogStream) : TxLogStream := {|
  ts_store := ts_store s; ts_block := ts_block s; ts_published := ts_published s; ts_subscribed := fun n => ts_subscribed s (S n)
|}.

(** ** The execution loop *)

Record ProduceLoop := {
  pl_building : Building;
  pl_first : option ArbTxEnvelope;
  pl_redeems : list ArbTxEnvelope;
  pl_user_txs : list (ArbTxEnvelope * result string Z);
  pl_transaction_index : Z;
  pl_stream : option TxLogStream
}.

(** The start-block transaction, then scheduled retries, then user transactions. *)
Definition next_transaction (st : ProduceLoop) : option (ArbTxEnvelope * result string Z * ArbTxExecutionKind * ProduceLoop) :=
  match pl_first st with
  | Some t =>
      Some (t, tx_sender t, StartBlock,
        {| pl_building := pl_building st; pl_first := None; pl_redeems := pl_redeems st; pl_user_txs := pl_user_txs st;
           pl_transaction_index := pl_transaction_index st; pl_stream := pl_stream st |})
  | None =>
      match pl_redeems st with
      | t :: redeems =>
          Some (t, tx_sender t, ScheduledRetry,
            {| pl_building := pl_building st; pl_first := None; pl_redeems := redeems; pl_user_txs := pl_user_txs st;
               pl_transaction_index := pl_transaction_index st; pl_stream := pl_stream st |})
      | [] =>
          match pl_user_txs st with
          | (t, sender) :: user_txs =>
              Some (t, sender, User,
                {| pl_building := pl_building st; pl_first := None; pl_redeems := []; pl_user_txs := user_txs;
                   pl_transaction_index := pl_transaction_index st; pl_stream := pl_stream st |})
          | [] => None
          end
      end
  end.

Definition is_internal (kind : ArbTxExecutionKind) : bool :=
  match kind with
  | StartBlock => true
  | _ => false
  end.

(** The retries of a successful transaction with redeem logs. *)
Definition schedule_retries (chain_id : Z) (b : Building) (res : ArbTxResult) : list ArbTxEnvelope * Building :=
  let logs := List.filter is_redeem_scheduled_log (result_logs (tr_result res)) in
  if is_success (tr_result res) && negb (bool_decide (logs = [])) then
    let '(retries, evm) := scheduled_retries_from_redeem_logs (ex_evm (fst b)) logs chain_id in
    (retries, (with_evm (fst b) evm, snd b))
  else ([], b).

(** One turn of the loop; [None] at its end. *)
Definition produce_step (chain_id block : Z) (st : ProduceLoop) : result string (option ProduceLoop) :=
  match next_transaction st with
  | None => Ok None
  | Some (tx, sender_result, kind, st) =>
      let? sender := sender_result in
      match execute_transaction_with_result_closure (pl_building st) tx sender with
      | (Err e, b) =>
          if is_internal kind then Err e
          else
            Ok (Some {| pl_building := b; pl_first := pl_first st; pl_redeems := pl_redeems st; pl_user_txs := pl_user_txs st;
                        pl_transaction_index := pl_transaction_index st; pl_stream := pass_transaction <$> pl_stream st |})
      | (Ok res, b) =>
          let stream := (fun s => observe_transaction s (ex_evm (fst b)) block (pl_transaction_index st) tx kind res) <$> pl_stream st in
          let '(retries, b) := schedule_retries chain_id b res in
          Ok (Some {| pl_building := b; pl_first := pl_first st; pl_redeems := pl_redeems st ++ retries;
                      pl_user_txs := pl_user_txs st; pl_transaction_index := wrapping_add (pl_transaction_index st) 1;
                      pl_stream := stream |})
      end
  end.

Fixpoint produce_loop (fuel : nat) (chain_id block : Z) (st : ProduceLoop) : result string ProduceLoop :=
  match fuel with
  | O => Err "out of fuel"%string
  | S fuel =>
      let? next := produce_step chain_id block st in
      match next with
      | Some st => produce_loop fuel chain_id block st
      | None => Ok st
      end
  end.

(** ** The state root *)

(** The task's answer for the updates that its hook saw. *)
Definition StateRootTask : Type := list EvmState -> result string Z.

Definition precomputed_root (version : Z) (task : option StateRootTask) (updates : list EvmState) : option Z :=
  match task with
  | Some task =>
      let preserve := negb (arbos_30_enabled (from_arbos_version version)) in
      if negb (sparse_hazards_seen preserve updates =? 0) then None
      else
        match task updates with
        | Ok root => Some root
        | Err _ => None
        end
  | None => None
  end.

(** The hook is removed before the root is taken. *)
Definition take_root (version : Z) (task : option StateRootTask) (b : Building) : option Z * Building :=
  match task with
  | Some _ =>
      let evm := ex_evm (fst b) in
      (precomputed_root version task (hooked evm), (with_evm (fst b) (set_state_hook false evm), snd b))
  | None => (None, b)
  end.

(** ** Production *)

Definition arbos_version (parent : Header) : Z :=
  match decode_header parent with
  | Some info => hi_arbos_format_version info mod 256
  | None => 0
  end.

Definition arb_parent_of (parent : Header) : ArbParentHeader := {|
  ph_number := number parent; ph_timestamp := timestamp parent; ph_beneficiary := beneficiary parent;
  ph_basefee := default 0 (base_fee_per_gas parent); ph_gas_limit := gas_limit parent; ph_difficulty := difficulty parent;
  ph_prevrandao := Some (mix_hash parent)
|}.

Definition next_block_attributes (parent : Header) (input : ArbExecutionInput) (version : Z) : ArbNextBlockEnvAttributes := {|
  na_timestamp := Z.max (mi_l1_timestamp input) (timestamp parent); na_suggested_fee_recipient := mi_poster input;
  na_prev_randao := 0; na_gas_limit := mi_block_gas_limit input; na_l1_block_number := mi_l1_block_number input;
  na_l1_base_fee_wei := mi_l1_base_fee_wei input; na_arbos_format_version := version;
  na_delayed_messages_read := mi_delayed_messages_read input; na_extra_data := []
|}.

(** The block's base fee is the one in ArbOS state before its first transaction. *)
Definition set_block_base_fee (block_base_fee : Z) (b : ArbBlockEnv) : ArbBlockEnv := {|
  env_inner := {| be_number := be_number (env_inner b); be_beneficiary := be_beneficiary (env_inner b);
                  be_timestamp := be_timestamp (env_inner b); be_gas_limit := be_gas_limit (env_inner b);
                  be_basefee := block_base_fee; be_difficulty := be_difficulty (env_inner b);
                  be_prevrandao := be_prevrandao (env_inner b) |};
  env_l1_block_number := env_l1_block_number b; env_base_fee_in_block := block_base_fee
|}.

(** The executor before the first transaction. *)
Definition open_block (config : ArbEvmConfig) (chain_id : Z) (parent : SealedHeader) (input : ArbExecutionInput)
    (state : StateProvider) (hook : bool) : result string ArbBlockExecutor :=
  let header := sealed_header parent in
  let attrs := next_block_attributes header input (arbos_version header) in
  let evm := evm_new state (next_evm_env config header attrs) in
  let executor := create_executor chain_id evm (context_for_next_block header (sealed_hash parent) attrs) in
  let executor := if hook then with_evm executor (set_state_hook true (ex_evm executor)) else executor in
  let? executor := apply_pre_execution_changes executor in
  let '(block_base_fee, evm) := read_base_fee_wei (ex_evm executor) in
  let? block_base_fee := block_base_fee in
  let block_base_fee := if block_base_fee <=? U64_MAX then block_base_fee else U64_MAX in
  Ok (with_evm executor (set_base_fee_in_block block_base_fee (modify_block (set_block_base_fee block_base_fee) evm))).

(** The stream of a client that follows production: the store and its clients. *)
Record StreamHandle := { sth_store : FrontierStore; sth_subscribed : nat -> bool }.

Definition begin_stream (parent : SealedHeader) (executor : ArbBlockExecutor) (handle : StreamHandle) : TxLogStream := {|
  ts_store := sth_store handle;
  ts_block := begin_frontier_block (sealed_hash parent) (evm_env_of (ex_evm executor)) (cache (ex_evm executor));
  ts_published := []; ts_subscribed := sth_subscribed handle
|}.

Record Produced := { pr_outcome : Outcome; pr_stream : option TxLogStream }.

Definition produce_with_timing (fuel : nat) (config : ArbEvmConfig) (chain_id : Z) (parent : SealedHeader)
    (feed_msg : BroadcastFeedMessage) (exec_state trie_state : StateProvider) (task : option StateRootTask)
    (tx_log_stream : option StreamHandle) : result string Produced :=
  let header := sealed_header parent in
  let version := arbos_version header in
  let? input := digest_message feed_msg (arb_parent_of header) chain_id version in
  let? executor := open_block config chain_id parent input exec_state (bool_decide (is_Some task)) in
  let? st := produce_loop fuel chain_id (wrapping_add (number header) 1) {|
    pl_building := (executor, []); pl_first := start_block_tx executor; pl_redeems := [];
    pl_user_txs := (fun tx => (tx, tx_sender tx)) <$> mi_txs input; pl_transaction_index := 0;
    pl_stream := begin_stream parent executor <$> tx_log_stream |} in
  let '(precomputed, building) := take_root version task (pl_building st) in
  let? outcome := builder_finish trie_state building precomputed in
  Ok {| pr_outcome := outcome; pr_stream := pl_stream st |}.
End Production.
