(* ===== verification/ProductionSpec.v ===== *)
(** * What production returns

    Over [Production]: the order of a block's transactions is Nitro's, the loop ends since
    retries run on gas that was donated to them, the block does not depend on who watches or on the state-root task, and
    its header, receipts and observations agree with what was executed. *)

From Stdlib Require Import Strings.Byte Strings.String.
From stdpp Require Import base list numbers option strings gmap.
From S2P Require Import Prelude External TxLog StoredReceipt L1Decode BlockExecutor Production.

(** ** What is relied on *)

(** revm: updates enter the state by a commit only; the environment is the one it was made with,
    until it is modified; the hook sees the commits while it is set; and what can be observed of two
    equivalent EVMs, which may differ in their hook, is the same. *)
Class ArbRevmLaws {AR : ArbRevm} := {
  committed : Evm -> list EvmState;
  hooking : Evm -> bool;
  evm_equiv : relation Evm;
  evm_equiv_equivalence :: Equivalence evm_equiv;
  view e := (committed e, hooked e, hooking e, evm_env_of e);
  new_view : forall p env, committed (evm_new p env) = [] /\ evm_env_of (evm_new p env) = env;
  commit_view : forall u e, view (evm_commit u e) =
    (committed e ++ [u], (if hooking e then hooked e ++ [u] else hooked e), hooking e, evm_env_of e);
  hook_view : forall b e, view (set_state_hook b e) = (committed e, (if b then [] else hooked e), b, evm_env_of e);
  modify_view : forall f e, view (modify_block f e) =
    (committed e, hooked e, hooking e, {| env_cfg := env_cfg (evm_env_of e); env_block := f (env_block (evm_env_of e)) |});
  l1_view : forall n e, view (set_l1_block_number n e) = view e;
  fee_view : forall n e, view (set_base_fee_in_block n e) = view e;
  transact_view : forall e tx s, view (snd (transact e tx s)) = view e;
  system_call_view : forall e a b d, view (snd (transact_system_call e a b d)) = view e;
  base_fee_view : forall e, view (snd (read_base_fee_wei e)) = view e;
  header_info_view : forall e, view (snd (read_block_header_info e)) = view e;
  retries_view : forall e logs c, view (snd (scheduled_retries_from_redeem_logs e logs c)) = view e;
  hook_equiv : forall b e, evm_equiv (set_state_hook b e) e;
  equiv_view : forall e e', evm_equiv e e' -> committed e = committed e' /\ evm_env_of e = evm_env_of e';
  commit_equiv :: forall u, Proper (evm_equiv ==> evm_equiv) (evm_commit u);
  modify_equiv :: forall f, Proper (evm_equiv ==> evm_equiv) (modify_block f);
  fee_equiv :: forall n, Proper (evm_equiv ==> evm_equiv) (set_base_fee_in_block n);
  poster_equiv : forall e e', evm_equiv e e' -> poster_gas e = poster_gas e';
  transact_equiv : forall e e' tx s, evm_equiv e e' ->
    fst (transact e tx s) = fst (transact e' tx s) /\ evm_equiv (snd (transact e tx s)) (snd (transact e' tx s));
  system_call_equiv : forall e e' a b d, evm_equiv e e' ->
    fst (transact_system_call e a b d) = fst (transact_system_call e' a b d) /\
    evm_equiv (snd (transact_system_call e a b d)) (snd (transact_system_call e' a b d));
  base_fee_equiv : forall e e', evm_equiv e e' ->
    fst (read_base_fee_wei e) = fst (read_base_fee_wei e') /\ evm_equiv (snd (read_base_fee_wei e)) (snd (read_base_fee_wei e'));
  header_info_equiv : forall e e', evm_equiv e e' ->
    fst (read_block_header_info e) = fst (read_block_header_info e') /\
    evm_equiv (snd (read_block_header_info e)) (snd (read_block_header_info e'));
  retries_equiv : forall e e' logs c, evm_equiv e e' ->
    fst (scheduled_retries_from_redeem_logs e logs c) = fst (scheduled_retries_from_redeem_logs e' logs c) /\
    evm_equiv (snd (scheduled_retries_from_redeem_logs e logs c)) (snd (scheduled_retries_from_redeem_logs e' logs c))
}.

(** Reth's builder runs the executor's methods in turn; the synchronous root is a function of the
    parent state and the updates committed. *)
Class BlockBuilderLaws {AR : ArbRevm} {RC : ReceiptCodec} {BB : BlockBuilder} {AL : ArbRevmLaws} := {
  execute_eq : forall ex txs tx s,
    execute_transaction_with_result_closure (ex, txs) tx s =
      match execute_transaction_without_commit ex tx s with
      | (Ok res, ex) => (Ok res, (commit_transaction ex res, txs ++ [tx]))
      | (Err e, ex) => (Err e, (ex, txs))
      end;
  finish_eq : forall p ex txs precomputed,
    builder_finish p (ex, txs) precomputed =
      let? '(evm, ctx, out) := finish ex in
      let? root := match precomputed with
                   | Some root => Ok root
                   | None => synchronous_root p evm
                   end in
      Ok {| oc_block := assemble_block (env_block (evm_env_of evm)) ctx txs out root; oc_result := out; oc_evm := evm |};
  root_committed : forall p e e', committed e = committed e' -> synchronous_root p e = synchronous_root p e'
}.

Section Order.
Context {K : Keccak} {AR : ArbRevm} {RC : ReceiptCodec} {DG : Digest} {BB : BlockBuilder}.

(** ** The order of transactions *)

(** One transaction on its own: the block after it, and the retries it schedules. *)
Definition run_one (chain_id : Z) (kind : ArbTxExecutionKind) (b : Building) (tx : ArbTxEnvelope) (sender : Z)
    : result string (Building * list ArbTxEnvelope) :=
  match execute_transaction_with_result_closure b tx sender with
  | (Ok res, b) => let '(retries, b) := schedule_retries chain_id b res in Ok (b, retries)
  | (Err e, b) => if is_internal kind then Err e else Ok (b, [])
  end.

(** Nitro's cascade: a retry joins the end of the queue, which is served to its end. *)
Inductive cascade (chain_id : Z) : Building -> list ArbTxEnvelope -> Building -> Prop :=
  | cascade_end b : cascade chain_id b [] b
  | cascade_retry b tx queue sender b1 retries b2 :
      tx_sender tx = Ok sender -> run_one chain_id ScheduledRetry b tx sender = Ok (b1, retries) ->
      cascade chain_id b1 (queue ++ retries) b2 -> cascade chain_id b (tx :: queue) b2.

(** Every user transaction with its cascade before the next one. *)
Inductive sequence (chain_id : Z) : Building -> list ArbTxEnvelope -> Building -> Prop :=
  | sequence_end b : sequence chain_id b [] b
  | sequence_user b tx txs sender b1 retries b2 b3 :
      tx_sender tx = Ok sender -> run_one chain_id User b tx sender = Ok (b1, retries) ->
      cascade chain_id b1 retries b2 -> sequence chain_id b2 txs b3 -> sequence chain_id b (tx :: txs) b3.

(** The start-block transaction first, and it may not fail. *)
Definition nitro_order (chain_id : Z) (b : Building) (first : option ArbTxEnvelope) (txs : list ArbTxEnvelope) (b' : Building) : Prop :=
  match first with
  | None => sequence chain_id b txs b'
  | Some t => exists sender b1 retries b2, tx_sender t = Ok sender /\ run_one chain_id StartBlock b t sender = Ok (b1, retries) /\
      cascade chain_id b1 retries b2 /\ sequence chain_id b2 txs b'
  end.

(** The users of a loop, with the senders that were recovered up front. *)
Definition recovered (txs : list ArbTxEnvelope) : list (ArbTxEnvelope * result string Z) := (fun tx => (tx, tx_sender tx)) <$> txs.

(** What a turn does to the block and the queues. *)
Definition turned (st1 st' : ProduceLoop) (b : Building) (retries : list ArbTxEnvelope) : Prop :=
  pl_building st' = b /\ pl_first st' = pl_first st1 /\ pl_redeems st' = pl_redeems st1 ++ retries /\ pl_user_txs st' = pl_user_txs st1.

Lemma produce_step_run (chain_id block : Z) (st st1 : ProduceLoop) (tx : ArbTxEnvelope) (sender : Z) (kind : ArbTxExecutionKind)
    (b : Building) (retries : list ArbTxEnvelope) :
  next_transaction st = Some (tx, Ok sender, kind, st1) -> run_one chain_id kind (pl_building st1) tx sender = Ok (b, retries) ->
  exists st', produce_step chain_id block st = Ok (Some st') /\ turned st1 st' b retries.
Proof.
  intros Hn Hr. unfold produce_step, run_one, turned in *. rewrite Hn. cbn [rbind].
  destruct (execute_transaction_with_result_closure _ tx sender) as [[res|e] b0].
  - destruct (schedule_retries chain_id b0 res). injection Hr as <- <-. by eexists.
  - destruct (is_internal kind); [done|]. injection Hr as <- <-. eexists. split; [done|]. cbn. by rewrite app_nil_r.
Qed.

Lemma produce_step_inv (chain_id block : Z) (st st' : ProduceLoop) :
  produce_step chain_id block st = Ok (Some st') ->
  exists tx sender kind st1 b retries, next_transaction st = Some (tx, Ok sender, kind, st1) /\
    run_one chain_id kind (pl_building st1) tx sender = Ok (b, retries) /\ turned st1 st' b retries.
Proof.
  unfold produce_step, run_one, turned. destruct (next_transaction st) as [[[[tx sender] kind] st1]|]; [|done]. intros H.
  apply rbind_Ok in H as (s & -> & H). exists tx, s, kind, st1. destruct (execute_transaction_with_result_closure _ tx s) as [[res|e] b0].
  - destruct (schedule_retries chain_id b0 res) as [retries b]. injection H as <-. by exists b, retries.
  - destruct (is_internal kind); [done|]. injection H as <-. exists b0, []. cbn. by rewrite app_nil_r.
Qed.

Lemma next_transaction_none (st : ProduceLoop) :
  next_transaction st = None <-> pl_first st = None /\ pl_redeems st = [] /\ pl_user_txs st = [].
Proof.
  unfold next_transaction. destruct (pl_first st); [split; [done|by intros (? & _)]|].
  destruct (pl_redeems st); [|split; [done|by intros (_ & ? & _)]]. destruct (pl_user_txs st) as [|[]]; [done|split; [done|by intros (_ & _ & ?)]].
Qed.

(** What is left after the start-block transaction: the retries in line, then the users. *)
Definition rest_order (chain_id : Z) (b : Building) (redeems txs : list ArbTxEnvelope) (b' : Building) : Prop :=
  exists b2, cascade chain_id b redeems b2 /\ sequence chain_id b2 txs b'.

Lemma produce_loop_sound (fuel : nat) (chain_id block : Z) (st st' : ProduceLoop) (txs : list ArbTxEnvelope) :
  pl_first st = None -> pl_user_txs st = recovered txs -> produce_loop fuel chain_id block st = Ok st' ->
  rest_order chain_id (pl_building st) (pl_redeems st) txs (pl_building st').
Proof.
  revert st txs. induction fuel as [|fuel IH]; intros st txs Hf Hu H; [done|]. cbn [produce_loop] in H.
  apply rbind_Ok in H as ([st1|] & Hs & H).
  - apply produce_step_inv in Hs as (tx & sender & kind & st0 & b & retries & Hn & Hr & Hb & Hf1 & Hq & Hu1).
    unfold next_transaction in Hn. rewrite Hf in Hn. destruct (pl_redeems st) as [|r redeems].
    + rewrite Hu in Hn. destruct txs as [|t txs]; [done|]. cbn in Hn. injection Hn as <- Hsend <- <-. cbn in *.
      destruct (IH st1 txs Hf1 Hu1 H) as (b2 & Hc & Hseq). rewrite Hb, Hq in Hc. exists (pl_building st). split; [constructor|].
      by econstructor.
    + injection Hn as <- Hsend <- <-. cbn in *. rewrite Hu in Hu1. destruct (IH st1 txs Hf1 Hu1 H) as (b2 & Hc & Hseq).
      rewrite Hb, Hq in Hc. exists b2. split; [|done]. by econstructor.
  - injection H as <-. unfold produce_step in Hs. destruct (next_transaction st) as [[[[tx sender] kind] st1]|] eqn:Hn.
    + apply rbind_Ok in Hs as (s & _ & Hs). destruct (execute_transaction_with_result_closure _ tx s) as [[res|e] b0];
        [by destruct (schedule_retries chain_id b0 res)|by destruct (is_internal kind)].
    + apply next_transaction_none in Hn as (_ & Hq & Hu'). rewrite Hu' in Hu. destruct txs; [|done]. rewrite Hq.
      exists (pl_building st). split; constructor.
Qed.

(** Enough turns reach the end of any order that exists. *)
Lemma produce_loop_cascade (chain_id block : Z) (b b2 : Building) (queue : list ArbTxEnvelope) :
  cascade chain_id b queue b2 ->
  forall st, pl_first st = None -> pl_building st = b -> pl_redeems st = queue ->
  exists k st', pl_first st' = None /\ pl_building st' = b2 /\ pl_redeems st' = [] /\ pl_user_txs st' = pl_user_txs st /\
    forall fuel, produce_loop (k + fuel) chain_id block st = produce_loop fuel chain_id block st'.
Proof.
  induction 1 as [b|b tx queue sender b1 retries b2 Hs Hr _ IH]; intros st Hf Hb Hq; [by exists O, st|].
  assert (Hn : exists st1, next_transaction st = Some (tx, Ok sender, ScheduledRetry, st1) /\ pl_building st1 = b /\ pl_first st1 = None /\
    pl_redeems st1 = queue /\ pl_user_txs st1 = pl_user_txs st).
  { unfold next_transaction. rewrite Hf, Hq, Hs. by eexists. }
  destruct Hn as (st1 & Hn & Hb1 & Hf1 & Hq1 & Hu1). rewrite <- Hb1 in Hr.
  destruct (produce_step_run chain_id block _ _ _ _ _ _ _ Hn Hr) as (st2 & Hstep & T1 & T2 & T3 & T4).
  destruct (IH st2) as (k & st' & F1 & F2 & F3 & F4 & Hk); [congruence..|]. exists (S k), st'. split_and!; [congruence..|].
  intros fuel. cbn [produce_loop plus]. rewrite Hstep. cbn [rbind]. apply Hk.
Qed.

Lemma produce_loop_sequence (chain_id block : Z) (b b' : Building) (txs : list ArbTxEnvelope) :
  sequence chain_id b txs b' ->
  forall st, pl_first st = None -> pl_building st = b -> pl_redeems st = [] -> pl_user_txs st = recovered txs ->
  exists k st', pl_building st' = b' /\ forall fuel, produce_loop (k + S fuel) chain_id block st = Ok st'.
Proof.
  induction 1 as [b|b tx txs sender b1 retries b2 b3 Hs Hr Hc _ IH]; intros st Hf Hb Hq Hu.
  { exists O, st. split; [done|]. intros fuel. cbn [plus produce_loop]. unfold produce_step.
    rewrite (proj2 (next_transaction_none st)); [done|]. by rewrite Hf, Hq, Hu. }
  assert (Hn : exists st1, next_transaction st = Some (tx, Ok sender, User, st1) /\ pl_building st1 = b /\ pl_first st1 = None /\
    pl_redeems st1 = [] /\ pl_user_txs st1 = recovered txs).
  { unfold next_transaction. rewrite Hf, Hq, Hu. cbn. rewrite Hs. by eexists. }
  destruct Hn as (st1 & Hn & Hb1 & Hf1 & Hq1 & Hu1). rewrite <- Hb1 in Hr.
  destruct (produce_step_run chain_id block _ _ _ _ _ _ _ Hn Hr) as (st2 & Hstep & T1 & T2 & T3 & T4).
  destruct (produce_loop_cascade chain_id block _ _ _ Hc st2) as (k1 & st3 & F1 & F2 & F3 & F4 & Hk1); [congruence|done|by rewrite T3, Hq1|].
  destruct (IH st3) as (k2 & st' & Hb' & Hk2); [congruence..|]. exists (S (k1 + k2)), st'. split; [done|].
  intros fuel. cbn [produce_loop plus]. rewrite Hstep. cbn [rbind]. by rewrite <- Nat.add_assoc, Hk1.
Qed.

(** The loop and the nested order are the same. *)
Lemma produce_loop_order (chain_id block : Z) (st : ProduceLoop) (txs : list ArbTxEnvelope) (b' : Building) :
  pl_redeems st = [] -> pl_user_txs st = recovered txs ->
  (exists fuel st', produce_loop fuel chain_id block st = Ok st' /\ pl_building st' = b') <->
  nitro_order chain_id (pl_building st) (pl_first st) txs b'.
Proof.
  intros Hq Hu. destruct (pl_first st) as [t|] eqn:Hf; cbn [nitro_order].
  - assert (Hn : exists st1, next_transaction st = Some (t, tx_sender t, StartBlock, st1) /\ pl_building st1 = pl_building st /\
      pl_first st1 = None /\ pl_redeems st1 = [] /\ pl_user_txs st1 = recovered txs).
    { unfold next_transaction. rewrite Hf, Hq, Hu. by eexists. }
    destruct Hn as (st1 & Hn & Hb1 & Hf1 & Hq1 & Hu1). split.
    + intros ([|fuel] & st' & H & <-); [done|]. cbn [produce_loop] in H. apply rbind_Ok in H as ([st2|] & Hs & H).
      * apply produce_step_inv in Hs as (tx & sender & kind & st0 & b & retries & Hn' & Hr & T1 & T2 & T3 & T4). rewrite Hn in Hn'.
        injection Hn' as <- Hsend <- <-. rewrite Hq1 in T3. rewrite Hf1 in T2. rewrite Hu1 in T4.
        destruct (produce_loop_sound fuel chain_id block st2 st' txs T2 T4 H) as (b2 & Hc & Hseq). rewrite T1, T3 in Hc.
        rewrite Hb1 in Hr. by exists sender, b, retries, b2.
      * exfalso. unfold produce_step in Hs. rewrite Hn in Hs. apply rbind_Ok in Hs as (s & _ & Hs).
        destruct (execute_transaction_with_result_closure _ t s) as [[res|e] b0]; [by destruct (schedule_retries chain_id b0 res)|done].
    + intros (sender & b1 & retries & b2 & Hs & Hr & Hc & Hseq). rewrite Hs in Hn. rewrite <- Hb1 in Hr.
      destruct (produce_step_run chain_id block _ _ _ _ _ _ _ Hn Hr) as (st2 & Hstep & T1 & T2 & T3 & T4).
      destruct (produce_loop_cascade chain_id block _ _ _ Hc st2) as (k1 & st3 & F1 & F2 & F3 & F4 & Hk1); [congruence|done|by rewrite T3, Hq1|].
      destruct (produce_loop_sequence chain_id block _ _ _ Hseq st3) as (k2 & st' & Hb' & Hk2); [congruence..|].
      exists (S (k1 + (k2 + 1))), st'. split; [|done]. cbn [produce_loop]. rewrite Hstep. cbn [rbind]. by rewrite Hk1.
  - split.
    + intros (fuel & st' & H & <-). destruct (produce_loop_sound fuel chain_id block st st' txs Hf Hu H) as (b2 & Hc & Hseq).
      rewrite Hq in Hc. by inversion Hc; subst.
    + intros Hseq. destruct (produce_loop_sequence chain_id block _ _ _ Hseq st) as (k2 & st' & Hb' & Hk2); try done. by exists (k2 + 1)%nat, st'.
Qed.

(** C7. Blocks are built in Nitro's order. Production returns an outcome exactly when the message is
    digested, the block opens and Nitro's nested order exists: the start-block transaction, which may
    not fail, with its cascade of retries; then each user transaction, dropped when it is invalid,
    with its own cascade before the next one; and the finished block is that outcome. *)
Theorem production_order (config : ArbEvmConfig) (chain_id : Z) (parent : SealedHeader) (msg : BroadcastFeedMessage)
    (exec_state trie_state : StateProvider) (task : option StateRootTask) (stream : option StreamHandle) (o : Outcome) :
  (exists fuel p, produce_with_timing fuel config chain_id parent msg exec_state trie_state task stream = Ok p /\ pr_outcome p = o) <->
  exists input executor b,
    digest_message msg (arb_parent_of (sealed_header parent)) chain_id (arbos_version (sealed_header parent)) = Ok input /\
    open_block config chain_id parent input exec_state (bool_decide (is_Some task)) = Ok executor /\
    nitro_order chain_id (executor, []) (start_block_tx executor) (mi_txs input) b /\
    let '(root, b) := take_root (arbos_version (sealed_header parent)) task b in builder_finish trie_state b root = Ok o.
Proof.
  split.
  - intros (fuel & p & H & <-). unfold produce_with_timing in H. apply rbind_Ok in H as (input & Hd & H).
    apply rbind_Ok in H as (executor & Ho & H). apply rbind_Ok in H as (st & Hl & H). exists input, executor, (pl_building st).
    split_and!; [done..| |].
    + eapply (produce_loop_order chain_id _ {| pl_building := (executor, []) |}); [done..|]. by exists fuel, st.
    + destruct (take_root _ _ _) as [root b]. apply rbind_Ok in H as (o & Hf & [= <-]). done.
  - intros (input & executor & b & Hd & Ho & Hord & Hf). unfold produce_with_timing. setoid_rewrite Hd. cbn [rbind]. setoid_rewrite Ho. cbn [rbind].
    eapply (produce_loop_order chain_id (wrapping_add (number (sealed_header parent)) 1) {| pl_building := (executor, []);
      pl_first := start_block_tx executor; pl_redeems := []; pl_user_txs := recovered (mi_txs input); pl_transaction_index := 0;
      pl_stream := begin_stream parent executor <$> stream |}) in Hord as (fuel & st & Hl & Hb); [|done..].
    exists fuel. unfold recovered in Hl. rewrite Hl. cbn [rbind]. rewrite Hb. destruct (take_root _ _ _) as [root b'].
    rewrite Hf. cbn [rbind]. by eexists.
Qed.

(** ** The loop ends *)

(** Where the loop goes, without a bound on its turns. *)
Inductive loop_ends (chain_id block : Z) : ProduceLoop -> result string ProduceLoop -> Prop :=
  | ends_error st e : produce_step chain_id block st = Err e -> loop_ends chain_id block st (Err e)
  | ends_done st : produce_step chain_id block st = Ok None -> loop_ends chain_id block st (Ok st)
  | ends_turn st st1 r : produce_step chain_id block st = Ok (Some st1) -> loop_ends chain_id block st1 r -> loop_ends chain_id block st r.
End Order.

(** The type of a retry. *)
Definition RETRY_TX_TYPE : u8 := x68.

(** Nitro: a retry runs on gas that the transaction which scheduled it donated, out of its own gas
    limit. Every scheduled retry is of the retry type with a positive gas limit; a submission donates
    at most its gas limit; and a transaction that redeems, such as another retry, pays for the call
    too, so that it donates less than its gas limit. *)
Class RedeemGas {AR : ArbRevm} := {
  tx_gas_limit : ArbTxEnvelope -> Z;
  redeem_donates : forall e tx s res u e' c,
    transact e tx s = (Ok (res, u), e') ->
    let retries := fst (scheduled_retries_from_redeem_logs (evm_commit u e') (List.filter is_redeem_scheduled_log (result_logs res)) c) in
    let donated := foldr (fun r total => tx_gas_limit r + total) 0 retries in
    Forall (fun r => tx_ty r = RETRY_TX_TYPE /\ 0 < tx_gas_limit r) retries /\
    (retries <> [] -> donated <= tx_gas_limit tx /\ (tx_ty tx = RETRY_TX_TYPE -> donated < tx_gas_limit tx))
}.

Section Ends.
Context {K : Keccak} {AR : ArbRevm} {RC : ReceiptCodec} {DG : Digest} {BB : BlockBuilder} {AL : ArbRevmLaws} {BL : BlockBuilderLaws}
  {RG : RedeemGas}.

(** The turns that a transaction may cost: its own, and those of the retries its gas can pay for. *)
Definition turns_of (tx : ArbTxEnvelope) : nat :=
  if bool_decide (tx_ty tx = RETRY_TX_TYPE) then Z.to_nat (Z.max 1 (tx_gas_limit tx)) else S (Z.to_nat (tx_gas_limit tx)).

Definition turns (txs : list ArbTxEnvelope) : nat := foldr (fun tx n => turns_of tx + n)%nat O txs.

(** The turns a loop may still take. *)
Definition turns_left (st : ProduceLoop) : nat :=
  (turns (option_list (pl_first st)) + turns (pl_redeems st) + turns (fst <$> pl_user_txs st))%nat.

Lemma turns_cons (tx : ArbTxEnvelope) (l : list ArbTxEnvelope) : turns (tx :: l) = (turns_of tx + turns l)%nat.
Proof. done. Qed.

Lemma turns_app (l k : list ArbTxEnvelope) : turns (l ++ k) = (turns l + turns k)%nat.
Proof. induction l as [|tx l IH]; [done|]. cbn [app]. rewrite !turns_cons. lia. Qed.

Lemma turns_positive (tx : ArbTxEnvelope) : (0 < turns_of tx)%nat.
Proof. unfold turns_of. destruct (bool_decide _); lia. Qed.

(** Retries cost no more turns than the gas donated to them. *)
Lemma turns_donated (retries : list ArbTxEnvelope) :
  Forall (fun r => tx_ty r = RETRY_TX_TYPE /\ 0 < tx_gas_limit r) retries ->
  Z.of_nat (turns retries) = foldr (fun r total => tx_gas_limit r + total) 0 retries.
Proof.
  induction 1 as [|r retries [Hty Hg] _ IH]; [done|]. cbn [turns foldr]. fold (turns retries).
  unfold turns_of. rewrite bool_decide_eq_true_2 by done. lia.
Qed.

(** What a transaction schedules costs fewer turns than it does. *)
Lemma run_one_turns (chain_id : Z) (kind : ArbTxExecutionKind) (b b' : Building) (tx : ArbTxEnvelope) (s : Z) (retries : list ArbTxEnvelope) :
  run_one chain_id kind b tx s = Ok (b', retries) -> (turns retries < turns_of tx)%nat.
Proof.
  pose proof (turns_positive tx) as Hpos. destruct b as [ex txs]. unfold run_one. rewrite execute_eq. unfold execute_transaction_without_commit.
  destruct (transact (ex_evm ex) tx s) as [[[res u]|e] evm] eqn:Ht.
  - unfold schedule_retries. destruct (is_success _ && _); [|intros [= _ <-]; exact Hpos].
    cbn [fst snd commit_transaction ex_evm with_evm tr_result tr_state].
    pose proof (redeem_donates _ _ _ _ _ _ chain_id Ht) as [Hr Hd]. cbn zeta in Hd.
    destruct (scheduled_retries_from_redeem_logs _ _ _) as [rs evm']. cbn [fst] in Hr, Hd. intros [= _ <-].
    pose proof (turns_donated _ Hr) as Hn. destruct rs as [|r rs]; [exact Hpos|]. destruct (Hd ltac:(done)) as [Hle Hlt].
    rewrite <- Hn in Hle, Hlt. unfold turns_of. case_bool_decide as Hty; [|lia]. specialize (Hlt Hty). lia.
  - destruct (is_internal kind); [done|]. intros [= _ <-]. exact Hpos.
Qed.

Lemma turns_decrease (chain_id block : Z) (st st' : ProduceLoop) :
  produce_step chain_id block st = Ok (Some st') -> (turns_left st' < turns_left st)%nat.
Proof.
  intros H. apply produce_step_inv in H as (tx & sender & kind & st1 & b & retries & Hn & Hr & T1 & T2 & T3 & T4).
  apply run_one_turns in Hr. unfold turns_left. rewrite T2, T3, T4, turns_app. unfold next_transaction in Hn.
  assert (Hnil : turns [] = O /\ turns (option_list None) = O) by done.
  assert (Hone : forall t, turns (option_list (Some t)) = turns_of t) by (intros t; apply Nat.add_0_r).
  destruct (pl_first st) as [t|]; [|destruct (pl_redeems st) as [|t q]; [destruct (pl_user_txs st) as [|[t r] us]; [done|]|]];
    injection Hn as <- _ _ <-; cbn [pl_first pl_redeems pl_user_txs fmap list_fmap fst]; rewrite ?Hone, ?turns_cons; lia.
Qed.

(** C20. The production loop ends. Every retry runs on gas donated out of the gas limit of the
    transaction that scheduled it, so the loop reaches its end or an error within a number of turns
    that the gas limits of the transactions in line bound, and any larger bound on its turns gives
    the same. *)
Theorem production_terminates (chain_id block : Z) (st : ProduceLoop) :
  exists r, loop_ends chain_id block st r /\
    forall fuel, (turns_left st < fuel)%nat -> produce_loop fuel chain_id block st = r.
Proof.
  remember (turns_left st) as k eqn:Hk. revert st Hk. induction (lt_wf k) as [k _ IH]. intros st ->.
  destruct (produce_step chain_id block st) as [[st1|]|e] eqn:Hs.
  - pose proof (turns_decrease _ _ _ _ Hs) as Hlt. destruct (IH _ Hlt st1 eq_refl) as (r & Hr & Hf). exists r. split; [by eapply ends_turn|].
    intros [|fuel] Hfuel; [lia|]. cbn [produce_loop]. rewrite Hs. cbn [rbind]. apply Hf. lia.
  - exists (Ok st). split; [by apply ends_done|]. intros [|fuel] Hfuel; [lia|]. cbn [produce_loop]. by rewrite Hs.
  - exists (Err e). split; [by apply ends_error|]. intros [|fuel] Hfuel; [lia|]. cbn [produce_loop]. by rewrite Hs.
Qed.
End Ends.

Section Ledger.
Context {K : Keccak} {AR : ArbRevm} {RC : ReceiptCodec} {DG : Digest} {BB : BlockBuilder} {AL : ArbRevmLaws} {BL : BlockBuilderLaws}.

(** ** What was executed *)

(** The receipt of a result: its status, the gas of the block so far, its logs and their bloom, and the
    gas charged for L1, under the type of the transaction. *)
Definition receipt_saying (total : Z) (r : ArbTxResult) : ArbReceiptEnvelope :=
  receipt_envelope_for_type (tr_tx_type r) {|
    rwb_receipt := {| r_status := is_success (tr_result r); r_cumulative_gas_used := total; r_logs := result_logs (tr_result r);
                      r_gas_used_for_l1 := tr_gas_used_for_l1 r |};
    rwb_logs_bloom := logs_bloom (result_logs (tr_result r)) |}.

(** The receipts of results, with running totals. *)
Fixpoint receipts_from (total : Z) (rs : list ArbTxResult) : list ArbReceiptEnvelope :=
  match rs with
  | [] => []
  | r :: rs =>
      let total := wrapping_add total (tx_gas_used (tr_result r)) in
      receipt_saying total r :: receipts_from total rs
  end.

Definition total_gas (total : Z) (rs : list ArbTxResult) : Z :=
  fold_left (fun t r => wrapping_add t (tx_gas_used (tr_result r))) rs total.

Lemma receipts_from_snoc (total : Z) (rs : list ArbTxResult) (r : ArbTxResult) :
  receipts_from total (rs ++ [r]) = receipts_from total rs ++
    [receipt_saying (total_gas total (rs ++ [r])) r].
Proof.
  revert total. induction rs as [|x rs IH]; intros total; cbn [receipts_from app]; [done|]. rewrite IH. done.
Qed.

Lemma total_gas_snoc (total : Z) (rs : list ArbTxResult) (r : ArbTxResult) :
  total_gas total (rs ++ [r]) = wrapping_add (total_gas total rs) (tx_gas_used (tr_result r)).
Proof. unfold total_gas. by rewrite fold_left_app. Qed.

(** The event of the transaction at a position, and the frontier operation that goes with it. *)
Definition event_at (parent_hash block : Z) (i : nat) (tx : ArbTxEnvelope) (res : ArbTxResult) (kind : ArbTxExecutionKind) : ArbTxLogEvent :=
  let index := wrap64 (Z.of_nat i) in {|
    te_block_number := block; te_transaction_index := index; te_transaction_hash := tx_hash tx;
    te_frontier_id := keccak256 (identity parent_hash block index (tx_hash tx)); te_kind := kind;
    te_success := is_success (tr_result res); te_gas_used := tx_gas_used (tr_result res); te_logs := result_logs (tr_result res)
  |}.

(** A transaction that was included. *)
Record Included := { in_tx : ArbTxEnvelope; in_result : ArbTxResult; in_kind : ArbTxExecutionKind; in_chain : ArbChainContext }.

(** Reading the retries of a committed transaction uses the EVM too. *)
Definition after_schedule (chain_id : Z) (res : ExecutionResult) (evm : Evm) : Evm :=
  let logs := List.filter is_redeem_scheduled_log (result_logs res) in
  if is_success res && negb (bool_decide (logs = [])) then snd (scheduled_retries_from_redeem_logs evm logs chain_id) else evm.

(** The execution behind a list of included transactions: on the EVM [e0] one transaction after the
    other is run for its sender; one that fails to run is left out, and one that runs is included
    with the result, the update and the L1 gas that running it on the EVM of that moment gave, and
    its update is committed before the next. *)
Inductive executed (chain_id : Z) (e0 : Evm) : list Included -> Evm -> Prop :=
  | executed_start : executed chain_id e0 [] e0
  | executed_rejected l e tx sender err e' :
      executed chain_id e0 l e -> tx_sender tx = Ok sender -> transact e tx sender = (Err err, e') ->
      executed chain_id e0 l e'
  | executed_included l e tx sender res u e' kind :
      executed chain_id e0 l e -> tx_sender tx = Ok sender -> transact e tx sender = (Ok (res, u), e') ->
      executed chain_id e0
        (l ++ [{| in_tx := tx;
                  in_result := {| tr_result := res; tr_state := u; tr_gas_used_for_l1 := poster_gas e'; tr_tx_type := tx_ty tx |};
                  in_kind := kind; in_chain := chain (evm_commit u e') |}])
        (after_schedule chain_id res (evm_commit u e')).

Definition events (parent_hash block : Z) (l : list Included) : list ArbTxLogEvent :=
  imap (fun i x => event_at parent_hash block i (in_tx x) (in_result x) (in_kind x)) l.

Definition advances (block : Z) (l : list Included) : list (BuilderOp EvmState (EvmEnv ArbSpecId) CacheState ArbChainContext) :=
  imap (fun i x => Advance 0 block (wrap64 (Z.of_nat i)) (tx_hash (in_tx x)) (tr_state (in_result x)) (in_chain x)) l.

(** What a turn does: a transaction is rejected and leaves no trace, or it is included. *)
Lemma produce_step_cases (chain_id block : Z) (st st' : ProduceLoop) :
  produce_step chain_id block st = Ok (Some st') ->
  exists tx kind st1 sender, next_transaction st = Some (tx, Ok sender, kind, st1) /\
    let ex := fst (pl_building st) in
    (exists evm err, transact (ex_evm ex) tx sender = (Err err, evm) /\ kind <> StartBlock /\ view evm = view (ex_evm ex) /\ pl_building st' = (with_evm ex evm, snd (pl_building st)) /\
       pl_transaction_index st' = pl_transaction_index st /\ pl_stream st' = pass_transaction <$> pl_stream st) \/
    (exists res evm evm2, tr_tx_type res = tx_ty tx /\ view evm = view (evm_commit (tr_state res) (ex_evm ex)) /\ view evm2 = view evm /\
       pl_building st' = (with_evm (commit_transaction ex res) evm2, snd (pl_building st) ++ [tx]) /\
       pl_transaction_index st' = wrapping_add (pl_transaction_index st) 1 /\
       pl_stream st' = (fun s => observe_transaction s evm block (pl_transaction_index st) tx kind res) <$> pl_stream st /\
       (exists e', transact (ex_evm ex) tx sender = (Ok (tr_result res, tr_state res), e') /\ tr_gas_used_for_l1 res = poster_gas e' /\
          evm = evm_commit (tr_state res) e' /\ evm2 = after_schedule chain_id (tr_result res) evm) /\
       exists b, execute_transaction_with_result_closure (pl_building st) tx sender = (Ok res, b) /\ ex_evm (fst b) = evm).
Proof.
  unfold produce_step. destruct (next_transaction st) as [[[[tx sender_result] kind] st1]|] eqn:Hn; [|done]. intros H.
  apply rbind_Ok in H as (sender & -> & H). exists tx, kind, st1, sender. split; [done|].
  assert (Hb : pl_building st1 = pl_building st /\ pl_transaction_index st1 = pl_transaction_index st /\ pl_stream st1 = pl_stream st).
  { unfold next_transaction in Hn. destruct (pl_first st); [by injection Hn as _ _ _ <-|].
    destruct (pl_redeems st); [destruct (pl_user_txs st) as [|[]]; [done|]|]; by injection Hn as _ _ _ <-. }
  destruct Hb as (Hb & Hi & Hs). rewrite Hb, Hi, Hs in H. destruct (pl_building st) as [ex txs]. cbn [fst snd] in *. rewrite execute_eq in *.
  unfold execute_transaction_without_commit in *. pose proof (transact_view (ex_evm ex) tx sender) as Ht.
  destruct (transact (ex_evm ex) tx sender) as [[[res u]|e] evm] eqn:Etx; cbn [fst snd] in Ht.
  - right. set (out := {| tr_result := res; tr_state := u; tr_gas_used_for_l1 := poster_gas evm; tr_tx_type := tx_ty tx |}) in *.
    assert (Hc : view (evm_commit u evm) = view (evm_commit u (ex_evm ex))).
    { rewrite !commit_view. unfold view in Ht. by injection Ht as -> -> -> ->. }
    unfold schedule_retries in H. cbn [fst snd] in H. unfold after_schedule. cbn [tr_result out] in *.
    destruct (is_success res && _) eqn:Eb.
    + pose proof (retries_view (evm_commit u evm) (List.filter is_redeem_scheduled_log (result_logs res)) chain_id) as Hr.
      cbn [commit_transaction ex_evm tr_state out with_evm tr_result] in H. destruct (scheduled_retries_from_redeem_logs _ _ _) as [rs evm2] eqn:Es.
      injection H as <-. exists out, (evm_commit u evm), evm2. split_and!; try done; [|by eexists].
      exists evm. cbn [tr_result tr_state out]. by rewrite Eb, Es.
    + injection H as <-. exists out, (evm_commit u evm), (evm_commit u evm). split_and!; try done; [|by eexists].
      exists evm. cbn [tr_result tr_state out]. by rewrite Eb.
  - left. destruct kind; cbn [is_internal] in H; [done|..]; injection H as <-; exists evm, e; by split_and!.
Qed.

(** The stream after the included transactions. *)
Definition stream_follows (block : Z) (s0 s : TxLogStream) (l : list Included) : Prop :=
  let parent_hash := base_parent_hash (fb_base (ts_block s0)) in
  fb_base (ts_block s) = fb_base (ts_block s0) /\
  builder_run {| bl_store := ts_store s0; bl_blocks := [ts_block s0] |} (advances block l)
    = Some {| bl_store := ts_store s; bl_blocks := [ts_block s] |} /\
  sublist (ts_published s) (events parent_hash block l) /\
  ((forall n, ts_subscribed s0 n = true) -> ts_published s = events parent_hash block l /\ forall n, ts_subscribed s n = true).

Lemma stream_follows_pass (block : Z) (s0 s : TxLogStream) (l : list Included) :
  stream_follows block s0 s l -> stream_follows block s0 (pass_transaction s) l.
Proof. intros (H1 & H2 & H3 & H4). split_and!; [done..|]. intros Hs. destruct (H4 Hs) as [H5 H6]. split; [done|]. intros n. apply H6. Qed.

Lemma stream_follows_observe (block : Z) (s0 s : TxLogStream) (l : list Included) (x : Included) (evm : Evm) :
  stream_follows block s0 s l -> in_chain x = chain evm ->
  stream_follows block s0
    (observe_transaction s evm block (wrap64 (Z.of_nat (length l))) (in_tx x) (in_kind x) (in_result x)) (l ++ [x]).
Proof.
  intros (H1 & H2 & H3 & H4) Hc. unfold stream_follows, events, advances, observe_transaction in *. rewrite !imap_app. cbn [imap].
  rewrite Nat.add_0_r. destruct (advance _ _ _ _ _ _ _) as [[id fb] store] eqn:Ha. unfold advance in Ha. injection Ha as <- <- <-.
  cbn [ts_block ts_store ts_published ts_subscribed fb_base]. split_and!.
  - done.
  - unfold builder_run in *. rewrite foldl_app, H2. cbn. by rewrite Hc.
  - rewrite H1. destruct (has_subscribers s); [by apply sublist_app|by apply sublist_inserts_r].
  - intros Hs. destruct (H4 Hs) as [-> H6]. split; [|intros n; apply H6]. unfold has_subscribers. rewrite H6, H1. done.
Qed.

(** The loop has included [l] in the block that was opened with [ex0] and observed from [s0]. *)
Record accounted (chain_id block : Z) (ex0 : ArbBlockExecutor) (s0 : option TxLogStream) (st : ProduceLoop) (l : list Included) : Prop := {
  ac_executed : executed chain_id (ex_evm ex0) l (ex_evm (fst (pl_building st)));
  ac_users : Forall (fun t => snd t = tx_sender (fst t)) (pl_user_txs st);
  ac_txs : snd (pl_building st) = in_tx <$> l;
  ac_types : Forall (fun x => tr_tx_type (in_result x) = tx_ty (in_tx x)) l;
  ac_receipts : ex_receipts (fst (pl_building st)) = receipts_from 0 (in_result <$> l);
  ac_gas : ex_gas_used (fst (pl_building st)) = total_gas 0 (in_result <$> l);
  ac_fixed : ex_ctx (fst (pl_building st)) = ex_ctx ex0;
  ac_view : view (ex_evm (fst (pl_building st))) =
    (committed (ex_evm ex0) ++ (tr_state <$> (in_result <$> l)),
     (if hooking (ex_evm ex0) then hooked (ex_evm ex0) ++ (tr_state <$> (in_result <$> l)) else hooked (ex_evm ex0)),
     hooking (ex_evm ex0), evm_env_of (ex_evm ex0));
  ac_index : pl_transaction_index st = wrap64 (Z.of_nat (length l));
  ac_kinds : Forall (fun x => in_kind x <> StartBlock) (tail l) /\ (is_Some (pl_first st) -> l = []);
  ac_stream : match s0, pl_stream st with
              | Some s0, Some s => stream_follows block s0 s l
              | None, None => True
              | _, _ => False
              end
}.

Lemma tail_snoc {A : Type} (l : list A) (x : A) : tail (l ++ [x]) = match l with [] => [] | _ :: l => l ++ [x] end.
Proof. by destruct l. Qed.

Lemma accounted_step (chain_id block : Z) (ex0 : ArbBlockExecutor) (s0 : option TxLogStream) (st st' : ProduceLoop) (l : list Included) :
  accounted chain_id block ex0 s0 st l -> produce_step chain_id block st = Ok (Some st') -> exists l', accounted chain_id block ex0 s0 st' l'.
Proof.
  intros [Ax Au A1 A2 A3 A4 A5 A6 A7 [A8 A8'] A9] H. pose proof (produce_step_inv _ _ _ _ H) as (tx' & s' & k' & st1' & b' & r' & Hn' & _ & _ & Hf & _).
  assert (Hnone : pl_first st1' = None).
  { unfold next_transaction in Hn'. destruct (pl_first st); [by injection Hn' as _ _ _ <-|].
    destruct (pl_redeems st); [destruct (pl_user_txs st) as [|[]]; [done|]|]; by injection Hn' as _ _ _ <-. }
  assert (Hu : Forall (fun t => snd t = tx_sender (fst t)) (pl_user_txs st')).
  { pose proof (produce_step_inv _ _ _ _ H) as (t2 & s2 & k2 & st2 & b2 & r2 & Hn2 & _ & _ & _ & _ & ->). unfold next_transaction in Hn2.
    destruct (pl_first st); [by injection Hn2 as _ _ _ <-|].
    destruct (pl_redeems st); [destruct (pl_user_txs st) as [|[] ?]; [done|by inversion Au; injection Hn2 as _ _ _ <-]|by injection Hn2 as _ _ _ <-]. }
  apply produce_step_cases in H as (tx & kind & st1 & sender & Hn & H).
  assert (Hsend : tx_sender tx = Ok sender).
  { unfold next_transaction in Hn. destruct (pl_first st); [by injection Hn as <- <- _ _|].
    destruct (pl_redeems st); [destruct (pl_user_txs st) as [|[t r] ?]; [done|]|by injection Hn as <- <- _ _].
    inversion Au as [|? ? Hr _]; subst. cbn in Hr. injection Hn as <- -> _ _. done. }
  destruct H as [H|H].
  - destruct H as (evm & err & Hx & _ & Hv & Hb & Hi & Hs). exists l. split; rewrite ?Hb; cbn [fst snd with_evm ex_receipts ex_gas_used ex_ctx ex_evm]; try done.
    + by eapply executed_rejected.
    + congruence.
    + congruence.
    + split; [done|]. rewrite Hf, Hnone. by intros [? ?].
    + rewrite Hs. destruct s0, (pl_stream st); try done. by apply stream_follows_pass.
  - destruct H as (res & evm & evm2 & Hty & Hv & Hv2 & Hb & Hi & Hs & (e' & Hx & Hl1 & Hev & Hev2) & _).
    set (x := {| in_tx := tx; in_result := res; in_kind := kind; in_chain := chain evm |}). exists (l ++ [x]).
    split; rewrite ?Hb, ?fmap_app; cbn [fst snd with_evm commit_transaction ex_receipts ex_gas_used ex_ctx ex_evm fmap list_fmap in_result in_tx x].
    + assert (x = {| in_tx := tx; in_result := {| tr_result := tr_result res; tr_state := tr_state res; tr_gas_used_for_l1 := poster_gas e';
                                                  tr_tx_type := tx_ty tx |}; in_kind := kind; in_chain := chain (evm_commit (tr_state res) e') |}) as ->.
      { unfold x. rewrite Hev, <- Hl1, <- Hty. by destruct res. }
      rewrite Hev2, Hev. by eapply executed_included.
    + done.
    + by rewrite A1.
    + apply Forall_app. by split; [|constructor].
    + by rewrite receipts_from_snoc, A3, A4, total_gas_snoc.
    + by rewrite A4, total_gas_snoc.
    + done.
    + rewrite Hv2, Hv, commit_view. unfold view in A6. injection A6 as -> -> -> ->. rewrite <- !app_assoc.
      by destruct (hooking (ex_evm ex0)); rewrite <- ?app_assoc.
    + rewrite Hi, A7, length_app. unfold wrapping_add, wrap64. cbn [length]. rewrite Zplus_mod_idemp_l. f_equal. lia.
    + split; [|rewrite Hf, Hnone; by intros [? ?]]. rewrite tail_snoc. destruct l as [|y l]; [constructor|].
      apply Forall_app. split; [done|]. constructor; [|constructor]. cbn. intros ->. unfold next_transaction in Hn.
      destruct (pl_first st); [by specialize (A8' ltac:(by eexists))|].
      destruct (pl_redeems st); [destruct (pl_user_txs st) as [|[]]|]; done.
    + rewrite Hs. destruct s0, (pl_stream st); try done. cbn [fmap option_fmap option_map]. rewrite A7.
      by apply (stream_follows_observe _ _ _ _ x).
Qed.

Lemma accounted_loop (fuel : nat) (chain_id block : Z) (ex0 : ArbBlockExecutor) (s0 : option TxLogStream) (st st' : ProduceLoop) (l : list Included) :
  accounted chain_id block ex0 s0 st l -> produce_loop fuel chain_id block st = Ok st' -> exists l', accounted chain_id block ex0 s0 st' l'.
Proof.
  revert st l. induction fuel as [|fuel IH]; intros st l Ha H; [done|]. cbn [produce_loop] in H.
  apply rbind_Ok in H as ([st1|] & Hs & H); [|injection H as <-; by exists l].
  destruct (accounted_step _ _ _ _ _ _ _ Ha Hs) as [l1 Ha1]. by eapply IH.
Qed.

(** ** The finished block *)

(** The environment of the block: the message's, with the base fee of ArbOS state. *)
Definition block_env (config : ArbEvmConfig) (parent : Header) (input : ArbExecutionInput) (fee : Z) : EvmEnv ArbSpecId :=
  let env := next_evm_env config parent (next_block_attributes parent input (arbos_version parent)) in
  {| env_cfg := env_cfg env; env_block := set_block_base_fee fee (env_block env) |}.

(** The write of the parent hash to the history contract over the parent's state, and the base fee
    that ArbOS has after it, capped to 64 bits. *)
Definition opening_update (config : ArbEvmConfig) (parent : SealedHeader) (input : ArbExecutionInput) (p : StateProvider)
    (update : EvmState) (fee : Z) : Prop :=
  let header := sealed_header parent in
  let evm := set_l1_block_number (mi_l1_block_number input)
               (evm_new p (next_evm_env config header (next_block_attributes header input (arbos_version header)))) in
  let '(written, evm) := transact_system_call evm SYSTEM_ADDRESS HISTORY_STORAGE_ADDRESS (be_encode 32 (sealed_hash parent)) in
  written = Ok update /\ exists raw, fst (read_base_fee_wei (evm_commit update evm)) = Ok raw /\ fee = Z.min raw U64_MAX.

Lemma open_block_spec (config : ArbEvmConfig) (chain_id : Z) (parent : SealedHeader) (input : ArbExecutionInput) (p : StateProvider)
    (hook : bool) (ex : ArbBlockExecutor) :
  open_block config chain_id parent input p hook = Ok ex ->
  let header := sealed_header parent in
  exists update fee, opening_update config parent input p update fee /\
    ex_receipts ex = [] /\ ex_gas_used ex = 0 /\
    ex_ctx ex = context_for_next_block header (sealed_hash parent) (next_block_attributes header input (arbos_version header)) /\
    committed (ex_evm ex) = [update] /\ evm_env_of (ex_evm ex) = block_env config header input fee /\
    (hook = true -> hooking (ex_evm ex) = true /\ hooked (ex_evm ex) = [update]).
Proof.
  intros H header. unfold open_block in H. apply rbind_Ok in H as (ex1 & Hpre & H).
  unfold apply_pre_execution_changes in Hpre. set (ex0 := if hook then _ else _) in Hpre.
  assert (Hv0 : committed (ex_evm ex0) = [] /\
    evm_env_of (ex_evm ex0) = next_evm_env config header (next_block_attributes header input (arbos_version header)) /\
    (hook = true -> hooking (ex_evm ex0) = true /\ hooked (ex_evm ex0) = [])).
  { set (evm0 := evm_new p _) in *. pose proof (new_view p (next_evm_env config header (next_block_attributes header input (arbos_version header)))) as [N1 N2].
    pose proof (l1_view (mi_l1_block_number input) evm0) as Hl. unfold ex0. destruct hook;
      cbn [with_evm ex_evm create_executor executor_new xc_l1_block_number context_for_next_block na_l1_block_number next_block_attributes].
    - pose proof (hook_view true (set_l1_block_number (mi_l1_block_number input) evm0)) as Hh. unfold view in Hh, Hl.
      injection Hh as -> -> -> ->. injection Hl as -> _ _ ->. done.
    - unfold view in Hl. injection Hl as -> _ _ ->. done. }
  set (evm0 := set_l1_block_number (mi_l1_block_number input)
    (evm_new p (next_evm_env config header (next_block_attributes header input (arbos_version header))))).
  assert (He : evm_equiv (ex_evm ex0) evm0) by (unfold ex0; destruct hook; [apply hook_equiv|reflexivity]).
  assert (Hx : ex_receipts ex0 = [] /\ ex_gas_used ex0 = 0 /\
    ex_ctx ex0 = context_for_next_block header (sealed_hash parent) (next_block_attributes header input (arbos_version header))).
  { unfold ex0. by destruct hook. }
  clearbody ex0. destruct Hv0 as (V1 & V2 & V3), Hx as (X1 & X2 & X3).
  pose proof (system_call_equiv _ _ SYSTEM_ADDRESS HISTORY_STORAGE_ADDRESS (be_encode 32 (xc_parent_hash (ex_ctx ex0))) He) as [Q1 Q2].
  pose proof (system_call_view (ex_evm ex0) SYSTEM_ADDRESS HISTORY_STORAGE_ADDRESS (be_encode 32 (xc_parent_hash (ex_ctx ex0)))) as Hsys.
  destruct (transact_system_call (ex_evm ex0) _ _ _) as [res evm1]. cbn [fst snd] in Hsys, Q1, Q2.
  apply rbind_Ok in Hpre as (update & -> & [= <-]). cbn [ex_evm with_evm] in H. pose proof (commit_view update evm1) as Hcm. pose proof (base_fee_view (evm_commit update evm1)) as Hbf.
  destruct (read_base_fee_wei (evm_commit update evm1)) as [raw evm2] eqn:Hread. cbn [snd] in Hbf. apply rbind_Ok in H as (fee0 & -> & [= <-]).
  set (fee := if fee0 <=? U64_MAX then fee0 else U64_MAX). exists update, fee. unfold view in Hcm, Hbf, Hsys. injection Hsys as S1 S2 S3 S4.
  injection Hcm as C1 C2 C3 C4. injection Hbf as B1 B2 B3 B4. cbn [with_evm ex_receipts ex_gas_used ex_ctx ex_evm].
  pose proof (fee_view fee (modify_block (set_block_base_fee fee) evm2)) as Hfv.
  pose proof (modify_view (set_block_base_fee fee) evm2) as Hmv. unfold view in Hfv, Hmv. injection Hfv as -> -> -> ->. injection Hmv as -> -> -> ->.
  rewrite B1, B2, B3, B4, C1, C2, C3, C4, S1, S2, S3, S4, V1, V2. split_and!; try done.
  - unfold opening_update. fold header evm0. rewrite X3 in Q1, Q2.
    cbn [xc_parent_hash context_for_next_block] in Q1, Q2. destruct (transact_system_call evm0 _ _ _) as [written evm1'].
    cbn [fst snd] in Q1, Q2. split; [done|]. exists fee0. destruct (base_fee_equiv _ _ (commit_equiv update _ _ Q2)) as [F _].
    rewrite Hread in F. split; [done|]. unfold fee. destruct (Z.leb_spec fee0 U64_MAX); lia.
  - intros Hh. destruct (V3 Hh) as [-> ->]. done.
Qed.

Lemma receipt_of_envelope (ty : u8) (r : ReceiptWithBloom) : receipt_of (receipt_envelope_for_type ty r) = rwb_receipt r.
Proof. by destruct ty. Qed.

Lemma last_receipt_gas (rs : list ArbTxResult) :
  match last (receipts_from 0 rs) with Some r => r_cumulative_gas_used (receipt_of r) | None => 0 end = total_gas 0 rs.
Proof.
  destruct rs as [|r rs _] using rev_ind; [done|]. rewrite receipts_from_snoc, last_snoc. unfold receipt_saying.
  by rewrite receipt_of_envelope.
Qed.

Lemma flat_map_fmap {A B C : Type} (f : B -> list C) (g : A -> B) (l : list A) : flat_map f (g <$> l) = flat_map (fun a => f (g a)) l.
Proof. induction l as [|a l IH]; [done|]. cbn. by rewrite <- IH. Qed.

Lemma receipts_from_logs (total : Z) (rs : list ArbTxResult) :
  flat_map (fun r => r_logs (receipt_of r)) (receipts_from total rs) = flat_map (fun r => result_logs (tr_result r)) rs.
Proof.
  revert total. induction rs as [|r rs IH]; intros total; [done|]. cbn [receipts_from flat_map]. rewrite IH. unfold receipt_saying.
  by rewrite receipt_of_envelope.
Qed.

(** The block that goes with the included transactions. *)
Record block_of (config : ArbEvmConfig) (parent : SealedHeader) (input : ArbExecutionInput) (trie_state : StateProvider)
    (update : EvmState) (fee : Z) (l : list Included) (last : Evm) (precomputed : option Z) (o : Outcome) : Prop := {
  bo_transactions : blk_transactions (oc_block o) = in_tx <$> l;
  bo_types : Forall (fun x => tr_tx_type (in_result x) = tx_ty (in_tx x)) l;
  bo_kinds : Forall (fun x => in_kind x <> StartBlock) (tail l);
  bo_receipts : br_receipts (oc_result o) = receipts_from 0 (in_result <$> l);
  bo_state : committed (oc_evm o) = update :: (tr_state <$> (in_result <$> l));
  bo_links : parent_hash (blk_header (oc_block o)) = sealed_hash parent /\
    number (blk_header (oc_block o)) = wrapping_add (number (sealed_header parent)) 1 /\
    timestamp (blk_header (oc_block o)) = Z.max (mi_l1_timestamp input) (timestamp (sealed_header parent));
  bo_message : beneficiary (blk_header (oc_block o)) = mi_poster input /\ gas_limit (blk_header (oc_block o)) = mi_block_gas_limit input /\
    nonce (blk_header (oc_block o)) = be_encode 8 (mi_delayed_messages_read input) /\
    base_fee_per_gas (blk_header (oc_block o)) = Some fee /\ difficulty (blk_header (oc_block o)) = 1;
  bo_roots : transactions_root (blk_header (oc_block o)) = transaction_root (in_tx <$> l) /\
    receipts_root (blk_header (oc_block o)) = receipt_root (receipts_from 0 (in_result <$> l)) /\
    gas_used (blk_header (oc_block o)) = total_gas 0 (in_result <$> l) /\
    header_logs_bloom (blk_header (oc_block o)) = logs_bloom (flat_map (fun x => result_logs (tr_result (in_result x))) l);
  (** The state root is the precomputed one, or else that of the committed updates over the parent's trie. *)
  bo_root : match precomputed with
            | Some root => state_root (blk_header (oc_block o)) = root
            | None => synchronous_root trie_state (oc_evm o) = Ok (state_root (blk_header (oc_block o)))
            end;
  (** The metadata is what ArbOS has after the last transaction. *)
  bo_metadata : exists info, committed last = committed (oc_evm o) /\ read_block_header_info last = (Ok info, oc_evm o) /\
    let arb_info := {| hi_send_root := bi_send_root info; hi_send_count := bi_send_count info;
                       hi_l1_block_number := bi_l1_block_number info; hi_arbos_format_version := bi_arbos_version info;
                       hi_collect_tips := bi_collect_tips info && (mi_poster input =? ARB_BATCH_POSTER_ADDRESS) |} in
    mix_hash (blk_header (oc_block o)) = encode_mix_hash arb_info /\ extra_data (blk_header (oc_block o)) = encode_extra_data arb_info
}.

Lemma finished_block (config : ArbEvmConfig) (parent : SealedHeader) (input : ArbExecutionInput) (p : StateProvider) (update : EvmState) (fee : Z)
    (ex : ArbBlockExecutor) (root : option Z) (l : list Included) (o : Outcome) :
  let header := sealed_header parent in
  ex_receipts ex = receipts_from 0 (in_result <$> l) -> committed (ex_evm ex) = update :: (tr_state <$> (in_result <$> l)) ->
  evm_env_of (ex_evm ex) = block_env config header input fee ->
  ex_ctx ex = context_for_next_block header (sealed_hash parent) (next_block_attributes header input (arbos_version header)) ->
  Forall (fun x => tr_tx_type (in_result x) = tx_ty (in_tx x)) l -> Forall (fun x => in_kind x <> StartBlock) (tail l) ->
  builder_finish p (ex, in_tx <$> l) root = Ok o -> block_of config parent input p update fee l (ex_evm ex) root o.
Proof.
  intros header Hrec Hcom Henv Hctx Hty Hk Hf. rewrite finish_eq in Hf. unfold finish in Hf.
  pose proof (header_info_view (ex_evm ex)) as Hv. unfold view in Hv.
  destruct (read_block_header_info (ex_evm ex)) as [info evm] eqn:Hinfo. cbn [snd] in Hv. injection Hv as V1 _ _ V4.
  destruct info as [info|]; [|done]. cbn [rbind] in Hf. rewrite Hrec, last_receipt_gas in Hf. apply rbind_Ok in Hf as (r & Hroot & [= <-]).
  rewrite V4, Henv, Hctx. split; cbn; try done.
  - by rewrite V1, Hcom.
  - split_and!; try done. by rewrite receipts_from_logs, flat_map_fmap.
  - destruct root; [by injection Hroot as <-|done].
  - exists info. rewrite V1. done.
Qed.

Lemma produce_accounted (fuel : nat) (config : ArbEvmConfig) (chain_id : Z) (parent : SealedHeader) (msg : BroadcastFeedMessage)
    (exec_state trie_state : StateProvider) (task : option StateRootTask) (handle : option StreamHandle) (p : Produced) :
  let header := sealed_header parent in
  produce_with_timing fuel config chain_id parent msg exec_state trie_state task handle = Ok p ->
  exists input update fee l ex0,
    digest_message msg (arb_parent_of header) chain_id (arbos_version header) = Ok input /\ opening_update config parent input exec_state update fee /\
    open_block config chain_id parent input exec_state (bool_decide (is_Some task)) = Ok ex0 /\
    (exists e, executed chain_id (ex_evm ex0) l e /\
       block_of config parent input trie_state update fee l (if task then set_state_hook false e else e)
         (precomputed_root (arbos_version header) task (hooked e)) (pr_outcome p)) /\
    match begin_stream parent ex0 <$> handle, pr_stream p with
    | Some s0, Some s => stream_follows (wrapping_add (number header) 1) s0 s l
    | None, None => True
    | _, _ => False
    end.
Proof.
  intros header H. unfold produce_with_timing in H. apply rbind_Ok in H as (input & Hd & H). apply rbind_Ok in H as (ex0 & Ho & H).
  apply rbind_Ok in H as (st & Hl & H). pose proof (open_block_spec _ _ _ _ _ _ _ Ho) as (update & fee & Hfee & X1 & X2 & X3 & X4 & X5 & _).
  eapply (accounted_loop _ _ _ ex0 (begin_stream parent ex0 <$> handle) _ _ []) in Hl as [l [Ax _ A1 A2 A3 A4 A5 A6 A7 [A8 _] A9]].
  2:{ split; cbn; try done.
      - constructor.
      - clear. induction (mi_txs input); by constructor.
      - unfold view. rewrite !app_nil_r. by destruct (hooking (ex_evm ex0)).
      - destruct handle; [|done]. cbn. split_and!; try done. }
  exists input, update, fee, l, ex0. split_and!; [done..| |].
  - exists (ex_evm (fst (pl_building st))). split; [done|]. unfold view in A6. injection A6 as V1 _ _ V4.
    destruct (pl_building st) as [ex txs]. cbn [fst snd] in *. destruct task as [t|]; cbn [take_root] in H.
    + apply rbind_Ok in H as (o & Hf & [= <-]). cbn [fst snd] in Hf. rewrite A1 in Hf. pose proof (hook_view false (ex_evm ex)) as Hh. unfold view in Hh.
      injection Hh as H1 _ _ H4. change (set_state_hook false (ex_evm ex)) with (ex_evm (with_evm ex (set_state_hook false (ex_evm ex)))).
      eapply finished_block; [..|exact Hf]; cbn [with_evm ex_receipts ex_evm ex_ctx]; try done; [|congruence..].
      by rewrite H1, V1, X4.
    + apply rbind_Ok in H as (o & Hf & [= <-]). rewrite A1 in Hf. eapply finished_block; [..|exact Hf]; try done; [|congruence..]. by rewrite V1, X4.
  - destruct (take_root _ _ _) as [root b]. apply rbind_Ok in H as (o & _ & [= <-]). done.
Qed.

(** C17. A produced block says what was executed. The message is digested, the block opened, and the
    transactions run one after the other on the opened EVM, each over the updates of those before it;
    the block holds those that ran, in that order, the start-block one at most first. For each there
    is a receipt of its type with the status, logs, bloom and L1 gas of its own execution and the gas
    of the executions so far. The header links to the parent, takes timestamp, poster, gas limit and
    delayed count from the message, the base fee from ArbOS state as it was before the first
    transaction, roots, bloom and gas from the body, and its metadata from ArbOS after the last
    transaction; the state is the parent's with the update of the parent hash and those of the
    included transactions, in order, and its root is the task's or that of these updates. *)
Theorem produced_block (fuel : nat) (config : ArbEvmConfig) (chain_id : Z) (parent : SealedHeader) (msg : BroadcastFeedMessage)
    (exec_state trie_state : StateProvider) (task : option StateRootTask) (handle : option StreamHandle) (p : Produced) :
  let version := arbos_version (sealed_header parent) in
  produce_with_timing fuel config chain_id parent msg exec_state trie_state task handle = Ok p ->
  exists input update fee l ex0 e,
    digest_message msg (arb_parent_of (sealed_header parent)) chain_id version = Ok input /\
    opening_update config parent input exec_state update fee /\
    open_block config chain_id parent input exec_state (bool_decide (is_Some task)) = Ok ex0 /\
    executed chain_id (ex_evm ex0) l e /\
    block_of config parent input trie_state update fee l (if task then set_state_hook false e else e)
      (precomputed_root version task (hooked e)) (pr_outcome p).
Proof.
  intros version H. apply produce_accounted in H as (input & update & fee & l & ex0 & Hd & Hf & Ho & (e & Hx & Hb) & _).
  by exists input, update, fee, l, ex0, e.
Qed.

(** The transaction-log stream shows the block. The frontier store has taken one step for every
    transaction of the block, in order, with its index, hash and update; the events published are of
    these transactions, in order, and each carries the index, hash, frontier, success, gas and logs of
    its transaction; a client that is always there misses none. *)
Theorem observed_block (fuel : nat) (config : ArbEvmConfig) (chain_id : Z) (parent : SealedHeader) (msg : BroadcastFeedMessage)
    (exec_state trie_state : StateProvider) (task : option StateRootTask) (handle : StreamHandle) (p : Produced) :
  let block := wrapping_add (number (sealed_header parent)) 1 in
  produce_with_timing fuel config chain_id parent msg exec_state trie_state task (Some handle) = Ok p ->
  exists s ex0 l, pr_stream p = Some s /\ blk_transactions (oc_block (pr_outcome p)) = in_tx <$> l /\
    br_receipts (oc_result (pr_outcome p)) = receipts_from 0 (in_result <$> l) /\
    builder_run {| bl_store := sth_store handle; bl_blocks := [ts_block (begin_stream parent ex0 handle)] |} (advances block l)
      = Some {| bl_store := ts_store s; bl_blocks := [ts_block s] |} /\
    sublist (ts_published s) (events (sealed_hash parent) block l) /\
    ((forall n, sth_subscribed handle n = true) -> ts_published s = events (sealed_hash parent) block l).
Proof.
  intros block H. apply produce_accounted in H as (input & update & fee & l & ex0 & _ & _ & _ & (e & _ & Hb) & Hs). cbn [fmap option_fmap option_map] in Hs.
  destruct (pr_stream p) as [s|]; [|done]. destruct Hs as (_ & H2 & H3 & H4). exists s, ex0, l.
  split_and!; [done|by apply (bo_transactions _ _ _ _ _ _ _ _ _ _ Hb)|by apply (bo_receipts _ _ _ _ _ _ _ _ _ _ Hb)|exact H2|exact H3|].
  intros Hsub. by apply H4.
Qed.
End Ledger.

Section Watching.
Context {K : Keccak} {AR : ArbRevm} {RC : ReceiptCodec} {DG : Digest} {BB : BlockBuilder} {AL : ArbRevmLaws} {BL : BlockBuilderLaws}.

(** ** The block does not depend on who watches *)

Definition rel_result {A : Type} (R : A -> A -> Prop) (r r' : result string A) : Prop :=
  match r, r' with
  | Ok a, Ok a' => R a a'
  | Err e, Err e' => e = e'
  | _, _ => False
  end.

(** The same executor over an equivalent EVM. *)
Definition ex_equiv (ex ex' : ArbBlockExecutor) : Prop := exists e', ex' = with_evm ex e' /\ evm_equiv (ex_evm ex) e'.

Definition building_equiv (b b' : Building) : Prop := ex_equiv (fst b) (fst b') /\ snd b = snd b'.

(** The same position of the loop; the streams may differ. *)
Definition loop_equiv (st st' : ProduceLoop) : Prop :=
  building_equiv (pl_building st) (pl_building st') /\ pl_first st = pl_first st' /\ pl_redeems st = pl_redeems st' /\
  pl_user_txs st = pl_user_txs st'.

Lemma execute_equiv (b b' : Building) (tx : ArbTxEnvelope) (s : Z) :
  building_equiv b b' ->
  fst (execute_transaction_with_result_closure b tx s) = fst (execute_transaction_with_result_closure b' tx s) /\
  building_equiv (snd (execute_transaction_with_result_closure b tx s)) (snd (execute_transaction_with_result_closure b' tx s)).
Proof.
  destruct b as [ex txs], b' as [ex' txs']. intros [(e' & Hex & He) Htx]. cbn [fst snd] in *. subst ex' txs'. rewrite !execute_eq.
  unfold execute_transaction_without_commit. cbn [ex_evm with_evm]. pose proof (transact_equiv _ _ tx s He) as [H1 H2].
  destruct (transact (ex_evm ex) tx s) as [r e1], (transact e' tx s) as [r' e2]. cbn [fst snd] in *. subst r'.
  destruct r as [[res u]|e]; cbn [fst snd].
  - rewrite (poster_equiv _ _ H2). split; [done|]. split; [|done]. exists (evm_commit u e2). split; [done|]. cbn. by apply commit_equiv.
  - split; [done|]. split; [|done]. by exists e2.
Qed.

Lemma schedule_equiv (chain_id : Z) (b b' : Building) (res : ArbTxResult) :
  building_equiv b b' ->
  fst (schedule_retries chain_id b res) = fst (schedule_retries chain_id b' res) /\
  building_equiv (snd (schedule_retries chain_id b res)) (snd (schedule_retries chain_id b' res)).
Proof.
  intros Hb. pose proof Hb as [(e' & Hex & He) Htx]. unfold schedule_retries. destruct (is_success _ && _); [|done]. rewrite Hex. cbn [ex_evm with_evm].
  pose proof (retries_equiv _ _ (List.filter is_redeem_scheduled_log (result_logs (tr_result res))) chain_id He) as [H1 H2].
  destruct (scheduled_retries_from_redeem_logs (ex_evm (fst b)) _ _) as [rs e1], (scheduled_retries_from_redeem_logs e' _ _) as [rs' e2].
  cbn [fst snd] in *. subst rs'. split; [done|]. split; [|done]. by exists e2.
Qed.

Definition option_rel (R : ProduceLoop -> ProduceLoop -> Prop) (o o' : option ProduceLoop) : Prop :=
  match o, o' with
  | Some a, Some a' => R a a'
  | None, None => True
  | _, _ => False
  end.

Lemma next_transaction_equiv (st st' : ProduceLoop) :
  loop_equiv st st' ->
  match next_transaction st, next_transaction st' with
  | Some (tx, s, kind, st1), Some (tx', s', kind', st1') => tx = tx' /\ s = s' /\ kind = kind' /\ loop_equiv st1 st1'
  | None, None => True
  | _, _ => False
  end.
Proof.
  intros (Hb & Hf & Hq & Hu). unfold next_transaction. rewrite <- Hf, <- Hq, <- Hu. destruct (pl_first st); [by split_and!|].
  destruct (pl_redeems st); [destruct (pl_user_txs st) as [|[]]; [done|]|]; by split_and!.
Qed.

Lemma produce_step_equiv (chain_id block : Z) (st st' : ProduceLoop) :
  loop_equiv st st' -> rel_result (option_rel loop_equiv) (produce_step chain_id block st) (produce_step chain_id block st').
Proof.
  intros Hst. unfold produce_step. pose proof (next_transaction_equiv _ _ Hst) as Hn.
  destruct (next_transaction st) as [[[[tx sr] kind] st1]|], (next_transaction st') as [[[[tx' sr'] kind'] st1']|]; try done.
  destruct Hn as (<- & <- & <- & Hb & Hf & Hq & Hu). destruct sr as [s|]; [|done]. cbn [rbind].
  pose proof (execute_equiv _ _ tx s Hb) as [E1 E2].
  destruct (execute_transaction_with_result_closure (pl_building st1) tx s) as [r b], (execute_transaction_with_result_closure (pl_building st1') tx s) as [r' b'].
  cbn [fst snd] in *. subst r'. destruct r as [res|e].
  - pose proof (schedule_equiv chain_id _ _ res E2) as [S1 S2].
    destruct (schedule_retries chain_id b res) as [rs b1], (schedule_retries chain_id b' res) as [rs' b1']. cbn [fst snd] in *. subst rs'.
    split_and!; cbn; try done. by rewrite Hq.
  - destruct (is_internal kind); cbn; [done|]. by split_and!.
Qed.

Lemma produce_loop_equiv (fuel : nat) (chain_id block : Z) (st st' : ProduceLoop) :
  loop_equiv st st' -> rel_result loop_equiv (produce_loop fuel chain_id block st) (produce_loop fuel chain_id block st').
Proof.
  revert st st'. induction fuel as [|fuel IH]; intros st st' Hst; [done|]. cbn [produce_loop].
  pose proof (produce_step_equiv chain_id block _ _ Hst) as Hs.
  destruct (produce_step chain_id block st) as [[st1|]|], (produce_step chain_id block st') as [[st1'|]|]; try done; cbn [rbind]. by apply IH.
Qed.

Lemma open_block_equiv (config : ArbEvmConfig) (chain_id : Z) (parent : SealedHeader) (input : ArbExecutionInput) (p : StateProvider) (hook : bool) :
  rel_result ex_equiv (open_block config chain_id parent input p hook) (open_block config chain_id parent input p false).
Proof.
  unfold open_block. set (ex0 := create_executor _ _ _).
  assert (H0 : ex_equiv (if hook then with_evm ex0 (set_state_hook true (ex_evm ex0)) else ex0) ex0).
  { destruct hook; [|exists (ex_evm ex0); split; [by destruct ex0|reflexivity]]. exists (ex_evm ex0).
    split; [by destruct ex0|]. cbn. apply hook_equiv. }
  destruct H0 as (e' & Hex & He). set (ex1 := if hook then _ else _) in *. clearbody ex1. rewrite Hex. unfold apply_pre_execution_changes. cbn [ex_evm ex_ctx with_evm].
  pose proof (system_call_equiv _ _ SYSTEM_ADDRESS HISTORY_STORAGE_ADDRESS (be_encode 32 (xc_parent_hash (ex_ctx ex1))) He) as [S1 S2].
  destruct (transact_system_call (ex_evm ex1) _ _ _) as [r e1], (transact_system_call e' _ _ _) as [r' e1']. cbn [fst snd] in *. subst r'.
  destruct r as [u|]; [|done]. cbn [rbind ex_evm with_evm]. pose proof (base_fee_equiv _ _ (commit_equiv u _ _ S2)) as [B1 B2].
  destruct (read_base_fee_wei (evm_commit u e1)) as [r e2], (read_base_fee_wei (evm_commit u e1')) as [r' e2']. cbn [fst snd] in *. subst r'.
  destruct r as [fee|]; [|done]. cbn [rbind]. eexists. split; [done|]. cbn. by apply fee_equiv, modify_equiv.
Qed.

(** What the caller sees of an outcome. *)
Definition visible (o : Outcome) : Block * BlockExecutionResult := (oc_block o, oc_result o).

(** A precomputed root that is the synchronous one makes no difference. *)
Lemma finish_equiv (p : StateProvider) (b b' : Building) (root : option Z) :
  building_equiv b b' ->
  (forall r e, root = Some r -> committed e = committed (ex_evm (fst b)) -> synchronous_root p e = Ok r) ->
  rel_result (fun o o' => visible o = visible o') (builder_finish p b root) (builder_finish p b' None).
Proof.
  destruct b as [ex txs], b' as [ex' txs']. intros [(e' & Hex & He) Htx] Hroot. cbn [fst snd] in *. subst ex' txs'. rewrite !finish_eq. unfold finish.
  cbn [ex_evm ex_ctx ex_receipts with_evm]. pose proof (header_info_equiv _ _ He) as [H1 H2].
  pose proof (header_info_view (ex_evm ex)) as V. unfold view in V.
  destruct (read_block_header_info (ex_evm ex)) as [i e1], (read_block_header_info e') as [i' e1']. cbn [fst snd] in *. subst i'.
  destruct i as [info|]; [|done]. cbn [rbind]. pose proof (equiv_view _ _ H2) as [Hc Henv]. injection V as V1 _ _ _.
  rewrite (root_committed p _ _ (eq_sym Hc)), Henv. destruct root as [r|].
  - rewrite (Hroot r e1 eq_refl V1). done.
  - by destruct (synchronous_root p e1).
Qed.

(** The task's contract: on updates that it can represent, its root is the synchronous one. *)
Definition faithful_task (p : StateProvider) (version : Z) (task : StateRootTask) : Prop :=
  forall updates root e, sparse_hazards_seen (negb (arbos_30_enabled (from_arbos_version version))) updates = 0 ->
    task updates = Ok root -> committed e = updates -> synchronous_root p e = Ok root.

Lemma produce_watched (fuel : nat) (config : ArbEvmConfig) (chain_id : Z) (parent : SealedHeader) (msg : BroadcastFeedMessage)
    (exec_state trie_state : StateProvider) (task : option StateRootTask) (stream : option StreamHandle) :
  (forall t, task = Some t -> faithful_task trie_state (arbos_version (sealed_header parent)) t) ->
  rel_result (fun p p' => visible (pr_outcome p) = visible (pr_outcome p'))
    (produce_with_timing fuel config chain_id parent msg exec_state trie_state task stream)
    (produce_with_timing fuel config chain_id parent msg exec_state trie_state None None).
Proof.
  intros Hfaith. unfold produce_with_timing. destruct (digest_message _ _ _ _) as [input|]; [|done]. cbn [rbind].
  change (bool_decide (is_Some None)) with false.
  pose proof (open_block_equiv config chain_id parent input exec_state (bool_decide (is_Some task))) as Ho.
  pose proof (open_block_spec config chain_id parent input exec_state (bool_decide (is_Some task))) as Hspec.
  destruct (open_block config chain_id parent input exec_state (bool_decide (is_Some task))) as [ex0|], (open_block config chain_id parent input exec_state false) as [ex0'|]; try done.
  specialize (Hspec ex0 eq_refl) as (update & fee & _ & X1 & X2 & X3 & X4 & X5 & X6). cbn [rbind].
  set (st0 := {| pl_building := (ex0, []) |}). set (st0' := {| pl_building := (ex0', []) |}).
  assert (Hst : loop_equiv st0 st0').
  { split_and!; try done. cbn. destruct Ho as (e' & -> & He). unfold start_block_tx. cbn [ex_evm ex_chain_id with_evm].
    by destruct (equiv_view _ _ He) as [_ <-]. }
  pose proof (produce_loop_equiv fuel chain_id (wrapping_add (number (sealed_header parent)) 1) _ _ Hst) as Hl.
  pose proof (accounted_loop fuel chain_id (wrapping_add (number (sealed_header parent)) 1) ex0 (begin_stream parent ex0 <$> stream) st0) as Hacc.
  assert (Hus : Forall (fun t => snd t = tx_sender (fst t)) ((fun tx => (tx, tx_sender tx)) <$> mi_txs input))
    by (clear; induction (mi_txs input); by constructor).
  destruct (produce_loop fuel chain_id _ st0) as [st|], (produce_loop fuel chain_id _ st0') as [st'|]; try done. cbn [rbind].
  destruct (Hacc st [] ltac:(split; cbn; try done; [constructor|unfold view; rewrite !app_nil_r; by destruct (hooking (ex_evm ex0))|by destruct stream]) eq_refl)
    as [l [_ _ _ _ _ _ _ A6 _ _ _]]. destruct Hl as (Hb & _). cbn [take_root].
  destruct task as [t|]; cbn [take_root].
  - unfold view in A6. injection A6 as V1 V2 _ _. destruct (X6 eq_refl) as [Y1 Y2]. rewrite Y1, Y2 in V2. rewrite X4 in V1.
    set (root := precomputed_root _ _ _).
    set (closed := (with_evm (fst (pl_building st)) (set_state_hook false (ex_evm (fst (pl_building st)))), snd (pl_building st))).
    assert (Hf : rel_result (fun o o' => visible o = visible o') (builder_finish trie_state closed root)
      (builder_finish trie_state (pl_building st') None)).
    { apply finish_equiv.
      - split; [|exact (proj2 Hb)]. destruct Hb as [(e' & He1 & He2) _]. exists e'. split; [by rewrite He1|]. cbn. etrans; [apply hook_equiv|done].
      - intros r e Hr Hc. pose proof (hook_view false (ex_evm (fst (pl_building st)))) as Hh. unfold view in Hh. injection Hh as H1 _ _ _.
        unfold root, precomputed_root in Hr. destruct (Z.eqb_spec (sparse_hazards_seen (negb (arbos_30_enabled (from_arbos_version
          (arbos_version (sealed_header parent))))) (hooked (ex_evm (fst (pl_building st))))) 0) as [Hz|]; [|done]. cbn [negb] in Hr.
        destruct (t (hooked (ex_evm (fst (pl_building st))))) as [r'|] eqn:Ht; [|done]. injection Hr as <-.
        eapply (Hfaith t eq_refl); [exact Hz|exact Ht|]. rewrite Hc. unfold closed. cbn. by rewrite H1, V1, V2. }
    destruct (builder_finish trie_state closed root), (builder_finish trie_state (pl_building st') None); cbn in *; done.
  - pose proof (finish_equiv trie_state (pl_building st) (pl_building st') None Hb ltac:(done)) as Hf.
    destruct (builder_finish trie_state (pl_building st) None), (builder_finish trie_state (pl_building st') None); cbn in *; done.
Qed.

(** C8. The block is a function of the message, the parent and its state. Whether a state-root task
    runs, fails or cannot represent the updates, and whether clients follow the transactions, a
    production returns the same block and receipts, or the same error; the task need only be right
    about updates without a storage wipe and, before ArbOS 30, without a created empty account. *)
Theorem production_deterministic (fuel : nat) (config : ArbEvmConfig) (chain_id : Z) (parent : SealedHeader) (msg : BroadcastFeedMessage)
    (exec_state trie_state : StateProvider) (task task' : option StateRootTask) (stream stream' : option StreamHandle) :
  (forall t, task = Some t \/ task' = Some t -> faithful_task trie_state (arbos_version (sealed_header parent)) t) ->
  rel_result (fun p p' => visible (pr_outcome p) = visible (pr_outcome p'))
    (produce_with_timing fuel config chain_id parent msg exec_state trie_state task stream)
    (produce_with_timing fuel config chain_id parent msg exec_state trie_state task' stream').
Proof.
  intros Hf.
  pose proof (produce_watched fuel config chain_id parent msg exec_state trie_state task stream (fun t Ht => Hf t (or_introl Ht))) as H1.
  pose proof (produce_watched fuel config chain_id parent msg exec_state trie_state task' stream' (fun t Ht => Hf t (or_intror Ht))) as H2.
  destruct (produce_with_timing fuel config chain_id parent msg exec_state trie_state task stream),
    (produce_with_timing fuel config chain_id parent msg exec_state trie_state task' stream'),
    (produce_with_timing fuel config chain_id parent msg exec_state trie_state None None); cbn in *; congruence || done.
Qed.
End Watching.

(** ** A small chain *)

Module SampleRevm.

(** A transaction: its type, hash and sender, its gas, whether it is valid, and how many retries it schedules, if its
    gas pays for them. *)
Record Tx := { x_ty : u8; x_hash : Z; x_sender : result string Z; x_gas : Z; x_valid : bool; x_redeems : nat }.

(** What execution sees, and the hook beside it. *)
Record Core := { c_env : EvmEnv Z; c_updates : list (list AccountFlags); c_poster : Z; c_l1 : Z; c_fee : Z }.
Record Machine := { core : Core; seen : list (list AccountFlags); watching : bool }.

Definition on_core (f : Core -> Core) (m : Machine) : Machine := {| core := f (core m); seen := seen m; watching := watching m |}.

Definition set_updates (us : list (list AccountFlags)) (c : Core) : Core := {|
  c_env := c_env c; c_updates := us; c_poster := c_poster c; c_l1 := c_l1 c; c_fee := c_fee c
|}.

Definition set_env (f : ArbBlockEnv -> ArbBlockEnv) (c : Core) : Core := {|
  c_env := {| env_cfg := env_cfg (c_env c); env_block := f (env_block (c_env c)) |}; c_updates := c_updates c;
  c_poster := c_poster c; c_l1 := c_l1 c; c_fee := c_fee c
|}.

Definition set_poster (gas : Z) (c : Core) : Core := {|
  c_env := c_env c; c_updates := c_updates c; c_poster := gas; c_l1 := c_l1 c; c_fee := c_fee c
|}.

Definition set_context (l1 fee : Z) (c : Core) : Core := {|
  c_env := c_env c; c_updates := c_updates c; c_poster := c_poster c; c_l1 := l1; c_fee := fee
|}.

Definition account : AccountFlags := {| is_selfdestructed := false; is_created := false; is_empty := false |}.
Definition redeem_log : Log := {| log_address := 110; log_topics := [7]; log_data := [] |}.

Definition run (m : Machine) (tx : Tx) : result string (ExecutionResult * list AccountFlags) :=
  if x_valid tx then Ok ({| is_success := true; tx_gas_used := x_gas tx; result_logs := repeat redeem_log (Nat.min (x_redeems tx) (Z.to_nat (x_gas tx / 100))) |}, [account])
  else Err "invalid"%string.

Definition retry (hash : Z) : Tx := {| x_ty := x68; x_hash := hash; x_sender := Ok 3; x_gas := 50; x_valid := true; x_redeems := 0 |}.

#[export] Instance revm : ArbRevm := {|
  ArbTxEnvelope := Tx; tx_ty := x_ty; tx_hash := x_hash; tx_sender := x_sender;
  internal_tx chain_id data := {| x_ty := x6a; x_hash := chain_id; x_sender := Ok 10; x_gas := 0; x_valid := true; x_redeems := 0 |};
  ArbSpecId := Z; from_arbos_version v := v; default_spec := 0; arbos_30_enabled v := 30 <=? v;
  decode_header h := Some {| hi_send_root := 0; hi_send_count := 0; hi_l1_block_number := 0; hi_arbos_format_version := mix_hash h;
                             hi_collect_tips := false |};
  is_arbitrum _ := true; encode_mix_hash := hi_arbos_format_version; encode_extra_data i := be_encode 32 (hi_send_root i);
  transaction_root txs := Z.of_nat (length txs); receipt_root rs := Z.of_nat (length rs);
  SYSTEM_ADDRESS := 1; HISTORY_STORAGE_ADDRESS := 2; ARB_BATCH_POSTER_ADDRESS := 4;
  start_block_prelude _ := Some [x6b];
  StateProvider := Z; EvmState := list AccountFlags; state_values u := u; CacheState := nat; ArbChainContext := Z;
  Evm := Machine;
  evm_new p env := {| core := {| c_env := env; c_updates := []; c_poster := 0; c_l1 := 0; c_fee := 0 |};
                      seen := []; watching := false |};
  evm_env_of m := c_env (core m); modify_block f := on_core (set_env f); chain m := c_l1 (core m); poster_gas m := c_poster (core m);
  set_l1_block_number n m := on_core (set_context n (c_fee (core m))) m;
  set_base_fee_in_block n m := on_core (set_context (c_l1 (core m)) n) m;
  cache m := length (c_updates (core m));
  set_state_hook b m := {| core := core m; seen := if b then [] else seen m; watching := b |};
  hooked := seen;
  transact m tx s := (run m tx, on_core (set_poster (x_gas tx / 2)) m);
  transact_system_call m a b d := (Ok [account], m);
  evm_commit u m := {| core := set_updates (c_updates (core m) ++ [u]) (core m);
                       seen := if watching m then seen m ++ [u] else seen m; watching := watching m |};
  read_base_fee_wei m := (Ok (100 + Z.of_nat (length (c_updates (core m)))), m);
  read_block_header_info m := (Ok {| bi_send_root := 9; bi_send_count := 0; bi_l1_block_number := c_l1 (core m); bi_arbos_version := 20;
                                     bi_collect_tips := false |}, m);
  is_redeem_scheduled_log l := bool_decide (log_topics l = [7]);
  scheduled_retries_from_redeem_logs m logs c :=
    ((fun i => retry (1000 + Z.of_nat i)) <$> seq 0 (length logs), m)
|}.

Definition same_core (m m' : Machine) : Prop := core m = core m'.

#[export] Instance same_core_equivalence : Equivalence same_core.
Proof. split; unfold same_core; congruence. Qed.

#[export] Instance revm_laws : ArbRevmLaws (AR := revm).
Proof.
  refine {| committed := fun m : Evm (ArbRevm := revm) => c_updates (core m); hooking := watching; evm_equiv := same_core |};
    intros; cbn in *; unfold same_core, Proper, respectful in *; try done; try (by rewrite H); try (intros ? ? H; cbn; by rewrite H);
    unfold on_core; cbn; by rewrite H.
Defined.

Lemma donated_to (start n : nat) :
  foldr (fun r total => x_gas r + total) 0 ((fun i => retry (1000 + Z.of_nat i)) <$> seq start n) = 50 * Z.of_nat n.
Proof. revert start. induction n as [|n IH]; intros start; [done|]. cbn [seq fmap list_fmap foldr x_gas retry]. rewrite IH. lia. Qed.

#[export] Instance redeem_gas : RedeemGas (AR := revm).
Proof.
  refine {| tx_gas_limit := x_gas : ArbTxEnvelope (ArbRevm := revm) -> Z |}. intros e tx s res u e' c H. cbn in H.
  unfold run in H. destruct (x_valid tx); [|done]. injection H as <- <- <-. cbn zeta.
  set (k := Nat.min (x_redeems tx) (Z.to_nat (x_gas tx / 100))).
  cbn [fst scheduled_retries_from_redeem_logs revm result_logs is_redeem_scheduled_log].
  assert (Hlen : length (List.filter (fun l => bool_decide (log_topics l = [7])) (repeat redeem_log k)) = k).
  { clearbody k. induction k as [|k IH]; [done|]. cbn [repeat List.filter]. rewrite bool_decide_eq_true_2 by done. cbn [length]. by rewrite IH. }
  rewrite Hlen. split.
  - apply Forall_fmap, Forall_forall. intros i _. by split.
  - intros Hne. match goal with |- ?a <= _ /\ _ => assert (a = 50 * Z.of_nat k) as -> by exact (donated_to 0 k) end. assert (0 < k)%nat by (destruct k; [done|lia]). unfold k in *.
    assert (Hdiv : 100 * (x_gas tx / 100) <= x_gas tx) by (apply Z.mul_div_le; lia). lia.
Defined.

#[export] Existing Instances FixedWidth.codec Reference.keccak.

(** A root that counts the updates over the parent. *)
Definition root_of (p : Z) (updates : list (list AccountFlags)) : Z := p + Z.of_nat (length updates).

#[export] Instance builder : BlockBuilder (AR := revm) := {|
  execute_transaction_with_result_closure b tx s :=
    match execute_transaction_without_commit (fst b) tx s with
    | (Ok res, ex) => (Ok res, (commit_transaction ex res, snd b ++ [tx]))
    | (Err e, ex) => (Err e, (ex, snd b))
    end;
  synchronous_root p m := Ok (root_of p (c_updates (core m)));
  builder_finish p b precomputed :=
    let? '(evm, ctx, out) := finish (fst b) in
    let? root := match precomputed with
                 | Some root => Ok root
                 | None => Ok (root_of p (c_updates (core evm)))
                 end in
    Ok {| oc_block := assemble_block (env_block (evm_env_of evm)) ctx (snd b) out root; oc_result := out; oc_evm := evm |}
|}.

#[export] Instance builder_laws : BlockBuilderLaws (AR := revm) (RC := FixedWidth.codec) (BB := builder) (AL := revm_laws).
Proof. split; [done|done|]. intros p e e' H. cbn in *. by rewrite H. Qed.

(** A user transaction that redeems twice, one that is invalid, and one more. *)
Definition user (hash : Z) (valid : bool) (redeems : nat) : Tx := {|
  x_ty := x02; x_hash := hash; x_sender := Ok 5; x_gas := 21000; x_valid := valid; x_redeems := redeems
|}.

Definition txs : list Tx := [user 501 true 2; user 502 false 0; user 503 true 0].

#[export] Instance digest : Digest (AR := revm) := {|
  digest_message msg parent chain_id version := Ok {|
    mi_l1_block_number := fh_block_number (fl_header (fm_l1_incoming_message msg));
    mi_l1_timestamp := fh_timestamp (fl_header (fm_l1_incoming_message msg)); mi_poster := 4; mi_l1_base_fee_wei := 7;
    mi_delayed_messages_read := fm_delayed_messages_read msg; mi_txs := txs; mi_block_gas_limit := 2 ^ 50 |}
|}.

Definition message (sequence_number timestamp : Z) : BroadcastFeedMessage := {|
  fm_sequence_number := sequence_number;
  fm_l1_incoming_message := {|
    fl_header := {| fh_kind := x03; fh_sender := "0x04"; fh_block_number := 77; fh_timestamp := timestamp; fh_request_id := JNull;
                    fh_base_fee_l1 := JNull |};
    fl_l2msg := EmptyString; fl_legacy_batch_gas_cost := None; fl_batch_data_stats := None |};
  fm_delayed_messages_read := 3
|}.

Definition genesis_header : Header := {|
  parent_hash := 0; ommers_hash := 0; beneficiary := 0; state_root := 0; transactions_root := 0; receipts_root := 0;
  withdrawals_root := None; header_logs_bloom := 0; difficulty := 1; number := 40; gas_limit := 2 ^ 50; gas_used := 0;
  timestamp := 900; mix_hash := 20; nonce := []; base_fee_per_gas := Some 99; extra_data := [];
  parent_beacon_block_root := None; blob_gas_used := None; excess_blob_gas := None; requests_hash := None;
  block_access_list_hash := None; slot_number := None
|}.

Definition parent : SealedHeader := {| sealed_header := genesis_header; sealed_hash := 4040 |}.

(** The task computes the root of what its hook saw. *)
Definition sample_task (updates : list (list AccountFlags)) : result string Z := Ok (root_of 600 updates).

Definition handle : StreamHandle := {| sth_store := store_new 16; sth_subscribed := fun _ => true |}.

Abbreviation production task stream := (produce_with_timing (AR := revm) 20 arbitrum_one 42161 parent (message 1 1000) 600 600 task stream).

Lemma production_ok (task : option (StateRootTask (AR := revm))) (stream : option (StreamHandle (AR := revm))) :
  match production task stream with Ok _ => true | Err _ => false end = true -> exists p, production task stream = Ok p.
Proof. destruct (production task stream) as [p|]; [by exists p|done]. Qed.

(** What was included, in order: the start-block transaction, a user's, its two retries, another user's. *)
Definition hashes (r : result string Produced) : list Z :=
  match r with
  | Ok p => x_hash <$> blk_transactions (oc_block (pr_outcome p))
  | Err _ => []
  end.

Lemma produced_block_witness :
  hashes (production (Some sample_task) None) = [42161; 501; 1000; 1001; 503] /\
  exists p, production (Some sample_task) None = Ok p /\
  exists input update fee l ex0 e,
    digest_message (message 1 1000) (arb_parent_of genesis_header) 42161 (arbos_version genesis_header) = Ok input /\
    opening_update arbitrum_one parent input 600 update fee /\
    open_block arbitrum_one 42161 parent input 600 true = Ok ex0 /\ executed 42161 (ex_evm ex0) l e /\
    block_of arbitrum_one parent input 600 update fee l (set_state_hook false e)
      (precomputed_root (arbos_version genesis_header) (Some sample_task) (hooked e)) (pr_outcome p).
Proof.
  split; [vm_compute; reflexivity|]. destruct (production_ok (Some sample_task) None) as [p Hp]; [vm_compute; reflexivity|].
  exists p. split; [exact Hp|]. apply produced_block in Hp. exact Hp.
Defined.

(** A client that is always there sees five events. *)
Lemma observed_block_witness :
  exists p s l, production None (Some handle) = Ok p /\ pr_stream p = Some s /\
    blk_transactions (oc_block (pr_outcome p)) = in_tx <$> l /\ ts_published s = events 4040 41 l /\ length (ts_published s) = 5%nat.
Proof.
  destruct (production_ok None (Some handle)) as [p Hp]; [vm_compute; reflexivity|].
  pose proof Hp as Hrun. apply observed_block in Hrun as (s & ex0 & l & Hs & Ht & _ & _ & _ & He).
  pose proof (He (fun _ => eq_refl)) as Hpub. exists p, s, l. split_and!; [exact Hp|exact Hs|exact Ht|exact Hpub|].
  assert (Hlen : match production None (Some handle) with
                 | Ok p => length (blk_transactions (oc_block (pr_outcome p)))
                 | Err _ => O
                 end = 5%nat) by (vm_compute; reflexivity).
  rewrite Hp, Ht in Hlen. rewrite Hpub. unfold events. rewrite length_imap, <- Hlen. symmetry. apply length_fmap.
Defined.

Lemma sample_task_faithful : faithful_task 600 20 sample_task.
Proof. intros updates root e _ [= <-] <-. reflexivity. Qed.

(** With a task, without one, and with a task that fails. *)
Lemma production_deterministic_witness :
  hashes (production None None) = [42161; 501; 1000; 1001; 503] /\
  rel_result (fun p p' => visible (pr_outcome p) = visible (pr_outcome p'))
    (production (Some sample_task) (Some handle)) (production None None).
Proof.
  split; [vm_compute; reflexivity|].
  apply (production_deterministic (AR := revm) 20 arbitrum_one 42161 parent (message 1 1000) 600 600 (Some sample_task) None (Some handle) None).
  intros t [[= <-]|[=]]. exact sample_task_faithful.
Defined.

(** The loop over this block, opened on the environment of its parent. *)
Definition start : ProduceLoop := {|
  pl_building := (executor_new (evm_new 600 (evm_env arbitrum_one genesis_header)) (context_for_block genesis_header) 42161, []);
  pl_first := None; pl_redeems := []; pl_user_txs := recovered txs; pl_transaction_index := 0; pl_stream := None
|}.

(** Three users with 21000 gas each: every bound above 63003 turns gives the same end. *)
Lemma production_terminates_witness :
  Z.of_nat (turns_left start) = 63003 /\ exists r, loop_ends 42161 41 start r /\ produce_loop (S (turns_left start)) 42161 41 start = r.
Proof.
  split; [vm_compute; reflexivity|]. destruct (production_terminates 42161 41 start) as (r & Hr & Hf). exists r.
  split; [exact Hr|]. apply Hf. apply Nat.lt_succ_diag_r.
Defined.
End SampleRevm.
