(* ===== verification/Payload.v ===== *)
(** * The payload builder

    [crates/arb-reth-engine/src/native_payload.rs]: one deterministic build per payload request, over
    the state of the parent, with an execution cache only when it belongs to that parent. With it as
    the engine of [Driver], the blocks that a driver applies form one chain whose numbers follow the
    messages. The provider and its caches are Reth's: the class [Provider]. *)

From Stdlib Require Import Strings.Byte Strings.String.
From stdpp Require Import base list numbers option strings gmap.
From S2P Require Import Prelude External TxLog StoredReceipt L1Decode Driver BlockExecutor Production ProductionSpec.

(** Reth's provider: the answers to the calls of one build, headers, and caches over a state. *)
Class Provider {AR : ArbRevm} := {
  state_by_block_hash : nat -> Z -> result string StateProvider;
  latest_header : result string (option SealedHeader);
  sealed_header_by_hash : Z -> result string (option SealedHeader);
  header_hash : Header -> Z;
  SavedCache : Type;
  executed_block_hash : SavedCache -> Z;
  cached_state_provider : StateProvider -> SavedCache -> StateProvider
}.

Section Payload.
Context {K : Keccak} {AR : ArbRevm} {RC : ReceiptCodec} {DG : Digest} {BB : BlockBuilder} {PR : Provider}.

Inductive PayloadBuilderError := MissingParentHeader (hash : Z) | MissingPayload | BuilderOther (error : string).

Record ArbPayloadBuilder := { ab_evm_config : ArbEvmConfig; ab_chain_id : Z; ab_tx_log_stream : option StreamHandle }.

(** What the engine tree lends to a job. *)
Record BuildResources := { br_execution_cache : option SavedCache; br_state_root_handle : option StateRootTask }.

(** The cache of another parent is ignored. *)
Definition parent_cache (cache : option SavedCache) (parent_hash : Z) : option SavedCache :=
  match cache with
  | Some c => if executed_block_hash c =? parent_hash then Some c else None
  | None => None
  end.

Definition build (fuel : nat) (self : ArbPayloadBuilder) (parent : SealedHeader) (attributes : ArbPayloadAttributes)
    (resources : BuildResources) : result PayloadBuilderError Produced :=
  let hash := sealed_hash parent in
  let execution_cache := parent_cache (br_execution_cache resources) hash in
  let? execution_state := map_err BuilderOther (state_by_block_hash 0 hash) in
  let? trie_state := map_err BuilderOther (state_by_block_hash 1 hash) in
  let execution_state := match execution_cache with
                         | Some cache => cached_state_provider execution_state cache
                         | None => execution_state
                         end in
  map_err BuilderOther (produce_with_timing fuel (ab_evm_config self) (ab_chain_id self) parent (pa_message attributes) execution_state
                          trie_state (br_state_root_handle resources) (ab_tx_log_stream self)).

(** ** Jobs *)

(** The build that was started for a job, until it is resolved. *)
Record ArbPayloadJob := { pj_attributes : ArbPayloadAttributes; pj_pending : option (result PayloadBuilderError Produced) }.

Definition parent_header_of (parent_hash : Z) : result PayloadBuilderError SealedHeader :=
  if parent_hash =? 0 then
    let? latest := map_err BuilderOther latest_header in
    ok_or (MissingParentHeader 0) latest
  else
    let? found := map_err BuilderOther (sealed_header_by_hash parent_hash) in
    ok_or (MissingParentHeader parent_hash) found.

Definition new_payload_job (fuel : nat) (self : ArbPayloadBuilder) (attributes : ArbPayloadAttributes) (parent_hash : Z)
    (resources : BuildResources) : result PayloadBuilderError ArbPayloadJob :=
  let? parent_header := parent_header_of parent_hash in
  Ok {| pj_attributes := attributes; pj_pending := Some (build fuel self parent_header attributes resources) |}.

Definition best_payload (job : ArbPayloadJob) : result PayloadBuilderError Produced := Err MissingPayload.

Definition payload_timestamp (job : ArbPayloadJob) : Z := pa_timestamp (pj_attributes job).

(** The future takes the pending build with it. *)
Definition resolve_kind (job : ArbPayloadJob) : option (result PayloadBuilderError Produced) * ArbPayloadJob :=
  (pj_pending job, {| pj_attributes := pj_attributes job; pj_pending := None |}).

(** Polling the future until it is ready. *)
Definition resolved (pending : option (result PayloadBuilderError Produced)) : result PayloadBuilderError Produced :=
  match pending with
  | None => Err MissingPayload
  | Some result => result
  end.

(** ** As the driver's engine *)

Definition seal (h : Header) : Driver.SealedHeader := {| sh_number := number h; sh_timestamp := timestamp h; sh_hash := header_hash h |}.

(** The tree starts a job for the head it is told of; the driver resolves it. *)
Definition payload_engine (fuel : nat) (self : ArbPayloadBuilder) (resources : Z -> BuildResources)
    (accepts : list EngineRequest -> bool) (answer : ExecutedBlock -> result string unit) (canonical : ExecutedBlock -> bool) : Engine := {|
  tree_accepts := accepts;
  build_payload parent attributes :=
    match new_payload_job fuel self attributes (sh_hash parent) (resources (sh_hash parent)) with
    | Err _ => Err "payload job"%string
    | Ok job =>
        match resolved (fst (resolve_kind job)) with
        | Ok p => Ok {| eb_header := seal (blk_header (oc_block (pr_outcome p))) |}
        | Err _ => Err "payload"%string
        end
    end;
  forkchoice_answer := answer;
  becomes_canonical := canonical
|}.

(** ** Theorems *)

(** A job resolves once, with its build. *)
Theorem job_resolves_once (fuel : nat) (self : ArbPayloadBuilder) (attributes : ArbPayloadAttributes) (hash : Z) (resources : BuildResources)
    (job : ArbPayloadJob) :
  new_payload_job fuel self attributes hash resources = Ok job ->
  exists parent, parent_header_of hash = Ok parent /\ resolved (fst (resolve_kind job)) = build fuel self parent attributes resources /\
    resolved (fst (resolve_kind (snd (resolve_kind job)))) = Err MissingPayload.
Proof. unfold new_payload_job. intros H. apply rbind_Ok in H as (parent & Hp & [= <-]). by exists parent. Qed.

(** A cache of another parent changes nothing. *)
Theorem foreign_cache_ignored (fuel : nat) (self : ArbPayloadBuilder) (parent : SealedHeader) (attributes : ArbPayloadAttributes)
    (cache : SavedCache) (task : option StateRootTask) :
  executed_block_hash cache <> sealed_hash parent ->
  build fuel self parent attributes {| br_execution_cache := Some cache; br_state_root_handle := task |} =
  build fuel self parent attributes {| br_execution_cache := None; br_state_root_handle := task |}.
Proof. intros Hne. unfold build, parent_cache. cbn. by rewrite (proj2 (Z.eqb_neq _ _) Hne). Qed.
End Payload.

(** What is read back under the hash of a header is that header. *)
Class ProviderLaws {AR : ArbRevm} {PR : Provider} := {
  by_hash : forall h p, sealed_header_by_hash (header_hash h) = Ok (Some p) -> sealed_header p = h /\ sealed_hash p = header_hash h;
  header_hash_nonzero : forall h, header_hash h <> 0
}.

(** The L1 timestamp of a digested message is the one of its header. *)
Class DigestLaws {AR : ArbRevm} {DG : Digest} := {
  digest_timestamp : forall msg parent chain_id version input, digest_message msg parent chain_id version = Ok input ->
    mi_l1_timestamp input = fh_timestamp (fl_header (fm_l1_incoming_message msg))
}.

Section Chain.
Context {K : Keccak} {AR : ArbRevm} {RC : ReceiptCodec} {DG : Digest} {BB : BlockBuilder} {PR : Provider} {AL : ArbRevmLaws}
  {BL : BlockBuilderLaws} {PL : ProviderLaws} {DL : DigestLaws}.
Context (fuel : nat) (self : ArbPayloadBuilder) (resources : Z -> BuildResources) (accepts : list EngineRequest -> bool)
  (answer : ExecutedBlock -> result string unit) (canonical : ExecutedBlock -> bool).

#[local] Instance engine : Engine := payload_engine fuel self resources accepts answer canonical.

(** The block that a payload request over a known header resolves to. *)
Lemma build_payload_spec (h : Header) (attributes : ArbPayloadAttributes) (b : ExecutedBlock) :
  build_payload (seal h) attributes = Ok b ->
  exists h', eb_header b = seal h' /\ parent_hash h' = header_hash h /\ number h' = wrapping_add (number h) 1 /\
    timestamp h' = Z.max (fh_timestamp (fl_header (fm_l1_incoming_message (pa_message attributes)))) (timestamp h).
Proof.
  cbn. unfold new_payload_job, parent_header_of. rewrite (proj2 (Z.eqb_neq _ _) (header_hash_nonzero h)).
  destruct (sealed_header_by_hash (header_hash h)) as [[p|]|] eqn:Hp; cbn; try done.
  destruct (by_hash _ _ Hp) as [Hh Hs].
  destruct (build fuel self p attributes _) as [pr|] eqn:Hb; cbn; [|done]. intros [= <-].
  unfold build in Hb. apply rbind_Ok in Hb as (es & _ & Hb). apply rbind_Ok in Hb as (ts & _ & Hb). apply map_err_Ok in Hb.
  apply produce_accounted in Hb as (input & update & fee & l & ex0 & Hd & _ & _ & (e & _ & Hbo) & _). apply digest_timestamp in Hd.
  eexists. split; [done|]. destruct (bo_links _ _ _ _ _ _ _ _ _ _ Hbo) as (H1 & H2 & H3). rewrite H1, H2, H3, Hs, Hd, Hh. done.
Qed.

(** Blocks of messages, each over the one before it. *)
Fixpoint linked (parent : Header) (l : list applied) : Prop :=
  match l with
  | [] => True
  | (m, b) :: l =>
      exists h, eb_header b = seal h /\ parent_hash h = header_hash parent /\ number h = wrapping_add (number parent) 1 /\
        timestamp h = pa_timestamp (payload_of (seal parent) m) /\ linked h l
  end.

Lemma chain_linked (parent : Header) (n : Z) (l : list applied) : Driver.chain (seal parent) n l -> linked parent l.
Proof.
  revert parent n. induction l as [|[m b] l IH]; intros parent n; [done|]. intros (_ & Hb & Hc).
  apply build_payload_spec in Hb as (h & He & H1 & H2 & H3). exists h. rewrite He in Hc. split_and!; try done. by eapply IH.
Qed.

Lemma chain_numbers (parent : Header) (g n : Z) (l : list applied) :
  Driver.chain (seal parent) n l -> number parent = g + (n - 1) -> 0 <= number parent -> g + n + Z.of_nat (length l) <= 2 ^ 64 ->
  Forall (fun a => sh_number (eb_header (snd a)) = g + fm_sequence_number (fst a)) l.
Proof.
  revert parent n. induction l as [|[m b] l IH]; intros parent n; [done|]. intros (Hm & Hb & Hc) Hn Hpos Hlen. cbn [length] in Hlen.
  apply build_payload_spec in Hb as (h & He & _ & H2 & _). unfold wrapping_add in H2. rewrite wrap64_small in H2 by (unfold is_u64; lia).
  constructor.
  - cbn [fst snd]. rewrite He. cbn. lia.
  - rewrite He in Hc. apply (IH h (n + 1)); [done|lia..].
Qed.

(** C3. Message n becomes block g + n. Whatever order and overlap the feed and L1 derivation deliver
    messages in, the blocks of a driver spawned at the header [t] of a chain whose genesis block is
    [g] are one chain over it: every block names its parent's hash, has the next number and the
    timestamp its payload attributes announce, and the block of the message with sequence number n is
    number g + n. *)
Theorem driven_blocks_linked (t : Header) (g : Z) (msgs : list (BroadcastFeedMessage * bool)) (d : ArbEngineDriver) :
  sequences_ok msgs -> 0 <= g <= number t -> drive msgs (spawned (seal t) g) = Ok d ->
  exists l, Forall (fun a => In (fst a) (map fst msgs)) l /\ tip d = chain_tip (seal t) l /\ to_tree d = chain_requests (seal t) l /\
    linked t l /\
    (number t + 1 + Z.of_nat (length l) <= 2 ^ 64 -> Forall (fun a => sh_number (eb_header (snd a)) = g + fm_sequence_number (fst a)) l).
Proof.
  intros Hs Hg H. destruct (drive_spec _ _ _ _ Hs H) as (l & Hi & _). destruct Hi. cbn [spawned Driver.tip to_tree] in *.
  exists l. split_and!; try done; [by eapply chain_linked|]. intros Hlen.
  destruct l as [|a l]; [constructor|]. cbn [length] in Hlen. unfold spawned in ri_chain. cbn in ri_chain.
  unfold wrapping_add, saturating_sub in ri_chain. rewrite wrap64_small in ri_chain by (unfold is_u64; lia).
  eapply chain_numbers; [exact ri_chain|lia..|]. clear -Hlen Hg. cbn [length]. unfold applied in *. lia.
Qed.
End Chain.

(** ** Two messages become two blocks *)

Module SamplePayload.
Import SampleRevm.

#[export] Instance header_eq_dec : EqDecision Header.
Proof. solve_decision. Defined.

(** The header of the block of a message over a parent. *)
Definition child (parent : SealedHeader) (msg : BroadcastFeedMessage) : Header :=
  match produce_with_timing (AR := revm) 20 arbitrum_one 42161 parent msg 600 600 None None with
  | Ok p => blk_header (oc_block (pr_outcome p))
  | Err _ => genesis_header
  end.

Definition header1 : Header := Eval vm_compute in child {| sealed_header := genesis_header; sealed_hash := 1 |} (message 1 1000).

(** The headers that exist, hashed by their positions. *)
Definition known : list Header := [genesis_header; header1].

Definition hash_of (h : Header) : Z :=
  match list_find (fun k => k = h) known with
  | Some (i, _) => Z.of_nat i + 1
  | None => 99
  end.

#[export] Instance provider : Provider (AR := revm) := {|
  state_by_block_hash _ _ := Ok 600;
  latest_header := Ok (Some {| sealed_header := header1; sealed_hash := 2 |});
  sealed_header_by_hash hash := Ok ((fun h => {| sealed_header := h; sealed_hash := hash |}) <$> known !! Z.to_nat (hash - 1));
  header_hash := hash_of;
  SavedCache := Z; executed_block_hash c := c; cached_state_provider s _ := s
|}.

#[export] Instance provider_laws : ProviderLaws (AR := revm) (PR := provider).
Proof.
  split; cbn [sealed_header_by_hash header_hash provider].
  - intros h p. unfold hash_of. destruct (list_find _ known) as [[i k]|] eqn:Hf.
    + apply list_find_Some in Hf as (Hk & <- & _). replace (Z.to_nat (Z.of_nat i + 1 - 1)) with i by lia. rewrite Hk. intros [= <-]. done.
    + intros [=].
  - intros h. unfold hash_of. destruct (list_find _ known) as [[i k]|]; lia.
Qed.

#[export] Instance digest_laws : DigestLaws (AR := revm) (DG := digest).
Proof. split. by intros msg p c v input [= <-]. Qed.

Definition builder1 : ArbPayloadBuilder := {| ab_evm_config := arbitrum_one; ab_chain_id := 42161; ab_tx_log_stream := None |}.

Definition engine1 : Engine := payload_engine (AR := revm) 20 builder1 (fun _ => {| br_execution_cache := None; br_state_root_handle := None |})
  (fun _ => true) (fun _ => Ok tt) (fun _ => true).

(** The second message comes first, and the first one twice. *)
Definition messages : list (BroadcastFeedMessage * bool) := [(message 2 1010, false); (message 1 1000, false); (message 1 1000, false)].

Abbreviation driven := (drive (EN := engine1) messages (spawned (seal (PR := provider) genesis_header) 40)).

Lemma messages_ok : sequences_ok messages.
Proof. intros m [<-|[<-|[<-|[]]]]; (split; [discriminate|reflexivity]). Qed.

Lemma driven_ok : match driven with Ok d => length (to_tree d) | Err _ => O end = 6%nat.
Proof. vm_compute. reflexivity. Qed.

Lemma chain_requests_length (parent : Driver.SealedHeader) (l : list applied) : length (chain_requests parent l) = (3 * length l)%nat.
Proof. revert parent. induction l as [|[m b] l IH]; intros parent; [done|]. cbn [chain_requests length app]. rewrite IH. lia. Qed.

(** Messages 1 and 2 become blocks 41 and 42. *)
Lemma driven_blocks_linked_witness :
  exists d l, driven = Ok d /\ length l = 2%nat /\ linked (PR := provider) genesis_header l /\
    Forall (fun a => sh_number (eb_header (snd a)) = 40 + fm_sequence_number (fst a)) l.
Proof.
  pose proof driven_ok as Hlen. destruct driven as [d|] eqn:Hd; [|discriminate Hlen].
  destruct (driven_blocks_linked _ _ _ _ _ _ genesis_header 40 messages d messages_ok ltac:(vm_compute; split; congruence) Hd)
    as (l & _ & _ & Hreq & Hlink & Hnum).
  rewrite Hreq, chain_requests_length in Hlen. assert (H2 : length l = 2%nat) by (clear -Hlen; unfold applied in *; lia). exists d, l.
  split; [reflexivity|]. split; [exact H2|]. split; [exact Hlink|]. apply Hnum. rewrite H2. vm_compute. congruence.
Defined.
End SamplePayload.
