(* ===== verification/Genesis.v ===== *)
(** * Genesis and chain files

    [crates/arb-reth-node/src/genesis.rs] and the chain configuration of [executor.rs]: where the chain
    specification of a node comes from. An Arbitrum chain configuration, an Initialize message or the
    files of an Orbit chain give ArbOS's genesis; the head of a snapshot gives a specification whose
    genesis is that head. serde_json, arb_revm's genesis accounts and Reth's genesis header are
    parameters. *)

From Stdlib Require Import Strings.Byte Strings.Ascii Strings.String.
From stdpp Require Import base list numbers option strings gmap.
From S2P Require Import Prelude External Text SnapshotFull Preimages HeadImport.

(** ** Configurations *)

(** The [arbitrum] object of a chain configuration, and the configuration. *)
Record ArbitrumParams := {
  ap_initial_arbos_version : Z; ap_initial_chain_owner : Z; ap_genesis_block_num : Z; ap_allow_debug_precompiles : bool
}.

Record ArbChainConfig := { cc_chain_id : Z; cc_arbitrum : ArbitrumParams }.

(** [arb_revm::ArbosInitConfig] *)
Record ArbosInitConfig := {
  initial_arbos_version : Z; initial_chain_owner : Z; init_chain_id : Z; genesis_block_number : Z; initial_l1_base_fee : Z;
  serialized_chain_config : bytes; debug_precompiles : bool
}.

(** [ParsedInitMessage] *)
Record ParsedInitMessage := {
  pm_chain_id : Z; pm_initial_l1_base_fee : Z; pm_chain_config : option ArbChainConfig; pm_serialized_chain_config : bytes
}.

(** An account that ArbOS's initialization writes. *)
Record ArbosAccount := { aa_address : Z; aa_nonce : Z; aa_balance : Z; aa_code : bytes; aa_storage : list (Z * Z) }.

(** The fields of alloy's [GenesisAccount] that are set. *)
Record GenesisAccount := { ga_nonce : option Z; ga_balance : Z; ga_code : option bytes; ga_storage : option (gmap Z Z) }.

(** The fields of alloy's [ChainConfig] and [Genesis] that are set: every fork up to London at one block, and none later. *)
Record ChainConfig := { cf_chain_id : Z; cf_forks_to_london : option Z; cf_dao_fork_support : bool }.

Record Genesis := {
  g_config : ChainConfig; g_alloc : gmap Z GenesisAccount; g_number : option Z; g_nonce : Z; g_timestamp : Z; g_gas_limit : Z;
  g_difficulty : Z; g_mix_hash : bytes; g_coinbase : Z; g_extra_data : bytes; g_base_fee_per_gas : option Z
}.

(** A JSON scalar: a number, with what [as_u128] makes of it, a string, or another value. *)
Inductive JsonValue := JsonNumber (as_u128 : option Z) | JsonString (s : string) | JsonOther.

Record RawAllocAccount := {
  raw_balance : option JsonValue; raw_nonce : option JsonValue; raw_code : option bytes; raw_storage : option (gmap Z Z)
}.

(** The accounts in the order of their addresses. *)
Record RawNitroGenesis := {
  rg_alloc : list (Z * RawAllocAccount); rg_initial_l1_base_fee : option (option JsonValue); rg_serialized_chain_config : bytes
}.

Record RollupInfo := { ri_bridge : Z; ri_inbox : Z; ri_sequencer_inbox : Z; ri_rollup : Z; ri_deployed_at : Z }.

Record ChainInfo := {
  ci_chain_id : Z; ci_parent_chain_id : Z; ci_parent_chain_is_arbitrum : bool; ci_chain_name : string;
  ci_chain_config : ArbChainConfig; ci_rollup : RollupInfo
}.

Record NitroGenesisFile := {
  ng_alloc : gmap Z GenesisAccount; ng_serialized_chain_config : bytes; ng_initial_l1_base_fee : option Z
}.

(** serde_json, U256's parser, arb_revm's initialization, [B256::from_str], and Reth's header of a genesis. *)
Class ChainCodec {BC : BlockCodec} := {
  chain_config_from_slice : bytes -> option ArbChainConfig;
  chain_infos_from_slice : bytes -> option (list ChainInfo);
  raw_genesis_from_slice : bytes -> option RawNitroGenesis;
  (** The serialized [chain-config] of the first entry of an array. *)
  first_chain_config : bytes -> option (option bytes);
  (** The [MaxCodeSize] of the [arbitrum] object, when there is one. *)
  max_code_size_of : bytes -> option (option Z);
  u256_from_str_radix : string -> Z -> option Z;
  arb_genesis_accounts : ArbosInitConfig -> result string (list ArbosAccount);
  b256_from_str : string -> option Z;
  genesis_header_of : Genesis -> Z * BlockHeader;
  bh_nonce : BlockHeader -> bytes
}.

Record ChainSpec {BC : BlockCodec} := { cs_genesis : Genesis; cs_genesis_header : BlockHeader; cs_genesis_hash : Z }.

Section Genesis.
Context {BC : BlockCodec} {CC : ChainCodec}.

Definition from_genesis (genesis : Genesis) : ChainSpec :=
  let '(hash, header) := genesis_header_of genesis in
  {| cs_genesis := genesis; cs_genesis_header := header; cs_genesis_hash := hash |}.

(** ** Specifications *)

Definition London (chain_id : Z) : ChainConfig := {|
  cf_chain_id := chain_id; cf_forks_to_london := Some 0; cf_dao_fork_support := false
|}.

Definition genesis_account (a : ArbosAccount) : GenesisAccount := {|
  ga_nonce := Some (aa_nonce a); ga_balance := aa_balance a;
  ga_code := if bool_decide (aa_code a = []) then None else Some (aa_code a);
  ga_storage := if bool_decide (aa_storage a = []) then None
                else Some (fold_left (fun m '(slot, value) => <[slot := value]> m) (aa_storage a) ∅)
|}.

(** The prealloc first; ArbOS's accounts override it. *)
Definition merge_alloc (extra_alloc : gmap Z GenesisAccount) (accounts : list ArbosAccount) : gmap Z GenesisAccount :=
  fold_left (fun alloc a => <[aa_address a := genesis_account a]> alloc) accounts extra_alloc.

(** The version at bytes 16 to 24. *)
Definition genesis_mix (version : Z) : bytes := repeat x00 16 ++ be_encode 8 version ++ repeat x00 8.

(** [U256::to::<u64>] panics on a number that does not fit. *)
Definition u256_to_u64 (z : Z) : result string Z := if z <=? U64_MAX then Ok z else Err "panic: Uint conversion error"%string.

Definition arb_chain_spec_with_alloc (init : ArbosInitConfig) (extra_alloc : gmap Z GenesisAccount) : result string ChainSpec :=
  let? accounts := arb_genesis_accounts init in
  let? chain_id := u256_to_u64 (init_chain_id init) in
  Ok (from_genesis {|
    g_config := London chain_id; g_alloc := merge_alloc extra_alloc accounts; g_number := None; g_nonce := 1;
    g_timestamp := 0; g_gas_limit := Z.shiftl 1 50; g_difficulty := 1; g_mix_hash := genesis_mix (initial_arbos_version init);
    g_coinbase := 0; g_extra_data := repeat x00 32; g_base_fee_per_gas := Some 100000000 |}).

Definition arb_chain_spec (init : ArbosInitConfig) : result string ChainSpec := arb_chain_spec_with_alloc init ∅.

(** The genesis header is replaced by the head of a snapshot. *)
Definition arb_chain_spec_with_header (chain_id : Z) (header : BlockHeader) (hash : Z) : ChainSpec := {|
  cs_genesis := {| g_config := London chain_id; g_alloc := ∅; g_number := Some (bh_number header); g_nonce := 0; g_timestamp := 0;
                   g_gas_limit := 0; g_difficulty := 0; g_mix_hash := repeat x00 32; g_coinbase := 0; g_extra_data := [];
                   g_base_fee_per_gas := None |};
  cs_genesis_header := header; cs_genesis_hash := hash
|}.

(** ** Initial configurations *)

(** Nitro's [DefaultInitialL1BaseFee]: 50 GWei. *)
Definition DEFAULT_INITIAL_L1_BASE_FEE : Z := 50000000000.

Definition arbos_init_from_chain_config_json (json : bytes) : result string ArbosInitConfig :=
  let? cfg := ok_or "failed to parse ArbChainConfig JSON"%string (chain_config_from_slice json) in
  Ok {| initial_arbos_version := ap_initial_arbos_version (cc_arbitrum cfg);
        initial_chain_owner := ap_initial_chain_owner (cc_arbitrum cfg); init_chain_id := cc_chain_id cfg;
        genesis_block_number := ap_genesis_block_num (cc_arbitrum cfg); initial_l1_base_fee := DEFAULT_INITIAL_L1_BASE_FEE;
        serialized_chain_config := json; debug_precompiles := ap_allow_debug_precompiles (cc_arbitrum cfg) |}.

Definition arbos_init_from_parsed (p : ParsedInitMessage) : result string ArbosInitConfig :=
  let? cfg := ok_or "ParsedInitMessage has no chain_config (32-byte-only message)"%string (pm_chain_config p) in
  Ok {| initial_arbos_version := ap_initial_arbos_version (cc_arbitrum cfg);
        initial_chain_owner := ap_initial_chain_owner (cc_arbitrum cfg); init_chain_id := pm_chain_id p;
        genesis_block_number := ap_genesis_block_num (cc_arbitrum cfg); initial_l1_base_fee := pm_initial_l1_base_fee p;
        serialized_chain_config := pm_serialized_chain_config p; debug_precompiles := ap_allow_debug_precompiles (cc_arbitrum cfg) |}.

(** An explicit fee wins. *)
Definition with_l1_base_fee (init : ArbosInitConfig) (fee : option Z) : ArbosInitConfig :=
  match fee with
  | None => init
  | Some fee => {| initial_arbos_version := initial_arbos_version init; initial_chain_owner := initial_chain_owner init;
                   init_chain_id := init_chain_id init; genesis_block_number := genesis_block_number init;
                   initial_l1_base_fee := fee; serialized_chain_config := serialized_chain_config init;
                   debug_precompiles := debug_precompiles init |}
  end.

(** ** Orbit chain files *)

Definition json_to_u256 (v : JsonValue) : result string Z :=
  match v with
  | JsonNumber n => ok_or "numeric value out of u128 range; encode large balances as a string"%string n
  | JsonString s =>
      let s := trim_text s in
      ok_or "u256 from string"%string
        (match strip_prefix "0x" s with
         | Some hex => u256_from_str_radix hex 16
         | None => u256_from_str_radix s 10
         end)
  | JsonOther => Err "expected number or string for U256"%string
  end.

(** [Option::transpose] of a mapped option. *)
Definition transpose_map {A B : Type} (f : A -> result string B) (o : option A) : result string (option B) :=
  match o with
  | Some a => let? b := f a in Ok (Some b)
  | None => Ok None
  end.

Definition parse_alloc_account (a : RawAllocAccount) : result string GenesisAccount :=
  let? balance := transpose_map json_to_u256 (raw_balance a) in
  let? nonce := transpose_map (fun v => let? u := json_to_u256 v in Ok (Z.min u U64_MAX)) (raw_nonce a) in
  Ok {| ga_nonce := nonce; ga_balance := default 0 balance; ga_code := raw_code a; ga_storage := raw_storage a |}.

Definition parse_nitro_genesis (json : bytes) : result string NitroGenesisFile :=
  let? raw := ok_or "parse genesis.json"%string (raw_genesis_from_slice json) in
  let? alloc := try_fold (fun alloc '(addr, a) => let? account := parse_alloc_account a in Ok (<[addr := account]> alloc)) (rg_alloc raw) ∅ in
  let? fee := transpose_map json_to_u256 (mjoin (rg_initial_l1_base_fee raw)) in
  Ok {| ng_alloc := alloc; ng_serialized_chain_config := rg_serialized_chain_config raw; ng_initial_l1_base_fee := fee |}.

Definition parse_chain_info (json : bytes) (chain_id : option Z) : result string ChainInfo :=
  let? chains := ok_or "parse chaininfo JSON"%string (chain_infos_from_slice json) in
  match chain_id with
  | Some id => ok_or "chaininfo has no entry for chain-id"%string (List.find (fun c => ci_chain_id c =? id) chains)
  | None =>
      match chains with
      | [] => Err "chaininfo array is empty"%string
      | first :: rest =>
          if (1 <? length chains)%nat then Err "chaininfo has entries; specify --chain-id to pick one"%string else Ok first
      end
  end.

Definition orbit_chain_from_files (chain_info_json genesis_json : bytes) : result string (ChainSpec * ArbosInitConfig * ChainInfo) :=
  let? genesis := parse_nitro_genesis genesis_json in
  let? init := arbos_init_from_chain_config_json (ng_serialized_chain_config genesis) in
  let init := with_l1_base_fee init (ng_initial_l1_base_fee genesis) in
  let? chain_id := u256_to_u64 (init_chain_id init) in
  let? info := parse_chain_info chain_info_json (Some chain_id) in
  let? spec := arb_chain_spec_with_alloc init (ng_alloc genesis) in
  Ok (spec, init, info).

Definition orbit_chain_from_chain_info (chain_info_json : bytes) (base_fee_override : option Z)
    : result string (ChainSpec * ArbosInitConfig * ChainInfo) :=
  let? info := parse_chain_info chain_info_json None in
  let? value := ok_or "parse chaininfo JSON"%string (first_chain_config chain_info_json) in
  let? cfg_bytes := ok_or "chaininfo entry has no chain-config"%string value in
  let? init := arbos_init_from_chain_config_json cfg_bytes in
  let init := with_l1_base_fee init base_fee_override in
  let? spec := arb_chain_spec init in
  Ok (spec, init, info).

(** [executor.rs]: 0 stands for no limit of its own. *)
Definition max_code_size_from_serialized_config (serialized : bytes) : Z :=
  match max_code_size_of serialized with
  | Some (Some n) => n
  | _ => 0
  end.
End Genesis.

(** ** The head of a snapshot *)

(** [str::splitn(n, ' ')] *)
Fixpoint split_at_space (s : string) : string * option string :=
  match s with
  | EmptyString => (EmptyString, None)
  | String c s' =>
      if Ascii.eqb c " "%char then (EmptyString, Some s')
      else let '(w, rest) := split_at_space s' in (String c w, rest)
  end.

Fixpoint splitn (n : nat) (s : string) : list string :=
  match n with
  | O => []
  | S O => [s]
  | S n => match split_at_space s with
           | (w, Some rest) => w :: splitn n rest
           | (w, None) => [w]
           end
  end.

Section BootHead.
Context {BC : BlockCodec} {HC : HeadCodec} {CC : ChainCodec}.

Abbreviation Line := (result string string).

Definition boot_header_fields (parts : list string) : result string Head :=
  let? '(field, parts) := next_field parts in
  let? num := ok_or "bad number"%string (parse_u64 field) in
  let? '(field, parts) := next_field parts in
  let? hash := ok_or "bad hash"%string (b256_from_str field) in
  let? '(field, parts) := next_field parts in
  let? rlp := ok_or "invalid hex"%string (hex_decode field) in
  let? '(header, _) := ok_or "decode header"%string (block_header_decode rlp) in
  Ok {| hd_number := num; hd_hash := hash; hd_header := header |}.

Definition boot_head_line (best : option Head) (line : Line) : result string (option Head) :=
  let? line := line in
  match splitn 4 line with
  | tag :: parts =>
      if decide (tag = "H"%string) then
        let? head := boot_header_fields parts in
        Ok (better_head best head)
      else Ok best
  | [] => Ok best
  end.

(** [read_head_header] of [genesis.rs]: what the node boots on. *)
Definition boot_head_header (lines : list Line) : result string Head :=
  let? best := try_fold boot_head_line lines None in
  ok_or "no H records"%string best.
End BootHead.

(** ** What a specification holds *)

(** The account that is written last under an address. *)
Definition last_account (address : Z) (accounts : list ArbosAccount) : option ArbosAccount :=
  List.find (fun a => aa_address a =? address) (rev accounts).

Lemma merge_alloc_snoc (extra : gmap Z GenesisAccount) (accounts : list ArbosAccount) (a : ArbosAccount) :
  merge_alloc extra (accounts ++ [a]) = <[aa_address a := genesis_account a]> (merge_alloc extra accounts).
Proof. unfold merge_alloc. by rewrite fold_left_app. Qed.

(** An address holds what ArbOS wrote there last, else what the prealloc gives it. *)
Lemma merge_alloc_lookup (extra : gmap Z GenesisAccount) (accounts : list ArbosAccount) (address : Z) :
  merge_alloc extra accounts !! address =
    match last_account address accounts with
    | Some a => Some (genesis_account a)
    | None => extra !! address
    end.
Proof.
  unfold last_account. induction accounts as [|a accounts IH] using rev_ind; [done|].
  rewrite merge_alloc_snoc, rev_app_distr. cbn [rev app List.find]. destruct (Z.eqb_spec (aa_address a) address) as [<-|Hne].
  - by rewrite lookup_insert_eq.
  - by rewrite lookup_insert_ne, IH.
Qed.

Section Specs.
Context {BC : BlockCodec} {CC : ChainCodec}.

(** The specification of an Orbit chain has the identity of its files: the chain id of the
    configuration in the genesis file, which is the one of the entry whose addresses are used; and
    its genesis has ArbOS's accounts over the prealloc, and the version of the configuration in the
    mix hash. *)
Theorem orbit_chain_consistent (chain_info_json genesis_json : bytes) (spec : ChainSpec) (init : ArbosInitConfig) (info : ChainInfo) :
  orbit_chain_from_files chain_info_json genesis_json = Ok (spec, init, info) -> 0 <= initial_arbos_version init < 2 ^ 64 ->
  exists genesis accounts, parse_nitro_genesis genesis_json = Ok genesis /\ arb_genesis_accounts init = Ok accounts /\
    cf_chain_id (g_config (cs_genesis spec)) = init_chain_id init /\ ci_chain_id info = init_chain_id init /\
    serialized_chain_config init = ng_serialized_chain_config genesis /\
    initial_l1_base_fee init = default DEFAULT_INITIAL_L1_BASE_FEE (ng_initial_l1_base_fee genesis) /\
    (forall address, g_alloc (cs_genesis spec) !! address =
       match last_account address accounts with
       | Some a => Some (genesis_account a)
       | None => ng_alloc genesis !! address
       end) /\
    be_decode (take 8 (drop 16 (g_mix_hash (cs_genesis spec)))) = initial_arbos_version init.
Proof.
  unfold orbit_chain_from_files. intros H Hv. apply rbind_Ok in H as (genesis & Hg & H). apply rbind_Ok in H as (init0 & Hi & H).
  apply rbind_Ok in H as (chain_id & Hc & H). apply rbind_Ok in H as (info0 & Hinfo & H). apply rbind_Ok in H as (spec0 & Hs & [= -> <- ->]).
  unfold arb_chain_spec_with_alloc in Hs. apply rbind_Ok in Hs as (accounts & Ha & Hs). rewrite Hc in Hs. cbn [rbind] in Hs. injection Hs as <-.
  exists genesis, accounts. split; [done|]. split; [done|].
  assert (Hid : chain_id = init_chain_id (with_l1_base_fee init0 (ng_initial_l1_base_fee genesis))).
  { unfold u256_to_u64 in Hc. destruct (_ <=? _); [by injection Hc|done]. }
  unfold from_genesis. destruct (genesis_header_of _) as [hash header]. cbn [cs_genesis g_config London cf_chain_id g_alloc g_mix_hash].
  split; [done|]. split.
  { unfold parse_chain_info in Hinfo. apply rbind_Ok in Hinfo as (chains & _ & Hf%ok_or_Ok). apply List.find_some in Hf as [_ Hf].
    apply Z.eqb_eq in Hf. congruence. }
  unfold arbos_init_from_chain_config_json in Hi. apply rbind_Ok in Hi as (cfg & _ & [= <-]).
  split; [by destruct (ng_initial_l1_base_fee genesis)|]. split; [by destruct (ng_initial_l1_base_fee genesis)|].
  split; [intros address; apply merge_alloc_lookup|]. unfold genesis_mix. rewrite drop_app_length' by done.
  rewrite take_app_length' by by rewrite be_encode_length. apply be_decode_encode_small. done.
Qed.
End Specs.

(** ** The node boots on the head that was imported *)

Definition word (w : string) : Prop := w <> EmptyString /\ forallb (fun c => negb (is_whitespace c)) (list_ascii_of_string w) = true.

(** Words with a space between them. *)
Fixpoint join (ws : list string) : string :=
  match ws with
  | [] => EmptyString
  | [w] => w
  | w :: ws => w +:+ String " "%char (join ws)
  end.

Lemma join_cons (w v : string) (ws : list string) : join (w :: v :: ws) = w +:+ String " "%char (join (v :: ws)).
Proof. done. Qed.

Lemma not_space (c : ascii) : is_whitespace c = false -> Ascii.eqb c " "%char = false.
Proof. intros H. destruct (Ascii.eqb_spec c " "%char) as [->|]; [discriminate H|done]. Qed.

Lemma word_cons (c : ascii) (w : string) :
  forallb (fun c => negb (is_whitespace c)) (list_ascii_of_string (String c w)) = true ->
  is_whitespace c = false /\ forallb (fun c => negb (is_whitespace c)) (list_ascii_of_string w) = true.
Proof. cbn. intros [H1 H2]%andb_true_iff. split; [by destruct (is_whitespace c)|done]. Qed.

Lemma string_app_cons (c : ascii) (a b : string) : String c a +:+ b = String c (a +:+ b).
Proof. done. Qed.

Lemma next_word_end (w : string) :
  forallb (fun c => negb (is_whitespace c)) (list_ascii_of_string w) = true -> next_word w = (w, EmptyString).
Proof. induction w as [|c w IH]; [done|]. intros [Hc Hw]%word_cons. cbn [next_word]. by rewrite Hc, IH. Qed.

Lemma next_word_app (w r : string) :
  forallb (fun c => negb (is_whitespace c)) (list_ascii_of_string w) = true -> next_word (w +:+ String " "%char r) = (w, r).
Proof. induction w as [|c w IH]; [done|]. intros [Hc Hw]%word_cons. rewrite string_app_cons. cbn [next_word]. by rewrite Hc, IH. Qed.

Lemma split_at_space_end (w : string) :
  forallb (fun c => negb (is_whitespace c)) (list_ascii_of_string w) = true -> split_at_space w = (w, None).
Proof. induction w as [|c w IH]; [done|]. intros [Hc Hw]%word_cons. cbn [split_at_space]. by rewrite not_space, IH. Qed.

Lemma split_at_space_app (w r : string) :
  forallb (fun c => negb (is_whitespace c)) (list_ascii_of_string w) = true ->
  split_at_space (w +:+ String " "%char r) = (w, Some r).
Proof.
  induction w as [|c w IH]; [done|]. intros [Hc Hw]%word_cons. rewrite string_app_cons. cbn [split_at_space].
  by rewrite not_space, IH.
Qed.

Lemma splitn_join (n : nat) (w : string) (ws : list string) :
  Forall word (w :: ws) -> (length ws <= n)%nat -> splitn (S n) (join (w :: ws)) = w :: ws.
Proof.
  revert n w. induction ws as [|v ws IH]; intros n w Hw Hn; apply Forall_cons in Hw as [[_ Hw] Hws].
  - destruct n; [done|]. cbn [join]. cbn [splitn]. by rewrite split_at_space_end.
  - cbn [length] in Hn. destruct n as [|n]; [lia|]. rewrite join_cons. cbn [splitn]. rewrite split_at_space_app by done.
    f_equal. apply IH; [done|lia].
Qed.

Lemma string_length_app (a b : string) : String.length (a +:+ b) = (String.length a + String.length b)%nat.
Proof. induction a as [|c a IH]; [done|]. rewrite string_app_cons. cbn [String.length]. by rewrite IH. Qed.

Lemma split_loop_join (fuel : nat) (ws : list string) :
  Forall word ws -> (String.length (join ws) <= fuel)%nat -> split_loop fuel (join ws) = ws.
Proof.
  revert fuel. induction ws as [|w ws IH]; intros fuel Hws Hf; [by destruct fuel|]. apply Forall_cons in Hws as [[Hne Hw] Hws].
  destruct w as [|c w]; [done|]. destruct ws as [|v ws].
  - cbn [join] in *. destruct fuel as [|fuel]; [cbn in Hf; lia|]. cbn [split_loop]. rewrite next_word_end by done. by destruct fuel.
  - rewrite join_cons in *. rewrite string_length_app in Hf. cbn [String.length] in Hf. destruct fuel as [|fuel]; [lia|].
    change (split_loop (S fuel) ?s) with (match s with EmptyString => [] | _ => let '(w, rest) := next_word s in
      match w with EmptyString => split_loop fuel rest | _ => w :: split_loop fuel rest end end).
    rewrite next_word_app by done. rewrite string_app_cons. f_equal. apply IH; [done|lia].
Qed.

Section Boots.
Context {K : Keccak} {BC : BlockCodec} {RC : StoredReceipt.ReceiptCodec} {HC : HeadCodec} {CC : ChainCodec}.

(** [B256::from_str] reads 64 digits, with or without a prefix. *)
Class ChainCodecLaws := {
  b256_digits : forall s bs, String.length s = 64%nat -> hex_decode s = Some bs -> length bs = 32%nat ->
    b256_from_str s = Some (be_decode bs) /\ b256_from_str ("0x" +:+ s) = Some (be_decode bs)
}.
Context {CL : ChainCodecLaws}.

(** A line as it is exported: at most four words, and a hash with at most one prefix. *)
Definition exported (line : string) : Prop :=
  exists ws, line = join ws /\ Forall word ws /\ (length ws <= 4)%nat /\
    match ws with
    | [_; _; hash; _] => hash = trim_hex_prefix hash \/ hash = "0x" +:+ trim_hex_prefix hash
    | _ => True
    end.

Lemma parse_b256_from_str (field : string) (hash : Z) :
  field = trim_hex_prefix field \/ field = "0x" +:+ trim_hex_prefix field -> HeadImport.parse_b256 field = Ok hash ->
  b256_from_str field = Some hash.
Proof.
  unfold HeadImport.parse_b256. intros Hp H. destruct (Nat.eqb_spec (String.length (trim_hex_prefix field)) 64) as [Hl|]; [|done]. cbn [negb] in H.
  apply rbind_Ok in H as (bs & Hb%ok_or_Ok & H). destruct (Nat.eqb_spec (length bs) 32) as [H32|]; [|done]. injection H as <-.
  destruct (b256_digits _ _ Hl Hb H32) as [D1 D2]. destruct Hp as [->| ->]; [by rewrite <- D1 at 1|exact D2].
Qed.

Lemma boot_header_fields_agree (num hash rlp : string) (parts : list string) (head : Head) :
  hash = trim_hex_prefix hash \/ hash = "0x" +:+ trim_hex_prefix hash ->
  parse_header_fields (num :: hash :: rlp :: parts) = Ok head -> boot_header_fields (num :: hash :: rlp :: parts) = Ok head.
Proof.
  unfold parse_header_fields, boot_header_fields. cbn [next_field rbind]. intros Hh H. apply rbind_Ok in H as (n & -> & H). cbn [rbind] in *.
  apply rbind_Ok in H as (h & Hb & H). rewrite (parse_b256_from_str _ _ Hh Hb). cbn [ok_or rbind]. apply rbind_Ok in H as (bs & -> & H).
  cbn [rbind]. destruct parts; [|done]. apply rbind_Ok in H as ([header input] & -> & H). cbn [rbind].
  destruct (negb (bool_decide (input = []))); [done|]. destruct (negb (bh_number header =? n)); [done|].
  destruct (negb (bh_hash header =? h)); [done|]. done.
Qed.

Lemma boot_head_line_agree (best : option Head) (line : string) (record : option Head) :
  exported line -> parse_header_record line = Ok record ->
  boot_head_line best (Ok line) = Ok (match record with None => best | Some head => better_head best head end).
Proof.
  intros (ws & -> & Hw & Hlen & Hhash) H. unfold parse_header_record, split_whitespace in H. rewrite split_loop_join in H by done.
  unfold boot_head_line. cbn [rbind]. destruct ws as [|tag parts]; [by injection H as <-|]. cbn [length] in Hlen.
  rewrite splitn_join by (done || lia). destruct (bool_decide (tag = "B"%string)) eqn:HB; cbn [orb] in H.
  { apply bool_decide_eq_true in HB as ->. apply rbind_Ok in H as (_ & _ & [= <-]). done. }
  destruct (bool_decide (tag = "R"%string)) eqn:HR.
  { apply bool_decide_eq_true in HR as ->. apply rbind_Ok in H as (_ & _ & [= <-]). done. }
  destruct (decide (tag = "H"%string)) as [->|]; [|done]. apply rbind_Ok in H as (head & Hp & [= <-]).
  destruct parts as [|num [|hash [|rlp [|? ?]]]]; try done; try (cbn [length] in Hlen; lia).
  - unfold parse_header_fields in Hp. cbn [next_field rbind] in Hp. by apply rbind_Ok in Hp as (? & _ & ?).
  - unfold parse_header_fields in Hp. cbn [next_field rbind] in Hp. apply rbind_Ok in Hp as (? & _ & Hp). by apply rbind_Ok in Hp as (? & _ & ?).
  - by rewrite (boot_header_fields_agree _ _ _ _ _ Hhash Hp).
Qed.

(** The node boots on the head that was imported. The importer's reader of the block stream is
    strict (records, numbers, hashes and trailing data are checked), the one that the node boots with
    is not; on the lines of an export that the first accepts, both find the same head. *)
Theorem boot_reads_imported (lines : list (result string string)) (head : Head) :
  Forall (fun line => forall text, line = Ok text -> exported text) lines ->
  read_head_header lines = Ok head -> boot_head_header lines = Ok head.
Proof.
  unfold read_head_header, boot_head_header. intros Hall H. apply rbind_Ok in H as (best & Hb & Ho).
  enough (try_fold boot_head_line lines None = Ok best) as -> by done. clear Ho. revert Hb. generalize (@None Head) as best0.
  induction Hall as [|line lines Hl _ IH]; intros best0; [done|]. cbn [try_fold]. unfold head_line. destruct line as [text|]; [|done].
  cbn [rbind]. destruct (parse_header_record text) as [record|] eqn:Hr; [|done]. cbn [rbind].
  rewrite (boot_head_line_agree best0 text record (Hl _ eq_refl) Hr). destruct record; apply IH.
Qed.
End Boots.
