(* ===== verification/Launch.v ===== *)
(** * Starting a node

    [crates/arb-reth-node/src/commands/node.rs]: the checks of the command line, where the chain
    specification and the rollup addresses come from, the gate of an active incident, and where L1
    derivation resumes. Reading files, contacting L1 or the trusted RPC and opening the storage are
    actions of a trace, so that their order can be stated. The host (files, directories, markers,
    Reth's command) and the database are the class [NodeHost]; L1 is [L1Reader.Provider]. *)

From Stdlib Require Import Strings.Byte Strings.Ascii Strings.String.
From stdpp Require Import base list numbers option strings gmap.
From S2P Require Import TrustedL2.
From S2P Require Import Prelude External Text Messages L1Decode L1Reader DelayedReader Resume L1Sync Feed SnapshotFull Preimages HeadImport.
From S2P Require Import HeadImportSafety Genesis.

(** ** Traces *)

Inductive Action := ReadFile (path : string) | ContactL1 | ContactTrusted | OpenStorage (data_dir : string).

Definition Traced (A : Type) : Type := list Action * result string A.

Definition tret {A : Type} (a : A) : Traced A := ([], Ok a).
Definition tlift {A : Type} (r : result string A) : Traced A := ([], r).
Definition act (a : Action) : Traced unit := ([a], Ok tt).

Definition tbind {A B : Type} (m : Traced A) (k : A -> Traced B) : Traced B :=
  match m with
  | (t, Ok a) => let r := k a in (t ++ fst r, snd r)
  | (t, Err e) => (t, Err e)
  end.

Declare Scope trace_scope.
Delimit Scope trace_scope with trace.
Notation "'let&' x ':=' m 'in' k" := (tbind m (fun x => k))
  (at level 200, x binder, m at level 100, k at level 200, right associativity) : trace_scope.
#[local] Open Scope trace_scope.

(** ** Arguments *)

Record ArbNodeArgs := {
  na_no_fsync : bool; na_chain_id : Z; na_chain_info : option string; na_genesis_json : option string; na_chain_config : option string;
  na_initial_l1_base_fee : option Z; na_replay_feed : option string; na_mev_tx_log_ipc : option string;
  na_canonical_l2_rpc : option string; na_feed_urls : list string; na_feed_connections : option Z; na_feed_sources : list FeedSourceSpec;
  na_no_l1_derive : bool; na_l1_rpc : option string; na_l1_beacon : option string; na_l1_start_block : option Z;
  na_l1_end_block : option Z; na_l1_prefetch : Z; na_l1_getlogs_range : option Z; na_l1_start_delayed : option Z;
  na_l1_sequencer_inbox : option Z; na_l1_bridge : option Z; na_l1_inbox_deploy_block : option Z; na_l2_genesis_block : option Z;
  na_snapshot_head : option string
}.

Inductive SyncMode := Durable | SafeNoSync | OtherMode.

(** Reth's [NodeCommand]: whether each group of options is the default one, and the fields that are used. *)
Record NodeCommand {BC : BlockCodec} := {
  nc_network_default : bool; nc_txpool_default : bool; nc_builder_default : bool; nc_debug_default : bool; nc_dev_default : bool;
  nc_jit_default : bool; nc_era_enabled : bool; nc_era_path : option string; nc_era_url : option string;
  nc_datadir : option string; nc_chain : ChainSpec; nc_sync_mode : option SyncMode; nc_ext : ArbNodeArgs
}.

Record RollupDeployment := { rd_sequencer_inbox : Z; rd_bridge : Z; rd_deployed_at : Z; rd_l2_genesis_block : Z }.

Definition SEQUENCER_INBOX_DEPLOY_BLOCK_MAINNET : Z := 15411056.
Definition NITRO_GENESIS_BLOCK_MAINNET : Z := 22207817.

(** The host: the marker of an incident at the k-th check of a directory, files, the manifests of a
    datadir, Reth's data directory of a chain, URLs; L1's head and Initialize messages; the RPC of the
    trusted L2; the socket; and the node after its launch: its durable tip, headers and resume log. *)
Class NodeHost {BC : BlockCodec} := {
  incident : nat -> string -> bool;
  read_file : string -> result string bytes;
  read_lines : string -> result string (list (result string string));
  snapshot_manifests : string -> option (result string SnapshotImportManifest) * PreimageDir;
  resolve_datadir : option string -> Z -> string;
  url_ok : string -> bool;
  l1_block_number : result string Z;
  parse_init_message_from_body : u8 -> bytes -> result string ParsedInitMessage;
  trusted_client : string -> option unit;
  trusted_chain_id : result string bytes;
  bind_ipc : string -> result string unit;
  launch_node : result string unit;
  last_block_number : result string Z;
  sealed_header : Z -> result string (option BlockHeader);
  resume_file : string -> option L1ResumeLog
}.

Section Launch.
Context {K : Keccak} {BC : BlockCodec} {RC : StoredReceipt.ReceiptCodec} {HC : HeadCodec} {CC : ChainCodec} {UP : UrlParser}
  {PR : L1Reader.Provider} {ABI : SolAbi} {CO : Completion} {PB : TrustedL2.ParseB256} {NH : NodeHost}.

(** ** Bootstrap *)

Definition orbit_boot_paths (chain_info genesis : option string) : result string (option (string * string)) :=
  match chain_info, genesis with
  | Some chain_info, Some genesis => Ok (Some (chain_info, genesis))
  | Some _, None => Err "--chain-info requires --genesis"%string
  | None, Some _ => Err "--genesis requires --chain-info"%string
  | None, None => Ok None
  end.

Definition genesis_delayed_messages_read (spec : ChainSpec) (l2_genesis_block : Z) : option Z :=
  let header := cs_genesis_header spec in
  if bh_number header =? l2_genesis_block then Some (be_decode (bh_nonce header)) else None.

Definition resolve_genesis_delayed_cursor (configured from_header : option Z) : result string Z :=
  match configured, from_header with
  | Some configured, Some from_header =>
      if negb (configured =? from_header) then Err "--l1-start-delayed is not what the L2 genesis header requires"%string
      else Ok configured
  | Some configured, None => Ok configured
  | None, Some from_header => Ok from_header
  | None, None => Ok 0
  end.

Definition header_delayed_messages_read (block : Z) : result string (option Z) :=
  let? header := sealed_header block in
  Ok ((fun header => be_decode (bh_nonce header)) <$> header).

Definition resolve_rollup_deployment (args : ArbNodeArgs) : result string RollupDeployment :=
  match na_l1_sequencer_inbox args, na_l1_bridge args with
  | None, None => Ok {|
      rd_sequencer_inbox := SequencerInboxReader.SEQUENCER_INBOX_MAINNET; rd_bridge := DelayedInboxReader.BRIDGE_MAINNET;
      rd_deployed_at := default SEQUENCER_INBOX_DEPLOY_BLOCK_MAINNET (na_l1_inbox_deploy_block args);
      rd_l2_genesis_block := default NITRO_GENESIS_BLOCK_MAINNET (na_l2_genesis_block args) |}
  | Some sequencer_inbox, Some bridge => Ok {|
      rd_sequencer_inbox := sequencer_inbox; rd_bridge := bridge; rd_deployed_at := default 0 (na_l1_inbox_deploy_block args);
      rd_l2_genesis_block := default 0 (na_l2_genesis_block args) |}
  | _, _ => Err "--l1-sequencer-inbox and --l1-bridge are one rollup deployment and must be set together"%string
  end.

Definition validate_l1_rpc (l1_rpc : string) : result string unit :=
  if url_ok l1_rpc then Ok tt else Err "invalid --l1-rpc URL"%string.

Definition l1_text {A : Type} (what : string) (r : result L1Error A) : result string A := map_err (fun _ => what) r.

Definition derive_genesis_from_l1 (l1_rpc : string) (bridge from_block : Z) (base_fee_override : option Z) : Traced (ChainSpec * Z) :=
  let& _ := tlift (validate_l1_rpc l1_rpc) in
  let& _ := act ContactL1 in
  let& head := tlift l1_block_number in
  let& msgs := tlift (l1_text "fetch delayed messages for L1 genesis" (DelayedInboxReader.fetch_delayed
                 (DelayedInboxReader.new bridge) from_block head)) in
  let& init := tlift (ok_or "no delayed message 0 (Initialize)"%string (List.find (fun m => dm_inbox_seq_num m =? 0) msgs)) in
  let& parsed := tlift (parse_init_message_from_body (dm_kind init) (dm_data init)) in
  let& arbos_init := tlift (arbos_init_from_parsed parsed) in
  let arbos_init := with_l1_base_fee arbos_init base_fee_override in
  let& chain_id := tlift (u256_to_u64 (init_chain_id arbos_init)) in
  let& spec := tlift (arb_chain_spec arbos_init) in
  tret (spec, chain_id).

Record NodeBootstrap := {
  nb_chain_spec : ChainSpec; nb_chain_id : Z; nb_rollup : RollupDeployment; nb_snapshot_delayed : option Z; nb_genesis_delayed : option Z
}.

Definition read_orbit (args : ArbNodeArgs) : Traced (option (ChainSpec * ArbosInitConfig * ChainInfo)) :=
  let& paths := tlift (orbit_boot_paths (na_chain_info args) (na_genesis_json args)) in
  match paths with
  | None => tret None
  | Some (ci, genesis) =>
      let& _ := act (ReadFile ci) in
      let& ci_json := tlift (read_file ci) in
      let& _ := act (ReadFile genesis) in
      let& genesis_json := tlift (read_file genesis) in
      let& orbit := tlift (orbit_chain_from_files ci_json genesis_json) in
      tret (Some orbit)
  end.

Definition bootstrap_rollup (args : ArbNodeArgs) (orbit : option (ChainSpec * ArbosInitConfig * ChainInfo)) : result string RollupDeployment :=
  match orbit with
  | Some (_, init, info) => Ok {|
      rd_sequencer_inbox := ri_sequencer_inbox (ci_rollup info); rd_bridge := ri_bridge (ci_rollup info);
      rd_deployed_at := ri_deployed_at (ci_rollup info); rd_l2_genesis_block := genesis_block_number init |}
  | None => resolve_rollup_deployment args
  end.

(** Booting on the head of a snapshot. *)
Definition snapshot_spec (args : ArbNodeArgs) (head_path : string) (snapshot_datadir : option string) : Traced (ChainSpec * Z * option Z) :=
  let& _ := act (ReadFile head_path) in
  let& lines := tlift (read_lines head_path) in
  let& head := tlift (boot_head_header lines) in
  let& datadir := tlift (ok_or "--snapshot-head requires an explicit --datadir"%string snapshot_datadir) in
  let '(manifest, preimage) := snapshot_manifests datadir in
  let& _ := tlift (validate_snapshot_import_for_launch manifest preimage head) in
  tret (arb_chain_spec_with_header (na_chain_id args) (hd_header head) (hd_hash head), na_chain_id args,
        Some (be_decode (bh_nonce (hd_header head)))).

(** Booting from a chain configuration. *)
Definition config_spec (args : ArbNodeArgs) (path : string) : Traced (ChainSpec * Z * option Z) :=
  let& _ := act (ReadFile path) in
  let& json := tlift (read_file path) in
  let& init := tlift (arbos_init_from_chain_config_json json) in
  let init := with_l1_base_fee init (na_initial_l1_base_fee args) in
  let& chain_id := tlift (u256_to_u64 (init_chain_id init)) in
  let& spec := tlift (arb_chain_spec init) in
  tret (spec, chain_id, None).

Definition bootstrap_spec (args : ArbNodeArgs) (fallback : ChainSpec) (snapshot_datadir : option string)
    (orbit : option (ChainSpec * ArbosInitConfig * ChainInfo)) (rollup : RollupDeployment) : Traced (ChainSpec * Z * option Z) :=
  match orbit, na_snapshot_head args, na_chain_config args with
  | Some (spec, init, _), _, _ =>
      let& chain_id := tlift (u256_to_u64 (init_chain_id init)) in
      tret (spec, chain_id, None)
  | None, Some head_path, _ => snapshot_spec args head_path snapshot_datadir
  | None, None, Some path => config_spec args path
  | None, None, None =>
      match na_l1_rpc args with
      | Some l1_rpc =>
          let& '(spec, cid) := derive_genesis_from_l1 l1_rpc (rd_bridge rollup) (rd_deployed_at rollup) (na_initial_l1_base_fee args) in
          tret (spec, cid, None)
      | None => tret (fallback, na_chain_id args, None)
      end
  end.

Definition resolve_bootstrap (args : ArbNodeArgs) (fallback : ChainSpec) (snapshot_datadir : option string) : Traced NodeBootstrap :=
  let& orbit := read_orbit args in
  let& rollup := tlift (bootstrap_rollup args orbit) in
  let& '(spec, chain_id, snapshot_delayed) := bootstrap_spec args fallback snapshot_datadir orbit rollup in
  tret {| nb_chain_spec := spec; nb_chain_id := chain_id; nb_rollup := rollup; nb_snapshot_delayed := snapshot_delayed;
          nb_genesis_delayed := genesis_delayed_messages_read spec (rd_l2_genesis_block rollup) |}.

(** ** The command *)

Definition validate_standalone_components (command : NodeCommand) : result string unit :=
  if negb (nc_network_default command) then Err "network options are unsupported"%string
  else if negb (nc_txpool_default command) then Err "txpool options are unsupported"%string
  else if negb (nc_builder_default command) then Err "payload-builder options are unsupported"%string
  else if negb (nc_debug_default command) then Err "debug node options are unsupported"%string
  else if negb (nc_dev_default command) then Err "dev mode is unsupported"%string
  else if nc_era_enabled command || bool_decide (is_Some (nc_era_path command)) || bool_decide (is_Some (nc_era_url command))
  then Err "ERA import is unsupported"%string
  else if negb (nc_jit_default command) then Err "--jit options are not wired to arb-revm yet"%string
  else Ok tt.

Definition validate_prebootstrap_datadir (command : NodeCommand) : result string unit :=
  let ext := nc_ext command in
  if negb (bool_decide (is_Some (nc_datadir command))) && bool_decide (is_Some (na_l1_rpc ext)) &&
     bool_decide (na_chain_info ext = None) && bool_decide (na_genesis_json ext = None) && bool_decide (na_snapshot_head ext = None) &&
     bool_decide (na_chain_config ext = None)
  then Err "L1-derived genesis bootstrap requires explicit --datadir"%string
  else Ok tt.

Definition spec_chain (spec : ChainSpec) : Z := cf_chain_id (g_config (cs_genesis spec)).

Definition resolved_data_dir (datadir : option string) (spec : ChainSpec) : string := resolve_datadir datadir (spec_chain spec).

(** The k-th check of a directory. *)
Definition refuse_ordinary_startup (k : nat) (data_dir : string) : result string unit :=
  TrustedL2.refuse_active_incident (incident k data_dir).

Definition resolve_sync_mode (no_fsync : bool) (mode : option SyncMode) : result string (option SyncMode) :=
  if no_fsync then
    match mode with
    | Some SafeNoSync | None => Ok (Some SafeNoSync)
    | Some _ => Err "--no-fsync conflicts with --db.sync-mode; use one durability mode"%string
    end
  else Ok mode.

(** ** Where derivation resumes *)

(** [Option::or], first to last. *)
Definition or_else {A : Type} (a b : option A) : option A := match a with Some _ => a | None => b end.

(** The delayed-message cursor of a manual start block; the header of the tip is read in any case. *)
Definition override_delayed (args : ArbNodeArgs) (bootstrap : NodeBootstrap) (db_tip : Z) : result string Z :=
  let? from_tip := header_delayed_messages_read db_tip in
  ok_or "cannot recover the delayed-message cursor"%string
    (or_else (or_else (or_else (na_l1_start_delayed args) (nb_snapshot_delayed bootstrap))
       (if db_tip =? rd_l2_genesis_block (nb_rollup bootstrap) then nb_genesis_delayed bootstrap else None)) from_tip).

(** The start block, the delayed cursor and the L2 block that they sit after. *)
Definition resume_point (args : ArbNodeArgs) (bootstrap : NodeBootstrap) (l1_rpc : string) (resume_log : option L1ResumeLog) (db_tip : Z)
    : Traced (Z * Z * Z) :=
  let rollup := nb_rollup bootstrap in
  match na_l1_start_block args with
  | Some b =>
      let& delayed := tlift (override_delayed args bootstrap db_tip) in
      tret (b, delayed, db_tip)
  | None =>
      match resume_log with
      | Some log =>
          match resume_for log db_tip with
          | Some cp => tret (l1_block cp, delayed_count cp, l2_block cp)
          | None => tlift (Err "resume log has no boundary at or below the durable L2 tip"%string)
          end
      | None =>
          let& _ := tlift (validate_l1_rpc l1_rpc) in
          let& _ := act ContactL1 in
          let& found := tlift (l1_text "resolve batch 0 delivery block" (SequencerInboxReader.delivery_block_of_batch
                          (SequencerInboxReader.new (rd_sequencer_inbox rollup)) 0 (rd_deployed_at rollup)
                          (match na_l1_getlogs_range args with Some n => Z.max n 1 | None => 1000 end))) in
          let& block := tlift (ok_or "batch 0 not found near the SequencerInbox deploy block"%string found) in
          let& delayed := tlift (resolve_genesis_delayed_cursor (na_l1_start_delayed args) (nb_genesis_delayed bootstrap)) in
          tret (block, delayed, rd_l2_genesis_block rollup)
      end
  end.

Definition sync_config (args : ArbNodeArgs) (rollup : RollupDeployment) (start_block start_delayed start_l2_block db_tip : Z) : L1SyncConfig :=
  let base := L1SyncConfig_mainnet start_block start_delayed in {|
    cfg_sequencer_inbox := rd_sequencer_inbox rollup; cfg_bridge := rd_bridge rollup; cfg_start_block := start_block;
    cfg_end_block := na_l1_end_block args; cfg_start_delayed_count := start_delayed; cfg_start_l2_block := start_l2_block;
    cfg_db_tip_l2 := db_tip; cfg_l2_frontier := cfg_l2_frontier base; cfg_genesis_block := rd_l2_genesis_block rollup;
    cfg_checkpointing := true;
    cfg_batch_window := match na_l1_getlogs_range args with Some n => Z.max n 1 | None => cfg_batch_window base end;
    cfg_delayed_window := match na_l1_getlogs_range args with Some n => Z.max n 1 | None => cfg_delayed_window base end;
    cfg_confirmations := cfg_confirmations base; cfg_prefetch_windows := na_l1_prefetch args |}.

(** The first sequence number that is asked of the relays. *)
Definition feed_start_seq (genesis_block : Z) : Z :=
  let tip := match last_block_number with Ok n => n | Err _ => genesis_block end in
  wrapping_add (saturating_sub tip genesis_block) 1.

(** What a node runs with: its chain, the feed lanes with their first sequence number, and the
    catch-up from L1. *)
Record NodePlan := {
  np_chain_id : Z; np_genesis_block : Z; np_feed_sources : list FeedSource; np_feed_start : option Z; np_l1_sync : option L1SyncConfig
}.

Definition plan_l1_sync (args : ArbNodeArgs) (bootstrap : NodeBootstrap) (data_dir : string) : Traced (option L1SyncConfig) :=
  match na_l1_rpc args with
  | Some l1_rpc =>
      if na_no_l1_derive args then tret None
      else
        let& _ := tlift (validate_l1_rpc l1_rpc) in
        let& db_tip := tlift last_block_number in
        let& '(start_block, start_delayed, start_l2_block) := resume_point args bootstrap l1_rpc (resume_file data_dir) db_tip in
        tret (Some (sync_config args (nb_rollup bootstrap) start_block start_delayed start_l2_block db_tip))
  | None => tret None
  end.

Definition start_monitor (args : ArbNodeArgs) (bootstrap : NodeBootstrap) (data_dir : string) : Traced unit :=
  match na_canonical_l2_rpc args with
  | Some rpc_url =>
      let& _ := tlift (refuse_ordinary_startup 3 data_dir) in
      let& _ := match trusted_client rpc_url with Some _ => act ContactTrusted | None => tret tt end in
      let& _ := tlift (TrustedL2.start false (trusted_client rpc_url) trusted_chain_id (nb_chain_id bootstrap)) in
      tret tt
  | None => tret tt
  end.

Definition launch (args : ArbNodeArgs) (bootstrap : NodeBootstrap) (data_dir : string) : Traced NodePlan :=
  let& _ := tlift (refuse_ordinary_startup 2 data_dir) in
  let& feed_sources := tlift (map_err (fun _ => "feed sources"%string)
                         (expand_feed_sources (na_feed_urls args) (na_feed_connections args) (na_feed_sources args))) in
  let& _ := tlift (if na_no_l1_derive args && bool_decide (feed_sources = [])
                   then Err "--no-l1-derive requires at least one --feed-url"%string else Ok tt) in
  let& _ := tlift (match na_mev_tx_log_ipc args with Some path => bind_ipc path | None => Ok tt end) in
  let& _ := start_monitor args bootstrap data_dir in
  let& _ := tlift launch_node in
  let genesis_block := rd_l2_genesis_block (nb_rollup bootstrap) in
  let& sync := plan_l1_sync args bootstrap data_dir in
  tret {| np_chain_id := nb_chain_id bootstrap; np_genesis_block := genesis_block; np_feed_sources := feed_sources;
          np_feed_start := if bool_decide (feed_sources = []) then None else Some (feed_start_seq genesis_block); np_l1_sync := sync |}.

(** Reth opens the storage of the resolved directory and hands over to [launch]. *)
Definition run (command : NodeCommand) : Traced NodePlan :=
  let& _ := tlift (validate_standalone_components command) in
  let& _ := tlift (validate_prebootstrap_datadir command) in
  let& _ := tlift (refuse_ordinary_startup 0 (resolved_data_dir (nc_datadir command) (nc_chain command))) in
  let& sync_mode := tlift (resolve_sync_mode (na_no_fsync (nc_ext command)) (nc_sync_mode command)) in
  let& bootstrap := resolve_bootstrap (nc_ext command) (nc_chain command) (nc_datadir command) in
  let data_dir := resolved_data_dir (nc_datadir command) (nb_chain_spec bootstrap) in
  let& _ := tlift (refuse_ordinary_startup 1 data_dir) in
  let& _ := act (OpenStorage data_dir) in
  launch (nc_ext command) bootstrap data_dir.

(** ** The gate *)

Lemma tbind_Ok {A B : Type} (m : Traced A) (k : A -> Traced B) (b : B) :
  snd (tbind m k) = Ok b -> exists a, snd m = Ok a /\ snd (k a) = Ok b.
Proof. destruct m as [t [a|e]]; cbn; [|done]. intros H. by exists a. Qed.

Lemma tbind_trace {A B : Type} (P : Action -> Prop) (m : Traced A) (k : A -> Traced B) :
  Forall P (fst m) -> (forall a, snd m = Ok a -> Forall P (fst (k a))) -> Forall P (fst (tbind m k)).
Proof. destruct m as [t [a|e]]; cbn; [|done]. intros H Hk. apply Forall_app. split; [done|by apply Hk]. Qed.

(** Reading files and asking L1. *)
Definition reading (a : Action) : Prop := (exists path, a = ReadFile path) \/ a = ContactL1.
Definition reading_only (a : Action) : Prop := exists path, a = ReadFile path.

Ltac trace_steps :=
  repeat (apply tbind_trace; [solve [repeat constructor; (by eexists) || (by left; eexists) || (by right)]|intros ? _]).

Lemma read_orbit_trace (args : ArbNodeArgs) : Forall reading_only (fst (read_orbit args)).
Proof.
  unfold read_orbit. apply tbind_trace; [constructor|]. intros [[ci genesis]|] _; [|constructor]. trace_steps. constructor.
Qed.

Lemma derive_genesis_trace (l1_rpc : string) (bridge from : Z) (fee : option Z) :
  Forall reading (fst (derive_genesis_from_l1 l1_rpc bridge from fee)).
Proof. unfold derive_genesis_from_l1. trace_steps. constructor. Qed.

Lemma snapshot_spec_trace (args : ArbNodeArgs) (path : string) (datadir : option string) :
  Forall reading_only (fst (snapshot_spec args path datadir)).
Proof. unfold snapshot_spec. trace_steps. destruct (snapshot_manifests _). trace_steps. constructor. Qed.

Lemma config_spec_trace (args : ArbNodeArgs) (path : string) : Forall reading_only (fst (config_spec args path)).
Proof. unfold config_spec. trace_steps. constructor. Qed.

Lemma reading_only_weaken (t : list Action) : Forall reading_only t -> Forall reading t.
Proof. intros H. eapply Forall_impl; [exact H|]. intros a Ha. by left. Qed.

Lemma reading_only_no_contact (t : list Action) : Forall reading_only t -> ContactL1 ∉ t.
Proof. intros H Hin. rewrite Forall_forall in H. by destruct (H _ Hin) as [? ?]. Qed.

(** Bootstrap reads files and may ask L1; it asks L1 only when nothing else gives the genesis. *)
Lemma resolve_bootstrap_trace (args : ArbNodeArgs) (fallback : ChainSpec) (datadir : option string) :
  Forall reading (fst (resolve_bootstrap args fallback datadir)) /\
  (ContactL1 ∈ fst (resolve_bootstrap args fallback datadir) ->
   na_chain_info args = None /\ na_genesis_json args = None /\ na_snapshot_head args = None /\ na_chain_config args = None /\
   is_Some (na_l1_rpc args)).
Proof.
  unfold resolve_bootstrap. pose proof (read_orbit_trace args) as Hr. assert (Ho : forall o, snd (read_orbit args) = Ok o ->
    match o with Some _ => True | None => na_chain_info args = None /\ na_genesis_json args = None end).
  { intros o H. unfold read_orbit in H. apply tbind_Ok in H as (paths & Hp & H). destruct o; [done|]. unfold orbit_boot_paths in Hp.
    destruct (na_chain_info args), (na_genesis_json args); try done. injection Hp as <-. do 5 (apply tbind_Ok in H as (? & _ & H)). done. }
  destruct (read_orbit args) as [t0 [orbit|e]]; cbn [tbind fst snd] in *; cycle 1.
  { split; [by apply reading_only_weaken|]. intros Hin. by apply reading_only_no_contact in Hr. }
  specialize (Ho _ eq_refl). destruct (bootstrap_rollup args orbit) as [rollup|]; cbn [tbind tlift fst snd app]; rewrite ?app_nil_r; cycle 1.
  { split; [by apply reading_only_weaken|]. intros Hin. by apply reading_only_no_contact in Hr. }
  set (spec := bootstrap_spec args fallback datadir orbit rollup).
  assert (Hspec : Forall reading_only (fst spec) \/
    (Forall reading (fst spec) /\ orbit = None /\ na_snapshot_head args = None /\ na_chain_config args = None /\ is_Some (na_l1_rpc args))).
  { unfold spec, bootstrap_spec. destruct orbit as [[[spec0 init] info]|]; [left; trace_steps; constructor|].
    destruct (na_snapshot_head args); [left; apply snapshot_spec_trace|]. destruct (na_chain_config args); [left; apply config_spec_trace|].
    destruct (na_l1_rpc args); [right|left; constructor]. split; [|done]. apply tbind_trace; [apply derive_genesis_trace|].
    intros [? ?] _. constructor. }
  assert (Htr : fst (tbind spec (fun '(spec, chain_id, snapshot_delayed) => tret {| nb_chain_spec := spec; nb_chain_id := chain_id;
      nb_rollup := rollup; nb_snapshot_delayed := snapshot_delayed;
      nb_genesis_delayed := genesis_delayed_messages_read spec (rd_l2_genesis_block rollup) |})) = fst spec).
  { destruct spec as [ts [[[? ?] ?]|]]; cbn; by rewrite ?app_nil_r. }
  rewrite Htr. destruct Hspec as [Hs|(Hs & -> & H1 & H2 & H3)].
  - split; [apply reading_only_weaken, Forall_app; done|]. intros [Hin|Hin]%elem_of_app; [by apply reading_only_no_contact in Hr|].
    by apply reading_only_no_contact in Hs.
  - destruct Ho as [Ho1 Ho2]. split; [|done]. apply Forall_app. split; [by apply reading_only_weaken|done].
Qed.

(** What a launch contacts once its directory passed the gate. *)
Definition contacting (data_dir : string) (a : Action) : Prop :=
  a = ContactL1 \/ (a = ContactTrusted /\ incident 3 data_dir = false).

Lemma resume_point_trace (args : ArbNodeArgs) (bootstrap : NodeBootstrap) (l1_rpc : string) (log : option L1ResumeLog) (tip : Z) (d : string) :
  Forall (contacting d) (fst (resume_point args bootstrap l1_rpc log tip)).
Proof.
  unfold resume_point. destruct (na_l1_start_block args); [apply tbind_trace; [constructor|intros; constructor]|].
  destruct log as [log|]; [destruct (resume_for log tip); constructor|].
  repeat (apply tbind_trace; [solve [repeat constructor]|intros ? _]). constructor.
Qed.

Lemma refuse_Ok (k : nat) (d : string) (u : unit) : refuse_ordinary_startup k d = Ok u -> incident k d = false.
Proof. unfold refuse_ordinary_startup, TrustedL2.refuse_active_incident. by destruct (incident k d). Qed.

Lemma launch_trace (args : ArbNodeArgs) (bootstrap : NodeBootstrap) (d : string) :
  Forall (contacting d) (fst (launch args bootstrap d)) /\
  (fst (launch args bootstrap d) <> [] \/ is_ok (snd (launch args bootstrap d)) = true -> incident 2 d = false).
Proof.
  unfold launch. destruct (refuse_ordinary_startup 2 d) as [u|e] eqn:Hg; cycle 1.
  { cbn. split; [constructor|]. by intros [?|?]. }
  apply refuse_Ok in Hg. split; [|done]. apply tbind_trace; [constructor|intros _ _].
  do 3 (apply tbind_trace; [constructor|intros ? _]). apply tbind_trace.
  { unfold start_monitor. destruct (na_canonical_l2_rpc args); [|constructor]. apply tbind_trace; [constructor|]. intros u' Hu%refuse_Ok.
    apply tbind_trace; [destruct (trusted_client _); [apply Forall_singleton; by right|constructor]|]. intros ? _.
    apply tbind_trace; [constructor|intros; constructor]. }
  intros ? _. apply tbind_trace; [constructor|intros ? _]. apply tbind_trace; [|intros; constructor].
  unfold plan_l1_sync. destruct (na_l1_rpc args); [|constructor]. destruct (na_no_l1_derive args); [constructor|].
  do 2 (apply tbind_trace; [constructor|intros ? _]). apply tbind_trace; [apply resume_point_trace|]. intros [[? ?] ?] _. constructor.
Qed.
End Launch.

(** Reth takes an explicit data directory as it is, whatever the chain. *)
Class DatadirLaws {BC : BlockCodec} {NH : NodeHost} := {
  resolve_explicit : forall path chain chain', resolve_datadir (Some path) chain = resolve_datadir (Some path) chain'
}.

Section Gate.
Context {K : Keccak} {BC : BlockCodec} {RC : StoredReceipt.ReceiptCodec} {HC : HeadCodec} {CC : ChainCodec} {UP : UrlParser}
  {PR : L1Reader.Provider} {ABI : SolAbi} {CO : Completion} {PB : TrustedL2.ParseB256} {NH : NodeHost} {DL : DatadirLaws}.

Lemma prebootstrap_explicit (command : NodeCommand) (u : unit) :
  validate_prebootstrap_datadir command = Ok u ->
  na_chain_info (nc_ext command) = None -> na_genesis_json (nc_ext command) = None -> na_snapshot_head (nc_ext command) = None ->
  na_chain_config (nc_ext command) = None -> is_Some (na_l1_rpc (nc_ext command)) -> is_Some (nc_datadir command).
Proof.
  unfold validate_prebootstrap_datadir. intros H H1 H2 H3 H4 H5. destruct (nc_datadir command) as [path|]; [by exists path|].
  rewrite H1, H2, H3, H4 in H. destruct H5 as [rpc H5]. rewrite H5 in H. discriminate H.
Qed.

(** C28. An incident stops a node before it does anything. A run of the command reads files and may ask
    L1, then opens the storage of one directory, then contacts L1 and the trusted RPC. Nothing happens
    unless the directory of the chain on the command line is free of an incident; L1 is asked before
    the storage is open only when the directory of every chain the answer could name was found free;
    the storage that is opened is that of the chain that was resolved, and was found free after the
    chain was known; and nothing is contacted after that unless it was found free again. *)
Theorem run_gated (command : NodeCommand) (trace : list Action) (r : result string NodePlan) :
  run command = (trace, r) ->
  (trace <> [] \/ is_ok r = true -> incident 0 (resolved_data_dir (nc_datadir command) (nc_chain command)) = false) /\
  exists boot rest, Forall reading boot /\
    (ContactL1 ∈ boot -> forall chain, incident 0 (resolve_datadir (nc_datadir command) chain) = false) /\
    ((trace = boot /\ is_ok r = false) \/
     exists bootstrap, snd (resolve_bootstrap (nc_ext command) (nc_chain command) (nc_datadir command)) = Ok bootstrap /\
       let d := resolved_data_dir (nc_datadir command) (nb_chain_spec bootstrap) in
       trace = boot ++ OpenStorage d :: rest /\ incident 1 d = false /\ Forall (contacting d) rest /\
       (rest <> [] \/ is_ok r = true -> incident 2 d = false)).
Proof.
  unfold run. intros H. destruct (validate_standalone_components command) as [u|]; cycle 1.
  { injection H as <- <-. split; [by intros [?|?]|]. exists [], []. split_and!; [constructor|by intros ?%elem_of_nil|by left]. }
  cbn [tbind tlift fst snd app] in H. destruct (validate_prebootstrap_datadir command) as [u'|] eqn:Hpre; cycle 1.
  { injection H as <- <-. split; [by intros [?|?]|]. exists [], []. split_and!; [constructor|by intros ?%elem_of_nil|by left]. }
  cbn [fst snd app] in H. destruct (refuse_ordinary_startup 0 _) as [u0|] eqn:Hg0; cycle 1.
  { injection H as <- <-. split; [by intros [?|?]|]. exists [], []. split_and!; [constructor|by intros ?%elem_of_nil|by left]. }
  apply refuse_Ok in Hg0. split; [done|]. cbn [fst snd app] in H. destruct (resolve_sync_mode _ _) as [mode|]; cycle 1.
  { injection H as <- <-. exists [], []. split_and!; [constructor|by intros ?%elem_of_nil|by left]. }
  cbn [fst snd app] in H. pose proof (resolve_bootstrap_trace (nc_ext command) (nc_chain command) (nc_datadir command)) as [Hb1 Hb2].
  assert (Hb3 : ContactL1 ∈ fst (resolve_bootstrap (nc_ext command) (nc_chain command) (nc_datadir command)) ->
    forall chain, incident 0 (resolve_datadir (nc_datadir command) chain) = false).
  { intros Hin chain. destruct (Hb2 Hin) as (E1 & E2 & E3 & E4 & E5). destruct (prebootstrap_explicit _ _ Hpre E1 E2 E3 E4 E5) as [path Hpath].
    unfold resolved_data_dir in Hg0. rewrite Hpath in *. by rewrite (resolve_explicit path chain (spec_chain (nc_chain command))). }
  destruct (resolve_bootstrap _ _ _) as [boot [bootstrap|e]]; cbn [fst snd] in *; cycle 1.
  { cbn [tbind fst snd] in H. injection H as <- <-. exists boot, []. by split_and!; [..|left]. }
  cbn [tbind fst snd] in H.
  destruct (refuse_ordinary_startup 1 (resolved_data_dir (nc_datadir command) (nb_chain_spec bootstrap))) as [u1|] eqn:Hg1; cycle 1.
  { cbn in H. rewrite app_nil_r in H. injection H as <- <-. exists boot, []. by split_and!; [..|left]. }
  apply refuse_Ok in Hg1. cbn [tbind tlift act fst snd app] in H.
  pose proof (launch_trace (nc_ext command) bootstrap (resolved_data_dir (nc_datadir command) (nb_chain_spec bootstrap))) as [Hl1 Hl2].
  injection H as <- <-. eexists boot, _. split; [done|]. split; [done|]. right. exists bootstrap. split; [done|]. by split_and!.
Qed.
End Gate.

(** ** Where derivation resumes *)

Section Resumes.
Context {K : Keccak} {BC : BlockCodec} {RC : StoredReceipt.ReceiptCodec} {HC : HeadCodec} {CC : ChainCodec} {UP : UrlParser}
  {PR : L1Reader.Provider} {ABI : SolAbi} {CO : Completion} {PB : TrustedL2.ParseB256} {NH : NodeHost}.

(** A resume point: the start block that the operator gave, the newest logged boundary at or below
    the tip, or batch 0 and the genesis. *)
Inductive resumes (args : ArbNodeArgs) (bootstrap : NodeBootstrap) (log : option L1ResumeLog) (tip : Z) : Z -> Z -> Z -> Prop :=
  | resumes_override b delayed : na_l1_start_block args = Some b -> override_delayed args bootstrap tip = Ok delayed ->
      resumes args bootstrap log tip b delayed tip
  | resumes_logged cps cp : na_l1_start_block args = None -> log = Some cps -> resume_for cps tip = Some cp ->
      resumes args bootstrap log tip (l1_block cp) (delayed_count cp) (l2_block cp)
  | resumes_genesis b delayed : na_l1_start_block args = None -> log = None ->
      resolve_genesis_delayed_cursor (na_l1_start_delayed args) (nb_genesis_delayed bootstrap) = Ok delayed ->
      resumes args bootstrap log tip b delayed (rd_l2_genesis_block (nb_rollup bootstrap)).

Lemma resume_point_resumes (args : ArbNodeArgs) (bootstrap : NodeBootstrap) (l1_rpc : string) (log : option L1ResumeLog)
    (tip b delayed l2 : Z) :
  snd (resume_point args bootstrap l1_rpc log tip) = Ok (b, delayed, l2) -> resumes args bootstrap log tip b delayed l2.
Proof.
  unfold resume_point. destruct (na_l1_start_block args) as [b0|] eqn:Hb.
  { intros H. apply tbind_Ok in H as (d & Hd & [= <- <- <-]). by constructor. }
  destruct log as [cps|].
  { destruct (resume_for cps tip) as [cp|] eqn:Hr; [|done]. intros [= <- <- <-]. by econstructor. }
  intros H. do 4 (apply tbind_Ok in H as (? & _ & H)). apply tbind_Ok in H as (d & Hd & [= <- <- <-]). by constructor.
Qed.

Lemma resume_for_below (cps : L1ResumeLog) (tip : Z) (cp : L1ResumeCheckpoint) :
  resume_for cps tip = Some cp -> In cp cps /\ l2_block cp <= tip.
Proof. unfold resume_for. intros [Hin Hle]%List.find_some. split; [by apply in_rev|by apply Z.leb_le]. Qed.

(** The configuration that is planned resumes at or below the durable tip. *)
Lemma plan_l1_sync_spec (args : ArbNodeArgs) (bootstrap : NodeBootstrap) (data_dir : string) (cfg : L1SyncConfig) (tip : Z) :
  let g := rd_l2_genesis_block (nb_rollup bootstrap) in
  snd (plan_l1_sync args bootstrap data_dir) = Ok (Some cfg) -> last_block_number = Ok tip -> 0 <= g <= tip ->
  (forall cps cp, resume_file data_dir = Some cps -> In cp cps -> 0 <= l2_block cp) ->
  cfg_l2_frontier cfg = None /\ cfg_db_tip_l2 cfg = tip /\ cfg_genesis_block cfg = g /\ 0 <= cfg_start_l2_block cfg <= tip /\
  cfg_sequencer_inbox cfg = rd_sequencer_inbox (nb_rollup bootstrap) /\
  resumes args bootstrap (resume_file data_dir) tip (cfg_start_block cfg) (cfg_start_delayed_count cfg) (cfg_start_l2_block cfg).
Proof.
  intros g H Htip Hg Hlog. unfold plan_l1_sync in H. destruct (na_l1_rpc args) as [rpc|]; [|done]. destruct (na_no_l1_derive args); [done|].
  apply tbind_Ok in H as (? & _ & H). apply tbind_Ok in H as (tip' & Ht & H). cbn in Ht. rewrite Htip in Ht. injection Ht as <-.
  apply tbind_Ok in H as ([[b delayed] l2] & Hr%resume_point_resumes & [= <-]). cbn. split_and!; try done.
  - destruct Hr as [| |]; [lia| |unfold g in Hg; lia]. destruct (resume_for_below _ _ _ H1) as [Hin _]. eauto.
  - destruct Hr as [| |]; [lia| |unfold g in Hg; lia]. by destruct (resume_for_below _ _ _ H1).
Qed.
End Resumes.

(** ** A snapshot boots *)

Section Boot.
Context {K : Keccak} {BC : BlockCodec} {RC : StoredReceipt.ReceiptCodec} {HC : HeadCodec} {CC : ChainCodec} {UP : UrlParser}
  {PR : L1Reader.Provider} {ABI : SolAbi} {CO : Completion} {PB : TrustedL2.ParseB256} {NH : NodeHost} {CL : ChainCodecLaws}.
Context (trie_root : gmap Z AccountInfo -> gset (Z * Z * Z) -> result string Z).

(** C15. An imported snapshot boots. After an import that returned, of a block stream whose lines are as
    they are exported (at most four words with one space between them, the hash with at most one
    prefix), a node that is given that stream as [--snapshot-head] and that datadir, with a rollup
    deployment that resolves and no chain-info or genesis file, reads the stream, passes the launch
    check and returns a specification whose genesis is the imported head: its hash is the one that
    the database has at its number, all stages are there, and the delayed-message cursor is the
    header's nonce. *)
Theorem imported_snapshot_boots (env : HeadImportEnv) (faults : list (Crash.Fault string)) (n n' : nat) (w : Work) (args : ArbNodeArgs)
    (fallback : ChainSpec) (path datadir : string) (rollup : RollupDeployment) :
  import trie_root env ({| w_dir := empty_datadir; w_faults := faults |}, n) = (Crash.Ret tt, (w, n')) ->
  Forall (fun line => forall text, line = Ok text -> exported text) (he_blocks env) ->
  na_snapshot_head args = Some path -> na_chain_info args = None -> na_genesis_json args = None ->
  resolve_rollup_deployment args = Ok rollup -> read_lines path = Ok (he_blocks env) ->
  snapshot_manifests datadir = ((fun m => Ok (manifest_file m)) <$> dd_complete (w_dir w), he_preimage env) ->
  exists head header bootstrap,
    resolve_bootstrap args fallback (Some datadir) = ([ReadFile path], Ok bootstrap) /\
    nb_chain_spec bootstrap = arb_chain_spec_with_header (na_chain_id args) (hd_header head) (hd_hash head) /\
    he_sealed_header env (dd_headers (w_dir w)) (bh_number (hd_header head)) = Some (hd_hash head, header) /\
    dd_checkpoints (w_dir w) = Some (bh_number (hd_header head)) /\
    nb_snapshot_delayed bootstrap = Some (be_decode (bh_nonce (hd_header head))) /\
    nb_chain_id bootstrap = na_chain_id args /\ nb_rollup bootstrap = rollup.
Proof.
  intros Hrun Hex Hhead Hci Hg Hroll Hlines Hman.
  pose proof (import_spec trie_root env {| w_dir := empty_datadir; w_faults := faults |} eq_refl n) as Hs. rewrite Hrun in Hs.
  destruct Hs as (head & policy & preimages & (expected & stats & _ & _ & Hread & _) & Hd).
  pose proof (boot_reads_imported _ _ Hex Hread) as Hboot. destruct (hi_launch _ _ _ _ _ _ Hd) as (m & Hm & _ & _ & Hlaunch).
  destruct (hi_sealed _ _ _ _ _ _ Hd) as [header Hsealed]. destruct (hi_head _ _ _ _ _ _ Hd) as (_ & Hnum & Hhash).
  destruct (hi_boundary _ _ _ _ _ _ Hd) as (Hck & _). exists head, header. eexists. split.
  { unfold resolve_bootstrap, read_orbit, orbit_boot_paths, bootstrap_spec, snapshot_spec, bootstrap_rollup.
    rewrite Hci, Hg, Hroll, Hhead, Hlines. cbn [tbind tlift act tret fst snd app]. rewrite Hboot.
    cbn [tbind tlift fst snd app ok_or]. rewrite Hman, Hm. cbn [fmap option_fmap option_map]. rewrite Hlaunch. reflexivity. }
  cbn. rewrite <- Hnum in Hsealed, Hck. done.
Qed.
End Boot.

(** ** A node on an imported snapshot *)

Module SampleNode.
#[export] Existing Instances Reference.keccak Reference.sol_abi StoredReceipt.FixedWidth.codec SnapshotFullSafety.Sample.codec
  SampleImport.hex_codec Feed.sample_urls in_order L1Reader.sample_provider TrustedL2.Sample.parse_full_hash.

Definition digits (s : string) : option Z := if (String.length s =? 64)%nat then be_decode <$> hex_decode s else None.

(** No JSON is read; the nonce of a header is its first eight bytes. *)
#[export] Instance chains : ChainCodec := {|
  chain_config_from_slice _ := None; chain_infos_from_slice _ := None; raw_genesis_from_slice _ := None; first_chain_config _ := None;
  max_code_size_of _ := None; u256_from_str_radix _ _ := None; arb_genesis_accounts _ := Ok [];
  b256_from_str s :=
    match digits s, s with
    | Some hash, _ => Some hash
    | None, String "0" (String "x" s) => digits s
    | None, _ => None
    end;
  genesis_header_of _ := (0, []);
  bh_nonce header := take 8 header
|}.

#[export] Instance chains_laws : ChainCodecLaws.
Proof.
  split. intros s bs Hs Hd Hb.
  assert (Hds : digits s = Some (be_decode bs)) by (unfold digits; rewrite Hs, Hd; reflexivity). split.
  - cbn [b256_from_str chains]. by rewrite Hds.
  - rewrite !string_app_cons. change (EmptyString +:+ s) with s. cbn [b256_from_str chains].
    replace (digits (String "0" (String "x" s))) with (@None Z); [exact Hds|]. unfold digits. cbn [String.length]. by rewrite Hs.
Defined.

Definition imported_dir := w_dir (fst (snd (SampleImport.run_import 20))).

#[export] Instance host : NodeHost := {|
  incident k d := false; read_file _ := Err "no file"%string; read_lines _ := Ok (he_blocks SampleImport.sample_env);
  snapshot_manifests _ := ((fun m => Ok (manifest_file m)) <$> dd_complete imported_dir, he_preimage SampleImport.sample_env);
  resolve_datadir d _ := default "default"%string d; url_ok _ := true; l1_block_number := Ok 20;
  parse_init_message_from_body _ _ := Err "no message"%string; trusted_client _ := Some tt;
  trusted_chain_id := Ok (TrustedL2.format_quantity 42161); bind_ipc _ := Ok tt; launch_node := Ok tt; last_block_number := Ok 301;
  sealed_header _ := Ok (Some SnapshotFullSafety.Sample.header2); resume_file _ := None
|}.

#[export] Instance host_laws : DatadirLaws.
Proof. split. reflexivity. Defined.

Definition args : ArbNodeArgs := {|
  na_no_fsync := false; na_chain_id := 42161; na_chain_info := None; na_genesis_json := None; na_chain_config := None;
  na_initial_l1_base_fee := None; na_replay_feed := None; na_mev_tx_log_ipc := None; na_canonical_l2_rpc := Some "rpc"%string;
  na_feed_urls := []; na_feed_connections := None; na_feed_sources := []; na_no_l1_derive := false; na_l1_rpc := Some "l1"%string;
  na_l1_beacon := None; na_l1_start_block := Some 7; na_l1_end_block := None; na_l1_prefetch := 2; na_l1_getlogs_range := None;
  na_l1_start_delayed := None; na_l1_sequencer_inbox := None; na_l1_bridge := None; na_l1_inbox_deploy_block := None;
  na_l2_genesis_block := Some 300; na_snapshot_head := Some "head.txt"%string
|}.

Definition command : NodeCommand := {|
  nc_network_default := true; nc_txpool_default := true; nc_builder_default := true; nc_debug_default := true; nc_dev_default := true;
  nc_jit_default := true; nc_era_enabled := false; nc_era_path := None; nc_era_url := None; nc_datadir := Some "data"%string;
  nc_chain := arb_chain_spec_with_header 1 [] 0; nc_sync_mode := None; nc_ext := args
|}.

Definition ok_default {A : Type} (d : A) (r : result string A) : A := match r with Ok a => a | Err _ => d end.

(** The node reads the stream, opens the directory and contacts the trusted RPC. *)
Lemma run_gated_witness :
  fst (run command) = [ReadFile "head.txt"; OpenStorage "data"; ContactTrusted] /\ is_ok (snd (run command)) = true /\
  incident 0 (resolved_data_dir (nc_datadir command) (nc_chain command)) = false.
Proof.
  assert (Ht : fst (run command) = [ReadFile "head.txt"; OpenStorage "data"; ContactTrusted]) by (vm_compute; reflexivity).
  assert (Hr : is_ok (snd (run command)) = true) by (vm_compute; reflexivity).
  split; [exact Ht|]. split; [exact Hr|].
  refine (proj1 (run_gated command (fst (run command)) (snd (run command)) (surjective_pairing _)) (or_intror Hr)).
Defined.

Definition head_hash : string := SampleImport.word (Reference.digest SnapshotFullSafety.Sample.header2).

Lemma blocks_exported : Forall (fun line => forall text, line = Ok text -> exported text) (he_blocks SampleImport.sample_env).
Proof.
  constructor; [|constructor]. intros text [= <-].
  exists ["H"%string; "301"%string; head_hash; SampleImport.hex SnapshotFullSafety.Sample.header2].
  split; [vm_compute; reflexivity|]. split; [|split; [cbn; lia|left; vm_compute; reflexivity]].
  repeat constructor; vm_compute; discriminate || reflexivity.
Qed.

Lemma boot_hash :
  match snd (resolve_bootstrap args (nc_chain command) (Some "data"%string)) with
  | Ok b => cs_genesis_hash (nb_chain_spec b) =? Reference.digest SnapshotFullSafety.Sample.header2
  | Err _ => false
  end = true.
Proof. vm_compute. reflexivity. Qed.

(** After the import of [SampleImport], the node boots on block 301. *)
Lemma imported_snapshot_boots_witness :
  fst (SampleImport.run_import 20) = Crash.Ret tt /\
  exists bootstrap, resolve_bootstrap args (nc_chain command) (Some "data"%string) = ([ReadFile "head.txt"], Ok bootstrap) /\
    cs_genesis_hash (nb_chain_spec bootstrap) = Reference.digest SnapshotFullSafety.Sample.header2.
Proof.
  pose proof (proj1 SampleImport.run_import_ends) as H20. split; [exact H20|].
  assert (Hrun : import SnapshotFullSafety.Sample.trie SampleImport.sample_env (SampleImport.start, 20%nat) =
    (Crash.Ret tt, (fst (snd (SampleImport.run_import 20)), snd (snd (SampleImport.run_import 20))))).
  { rewrite (SampleImport.run_import_parts 20), H20. reflexivity. }
  destruct (imported_snapshot_boots (NH := host) SnapshotFullSafety.Sample.trie SampleImport.sample_env [] 20 _ _ args (nc_chain command) "head.txt" "data"
    (ok_default {| rd_sequencer_inbox := 0; rd_bridge := 0; rd_deployed_at := 0; rd_l2_genesis_block := 0 |} (resolve_rollup_deployment args))
    Hrun blocks_exported eq_refl eq_refl eq_refl eq_refl eq_refl eq_refl) as (head & header & bootstrap & Hb & _).
  exists bootstrap. split; [exact Hb|]. apply Z.eqb_eq. pose proof boot_hash as Hc. rewrite Hb in Hc. exact Hc.
Defined.

Fixpoint spaced (separator line : string) : string :=
  match line with
  | EmptyString => EmptyString
  | String c rest => (if Ascii.eqb c " "%char then separator else String c EmptyString) +:+ spaced separator rest
  end.

(** The sample's block stream with another space between the words of a line. *)
Definition respaced (separator : string) : list (result string string) :=
  (fun line => match line with Ok text => Ok (spaced separator text) | Err e => Err e end) <$> he_blocks SampleImport.sample_env.

Definition head_found (head : result string Head) : result string Z :=
  match head with
  | Ok head => Ok (hd_number head)
  | Err e => Err e
  end.

(** The importer takes any white space between the words of a line, the node one space: a stream with
    two spaces or a tab is imported, and a node does not boot on it. *)
Theorem respaced_stream_not_booted :
  head_found (read_head_header (respaced "  ")) = Ok 301 /\
  head_found (boot_head_header (respaced "  ")) = Err "bad number"%string /\
  head_found (read_head_header (respaced (String "009"%char EmptyString))) = Ok 301 /\
  head_found (boot_head_header (respaced (String "009"%char EmptyString))) = Err "no H records"%string.
Proof. do 3 (split; [vm_compute; reflexivity|]). vm_compute. reflexivity. Qed.
End SampleNode.
