(* ===== verification/EndToEnd.v ===== *)
(** * From L1 to blocks

    The composition of [Launch] (where derivation resumes), [L1Pipeline] (what it sends), [Driver] (what
    is applied) and [Payload] (which blocks are built): a node that resumes above a durable tip, with
    any relays beside it, extends the tip by exactly the blocks of the derived messages. *)

From Stdlib Require Import Strings.Byte Strings.String.
From stdpp Require Import base list numbers option strings gmap.
From S2P Require Import TxLog StoredReceipt Driver Production ProductionSpec BlockExecutor Payload Feed SnapshotFull Preimages HeadImport.
From S2P Require Import Genesis TrustedL2 Launch.
From S2P Require Import Prelude BTree External Messages Batch Multiplexer L1Decode L1Reader DelayedReader L1Range Resume L1Sync L1Pipeline.

(** ** Numbering *)

Lemma numbered_from_length (bn g : Z) (l : list BroadcastFeedMessage) : length (numbered_from bn g l) = length l.
Proof. revert bn. induction l as [|m l IH]; intros bn; [done|]. rewrite numbered_from_cons. cbn [length]. by rewrite IH. Qed.

Lemma numbered_from_lookup (bn g : Z) (l : list BroadcastFeedMessage) (i : nat) (m : BroadcastFeedMessage) :
  0 <= g <= bn -> bn + Z.of_nat (length l) <= 2 ^ 64 -> numbered_from bn g l !! i = Some m ->
  fm_sequence_number m = bn - g + Z.of_nat i.
Proof.
  revert bn i. induction l as [|x l IH]; intros bn i Hg Hl; [done|]. rewrite numbered_from_cons. cbn [length] in Hl. destruct i as [|i].
  - intros [= <-]. cbn. unfold wrapping_sub. rewrite wrap64_small by (unfold is_u64; lia). lia.
  - cbn [lookup list_lookup]. intros H. rewrite (IH (bn + 1) i ltac:(lia) ltac:(lia) H). lia.
Qed.

(** What a window that was taken in full has sent. *)
Lemma enqueue_loop_taken {FC : FeedChannel} (msgs : list BroadcastFeedMessage) (n tip g skips n' : Z)
    (sent sent' : list BroadcastFeedMessage) (d : WindowDelivery) :
  enqueue_loop msgs n tip g None skips sent = (Some d, n', sent') -> 0 <= n -> n + Z.of_nat (length msgs) < 2 ^ 64 ->
  n' = n + Z.of_nat (length msgs) /\
  sent' = sent ++ numbered_from (Z.max n (tip + 1)) g (drop (Z.to_nat (Z.max n (tip + 1) - n)) msgs).
Proof.
  revert n skips sent. induction msgs as [|m msgs IH]; intros n skips sent H Hn Hlen.
  { cbn in H. injection H as <- <- <-. cbn [length]. rewrite drop_nil, app_nil_r. split; [lia|done]. }
  cbn [length] in Hlen. cbn [enqueue_loop] in H.
  assert (Hw : wrapping_add n 1 = n + 1) by (apply wrap64_small; unfold is_u64; lia). rewrite Hw in H.
  destruct (Z.leb_spec n tip) as [Hskip|Hsend].
  - apply IH in H as [-> ->]; [|lia..]. cbn [length]. split; [lia|]. f_equal. replace (Z.max (n + 1) (tip + 1)) with (Z.max n (tip + 1)) by lia.
    f_equal. replace (Z.to_nat (Z.max n (tip + 1) - n)) with (S (Z.to_nat (Z.max n (tip + 1) - (n + 1)))) by lia. done.
  - destruct (accepts sent); [|done]. rewrite bool_decide_eq_false_2 in H by done. apply IH in H as [-> ->]; [|lia..]. cbn [length].
    split; [lia|]. replace (Z.max n (tip + 1)) with n by lia. replace (Z.max (n + 1) (tip + 1)) with (n + 1) by lia.
    rewrite !Z.sub_diag. change (Z.to_nat 0) with 0%nat. rewrite !drop_0, numbered_from_cons, <- app_assoc. done.
Qed.

(** ** What the catch-up loop sends *)

Section Sent.
Context {KC : Keccak} {RLP : Rlp} {BR : Brotli} {ABI : SolAbi} {B64 : Base64} {PR : L1Reader.Provider} {API : Beacon.BeaconApi}
  {DF : DelayedFetch} {FC : FeedChannel}.
Context (cfg : L1SyncConfig) (seq_reader : SequencerInboxReader.t) (beacon : option Beacon.BeaconClient).

(** The batches of a window. *)
Definition window_batches (w : Window) (resolved : list (DeliveredBatch * bytes)) : Prop :=
  if w_scan w then resolve_batches seq_reader beacon (w_from w) (w_to w) = Ok resolved else resolved = [].

(** The messages that windows derive, one after the other, and the delayed cursor after them. *)
Inductive derives : list Window -> list BroadcastFeedMessage -> Z -> Prop :=
  | derives_start : derives [] [] (cfg_start_delayed_count cfg)
  | derives_window ws msgs delayed w resolved c rc r :
      derives ws msgs delayed -> window_batches w resolved ->
      fst (fst (derive_from_resolved_cached seq_reader resolved (w_to w) delayed (cfg_delayed_window cfg) c rc)) = Ok r ->
      derives (ws ++ [w]) (msgs ++ dr_messages r) (dr_next_delayed_count r).

(** The loop has sent the messages above the tip, numbered by their blocks. *)
Definition sent_above (st : SyncState) : Prop :=
  exists msgs, derives (ss_consumed st) msgs (ss_delayed st) /\
    (cfg_start_l2_block cfg + 1 + Z.of_nat (length msgs) < 2 ^ 64 ->
     ss_next_l2 st = cfg_start_l2_block cfg + 1 + Z.of_nat (length msgs) /\
     ss_sent st = numbered_from (cfg_db_tip_l2 cfg + 1) (cfg_genesis_block cfg)
                    (drop (Z.to_nat (cfg_db_tip_l2 cfg - cfg_start_l2_block cfg)) msgs)).

(** What a step keeps of the fields the invariant is about. *)
Definition same_sent (st st' : SyncState) : Prop :=
  ss_consumed st' = ss_consumed st /\ ss_delayed st' = ss_delayed st /\ ss_next_l2 st' = ss_next_l2 st /\ ss_sent st' = ss_sent st.

Lemma sent_above_same (st st' : SyncState) : same_sent st st' -> sent_above st -> sent_above st'.
Proof. intros (H1 & H2 & H3 & H4) H. unfold sent_above. by rewrite H1, H2, H3, H4. Qed.

Lemma step_bind_Next {A B : Type} (s : Step A) (k : A -> Step B) (b : B) :
  step_bind s k = Next b -> exists a, s = Next a /\ k a = Next b.
Proof. destruct s; cbn; [|done..]. intros H. by eexists. Qed.

Lemma try_l1_Next {A : Type} (operation : string) (r : result L1Error A) (a : A) : try_l1 operation r = Next a -> r = Ok a.
Proof. unfold try_l1. destruct r as [x|e]; [by intros [= ->]|]. by destruct (l1_error operation e). Qed.

Lemma refresh_head_same (head : option Z) (st st' : SyncState) : refresh_head cfg seq_reader head st = Next st' -> same_sent st st'.
Proof.
  unfold refresh_head. intros H. repeat (case_match; try done); try (by injection H as <-);
    repeat (apply step_bind_Next in H as (? & _ & H)); try (by injection H as <-).
Qed.

Lemma spawn_window_same (st st' : SyncState) : spawn_window cfg seq_reader st = Next st' -> same_sent st st'.
Proof.
  unfold spawn_window. intros H. repeat (case_match; try done); repeat (apply step_bind_Next in H as (? & _ & H));
    repeat (case_match; try done); repeat (apply step_bind_Next in H as (? & _ & H)); by injection H as <-.
Qed.

Lemma same_sent_trans (a b c : SyncState) : same_sent a b -> same_sent b c -> same_sent a c.
Proof. unfold same_sent. intros (-> & -> & -> & ->). done. Qed.

Lemma fill_loop_same (slots : nat) (st st' : SyncState) : fill_loop cfg seq_reader slots st = Next st' -> same_sent st st'.
Proof.
  revert st. induction slots as [|slots IH]; intros st H; cbn [fill_loop] in H.
  - injection H as <-. done.
  - repeat case_match; try (by injection H as <-). apply step_bind_Next in H as (st1 & H1%spawn_window_same & H%IH). by eapply same_sent_trans.
Qed.

Lemma await_window_batches (w : Window) (joined : bool) (resolved : list (DeliveredBatch * bytes)) :
  await_window seq_reader beacon w joined = Next resolved -> window_batches w resolved.
Proof.
  unfold await_window, window_batches. destruct joined; [|done]. cbn [negb]. destruct (w_scan w); [|by intros [= <-]].
  intros H. by apply try_l1_Next in H.
Qed.

(** The messages of one more window, above the tip. *)
Lemma numbered_above_app (s tip g : Z) (a b : list BroadcastFeedMessage) :
  s <= tip -> let n := s + 1 + Z.of_nat (length a) in
  numbered_from (tip + 1) g (drop (Z.to_nat (tip - s)) a) ++
    numbered_from (Z.max n (tip + 1)) g (drop (Z.to_nat (Z.max n (tip + 1) - n)) b)
  = numbered_from (tip + 1) g (drop (Z.to_nat (tip - s)) (a ++ b)).
Proof.
  intros Hs n. subst n. destruct (Z.le_gt_cases (s + 1 + Z.of_nat (length a)) (tip + 1)) as [Hle|Hgt].
  - rewrite (drop_ge a) by lia. change (numbered_from (tip + 1) g []) with (@nil BroadcastFeedMessage). cbn [app].
    rewrite drop_app_ge by lia. rewrite Z.max_r by lia. do 2 f_equal. lia.
  - rewrite drop_app_le by lia. rewrite numbered_from_app, Z.max_l, Z.sub_diag by lia. change (Z.to_nat 0) with 0%nat. rewrite drop_0.
    f_equal. f_equal. rewrite length_drop. lia.
Qed.

Hypothesis no_frontier : cfg_l2_frontier cfg = None.
Hypothesis start_below : 0 <= cfg_start_l2_block cfg <= cfg_db_tip_l2 cfg.

Lemma consume_window_sent (w : Window) (rest : list Window) (joined : bool) (tip : result L1SyncError Z) (st st' : SyncState) :
  sent_above st -> consume_window cfg seq_reader beacon w rest joined tip st = Next st' -> sent_above st'.
Proof.
  intros (msgs & Hd & Hsent) H. unfold consume_window in H. apply step_bind_Next in H as (resolved & Hw%await_window_batches & H).
  destruct (derive_from_resolved_cached _ _ _ _ _ _ _) as [[derived dc] rc] eqn:Hder.
  apply step_bind_Next in H as (r & Hr%try_l1_Next & H). subst derived.
  assert (Hd' : derives (ss_consumed st ++ [w]) (msgs ++ dr_messages r) (dr_next_delayed_count r)).
  { econstructor; [exact Hd|exact Hw|]. by rewrite Hder. }
  unfold enqueue_derived_window in H. rewrite no_frontier in H.
  destruct (enqueue_loop _ _ _ _ _ _ _) as [[delivery n'] sent'] eqn:He. destruct delivery as [d|]; [|done].
  destruct (frontier_reached d); [done|].
  assert (Hst : ss_consumed st' = ss_consumed st ++ [w] /\ ss_delayed st' = dr_next_delayed_count r /\ ss_next_l2 st' = n' /\ ss_sent st' = sent').
  { destruct (cfg_checkpointing cfg); [|by injection H as <-]. destruct tip as [persisted|]; [|done].
    destruct (maybe_write_checkpoint _ _ _) as [[? ?] ?]. by injection H as <-. }
  destruct Hst as (C1 & C2 & C3 & C4). exists (msgs ++ dr_messages r). rewrite C1, C2, C3, C4. split; [done|]. rewrite length_app, Nat2Z.inj_add.
  intros Hlen. destruct Hsent as [Hn Hs]; [lia|]. rewrite Hn in He. apply enqueue_loop_taken in He as [-> ->]; [|lia..].
  split; [lia|]. rewrite Hs. apply numbered_above_app. lia.
Qed.

Lemma reachable_sent (file : option L1ResumeLog) (st : SyncState) : reachable cfg seq_reader beacon file st -> sent_above st.
Proof.
  induction 1 as [st Hi|head joined tip st st' _ IH _ H].
  - unfold sync_init, check_frontier in Hi. rewrite no_frontier in Hi. apply step_bind_Next in Hi as (u & _ & Hi).
    apply step_bind_Next in Hi as (seen & _ & [= <-]). exists []. cbn [ss_consumed ss_delayed ss_next_l2 ss_sent length]. split; [constructor|].
    rewrite Z.add_0_r, drop_nil. intros Hlt. split; [|done]. apply wrap64_small. unfold is_u64. lia.
  - unfold sync_step in H. destruct (past_end _ _); [done|]. apply step_bind_Next in H as (st1 & H1%refresh_head_same & H).
    apply step_bind_Next in H as (st2 & H2%fill_loop_same & H).
    pose proof (sent_above_same _ _ (same_sent_trans _ _ _ H1 H2) IH) as Hs.
    destruct (ss_inflight st2) as [|w rest]; [by injection H as <-|]. by eapply consume_window_sent.
Qed.
End Sent.

(** ** What the driver does with them *)

Section Driven.
Import Driver.
Context {EN : Engine}.

Lemma chain_sequence (parent : SealedHeader) (n : Z) (l : list applied) (i : nat) (a : applied) :
  chain parent n l -> l !! i = Some a -> fm_sequence_number (fst a) = n + Z.of_nat i.
Proof.
  revert parent n i. induction l as [|[m b] l IH]; intros parent n i Hc; [done|]. destruct Hc as (Hm & _ & Hc). destruct i as [|i].
  - intros [= <-]. cbn. lia.
  - intros H. rewrite (IH _ _ i Hc H). lia.
Qed.

(** The applied messages begin with those that arrived in order, when copies agree. *)
Lemma chain_prefix (parent : SealedHeader) (n : Z) (l : list applied) (ms : list BroadcastFeedMessage) :
  chain parent n l -> (length ms <= length l)%nat -> (forall i m, ms !! i = Some m -> fm_sequence_number m = n + Z.of_nat i) ->
  (forall a m, In a l -> In m ms -> fm_sequence_number (fst a) = fm_sequence_number m -> fst a = m) ->
  take (length ms) (map fst l) = ms.
Proof.
  revert parent n l. induction ms as [|m ms IH]; intros parent n l Hc Hlen Hseq Hag; [done|]. destruct l as [|[m' b] l]; [cbn in Hlen; lia|].
  destruct Hc as (Hm & _ & Hc). cbn [length map fst take] in *. pose proof (Hseq O m eq_refl) as Hm0. f_equal.
  - apply (Hag (m', b) m); [by left|by left|]. cbn. lia.
  - eapply (IH (eb_header b) (n + 1) l); [done|lia| |].
    + intros i x Hx. rewrite (Hseq (S i) x Hx). lia.
    + intros a x Ha Hx. apply Hag; by right.
Qed.
End Driven.

(** ** The node *)

Section Node.
Context {KC : Keccak} {RLP : Rlp} {BR : Brotli} {ABI : SolAbi} {B64 : Base64} {PR : L1Reader.Provider} {API : Beacon.BeaconApi}
  {DF : DelayedFetch} {FC : FeedChannel}.
Context {BC : SnapshotFull.BlockCodec} {RC : StoredReceipt.ReceiptCodec} {HC : HeadImport.HeadCodec} {CC : Genesis.ChainCodec}
  {UP : Feed.UrlParser} {CO : Completion} {PB : TrustedL2.ParseB256} {NH : Launch.NodeHost}.
Context {AR : BlockExecutor.ArbRevm} {DG : Production.Digest} {BB : Production.BlockBuilder} {PV : Payload.Provider}
  {AL : ProductionSpec.ArbRevmLaws} {BL : ProductionSpec.BlockBuilderLaws} {PL : Payload.ProviderLaws} {DL : Payload.DigestLaws}.
Context (fuel : nat) (builder : Payload.ArbPayloadBuilder) (resources : Z -> Payload.BuildResources)
  (tree_accepts : list Driver.EngineRequest -> bool) (answer : Driver.ExecutedBlock -> result string unit)
  (canonical : Driver.ExecutedBlock -> bool).

#[local] Instance node_engine : Driver.Engine := Payload.payload_engine fuel builder resources tree_accepts answer canonical.

(** C4. The node extends its durable tip by the blocks of the messages on L1. Derivation resumes where
    [launch] says, the catch-up loop is in any state it can reach, and what it sent reaches the driver
    in order, among any messages of the relays that agree with it. Then the blocks applied begin with
    one for each message derived after the tip, in order: the blocks form one chain over the tip,
    and the i-th of them has the i-th number after it. *)
Theorem node_extends_tip (args : Launch.ArbNodeArgs) (bootstrap : Launch.NodeBootstrap) (data_dir : string) (cfg : L1SyncConfig)
    (beacon : option Beacon.BeaconClient) (file : option L1ResumeLog) (st : SyncState) (t : BlockExecutor.Header)
    (msgs : list (BroadcastFeedMessage * bool)) (d : Driver.ArbEngineDriver) :
  let g := Launch.rd_l2_genesis_block (Launch.nb_rollup bootstrap) in
  let reader := SequencerInboxReader.new (cfg_sequencer_inbox cfg) in
  let tip := BlockExecutor.number t in
  snd (Launch.plan_l1_sync args bootstrap data_dir) = Ok (Some cfg) -> Launch.last_block_number = Ok tip -> 0 <= g <= tip ->
  (forall cps cp, Launch.resume_file data_dir = Some cps -> In cp cps -> 0 <= l2_block cp) ->
  reachable cfg reader beacon file st ->
  sublist (ss_sent st) (map fst msgs) ->
  (forall m m', In m (map fst msgs) -> In m' (ss_sent st) -> fm_sequence_number m = fm_sequence_number m' -> m = m') ->
  Driver.sequences_ok msgs -> Driver.drive msgs (Driver.spawned (Payload.seal t) g) = Ok d ->
  exists derived l, derives cfg reader beacon (ss_consumed st) derived (ss_delayed st) /\
    Driver.tip d = Driver.chain_tip (Payload.seal t) l /\ Payload.linked t l /\
    (Z.max (cfg_start_l2_block cfg + Z.of_nat (length derived)) tip + 1 + Z.of_nat (length l) < 2 ^ 64 ->
     (exists rest, map fst l = numbered_from (tip + 1) g (drop (Z.to_nat (tip - cfg_start_l2_block cfg)) derived) ++ rest) /\
     forall i a, l !! i = Some a -> Driver.sh_number (Driver.eb_header (snd a)) = tip + 1 + Z.of_nat i).
Proof.
  intros g reader tip Hplan Htip Hg Hlog Hreach Hsub Hag Hok Hdrive.
  destruct (Launch.plan_l1_sync_spec _ _ _ _ _ Hplan Htip Hg Hlog) as (Hf & Hdb & Hgen & Hstart & _ & _).
  destruct (reachable_sent cfg reader beacon Hf ltac:(by rewrite Hdb) file st Hreach) as (derived & Hder & Hsent).
  destruct (Driver.spawned_inv (Payload.seal t) g (map fst msgs)) as [Hi0 Hr0].
  destruct (Driver.drive_inv _ _ msgs [] _ _ Hok (fun m Hm => Hm) Hi0 Hr0 Hdrive) as (l & Hi & _). cbn [app] in Hi. destruct Hi as [Hc Hfrom Hseq Ht _ _ _ _].
  exists derived, l. split; [done|]. split; [done|]. split; [by eapply Payload.chain_linked|]. intros Hbound.
  destruct Hsent as [_ Hs]; [lia|]. rewrite Hdb, Hgen in Hs. fold g tip in Hs. cbn [Driver.tip Driver.spawned] in Hc, Ht.
  assert (Hn0 : Driver.next_seq (Driver.spawned (Payload.seal t) g) = tip + 1 - g).
  { cbn. unfold wrapping_add, saturating_sub. fold tip. rewrite wrap64_small by (unfold is_u64; lia). lia. }
  rewrite Hn0 in Hc, Hseq.
  assert (Hnum : forall i m, ss_sent st !! i = Some m -> fm_sequence_number m = tip + 1 - g + Z.of_nat i).
  { intros i m Hm. rewrite Hs in Hm. eapply numbered_from_lookup in Hm; [exact Hm|lia|]. rewrite length_drop. lia. }
  assert (Hlen : (length (ss_sent st) <= length l)%nat).
  { pose proof (Driver.drive_progress _ _ (ss_sent st) msgs [] (tip + 1 - g) _ _ Hok (fun m Hm => Hm) Hi0 Hr0 Hdrive Hsub Hnum) as Hp.
    rewrite Hn0 in Hp. lia. }
  split.
  - exists (drop (length (ss_sent st)) (map fst l)). rewrite <- Hs. rewrite <- (take_drop (length (ss_sent st)) (map fst l)) at 1. f_equal.
    eapply chain_prefix; [exact Hc|done|done|]. intros a m Ha Hm. apply Hag; [|done]. rewrite List.Forall_forall in Hfrom. by apply Hfrom.
  - intros i a Ha. pose proof (Payload.chain_numbers fuel builder resources tree_accepts answer canonical t g (tip + 1 - g) l Hc) as Hnums.
    assert (Hall : Forall (fun a => Driver.sh_number (Driver.eb_header (snd a)) = g + fm_sequence_number (fst a)) l).
    { apply Hnums; fold tip; [lia|lia|]. lia. }
    rewrite Forall_lookup in Hall. rewrite (Hall _ _ Ha), (chain_sequence _ _ _ _ _ Hc Ha). lia.
Qed.
End Node.

(** ** A node above block 40

    The genesis is 39, the tip 40 and the logged boundary at L2 block 39. Two batches are on L1, at
    blocks 7 and 12; they derive four messages, the first of which is block 40 already. *)

Module SampleNode.
Import ProductionSpec.SampleRevm.

Definition event_data (after : Z) : bytes := concat (be_encode 32 <$> [0; after; 10; 20; 5; 9; 1]).

Definition batch_log (n after block : Z) : L1Reader.Log := {|
  L1Reader.log_address := SequencerInboxReader.SEQUENCER_INBOX_MAINNET; L1Reader.log_topics := [1; n; 0; 0];
  L1Reader.log_data := event_data after; log_block_number := Some block; log_index := Some 0; log_transaction_hash := Some n
|}.

Definition payload_log : L1Reader.Log := {|
  L1Reader.log_address := SequencerInboxReader.SEQUENCER_INBOX_MAINNET; L1Reader.log_topics := [2];
  L1Reader.log_data := be_encode 32 32 ++ be_encode 32 4 ++ sample_payload; log_block_number := None; log_index := None;
  log_transaction_hash := None
|}.

(** Payloads are in separate events. *)
Definition l1 : L1Reader.Provider := {|
  call_batch_count _ b := Ok (be_encode 32 (sample_count b));
  get_logs f :=
    if f_topic0 f =? 1 then
      Ok (List.filter (fun log => within (f_from_block f) (f_to_block f) (default 0 (log_block_number log))) [batch_log 0 1 7; batch_log 1 2 12])
    else Ok [payload_log];
  get_transaction_by_hash _ := Ok None;
  get_block_timestamp _ := Ok None
|}.

#[local] Existing Instances Reference.sol_abi Reference.rlp Reference.brotli Reference.base64 Beacon.sample_api sample_fetch open_channel l1
  SnapshotFullSafety.Sample.codec HeadImportSafety.SampleImport.hex_codec Feed.sample_urls DelayedReader.in_order
  TrustedL2.Sample.parse_full_hash Launch.SampleNode.chains Payload.SamplePayload.header_eq_dec Payload.SamplePayload.digest_laws.

#[local] Instance host : Launch.NodeHost := {|
  Launch.incident _ _ := false; Launch.read_file _ := Err "no file"%string; Launch.read_lines _ := Err "no file"%string;
  Launch.snapshot_manifests _ := (None, {| HeadImport.pd_mdbx := false; HeadImport.pd_manifest := None |});
  Launch.resolve_datadir d _ := default "default"%string d; Launch.url_ok _ := true; Launch.l1_block_number := Ok 30;
  Launch.parse_init_message_from_body _ _ := Err "no message"%string; Launch.trusted_client _ := Some tt;
  Launch.trusted_chain_id := Err "no RPC"%string; Launch.bind_ipc _ := Ok tt; Launch.launch_node := Ok tt; Launch.last_block_number := Ok 40;
  Launch.sealed_header _ := Ok None;
  Launch.resume_file _ := Some [{| l1_block := 5; delayed_count := 0; l2_block := 39 |}; {| l1_block := 9; delayed_count := 1; l2_block := 41 |}]
|}.

Definition args : Launch.ArbNodeArgs := {|
  Launch.na_no_fsync := false; Launch.na_chain_id := 42161; Launch.na_chain_info := None; Launch.na_genesis_json := None;
  Launch.na_chain_config := None; Launch.na_initial_l1_base_fee := None; Launch.na_replay_feed := None; Launch.na_mev_tx_log_ipc := None;
  Launch.na_canonical_l2_rpc := None; Launch.na_feed_urls := []; Launch.na_feed_connections := None; Launch.na_feed_sources := [];
  Launch.na_no_l1_derive := false; Launch.na_l1_rpc := Some "l1"%string; Launch.na_l1_beacon := None; Launch.na_l1_start_block := None;
  Launch.na_l1_end_block := None; Launch.na_l1_prefetch := 2; Launch.na_l1_getlogs_range := None; Launch.na_l1_start_delayed := None;
  Launch.na_l1_sequencer_inbox := None; Launch.na_l1_bridge := None; Launch.na_l1_inbox_deploy_block := None;
  Launch.na_l2_genesis_block := Some 39; Launch.na_snapshot_head := None
|}.

Definition bootstrap : Launch.NodeBootstrap := {|
  Launch.nb_chain_spec := Genesis.arb_chain_spec_with_header 42161 [] 0; Launch.nb_chain_id := 42161;
  Launch.nb_rollup := {| Launch.rd_sequencer_inbox := SequencerInboxReader.SEQUENCER_INBOX_MAINNET; Launch.rd_bridge := 5;
                         Launch.rd_deployed_at := 0; Launch.rd_l2_genesis_block := 39 |};
  Launch.nb_snapshot_delayed := None; Launch.nb_genesis_delayed := None
|}.

Definition cfg : L1SyncConfig :=
  Launch.sync_config args (Launch.nb_rollup bootstrap) 5 0 39 40.

Lemma planned : snd (Launch.plan_l1_sync args bootstrap "data") = Ok (Some cfg).
Proof. reflexivity. Qed.

Definition reader : SequencerInboxReader.t := SequencerInboxReader.new (cfg_sequencer_inbox cfg).

Definition initial : SyncState := state_of (sync_init cfg reader None) blank_state.
Definition stepped (st : SyncState) : SyncState := state_of (sync_step cfg reader None (Some 30) true (Ok 40) st) blank_state.
Definition state : SyncState := stepped initial.

Definition sent : list BroadcastFeedMessage := Eval vm_compute in ss_sent state.

Lemma state_sent : ss_sent state = sent.
Proof. vm_compute. reflexivity. Qed.

Lemma state_reachable : reachable cfg reader None None state.
Proof.
  eapply (reach_step _ _ _ _ (Some 30) true (Ok 40)).
  - apply reach_init with (st := initial). vm_compute. reflexivity.
  - intros h [= <-]. lia.
  - vm_compute. reflexivity.
Qed.

(** A relay is ahead with message 5, and also has message 3. *)
Definition messages : list (BroadcastFeedMessage * bool) :=
  match sent with
  | [a; b; c] => [(message 5 1000, false); (a, false); (b, false); (b, true); (c, false)]
  | _ => []
  end.

(** The headers of the blocks, hashed by their positions. *)
Definition chain_of (msgs : list BroadcastFeedMessage) : list BlockExecutor.Header :=
  rev (fst (fold_left (fun '(known, parent) m =>
    let h := Payload.SamplePayload.child {| BlockExecutor.sealed_header := parent; BlockExecutor.sealed_hash := Z.of_nat (length known) |} m in
    (h :: known, h)) msgs ([genesis_header], genesis_header))).

Definition known : list BlockExecutor.Header := Eval vm_compute in chain_of sent.

Definition hash_of (h : BlockExecutor.Header) : Z :=
  match list_find (fun k => k = h) known with
  | Some (i, _) => Z.of_nat i + 1
  | None => 99
  end.

#[local] Instance provider : Payload.Provider (AR := revm) := {|
  Payload.state_by_block_hash _ _ := Ok 600;
  Payload.latest_header := Ok None;
  Payload.sealed_header_by_hash hash :=
    Ok ((fun h => {| BlockExecutor.sealed_header := h; BlockExecutor.sealed_hash := hash |}) <$> known !! Z.to_nat (hash - 1));
  Payload.header_hash := hash_of;
  Payload.SavedCache := Z; Payload.executed_block_hash c := c; Payload.cached_state_provider s _ := s
|}.

#[local] Instance provider_laws : Payload.ProviderLaws (AR := revm) (PR := provider).
Proof.
  split; cbn [Payload.sealed_header_by_hash Payload.header_hash provider].
  - intros h p. unfold hash_of. destruct (list_find _ known) as [[i k]|] eqn:Hf.
    + apply list_find_Some in Hf as (Hk & <- & _). replace (Z.to_nat (Z.of_nat i + 1 - 1)) with i by lia. rewrite Hk. intros [= <-]. done.
    + intros [=].
  - intros h. unfold hash_of. destruct (list_find _ known) as [[i k]|]; lia.
Qed.

Abbreviation resources := (fun _ : Z => {| Payload.br_execution_cache := None; Payload.br_state_root_handle := None |}).

Abbreviation driven := (Driver.drive (EN := node_engine (AR := revm) 20 Payload.SamplePayload.builder1 resources
  (fun _ => true) (fun _ => Ok tt) (fun _ => true)) messages (Driver.spawned (Payload.seal (PR := provider) genesis_header) 39)).

Lemma node_messages_ok : Driver.sequences_ok messages.
Proof. intros m [<-|[<-|[<-|[<-|[<-|[]]]]]]; (split; [discriminate|reflexivity]). Qed.

Lemma sent_in_order : sublist (ss_sent state) (map fst messages).
Proof. rewrite state_sent. repeat constructor. Qed.

Lemma relays_agree (m m' : BroadcastFeedMessage) :
  In m (map fst messages) -> In m' (ss_sent state) -> fm_sequence_number m = fm_sequence_number m' -> m = m'.
Proof.
  rewrite state_sent. intros [<-|[<-|[<-|[<-|[<-|[]]]]]] [<-|[<-|[<-|[]]]] H; first [reflexivity|discriminate H].
Qed.

Lemma node_driven_ok : match driven with Ok d => length (Driver.to_tree d) | Err _ => O end = 12%nat.
Proof. vm_compute. reflexivity. Qed.

(** Messages 2, 3 and 4 from L1, and the relay's 5, become blocks 41 to 44. *)
Lemma node_extends_tip_witness :
  map fm_sequence_number (ss_sent state) = [2; 3; 4] /\
  exists d derived l, driven = Ok d /\ derives cfg reader None (ss_consumed state) derived (ss_delayed state) /\
    Driver.tip d = Driver.chain_tip (Payload.seal (PR := provider) genesis_header) l /\
    Payload.linked (PR := provider) genesis_header l.
Proof.
  split; [rewrite state_sent; reflexivity|]. pose proof node_driven_ok as Hlen. destruct driven as [d|] eqn:Hd; [|discriminate Hlen].
  destruct (node_extends_tip (AR := revm) 20 Payload.SamplePayload.builder1 resources (fun _ => true) (fun _ => Ok tt) (fun _ => true)
    args bootstrap "data" cfg None None state genesis_header messages d planned eq_refl ltac:(split; discriminate)
    ltac:(intros cps cp [= <-] [<-|[<-|[]]]; discriminate) state_reachable sent_in_order relays_agree node_messages_ok Hd)
    as (derived & l & Hder & Htip & Hlink & _).
  exists d, derived, l. split; [reflexivity|]. split; [exact Hder|]. split; [exact Htip|exact Hlink].
Defined.
End SampleNode.
