(* ===== verification/Shutdown.v ===== *)
(** * Shutting the engine down

    [crates/arb-reth-engine/src/engine.rs] ([EngineTerminationGuard], [ArbEngineDriver::shutdown], the
    drop of a driver, the cleanup of a failed [spawn]), the guard of the persistence proxy in
    [storage_v2.rs], and the supervision of the driver in [crates/arb-reth-node/src/launcher.rs].

    The engine tree, the persistence proxy, the event drain and the payload service run beside the
    driver. Each ends when what it waits for is closed, and any of them may fail first; what the driver
    does is a list of operations, of which some block. The joint state moves by one step of either
    side at a time. *)

From stdpp Require Import base list numbers option relations sorting strings.
From S2P Require Import Prelude.

(** ** Errors *)

Inductive ArbEngineShutdownError :=
| TerminationChannelClosed
| TimedOut (timeout target_block : Z)
| PersistenceProxyThreadPanicked
| PersistenceProxyJoinCancelled
| EventDrainTaskPanicked
| EventDrainTaskCancelled
| PayloadServiceThreadPanicked
| PayloadServiceJoinCancelled
| Aggregate (primary : ArbEngineShutdownError) (secondary : list ArbEngineShutdownError).

Definition aggregate (errors : list ArbEngineShutdownError) : result ArbEngineShutdownError unit :=
  match errors with
  | [] => Ok tt
  | [error] => Err error
  | primary :: secondary => Err (Aggregate primary secondary)
  end.

Inductive ArbEngineSpawnError :=
| PayloadServiceThreadSpawn (source : string)
| PayloadServiceThreadSpawnAndPersistenceProxyPanic (source : string).

(** ** The parts of an engine *)

(** A tokio task can be cancelled; an OS thread ends or panics. *)
Inductive Ending := Clean | Panicked | Cancelled.

Inductive Thread := Absent | Running | Ended (how : Ending).

#[export] Instance Ending_eq_dec : EqDecision Ending.
Proof. solve_decision. Defined.
#[export] Instance Thread_eq_dec : EqDecision Thread.
Proof. solve_decision. Defined.

(** [EngineTerminationGuard]: whether termination was requested. Its clone of the sender lives as
    long as it does. *)
Record EngineTerminationGuard := { requested : bool }.

(** What is shared: whether [spawn] still holds the persistence handle, the two senders to the tree,
    the Terminate messages sent to it, its acknowledgement, the stop of the payload service, and the
    threads. *)
Record World := {
  w_persistence : bool;
  w_to_tree : bool;
  w_guard : option EngineTerminationGuard;
  w_terminates : nat;
  w_acked : bool;
  w_stopped : bool;
  w_tree : Thread; w_proxy : Thread; w_drain : Thread; w_payload : Thread
}.

Definition set_guard (g : option EngineTerminationGuard) (w : World) : World := {|
  w_persistence := w_persistence w; w_to_tree := w_to_tree w; w_guard := g; w_terminates := w_terminates w; w_acked := w_acked w;
  w_stopped := w_stopped w; w_tree := w_tree w; w_proxy := w_proxy w; w_drain := w_drain w; w_payload := w_payload w
|}.
Definition send_terminate (w : World) : World := {|
  w_persistence := w_persistence w; w_to_tree := w_to_tree w; w_guard := w_guard w; w_terminates := S (w_terminates w); w_acked := w_acked w;
  w_stopped := w_stopped w; w_tree := w_tree w; w_proxy := w_proxy w; w_drain := w_drain w; w_payload := w_payload w
|}.
Definition drop_to_tree (w : World) : World := {|
  w_persistence := w_persistence w; w_to_tree := false; w_guard := w_guard w; w_terminates := w_terminates w; w_acked := w_acked w;
  w_stopped := w_stopped w; w_tree := w_tree w; w_proxy := w_proxy w; w_drain := w_drain w; w_payload := w_payload w
|}.
Definition drop_persistence (w : World) : World := {|
  w_persistence := false; w_to_tree := w_to_tree w; w_guard := w_guard w; w_terminates := w_terminates w; w_acked := w_acked w;
  w_stopped := w_stopped w; w_tree := w_tree w; w_proxy := w_proxy w; w_drain := w_drain w; w_payload := w_payload w
|}.
Definition stop_payload (w : World) : World := {|
  w_persistence := w_persistence w; w_to_tree := w_to_tree w; w_guard := w_guard w; w_terminates := w_terminates w; w_acked := w_acked w;
  w_stopped := true; w_tree := w_tree w; w_proxy := w_proxy w; w_drain := w_drain w; w_payload := w_payload w
|}.
Definition set_tree (t : Thread) (acked : bool) (w : World) : World := {|
  w_persistence := w_persistence w; w_to_tree := w_to_tree w; w_guard := w_guard w; w_terminates := w_terminates w; w_acked := acked;
  w_stopped := w_stopped w; w_tree := t; w_proxy := w_proxy w; w_drain := w_drain w; w_payload := w_payload w
|}.
Definition set_proxy (t : Thread) (w : World) : World := {|
  w_persistence := w_persistence w; w_to_tree := w_to_tree w; w_guard := w_guard w; w_terminates := w_terminates w; w_acked := w_acked w;
  w_stopped := w_stopped w; w_tree := w_tree w; w_proxy := t; w_drain := w_drain w; w_payload := w_payload w
|}.
Definition set_drain (t : Thread) (w : World) : World := {|
  w_persistence := w_persistence w; w_to_tree := w_to_tree w; w_guard := w_guard w; w_terminates := w_terminates w; w_acked := w_acked w;
  w_stopped := w_stopped w; w_tree := w_tree w; w_proxy := w_proxy w; w_drain := t; w_payload := w_payload w
|}.
Definition set_payload (t : Thread) (w : World) : World := {|
  w_persistence := w_persistence w; w_to_tree := w_to_tree w; w_guard := w_guard w; w_terminates := w_terminates w; w_acked := w_acked w;
  w_stopped := w_stopped w; w_tree := w_tree w; w_proxy := w_proxy w; w_drain := w_drain w; w_payload := t
|}.

(** ** The termination request *)

(** A send reaches the tree as long as it runs. *)
Definition request (w : World) : result ArbEngineShutdownError unit * World :=
  match w_guard w with
  | None => (Err TerminationChannelClosed, w)
  | Some guard =>
      if requested guard then (Err TerminationChannelClosed, w)
      else
        let w := set_guard (Some {| requested := true |}) w in
        if bool_decide (w_tree w = Running) then (Ok tt, send_terminate w) else (Err TerminationChannelClosed, w)
  end.

(** [Drop for EngineTerminationGuard]: the request, whose result is ignored; the sender goes with it. *)
Definition drop_guard (w : World) : World := set_guard None (snd (request w)).

(** ** What the driver does *)

Inductive Op :=
| ShutdownEngineTree | AwaitAck | DropPayloadBuilder | StopPayload | DropToTree | DropGuard
| JoinProxy | JoinEventDrain | JoinPayload | DropPersistence | JoinProxyBlocking | DropProxyGuard.

#[export] Instance Op_eq_dec : EqDecision Op.
Proof. solve_decision. Defined.

Definition TREE_ACK_TIMEOUT : Z := 10.

(** [ArbEngineDriver::shutdown]. *)
Definition shutdown : list Op :=
  [ShutdownEngineTree; DropPayloadBuilder; StopPayload; DropToTree; DropGuard; JoinProxy; JoinEventDrain; JoinPayload].

(** A driver that is dropped without it: its fields in the order of their declaration. The join
    handles of the payload service and of the drain detach; dropping the stop sender stops the
    service. *)
Definition drop_driver : list Op := [DropToTree; DropGuard; DropProxyGuard; DropPayloadBuilder; StopPayload].

(** [ArbEngineDriver::spawn] after the thread of the payload service could not be spawned. *)
Definition spawn_cleanup : list Op := [DropPersistence; JoinProxyBlocking].

(** [handle.join()]: [None] while the thread runs. *)
Definition join (t : Thread) (panicked cancelled : ArbEngineShutdownError) : option (list ArbEngineShutdownError) :=
  match t with
  | Running => None
  | Absent | Ended Clean => Some []
  | Ended Panicked => Some [panicked]
  | Ended Cancelled => Some [cancelled]
  end.

(** One operation: what it leaves to do, the errors it adds and the state; [None] while it waits. *)
Definition run_op (op : Op) (w : World) : option (list Op * list ArbEngineShutdownError * World) :=
  match op with
  | ShutdownEngineTree =>
      match request w with
      | (Ok _, w) => Some ([AwaitAck], [], w)
      | (Err error, w) => Some ([], [error], w)
      end
  | AwaitAck =>
      if w_acked w then Some ([], [], w)
      else if bool_decide (w_tree w = Running) then None
      else Some ([], [TerminationChannelClosed], w)
  | DropPayloadBuilder => Some ([], [], w)
  | StopPayload => Some ([], [], stop_payload w)
  | DropToTree => Some ([], [], drop_to_tree w)
  | DropGuard => Some ([], [], drop_guard w)
  | JoinProxy =>
      (fun es => ([], es, w)) <$> join (w_proxy w) PersistenceProxyThreadPanicked PersistenceProxyJoinCancelled
  | JoinEventDrain => (fun es => ([], es, w)) <$> join (w_drain w) EventDrainTaskPanicked EventDrainTaskCancelled
  | JoinPayload =>
      (fun es => ([], es, w)) <$> join (w_payload w) PayloadServiceThreadPanicked PayloadServiceJoinCancelled
  | DropPersistence => Some ([], [], drop_persistence w)
  | JoinProxyBlocking =>
      (fun es => ([], es, w)) <$> join (w_proxy w) PersistenceProxyThreadPanicked PersistenceProxyJoinCancelled
  | DropProxyGuard => (fun _ => ([], [], w)) <$> join (w_proxy w) PersistenceProxyThreadPanicked PersistenceProxyJoinCancelled
  end.

(** Waits that end otherwise: the deadline of the acknowledgement, and a blocking join whose task is
    cancelled. *)
Definition abandon (tip : Z) (op : Op) : option ArbEngineShutdownError :=
  match op with
  | AwaitAck => Some (TimedOut TREE_ACK_TIMEOUT tip)
  | JoinProxy => Some PersistenceProxyJoinCancelled
  | JoinPayload => Some PayloadServiceJoinCancelled
  | _ => None
  end.

Definition cleanup_error (source : string) (errors : list ArbEngineShutdownError) : ArbEngineSpawnError :=
  match errors with
  | [] => PayloadServiceThreadSpawn source
  | _ => PayloadServiceThreadSpawnAndPersistenceProxyPanic source
  end.

(** ** Supervision *)

(** How the drive loop ended: [catch_unwind] turns a panic into a value. *)
Inductive Drive := Returned (r : result string unit) | Unwound.

Definition supervise_driver (drive : Drive) (shutdown : result string unit) : result string unit :=
  let res := match drive with Returned r => r | Unwound => Err "arb engine driver task panicked"%string end in
  match res, shutdown with
  | Ok _, Ok _ => Ok tt
  | Err drive, Ok _ => Err drive
  | Ok _, Err shutdown => Err shutdown
  | Err drive, Err shutdown => Err ("engine drive failed: " +:+ drive +:+ "; shutdown also failed: " +:+ shutdown)
  end.

(** ** The other threads *)

(** A sender to the tree is alive. *)
Definition connected (w : World) : bool := w_to_tree w || bool_decide (is_Some (w_guard w)).

(** What must happen: the tree flushes, acknowledges and ends on a Terminate, and ends when nobody can
    send to it; the proxy ends when no handle to it is left, the tree's included; the drain ends with
    the tree; the payload service ends when it is stopped. *)
Inductive ends : World -> World -> Prop :=
| tree_terminates w : w_tree w = Running -> w_terminates w <> O -> ends w (set_tree (Ended Clean) true w)
| tree_disconnected w : w_tree w = Running -> w_terminates w = O -> connected w = false -> ends w (set_tree (Ended Clean) (w_acked w) w)
| proxy_released w : w_proxy w = Running -> w_persistence w = false -> w_tree w <> Running -> ends w (set_proxy (Ended Clean) w)
| drain_closed w : w_drain w = Running -> w_tree w <> Running -> ends w (set_drain (Ended Clean) w)
| payload_stopped w : w_payload w = Running -> w_stopped w = true -> ends w (set_payload (Ended Clean) w).

(** What may happen: panics, a proxy that gives up on its delegate, a payload service that is done, a
    drain that is cancelled. *)
Inductive fails : World -> World -> Prop :=
| tree_panics w : w_tree w = Running -> fails w (set_tree (Ended Panicked) (w_acked w) w)
| proxy_gives_up w : w_proxy w = Running -> fails w (set_proxy (Ended Clean) w)
| proxy_panics w : w_proxy w = Running -> fails w (set_proxy (Ended Panicked) w)
| drain_panics w : w_drain w = Running -> fails w (set_drain (Ended Panicked) w)
| drain_cancelled w : w_drain w = Running -> fails w (set_drain (Ended Cancelled) w)
| payload_done w : w_payload w = Running -> fails w (set_payload (Ended Clean) w)
| payload_panics w : w_payload w = Running -> fails w (set_payload (Ended Panicked) w).

Record Config := { c_ops : list Op; c_errors : list ArbEngineShutdownError; c_world : World }.

(** Steps that are owed, and all steps. *)
Inductive owed : Config -> Config -> Prop :=
| owed_op op ops errors w more es w' : run_op op w = Some (more, es, w') ->
    owed {| c_ops := op :: ops; c_errors := errors; c_world := w |} {| c_ops := more ++ ops; c_errors := errors ++ es; c_world := w' |}
| owed_end ops errors w w' : ends w w' ->
    owed {| c_ops := ops; c_errors := errors; c_world := w |} {| c_ops := ops; c_errors := errors; c_world := w' |}.

Inductive step (tip : Z) : Config -> Config -> Prop :=
| step_owed c c' : owed c c' -> step tip c c'
| step_fails ops errors w w' : fails w w' ->
    step tip {| c_ops := ops; c_errors := errors; c_world := w |} {| c_ops := ops; c_errors := errors; c_world := w' |}
| step_abandon op ops errors w e : abandon tip op = Some e ->
    step tip {| c_ops := op :: ops; c_errors := errors; c_world := w |} {| c_ops := ops; c_errors := errors ++ [e]; c_world := w |}.

(** ** Every run ends *)

Definition op_cost (op : Op) : nat := match op with ShutdownEngineTree => 2 | _ => 1 end.
Definition alive (t : Thread) : nat := match t with Running => 1 | _ => 0 end.

Definition measure (c : Config) : nat :=
  sum_list_with op_cost (c_ops c) + alive (w_tree (c_world c)) + alive (w_proxy (c_world c)) + alive (w_drain (c_world c)) +
  alive (w_payload (c_world c)).

(** The threads are as they were. *)
Definition same_threads (w w' : World) : Prop :=
  w_tree w' = w_tree w /\ w_proxy w' = w_proxy w /\ w_drain w' = w_drain w /\ w_payload w' = w_payload w.

Lemma request_threads (w : World) : same_threads w (snd (request w)).
Proof. unfold request. repeat case_match; done. Qed.

Lemma run_op_threads (op : Op) (w w' : World) (more : list Op) (es : list ArbEngineShutdownError) :
  run_op op w = Some (more, es, w') -> same_threads w w' /\ (sum_list_with op_cost more < op_cost op)%nat.
Proof.
  pose proof (request_threads w) as Hr. unfold drop_guard. destruct op; cbn [run_op op_cost]; intros H;
    try (apply fmap_Some in H as (? & _ & [= -> -> ->]); split; [done|cbn; lia]); try (injection H as <- <- <-; split; [done|cbn; lia]).
  - destruct (request w) as [[u|e] w1]; injection H as <- <- <-; (split; [done|cbn; lia]).
  - repeat case_match; try done; injection H as <- <- <-; (split; [done|cbn; lia]).
Qed.

Lemma sum_costs_app (l k : list Op) : sum_list_with op_cost (l ++ k) = (sum_list_with op_cost l + sum_list_with op_cost k)%nat.
Proof. induction l as [|x l IH]; cbn [app sum_list_with]; [done|]. rewrite IH. lia. Qed.

Lemma step_measure (tip : Z) (c c' : Config) : step tip c c' -> (measure c' < measure c)%nat.
Proof.
  unfold measure. intros [? ? [op ops errors w more es w' H|ops errors w w' H]|ops errors w w' H|op ops errors w e H]; cbn [c_ops c_world].
  - apply run_op_threads in H as [(-> & -> & -> & ->) Hcost]. rewrite sum_costs_app. cbn [sum_list_with]. lia.
  - destruct H as [w H|w H|w H|w H|w H]; cbn; rewrite H; cbn; lia.
  - destruct H as [w H|w H|w H|w H|w H|w H|w H]; cbn; rewrite H; cbn; lia.
  - cbn [sum_list_with]. destruct op; cbn; lia.
Qed.

Lemma steps_bounded (tip : Z) (n : nat) (c c' : Config) : nsteps (step tip) n c c' -> (n + measure c' <= measure c)%nat.
Proof. induction 1 as [|n c1 c2 c3 H _ IH]; [lia|]. apply step_measure in H. lia. Qed.

(** ** No wait is forever *)

(** The tree is gone or will go. *)
Definition tree_quits (w : World) : bool :=
  negb (bool_decide (w_tree w = Running)) || negb (Nat.eqb (w_terminates w) 0) || negb (connected w).

(** Everything that an operation waits for was released before it, and the guard is there when it is used. *)
Fixpoint releases (guarded stopped quits dropped : bool) (ops : list Op) : bool :=
  match ops with
  | [] => true
  | StopPayload :: ops => releases guarded true quits dropped ops
  | ShutdownEngineTree :: ops => guarded && releases guarded stopped true dropped ops
  | DropGuard :: ops => guarded && releases false stopped true dropped ops
  | DropPersistence :: ops => releases guarded stopped quits true ops
  | AwaitAck :: ops => quits && releases guarded stopped quits dropped ops
  | (JoinProxy | JoinProxyBlocking | DropProxyGuard) :: ops => quits && dropped && releases guarded stopped quits dropped ops
  | JoinEventDrain :: ops => quits && releases guarded stopped quits dropped ops
  | JoinPayload :: ops => stopped && releases guarded stopped quits dropped ops
  | (DropPayloadBuilder | DropToTree) :: ops => releases guarded stopped quits dropped ops
  end.

Lemma releases_mono (ops : list Op) (g s q d q' : bool) :
  (q = true -> q' = true) -> releases g s q d ops = true -> releases g s q' d ops = true.
Proof.
  revert g s q d q'. induction ops as [|op ops IH]; [done|]. intros g s q d q' Hq.
  destruct op; cbn [releases]; rewrite ?andb_true_iff; intuition eauto.
Qed.

(** A request that was made reached the tree, or found it gone. *)
Definition request_kept (w : World) : Prop :=
  w_guard w = Some {| requested := true |} -> w_terminates w <> O \/ w_tree w <> Running.

Definition released (ops : list Op) (w : World) : Prop :=
  releases (bool_decide (is_Some (w_guard w))) (w_stopped w) (tree_quits w) (negb (w_persistence w)) ops = true /\ request_kept w.

(** Termination was requested, by now or before. *)
Lemma request_quits (w : World) :
  request_kept w -> is_Some (w_guard w) ->
  let w' := snd (request w) in
  request_kept w' /\ w_guard w' = Some {| requested := true |} /\ (w_terminates w' <> O \/ w_tree w' <> Running) /\
  w_stopped w' = w_stopped w /\ w_persistence w' = w_persistence w.
Proof.
  intros Hk [[[]] Hg]; unfold request; rewrite Hg; cbn [requested].
  - by split_and!; auto.
  - case_bool_decide as Ht; unfold request_kept; cbn; split_and!; try done; auto.
Qed.

Lemma quits_true (w : World) : w_terminates w <> O \/ w_tree w <> Running -> tree_quits w = true.
Proof.
  unfold tree_quits. intros [H|H]; [|by rewrite bool_decide_eq_false_2].
  destruct (w_terminates w); [done|]. cbn. by rewrite orb_true_r.
Qed.

(** The other threads take nothing back. *)
Lemma threads_released (ops : list Op) (w w' : World) : ends w w' \/ fails w w' -> released ops w -> released ops w'.
Proof.
  intros Hw [Hr Hk].
  assert (Hq : tree_quits w = true -> tree_quits w' = true) by (destruct Hw as [[]|[]]; first [done|intros _; apply quits_true; by right]).
  assert (Hs : w_stopped w' = w_stopped w /\ w_persistence w' = w_persistence w /\ w_guard w' = w_guard w) by (by destruct Hw as [[]|[]]).
  destruct Hs as (E1 & E2 & E3). unfold released. rewrite E1, E2, E3. split; [by eapply releases_mono|].
  unfold request_kept in *. rewrite E3. intros Hg. destruct (Hk Hg) as [Ht|Ht]; [left|right]; revert Ht; destruct Hw as [[]|[]]; cbn; congruence.
Qed.

Lemma run_op_released (op : Op) (ops more : list Op) (es : list ArbEngineShutdownError) (w w' : World) :
  run_op op w = Some (more, es, w') -> released (op :: ops) w -> released (more ++ ops) w'.
Proof.
  intros H [Hr Hk]. assert (Hq : tree_quits w = true -> tree_quits (drop_to_tree w) = true).
  { unfold tree_quits, connected. cbn. rewrite !orb_true_iff. destruct (w_to_tree w); [|done]. cbn. intuition discriminate. }
  unfold released. destruct op; cbn [run_op releases] in *; rewrite ?andb_true_iff in Hr;
    try (apply fmap_Some in H as (? & _ & [= -> -> ->]); destruct_and?; done); try (injection H as <- <- <-; done).
  - destruct Hr as [Hg Hr]. destruct (request_quits w Hk) as (K1 & K2 & K3 & K4 & K5); [by eapply bool_decide_eq_true_1|].
    apply quits_true in K3. rewrite Hg in Hr.
    destruct (request w) as [[u|e] w1]; injection H as <- <- <-; cbn [snd app releases] in *; rewrite K2, K3, K4, K5; done.
  - destruct Hr as [_ Hr]. repeat case_match; try done; by injection H as <- <- <-.
  - injection H as <- <- <-. split; [|done]. cbn [app]. by eapply releases_mono.
  - destruct Hr as [Hg Hr]. injection H as <- <- <-.
    destruct (request_quits w Hk) as (K1 & K2 & K3 & K4 & K5); [by eapply bool_decide_eq_true_1|]. unfold drop_guard.
    assert (Hquits : tree_quits (set_guard None (snd (request w))) = true) by (by apply quits_true).
    cbn [app set_guard w_stopped w_persistence w_guard]. rewrite Hquits, K4, K5. done.
Qed.

Lemma step_released (tip : Z) (c c' : Config) : step tip c c' -> released (c_ops c) (c_world c) -> released (c_ops c') (c_world c').
Proof.
  intros [? ? [op ops errors w more es w' H|ops errors w w' H]|ops errors w w' H|op ops errors w e H]; cbn [c_ops c_world].
  - by eapply run_op_released.
  - apply threads_released. by left.
  - apply threads_released. by right.
  - intros [Hr Hk]. split; [|done]. destruct op; try done; cbn [releases] in Hr; rewrite ?andb_true_iff in Hr; by destruct_and?.
Qed.

(** A thread that is waited for can end, or the tree before it. *)
Lemma tree_owed (w : World) : w_tree w = Running -> tree_quits w = true -> exists w', ends w w'.
Proof.
  intros Ht Hq. unfold tree_quits in Hq. rewrite bool_decide_eq_true_2 in Hq by done. cbn [negb orb] in Hq.
  destruct (w_terminates w) as [|n] eqn:E.
  - cbn in Hq. eexists. apply tree_disconnected; [done|done|]. by destruct (connected w).
  - eexists. apply tree_terminates; [done|]. by rewrite E.
Qed.

Lemma join_owed (t : Thread) (p c : ArbEngineShutdownError) : t <> Running -> is_Some (join t p c).
Proof. destruct t as [| |[]]; done. Qed.

(** Progress: as long as there is something to do, a step is owed. *)
Lemma progress (op : Op) (ops : list Op) (errors : list ArbEngineShutdownError) (w : World) :
  released (op :: ops) w -> exists c', owed {| c_ops := op :: ops; c_errors := errors; c_world := w |} c'.
Proof.
  intros [Hr Hk].
  assert (Hop : is_Some (run_op op w) -> exists c', owed {| c_ops := op :: ops; c_errors := errors; c_world := w |} c').
  { intros [[[more es] w'] H]. eexists. by apply owed_op. }
  assert (Hend : (exists w', ends w w') -> exists c', owed {| c_ops := op :: ops; c_errors := errors; c_world := w |} c').
  { intros [w' H]. eexists. by apply owed_end. }
  assert (Hproxy : tree_quits w = true -> w_persistence w = false -> w_proxy w = Running -> exists w', ends w w').
  { intros Hq Hd Hp. destruct (decide (w_tree w = Running)); [by apply tree_owed|]. eexists. by apply proxy_released. }
  destruct op; cbn [releases] in Hr; rewrite ?andb_true_iff, ?negb_true_iff in Hr; destruct_and?;
    try (apply Hop; cbn [run_op]; by eexists).
  - apply Hop. cbn [run_op]. destruct (request w) as [[]]; by eexists.
  - destruct (decide (w_tree w = Running)); [by apply Hend, tree_owed|]. apply Hop. cbn [run_op].
    destruct (w_acked w); [by eexists|]. rewrite bool_decide_eq_false_2 by done. by eexists.
  - destruct (decide (w_proxy w = Running)); [by apply Hend, Hproxy|]. apply Hop. cbn [run_op]. by apply fmap_is_Some, join_owed.
  - destruct (decide (w_drain w = Running)); cycle 1. { apply Hop. cbn [run_op]. by apply fmap_is_Some, join_owed. }
    apply Hend. destruct (decide (w_tree w = Running)); [by apply tree_owed|]. eexists. by apply drain_closed.
  - destruct (decide (w_payload w = Running)); cycle 1. { apply Hop. cbn [run_op]. by apply fmap_is_Some, join_owed. }
    apply Hend. eexists. by apply payload_stopped.
  - destruct (decide (w_proxy w = Running)); [by apply Hend, Hproxy|]. apply Hop. cbn [run_op]. by apply fmap_is_Some, join_owed.
  - destruct (decide (w_proxy w = Running)); [by apply Hend, Hproxy|]. apply Hop. cbn [run_op]. by apply fmap_is_Some, join_owed.
Qed.

Lemma steps_released (tip : Z) (n : nat) (c c' : Config) :
  nsteps (step tip) n c c' -> released (c_ops c) (c_world c) -> released (c_ops c') (c_world c').
Proof. induction 1 as [|n c1 c2 c3 H _ IH]; [done|]. intros Hr. by eapply IH, step_released. Qed.

(** ** What a shutdown has done *)

(** A thread that an operation joins: the operation is still to come, or the thread has ended, cleanly
    if there was no error, or the join was given up. *)
Definition joined (op : Op) (t : Thread) (given_up : option ArbEngineShutdownError) (ops : list Op) (errors : list ArbEngineShutdownError) : Prop :=
  op ∈ ops \/ (t <> Running /\ (errors = [] -> t = Ended Clean)) \/ (exists e, given_up = Some e /\ e ∈ errors).

Lemma joined_thread (op : Op) (t t' : Thread) (g : option ArbEngineShutdownError) (ops : list Op) (errors : list ArbEngineShutdownError) :
  t' = t \/ t = Running -> joined op t g ops errors -> joined op t' g ops errors.
Proof. intros [->| ->]; [done|]. intros [?|[[? _]|?]]; [by left|done|by right; right]. Qed.

Lemma joined_op (op op0 : Op) (t : Thread) (g : option ArbEngineShutdownError) (ops more : list Op) (errors es : list ArbEngineShutdownError) :
  (op = op0 -> joined op t g ops (errors ++ es)) -> joined op t g (op0 :: ops) errors -> joined op t g (more ++ ops) (errors ++ es).
Proof.
  intros H0 H. destruct (decide (op = op0)) as [Heq|Hne].
  - destruct (H0 Heq) as [Hin|H']; [left; apply elem_of_app; by right|by right].
  - destruct H as [Hin|[[Ht Hc]|(e & Hg & He)]].
    + left. apply elem_of_app. right. by apply elem_of_cons in Hin as [?|?].
    + right. left. split; [done|]. intros [-> _]%app_eq_nil. auto.
    + right. right. exists e. split; [done|]. apply elem_of_app. by left.
Qed.

(** A join that returned. *)
Lemma join_joined (op : Op) (t : Thread) (p c : ArbEngineShutdownError) (g : option ArbEngineShutdownError) (ops : list Op)
    (errors es : list ArbEngineShutdownError) :
  t <> Absent -> join t p c = Some es -> joined op t g ops (errors ++ es).
Proof.
  intros Ha H. right. left. split; [by intros ->|]. intros [_ ->]%app_eq_nil. destruct t as [| |[]]; done.
Qed.

(** The step that an error reports. *)
Definition rank (e : ArbEngineShutdownError) : nat :=
  match e with
  | TerminationChannelClosed | TimedOut _ _ => 0
  | PersistenceProxyThreadPanicked | PersistenceProxyJoinCancelled => 1
  | EventDrainTaskPanicked | EventDrainTaskCancelled => 2
  | PayloadServiceThreadPanicked | PayloadServiceJoinCancelled => 3
  | Aggregate _ _ => 4
  end.

Definition rank_op (op : Op) : option nat :=
  match op with
  | ShutdownEngineTree | AwaitAck => Some 0
  | JoinProxy => Some 1
  | JoinEventDrain => Some 2
  | JoinPayload => Some 3
  | _ => None
  end%nat.

Definition ranks (ops : list Op) (errors : list ArbEngineShutdownError) : list nat := map rank errors ++ omap rank_op ops.

(** At most one Terminate, and none before the request. *)
Definition once (w : World) : Prop :=
  (w_terminates w <= 1)%nat /\ (w_guard w = Some {| requested := false |} -> w_terminates w = O).

Record shut (ops : list Op) (errors : list ArbEngineShutdownError) (w : World) : Prop := {
  sh_here : w_proxy w <> Absent /\ w_drain w <> Absent /\ w_payload w <> Absent;
  sh_ack : errors = [] -> ShutdownEngineTree ∈ ops \/ AwaitAck ∈ ops \/ w_acked w = true;
  sh_tree : w_acked w = true -> w_tree w = Ended Clean;
  sh_to_tree : DropToTree ∈ ops \/ w_to_tree w = false;
  sh_guard : DropGuard ∈ ops \/ w_guard w = None;
  sh_stopped : StopPayload ∈ ops \/ w_stopped w = true;
  sh_persistence : w_persistence w = false;
  sh_proxy : joined JoinProxy (w_proxy w) (Some PersistenceProxyJoinCancelled) ops errors;
  sh_drain : joined JoinEventDrain (w_drain w) None ops errors;
  sh_payload : joined JoinPayload (w_payload w) (Some PayloadServiceJoinCancelled) ops errors;
  sh_once : once w;
  sh_ranks : StronglySorted lt (ranks ops errors);
  sh_ops : Forall (fun op => op ∉ [DropPersistence; JoinProxyBlocking; DropProxyGuard]) ops
}.

Lemma shut_threads (ops : list Op) (errors : list ArbEngineShutdownError) (w w' : World) :
  ends w w' \/ fails w w' -> shut ops errors w -> shut ops errors w'.
Proof.
  intros Hw Hs. revert Hs.
  destruct Hw as [[? Ht|? Ht|? Ht|? Ht|? Ht]|[? Ht|? Ht|? Ht|? Ht|? Ht|? Ht|? Ht]]; intros []; split; cbn; try done;
    try (eapply joined_thread; [right; exact Ht|done]); try (intros He; destruct (sh_ack0 He) as [?|[?|?]]; auto);
    try (by split_and!; destruct_and!); intros Ha; by rewrite (sh_tree0 Ha) in Ht.
Qed.

Lemma StronglySorted_remove {A : Type} (R : A -> A -> Prop) (l k : list A) (x : A) :
  StronglySorted R (l ++ x :: k) -> StronglySorted R (l ++ k).
Proof.
  induction l as [|y l IH]; cbn [app]; intros H; apply StronglySorted_inv in H as [H Hall]; [done|]. constructor; [auto|].
  apply Forall_app in Hall as [? [_ ?]%Forall_cons]. by apply Forall_app.
Qed.

(** An operation reports at most its own step. *)
Lemma ranks_op (op : Op) (ops : list Op) (errors es : list ArbEngineShutdownError) :
  es = [] \/ (exists e, es = [e] /\ rank_op op = Some (rank e)) ->
  StronglySorted lt (ranks (op :: ops) errors) -> StronglySorted lt (ranks ops (errors ++ es)).
Proof.
  unfold ranks. cbn [omap list_omap]. intros [->|(e & -> & He)].
  - rewrite app_nil_r. destruct (rank_op op); [apply StronglySorted_remove|done].
  - rewrite He, map_app, <- app_assoc. done.
Qed.

Lemma request_Err (w w' : World) (e : ArbEngineShutdownError) : request w = (Err e, w') -> e = TerminationChannelClosed.
Proof. unfold request. repeat case_match; by intros [=]. Qed.

Lemma run_op_ranks (op : Op) (ops more : list Op) (errors es : list ArbEngineShutdownError) (w w' : World) :
  op ∉ [DropPersistence; JoinProxyBlocking; DropProxyGuard] -> run_op op w = Some (more, es, w') ->
  StronglySorted lt (ranks (op :: ops) errors) -> StronglySorted lt (ranks (more ++ ops) (errors ++ es)).
Proof.
  intros Hop H. destruct op; cbn [run_op] in H; try (injection H as <- <- <-; by apply ranks_op; left);
    try (apply fmap_Some in H as (es' & Hj & [= -> -> ->]); apply ranks_op;
         repeat (case_match; try done); unfold join in Hj; repeat (case_match; try done); injection Hj as <-; eauto);
    try (exfalso; apply Hop; set_solver).
  - destruct (request w) as [[u|e] w1] eqn:E; injection H as <- <- <-; [by rewrite app_nil_r|].
    apply request_Err in E as ->. apply ranks_op. right. by eexists.
  - repeat (case_match; try done); injection H as <- <- <-; apply ranks_op; [by left|right; by eexists].
Qed.

Lemma request_fields (w : World) :
  let w' := snd (request w) in
  w_acked w' = w_acked w /\ w_to_tree w' = w_to_tree w /\ (w_guard w = None -> w_guard w' = None) /\ (once w -> once w') /\
  w_stopped w' = w_stopped w /\ w_persistence w' = w_persistence w.
Proof.
  unfold request, once. destruct (w_guard w) as [[[]]|] eqn:E; cbn [requested snd]; rewrite ?E; [by split_and!| |by split_and!].
  case_bool_decide; cbn; (split; [done|]; split; [done|]; split; [done|]; split; [|done]); intros [Hle H0]; rewrite ?H0 by done; (split; [lia|done]).
Qed.

Lemma run_op_fields (op : Op) (more : list Op) (es : list ArbEngineShutdownError) (w w' : World) :
  run_op op w = Some (more, es, w') ->
  w_acked w' = w_acked w /\ (w_to_tree w = false \/ op = DropToTree -> w_to_tree w' = false) /\
  (w_guard w = None \/ op = DropGuard -> w_guard w' = None) /\ (once w -> once w') /\
  (w_stopped w = true \/ op = StopPayload -> w_stopped w' = true) /\ (w_persistence w = false -> w_persistence w' = false).
Proof.
  pose proof (request_fields w) as (R1 & R2 & R3 & R4 & R5 & R6). intros H.
  destruct op; cbn [run_op] in H; try (apply fmap_Some in H as (? & _ & [= -> -> ->])); try (injection H as <- <- <-);
    try (by split_and!; try done; intros [?|?]).
  - destruct (request w) as [[u|e] w1]; injection H as <- <- <-; cbn [snd] in *;
      (split_and!; [done| |by intros [?|?]; auto|done| |congruence]); intros [?|?]; congruence.
  - repeat (case_match; try done); injection H as <- <- <-; (split_and!; [done|by intros [?|?]..|done|by intros [?|?]|done]).
  - split_and!; [done|cbn; intros [?|?]; congruence|done| |cbn; intros [?|?]; congruence|cbn; congruence].
    intros Ho. apply R4 in Ho as [? _]. by split.
Qed.

(** An operation that is not of a kind is still to come. *)
Lemma still (op op0 : Op) (ops more : list Op) : op <> op0 -> op ∈ op0 :: ops -> op ∈ more ++ ops.
Proof. intros Hne [?|?]%elem_of_cons; [done|]. apply elem_of_app. by right. Qed.

Lemma shut_op (op : Op) (ops more : list Op) (errors es : list ArbEngineShutdownError) (w w' : World) :
  run_op op w = Some (more, es, w') -> shut (op :: ops) errors w -> shut (more ++ ops) (errors ++ es) w'.
Proof.
  intros H [(Hp & Hd & Hl) Hack Htree Htt Hg Hst Hps Hjp Hjd Hjl Honce Hranks [Hop Hops]%Forall_cons].
  destruct (run_op_threads _ _ _ _ _ H) as [(E1 & E2 & E3 & E4) _]. destruct (run_op_fields _ _ _ _ _ H) as (F1 & F2 & F3 & F4 & F5 & F6).
  split; rewrite ?E1, ?E2, ?E3, ?E4, ?F1; try done.
  - intros [-> ->]%app_eq_nil. destruct (Hack eq_refl) as [Hin|[Hin|Ha]]; [| |by right; right].
    + destruct (decide (op = ShutdownEngineTree)) as [->|]; [|left; by eapply still]. cbn [run_op] in H.
      destruct (request w) as [[]]; [|done]. injection H as <- <-. right. left. by left.
    + destruct (decide (op = AwaitAck)) as [->|]; [|right; left; by eapply still]. cbn [run_op] in H.
      destruct (w_acked w); [by right; right|]. by case_bool_decide.
  - destruct (decide (op = DropToTree)) as [->|Hne]; [right; auto|]. destruct Htt as [?|?]; [left; by eapply still|right; auto].
  - destruct (decide (op = DropGuard)) as [->|Hne]; [right; auto|]. destruct Hg as [?|?]; [left; by eapply still|right; auto].
  - destruct (decide (op = StopPayload)) as [->|Hne]; [right; auto|]. destruct Hst as [?|?]; [left; by eapply still|right; auto].
  - auto.
  - eapply joined_op; [|exact Hjp]. intros <-. cbn [run_op] in H. apply fmap_Some in H as (? & Hj & [= -> -> ->]). by eapply join_joined.
  - eapply joined_op; [|exact Hjd]. intros <-. cbn [run_op] in H. apply fmap_Some in H as (? & Hj & [= -> -> ->]). by eapply join_joined.
  - eapply joined_op; [|exact Hjl]. intros <-. cbn [run_op] in H. apply fmap_Some in H as (? & Hj & [= -> -> ->]). by eapply join_joined.
  - by apply F4.
  - by eapply run_op_ranks.
  - apply Forall_app. split; [|done]. destruct op; cbn [run_op] in H; try (apply fmap_Some in H as (? & _ & [= -> -> ->]); done);
      try (by injection H as <- <- <-).
    + destruct (request w) as [[]]; injection H as <- <- <-; [|done]. apply Forall_singleton. set_solver.
    + repeat (case_match; try done); by injection H as <- <- <-.
Qed.

Lemma shut_abandon (tip : Z) (op : Op) (ops : list Op) (errors : list ArbEngineShutdownError) (e : ArbEngineShutdownError) (w : World) :
  abandon tip op = Some e -> shut (op :: ops) errors w -> shut ops (errors ++ [e]) w.
Proof.
  intros H [Hhere Hack Htree Htt Hg Hst Hps Hjp Hjd Hjl Honce Hranks [Hop Hops]%Forall_cons].
  assert (He : e ∈ errors ++ [e]) by (apply elem_of_app; right; by left).
  split; try done.
  - by intros [_ [=]]%app_eq_nil.
  - destruct Htt as [Hin|?]; [left|by right]. apply elem_of_cons in Hin as [<-|?]; [discriminate H|done].
  - destruct Hg as [Hin|?]; [left|by right]. apply elem_of_cons in Hin as [<-|?]; [discriminate H|done].
  - destruct Hst as [Hin|?]; [left|by right]. apply elem_of_cons in Hin as [<-|?]; [discriminate H|done].
  - eapply (joined_op _ op _ _ _ []); [|exact Hjp]. intros <-. injection H as <-. right. right. by eexists.
  - eapply (joined_op _ op _ _ _ []); [|exact Hjd]. intros <-. discriminate H.
  - eapply (joined_op _ op _ _ _ []); [|exact Hjl]. intros <-. injection H as <-. right. right. by eexists.
  - eapply ranks_op; [|exact Hranks]. right. exists e. split; [done|]. by destruct op; try discriminate H; injection H as <-.
Qed.

Lemma step_shut (tip : Z) (c c' : Config) :
  step tip c c' -> shut (c_ops c) (c_errors c) (c_world c) -> shut (c_ops c') (c_errors c') (c_world c').
Proof.
  intros [? ? [op ops errors w more es w' H|ops errors w w' H]|ops errors w w' H|op ops errors w e H]; cbn [c_ops c_errors c_world].
  - by apply shut_op.
  - apply shut_threads. by left.
  - apply shut_threads. by right.
  - by eapply shut_abandon.
Qed.

Lemma steps_shut (tip : Z) (n : nat) (c c' : Config) :
  nsteps (step tip) n c c' -> shut (c_ops c) (c_errors c) (c_world c) -> shut (c_ops c') (c_errors c') (c_world c').
Proof. induction 1 as [|n c1 c2 c3 H _ IH]; [done|]. intros Hr. by eapply IH, step_shut. Qed.

(** A driver that was spawned; its threads may have ended since. *)
Record spawned (w : World) : Prop := {
  sp_persistence : w_persistence w = false;
  sp_to_tree : w_to_tree w = true;
  sp_guard : w_guard w = Some {| requested := false |};
  sp_terminates : w_terminates w = O;
  sp_acked : w_acked w = false;
  sp_here : w_proxy w <> Absent /\ w_drain w <> Absent /\ w_payload w <> Absent
}.

Lemma spawned_shut (w : World) : spawned w -> shut shutdown [] w.
Proof.
  intros []. unfold shutdown. split; try done; try (left; set_solver); try (by rewrite sp_acked0).
  - unfold once. rewrite sp_terminates0. split; [lia|done].
  - repeat constructor; lia.
  - repeat constructor; set_solver.
Qed.

Lemma spawned_released (ops : list Op) (w : World) :
  releases true (w_stopped w) (tree_quits w) true ops = true -> spawned w -> released ops w.
Proof.
  intros Hr []. unfold released, request_kept. rewrite sp_persistence0, sp_guard0. split; [|done].
  by rewrite bool_decide_eq_true_2.
Qed.

Lemma alive_le (t : Thread) : (alive t <= 1)%nat.
Proof. destruct t; cbn; lia. Qed.

(** The end of a run is within the cost of its operations and four threads. *)
Lemma steps_within (tip : Z) (n : nat) (ops : list Op) (errors : list ArbEngineShutdownError) (w : World) (c : Config) :
  nsteps (step tip) n {| c_ops := ops; c_errors := errors; c_world := w |} c -> (n <= sum_list_with op_cost ops + 4)%nat.
Proof.
  intros H%steps_bounded. unfold measure in H. cbn [c_ops c_world] in H.
  pose proof (alive_le (w_tree w)); pose proof (alive_le (w_proxy w)); pose proof (alive_le (w_drain w)); pose proof (alive_le (w_payload w)). lia.
Qed.

(** C21. A shutdown always ends, and when it succeeds nothing is left behind. Whatever state the
    threads are in and whatever fails meanwhile, a run of [shutdown] has at most thirteen steps, and
    as long as it is not over some step is owed: no join waits for a thread that was not released.
    Termination is requested at most once. At the end both senders are dropped, the payload service
    is stopped and the drain has ended; the tree, which is not joined, the proxy and the payload
    service may still run, the latter two only when their join was cancelled, which is then reported,
    and the tree only when its acknowledgement was missed, which is reported too; each that still
    runs has been released and is owed its end. The errors are at most one per step, in order, and
    success means that the tree acknowledged, so its tail is durable, and that the tree, the proxy,
    the drain and the payload service all ended cleanly. *)
Theorem shutdown_completes (tip : Z) (n : nat) (w : World) (c : Config) :
  spawned w -> nsteps (step tip) n {| c_ops := shutdown; c_errors := []; c_world := w |} c ->
  (n <= 13)%nat /\ (w_terminates (c_world c) <= 1)%nat /\ (c_ops c = [] \/ exists c', owed c c') /\
  (c_ops c = [] ->
   w_to_tree (c_world c) = false /\ w_guard (c_world c) = None /\ w_stopped (c_world c) = true /\ w_drain (c_world c) <> Running /\
   (w_tree (c_world c) = Running -> c_errors c <> []) /\
   (w_proxy (c_world c) = Running -> PersistenceProxyJoinCancelled ∈ c_errors c) /\
   (w_payload (c_world c) = Running -> PayloadServiceJoinCancelled ∈ c_errors c) /\
   (w_tree (c_world c) = Running \/ w_proxy (c_world c) = Running \/ w_payload (c_world c) = Running -> exists w', ends (c_world c) w') /\
   StronglySorted lt (map rank (c_errors c)) /\
   (aggregate (c_errors c) = Ok tt ->
    w_acked (c_world c) = true /\ w_tree (c_world c) = Ended Clean /\ w_proxy (c_world c) = Ended Clean /\
    w_drain (c_world c) = Ended Clean /\ w_payload (c_world c) = Ended Clean)).
Proof.
  intros Hs H. pose proof (steps_within _ _ _ _ _ _ H) as Hn.
  pose proof (steps_released _ _ _ _ H (spawned_released shutdown w eq_refl Hs)) as Hr.
  pose proof (steps_shut _ _ _ _ H (spawned_shut w Hs)) as Hi. clear H. destruct c as [ops errors w']. cbn [c_ops c_errors c_world] in *.
  split; [exact Hn|]. split; [apply Hi|]. split.
  { destruct ops as [|op ops]; [by left|]. right. by apply progress. }
  intros ->. destruct Hi as [_ Hack Htree Htt Hg Hst Hps Hjp Hjd Hjl _ Hranks _]. unfold ranks in Hranks. rewrite app_nil_r in Hranks.
  assert (Hnil : forall (A : Type) (x : A), ~ x ∈ []) by (intros A x; apply not_elem_of_nil).
  destruct Htt as [?%Hnil|Htt]; [done|]. destruct Hg as [?%Hnil|Hg]; [done|]. destruct Hst as [?%Hnil|Hst]; [done|].
  assert (Hq : tree_quits w' = true) by (unfold tree_quits, connected; rewrite Htt, Hg; apply orb_true_r).
  split_and!; try done.
  - by destruct Hjd as [?%Hnil|[[? _]|(? & [=] & _)]].
  - intros Hrun ->. destruct (Hack eq_refl) as [?%Hnil|[?%Hnil|Hacked]]; [done..|]. by rewrite (Htree Hacked) in Hrun.
  - intros Hrun. by destruct Hjp as [?%Hnil|[[? _]|(e & [= <-] & ?)]].
  - intros Hrun. by destruct Hjl as [?%Hnil|[[? _]|(e & [= <-] & ?)]].
  - intros [Hrun|[Hrun|Hrun]]; [by apply tree_owed| |by eexists; apply payload_stopped].
    destruct (decide (w_tree w' = Running)); [by apply tree_owed|]. eexists. by apply proxy_released.
  - intros Ha. assert (errors = []) as -> by (by destruct errors as [|? []]).
    destruct (Hack eq_refl) as [?%Hnil|[?%Hnil|Hacked]]; [done..|].
    destruct Hjp as [?%Hnil|[[_ ?]|(? & _ & ?%Hnil)]]; [done| |done]. destruct Hjd as [?%Hnil|[[_ ?]|(? & _ & ?%Hnil)]]; [done| |done].
    destruct Hjl as [?%Hnil|[[_ ?]|(? & _ & ?%Hnil)]]; [done| |done]. split_and!; auto.
Qed.

(** A driver that is dropped on an error or a panic requests termination before it waits for the
    proxy, so the drop ends too. *)
Theorem dropped_driver_ends (tip : Z) (n : nat) (w : World) (c : Config) :
  spawned w -> nsteps (step tip) n {| c_ops := drop_driver; c_errors := []; c_world := w |} c ->
  (n <= 9)%nat /\ (c_ops c = [] \/ exists c', owed c c').
Proof.
  intros Hs H. pose proof (steps_within _ _ _ _ _ _ H) as Hn.
  pose proof (steps_released _ _ _ _ H (spawned_released drop_driver w eq_refl Hs)) as Hr. clear H.
  destruct c as [ops errors w']. cbn [c_ops c_world] in Hr. split; [exact Hn|]. destruct ops; [by left|]. right. by apply progress.
Qed.

(** A spawn that fails after the persistence proxy was started releases the handle before it joins. *)
Theorem failed_spawn_ends (tip : Z) (n : nat) (w : World) (c : Config) :
  w_tree w = Absent -> w_guard w = None -> nsteps (step tip) n {| c_ops := spawn_cleanup; c_errors := []; c_world := w |} c ->
  (n <= 6)%nat /\ (c_ops c = [] \/ exists c', owed c c').
Proof.
  intros Ht Hg H. pose proof (steps_within _ _ _ _ _ _ H) as Hn.
  assert (Hr0 : released spawn_cleanup w).
  { unfold released, request_kept. rewrite Hg. split; [|done]. cbn. rewrite quits_true; [done|]. right. by rewrite Ht. }
  pose proof (steps_released _ _ _ _ H Hr0) as Hr. clear H Hr0.
  destruct c as [ops errors w']. cbn [c_ops c_world] in Hr. split; [exact Hn|]. destruct ops; [by left|]. right. by apply progress.
Qed.

(** The supervisor reports success only when both the drive loop and the teardown succeeded, and a
    panic of the loop does not skip the teardown's result. *)
Lemma supervise_driver_Ok (drive : Drive) (down : result string unit) :
  supervise_driver drive down = Ok tt <-> drive = Returned (Ok tt) /\ down = Ok tt.
Proof.
  split; [|by intros [-> ->]]. unfold supervise_driver. destruct drive as [[[]|]|], down as [[]|]; done.
Qed.

(** ** A shutdown of a running engine *)

Module Sample.
Definition engine : World := {|
  w_persistence := false; w_to_tree := true; w_guard := Some {| requested := false |}; w_terminates := 0; w_acked := false;
  w_stopped := false; w_tree := Running; w_proxy := Running; w_drain := Running; w_payload := Running
|}.

Lemma engine_spawned : spawned engine.
Proof. by split. Qed.

Definition released_world (how : Ending) : World := {|
  w_persistence := false; w_to_tree := false; w_guard := None; w_terminates := 1; w_acked := true; w_stopped := true;
  w_tree := Ended Clean; w_proxy := Ended how; w_drain := Ended Clean; w_payload := Ended Clean
|}.

Ltac driver_step := eapply nsteps_l; [apply step_owed; eapply owed_op; reflexivity|cbn [app]].
Ltac thread_step rule := eapply nsteps_l; [apply step_owed, owed_end, rule; reflexivity || discriminate|].

(** Nothing fails: every step is owed, and there are thirteen. *)
Lemma full_run : nsteps (step 7) 13 {| c_ops := shutdown; c_errors := []; c_world := engine |}
  {| c_ops := []; c_errors := []; c_world := released_world Clean |}.
Proof.
  unfold shutdown. driver_step. thread_step tree_terminates. do 5 driver_step. thread_step proxy_released. driver_step.
  thread_step drain_closed. driver_step. thread_step payload_stopped. driver_step. apply nsteps_O.
Qed.

(** The proxy panics and the acknowledgement is late: both are reported, the late one first. *)
Lemma faulty_run : nsteps (step 7) 13 {| c_ops := shutdown; c_errors := []; c_world := engine |}
  {| c_ops := []; c_errors := [TimedOut 10 7; PersistenceProxyThreadPanicked]; c_world := released_world Panicked |}.
Proof.
  unfold shutdown. driver_step. eapply nsteps_l; [by eapply step_abandon|cbn [app]]. do 4 driver_step.
  thread_step tree_terminates. eapply nsteps_l; [apply step_fails, proxy_panics; reflexivity|]. driver_step.
  thread_step drain_closed. driver_step. thread_step payload_stopped. driver_step. apply nsteps_O.
Qed.

Lemma shutdown_completes_witness :
  aggregate [] = Ok tt /\ w_acked (released_world Clean) = true /\ w_payload (released_world Clean) = Ended Clean /\
  aggregate [TimedOut 10 7; PersistenceProxyThreadPanicked] = Err (Aggregate (TimedOut 10 7) [PersistenceProxyThreadPanicked]) /\
  w_drain (released_world Panicked) <> Running.
Proof.
  destruct (shutdown_completes 7 13 engine _ engine_spawned full_run) as (_ & _ & _ & Hend).
  destruct (Hend eq_refl) as (_ & _ & _ & _ & _ & _ & _ & _ & _ & Hok). destruct (Hok eq_refl) as (H1 & _ & _ & _ & H5).
  destruct (shutdown_completes 7 13 engine _ engine_spawned faulty_run) as (_ & _ & _ & Hend').
  destruct (Hend' eq_refl) as (_ & _ & _ & Hd & _). split; [reflexivity|]. split; [exact H1|]. split; [exact H5|]. split; [reflexivity|exact Hd].
Defined.
End Sample.
