(* ===== verification/Lanes.v ===== *)
(** * Feed lanes

    [crates/arb-reth-node/src/feed.rs]: the connections to the relays ([follow], [connect_source],
    [feed_request], the command-line form of a source) beside the coordinator of [Feed]. A lane is a
    state machine over what its connections deliver; the lanes, the bounded channel and the coordinator
    move one step at a time, in any order. The coordinator publishes its cursor before it hands the
    message over, as the code does. WebSocket handshakes, DNS, sockets and JSON are inputs. *)

From Stdlib Require Import Strings.Byte Strings.Ascii Strings.String.
From stdpp Require Import base gmap list numbers option pretty relations strings.
From S2P Require Import Prelude BTree Text Messages L1Decode L1Sync Feed.

(** ** Requests *)

Definition FEED_CLIENT_VERSION_HEADER : string := "arbitrum-feed-client-version".
Definition REQUESTED_SEQUENCE_HEADER : string := "arbitrum-requested-sequence-number".
Definition FEED_CLIENT_VERSION : string := "2".

(** The headers of a request by name. *)
Definition Request : Type := gmap string string.

(** tungstenite's [IntoClientRequest], serde_json's [Root] (a frame's optional list of messages), and
    the parser of IP addresses. *)
Class FeedCodec := {
  into_client_request : string -> option Request;
  root_from_str : string -> option (option (list BroadcastFeedMessage));
  ip_parse : string -> option IpAddr
}.

Inductive WebSocketError := Http (status : Z) | Io (what : string) | OtherError (what : string).

Definition TOO_MANY_REQUESTS : Z := 429.

Definition is_rate_limited (err : WebSocketError) : bool :=
  match err with
  | Http status => status =? TOO_MANY_REQUESTS
  | _ => false
  end.

(** [str::rsplit_once('=')] *)
Fixpoint rsplit_once (c : ascii) (s : string) : option (string * string) :=
  match s with
  | EmptyString => None
  | String x s' =>
      match rsplit_once c s' with
      | Some (a, b) => Some (String x a, b)
      | None => if Ascii.eqb x c then Some (EmptyString, s') else None
      end
  end.

Section Sources.
Context {FD : FeedCodec}.

(** [FromStr for FeedSourceSpec]: [IP=COUNT]. *)
Definition feed_source_spec (raw : string) : result string FeedSourceSpec :=
  let? '(ip, count) := ok_or "expected IP=COUNT"%string (rsplit_once "=" raw) in
  let? local_ip := ok_or "invalid source IP"%string (ip_parse ip) in
  let? connections := ok_or "invalid connection count"%string (parse_u64 count) in
  if connections =? 0 then Err "source connection count must be at least 1"%string
  else Ok {| fss_local_ip := local_ip; fss_connections := connections |}.

Definition feed_request (url : string) (requested_sequence : Z) : result string Request :=
  let? request := ok_or "build WebSocket request"%string (into_client_request url) in
  Ok (<[REQUESTED_SEQUENCE_HEADER := pretty (Z.to_N requested_sequence)]>
        (<[FEED_CLIENT_VERSION_HEADER := FEED_CLIENT_VERSION]> request)).
End Sources.

(** ** Frames *)

Inductive Frame := Text (text : string) | Binary (data : bytes) | Close | Control | Broken.

(** A byte in a range. *)
Definition in_range (lo hi : Z) (b : u8) : bool := (lo <=? b2z b) && (b2z b <=? hi).
Definition continuation (b : u8) : bool := in_range 0x80 0xbf b.

(** [core::str::from_utf8]: the well-formed sequences, without surrogates and overlong forms. *)
Fixpoint valid_utf8 (fuel : nat) (bs : bytes) : bool :=
  match fuel, bs with
  | _, [] => true
  | O, _ => false
  | S fuel, b0 :: bs =>
      if in_range 0 0x7f b0 then valid_utf8 fuel bs
      else
        match bs with
        | b1 :: bs =>
            if in_range 0xc2 0xdf b0 then continuation b1 && valid_utf8 fuel bs
            else
              match bs with
              | b2 :: bs =>
                  if in_range 0xe0 0xef b0 then
                    (if byte_eqb b0 xe0 then in_range 0xa0 0xbf b1 else if byte_eqb b0 xed then in_range 0x80 0x9f b1 else continuation b1)
                    && continuation b2 && valid_utf8 fuel bs
                  else
                    match bs with
                    | b3 :: bs =>
                        in_range 0xf0 0xf4 b0 &&
                        (if byte_eqb b0 xf0 then in_range 0x90 0xbf b1 else if byte_eqb b0 xf4 then in_range 0x80 0x8f b1 else continuation b1)
                        && continuation b2 && continuation b3 && valid_utf8 fuel bs
                    | [] => false
                    end
              | [] => false
              end
        | [] => false
        end
  end.

Definition from_utf8 (bs : bytes) : option string :=
  if valid_utf8 (length bs) bs then Some (string_of_list_byte bs) else None.

(** What a frame means to a lane. *)
Inductive FrameOutcome := Deliver (messages : list BroadcastFeedMessage) | Skip | Disconnect.

Definition read_text {FD : FeedCodec} (text : string) : FrameOutcome :=
  match root_from_str text with
  | Some messages => Deliver (default [] messages)
  | None => Skip
  end.

Definition read_frame {FD : FeedCodec} (frame : Frame) : FrameOutcome :=
  match frame with
  | Text text => read_text text
  | Binary data => match from_utf8 data with Some text => read_text text | None => Skip end
  | Close => Disconnect
  | Control => Skip
  | Broken => Disconnect
  end.

(** ** Connecting *)

Record SocketAddr := { sa_v4 : bool; sa_host : Z; sa_port : Z }.

(** What the network answers to one attempt: the direct handshake; DNS, the socket calls for a remote
    address (open, bind, connect, nodelay) and the handshake over the bound socket. A connection is the
    frames it will deliver. *)
Record Attempt := {
  at_connect_async : Request -> result WebSocketError (list Frame);
  at_lookup_host : string -> Z -> result string (list SocketAddr);
  at_open : SocketAddr -> result string unit;
  at_bind : IpAddr -> SocketAddr -> result string unit;
  at_connect : SocketAddr -> result string unit;
  at_nodelay : SocketAddr -> result string unit;
  at_handshake : Request -> SocketAddr -> result WebSocketError (list Frame)
}.

Definition is_ipv4 (ip : IpAddr) : bool := match ip with V4 _ => true | V6 _ => false end.

(** [Url::port_or_known_default] *)
Definition port_or_known_default (url : Url) : option Z :=
  match url_port url with
  | Some port => Some port
  | None =>
      if bool_decide (url_scheme url = "ws"%string) || bool_decide (url_scheme url = "http"%string) then Some 80
      else if bool_decide (url_scheme url = "wss"%string) || bool_decide (url_scheme url = "https"%string) then Some 443
      else None
  end.

(** The loop over the remote addresses: the first that connects, else the last error. *)
Fixpoint connect_remotes (a : Attempt) (local_ip : IpAddr) (last_error : option string) (remotes : list SocketAddr)
    : result string SocketAddr :=
  match remotes with
  | [] => Err (default "feed DNS returned no compatible address"%string last_error)
  | remote :: remotes =>
      let? _ := at_open a remote in
      let? _ := at_bind a local_ip remote in
      match at_connect a remote with
      | Ok _ => let? _ := at_nodelay a remote in Ok remote
      | Err err => connect_remotes a local_ip (Some err) remotes
      end
  end.

Definition connect_source {UP : UrlParser} (source : FeedSource) (request : Request) (a : Attempt) : result WebSocketError (list Frame) :=
  match fs_local_ip source with
  | None => at_connect_async a request
  | Some local_ip =>
      let? parsed := ok_or (Io "invalid validated feed URL") (url_parse (fs_url source)) in
      let? host := ok_or (Io "validated feed URL has no host") (url_host parsed) in
      let? port := ok_or (Io "validated feed URL has no known port") (port_or_known_default parsed) in
      let? remotes := map_err Io (at_lookup_host a host port) in
      let? stream := map_err Io (connect_remotes a local_ip None (List.filter (fun remote => Bool.eqb (sa_v4 remote) (is_ipv4 local_ip)) remotes)) in
      at_handshake a request stream
  end.

(** ** A lane *)

(** Where [follow] is: asleep before a connection, with its count of failures in a row; reading a
    connection; sending the messages of a frame; or stopped. *)
Inductive Lane :=
| Waiting (delay failures : Z)
| Reading (frames : list Frame) (pushed : nat) (failures : Z)
| Sending (messages : list BroadcastFeedMessage) (frames : list Frame) (pushed : nat) (failures : Z)
| Stopped.

Definition U32_MAX : Z := 2 ^ 32 - 1.

Definition start_lane (source : FeedSource) : Lane := Waiting (initial_connect_delay (fs_ordinal source)) 0.

(** The end of a turn of the loop. *)
Definition disconnected (source : FeedSource) (pushed : nat) (failures : Z) (rate_limited : bool) : Lane :=
  let consecutive_failures := if Nat.eqb pushed 0 then Z.min U32_MAX (failures + 1) else 0 in
  Waiting (reconnect_delay consecutive_failures (fs_ordinal source) rate_limited) consecutive_failures.

Section Follow.
Context {UP : UrlParser} {FD : FeedCodec}.

(** A connection is asked for from the cursor on. *)
Definition connect (source : FeedSource) (cursor : Z) (a : Attempt) (failures : Z) : Lane :=
  match feed_request (fs_url source) cursor with
  | Err _ => Stopped
  | Ok request =>
      match connect_source source request a with
      | Ok frames => Reading frames 0 failures
      | Err err => disconnected source 0 failures (is_rate_limited err)
      end
  end.

(** The next frame of a connection; a stream that ends is a disconnect. *)
Definition read (source : FeedSource) (frames : list Frame) (pushed : nat) (failures : Z) : Lane :=
  match frames with
  | [] => disconnected source pushed failures false
  | frame :: frames =>
      match read_frame frame with
      | Deliver messages => Sending messages frames pushed failures
      | Skip => Reading frames pushed failures
      | Disconnect => disconnected source pushed failures false
      end
  end.
End Follow.

(** ** Lanes, channel and coordinator *)

(** The capacity of [ingress_channel]. *)
Definition INGRESS_CAPACITY : nat := 4096.

(** [coordinate] between two awaits: it waits for an item, or for room to hand a message over. *)
Record Coordination := {
  co_race : SequenceRace;
  co_cursor : Z;
  co_sending : option BroadcastFeedMessage;
  co_output : list BroadcastFeedMessage;
  co_running : bool
}.

Definition start_coordination (resume_sequence : Z) : Coordination := {|
  co_race := SequenceRace_new resume_sequence; co_cursor := resume_sequence; co_sending := None; co_output := []; co_running := true
|}.

(** An item is taken: the first copy moves the cursor and is then handed over. *)
Definition receive (item : FeedIngress) (c : Coordination) : Coordination :=
  match observe (co_race c) (fm_sequence_number (fi_message item)) (fi_ready_for_channel_at item) with
  | (First, race) => {| co_race := race; co_cursor := next_resume race; co_sending := Some (fi_message item);
                        co_output := co_output c; co_running := co_running c |}
  | (_, race) => {| co_race := race; co_cursor := co_cursor c; co_sending := None; co_output := co_output c; co_running := co_running c |}
  end.

(** The hand-over ends: the message is in the engine's channel, or that channel is closed. *)
Definition forward {FC : FeedChannel} (message : BroadcastFeedMessage) (c : Coordination) : Coordination :=
  if accepts (co_output c) then
    {| co_race := co_race c; co_cursor := co_cursor c; co_sending := None; co_output := co_output c ++ [message]; co_running := co_running c |}
  else {| co_race := co_race c; co_cursor := co_cursor c; co_sending := Some message; co_output := co_output c; co_running := false |}.

(** A lane with what it asked for, read and sent so far. *)
Record LaneState := {
  ls_source : FeedSource; ls_lane : Lane; ls_requests : list Z; ls_read : list BroadcastFeedMessage; ls_sent : list BroadcastFeedMessage
}.

Record FeedState := { fd_lanes : list LaneState; fd_queue : list FeedIngress; fd_received : list FeedIngress; fd_coordination : Coordination }.

Definition set_lane (lane : Lane) (l : LaneState) : LaneState := {|
  ls_source := ls_source l; ls_lane := lane; ls_requests := ls_requests l; ls_read := ls_read l; ls_sent := ls_sent l
|}.
Definition asked (cursor : Z) (lane : Lane) (l : LaneState) : LaneState := {|
  ls_source := ls_source l; ls_lane := lane; ls_requests := ls_requests l ++ [cursor]; ls_read := ls_read l; ls_sent := ls_sent l
|}.
Definition took (messages : list BroadcastFeedMessage) (lane : Lane) (l : LaneState) : LaneState := {|
  ls_source := ls_source l; ls_lane := lane; ls_requests := ls_requests l; ls_read := ls_read l ++ messages; ls_sent := ls_sent l
|}.
Definition pushed_one (message : BroadcastFeedMessage) (lane : Lane) (l : LaneState) : LaneState := {|
  ls_source := ls_source l; ls_lane := lane; ls_requests := ls_requests l; ls_read := ls_read l; ls_sent := ls_sent l ++ [message]
|}.

Definition with_lane (i : nat) (l : LaneState) (s : FeedState) : FeedState := {|
  fd_lanes := <[i := l]> (fd_lanes s); fd_queue := fd_queue s; fd_received := fd_received s; fd_coordination := fd_coordination s
|}.

(** The messages a lane takes when it reads. *)
Definition delivered {FD : FeedCodec} (frames : list Frame) : list BroadcastFeedMessage :=
  match frames with
  | frame :: _ => match read_frame frame with Deliver messages => messages | _ => [] end
  | [] => []
  end.

Section System.
Context {UP : UrlParser} {FD : FeedCodec} {FC : FeedChannel}.

Definition start_feed (sources : list FeedSource) (resume_sequence : Z) : FeedState := {|
  fd_lanes := (fun source => {| ls_source := source; ls_lane := start_lane source; ls_requests := []; ls_read := []; ls_sent := [] |}) <$> sources;
  fd_queue := []; fd_received := []; fd_coordination := start_coordination resume_sequence
|}.

(** The steps that move messages on. *)
Inductive moves : FeedState -> FeedState -> Prop :=
| lane_sends s i l message messages frames pushed failures now :
    fd_lanes s !! i = Some l -> ls_lane l = Sending (message :: messages) frames pushed failures ->
    co_running (fd_coordination s) = true -> (length (fd_queue s) < INGRESS_CAPACITY)%nat ->
    moves s {| fd_lanes := <[i := pushed_one message (Sending messages frames (S pushed) failures) l]> (fd_lanes s);
               fd_queue := fd_queue s ++ [{| fi_message := message; fi_ready_for_channel_at := now |}];
               fd_received := fd_received s; fd_coordination := fd_coordination s |}
| coordinator_receives s item queue :
    fd_queue s = item :: queue -> co_running (fd_coordination s) = true -> co_sending (fd_coordination s) = None ->
    moves s {| fd_lanes := fd_lanes s; fd_queue := queue; fd_received := fd_received s ++ [item];
               fd_coordination := receive item (fd_coordination s) |}
| coordinator_forwards s message :
    co_running (fd_coordination s) = true -> co_sending (fd_coordination s) = Some message ->
    moves s {| fd_lanes := fd_lanes s; fd_queue := fd_queue s; fd_received := fd_received s;
               fd_coordination := forward message (fd_coordination s) |}.

(** All steps: a lane that has slept connects, a lane reads, a lane whose frame is done goes on, a lane
    that finds the channel closed stops. *)
Inductive feed_step : FeedState -> FeedState -> Prop :=
| feed_moves s s' : moves s s' -> feed_step s s'
| lane_connects s i l delay failures a :
    fd_lanes s !! i = Some l -> ls_lane l = Waiting delay failures ->
    let cursor := co_cursor (fd_coordination s) in
    feed_step s (with_lane i (asked cursor (connect (ls_source l) cursor a failures) l) s)
| lane_reads s i l frames pushed failures :
    fd_lanes s !! i = Some l -> ls_lane l = Reading frames pushed failures ->
    feed_step s (with_lane i (took (delivered frames) (read (ls_source l) frames pushed failures) l) s)
| lane_frame_done s i l frames pushed failures :
    fd_lanes s !! i = Some l -> ls_lane l = Sending [] frames pushed failures ->
    feed_step s (with_lane i (set_lane (Reading frames pushed failures) l) s)
| lane_stops s i l message messages frames pushed failures :
    fd_lanes s !! i = Some l -> ls_lane l = Sending (message :: messages) frames pushed failures ->
    co_running (fd_coordination s) = false ->
    feed_step s (with_lane i (set_lane Stopped l) s).

(** ** What holds in every state *)

(** What a lane has read and not sent. *)
Definition unsent (lane : Lane) : list BroadcastFeedMessage :=
  match lane with Sending messages _ _ _ => messages | _ => [] end.

Definition sequences (ms : list BroadcastFeedMessage) : list Z := map fm_sequence_number ms.

(** What the coordinator has handed over, with the message under way. *)
Definition handed (c : Coordination) : list BroadcastFeedMessage := co_output c ++ option_list (co_sending c).

Definition in_channel (s : FeedState) : list BroadcastFeedMessage := map fi_message (fd_received s ++ fd_queue s).

Record feed_inv (start : Z) (s : FeedState) : Prop := {
  fv_race : race_inv start (sequences (handed (fd_coordination s))) (co_race (fd_coordination s));
  fv_cursor : co_cursor (fd_coordination s) = next_resume (co_race (fd_coordination s));
  (** Everything received from the start on was handed over, and nothing else. *)
  fv_received : forall item, item ∈ fd_received s -> start <= fm_sequence_number (fi_message item) ->
    fm_sequence_number (fi_message item) ∈ sequences (handed (fd_coordination s));
  fv_handed : forall m, m ∈ handed (fd_coordination s) -> m ∈ map fi_message (fd_received s);
  (** A lane loses and reorders nothing, and the channel holds what the lanes sent. *)
  fv_lane : co_running (fd_coordination s) = true -> forall i l, fd_lanes s !! i = Some l -> ls_read l = ls_sent l ++ unsent (ls_lane l);
  fv_stopped : forall i l, fd_lanes s !! i = Some l -> ls_sent l `prefix_of` ls_read l;
  fv_sent : forall i l m, fd_lanes s !! i = Some l -> m ∈ ls_sent l -> m ∈ in_channel s;
  fv_channel : forall m, m ∈ in_channel s -> exists i l, fd_lanes s !! i = Some l /\ m ∈ ls_sent l;
  (** What was asked for starts where nothing is missing. *)
  fv_asked : forall i l q, fd_lanes s !! i = Some l -> q ∈ ls_requests l ->
    start <= q /\ forall n, start <= n < q -> n ∈ sequences (handed (fd_coordination s))
}.

(** The lanes after one of them moved. *)
Lemma lane_moved (i j : nat) (l l' x : LaneState) (ls : list LaneState) :
  ls !! i = Some l -> <[i := l']> ls !! j = Some x -> (j = i /\ x = l') \/ (j <> i /\ ls !! j = Some x).
Proof. intros Hi Hj. apply list_lookup_insert_Some in Hj as [(-> & <- & _)|[? ?]]; [by left|by right]. Qed.

(** A step of one lane that sends nothing. *)
Lemma with_lane_inv (start : Z) (s : FeedState) (i : nat) (l l' : LaneState) :
  feed_inv start s -> fd_lanes s !! i = Some l -> ls_sent l' = ls_sent l ->
  (co_running (fd_coordination s) = true -> ls_read l' = ls_sent l' ++ unsent (ls_lane l')) -> ls_sent l' `prefix_of` ls_read l' ->
  (forall q, q ∈ ls_requests l' -> q ∈ ls_requests l \/ q = co_cursor (fd_coordination s)) ->
  feed_inv start (with_lane i l' s).
Proof.
  intros [] Hl Hsent Hlane Hpre Hreq. pose proof (lookup_lt_Some _ _ _ Hl) as Hlt.
  split; cbn [with_lane fd_coordination fd_received fd_lanes]; try done.
  - intros Hrun j x Hx. destruct (lane_moved _ _ _ _ _ _ Hl Hx) as [[-> ->]|[_ Hj]]; [auto|by eapply fv_lane0].
  - intros j x Hx. destruct (lane_moved _ _ _ _ _ _ Hl Hx) as [[-> ->]|[_ Hj]]; [done|by eapply fv_stopped0].
  - intros j x m Hx Hm. destruct (lane_moved _ _ _ _ _ _ Hl Hx) as [[-> ->]|[_ Hj]]; [|by eapply fv_sent0].
    eapply fv_sent0; [exact Hl|by rewrite <- Hsent].
  - intros m Hm. destruct (fv_channel0 m Hm) as (j & x & Hx & Hmx). destruct (decide (j = i)) as [->|Hne].
    + exists i, l'. rewrite list_lookup_insert_eq by done. split; [done|]. rewrite Hsent. by simplify_eq.
    + exists j, x. by rewrite list_lookup_insert_ne.
  - intros j x q Hx Hq. destruct (lane_moved _ _ _ _ _ _ Hl Hx) as [[-> ->]|[_ Hj]]; [|by eapply fv_asked0].
    destruct (Hreq q Hq) as [Hq'| ->]; [by eapply fv_asked0|]. rewrite fv_cursor0. split; [apply fv_race0|].
    intros n Hn. by apply fv_race0.
Qed.

Lemma unsent_disconnected (source : FeedSource) (pushed : nat) (failures : Z) (rate_limited : bool) :
  unsent (disconnected source pushed failures rate_limited) = [].
Proof. done. Qed.

Lemma unsent_connect (source : FeedSource) (cursor : Z) (a : Attempt) (failures : Z) : unsent (connect source cursor a failures) = [].
Proof. unfold connect. repeat case_match; done. Qed.

Lemma unsent_read (source : FeedSource) (frames : list Frame) (pushed : nat) (failures : Z) :
  unsent (read source frames pushed failures) = delivered frames.
Proof. unfold read, delivered. repeat case_match; done. Qed.

Lemma sends_inv (start : Z) (s : FeedState) (i : nat) (l : LaneState) (m : BroadcastFeedMessage) (ms : list BroadcastFeedMessage)
    (frames : list Frame) (pushed : nat) (failures now : Z) :
  feed_inv start s -> fd_lanes s !! i = Some l -> ls_lane l = Sending (m :: ms) frames pushed failures ->
  co_running (fd_coordination s) = true ->
  feed_inv start {| fd_lanes := <[i := pushed_one m (Sending ms frames (S pushed) failures) l]> (fd_lanes s);
                    fd_queue := fd_queue s ++ [{| fi_message := m; fi_ready_for_channel_at := now |}];
                    fd_received := fd_received s; fd_coordination := fd_coordination s |}.
Proof.
  intros [] Hl Hs Hrun. pose proof (lookup_lt_Some _ _ _ Hl) as Hlt. pose proof (fv_lane0 Hrun i l Hl) as Hr. rewrite Hs in Hr.
  assert (Hch : forall x, x ∈ map fi_message (fd_received s ++ fd_queue s ++ [{| fi_message := m; fi_ready_for_channel_at := now |}]) <->
    x ∈ in_channel s \/ x = m).
  { intros x. unfold in_channel. rewrite app_assoc, map_app, elem_of_app. cbn. by rewrite list_elem_of_singleton. }
  split; cbn [fd_coordination fd_received fd_lanes fd_queue]; try done; unfold in_channel; cbn [fd_received fd_queue].
  - intros _ j x Hx. destruct (lane_moved _ _ _ _ _ _ Hl Hx) as [[-> ->]|[_ Hj]]; [|by eapply fv_lane0].
    cbn. rewrite Hr. cbn. by rewrite <- app_assoc.
  - intros j x Hx. destruct (lane_moved _ _ _ _ _ _ Hl Hx) as [[-> ->]|[_ Hj]]; [|by eapply fv_stopped0].
    cbn. rewrite Hr. exists ms. cbn. by rewrite <- app_assoc.
  - intros j x y Hx Hy. apply Hch. destruct (lane_moved _ _ _ _ _ _ Hl Hx) as [[-> ->]|[_ Hj]]; [|left; by eapply fv_sent0].
    cbn in Hy. apply elem_of_app in Hy as [Hy|Hy%list_elem_of_singleton]; [left; by eapply fv_sent0|by right].
  - intros y [Hy| ->]%Hch.
    + destruct (fv_channel0 y Hy) as (j & x & Hx & Hmx). destruct (decide (j = i)) as [->|Hne].
      * eexists i, _. rewrite list_lookup_insert_eq by done. split; [done|]. cbn. simplify_eq. apply elem_of_app. by left.
      * exists j, x. by rewrite list_lookup_insert_ne.
    + eexists i, _. rewrite list_lookup_insert_eq by done. split; [done|]. cbn. apply elem_of_app. right. by left.
  - intros j x q Hx Hq. destruct (lane_moved _ _ _ _ _ _ Hl Hx) as [[-> ->]|[_ Hj]]; by eapply fv_asked0.
Qed.

(** Taking an item never takes back what was handed over. *)
Lemma receive_handed (item : FeedIngress) (c : Coordination) :
  co_sending c = None -> exists more, handed (receive item c) = handed c ++ more /\ (forall m, m ∈ more -> m = fi_message item).
Proof.
  intros Hs. unfold receive, handed. rewrite Hs. destruct (observe _ _ _) as [[] r]; cbn.
  - exists [fi_message item]. rewrite app_nil_r. split; [done|]. by intros m ->%list_elem_of_singleton.
  - exists []. rewrite !app_nil_r. split; [done|]. by intros m ?%elem_of_nil.
  - exists []. rewrite !app_nil_r. split; [done|]. by intros m ?%elem_of_nil.
Qed.

Lemma sequences_app (a b : list BroadcastFeedMessage) : sequences (a ++ b) = sequences a ++ sequences b.
Proof. apply map_app. Qed.

(** The race after an item, and the item itself. *)
Lemma receive_race (start : Z) (item : FeedIngress) (c : Coordination) :
  co_sending c = None -> race_inv start (sequences (handed c)) (co_race c) -> co_cursor c = next_resume (co_race c) ->
  let c' := receive item c in
  race_inv start (sequences (handed c')) (co_race c') /\ co_cursor c' = next_resume (co_race c') /\
  (start <= fm_sequence_number (fi_message item) -> fm_sequence_number (fi_message item) ∈ sequences (handed c')).
Proof.
  intros Hs Hi Hc. unfold receive, handed in *. rewrite Hs in Hi. cbn [option_list] in Hi. rewrite app_nil_r in Hi.
  destruct (observe _ _ _) as [o r] eqn:E.
  destruct o; cbn [co_race co_cursor co_sending co_output option_list]; rewrite ?app_nil_r.
  - split_and!; [|done|].
    + eapply race_inv_mono; [|by eapply observe_first_inv]. intros k. rewrite sequences_app, elem_of_app, elem_of_cons.
      intros [->|Hk]; [right; by left|by left].
    + intros _. rewrite sequences_app. apply elem_of_app. right. by left.
  - destruct (observe_skips _ _ _ _ _ _ _ Hi E ltac:(done)) as [-> Hk]. split_and!; [done|done|]. intros Hge. destruct Hk; [lia|done].
  - destruct (observe_skips _ _ _ _ _ _ _ Hi E ltac:(done)) as [-> Hk]. split_and!; [done|done|]. intros Hge. destruct Hk; [lia|done].
Qed.

Lemma receives_inv (start : Z) (s : FeedState) (item : FeedIngress) (queue : list FeedIngress) :
  feed_inv start s -> fd_queue s = item :: queue -> co_sending (fd_coordination s) = None ->
  feed_inv start {| fd_lanes := fd_lanes s; fd_queue := queue; fd_received := fd_received s ++ [item];
                    fd_coordination := receive item (fd_coordination s) |}.
Proof.
  intros [] Hq Hs. destruct (receive_race start item _ Hs fv_race0 fv_cursor0) as (Hi & Hc & Hit).
  destruct (receive_handed item _ Hs) as (more & Hh & Hmore).
  assert (Hmono : forall n, n ∈ sequences (handed (fd_coordination s)) -> n ∈ sequences (handed (receive item (fd_coordination s)))).
  { intros n Hn. rewrite Hh, sequences_app. apply elem_of_app. by left. }
  assert (Hch : map fi_message ((fd_received s ++ [item]) ++ queue) = in_channel s).
  { unfold in_channel. rewrite Hq, <- app_assoc. done. }
  assert (Hrun : co_running (receive item (fd_coordination s)) = co_running (fd_coordination s)).
  { unfold receive. by destruct (observe _ _ _) as [[] ?]. }
  split; cbn [fd_coordination fd_received fd_lanes fd_queue]; try done; unfold in_channel; cbn [fd_received fd_queue]; rewrite ?Hch, ?Hrun; try done.
  - intros x [Hx| ->%list_elem_of_singleton]%elem_of_app; [|done]. auto.
  - intros m. rewrite Hh. intros [Hm|Hm]%elem_of_app; rewrite map_app; apply elem_of_app; [left; auto|right].
    rewrite (Hmore m Hm). by left.
  - intros i l q Hl Hqq. destruct (fv_asked0 i l q Hl Hqq) as [? Hn]. split; [done|]. auto.
Qed.

Lemma forwards_inv (start : Z) (s : FeedState) (m : BroadcastFeedMessage) :
  feed_inv start s -> co_sending (fd_coordination s) = Some m ->
  feed_inv start {| fd_lanes := fd_lanes s; fd_queue := fd_queue s; fd_received := fd_received s;
                    fd_coordination := forward m (fd_coordination s) |}.
Proof.
  intros [] Hs. assert (Hh : handed (forward m (fd_coordination s)) = handed (fd_coordination s)).
  { unfold forward, handed. rewrite Hs. destruct (accepts _); cbn; [by rewrite app_nil_r|done]. }
  assert (Hr : co_race (forward m (fd_coordination s)) = co_race (fd_coordination s) /\
               co_cursor (forward m (fd_coordination s)) = co_cursor (fd_coordination s) /\
               (co_running (forward m (fd_coordination s)) = true -> co_running (fd_coordination s) = true)).
  { unfold forward. by destruct (accepts _). }
  destruct Hr as (Hr1 & Hr2 & Hr3).
  split; cbn [fd_coordination fd_received fd_lanes fd_queue]; rewrite ?Hh, ?Hr1, ?Hr2; try done. intros Hr. by apply fv_lane0, Hr3.
Qed.

Lemma moves_inv (start : Z) (s s' : FeedState) : moves s s' -> feed_inv start s -> feed_inv start s'.
Proof. intros [] Hi; [by eapply sends_inv|by apply receives_inv|by apply forwards_inv]. Qed.

Lemma feed_step_inv (start : Z) (s s' : FeedState) : feed_step s s' -> feed_inv start s -> feed_inv start s'.
Proof.
  intros [s1 s2 H|s1 i l delay failures a Hl Hw cursor|s1 i l frames pushed failures Hl Hw|s1 i l frames pushed failures Hl Hw|
          s1 i l message messages frames pushed failures Hl Hw Hr] Hi.
  - by eapply moves_inv.
  - destruct (fv_stopped _ _ Hi i l Hl) as [k Hk]. eapply with_lane_inv; [done|exact Hl|done| | |].
    + intros Hr. pose proof (fv_lane _ _ Hi Hr i l Hl) as Hread. rewrite Hw in Hread. cbn [asked ls_read ls_sent ls_lane]. by rewrite unsent_connect.
    + by exists k.
    + intros q [?|?%list_elem_of_singleton]%elem_of_app; [by left|by right].
  - destruct (fv_stopped _ _ Hi i l Hl) as [k Hk]. eapply with_lane_inv; [done|exact Hl|done| | |by left].
    + intros Hr. pose proof (fv_lane _ _ Hi Hr i l Hl) as Hread. rewrite Hw in Hread. cbn [unsent] in Hread. rewrite app_nil_r in Hread.
      cbn [took ls_read ls_sent ls_lane]. by rewrite unsent_read, Hread.
    + cbn [took ls_read ls_sent]. exists (k ++ delivered frames). by rewrite Hk, <- app_assoc.
  - eapply with_lane_inv; [done|exact Hl|done| |by apply (fv_stopped _ _ Hi i l Hl)|by left].
    intros Hr. pose proof (fv_lane _ _ Hi Hr i l Hl) as Hread. by rewrite Hw in Hread.
  - eapply with_lane_inv; [done|exact Hl|done|by rewrite Hr|by apply (fv_stopped _ _ Hi i l Hl)|by left].
Qed.

Lemma start_feed_inv (sources : list FeedSource) (start : Z) : feed_inv start (start_feed sources start).
Proof.
  assert (Hl : forall i l, fd_lanes (start_feed sources start) !! i = Some l -> ls_read l = [] /\ ls_sent l = [] /\ ls_requests l = [] /\
    unsent (ls_lane l) = []).
  { intros i l H. apply list_lookup_fmap_Some in H as (source & -> & _). done. }
  split; cbn [fd_coordination start_feed start_coordination]; try done.
  - apply race_new_inv.
  - intros item H. by apply elem_of_nil in H.
  - intros _ i l H. destruct (Hl i l H) as (-> & -> & _ & ->). done.
  - intros i l H. destruct (Hl i l H) as (-> & -> & _). done.
  - intros i l m H Hm. destruct (Hl i l H) as (_ & E & _). rewrite E in Hm. by apply elem_of_nil in Hm.
  - intros m Hm. by apply elem_of_nil in Hm.
  - intros i l q H Hq. destruct (Hl i l H) as (_ & _ & E & _). rewrite E in Hq. by apply elem_of_nil in Hq.
Qed.

Lemma feed_reachable_inv (sources : list FeedSource) (start : Z) (s : FeedState) :
  rtc feed_step (start_feed sources start) s -> feed_inv start s.
Proof.
  intros H. eapply (rtc_ind_r (fun s => feed_inv start s)); [apply start_feed_inv| |exact H]. intros x y _ Hxy Hx. by eapply feed_step_inv.
Qed.

(** ** The channel drains *)

Definition drained (s : FeedState) : Prop :=
  fd_queue s = [] /\ co_sending (fd_coordination s) = None /\ Forall (fun l => unsent (ls_lane l) = []) (fd_lanes s).

(** What is still to move, by the steps each message has before it. *)
Definition backlog (s : FeedState) : nat :=
  3 * sum_list_with (fun l => length (unsent (ls_lane l))) (fd_lanes s) + 2 * length (fd_queue s) +
  length (option_list (co_sending (fd_coordination s))).

Lemma sum_insert {A : Type} (f : A -> nat) (l : list A) (i : nat) (x y : A) :
  l !! i = Some x -> (sum_list_with f (<[i := y]> l) + f x = sum_list_with f l + f y)%nat.
Proof.
  revert i. induction l as [|z l IH]; intros [|i] H; try done.
  - injection H as ->. cbn. lia.
  - change (<[S i := y]> (z :: l)) with (z :: <[i := y]> l). cbn [sum_list_with]. specialize (IH i H). lia.
Qed.

(** What the lanes asked for and read stays as it is. *)
Definition same_reads (s s' : FeedState) : Prop :=
  (fun l => (ls_requests l, ls_read l)) <$> fd_lanes s' = (fun l => (ls_requests l, ls_read l)) <$> fd_lanes s.

Hypothesis engine_open : forall l, accepts l = true.

Lemma drain_step (s : FeedState) :
  co_running (fd_coordination s) = true -> drained s \/
  exists s', moves s s' /\ (backlog s' < backlog s)%nat /\ co_running (fd_coordination s') = true /\ same_reads s s'.
Proof.
  intros Hr. destruct (co_sending (fd_coordination s)) as [m|] eqn:Hs.
  { right. eexists. split; [by eapply coordinator_forwards|]. unfold backlog, forward, same_reads. rewrite engine_open, Hs. cbn. split_and!; [lia|done|done]. }
  destruct (fd_queue s) as [|item queue] eqn:Hq; cycle 1.
  { right. eexists. split; [by eapply coordinator_receives|]. unfold backlog, receive, same_reads. rewrite Hs, Hq.
    destruct (observe _ _ _) as [[] r]; cbn; (split_and!; [lia|done|done]). }
  destruct (decide (Forall (fun l => unsent (ls_lane l) = []) (fd_lanes s))) as [Hall|Hex]; [by left|right].
  apply not_Forall_Exists, Exists_exists in Hex as (l & [i Hl]%list_elem_of_lookup & Hu); [|apply _].
  cbn in Hu. destruct (ls_lane l) as [| |[|m ms] frames pushed failures|] eqn:El; cbn in Hu; try done.
  eexists. split; [eapply (lane_sends s i l m ms frames pushed failures 0); [done|done|done|rewrite Hq; cbn; unfold INGRESS_CAPACITY; lia]|].
  unfold backlog. cbn [fd_lanes fd_queue fd_coordination]. rewrite Hq, Hs. cbn [app length option_list].
  pose proof (sum_insert (fun l => length (unsent (ls_lane l))) _ i _ (pushed_one m (Sending ms frames (S pushed) failures) l) Hl) as Hsum.
  cbn in Hsum. rewrite El in Hsum. cbn in Hsum. split_and!; [lia|done|]. unfold same_reads. cbn [fd_lanes]. rewrite list_fmap_insert. apply list_insert_id.
  by rewrite list_lookup_fmap, Hl.
Qed.

Lemma drains (n : nat) (s : FeedState) :
  (backlog s <= n)%nat -> co_running (fd_coordination s) = true -> exists s', rtc moves s s' /\ drained s' /\ same_reads s s'.
Proof.
  revert s. induction n as [|n IH]; intros s Hn Hr; (destruct (drain_step s Hr) as [Hd|(s1 & Hm & Hlt & Hr1 & Hsame)]; [by exists s; split; [constructor|]|]).
  - lia.
  - destruct (IH s1 ltac:(lia) Hr1) as (s' & Hrun & Hd & Hsame'). exists s'. split_and!; [by econstructor|done|].
    unfold same_reads in *. congruence.
Qed.

Lemma feed_running (s s' : FeedState) : feed_step s s' -> co_running (fd_coordination s) = true -> co_running (fd_coordination s') = true.
Proof.
  intros [s1 s2 []|?|?|?|?] Hr; cbn; try done.
  - unfold receive. by destruct (observe _ _ _) as [[] ?].
  - unfold forward. by rewrite engine_open.
Qed.

Lemma feed_reachable_running (sources : list FeedSource) (start : Z) (s : FeedState) :
  rtc feed_step (start_feed sources start) s -> co_running (fd_coordination s) = true.
Proof.
  apply (rtc_ind_r (fun s => co_running (fd_coordination s) = true) (start_feed sources start)); [done|].
  intros x y _ Hxy Hx. by eapply feed_running.
Qed.

(** ** The system runs the coordinator *)

Lemma coordinate_loop_app (items more : list FeedIngress) (c : Coordinator) :
  coordinate_loop (items ++ more) c = coordinate_loop more (coordinate_loop items c).
Proof.
  revert c. induction items as [|x items IH]; intros c; [done|]. cbn [app coordinate_loop].
  destruct (observe _ _ _) as [[] r]; rewrite ?engine_open; apply IH.
Qed.

(** What was handed over, with the race and the cursor, is what [coordinate] makes of the items
    received: the two steps of the coordinator refine its one. *)
Definition coordinates (start : Z) (s : FeedState) : Prop :=
  let c := coordinate (fd_received s) start in
  output c = handed (fd_coordination s) /\ race c = co_race (fd_coordination s) /\ resume_sequence c = co_cursor (fd_coordination s).

Lemma moves_coordinates (start : Z) (s s' : FeedState) : moves s s' -> coordinates start s -> coordinates start s'.
Proof.
  unfold coordinates, coordinate. intros [|s1 item queue Hq Hr Hs|s1 m Hr Hs] (Ho & Hrace & Hc); [done| |].
  - cbn [fd_received fd_coordination]. rewrite coordinate_loop_app. cbn [coordinate_loop]. unfold receive, handed in *.
    rewrite Hs in Ho. cbn [option_list] in Ho. rewrite app_nil_r in Ho. rewrite Hrace.
    destruct (observe _ _ _) as [[] r]; rewrite ?engine_open; cbn; rewrite ?app_nil_r, ?Ho; done.
  - cbn [fd_received fd_coordination]. unfold forward, handed in *. rewrite engine_open. rewrite Hs in Ho. cbn in *. by rewrite app_nil_r.
Qed.

Lemma feed_coordinates (sources : list FeedSource) (start : Z) (s : FeedState) :
  rtc feed_step (start_feed sources start) s -> coordinates start s.
Proof.
  apply (rtc_ind_r (coordinates start) (start_feed sources start)); [done|]. intros x y _ [] Hx; try done. by eapply moves_coordinates.
Qed.

(** C6. No message is lost between the relays and the engine. Take any number of lanes, relays that
    answer, fail, repeat and disconnect as they like, and any interleaving of the lanes with the
    coordinator, as long as the engine's channel is open. From every state the channel drains in
    finitely many steps that are always possible. Then what was handed to the engine is what [coordinate]
    makes of the items received; every message of it was read by a lane; and if a lane ever asked for sequence [q], and each sequence from [q] to [h] was read by
    some lane, then every sequence from the start of the feed to [h] was handed over: reconnecting at
    the published cursor leaves no gap, although the cursor moves before the message does. *)
Theorem feed_gap_free (sources : list FeedSource) (start : Z) (s : FeedState) :
  rtc feed_step (start_feed sources start) s ->
  exists s', rtc moves s s' /\ drained s' /\ same_reads s s' /\
    let out := co_output (fd_coordination s') in
    out = output (coordinate (fd_received s') start) /\
    (forall m, m ∈ out -> exists i l, fd_lanes s' !! i = Some l /\ m ∈ ls_read l) /\
    (forall i l q h, fd_lanes s' !! i = Some l -> q ∈ ls_requests l ->
       (forall n, q <= n <= h -> exists j k, fd_lanes s' !! j = Some k /\ n ∈ sequences (ls_read k)) ->
       forall n, start <= n <= h -> n ∈ sequences out).
Proof.
  intros H. pose proof (feed_reachable_running _ _ _ H) as Hrun.
  destruct (drains (backlog s) s ltac:(lia) Hrun) as (s' & Hm & Hd & Hsame). exists s'. split; [done|]. split; [done|]. split; [done|].
  assert (H' : rtc feed_step (start_feed sources start) s').
  { etrans; [exact H|]. eapply (rtc_subrel moves); [|exact Hm]. intros x y. apply feed_moves. }
  pose proof (feed_reachable_inv _ _ _ H') as Hi. pose proof (feed_reachable_running _ _ _ H') as Hrun'.
  destruct (feed_coordinates _ _ _ H') as (Hcoord & _).
  clear H H' Hm Hsame. destruct Hd as (Hq & Hs & Hall). assert (Hh : handed (fd_coordination s') = co_output (fd_coordination s')).
  { unfold handed. rewrite Hs. apply app_nil_r. }
  destruct Hi. rewrite Hh in *. assert (Hch : in_channel s' = map fi_message (fd_received s')).
  { unfold in_channel. by rewrite Hq, app_nil_r. }
  split; [done|]. split.
  - intros m Hm. apply fv_handed0 in Hm. rewrite <- Hch in Hm. destruct (fv_channel0 m Hm) as (i & l & Hl & Hml). exists i, l. split; [done|].
    destruct (fv_stopped0 i l Hl) as [k ->]. apply elem_of_app. by left.
  - intros i l q h Hl Hql Hread n Hn. destruct (fv_asked0 i l q Hl Hql) as [Hsq Hbelow]. destruct (Z.lt_ge_cases n q) as [Hlt|Hge]; [apply Hbelow; lia|].
    destruct (Hread n ltac:(lia)) as (j & k & Hk & Hnk). rewrite (fv_lane0 Hrun' j k Hk) in Hnk. rewrite Forall_lookup in Hall.
    rewrite (Hall j k Hk), app_nil_r in Hnk. apply list_elem_of_fmap in Hnk as (m & -> & Hm).
    apply (fv_sent0 j k m Hk) in Hm. rewrite Hch in Hm. apply list_elem_of_fmap in Hm as (item & -> & Hitem). apply fv_received0; [done|lia].
Qed.
End System.

(** ** A relay that disconnects *)

Module SampleLanes.
#[local] Existing Instances Feed.sample_urls open_channel.

Definition message (n : Z) : BroadcastFeedMessage := fi_message (ingress n 0).

#[local] Instance codec : FeedCodec := {|
  into_client_request _ := Some ∅;
  root_from_str s := if bool_decide (s = "ab"%string) then Some (Some [message 5; message 6])
                     else if bool_decide (s = "c"%string) then Some (Some [message 7]) else None;
  ip_parse s := if bool_decide (s = "10.0.0.1"%string) then Some (V4 167772161) else None
|}.

Definition source : FeedSource := {|
  fs_ordinal := 0; fs_endpoint := 0; fs_connection := 0; fs_url := "wss://relay/feed?key=1"; fs_display_endpoint := "wss://relay:9642";
  fs_local_ip := None
|}.

(** A network on which every direct handshake delivers the given frames. *)
Definition serves (frames : list Frame) : Attempt := {|
  at_connect_async _ := Ok frames; at_lookup_host _ _ := Ok []; at_open _ := Ok tt; at_bind _ _ := Ok tt; at_connect _ := Ok tt;
  at_nodelay _ := Ok tt; at_handshake _ _ := Ok []
|}.

Definition waiting_lane (requests : list Z) (read sent : list BroadcastFeedMessage) (lane : Lane) : LaneState := {|
  ls_source := source; ls_lane := lane; ls_requests := requests; ls_read := read; ls_sent := sent
|}.

(** The relay closes after 5 and 6; the lane asks again while 6 is still being handed over. *)
Definition reconnected (c : Coordination) (received : list FeedIngress) : FeedState := {|
  fd_lanes := [waiting_lane [5; 7] [message 5; message 6; message 7] [message 5; message 6] (Sending [message 7] [] 0 0)];
  fd_queue := []; fd_received := received; fd_coordination := c
|}.

Definition items : list FeedIngress := [ingress 5 1; ingress 6 2].
Definition coordination : Coordination := receive (ingress 6 2) (forward (message 5) (receive (ingress 5 1) (start_coordination 5))).

Lemma sample_run : rtc feed_step (start_feed [source] 5) (reconnected coordination items).
Proof.
  eapply rtc_l. { eapply (lane_connects _ 0 _ _ _ (serves [Text "ab"; Control; Close])); reflexivity. }
  eapply rtc_l. { eapply (lane_reads _ 0); reflexivity. }
  eapply rtc_l. { apply feed_moves; eapply (lane_sends _ 0 _ _ _ _ _ _ 1); [reflexivity..|cbn; unfold INGRESS_CAPACITY; lia]. }
  eapply rtc_l. { apply feed_moves; eapply coordinator_receives; reflexivity. }
  eapply rtc_l. { apply feed_moves; eapply coordinator_forwards; reflexivity. }
  eapply rtc_l. { apply feed_moves; eapply (lane_sends _ 0 _ _ _ _ _ _ 2); [reflexivity..|cbn; unfold INGRESS_CAPACITY; lia]. }
  eapply rtc_l. { apply feed_moves; eapply coordinator_receives; reflexivity. }
  eapply rtc_l. { eapply (lane_frame_done _ 0); reflexivity. }
  eapply rtc_l. { eapply (lane_reads _ 0); reflexivity. }
  eapply rtc_l. { eapply (lane_reads _ 0); reflexivity. }
  eapply rtc_l. { eapply (lane_connects _ 0 _ _ _ (serves [Binary [x63]])); reflexivity. }
  eapply rtc_l. { eapply (lane_reads _ 0); reflexivity. }
  match goal with |- rtc _ ?x ?y => replace x with y by (vm_compute; reflexivity) end. apply rtc_refl.
Qed.

Lemma feed_gap_free_witness :
  handed coordination = [message 5; message 6] /\ co_output coordination = [message 5] /\ co_cursor coordination = 7 /\
  exists s', drained s' /\ forall n, 5 <= n <= 7 -> n ∈ sequences (co_output (fd_coordination s')).
Proof.
  split; [vm_compute; reflexivity|]. split; [vm_compute; reflexivity|]. split; [vm_compute; reflexivity|].
  destruct (feed_gap_free (FC := open_channel) (fun _ => eq_refl) [source] 5 _ sample_run) as (s' & _ & Hd & Hsame & _ & _ & Hgap). exists s'. split; [exact Hd|].
  unfold same_reads in Hsame. cbn in Hsame. destruct (fd_lanes s') as [|l [|]] eqn:El; try discriminate Hsame.
  injection Hsame as Hreq Hread. refine (Hgap 0%nat l 7 7 eq_refl _ _).
  - rewrite Hreq. right. left.
  - intros n Hn. exists 0%nat, l. split; [reflexivity|]. rewrite Hread. assert (n = 7) as -> by lia. vm_compute. right. right. left.
Defined.
End SampleLanes.
