(* ===== verification/GenesisVerify.v ===== *)
(** * Checking a genesis

    [crates/arb-reth-node/src/commands/genesis.rs] and [crates/arb-reth-genesis/src/verify.rs]: the
    command that rebuilds the Arbitrum One genesis from the Classic export and compares its roots, and
    the one that recomputes the root of an exported state stream. Panics ([expect], [assert_eq]) are
    errors of the model. The tries are alloy's, the genesis accounts arb_revm's, and hexadecimal and
    JSON are read by libraries: they are parameters. *)

From Stdlib Require Import Strings.String.
From stdpp Require Import base list numbers option strings gmap.
From S2P Require Import Genesis.
From S2P Require Import Prelude External Text SnapshotFull Preimages HeadImport.

(** ** Roots *)

Definition ARBOS_STATE : Z := 0xA4B05FFFFFFFFFFFFFFFFFFFFFFFFFFFFFFFFFFF.
Definition GENESIS_STATE_ROOT : Z := 0x7f2bfc4481d02bfcfc606ebb949384ef78d03a0f30a2dc9cccd652eb80926ae1.
Definition ARBOS_STORAGE_ROOT : Z := 0x95d4357ce7baf56bfdcc4f01b594b8f071c588adf58fd79e322ea6d029748573.
Definition GENESIS_TIMESTAMP : Z := 1661956342.
Definition EMPTY_ROOT_HASH : Z := 0x56e81f171bcc55a6ff8345e692c0f86e5b48e01b996cadc001622fb5e363b421.

Definition init_config : ArbosInitConfig := {|
  initial_arbos_version := 6; initial_chain_owner := 0xd345e41ae2cb00311956aa7109fc801ae8c81a52; init_chain_id := 42161;
  genesis_block_number := GENESIS_BLOCK_NUMBER; initial_l1_base_fee := 50000000000; serialized_chain_config := []; debug_precompiles := false
|}.

Record TrieAccount := { ta_nonce : Z; ta_balance : Z; ta_storage_root : Z; ta_code_hash : Z }.

(** [alloy_trie::root], and arb_revm's accounts of the genesis from the Classic ones. *)
Class TrieRoots := {
  state_root_unhashed : list (Z * TrieAccount) -> Z;
  state_root_unsorted : list (Z * TrieAccount) -> Z;
  storage_root_unhashed : list (Z * Z) -> Z;
  storage_root_unsorted : list (Z * Z) -> Z;
  build_genesis : ArbosInitConfig -> list Z -> list GenesisRetryableInput -> list GenesisAccountInput -> Z -> result string (list ArbosAccount)
}.

Section Roots.
Context {K : Keccak} {TR : TrieRoots}.

Definition storage_root_of (account : ArbosAccount) : Z :=
  match aa_storage account with
  | [] => EMPTY_ROOT_HASH
  | storage => storage_root_unhashed storage
  end.

Definition trie_account (account : ArbosAccount) : TrieAccount := {|
  ta_nonce := aa_nonce account; ta_balance := aa_balance account; ta_storage_root := storage_root_of account;
  ta_code_hash := match aa_code account with [] => KECCAK_EMPTY | code => keccak256 code end
|}.

Definition state_root (accounts : list ArbosAccount) : Z := state_root_unhashed ((fun a => (aa_address a, trie_account a)) <$> accounts).
Definition state_root_hashed (accounts : list (Z * TrieAccount)) : Z := state_root_unsorted accounts.
Definition storage_root_hashed (slots : list (Z * Z)) : Z := storage_root_unsorted slots.
End Roots.

(** ** verify *)

Record GenesisVerifyArgs := { gv_arbos_only : bool; gv_dump : option (list string) }.

Section Verify.
Context {K : Keccak} {TR : TrieRoots} {CE : ClassicExport}.

(** The accounts: none of the Classic ones with [--arbos-only]; one that does not parse is a panic. *)
Definition build_accounts (args : GenesisVerifyArgs) (export : ExportDir) : result string (list ArbosAccount) :=
  let? text := ed_index export in
  let? index := ok_or "index json"%string (json_index text) in
  let? lines := ed_text export (ix_address_table_path index) in
  let? table := address_table lines in
  let? lines := ed_text export (ix_retryable_path index) in
  let? pending := retryables lines in
  if gv_arbos_only args then build_genesis init_config table pending [] GENESIS_TIMESTAMP
  else
    let? lines := ed_accounts export (ix_accounts_path index) in
    let? classic := all_ok (accounts lines) in
    build_genesis init_config table pending classic GENESIS_TIMESTAMP.

Definition verify (args : GenesisVerifyArgs) (parse_address : string -> option Z) (export : ExportDir) : result string unit :=
  let? built := build_accounts args export in
  match gv_dump args with
  | Some list =>
      let? _ := try_map (fun want => ok_or "bad --dump address"%string (parse_address want)) list in
      Ok tt
  | None =>
      let? arbos := ok_or "ArbOS state account not found in built genesis"%string (List.find (fun a => aa_address a =? ARBOS_STATE) built) in
      let arbos_ok := storage_root_of arbos =? ARBOS_STORAGE_ROOT in
      if gv_arbos_only args then
        if negb arbos_ok then Err "ArbOS storage root mismatch"%string else Ok tt
      else if negb (state_root built =? GENESIS_STATE_ROOT) then Err "genesis state root mismatch"%string
      else Ok tt
  end.
End Verify.

(** ** verify-export *)

(** The accounts so far, and the address, storage root and slots of the current one. *)
Record ExportCheck := {
  ec_accounts : list (Z * TrieAccount); ec_addr_hash : Z; ec_storage_root : Z; ec_slots : list (Z * Z); ec_checked : Z;
  ec_acc : Z; ec_code : Z; ec_slot : Z
}.

Definition export_start : ExportCheck := {|
  ec_accounts := []; ec_addr_hash := 0; ec_storage_root := EMPTY_ROOT_HASH; ec_slots := []; ec_checked := 0; ec_acc := 0; ec_code := 0; ec_slot := 0
|}.

Section VerifyExport.
Context {BC : BlockCodec} {HC : HeadCodec} {TR : TrieRoots}.

Definition b256 (tok : string) : result string Z :=
  let? bs := ok_or "panic: hex b256"%string (hex_decode tok) in
  if (length bs =? 32)%nat then Ok (be_decode bs) else Err "panic: slice length"%string.

Definition u256 (tok : string) : result string Z := ok_or "panic: hex u256"%string (u256_from_hex tok).

Definition flush_storage (c : ExportCheck) : result string ExportCheck :=
  match ec_slots c with
  | [] => if ec_storage_root c =? EMPTY_ROOT_HASH then Ok c else Err "panic: storageRoot but no S records"%string
  | slots =>
      if storage_root_hashed slots =? ec_storage_root c then
        Ok {| ec_accounts := ec_accounts c; ec_addr_hash := ec_addr_hash c; ec_storage_root := ec_storage_root c; ec_slots := [];
              ec_checked := ec_checked c + 1; ec_acc := ec_acc c; ec_code := ec_code c; ec_slot := ec_slot c |}
      else Err "panic: storage root mismatch"%string
  end.

(** An account's fields, and the state after it. *)
Definition account_fields (parts : list string) : result string (Z * TrieAccount) :=
  let? '(hash, parts) := next_field parts in
  let? addr_hash := b256 hash in
  let? '(nonce, parts) := next_field parts in
  let? nonce := ok_or "invalid digit"%string (parse_u64 nonce) in
  let? '(balance, parts) := next_field parts in
  let? balance := u256 balance in
  let? '(code_hash, parts) := next_field parts in
  let? code_hash := b256 code_hash in
  let? '(storage_root, parts) := next_field parts in
  let? storage_root := b256 storage_root in
  Ok (addr_hash, {| ta_nonce := nonce; ta_balance := balance; ta_storage_root := storage_root; ta_code_hash := code_hash |}).

Definition slot_fields (parts : list string) : result string (Z * Z) :=
  let? '(slot, parts) := next_field parts in
  let? slot := b256 slot in
  let? '(value, parts) := next_field parts in
  let? value := u256 value in
  Ok (slot, value).

Definition export_line (c : ExportCheck) (line : result string string) : result string ExportCheck :=
  let? line := line in
  match split_whitespace line with
  | [] => Ok c
  | tag :: parts =>
      if decide (tag = "A"%string) then
        let? c := flush_storage c in
        let? '(addr_hash, account) := account_fields parts in
        Ok {| ec_accounts := ec_accounts c ++ [(addr_hash, account)]; ec_addr_hash := addr_hash; ec_storage_root := ta_storage_root account;
              ec_slots := ec_slots c; ec_checked := ec_checked c; ec_acc := ec_acc c + 1; ec_code := ec_code c; ec_slot := ec_slot c |}
      else if decide (tag = "S"%string) then
        let? slot := slot_fields parts in
        Ok {| ec_accounts := ec_accounts c; ec_addr_hash := ec_addr_hash c; ec_storage_root := ec_storage_root c;
              ec_slots := ec_slots c ++ [slot]; ec_checked := ec_checked c; ec_acc := ec_acc c; ec_code := ec_code c; ec_slot := ec_slot c + 1 |}
      else if decide (tag = "C"%string) then
        Ok {| ec_accounts := ec_accounts c; ec_addr_hash := ec_addr_hash c; ec_storage_root := ec_storage_root c; ec_slots := ec_slots c;
              ec_checked := ec_checked c; ec_acc := ec_acc c; ec_code := ec_code c + 1; ec_slot := ec_slot c |}
      else if decide (tag = "H"%string) then Ok c
      else if decide (tag = "B"%string) then Ok c
      else if decide (tag = "R"%string) then Ok c
      else Err "unknown record type"%string
  end.

(** The root that is printed. *)
Definition verify_export (expected_root : option string) (lines : list (result string string)) : result string Z :=
  let? expected := match expected_root with
                   | Some s => let? root := b256 (trim_hex_prefix s) in Ok (Some root)
                   | None => Ok None
                   end in
  let? c := try_fold export_line lines export_start in
  let? c := flush_storage c in
  let root := state_root_hashed (ec_accounts c) in
  match expected with
  | Some exp => if root =? exp then Ok root else Err "MISMATCH"%string
  | None => Ok root
  end.
End VerifyExport.

(** ** What a verified export is *)

(** The records of a stream, read without any check. *)
Inductive ExportRecord := ExAccount (addr_hash : Z) (account : TrieAccount) | ExSlot (slot value : Z) | ExOther.

(** The claimed storage root of each account with the slots that follow it; the first part is what
    comes before any account, which has no storage. *)
Fixpoint sections (root : Z) (slots : list (Z * Z)) (rs : list ExportRecord) : list (Z * list (Z * Z)) :=
  match rs with
  | [] => [(root, slots)]
  | ExAccount _ account :: rs => (root, slots) :: sections (ta_storage_root account) [] rs
  | ExSlot slot value :: rs => sections root (slots ++ [(slot, value)]) rs
  | ExOther :: rs => sections root slots rs
  end.

Definition accounts_of (rs : list ExportRecord) : list (Z * TrieAccount) :=
  omap (fun r => match r with ExAccount addr_hash account => Some (addr_hash, account) | _ => None end) rs.

Section Exact.
Context {BC : BlockCodec} {HC : HeadCodec} {TR : TrieRoots}.

Definition parse_export_line (line : result string string) : result string ExportRecord :=
  let? line := line in
  match split_whitespace line with
  | [] => Ok ExOther
  | tag :: parts =>
      if decide (tag = "A"%string) then let? '(addr_hash, account) := account_fields parts in Ok (ExAccount addr_hash account)
      else if decide (tag = "S"%string) then let? '(slot, value) := slot_fields parts in Ok (ExSlot slot value)
      else if decide (tag ∈ ["C"; "H"; "B"; "R"]%string) then Ok ExOther
      else Err "unknown record type"%string
  end.

Definition root_matches (part : Z * list (Z * Z)) : Prop :=
  match snd part with
  | [] => fst part = EMPTY_ROOT_HASH
  | slots => storage_root_hashed slots = fst part
  end.

Lemma flush_storage_Ok (c c' : ExportCheck) :
  flush_storage c = Ok c' -> root_matches (ec_storage_root c, ec_slots c) /\ ec_accounts c' = ec_accounts c /\ ec_slots c' = [].
Proof.
  unfold flush_storage, root_matches. cbn [fst snd]. destruct (ec_slots c) as [|x slots] eqn:E.
  - destruct (Z.eqb_spec (ec_storage_root c) EMPTY_ROOT_HASH); [|done]. by intros [= <-].
  - destruct (Z.eqb_spec (storage_root_hashed (x :: slots)) (ec_storage_root c)); [|done]. by intros [= <-].
Qed.

Lemma flush_storage_matches (c : ExportCheck) : root_matches (ec_storage_root c, ec_slots c) -> exists c', flush_storage c = Ok c'.
Proof.
  unfold flush_storage, root_matches. cbn [fst snd]. destruct (ec_slots c) as [|x slots]; intros ->; rewrite Z.eqb_refl; by eexists.
Qed.

(** What a line does to the state, by its record. *)
Definition line_effect (c : ExportCheck) (r : ExportRecord) (c' : ExportCheck) : Prop :=
  match r with
  | ExAccount addr_hash account =>
      root_matches (ec_storage_root c, ec_slots c) /\ ec_accounts c' = ec_accounts c ++ [(addr_hash, account)] /\
      ec_storage_root c' = ta_storage_root account /\ ec_slots c' = []
  | ExSlot slot value => ec_accounts c' = ec_accounts c /\ ec_storage_root c' = ec_storage_root c /\ ec_slots c' = ec_slots c ++ [(slot, value)]
  | ExOther => ec_accounts c' = ec_accounts c /\ ec_storage_root c' = ec_storage_root c /\ ec_slots c' = ec_slots c
  end.

Lemma export_line_Ok (c c' : ExportCheck) (line : result string string) :
  export_line c line = Ok c' -> exists r, parse_export_line line = Ok r /\ line_effect c r c'.
Proof.
  unfold export_line, parse_export_line. destruct line as [line|]; [|done]. cbn [rbind].
  destruct (split_whitespace line) as [|tag parts]; [intros [= <-]; by exists ExOther|].
  destruct (decide (tag = "A"%string)) as [->|]; [|destruct (decide (tag = "S"%string)) as [->|]].
  - intros H. apply rbind_Ok in H as (c1 & (Hr & Ha & Hs)%flush_storage_Ok & H). apply rbind_Ok in H as ([h a] & -> & [= <-]). cbn [rbind].
    eexists. split; [done|]. cbn. by rewrite Ha, Hs.
  - intros H. apply rbind_Ok in H as ([slot value] & -> & [= <-]). cbn [rbind]. by eexists.
  - intros H. assert (tag ∈ ["C"; "H"; "B"; "R"]%string) as Hin by (repeat case_decide; subst; try done; set_solver).
    rewrite decide_True by done. exists ExOther. split; [done|]. repeat case_decide; subst; try done; by injection H as <-.
Qed.

Lemma export_line_runs (c : ExportCheck) (line : result string string) (r : ExportRecord) :
  parse_export_line line = Ok r -> (forall h a, r = ExAccount h a -> root_matches (ec_storage_root c, ec_slots c)) ->
  exists c', export_line c line = Ok c' /\ line_effect c r c'.
Proof.
  intros Hp Hm. enough (exists c', export_line c line = Ok c') as [c' Hc'].
  { exists c'. split; [done|]. destruct (export_line_Ok _ _ _ Hc') as (r' & Hr' & Heff). congruence. }
  unfold export_line, parse_export_line in *. destruct line as [line|]; [|done]. cbn [rbind] in *.
  destruct (split_whitespace line) as [|tag parts]; [by eexists|]. destruct (decide (tag = "A"%string)) as [->|].
  - apply rbind_Ok in Hp as ([h a] & -> & [= <-]). destruct (flush_storage_matches c (Hm _ _ eq_refl)) as [c1 ->]. by eexists.
  - destruct (decide (tag = "S"%string)) as [->|]; [apply rbind_Ok in Hp as ([slot value] & -> & _); by eexists|].
    case_decide as Hin; [|done]. repeat (apply elem_of_cons in Hin as [->|Hin]; [by eexists|]). by apply elem_of_nil in Hin.
Qed.

(** The loop and the last flush, against the records. *)
Lemma export_loop_Ok (lines : list (result string string)) (c c1 c2 : ExportCheck) :
  try_fold export_line lines c = Ok c1 -> flush_storage c1 = Ok c2 ->
  exists rs, try_map parse_export_line lines = Ok rs /\ Forall root_matches (sections (ec_storage_root c) (ec_slots c) rs) /\
    ec_accounts c2 = ec_accounts c ++ accounts_of rs.
Proof.
  revert c. induction lines as [|line lines IH]; intros c H H2; cbn [try_fold] in H.
  - injection H as ->. apply flush_storage_Ok in H2 as (Hr & Ha & _). exists []. cbn. rewrite app_nil_r. split_and!; [done|by constructor|done].
  - apply rbind_Ok in H as (c' & (r & Hr & Heff)%export_line_Ok & H). destruct (IH c' H H2) as (rs & Hrs & Hall & Hacc).
    exists (r :: rs). cbn [try_map]. rewrite Hr, Hrs. split; [done|]. rewrite Hacc.
    destruct r as [h a|slot value|]; destruct Heff as (E1 & E2 & E3); [destruct E3 as [E3 E4]; rewrite E2, E3, E4 in *|rewrite E1, E2, E3 in *..];
      cbn; rewrite <- ?app_assoc; (split; [|done]); [by constructor|done..].
Qed.

Lemma export_loop_runs (lines : list (result string string)) (c : ExportCheck) (rs : list ExportRecord) :
  try_map parse_export_line lines = Ok rs -> Forall root_matches (sections (ec_storage_root c) (ec_slots c) rs) ->
  exists c1 c2, try_fold export_line lines c = Ok c1 /\ flush_storage c1 = Ok c2.
Proof.
  revert c rs. induction lines as [|line lines IH]; intros c rs H Hall; cbn [try_map try_fold] in *.
  - injection H as <-. apply Forall_cons in Hall as [Hm _]. destruct (flush_storage_matches c Hm) as [c2 Hc2]. by exists c, c2.
  - apply rbind_Ok in H as (r & Hr & H). apply rbind_Ok in H as (rs' & Hrs & [= <-]).
    destruct (export_line_runs c line r Hr) as (c' & -> & Heff).
    { intros h a ->. by apply Forall_cons in Hall as [Hm _]. }
    cbn [rbind]. apply (IH c' rs' Hrs). destruct r as [h a|slot value|]; cbn in Heff.
    + destruct Heff as (_ & _ & -> & ->). by apply Forall_cons in Hall as [_ Hall].
    + by destruct Heff as (_ & -> & ->).
    + by destruct Heff as (_ & -> & ->).
Qed.

(** A state export is verified exactly when every line is a record, the slots after each account
    have the storage root that the account claims (and nothing but the empty root stands for no
    slots), and the accounts have the expected state root. *)
Theorem verify_export_exact (expected : string) (lines : list (result string string)) (root : Z) :
  verify_export (Some expected) lines = Ok root <->
  exists rs, try_map parse_export_line lines = Ok rs /\ b256 (trim_hex_prefix expected) = Ok root /\
    Forall root_matches (sections EMPTY_ROOT_HASH [] rs) /\ state_root_hashed (accounts_of rs) = root.
Proof.
  unfold verify_export. split.
  - intros H. apply rbind_Ok in H as (exp & He & H). apply rbind_Ok in He as (r & Hr & [= <-]).
    apply rbind_Ok in H as (c1 & H1 & H). apply rbind_Ok in H as (c2 & H2 & H).
    destruct (export_loop_Ok _ _ _ _ H1 H2) as (rs & Hrs & Hall & Hacc). cbn in Hacc.
    destruct (Z.eqb_spec (state_root_hashed (ec_accounts c2)) r) as [Heq|]; [|done]. injection H as <-.
    exists rs. rewrite <- Hacc. split_and!; try done. by rewrite Hr, Heq.
  - intros (rs & Hrs & -> & Hall & Hroot). cbn [rbind]. destruct (export_loop_runs lines export_start rs Hrs Hall) as (c1 & c2 & H1 & H2).
    destruct (export_loop_Ok _ _ _ _ H1 H2) as (rs' & Hrs' & _ & Hacc). rewrite Hrs in Hrs'. injection Hrs' as <-. cbn in Hacc.
    rewrite H1. cbn [rbind]. rewrite H2. cbn [rbind]. rewrite Hacc, Hroot, Z.eqb_refl. done.
Qed.
End Exact.
