(* ===== verification/Simulate.v ===== *)
(** * Simulation at an execution frontier

    [crates/arb-reth-node/src/mev_frontier_rpc.rs]: [arb_simulateAtFrontier] runs a call on the state
    right after a transaction of a block that is still being built. The frontier it names holds the
    parent, the cache after the pre-execution changes, the updates of the block so far, the
    environment and the chain context; revm's [State] is opened over the parent, the updates are
    committed to it, and the call runs there. JSON, the conversion of a request to a transaction and
    the EVM itself are parameters. *)

From Stdlib Require Import Strings.Byte Strings.String.
From stdpp Require Import base list numbers option strings gmap relations.
From S2P Require Import Prelude External TxLog StoredReceipt L1Decode BlockExecutor Production ProductionSpec.

(** ** Requests, answers and errors *)

Definition FRONTIER_UNAVAILABLE : Z := -32001.
Definition INVALID_PARAMS : Z := -32602.
Definition INTERNAL_ERROR : Z := -32603.
Definition SERVER_ERROR : Z := -32000.

Inductive ErrorData := ErrorText (text : string) | ErrorId (id : Z).

(** [ErrorObjectOwned] *)
Record ErrorObject := { eo_code : Z; eo_message : string; eo_data : ErrorData }.

Definition owned (code : Z) (message : string) (error : string) : ErrorObject := {|
  eo_code := code; eo_message := message; eo_data := ErrorText error
|}.

(** [ExecutionResult] by its variant. *)
Inductive SimulationStatus := Success | Revert | Halt (reason : string).

(** The environment of a simulation: the frontier's, with the switches that production leaves off. *)
Record SimulationEnv {Spec : Type} := {
  se_env : EvmEnv Spec; disable_eip3607 : bool; disable_block_gas_limit : bool; disable_nonce_check : bool; disable_base_fee : bool
}.
Arguments SimulationEnv : clear implicits.

(** revm's [State], the request type and its conversion, and one execution: its result and the poster
    gas that it leaves in the chain context. *)
Class FrontierVm {AR : ArbRevm} := {
  SimState : Type;
  sim_open : StateProvider -> CacheState -> SimState;
  sim_commit : EvmState -> SimState -> SimState;
  TxRequest : Type;
  request_gas : TxRequest -> option Z;
  set_request_gas : Z -> TxRequest -> TxRequest;
  SimTx : Type;
  try_into_tx_env : TxRequest -> SimulationEnv ArbSpecId -> result string SimTx;
  SimResult : Type;
  sim_status : SimResult -> SimulationStatus;
  sim_output : SimResult -> option bytes;
  sim_gas_used : SimResult -> Z;
  sim_logs : SimResult -> list Log;
  sim_created_address : SimResult -> option Z;
  sim_transact : SimState -> SimulationEnv ArbSpecId -> ArbChainContext -> SimTx -> result string (SimResult * Z)
}.

Section Simulation.
Context {K : Keccak} {AR : ArbRevm} {FV : FrontierVm}.

Abbreviation Frontier := (ArbExecutionFrontier EvmState (EvmEnv ArbSpecId) CacheState ArbChainContext).

Abbreviation FrontierStore := (ArbExecutionFrontierStore (EvmState := EvmState) (EvmEnv := EvmEnv ArbSpecId)
  (CacheState := CacheState) (ChainContext := ArbChainContext)).

Record ArbFrontierSimulationRequest := { rq_frontier_id : Z; rq_transaction : TxRequest; rq_validation : bool }.

Record ArbFrontierSimulationResult := {
  sr_frontier_id : Z; sr_block_number : Z; sr_transaction_index : Z; sr_transaction_hash : Z; sr_status : string;
  sr_return_data : bytes; sr_gas_used : Z; sr_gas_used_for_l1 : Z; sr_logs : list Log; sr_created_address : option Z;
  sr_error : option string
}.

(** ** The environment of a call *)

Definition set_basefee (fee : Z) (b : ArbBlockEnv) : ArbBlockEnv := {|
  env_inner := {| be_number := be_number (env_inner b); be_beneficiary := be_beneficiary (env_inner b);
                  be_timestamp := be_timestamp (env_inner b); be_gas_limit := be_gas_limit (env_inner b); be_basefee := fee;
                  be_difficulty := be_difficulty (env_inner b); be_prevrandao := be_prevrandao (env_inner b) |};
  env_l1_block_number := env_l1_block_number b; env_base_fee_in_block := env_base_fee_in_block b
|}.

Definition set_tx_gas_limit_cap (cap : Z) (c : CfgEnv ArbSpecId) : CfgEnv ArbSpecId := {|
  cfg_spec := cfg_spec c; cfg_chain_id := cfg_chain_id c; disable_priority_fee_check := disable_priority_fee_check c;
  disable_balance_check := disable_balance_check c; disable_eip7623 := disable_eip7623 c; disable_eip3541 := disable_eip3541 c;
  tx_gas_limit_cap := Some cap; limit_contract_code_size := limit_contract_code_size c
|}.

Definition simulation_env (env : EvmEnv ArbSpecId) (gas_cap : Z) (validation : bool) : SimulationEnv ArbSpecId := {|
  se_env := {| env_cfg := set_tx_gas_limit_cap (if gas_cap =? 0 then U64_MAX else gas_cap) (env_cfg env);
               env_block := if validation then env_block env else set_basefee 0 (env_block env) |};
  disable_eip3607 := true; disable_block_gas_limit := true; disable_nonce_check := negb validation; disable_base_fee := negb validation
|}.

Definition capped_request (gas_cap : Z) (transaction : TxRequest) : TxRequest :=
  let over := match request_gas transaction with Some gas => gas_cap <? gas | None => true end in
  if negb (gas_cap =? 0) && over then set_request_gas gas_cap transaction else transaction.

(** ** The method *)

(** [simulate] once the state is there: [run] is the EVM over it. *)
Definition answer (gas_cap : Z) (frontier_id block_number transaction_index transaction_hash : Z) (env : EvmEnv ArbSpecId)
    (chain_context : ArbChainContext)
    (run : SimulationEnv ArbSpecId -> ArbChainContext -> SimTx -> result string (SimResult * Z))
    (request : ArbFrontierSimulationRequest) : result ErrorObject ArbFrontierSimulationResult :=
  let evm_env := simulation_env env gas_cap (rq_validation request) in
  let? tx := map_err (owned INVALID_PARAMS "invalid simulated transaction")
               (try_into_tx_env (capped_request gas_cap (rq_transaction request)) evm_env) in
  let? '(res, gas_used_for_l1) := map_err (owned SERVER_ERROR "frontier simulation failed") (run evm_env chain_context tx) in
  let '(status, error) :=
    match sim_status res with
    | Success => ("success"%string, None)
    | Revert => ("revert"%string, None)
    | Halt reason => ("halt"%string, Some reason)
    end in
  Ok {| sr_frontier_id := frontier_id; sr_block_number := block_number; sr_transaction_index := transaction_index;
        sr_transaction_hash := transaction_hash; sr_status := status; sr_return_data := default [] (sim_output res);
        sr_gas_used := sim_gas_used res; sr_gas_used_for_l1 := gas_used_for_l1; sr_logs := sim_logs res;
        sr_created_address := sim_created_address res; sr_error := error |}.

(** The state of a frontier: the parent with the cached prestate, then every update of the block. *)
Definition frontier_state (provider : StateProvider) (frontier : Frontier) : SimState :=
  fold_left (fun state update => sim_commit update state) (state_updates frontier)
    (sim_open provider (pre_execution_state frontier)).

Definition simulate (state_by_block_hash : Z -> result string StateProvider) (gas_cap : Z) (frontier : Frontier)
    (request : ArbFrontierSimulationRequest) : result ErrorObject ArbFrontierSimulationResult :=
  let? provider := map_err (owned FRONTIER_UNAVAILABLE "frontier parent state unavailable")
                     (state_by_block_hash (TxLog.parent_hash frontier)) in
  answer gas_cap (frontier_id frontier) (ef_block_number frontier) (ef_transaction_index frontier) (ef_transaction_hash frontier)
    (TxLog.evm_env frontier) (ef_chain_context frontier) (sim_transact (frontier_state provider frontier)) request.

(** The registered method: the parsed parameters, and how the blocking task ended. *)
Definition simulate_at_frontier (store : FrontierStore) (state_by_block_hash : Z -> result string StateProvider) (gas_cap : Z)
    (params : result string ArbFrontierSimulationRequest) (joined : result string unit)
    : result ErrorObject ArbFrontierSimulationResult :=
  let? request := map_err (owned INVALID_PARAMS "invalid frontier simulation request") params in
  let? frontier := ok_or {| eo_code := FRONTIER_UNAVAILABLE; eo_message := "execution frontier unavailable or expired";
                            eo_data := ErrorId (rq_frontier_id request) |} (store_get store (rq_frontier_id request)) in
  let? _ := map_err (owned INTERNAL_ERROR "frontier simulation task failed") joined in
  simulate state_by_block_hash gas_cap frontier request.
End Simulation.

(** ** What is relied on *)

(** An EVM over a provider: made there and changed by the calls of production. *)
Inductive made_over {AR : ArbRevm} (p : StateProvider) : Evm -> Prop :=
| made_new env : made_over p (evm_new p env)
| made_l1 n e : made_over p e -> made_over p (set_l1_block_number n e)
| made_hook b e : made_over p e -> made_over p (set_state_hook b e)
| made_system a b d e : made_over p e -> made_over p (snd (transact_system_call e a b d))
| made_commit u e : made_over p e -> made_over p (evm_commit u e)
| made_read_fee e : made_over p e -> made_over p (snd (read_base_fee_wei e))
| made_block f e : made_over p e -> made_over p (modify_block f e)
| made_fee n e : made_over p e -> made_over p (set_base_fee_in_block n e).

(** revm: the cache of an EVM, put over the provider the EVM was made on, shows the provider's state
    with the updates that were committed; a commit adds one; and a call sees the state only through
    this view. *)
Class FrontierVmLaws {AR : ArbRevm} {AL : ArbRevmLaws} {FV : FrontierVm} := {
  StateView : Type;
  look : StateProvider -> list EvmState -> StateView;
  sim_view : SimState -> StateView;
  view_transact : StateView -> SimulationEnv ArbSpecId -> ArbChainContext -> SimTx -> result string (SimResult * Z);
  open_view : forall p e, made_over p e -> sim_view (sim_open p (cache e)) = look p (committed e);
  sim_commit_view : forall p us s u, sim_view s = look p us -> sim_view (sim_commit u s) = look p (us ++ [u]);
  transact_by_view : forall s env c tx, sim_transact s env c tx = view_transact (sim_view s) env c tx
}.

Section Exact.
Context {K : Keccak} {AR : ArbRevm} {RC : ReceiptCodec} {DG : Digest} {BB : BlockBuilder} {AL : ArbRevmLaws} {BL : BlockBuilderLaws}
  {FV : FrontierVm} {FL : FrontierVmLaws}.

Abbreviation Frontier := (ArbExecutionFrontier EvmState (EvmEnv ArbSpecId) CacheState ArbChainContext).

(** ** A block while it is built *)

(** The loop of [produce_with_timing] before its first turn. *)
Definition opening (parent : SealedHeader) (ex : ArbBlockExecutor) (input : ArbExecutionInput) (handle : StreamHandle) : ProduceLoop := {|
  pl_building := (ex, []); pl_first := start_block_tx ex; pl_redeems := [];
  pl_user_txs := (fun tx => (tx, tx_sender tx)) <$> mi_txs input; pl_transaction_index := 0;
  pl_stream := Some (begin_stream parent ex handle)
|}.

Definition turn (chain_id block : Z) (st st' : ProduceLoop) : Prop := produce_step chain_id block st = Ok (Some st').

(** [e] is the EVM right after the transaction was executed and committed. *)
Definition after_transaction (chain_id block : Z) (st0 : ProduceLoop) (x : Included) (e : Evm) : Prop :=
  exists st st1 sender b, rtc (turn chain_id block) st0 st /\ next_transaction st = Some (in_tx x, Ok sender, in_kind x, st1) /\
    execute_transaction_with_result_closure (pl_building st) (in_tx x) sender = (Ok (in_result x), b) /\ e = ex_evm (fst b).

Definition states (tr : list (Included * Evm)) : list EvmState := (fun t => tr_state (in_result (fst t))) <$> tr.

(** What production did since the block was opened: the transactions included and the EVM after each. *)
Record tracked (chain_id block : Z) (st0 : ProduceLoop) (s0 : TxLogStream) (st : ProduceLoop) (tr : list (Included * Evm)) : Prop := {
  tk_reached : rtc (turn chain_id block) st0 st;
  tk_txs : snd (pl_building st) = (fun t => in_tx (fst t)) <$> tr;
  tk_view : committed (ex_evm (fst (pl_building st))) = committed (ex_evm (fst (pl_building st0))) ++ states tr /\
    evm_env_of (ex_evm (fst (pl_building st))) = evm_env_of (ex_evm (fst (pl_building st0)));
  tk_each : forall i x e, tr !! i = Some (x, e) -> after_transaction chain_id block st0 x e /\ in_chain x = chain e /\
    committed e = committed (ex_evm (fst (pl_building st0))) ++ states (take (S i) tr) /\
    evm_env_of e = evm_env_of (ex_evm (fst (pl_building st0)));
  tk_index : pl_transaction_index st = wrap64 (Z.of_nat (length tr));
  tk_stream : exists s, pl_stream st = Some s /\ stream_follows block s0 s (fst <$> tr)
}.

Lemma states_snoc (tr : list (Included * Evm)) (t : Included * Evm) : states (tr ++ [t]) = states tr ++ [tr_state (in_result (fst t))].
Proof. unfold states. by rewrite fmap_app. Qed.

Lemma view_parts (e e' : Evm) : view e = view e' -> committed e = committed e' /\ evm_env_of e = evm_env_of e'.
Proof. unfold view. by intros [= -> _ _ ->]. Qed.

Lemma commit_parts (u : EvmState) (e : Evm) : committed (evm_commit u e) = committed e ++ [u] /\ evm_env_of (evm_commit u e) = evm_env_of e.
Proof. pose proof (commit_view u e) as H. unfold view in H. by injection H as -> _ _ ->. Qed.

Lemma tracked_step (chain_id block : Z) (st0 st st' : ProduceLoop) (s0 : TxLogStream) (tr : list (Included * Evm)) :
  tracked chain_id block st0 s0 st tr -> turn chain_id block st st' -> exists tr', tracked chain_id block st0 s0 st' tr'.
Proof.
  intros [T1 T2 [T3 T3'] T4 T5 (s & Hs & T6)] H.
  assert (Hr : rtc (turn chain_id block) st0 st') by (eapply rtc_r; [exact T1|exact H]).
  apply produce_step_cases in H as (tx & kind & st1 & sender & Hn & [H|H]).
  - destruct H as (evm & err & _ & _ & [Hc He]%view_parts & Hb & Hi & Hst). exists tr. split; rewrite ?Hb; cbn [fst snd with_evm ex_evm]; try done.
    + by rewrite Hc, He.
    + by rewrite Hi.
    + rewrite Hst, Hs. eexists. split; [done|]. by apply stream_follows_pass.
  - destruct H as (res & evm & evm2 & _ & [Hc He]%view_parts & [Hc2 He2]%view_parts & Hb & Hi & Hst & _ & b & Hx & Hxe).
    destruct (commit_parts (tr_state res) (ex_evm (fst (pl_building st)))) as [C1 C2].
    set (x := {| in_tx := tx; in_result := res; in_kind := kind; in_chain := chain evm |}). exists (tr ++ [(x, evm)]).
    split; rewrite ?Hb, ?fmap_app, ?states_snoc; cbn [fst snd with_evm commit_transaction ex_evm fmap list_fmap in_tx in_result x].
    + done.
    + by rewrite T2.
    + rewrite Hc2, He2, Hc, He, C1, C2, T3, T3', app_assoc. done.
    + intros i y e Hy. destruct (decide (i < length tr)%nat) as [Hlt|Hge].
      * rewrite lookup_app_l in Hy by done. destruct (T4 i y e Hy) as (A1 & A2 & A3 & A4). rewrite take_app_le by lia. done.
      * assert (i = length tr) as ->.
        { apply lookup_lt_Some in Hy. rewrite length_app in Hy. cbn in Hy. lia. }
        rewrite list_lookup_middle in Hy by done. injection Hy as <- <-. split_and!.
        -- exists st, st1, sender, b. done.
        -- done.
        -- rewrite take_ge by (rewrite length_app; cbn; lia). rewrite states_snoc, app_assoc. cbn [fst in_result x]. by rewrite Hc, C1, T3.
        -- by rewrite He, C2, T3'.
    + rewrite Hi, T5, length_app. unfold wrapping_add, wrap64. cbn [length]. rewrite Zplus_mod_idemp_l. f_equal. lia.
    + rewrite Hst, Hs. eexists. split; [done|]. rewrite T5. replace (length tr) with (length (fst <$> tr)) by apply length_fmap.
      by apply (stream_follows_observe block s0 s (fst <$> tr) x evm).
Qed.
Lemma tracked_reach (chain_id block : Z) (parent : SealedHeader) (ex : ArbBlockExecutor) (input : ArbExecutionInput) (handle : StreamHandle)
    (st : ProduceLoop) :
  rtc (turn chain_id block) (opening parent ex input handle) st ->
  exists tr, tracked chain_id block (opening parent ex input handle) (begin_stream parent ex handle) st tr.
Proof.
  intros H. pattern st. revert st H. apply rtc_ind_r.
  - exists []. split; cbn; try done.
    + by rewrite app_nil_r.
    + eexists. split; [done|]. split_and!; try done.
  - intros x y _ Hxy [tr Htr]. by eapply tracked_step.
Qed.

Lemma opened_over (config : ArbEvmConfig) (chain_id : Z) (parent : SealedHeader) (input : ArbExecutionInput) (p : StateProvider)
    (hook : bool) (ex : ArbBlockExecutor) :
  open_block config chain_id parent input p hook = Ok ex -> made_over p (ex_evm ex).
Proof.
  unfold open_block. intros H. apply rbind_Ok in H as (ex1 & Hpre & H). unfold apply_pre_execution_changes in Hpre.
  set (ex0 := if hook then _ else _) in Hpre.
  assert (Hm : made_over p (ex_evm ex0)).
  { unfold ex0. destruct hook; cbn; repeat constructor. }
  clearbody ex0. destruct (transact_system_call (ex_evm ex0) _ _ _) as [res evm] eqn:Hsys.
  assert (Hm1 : made_over p evm) by (replace evm with (snd (res, evm)) by done; rewrite <- Hsys; by constructor).
  apply rbind_Ok in Hpre as (update & -> & [= <-]). cbn [ex_evm with_evm] in H.
  destruct (read_base_fee_wei (evm_commit update evm)) as [raw evm2] eqn:Hfee.
  assert (Hm2 : made_over p evm2) by (replace evm2 with (snd (raw, evm2)) by done; rewrite <- Hfee; by repeat constructor).
  apply rbind_Ok in H as (fee & -> & [= <-]). cbn [ex_evm with_evm]. by repeat constructor.
Qed.

(** The loop of production is a run of turns. *)
Lemma produce_loop_turns (fuel : nat) (chain_id block : Z) (st st' : ProduceLoop) :
  produce_loop fuel chain_id block st = Ok st' -> rtc (turn chain_id block) st st'.
Proof.
  revert st. induction fuel as [|fuel IH]; intros st H; [done|]. cbn [produce_loop] in H. apply rbind_Ok in H as ([st1|] & Hst & H).
  - eapply rtc_l; [exact Hst|]. by apply IH.
  - injection H as <-. apply rtc_refl.
Qed.

(** ** The frontiers of the block *)

(** The frontier of the transaction at a position of a block with base [base]. *)
Definition frontier_at (base : FrontierBlockBase (EvmEnv ArbSpecId) CacheState) (block : Z) (l : list Included) (i : nat) (x : Included)
    : Frontier := {|
  frontier_id := keccak256 (identity (base_parent_hash base) block (wrap64 (Z.of_nat i)) (tx_hash (in_tx x)));
  ef_block_number := block; ef_transaction_index := wrap64 (Z.of_nat i); ef_transaction_hash := tx_hash (in_tx x);
  ef_chain_context := in_chain x; ef_base := base;
  ef_tail := Delta (TxLog.chain ((fun y => tr_state (in_result y)) <$> take i l)) (tr_state (in_result x))
|}.

Lemma imap_snoc_take {A B : Type} (f : list A -> nat -> A -> B) (l : list A) (x : A) :
  (forall i k k', take i k = take i k' -> forall y, f k i y = f k' i y) ->
  imap (f (l ++ [x])) (l ++ [x]) = imap (f l) l ++ [f l (length l) x].
Proof.
  intros Hf. rewrite imap_app. f_equal.
  - apply imap_ext. intros i y Hy. apply Hf. apply lookup_lt_Some in Hy. rewrite take_app_le by lia. done.
  - cbn. rewrite Nat.add_0_r. f_equal. apply Hf. by rewrite take_app_le by lia.
Qed.

Lemma advances_store (block : Z) (base : FrontierBlockBase (EvmEnv ArbSpecId) CacheState)
    (store0 : ArbExecutionFrontierStore (EvmState := EvmState) (ChainContext := ArbChainContext)) (l : list Included) :
  builder_run {| bl_store := store0; bl_blocks := [{| fb_base := base; fb_tail := None |}] |} (advances block l) =
    Some {| bl_store := foldl store_insert store0 (imap (frontier_at base block l) l);
            bl_blocks := [{| fb_base := base; fb_tail := TxLog.chain ((fun y => tr_state (in_result y)) <$> l) |}] |}.
Proof.
  induction l as [|x l IH] using rev_ind; [done|]. unfold advances in *. rewrite imap_app. cbn [imap]. rewrite Nat.add_0_r, builder_run_snoc, IH.
  cbn. rewrite imap_snoc_take; [|intros i k k' Hk y; unfold frontier_at; by rewrite Hk]. rewrite foldl_app, fmap_app. cbn.
  unfold TxLog.chain. rewrite foldl_app. cbn. unfold frontier_at. rewrite take_ge by lia. done.
Qed.

(** The identifiers of a block's frontiers. *)
Definition block_ids (parent_hash block : Z) (txs : list ArbTxEnvelope) : list Z :=
  imap (fun i tx => keccak256 (identity parent_hash block (wrap64 (Z.of_nat i)) (tx_hash tx))) txs.

Lemma frontier_at_ids (base : FrontierBlockBase (EvmEnv ArbSpecId) CacheState) (block : Z) (l : list Included) :
  ids (imap (frontier_at base block l) l) = block_ids (base_parent_hash base) block (in_tx <$> l).
Proof.
  unfold ids, block_ids. apply list_eq. intros i. rewrite list_lookup_fmap, !list_lookup_imap, list_lookup_fmap. by destruct (l !! i).
Qed.

(** The state of a frontier, through its view. *)
Lemma frontier_state_view (p : StateProvider) (e0 : Evm) (f : Frontier) :
  made_over p e0 -> pre_execution_state f = cache e0 -> sim_view (frontier_state p f) = look p (committed e0 ++ state_updates f).
Proof.
  intros Hm Hpre. unfold frontier_state. rewrite Hpre. pose proof (open_view p e0 Hm) as Ho.
  generalize (sim_open p (cache e0)) (committed e0) Ho. clear. induction (state_updates f) as [|u us IH]; intros s done H; cbn.
  - by rewrite app_nil_r.
  - rewrite (IH (sim_commit u s) (done ++ [u])); [|by apply sim_commit_view]. by rewrite <- app_assoc.
Qed.
Lemma events_ids (parent_hash block : Z) (l : list Included) :
  te_frontier_id <$> events parent_hash block l = block_ids parent_hash block (in_tx <$> l).
Proof.
  unfold events, block_ids. apply list_eq. intros i. rewrite list_lookup_fmap, !list_lookup_imap, list_lookup_fmap. by destruct (l !! i).
Qed.

Lemma sublist_of_fmap {A B : Type} (f : A -> B) (l k : list A) : sublist l k -> sublist (f <$> l) (f <$> k).
Proof. induction 1; cbn; by constructor. Qed.

(** What the store holds once the frontiers of the block are between others. *)
Lemma store_finds (cap : nat) (fs : list Frontier) (id : Z) (f : Frontier) :
  NoDup (ids fs) -> f ∈ fs -> frontier_id f = id -> id ∈ drop (length (ids fs) - Nat.max cap 1) (ids fs) -> store_get (insert_all cap fs) id = Some f.
Proof.
  intros Hnd Hf <- Hin. apply insert_all_exact. rewrite arrivals_nodup by done. split; [exact Hin|].
  destruct (latest_nodup fs f Hnd Hf) as (l & r & Hfs & Hr). by exists l, r.
Qed.

Lemma store_misses (cap : nat) (fs : list Frontier) (id : Z) :
  NoDup (ids fs) -> id ∉ drop (length (ids fs) - Nat.max cap 1) (ids fs) -> store_get (insert_all cap fs) id = None.
Proof.
  intros Hnd Hin. destruct (store_get (insert_all cap fs) id) as [f|] eqn:Hf; [|done]. exfalso. apply Hin.
  apply insert_all_exact in Hf as [Hf _]. by rewrite arrivals_nodup in Hf.
Qed.

Lemma frontier_at_state (base : FrontierBlockBase (EvmEnv ArbSpecId) CacheState) (block : Z) (tr : list (Included * Evm)) (i : nat) (x : Included) (e : Evm) :
  tr !! i = Some (x, e) -> state_updates (frontier_at base block (fst <$> tr) i x) = states (take (S i) tr).
Proof.
  intros H. unfold state_updates, frontier_at. cbn [ef_tail]. rewrite chain_walk. rewrite (take_S_r _ _ _ H), states_snoc. f_equal.
  unfold states. rewrite <- fmap_take, <- list_fmap_compose. done.
Qed.

Lemma answer_ext (gas_cap id n t h : Z) (env : EvmEnv ArbSpecId) (c : ArbChainContext)
    (run run' : SimulationEnv ArbSpecId -> ArbChainContext -> SimTx -> result string (SimResult * Z)) (request : ArbFrontierSimulationRequest) :
  (forall env c tx, run env c tx = run' env c tx) -> answer gas_cap id n t h env c run request = answer gas_cap id n t h env c run' request.
Proof. intros H. unfold answer. destruct (map_err _ _) as [tx|]; cbn [rbind]; [|done]. by rewrite H. Qed.

(** C18. A simulation runs on the exact state that the streamed transaction left. Take a block at any
    point while it is built, over a store that served other blocks before and serves others after, and
    no two frontiers under one identifier. Every event published for the block names the frontier of
    one of its transactions. For an identifier among the last ones the store can hold, and a parent
    whose state is there, the method answers what the EVM gives on the state, environment and chain
    context of production right after that transaction, with only the documented checks relaxed; if
    the parent's state is gone it says so, and for every other identifier it refuses: no other state
    is ever used. *)
Theorem simulation_exact (config : ArbEvmConfig) (chain_id : Z) (parent : SealedHeader) (input : ArbExecutionInput) (exec_state : StateProvider)
    (hook : bool) (ex : ArbBlockExecutor) (handle : StreamHandle) (cap : nat) (earlier later : list Frontier) (st : ProduceLoop) :
  let block := wrapping_add (number (sealed_header parent)) 1 in
  let st0 := opening parent ex input handle in
  let txs := snd (pl_building st) in
  let own := block_ids (sealed_hash parent) block txs in
  let all := ids earlier ++ own ++ ids later in
  let held := drop (length all - Nat.max cap 1) all in
  sth_store handle = insert_all cap earlier -> open_block config chain_id parent input exec_state hook = Ok ex ->
  rtc (turn chain_id block) st0 st -> NoDup all ->
  exists s, pl_stream st = Some s /\ sublist (te_frontier_id <$> ts_published s) own /\
  let store := foldl store_insert (ts_store s) later in
  (forall i tx id, txs !! i = Some tx -> own !! i = Some id -> id ∈ held ->
     exists x e, in_tx x = tx /\ after_transaction chain_id block st0 x e /\
       forall state_by_block_hash gas_cap request, rq_frontier_id request = id ->
         (state_by_block_hash (sealed_hash parent) = Ok exec_state ->
          simulate_at_frontier store state_by_block_hash gas_cap (Ok request) (Ok tt) =
            answer gas_cap id block (wrap64 (Z.of_nat i)) (tx_hash tx) (evm_env_of e) (chain e)
              (view_transact (look exec_state (committed e))) request) /\
         (forall error, state_by_block_hash (sealed_hash parent) = Err error ->
          simulate_at_frontier store state_by_block_hash gas_cap (Ok request) (Ok tt) =
            Err (owned FRONTIER_UNAVAILABLE "frontier parent state unavailable" error))) /\
  (forall state_by_block_hash gas_cap request joined, rq_frontier_id request ∉ held ->
     simulate_at_frontier store state_by_block_hash gas_cap (Ok request) joined =
       Err {| eo_code := FRONTIER_UNAVAILABLE; eo_message := "execution frontier unavailable or expired";
              eo_data := ErrorId (rq_frontier_id request) |}).
Proof.
  intros block st0 txs own all held Hstore Hopen Hreach Hnd. pose proof (opened_over _ _ _ _ _ _ _ Hopen) as Hmade.
  destruct (tracked_reach _ _ _ _ _ _ _ Hreach) as [tr [_ Htxs _ Heach _ (s & Hs & Hbase & Hrun & Hpub & _)]].
  cbn [begin_stream ts_block ts_store] in Hrun, Hpub. unfold begin_frontier_block in Hrun, Hpub. rewrite advances_store in Hrun. injection Hrun as Hts _. set (base := {| base_parent_hash := sealed_hash parent |}) in Hts.
  set (fs := imap (frontier_at base block (fst <$> tr)) (fst <$> tr)) in Hts.
  assert (Hown : ids fs = own).
  { unfold fs. rewrite frontier_at_ids. unfold own, txs. rewrite Htxs, <- list_fmap_compose. done. }
  assert (Hall : ids (earlier ++ fs ++ later) = all) by (unfold ids, all in *; by rewrite !fmap_app, Hown).
  exists s. split; [done|]. split.
  { rewrite <- Hown. unfold fs. rewrite frontier_at_ids, <- events_ids. by apply sublist_of_fmap. }
  intros store. assert (Hst : store = insert_all cap (earlier ++ fs ++ later)).
  { unfold store. rewrite <- Hts. cbn [begin_stream ts_store]. rewrite Hstore. unfold insert_all. by rewrite !foldl_app. }
  clearbody store. subst store. rewrite <- Hall in Hnd. unfold held. rewrite <- Hall. split.
  - intros i tx id Htx Hid Hheld. unfold txs in Htx. rewrite Htxs, list_lookup_fmap in Htx. destruct (tr !! i) as [[x e]|] eqn:Hi; [|done].
    injection Htx as <-. exists x, e. destruct (Heach i x e Hi) as (Hafter & Hchain & Hcom & Henv). split; [done|]. split; [exact Hafter|].
    set (f := frontier_at base block (fst <$> tr) i x).
    assert (Hf : f ∈ earlier ++ fs ++ later).
    { apply elem_of_app. right. apply elem_of_app. left. apply list_elem_of_lookup. exists i. unfold fs. rewrite list_lookup_imap, list_lookup_fmap, Hi. done. }
    assert (Hfid : frontier_id f = id).
    { unfold own, txs in Hid. rewrite Htxs in Hid. unfold block_ids in Hid. rewrite list_lookup_imap, list_lookup_fmap, Hi in Hid. by injection Hid as <-. }
    intros provider gas_cap request Hreq. unfold simulate_at_frontier. cbn [map_err rbind]. rewrite Hreq, (store_finds cap _ id f Hnd Hf Hfid Hheld).
    cbn [ok_or rbind map_err]. unfold simulate. change (TxLog.parent_hash f) with (sealed_hash parent). split.
    + intros ->. cbn [map_err rbind]. rewrite Hfid, Henv, Hcom, <- Hchain. apply answer_ext. intros env c tx. rewrite transact_by_view.
      rewrite (frontier_state_view exec_state (ex_evm ex) f Hmade eq_refl). unfold f. by rewrite (frontier_at_state _ _ _ _ _ _ Hi).
    + intros error ->. done.
  - intros provider gas_cap request joined Hno. unfold simulate_at_frontier. cbn [map_err rbind]. by rewrite store_misses.
Qed.
End Exact.

(** ** A call between two transactions *)

Module SampleSimulation.
Import SampleRevm.

(** The state is the parent and how many updates followed; a call returns it, and uses the gas asked for. *)
#[export] Instance vm : FrontierVm (AR := revm) := {|
  SimState := (Z * nat)%type; sim_open p c := (p, c); sim_commit u s := (fst s, S (snd s));
  TxRequest := option Z; request_gas r := r; set_request_gas gas _ := Some gas;
  SimTx := Z; try_into_tx_env r _ := ok_or "no gas"%string r;
  SimResult := (Z * Z * nat * Z * Z)%type;
  sim_status r := Success; sim_output r := let '(_, p, n, fee, c) := r in Some (be_encode 8 p ++ be_encode 8 (Z.of_nat n) ++ be_encode 8 fee ++ be_encode 8 c);
  sim_gas_used r := let '(gas, _, _, _, _) := r in gas; sim_logs _ := []; sim_created_address _ := None;
  sim_transact s env c tx := Ok (tx, fst s, snd s, be_basefee (env_inner (env_block (se_env env))), c, 0)
|}.

#[export] Instance vm_laws : FrontierVmLaws (AR := revm) (AL := revm_laws) (FV := vm).
Proof.
  refine {| StateView := (Z * nat)%type; look := fun (p : StateProvider (ArbRevm := revm)) us => (p, length us); sim_view s := s;
            view_transact s env c tx := Ok (tx, fst s, snd s, be_basefee (env_inner (env_block (se_env env))), c, 0) |}.
  - intros p e _. done.
  - intros p us s u ->. cbn. rewrite length_app. f_equal. cbn. lia.
  - done.
Defined.

Definition input : ArbExecutionInput (AR := revm) := {|
  mi_l1_block_number := 77; mi_l1_timestamp := 1000; mi_poster := 4; mi_l1_base_fee_wei := 7; mi_delayed_messages_read := 3; mi_txs := txs;
  mi_block_gas_limit := 2 ^ 50
|}.

(** The block with five transactions; the store keeps four frontiers. *)
Definition small : StreamHandle (AR := revm) := {| sth_store := store_new 4; sth_subscribed := fun _ => true |}.

Abbreviation opened := (open_block (AR := revm) arbitrum_one 42161 parent input 600 false).
Abbreviation looped ex := (produce_loop 20 42161 41 (opening parent ex input small)).

Definition id_at (i : nat) (st : ProduceLoop (AR := revm)) : Z := default 0 (block_ids 4040 41 (snd (pl_building st)) !! i).

(** A call without a gas limit, by the identifier of a transaction of the block. *)
Definition call (id : Z) : ArbFrontierSimulationRequest (FV := vm) := {|
  rq_frontier_id := id; rq_transaction := (None : TxRequest (FrontierVm := vm)); rq_validation := false
|}.

(** The block was built; its five identifiers differ, and four are held. *)
Lemma sample_block : exists ex st tx,
  open_block (AR := revm) arbitrum_one 42161 parent input 600 false = Ok ex /\ rtc (turn 42161 41) (opening parent ex input small) st /\
  snd (pl_building st) !! 1%nat = Some tx /\ x_hash tx = 501 /\
  let own := block_ids 4040 41 (snd (pl_building st)) in
  let held := drop (length own - 4) own in
  own !! 1%nat = Some (id_at 1 st) /\ NoDup own /\ id_at 1 st ∈ held /\ id_at 0 st ∉ held.
Proof.
  assert (Hb : match opened with Err _ => false | Ok ex => match looped ex with Err _ => false | Ok st =>
      let own := block_ids 4040 41 (snd (pl_building st)) in
      let held := drop (length own - 4) own in
      bool_decide ((x_hash <$> snd (pl_building st)) !! 1%nat = Some 501) && bool_decide (own !! 1%nat = Some (id_at 1 st)) && bool_decide (NoDup own)
      && bool_decide (id_at 1 st ∈ held) && bool_decide (id_at 0 st ∉ held) end end = true) by (vm_compute; reflexivity).
  destruct opened as [ex|] eqn:Ho; [|discriminate]. destruct (looped ex) as [st|] eqn:Hl; [|discriminate].
  apply andb_prop in Hb as [Hb H4]. apply andb_prop in Hb as [Hb H3]. apply andb_prop in Hb as [Hb H2].
  apply andb_prop in Hb as [H0 H1]. apply bool_decide_eq_true_1 in H0, H1, H2, H3, H4. apply produce_loop_turns in Hl.
  apply list_lookup_fmap_Some in H0 as (tx & Hhash%eq_sym & Htx). exists ex, st, tx. by repeat split.
Qed.

(** The call after the second transaction runs there; the first transaction's frontier has expired. *)
Lemma simulation_exact_witness :
  exists ex st s x e, rtc (turn 42161 41) (opening parent ex input small) st /\ pl_stream st = Some s /\
    x_hash (in_tx x) = 501 /\ after_transaction 42161 41 (opening parent ex input small) x e /\
    simulate_at_frontier (ts_store s) (fun _ => Ok 600) 50000 (Ok (call (id_at 1 st))) (Ok tt) =
      answer 50000 (id_at 1 st) 41 1 (x_hash (in_tx x)) (evm_env_of e) (chain e) (view_transact (look 600 (committed e))) (call (id_at 1 st)) /\
    simulate_at_frontier (ts_store s) (fun _ => Ok 600) 50000 (Ok (call (id_at 0 st))) (Ok tt) =
      Err {| eo_code := FRONTIER_UNAVAILABLE; eo_message := "execution frontier unavailable or expired"; eo_data := ErrorId (id_at 0 st) |}.
Proof.
  destruct sample_block as (ex & st & tx & Ho & Hl & Htx & Hhash & H1 & H2 & H3 & H4).
  destruct (simulation_exact (AR := revm) arbitrum_one 42161 parent input 600 false ex small 4 [] [] st eq_refl Ho Hl) as (s & Hs & _ & Hok & Hmiss);
    rewrite ?app_nil_l, ?app_nil_r in *; [exact H2|].
  destruct (Hok 1%nat tx (id_at 1 st) Htx H1 H3) as (x & e & Hx & Hafter & Hrun). exists ex, st, s, x, e.
  destruct (Hrun (fun _ => Ok 600) 50000 (call (id_at 1 st)) eq_refl) as [Hr _]. rewrite <- Hx in Hr, Hhash.
  repeat (split; [assumption|]). split; [exact (Hr eq_refl)|]. exact (Hmiss (fun _ => Ok 600) 50000 (call (id_at 0 st)) (Ok tt) H4).
Defined.
End SampleSimulation.
