(* ===== verification/Rpc.v ===== *)
(** * Receipts over RPC

    [crates/arb-reth-rpc/src/lib.rs] turns the stored receipts of a block into the answers of
    [eth_getTransactionReceipt] and [eth_getBlockReceipts]: it numbers the logs, adds the gas charged
    for L1 and the L1 block that the header carries, and puts the block's base fee where Reth has
    Ethereum's tip formula. The header is looked up once per run of receipts of one block.
    [crates/arb-reth-evm/src/rpc.rs] gives the attributes of the pending block. Reth's
    [build_receipt] is a parameter. *)

From Stdlib Require Import Strings.Byte Strings.String.
From stdpp Require Import base list numbers option strings.
From S2P Require Import Prelude External TxLog StoredReceipt L1Decode BlockExecutor Production ProductionSpec.

(** ** Data *)

Record TransactionMeta := {
  tm_tx_hash : Z; tm_index : Z; tm_block_hash : Z; tm_block_number : Z; tm_base_fee : option Z; tm_timestamp : Z
}.

(** [alloy_rpc_types_eth::Log] *)
Record RpcLog := {
  rl_inner : Log; rl_block_hash : option Z; rl_block_number : option Z; rl_block_timestamp : option Z; rl_transaction_hash : option Z;
  rl_transaction_index : option Z; rl_log_index : option Z; rl_removed : bool
}.

(** [ReceiptWithBloom<ArbReceipt<RpcLog>>] *)
Record RpcReceiptWithBloom := {
  rr_status : bool; rr_cumulative_gas_used : Z; rr_logs : list RpcLog; rr_gas_used_for_l1 : Z; rr_logs_bloom : Z
}.

(** [ArbReceiptEnvelope<RpcLog>] *)
Inductive RpcReceiptEnvelope :=
  | RpcLegacy (r : RpcReceiptWithBloom) | RpcEip2930 (r : RpcReceiptWithBloom) | RpcEip1559 (r : RpcReceiptWithBloom)
  | RpcEip4844 (r : RpcReceiptWithBloom) | RpcEip7702 (r : RpcReceiptWithBloom) | RpcDeposit (r : RpcReceiptWithBloom)
  | RpcUnsigned (r : RpcReceiptWithBloom) | RpcContract (r : RpcReceiptWithBloom) | RpcRetry (r : RpcReceiptWithBloom)
  | RpcSubmitRetryable (r : RpcReceiptWithBloom) | RpcInternal (r : RpcReceiptWithBloom).

Section Convert.
Context {AR : ArbRevm}.

Record ConvertReceiptInput := {
  ci_receipt : ArbReceiptEnvelope; ci_tx : ArbTxEnvelope; ci_gas_used : Z; ci_next_log_index : Z; ci_meta : TransactionMeta
}.

(** Reth's [build_receipt] over the envelope that its closure returns, and the field that is replaced. *)
Class RethReceipts := {
  TransactionReceipt : Type;
  build_receipt : ConvertReceiptInput -> RpcReceiptEnvelope -> TransactionReceipt;
  effective_gas_price : TransactionReceipt -> Z;
  set_effective_gas_price : Z -> TransactionReceipt -> TransactionReceipt;
  core_receipt : TransactionReceipt -> RpcReceiptEnvelope
}.

(** ** One receipt *)

Definition map_rwb (rwb : ReceiptWithBloom) (next_log_index : Z) (meta : TransactionMeta) : Z * RpcReceiptWithBloom :=
  let receipt := rwb_receipt rwb in
  let rpc_logs := imap (fun i log => {|
    rl_inner := log; rl_block_hash := Some (tm_block_hash meta); rl_block_number := Some (tm_block_number meta);
    rl_block_timestamp := Some (tm_timestamp meta); rl_transaction_hash := Some (tm_tx_hash meta);
    rl_transaction_index := Some (tm_index meta); rl_log_index := Some (wrap64 (next_log_index + Z.of_nat i)); rl_removed := false
  |}) (r_logs receipt) in
  (r_gas_used_for_l1 receipt,
   {| rr_status := r_status receipt; rr_cumulative_gas_used := r_cumulative_gas_used receipt; rr_logs := rpc_logs;
      rr_gas_used_for_l1 := r_gas_used_for_l1 receipt; rr_logs_bloom := rwb_logs_bloom rwb |}).

Definition map_arb_receipt_envelope (envelope : ArbReceiptEnvelope) (next_log_index : Z) (meta : TransactionMeta) : Z * RpcReceiptEnvelope :=
  match envelope with
  | Legacy rwb => let '(g, r) := map_rwb rwb next_log_index meta in (g, RpcLegacy r)
  | Eip2930 rwb => let '(g, r) := map_rwb rwb next_log_index meta in (g, RpcEip2930 r)
  | Eip1559 rwb => let '(g, r) := map_rwb rwb next_log_index meta in (g, RpcEip1559 r)
  | Eip4844 rwb => let '(g, r) := map_rwb rwb next_log_index meta in (g, RpcEip4844 r)
  | Eip7702 rwb => let '(g, r) := map_rwb rwb next_log_index meta in (g, RpcEip7702 r)
  | Deposit rwb => let '(g, r) := map_rwb rwb next_log_index meta in (g, RpcDeposit r)
  | Unsigned rwb => let '(g, r) := map_rwb rwb next_log_index meta in (g, RpcUnsigned r)
  | Contract rwb => let '(g, r) := map_rwb rwb next_log_index meta in (g, RpcContract r)
  | Retry rwb => let '(g, r) := map_rwb rwb next_log_index meta in (g, RpcRetry r)
  | SubmitRetryable rwb => let '(g, r) := map_rwb rwb next_log_index meta in (g, RpcSubmitRetryable r)
  | Internal rwb => let '(g, r) := map_rwb rwb next_log_index meta in (g, RpcInternal r)
  end.

Context {RR : RethReceipts}.

Record ArbTransactionReceipt := {
  at_inner : TransactionReceipt; at_gas_used_for_l1 : Z; at_l1_block_number : option Z; at_timeboosted : option bool
}.

Definition build_arb_receipt (input : ConvertReceiptInput) (l1_block_number : option Z) : ArbTransactionReceipt :=
  let '(g, rpc_envelope) := map_arb_receipt_envelope (ci_receipt input) (ci_next_log_index input) (ci_meta input) in
  let core := build_receipt input rpc_envelope in
  let core := match tm_base_fee (ci_meta input) with
              | Some base_fee => set_effective_gas_price base_fee core
              | None => core
              end in
  {| at_inner := core; at_gas_used_for_l1 := g; at_l1_block_number := l1_block_number; at_timeboosted := None |}.

(** ** The receipts of a call *)

(** The L1 block of a block, from the provider's answer to one lookup. *)
Definition l1_block_number (answer : result string (option Header)) : result string (option Z) :=
  let? header := answer in
  match header with
  | None => Ok None
  | Some header => Ok (info ← decode_header header; if is_arbitrum info then Some (hi_l1_block_number info) else None)
  end.

(** The provider answers the [n]th lookup of the call; the second component counts the lookups. *)
Fixpoint convert_loop (header : nat -> Z -> result string (option Header)) (lookups : nat) (memo : option (Z * option Z))
    (inputs : list ConvertReceiptInput) : result string (list ArbTransactionReceipt) * nat :=
  match inputs with
  | [] => (Ok [], lookups)
  | input :: inputs =>
      let block_hash := tm_block_hash (ci_meta input) in
      let found := match memo with
                   | Some (hash, l1) => if hash =? block_hash then Some l1 else None
                   | None => None
                   end in
      let '(l1, lookups) := match found with
                            | Some l1 => (Ok l1, lookups)
                            | None => (l1_block_number (header lookups block_hash), S lookups)
                            end in
      match l1 with
      | Err e => (Err e, lookups)
      | Ok l1 =>
          let '(rest, lookups) := convert_loop header lookups (Some (block_hash, l1)) inputs in
          (let? receipts := rest in Ok (build_arb_receipt input l1 :: receipts), lookups)
      end
  end.

Definition convert_receipts (header : nat -> Z -> result string (option Header)) (inputs : list ConvertReceiptInput)
    : result string (list ArbTransactionReceipt) * nat := convert_loop header 0 None inputs.

(** ** The pending block *)

(** [BuildPendingEnv for ArbNextBlockEnvAttributes] *)
Definition build_pending_env (parent : Header) : ArbNextBlockEnvAttributes :=
  let arb_info := decode_header parent in {|
    na_timestamp := saturating_add (timestamp parent) 1; na_suggested_fee_recipient := beneficiary parent; na_prev_randao := 0;
    na_gas_limit := gas_limit parent; na_l1_block_number := from_option hi_l1_block_number 0 arb_info; na_l1_base_fee_wei := 0;
    na_arbos_format_version := from_option hi_arbos_format_version 0 arb_info; na_delayed_messages_read := be_decode (nonce parent);
    na_extra_data := []
  |}.
End Convert.

(** Reth's builder keeps the envelope of its closure. *)
Class RethReceiptLaws {AR : ArbRevm} {RR : RethReceipts} := {
  build_keeps : forall input e, core_receipt (build_receipt input e) = e;
  price_keeps : forall price c, core_receipt (set_effective_gas_price price c) = core_receipt c;
  price_set : forall price c, effective_gas_price (set_effective_gas_price price c) = price
}.

Section Answers.
Context {AR : ArbRevm} {RR : RethReceipts}.

(** ** The memo *)

(** Without a memo: one lookup per receipt. *)
Definition convert_one (look : Z -> result string (option Header)) (input : ConvertReceiptInput) : result string ArbTransactionReceipt :=
  let? l1 := l1_block_number (look (tm_block_hash (ci_meta input))) in Ok (build_arb_receipt input l1).

Lemma convert_loop_memo (look : Z -> result string (option Header)) (header : nat -> Z -> result string (option Header)) (n : nat)
    (memo : option (Z * option Z)) (inputs : list ConvertReceiptInput) :
  (forall n h, header n h = look h) -> (forall h l1, memo = Some (h, l1) -> l1_block_number (look h) = Ok l1) ->
  fst (convert_loop header n memo inputs) = try_map (convert_one look) inputs.
Proof.
  intros Hh. revert n memo. induction inputs as [|c inputs IH]; intros n memo Hm; [done|]. cbn [convert_loop try_map].
  unfold convert_one at 1. set (h := tm_block_hash (ci_meta c)). rewrite Hh.
  assert (Hstep : forall l1 n', l1_block_number (look h) = Ok l1 ->
    fst (let '(rest, lookups) := convert_loop header n' (Some (h, l1)) inputs in
         (let? receipts := rest in Ok (build_arb_receipt c l1 :: receipts), lookups)) =
    let? y := (let? l1 := l1_block_number (look h) in Ok (build_arb_receipt c l1)) in
    let? ys := try_map (convert_one look) inputs in Ok (y :: ys)).
  { intros l1 n' Hl. rewrite <- (IH n' (Some (h, l1))) by (by intros ? ? [= <- <-]). rewrite Hl. cbn [rbind].
    by destruct (convert_loop header n' (Some (h, l1)) inputs). }
  destruct memo as [[h' l1']|].
  - destruct (Z.eqb_spec h' h) as [->|].
    + apply Hstep. by apply Hm.
    + destruct (l1_block_number (look h)) as [l1|e]; [|done]. by apply Hstep.
  - destruct (l1_block_number (look h)) as [l1|e]; [|done]. by apply Hstep.
Qed.

(** Looking a header up once per run of receipts changes nothing as long as the provider's answer for a
    block does not change during the call. *)
Theorem convert_receipts_memo (look : Z -> result string (option Header)) (inputs : list ConvertReceiptInput) :
  fst (convert_receipts (fun _ => look) inputs) = try_map (convert_one look) inputs.
Proof. by apply convert_loop_memo. Qed.

(** The receipts of one block share the first answer. *)
Lemma convert_loop_block (header : nat -> Z -> result string (option Header)) (n : nat) (hash : Z) (l1 : option Z) (inputs : list ConvertReceiptInput) :
  Forall (fun c => tm_block_hash (ci_meta c) = hash) inputs ->
  convert_loop header n (Some (hash, l1)) inputs = (Ok ((fun c => build_arb_receipt c l1) <$> inputs), n).
Proof.
  induction 1 as [|c inputs Hc _ IH]; [done|]. cbn [convert_loop]. rewrite Hc, Z.eqb_refl. rewrite IH. done.
Qed.

Lemma convert_receipts_block (header : nat -> Z -> result string (option Header)) (hash : Z) (l1 : option Z) (inputs : list ConvertReceiptInput) :
  Forall (fun c => tm_block_hash (ci_meta c) = hash) inputs -> l1_block_number (header O hash) = Ok l1 ->
  convert_receipts header inputs = (Ok ((fun c => build_arb_receipt c l1) <$> inputs), if inputs is [] then O else 1%nat).
Proof.
  intros Hall Hl. destruct inputs as [|c inputs]; [done|]. inversion Hall as [|? ? Hc Hrest]; subst. unfold convert_receipts. cbn [convert_loop].
  rewrite Hl. by rewrite convert_loop_block.
Qed.

(** ** What is answered for a produced block *)

Definition rpc_body (e : RpcReceiptEnvelope) : RpcReceiptWithBloom :=
  match e with
  | RpcLegacy r | RpcEip2930 r | RpcEip1559 r | RpcEip4844 r | RpcEip7702 r | RpcDeposit r | RpcUnsigned r | RpcContract r | RpcRetry r
  | RpcSubmitRetryable r | RpcInternal r => r
  end.

(** The envelope of a transaction type. *)
Definition rpc_envelope_for_type (tx_type : u8) (r : RpcReceiptWithBloom) : RpcReceiptEnvelope :=
  match tx_type with
  | x01 => RpcEip2930 r | x02 => RpcEip1559 r | x03 => RpcEip4844 r | x04 => RpcEip7702 r | x64 => RpcDeposit r | x65 => RpcUnsigned r
  | x66 => RpcContract r | x68 => RpcRetry r | x69 => RpcSubmitRetryable r | x6a => RpcInternal r | _ => RpcLegacy r
  end.

Definition rpc_logs (r : ArbTransactionReceipt) : list RpcLog := rr_logs (rpc_body (core_receipt (at_inner r))).

Lemma map_envelope_type (ty : u8) (rwb : ReceiptWithBloom) (n : Z) (meta : TransactionMeta) :
  map_arb_receipt_envelope (receipt_envelope_for_type ty rwb) n meta =
    (fst (map_rwb rwb n meta), rpc_envelope_for_type ty (snd (map_rwb rwb n meta))).
Proof. by destruct ty. Qed.

(** The inputs that Reth makes for the receipts of a stored block: the logs before each, its
    transaction and position, and the hash, number, base fee and timestamp of the header. *)
Record inputs_of (hash : Z) (header : Header) (txs : list ArbTxEnvelope) (receipts : list ArbReceiptEnvelope)
    (inputs : list ConvertReceiptInput) : Prop := {
  io_receipts : ci_receipt <$> inputs = receipts;
  io_logs : forall i c, inputs !! i = Some c ->
    ci_next_log_index c = Z.of_nat (length (flat_map (fun r => r_logs (receipt_of r)) (take i receipts)));
  io_meta : forall i c, inputs !! i = Some c -> exists tx, txs !! i = Some tx /\
    ci_meta c = {| tm_tx_hash := tx_hash tx; tm_index := Z.of_nat i; tm_block_hash := hash; tm_block_number := number header;
                   tm_base_fee := base_fee_per_gas header; tm_timestamp := timestamp header |}
}.

(** A log of a block as it is served: the executed log, placed in its block and transaction. *)
Definition served_log (hash : Z) (header : Header) (tx : ArbTxEnvelope) (index first_log : Z) (i : nat) (log : Log) : RpcLog := {|
  rl_inner := log; rl_block_hash := Some hash; rl_block_number := Some (number header); rl_block_timestamp := Some (timestamp header);
  rl_transaction_hash := Some (tx_hash tx); rl_transaction_index := Some index; rl_log_index := Some (wrap64 (first_log + Z.of_nat i));
  rl_removed := false
|}.

Lemma map_rwb_logs (rwb : ReceiptWithBloom) (n : Z) (meta : TransactionMeta) :
  let logs := rr_logs (snd (map_rwb rwb n meta)) in
  rl_inner <$> logs = r_logs (rwb_receipt rwb) /\
  rl_log_index <$> logs = (fun k => Some (wrap64 k)) <$> seqZ n (Z.of_nat (length (r_logs (rwb_receipt rwb)))) /\
  Forall (fun log => rl_block_hash log = Some (tm_block_hash meta)) logs.
Proof.
  cbn. split_and!.
  - apply list_eq. intros i. rewrite list_lookup_fmap, list_lookup_imap. by destruct (r_logs _ !! i).
  - apply list_eq. intros i. rewrite !list_lookup_fmap, list_lookup_imap.
    destruct (r_logs (rwb_receipt rwb) !! i) as [log|] eqn:Hi; cbn.
    + apply lookup_lt_Some in Hi. by rewrite lookup_seqZ_lt by lia.
    + apply lookup_ge_None in Hi. rewrite lookup_seqZ_ge by lia. done.
  - apply Forall_lookup. intros i log Hlog. rewrite list_lookup_imap in Hlog. destruct (r_logs _ !! i); [|done]. by injection Hlog as <-.
Qed.

Lemma body_of_envelope (ty : u8) (r : RpcReceiptWithBloom) : rpc_body (rpc_envelope_for_type ty r) = r.
Proof. by destruct ty. Qed.
End Answers.

Section Served.
Context {K : Keccak} {AR : ArbRevm} {RC : ReceiptCodec} {DG : Digest} {BB : BlockBuilder} {AL : ArbRevmLaws} {BL : BlockBuilderLaws}
  {RR : RethReceipts} {RL : RethReceiptLaws}.

(** The answer for one receipt of a block. *)
Lemma built_receipt (ty : u8) (rwb : ReceiptWithBloom) (c : ConvertReceiptInput) (l1 : option Z) (fee : Z) :
  ci_receipt c = receipt_envelope_for_type ty rwb -> tm_base_fee (ci_meta c) = Some fee ->
  let r := build_arb_receipt c l1 in
  at_gas_used_for_l1 r = r_gas_used_for_l1 (rwb_receipt rwb) /\ at_l1_block_number r = l1 /\ effective_gas_price (at_inner r) = fee /\
  core_receipt (at_inner r) = rpc_envelope_for_type ty (snd (map_rwb rwb (ci_next_log_index c) (ci_meta c))).
Proof.
  intros Hc Hf. unfold build_arb_receipt. rewrite Hc, Hf, map_envelope_type. cbn. split_and!; try done.
  - apply price_set.
  - by rewrite price_keeps, build_keeps.
Qed.

(** The logs of consecutive receipts are numbered through. *)
Lemma logs_numbered (receipts : list (u8 * ReceiptWithBloom)) (inputs : list ConvertReceiptInput) (l1 : option Z) (fee hash base : Z) :
  ci_receipt <$> inputs = (fun t => receipt_envelope_for_type (fst t) (snd t)) <$> receipts ->
  (forall i c, inputs !! i = Some c -> ci_next_log_index c =
     base + Z.of_nat (length (flat_map (fun t => r_logs (rwb_receipt (snd t))) (take i receipts)))) ->
  Forall (fun c => tm_block_hash (ci_meta c) = hash /\ tm_base_fee (ci_meta c) = Some fee) inputs ->
  let logs := flat_map (fun c => rpc_logs (build_arb_receipt c l1)) inputs in
  rl_inner <$> logs = flat_map (fun t => r_logs (rwb_receipt (snd t))) receipts /\
  rl_log_index <$> logs = (fun k => Some (wrap64 k)) <$> seqZ base (Z.of_nat (length logs)) /\
  Forall (fun log => rl_block_hash log = Some hash) logs.
Proof.
  revert receipts base. induction inputs as [|c inputs IH]; intros [|[ty rwb] receipts] base Hr Hn Hm; try done.
  cbn in Hr. injection Hr as Hc Hr. inversion Hm as [|? ? [Hh Hf] Hm']; subst.
  destruct (built_receipt ty rwb c l1 fee Hc Hf) as (_ & _ & _ & Hcore). destruct (map_rwb_logs rwb (ci_next_log_index c) (ci_meta c)) as (L1 & L2 & L3).
  pose proof (Hn O c eq_refl) as Hb. cbn [take flat_map length] in Hb. rewrite Z.add_0_r in Hb.
  destruct (IH receipts (base + Z.of_nat (length (r_logs (rwb_receipt rwb)))) Hr) as (I1 & I2 & I3).
  { intros i d Hd. rewrite (Hn (S i) d Hd). cbn [take flat_map snd]. rewrite length_app. lia. }
  { done. }
  cbn [flat_map snd]. set (own := rpc_logs (build_arb_receipt c l1)).
  assert (Hown : own = rr_logs (snd (map_rwb rwb (ci_next_log_index c) (ci_meta c)))).
  { unfold own, rpc_logs. by rewrite Hcore, body_of_envelope. }
  assert (Hlen : length own = length (r_logs (rwb_receipt rwb))) by (rewrite Hown, <- L1; symmetry; apply length_fmap).
  rewrite <- Hown in L1, L2, L3. clearbody own. rewrite !fmap_app, L1, L2, I1, I2, Hb, length_app, Hlen. split_and!.
  - done.
  - rewrite Nat2Z.inj_add, seqZ_app by lia. by rewrite fmap_app.
  - apply Forall_app. by split.
Qed.

(** The stored receipts by type and body. *)
Definition body_at (rs : list ArbTxResult) (i : nat) (r : ArbTxResult) : u8 * ReceiptWithBloom :=
  (tr_tx_type r,
   {| rwb_receipt := {| r_status := is_success (tr_result r); r_cumulative_gas_used := total_gas 0 (take (S i) rs);
                        r_logs := result_logs (tr_result r); r_gas_used_for_l1 := tr_gas_used_for_l1 r |};
      rwb_logs_bloom := logs_bloom (result_logs (tr_result r)) |}).

Lemma receipts_bodies (rs : list ArbTxResult) :
  receipts_from 0 rs = (fun t => receipt_envelope_for_type (fst t) (snd t)) <$> imap (body_at rs) rs.
Proof.
  induction rs as [|r rs IH] using rev_ind; [done|]. rewrite receipts_from_snoc, imap_app, fmap_app. f_equal.
  - rewrite IH. apply list_eq. intros i. rewrite !list_lookup_fmap, !list_lookup_imap. destruct (rs !! i) as [x|] eqn:Hi; [|done].
    apply lookup_lt_Some in Hi. unfold body_at. cbn. by rewrite take_app_le by lia.
  - cbn. rewrite Nat.add_0_r. unfold body_at, receipt_saying. cbn [fst snd]. rewrite take_ge by (rewrite length_app; cbn; lia). done.
Qed.

Lemma bodies_logs (rs k : list ArbTxResult) : flat_map (fun t => r_logs (rwb_receipt (snd t))) (imap (body_at k) rs) =
  flat_map (fun r => result_logs (tr_result r)) rs.
Proof.
  revert k. generalize 0%nat. induction rs as [|r rs IH] using rev_ind; intros n k; [done|]. rewrite imap_app, !flat_map_app. by rewrite IH.
Qed.

Lemma imap_take' {A B : Type} (f : nat -> A -> B) (n : nat) (l : list A) : take n (imap f l) = imap f (take n l).
Proof.
  apply list_eq. intros i. destruct (decide (i < n)%nat) as [Hlt|Hge].
  - by rewrite lookup_take_lt, !list_lookup_imap, lookup_take_lt by done.
  - by rewrite lookup_take_ge, list_lookup_imap, lookup_take_ge by lia.
Qed.

(** The logs of a receipt, by the place that the input names. *)
Lemma map_rwb_served (rwb : ReceiptWithBloom) (n : Z) (meta : TransactionMeta) :
  rr_logs (snd (map_rwb rwb n meta)) = imap (fun i log => {|
    rl_inner := log; rl_block_hash := Some (tm_block_hash meta); rl_block_number := Some (tm_block_number meta);
    rl_block_timestamp := Some (tm_timestamp meta); rl_transaction_hash := Some (tm_tx_hash meta);
    rl_transaction_index := Some (tm_index meta); rl_log_index := Some (wrap64 (n + Z.of_nat i)); rl_removed := false
  |}) (r_logs (rwb_receipt rwb)).
Proof. done. Qed.

(** C19. The receipts served for a produced block say what was executed. For the inputs that Reth makes
    of the stored block, the answer is one receipt per transaction, after a single header lookup. Each
    has the type of its transaction, the status of its execution, the gas so far, the gas charged for
    L1, the bloom of its logs, the base fee that ArbOS had as the price paid, and the L1 block of the
    header; its logs are those of its execution, each with the hash, number and timestamp of the
    block and the hash and index of the transaction. Over the whole block the logs are the executed
    ones in order, numbered through from zero. *)
Theorem served_receipts (fuel : nat) (config : ArbEvmConfig) (chain_id : Z) (parent : SealedHeader) (msg : BroadcastFeedMessage)
    (exec_state trie_state : StateProvider) (task : option StateRootTask) (handle : option StreamHandle) (p : Produced)
    (hash : Z) (header : nat -> Z -> result string (option Header)) (inputs : list ConvertReceiptInput) :
  let h := blk_header (oc_block (pr_outcome p)) in
  produce_with_timing fuel config chain_id parent msg exec_state trie_state task handle = Ok p ->
  header O hash = Ok (Some h) ->
  inputs_of hash h (blk_transactions (oc_block (pr_outcome p))) (br_receipts (oc_result (pr_outcome p))) inputs ->
  exists input update fee l ex0 e rs,
    open_block config chain_id parent input exec_state (bool_decide (is_Some task)) = Ok ex0 /\
    executed chain_id (ex_evm ex0) l e /\
    block_of config parent input trie_state update fee l (if task then set_state_hook false e else e)
      (precomputed_root (arbos_version (sealed_header parent)) task (hooked e)) (pr_outcome p) /\
    convert_receipts header inputs = (Ok rs, if inputs is [] then O else 1%nat) /\ length rs = length l /\
    (forall i x r, l !! i = Some x -> rs !! i = Some r ->
       let body := rpc_body (core_receipt (at_inner r)) in
       let executed_logs := result_logs (tr_result (in_result x)) in
       let logs_before := flat_map (fun x => result_logs (tr_result (in_result x))) (take i l) in
       core_receipt (at_inner r) = rpc_envelope_for_type (tx_ty (in_tx x)) body /\ rr_status body = is_success (tr_result (in_result x)) /\
       rr_cumulative_gas_used body = total_gas 0 (take (S i) (in_result <$> l)) /\
       rr_gas_used_for_l1 body = tr_gas_used_for_l1 (in_result x) /\ at_gas_used_for_l1 r = tr_gas_used_for_l1 (in_result x) /\
       rr_logs_bloom body = logs_bloom executed_logs /\
       rr_logs body = imap (served_log hash h (in_tx x) (Z.of_nat i) (Z.of_nat (length logs_before))) executed_logs /\
       effective_gas_price (at_inner r) = fee /\ Ok (at_l1_block_number r) = l1_block_number (Ok (Some h))) /\
    let logs := flat_map rpc_logs rs in
    rl_inner <$> logs = flat_map (fun x => result_logs (tr_result (in_result x))) l /\
    rl_log_index <$> logs = (fun k => Some (wrap64 k)) <$> seqZ 0 (Z.of_nat (length logs)).
Proof.
  intros h Hp Hh [R1 R2 R3].
  apply produce_accounted in Hp as (input & update & fee & l & ex0 & _ & _ & Ho & (e & Hx & Hb) & _). exists input, update, fee, l, ex0, e.
  destruct (bo_message _ _ _ _ _ _ _ _ _ _ Hb) as (_ & _ & _ & Hfee & _). fold h in Hfee. pose proof (bo_types _ _ _ _ _ _ _ _ _ _ Hb) as Hty.
  rewrite (bo_receipts _ _ _ _ _ _ _ _ _ _ Hb) in R1, R2. rewrite receipts_bodies in R1. rewrite (bo_transactions _ _ _ _ _ _ _ _ _ _ Hb) in R3.
  rewrite Hfee in R3. set (rs := in_result <$> l) in *.
  destruct (l1_block_number (Ok (Some h))) as [l1|] eqn:Hl1; [|done]. exists ((fun c => build_arb_receipt c l1) <$> inputs).
  assert (Hlen : length inputs = length l).
  { apply (f_equal length) in R1. rewrite !length_fmap, length_imap in R1. unfold rs in R1. by rewrite length_fmap in R1. }
  assert (Hmeta : Forall (fun c => tm_block_hash (ci_meta c) = hash /\ tm_base_fee (ci_meta c) = Some fee) inputs).
  { apply Forall_lookup. intros i c Hc. destruct (R3 i c Hc) as (tx & _ & ->). done. }
  split; [done|]. split; [done|]. split; [done|].
  split; [apply (convert_receipts_block _ hash); [|by rewrite Hh]; eapply Forall_impl; [exact Hmeta|]; by intros c [? _]|].
  split; [by rewrite length_fmap|]. split.
  - intros i x r Hx' Hr. rewrite list_lookup_fmap in Hr. destruct (inputs !! i) as [c|] eqn:Hc; [|done]. injection Hr as <-.
    assert (Hci : Some (ci_receipt c) = Some (receipt_envelope_for_type (tr_tx_type (in_result x)) (snd (body_at rs i (in_result x))))).
    { rewrite <- (list_lookup_fmap_Some_2 _ _ _ _ Hc), R1, list_lookup_fmap, list_lookup_imap. unfold rs. by rewrite list_lookup_fmap, Hx'. }
    injection Hci as Hci. rewrite Forall_lookup in Hmeta. destruct (Hmeta i c Hc) as [_ Hf].
    destruct (built_receipt _ _ c l1 fee Hci Hf) as (B1 & B2 & B3 & B4). rewrite Forall_lookup in Hty. specialize (Hty i x Hx'). cbn in Hty.
    destruct (R3 i c Hc) as (tx & Htx & Hm). rewrite list_lookup_fmap, Hx' in Htx. injection Htx as <-.
    assert (Hfirst : ci_next_log_index c = Z.of_nat (length (flat_map (fun x => result_logs (tr_result (in_result x))) (take i l)))).
    { rewrite (R2 i c Hc). f_equal. f_equal. rewrite receipts_bodies, <- fmap_take, flat_map_fmap, imap_take'.
      rewrite (flat_map_ext _ (fun t => r_logs (rwb_receipt (snd t)))) by (intros t; by rewrite receipt_of_envelope).
      rewrite bodies_logs. unfold rs. by rewrite <- fmap_take, flat_map_fmap. }
    cbn zeta. rewrite B4, body_of_envelope, Hty. split_and!; try done; [|by rewrite B2].
    rewrite map_rwb_served, Hm, Hfirst. done.
  - rewrite flat_map_fmap. destruct (logs_numbered (imap (body_at rs) rs) inputs l1 fee hash 0 R1) as (L1 & L2 & L3).
    + intros i c Hc. rewrite (R2 i c Hc), Z.add_0_l, receipts_bodies, <- fmap_take, flat_map_fmap. do 2 f_equal. apply flat_map_ext. intros t.
      by rewrite receipt_of_envelope.
    + done.
    + split; [|done]. rewrite L1, bodies_logs. unfold rs. by rewrite flat_map_fmap.
Qed.
End Served.

(** ** The receipts of a small block *)

Module SampleReceipts.
Import SampleRevm.

#[export] Instance receipts : RethReceipts (AR := revm) := {|
  TransactionReceipt := (Z * RpcReceiptEnvelope)%type; build_receipt _ e := (0, e); effective_gas_price := fst;
  set_effective_gas_price price c := (price, snd c); core_receipt := snd
|}.

#[export] Instance receipts_laws : RethReceiptLaws (AR := revm) (RR := receipts).
Proof. by split. Qed.

(** What Reth makes of a stored block. *)
Definition inputs_for (hash : Z) (header : Header) (txs : list (ArbTxEnvelope (ArbRevm := revm))) (rs : list ArbReceiptEnvelope)
    : list (ConvertReceiptInput (AR := revm)) :=
  imap (fun i t => {|
    ci_receipt := snd t; ci_tx := fst t; ci_gas_used := 0;
    ci_next_log_index := Z.of_nat (length (flat_map (fun r => r_logs (receipt_of r)) (take i rs)));
    ci_meta := {| tm_tx_hash := tx_hash (fst t); tm_index := Z.of_nat i; tm_block_hash := hash; tm_block_number := number header;
                  tm_base_fee := base_fee_per_gas header; tm_timestamp := timestamp header |}
  |}) (zip txs rs).

Lemma inputs_for_of (hash : Z) (header : Header) (txs : list ArbTxEnvelope) (rs : list ArbReceiptEnvelope) :
  length txs = length rs -> inputs_of hash header txs rs (inputs_for hash header txs rs).
Proof.
  intros Hlen. split; unfold inputs_for.
  - etrans; [|apply (snd_zip txs rs); lia]. apply list_eq. intros i. rewrite !list_lookup_fmap, list_lookup_imap. by destruct (zip txs rs !! i).
  - intros i c Hc. rewrite list_lookup_imap in Hc. destruct (zip txs rs !! i); [|done]. by injection Hc as <-.
  - intros i c Hc. rewrite list_lookup_imap in Hc. destruct (zip txs rs !! i) as [[tx r]|] eqn:Hz; [|done]. injection Hc as <-. exists tx.
    split; [|done]. rewrite <- (fst_zip txs rs) by lia. by rewrite list_lookup_fmap, Hz.
Qed.

(** Five transactions, two logs, one lookup; the logs are those of the second transaction. *)
Lemma served_receipts_witness :
  exists p rs, production None None = Ok p /\
    convert_receipts (fun _ _ => Ok (Some (blk_header (oc_block (pr_outcome p)))))
      (inputs_for 77 (blk_header (oc_block (pr_outcome p))) (blk_transactions (oc_block (pr_outcome p)))
         (br_receipts (oc_result (pr_outcome p)))) = (Ok rs, 1%nat) /\
    length rs = 5%nat /\ rl_log_index <$> flat_map rpc_logs rs = [Some 0; Some 1].
Proof.
  assert (Hc : match production None None with
               | Ok p => bool_decide (length (br_receipts (oc_result (pr_outcome p))) = 5%nat /\
                                      length (blk_transactions (oc_block (pr_outcome p))) = 5%nat /\
                                      length (flat_map (fun r => r_logs (receipt_of r)) (br_receipts (oc_result (pr_outcome p)))) = 2%nat)
               | Err _ => false
               end = true) by (vm_compute; reflexivity).
  destruct (production_ok None None) as [p Hp]; [vm_compute; reflexivity|]. rewrite Hp in Hc. apply bool_decide_eq_true_1 in Hc as (H5 & H5' & H2).
  destruct (served_receipts (AR := revm) 20 arbitrum_one 42161 parent (message 1 1000) 600 600 None None p 77
              (fun _ _ => Ok (Some (blk_header (oc_block (pr_outcome p))))) _ Hp eq_refl (inputs_for_of 77 _ _ _ (eq_trans H5' (eq_sym H5))))
    as (input & update & fee & l & ex0 & e & rs & _ & _ & Hb & Hr & Hlen & _ & Hin & Hidx).
  assert (Hl : length rs = 5%nat).
  { rewrite Hlen, <- H5, (bo_receipts _ _ _ _ _ _ _ _ _ _ Hb), receipts_bodies, length_fmap, length_imap. symmetry. apply length_fmap. }
  exists p, rs. split; [exact Hp|]. split; [|split; [exact Hl|]].
  - rewrite Hr. f_equal. unfold inputs_for.
    destruct (br_receipts (oc_result (pr_outcome p))) as [|r rest]; [discriminate H5|].
    destruct (blk_transactions (oc_block (pr_outcome p))) as [|t ts]; [discriminate H5'|reflexivity].
  - rewrite Hidx. assert (Hn : length (flat_map rpc_logs rs) = 2%nat); [|rewrite Hn; reflexivity].
    rewrite <- (length_fmap rl_inner), Hin, <- H2, (bo_receipts _ _ _ _ _ _ _ _ _ _ Hb), receipts_from_logs, flat_map_fmap. reflexivity.
Defined.
End SampleReceipts.
