(* ===== verification/SnapshotRead.v ===== *)
(** * Reading a converted snapshot

    [crates/arb-reth-node/src/hashed_db.rs] and the [read] command of
    [crates/arb-reth-node/src/commands/snapshot.rs]: the account, the code and the storage of an address,
    looked up in the hashed tables that an import wrote. A lookup that fails counts as absent. MDBX's
    cursor over a dup-sorted table is a parameter. *)

From Stdlib Require Import Strings.Byte Strings.Ascii Strings.String.
From stdpp Require Import base list numbers option strings gmap sorting.
From S2P Require Import Prelude External Text Crash StorageV2 StoredReceipt SnapshotStream SnapshotFull SnapshotFullSafety Preimages HeadImport HeadImportSafety.

(** ** Lookups *)

(** A read transaction: point lookups, [seek_by_key_subkey] on the storages of an account, and
    [walk_dup] over them. *)
Record ReadTx := {
  tx_account : Z -> result string (option AccountInfo);
  tx_bytecode : Z -> result string (option bytes);
  tx_cursor : result string unit;
  tx_seek : Z -> Z -> result string (option (Z * Z));
  tx_walk : Z -> result string (list (result string (Z * Z)));
  tx_commit : result string unit
}.

(** [.ok().flatten()] *)
Definition ok_flatten {A : Type} (r : result string (option A)) : option A :=
  match r with Ok o => o | Err _ => None end.

Section Lookups.
Context {K : Keccak}.

Definition account_by_address (tx : ReadTx) (address : bytes) : option AccountInfo := ok_flatten (tx_account tx (keccak256 address)).

Definition code_of (tx : ReadTx) (code_hash : Z) : option bytes := ok_flatten (tx_bytecode tx code_hash).

(** The seek finds the first entry at or above the slot. *)
Definition storage_at (tx : ReadTx) (address slot : bytes) : Z :=
  let ak := keccak256 address in
  let sk := keccak256 slot in
  match tx_cursor tx with
  | Err _ => 0
  | Ok _ =>
      match ok_flatten (tx_seek tx ak sk) with
      | Some (key, value) => if key =? sk then value else 0
      | None => 0
      end
  end.
End Lookups.

(** ** The command *)

Record SnapshotReadArgs := { ra_addr : string; ra_slot : option string; ra_list_storage : bool }.

(** What is printed. *)
Record ReadReport := {
  rp_address : bytes; rp_hashed_key : Z; rp_nonce : Z; rp_balance : Z; rp_code_hash : Z; rp_code_len : nat;
  rp_slot : option (bytes * Z); rp_storage : option (list (Z * Z) * nat)
}.

(** The characters of a string: its bytes that do not continue one. *)
Fixpoint char_count (s : string) : nat :=
  match s with
  | EmptyString => O
  | String c s =>
      let n := N_of_ascii c in
      ((if (128 <=? n)%N && (n <=? 191)%N then O else 1) + char_count s)%nat
  end.

Fixpoint zeros (n : nat) : string := match n with O => EmptyString | S n => String "0" (zeros n) end.

Section Read.
Context {K : Keccak} {BC : BlockCodec} {HC : HeadCodec}.

(** [Address::from_slice] and [B256::from_slice] panic on another length. *)
Definition from_slice (len : nat) (bs : bytes) : result string bytes := if (length bs =? len)%nat then Ok bs else Err "panic"%string.

Definition read_address (addr : string) : result string bytes :=
  let addr_str := trim_hex_prefix addr in
  if negb (String.length addr_str =? 40)%nat then Err "--addr must be 40 hex chars"%string
  else
    let? addr_bytes := ok_or "invalid hex"%string (hex_decode addr_str) in
    from_slice 20 addr_bytes.

Definition read_slot (slot_str : string) : result string bytes :=
  let slot_hex := trim_hex_prefix slot_str in
  let padded := zeros (64 - char_count slot_hex) +:+ slot_hex in
  if negb (String.length padded =? 64)%nat then Err "--slot must be at most 32 bytes"%string
  else
    let? slot_bytes := ok_or "invalid hex"%string (hex_decode padded) in
    from_slice 32 slot_bytes.

(** The walk over the entries of an account: those with a value. *)
Fixpoint list_storage (entries : list (result string (Z * Z))) : result string (list (Z * Z)) :=
  match entries with
  | [] => Ok []
  | entry :: entries =>
      let? '(key, value) := entry in
      let? rest := list_storage entries in
      Ok (if value =? 0 then rest else (key, value) :: rest)
  end.

Definition read (args : SnapshotReadArgs) (opened : result string ReadTx) : result string ReadReport :=
  let? address := read_address (ra_addr args) in
  let? tx := opened in
  let '(nonce, balance, code_hash) :=
    match account_by_address tx address with
    | Some acct => (ai_nonce acct, ai_balance acct, default KECCAK_EMPTY (ai_bytecode_hash acct))
    | None => (0, 0, KECCAK_EMPTY)
    end in
  let code_len :=
    if code_hash =? KECCAK_EMPTY then O
    else match code_of tx code_hash with Some bytecode => length bytecode | None => O end in
  let? slot := match ra_slot args with
               | None => Ok None
               | Some slot_str => let? slot := read_slot slot_str in Ok (Some (slot, storage_at tx address slot))
               end in
  let? storage := (if ra_list_storage args then
                     let? _ := tx_cursor tx in
                     let? walker := tx_walk tx (keccak256 address) in
                     let? entries := list_storage walker in
                     Ok (Some (entries, length entries))
                   else Ok None) in
  let? _ := tx_commit tx in
  Ok {| rp_address := address; rp_hashed_key := keccak256 address; rp_nonce := nonce; rp_balance := balance; rp_code_hash := code_hash;
        rp_code_len := code_len; rp_slot := slot; rp_storage := storage |}.
End Read.

(** ** The tables of a datadir *)

(** A dup-sorted table: the entries of a key, by subkey. *)
Class DupSorted := {
  dup_entries : gset (Z * Z * Z) -> Z -> list (Z * Z);
  dup_exact : forall s o h v, (h, v) ∈ dup_entries s o <-> (o, h, v) ∈ s;
  dup_once : forall s o, NoDup (dup_entries s o);
  dup_sorted : forall s o, StronglySorted (fun a b => fst a <= fst b) (dup_entries s o)
}.

Section Tables.
Context {K : Keccak} {BC : BlockCodec} {RC : ReceiptCodec} {HC : HeadCodec} {DS : DupSorted}.

(** The first entry at or above a subkey. *)
Definition seek (entries : list (Z * Z)) (subkey : Z) : option (Z * Z) := List.find (fun e => subkey <=? fst e) entries.

(** A transaction on a datadir whose reads succeed. *)
Definition tx_of (d : Datadir) : ReadTx := {|
  tx_account h := Ok (dd_hashed_accounts d !! h); tx_bytecode h := Ok (dd_bytecodes d !! h); tx_cursor := Ok tt;
  tx_seek o s := Ok (seek (dup_entries (dd_hashed_storages d) o) s); tx_walk o := Ok (Ok <$> dup_entries (dd_hashed_storages d) o);
  tx_commit := Ok tt
|}.

Lemma seek_exact (entries : list (Z * Z)) (subkey : Z) :
  StronglySorted (fun a b => fst a <= fst b) entries ->
  match seek entries subkey with
  | Some (key, v) => (key, v) ∈ entries /\ (key <> subkey -> forall v', (subkey, v') ∉ entries)
  | None => forall v', (subkey, v') ∉ entries
  end.
Proof.
  unfold seek. induction 1 as [|[h v] entries Hs IH Hall]; cbn [List.find fst]; [by intros v' ?%elem_of_nil|].
  destruct (Z.leb_spec subkey h) as [Hle|Hlt].
  - split; [by left|]. intros Hne v' [[= <- <-]|Hin]%elem_of_cons; [done|]. rewrite Forall_forall in Hall. specialize (Hall _ Hin). cbn in Hall. lia.
  - destruct (List.find _ entries) as [[key v0]|].
    + destruct IH as [Hin Hno]. split; [by right|]. intros Hne v' [[= <- <-]|H']%elem_of_cons; [lia|]. by apply (Hno Hne v').
    + intros v' [[= <- <-]|H']%elem_of_cons; [lia|]. by apply (IH v').
Qed.

Lemma storage_at_exact (d : Datadir) (address slot : bytes) :
  (forall o h v, (o, h, v) ∈ dd_hashed_storages d -> v <> 0) ->
  let v := storage_at (tx_of d) address slot in
  (v <> 0 -> (keccak256 address, keccak256 slot, v) ∈ dd_hashed_storages d) /\
  (v = 0 <-> forall v', (keccak256 address, keccak256 slot, v') ∉ dd_hashed_storages d).
Proof.
  intros Hnz. unfold storage_at, tx_of. cbn [tx_cursor tx_seek ok_flatten].
  pose proof (seek_exact (dup_entries (dd_hashed_storages d) (keccak256 address)) (keccak256 slot) (dup_sorted _ _)) as Hs.
  destruct (seek _ _) as [[key v]|]; cbn zeta.
  - destruct Hs as [Hin Hno]. destruct (Z.eqb_spec key (keccak256 slot)) as [->|Hne].
    + apply dup_exact in Hin. split; [done|]. split; [intros ->; by apply Hnz in Hin|]. intros H. by apply H in Hin.
    + split; [done|]. split; [|done]. intros _ v' Hv. apply dup_exact in Hv. by apply (Hno Hne v').
  - split; [done|]. split; [|done]. intros _ v' Hv. apply dup_exact in Hv. by apply (Hs v').
Qed.

Lemma list_storage_all (entries : list (Z * Z)) : Forall (fun e => snd e <> 0) entries -> list_storage (Ok <$> entries) = Ok entries.
Proof. induction 1 as [|[h v] entries Hv _ IH]; [done|]. cbn. cbn in IH. rewrite IH. cbn. cbn in Hv. by destruct (Z.eqb_spec v 0). Qed.

(** What is printed of an address, by the state. *)
Record reads_state (d : Datadir) (args : SnapshotReadArgs) (address : bytes) (r : ReadReport) : Prop := {
  rs_account : match dd_hashed_accounts d !! keccak256 address with
               | Some a => rp_nonce r = ai_nonce a /\ rp_balance r = ai_balance a /\ rp_code_hash r = default KECCAK_EMPTY (ai_bytecode_hash a)
               | None => rp_nonce r = 0 /\ rp_balance r = 0 /\ rp_code_hash r = KECCAK_EMPTY
               end;
  rs_code : rp_code_hash r <> KECCAK_EMPTY -> exists code, keccak256 code = rp_code_hash r /\ rp_code_len r = length code;
  rs_slot : forall s slot, ra_slot args = Some s -> read_slot s = Ok slot -> exists v, rp_slot r = Some (slot, v) /\
    (v <> 0 -> (keccak256 address, keccak256 slot, v) ∈ dd_hashed_storages d) /\
    (v = 0 <-> forall v', (keccak256 address, keccak256 slot, v') ∉ dd_hashed_storages d);
  rs_storage : ra_list_storage args = true -> exists entries, rp_storage r = Some (entries, length entries) /\ NoDup entries /\
    forall h v, (h, v) ∈ entries <-> (keccak256 address, h, v) ∈ dd_hashed_storages d
}.

Lemma read_state (d : Datadir) (args : SnapshotReadArgs) (address : bytes) :
  (forall h a c, dd_hashed_accounts d !! h = Some a -> ai_bytecode_hash a = Some c -> exists code, dd_bytecodes d !! c = Some code /\ keccak256 code = c) ->
  (forall o h v, (o, h, v) ∈ dd_hashed_storages d -> v <> 0) ->
  read_address (ra_addr args) = Ok address -> (forall s, ra_slot args = Some s -> exists slot, read_slot s = Ok slot) ->
  exists r, read args (Ok (tx_of d)) = Ok r /\ reads_state d args address r.
Proof.
  intros Hcode Hnz Ha Hslot. unfold read. rewrite Ha. cbn [rbind]. unfold account_by_address, code_of.
  cbn [tx_of tx_account tx_bytecode tx_cursor tx_walk tx_commit ok_flatten rbind]. set (entries := dup_entries (dd_hashed_storages d) (keccak256 address)).
  set (found := match dd_hashed_accounts d !! keccak256 address with Some acct => _ | None => _ end). destruct found as [[nonce balance] code_hash] eqn:Hfound.
  set (slot := match ra_slot args with None => Ok None | Some s => _ end).
  assert (Hs : exists o, slot = Ok o /\ forall s b, ra_slot args = Some s -> read_slot s = Ok b -> o = Some (b, storage_at (tx_of d) address b)).
  { unfold slot. destruct (ra_slot args) as [s|]; [|by exists None]. destruct (Hslot s eq_refl) as [b Hb]. rewrite Hb. cbn [rbind].
    eexists. split; [done|]. intros ? ? [= <-]. rewrite Hb. by intros [= <-]. }
  destruct Hs as (o & -> & Ho). cbn [rbind]. rewrite list_storage_all.
  2:{ apply Forall_forall. intros [h v] Hin. apply dup_exact in Hin. by apply Hnz in Hin. }
  cbn [rbind]. set (storage := if ra_list_storage args then _ else _).
  assert (Hst : exists l, storage = Ok l /\ (ra_list_storage args = true -> l = Some (entries, length entries))).
  { unfold storage. destruct (ra_list_storage args); eexists; by split. }
  destruct Hst as (l & -> & Hl). cbn [rbind]. eexists. split; [done|]. split; cbn [rp_nonce rp_balance rp_code_hash rp_code_len rp_slot rp_storage].
  - unfold found in Hfound. by destruct (dd_hashed_accounts d !! keccak256 address); injection Hfound as <- <- <-.
  - intros Hne. unfold found in Hfound. destruct (Z.eqb_spec code_hash KECCAK_EMPTY) as [|_]; [done|].
    destruct (dd_hashed_accounts d !! keccak256 address) as [a|] eqn:Hacct; injection Hfound as _ _ <-; [|done].
    destruct (ai_bytecode_hash a) as [c|] eqn:Hc; cbn in Hne |- *; [|done]. destruct (Hcode _ a c Hacct Hc) as (code & Hd & Hk). rewrite Hd. by exists code.
  - intros s b Hs Hb. rewrite (Ho s b Hs Hb). eexists. split; [done|]. by apply storage_at_exact.
  - intros H. rewrite (Hl H). exists entries. split; [done|]. split; [apply dup_once|]. intros h v. apply dup_exact.
Qed.

(** Reading after an import shows the authenticated head state: when the import of a state stream has
    returned, the command prints, for every address and slot that parse, the account in the hashed
    tables whose root is the header's, the length of code with the account's code hash, the value of
    the slot (zero exactly when there is none), and all entries of the account. *)
Theorem read_after_import (trie_root : gmap Z AccountInfo -> gset (Z * Z * Z) -> result string Z) (env : HeadImportEnv)
    (faults : list (Fault string)) (n n' : nat) (w : Work) (args : SnapshotReadArgs) (address : bytes) :
  import trie_root env ({| w_dir := empty_datadir; w_faults := faults |}, n) = (Ret tt, (w, n')) ->
  read_address (ra_addr args) = Ok address -> (forall s, ra_slot args = Some s -> exists slot, read_slot s = Ok slot) ->
  exists head r, authenticated head /\ trie_root (dd_hashed_accounts (w_dir w)) (dd_hashed_storages (w_dir w)) = Ok (bh_state_root (hd_header head)) /\
    read args (Ok (tx_of (w_dir w))) = Ok r /\ reads_state (w_dir w) args address r.
Proof.
  intros Hrun Ha Hslot. pose proof (import_spec trie_root env {| w_dir := empty_datadir; w_faults := faults |} eq_refl n) as Hs. rewrite Hrun in Hs.
  destruct Hs as (head & policy & pre & _ & Hd). destruct (read_state (w_dir w) args address) as (r & Hr & Hrs); [| |done|done|].
  - apply (hi_code _ _ _ _ _ _ Hd).
  - intros o h v H. by apply (hi_slots _ _ _ _ _ _ Hd) in H as [? _].
  - exists head, r. split; [apply (hi_head _ _ _ _ _ _ Hd)|]. split; [apply (hi_root _ _ _ _ _ _ Hd)|]. done.
Qed.
End Tables.
