(* ===== verification/Timing.v ===== *)
(** * Where the time of a block goes

    The timings that [crates/arb-reth-engine/src/engine.rs] takes of each block and
    [crates/arb-reth-node/src/metrics.rs] reports of each message of the feed. An [Instant] is a reading
    of a monotone clock in nanoseconds; a computation that times itself reads the clock of its thread, so
    it is a function of the readings it gets. Three threads take part: the driver, the job that builds
    the payload, and the task that awaits the forkchoice answer. The work between two readings is left
    to the other files. A sample of a histogram is its name with the duration; the floating-point
    throughput is left out. *)

From Stdlib Require Import Strings.String.
From stdpp Require Import base list numbers option strings.
From S2P Require Import Prelude BTree.

(** ** Reading the clock *)

(** A computation that reads the clock: the [i]-th reading of a thread is at [clock i]. *)
Definition Clocked (A : Type) : Type := nat -> A * nat.

#[global] Instance clocked_ret : MRet Clocked := fun A a n => (a, n).
#[global] Instance clocked_bind : MBind Clocked := fun A B f m n => let '(a, n') := m n in f a n'.

Section Clock.
Context (clock : nat -> Z).

(** [Instant::now()] *)
Definition now : Clocked Z := fun n => (clock n, S n).

(** [since.elapsed()] *)
Definition elapsed (since : Z) : Clocked Z := fun n => (saturating_sub (clock n) since, S n).

(** Readings that other code of the thread takes. *)
Definition skip (k : nat) : Clocked unit := fun n => (tt, n + k)%nat.
End Clock.

(** ** The timings of a block *)

Record ArbBlockProductionTiming := {
  pt_total : Z; pt_parent_state : Z; pt_message_preparation : Z; pt_state_setup : Z; pt_execution : Z; pt_execution_setup : Z;
  pt_start_block_transaction_construction : Z; pt_start_block_transaction : Z; pt_derived_transactions : Z;
  pt_derived_transaction_execution : Z; pt_derived_retry_scheduling : Z; pt_derived_transactions_unattributed : Z;
  pt_execution_unattributed : Z; pt_finish : Z; pt_finish_executor : Z; pt_finish_hashed_state : Z; pt_finish_state_root : Z;
  pt_finish_state_root_task_wait : option Z; pt_state_root_task_succeeded : bool; pt_finish_assembly : Z; pt_finish_unattributed : Z
}.

Record ArbPayloadJobTiming := { jt_attributes : Z; jt_job : Z; jt_launch : Z; jt_resolve : Z }.

Record ArbForkchoiceCompletion := { fc_completed_at : Z; fc_elapsed : Z }.

(** The fields of [PendingAppliedBlock] that a timing is made of. *)
Record PendingTiming := {
  pe_production_timing : ArbBlockProductionTiming; pe_payload_timing : ArbPayloadJobTiming; pe_started_at : Z;
  pe_engine_handoff_started_at : Z; pe_canonicalization_started_at : Z; pe_engine_insert : Z
}.

Record ArbAppliedMessageTiming := {
  started_at : Z; completed_at : Z; payload_attributes : Z; payload_job : Z; payload_job_launch : Z; payload_job_resolve : Z;
  payload_job_overhead : Z; block_production : Z; block_production_unattributed : Z; block_parent_state : Z;
  block_message_preparation : Z; block_state_setup : Z; block_execution : Z; block_execution_setup : Z;
  block_start_block_transaction_construction : Z; block_start_block_transaction : Z; block_derived_transactions : Z;
  block_derived_transaction_execution : Z; block_derived_retry_scheduling : Z; block_derived_transactions_unattributed : Z;
  block_execution_unattributed : Z; block_finish : Z; block_finish_executor : Z; block_finish_hashed_state : Z;
  block_finish_state_root : Z; block_finish_state_root_task_wait : option Z; block_finish_state_root_task_succeeded : option bool;
  block_finish_assembly : Z; block_finish_unattributed : Z; engine_handoff : Z; engine_insert : Z; engine_forkchoice : Z;
  canonicalization_wait : Z; total : Z
}.

(** ** Producing *)

(** One turn of the production loop, by what is timed: the start-block transaction or another one, and
    whether retries were scheduled; or a derived transaction that was dropped. *)
Inductive TimedTurn := StartBlockTurn (retries : bool) | DerivedTurn (retries : bool) | DroppedTurn.

Record LoopTiming := { start_block_transaction : Z; derived_transactions : Z; derived_transaction_execution : Z; derived_retry_scheduling : Z }.

(** [ArbBlockFinishTiming] and [FinishStateTimings] after [BlockBuilder::finish]. *)
Record FinishTiming := { executor_finish : Z; hashed_post_state_nanos : Z; state_root_nanos : Z; block_assembly : Z }.

(** [elapsed.as_nanos().min(u64::MAX as u128) as u64] *)
Definition as_nanos_u64 (elapsed : Z) : Z := Z.min elapsed U64_MAX.

Section Produce.
Context (clock : nat -> Z).

Definition time_retries (retries : bool) : Clocked Z :=
  if retries then retry_scheduling_started_at ← now clock; elapsed clock retry_scheduling_started_at else mret 0.

Definition time_turn (turn : TimedTurn) (t : LoopTiming) : Clocked LoopTiming :=
  tx_started_at ← now clock;
  match turn with
  | DroppedTurn =>
      tx_execution ← elapsed clock tx_started_at;
      mret {| start_block_transaction := start_block_transaction t; derived_transactions := derived_transactions t + tx_execution;
              derived_transaction_execution := derived_transaction_execution t + tx_execution;
              derived_retry_scheduling := derived_retry_scheduling t |}
  | StartBlockTurn retries =>
      _ ← time_retries retries;
      tx_execution ← elapsed clock tx_started_at;
      mret {| start_block_transaction := start_block_transaction t + tx_execution; derived_transactions := derived_transactions t;
              derived_transaction_execution := derived_transaction_execution t; derived_retry_scheduling := derived_retry_scheduling t |}
  | DerivedTurn retries =>
      retry_scheduling ← time_retries retries;
      tx_execution ← elapsed clock tx_started_at;
      mret {| start_block_transaction := start_block_transaction t; derived_transactions := derived_transactions t + tx_execution;
              derived_transaction_execution := derived_transaction_execution t + saturating_sub tx_execution retry_scheduling;
              derived_retry_scheduling := derived_retry_scheduling t + retry_scheduling |}
  end.

Fixpoint time_turns (turns : list TimedTurn) (t : LoopTiming) : Clocked LoopTiming :=
  match turns with
  | [] => mret t
  | turn :: turns => t ← time_turn turn t; time_turns turns t
  end.

(** [BlockBuilder::finish] with the timers it runs into: the executor's, then those around the hashed
    state and, when no root was supplied, the state root, then the assembler's. *)
Definition time_finish (precomputed : bool) : Clocked FinishTiming :=
  finish_started_at ← now clock;
  header_info_started_at ← now clock;
  _ ← elapsed clock header_info_started_at;
  executor_finish ← elapsed clock finish_started_at;
  hashing_started_at ← now clock;
  hashed_post_state ← elapsed clock hashing_started_at;
  state_root ← (if precomputed : bool then mret 0 else root_started_at ← now clock; elapsed clock root_started_at);
  assembly_started_at ← now clock;
  block_assembly ← elapsed clock assembly_started_at;
  mret {| executor_finish := executor_finish; hashed_post_state_nanos := as_nanos_u64 hashed_post_state;
          state_root_nanos := as_nanos_u64 state_root; block_assembly := block_assembly |}.

(** The wait for the state-root task, when there is one; its result counts when it succeeded without
    hazards. *)
Definition time_task (task : option bool) : Clocked (option Z) :=
  match task with
  | Some _ => wait_started_at ← now clock; wait ← elapsed clock wait_started_at; mret (Some wait)
  | None => mret None
  end.

(** [produce_with_timing], its timings. *)
Definition time_produce (turns : list TimedTurn) (task : option bool) : Clocked ArbBlockProductionTiming :=
  started_at ← now clock;
  phase_started_at ← now clock;
  state_setup ← elapsed clock phase_started_at;
  prepared ← elapsed clock started_at;
  let message_preparation := saturating_sub prepared state_setup in
  phase_started_at ← now clock;
  execution_setup ← elapsed clock phase_started_at;
  phase_started_at ← now clock;
  start_block_transaction_construction ← elapsed clock phase_started_at;
  phase_started_at ← now clock;
  l ← time_turns turns {| start_block_transaction := 0; derived_transactions := 0; derived_transaction_execution := 0; derived_retry_scheduling := 0 |};
  let derived_transactions_unattributed :=
    saturating_sub (derived_transactions l) (derived_transaction_execution l + derived_retry_scheduling l) in
  looped ← elapsed clock phase_started_at;
  let execution := looped + execution_setup + start_block_transaction_construction in
  let execution_unattributed := saturating_sub execution
    (execution_setup + start_block_transaction_construction + start_block_transaction l + derived_transactions l) in
  phase_started_at ← now clock;
  state_root_task_wait ← time_task task;
  let state_root_task_succeeded := default false task in
  f ← time_finish state_root_task_succeeded;
  finish ← elapsed clock phase_started_at;
  let finish_unattributed := saturating_sub finish
    (executor_finish f + hashed_post_state_nanos f + state_root_nanos f + default 0 state_root_task_wait + block_assembly f) in
  total ← elapsed clock started_at;
  mret {| pt_total := total; pt_parent_state := 0; pt_message_preparation := message_preparation; pt_state_setup := state_setup;
          pt_execution := execution; pt_execution_setup := execution_setup;
          pt_start_block_transaction_construction := start_block_transaction_construction;
          pt_start_block_transaction := start_block_transaction l; pt_derived_transactions := derived_transactions l;
          pt_derived_transaction_execution := derived_transaction_execution l; pt_derived_retry_scheduling := derived_retry_scheduling l;
          pt_derived_transactions_unattributed := derived_transactions_unattributed; pt_execution_unattributed := execution_unattributed;
          pt_finish := finish; pt_finish_executor := executor_finish f; pt_finish_hashed_state := hashed_post_state_nanos f;
          pt_finish_state_root := state_root_nanos f; pt_finish_state_root_task_wait := state_root_task_wait;
          pt_state_root_task_succeeded := state_root_task_succeeded; pt_finish_assembly := block_assembly f;
          pt_finish_unattributed := finish_unattributed |}.

(** [ArbPayloadBuilder::build], its timings: the parent's state is opened first. *)
Definition time_build (turns : list TimedTurn) (task : option bool) : Clocked ArbBlockProductionTiming :=
  started_at ← now clock;
  parent_state ← elapsed clock started_at;
  t ← time_produce turns task;
  total ← elapsed clock started_at;
  mret {| pt_total := total; pt_parent_state := parent_state; pt_message_preparation := pt_message_preparation t;
          pt_state_setup := pt_state_setup t; pt_execution := pt_execution t; pt_execution_setup := pt_execution_setup t;
          pt_start_block_transaction_construction := pt_start_block_transaction_construction t;
          pt_start_block_transaction := pt_start_block_transaction t; pt_derived_transactions := pt_derived_transactions t;
          pt_derived_transaction_execution := pt_derived_transaction_execution t;
          pt_derived_retry_scheduling := pt_derived_retry_scheduling t;
          pt_derived_transactions_unattributed := pt_derived_transactions_unattributed t;
          pt_execution_unattributed := pt_execution_unattributed t; pt_finish := pt_finish t; pt_finish_executor := pt_finish_executor t;
          pt_finish_hashed_state := pt_finish_hashed_state t; pt_finish_state_root := pt_finish_state_root t;
          pt_finish_state_root_task_wait := pt_finish_state_root_task_wait t;
          pt_state_root_task_succeeded := pt_state_root_task_succeeded t; pt_finish_assembly := pt_finish_assembly t;
          pt_finish_unattributed := pt_finish_unattributed t |}.
End Produce.

(** ** Applying *)

Section Apply.
Context (clock : nat -> Z).

(** [apply_one_native] up to the payload, with what settling the previous block reads in between: when
    the message was started, when its job was, and how long each part took. *)
Definition time_payload_job (settling : nat) : Clocked (Z * Z * ArbPayloadJobTiming) :=
  started_at ← now clock;
  phase_started_at ← now clock;
  payload_attributes ← elapsed clock phase_started_at;
  payload_job_started_at ← now clock;
  _ ← skip settling;
  payload_job_launch ← elapsed clock payload_job_started_at;
  payload_resolve_started_at ← now clock;
  payload_job_resolve ← elapsed clock payload_resolve_started_at;
  payload_job ← elapsed clock payload_job_started_at;
  mret (started_at, payload_job_started_at,
        {| jt_attributes := payload_attributes; jt_job := payload_job; jt_launch := payload_job_launch; jt_resolve := payload_job_resolve |}).

(** [queue_applied_block]: the block is inserted, then its forkchoice is sent. *)
Definition time_queue (started_at : Z) (payload_timing : ArbPayloadJobTiming) (production_timing : ArbBlockProductionTiming)
    : Clocked (Z * PendingTiming) :=
  engine_handoff_started_at ← now clock;
  phase_started_at ← now clock;
  engine_insert ← elapsed clock phase_started_at;
  forkchoice_started_at ← now clock;
  canonicalization_started_at ← now clock;
  mret (forkchoice_started_at,
        {| pe_production_timing := production_timing; pe_payload_timing := payload_timing; pe_started_at := started_at;
           pe_engine_handoff_started_at := engine_handoff_started_at; pe_canonicalization_started_at := canonicalization_started_at;
           pe_engine_insert := engine_insert |}).

(** The task that awaits the forkchoice answer. *)
Definition time_forkchoice (forkchoice_started_at : Z) : Clocked ArbForkchoiceCompletion :=
  completed_at ← now clock;
  passed ← elapsed clock forkchoice_started_at;
  mret {| fc_completed_at := completed_at; fc_elapsed := passed |}.
End Apply.

(** [later.saturating_duration_since(earlier)] *)
Definition saturating_duration_since (later earlier : Z) : Z := saturating_sub later earlier.

(** [record_completed_block]: the timing of the block, and the samples of the engine's histograms. *)
Definition record_completed_block (pending : PendingTiming) (engine_forkchoice canonicalization_wait engine_handoff completed_at : Z)
    : ArbAppliedMessageTiming * list (string * Z) :=
  let production_timing := pe_production_timing pending in
  let payload_timing := pe_payload_timing pending in
  let block_production := pt_total production_timing in
  let named_production := pt_parent_state production_timing + pt_message_preparation production_timing + pt_state_setup production_timing
    + pt_execution production_timing + pt_finish production_timing in
  let block_production_unattributed := saturating_sub block_production named_production in
  let payload_job_overhead := saturating_sub (jt_job payload_timing) block_production in
  let total := saturating_duration_since completed_at (pe_started_at pending) in
  let named_apply := jt_attributes payload_timing + jt_job payload_timing + engine_handoff in
  ({| started_at := pe_started_at pending; completed_at := completed_at; payload_attributes := jt_attributes payload_timing;
      payload_job := jt_job payload_timing; payload_job_launch := jt_launch payload_timing; payload_job_resolve := jt_resolve payload_timing;
      payload_job_overhead := payload_job_overhead; block_production := block_production;
      block_production_unattributed := block_production_unattributed; block_parent_state := pt_parent_state production_timing;
      block_message_preparation := pt_message_preparation production_timing; block_state_setup := pt_state_setup production_timing;
      block_execution := pt_execution production_timing; block_execution_setup := pt_execution_setup production_timing;
      block_start_block_transaction_construction := pt_start_block_transaction_construction production_timing;
      block_start_block_transaction := pt_start_block_transaction production_timing;
      block_derived_transactions := pt_derived_transactions production_timing;
      block_derived_transaction_execution := pt_derived_transaction_execution production_timing;
      block_derived_retry_scheduling := pt_derived_retry_scheduling production_timing;
      block_derived_transactions_unattributed := pt_derived_transactions_unattributed production_timing;
      block_execution_unattributed := pt_execution_unattributed production_timing; block_finish := pt_finish production_timing;
      block_finish_executor := pt_finish_executor production_timing; block_finish_hashed_state := pt_finish_hashed_state production_timing;
      block_finish_state_root := pt_finish_state_root production_timing;
      block_finish_state_root_task_wait := pt_finish_state_root_task_wait production_timing;
      block_finish_state_root_task_succeeded :=
        (fun _ => pt_state_root_task_succeeded production_timing) <$> pt_finish_state_root_task_wait production_timing;
      block_finish_assembly := pt_finish_assembly production_timing; block_finish_unattributed := pt_finish_unattributed production_timing;
      engine_handoff := engine_handoff; engine_insert := pe_engine_insert pending; engine_forkchoice := engine_forkchoice;
      canonicalization_wait := canonicalization_wait; total := total |},
   [("payload_attributes"%string, jt_attributes payload_timing); ("payload_job"%string, jt_job payload_timing);
    ("payload_job_launch"%string, jt_launch payload_timing); ("payload_job_resolve"%string, jt_resolve payload_timing);
    ("payload_job_overhead"%string, payload_job_overhead); ("production"%string, block_production);
    ("production_unattributed"%string, block_production_unattributed); ("parent_state"%string, pt_parent_state production_timing);
    ("message_preparation"%string, pt_message_preparation production_timing); ("state_setup"%string, pt_state_setup production_timing);
    ("execution"%string, pt_execution production_timing); ("execution_setup"%string, pt_execution_setup production_timing);
    ("start_block_transaction_construction"%string, pt_start_block_transaction_construction production_timing);
    ("start_block_transaction"%string, pt_start_block_transaction production_timing);
    ("derived_transactions"%string, pt_derived_transactions production_timing);
    ("derived_transaction_execution"%string, pt_derived_transaction_execution production_timing);
    ("derived_retry_scheduling"%string, pt_derived_retry_scheduling production_timing);
    ("derived_transactions_unattributed"%string, pt_derived_transactions_unattributed production_timing);
    ("execution_unattributed"%string, pt_execution_unattributed production_timing); ("finish"%string, pt_finish production_timing);
    ("finish_executor"%string, pt_finish_executor production_timing); ("finish_hashed_state"%string, pt_finish_hashed_state production_timing);
    ("finish_state_root"%string, pt_finish_state_root production_timing)]
   ++ match pt_finish_state_root_task_wait production_timing with
      | Some wait => [("finish_state_root_task_wait"%string, wait)]
      | None => []
      end
   ++ [("finish_assembly"%string, pt_finish_assembly production_timing); ("finish_unattributed"%string, pt_finish_unattributed production_timing);
       ("engine_handoff"%string, engine_handoff); ("engine_insert"%string, pe_engine_insert pending);
       ("engine_forkchoice"%string, engine_forkchoice); ("canonicalization_wait"%string, canonicalization_wait);
       ("apply_overhead"%string, saturating_sub total named_apply); ("total"%string, total)]).

(** [settle_pending_applied], once the forkchoice was answered: a block that was not seen at once was
    waited for. *)
Definition time_settle (clock : nat -> Z) (pending : PendingTiming) (forkchoice : ArbForkchoiceCompletion) (was_observable_at_response : bool)
    : Clocked (ArbAppliedMessageTiming * list (string * Z)) :=
  completed_at ← (if was_observable_at_response : bool then mret (fc_completed_at forkchoice) else now clock);
  mret (record_completed_block pending (fc_elapsed forkchoice)
          (saturating_duration_since completed_at (pe_canonicalization_started_at pending))
          (saturating_duration_since completed_at (pe_engine_handoff_started_at pending)) completed_at).

(** A message from its start to the canonical block, over the clocks of the driver, the payload job and
    the forkchoice task; with the first and last reading of the job and those of the driver around it. *)
Definition time_message (driver job task : nat -> Z) (settling later : nat) (turns : list TimedTurn) (root_task : option bool)
    (was_observable_at_response : bool) : ArbAppliedMessageTiming * list (string * Z) :=
  let '((started_at, _, payload_timing), n) := time_payload_job driver settling O in
  let '(production_timing, _) := time_build job turns root_task O in
  let '((forkchoice_started_at, pending), n) := time_queue driver started_at payload_timing production_timing n in
  let '(forkchoice, _) := time_forkchoice task forkchoice_started_at O in
  fst (time_settle driver pending forkchoice was_observable_at_response (n + later)%nat).

(** When the driver asked for the job and when it had the payload, and when it sent the forkchoice. *)
Definition job_asked (driver : nat -> Z) : Z := driver 3%nat.
Definition job_resolved (driver : nat -> Z) (settling : nat) : Z := driver (7 + settling)%nat.
Definition forkchoice_sent (driver : nat -> Z) (settling : nat) : Z := driver (11 + settling)%nat.

(** Where the job ends. *)
Definition job_readings (job : nat -> Z) (turns : list TimedTurn) (root_task : option bool) : nat := snd (time_build job turns root_task O).

(** ** The breakdown is exact *)

Definition monotone (clock : nat -> Z) : Prop := forall i j, (i <= j)%nat -> clock i <= clock j.

Section Production.
Context (clock : nat -> Z) (Hc : monotone clock).

Lemma time_retries_spec (retries : bool) (n : nat) :
  exists d n', time_retries clock retries n = (d, n') /\ (n <= n')%nat /\ 0 <= d <= clock n' - clock n.
Proof.
  destruct retries; cbn.
  - eexists _, _. split; [done|]. pose proof (Hc n (S n)). pose proof (Hc (S n) (S (S n))). unfold saturating_sub. split; lia.
  - exists 0, n. split; [done|]. lia.
Qed.

(** What a run of the loop adds: no more than the time it took; derived transactions are executing or
    scheduling. *)
Record loop_adds (t t' : LoopTiming) (span : Z) : Prop := {
  la_start : 0 <= start_block_transaction t' - start_block_transaction t;
  la_derived : 0 <= derived_transactions t' - derived_transactions t;
  la_span : (start_block_transaction t' - start_block_transaction t) + (derived_transactions t' - derived_transactions t) <= span;
  la_split : derived_transactions t' - derived_transactions t =
    (derived_transaction_execution t' - derived_transaction_execution t) + (derived_retry_scheduling t' - derived_retry_scheduling t)
}.

Lemma time_turn_spec (turn : TimedTurn) (t : LoopTiming) (n : nat) :
  exists t' n', time_turn clock turn t n = (t', n') /\ (n <= n')%nat /\ loop_adds t t' (clock n' - clock n).
Proof.
  unfold time_turn, now, mbind, clocked_bind. destruct turn as [retries|retries|].
  - destruct (time_retries_spec retries (S n)) as (d & n' & -> & Hn & Hd). eexists _, _. split; [done|].
    pose proof (Hc n (S n)). pose proof (Hc (S n) n'). pose proof (Hc n' (S n')). split; [lia|]. split; cbn; unfold saturating_sub; lia.
  - destruct (time_retries_spec retries (S n)) as (d & n' & -> & Hn & Hd). eexists _, _. split; [done|].
    pose proof (Hc n (S n)). pose proof (Hc (S n) n'). pose proof (Hc n' (S n')). split; [lia|]. split; cbn; unfold saturating_sub; lia.
  - eexists _, _. split; [done|]. pose proof (Hc n (S n)). pose proof (Hc (S n) (S (S n))). split; [lia|]. split; cbn; unfold saturating_sub; lia.
Qed.

Lemma time_turns_spec (turns : list TimedTurn) (t : LoopTiming) (n : nat) :
  exists t' n', time_turns clock turns t n = (t', n') /\ (n <= n')%nat /\ loop_adds t t' (clock n' - clock n).
Proof.
  revert t n. induction turns as [|turn turns IH]; intros t n; cbn [time_turns].
  - exists t, n. split; [done|]. split; [done|]. split; lia.
  - destruct (time_turn_spec turn t n) as (t1 & n1 & E1 & Hn1 & H1). unfold mbind, clocked_bind. rewrite E1.
    destruct (IH t1 n1) as (t2 & n2 & -> & Hn2 & H2). exists t2, n2. split; [done|]. split; [lia|].
    destruct H1, H2. split; lia.
Qed.

Lemma time_finish_spec (precomputed : bool) (n : nat) :
  exists f n', time_finish clock precomputed n = (f, n') /\ (n <= n')%nat /\ 0 <= executor_finish f /\ 0 <= hashed_post_state_nanos f /\
    0 <= state_root_nanos f /\ 0 <= block_assembly f /\
    executor_finish f + hashed_post_state_nanos f + state_root_nanos f + block_assembly f <= clock n' - clock n.
Proof.
  assert (Hs : forall i, clock i <= clock (S i)) by (intros i; apply Hc; lia).
  unfold time_finish, now, elapsed, mbind, clocked_bind, mret, clocked_ret, as_nanos_u64, saturating_sub, U64_MAX.
  destruct precomputed; eexists _, _; (split; [reflexivity|]); cbn -[Z.pow Z.sub Z.add];
    pose proof (Hs n); pose proof (Hs (S n)); pose proof (Hs (S (S n))); pose proof (Hs (S (S (S n))));
    pose proof (Hs (S (S (S (S n))))); pose proof (Hs (S (S (S (S (S n)))))); pose proof (Hs (S (S (S (S (S (S n)))))));
    pose proof (Hs (S (S (S (S (S (S (S n)))))))); pose proof (Hs (S (S (S (S (S (S (S (S n)))))))));
    pose proof (Hs (S (S (S (S (S (S (S (S (S n)))))))))); lia.
Qed.

Lemma time_task_spec (task : option bool) (n : nat) :
  exists w n', time_task clock task n = (w, n') /\ (n <= n')%nat /\ 0 <= default 0 w <= clock n' - clock n.
Proof.
  destruct task as [b|]; cbn.
  - eexists _, _. split; [done|]. pose proof (Hc n (S n)). pose proof (Hc (S n) (S (S n))). unfold saturating_sub. cbn. split; lia.
  - exists None, n. split; [done|]. cbn. lia.
Qed.

(** The sums of a production timing. *)
Record production_exact (t : ArbBlockProductionTiming) : Prop := {
  pe_parts : pt_total t - (pt_parent_state t + pt_message_preparation t + pt_state_setup t + pt_execution t + pt_finish t) >= 0;
  pe_execution : pt_execution t = pt_execution_setup t + pt_start_block_transaction_construction t + pt_start_block_transaction t
    + pt_derived_transactions t + pt_execution_unattributed t;
  pe_derived : pt_derived_transactions t = pt_derived_transaction_execution t + pt_derived_retry_scheduling t;
  pe_derived_rest : pt_derived_transactions_unattributed t = 0;
  pe_finish : pt_finish t = pt_finish_executor t + pt_finish_hashed_state t + pt_finish_state_root t
    + default 0 (pt_finish_state_root_task_wait t) + pt_finish_assembly t + pt_finish_unattributed t;
  pe_rest : 0 <= pt_execution_unattributed t /\ 0 <= pt_finish_unattributed t
}.

Lemma time_produce_spec (turns : list TimedTurn) (task : option bool) (n : nat) :
  exists t n', time_produce clock turns task n = (t, n') /\ (n < n')%nat /\ pt_total t = clock (pred n') - clock n /\
    pt_parent_state t = 0 /\ production_exact t.
Proof.
  assert (Hs : forall i, clock i <= clock (S i)) by (intros i; apply Hc; lia).
  unfold time_produce, now, elapsed, mbind, clocked_bind, mret, clocked_ret.
  pose proof (Hs n). pose proof (Hs (S n)). pose proof (Hs (S (S n))). pose proof (Hs (S (S (S n)))).
  pose proof (Hs (S (S (S (S n))))). pose proof (Hs (S (S (S (S (S n)))))). pose proof (Hs (S (S (S (S (S (S n))))))).
  pose proof (Hs (S (S (S (S (S (S (S n)))))))). pose proof (Hs (S (S (S (S (S (S (S (S n))))))))).
  match goal with |- context [time_turns clock turns ?l ?m] => destruct (time_turns_spec turns l m) as (l' & n1 & -> & Hn1 & Hl) end.
  destruct Hl as [L1 L2 L3 L4]. cbn [start_block_transaction derived_transactions derived_transaction_execution derived_retry_scheduling] in L1, L2, L3, L4.
  pose proof (Hs n1). pose proof (Hs (S n1)).
  destruct (time_task_spec task (S (S n1))) as (w & n2 & -> & Hn2 & Hw).
  destruct (time_finish_spec (default false task) n2) as (f & n3 & -> & Hn3 & F1 & F2 & F3 & F4 & F5).
  pose proof (Hs n3). pose proof (Hc (S (S n1)) n2 ltac:(lia)). pose proof (Hc n2 n3 ltac:(lia)).
  eexists _, _. split; [reflexivity|]. split; [lia|]. cbn [pt_total pt_parent_state pred]. unfold saturating_sub.
  split; [lia|]. split; [done|]. split; cbn; unfold saturating_sub; lia.
Qed.

Lemma time_build_spec (turns : list TimedTurn) (task : option bool) (n : nat) :
  exists t n', time_build clock turns task n = (t, n') /\ (n < n')%nat /\ pt_total t = clock (pred n') - clock n /\ production_exact t.
Proof.
  assert (Hs : forall i, clock i <= clock (S i)) by (intros i; apply Hc; lia).
  unfold time_build, now, elapsed, mbind, clocked_bind, mret, clocked_ret.
  destruct (time_produce_spec turns task (S (S n))) as (t & n' & -> & Hn & Ht & Hp & [P1 P2 P3 P4 P5 P6]).
  pose proof (Hs n). pose proof (Hs (S n)). pose proof (Hc (S (S n)) (pred n') ltac:(lia)). pose proof (Hc (pred n') n' ltac:(lia)).
  eexists _, _. split; [reflexivity|]. split; [lia|]. cbn [pt_total pred]. unfold saturating_sub. split; [lia|].
  split; cbn; unfold saturating_sub; try done; lia.
Qed.
End Production.

(** The sums of the timing of a message: the phases with the remainder are the whole, at every level. *)
Record applied_exact (t : ArbAppliedMessageTiming) (overhead : Z) : Prop := {
  ae_total : total t = completed_at t - started_at t /\ total t = payload_attributes t + payload_job t + engine_handoff t + overhead /\ 0 <= overhead;
  ae_job : payload_job t = block_production t + payload_job_overhead t /\ 0 <= payload_job_overhead t /\
    payload_job_launch t + payload_job_resolve t <= payload_job t;
  ae_production : block_production t = block_parent_state t + block_message_preparation t + block_state_setup t + block_execution t
    + block_finish t + block_production_unattributed t /\ 0 <= block_production_unattributed t;
  ae_execution : block_execution t = block_execution_setup t + block_start_block_transaction_construction t + block_start_block_transaction t
    + block_derived_transactions t + block_execution_unattributed t /\ 0 <= block_execution_unattributed t;
  ae_derived : block_derived_transactions t = block_derived_transaction_execution t + block_derived_retry_scheduling t /\
    block_derived_transactions_unattributed t = 0;
  ae_finish : block_finish t = block_finish_executor t + block_finish_hashed_state t + block_finish_state_root t
    + default 0 (block_finish_state_root_task_wait t) + block_finish_assembly t + block_finish_unattributed t /\ 0 <= block_finish_unattributed t;
  ae_handoff : engine_insert t <= engine_handoff t /\ canonicalization_wait t <= engine_handoff t
}.

Lemma time_settle_spec (clock : nat -> Z) (pending : PendingTiming) (forkchoice : ArbForkchoiceCompletion) (observable : bool) (n : nat) :
  let c := if observable then fc_completed_at forkchoice else clock n in
  fst (time_settle clock pending forkchoice observable n) =
  record_completed_block pending (fc_elapsed forkchoice) (saturating_duration_since c (pe_canonicalization_started_at pending))
    (saturating_duration_since c (pe_engine_handoff_started_at pending)) c.
Proof. by destruct observable. Qed.

(** The breakdown of a block's time is exact: whatever the clocks of the driver, the payload job and the
    forkchoice task read, when the job runs between the request and its resolution and the answer comes
    after the forkchoice was sent, every phase and its remainder add up to the phase around it and no
    remainder is cut off at zero; the engine's overhead sample is the remainder of the whole. *)
Theorem breakdown_exact (driver job task : nat -> Z) (settling later : nat) (turns : list TimedTurn) (root_task : option bool) (observable : bool) :
  monotone driver -> monotone job -> monotone task -> job_asked driver <= job O ->
  job (pred (job_readings job turns root_task)) <= job_resolved driver settling -> forkchoice_sent driver settling <= task O ->
  let '(t, samples) := time_message driver job task settling later turns root_task observable in
  exists overhead, applied_exact t overhead /\ ("apply_overhead"%string, overhead) ∈ samples.
Proof.
  unfold job_asked, job_resolved, forkchoice_sent, job_readings. intros Hd Hj Ht H1 H2 H3. unfold time_message.
  unfold time_payload_job, time_queue, time_forkchoice, now, elapsed, skip, mbind, clocked_bind, mret, clocked_ret.
  destruct (time_build_spec job Hj turns root_task O) as (p & n & Hb & Hn & Hp & [P1 P2 P3 P4 P5 P6]). rewrite Hb in H2 |- *.
  cbn [fst snd] in H2 |- *.
  set (k := (4 + settling)%nat). change (7 + settling)%nat with (S (S (S k))) in H2. change (11 + settling)%nat with (S (S (S (S (S (S (S k))))))) in H3.
  set (m := (S _ + later)%nat). assert (Hm : driver (S (S (S (S (S (S (S k))))))) <= driver m) by (apply Hd; unfold m; lia).
  assert (Hk : (4 <= k)%nat) by lia. clearbody m. clearbody k.
  assert (Hs : forall i, driver i <= driver (S i)) by (intros i; apply Hd; lia).
  pose proof (Hs 0%nat). pose proof (Hs 1%nat). pose proof (Hs 2%nat). pose proof (Hd 3%nat k ltac:(lia)). pose proof (Hs k). pose proof (Hs (S k)).
  pose proof (Hs (S (S k))). pose proof (Hs (S (S (S k)))). pose proof (Hs (S (S (S (S k))))). pose proof (Hs (S (S (S (S (S k)))))).
  pose proof (Hs (S (S (S (S (S (S k))))))). pose proof (Hs (S (S (S (S (S (S (S k)))))))).
  assert (Hend : exists c, driver (S (S (S (S (S (S (S k))))))) <= c /\ (if observable then task O else driver m) = c) by (destruct observable; eauto).
  destruct Hend as (c & Hle & Hend). rewrite time_settle_spec. cbn [fc_completed_at fc_elapsed]. rewrite Hend.
  unfold record_completed_block. cbn [fst]. cbv zeta. eexists. split; [|apply elem_of_app; right; apply elem_of_app; right; apply list_elem_of_In; cbn; do 6 right; by left].
  unfold saturating_duration_since, saturating_sub. split; cbn -[from_option Z.max Z.sub Z.add]; rewrite ?Hp in *; lia.
Qed.

(** ** The latency of the feed *)

Definition MAX_TRACKED_MESSAGES : Z := 16384.

Record FeedMessageTiming := { frame_received_at : Z; ready_for_channel_at : option Z; driver_dequeued_at : option Z }.

(** The tracked messages and the counter of dropped samples. *)
Record FeedLatencyTracker := { messages : list (Z * FeedMessageTiming); tracking_dropped : Z }.

Definition tracker_new : FeedLatencyTracker := {| messages := bt_empty; tracking_dropped := 0 |}.

(** The lock was held by another thread: the sample is given up. *)
Definition dropped (self : FeedLatencyTracker) : FeedLatencyTracker := {| messages := messages self; tracking_dropped := tracking_dropped self + 1 |}.

Definition record_frame_arrival (contended : bool) (sequence_number received_at : Z) (self : FeedLatencyTracker) : FeedLatencyTracker :=
  if contended then dropped self
  else if bt_contains_key sequence_number (messages self) then self
  else
    let timing := {| frame_received_at := received_at; ready_for_channel_at := None; driver_dequeued_at := None |} in
    if Z.of_nat (length (messages self)) =? MAX_TRACKED_MESSAGES then
      let rest := match bt_pop_first (messages self) with Some (_, rest) => rest | None => messages self end in
      {| messages := bt_insert sequence_number timing rest; tracking_dropped := tracking_dropped self + 1 |}
    else {| messages := bt_insert sequence_number timing (messages self); tracking_dropped := tracking_dropped self |}.

Definition record_ready_for_channel (contended : bool) (sequence_number ready_at : Z) (self : FeedLatencyTracker) : FeedLatencyTracker :=
  if contended then dropped self
  else match bt_get sequence_number (messages self) with
       | Some timing =>
           {| messages := bt_insert sequence_number {| frame_received_at := frame_received_at timing; ready_for_channel_at := Some ready_at;
                                                       driver_dequeued_at := driver_dequeued_at timing |} (messages self);
              tracking_dropped := tracking_dropped self |}
       | None => self
       end.

Definition record_driver_dequeue (contended : bool) (sequence_number dequeued_at : Z) (self : FeedLatencyTracker) : FeedLatencyTracker :=
  if contended then dropped self
  else match bt_get sequence_number (messages self) with
       | Some timing =>
           {| messages := bt_insert sequence_number {| frame_received_at := frame_received_at timing;
                                                       ready_for_channel_at := ready_for_channel_at timing;
                                                       driver_dequeued_at := Some dequeued_at |} (messages self);
              tracking_dropped := tracking_dropped self |}
       | None => self
       end.

(** The samples of one message: from the frame to the canonical block, the parts before the engine
    where they were seen, and the engine's own. *)
Definition feed_samples (timing : FeedMessageTiming) (applied : ArbAppliedMessageTiming) : list (string * Z) :=
  [("frame_to_canonical"%string, saturating_duration_since (completed_at applied) (frame_received_at timing))]
  ++ match ready_for_channel_at timing with
     | Some ready_at =>
         [("frame_decode"%string, saturating_duration_since ready_at (frame_received_at timing))]
         ++ match driver_dequeued_at timing with
            | Some dequeued_at =>
                [("channel_wait"%string, saturating_duration_since dequeued_at ready_at);
                 ("sequencing_wait"%string, saturating_duration_since (started_at applied) dequeued_at)]
            | None => []
            end
     | None => []
     end
  ++ [("payload_attributes"%string, payload_attributes applied); ("payload_job"%string, payload_job applied);
      ("payload_job_launch"%string, payload_job_launch applied); ("payload_job_resolve"%string, payload_job_resolve applied);
      ("payload_job_overhead"%string, payload_job_overhead applied); ("production"%string, block_production applied);
      ("production_unattributed"%string, block_production_unattributed applied); ("parent_state"%string, block_parent_state applied);
      ("message_preparation"%string, block_message_preparation applied); ("state_setup"%string, block_state_setup applied);
      ("execution"%string, block_execution applied); ("execution_setup"%string, block_execution_setup applied);
      ("start_block_transaction_construction"%string, block_start_block_transaction_construction applied);
      ("start_block_transaction"%string, block_start_block_transaction applied);
      ("derived_transactions"%string, block_derived_transactions applied);
      ("derived_transaction_execution"%string, block_derived_transaction_execution applied);
      ("derived_retry_scheduling"%string, block_derived_retry_scheduling applied);
      ("derived_transactions_unattributed"%string, block_derived_transactions_unattributed applied);
      ("execution_unattributed"%string, block_execution_unattributed applied); ("finish"%string, block_finish applied);
      ("finish_executor"%string, block_finish_executor applied); ("finish_hashed_state"%string, block_finish_hashed_state applied);
      ("finish_state_root"%string, block_finish_state_root applied)]
  ++ match block_finish_state_root_task_wait applied with
     | Some wait => [("finish_state_root_task_wait"%string, wait)]
     | None => []
     end
  ++ [("finish_assembly"%string, block_finish_assembly applied); ("finish_unattributed"%string, block_finish_unattributed applied);
      ("engine_handoff"%string, engine_handoff applied); ("engine_insert"%string, engine_insert applied);
      ("engine_forkchoice"%string, engine_forkchoice applied); ("canonicalization_wait"%string, canonicalization_wait applied);
      ("apply_overhead"%string, saturating_sub (total applied) (payload_attributes applied + payload_job applied + engine_handoff applied));
      ("total"%string, total applied)].

Definition record_canonical (contended : bool) (sequence_number : Z) (applied : ArbAppliedMessageTiming) (self : FeedLatencyTracker)
    : FeedLatencyTracker * list (string * Z) :=
  if contended then (dropped self, [])
  else
    let timing := bt_get sequence_number (messages self) in
    ({| messages := bt_remove sequence_number (messages self); tracking_dropped := tracking_dropped self |},
     match timing with Some timing => feed_samples timing applied | None => [] end).

(** *** Histories *)

Inductive FeedCall :=
| FrameArrival (sequence_number received_at : Z)
| ReadyForChannel (sequence_number ready_at : Z)
| DriverDequeue (sequence_number dequeued_at : Z)
| Canonical (sequence_number : Z) (applied : ArbAppliedMessageTiming).

(** One call, with whether it met a held lock: the tracker and the samples. *)
Definition feed_call (c : bool * FeedCall) (self : FeedLatencyTracker) : FeedLatencyTracker * list (string * Z) :=
  let '(contended, call) := c in
  match call with
  | FrameArrival s at_ => (record_frame_arrival contended s at_ self, [])
  | ReadyForChannel s at_ => (record_ready_for_channel contended s at_ self, [])
  | DriverDequeue s at_ => (record_driver_dequeue contended s at_ self, [])
  | Canonical s applied => record_canonical contended s applied self
  end.

Definition call_sequence (call : FeedCall) : Z :=
  match call with FrameArrival s _ | ReadyForChannel s _ | DriverDequeue s _ | Canonical s _ => s end.

(** What is known of one message: the calls on it alone. *)
Definition message_call (call : FeedCall) (m : option FeedMessageTiming) : option FeedMessageTiming :=
  match call, m with
  | FrameArrival _ at_, None => Some {| frame_received_at := at_; ready_for_channel_at := None; driver_dequeued_at := None |}
  | FrameArrival _ _, Some t => Some t
  | ReadyForChannel _ at_, Some t =>
      Some {| frame_received_at := frame_received_at t; ready_for_channel_at := Some at_; driver_dequeued_at := driver_dequeued_at t |}
  | DriverDequeue _ at_, Some t =>
      Some {| frame_received_at := frame_received_at t; ready_for_channel_at := ready_for_channel_at t; driver_dequeued_at := Some at_ |}
  | (ReadyForChannel _ _ | DriverDequeue _ _), None => None
  | Canonical _ _, _ => None
  end.

(** The calls that met no held lock, and of these the ones on a message. *)
Definition calls_on (s : Z) (history : list (bool * FeedCall)) : list FeedCall :=
  snd <$> List.filter (fun c => negb (fst c) && (call_sequence (snd c) =? s)) history.

Definition known (s : Z) (history : list (bool * FeedCall)) : option FeedMessageTiming :=
  fold_left (fun m call => message_call call m) (calls_on s history) None.

Fixpoint feed_run (history : list (bool * FeedCall)) (self : FeedLatencyTracker) : FeedLatencyTracker * list (list (string * Z)) :=
  match history with
  | [] => (self, [])
  | c :: history =>
      let '(self, samples) := feed_call c self in
      let '(self, rest) := feed_run history self in
      (self, samples :: rest)
  end.

(** The tracker never met its bound. *)
Definition has_room (history : list (bool * FeedCall)) : Prop :=
  forall k, Z.of_nat (length (messages (fst (feed_run (take k history) tracker_new)))) < MAX_TRACKED_MESSAGES.

Lemma bt_insert_le {V : Type} (k : Z) (v : V) (m : list (Z * V)) : (length (bt_insert k v m) <= S (length m))%nat.
Proof. induction m as [|[k0 v0] m IH]; cbn; [done|]. destruct (k ?= k0); cbn; lia. Qed.

Lemma bt_insert_present {V : Type} (k : Z) (v v' : V) (m : list (Z * V)) :
  bt_sorted m -> bt_get k m = Some v' -> length (bt_insert k v m) = length m.
Proof.
  induction 1 as [|[k0 v0] m Hm IH Hall]; cbn; [done|]. intros Hg. destruct (k ?= k0) eqn:E; cbn; [done| |].
  - exfalso. apply bt_get_In in Hg. eapply List.Forall_forall in Hall; [|exact Hg]. cbn in Hall. unfold klt in Hall. cbn in Hall.
    rewrite Z.compare_lt_iff in E, Hall. lia.
  - f_equal. by apply IH.
Qed.

Lemma feed_run_snoc (history : list (bool * FeedCall)) (c : bool * FeedCall) (self : FeedLatencyTracker) :
  feed_run (history ++ [c]) self =
  (fst (feed_call c (fst (feed_run history self))), snd (feed_run history self) ++ [snd (feed_call c (fst (feed_run history self)))]).
Proof.
  revert self. induction history as [|c0 history IH]; intros self; cbn [feed_run app].
  - cbn [fst snd]. destruct (feed_call c self). done.
  - destruct (feed_call c0 self) as [self1 samples]. rewrite IH. by destruct (feed_run history self1).
Qed.

(** Every call keeps the map sorted and within its bound. *)
Lemma feed_call_bounded (c : bool * FeedCall) (self : FeedLatencyTracker) :
  bt_sorted (messages self) -> Z.of_nat (length (messages self)) <= MAX_TRACKED_MESSAGES ->
  bt_sorted (messages (fst (feed_call c self))) /\ Z.of_nat (length (messages (fst (feed_call c self)))) <= MAX_TRACKED_MESSAGES.
Proof.
  intros Hs Hb. destruct c as [[] call]; [by destruct call|]. destruct call as [s at_|s at_|s at_|s applied]; cbn.
  - unfold record_frame_arrival. destruct (bt_contains_key s (messages self)); [done|].
    destruct (Z.eqb_spec (Z.of_nat (length (messages self))) MAX_TRACKED_MESSAGES) as [He|Hne]; cbn [messages].
    + destruct (messages self) as [|kv m]; [done|]. cbn [bt_pop_first]. inversion Hs; subst. split; [by apply bt_insert_sorted|].
      match goal with |- context [bt_insert s ?v m] => pose proof (bt_insert_le s v m) end. cbn [length] in Hb. lia.
    + split; [by apply bt_insert_sorted|]. match goal with |- context [bt_insert s ?v ?m] => pose proof (bt_insert_le s v m) end. lia.
  - unfold record_ready_for_channel. destruct (bt_get s (messages self)) as [t|] eqn:E; [|done]. cbn [messages].
    split; [by apply bt_insert_sorted|]. by rewrite (bt_insert_present s _ t).
  - unfold record_driver_dequeue. destruct (bt_get s (messages self)) as [t|] eqn:E; [|done]. cbn [messages].
    split; [by apply bt_insert_sorted|]. by rewrite (bt_insert_present s _ t).
  - split; [by apply bt_retain_sorted|]. unfold bt_remove, bt_retain.
    match goal with |- context [List.filter ?f ?l] => pose proof (List.filter_length_le f l) end. lia.
Qed.

(** The tracker is bounded, whatever is called in whatever order. *)
Theorem tracker_bounded (history : list (bool * FeedCall)) :
  bt_sorted (messages (fst (feed_run history tracker_new))) /\
  Z.of_nat (length (messages (fst (feed_run history tracker_new)))) <= MAX_TRACKED_MESSAGES.
Proof.
  induction history as [|c history IH] using rev_ind; [split; [constructor|vm_compute; discriminate]|].
  destruct IH as [Hs Hb]. rewrite feed_run_snoc. by apply feed_call_bounded.
Qed.

Lemma known_snoc (s : Z) (history : list (bool * FeedCall)) (c : bool * FeedCall) :
  known s (history ++ [c]) =
  if negb (fst c) && (call_sequence (snd c) =? s) then message_call (snd c) (known s history) else known s history.
Proof.
  unfold known, calls_on. rewrite List.filter_app, fmap_app, fold_left_app. cbn. by destruct (negb (fst c) && _).
Qed.

(** With room, a call changes what is known of its own message only. *)
Lemma feed_call_known (contended : bool) (call : FeedCall) (self : FeedLatencyTracker) (s : Z) :
  Z.of_nat (length (messages self)) < MAX_TRACKED_MESSAGES ->
  bt_get s (messages (fst (feed_call (contended, call) self))) =
  if negb contended && (call_sequence call =? s) then message_call call (bt_get s (messages self)) else bt_get s (messages self).
Proof.
  intros Hroom. destruct contended; [by destruct call|]. cbn [negb andb].
  assert (Hput : forall k v (m : list (Z * FeedMessageTiming)), bt_get s (bt_insert k v m) = if k =? s then Some v else bt_get s m).
  { intros k v m. destruct (Z.eqb_spec k s) as [->|Hne]; [apply bt_get_insert_eq|by apply bt_get_insert_ne]. }
  destruct call as [k at_|k at_|k at_|k applied]; cbn [feed_call fst call_sequence].
  - unfold record_frame_arrival, bt_contains_key. destruct (bt_get k (messages self)) as [t|] eqn:E.
    + destruct (Z.eqb_spec k s) as [->|]; [|done]. by rewrite E.
    + destruct (Z.eqb_spec (Z.of_nat (length (messages self))) MAX_TRACKED_MESSAGES); [lia|]. cbn [messages]. rewrite Hput.
      destruct (Z.eqb_spec k s) as [->|]; [|done]. by rewrite E.
  - unfold record_ready_for_channel. destruct (bt_get k (messages self)) as [t|] eqn:E; cbn [messages]; rewrite ?Hput;
      destruct (Z.eqb_spec k s) as [->|]; try done; by rewrite E.
  - unfold record_driver_dequeue. destruct (bt_get k (messages self)) as [t|] eqn:E; cbn [messages]; rewrite ?Hput;
      destruct (Z.eqb_spec k s) as [->|]; try done; by rewrite E.
  - cbn [record_canonical fst messages message_call]. rewrite bt_get_remove. cbn. destruct (Z.compare_spec k s), (Z.eqb_spec k s); done || lia.
Qed.

Lemma has_room_snoc (history : list (bool * FeedCall)) (c : bool * FeedCall) :
  has_room (history ++ [c]) -> has_room history /\ Z.of_nat (length (messages (fst (feed_run history tracker_new)))) < MAX_TRACKED_MESSAGES.
Proof.
  intros H. split.
  - intros k. destruct (decide (k <= length history)%nat) as [Hk|Hk].
    + specialize (H k). by rewrite take_app_le in H.
    + specialize (H (length history)). rewrite take_app_length in H. by rewrite take_ge by lia.
  - specialize (H (length history)). by rewrite take_app_length in H.
Qed.

Lemma tracked_known (history : list (bool * FeedCall)) (s : Z) :
  has_room history -> bt_get s (messages (fst (feed_run history tracker_new))) = known s history.
Proof.
  induction history as [|[contended call] history IH] using rev_ind; intros Hroom; [done|].
  apply has_room_snoc in Hroom as [Hr Hlt]. rewrite feed_run_snoc. cbn [fst]. rewrite feed_call_known, IH, known_snoc by done. done.
Qed.

(** The latency of a message is its own: while the tracker has room, what is sampled when a block
    becomes canonical is made of the calls for that sequence number that met no held lock, since it was
    last sampled; other messages and their order do not matter, and a contended call samples nothing. *)
Theorem feed_latency_exact (history : list (bool * FeedCall)) (contended : bool) (s : Z) (applied : ArbAppliedMessageTiming) :
  has_room history ->
  snd (feed_call (contended, Canonical s applied) (fst (feed_run history tracker_new))) =
  if contended then [] else match known s history with Some timing => feed_samples timing applied | None => [] end.
Proof. intros Hr. cbn. unfold record_canonical. destruct contended; [done|]. cbn [snd]. by rewrite tracked_known. Qed.

(** The engine's samples of a block are among the feed's of its message, with the same durations. *)
Theorem feed_extends_engine_samples (timing : FeedMessageTiming) (pending : PendingTiming) (forkchoice wait handoff completed : Z) :
  let '(applied, samples) := record_completed_block pending forkchoice wait handoff completed in
  exists own, feed_samples timing applied = own ++ samples /\ ("frame_to_canonical"%string, saturating_duration_since completed (frame_received_at timing)) ∈ own.
Proof.
  unfold record_completed_block. cbv zeta. cbn [fst snd]. unfold feed_samples.
  rewrite (app_assoc [_]). eexists. split; [reflexivity|]. apply elem_of_app. left. by apply list_elem_of_singleton.
Qed.

(** A block of three transactions, one dropped and one with a retry, built while the driver waits. *)
Module SampleTiming.
Definition driver (i : nat) : Z := 1000 * Z.of_nat i.
Definition job (i : nat) : Z := 3100 + 50 * Z.of_nat i.
Definition task (i : nat) : Z := 12500 + 10 * Z.of_nat i.
Definition turns : list TimedTurn := [StartBlockTurn false; DerivedTurn true; DroppedTurn].

Lemma sample_breakdown :
  let '(t, samples) := time_message driver job task 0 0 turns (Some true) true in
  total t = 12500 /\ payload_job t = 4000 /\ block_production t = 1650 /\ exists overhead, applied_exact t overhead /\ ("apply_overhead"%string, overhead) ∈ samples.
Proof.
  pose proof (breakdown_exact driver job task 0 0 turns (Some true) true) as H.
  destruct (time_message driver job task 0 0 turns (Some true) true) as [t samples] eqn:E. vm_compute in E. injection E as <- <-.
  do 3 (split; [reflexivity|]). apply H; unfold monotone, driver, job, task; try (intros; lia); vm_compute; discriminate.
Qed.
End SampleTiming.
