(* ===== verification/ChangesetFiles.v ===== *)
(** * The names of the changeset files

    [rename_changeset_files_to_header] of [crates/arb-reth-node/src/commands/snapshot_full.rs]: Reth
    finds the changeset file of a block by its name, which says the range in the file's header. The
    import moves the start of the first file's range after the file was created, so at the end every
    file is renamed to what its header says, over the same directory as [Rewind.Layout]. *)

From Stdlib Require Import Strings.Byte Strings.Ascii Strings.String.
From stdpp Require Import base list numbers option strings gmap pretty.
From S2P Require Import Prelude Crash Rewind.

Section Renaming.
(** [std::fs::read_dir], in the order it lists. *)
Variable read_dir : Layout.StaticDir -> list string.

Definition segment_prefix (segment : string) : string := ("static_file_" ++ segment ++ "_")%string.

Definition is_data_name (segment name : string) : bool := String.prefix (segment_prefix segment) name && negb (Layout.has_dot name).

(** The name in the header: bytes 8 to 24 are the range. *)
Definition header_name (segment : string) (conf : bytes) : string := Layout.base_name segment (Layout.rd conf 8) (Layout.rd conf 16).

Definition rename_one (segment name : string) : M Layout.StaticDir string unit :=
  let! conf := Layout.read_file (name ++ ".conf") in
  if (length conf <? 24)%nat then mret tt
  else
    let want := header_name segment conf in
    if String.eqb name want then mret tt else Layout.rename_all name want Layout.EXTENSIONS.

Fixpoint rename_names (segment : string) (names : list string) : M Layout.StaticDir string unit :=
  match names with
  | [] => mret tt
  | name :: names => let! _ := rename_one segment name in rename_names segment names
  end.

(** The names are listed before the first of them is changed. *)
Definition rename_segment (segment : string) : M Layout.StaticDir string unit :=
  let! d := get in
  rename_names segment (List.filter (is_data_name segment) (read_dir d)).

Fixpoint rename_segments (segments : list string) : M Layout.StaticDir string unit :=
  match segments with
  | [] => mret tt
  | segment :: segments => let! _ := rename_segment segment in rename_segments segments
  end.

Definition rename_changeset_files_to_header : M Layout.StaticDir string unit := rename_segments Layout.SEGMENTS.
End Renaming.

(** ** Names *)

Lemma append_cons (c : ascii) (a b : string) : (String c a ++ b)%string = String c (a ++ b).
Proof. done. Qed.

Lemma append_empty (b : string) : (EmptyString ++ b)%string = b.
Proof. done. Qed.

Lemma string_app_nil (a : string) : (a ++ EmptyString)%string = a.
Proof. induction a as [|c a IH]; [done|]. change (String c (a ++ EmptyString)%string = String c a). by rewrite IH. Qed.

Lemma string_app_assoc' (a b c : string) : ((a ++ b) ++ c)%string = (a ++ b ++ c)%string.
Proof. induction a as [|x a IH]; [done|]. by rewrite !append_cons, IH. Qed.

Lemma has_dot_app (a b : string) : Layout.has_dot (a ++ b)%string = Layout.has_dot a || Layout.has_dot b.
Proof.
  unfold Layout.has_dot. induction a as [|c a IH]; [done|]. rewrite append_cons. cbn [list_ascii_of_string existsb]. by rewrite IH, orb_assoc.
Qed.

Lemma pretty_go_dotless (x : N) (s : string) : Layout.has_dot s = false -> Layout.has_dot (pretty_N_go x s) = false.
Proof.
  revert s. induction (N.lt_wf_0 x) as [x _ IH]; intros s Hs. destruct (decide (0 < x)%N) as [Hx|Hx].
  - rewrite pretty_N_go_step by done. apply IH; [by apply N.div_lt|]. unfold Layout.has_dot in *. cbn [list_ascii_of_string existsb]. rewrite Hs.
    unfold pretty_N_char. by repeat case_match.
  - assert (x = 0)%N as -> by lia. done.
Qed.

Lemma pretty_dotless (x : N) : Layout.has_dot (pretty x) = false.
Proof. unfold pretty, pretty_N. destruct (decide (x = 0)%N); [done|]. by apply pretty_go_dotless. Qed.

Lemma header_name_dotless (segment : string) (conf : bytes) : Layout.has_dot segment = false -> Layout.has_dot (header_name segment conf) = false.
Proof. intros Hs. unfold header_name, Layout.base_name. by rewrite !has_dot_app, Hs, !pretty_dotless. Qed.

Lemma header_name_prefix (segment : string) (conf : bytes) : String.prefix (segment_prefix segment) (header_name segment conf) = true.
Proof.
  unfold header_name, Layout.base_name. set (rest := (pretty _ ++ _)%string).
  assert (H : forall p r, String.prefix p (p ++ r)%string = true).
  { induction p as [|c p IH]; intros r; [by destruct r|]. rewrite append_cons. cbn. destruct (ascii_dec c c); [apply IH|done]. }
  replace ("static_file_" ++ segment ++ "_" ++ rest)%string with (segment_prefix segment ++ rest)%string; [apply H|].
  unfold segment_prefix. clear. rewrite !string_app_assoc'. done.
Qed.

Lemma prefix_app (p a b : string) : String.prefix p a = true -> String.prefix p (a ++ b)%string = true.
Proof.
  revert a. induction p as [|c p IH]; intros a H; [by destruct (a ++ b)%string|]. destruct a as [|c' a]; [done|]. rewrite append_cons. cbn in *.
  destruct (ascii_dec c c'); [by apply IH|done].
Qed.

Lemma prefix_inv (p k : string) : String.prefix p k = true -> exists r, k = (p ++ r)%string.
Proof.
  revert k. induction p as [|c p IH]; intros k H; [by exists k|]. destruct k as [|c' k]; [done|]. cbn in H.
  destruct (ascii_dec c c') as [->|]; [|done]. destruct (IH k H) as [r ->]. by exists r.
Qed.

(** A dotless name and one of the four extensions can be told apart. *)
Lemma name_split (a b e e' : string) :
  Layout.has_dot a = false -> Layout.has_dot b = false -> e ∈ Layout.EXTENSIONS -> e' ∈ Layout.EXTENSIONS ->
  (a ++ e)%string = (b ++ e')%string -> a = b /\ e = e'.
Proof.
  assert (Hdot : forall c s e, Layout.has_dot (String c s) = false -> e ∈ Layout.EXTENSIONS -> (String c s ++ EmptyString)%string <> e /\ forall r, String c r <> e \/ e = EmptyString).
  { intros c s x Hs Hx. unfold Layout.has_dot in Hs. cbn in Hs. apply orb_false_iff in Hs as [Hc _].
    unfold Layout.EXTENSIONS in Hx. set_unfold in Hx. split.
    - intros Heq. destruct Hx as [->|[->|[->|[->|[]]]]]; cbn in Heq; [done|injection Heq as -> _; done..].
    - intros r. destruct Hx as [->|[->|[->|[->|[]]]]]; [by right|left; intros [= -> _]; done..]. }
  intros Ha Hb He He'. revert b Hb. induction a as [|c a IH]; intros [|c' b] Hb Heq.
  - done.
  - exfalso. rewrite ?append_cons, ?append_empty in Heq. destruct (Hdot c' b e Hb He) as [_ Hr]. destruct (Hr (b ++ e')%string) as [Hn| ->]; [by rewrite Heq in Hn|done].
  - exfalso. rewrite ?append_cons, ?append_empty in Heq. destruct (Hdot c a e' Ha He') as [_ Hr]. destruct (Hr (a ++ e)%string) as [Hn| ->]; [by rewrite Heq in Hn|done].
  - rewrite !append_cons in Heq. injection Heq as -> Heq. unfold Layout.has_dot in Ha, Hb. cbn in Ha, Hb. apply orb_false_iff in Ha as [_ Ha].
    apply orb_false_iff in Hb as [_ Hb]. by destruct (IH Ha b Hb Heq) as [-> ->].
Qed.

(** ** One file *)

(** [d'] is [d] with the files of [b] under [w]; nothing else changed. *)
Record moved (b w : string) (exts : list string) (d d' : Layout.StaticDir) : Prop := {
  mv_new : forall e, e ∈ exts -> d' !! (w ++ e)%string = d !! (b ++ e)%string;
  mv_old : forall e, e ∈ exts -> d' !! (b ++ e)%string = None;
  mv_frame : forall k, (forall e, e ∈ exts -> k <> (b ++ e)%string /\ k <> (w ++ e)%string) -> d' !! k = d !! k
}.

Lemma rename_all_moves (b w : string) (exts : list string) (d : Layout.StaticDir) :
  Layout.has_dot b = false -> Layout.has_dot w = false -> b <> w -> NoDup exts -> exts ⊆ Layout.EXTENSIONS ->
  (forall e, e ∈ exts -> d !! (w ++ e)%string = None) ->
  twp (length exts) (Layout.rename_all b w exts) (fun _ d' => moved b w exts d d') d.
Proof.
  intros Hb Hw Hne. revert d. induction exts as [|e exts IH]; intros d Hnd Hsub Habs; cbn [Layout.rename_all].
  { apply twp_ret. split; [by intros e ?%elem_of_nil..|done]. }
  apply NoDup_cons in Hnd as [Hnotin Hnd]. assert (He : e ∈ Layout.EXTENSIONS) by (apply Hsub; by left).
  assert (Hother : forall a a' e', Layout.has_dot a = false -> Layout.has_dot a' = false -> e' ∈ exts -> (a ++ e')%string <> (a' ++ e)%string).
  { intros a a' e' Ha Ha' Hin Heq. apply name_split in Heq as [_ ->]; [done|done|done|apply Hsub; by right|done]. }
  assert (Hbw : forall e', e' ∈ exts \/ e' = e -> (b ++ e)%string <> (w ++ e')%string).
  { intros e' Hin Heq. apply name_split in Heq as [? _]; [done|done|done|done|]. destruct Hin as [Hin| ->]; [apply Hsub; by right|done]. }
  set (d1 := match d !! (b ++ e)%string with Some bs => <[(w ++ e)%string := bs]> (base.delete (b ++ e)%string d) | None => d end).
  assert (Hd1w : d1 !! (w ++ e)%string = d !! (b ++ e)%string).
  { unfold d1. destruct (d !! (b ++ e)%string) as [bs|] eqn:E; [by rewrite lookup_insert_eq|]. apply Habs. by left. }
  assert (Hd1b : d1 !! (b ++ e)%string = None).
  { unfold d1. destruct (d !! (b ++ e)%string) as [bs|] eqn:E; [|done].
    rewrite lookup_insert_ne, lookup_delete_eq; [done|]. intros Heq. symmetry in Heq. apply (Hbw e) in Heq; auto. }
  assert (Hd1 : forall k, k <> (b ++ e)%string -> k <> (w ++ e)%string -> d1 !! k = d !! k).
  { intros k H1 H2. unfold d1. destruct (d !! (b ++ e)%string) as [bs|]; [|done]. by rewrite lookup_insert_ne, lookup_delete_ne. }
  assert (Hgo : twp (length exts) (Layout.rename_all b w exts) (fun _ d' => moved b w (e :: exts) d d') d1).
  { eapply twp_mono; [apply IH; [done|intros x Hx; apply Hsub; by right|]|].
    - intros e' Hin. rewrite Hd1; [apply Habs; by right|by apply Hother|by apply Hother].
    - intros _ d' [M1 M2 M3]. split.
      + intros e' [->|Hin]%elem_of_cons.
        * rewrite M3, Hd1w; [done|]. intros e' Hin. split; [intros Heq; symmetry in Heq; by apply Hother in Heq|intros Heq; symmetry in Heq; by apply Hother in Heq].
        * rewrite M1 by done. apply Hd1; by apply Hother.
      + intros e' [->|Hin]%elem_of_cons; [|by apply M2].
        rewrite M3, Hd1b; [done|]. intros e' Hin. split; [intros Heq; symmetry in Heq; by apply Hother in Heq|]. apply Hbw. by left.
      + intros k Hk. destruct (Hk e) as [K1 K2]; [by left|]. rewrite M3, Hd1; [done|done|done|]. intros e' Hin. apply Hk. by right. }
  apply (twp_bind 0 (S (length exts))), twp_get. apply (twp_bind 1 (length exts)).
  assert (Heqb : String.eqb (b ++ e)%string (w ++ e)%string = false) by (apply String.eqb_neq, Hbw; by right). rewrite Heqb.
  destruct (d !! (b ++ e)%string) as [bs|] eqn:E.
  - rewrite bool_decide_true by eauto. cbn [andb negb]. apply twp_write. unfold Layout.rename_file. rewrite E. exact Hgo.
  - rewrite bool_decide_false by (intros [? ?]; done). cbn [andb]. eapply twp_le; [apply twp_ret|lia]. exact Hgo.
Qed.

(** Where a file belongs: a header that is too short leaves it. *)
Definition belongs (segment : string) (d : Layout.StaticDir) (name : string) : option string :=
  match d !! (name ++ ".conf")%string with
  | None => None
  | Some conf => Some (if (length conf <? 24)%nat then name else header_name segment conf)
  end.

Lemma conf_extension : ".conf"%string ∈ Layout.EXTENSIONS.
Proof. unfold Layout.EXTENSIONS. set_solver. Qed.

Lemma empty_extension : EmptyString ∈ Layout.EXTENSIONS.
Proof. by left. Qed.

Lemma extensions_distinct : NoDup Layout.EXTENSIONS.
Proof. apply (bool_decide_unpack _). vm_compute. exact I. Qed.

Lemma rename_one_moves (segment b w : string) (d : Layout.StaticDir) :
  Layout.has_dot segment = false -> Layout.has_dot b = false -> belongs segment d b = Some w ->
  (b = w \/ forall e, e ∈ Layout.EXTENSIONS -> d !! (w ++ e)%string = None) ->
  twp 4 (rename_one segment b) (fun _ d' => if decide (b = w) then d' = d else moved b w Layout.EXTENSIONS d d') d.
Proof.
  intros Hseg Hb Hbel Habs. unfold rename_one, belongs in *. destruct (d !! (b ++ ".conf")%string) as [conf|] eqn:E; [|done].
  apply (twp_bind 0 4). unfold Layout.read_file. apply (twp_bind 0 0), twp_get. rewrite E. apply twp_ret.
  destruct (length conf <? 24)%nat; injection Hbel as <-.
  - eapply twp_le; [apply twp_ret; by rewrite decide_True|lia].
  - destruct (String.eqb_spec b (header_name segment conf)) as [Heq|Hne].
    + eapply twp_le; [apply twp_ret; by rewrite decide_True|lia].
    + destruct Habs as [|Habs]; [done|]. eapply twp_mono.
      * apply (rename_all_moves b (header_name segment conf) Layout.EXTENSIONS d); try done; [by apply header_name_dotless|apply extensions_distinct].
      * intros ? d' Hm. by rewrite decide_False.
Qed.

(** ** A segment *)

(** The files of a segment can be renamed one after the other: each has a header, and the names that
    are new are free and differ. *)
Record renamable (segment : string) (names : list string) (d : Layout.StaticDir) : Prop := {
  rn_name : forall n, n ∈ names -> Layout.has_dot n = false /\ is_Some (d !! n);
  rn_free : forall n, n ∈ names -> exists w, belongs segment d n = Some w /\ (n = w \/ forall e, e ∈ Layout.EXTENSIONS -> d !! (w ++ e)%string = None);
  rn_differ : forall n n' w, n ∈ names -> n' ∈ names -> belongs segment d n = Some w -> belongs segment d n' = Some w -> n = n'
}.

(** Each file is where it belongs, and nothing but these names changed. *)
Record all_moved (segment : string) (names : list string) (d d' : Layout.StaticDir) : Prop := {
  am_new : forall n w e, n ∈ names -> belongs segment d n = Some w -> e ∈ Layout.EXTENSIONS -> d' !! (w ++ e)%string = d !! (n ++ e)%string;
  am_old : forall n e, n ∈ names -> (forall n', n' ∈ names -> belongs segment d n' <> Some n) -> e ∈ Layout.EXTENSIONS -> d' !! (n ++ e)%string = None;
  am_frame : forall k, (forall n w e, n ∈ names -> belongs segment d n = Some w -> e ∈ Layout.EXTENSIONS -> k <> (n ++ e)%string /\ k <> (w ++ e)%string) ->
    d' !! k = d !! k
}.

Lemma belongs_dotless (segment n w : string) (d : Layout.StaticDir) :
  Layout.has_dot segment = false -> Layout.has_dot n = false -> belongs segment d n = Some w -> Layout.has_dot w = false.
Proof.
  intros Hs Hn. unfold belongs. destruct (d !! (n ++ ".conf")%string) as [conf|]; [|done]. intros [= <-].
  destruct (length conf <? 24)%nat; [done|]. by apply header_name_dotless.
Qed.

Lemma belongs_ext (segment n : string) (d d' : Layout.StaticDir) :
  d' !! (n ++ ".conf")%string = d !! (n ++ ".conf")%string -> belongs segment d' n = belongs segment d n.
Proof. unfold belongs. by intros ->. Qed.

(** Moving the first file leaves the others renamable and where they were. *)
Lemma renamable_step (segment b w : string) (names : list string) (d d1 : Layout.StaticDir) :
  Layout.has_dot segment = false -> b ∉ names -> renamable segment (b :: names) d -> belongs segment d b = Some w ->
  (if decide (b = w) then d1 = d else moved b w Layout.EXTENSIONS d d1) ->
  renamable segment names d1 /\
  (forall n e, n ∈ names -> e ∈ Layout.EXTENSIONS -> d1 !! (n ++ e)%string = d !! (n ++ e)%string) /\
  (forall e, e ∈ Layout.EXTENSIONS -> d1 !! (w ++ e)%string = d !! (b ++ e)%string).
Proof.
  intros Hseg Hnotin [R1 R2 R3] Hw Hd1. destruct (R1 b) as [Hb _]; [by left|].
  assert (Hwd : Layout.has_dot w = false) by (by apply (belongs_dotless segment b w d)).
  assert (Hmv : forall k, (forall e, e ∈ Layout.EXTENSIONS -> k <> (b ++ e)%string /\ k <> (w ++ e)%string) -> d1 !! k = d !! k).
  { intros k Hk. destruct (decide (b = w)) as [->|Hne]; [by subst|]. by apply (mv_frame _ _ _ _ _ Hd1). }
  assert (Hfree : b = w \/ forall e, e ∈ Layout.EXTENSIONS -> d !! (w ++ e)%string = None).
  { destruct (R2 b) as (w' & Hw' & H); [by left|]. rewrite Hw in Hw'. by injection Hw' as <-. }
  assert (Hsep : forall n e, n ∈ names -> e ∈ Layout.EXTENSIONS -> d1 !! (n ++ e)%string = d !! (n ++ e)%string).
  { intros n e Hn He. destruct (R1 n) as [Hnd [bs Hbs]]; [by right|]. apply Hmv. intros e' He'. split; intros Heq.
    - apply name_split in Heq as [-> _]; done.
    - apply name_split in Heq as [-> _]; [|done..]. destruct Hfree as [->|Hfree]; [done|].
      specialize (Hfree _ empty_extension). rewrite string_app_nil in Hfree. by rewrite Hfree in Hbs. }
  assert (Hbel : forall n, n ∈ names -> belongs segment d1 n = belongs segment d n) by (intros n Hn; apply belongs_ext, Hsep, conf_extension; done).
  split; [|split; [done|]].
  - split.
    + intros n Hn. destruct (R1 n) as [Hnd Hs]; [by right|]. split; [done|]. specialize (Hsep n _ Hn empty_extension).
      rewrite !string_app_nil in Hsep. by rewrite Hsep.
    + intros n Hn. destruct (R2 n) as (w' & Hw' & H); [by right|]. exists w'. rewrite Hbel by done. split; [done|].
      destruct H as [|H]; [by left|]. right. intros e He. destruct (R1 n) as [Hnd _]; [by right|].
      assert (Hwd' : Layout.has_dot w' = false) by (by apply (belongs_dotless segment n w' d)).
      assert (Hww : w' <> w) by (intros ->; assert (b = n) as -> by (apply (R3 b n w); [by left|by right|done..]); done).
      destruct (decide (w' = b)) as [->|Hwb].
      * destruct (decide (b = w)) as [|Hne]; [by subst|]. by apply (mv_old _ _ _ _ _ Hd1).
      * rewrite Hmv; [by apply H|]. intros e' He'. split; intros Heq; apply name_split in Heq as [? _]; done.
    + intros n n' w' Hn Hn'. rewrite !Hbel by done. apply R3; by right.
  - intros e He. destruct (decide (b = w)) as [->|Hne]; [by subst|]. by apply (mv_new _ _ _ _ _ Hd1).
Qed.

Lemma rename_names_moves (segment : string) (names : list string) (d : Layout.StaticDir) :
  Layout.has_dot segment = false -> NoDup names -> renamable segment names d ->
  twp (4 * length names) (rename_names segment names) (fun _ d' => all_moved segment names d d') d.
Proof.
  intros Hseg. revert d. induction names as [|b names IH]; intros d Hnd Hr; cbn [rename_names].
  { apply twp_ret. split; [by intros n w e ?%elem_of_nil|by intros n e ?%elem_of_nil|done]. }
  apply NoDup_cons in Hnd as [Hnotin Hnd]. destruct Hr as [R1 R2 R3] eqn:EHr. clear EHr. destruct (R1 b) as [Hb _]; [by left|].
  destruct (R2 b) as (w & Hw & Hfree); [by left|]. replace (4 * length (b :: names))%nat with (4 + 4 * length names)%nat by (cbn; lia).
  apply twp_bind. eapply twp_mono; [by apply (rename_one_moves segment b w)|]. intros [] d1 Hd1. cbn beta in Hd1.
  destruct (renamable_step segment b w names d d1) as (Hr1 & Hsep & Hnew); [done|done|by split|done|done|].
  eapply twp_mono; [by apply IH|]. intros ? d' [A1 A2 A3].
  assert (Hwd : Layout.has_dot w = false) by (by apply (belongs_dotless segment b w d)).
  assert (Hbel : forall n, n ∈ names -> belongs segment d1 n = belongs segment d n) by (intros n Hn; apply belongs_ext, Hsep, conf_extension; done).
  assert (Hmv : forall k, (forall e, e ∈ Layout.EXTENSIONS -> k <> (b ++ e)%string /\ k <> (w ++ e)%string) -> d1 !! k = d !! k).
  { intros k Hk. destruct (decide (b = w)) as [->|Hne]; [by subst|]. by apply (mv_frame _ _ _ _ _ Hd1). }
  assert (Hlast : forall a e, Layout.has_dot a = false -> e ∈ Layout.EXTENSIONS -> a ∉ names -> (forall n, n ∈ names -> belongs segment d n <> Some a) ->
    d' !! (a ++ e)%string = d1 !! (a ++ e)%string).
  { intros x e Ha He Hin Hno. apply A3. intros n w' e' Hn Hw' He'. destruct (R1 n) as [Hn1 _]; [by right|]. rewrite Hbel in Hw' by done.
    assert (Hw1 : Layout.has_dot w' = false) by (by apply (belongs_dotless segment n w' d)).
    split; intros Heq; apply name_split in Heq as [-> _]; try done. by apply (Hno n Hn). }
  assert (Hwfree : w ∉ names).
  { intros Hin. destruct (R1 w) as [_ [bs Hbs]]; [by right|]. destruct Hfree as [->|Hfree]; [done|]. specialize (Hfree _ empty_extension).
    rewrite string_app_nil in Hfree. by rewrite Hfree in Hbs. }
  assert (Hwonly : forall n, n ∈ names -> belongs segment d n <> Some w).
  { intros n Hn Heq. assert (b = n) as -> by (apply (R3 b n w); [by left|by right|done..]). done. }
  split.
  - intros n w' e [->|Hn]%elem_of_cons Hw' He.
    + rewrite Hw in Hw'. injection Hw' as <-. rewrite Hlast by done. by apply Hnew.
    + rewrite <- Hsep by done. apply A1; [done|by rewrite Hbel|done].
  - intros n e [->|Hn]%elem_of_cons Hno He.
    + rewrite Hlast; [|done..|intros n Hn; apply Hno; by right]. destruct (decide (b = w)) as [->|Hne].
      * exfalso. by apply (Hno w); [left|].
      * by apply (mv_old _ _ _ _ _ Hd1).
    + apply A2; [done| |done]. intros n' Hn'. rewrite Hbel by done. apply Hno. by right.
  - intros k Hk. rewrite A3; [apply Hmv; intros e He; apply (Hk b w e); [by left|done..]|].
    intros n w' e Hn Hw' He. apply (Hk n w' e); [by right|by rewrite <- Hbel|done].
Qed.

(** ** The directory *)

Section Directory.
Variable read_dir : Layout.StaticDir -> list string.
Hypothesis lists_once : forall d, NoDup (read_dir d).
Hypothesis lists_all : forall d n, n ∈ read_dir d <-> is_Some (d !! n).

Definition data_names (segment : string) (d : Layout.StaticDir) : list string := List.filter (is_data_name segment) (read_dir d).

(** Every data file of a segment has the name in its header. *)
Definition named (segment : string) (d : Layout.StaticDir) : Prop :=
  forall n, is_data_name segment n = true -> is_Some (d !! n) ->
    exists conf, d !! (n ++ ".conf")%string = Some conf /\ ((length conf < 24)%nat \/ n = header_name segment conf).

Lemma elem_of_data_names (segment n : string) (d : Layout.StaticDir) :
  n ∈ data_names segment d <-> is_data_name segment n = true /\ is_Some (d !! n).
Proof. unfold data_names. rewrite list_elem_of_In, filter_In, <- list_elem_of_In, lists_all. tauto. Qed.

Lemma data_names_once (segment : string) (d : Layout.StaticDir) : NoDup (data_names segment d).
Proof. apply NoDup_ListNoDup, List.NoDup_filter, NoDup_ListNoDup, lists_once. Qed.

Lemma belongs_prefix (segment n w : string) (d : Layout.StaticDir) :
  is_data_name segment n = true -> belongs segment d n = Some w -> String.prefix (segment_prefix segment) w = true.
Proof.
  unfold is_data_name, belongs. intros [Hp _]%andb_true_iff. destruct (d !! (n ++ ".conf")%string) as [conf|]; [|done]. intros [= <-].
  destruct (length conf <? 24)%nat; [done|]. apply header_name_prefix.
Qed.

(** Keys outside the segment are not touched. *)
Lemma all_moved_outside (segment : string) (d d' : Layout.StaticDir) (k : string) :
  all_moved segment (data_names segment d) d d' -> String.prefix (segment_prefix segment) k = false -> d' !! k = d !! k.
Proof.
  intros Hm Hk. apply (am_frame _ _ _ _ Hm). intros n w e [Hn _]%elem_of_data_names Hw _.
  pose proof (belongs_prefix segment n w d Hn Hw) as Hpw. apply andb_true_iff in Hn as [Hpn _].
  split; intros ->; [by rewrite (prefix_app _ n) in Hk|by rewrite (prefix_app _ w) in Hk].
Qed.

Lemma all_moved_named (segment : string) (d d' : Layout.StaticDir) :
  Layout.has_dot segment = false -> renamable segment (data_names segment d) d -> all_moved segment (data_names segment d) d d' -> named segment d'.
Proof.
  intros Hseg [R1 R2 R3] [A1 A2 A3] n Hn [bs Hbs]. assert (Hdot : Layout.has_dot n = false) by (by apply andb_true_iff in Hn as [_ ?%negb_true_iff]).
  destruct (decide (Exists (fun n0 => belongs segment d n0 = Some n) (data_names segment d))) as [He|Hno].
  - apply Exists_exists in He as (n0 & Hin & Hw). pose proof (A1 n0 n _ Hin Hw conf_extension) as Hc. unfold belongs in Hw.
    destruct (d !! (n0 ++ ".conf")%string) as [conf|]; [|done]. exists conf. split; [done|]. injection Hw as Hw.
    destruct (Nat.ltb_spec (length conf) 24); [by left|by right].
  - exfalso. assert (Hnone : forall n', n' ∈ data_names segment d -> belongs segment d n' <> Some n).
    { intros n' Hin Hw. apply Hno, Exists_exists. by exists n'. }
    destruct (decide (n ∈ data_names segment d)) as [Hin|Hout].
    + specialize (A2 n _ Hin Hnone empty_extension). rewrite string_app_nil in A2. by rewrite A2 in Hbs.
    + apply Hout, elem_of_data_names. split; [done|]. exists bs. rewrite <- Hbs. symmetry. rewrite <- (string_app_nil n). apply A3.
      intros n0 w e Hin Hw He. destruct (R1 n0 Hin) as [Hd0 _]. assert (Hdw : Layout.has_dot w = false) by (by apply (belongs_dotless segment n0 w d)).
      split; intros Heq; apply name_split in Heq as [-> _]; try done; try apply empty_extension. by apply (Hnone n0).
Qed.

Lemma rename_segment_named (segment : string) (d : Layout.StaticDir) :
  Layout.has_dot segment = false -> renamable segment (data_names segment d) d ->
  twp (4 * length (data_names segment d)) (rename_segment read_dir segment)
    (fun _ d' => all_moved segment (data_names segment d) d d' /\ named segment d') d.
Proof.
  intros Hseg Hr. unfold rename_segment. apply (twp_bind 0), twp_get. eapply twp_mono.
  - apply rename_names_moves; [done|apply data_names_once|done].
  - intros ? d' Hm. split; [done|]. by eapply all_moved_named.
Qed.

(** The segments do not see each other. *)
Lemma renamable_ext (segment : string) (d d' : Layout.StaticDir) :
  (forall k, String.prefix (segment_prefix segment) k = true -> d' !! k = d !! k) ->
  renamable segment (data_names segment d) d -> renamable segment (data_names segment d') d' /\
  length (data_names segment d') = length (data_names segment d).
Proof.
  intros Heq [R1 R2 R3].
  assert (Hmem : forall n, n ∈ data_names segment d' <-> n ∈ data_names segment d).
  { intros n. rewrite !elem_of_data_names. split; intros [Hn Hs]; (split; [done|]); pose proof Hn as [Hp _]%andb_true_iff; by rewrite (Heq n Hp) in *. }
  assert (Hpre : forall n e, n ∈ data_names segment d -> d' !! (n ++ e)%string = d !! (n ++ e)%string).
  { intros n e [Hn _]%elem_of_data_names. apply andb_true_iff in Hn as [Hp _]. by apply Heq, prefix_app. }
  assert (Hbel : forall n, n ∈ data_names segment d -> belongs segment d' n = belongs segment d n) by (intros n Hn; by apply belongs_ext, Hpre).
  split; [split|].
  - intros n Hn. apply Hmem in Hn. destruct (R1 n Hn) as [Hd Hs]. split; [done|]. specialize (Hpre n EmptyString Hn). rewrite string_app_nil in Hpre. by rewrite Hpre.
  - intros n Hn. apply Hmem in Hn. destruct (R2 n Hn) as (w & Hw & H). exists w. rewrite Hbel by done. split; [done|]. destruct H as [|H]; [by left|right].
    intros e He. rewrite Heq; [by apply H|]. apply prefix_app. apply elem_of_data_names in Hn as [Hn _]. by apply (belongs_prefix segment n w d).
  - intros n n' w Hn Hn'. apply Hmem in Hn, Hn'. rewrite !Hbel by done. by apply R3.
  - apply Permutation_length, NoDup_Permutation; [apply data_names_once..|done].
Qed.

Lemma segments_disjoint (k : string) :
  String.prefix (segment_prefix "account-change-sets") k = true -> String.prefix (segment_prefix "storage-change-sets") k = false.
Proof.
  intros [r ->]%prefix_inv. vm_compute. reflexivity.
Qed.

(** After the renaming, every changeset file has the name Reth looks for: a directory whose files can be
    renamed is left, within four renames per file, with every file and its companions under the name in
    its header and with the contents it had, and nothing else changed. *)
Theorem changeset_files_named (d : Layout.StaticDir) :
  (forall segment, segment ∈ Layout.SEGMENTS -> renamable segment (data_names segment d) d) ->
  twp (4 * length (data_names "account-change-sets" d) + 4 * length (data_names "storage-change-sets" d))
    (rename_changeset_files_to_header read_dir)
    (fun _ d' =>
       (forall segment, segment ∈ Layout.SEGMENTS -> named segment d') /\
       (forall segment n w e, segment ∈ Layout.SEGMENTS -> n ∈ data_names segment d -> belongs segment d n = Some w -> e ∈ Layout.EXTENSIONS ->
          d' !! (w ++ e)%string = d !! (n ++ e)%string) /\
       (forall k, (forall segment, segment ∈ Layout.SEGMENTS -> String.prefix (segment_prefix segment) k = false) -> d' !! k = d !! k)) d.
Proof.
  intros Hr. unfold rename_changeset_files_to_header, Layout.SEGMENTS. cbn [rename_segments].
  assert (Ha : "account-change-sets"%string ∈ Layout.SEGMENTS) by (by left). assert (Hs : "storage-change-sets"%string ∈ Layout.SEGMENTS) by (right; by left).
  apply twp_bind. eapply twp_mono; [by apply rename_segment_named, Hr|]. intros [] d1 [M1 N1].
  assert (Hkeep : forall k, String.prefix (segment_prefix "storage-change-sets") k = true -> d1 !! k = d !! k).
  { intros k Hk. apply (all_moved_outside _ _ _ _ M1). destruct (String.prefix (segment_prefix "account-change-sets") k) eqn:E; [|done].
    apply segments_disjoint in E. by rewrite E in Hk. }
  destruct (renamable_ext "storage-change-sets" d d1 Hkeep (Hr _ Hs)) as [Hr1 <-].
  replace (4 * length (data_names "storage-change-sets" d1))%nat with (4 * length (data_names "storage-change-sets" d1) + 0)%nat by lia.
  apply twp_bind. eapply twp_mono; [by apply rename_segment_named|]. intros [] d' [M2 N2]. apply twp_ret.
  assert (Hkeep' : forall k, String.prefix (segment_prefix "account-change-sets") k = true -> d' !! k = d1 !! k)
    by (intros k Hk; apply (all_moved_outside _ _ _ _ M2); by apply segments_disjoint).
  split; [|split].
  - intros segment Hin. apply elem_of_cons in Hin as [->|[->| []%not_elem_of_nil]%elem_of_cons]; [|done].
    intros n Hn Hsome. pose proof Hn as [Hp _]%andb_true_iff. rewrite (Hkeep' n Hp) in Hsome. rewrite Hkeep' by (by apply prefix_app). by apply N1.
  - intros segment n w e Hin Hn Hw He. pose proof Hn as [Hdn _]%elem_of_data_names. pose proof Hdn as [Hp _]%andb_true_iff.
    pose proof (belongs_prefix _ _ _ _ Hdn Hw) as Hpw. apply elem_of_cons in Hin as [->|[->| []%not_elem_of_nil]%elem_of_cons].
    + rewrite Hkeep' by (by apply prefix_app). by apply (am_new _ _ _ _ M1).
    + rewrite <- Hkeep by (by apply prefix_app). apply (am_new _ _ _ _ M2); [|by rewrite (belongs_ext _ _ d) by (by apply Hkeep, prefix_app)|done].
      apply elem_of_data_names. split; [done|]. rewrite Hkeep by done. by apply elem_of_data_names in Hn as [_ ?].
  - intros k Hk. rewrite (all_moved_outside _ _ _ _ M2) by (by apply Hk). by apply (all_moved_outside _ _ _ _ M1), Hk.
Qed.
End Directory.

(** The first file starts at block 6 of its slot; the second agrees with its header. *)
Module SampleFiles.
Definition conf (start stop : Z) : bytes := Layout.to_le_bytes 1 ++ Layout.to_le_bytes start ++ Layout.to_le_bytes stop.

Definition dir : Layout.StaticDir := {[
  "static_file_account-change-sets_0_9" := [x61];
  "static_file_account-change-sets_0_9.conf" := conf 6 9;
  "static_file_account-change-sets_0_9.off" := [x62];
  "static_file_account-change-sets_10_19" := [x63];
  "static_file_account-change-sets_10_19.conf" := conf 10 19;
  "static_file_headers_0_9" := [x64]
]}%string.

Definition renamed (n : nat) : Result string unit * Layout.StaticDir :=
  let '(r, (d, _)) := rename_changeset_files_to_header Layout.listing (dir, n) in (r, d).

Lemma sample_renamed :
  fst (renamed 3) = Ret tt /\ snd (renamed 3) = {[
    "static_file_account-change-sets_6_9" := [x61];
    "static_file_account-change-sets_6_9.conf" := conf 6 9;
    "static_file_account-change-sets_6_9.off" := [x62];
    "static_file_account-change-sets_10_19" := [x63];
    "static_file_account-change-sets_10_19.conf" := conf 10 19;
    "static_file_headers_0_9" := [x64]
  ]}%string.
Proof. split; [vm_compute; reflexivity|]. apply (bool_decide_eq_true_1 (_ = _)). vm_compute. reflexivity. Qed.

(** A run that is cut after the first rename cannot be repeated: the data file is found without its
    config. *)
Lemma sample_interrupted :
  fst (renamed 1) = Crashed /\
  fst (rename_changeset_files_to_header Layout.listing (snd (renamed 1), 10%nat)) = Raise "No such file or directory"%string.
Proof. split; vm_compute; reflexivity. Qed.

Lemma sample_named : exists d', snd (renamed 8) = d' /\ forall segment, segment ∈ Layout.SEGMENTS -> named segment d'.
Proof.
  eexists. split; [reflexivity|].
  assert (Hlist : forall (d : Layout.StaticDir) n, n ∈ Layout.listing d <-> is_Some (d !! n)).
  { intros d n. unfold Layout.listing. by rewrite elem_of_elements, elem_of_dom. }
  destruct (changeset_files_named Layout.listing (fun d => NoDup_elements (dom d)) Hlist dir) with (n := 8%nat) as ([] & d' & n' & Hrun & _ & Hnamed & _).
  - intros segment Hs. assert (Hnames : exists l, data_names Layout.listing segment dir = l /\ (l = [] \/ segment = "account-change-sets"%string /\
      Permutation l ["static_file_account-change-sets_0_9"; "static_file_account-change-sets_10_19"]%string)).
    { eexists. split; [reflexivity|]. apply elem_of_cons in Hs as [->|[->| []%not_elem_of_nil]%elem_of_cons]; [right; split; [done|]|left].
      - apply (bool_decide_eq_true_1 (_ ≡ₚ _)). vm_compute. reflexivity.
      - vm_compute. reflexivity. }
    destruct Hnames as (l & -> & [->|[-> Hp]]); [split; [intros n Hn|intros n Hn|intros n n' w Hn]; destruct (proj1 (elem_of_nil _) Hn)|].
    assert (Hin : forall n, n ∈ l -> n = "static_file_account-change-sets_0_9"%string \/ n = "static_file_account-change-sets_10_19"%string) by (intros n; rewrite Hp; set_solver).
    split.
    + intros n Hn. destruct (Hin n Hn) as [->| ->]; (split; [vm_compute; reflexivity|eexists; vm_compute; reflexivity]).
    + intros n Hn. destruct (Hin n Hn) as [->| ->]; (eexists; split; [vm_compute; reflexivity|]); [right|by left].
      intros e He. unfold Layout.EXTENSIONS in He. set_unfold in He. destruct He as [->|[->|[->|[->|[]]]]]; vm_compute; reflexivity.
    + intros n n' w Hn Hn'. destruct (Hin n Hn) as [->| ->], (Hin n' Hn') as [->| ->]; intros H1 H2; [reflexivity| | |reflexivity];
        pose proof (eq_trans H1 (eq_sym H2)) as H; vm_compute in H; discriminate H.
  - assert (He : (4 * length (data_names Layout.listing "account-change-sets" dir) + 4 * length (data_names Layout.listing "storage-change-sets" dir) = 8)%nat)
      by (vm_compute; reflexivity). by rewrite He.
  - unfold renamed. rewrite Hrun. exact Hnamed.
Qed.
End SampleFiles.
