(* ===== verification/LogService.v ===== *)
(** * The transaction-log service

    [MevTxLogIpc] of [crates/arb-reth-node/src/mev_tx_logs.rs] and the broadcaster of
    [crates/arb-reth-engine/src/tx_log_stream.rs]: a socket is bound, each accepted connection gets a
    task of its own ([TxLog.stream_client]) with a receiver that starts at the next event, and the
    executor publishes without waiting for anybody. The bounded broadcast channel is tokio's: a receiver
    that fell behind by more than the capacity is told so instead of getting the next event. The
    executor, the accept loop and the clients run in any interleaving. *)

From Stdlib Require Import Strings.Byte Strings.String.
From stdpp Require Import base list numbers option strings relations.
From S2P Require Import Prelude TxLog.

(** ** The socket *)

(** What is at the path: nothing, the socket of a process, or something else. *)
Inductive SocketPath := Absent | SocketOf (process : nat) | OtherFile.

Definition metadata_of (p : SocketPath) : PathMetadata :=
  match p with Absent => PathNotFound | SocketOf _ => PathSocket | OtherFile => PathOther end.

(** [MevTxLogIpc::bind]: [removes] and [binds] are the outcomes of [remove_file] and of the bind. *)
Definition bind (process : nat) (removes binds : bool) (p : SocketPath) : result string unit * SocketPath :=
  let '(r, removed) := remove_stale_socket (metadata_of p) removes in
  let p := if removed then Absent else p in
  match r with
  | Err e => (Err e, p)
  | Ok _ => if binds then (Ok tt, SocketOf process) else (Err "bind MEV transaction-log IPC socket"%string, p)
  end.

(** [Drop]: whatever is at the path is removed. *)
Definition drop_ipc (p : SocketPath) : SocketPath := Absent.

(** A bound service owns the path, a file that is no socket is never replaced, and once the service is
    dropped the next bind can succeed. *)
Theorem bind_spec (process : nat) (removes binds : bool) (p : SocketPath) :
  (fst (bind process removes binds p) = Ok tt -> snd (bind process removes binds p) = SocketOf process) /\
  (p = OtherFile -> snd (bind process removes binds p) = OtherFile /\ is_ok (fst (bind process removes binds p)) = false) /\
  fst (bind process true true (drop_ipc p)) = Ok tt.
Proof. split; [|split; [by intros ->|done]]. destruct p, removes, binds; done. Qed.

(** The socket need not be stale: a second process takes over the path of a live one, which then, on
    its own shutdown, removes the socket of the second. *)
Theorem live_socket_taken_over :
  let p1 := snd (bind 1 true true Absent) in
  let '(r, p2) := bind 2 true true p1 in
  p1 = SocketOf 1 /\ r = Ok tt /\ p2 = SocketOf 2 /\ drop_ipc p2 = Absent.
Proof. done. Qed.

(** ** Serving *)

(** A client task: the event its receiver started at, the next one it gets, the bytes written. *)
Record Client := { cl_from : nat; cl_next : nat; cl_bytes : bytes; cl_open : bool }.

Record Service := { sv_published : list ArbTxLogEvent; sv_clients : list Client; sv_serving : bool }.

Definition service_new : Service := {| sv_published := []; sv_clients := []; sv_serving := true |}.

(** [stream_client] with a fresh receiver. *)
Definition accept (s : Service) : Service := {|
  sv_published := sv_published s;
  sv_clients := sv_clients s ++ [{| cl_from := length (sv_published s); cl_next := length (sv_published s); cl_bytes := []; cl_open := true |}];
  sv_serving := sv_serving s
|}.

(** [publish]: nobody is waited for. *)
Definition publish (event : ArbTxLogEvent) (s : Service) : Service := {|
  sv_published := sv_published s ++ [event]; sv_clients := sv_clients s; sv_serving := sv_serving s
|}.

(** What the receiver of a client answers; [None] while it waits. *)
Definition receive (published : list ArbTxLogEvent) (senders : bool) (next : nat) : option Received :=
  if (next + TX_LOG_STREAM_CAPACITY <? length published)%nat then Some Lagged
  else match published !! next with
       | Some event => Some (Event event)
       | None => if senders then None else Some Closed
       end.

(** One turn of the loop of [stream_client]; [written] is the outcome of [write_all], as in [TxLog]. *)
Definition client_turn (answer : Received) (written : option nat) (c : Client) : Client :=
  let closed bs := {| cl_from := cl_from c; cl_next := cl_next c; cl_bytes := bs; cl_open := false |} in
  let next bs := {| cl_from := cl_from c; cl_next := S (cl_next c); cl_bytes := bs; cl_open := true |} in
  match answer with
  | Lagged | Closed => closed (cl_bytes c)
  | Event event =>
      match encode_event event with
      | Err _ => next (cl_bytes c)
      | Ok encoded =>
          match written with
          | None => next (cl_bytes c ++ encoded)
          | Some n => closed (cl_bytes c ++ take n encoded)
          end
      end
  end.

Definition set_client (i : nat) (c : Client) (s : Service) : Service := {|
  sv_published := sv_published s; sv_clients := <[i := c]> (sv_clients s); sv_serving := sv_serving s
|}.

Inductive service_step (s : Service) : Service -> Prop :=
| step_publish event : service_step s (publish event s)
| step_accept : sv_serving s = true -> service_step s (accept s)
| step_accept_failed : sv_serving s = true -> service_step s s
| step_shutdown : service_step s {| sv_published := sv_published s; sv_clients := sv_clients s; sv_serving := false |}
| step_client i c senders answer written :
    sv_clients s !! i = Some c -> cl_open c = true -> receive (sv_published s) senders (cl_next c) = Some answer ->
    service_step s (set_client i (client_turn answer written c) s).

(** ** What a client has *)

Definition frames (events : list ArbTxLogEvent) : bytes :=
  flat_map (fun e => match encode_event e with Ok bs => bs | Err _ => [] end) events.

(** The frames of the events from where it was accepted to where it is, in full while it is open, and
    after that at most a part of the next frame. *)
Definition reads_run (published : list ArbTxLogEvent) (c : Client) : Prop :=
  (cl_from c <= cl_next c <= length published)%nat /\
  exists tail, cl_bytes c = frames (take (cl_next c - cl_from c) (drop (cl_from c) published)) ++ tail /\
    (cl_open c = true -> tail = []) /\
    (tail = [] \/ exists e bs n, published !! cl_next c = Some e /\ encode_event e = Ok bs /\ tail = take n bs).

Lemma frames_snoc (events : list ArbTxLogEvent) (e : ArbTxLogEvent) :
  frames (events ++ [e]) = frames events ++ match encode_event e with Ok bs => bs | Err _ => [] end.
Proof. unfold frames. rewrite flat_map_app. cbn. by rewrite app_nil_r. Qed.

Lemma run_snoc (published : list ArbTxLogEvent) (from next : nat) (e : ArbTxLogEvent) :
  (from <= next)%nat -> published !! next = Some e ->
  take (S next - from) (drop from published) = take (next - from) (drop from published) ++ [e].
Proof.
  intros Hle He. replace (S next - from)%nat with (S (next - from)) by lia. apply take_S_r. rewrite lookup_drop.
  by replace (from + (next - from))%nat with next by lia.
Qed.

Lemma reads_run_publish (published : list ArbTxLogEvent) (event : ArbTxLogEvent) (c : Client) :
  reads_run published c -> reads_run (published ++ [event]) c.
Proof.
  intros [[H1 H2] (tail & Hb & Ho & Ht)]. split; [rewrite length_app; lia|]. exists tail. split_and!; [|done|].
  - rewrite Hb. f_equal. f_equal. rewrite drop_app_le by lia. rewrite take_app_le; [done|]. rewrite length_drop. lia.
  - destruct Ht as [|(e & bs & n & He & H)]; [by left|right]. exists e, bs, n. split; [|done].
    rewrite lookup_app_l; [done|]. by eapply lookup_lt_Some.
Qed.

Lemma client_turn_reads (published : list ArbTxLogEvent) (senders : bool) (answer : Received) (written : option nat) (c : Client) :
  reads_run published c -> cl_open c = true -> receive published senders (cl_next c) = Some answer ->
  reads_run published (client_turn answer written c).
Proof.
  intros [[H1 H2] (tail & Hb & Ho & _)] Hopen Hr. rewrite (Ho Hopen), app_nil_r in Hb. unfold receive in Hr.
  destruct (cl_next c + TX_LOG_STREAM_CAPACITY <? length published)%nat.
  { injection Hr as <-. split; cbn; [lia|]. exists []. rewrite app_nil_r. auto. }
  destruct (published !! cl_next c) as [e|] eqn:He.
  - injection Hr as <-. cbn [client_turn]. pose proof (lookup_lt_Some _ _ _ He) as Hlt. pose proof (run_snoc published (cl_from c) (cl_next c) e H1 He) as Hs.
    destruct (encode_event e) as [bs|err] eqn:Henc; [destruct written as [n|]|]; (split; cbn [cl_from cl_next cl_bytes cl_open]; [lia|]).
    + exists (take n bs). rewrite Hb. split; [done|]. split; [done|]. right. by exists e, bs, n.
    + exists []. rewrite Hs, frames_snoc, Henc, Hb, app_nil_r. auto.
    + exists []. rewrite Hs, frames_snoc, Henc, Hb, !app_nil_r. auto.
  - destruct senders; [done|]. injection Hr as <-. split; cbn; [lia|]. exists []. rewrite app_nil_r. auto.
Qed.

(** No event is skipped: however the executor, the accept loop, the clients and the shutdown interleave,
    and whatever writes fail, each client has got the frames of the events published since it was
    accepted, in order and without a gap, up to where it is; one that falls behind is disconnected, and
    a connection ends at most inside the next frame. *)
Theorem clients_gap_free (s : Service) :
  rtc service_step service_new s -> forall i c, sv_clients s !! i = Some c -> reads_run (sv_published s) c.
Proof.
  revert s. refine (rtc_ind_r (fun s => forall i c, sv_clients s !! i = Some c -> reads_run (sv_published s) c) _ _ _); [done|].
  intros s s' _ Hs IH i c Hc. destruct Hs as [event| | | |j c0 senders answer written Hj Hopen Hrecv]; cbn in Hc |- *.
  - by apply reads_run_publish, (IH i).
  - apply lookup_app_Some in Hc as [Hc|[_ Hc]]; [by apply (IH i)|]. apply list_lookup_singleton_Some in Hc as [_ <-].
    split; cbn; [lia|]. exists []. rewrite Nat.sub_diag. auto.
  - by apply (IH i).
  - by apply (IH i).
  - destruct (decide (i = j)) as [->|Hne].
    + rewrite list_lookup_insert_eq in Hc by (by eapply lookup_lt_Some). injection Hc as <-. by apply (client_turn_reads _ senders); [apply (IH j)|..].
    + rewrite list_lookup_insert_ne in Hc by done. by apply (IH i).
Qed.
