(* ===== verification/NodeTasks.v ===== *)
(** * The end of the node command

    The last part of [launch] in [crates/arb-reth-node/src/commands/node.rs], and the exit of the
    launched node in [crates/arb-reth-node/src/launcher.rs]: a recorded feed is replayed into the feed
    channel, L1 derivation runs in a task that reports why it stopped, and the command waits for the
    node to exit or for one of the two fatal channels. A oneshot channel is tokio's: a value, or a
    sender that was dropped. [tokio::select!] polls the branches that are left in any order, takes the
    first that is ready, and disables a branch whose pattern does not match. *)

From Stdlib Require Import Strings.String.
From stdpp Require Import base list numbers option strings.
From S2P Require Import Prelude L1Decode L1Sync Shutdown.

(** ** Replay *)

Section Replay.
Context {Msg : Type} (trim : string -> string) (from_str : string -> result string Msg).

(** The lines in order; [accepts] says of each send whether the channel was open. The messages sent and
    how many were pushed. *)
Fixpoint replay_lines (lines : list string) (accepts : list bool) (pushed : nat) : list Msg * nat :=
  match lines with
  | [] => ([], pushed)
  | line :: lines =>
      let line := trim line in
      if String.eqb line EmptyString then replay_lines lines accepts pushed
      else
        match from_str line with
        | Err _ => replay_lines lines accepts pushed
        | Ok msg =>
            match accepts with
            | true :: accepts => let '(sent, n) := replay_lines lines accepts (S pushed) in (msg :: sent, n)
            | _ => ([], pushed)
            end
        end
  end.

Definition replay_feed (content : result string (list string)) (accepts : list bool) : list Msg * nat :=
  match content with
  | Err _ => ([], O)
  | Ok lines => replay_lines lines accepts O
  end.

(** The messages of a file: its lines that are not empty and parse. *)
Definition file_messages (lines : list string) : list Msg :=
  omap (fun line => if String.eqb (trim line) EmptyString then None else match from_str (trim line) with Ok m => Some m | Err _ => None end) lines.

Fixpoint opens (accepts : list bool) : nat := match accepts with true :: accepts => S (opens accepts) | _ => O end.

Lemma replay_lines_spec (lines : list string) (accepts : list bool) (pushed : nat) :
  replay_lines lines accepts pushed =
  (take (opens accepts) (file_messages lines), pushed + Nat.min (opens accepts) (length (file_messages lines)))%nat.
Proof.
  revert accepts pushed. induction lines as [|line lines IH]; intros accepts pushed; cbn [replay_lines file_messages omap list_omap].
  - by rewrite take_nil, Nat.min_0_r, Nat.add_0_r.
  - destruct (String.eqb (trim line) EmptyString); [apply IH|]. destruct (from_str (trim line)) as [m|e]; [|apply IH].
    destruct accepts as [|[] accepts]; cbn [opens take length]; [by rewrite Nat.add_0_r| |by rewrite Nat.add_0_r].
    rewrite IH. apply pair_equal_spec. split; [done|]. unfold file_messages. lia.
Qed.

(** The replay hands over the messages of the file in order, skipping what does not parse, until the
    channel closes; what it counts is what it sent. *)
Theorem replay_exact (lines : list string) (accepts : list bool) :
  let '(sent, pushed) := replay_feed (Ok lines) accepts in
  sent = take (opens accepts) (file_messages lines) /\ pushed = length sent.
Proof. cbn [replay_feed]. rewrite replay_lines_spec. split; [done|]. rewrite length_take. lia. Qed.
End Replay.

(** ** The exit of the node *)

(** A oneshot receiver. *)
Inductive Oneshot (A : Type) := Waiting | Value (a : A) | SenderDropped.
Arguments Waiting {A}.
Arguments Value {A} a.
Arguments SenderDropped {A}.

(** [wait_for_node_exit] of a serving node: [exit_rx] is taken by the first wait. *)
Definition wait_for_node_exit (exit_rx : option (Oneshot (result string unit))) : option (result string unit) :=
  match exit_rx with
  | None => Some (Err "node exit wait requested after completion"%string)
  | Some Waiting => None
  | Some (Value r) => Some r
  | Some SenderDropped => Some (Err "channel closed"%string)
  end.

(** The owner of a finite supervisor: what it publishes once the supervisor's task ended; [None] is a
    task that panicked or was cancelled. *)
Definition finite_owner (joined : option (result string unit)) : result string unit :=
  match joined with
  | Some r => r
  | None => Err "finite driver supervisor failed"%string
  end.

(** *** Parking *)

Inductive Branch := NodeExit | L1Fatal | TrustedFatal.

#[global] Instance Branch_eq_dec : EqDecision Branch.
Proof. solve_decision. Defined.

(** What the three channels hold when the command is polled. *)
Record Channels := { ch_exit : Oneshot (result string unit); ch_l1 : Oneshot string; ch_trusted : Oneshot string }.

(** A poll of a branch: ready with the result of the command, disabled, or pending. *)
Inductive Polled := Ready (r : result string unit) | Disabled | NotReady.

Definition poll_fatal (prefix : string) (c : Oneshot string) : Polled :=
  match c with
  | Waiting => NotReady
  | Value err => Ready (Err (prefix +:+ err))
  | SenderDropped => Disabled
  end.

Definition poll_branch (ch : Channels) (b : Branch) : Polled :=
  match b with
  | NodeExit => match wait_for_node_exit (Some (ch_exit ch)) with Some r => Ready r | None => NotReady end
  | L1Fatal => poll_fatal "L1 derivation stopped and cannot resume: " (ch_l1 ch)
  | TrustedFatal => poll_fatal "trusted L2 monitor stopped: " (ch_trusted ch)
  end.

(** One poll of the select: the branches that are left, in the order they are tried; the result, or the
    branches left for the next poll. *)
Fixpoint select_poll (ch : Channels) (branches : list Branch) : result string unit + list Branch :=
  match branches with
  | [] => inr []
  | b :: branches =>
      match poll_branch ch b with
      | Ready r => inl r
      | Disabled => select_poll ch branches
      | NotReady => match select_poll ch branches with inl r => inl r | inr rest => inr (b :: rest) end
      end
  end.

(** The command: each poll tries the branches that are left in the order [shuffle] gives. *)
Fixpoint park (polls : list (Channels * (list Branch -> list Branch))) (branches : list Branch) : result string unit + list Branch :=
  match polls with
  | [] => inr branches
  | (ch, shuffle) :: polls =>
      match select_poll ch (shuffle branches) with
      | inl r => inl r
      | inr rest => park polls rest
      end
  end.

Definition all_branches : list Branch := [NodeExit; L1Fatal; TrustedFatal].

(** The task around [supervise_l1_sync]: an error is reported, otherwise the sender is dropped. Without
    derivation it is dropped at once. *)
Definition l1_task (started : bool) (outcome : option (result L1SyncError L1SyncCompletion)) (show : L1SyncError -> string) : Oneshot string :=
  match started, outcome with
  | false, _ => SenderDropped
  | true, None => Waiting
  | true, Some (Ok _) => SenderDropped
  | true, Some (Err e) => Value (show e)
  end.

(** ** What the command returns *)

(** A channel that is settled stays so. *)
Definition settles {A : Type} (c c' : Oneshot A) : Prop := c = Waiting \/ c' = c.

Definition later (ch ch' : Channels) : Prop :=
  settles (ch_exit ch) (ch_exit ch') /\ settles (ch_l1 ch) (ch_l1 ch') /\ settles (ch_trusted ch) (ch_trusted ch').

(** A run of polls: channels only settle, and every poll tries each branch that is left. *)
Fixpoint proper_polls (ch0 : Channels) (polls : list (Channels * (list Branch -> list Branch))) : Prop :=
  match polls with
  | [] => True
  | (ch, shuffle) :: polls => later ch0 ch /\ (forall bs, Permutation (shuffle bs) bs) /\ proper_polls ch polls
  end.

(** The branch is ready with this result. *)
Definition ends_with (ch : Channels) (r : result string unit) : Prop := exists b, poll_branch ch b = Ready r.

Definition quiet (ch : Channels) : Prop := forall b r, poll_branch ch b <> Ready r.

Lemma select_poll_spec (ch : Channels) (branches : list Branch) :
  match select_poll ch branches with
  | inl r => ends_with ch r
  | inr rest => (forall b r, b ∈ branches -> poll_branch ch b <> Ready r) /\
      (forall b, b ∈ rest <-> b ∈ branches /\ poll_branch ch b = NotReady)
  end.
Proof.
  induction branches as [|b branches IH]; cbn [select_poll].
  { split; [by intros b r ?%elem_of_nil|]. intros b. rewrite elem_of_nil. naive_solver. }
  destruct (poll_branch ch b) as [r| |] eqn:E; [by exists b| |].
  - destruct (select_poll ch branches) as [r|rest]; [done|]. destruct IH as [H1 H2]. split.
    + intros b' r [->|Hin]%elem_of_cons; [by rewrite E|by apply H1].
    + intros b'. rewrite H2, elem_of_cons. split; [naive_solver|]. intros [[->|?] ?]; [congruence|done].
  - destruct (select_poll ch branches) as [r|rest]; [done|]. destruct IH as [H1 H2]. split.
    + intros b' r [->|Hin]%elem_of_cons; [by rewrite E|by apply H1].
    + intros b'. rewrite !elem_of_cons, H2. split; [|naive_solver]. intros [->|[? ?]]; auto.
Qed.

(** A branch that is not left is disabled for good. *)
Definition disabled_only (ch : Channels) (branches : list Branch) : Prop := forall b, b ∈ branches \/ poll_branch ch b = Disabled.

Lemma disabled_later (ch ch' : Channels) (b : Branch) : later ch ch' -> poll_branch ch b = Disabled -> poll_branch ch' b = Disabled.
Proof.
  intros ([He|He] & [Hl|Hl] & [Ht|Ht]); destruct b; cbn; rewrite ?He, ?Hl, ?Ht; cbn; try done; by destruct (ch_exit ch) || done.
Qed.

Lemma park_spec (polls : list (Channels * (list Branch -> list Branch))) (ch0 : Channels) (branches : list Branch) :
  proper_polls ch0 polls -> disabled_only ch0 branches ->
  match park polls branches with
  | inl r => exists before ch shuffle after, polls = before ++ (ch, shuffle) :: after /\ Forall (fun p => quiet (fst p)) before /\ ends_with ch r
  | inr _ => Forall (fun p => quiet (fst p)) polls
  end.
Proof.
  revert ch0 branches. induction polls as [|[ch shuffle] polls IH]; intros ch0 branches Hp Hd; cbn [park]; [done|].
  destruct Hp as (Hl & Hshuffle & Hp). pose proof (select_poll_spec ch (shuffle branches)) as Hs.
  destruct (select_poll ch (shuffle branches)) as [r|rest].
  - exists [], ch, shuffle, polls. split; [done|]. split; [constructor|done].
  - destruct Hs as [H1 H2].
    assert (Hq : quiet ch).
    { intros b r Hr. destruct (Hd b) as [Hin|Hdis]; [by apply (H1 b r); [rewrite Hshuffle|]|].
      apply (disabled_later _ ch) in Hdis; [|done]. congruence. }
    assert (Hd' : disabled_only ch rest).
    { intros b. destruct (poll_branch ch b) as [r| |] eqn:E; [by apply Hq in E|by right|left]. apply H2. split; [|done].
      rewrite Hshuffle. destruct (Hd b) as [|Hdis]; [done|]. apply (disabled_later _ ch) in Hdis; [congruence|done]. }
    specialize (IH ch rest Hp Hd'). destruct (park polls rest) as [r|rest'].
    + destruct IH as (before & ch' & shuffle' & after & -> & Hb & He). exists ((ch, shuffle) :: before), ch', shuffle', after.
      split; [done|]. split; [by constructor|done].
    + by constructor.
Qed.

(** The command ends when something ended it, and with that: over any run of polls, it returns at the
    first poll at which the node has exited, derivation has failed for good or the monitor has
    diverged, with the result of one of these; success means that the node itself exited with success;
    and a derivation that ended or never started does not end the command. *)
Theorem park_exact (polls : list (Channels * (list Branch -> list Branch))) (ch0 : Channels) :
  quiet ch0 -> proper_polls ch0 polls ->
  (forall r, park polls all_branches = inl r ->
     exists before ch shuffle after, polls = before ++ (ch, shuffle) :: after /\ Forall (fun p => quiet (fst p)) before /\ ends_with ch r /\
       (r = Ok tt -> ch_exit ch = Value (Ok tt))) /\
  (forall before ch shuffle after, polls = before ++ (ch, shuffle) :: after -> ~ quiet ch -> exists r, park polls all_branches = inl r).
Proof.
  intros Hq Hp. pose proof (park_spec polls ch0 all_branches Hp) as H.
  assert (Hall : disabled_only ch0 all_branches) by (intros []; left; unfold all_branches; rewrite !elem_of_cons; auto). specialize (H Hall). split.
  - intros r Hr. rewrite Hr in H. destruct H as (before & ch & shuffle & after & -> & Hb & He). exists before, ch, shuffle, after.
    do 3 (split; [done|]). intros ->. destruct He as [b Hb']. destruct b; cbn in Hb'.
    + destruct (ch_exit ch); cbn in Hb'; congruence.
    + by destruct (ch_l1 ch).
    + by destruct (ch_trusted ch).
  - intros before ch shuffle after -> Hn. destruct (park _ all_branches) as [r|rest]; [by exists r|]. exfalso. apply Hn.
    apply Forall_app in H as [_ H]. by inversion H.
Qed.

Lemma later_trans (a b c : Channels) : later a b -> later b c -> later a c.
Proof.
  assert (H : forall (A : Type) (x y z : Oneshot A), settles x y -> settles y z -> settles x z).
  { intros A x y z [->|<-]; [by left|]. intros [->|<-]; [by left|by right]. }
  intros (A1 & A2 & A3) (B1 & B2 & B3). split; [by eapply H|split; by eapply H].
Qed.

Lemma polls_later (ch0 : Channels) (before : list (Channels * (list Branch -> list Branch))) (ch : Channels) (shuffle : list Branch -> list Branch)
    (after : list (Channels * (list Branch -> list Branch))) :
  proper_polls ch0 (before ++ (ch, shuffle) :: after) -> later ch0 ch /\ Forall (fun p => later (fst p) ch) before.
Proof.
  revert ch0. induction before as [|[ch1 s1] before IH]; intros ch0; cbn [app proper_polls]; intros (Hl & _ & Hp); [by split; [|constructor]|].
  destruct (IH ch1 Hp) as [H1 H2]. split; [by eapply later_trans|]. by constructor.
Qed.

(** A node whose derivation failed for good does not go on serving its last tip: when the failure is
    seen while the node has not exited, the command ends with an error. *)
Theorem dead_derivation_ends (before after : list (Channels * (list Branch -> list Branch))) (ch0 ch : Channels)
    (shuffle : list Branch -> list Branch) (show : L1SyncError -> string) (e : L1SyncError) :
  quiet ch0 -> proper_polls ch0 (before ++ (ch, shuffle) :: after) -> ch_l1 ch = l1_task true (Some (Err e)) show -> ch_exit ch = Waiting ->
  exists error, park (before ++ (ch, shuffle) :: after) all_branches = inl (Err error).
Proof.
  intros Hq Hp Hl He. destruct (park_exact _ ch0 Hq Hp) as [H1 H2]. destruct (H2 before ch shuffle after eq_refl) as [r Hr].
  { intros Hquiet. apply (Hquiet L1Fatal (Err ("L1 derivation stopped and cannot resume: " +:+ show e))). cbn. by rewrite Hl. }
  destruct r as [[]|error]; [|by exists error]. exfalso. destruct (H1 _ Hr) as (b1 & ch1 & s1 & a1 & Heq & Hquiet & _ & Hok). specialize (Hok eq_refl).
  assert (Hnot : ~ quiet ch) by (intros Hqc; apply (Hqc L1Fatal (Err ("L1 derivation stopped and cannot resume: " +:+ show e))); cbn; by rewrite Hl).
  assert (Hin : ch1 = ch \/ later ch1 ch).
  { destruct (polls_later ch0 before ch shuffle after Hp) as [_ Hlater].
    assert (Hlen : (length b1 <= length before)%nat).
    { destruct (decide (length b1 <= length before)%nat) as [|Hgt]; [done|]. exfalso. apply Hnot.
      assert (Hlk : b1 !! length before = Some (ch, shuffle)).
      { rewrite <- (lookup_app_l b1 ((ch1, s1) :: a1)) by lia. rewrite <- Heq. by rewrite list_lookup_middle. }
      rewrite Forall_lookup in Hquiet. apply (Hquiet _ _ Hlk). }
    destruct (decide (length b1 = length before)) as [Hl1|Hl1].
    - apply app_inj_1 in Heq as [_ [= -> _]]; [by left|done].
    - right. assert (Hlk : before !! length b1 = Some (ch1, s1)).
      { rewrite <- (lookup_app_l before ((ch, shuffle) :: after)) by lia. rewrite Heq. by rewrite list_lookup_middle. }
      rewrite Forall_lookup in Hlater. apply (Hlater _ _ Hlk). }
  destruct Hin as [->|[[Hw|Hs] _]]; congruence.
Qed.
