(* ===== verification/Canonical.v ===== *)
(** * Seeing a block become canonical

    [wait_for_head] of [crates/arb-reth-engine/src/engine.rs] and the check that
    [settle_pending_applied] makes before it: a block counts as applied once the provider has its hash
    at its number, the in-memory head is the block, or a commit of it was observed. What the provider
    and the head answer and when observations arrive are inputs of each turn. *)

From Stdlib Require Import Strings.String.
From stdpp Require Import base list numbers option strings.
From S2P Require Import Prelude.

(** What one turn of the loop meets: the provider's hash at the number, the head, the observations that
    are queued, whether the deadline has passed after them, and the one that arrives in the wait
    ([None]: the channel closed or the time was up). *)
Record Turn := {
  tn_block_hash : result string (option Z); tn_head : Z * Z; tn_queued : list (Z * Z); tn_expired : bool; tn_next : option (Z * Z)
}.

Definition observes (bn hash : Z) (o : Z * Z) : bool := (fst o =? bn) && (snd o =? hash).

Definition shows (bn hash : Z) (answer : result string (option Z)) : bool :=
  match answer with Ok (Some h) => h =? hash | _ => false end.

(** The loop, with the turns it gets; [None] when they do not end it. *)
Fixpoint wait_for_head (bn expected_hash : Z) (turns : list Turn) : option bool :=
  match turns with
  | [] => None
  | t :: turns =>
      if shows bn expected_hash (tn_block_hash t) then Some true
      else if observes bn expected_hash (tn_head t) then Some true
      else if existsb (observes bn expected_hash) (tn_queued t) then Some true
      else if tn_expired t then Some false
      else match tn_next t with
           | Some o => if observes bn expected_hash o then Some true else wait_for_head bn expected_hash turns
           | None => Some false
           end
  end.

(** [settle_pending_applied] after the forkchoice answer: whether the block was observable at once, and
    whether it is canonical. *)
Definition observed_canonical (bn hash : Z) (at_response : result string (option Z)) (head : Z * Z) (turns : list Turn) : bool * option bool :=
  let was_observable_at_response := shows bn hash at_response || observes bn hash head in
  (was_observable_at_response, if was_observable_at_response then Some true else wait_for_head bn hash turns).

(** The block is seen in a turn. *)
Definition seen_in (bn hash : Z) (t : Turn) : Prop :=
  tn_block_hash t = Ok (Some hash) \/ tn_head t = (bn, hash) \/ (bn, hash) ∈ tn_queued t \/ (tn_expired t = false /\ tn_next t = Some (bn, hash)).

(** A turn after which the loop goes on: an observation of another block arrived in time. *)
Definition goes_on (t : Turn) : Prop := tn_expired t = false /\ is_Some (tn_next t).

Lemma observes_iff (bn hash : Z) (o : Z * Z) : observes bn hash o = true <-> o = (bn, hash).
Proof. unfold observes. destruct o as [a b]. cbn. rewrite andb_true_iff, !Z.eqb_eq. naive_solver. Qed.

Lemma shows_iff (bn hash : Z) (a : result string (option Z)) : shows bn hash a = true <-> a = Ok (Some hash).
Proof. unfold shows. destruct a as [[h|]|e]; [|done..]. rewrite Z.eqb_eq. naive_solver. Qed.

Lemma queued_iff (bn hash : Z) (l : list (Z * Z)) : existsb (observes bn hash) l = true <-> (bn, hash) ∈ l.
Proof.
  rewrite existsb_exists. split.
  - intros (o & Hin & ->%observes_iff). by apply list_elem_of_In.
  - intros Hin. exists (bn, hash). split; [by apply list_elem_of_In|]. by apply observes_iff.
Qed.

(** The wait is exact: it says yes exactly when the block itself, by number and hash, was seen in a turn
    before which every turn brought another observation in time, and no exactly when such a turn ended
    the wait unseen; so a yes is never given for another block at the same height. *)
Theorem wait_for_head_exact (bn hash : Z) (turns : list Turn) :
  (wait_for_head bn hash turns = Some true <->
     exists before t after, turns = before ++ t :: after /\ Forall (fun u => goes_on u /\ ~ seen_in bn hash u) before /\ seen_in bn hash t) /\
  (wait_for_head bn hash turns = Some false <->
     exists before t after, turns = before ++ t :: after /\ Forall (fun u => goes_on u /\ ~ seen_in bn hash u) before /\ ~ goes_on t /\ ~ seen_in bn hash t).
Proof.
  induction turns as [|t turns [IH1 IH2]].
  { split; (split; [done|]); by intros ([|? ?] & ? & ? & ? & _). }
  assert (Hcase : (seen_in bn hash t /\ wait_for_head bn hash (t :: turns) = Some true) \/
                  (~ seen_in bn hash t /\ ~ goes_on t /\ wait_for_head bn hash (t :: turns) = Some false) \/
                  (~ seen_in bn hash t /\ goes_on t /\ wait_for_head bn hash (t :: turns) = wait_for_head bn hash turns)).
  { cbn [wait_for_head]. unfold seen_in, goes_on.
    destruct (shows bn hash (tn_block_hash t)) eqn:E1; [apply shows_iff in E1; left; tauto|].
    destruct (observes bn hash (tn_head t)) eqn:E2; [apply observes_iff in E2; left; tauto|].
    destruct (existsb (observes bn hash) (tn_queued t)) eqn:E3; [apply queued_iff in E3; left; tauto|].
    assert (N1 : tn_block_hash t <> Ok (Some hash)) by (intros H; by rewrite (proj2 (shows_iff bn hash _) H) in E1).
    assert (N2 : tn_head t <> (bn, hash)) by (intros H; by rewrite (proj2 (observes_iff bn hash _) H) in E2).
    assert (N3 : (bn, hash) ∉ tn_queued t) by (intros H; by rewrite (proj2 (queued_iff bn hash _) H) in E3).
    destruct (tn_expired t); [right; left; naive_solver|].
    destruct (tn_next t) as [o|]; [|right; left; split_and!; [naive_solver|by intros [_ [? ?]]|done]].
    destruct (observes bn hash o) eqn:E4; [apply observes_iff in E4 as ->; left; tauto|].
    right. right. split; [|split; [by eauto|done]]. intros [?|[?|[?|[_ [= Ho]]]]]; try done. subst o. rewrite (proj2 (observes_iff bn hash _)) in E4; done. }
  destruct Hcase as [[Hs ->]|[(Hn & Hg & ->)|(Hn & Hg & ->)]].
  - split; (split; [intros H|]).
    + exists [], t, turns. split; [done|]. split; [constructor|done].
    + done.
    + done.
    + intros ([|u before] & t' & after & [= <- ->] & Hb & Hg' & Hs'); [done|]. by inversion Hb as [|? ? [_ ?] _].
  - split; (split; [intros H|]).
    + done.
    + intros ([|u before] & t' & after & [= <- ->] & Hb & Hs'); [done|]. by inversion Hb as [|? ? [? _] _].
    + exists [], t, turns. split; [done|]. split; [constructor|done].
    + done.
  - rewrite IH1, IH2. split; (split; [intros (before & t' & after & -> & Hb & H); exists (t :: before), t', after; split; [done|]; split; [by constructor|done]|]).
    + intros ([|u before] & t' & after & [= <- ->] & Hb & Hs'); [done|]. inversion Hb; subst. by exists before, t', after.
    + intros ([|u before] & t' & after & [= <- ->] & Hb & Hg' & Hs'); [done|]. inversion Hb; subst. by exists before, t', after.
Qed.

(** A block that the provider has at its number needs no wait, and one that is not canonical at the
    answer is waited for. *)
Theorem observed_canonical_sound (bn hash : Z) (at_response : result string (option Z)) (head : Z * Z) (turns : list Turn) (b : bool) :
  observed_canonical bn hash at_response head turns = (b, Some true) ->
  if b then at_response = Ok (Some hash) \/ head = (bn, hash)
  else exists before t after, turns = before ++ t :: after /\ Forall (fun u => goes_on u /\ ~ seen_in bn hash u) before /\ seen_in bn hash t.
Proof.
  unfold observed_canonical. destruct (shows bn hash at_response) eqn:E1; [intros [= <-]; left; by apply (shows_iff bn)|].
  destruct (observes bn hash head) eqn:E2; cbn [orb]; [intros [= <-]; right; by apply observes_iff|].
  intros [= <- H]. by apply wait_for_head_exact.
Qed.
