(* ===== verification/PayloadTypes.v ===== *)
(** * The payload types of the engine

    [crates/arb-reth-engine/src/lib.rs] and [engine_spike.rs]: what Reth's engine asks of a payload. A
    built payload carries its executed block; attributes have an identifier, over which Reth keeps its
    jobs, and are checked against the head they build on; payloads of others are refused. The hash of an
    identifier and the encoding of a block as a payload are Reth's and alloy's. *)

From Stdlib Require Import Strings.String.
From stdpp Require Import base list numbers option strings.
From S2P Require Import Prelude L1Decode Driver.

(** ** Attributes *)

(** [alloy_rpc_types_engine::PayloadAttributes] *)
Record IdAttributes := {
  ia_timestamp : Z; ia_prev_randao : Z; ia_suggested_fee_recipient : Z; ia_withdrawals : option (list Z);
  ia_parent_beacon_block_root : option Z; ia_slot_number : option Z; ia_target_gas_limit : option Z
}.

Definition id_attributes (self : ArbPayloadAttributes) : IdAttributes := {|
  ia_timestamp := pa_timestamp self; ia_prev_randao := 0; ia_suggested_fee_recipient := 0; ia_withdrawals := None;
  ia_parent_beacon_block_root := None; ia_slot_number := Some (fm_sequence_number (pa_message self)); ia_target_gas_limit := None
|}.

(** [reth_payload_primitives::payload_id] *)
Definition payload_id (id : Z -> IdAttributes -> Z) (self : ArbPayloadAttributes) (parent : Z) : Z := id parent (id_attributes self).

Definition validate_payload_attributes_against_header (attributes : ArbPayloadAttributes) (header_timestamp : Z) : result string unit :=
  if pa_timestamp attributes <? header_timestamp then Err "invalid timestamp"%string else Ok tt.

(** ** Payloads *)

Section Payloads.
Context {Block Payload Sidecar Executed Timing Stats : Type} (block_hash : Block -> Z) (sealed_block : Executed -> Block)
  (from_block : Z -> Block -> Payload * Sidecar).

Record ArbBuiltPayload := { bp_executed : Executed; bp_fees : Z; bp_production_timing : Timing; bp_execution_cache_stats : option Stats }.

Definition from_executed (executed : Executed) (fees : Z) (timing : Timing) (stats : option Stats) : ArbBuiltPayload := {|
  bp_executed := executed; bp_fees := fees; bp_production_timing := timing; bp_execution_cache_stats := stats
|}.

Definition executed_block (self : ArbBuiltPayload) : option Executed := Some (bp_executed self).
Definition built_block (self : ArbBuiltPayload) : Block := sealed_block (bp_executed self).

(** [From<ArbBuiltPayload> for ArbExecutionData] *)
Definition execution_data_from (payload : ArbBuiltPayload) : Payload * Sidecar :=
  let block := sealed_block (bp_executed payload) in from_block (block_hash block) block.

(** [PayloadTypes::block_to_payload] *)
Definition block_to_payload (block : Block) : Payload * Sidecar := from_block (block_hash block) block.

(** Payloads of others are not supported. *)
Definition convert_payload_to_block (payload : Payload * Sidecar) : result string Block :=
  Err "ArbPayloadValidator::convert_payload_to_block is unsupported for external payloads"%string.

(** Both ways to a payload agree, and the executed block is there for the driver. *)
Theorem payloads_agree (executed : Executed) (fees : Z) (timing : Timing) (stats : option Stats) :
  let p := from_executed executed fees timing stats in
  execution_data_from p = block_to_payload (built_block p) /\ executed_block p = Some executed.
Proof. done. Qed.
End Payloads.

(** ** The requests of a driver *)

Section Requests.
Context {EN : Engine}.

(** The builds a chain asks for: the head and the attributes. *)
Fixpoint chain_builds (parent : SealedHeader) (l : list applied) : list (SealedHeader * ArbPayloadAttributes) :=
  match l with
  | [] => []
  | (m, b) :: l => (parent, payload_of parent m) :: chain_builds (eb_header b) l
  end.

(** The build requests among what was sent to the tree. *)
Definition build_requests (requests : list EngineRequest) : list (Z * ArbPayloadAttributes) :=
  omap (fun r => match r with ForkchoiceBuild head attributes => Some (head, attributes) | _ => None end) requests.

Lemma chain_builds_requests (parent : SealedHeader) (l : list applied) :
  build_requests (chain_requests parent l) = (fun b => (sh_hash (fst b), snd b)) <$> chain_builds parent l.
Proof.
  revert parent. induction l as [|[m b] l IH]; intros parent; [done|]. cbn [chain_requests chain_builds fmap list_fmap fst snd].
  unfold build_requests in *. cbn [omap list_omap app]. by rewrite IH.
Qed.

Lemma chain_builds_valid (parent : SealedHeader) (l : list applied) :
  Forall (fun b => validate_payload_attributes_against_header (snd b) (sh_timestamp (fst b)) = Ok tt) (chain_builds parent l).
Proof.
  revert parent. induction l as [|[m b] l IH]; intros parent; cbn [chain_builds]; constructor; [|apply IH].
  unfold validate_payload_attributes_against_header. cbn. by destruct (Z.ltb_spec (Z.max (fh_timestamp (fl_header (fm_l1_incoming_message m))) (sh_timestamp parent)) (sh_timestamp parent)); [lia|].
Qed.

Lemma chain_builds_numbered (parent : SealedHeader) (n : Z) (l : list applied) :
  chain parent n l -> forall i h a, chain_builds parent l !! i = Some (h, a) -> fm_sequence_number (pa_message a) = n + Z.of_nat i.
Proof.
  revert parent n. induction l as [|[m b] l IH]; intros parent n; [done|]. cbn [chain chain_builds]. intros (Hm & _ & Hc) [|i] h a; cbn.
  - intros [= _ <-]. cbn. lia.
  - intros Ha. rewrite (IH _ _ Hc i h a Ha). lia.
Qed.

(** Reth accepts every build a driver asks for, as a job of its own: whatever order and overlap the
    messages are delivered in, the attributes of each request pass the check against the header they
    build on, and no two requests have the same identifying attributes, so no job stands for another. *)
Theorem requests_distinct (t : SealedHeader) (g : Z) (msgs : list (BroadcastFeedMessage * bool)) (d : ArbEngineDriver) :
  sequences_ok msgs -> drive msgs (spawned t g) = Ok d ->
  exists builds, build_requests (to_tree d) = (fun b => (sh_hash (fst b), snd b)) <$> builds /\
    Forall (fun b => validate_payload_attributes_against_header (snd b) (sh_timestamp (fst b)) = Ok tt) builds /\
    (forall i j b b', builds !! i = Some b -> builds !! j = Some b' -> id_attributes (snd b) = id_attributes (snd b') -> i = j).
Proof.
  intros Hs H. destruct (drive_spec t g msgs d Hs H) as (l & Hinv & _). destruct Hinv. exists (chain_builds t l).
  cbn [spawned tip to_tree app] in ri_chain, ri_requests. split; [by rewrite ri_requests, chain_builds_requests|]. split; [apply chain_builds_valid|].
  intros i j [h a] [h' a'] Hi Hj Heq. cbn [snd] in Heq. pose proof (chain_builds_numbered _ _ _ ri_chain i h a Hi) as Ni.
  pose proof (chain_builds_numbered _ _ _ ri_chain j h' a' Hj) as Nj. injection Heq as _ Hs'. lia.
Qed.
End Requests.
