(* ===== verification/EvmAdapter.v ===== *)
(** * The EVM behind Reth

    [crates/arb-reth-evm/src/lib.rs], [tx.rs] and [precompiles.rs]: how an EVM is made from an
    environment, how a transaction is lowered to what the EVM runs, and which precompile answers a call.
    The EVM, its context and the precompiles are [arb_revm]'s and revm's: classes. *)

From Stdlib Require Import Strings.Byte Strings.String.
From stdpp Require Import base list numbers option strings gmap.
From S2P Require Import Prelude External TxLog StoredReceipt BlockExecutor.

(** ** Making an EVM *)

(** [ArbChainContext] and its builders. *)
Class ChainContext {AR : ArbRevm} := {
  default_chain : ArbChainContext;
  with_l1_block_number : Z -> ArbChainContext -> ArbChainContext;
  with_base_fee_in_block : Z -> ArbChainContext -> ArbChainContext;
  chain_l1_block_number : ArbChainContext -> option Z;
  chain_base_fee_in_block : ArbChainContext -> option Z;
  l1_set : forall n c, chain_l1_block_number (with_l1_block_number n c) = Some n;
  l1_kept : forall n c, chain_l1_block_number (with_base_fee_in_block n c) = chain_l1_block_number c;
  fee_set : forall n c, chain_base_fee_in_block (with_base_fee_in_block n c) = Some n
}.

Section Factory.
Context {AR : ArbRevm} {CC : ChainContext} {Db Inspector Precompiles : Type}.

Record ArbEvmContext := { ctx_chain : ArbChainContext; ctx_db : Db; ctx_block : ArbBlockEnv; ctx_cfg : CfgEnv ArbSpecId }.

(** [ArbEvm] around the inner EVM. *)
Record ArbEvm := { ev_ctx : ArbEvmContext; ev_inspector : Inspector; ev_precompiles : Precompiles; ev_inspect : bool }.

Definition build_ctx (db : Db) (evm_env : EvmEnv ArbSpecId) : ArbEvmContext := {|
  ctx_chain := with_base_fee_in_block (env_base_fee_in_block (env_block evm_env))
                 (with_l1_block_number (env_l1_block_number (env_block evm_env)) default_chain);
  ctx_db := db; ctx_block := env_block evm_env; ctx_cfg := env_cfg evm_env
|}.

Definition create_evm_with (precompiles_new : ArbSpecId -> Precompiles) (db : Db) (evm_env : EvmEnv ArbSpecId) (inspector : Inspector)
    (inspect : bool) : ArbEvm := {|
  ev_ctx := build_ctx db evm_env; ev_inspector := inspector; ev_precompiles := precompiles_new (cfg_spec (env_cfg evm_env)); ev_inspect := inspect
|}.

(** [create_evm] and [create_evm_with_inspector]. *)
Definition create_evm (precompiles_new : ArbSpecId -> Precompiles) (no_op : Inspector) (db : Db) (evm_env : EvmEnv ArbSpecId) : ArbEvm :=
  create_evm_with precompiles_new db evm_env no_op false.

Definition create_evm_with_inspector (precompiles_new : ArbSpecId -> Precompiles) (db : Db) (evm_env : EvmEnv ArbSpecId) (inspector : Inspector) : ArbEvm :=
  create_evm_with precompiles_new db evm_env inspector true.

Definition set_inspector_enabled (enabled : bool) (self : ArbEvm) : ArbEvm := {|
  ev_ctx := ev_ctx self; ev_inspector := ev_inspector self; ev_precompiles := ev_precompiles self; ev_inspect := enabled
|}.

(** Both paths run the ArbOS handler. *)
Definition transact_raw {Tx R : Type} (inspect_tx transact : ArbEvm -> Tx -> R) (self : ArbEvm) (tx : Tx) : R :=
  if ev_inspect self then inspect_tx self tx else transact self tx.

Definition finish_evm (self : ArbEvm) : Db * EvmEnv ArbSpecId :=
  (ctx_db (ev_ctx self), {| env_cfg := ctx_cfg (ev_ctx self); env_block := ctx_block (ev_ctx self) |}).

(** Reth zeroes the base fee of a call that names no gas price. *)
Definition zero_basefee (env : EvmEnv ArbSpecId) : EvmEnv ArbSpecId :=
  let b := env_inner (env_block env) in
  {| env_cfg := env_cfg env;
     env_block := {| env_inner := {| be_number := be_number b; be_beneficiary := be_beneficiary b; be_timestamp := be_timestamp b;
                                     be_gas_limit := be_gas_limit b; be_basefee := 0; be_difficulty := be_difficulty b; be_prevrandao := be_prevrandao b |};
                     env_l1_block_number := env_l1_block_number (env_block env); env_base_fee_in_block := env_base_fee_in_block (env_block env) |} |}.

(** A call over the state of a block sees the block's ArbOS context without the block executor: the EVM
    made from the environment of a header has the L1 block number of the header and its base fee for
    L1 pricing, also when Reth has zeroed the base fee of the environment; and the environment is given
    back as it was taken. *)
Theorem call_sees_header (config : ArbEvmConfig) (h : Header) (precompiles_new : ArbSpecId -> Precompiles) (inspector : Inspector) (db : Db) (zeroed inspect : bool) :
  let env := if zeroed then zero_basefee (evm_env config h) else evm_env config h in
  let evm := create_evm_with precompiles_new db env inspector inspect in
  chain_l1_block_number (ctx_chain (ev_ctx evm)) = Some (l1_block_number_for_header h) /\
  chain_base_fee_in_block (ctx_chain (ev_ctx evm)) = Some (default 0 (base_fee_per_gas h)) /\
  ev_precompiles evm = precompiles_new (spec_for_header h) /\ finish_evm evm = (db, env).
Proof. cbn. rewrite l1_kept, l1_set, fee_set. by destruct zeroed. Qed.
End Factory.

(** ** Lowering a transaction *)

(** What a transaction of any type says of itself. *)
Class TxFields {AR : ArbRevm} := {
  AccessList : Type; Authorization : Type; TxKind : Type;
  fld_access_list : ArbTxEnvelope -> option AccessList; empty_access_list : AccessList;
  fld_blob_versioned_hashes : ArbTxEnvelope -> option (list Z);
  fld_authorization_list : ArbTxEnvelope -> option (list Authorization);
  fld_gas_limit : ArbTxEnvelope -> Z; fld_gas_price : ArbTxEnvelope -> option Z; fld_max_fee_per_gas : ArbTxEnvelope -> Z;
  fld_kind : ArbTxEnvelope -> TxKind; fld_value : ArbTxEnvelope -> Z; fld_input : ArbTxEnvelope -> bytes; fld_nonce : ArbTxEnvelope -> Z;
  fld_chain_id : ArbTxEnvelope -> option Z; fld_max_priority_fee_per_gas : ArbTxEnvelope -> option Z;
  fld_max_fee_per_blob_gas : ArbTxEnvelope -> option Z;
  (** The fields of a retry: ticket, refund address, maximal refund, submission fee refund. *)
  as_retry : ArbTxEnvelope -> option (Z * Z * Z * Z);
  encoded_2718 : ArbTxEnvelope -> bytes
}.

Section Lowering.
Context {AR : ArbRevm} {TF : TxFields}.

Record TxEnv := {
  te_tx_type : u8; te_caller : Z; te_gas_limit : Z; te_gas_price : Z; te_kind : TxKind; te_value : Z; te_data : bytes; te_nonce : Z;
  te_chain_id : option Z; te_access_list : AccessList; te_gas_priority_fee : option Z; te_blob_hashes : list Z;
  te_max_fee_per_blob_gas : Z; te_authorization_list : list Authorization
}.

Record RetryTxMeta := { ticket_id : Z; refund_to : Z; max_refund : Z; submission_fee_refund : Z }.

Record ArbTx := { at_base : TxEnv; at_retry_meta : option RetryTxMeta; at_tx_hash : option Z; at_encoded_2718 : option bytes }.

Definition arb_tx_from_envelope (tx : ArbTxEnvelope) (caller : Z) (encoded : bytes) : ArbTx := {|
  at_base := {|
    te_tx_type := tx_ty tx; te_caller := caller; te_gas_limit := fld_gas_limit tx;
    te_gas_price := default (fld_max_fee_per_gas tx) (fld_gas_price tx); te_kind := fld_kind tx; te_value := fld_value tx;
    te_data := fld_input tx; te_nonce := fld_nonce tx; te_chain_id := fld_chain_id tx;
    te_access_list := default empty_access_list (fld_access_list tx); te_gas_priority_fee := fld_max_priority_fee_per_gas tx;
    te_blob_hashes := default [] (fld_blob_versioned_hashes tx); te_max_fee_per_blob_gas := default 0 (fld_max_fee_per_blob_gas tx);
    te_authorization_list := default [] (fld_authorization_list tx) |};
  at_retry_meta := (fun '(ticket, refund, maximum, fee) =>
                      {| ticket_id := ticket; refund_to := refund; max_refund := maximum; submission_fee_refund := fee |}) <$> as_retry tx;
  at_tx_hash := Some (tx_hash tx); at_encoded_2718 := Some encoded
|}.

Definition from_recovered_tx (tx : ArbTxEnvelope) (sender : Z) : ArbTx := arb_tx_from_envelope tx sender (encoded_2718 tx).
Definition from_encoded_tx (tx : ArbTxEnvelope) (sender : Z) (encoded : bytes) : ArbTx := arb_tx_from_envelope tx sender encoded.

(** [ArbTransactionRequest::try_into_tx_env]: the request's own environment, no retry and no encoding. *)
Definition request_into_tx_env {Request Env : Type} (inner : Request -> Env -> result string TxEnv) (request : Request) (env : Env) : result string ArbTx :=
  let? tx_env := inner request env in
  Ok {| at_base := tx_env; at_retry_meta := None; at_tx_hash := None; at_encoded_2718 := None |}.

(** Lowering loses nothing that tells transactions apart: one with the same lowered form, hash and
    encoding included, has the same type, fields and retry data; and the caller is the one given, so no
    signature is recovered again. *)
Theorem lowering_faithful (tx tx' : ArbTxEnvelope) (caller caller' : Z) :
  from_recovered_tx tx caller = from_recovered_tx tx' caller' ->
  caller = caller' /\ tx_hash tx = tx_hash tx' /\ encoded_2718 tx = encoded_2718 tx' /\ tx_ty tx = tx_ty tx' /\ fld_input tx = fld_input tx' /\
  fld_value tx = fld_value tx' /\ fld_nonce tx = fld_nonce tx' /\ as_retry tx = as_retry tx'.
Proof.
  unfold from_recovered_tx, arb_tx_from_envelope. intros [= Hty -> _ _ _ Hv Hd Hn _ _ _ _ _ _ Hr Hh He]. split_and!; try done.
  destruct (as_retry tx) as [[[[a b] c] d]|], (as_retry tx') as [[[[a' b'] c'] d']|]; try done. cbn in Hr. congruence.
Qed.
End Lowering.

(** ** Precompiles *)

(** [arb_revm]'s precompiles and the addresses active at a version, Ethereum's precompiles of a
    specification, and alloy's map of these. *)
Class PrecompileSets {AR : ArbRevm} := {
  Call : Type; Context_ : Type; Output : Type;
  bytecode_address : Call -> Z;
  ArbPrecompile : Type;
  from_address : Z -> option ArbPrecompile;
  run_dispatch : ArbPrecompile -> Context_ -> Call -> Output;
  arbos_version : ArbSpecId -> Z;
  active_addresses : Z -> list Z;
  eth_addresses : ArbSpecId -> gset Z;
  eth_run : ArbSpecId -> Context_ -> Call -> result string (option Output)
}.

(** A map answers the calls at its addresses and no others, and what is active is a precompile. *)
Class PrecompileLaws {AR : ArbRevm} {PS : PrecompileSets} := {
  eth_runs : forall spec c call, bytecode_address call ∈ eth_addresses spec -> forall o, eth_run spec c call = Ok o -> is_Some o;
  eth_passes : forall spec c call, bytecode_address call ∉ eth_addresses spec -> eth_run spec c call = Ok None;
  active_known : forall v a, a ∈ active_addresses v -> is_Some (from_address a)
}.

Section Precompiles.
Context {AR : ArbRevm} {PS : PrecompileSets}.

(** The map of a specification, by the specification, and the warm addresses. *)
Record ArbPrecompilesMap := { pm_inner : ArbSpecId; pm_warm : gset Z }.

Definition precompiles_new (spec : ArbSpecId) : ArbPrecompilesMap := {|
  pm_inner := spec; pm_warm := foldl (fun warm address => {[address]} ∪ warm) (eth_addresses spec) (active_addresses (arbos_version spec))
|}.

Definition run (self : ArbPrecompilesMap) (context : Context_) (inputs : Call) : result string (option Output) :=
  match from_address (bytecode_address inputs) with
  | Some arb => Ok (Some (run_dispatch arb context inputs))
  | None => eth_run (pm_inner self) context inputs
  end.

Definition contains (self : ArbPrecompilesMap) (address : Z) : bool :=
  bool_decide (is_Some (from_address address)) || bool_decide (address ∈ eth_addresses (pm_inner self)).

Lemma warm_exact (spec : ArbSpecId) (a : Z) :
  a ∈ pm_warm (precompiles_new spec) <-> a ∈ eth_addresses spec \/ a ∈ active_addresses (arbos_version spec).
Proof.
  unfold precompiles_new. cbn. generalize (eth_addresses spec). induction (active_addresses (arbos_version spec)) as [|b l IH]; intros w; cbn [foldl].
  - set_solver.
  - rewrite IH. set_solver.
Qed.

Context {PL : PrecompileLaws}.

(** The provider is coherent: a call is answered exactly when its address is contained; every warm
    address is; and an ArbOS precompile that is not active is answered, by its own gate, but not warm. *)
Theorem precompiles_coherent (spec : ArbSpecId) (c : Context_) (call : Call) (o : option Output) :
  run (precompiles_new spec) c call = Ok o ->
  (contains (precompiles_new spec) (bytecode_address call) = true <-> is_Some o) /\
  (bytecode_address call ∈ pm_warm (precompiles_new spec) -> is_Some o) /\
  (forall arb, from_address (bytecode_address call) = Some arb -> bytecode_address call ∉ active_addresses (arbos_version spec) ->
     bytecode_address call ∉ eth_addresses spec -> o = Some (run_dispatch arb c call) /\ bytecode_address call ∉ pm_warm (precompiles_new spec)).
Proof.
  unfold run, contains. cbn [precompiles_new pm_inner]. rewrite warm_exact. destruct (from_address (bytecode_address call)) as [arb|] eqn:E.
  - intros [= <-]. rewrite bool_decide_true by eauto. split; [done|]. split; [done|]. intros arb' [= <-] Hn He. split; [done|]. rewrite ?warm_exact. tauto.
  - rewrite (bool_decide_false (is_Some None)) by (by intros [? ?]). cbn [orb]. intros Hr.
    destruct (decide (bytecode_address call ∈ eth_addresses spec)) as [Hin|Hout].
    + rewrite bool_decide_true by done. pose proof (eth_runs spec c call Hin o Hr). done.
    + rewrite bool_decide_false by done. rewrite eth_passes in Hr by done. injection Hr as <-. split; [split; [done|by intros [? ?]]|]. split; [|done].
      intros [?|Ha%active_known]; [done|]. by rewrite E in Ha.
Qed.
End Precompiles.
