(* ===== verification/Persist.v ===== *)
(** * Persisting one executed block

    [crates/arb-reth-node/src/persist.rs]: a block that was executed elsewhere is written with its state
    in one transaction, after its state root was computed again over the last committed state. Reth's
    provider factory is a record of what its calls answer; hashing, sorting and the trie are its own. *)

From Stdlib Require Import Strings.String.
From stdpp Require Import base list numbers option strings.
From S2P Require Import Prelude.

Section Persist.
Context {Block Bundle Receipt Hashed Updates : Type} (state_root_of : Block -> Z) (number_of : Block -> Z)
  (from_bundle_state : Bundle -> Hashed).

(** [BlockExecutionOutput] *)
Record ExecutionOutput := { xo_receipts : list Receipt; xo_gas_used : Z; xo_blob_gas_used : Z; xo_state : Bundle }.

(** [ExecutedBlock] *)
Record Executed := { xd_block : Block; xd_output : ExecutionOutput; xd_hashed : Hashed; xd_updates : Updates }.

(** [SaveBlocksInput]: the blocks, the tips they extend, and the tips after them. *)
Record SaveBlocksInput := { si_blocks : list Executed; si_db_tip : Z; si_state_trie_tip : Z; si_new_tip : Z; si_new_state_trie_tip : Z }.

(** The finish checkpoint: the block, and the state and trie tip when it is behind. *)
Record FinishCheckpoint := { fk_block_number : Z; fk_partial_state_trie : option Z }.

Record Factory := {
  fa_latest : result string (Hashed -> result string (Z * Updates));
  fa_provider_rw : result string unit;
  fa_finish : result string (option FinishCheckpoint);
  fa_save : SaveBlocksInput -> result string unit;
  fa_commit : result string unit
}.

(** The tip of the database and of its state: zero before the first checkpoint. *)
Definition tips (finish : option FinishCheckpoint) : Z * Z :=
  match finish with
  | Some checkpoint => (fk_block_number checkpoint, default (fk_block_number checkpoint) (fk_partial_state_trie checkpoint))
  | None => (0, 0)
  end.

(** The result, and what was committed. *)
Definition persist_executed_block (factory : Factory) (block : Block) (bundle_state : Bundle) (receipts : list Receipt) (gas_used : Z)
    : result string unit * option SaveBlocksInput :=
  let prepared :=
    let hashed_state := from_bundle_state bundle_state in
    let? state_root_with_updates := fa_latest factory in
    let? '(computed_root, trie_updates) := state_root_with_updates hashed_state in
    if negb (computed_root =? state_root_of block) then Err "state root mismatch"%string
    else
      let executed := {| xd_block := block;
                         xd_output := {| xo_receipts := receipts; xo_gas_used := gas_used; xo_blob_gas_used := 0; xo_state := bundle_state |};
                         xd_hashed := hashed_state; xd_updates := trie_updates |} in
      let? _ := fa_provider_rw factory in
      let? finish := fa_finish factory in
      let '(db_tip, state_trie_tip) := tips finish in
      if negb (db_tip =? state_trie_tip) then Err "cannot directly persist over a partial state/trie frontier"%string
      else
        let input := {| si_blocks := [executed]; si_db_tip := db_tip; si_state_trie_tip := state_trie_tip; si_new_tip := number_of block;
                        si_new_state_trie_tip := number_of block |} in
        let? _ := fa_save factory input in
        Ok input in
  match prepared with
  | Err e => (Err e, None)
  | Ok input => match fa_commit factory with Ok _ => (Ok tt, Some input) | Err e => (Err e, None) end
  end.

(** What may be committed for a block: it alone, with the state it was executed to and the trie updates
    that give the root in its header, over a database whose state is complete. *)
Record commits (factory : Factory) (block : Block) (bundle : Bundle) (receipts : list Receipt) (gas_used : Z) (input : SaveBlocksInput) : Prop := {
  cm_root : exists root updates, fa_latest factory = Ok root /\ root (from_bundle_state bundle) = Ok (state_root_of block, updates) /\
    si_blocks input = [{| xd_block := block; xd_output := {| xo_receipts := receipts; xo_gas_used := gas_used; xo_blob_gas_used := 0; xo_state := bundle |};
                          xd_hashed := from_bundle_state bundle; xd_updates := updates |}];
  cm_tips : exists finish, fa_finish factory = Ok finish /\ tips finish = (si_db_tip input, si_db_tip input) /\ si_state_trie_tip input = si_db_tip input;
  cm_new : si_new_tip input = number_of block /\ si_new_state_trie_tip input = number_of block
}.

(** A block is persisted whole or not at all: an error commits nothing, and a success commits the block
    with the updates of its own state root over the tips of a database whose state is not behind. *)
Theorem persist_exact (factory : Factory) (block : Block) (bundle : Bundle) (receipts : list Receipt) (gas_used : Z) :
  let '(r, committed) := persist_executed_block factory block bundle receipts gas_used in
  match r with
  | Ok _ => exists input, committed = Some input /\ commits factory block bundle receipts gas_used input
  | Err _ => committed = None
  end.
Proof.
  unfold persist_executed_block. destruct (fa_latest factory) as [root|e] eqn:Hl; [|done]. cbn [rbind].
  destruct (root (from_bundle_state bundle)) as [[computed updates]|e] eqn:Hroot; [|done]. cbn [rbind].
  destruct (Z.eqb_spec computed (state_root_of block)) as [->|]; [|done]. cbn [negb].
  destruct (fa_provider_rw factory) as [u|e]; [|done]. cbn [rbind]. destruct (fa_finish factory) as [finish|e] eqn:Hf; [|done]. cbn [rbind].
  destruct (tips finish) as [db_tip state_tip] eqn:Ht. destruct (Z.eqb_spec db_tip state_tip) as [<-|]; [|done]. cbn [negb].
  destruct (fa_save factory _) as [u'|e]; [|done]. cbn [rbind]. destruct (fa_commit factory) as [u''|e]; [|done].
  eexists. split; [done|]. split; [by exists root, updates|by exists finish|done].
Qed.
End Persist.
