(* ===== verification/NodeConfig.v ===== *)
(** * The configuration of a launch, and dumped blocks

    The start of [launch_impl] in [crates/arb-reth-node/src/launcher.rs]: which RPC servers run and which
    storage layout the database has, and [crates/arb-reth-node/src/commands/dump_blocks.rs]. The command
    line and [reth.toml] may say anything; merging them and the database are Reth's. *)

From Stdlib Require Import Strings.String.
From stdpp Require Import base list numbers option strings.
From S2P Require Import Prelude Crash Ingress.

(** ** RPC servers *)

(** The fields of [RpcServerArgs] that a launch sets. *)
Record RpcArgs := { disable_auth_server : bool; rpc_http : bool; rpc_ws : bool; rpc_ipcdisable : bool }.

(** A launch that does not serve has no server at all. *)
Definition restrict_rpc (serving : bool) (rpc : RpcArgs) : RpcArgs :=
  if serving then {| disable_auth_server := true; rpc_http := rpc_http rpc; rpc_ws := rpc_ws rpc; rpc_ipcdisable := rpc_ipcdisable rpc |}
  else {| disable_auth_server := true; rpc_http := false; rpc_ws := false; rpc_ipcdisable := true |}.

(** The configuration in force: it is restricted before [reth.toml] is merged in, and again after. *)
Definition effective_rpc (mode : ArbLaunchMode) (merge_toml : RpcArgs -> result string RpcArgs) (config : RpcArgs) : result string RpcArgs :=
  let serving := is_serving mode in
  let? merged := merge_toml (restrict_rpc serving config) in
  Ok (restrict_rpc serving merged).

Definition rpc_enabled (rpc : RpcArgs) : bool := rpc_http rpc || rpc_ws rpc || negb (rpc_ipcdisable rpc).

(** Whether add-ons are launched, and with the frontier module. *)
Definition launches_rpc (mode : ArbLaunchMode) (rpc : RpcArgs) (frontier_store : bool) : bool * bool :=
  let serves := is_serving mode && rpc_enabled rpc in (serves, serves && (is_serving mode && frontier_store)).

(** No configuration exposes what the node cannot back: whatever the command line and [reth.toml] say,
    the authenticated engine server is disabled; a finite run serves nothing; and a serving node serves
    what the merged configuration asks for. *)
Theorem rpc_restricted (mode : ArbLaunchMode) (merge_toml : RpcArgs -> result string RpcArgs) (config rpc : RpcArgs) (frontier_store : bool) :
  effective_rpc mode merge_toml config = Ok rpc ->
  disable_auth_server rpc = true /\
  (is_serving mode = false -> rpc_enabled rpc = false /\ launches_rpc mode rpc frontier_store = (false, false)) /\
  (is_serving mode = true -> exists merged, merge_toml (restrict_rpc true config) = Ok merged /\ rpc_enabled rpc = rpc_enabled merged).
Proof.
  unfold effective_rpc, launches_rpc. destruct (is_serving mode) eqn:E; intros (merged & Hm & [= <-])%rbind_Ok; (split; [reflexivity|split]); intros H; try discriminate H.
  - by exists merged.
  - by split.
Qed.

(** ** The storage layout *)

Inductive StorageSettings := V1 | V2.

#[global] Instance StorageSettings_eq_dec : EqDecision StorageSettings.
Proof. solve_decision. Defined.

(** What the database says of its layout, and the flag that every provider reads. *)
Record SettingsStore := { persisted : option StorageSettings; cached : option StorageSettings }.

Definition set_cache (s : SettingsStore) : SettingsStore := {| persisted := persisted s; cached := Some V2 |}.
Definition persist_v2 (s : SettingsStore) : SettingsStore := {| persisted := Some V2; cached := cached s |}.

(** Before the genesis is checked: the flag is cached, and persisted when it is not there or differs.
    [opens] and [commit] are the outcomes of opening a provider and of the commit. The cache is no
    durable write. *)
Definition ensure_storage_v2 (opens : result string unit) (commit : Fault string) : M SettingsStore string unit := fun '(s, n) =>
  (let! _ := lift opens in
   let! s := get in
   if bool_decide (persisted s = Some V2) then mret tt else write commit persist_v2) (set_cache s, n).

(** The database is opened in storage v2: when this returns, providers and the database agree on v2; a
    database that already is v2 is not written; and a failed or interrupted run leaves what was
    persisted, or v2. *)
Theorem storage_v2_ensured (opens : result string unit) (commit : Fault string) (s : SettingsStore) (n : nat) :
  let '(r, (s', n')) := ensure_storage_v2 opens commit (s, n) in
  (r = Ret tt -> persisted s' = Some V2 /\ cached s' = Some V2) /\ (persisted s = Some V2 -> n' = n /\ persisted s' = Some V2) /\
  (persisted s' = persisted s \/ persisted s' = Some V2).
Proof.
  unfold ensure_storage_v2, mthen, lift, get, mret, raise, write. destruct opens as [[]|e]; cbn; [|by split_and!; auto].
  case_bool_decide as Hp; cbn in Hp |- *; [by split_and!; auto|].
  destruct n as [|n]; cbn; [by split_and!; auto|]. destruct commit; cbn; split_and!; intros; simplify_eq; auto.
Qed.

(** ** Dumping blocks *)

Section Dump.
Context {Header Tx Receipt : Type} (seal : Header -> Z) (state_root_of gas_used_of : Header -> Z) (tx_hash : Tx -> Z)
  (status : Receipt -> bool) (cumulative_gas_used : Receipt -> Z).

Inductive TxStatus := TxOk | TxReverted | TxUnknown.

Inductive Dumped :=
| NotFound (bn : Z)
| Block (bn hash state_root gas_used : Z) (counts : option (nat * nat)) (txs : list (nat * Z * TxStatus * Z)).

Definition tx_line (receipts : option (list Receipt)) (i : nat) (tx : Tx) : nat * Z * TxStatus * Z :=
  let r := receipts ≫= (fun l => l !! i) in
  (i, tx_hash tx, match r with Some r => if status r then TxOk else TxReverted | None => TxUnknown end, default 0 (cumulative_gas_used <$> r)).

(** One block, by what the provider answers. *)
Definition dump_block (header_by_number : Z -> result string (option Header)) (transactions_by_block : Z -> result string (option (list Tx)))
    (receipts_by_block : Z -> result string (option (list Receipt))) (bn : Z) : result string Dumped :=
  let? header := header_by_number bn in
  match header with
  | None => Ok (NotFound bn)
  | Some h =>
      let hash := seal h in
      let? txs := transactions_by_block hash in
      let? receipts := receipts_by_block hash in
      Ok (match txs with
          | Some txs => Block bn hash (state_root_of h) (gas_used_of h) (Some (length txs, default O (length <$> receipts))) (imap (tx_line receipts) txs)
          | None => Block bn hash (state_root_of h) (gas_used_of h) None []
          end)
  end.

Fixpoint dump_blocks (header_by_number : Z -> result string (option Header)) (transactions_by_block : Z -> result string (option (list Tx)))
    (receipts_by_block : Z -> result string (option (list Receipt))) (block_numbers : list Z) : list Dumped * result string unit :=
  match block_numbers with
  | [] => ([], Ok tt)
  | bn :: rest =>
      match dump_block header_by_number transactions_by_block receipts_by_block bn with
      | Err e => ([], Err e)
      | Ok d => let '(ds, r) := dump_blocks header_by_number transactions_by_block receipts_by_block rest in (d :: ds, r)
      end
  end.

(** The gas on the line of a transaction is the running total of the block, not its own. *)
Theorem dumped_gas_cumulative (receipts : list Receipt) (txs : list Tx) (i : nat) (tx : Tx) (r : Receipt) :
  txs !! i = Some tx -> receipts !! i = Some r ->
  imap (tx_line (Some receipts)) txs !! i = Some (i, tx_hash tx, if status r then TxOk else TxReverted, cumulative_gas_used r).
Proof. intros Ht Hr. rewrite list_lookup_imap, Ht. cbn. unfold tx_line. cbn. by rewrite Hr. Qed.
End Dump.
